(* ===== verification/_CoqProject ===== *)
-Q . S2P
Prelude.v
GraphSpec.v
Topo.v
TopoSearch.v
TopoComponents.v
Bytes.v
TopoCodec.v
TopoProperties.v
F64.v
KqlLexer.v
KqlState.v
KqlParser.v
KqlExpr.v
KqlGraph.v
KqlQuery.v
SqlScan.v
KqlExprSpec.v
KqlGraphSpec.v
KqlLexSpec.v
KqlQuerySpec.v
KqlRef.v
KqlProperties.v
Cypher.v
CypherParser.v
CypherEmit.v
CypherParserSpec.v
CypherTotal.v
CypherGrammar.v
CypherPattern.v
CypherProperties.v
Arrow.v
BlockStats.v
ColumnStats.v
Pushdown.v
CatalogPrune.v
PruneSpec.v
TlmExtent.v
PruneMain.v
PruneProperties.v
Lru.v
CachingStore.v
CacheSystem.v
CachedStore.v
CacheProperties.v
FtsFile.v
FtsProperties.v
VectorMath.v
VectorFile.v
VectorBuild.v
AnnQuery.v
AnnSpec.v
VectorProperties.v
SqlTable.v
TaskStore.v
TaskQueue.v
TaskQueueSpec.v
TaskQueueSystem.v
TaskQueueProperties.v
JobStore.v
JobLifecycle.v
JobRunner.v
JobProperties.v
CatalogSchema.v
SnapshotDb.v
CatalogOps.v
SnapshotSpec.v
CommitCoordinator.v
Committer.v
Compaction.v
CompactionSpec.v
Retention.v
IngestPath.v
StagingBuffer.v
CatalogSample.v
CatalogProperties.v
IngestProperties.v
MemoryRows.v
MemoryGate.v
MemoryRecall.v
MemoryProperties.v
