(* ===== verification/Prelude.v ===== *)
(** * A verification of pensieve

    pensieve stores telemetry and the memory of agents as immutable _extents_
    (columnar files in an object store) whose metadata is a snapshot catalog in
    the style of Iceberg, and answers queries over them in KQL, by graph
    traversal, by full-text search and by nearest vectors.  This library models
    the part of its Rust code (under src/crates) that decides what is stored,
    what is found and what survives concurrency and failure, and proves what
    makes it correct.

    ** The parts and their files

    - Graph topology.  [Topo] builds the CSR arrays of [CsrGraph]
      (pensieve-graph-topo/src/lib.rs: [build], [build_csr], [step]);
      [TopoSearch] has the traversals [k_hop], [var_length],
      [shortest_path_len], [connected_components]; [TopoCodec] the byte format
      ([to_bytes], [from_bytes]).  [GraphSpec] is the abstract multigraph they
      are measured against, with the search invariant they share,
      [TopoComponents] the labelling of components.  Theorems:
      [TopoProperties].
    - KQL.  [KqlLexer] (pensieve-kql/src/lexer.rs), [KqlState] (state.rs),
      [KqlParser], [KqlExpr], [KqlGraph], [KqlQuery] (parser.rs) translate a
      query to SQL text; [F64] reads and prints floating-point literals.
      [SqlScan] says what it means that a SQL text is lexically closed, and
      [KqlExprSpec], [KqlGraphSpec], [KqlLexSpec], [KqlQuerySpec] are a program
      logic that shows termination, absence of panics and closedness level by
      level, and [KqlQuerySpec] isolates the use of schemas; [KqlRef] is a
      reference grammar of expressions with its translation.  Theorems: [KqlProperties].
    - Cypher (pensieve-kql/src/cypher.rs) is lowered to KQL text.  [Cypher] has
      the lexer and the syntax trees, [CypherParser] the parser (reads, and
      CREATE/MERGE plans), [CypherEmit] the emitter.  [CypherParserSpec] is a
      program logic for the parser and the shapes it returns, [CypherTotal] the
      totality of the emitter and the projections of a plan, [CypherGrammar] the
      grammar of WHERE.  [CypherPattern] reads the emitted filters and patterns back with the KQL lexer and parser, by the piecewise
      readings of [KqlLexSpec].  Theorems: [CypherProperties].
    - Extents and pruning.  [BlockStats] and [ColumnStats] are the statistics of
      pensieve-format-tlm (block_stats.rs, column_stats.rs, and [evaluate] of
      reader.rs); [TlmExtent] the writer and the reader of an extent (writer.rs,
      reader.rs) over any object store; [Pushdown] the predicates a scan
      extracts from a query (pensieve-exec/src/lib.rs); [CatalogPrune] the
      listing of extents (pensieve-catalog-sqlite/src/lib.rs, and the time range
      of pensieve-catalog/src/lib.rs).  [Arrow] is the data they work on.
      [PruneSpec] gives the filters their meaning on rows, [ColumnStats] and
      [TlmExtent] also say what statistics and extents contain, [PruneMain] puts
      the cascade together.  Theorems: [PruneProperties].
    - Read cache.  [Lru] and [CachingStore] (pensieve-storage/src/cache.rs) over
      any inner store, where each method is transparent;
      [CacheSystem] runs sequences of calls and interleaves their critical
      sections; [CachedStore] makes the cache the object store of the extent
      format.  Theorems: [CacheProperties].
    - Full-text sidecars.  [FtsFile] (pensieve-index-fts/src: file.rs,
      tokenizer.rs, build.rs).  Theorems: [FtsProperties].
    - Vector index and nearest-neighbour queries.  [VectorMath]
      (pensieve-index-vector/src: rng.rs, ivf.rs) has binary32 vectors and
      k-means, [VectorFile] (rabitq.rs, file.rs) the one-bit codes and the sidecar
      format, [VectorBuild] (build.rs, builder.rs, search.rs, global_tree.rs) the
      builder and the table-wide routing tree; [AnnQuery] (pensieve-exec: ann.rs,
      ann_tree.rs, udfs_vector.rs; pensieve-jobs: ann_maintain.rs) the query and
      the job that rebuilds the tree, over the class [AnnEnv] of what they call.
      [AnnSpec] says which rows an extent and its index have and what a query
      makes of them, and what the job hands to the query.  Theorems:
      [VectorProperties].
    - Background tasks and the queue.  [TaskStore] is the background_tasks table
      with the statements of both catalogs; its class [TaskCatalog] is the
      interface to [TaskQueue], the queue and worker of pensieve-queue, and
      both catalogs are shown to keep its contract.
      [TaskQueueSystem] interleaves clients and worker, one step per access to a
      shared object.  Theorems: [TaskQueueProperties].
    - Job fabric.  [JobStore] is the jobs table with the statements of
      [PgFabricStore] (pensieve-catalog/src/fabric.rs) and [SqliteQueue]
      (pensieve-local/src/sqlite_queue.rs), and the runner of pensieve-jobs;
      [JobLifecycle] the state machine of a row, [JobRunner] the contract
      [JobQueueLaws] of the runner and the local queue as a step relation.
      Theorems: [JobProperties].
    - Snapshot catalog.  [CatalogSchema] stores schemas as JSON; [SnapshotDb]
      has the rows and the snapshot transaction
      (pensieve-catalog-sqlite/src/snapshot.rs); [CatalogOps] the other
      operations on databases, tables, extents and staged extents.  A [Db] is
      the whole database, and a database transaction is one function on it.
      [SnapshotSpec] has the invariant and the replay of the commits, and what
      names mean.
    - Ingestion (pensieve-ingest-core).  [IngestPath] is the write path of one
      request with the ledger of idempotency keys (lib.rs), a state and error
      monad, and how a request and its repetitions end.  [StagingBuffer] is the
      staging buffer (staging.rs): its critical sections as functions, then
      callers, timer, flushes and commits as a step system with one step per
      access to the buffer, the database or the store, and the invariants of its
      reachable states: where every waiter is, what every extent holds, how the
      history of the database came about.  Theorems: [IngestProperties].
    - Users of the catalog.  [CommitCoordinator] and [Committer]
      (pensieve-ingest-core), [Compaction] and [Retention]
      (pensieve-compaction), each run in a [World] that acts on the database
      between any two of their calls and may fail any of them; their end in every
      lawful world is in [CommitCoordinator] and [CompactionSpec].  [CatalogSample]
      has the worlds of the witnesses.  Theorems: [CatalogProperties].
    - Agentic memory.  [MemoryRows] (pensieve-memory/src: types.rs, rows.rs,
      schema.rs, writer.rs, ingest.rs) has the data, the rows of the two tables,
      redaction, and one flush of the queue of memory operations.  [MemoryGate]
      (pensieve-server/src/agent: memory_policy.rs, memory_queue_store.rs,
      memory_gate.rs, memory_conflict.rs) is the policy that applies, records or
      defers a mutation, the applier, its inverses and the approval queue, in a
      state and error monad over a [World] with both tables and both queue
      stores; an [Env] says what others do before each call and which calls
      fail.  A memory is the newest of its versions ([view]), and [applied],
      [moves] and [undoes] say what a run does to the views.  [MemoryRecall]
      (pensieve-memory/src/sql.rs; pensieve-server/src: agent/memory_retrieve.rs,
      auth/scope.rs) has the texts of the queries, the meaning of their
      conditions and the retrieval pipeline.  Theorems: [MemoryProperties].

    This file has what all of them share: outcomes of Rust code, loops, machine
    integers and the generic lemmas and tactics.  [Bytes] adds little-endian
    integers, UTF-8 and the character classes; [SqlTable] what SQL statements do
    to a table.

    ** What the theorems show

    - Meaning: queries, traversals and pruning compute what their reference
      says (reference translation of KQL expressions; Cypher conditions and
      patterns read back as KQL; walks and distances of the
      multigraph; no false negatives of either pruning level; the cache answers
      as the store below it; a vector query that probes everything is the
      exhaustive scan, and any query returns true rows at their true distances).
    - Concurrency: the live extents are those of the committed transactions run
      one after the other; histories have no fork and no gap; staged extents are
      committed exactly once; a lease excludes other workers; the queue is first
      in, first out, and a barrier covers what it promises under the discipline
      its theorem states.
    - Conservation: merging extents neither loses nor invents rows; the
      collector deletes nothing that is alive; a request that entered the staging
      buffer is in one place until it is answered, and its acknowledgement means
      an extent that reads back as its rows; retries under a key write once, and a
      batch of memory operations that is retried lands once.
    - Memory: undoing a mutation that was let through for review restores what
      recall finds of every memory; a deferred one runs once, when it is
      approved; a token restricted to some realms recalls nothing of others;
      private spans are not stored; no text of a caller leaves its literal in
      the SQL of recall.  The first two are about runs without interference or
      failing calls ([quiet]), with a clock that ticks ([ticks]) and an engine
      that ranks versions by time ([picks_newest]); the third about an engine
      whose rows satisfy their query's conditions ([answers]).
    - Robustness: totality of the translators, corruption of byte formats is
      noticed, no bytes make a vector sidecar or tree read out of bounds, every submit is answered, every job comes to an end.
    - Where the code does less than it should, a theorem or an example exhibits
      the input: interleavings of a cache read with an overwrite, of two merges
      of the same extents, of a replay with a barrier, of two requests with
      different schemas, of two approvals of a row; statements that prune
      matching extents; queries whose SQL says something else; updates that make
      a private memory public; recall that shows a private neighbour.

    ** Conventions, fuel and bounds

    A partial or failing function returns an [outcome]: a value, an error, a
    panic, or the end of its fuel.  Recursion that is not structural has fuel,
    and theorems show that it suffices: the number of nodes for searches (a node
    is queued once), the number of remaining tokens or characters for the
    translators, the attempts left in the store for replays.  Machine integers
    are N or Z with their casts and wrap-around written out; timestamps are
    nanoseconds.  Bytes are [ascii], Rust strings are the [string] of their
    UTF-8 bytes.  Code that is not in the repository is a parameter: the codecs
    of Arrow and serde ([Codec]), chrono ([Chrono]), the query engine
    ([Engine]), object stores, the texts of database errors ([Database]); what
    is assumed of them is in classes of laws, each with an instance that the
    witnesses use.  A hash map whose order matters is an arbitrary permutation.

    ** Not modelled

    Third-party engines (DataFusion, tantivy, sqlx, object stores) and what only
    calls them: the scan loop, full-text index builds, embeddings, data sources,
    HTTP, gRPC, Kafka and MCP front ends, the command line, the agent's
    conversation.  Metrics, logging and back-off sleeps.  Of the agent's memory:
    provisioning of the tables (they exist), the JSON of queue payloads (what
    serde derives reads back what it wrote), the prompts of the extraction and of
    the conflict decision, diversity re-ranking, reinforcement, decay (the
    recency of a memory is a parameter), PageRank (a parameter), the lookups in
    the indexes that propose candidates, the context text, activities and file
    candidates, and the remaining tools. Of the catalogs: nodes, users,
    tokens, dashboards, graphs, quotas, credentials, and on Postgres the JSON
    predicates of the listing. Connection loss inside a transaction is an
    error of the whole call. Of the job fabric: worker registration and the
    unique indexes of the migrations, which are a parameter. *)

From stdpp Require Import base gmap strings list fin_maps sorting.
From Stdlib Require Import NArith ZArith Lia.

(** ** Outcomes of Rust code

    A Rust function that is modelled in this development either returns a
    value, returns an [Err], panics (an out-of-range index, an [expect]), or,
    for a loop whose recursion is not structural, exhausts the fuel the model
    gave it.  The last case is an artefact of the model: theorems show that it
    does not occur with the fuel the definitions pass. *)
Inductive outcome (E A : Type) : Type :=
  | Ret (a : A)
  | Fail (e : E)
  | Panic
  | OutOfFuel.
Arguments Ret {E A} a.
Arguments Fail {E A} e.
Arguments Panic {E A}.
Arguments OutOfFuel {E A}.

#[export] Instance outcome_ret E : MRet (outcome E) := fun A a => Ret a.
#[export] Instance outcome_bind E : MBind (outcome E) := fun A B k m =>
  match m with
  | Ret a => k a
  | Fail e => Fail e
  | Panic => Panic
  | OutOfFuel => OutOfFuel
  end.
#[export] Instance outcome_fmap E : FMap (outcome E) := fun A B f m =>
  match m with
  | Ret a => Ret (f a)
  | Fail e => Fail e
  | Panic => Panic
  | OutOfFuel => OutOfFuel
  end.

(** Code with no [Err] of its own. *)
Abbreviation infallible := (outcome Empty_set).

(** Rust indexing [v[i]] and [map[&k]]: a missing element panics. *)
Definition or_panic {E A} (o : option A) : outcome E A :=
  match o with Some a => Ret a | None => Panic end.

(** [opt.ok_or(e)?] *)
Definition or_fail {E A} (e : E) (o : option A) : outcome E A :=
  match o with Some a => Ret a | None => Fail e end.

(** Rust [v[i] = x]: out of range panics (stdpp's insert would do nothing). *)
Definition set_index {E A} (l : list A) (i : nat) (x : A) : outcome E (list A) :=
  if decide (i < length l) then Ret (<[i := x]> l) else Panic.

(** A [for] loop over [l] that threads a state and may fail. *)
Fixpoint for_each {E A S} (f : A -> S -> outcome E S) (l : list A) (s : S) : outcome E S :=
  match l with
  | [] => Ret s
  | x :: l => s' ← f x s; for_each f l s'
  end.

Lemma bind_Ret {E A B} (m : outcome E A) (k : A -> outcome E B) b :
  (m ≫= k) = Ret b <-> exists a, m = Ret a /\ k a = Ret b.
Proof.
  destruct m; simpl; split; try (intros (? & H & ?); congruence); try discriminate.
  - intros H. eauto.
Qed.

(** A bind panics only where its parts do. *)
Lemma bind_no_panic {E A B} (m : outcome E A) (k : A -> outcome E B) :
  m <> Panic -> (forall a, m = Ret a -> k a <> Panic) -> (m ≫= k) <> Panic.
Proof. destruct m; cbn; auto; discriminate. Qed.

Lemma or_fail_no_panic {E A} (e : E) (o : option A) : or_fail e o <> Panic.
Proof. by destruct o. Qed.

Lemma or_fail_Ret {E A} (e : E) (o : option A) a : or_fail e o = Ret a <-> o = Some a.
Proof. destruct o; cbn; split; congruence. Qed.

Lemma for_each_app {E A S} (f : A -> S -> outcome E S) l1 l2 s :
  for_each f (l1 ++ l2) s = (for_each f l1 s ≫= for_each f l2).
Proof.
  revert s; induction l1 as [|x l1 IH]; intros s; simpl; [done|].
  destruct (f x s); simpl; [apply IH|done..].
Qed.

(** The loop rule: an invariant indexed by the elements consumed so far, which
    every iteration re-establishes without failing, holds at the end. *)
Lemma for_each_inv {E A S} (f : A -> S -> outcome E S) (I : list A -> S -> Prop) l s :
  I [] s ->
  (forall done x rest s', l = done ++ x :: rest -> I done s' ->
     exists s'', f x s' = Ret s'' /\ I (done ++ [x]) s'') ->
  exists s', for_each f l s = Ret s' /\ I l s'.
Proof.
  intros H0 Hstep.
  enough (Hgen : forall rest done s, l = done ++ rest -> I done s ->
            exists s', for_each f rest s = Ret s' /\ I l s') by exact (Hgen l [] s eq_refl H0).
  intros rest; induction rest as [|x rest IH]; intros pre s' Hl HI; simpl.
  - exists s'. rewrite app_nil_r in Hl. subst. done.
  - destruct (Hstep pre x rest s' Hl HI) as (s'' & -> & HI'). simpl.
    apply (IH (pre ++ [x])); [|done]. by rewrite <-app_assoc.
Qed.

(** A loop that ends keeps every invariant its successful iterations keep. *)
Lemma for_each_Ret {E A S} (f : A -> S -> outcome E S) (I : list A -> S -> Prop) l s s' :
  I [] s ->
  (forall pre x s1 s2, f x s1 = Ret s2 -> I pre s1 -> I (pre ++ [x]) s2) ->
  for_each f l s = Ret s' -> I l s'.
Proof.
  intros H0 Hstep.
  enough (Hgen : forall rest pre s, l = pre ++ rest -> I pre s -> for_each f rest s = Ret s' -> I l s')
    by exact (Hgen l [] s eq_refl H0).
  intros rest; induction rest as [|x rest IH]; intros pre s1 Hl HI; simpl.
  - intros [= ->]. by rewrite Hl, app_nil_r.
  - intros (s2 & Hf & Hr)%bind_Ret. apply (IH (pre ++ [x]) s2); [|by eapply Hstep|done].
    by rewrite <-app_assoc.
Qed.

(** A computation without errors of its own inside one with errors. *)
Definition lift {E A} (m : infallible A) : outcome E A :=
  match m with
  | Ret a => Ret a
  | Fail e => match e with end
  | Panic => Panic
  | OutOfFuel => OutOfFuel
  end.

Lemma lift_Ret {E A} (m : infallible A) (a : A) : lift (E:=E) m = Ret a <-> m = Ret a.
Proof. destruct m; simpl; try done; split; congruence. Qed.

(** ** [slice::sort_by]

    A stable sort; of a comparison that is a total order on the elements every
    stable sort is this one. *)

Fixpoint insert_by {A} (cmp : A -> A -> comparison) (x : A) (l : list A) : list A :=
  match l with
  | [] => [x]
  | y :: l' => match cmp x y with Gt => y :: insert_by cmp x l' | _ => x :: l end
  end.

Definition sort_by {A} (cmp : A -> A -> comparison) (l : list A) : list A := foldr (insert_by cmp) [] l.

Definition not_greater {A} (cmp : A -> A -> comparison) : relation A := fun a b => cmp a b <> Gt.

Lemma insert_by_Permutation {A} (cmp : A -> A -> comparison) x l : insert_by cmp x l ≡ₚ x :: l.
Proof.
  induction l as [|y l IH]; cbn; [done|]. destruct (cmp x y); [done..|]. rewrite IH. by apply Permutation_swap.
Qed.

Lemma sort_by_Permutation {A} (cmp : A -> A -> comparison) l : sort_by cmp l ≡ₚ l.
Proof. induction l as [|x l IH]; cbn; [done|]. by rewrite insert_by_Permutation, IH. Qed.

Lemma length_sort_by {A} (cmp : A -> A -> comparison) l : length (sort_by cmp l) = length l.
Proof. by rewrite sort_by_Permutation. Qed.

Section Sorted.
Context {A : Type} (cmp : A -> A -> comparison) (P : A -> Prop).
(** A total order on the elements that satisfy [P]. *)
Context (Htrans : forall a b c, P a -> P b -> P c -> not_greater cmp a b -> not_greater cmp b c -> not_greater cmp a c).
Context (Htotal : forall a b, P a -> P b -> cmp a b = Gt -> not_greater cmp b a).

Lemma insert_by_sorted x l : P x -> Forall P l -> StronglySorted (not_greater cmp) l ->
  StronglySorted (not_greater cmp) (insert_by cmp x l).
Proof.
  intros Hx Hl Hs. induction Hs as [|y l Hs IH Hy]; cbn; [by repeat constructor|].
  apply Forall_cons in Hl as [Hpy Hpl].
  assert (not_greater cmp x y -> StronglySorted (not_greater cmp) (x :: y :: l)) as Hfront.
  { intros Hxy. constructor; [by constructor|]. constructor; [done|].
    rewrite Forall_forall in *. intros z Hz. eapply (Htrans x y z); auto. }
  destruct (cmp x y) eqn:E; [apply Hfront; unfold not_greater; by rewrite E..|].
  constructor; [by apply IH|]. rewrite insert_by_Permutation. constructor; [by apply Htotal|done].
Qed.

Lemma sort_by_sorted l : Forall P l -> StronglySorted (not_greater cmp) (sort_by cmp l).
Proof.
  induction 1 as [|x l Hx Hl IH]; [constructor|]. change (sort_by cmp (x :: l)) with (insert_by cmp x (sort_by cmp l)).
  apply insert_by_sorted; [done| |done]. by rewrite sort_by_Permutation.
Qed.

(** Sorted lists with the same elements, no two of which compare equal, are
    the same list. *)
Lemma sorted_unique l l' : Forall P l -> (forall a b, a ∈ l -> b ∈ l -> not_greater cmp a b -> not_greater cmp b a -> a = b) ->
  StronglySorted (not_greater cmp) l -> StronglySorted (not_greater cmp) l' -> l ≡ₚ l' -> l = l'.
Proof.
  intros HP Hanti Hs. revert l'. induction Hs as [|x l Hs IH Hx]; intros l' Hs' Hperm.
  { by apply Permutation_nil_l in Hperm. }
  destruct Hs' as [|y l' Hs' Hy]; [by apply Permutation_nil_r in Hperm|].
  assert (x = y) as <-.
  { assert (x ∈ y :: l') as [->|Hin]%elem_of_cons by (rewrite <-Hperm; by left); [done|].
    assert (y ∈ x :: l) as Hyl by (rewrite Hperm; by left).
    rewrite Forall_forall in Hx, Hy. apply Hanti; [by left|done| |by apply Hy].
    apply elem_of_cons in Hyl as [->|Hyl]; [|by apply Hx].
    apply Forall_cons in HP as [HPx _]. intros Hgt. by apply (Htotal x x). }
  f_equal. apply IH; [by apply Forall_cons in HP as []| |done|by eapply Permutation_cons_inv].
  intros a b Ha Hb. apply Hanti; by right.
Qed.

Lemma StronglySorted_take (R : relation A) k l : StronglySorted R l -> StronglySorted R (take k l).
Proof using.
  clear. intros Hs. revert k. induction Hs as [|x l Hs IH Hx]; intros [|k]; cbn; try constructor; [by apply IH|].
  by apply Forall_take.
Qed.

(** What is not among the first [k] comes after each of them. *)
Lemma take_sorted k l x : StronglySorted (not_greater cmp) l -> x ∈ l ->
  x ∈ take k l \/ (length (take k l) = k /\ Forall (fun y => not_greater cmp y x) (take k l)).
Proof.
  intros Hs. revert k. induction Hs as [|y l Hs IH Hy]; intros k Hx; [by apply elem_of_nil in Hx|].
  destruct k as [|k]; [right; cbn; split; [done|constructor]|]. cbn [take].
  apply elem_of_cons in Hx as [->|Hx]; [left; by left|].
  destruct (IH k Hx) as [Hin|[Hl Hf]]; [left; by right|right]. split; [cbn; lia|].
  constructor; [|done]. by apply Forall_forall with (x := x) in Hy.
Qed.
End Sorted.

(** The loop rule for [for i in a..a+n]. *)
Lemma for_range_inv {E S} (f : nat -> S -> outcome E S) (I : nat -> S -> Prop) a n s :
  I a s ->
  (forall i s', a <= i < a + n -> I i s' -> exists s'', f i s' = Ret s'' /\ I (i + 1) s'') ->
  exists s', for_each f (seq a n) s = Ret s' /\ I (a + n) s'.
Proof.
  revert a s; induction n as [|n IH]; intros a s H0 Hstep; simpl.
  - exists s. by rewrite Nat.add_0_r.
  - destruct (Hstep a s) as (s'' & -> & HI); [lia|done|]. simpl.
    rewrite Nat.add_1_r in HI. destruct (IH (Datatypes.S a) s'' HI) as (s' & -> & HI').
    { intros i s' Hi. apply Hstep. lia. }
    exists s'. split; [done|]. by replace (a + Datatypes.S n) with (Datatypes.S a + n) by lia.
Qed.

Lemma set_index_ok {E A} (l : list A) i x :
  i < length l -> set_index (E:=E) l i x = Ret (<[i := x]> l).
Proof. intros H. unfold set_index. by rewrite decide_True. Qed.

(** ** Buckets

    A loop that appends each element to the bucket it belongs to. *)
Definition buckets {A B} (g : A -> nat) (h : A -> B) (n : nat) (l : list A) : list (list B) :=
  (fun p => h <$> filter (fun x => g x = p) l) <$> seq 0 n.

Lemma length_buckets {A B} (g : A -> nat) (h : A -> B) n l : length (buckets g h n l) = n.
Proof. unfold buckets. by rewrite length_fmap, length_seq. Qed.

Lemma buckets_lookup {A B} (g : A -> nat) (h : A -> B) n l p : p < n ->
  buckets g h n l !! p = Some (h <$> filter (fun x => g x = p) l).
Proof. intros Hp. unfold buckets. by rewrite list_lookup_fmap, lookup_seq_lt. Qed.

Lemma buckets_snoc {A B} (g : A -> nat) (h : A -> B) n l x :
  g x < n -> buckets g h n (l ++ [x]) = <[g x := (h <$> filter (fun y => g y = g x) l) ++ [h x]]> (buckets g h n l).
Proof.
  intros Hx. apply list_eq. intros p. destruct (decide (p < n)) as [Hp|Hp].
  - rewrite buckets_lookup by done. destruct (decide (p = g x)) as [->|Hne].
    + rewrite list_lookup_insert_eq by (by rewrite length_buckets). by rewrite filter_app, filter_cons_True, fmap_app by done.
    + rewrite list_lookup_insert_ne by done. rewrite buckets_lookup by done.
      by rewrite filter_app, filter_cons_False, app_nil_r by done.
  - rewrite !lookup_ge_None_2; [done|rewrite length_insert|]; rewrite length_buckets; lia.
Qed.

Lemma buckets_Permutation {A B} (g : A -> nat) (h : A -> B) n l :
  Forall (fun x => g x < n) l -> concat (buckets g h n l) ≡ₚ h <$> l.
Proof.
  induction l as [|x l IH] using rev_ind; intros Hl.
  - unfold buckets. cbn. induction (seq 0 n) as [|p ps IHp]; [done|]. cbn. done.
  - apply Forall_app in Hl as [Hl [Hx _]%Forall_cons]. rewrite buckets_snoc by done.
    rewrite <-(take_drop_middle (buckets g h n l) (g x) (h <$> filter (fun y => g y = g x) l)) in IH
      by (by apply buckets_lookup).
    rewrite insert_take_drop by (by rewrite length_buckets). rewrite fmap_app, <-(IH Hl), !concat_app.
    cbn [concat fmap list_fmap]. rewrite <-!app_assoc. solve_Permutation.
Qed.

Lemma buckets_ext {A A' B} (g : A -> nat) (g' : A' -> nat) (h : A -> B) (h' : A' -> B) n l l' :
  Forall2 (fun x y => g x = g' y /\ h x = h' y) l l' -> buckets g h n l = buckets g' h' n l'.
Proof.
  intros Hl. unfold buckets. apply list_fmap_ext. intros _ p _.
  induction Hl as [|x y l l' [Hg Hh] Hl IH]; [done|]. rewrite !filter_cons, Hg.
  destruct (decide (g' y = p)); cbn; by rewrite ?Hh, IH.
Qed.

(** The loop itself, over elements that each find a bucket. *)
Lemma push_loop {E A B} (f : A -> list (list B) -> outcome E (list (list B))) (g : A -> nat) (h : A -> B) n l :
  (forall x st part, x ∈ l -> length st = n -> st !! g x = Some part -> f x st = Ret (<[g x := part ++ [h x]]> st)) ->
  Forall (fun x => g x < n) l -> for_each f l (replicate n []) = Ret (buckets g h n l).
Proof.
  intros Hf Hl.
  destruct (for_each_inv f (fun pre st => st = buckets g h n pre) l (replicate n [])) as (st & Hst & ->); [| |done].
  - unfold buckets. apply list_eq. intros p. destruct (decide (p < n)) as [Hp|Hp].
    + by rewrite lookup_replicate_2, list_lookup_fmap, lookup_seq_lt by done.
    + rewrite !lookup_ge_None_2; [done| |]; rewrite ?length_replicate, ?length_fmap, ?length_seq; lia.
  - intros pre x rest st -> ->. assert (g x < n) as Hx.
    { apply Forall_app in Hl as [_ [Hx _]%Forall_cons]. done. }
    eexists. split; [|by rewrite buckets_snoc].
    rewrite (Hf x _ (h <$> filter (fun y => g y = g x) pre)); [done| |by apply length_buckets|by apply buckets_lookup].
    apply elem_of_app. right. apply elem_of_cons. by left.
Qed.

(** ** Machine integers

    Counters and indices are [nat]; a cast [x as u32] and an addition at type
    [u32] wrap.  The modulus is computed in [N], so the definitions evaluate. *)
Definition as_u32 (n : nat) : nat := N.to_nat (N.of_nat n `mod` 2 ^ 32).
Definition fits_u32 (n : nat) : Prop := (N.of_nat n < 2 ^ 32)%N.
#[global] Arguments as_u32 : simpl never.

Lemma as_u32_id n : fits_u32 n -> as_u32 n = n.
Proof. unfold fits_u32, as_u32. intros H. rewrite N.mod_small by done. lia. Qed.

Lemma fits_u32_le n m : n <= m -> fits_u32 m -> fits_u32 n.
Proof. unfold fits_u32. lia. Qed.

Lemma as_u32_le n : as_u32 n <= n.
Proof. unfold as_u32. pose proof (N.Div0.mod_le (N.of_nat n) (2^32)). lia. Qed.

(** ** Automation *)
Create HintDb pensieve discriminated.
#[export] Hint Resolve as_u32_le fits_u32_le : pensieve.
Create Rewrite HintDb pensieve.
#[export] Hint Rewrite @for_each_app @length_insert @length_replicate : pensieve.

(** Split conjunctions and existentials in hypotheses, inverting [Ret]. *)
Ltac outcome_inv :=
  repeat match goal with
  | H : Ret _ = Ret _ |- _ => injection H as H; subst
  | H : Ret _ = Fail _ |- _ => discriminate H
  | H : Ret _ = Panic |- _ => discriminate H
  | H : Ret _ = OutOfFuel |- _ => discriminate H
  | H : Fail _ = Ret _ |- _ => discriminate H
  | H : Panic = Ret _ |- _ => discriminate H
  | H : OutOfFuel = Ret _ |- _ => discriminate H
  | H : (_ ≫= _) = Ret _ |- _ => apply bind_Ret in H as (? & ? & H)
  end.

(** ** Lists *)
Lemma filter_snoc {A} (P : A -> Prop) `{!forall x, Decision (P x)} l x :
  filter P (l ++ [x]) = filter P l ++ (if decide (P x) then [x] else []).
Proof. rewrite filter_app. f_equal. Qed.

(** The fold rule: an invariant indexed by the elements consumed so far. *)
Lemma foldl_inv {A S} (f : S -> A -> S) (I : list A -> S -> Prop) l s :
  I [] s -> (forall pre x s', (exists rest, l = pre ++ x :: rest) -> I pre s' -> I (pre ++ [x]) (f s' x)) ->
  I l (foldl f s l).
Proof.
  intros H0. induction l as [|x l IH] using rev_ind; intros Hstep; [done|].
  rewrite foldl_app. simpl. apply Hstep; [by exists []|].
  apply IH. intros pre y s' [rest ->]. apply Hstep. exists (rest ++ [x]). by rewrite <-app_assoc.
Qed.

(** A list together with the map from its elements to their positions, as the
    interning loops of the code maintain it. *)
Definition interned (l : list string) (m : gmap string nat) : Prop :=
  NoDup l /\ forall s i, m !! s = Some i <-> l !! i = Some s.

Lemma interned_empty : interned [] ∅.
Proof. split; [constructor|]. intros s i. rewrite lookup_empty. by destruct i. Qed.

Lemma interned_None l m s : interned l m -> m !! s = None <-> s ∉ l.
Proof.
  intros [_ H]. rewrite <-not_elem_of_dom. rewrite list_elem_of_lookup.
  setoid_rewrite <-H. by rewrite elem_of_dom.
Qed.

Lemma interned_snoc l m s :
  interned l m -> m !! s = None -> interned (l ++ [s]) (<[s := length l]> m).
Proof.
  intros Hi Hs. pose proof (proj1 (interned_None _ _ _ Hi) Hs) as Hnin. destruct Hi as [Hnd H].
  split.
  - apply NoDup_app. split_and!; [done| |apply NoDup_singleton].
    intros x Hx ->%list_elem_of_singleton. done.
  - intros x i. rewrite lookup_insert. destruct (decide (s = x)) as [->|Hne].
    + split; [intros [= <-]; by rewrite lookup_app_r, Nat.sub_diag|].
      intros [Hl|[Hge Hl]]%lookup_app_Some.
      * destruct Hnin. by apply list_elem_of_lookup_2 in Hl.
      * apply list_lookup_singleton_Some in Hl as [Hl _]. f_equal. lia.
    + rewrite H. split.
      * intros Hl. rewrite lookup_app_l; [done|by eapply lookup_lt_Some].
      * intros [Hl|[Hge Hl]]%lookup_app_Some; [done|].
        apply list_lookup_singleton_Some in Hl as [_ Hl]. done.
Qed.

Lemma NoDup_lookup_inj {A} (l : list A) i j x :
  NoDup l -> l !! i = Some x -> l !! j = Some x -> i = j.
Proof. intros. by eapply NoDup_lookup. Qed.

(** ** Eventually

    Every run of [step] from the state reaches [P]: [P] holds, or a step is
    possible and [P] holds eventually after each. *)
Inductive eventually {A} (step : A -> A -> Prop) (P : A -> Prop) (s : A) : Prop :=
  | eventually_now : P s -> eventually step P s
  | eventually_step : (exists s', step s s') -> (forall s', step s s' -> eventually step P s') -> eventually step P s.

(** An invariant of the steps may be used at the end of a run. *)
Lemma eventually_weaken {A} (P Q I : A -> Prop) (step : A -> A -> Prop) s :
  (forall s s', step s s' -> I s -> I s') -> (forall s, I s -> P s -> Q s) -> I s -> eventually step P s -> eventually step Q s.
Proof.
  intros Hpres HPQ Hi Hev. revert Hi. induction Hev as [s Hp|s Hex _ IH]; intros Hi; [apply eventually_now; auto|].
  apply eventually_step; [done|]. eauto.
Qed.

(** Runs end when every state that is not final can step, and every step from
    it keeps the invariant and decreases a measure. *)
Lemma eventually_measure {A} (P I : A -> Prop) (m : A -> nat) (step : A -> A -> Prop) s :
  (forall s, I s -> P s \/ ~ P s) -> (forall s, I s -> ~ P s -> exists s', step s s') ->
  (forall s s', I s -> ~ P s -> step s s' -> I s' /\ m s' < m s) -> I s -> eventually step P s.
Proof.
  intros Hdec Hprog Hdecr. remember (m s) as n eqn:Hn. revert s Hn.
  induction (lt_wf n) as [n _ IH]. intros s -> Hi. destruct (Hdec s Hi) as [Hp|Hp]; [by apply eventually_now|].
  apply eventually_step; [auto|]. intros s' Hst. destruct (Hdecr s s' Hi Hp Hst) as [Hi' Hlt]. eauto.
Qed.
