(* ===== verification/GraphSpec.v ===== *)
(** * Abstract graphs: walks, hop distance, and the multigraph the engines index

    The specification side of the graph components: what a directed multigraph
    given by a node list and an edge list *means* (module documentation of
    [pensieve-graph-topo/src/lib.rs] and [pensieve-graph-testkit/src/oracle.rs]),
    independently of any array layout. *)

From stdpp Require Import base gmap strings list.
From Stdlib Require Import Lia.
From S2P Require Import Prelude.

(** ** Walks and hop distance over a neighbour function *)
Section Walks.
Context {A : Type} (nbr : A -> list A).

Inductive walk : nat -> A -> A -> Prop :=
  | walk_nil u : walk 0 u u
  | walk_snoc n u v w : walk n u v -> w ∈ nbr v -> walk (S n) u w.

(** [v] is reachable from [u], and [d] is the least number of hops. *)
Definition dist (u v : A) (d : nat) : Prop :=
  walk d u v /\ forall m, walk m u v -> d <= m.

Definition reachable (u v : A) : Prop := exists n, walk n u v.

Lemma walk_one u v : v ∈ nbr u -> walk 1 u v.
Proof. intros H. eapply walk_snoc; [apply walk_nil|done]. Qed.

Lemma walk_app n m u v w : walk n u v -> walk m v w -> walk (n + m) u w.
Proof.
  intros Hn Hm; revert n Hn; induction Hm as [v|m v x y Hm IH Hy]; intros n Hn.
  - by rewrite Nat.add_0_r.
  - rewrite Nat.add_succ_r. eapply walk_snoc; eauto.
Qed.

Lemma dist_unique u v d d' : dist u v d -> dist u v d' -> d = d'.
Proof. intros [H1 H2] [H3 H4]. apply H2 in H3. apply H4 in H1. lia. Qed.

Lemma dist_refl u : dist u u 0.
Proof. split; [constructor|lia]. Qed.

Lemma dist_0 u v : dist u v 0 <-> u = v.
Proof.
  split; [intros [H _]; by inversion H|intros ->; apply dist_refl].
Qed.

Lemma reachable_trans u v w : reachable u v -> reachable v w -> reachable u w.
Proof. intros [n Hn] [m Hm]. exists (n + m). by eapply walk_app. Qed.

(** When the neighbour relation is symmetric, so is reachability. *)
Lemma reachable_sym u v :
  (forall x y, y ∈ nbr x -> x ∈ nbr y) -> reachable u v -> reachable v u.
Proof.
  intros Hsym [n Hn]. induction Hn as [u|n u v w Hn IH Hw]; [exists 0; constructor|].
  eapply reachable_trans; [|done]. exists 1. apply walk_one. by apply Hsym.
Qed.

(** A set closed under [nbr] that holds [u] holds all that [u] reaches. *)
Lemma closed_reachable (P : A -> Prop) u v :
  P u -> (forall x y, P x -> y ∈ nbr x -> P y) -> reachable u v -> P v.
Proof. intros Hu Hcl [n Hn]. induction Hn; eauto. Qed.
End Walks.

(** A relabelling [f] that carries neighbours to neighbours carries walks to
    walks, in both directions when it is injective on a closed set. *)
Section Relabel.
Context {A B : Type} (nbrA : A -> list A) (nbrB : B -> list B) (f : A -> B) (dom : A -> Prop).
Hypothesis f_nbr : forall a, dom a -> map f (nbrA a) = nbrB (f a).
Hypothesis dom_closed : forall a b, dom a -> b ∈ nbrA a -> dom b.
Hypothesis f_inj : forall a b, dom a -> dom b -> f a = f b -> a = b.

Lemma walk_dom n a b : dom a -> walk nbrA n a b -> dom b.
Proof. intros Ha Hw. induction Hw; eauto. Qed.

Lemma walk_relabel n a b : dom a -> walk nbrA n a b -> walk nbrB n (f a) (f b).
Proof.
  intros Ha Hw. induction Hw as [a|n a b c Hw IH Hc]; [constructor|].
  apply walk_snoc with (f b); [by apply IH|].
  rewrite <-f_nbr by (eapply walk_dom; eauto).
  apply list_elem_of_fmap. eauto.
Qed.

Lemma walk_relabel_inv n a y :
  dom a -> walk nbrB n (f a) y -> exists b, dom b /\ y = f b /\ walk nbrA n a b.
Proof.
  intros Ha Hw. remember (f a) as x eqn:Hx. induction Hw as [x|n x y z Hw IH Hz].
  - exists a. subst. split_and!; [done|done|constructor].
  - destruct (IH Hx) as (b & Hb & -> & Hwb).
    rewrite <-f_nbr in Hz by done. apply list_elem_of_fmap in Hz as (c & -> & Hc).
    exists c. split_and!; [eauto|done|by eapply walk_snoc].
Qed.

Lemma dist_relabel a b d : dom a -> dom b -> dist nbrA a b d <-> dist nbrB (f a) (f b) d.
Proof.
  intros Ha Hb. split; intros [Hw Hmin]; split.
  - by apply walk_relabel.
  - intros m Hm. apply walk_relabel_inv in Hm as (b' & Hb' & Heq & Hm); [|done].
    apply f_inj in Heq; [|done..]. subst. by apply Hmin.
  - apply walk_relabel_inv in Hw as (b' & Hb' & Heq & Hw); [|done].
    apply f_inj in Heq; [|done..]. by subst.
  - intros m Hm. apply Hmin. by apply walk_relabel.
Qed.

Lemma reachable_relabel a b :
  dom a -> dom b -> reachable nbrA a b <-> reachable nbrB (f a) (f b).
Proof.
  intros Ha Hb. split; intros [n Hn]; exists n.
  - by apply walk_relabel.
  - apply walk_relabel_inv in Hn as (b' & Hb' & Heq & Hn); [|done].
    apply f_inj in Heq; [|done..]. by subst.
Qed.
End Relabel.

(** ** The multigraph denoted by a node list and an edge list *)

(** Traversal direction ([Direction] of both crates). *)
Inductive Direction := Fwd | Back | Both.

#[export] Instance Direction_eq_dec : EqDecision Direction.
Proof. solve_decision. Defined.

(** An edge is [(src, dst, etype)]. *)
Abbreviation edge := (string * string * string)%type.

Section Multigraph.
Context (nodes : list string) (edges : list edge).

(** Edges with an unknown endpoint are dropped, the others are all kept. *)
Definition retained : list edge :=
  filter (fun '(s, d, _) => s ∈ nodes /\ d ∈ nodes) edges.

Definition etype_ok (etype : option string) (t : string) : bool :=
  match etype with None => true | Some t' => bool_decide (t = t') end.

Definition out_nbrs (etype : option string) (v : string) : list string :=
  omap (fun '(s, d, t) => if bool_decide (s = v) && etype_ok etype t then Some d else None) retained.

Definition in_nbrs (etype : option string) (v : string) : list string :=
  omap (fun '(s, d, t) => if bool_decide (d = v) && etype_ok etype t then Some s else None) retained.

(** One entry per traversable edge, in edge order, so parallel edges count. *)
Definition neighbours (dir : Direction) (etype : option string) (v : string) : list string :=
  match dir with
  | Fwd => out_nbrs etype v
  | Back => in_nbrs etype v
  | Both => out_nbrs etype v ++ in_nbrs etype v
  end.

Lemma elem_of_out_nbrs etype v w :
  w ∈ out_nbrs etype v <-> exists t, (v, w, t) ∈ retained /\ etype_ok etype t = true.
Proof.
  unfold out_nbrs. rewrite list_elem_of_omap. split.
  - intros ([[s d] t] & Hin & Heq). case_bool_decide; simpl in Heq; [|done].
    destruct (etype_ok etype t) eqn:?; [|done]. simplify_eq. eauto.
  - intros (t & Hin & Hok). exists (v, w, t). by rewrite bool_decide_true, Hok.
Qed.

Lemma elem_of_in_nbrs etype v w :
  w ∈ in_nbrs etype v <-> exists t, (w, v, t) ∈ retained /\ etype_ok etype t = true.
Proof.
  unfold in_nbrs. rewrite list_elem_of_omap. split.
  - intros ([[s d] t] & Hin & Heq). case_bool_decide; simpl in Heq; [|done].
    destruct (etype_ok etype t) eqn:?; [|done]. simplify_eq. eauto.
  - intros (t & Hin & Hok). exists (w, v, t). by rewrite bool_decide_true, Hok.
Qed.

Lemma neighbours_back_fwd etype v w :
  w ∈ neighbours Back etype v <-> v ∈ neighbours Fwd etype w.
Proof. simpl. by rewrite elem_of_out_nbrs, elem_of_in_nbrs. Qed.

Lemma neighbours_both_sym etype v w :
  w ∈ neighbours Both etype v -> v ∈ neighbours Both etype w.
Proof. simpl. rewrite !elem_of_app, !elem_of_in_nbrs, !elem_of_out_nbrs. tauto. Qed.

Lemma neighbours_nodes dir etype v w : w ∈ neighbours dir etype v -> w ∈ nodes.
Proof.
  unfold neighbours, retained.
  destruct dir; rewrite ?elem_of_app, ?elem_of_out_nbrs, ?elem_of_in_nbrs;
    [intros (t & Hin & _)|intros (t & Hin & _)|intros [(t & Hin & _)|(t & Hin & _)]];
    apply list_elem_of_filter in Hin; tauto.
Qed.
End Multigraph.

(** * Breadth-first search: the invariant shared by the traversals

    A queue-and-depth-map BFS over node ordinals below [n].  The loops of
    [k_hop] and [shortest_path_len] (in the CSR topology and in the reference
    oracle) maintain [inv]; the lemmas say how each loop step re-establishes it
    and what holds when the queue runs empty. *)

Section Bfs.
Context (nbr : nat -> list nat) (n start : nat) (stop : nat -> bool).
Hypothesis start_lt : start < n.
Hypothesis nbr_lt : forall v, v < n -> Forall (fun w => w < n) (nbr v).

(** [q1 ++ q2] is the queue: [q1] at depth [d], [q2] at depth [d + 1].  [ex] is
    the node popped last, while its neighbours are being visited. *)
Record inv (ex : option nat) (d : nat) (q1 q2 : list nat) (D : gmap nat nat) : Prop := {
  inv_start : D !! start = Some 0;
  inv_walk v dv : D !! v = Some dv -> walk nbr dv start v;
  inv_lt v dv : D !! v = Some dv -> v < n;
  inv_unstopped v dv : D !! v = Some dv -> forall i, i < dv -> stop i = false;
  inv_nodup : NoDup (q1 ++ q2);
  inv_q1 v : v ∈ q1 -> D !! v = Some d;
  inv_q2 v : v ∈ q2 -> D !! v = Some (S d);
  inv_max v dv : D !! v = Some dv -> dv <= S d;
  inv_closed v dv : D !! v = Some dv -> v ∉ q1 ++ q2 -> Some v <> ex -> stop dv = false ->
    forall w, w ∈ nbr v -> exists dw, D !! w = Some dw /\ dw <= S dv;
}.

Lemma inv_init : inv None 0 [start] [] {[start := 0]}.
Proof.
  split; try (intros v dv; rewrite lookup_singleton_Some; intros [<- <-]); try done.
  - by rewrite lookup_singleton_eq.
  - constructor.
  - intros i Hi. lia.
  - apply NoDup_singleton.
  - intros v ->%list_elem_of_singleton. by rewrite lookup_singleton_eq.
  - intros v Hv. by apply not_elem_of_nil in Hv.
  - lia.
  - intros Hv. set_solver.
Qed.

Lemma inv_shift d q D : inv None d [] q D -> inv None (S d) q [] D.
Proof.
  intros H. split; try apply H.
  - rewrite app_nil_r. apply H.
  - intros v Hv. by apply not_elem_of_nil in Hv.
  - intros v dv Hv. apply (inv_max _ _ _ _ _ H) in Hv. lia.
  - intros v dv Hv Hq. rewrite app_nil_r in Hq. by apply (inv_closed _ _ _ _ _ H).
Qed.

Lemma inv_pop d u q1 q2 D :
  inv None d (u :: q1) q2 D -> inv (Some u) d q1 q2 D /\ D !! u = Some d /\ u ∉ q1 ++ q2.
Proof.
  intros H. pose proof (inv_nodup _ _ _ _ _ H) as Hnd. simpl in Hnd.
  apply NoDup_cons in Hnd as [Hu Hnd].
  split_and!; [|apply (inv_q1 _ _ _ _ _ H); by left|done].
  split; try apply H; try done.
  - intros v Hv. apply (inv_q1 _ _ _ _ _ H). by right.
  - intros v dv Hv Hq Hex. apply (inv_closed _ _ _ _ _ H); [done| |done].
    rewrite <-app_comm_cons. rewrite not_elem_of_cons. split; [congruence|done].
Qed.

Lemma inv_visit u d q1 q2 D w :
  inv (Some u) d q1 q2 D -> D !! u = Some d -> stop d = false -> w ∈ nbr u -> D !! w = None ->
  inv (Some u) d q1 (q2 ++ [w]) (<[w := S d]> D).
Proof.
  intros H Hu Hs Hw Hnone.
  assert (Hne : forall v dv, D !! v = Some dv -> w <> v) by congruence.
  split.
  - rewrite lookup_insert_ne; [apply H|]. eapply Hne, H.
  - intros v dv [[<- <-]|[_ Hv]]%lookup_insert_Some; [|by apply H].
    eapply walk_snoc; [by apply H|done].
  - intros v dv [[<- <-]|[_ Hv]]%lookup_insert_Some; [|by eapply H].
    assert (Hlt : u < n) by (by eapply H). apply nbr_lt in Hlt.
    rewrite Forall_forall in Hlt. by apply Hlt.
  - intros v dv [[<- <-]|[_ Hv]]%lookup_insert_Some; [|by eapply H].
    intros i Hi. destruct (decide (i = d)) as [->|]; [done|].
    eapply (inv_unstopped _ _ _ _ _ H); [exact Hu|lia].
  - rewrite app_assoc. apply NoDup_app. split_and!; [apply H| |apply NoDup_singleton].
    intros x Hx ->%list_elem_of_singleton.
    apply elem_of_app in Hx as [Hx|Hx];
      [apply (inv_q1 _ _ _ _ _ H) in Hx|apply (inv_q2 _ _ _ _ _ H) in Hx]; congruence.
  - intros v Hv. apply H in Hv. rewrite lookup_insert_ne; [done|by eapply Hne].
  - intros v [Hv| ->%list_elem_of_singleton]%elem_of_app; [|by rewrite lookup_insert_eq].
    apply H in Hv. rewrite lookup_insert_ne; [done|by eapply Hne].
  - intros v dv [[<- <-]|[_ Hv]]%lookup_insert_Some; [lia|by eapply H].
  - intros v dv [[<- <-]|[_ Hv]]%lookup_insert_Some Hq Hex Hst x Hx.
    { destruct Hq. rewrite !elem_of_app. right; right. by left. }
    assert (Hq' : v ∉ q1 ++ q2) by (intros ?; apply Hq; rewrite app_assoc; apply elem_of_app; by left).
    destruct (inv_closed _ _ _ _ _ H v dv Hv Hq' Hex Hst x Hx) as (dx & Hdx & Hle).
    exists dx. rewrite lookup_insert_ne; [done|by eapply Hne].
Qed.

Lemma inv_close u d q1 q2 D :
  inv (Some u) d q1 q2 D -> D !! u = Some d ->
  (stop d = true \/ forall w, w ∈ nbr u -> is_Some (D !! w)) -> inv None d q1 q2 D.
Proof.
  intros H Hu Hcl. split; try apply H.
  intros v dv Hv Hq _ Hst w Hw. destruct (decide (v = u)) as [->|Hne].
  - simplify_eq. destruct Hcl as [|Hcl]; [congruence|].
    destruct (Hcl w Hw) as [dw Hdw]. exists dw. split; [done|]. by eapply H.
  - eapply (inv_closed _ _ _ _ _ H); try done. congruence.
Qed.

(** Every node within the explored radius has been found, no later than the
    walk that reaches it. *)
Lemma inv_complete d q1 q2 D m v :
  inv None d q1 q2 D -> (q1 ++ q2 = [] \/ m <= d) ->
  walk nbr m start v -> (forall i, i < m -> stop i = false) ->
  exists dv, D !! v = Some dv /\ dv <= m.
Proof.
  intros H. revert v. induction m as [|m IH]; intros w Hm Hw Hst;
    inversion Hw as [|m' u x w' Hwx Hx]; subst.
  - exists 0. split; [apply H|lia].
  - destruct (IH x) as (dx & Hdx & Hle); [destruct Hm; [by left|right; lia]|done|intros; apply Hst; lia|].
    assert (Hq : x ∉ q1 ++ q2).
    { destruct Hm as [->|Hm]; [apply not_elem_of_nil|].
      intros [Hq|Hq]%elem_of_app; [apply (inv_q1 _ _ _ _ _ H) in Hq|apply (inv_q2 _ _ _ _ _ H) in Hq];
        simplify_eq; lia. }
    destruct (inv_closed _ _ _ _ _ H x dx Hdx Hq ltac:(done) (Hst dx ltac:(lia)) w Hx) as (dw & Hdw & Hle').
    exists dw. split; [done|lia].
Qed.

(** The depth map holds hop distances at every point of the search ... *)
Lemma inv_dist d q1 q2 D v dv :
  inv None d q1 q2 D -> D !! v = Some dv -> dist nbr start v dv.
Proof.
  intros H Hv. split; [by apply H|]. intros m Hm.
  destruct (decide (dv <= m)) as [|Hlt]; [done|].
  pose proof (inv_max _ _ _ _ _ H _ _ Hv).
  destruct (inv_complete d q1 q2 D m v H) as (dv' & Hv' & Hle); [right; lia|done| |].
  - intros i Hi. eapply H; [exact Hv|lia].
  - simplify_eq. lia.
Qed.

(** ... and when the queue is empty it holds all those not cut off by [stop]. *)
Lemma inv_final d D v dv :
  inv None d [] [] D ->
  D !! v = Some dv <-> dist nbr start v dv /\ forall i, i < dv -> stop i = false.
Proof.
  intros H. split.
  - intros Hv. split; [by eapply inv_dist|by eapply H].
  - intros [Hdist Hst].
    destruct (inv_complete d [] [] D dv v H) as (dv' & Hv' & Hle); [by left|apply Hdist|done|].
    assert (dv' = dv) as ->; [|done].
    eapply dist_unique; [by eapply inv_dist|done].
Qed.

(** Fuel: every iteration pops a node that was pushed once. *)
Definition enough (fuel : nat) (q : list nat) (D : gmap nat nat) : Prop :=
  n + length q <= fuel + size D.

Lemma size_below (D : gmap nat nat) :
  (forall v dv, D !! v = Some dv -> v < n) -> size D <= n.
Proof.
  intros HD. rewrite <-size_dom. transitivity (size (set_seq (C:=gset nat) 0 n)).
  - apply subseteq_size. intros v [dv Hv]%elem_of_dom. apply elem_of_set_seq.
    apply HD in Hv. lia.
  - by rewrite size_set_seq.
Qed.

Lemma enough_pos fuel u q D :
  (forall v dv, D !! v = Some dv -> v < n) -> enough fuel (u :: q) D -> exists fuel', fuel = S fuel'.
Proof.
  intros HD%size_below. unfold enough. simpl. destruct fuel; [lia|eauto].
Qed.

Lemma enough_init : enough n [start] {[start := 0]}.
Proof. unfold enough. rewrite map_size_singleton. simpl. lia. Qed.

Lemma enough_visit fuel q D w d :
  enough fuel q D -> D !! w = None -> enough fuel (q ++ [w]) (<[w := d]> D).
Proof.
  unfold enough. intros H Hw. rewrite map_size_insert_None, length_app by done. simpl. lia.
Qed.

(** ** One iteration of the loop *)

(** Visiting one neighbour of a node at depth [d]. *)
Definition visit (d : nat) (st : gmap nat nat * list nat) (w : nat) : gmap nat nat * list nat :=
  let '(D, q) := st in
  match D !! w with
  | None => (<[w := d + 1]> D, q ++ [w])
  | Some _ => st
  end.

Lemma inv_head d q1 q2 D u q :
  inv None d q1 q2 D -> q1 ++ q2 = u :: q ->
  exists d' q1' q2', q = q1' ++ q2' /\ inv None d' (u :: q1') q2' D /\
    inv (Some u) d' q1' q2' D /\ D !! u = Some d'.
Proof.
  intros H Hq. destruct q1 as [|u' q1]; simpl in Hq.
  - subst q2. apply inv_shift in H. destruct (inv_pop _ _ _ _ _ H) as (H' & Hu & _).
    exists (S d), q, []. by rewrite app_nil_r.
  - injection Hq as -> <-. destruct (inv_pop _ _ _ _ _ H) as (H' & Hu & _). by exists d, q1, q2.
Qed.

Lemma visits_none d l D q w :
  w ∉ l -> D !! w = None -> (foldl (visit d) (D, q) l).1 !! w = None.
Proof.
  revert D q. induction l as [|x l IH]; intros D q Hw HD; simpl; [done|].
  apply not_elem_of_cons in Hw as [Hne Hw].
  destruct (D !! x); apply IH; try done. by rewrite lookup_insert_ne.
Qed.

Lemma visits u d q1 q2 D fuel l :
  inv (Some u) d q1 q2 D -> D !! u = Some d -> stop d = false -> (forall w, w ∈ l -> w ∈ nbr u) ->
  enough fuel (q1 ++ q2) D ->
  exists D' q2', foldl (visit d) (D, q1 ++ q2) l = (D', q1 ++ q2') /\
    inv (Some u) d q1 q2' D' /\ D ⊆ D' /\ (forall w, w ∈ l -> is_Some (D' !! w)) /\
    enough fuel (q1 ++ q2') D'.
Proof.
  intros H Hu Hs. revert D q2 H Hu. induction l as [|w l IH]; intros D q2 H Hu Hl Hf; simpl.
  { exists D, q2. split_and!; [done..| |done]. by intros ? ?%not_elem_of_nil. }
  assert (Hw : w ∈ nbr u) by (apply Hl; by left).
  assert (Hl' : forall w, w ∈ l -> w ∈ nbr u) by (intros; apply Hl; by right).
  destruct (D !! w) as [dw|] eqn:HDw.
  - destruct (IH D q2 H Hu Hl' Hf) as (D' & q2' & Heq & Hinv & Hsub & Hin & Hf').
    exists D', q2'. split_and!; [done..| |done].
    intros x [->|Hx]%elem_of_cons; [|by apply Hin]. exists dw. by eapply lookup_weaken.
  - rewrite Nat.add_1_r, <-app_assoc.
    destruct (IH (<[w := S d]> D) (q2 ++ [w])) as (D' & q2' & Heq & Hinv & Hsub & Hin & Hf').
    + by apply inv_visit with (u := u).
    + rewrite lookup_insert_ne; [done|congruence].
    + done.
    + rewrite app_assoc. by apply enough_visit.
    + exists D', q2'. split_and!; [done..| | |done].
      * transitivity (<[w := S d]> D); [by apply insert_subseteq|done].
      * intros x [->|Hx]%elem_of_cons; [|by apply Hin]. exists (S d).
        eapply lookup_weaken; [|done]. by rewrite lookup_insert_eq.
Qed.

Lemma enough_pop fuel u q D : enough (S fuel) (u :: q) D -> enough fuel q D.
Proof. unfold enough. simpl. lia. Qed.
End Bfs.
