(* ===== verification/Topo.v ===== *)
(** * The immutable CSR graph topology ([pensieve-graph-topo/src/lib.rs])

    Data, construction ([CsrGraph::build], [build_csr]) and the neighbour scan
    ([CsrGraph::step]).  [u32] ordinals are [nat]s and every cast or addition at
    type [u32] goes through [as_u32]; an out-of-range index is [Panic].  The
    traversals over this structure are in [TopoSearch.v], the byte format in
    [TopoCodec.v]. *)

From stdpp Require Import base gmap strings list.
From Stdlib Require Import Lia.
From S2P Require Import Prelude GraphSpec.

Inductive EtypeFilter :=
  | Any
  | Unknown
  | Only (id : nat).

Definition matches (f : EtypeFilter) (etype_id : nat) : bool :=
  match f with
  | Any => true
  | Unknown => false
  | Only id => bool_decide (etype_id = id)
  end.

Record CsrGraph := {
  ids : list string;
  id_to_idx : gmap string nat;
  etypes : list string;
  out_offsets : list nat;
  out_targets : list nat;
  out_etype : list nat;
  in_offsets : list nat;
  in_sources : list nat;
  in_etype : list nat;
}.

(** ** Building the arrays *)

(** A [(from, to, etype_id)] triple. *)
Abbreviation triple := (nat * nat * nat)%type.

Definition count_degree (t : triple) (offsets : list nat) : infallible (list nat) :=
  let '(from, _, _) := t in
  o ← or_panic (offsets !! (from + 1));
  set_index offsets (from + 1) (as_u32 (o + 1)).

Definition prefix_sum (i : nat) (offsets : list nat) : infallible (list nat) :=
  a ← or_panic (offsets !! (i + 1));
  b ← or_panic (offsets !! i);
  set_index offsets (i + 1) (as_u32 (a + b)).

(** Place one triple at its row's cursor, in the order the triples come. *)
Definition place (t : triple) (st : list nat * list nat * list nat)
    : infallible (list nat * list nat * list nat) :=
  let '(from, to, tid) := t in
  let '(cursor, targets, etype) := st in
  slot ← or_panic (cursor !! from);
  targets ← set_index targets slot to;
  etype ← set_index etype slot tid;
  cursor ← set_index cursor from (as_u32 (slot + 1));
  Ret (cursor, targets, etype).

Definition build_csr (n : nat) (triples : list triple) : infallible (list nat * list nat * list nat) :=
  offsets ← for_each count_degree triples (replicate (n + 1) 0);
  offsets ← for_each prefix_sum (seq 0 n) offsets;
  let total := default 0 (last offsets) in
  st ← for_each place triples (offsets, replicate total 0, replicate total 0);
  let '(_, targets, etype) := st in
  Ret (offsets, targets, etype).

(** First loop of [build]: distinct node ids, first occurrence wins. *)
Definition intern_node (st : list string * gmap string nat) (n : string)
    : list string * gmap string nat :=
  let '(ids, id_to_idx) := st in
  match id_to_idx !! n with
  | None => (ids ++ [n], <[n := as_u32 (length ids)]> id_to_idx)
  | Some _ => (ids, id_to_idx)
  end.

(** Second loop of [build]: drop dangling edges, intern the edge type. *)
Definition keep_edge (id_to_idx : gmap string nat)
    (st : list string * gmap string nat * list triple) (e : edge)
    : list string * gmap string nat * list triple :=
  let '(etypes, etype_to_id, kept) := st in
  let '(s, d, t) := e in
  match id_to_idx !! s, id_to_idx !! d with
  | Some si, Some di =>
      match etype_to_id !! t with
      | Some tid => (etypes, etype_to_id, kept ++ [(si, di, tid)])
      | None =>
          let id := as_u32 (length etypes) in
          (etypes ++ [t], <[t := id]> etype_to_id, kept ++ [(si, di, id)])
      end
  | _, _ => st
  end.

Definition build (nodes : list string) (edges : list edge) : infallible CsrGraph :=
  let '(ids, id_to_idx) := foldl intern_node ([], ∅) nodes in
  let '(etypes, _, kept) := foldl (keep_edge id_to_idx) ([], ∅, []) edges in
  let n := length ids in
  out ← build_csr n kept;
  in_ ← build_csr n (map (fun '(s, d, t) => (d, s, t)) kept);
  let '(out_offsets, out_targets, out_etype) := out in
  let '(in_offsets, in_sources, in_etype) := in_ in
  Ret {| ids := ids; id_to_idx := id_to_idx; etypes := etypes;
         out_offsets := out_offsets; out_targets := out_targets; out_etype := out_etype;
         in_offsets := in_offsets; in_sources := in_sources; in_etype := in_etype |}.

(** ** Queries on the built structure *)

Definition num_nodes (g : CsrGraph) : nat := length (ids g).
Definition node_ids (g : CsrGraph) : list string := ids g.
Definition num_edges (g : CsrGraph) : nat := length (out_targets g).
Definition contains (g : CsrGraph) (id : string) : bool := bool_decide (is_Some (id_to_idx g !! id)).

Definition resolve_etype (g : CsrGraph) (etype : option string) : EtypeFilter :=
  match etype with
  | None => Any
  | Some t =>
      match list_find (fun e => e = t) (etypes g) with
      | Some (p, _) => Only (as_u32 p)
      | None => Unknown
      end
  end.

(** Body of the loop [for i in start..end] of [step]. *)
Definition scan_edge (targets etype : list nat) (f : EtypeFilter) (i : nat) (out : list nat)
    : infallible (list nat) :=
  e ← or_panic (etype !! i);
  if matches f e then t ← or_panic (targets !! i); Ret (out ++ [t]) else Ret out.

(** The whole loop, over one of the two CSR twins. *)
Definition scan (offsets targets etype : list nat) (vi : nat) (f : EtypeFilter)
    (out : list nat) : infallible (list nat) :=
  start ← or_panic (offsets !! vi);
  end_ ← or_panic (offsets !! (vi + 1));
  for_each (scan_edge targets etype f) (seq start (end_ - start)) out.

Definition step (g : CsrGraph) (v : nat) (dir : Direction) (etype : EtypeFilter)
    (out : list nat) : infallible (list nat) :=
  out ← (if bool_decide (dir = Fwd \/ dir = Both)
         then scan (out_offsets g) (out_targets g) (out_etype g) v etype out
         else Ret out);
  if bool_decide (dir = Back \/ dir = Both)
  then scan (in_offsets g) (in_sources g) (in_etype g) v etype out
  else Ret out.

(** ** Correctness of the counting sort *)

Definition from (t : triple) : nat := t.1.1.
Definition to (t : triple) : nat := t.1.2.
Definition tid (t : triple) : nat := t.2.

(** The triples leaving [v], in stream order, and the number of triples that
    leave a node before [v]. *)
Definition row (ts : list triple) (v : nat) : list triple := filter (fun t => from t = v) ts.
Definition below (ts : list triple) (v : nat) : nat := length (filter (fun t => from t < v) ts).

Lemma row_cons t ts v : row (t :: ts) v = if decide (from t = v) then t :: row ts v else row ts v.
Proof. unfold row. by rewrite filter_cons. Qed.

Lemma below_cons t ts v : below (t :: ts) v = (if decide (from t < v) then 1 else 0) + below ts v.
Proof.
  unfold below. rewrite filter_cons. by destruct (decide (from t < v)).
Qed.

Lemma below_S ts v : below ts (S v) = below ts v + length (row ts v).
Proof.
  induction ts as [|t ts IH]; [done|]. rewrite !below_cons, row_cons.
  destruct (decide (from t < S v)), (decide (from t < v)), (decide (from t = v)); simpl; lia.
Qed.

Lemma below_0 ts : below ts 0 = 0.
Proof.
  induction ts as [|t ts IH]; [done|]. rewrite below_cons, IH.
  by destruct (decide (from t < 0)); [lia|].
Qed.

Lemma below_mono ts u v : u <= v -> below ts u <= below ts v.
Proof. induction 1 as [|v Huv IH]; [done|]. rewrite below_S. lia. Qed.

Lemma below_all ts n : Forall (fun t => from t < n) ts -> below ts n = length ts.
Proof.
  induction 1 as [|t ts Ht Hts IH]; [done|].
  rewrite below_cons, decide_True by done. simpl. lia.
Qed.

Lemma below_le ts v : below ts v <= length ts.
Proof. apply length_filter. Qed.

Lemma row_snoc ts t v : row (ts ++ [t]) v = row ts v ++ (if decide (from t = v) then [t] else []).
Proof. unfold row. by rewrite filter_snoc. Qed.

Lemma row_app_le ts ts' v : length (row ts v) <= length (row (ts ++ ts') v).
Proof. unfold row. rewrite filter_app, length_app. lia. Qed.

Lemma row_le ts v : length (row ts v) <= length ts.
Proof. apply length_filter. Qed.

(** What [build_csr] computes: row [v] occupies the slots from [below v]. *)
Record csr_of (n : nat) (ts : list triple) (offsets targets etype : list nat) : Prop := {
  csr_length : length offsets = n + 1;
  csr_offset v : v <= n -> offsets !! v = Some (below ts v);
  csr_targets_length : length targets = length ts;
  csr_etype_length : length etype = length ts;
  csr_slot v i t : v < n -> row ts v !! i = Some t ->
    targets !! (below ts v + i) = Some (to t) /\ etype !! (below ts v + i) = Some (tid t);
}.

Section BuildCsr.
Context (n : nat) (ts : list triple).
Hypothesis ts_from : Forall (fun t => from t < n) ts.
Hypothesis ts_fits : fits_u32 (length ts).

Lemma from_lt t pre rest : ts = pre ++ t :: rest -> from t < n.
Proof.
  intros ->. apply Forall_app in ts_from as [_ H]. by apply Forall_cons in H as [H _].
Qed.

Lemma count_phase :
  exists offs, for_each (E:=Empty_set) count_degree ts (replicate (n + 1) 0) = Ret offs /\
    length offs = n + 1 /\ offs !! 0 = Some 0 /\
    forall v, v < n -> offs !! (S v) = Some (length (row ts v)).
Proof.
  apply (for_each_inv count_degree (fun pre offs =>
    length offs = n + 1 /\ offs !! 0 = Some 0 /\
    forall v, v < n -> offs !! (S v) = Some (length (row pre v)))).
  - split_and!; [by rewrite length_replicate|apply lookup_replicate; lia|].
    intros v Hv. apply lookup_replicate. simpl. lia.
  - intros pre [[f d] e] rest offs Hts (Hlen & H0 & Hoffs).
    pose proof (from_lt _ _ _ Hts) as Hf. unfold from in Hf; simpl in *.
    rewrite Nat.add_1_r, Hoffs by done. simpl. rewrite set_index_ok by lia.
    eexists; split; [done|]. split_and!.
    + by rewrite length_insert.
    + by rewrite list_lookup_insert_ne by lia.
    + intros v Hv. rewrite row_snoc, length_app. unfold from; simpl.
      destruct (decide (f = v)) as [->|Hne].
      * rewrite list_lookup_insert_eq by lia. f_equal. simpl. apply as_u32_id.
        eapply fits_u32_le; [|exact ts_fits].
        rewrite Hts, length_app. simpl. pose proof (row_le pre v). lia.
      * rewrite list_lookup_insert_ne by lia. rewrite Hoffs by done. f_equal. simpl; lia.
Qed.

Lemma prefix_phase offs :
  length offs = n + 1 -> offs !! 0 = Some 0 ->
  (forall v, v < n -> offs !! (S v) = Some (length (row ts v))) ->
  exists offs', for_each (E:=Empty_set) prefix_sum (seq 0 n) offs = Ret offs' /\
    length offs' = n + 1 /\ forall v, v <= n -> offs' !! v = Some (below ts v).
Proof.
  intros Hlen H0 Hoffs.
  destruct (for_range_inv prefix_sum (fun i offs => length offs = n + 1 /\
      (forall v, v <= i -> offs !! v = Some (below ts v)) /\
      forall v, i <= v < n -> offs !! (S v) = Some (length (row ts v))) 0 n offs)
    as (offs' & Hrun & Hl & Hdone & _).
  - split_and!; [done| |intros v Hv; apply Hoffs; lia].
    intros v Hv. replace v with 0 by lia. by rewrite below_0.
  - intros i o Hi (Hl & Hdone & Hrest). unfold prefix_sum.
    rewrite Nat.add_1_r, Hrest, Hdone by lia. simpl. rewrite set_index_ok by lia.
    assert (Hfit : as_u32 (length (row ts i) + below ts i) = below ts (S i)).
    { rewrite below_S, Nat.add_comm. apply as_u32_id.
      rewrite <-below_S. eapply fits_u32_le; [apply below_le|done]. }
    rewrite Hfit. eexists; split; [done|]. split_and!.
    + by rewrite length_insert.
    + intros v Hv. destruct (decide (v = S i)) as [->|].
      * by rewrite list_lookup_insert_eq by lia.
      * rewrite list_lookup_insert_ne by lia. apply Hdone. lia.
    + intros v Hv. rewrite list_lookup_insert_ne by lia. apply Hrest. lia.
  - exists offs'. split_and!; [done..|]. intros v Hv. apply Hdone. lia.
Qed.

(** Two different (row, position) pairs use different slots. *)
Lemma slot_inj u v i j :
  i < length (row ts u) -> j < length (row ts v) -> below ts u + i = below ts v + j -> u = v.
Proof.
  intros Hi Hj Heq. destruct (Nat.lt_trichotomy u v) as [Hlt|[Heqv|Hlt]]; [|done|].
  - pose proof (below_mono ts (S u) v ltac:(lia)). rewrite below_S in H. lia.
  - pose proof (below_mono ts (S v) u ltac:(lia)). rewrite below_S in H. lia.
Qed.

Lemma slot_lt v i : v < n -> i < length (row ts v) -> below ts v + i < length ts.
Proof.
  intros Hv Hi. pose proof (below_mono ts (S v) n ltac:(lia)).
  rewrite below_S, (below_all ts n ts_from) in H. lia.
Qed.

Definition placed (pre : list triple) (st : list nat * list nat * list nat) : Prop :=
  let '(cursor, targets, etype) := st in
  length cursor = n + 1 /\ length targets = length ts /\ length etype = length ts /\
  (forall v, v < n -> cursor !! v = Some (below ts v + length (row pre v))) /\
  (forall v i t, v < n -> row pre v !! i = Some t ->
    targets !! (below ts v + i) = Some (to t) /\ etype !! (below ts v + i) = Some (tid t)).

Lemma place_step pre t rest st :
  ts = pre ++ t :: rest -> placed pre st ->
  exists st', place t st = Ret st' /\ placed (pre ++ [t]) st'.
Proof.
  intros Hts. destruct st as [[cursor targets] etype]. intros (Hc & Ht & He & Hcur & Hslot).
  pose proof (from_lt _ _ _ Hts) as Hf.
  assert (Hrow : length (row pre (from t)) < length (row ts (from t))).
  { rewrite Hts. unfold row at 2. rewrite filter_app, length_app. fold (row (t :: rest) (from t)).
    rewrite row_cons, decide_True by done. simpl. unfold row. lia. }
  pose proof (slot_lt _ _ Hf Hrow) as Hlt.
  destruct t as [[f d] e]. unfold from in *; simpl in *.
  rewrite Hcur by done. simpl.
  repeat (rewrite set_index_ok by lia; simpl).
  assert (Hfit : as_u32 (below ts f + length (row pre f) + 1) = below ts f + length (row pre f) + 1).
  { apply as_u32_id. eapply fits_u32_le; [|exact ts_fits]. lia. }
  rewrite Hfit. eexists; split; [done|].
  split_and!; [by rewrite length_insert..| |].
  - intros v Hv. rewrite row_snoc, length_app. unfold from; simpl.
    destruct (decide (f = v)) as [->|Hne]; simpl.
    + rewrite list_lookup_insert_eq by lia. f_equal. lia.
    + rewrite list_lookup_insert_ne by done. rewrite Hcur by done. f_equal. lia.
  - intros v i t Hv. rewrite row_snoc. unfold from; simpl.
    intros [Hi|[Hge Hi]]%lookup_app_Some.
    + pose proof (lookup_lt_Some _ _ _ Hi) as Hlti.
      assert (Hne : below ts f + length (row pre f) <> below ts v + i).
      { intros Heq. assert (f = v) as ->; [|lia].
        eapply slot_inj; [exact Hrow| |exact Heq].
        eapply Nat.lt_le_trans; [exact Hlti|]. rewrite Hts. apply row_app_le. }
      rewrite !list_lookup_insert_ne by done. by apply Hslot.
    + destruct (decide (f = v)) as [->|]; [|done].
      apply list_lookup_singleton_Some in Hi as [Hi0 <-].
      replace i with (length (row pre v)) by lia.
      rewrite !list_lookup_insert_eq by lia. done.
Qed.

Lemma build_csr_spec :
  exists offsets targets etype,
    build_csr n ts = Ret (offsets, targets, etype) /\ csr_of n ts offsets targets etype.
Proof.
  unfold build_csr.
  destruct count_phase as (o1 & -> & Hl1 & H0 & H1); simpl.
  destruct (prefix_phase o1 Hl1 H0 H1) as (offs & -> & Hl & Hoffs); simpl.
  assert (Hlast : last offs = Some (length ts)).
  { rewrite last_lookup, Hl. replace (pred (n + 1)) with n by lia.
    rewrite Hoffs by done. by rewrite below_all. }
  rewrite Hlast; simpl.
  destruct (for_each_inv place placed ts (offs, replicate (length ts) 0, replicate (length ts) 0))
    as (st & -> & Hst).
  - split_and!; [done|by rewrite length_replicate..| |by intros].
    intros v Hv. rewrite Hoffs by lia. f_equal. simpl. lia.
  - intros pre t rest st. apply place_step.
  - destruct st as [[c t] e]. destruct Hst as (_ & Ht & He & _ & Hslot). simpl.
    exists offs, t, e. split; [done|]. by split.
Qed.
End BuildCsr.

Lemma scan_edge_ok (targets etype : list nat) f i e x out :
  etype !! i = Some e -> targets !! i = Some x ->
  scan_edge targets etype f i out = Ret (out ++ if matches f e then [x] else []).
Proof.
  intros He Hx. unfold scan_edge. rewrite He, Hx. simpl.
  destruct (matches f e); [done|]. by rewrite app_nil_r.
Qed.

(** The scan of row [v] visits exactly the matching triples of the row, in order. *)
Lemma scan_rows (targets etype : list nat) f r b out :
  (forall i t, r !! i = Some t ->
     targets !! (b + i) = Some (to t) /\ etype !! (b + i) = Some (tid t)) ->
  for_each (scan_edge targets etype f) (seq b (length r)) out
  = Ret (out ++ map to (filter (fun t => matches f (tid t) = true) r)).
Proof.
  revert b out; induction r as [|t r IH]; intros b out Hr.
  { simpl. by rewrite app_nil_r. }
  destruct (Hr 0 t eq_refl) as [Ht He]. rewrite Nat.add_0_r in Ht, He.
  cbn [length seq for_each]. rewrite (scan_edge_ok _ _ _ _ _ _ _ He Ht). simpl.
  rewrite IH.
  - rewrite filter_cons. rewrite <-app_assoc.
    destruct (matches f (tid t)); [by rewrite decide_True|by rewrite decide_False].
  - intros i t' Hi. rewrite Nat.add_succ_comm. by apply Hr.
Qed.

Lemma scan_spec n ts offsets targets etype v f out :
  csr_of n ts offsets targets etype -> v < n ->
  scan offsets targets etype v f out =
    Ret (out ++ map to (filter (fun t => matches f (tid t) = true) (row ts v))).
Proof.
  intros H Hv. unfold scan. rewrite Nat.add_1_r, !(csr_offset _ _ _ _ _ H) by lia. simpl.
  rewrite below_S. replace (below ts v + _ - _) with (length (row ts v)) by lia.
  apply scan_rows. intros i t. by apply (csr_slot _ _ _ _ _ H).
Qed.

(** * The built topology denotes its multigraph

    [CsrGraph::build] refines [GraphSpec]: the arrays represent the distinct
    nodes and the retained edges of the input, and [step] lists the abstract
    neighbours, in edge order and with multiplicity. *)

(** The name of a node ordinal. *)
Definition name (g : CsrGraph) (i : nat) : string := default "" (ids g !! i).

Definition swap (t : triple) : triple := (to t, from t, tid t).

Definition names_edge (ids etypes : list string) (t : triple) (e : edge) : Prop :=
  ids !! from t = Some e.1.1 /\ ids !! to t = Some e.1.2 /\ etypes !! tid t = Some e.2.

(** The representation relation, and at the same time the well-formedness
    invariant of a topology. *)
Record denotes (g : CsrGraph) (nodes : list string) (edges : list edge) : Prop := {
  den_ids : interned (ids g) (id_to_idx g);
  den_nodes s : s ∈ ids g <-> s ∈ nodes;
  den_etypes : NoDup (etypes g);
  den_fits_nodes : fits_u32 (length (ids g));
  den_fits_etypes : fits_u32 (length (etypes g));
  den_arrays : exists kept,
    Forall2 (names_edge (ids g) (etypes g)) kept (retained nodes edges) /\
    csr_of (length (ids g)) kept (out_offsets g) (out_targets g) (out_etype g) /\
    csr_of (length (ids g)) (map swap kept) (in_offsets g) (in_sources g) (in_etype g);
}.

(** ** Building *)

Lemma intern_nodes_spec nodes :
  fits_u32 (length nodes) ->
  let '(ids, m) := foldl intern_node ([], ∅) nodes in
  interned ids m /\ (forall s, s ∈ ids <-> s ∈ nodes) /\ length ids <= length nodes.
Proof.
  intros Hfit.
  apply (foldl_inv intern_node (fun pre '(ids, m) =>
    interned ids m /\ (forall s, s ∈ ids <-> s ∈ pre) /\ length ids <= length pre)).
  { split_and!; [apply interned_empty|done|done]. }
  intros pre n [ids m] [rest Hn] (Hi & Hel & Hlen). simpl.
  destruct (m !! n) as [i|] eqn:Hm.
  - split_and!; [done| |rewrite length_app; lia].
    intros s. rewrite elem_of_app, list_elem_of_singleton, Hel.
    split; [tauto|intros [?| ->]; [done|]].
    apply Hel. apply Hi in Hm. by eapply list_elem_of_lookup_2.
  - rewrite as_u32_id.
    + split_and!; [by apply interned_snoc| |rewrite !length_app; simpl; lia].
      intros s. by rewrite !elem_of_app, Hel.
    + eapply fits_u32_le; [|exact Hfit]. rewrite Hn, length_app. lia.
Qed.

Lemma names_edge_snoc ids etypes t0 t e :
  names_edge ids etypes t e -> names_edge ids (etypes ++ [t0]) t e.
Proof.
  intros (? & ? & H). split_and!; [done..|].
  rewrite lookup_app_l; [done|by eapply lookup_lt_Some].
Qed.

Lemma keep_edges_spec nodes ids m edges :
  interned ids m -> (forall s, s ∈ ids <-> s ∈ nodes) -> fits_u32 (length edges) ->
  let '(etypes, tm, kept) := foldl (keep_edge m) ([], ∅, []) edges in
  interned etypes tm /\ length etypes <= length kept <= length edges /\
  Forall2 (names_edge ids etypes) kept (retained nodes edges).
Proof.
  intros Hids Hel Hfit.
  apply (foldl_inv (keep_edge m) (fun pre '(etypes, tm, kept) =>
    interned etypes tm /\ length etypes <= length kept <= length pre /\
    Forall2 (names_edge ids etypes) kept (retained nodes pre))).
  { split_and!; [apply interned_empty|done..|constructor]. }
  intros pre [[s d] t] [[etypes tm] kept] [rest Hn] (Hi & Hlen & HF).
  assert (Hret : retained nodes (pre ++ [(s, d, t)]) =
    retained nodes pre ++ if decide (s ∈ nodes /\ d ∈ nodes) then [(s, d, t)] else []).
  { unfold retained. by rewrite filter_snoc. }
  rewrite Hret. clear Hret. simpl.
  destruct (m !! s) as [si|] eqn:Hs; [destruct (m !! d) as [di|] eqn:Hd|].
  - pose proof (proj1 (proj2 Hids _ _) Hs) as Hs'. pose proof (proj1 (proj2 Hids _ _) Hd) as Hd'.
    assert (s ∈ nodes /\ d ∈ nodes) by (rewrite <-!Hel; split; by eapply list_elem_of_lookup_2).
    rewrite decide_True by done.
    destruct (tm !! t) as [ti|] eqn:Ht.
    + split_and!; [done|rewrite length_app; simpl; lia|rewrite !length_app; simpl; lia|].
      apply Forall2_app; [done|]. constructor; [|constructor].
      split_and!; [done..|by apply Hi].
    + assert (Hf : as_u32 (length etypes) = length etypes).
      { apply as_u32_id. eapply fits_u32_le; [|exact Hfit]. rewrite Hn, length_app. lia. }
      rewrite Hf. split_and!; [by apply interned_snoc|rewrite !length_app; simpl; lia..|].
      apply Forall2_app.
      * eapply Forall2_impl; [exact HF|]. intros. by apply names_edge_snoc.
      * constructor; [|constructor]. split_and!; [done..|]. simpl.
        by rewrite lookup_app_r, Nat.sub_diag.
  - apply (interned_None _ _ _ Hids) in Hd. rewrite decide_False by (rewrite <-!Hel; tauto).
    rewrite app_nil_r, length_app. split_and!; [done|lia..|done].
  - apply (interned_None _ _ _ Hids) in Hs. rewrite decide_False by (rewrite <-!Hel; tauto).
    rewrite app_nil_r, length_app. split_and!; [done|lia..|done].
Qed.

Lemma names_edge_bounds ids etypes kept l :
  Forall2 (names_edge ids etypes) kept l ->
  Forall (fun t => from t < length ids) kept /\ Forall (fun t => to t < length ids) kept.
Proof.
  induction 1 as [|t e kept l (Hf & Ht & _) _ [IH1 IH2]]; split; constructor; try done;
    by eapply lookup_lt_Some.
Qed.

Lemma build_denotes nodes edges :
  fits_u32 (length nodes) -> fits_u32 (length edges) ->
  exists g, build nodes edges = Ret g /\ denotes g nodes edges.
Proof.
  intros Hn He. unfold build.
  pose proof (intern_nodes_spec nodes Hn) as Hin.
  destruct (foldl intern_node ([], ∅) nodes) as [nids m]. destruct Hin as (Hi & Hel & Hlen).
  pose proof (keep_edges_spec nodes nids m edges Hi Hel He) as Hk.
  destruct (foldl (keep_edge m) ([], ∅, []) edges) as [[ets tm] kept].
  destruct Hk as (Het & Hle & HF).
  destruct (names_edge_bounds _ _ _ _ HF) as [Hb1 Hb2].
  assert (Hsw : map (fun '(s, d, t) => (d, s, t)) kept = map swap kept).
  { apply map_ext. by intros [[? ?] ?]. }
  rewrite Hsw.
  destruct (build_csr_spec (length nids) kept) as (o & t & e & -> & Hout); [done| |].
  { eapply fits_u32_le; [|exact He]; lia. }
  destruct (build_csr_spec (length nids) (map swap kept)) as (o' & t' & e' & -> & Hin).
  { apply Forall_map. by eapply Forall_impl. }
  { rewrite length_map. eapply fits_u32_le; [|exact He]; lia. }
  simpl. eexists; split; [done|]. split; simpl; try done.
  - apply Het.
  - eapply fits_u32_le; [|exact Hn]; lia.
  - eapply fits_u32_le; [|exact He]; lia.
  - exists kept. done.
Qed.

(** ** Stepping *)

Lemma denotes_lookup g nodes edges s i :
  denotes g nodes edges -> id_to_idx g !! s = Some i -> i < length (ids g) /\ name g i = s.
Proof.
  intros H Hs. apply (den_ids _ _ _ H) in Hs. split; [by eapply lookup_lt_Some|].
  unfold name. by rewrite Hs.
Qed.

Lemma denotes_name g nodes edges i :
  denotes g nodes edges -> i < length (ids g) ->
  id_to_idx g !! name g i = Some i /\ ids g !! i = Some (name g i).
Proof.
  intros H Hi. apply lookup_lt_is_Some_2 in Hi as [s Hs].
  unfold name. rewrite Hs. simpl. split; [|done]. by apply (den_ids _ _ _ H).
Qed.

Lemma name_inj g nodes edges i j :
  denotes g nodes edges -> i < length (ids g) -> j < length (ids g) ->
  name g i = name g j -> i = j.
Proof.
  intros H Hi Hj Heq. destruct (denotes_name _ _ _ _ H Hi) as [H1 _].
  destruct (denotes_name _ _ _ _ H Hj) as [H2 _]. congruence.
Qed.

(** The resolved predicate on edge-type ordinals agrees with equality of names. *)
Lemma resolve_etype_ok g nodes edges etype i t :
  denotes g nodes edges -> etypes g !! i = Some t ->
  matches (resolve_etype g etype) i = etype_ok etype t.
Proof.
  intros H Hi. destruct etype as [t0|]; simpl; [|done].
  destruct (list_find _ (etypes g)) as [[p t1]|] eqn:Hf; simpl.
  - apply list_find_Some in Hf as (Hp & <- & _).
    rewrite as_u32_id.
    2:{ eapply fits_u32_le; [|apply (den_fits_etypes _ _ _ H)].
        apply lookup_lt_Some in Hp. lia. }
    apply bool_decide_ext. split; [intros ->; congruence|intros ->].
    eapply NoDup_lookup_inj; [apply (den_etypes _ _ _ H)|done..].
  - apply list_find_None in Hf. rewrite Forall_forall in Hf.
    symmetry. apply bool_decide_eq_false_2. apply Hf. by eapply list_elem_of_lookup_2.
Qed.

Section Rows.
Context (g : CsrGraph) (nodes : list string) (edges : list edge).
Hypothesis H : denotes g nodes edges.

(** One row of the CSR, read back as names. *)
Lemma row_names kept l etype v :
  Forall2 (names_edge (ids g) (etypes g)) kept l -> v < length (ids g) ->
  map (name g) (map to (filter (fun t => matches (resolve_etype g etype) (tid t) = true) (row kept v)))
  = omap (fun '(s, d, t) => if bool_decide (s = name g v) && etype_ok etype t then Some d else None) l.
Proof.
  intros HF Hv. induction HF as [|t [[s d] ty] kept l (Hf & Ht & Hty) HF IH]; [done|].
  simpl in Hf, Ht, Hty. rewrite row_cons. cbn [omap list_omap].
  pose proof (resolve_etype_ok g _ _ etype _ _ H Hty) as Hm.
  destruct (denotes_name _ _ _ _ H Hv) as [_ Hnv].
  destruct (decide (from t = v)) as [Heq|Hne].
  - rewrite bool_decide_true by (subst v; congruence). simpl.
    rewrite filter_cons. destruct (etype_ok etype ty).
    + rewrite decide_True by done. simpl. f_equal; [|done]. unfold name. by rewrite Ht.
    + by rewrite decide_False by congruence.
  - rewrite bool_decide_false; [done|].
    intros ->. apply Hne. eapply NoDup_lookup_inj; [apply (den_ids _ _ _ H)|done..].
Qed.

Lemma swap_names kept l :
  Forall2 (names_edge (ids g) (etypes g)) kept l ->
  Forall2 (names_edge (ids g) (etypes g)) (map swap kept) (map (fun '(s, d, t) => (d, s, t)) l).
Proof.
  induction 1 as [|t [[s d] ty] kept l (Hf & Ht & Hty) HF IH]; [constructor|].
  simpl. constructor; [|done]. done.
Qed.

Lemma row_targets_bound kept l f v :
  Forall2 (names_edge (ids g) (etypes g)) kept l ->
  Forall (fun i => i < length (ids g))
    (map to (filter (fun t => matches f (tid t) = true) (row kept v))).
Proof.
  intros [_ Hb]%names_edge_bounds. apply Forall_map. apply Forall_forall. intros t Ht.
  rewrite Forall_forall in Hb. apply Hb.
  apply list_elem_of_filter in Ht as [_ Ht]. by apply list_elem_of_filter in Ht as [_ Ht].
Qed.

Lemma step_denotes v dir etype out :
  v < length (ids g) ->
  exists l, step g v dir (resolve_etype g etype) out = Ret (out ++ l) /\
    Forall (fun i => i < length (ids g)) l /\
    map (name g) l = neighbours nodes edges dir etype (name g v).
Proof.
  intros Hv. destruct (den_arrays _ _ _ H) as (kept & HF & Hout & Hin).
  set (fwd := map to (filter (fun t => matches (resolve_etype g etype) (tid t) = true) (row kept v))).
  set (bwd := map to (filter (fun t => matches (resolve_etype g etype) (tid t) = true) (row (map swap kept) v))).
  assert (Hb : forall l : list edge, omap (fun '(s, d, t) =>
      if bool_decide (s = name g v) && etype_ok etype t then Some d else None)
      (map (fun '(s, d, t) => (d, s, t)) l)
    = omap (fun '(s, d, t) => if bool_decide (d = name g v) && etype_ok etype t then Some s else None) l).
  { intros l. induction l as [|[[s d] t] l IH]; [done|]. cbn [map omap list_omap]. by rewrite IH. }
  assert (Hfwd : map (name g) fwd = out_nbrs nodes edges etype (name g v)) by (by apply row_names).
  assert (Hbwd : map (name g) bwd = in_nbrs nodes edges etype (name g v)).
  { unfold bwd, in_nbrs. rewrite <-Hb. apply row_names; [by apply swap_names|done]. }
  assert (Hfb : Forall (fun i => i < length (ids g)) fwd) by (by eapply row_targets_bound).
  assert (Hbb : Forall (fun i => i < length (ids g)) bwd) by (eapply row_targets_bound; by apply swap_names).
  unfold step. destruct dir; simpl;
    rewrite ?(scan_spec _ _ _ _ _ _ _ _ Hout Hv); simpl;
    rewrite ?(scan_spec _ _ _ _ _ _ _ _ Hin Hv); simpl; fold fwd bwd.
  - by exists fwd.
  - by exists bwd.
  - exists (fwd ++ bwd). rewrite app_assoc, map_app, Hfwd, Hbwd. split_and!; [done| |done].
    by apply Forall_app.
Qed.
End Rows.
