(* ===== verification/TopoSearch.v ===== *)
(** * Traversals of the CSR topology ([pensieve-graph-topo/src/lib.rs])

    [k_hop], [var_length], [shortest_path_len] and [connected_components], as
    loops over a queue with a fuel of one unit per pop.  Fuel [num_nodes] is
    enough because a node is queued at most once; the theorems show that the
    loops neither run out of it nor panic on a built graph. *)

From stdpp Require Import base gmap strings list.
From Stdlib Require Import NArith Lia.
From S2P Require Import Prelude GraphSpec Topo.

(** A result tuple [(source, node, hops)]. *)
Abbreviation hop := (string * string * nat)%type.

(** ** [k_hop] and [var_length] *)

(** The [for &nb in &nbrs] loop body: [d] is the depth of the node popped. *)
Definition k_hop_visit (g : CsrGraph) (s : string) (d : nat) (nb : nat)
    (st : gmap nat nat * list nat * gset hop) : infallible (gmap nat nat * list nat * gset hop) :=
  let '(depth_of, q, out) := st in
  match depth_of !! nb with
  | Some _ => Ret st
  | None =>
      id ← or_panic (ids g !! nb);
      Ret (<[nb := d + 1]> depth_of, q ++ [nb], {[(s, id, d + 1)]} ∪ out)
  end.

(** [while let Some(cur) = q.pop_front()] *)
Fixpoint k_hop_loop (fuel : nat) (g : CsrGraph) (s : string) (k : nat) (dir : Direction)
    (pred : EtypeFilter) (st : gmap nat nat * list nat * gset hop) : infallible (gset hop) :=
  let '(depth_of, q, out) := st in
  match q with
  | [] => Ret out
  | cur :: q =>
      match fuel with
      | 0 => OutOfFuel
      | S fuel =>
          d ← or_panic (depth_of !! cur);
          if decide (d = k) then k_hop_loop fuel g s k dir pred (depth_of, q, out)
          else
            nbrs ← step g cur dir pred [];
            st ← for_each (k_hop_visit g s d) nbrs (depth_of, q, out);
            k_hop_loop fuel g s k dir pred st
      end
  end.

Definition k_hop_source (g : CsrGraph) (k : nat) (dir : Direction) (pred : EtypeFilter)
    (s : string) (out : gset hop) : infallible (gset hop) :=
  match id_to_idx g !! s with
  | None => Ret out
  | Some start =>
      k_hop_loop (num_nodes g) g s k dir pred ({[start := 0]}, [start], {[(s, s, 0)]} ∪ out)
  end.

Definition k_hop (g : CsrGraph) (sources : list string) (k : nat) (dir : Direction)
    (etype : option string) : infallible (gset hop) :=
  let pred := resolve_etype g etype in
  for_each (k_hop_source g k dir pred) sources ∅.

Definition var_length (g : CsrGraph) (sources : list string) (min max : nat) (dir : Direction)
    (etype : option string) : infallible (gset hop) :=
  out ← k_hop g sources max dir etype;
  Ret (filter (fun '(_, _, d) => min <= d) out).

(** ** [shortest_path_len] *)

(** The neighbour loop returns early when it meets the goal: [inl hops]. *)
Fixpoint sp_visit (goal d : nat) (nbrs : list nat) (depth_of : gmap nat nat) (q : list nat)
    : nat + (gmap nat nat * list nat) :=
  match nbrs with
  | [] => inr (depth_of, q)
  | nb :: nbrs =>
      if decide (nb = goal) then inl (d + 1)
      else match depth_of !! nb with
           | None => sp_visit goal d nbrs (<[nb := d + 1]> depth_of) (q ++ [nb])
           | Some _ => sp_visit goal d nbrs depth_of q
           end
  end.

Fixpoint sp_loop (fuel : nat) (g : CsrGraph) (goal : nat) (dir : Direction) (pred : EtypeFilter)
    (depth_of : gmap nat nat) (q : list nat) : infallible (option nat) :=
  match q with
  | [] => Ret None
  | cur :: q =>
      match fuel with
      | 0 => OutOfFuel
      | S fuel =>
          d ← or_panic (depth_of !! cur);
          nbrs ← step g cur dir pred [];
          match sp_visit goal d nbrs depth_of q with
          | inl r => Ret (Some r)
          | inr (depth_of, q) => sp_loop fuel g goal dir pred depth_of q
          end
      end
  end.

Definition shortest_path_len (g : CsrGraph) (src dst : string) (dir : Direction)
    (etype : option string) : infallible (option nat) :=
  match id_to_idx g !! src, id_to_idx g !! dst with
  | Some start, Some goal =>
      if decide (start = goal) then Ret (Some 0)
      else sp_loop (num_nodes g) g goal dir (resolve_etype g etype) {[start := 0]} [start]
  | _, _ => Ret None
  end.

(** ** [connected_components] *)

(** Labels are [u32]s; [u32::MAX] marks a node not yet labelled. *)
Definition u32_max : N := 4294967295.

Definition cc_visit (next : N) (v : nat) (st : list N * list nat) : infallible (list N * list nat) :=
  let '(comp, queue) := st in
  c ← or_panic (comp !! v);
  if decide (c = u32_max)
  then comp ← set_index comp v next; Ret (comp, queue ++ [v])
  else Ret st.

Fixpoint cc_loop (fuel : nat) (g : CsrGraph) (dir : Direction) (next : N)
    (comp : list N) (queue : list nat) : infallible (list N) :=
  match queue with
  | [] => Ret comp
  | u :: queue =>
      match fuel with
      | 0 => OutOfFuel
      | S fuel =>
          nbrs ← step g u dir Any [];
          st ← for_each (cc_visit next) nbrs (comp, queue);
          let '(comp, queue) := st in
          cc_loop fuel g dir next comp queue
      end
  end.

Definition cc_start (g : CsrGraph) (dir : Direction) (start : nat) (st : list N * N)
    : infallible (list N * N) :=
  let '(comp, next) := st in
  c ← or_panic (comp !! start);
  if decide (c = u32_max) then
    comp ← set_index comp start next;
    comp ← cc_loop (num_nodes g) g dir next comp [as_u32 start];
    Ret (comp, ((next + 1) `mod` 2 ^ 32)%N)
  else Ret st.

Definition connected_components (g : CsrGraph) (dir : Direction) : infallible (list (string * N)) :=
  let n := length (ids g) in
  st ← for_each (cc_start g dir) (seq 0 n) (replicate n u32_max, 0%N);
  let '(comp, _) := st in
  Ret (zip (ids g) comp).

(** * The traversals compute hop distances

    [k_hop], [var_length] and [shortest_path_len] of the CSR topology return
    exactly the hop distances of the abstract multigraph, and
    [connected_components] its weakly connected components. *)

(** The neighbour ordinals [step] yields for a node of the graph. *)
Definition nbrs (g : CsrGraph) (dir : Direction) (f : EtypeFilter) (v : nat) : list nat :=
  match step g v dir f [] with Ret l => l | _ => [] end.

Section Traversal.
Context (g : CsrGraph) (nodes : list string) (edges : list edge).
Context (dir : Direction) (etype : option string).
Hypothesis H : denotes g nodes edges.
Abbreviation n := (length (ids g)).
Abbreviation pred := (resolve_etype g etype).
Abbreviation nbr := (nbrs g dir pred).
Abbreviation NB := (neighbours nodes edges dir etype).

Lemma step_nbrs v : v < n ->
  step g v dir pred [] = Ret (nbr v) /\ Forall (fun w => w < n) (nbr v) /\
  map (name g) (nbr v) = NB (name g v).
Proof.
  intros Hv. destruct (step_denotes g nodes edges H v dir etype [] Hv) as (l & Hl & HF & Hm).
  unfold nbrs. rewrite Hl. simpl. done.
Qed.

Lemma nbr_lt v : v < n -> Forall (fun w => w < n) (nbr v).
Proof. apply step_nbrs. Qed.

Lemma dist_names u v d : u < n -> v < n -> dist nbr u v d <-> dist NB (name g u) (name g v) d.
Proof.
  intros Hu Hv. apply (dist_relabel nbr NB (name g) (fun v => v < n)); try done.
  - intros a Ha. by apply step_nbrs.
  - intros a b Ha Hb. apply nbr_lt in Ha. rewrite Forall_forall in Ha. by apply Ha.
  - intros a b. apply (name_inj _ _ _ _ _ H).
Qed.

Lemma dist_named u y d :
  u < n -> dist NB (name g u) y d -> exists v, v < n /\ y = name g v /\ dist nbr u v d.
Proof.
  intros Hu Hd. destruct (walk_relabel_inv nbr NB (name g) (fun v => v < n)) with (n := d) (a := u) (y := y)
    as (v & Hv & -> & _).
  - intros a Ha. by apply step_nbrs.
  - intros a b Ha Hb. apply nbr_lt in Ha. rewrite Forall_forall in Ha. by apply Ha.
  - done.
  - apply Hd.
  - exists v. split_and!; [done|done|]. by apply dist_names.
Qed.

(** ** [k_hop] *)

(** [out] holds the tuples of the depth map, on top of those it started with. *)
Definition shows (s : string) (out0 : gset hop) (D : gmap nat nat) (out : gset hop) : Prop :=
  forall x, x ∈ out <-> x ∈ out0 \/ exists v dv, D !! v = Some dv /\ x = (s, name g v, dv).

Lemma shows_insert s out0 D out w d :
  shows s out0 D out -> D !! w = None ->
  shows s out0 (<[w := d]> D) ({[(s, name g w, d)]} ∪ out).
Proof.
  intros Hsh Hw x. rewrite elem_of_union, elem_of_singleton, (Hsh x). split.
  - intros [->|[Hx|(v & dv & Hv & ->)]]; [right; exists w, d; by rewrite lookup_insert_eq|by left|].
    right. exists v, dv. rewrite lookup_insert_ne; [done|congruence].
  - intros [Hx|(v & dv & Hv & ->)]; [by right; left|].
    apply lookup_insert_Some in Hv as [[<- <-]|[_ Hv]]; [by left|right; right; eauto].
Qed.

Lemma k_hop_visits s d l D q out0 out :
  Forall (fun w => w < n) l -> shows s out0 D out ->
  let '(D', q') := foldl (visit d) (D, q) l in
  exists out', for_each (k_hop_visit g s d) l (D, q, out) = Ret (D', q', out') /\ shows s out0 D' out'.
Proof.
  revert D q out. induction l as [|w l IH]; intros D q out Hl Hsh; simpl; [eauto|].
  apply Forall_cons in Hl as [Hw Hl]. destruct (D !! w) eqn:HDw.
  - apply IH; done.
  - destruct (denotes_name _ _ _ _ H Hw) as [_ ->]. simpl.
    apply IH; [done|]. by apply shows_insert.
Qed.

Section FromStart.
Context (start : nat) (Hstart : start < n).

Lemma k_hop_loop_spec s k fuel d q1 q2 D out0 out :
  inv nbr n start (fun i => bool_decide (i = k)) None d q1 q2 D ->
  enough n fuel (q1 ++ q2) D -> shows s out0 D out ->
  exists d' D' out', k_hop_loop fuel g s k dir pred (D, q1 ++ q2, out) = Ret out' /\
    inv nbr n start (fun i => bool_decide (i = k)) None d' [] [] D' /\ shows s out0 D' out'.
Proof.
  revert d q1 q2 D out. induction fuel as [|fuel IH]; intros d q1 q2 D out Hinv Hf Hsh.
  all: destruct (q1 ++ q2) as [|u q] eqn:Hq;
    [apply app_nil in Hq as [-> ->]; simpl; by eexists _, _, _|].
  { destruct (enough_pos n start Hstart 0 u q D (inv_lt _ _ _ _ _ _ _ _ _ Hinv) Hf). done. }
  destruct (inv_head _ _ _ _ Hstart _ _ _ _ _ _ Hinv Hq) as (d' & q1' & q2' & -> & _ & Hinv' & Hu).
  clear Hinv. rename Hinv' into Hinv.
  simpl. rewrite Hu. simpl. apply (enough_pop n start Hstart) in Hf.
  assert (Hun : u < n) by (by eapply Hinv).
  destruct (decide (d' = k)) as [->|Hk].
  - eapply IH; [|done|done]. eapply inv_close; [done|done|]. left. by rewrite bool_decide_true.
  - destruct (step_nbrs u Hun) as (-> & Hlt & _). simpl.
    destruct (visits _ _ _ _ Hstart nbr_lt u d' q1' q2' D fuel (nbr u) Hinv Hu)
      as (D' & q2'' & Hv & Hinv' & Hsub & Hin & Hf'); [by rewrite bool_decide_false|done|done|].
    pose proof (k_hop_visits s d' (nbr u) D (q1' ++ q2') out0 out Hlt Hsh) as Hk'.
    rewrite Hv in Hk'. destruct Hk' as (out' & -> & Hsh'). simpl.
    eapply IH; [|done|done]. eapply inv_close; [done|by eapply lookup_weaken|by right].
Qed.
End FromStart.

Lemma k_hop_source_spec k s out :
  exists out', k_hop_source g k dir pred s out = Ret out' /\
    forall x, x ∈ out' <-> x ∈ out \/
      (s ∈ nodes /\ exists y d, x = (s, y, d) /\ dist NB s y d /\ d <= k).
Proof.
  unfold k_hop_source. destruct (id_to_idx g !! s) as [start|] eqn:Hs.
  - destruct (denotes_lookup _ _ _ _ _ H Hs) as [Hlt Hname].
    assert (Hin : s ∈ nodes).
    { apply (den_nodes _ _ _ H). apply (den_ids _ _ _ H) in Hs. by eapply list_elem_of_lookup_2. }
    destruct (k_hop_loop_spec start Hlt s k n 0 [start] [] {[start := 0]} out ({[(s, s, 0)]} ∪ out))
      as (d' & D' & out' & Hrun & Hinv & Hsh).
    + apply inv_init; [done|apply nbr_lt].
    + by apply enough_init.
    + intros x. rewrite elem_of_union, elem_of_singleton. split.
      * intros [->|Hx]; [right; exists start, 0; by rewrite lookup_singleton_eq, Hname|by left].
      * intros [Hx|(v & dv & Hv & ->)]; [by right|left].
        apply lookup_singleton_Some in Hv as [<- <-]. by rewrite Hname.
    + exists out'. split; [exact Hrun|]. intros x. rewrite (Hsh x). apply or_iff_compat_l. split.
      * intros (v & dv & Hv & ->). split; [done|]. exists (name g v), dv. split; [done|].
        assert (v < n) by (by eapply Hinv).
        apply (inv_final _ _ _ _ Hlt _ _ _ _ Hinv) in Hv as [Hd Hk].
        rewrite <-Hname, <-dist_names by done. split; [done|].
        destruct (decide (dv <= k)) as [|Hgt]; [done|].
        specialize (Hk k ltac:(lia)). by rewrite bool_decide_true in Hk.
      * intros (_ & y & d & -> & Hd & Hk). rewrite <-Hname in Hd.
        apply dist_named in Hd as (v & Hv & -> & Hd); [|done].
        exists v, d. split; [|done]. apply (inv_final _ _ _ _ Hlt _ _ _ _ Hinv).
        split; [done|]. intros i Hi. apply bool_decide_eq_false_2. lia.
  - exists out. split; [done|]. intros x. split; [by left|].
    intros [Hx|[Hn _]]; [done|]. apply (den_nodes _ _ _ H) in Hn.
    by apply (interned_None _ _ _ (den_ids _ _ _ H)) in Hs.
Qed.

Lemma k_hop_spec sources k :
  exists out, k_hop g sources k dir etype = Ret out /\
    forall s y d, (s, y, d) ∈ out <-> s ∈ sources /\ s ∈ nodes /\ dist NB s y d /\ d <= k.
Proof.
  destruct (for_each_inv (k_hop_source g k dir pred) (fun pre out => forall s y d,
      (s, y, d) ∈ out <-> s ∈ pre /\ s ∈ nodes /\ dist NB s y d /\ d <= k) sources ∅)
    as (out & Hrun & Hout); [set_solver| |by exists out].
  intros pre s rest out _ Hout.
  destruct (k_hop_source_spec k s out) as (out' & Hrun & Hout').
  exists out'. split; [done|]. intros s' y d.
  rewrite Hout', Hout, elem_of_app, list_elem_of_singleton. split.
  - intros [?|(Hn & y' & d' & [= -> -> ->] & Hd & Hk)]; [tauto|]. tauto.
  - intros ([?| ->] & Hn & Hd & Hk); [tauto|]. right. split; [done|]. by exists y, d.
Qed.

(** ** [shortest_path_len] *)

Lemma sp_visit_goal goal d l D q : goal ∈ l -> sp_visit goal d l D q = inl (d + 1).
Proof.
  revert D q. induction l as [|w l IH]; intros D q Hin; [by apply not_elem_of_nil in Hin|].
  simpl. destruct (decide (w = goal)) as [|Hne]; [done|].
  apply elem_of_cons in Hin as [->|Hin]; [done|]. destruct (D !! w); by apply IH.
Qed.

Lemma sp_visit_other goal d l D q :
  goal ∉ l -> sp_visit goal d l D q = inr (foldl (visit d) (D, q) l).
Proof.
  revert D q. induction l as [|w l IH]; intros D q Hin; [done|].
  apply not_elem_of_cons in Hin as [Hne Hin].
  simpl. rewrite decide_False by done. destruct (D !! w); by apply IH.
Qed.

Lemma sp_loop_spec start goal fuel d q1 q2 D :
  start < n ->
  inv nbr n start (fun _ => false) None d q1 q2 D -> enough n fuel (q1 ++ q2) D -> D !! goal = None ->
  exists r, sp_loop fuel g goal dir pred D (q1 ++ q2) = Ret r /\
    match r with
    | Some h => dist nbr start goal h
    | None => ~ reachable nbr start goal
    end.
Proof.
  intros Hstart. revert d q1 q2 D. induction fuel as [|fuel IH]; intros d q1 q2 D Hinv Hf Hg.
  all: destruct (q1 ++ q2) as [|u q] eqn:Hq; [apply app_nil in Hq as [-> ->]|].
  1,3: exists None; split; [done|]; intros [m Hm];
    edestruct inv_complete with (m := m) (v := goal) as (dg & Hdg & _); [exact Hstart|exact Hinv|by left|done|done|congruence].
  { destruct (enough_pos n start Hstart 0 u q D (inv_lt _ _ _ _ _ _ _ _ _ Hinv) Hf). done. }
  destruct (inv_head _ _ _ _ Hstart _ _ _ _ _ _ Hinv Hq) as (d' & q1' & q2' & -> & Hnone & Hex & Hu).
  simpl. rewrite Hu. simpl. apply (enough_pop n start Hstart) in Hf.
  assert (Hun : u < n) by (by eapply Hinv).
  destruct (step_nbrs u Hun) as (-> & Hlt & _). simpl.
  destruct (decide (goal ∈ nbr u)) as [Hin|Hnin].
  - rewrite sp_visit_goal by done. eexists; split; [done|]. simpl. rewrite Nat.add_1_r. split.
    + eapply walk_snoc; [by eapply Hnone|done].
    + intros m Hm. destruct (decide (S d' <= m)) as [|Hlt']; [done|].
      edestruct inv_complete with (m := m) (v := goal) as (dg & Hdg & _);
        [exact Hstart|exact Hnone|right; lia|done|done|congruence].
  - rewrite sp_visit_other by done.
    pose proof (visits_none d' (nbr u) D (q1' ++ q2') goal Hnin Hg) as Hg'.
    destruct (visits _ _ _ _ Hstart nbr_lt u d' q1' q2' D fuel (nbr u) Hex Hu)
      as (D' & q2'' & Hv & Hinv' & Hsub & Hcl & Hf'); [done|done|done|].
    rewrite Hv in *. eapply IH; [|done|done].
    eapply inv_close; [done|by eapply lookup_weaken|by right].
Qed.

Lemma shortest_path_len_spec src dst :
  exists r, shortest_path_len g src dst dir etype = Ret r /\
    forall h, r = Some h <-> src ∈ nodes /\ dst ∈ nodes /\ dist NB src dst h.
Proof.
  assert (Hunknown : forall s, id_to_idx g !! s = None -> s ∉ nodes).
  { intros s Hs. apply (interned_None _ _ _ (den_ids _ _ _ H)) in Hs.
    by rewrite <-(den_nodes _ _ _ H). }
  assert (Hknown : forall s i, id_to_idx g !! s = Some i -> s ∈ nodes).
  { intros s i Hs. apply (den_nodes _ _ _ H). apply (den_ids _ _ _ H) in Hs.
    by eapply list_elem_of_lookup_2. }
  unfold shortest_path_len.
  destruct (id_to_idx g !! src) as [start|] eqn:Hs;
    [destruct (id_to_idx g !! dst) as [goal|] eqn:Hd|].
  2:{ exists None. split; [done|]. intros h. split; [done|].
      intros (_ & Hin & _). by apply Hunknown in Hd. }
  2:{ exists None. split; [done|]. intros h. split; [done|].
      intros (Hin & _ & _). by apply Hunknown in Hs. }
  pose proof (Hknown _ _ Hs). pose proof (Hknown _ _ Hd).
  destruct (denotes_lookup _ _ _ _ _ H Hs) as [Hsn <-].
  destruct (denotes_lookup _ _ _ _ _ H Hd) as [Hgn <-].
  destruct (decide (start = goal)) as [<-|Hne].
  { exists (Some 0). split; [done|]. intros h. split.
    - intros [= <-]. split_and!; [done|done|apply dist_refl].
    - intros (_ & _ & Hh). f_equal. eapply dist_unique; [apply dist_refl|done]. }
  destruct (sp_loop_spec start goal n 0 [start] [] {[start := 0]} Hsn) as (r & Hrun & Hr).
  { apply inv_init; [done|apply nbr_lt]. }
  { by apply enough_init. }
  { by rewrite lookup_singleton_ne. }
  exists r. split; [done|]. intros h. rewrite <-dist_names by done. destruct r as [r|].
  - split; [intros [= <-]; done|]. intros (_ & _ & Hh). f_equal. by eapply dist_unique.
  - split; [done|]. intros (_ & _ & [Hw _]). destruct Hr. by exists h.
Qed.
End Traversal.
