(* ===== verification/TopoComponents.v ===== *)
(** * Connected components

    [connected_components] under [Both] labels the weakly connected components
    of the multigraph, with dense labels in first-seen order.  The labelling
    loop is treated over an abstract symmetric neighbour function first. *)

From stdpp Require Import base gmap strings list.
From Stdlib Require Import NArith Lia.
From S2P Require Import Prelude GraphSpec Topo TopoSearch.

(** Nodes still carrying the "unlabelled" mark. *)
Definition count_free (C : list N) : nat := length (filter (fun c => c = u32_max) C).

Lemma count_free_insert C w L :
  C !! w = Some u32_max -> L <> u32_max -> S (count_free (<[w := L]> C)) = count_free C.
Proof.
  unfold count_free. intros Hw HL. revert w Hw.
  induction C as [|c C IH]; intros [|w] Hw; simpl in *; try done.
  - injection Hw as ->. rewrite !filter_cons. by rewrite decide_False, decide_True.
  - rewrite !filter_cons. destruct (decide (c = u32_max)); simpl; by rewrite IH.
Qed.

Lemma count_free_replicate n : count_free (replicate n u32_max) = n.
Proof. unfold count_free. induction n as [|n IH]; [done|]. simpl. by rewrite IH. Qed.

Lemma count_free_le C : count_free C <= length C.
Proof. apply length_filter. Qed.

Section Components.
Context (g : CsrGraph) (nodes : list string) (edges : list edge).
Hypothesis H : denotes g nodes edges.
Abbreviation n := (length (ids g)).
Abbreviation nbr := (nbrs g Both Any).
Abbreviation NB := (neighbours nodes edges Both None).

Lemma both_lt v w : v < n -> w ∈ nbr v -> w < n.
Proof.
  intros Hv. destruct (step_nbrs g nodes edges Both None H v Hv) as (_ & HF & _).
  rewrite Forall_forall in HF. apply HF.
Qed.

Lemma both_names v : v < n -> map (name g) (nbr v) = NB (name g v).
Proof. apply (step_nbrs g nodes edges Both None H v). Qed.

Lemma both_sym v w : v < n -> w ∈ nbr v -> v ∈ nbr w.
Proof.
  intros Hv Hw. pose proof (both_lt v w Hv Hw) as Hwn.
  assert (Hin : name g v ∈ NB (name g w)).
  { apply neighbours_both_sym. rewrite <-both_names by done. apply list_elem_of_fmap. by exists w. }
  rewrite <-both_names in Hin by done. apply list_elem_of_fmap in Hin as (v' & Heq & Hv').
  assert (v = v') as ->; [|done].
  eapply name_inj; [exact H|done| |done]. by eapply both_lt.
Qed.

Lemma both_reach_lt u v : u < n -> reachable nbr u v -> v < n.
Proof.
  intros Hu. apply (closed_reachable nbr (fun x => x < n)); [done|]. intros x y. apply both_lt.
Qed.

Lemma both_reach_sym u v : u < n -> reachable nbr u v -> reachable nbr v u.
Proof.
  intros Hu [m Hm]. induction Hm as [u|m u v w Hm IH Hw]; [exists 0; constructor|].
  eapply reachable_trans; [|by apply IH]. exists 1. apply walk_one. apply both_sym; [|done].
  apply (both_reach_lt u); [done|by exists m].
Qed.

(** ** Labelling one component *)
Section OneComponent.
Context (C0 : list N) (s : nat) (L : N).
Hypothesis C0_length : length C0 = n.
Hypothesis C0_closed : forall v w c, C0 !! v = Some c -> c <> u32_max -> w ∈ nbr v ->
  C0 !! w <> Some u32_max.
Hypothesis s_free : C0 !! s = Some u32_max.
Hypothesis L_label : L <> u32_max.

Record cinv (ex : option nat) (Q : list nat) (C : list N) : Prop := {
  cinv_length : length C = n;
  cinv_old v c : C0 !! v = Some c -> c <> u32_max -> C !! v = Some c;
  cinv_new v c : C !! v = Some c ->
    C0 !! v = Some c \/ (C0 !! v = Some u32_max /\ c = L /\ reachable nbr s v);
  cinv_queue v : v ∈ Q -> C0 !! v = Some u32_max /\ C !! v = Some L;
  cinv_start : C !! s = Some L;
  cinv_closed v : C0 !! v = Some u32_max -> C !! v = Some L -> v ∉ Q -> Some v <> ex ->
    forall w, w ∈ nbr v -> C !! w <> Some u32_max;
}.

Lemma s_lt : s < n.
Proof. rewrite <-C0_length. by eapply lookup_lt_Some. Qed.

Lemma cinv_init : cinv None [s] (<[s := L]> C0).
Proof.
  pose proof s_lt as Hs. rewrite <-C0_length in Hs. split.
  - by rewrite length_insert.
  - intros v c Hv Hc. rewrite list_lookup_insert_ne; [done|congruence].
  - intros v c Hv. destruct (decide (s = v)) as [<-|Hne].
    + rewrite list_lookup_insert_eq in Hv by done. injection Hv as <-.
      right. split_and!; [done|done|exists 0; constructor].
    + rewrite list_lookup_insert_ne in Hv by done. by left.
  - intros v ->%list_elem_of_singleton. by rewrite list_lookup_insert_eq.
  - by rewrite list_lookup_insert_eq.
  - intros v Hv HL Hnin. destruct (decide (s = v)) as [<-|Hne]; [set_solver|].
    rewrite list_lookup_insert_ne in HL by done. congruence.
Qed.

Lemma cinv_visit u Q C w :
  cinv (Some u) Q C -> reachable nbr s u -> w ∈ nbr u -> C !! w = Some u32_max ->
  cinv (Some u) (Q ++ [w]) (<[w := L]> C).
Proof.
  intros Hc Hu Hw HCw.
  assert (Hwn : w < length C) by (by eapply lookup_lt_Some).
  assert (HC0w : C0 !! w = Some u32_max).
  { destruct (cinv_new _ _ _ Hc _ _ HCw) as [?|(? & ? & ?)]; [done|congruence]. }
  assert (Hne : forall v, C !! v = Some L -> w <> v) by (intros v HL ->; congruence).
  split.
  - rewrite length_insert. apply Hc.
  - intros v c Hv Hcm. rewrite list_lookup_insert_ne; [by apply Hc|congruence].
  - intros v c Hv. destruct (decide (w = v)) as [<-|].
    + rewrite list_lookup_insert_eq in Hv by done. injection Hv as <-.
      right. split_and!; [done|done|]. eapply reachable_trans; [done|].
      exists 1. by apply walk_one.
    + rewrite list_lookup_insert_ne in Hv by done. by apply Hc.
  - intros v [Hv| ->%list_elem_of_singleton]%elem_of_app; [|by rewrite list_lookup_insert_eq].
    apply (cinv_queue _ _ _ Hc) in Hv as [? HL].
    rewrite list_lookup_insert_ne; [done|by apply Hne].
  - rewrite list_lookup_insert_ne; [apply (cinv_start _ _ _ Hc)|]. apply Hne, (cinv_start _ _ _ Hc).
  - intros v Hv HL Hnin Hex x Hx. rewrite elem_of_app, list_elem_of_singleton in Hnin.
    assert (Hwv : w <> v) by (intros ->; tauto).
    rewrite list_lookup_insert_ne in HL by done.
    destruct (decide (w = x)) as [<-|]; [rewrite list_lookup_insert_eq by done; congruence|].
    rewrite list_lookup_insert_ne by done. eapply Hc; try done. tauto.
Qed.

Lemma cc_visits u Q C l fuel :
  cinv (Some u) Q C -> reachable nbr s u -> (forall w, w ∈ l -> w ∈ nbr u) -> u < n ->
  length Q + count_free C <= fuel ->
  exists C' Q', for_each (cc_visit L) l (C, Q) = Ret (C', Q') /\ cinv (Some u) Q' C' /\
    (forall w c, C !! w = Some c -> c <> u32_max -> C' !! w = Some c) /\
    (forall w, w ∈ l -> C' !! w <> Some u32_max) /\ length Q' + count_free C' <= fuel.
Proof.
  intros Hc Hu Hl Hun. revert C Q Hc. induction l as [|w l IH]; intros C Q Hc Hf.
  { exists C, Q. split_and!; [done..| |done]. by intros ? ?%not_elem_of_nil. }
  assert (Hw : w ∈ nbr u) by (apply Hl; by left).
  assert (Hl' : forall w, w ∈ l -> w ∈ nbr u) by (intros; apply Hl; by right).
  assert (Hwn : w < length C) by (rewrite (cinv_length _ _ _ Hc); by eapply both_lt).
  destruct (lookup_lt_is_Some_2 _ _ Hwn) as [c HCw]. simpl. rewrite HCw. simpl.
  destruct (decide (c = u32_max)) as [->|Hcm].
  - rewrite set_index_ok by done. simpl.
    destruct (IH Hl' (<[w := L]> C) (Q ++ [w])) as (C' & Q' & -> & Hc' & Hmono & Hdone & Hf').
    { by apply cinv_visit. }
    { rewrite length_app. simpl. pose proof (count_free_insert C w L HCw L_label). lia. }
    exists C', Q'. split_and!; [done|done| | |done].
    + intros x c Hx Hcx. apply Hmono; [|done]. rewrite list_lookup_insert_ne; congruence.
    + intros x [->|Hx]%elem_of_cons; [|by apply Hdone].
      rewrite (Hmono w L); [congruence|by rewrite list_lookup_insert_eq|done].
  - simpl. destruct (IH Hl' C Q Hc Hf) as (C' & Q' & -> & Hc' & Hmono & Hdone & Hf').
    exists C', Q'. split_and!; [done|done|done| |done].
    intros x [->|Hx]%elem_of_cons; [|by apply Hdone]. rewrite (Hmono w c HCw Hcm). congruence.
Qed.

Lemma cc_loop_inv fuel Q C :
  cinv None Q C -> length Q + count_free C <= fuel ->
  exists C', cc_loop fuel g Both L C Q = Ret C' /\ cinv None [] C'.
Proof.
  revert Q C. induction fuel as [|fuel IH]; intros [|u Q] C Hc Hf; simpl.
  1,3: eauto.
  { simpl in Hf. lia. }
  destruct (cinv_queue _ _ _ Hc u) as [Hu0 HuL]; [by left|].
  assert (Hun : u < n) by (rewrite <-C0_length; by eapply lookup_lt_Some).
  assert (Hur : reachable nbr s u).
  { destruct (cinv_new _ _ _ Hc _ _ HuL) as [?|(_ & _ & ?)]; [congruence|done]. }
  destruct (step_nbrs g nodes edges Both None H u Hun) as (Hstep & _ & _).
  simpl in Hstep. rewrite Hstep. simpl.
  destruct (cc_visits u Q C (nbr u) fuel) as (C' & Q' & -> & Hc' & Hmono & Hdone & Hf');
    [|done|done|done|simpl in Hf; lia|].
  { destruct Hc as [Hc1 Hc2 Hc3 Hc4 Hc5 Hc6]. split; [done..| |done|].
    - intros v Hv. apply Hc4. by right.
    - intros v Hv HL Hnin Hex. apply Hc6; [done..| |done].
      rewrite not_elem_of_cons. split; [congruence|done]. }
  simpl. apply IH; [|done]. destruct Hc' as [Hc1 Hc2 Hc3 Hc4 Hc5 Hc6]. split; [done..|].
  intros v Hv HL Hnin _. destruct (decide (v = u)) as [->|Hne]; [apply Hdone|].
  apply Hc6; try done. congruence.
Qed.

Lemma cc_loop_spec :
  exists C, cc_loop (num_nodes g) g Both L (<[s := L]> C0) [s] = Ret C /\ length C = n /\
    (forall v, reachable nbr s v -> C0 !! v = Some u32_max /\ C !! v = Some L) /\
    (forall v c, C !! v = Some c -> C0 !! v = Some c \/ (c = L /\ reachable nbr s v)) /\
    (forall v c, C0 !! v = Some c -> c <> u32_max -> C !! v = Some c).
Proof.
  destruct (cc_loop_inv (num_nodes g) [s] (<[s := L]> C0)) as (C & Hrun & Hc).
  { apply cinv_init. }
  { pose proof (count_free_insert C0 s L s_free L_label).
    pose proof (count_free_le C0). unfold num_nodes. simpl. lia. }
  exists C. split_and!; [done|apply (cinv_length _ _ _ Hc)| | |apply (cinv_old _ _ _ Hc)].
  - intros w [m Hm]. revert w Hm. induction m as [|m IH]; intros w Hm;
      inversion Hm as [|m' x v w' Hm' Hw]; subst.
    + split; [done|apply (cinv_start _ _ _ Hc)].
    + destruct (IH v Hm') as [Hv0 HvL].
      assert (Hvn : v < n) by (rewrite <-C0_length; by eapply lookup_lt_Some).
      pose proof (both_lt _ _ Hvn Hw) as Hwn.
      assert (Hw0 : C0 !! w = Some u32_max).
      { rewrite <-C0_length in Hwn. destruct (lookup_lt_is_Some_2 _ _ Hwn) as [c Hc0].
        destruct (decide (c = u32_max)) as [->|Hcm]; [done|].
        by destruct (C0_closed w v c Hc0 Hcm (both_sym _ _ Hvn Hw)). }
      split; [done|].
      pose proof (cinv_closed _ _ _ Hc v Hv0 HvL ltac:(apply not_elem_of_nil) ltac:(done) w Hw).
      rewrite <-(cinv_length _ _ _ Hc) in Hwn.
      destruct (lookup_lt_is_Some_2 _ _ Hwn) as [c Hcw]. rewrite Hcw.
      destruct (cinv_new _ _ _ Hc _ _ Hcw) as [?|(_ & -> & _)]; [congruence|done].
  - intros v c Hv. destruct (cinv_new _ _ _ Hc _ _ Hv) as [?|(_ & ? & ?)]; [by left|by right].
Qed.
End OneComponent.

(** ** The outer loop over start nodes *)

(** After the nodes below [i] have been tried as start nodes. *)
Record labelled (i : nat) (C : list N) (next : N) : Prop := {
  lab_length : length C = n;
  lab_next : (next <= N.of_nat i)%N;
  lab_done v : v < i -> C !! v <> Some u32_max;
  lab_lt v c : C !! v = Some c -> c <> u32_max -> (c < next)%N;
  lab_closed v w c : C !! v = Some c -> c <> u32_max -> w ∈ nbr v -> C !! w <> Some u32_max;
  lab_same u v cu cv : C !! u = Some cu -> C !! v = Some cv -> cu <> u32_max -> cv <> u32_max ->
    cu = cv <-> reachable nbr u v;
  lab_dense c : (c < next)%N -> exists v, v < i /\ C !! v = Some c;
  lab_first v c c' : C !! v = Some c -> c <> u32_max -> (c' < c)%N ->
    exists u, u < v /\ C !! u = Some c';
}.

Lemma labelled_init : labelled 0 (replicate n u32_max) 0.
Proof.
  assert (Hfree : forall v c, replicate n u32_max !! v = Some c -> c = u32_max).
  { intros v c [-> _]%lookup_replicate. done. }
  split.
  - by rewrite length_replicate.
  - lia.
  - lia.
  - intros v c Hv%Hfree. done.
  - intros v w c Hv%Hfree. done.
  - intros u v cu cv Hu%Hfree. done.
  - lia.
  - intros v c c' Hv%Hfree. done.
Qed.

Lemma labelled_lookup i C next v : labelled i C next -> v < n -> exists c, C !! v = Some c.
Proof. intros Hl Hv. rewrite <-(lab_length _ _ _ Hl) in Hv. by apply lookup_lt_is_Some_2. Qed.

Lemma labelled_skip i C next c :
  labelled i C next -> C !! i = Some c -> c <> u32_max -> labelled (i + 1) C next.
Proof.
  intros [Hlen Hnext Hdone Hlt Hcl Hsame Hdense Hfirst] Hi Hc. split; try done.
  - lia.
  - intros v Hv. destruct (decide (v = i)) as [->|]; [congruence|]. apply Hdone. lia.
  - intros x Hx. destruct (Hdense x Hx) as (v & Hv & Hcv). exists v. split; [lia|done].
Qed.

(** Labelling the component of a free start node with a fresh label. *)
Lemma labelled_new i C next C' :
  labelled i C next -> i < n -> (next < u32_max)%N -> C !! i = Some u32_max -> length C' = n ->
  (forall v, reachable nbr i v -> C !! v = Some u32_max /\ C' !! v = Some next) ->
  (forall v c, C' !! v = Some c -> C !! v = Some c \/ (c = next /\ reachable nbr i v)) ->
  (forall v c, C !! v = Some c -> c <> u32_max -> C' !! v = Some c) ->
  labelled (i + 1) C' (next + 1).
Proof.
  intros [Hlen Hnext Hdone Hlt Hcl Hsame Hdense Hfirst] Hi Hmax Hfree Hlen' Hnew Hback Hkeep.
  assert (Hsplit : forall v c, C' !! v = Some c -> c <> u32_max ->
    (C !! v = Some c /\ (c < next)%N /\ ~ reachable nbr i v) \/ (c = next /\ reachable nbr i v)).
  { intros v c Hv Hc. destruct (Hback v c Hv) as [Hold|]; [left|by right].
    split_and!; [done|by eapply Hlt|]. intros [Hr _]%Hnew. congruence. }
  assert (Hi' : C' !! i = Some next) by (apply Hnew; exists 0; constructor).
  assert (Hlab : forall v, C' !! v <> Some u32_max -> v < n -> exists c, C' !! v = Some c /\ c <> u32_max).
  { intros v Hv Hvn. rewrite <-Hlen' in Hvn.
    destruct (lookup_lt_is_Some_2 _ _ Hvn) as [c Hc]. exists c. split; [done|congruence]. }
  split.
  - done.
  - lia.
  - intros v Hv. destruct (decide (v = i)) as [->|Hne]; [rewrite Hi'; intros [= ?]; lia|].
    assert (Hvi : v < i) by lia. specialize (Hdone v Hvi).
    assert (Hvn : v < length C) by lia. destruct (lookup_lt_is_Some_2 _ _ Hvn) as [c Hc].
    rewrite (Hkeep v c Hc); congruence.
  - intros v c Hv Hc. destruct (Hsplit v c Hv Hc) as [(_ & ? & _)|[-> _]]; lia.
  - intros v w c Hv Hc Hw. destruct (Hsplit v c Hv Hc) as [(Hold & _ & _)|[-> Hr]].
    + specialize (Hcl v w c Hold Hc Hw).
      assert (Hwn : w < length C).
      { rewrite Hlen. eapply (both_lt v); [|done]. rewrite <-Hlen. by eapply lookup_lt_Some. }
      destruct (lookup_lt_is_Some_2 _ _ Hwn) as [cw Hcw]. rewrite (Hkeep w cw Hcw); congruence.
    + assert (Hrw : reachable nbr i w) by (eapply reachable_trans; [done|exists 1; by apply walk_one]).
      destruct (Hnew w Hrw) as [_ ->]. intros [= ?]. lia.
  - intros u v cu cv Hu Hv Hcu Hcv.
    destruct (Hsplit u cu Hu Hcu) as [(Hu' & Hul & Hnu)|[-> Hru]];
      destruct (Hsplit v cv Hv Hcv) as [(Hv' & Hvl & Hnv)|[-> Hrv]].
    + by apply Hsame.
    + split; [lia|]. intros Huv. destruct Hnu. eapply reachable_trans; [exact Hrv|].
      apply both_reach_sym; [|done]. rewrite <-Hlen. by eapply lookup_lt_Some.
    + split; [lia|]. intros Huv. destruct Hnv. by eapply reachable_trans.
    + split; [|done]. intros _. eapply reachable_trans; [|exact Hrv]. by apply both_reach_sym.
  - intros c Hc. destruct (decide (c = next)) as [->|Hne]; [exists i; split; [lia|done]|].
    destruct (Hdense c ltac:(lia)) as (v & Hv & Hcv). exists v. split; [lia|].
    apply Hkeep; [done|lia].
  - intros v c c' Hv Hc Hlt'. destruct (Hsplit v c Hv Hc) as [(Hold & Hn & _)|[-> Hr]].
    + destruct (Hfirst v c c' Hold Hc Hlt') as (u & Hu & Hcu). exists u. split; [done|].
      apply Hkeep; [done|lia].
    + destruct (Hdense c' Hlt') as (u & Hu & Hcu). exists u. split.
      * destruct (decide (v < i)) as [Hvi|]; [|lia]. apply Hnew in Hr as [Hv0 _].
        by apply Hdone in Hvi.
      * apply Hkeep; [done|lia].
Qed.

Lemma cc_start_spec i C next :
  labelled i C next -> i < n ->
  exists C' next', cc_start g Both i (C, next) = Ret (C', next') /\ labelled (i + 1) C' next'.
Proof.
  intros Hl Hi. destruct (labelled_lookup _ _ _ _ Hl Hi) as [c Hc].
  unfold cc_start. rewrite Hc. simpl. destruct (decide (c = u32_max)) as [->|Hcm].
  2:{ exists C, next. split; [done|]. by eapply labelled_skip. }
  pose proof (den_fits_nodes _ _ _ H) as Hfit.
  assert (Hnext : (next < u32_max)%N).
  { pose proof (lab_next _ _ _ Hl). unfold fits_u32, u32_max in *. lia. }
  rewrite set_index_ok by (rewrite (lab_length _ _ _ Hl); done). simpl.
  rewrite as_u32_id by (eapply fits_u32_le; [|exact Hfit]; lia).
  destruct (cc_loop_spec C i next (lab_length _ _ _ Hl) (lab_closed _ _ _ Hl) Hc ltac:(lia))
    as (C' & -> & Hlen & Hnew & Hback & Hkeep). simpl.
  exists C', (next + 1)%N. split.
  - f_equal. f_equal. apply N.mod_small. unfold u32_max in *. lia.
  - by eapply labelled_new.
Qed.

Lemma connected_components_spec :
  exists C, connected_components g Both = Ret (zip (ids g) C) /\ length C = n /\
    (forall u v cu cv, C !! u = Some cu -> C !! v = Some cv -> cu = cv <-> reachable nbr u v) /\
    (forall v c c', C !! v = Some c -> (c' < c)%N -> exists u, u < v /\ C !! u = Some c').
Proof.
  unfold connected_components.
  destruct (for_range_inv (cc_start g Both) (fun i '(C, next) => labelled i C next) 0 n
    (replicate n u32_max, 0%N)) as ([C next] & -> & Hl).
  - apply labelled_init.
  - intros i [C next] Hi Hl. destruct (cc_start_spec i C next Hl ltac:(lia)) as (C' & next' & Hrun & Hl').
    by exists (C', next').
  - simpl. exists C. simpl in Hl.
    assert (Hall : forall v c, C !! v = Some c -> c <> u32_max).
    { intros v c Hv ->. apply (lab_done _ _ _ Hl v); [|done].
      rewrite <-(lab_length _ _ _ Hl). by eapply lookup_lt_Some. }
    split_and!; [done|apply Hl| |].
    + intros u v cu cv Hu Hv. apply (lab_same _ _ _ Hl); eauto.
    + intros v c c' Hv. apply (lab_first _ _ _ Hl); eauto.
Qed.
End Components.
