(* ===== verification/Bytes.v ===== *)
(** * Bytes, little-endian integers, UTF-8 and FNV-1a

    The byte-level vocabulary of the on-disk formats.  A [u8] is an [ascii], a
    Rust string is the Rocq [string] of its UTF-8 bytes. *)

From stdpp Require Import base strings list pretty.
From Stdlib Require Import NArith ZArith Lia Ascii.
From S2P Require Import Prelude.

Abbreviation u8 := ascii.
Abbreviation bytes := (list ascii).

Definition as_bytes (s : string) : bytes := String.list_ascii_of_string s.
Definition of_bytes (b : bytes) : string := String.string_of_list_ascii b.

Lemma of_as_bytes s : of_bytes (as_bytes s) = s.
Proof. apply String.string_of_list_ascii_of_string. Qed.

Lemma as_of_bytes b : as_bytes (of_bytes b) = b.
Proof. apply String.list_ascii_of_string_of_list_ascii. Qed.

Lemma u8_lt (b : u8) : (N_of_ascii b < 256)%N.
Proof. apply N_ascii_bounded. Qed.

Lemma u8_inj (a b : u8) : N_of_ascii a = N_of_ascii b -> a = b.
Proof. intros H. by rewrite <-(ascii_N_embedding a), H, ascii_N_embedding. Qed.

(** ** Little-endian integers of [k] bytes *)

Fixpoint le_bytes (k : nat) (x : N) : bytes :=
  match k with
  | 0 => []
  | S k => ascii_of_N (x `mod` 256) :: le_bytes k (x / 256)
  end.

Fixpoint le_value (b : bytes) : N :=
  match b with
  | [] => 0
  | x :: b => N_of_ascii x + 256 * le_value b
  end.

Lemma length_le_bytes k x : length (le_bytes k x) = k.
Proof. revert x. induction k as [|k IH]; intros x; simpl; [done|]. by rewrite IH. Qed.

Lemma le_value_bytes k x : le_value (le_bytes k x) = (x `mod` 256 ^ N.of_nat k)%N.
Proof.
  revert x. induction k as [|k IH]; intros x.
  - simpl. by rewrite N.mod_1_r.
  - cbn [le_bytes le_value].
    rewrite IH, N_ascii_embedding by (apply N.mod_lt; lia).
    rewrite Nat2N.inj_succ, N.pow_succ_r by lia. symmetry. apply N.Div0.mod_mul_r.
Qed.

Lemma le_value_small k x : (x < 256 ^ N.of_nat k)%N -> le_value (le_bytes k x) = x.
Proof. intros H. rewrite le_value_bytes. by apply N.mod_small. Qed.

Lemma le_value_lt b : (le_value b < 256 ^ N.of_nat (length b))%N.
Proof.
  induction b as [|x b IH]; [done|]. cbn [le_value length].
  rewrite Nat2N.inj_succ, N.pow_succ_r by lia. pose proof (u8_lt x). nia.
Qed.

Lemma le_value_inj a b : length a = length b -> le_value a = le_value b -> a = b.
Proof.
  revert b. induction a as [|x a IH]; intros [|y b] Hlen Heq; try done.
  cbn [le_value] in Heq. pose proof (u8_lt x). pose proof (u8_lt y).
  assert (N_of_ascii x = N_of_ascii y /\ le_value a = le_value b) as [Hx Ha] by lia.
  f_equal; [by apply u8_inj|]. apply IH; [simpl in Hlen; lia|done].
Qed.

(** ** Reading at offsets

    Offsets are [usize] of 64 bits.  [checked_add] and [checked_mul] are the
    methods; [add_usize] is a plain [+], which panics on overflow. *)

Definition blen (buf : bytes) : N := N.of_nat (length buf).

(** [buf.get(a..b)] *)
Definition bslice (buf : bytes) (a b : N) : option bytes :=
  if decide (a <= b /\ b <= blen buf)%N then Some (take (N.to_nat (b - a)) (drop (N.to_nat a) buf)) else None.

Definition checked_add (a b : N) : option N := if decide (a + b < 2 ^ 64)%N then Some (a + b)%N else None.
Definition checked_mul (a b : N) : option N := if decide (a * b < 2 ^ 64)%N then Some (a * b)%N else None.
Definition add_usize {E} (a b : N) : outcome E N := or_panic (checked_add a b).

(** A little-endian integer of [width] bytes at [off], with the errors for an
    offset that overflows and for a buffer that ends early. *)
Definition read_le {E} (overflow : E) (too_short : N -> N -> E) (width : nat) (buf : bytes) (off : N) : outcome E N :=
  e ← or_fail overflow (checked_add off (N.of_nat width));
  s ← or_fail (too_short e (blen buf)) (bslice buf off e);
  Ret (le_value s).

Lemma blen_app a b : blen (a ++ b) = (blen a + blen b)%N.
Proof. unfold blen. rewrite length_app. lia. Qed.

Lemma blen_le_bytes k x : blen (le_bytes k x) = N.of_nat k.
Proof. unfold blen. by rewrite length_le_bytes. Qed.

Lemma checked_add_ok a b : (a + b < 2 ^ 64)%N -> checked_add a b = Some (a + b)%N.
Proof. intros H. unfold checked_add. by rewrite decide_True. Qed.

Lemma add_usize_ok {E} a b : (a + b < 2 ^ 64)%N -> add_usize (E:=E) a b = Ret (a + b)%N.
Proof. intros H. unfold add_usize. by rewrite checked_add_ok. Qed.

Lemma bslice_app a b c lo hi : lo = blen a -> hi = (lo + blen b)%N -> bslice (a ++ b ++ c) lo hi = Some b.
Proof.
  intros -> ->. unfold bslice. rewrite decide_True by (rewrite !blen_app; lia).
  replace (blen a + blen b - blen a)%N with (blen b) by lia.
  unfold blen. rewrite !Nat2N.id, drop_app_length. by rewrite take_app_length.
Qed.

Lemma bslice_Some buf a b : (a <= b <= blen buf)%N -> exists s, bslice buf a b = Some s /\ blen s = (b - a)%N.
Proof.
  intros H. unfold bslice. rewrite decide_True by lia. eexists. split; [done|].
  unfold blen in *. rewrite length_take, length_drop. lia.
Qed.

Lemma read_le_app {E} (overflow : E) too_short width a c x off :
  off = blen a -> (x < 256 ^ N.of_nat width)%N -> (blen a + N.of_nat width < 2 ^ 64)%N ->
  read_le overflow too_short width (a ++ le_bytes width x ++ c) off = Ret x.
Proof.
  intros -> Hx Hb. unfold read_le. rewrite checked_add_ok by done. cbn [or_fail mbind outcome_bind].
  rewrite (bslice_app a (le_bytes width x) c) by (rewrite ?blen_le_bytes; done). cbn [or_fail mbind outcome_bind].
  by rewrite le_value_small.
Qed.

(** A read ends with a value that lies in the buffer, or with an error. *)
Lemma read_le_cases {E} (overflow : E) too_short width buf off :
  (exists x, read_le overflow too_short width buf off = Ret x /\
     (off + N.of_nat width <= blen buf)%N /\ (x < 256 ^ N.of_nat width)%N) \/
  (exists e, read_le overflow too_short width buf off = Fail e).
Proof.
  unfold read_le, checked_add. destruct (decide _); cbn [or_fail mbind outcome_bind]; [|eauto].
  destruct (decide (off + N.of_nat width <= blen buf)%N) as [Hle|Hgt].
  - destruct (bslice_Some buf off (off + N.of_nat width)) as (s & -> & Hs); [lia|].
    left. eexists. cbn. split_and!; [done..|]. pose proof (le_value_lt s) as Hlt.
    unfold blen in Hs. by replace (N.of_nat (length s)) with (N.of_nat width) in Hlt by lia.
  - right. unfold bslice. rewrite decide_False by lia. cbn. eauto.
Qed.

(** ** UTF-8 well-formedness ([String::from_utf8], [str::from_utf8]) *)

Definition in_range (lo hi : N) (b : u8) : bool :=
  ((lo <=? N_of_ascii b) && (N_of_ascii b <=? hi))%N.

Definition is_cont (b : u8) : bool := in_range 128 191 b.

(** The well-formed byte sequences of the Unicode standard: no overlong forms,
    no surrogates, nothing above U+10FFFF. *)
Fixpoint valid_utf8 (l : bytes) : bool :=
  match l with
  | [] => true
  | b0 :: l1 =>
      if in_range 0 127 b0 then valid_utf8 l1
      else match l1 with
      | [] => false
      | b1 :: l2 =>
          if in_range 194 223 b0 then is_cont b1 && valid_utf8 l2
          else match l2 with
          | [] => false
          | b2 :: l3 =>
              if in_range 224 239 b0 then
                in_range (if N_of_ascii b0 =? 224 then 160 else 128)%N
                         (if N_of_ascii b0 =? 237 then 159 else 191)%N b1
                && is_cont b2 && valid_utf8 l3
              else match l3 with
              | [] => false
              | b3 :: l4 =>
                  in_range 240 244 b0
                  && in_range (if N_of_ascii b0 =? 240 then 144 else 128)%N
                              (if N_of_ascii b0 =? 244 then 143 else 191)%N b1
                  && is_cont b2 && is_cont b3 && valid_utf8 l4
              end
          end
      end
  end.

(** A value of Rust's type [String]. *)
Definition is_str (s : string) : Prop := valid_utf8 (as_bytes s) = true.

Lemma ascii_is_str l : Forall (fun b => in_range 0 127 b = true) l -> valid_utf8 l = true.
Proof. induction 1 as [|b l Hb Hl IH]; [done|]. simpl. by rewrite Hb. Qed.

(** ** FNV-1a, 64 bit ([fnv1a] of [pensieve-graph-topo/src/lib.rs]) *)

Definition fnv_offset : N := 0xcbf29ce484222325.
Definition fnv_prime : N := 0x100000001b3.

Definition fnv_step (h : N) (b : u8) : N := (N.lxor h (N_of_ascii b) * fnv_prime) `mod` 2 ^ 64.

Definition fnv1a (l : bytes) : N := foldl fnv_step fnv_offset l.

Lemma fnv_step_lt h b : (fnv_step h b < 2 ^ 64)%N.
Proof. apply N.mod_lt. lia. Qed.

Lemma fnv_foldl_lt h l : (h < 2 ^ 64)%N -> (foldl fnv_step h l < 2 ^ 64)%N.
Proof. revert h. induction l as [|b l IH]; intros h Hh; [done|]. apply IH, fnv_step_lt. Qed.

Lemma fnv1a_lt l : (fnv1a l < 2 ^ 64)%N.
Proof. by apply fnv_foldl_lt. Qed.

(** The prime is odd, hence invertible modulo 2^64. *)
Definition fnv_prime_inv : N := 0xce965057aff6957b.

Lemma fnv_prime_inv_ok : ((fnv_prime * fnv_prime_inv) `mod` 2 ^ 64 = 1)%N.
Proof. reflexivity. Qed.

Lemma fnv_mul_inj x y :
  (x < 2 ^ 64)%N -> (y < 2 ^ 64)%N ->
  ((x * fnv_prime) `mod` 2 ^ 64 = (y * fnv_prime) `mod` 2 ^ 64)%N -> x = y.
Proof.
  intros Hx Hy Heq.
  assert (Hinv : forall z, (z < 2 ^ 64)%N ->
    (((z * fnv_prime) `mod` 2 ^ 64 * fnv_prime_inv) `mod` 2 ^ 64 = z)%N).
  { intros z Hz. rewrite N.Div0.mul_mod_idemp_l, <-N.mul_assoc, <-N.Div0.mul_mod_idemp_r.
    rewrite fnv_prime_inv_ok, N.mul_1_r. by apply N.mod_small. }
  rewrite <-(Hinv x Hx), <-(Hinv y Hy). by rewrite Heq.
Qed.

Lemma lxor_lt a b k : (a < 2 ^ k)%N -> (b < 2 ^ k)%N -> (N.lxor a b < 2 ^ k)%N.
Proof.
  intros Ha Hb. destruct (decide (N.lxor a b = 0%N)) as [->|Hne]; [lia|].
  apply N.log2_lt_pow2; [lia|]. eapply N.le_lt_trans; [apply N.log2_lxor|].
  destruct (decide (k = 0%N)) as [->|]; [exfalso; apply Hne; simpl in *; by replace a with 0%N by lia; replace b with 0%N by lia|].
  apply N.max_lub_lt;
    [destruct (decide (a = 0%N)) as [->|]|destruct (decide (b = 0%N)) as [->|]];
    simpl; try lia; apply N.log2_lt_pow2; lia.
Qed.

Lemma fnv_step_inj h h' b b' :
  (h < 2 ^ 64)%N -> (h' < 2 ^ 64)%N -> fnv_step h b = fnv_step h' b' ->
  N.lxor h (N_of_ascii b) = N.lxor h' (N_of_ascii b').
Proof.
  intros Hh Hh' Heq. pose proof (u8_lt b). pose proof (u8_lt b').
  apply fnv_mul_inj; [apply lxor_lt; lia..|done].
Qed.

Lemma lxor_cancel_r a b c : N.lxor a c = N.lxor b c -> a = b.
Proof.
  intros H. rewrite <-(N.lxor_0_r a), <-(N.lxor_0_r b), <-(N.lxor_nilpotent c), <-!N.lxor_assoc.
  by rewrite H.
Qed.

Lemma fnv_foldl_inj l h h' :
  (h < 2 ^ 64)%N -> (h' < 2 ^ 64)%N -> foldl fnv_step h l = foldl fnv_step h' l -> h = h'.
Proof.
  revert h h'. induction l as [|b l IH]; intros h h' Hh Hh' Heq; [done|]. simpl in Heq.
  apply IH in Heq; [|apply fnv_step_lt..].
  apply fnv_step_inj in Heq; [|done..]. by eapply lxor_cancel_r.
Qed.

(** Changing one byte changes the hash. *)
Lemma fnv1a_detects l1 b b' l2 : b <> b' -> fnv1a (l1 ++ b :: l2) <> fnv1a (l1 ++ b' :: l2).
Proof.
  unfold fnv1a. rewrite !foldl_app. simpl. intros Hne Heq.
  apply fnv_foldl_inj in Heq; [|apply fnv_step_lt..].
  assert (Hlt : (foldl fnv_step fnv_offset l1 < 2 ^ 64)%N) by (by apply fnv_foldl_lt).
  apply fnv_step_inj in Heq; [|done..].
  rewrite !(N.lxor_comm (foldl _ _ _)) in Heq. apply lxor_cancel_r in Heq.
  by apply u8_inj in Heq.
Qed.

(** * Characters and string operations of the Rust standard library

    A [char] is a Unicode scalar value ([N]); a [&str] is the [string] of its
    UTF-8 bytes.  [chars] decodes, [push] appends one encoded character. *)

Abbreviation char := N.

(** ** UTF-8 *)

Definition byte_of (n : N) : u8 := ascii_of_N n.

(** [char::encode_utf8] *)
Definition encode_char (c : char) : bytes :=
  (if c <? 128 then [byte_of c]
   else if c <? 2048 then [byte_of (192 + c / 64); byte_of (128 + c mod 64)]
   else if c <? 65536 then
     [byte_of (224 + c / 4096); byte_of (128 + (c / 64) mod 64); byte_of (128 + c mod 64)]
   else
     [byte_of (240 + c / 262144); byte_of (128 + (c / 4096) mod 64);
      byte_of (128 + (c / 64) mod 64); byte_of (128 + c mod 64)])%N.

(** [char::len_utf8] *)
Definition len_utf8 (c : char) : nat :=
  if (c <? 128)%N then 1 else if (c <? 2048)%N then 2 else if (c <? 65536)%N then 3 else 4.

Lemma length_encode_char c : length (encode_char c) = len_utf8 c.
Proof. unfold encode_char, len_utf8. repeat case_match; done. Qed.

(** [str::chars] on well-formed UTF-8. *)
Fixpoint decode (l : bytes) : list char :=
  match l with
  | [] => []
  | b0 :: l1 =>
      let x0 := N_of_ascii b0 in
      if (x0 <? 128)%N then x0 :: decode l1
      else match l1 with
      | [] => []
      | b1 :: l2 =>
          let x1 := (N_of_ascii b1 mod 64)%N in
          if (x0 <? 224)%N then ((x0 - 192) * 64 + x1)%N :: decode l2
          else match l2 with
          | [] => []
          | b2 :: l3 =>
              let x2 := (N_of_ascii b2 mod 64)%N in
              if (x0 <? 240)%N then ((x0 - 224) * 4096 + x1 * 64 + x2)%N :: decode l3
              else match l3 with
              | [] => []
              | b3 :: l4 =>
                  ((x0 - 240) * 262144 + x1 * 4096 + x2 * 64 + N_of_ascii b3 mod 64)%N :: decode l4
              end
          end
      end
  end.

Definition chars (s : string) : list char := decode (as_bytes s).

(** [String::push] *)
Definition push (s : string) (c : char) : string := s +:+ of_bytes (encode_char c).

Definition of_chars (l : list char) : string := of_bytes (concat (map encode_char l)).

Definition is_scalar (c : char) : Prop := (c < 1114112)%N.
Definition is_scalar_value (c : char) : bool := (c <? 1114112)%N.

Lemma N_of_byte_of n : (n < 256)%N -> N_of_ascii (byte_of n) = n.
Proof. apply N_ascii_embedding. Qed.

(** The continuation bytes. *)
Lemma low_bits x : (x < 64 -> (128 + x) mod 64 = x)%N.
Proof. intros Hx. replace (128 + x)%N with (x + 2 * 64)%N by lia. rewrite N.Div0.mod_add. by apply N.mod_small. Qed.

Lemma ltb_true x y : (x < y)%N -> (x <? y)%N = true.
Proof. apply N.ltb_lt. Qed.
Lemma ltb_false x y : (y <= x)%N -> (x <? y)%N = false.
Proof. apply N.ltb_ge. Qed.

Lemma decode_encode c l : is_scalar c -> decode (encode_char c ++ l) = c :: decode l.
Proof.
  unfold is_scalar, encode_char. intros Hc.
  set (q1 := (c / 64)%N). set (q2 := (c / 4096)%N). set (q3 := (c / 262144)%N).
  assert (H1 : (c = 64 * q1 + c mod 64 /\ c mod 64 < 64)%N).
  { split; [apply N.div_mod|apply N.mod_lt]; lia. }
  assert (H2 : (q1 = 64 * q2 + q1 mod 64 /\ q1 mod 64 < 64)%N).
  { replace q2 with (q1 / 64)%N by (unfold q1, q2; by rewrite N.Div0.div_div).
    split; [apply N.div_mod|apply N.mod_lt]; lia. }
  assert (H3 : (q2 = 64 * q3 + q2 mod 64 /\ q2 mod 64 < 64)%N).
  { replace q3 with (q2 / 64)%N by (unfold q2, q3; by rewrite N.Div0.div_div).
    split; [apply N.div_mod|apply N.mod_lt]; lia. }
  clearbody q1 q2 q3. revert H1 H2 H3.
  generalize (c mod 64)%N (q1 mod 64)%N (q2 mod 64)%N. intros r1 r2 r3 H1 H2 H3.
  destruct (N.ltb_spec c 128); [|destruct (N.ltb_spec c 2048); [|destruct (N.ltb_spec c 65536)]];
    cbn [app decode]; rewrite !N_of_byte_of by lia; rewrite ?low_bits by lia;
    rewrite ?ltb_true by lia; rewrite ?ltb_false by lia; rewrite ?ltb_true by lia; f_equal; lia.
Qed.

(** Decoding what was pushed gives the characters back. *)
Lemma chars_of_chars l : Forall is_scalar l -> chars (of_chars l) = l.
Proof.
  unfold chars, of_chars. rewrite as_of_bytes.
  induction 1 as [|c l Hc Hl IH]; [done|]. simpl. by rewrite decode_encode, IH.
Qed.

(** Appending texts. *)
Lemma push_app s c : push s c = s +:+ of_chars [c].
Proof. unfold push, of_chars. simpl. by rewrite app_nil_r. Qed.

Lemma of_bytes_app l1 l2 : of_bytes (l1 ++ l2) = of_bytes l1 +:+ of_bytes l2.
Proof.
  induction l1 as [|a l1 IH]; [done|].
  change (String a (of_bytes (l1 ++ l2)) = String a (of_bytes l1 +:+ of_bytes l2)). by rewrite IH.
Qed.

Lemma of_chars_app l1 l2 : of_chars (l1 ++ l2) = of_chars l1 +:+ of_chars l2.
Proof. unfold of_chars. by rewrite map_app, concat_app, of_bytes_app. Qed.

Lemma push_of_chars l c : push (of_chars l) c = of_chars (l ++ [c]).
Proof. by rewrite push_app, of_chars_app. Qed.

(** ** Character classes *)

Definition is_ascii_digit (c : char) : bool := ((48 <=? c) && (c <=? 57))%N.
Definition is_ascii_alphabetic (c : char) : bool :=
  (((65 <=? c) && (c <=? 90)) || ((97 <=? c) && (c <=? 122)))%N.
Definition is_ascii_alphanumeric (c : char) : bool := is_ascii_alphabetic c || is_ascii_digit c.
Definition to_ascii_lowercase (c : char) : char :=
  (if (65 <=? c) && (c <=? 90) then c + 32 else c)%N.

Definition to_ascii_uppercase (c : char) : char :=
  if ((97 <=? c) && (c <=? 122))%N then (c - 32)%N else c.

(** [char::is_whitespace]: the Unicode property White_Space. *)
Definition is_whitespace (c : char) : bool :=
  ((9 <=? c) && (c <=? 13) || (c =? 32) || (c =? 133) || (c =? 160) || (c =? 5760)
   || (8192 <=? c) && (c <=? 8202) || (c =? 8232) || (c =? 8233) || (c =? 8239)
   || (c =? 8287) || (c =? 12288))%N.

(** A character literal. *)
Definition ch (a : ascii) : char := N_of_ascii a.

(** ** Strings *)

(** [str::replace] of a one-byte pattern. *)
Fixpoint replace (a : ascii) (with_ : string) (s : string) : string :=
  match s with
  | EmptyString => EmptyString
  | String c s => if decide (c = a) then with_ +:+ replace a with_ s else String c (replace a with_ s)
  end.

(** [str::replace("''", "'")], scanning left to right. *)
Fixpoint undouble (q : ascii) (s : string) : string :=
  match s with
  | String c1 (String c2 s2 as s1) =>
      if decide (c1 = q /\ c2 = q) then String q (undouble q s2) else String c1 (undouble q s1)
  | _ => s
  end.

(** [[..].join(sep)] *)
Fixpoint join (sep : string) (l : list string) : string :=
  match l with
  | [] => ""
  | [s] => s
  | s :: l => s +:+ sep +:+ join sep l
  end.

(** A [format!] call: the concatenation of its literal pieces and arguments. *)
Definition fmt (pieces : list string) : string := String.concat "" pieces.

(** The double quote. *)
Definition dq : string := String "034"%char EmptyString.

(** A test on every byte, and a function on every byte, of a string. *)
Fixpoint all_bytes (f : ascii -> bool) (s : string) : bool :=
  match s with
  | EmptyString => true
  | String a s => f a && all_bytes f s
  end.
Fixpoint map_bytes (f : ascii -> ascii) (s : string) : string :=
  match s with
  | EmptyString => EmptyString
  | String a s => String (f a) (map_bytes f s)
  end.

(** [str::to_ascii_lowercase], and [str::to_lowercase] of an ASCII string;
    [str::to_ascii_uppercase]. *)
Definition lowercase (s : string) : string :=
  map_bytes (fun a => ascii_of_N (to_ascii_lowercase (ch a))) s.
Definition uppercase (s : string) : string :=
  map_bytes (fun a => ascii_of_N (to_ascii_uppercase (ch a))) s.

(** [str::eq_ignore_ascii_case]. *)
Definition eq_ignore_ascii_case (s t : string) : bool := bool_decide (lowercase s = lowercase t).

(** [Vec::is_empty]. *)
Definition is_empty {A} (l : list A) : bool := match l with [] => true | _ => false end.

Lemma fmt_nil : fmt [] = "".
Proof. done. Qed.
Lemma app_empty_r s : s +:+ "" = s.
Proof. induction s as [|a s IH]; [done|]. change (String a (s +:+ "") = String a s). by rewrite IH. Qed.
Lemma fmt_cons s l : fmt (s :: l) = s +:+ fmt l.
Proof. unfold fmt. destruct l; [by rewrite app_empty_r|done]. Qed.

Lemma join_cons sep s1 s2 l : join sep (s1 :: s2 :: l) = s1 +:+ sep +:+ join sep (s2 :: l).
Proof. done. Qed.

Lemma app_assoc_s (a b c : string) : (a +:+ b) +:+ c = a +:+ (b +:+ c).
Proof.
  induction a as [|x a IH]; [done|].
  change (String x ((a +:+ b) +:+ c) = String x (a +:+ (b +:+ c))). by rewrite IH.
Qed.

Lemma app_inj_r (a b c : string) : a +:+ c = b +:+ c -> a = b.
Proof.
  intros H.
  assert (Hl : forall x y, as_bytes (x +:+ y) = (as_bytes x ++ as_bytes y)%list).
  { induction x as [|z x IH]; intros y; [done|].
    change (as_bytes (String z x +:+ y)) with (z :: as_bytes (x +:+ y)). by rewrite IH. }
  apply (f_equal as_bytes) in H. rewrite !Hl in H. apply app_inv_tail in H.
  rewrite <-(of_as_bytes a), <-(of_as_bytes b). by rewrite H.
Qed.

(** [format!("{n}")] of an unsigned and of a signed integer. *)
Definition show_N (n : N) : string := pretty n.
Definition show_Z (z : Z) : string :=
  match z with
  | Z.neg p => "-" +:+ pretty (N.pos p)
  | Z.pos p => pretty (N.pos p)
  | Z0 => "0"
  end.
Definition show_nat (n : nat) : string := pretty (N.of_nat n).

(** A printed number is a non-empty string of digits. *)
Definition digit_byte (a : ascii) : bool := is_ascii_digit (ch a).

Lemma small_digit d : (d < 10)%N -> d ∈ [0;1;2;3;4;5;6;7;8;9]%N.
Proof. intros Hd. repeat setoid_rewrite elem_of_cons. lia. Qed.

Lemma pretty_N_char_digit d : (d < 10)%N ->
  digit_byte (pretty_N_char d) = true /\ N_of_ascii (pretty_N_char d) = (48 + d)%N.
Proof.
  intros Hin%small_digit.
  repeat (apply elem_of_cons in Hin as [->|Hin]; [done|]). by apply elem_of_nil in Hin.
Qed.

Lemma pretty_N_go_digits x s : Forall (fun a => digit_byte a = true) (as_bytes s) ->
  Forall (fun a => digit_byte a = true) (as_bytes (pretty_N_go x s)).
Proof.
  revert s. induction (N.lt_wf_0 x) as [x _ IH]. intros s Hs.
  destruct (decide (0 < x)%N) as [Hx|Hx]; [|by replace x with 0%N by lia].
  rewrite pretty_N_go_step by done. apply IH; [apply N.div_lt; lia|]. constructor; [|done].
  apply pretty_N_char_digit, N.mod_lt. lia.
Qed.

Lemma pretty_N_go_nonempty x s : s <> "" \/ (0 < x)%N -> pretty_N_go x s <> "".
Proof.
  revert s. induction (N.lt_wf_0 x) as [x _ IH]. intros s Hs.
  destruct (decide (0 < x)%N) as [Hx|Hx].
  - rewrite pretty_N_go_step by done. apply IH; [apply N.div_lt; lia|by left].
  - replace x with 0%N by lia. rewrite pretty_N_go_0. destruct Hs; [done|lia].
Qed.

Lemma show_N_digits n : Forall (fun a => digit_byte a = true) (as_bytes (show_N n)) /\ show_N n <> "".
Proof.
  unfold show_N, pretty, pretty_N. case_decide; [by split; [repeat constructor|]|].
  split; [by apply pretty_N_go_digits|]. apply pretty_N_go_nonempty. lia.
Qed.
