(* ===== verification/TopoCodec.v ===== *)
(** * The [KYCS] byte format ([CsrGraph::to_bytes], [CsrGraph::from_bytes])

    The serialised topology of [pensieve-graph-topo/src/lib.rs]: a 16-byte
    header (magic, version, reserved, FNV-1a of the payload) and a length-prefixed
    payload read back through a bounds-checked [Cursor]. *)

From stdpp Require Import base gmap strings list.
From Stdlib Require Import NArith Lia Ascii.
From S2P Require Import Prelude GraphSpec Topo Bytes.

Inductive TopoError :=
  | Corrupt (m : string)
  | UnsupportedVersion (v : N)
  | ChecksumMismatch.

Definition MAGIC : bytes := as_bytes "KYCS".
Definition VERSION : N := 1.

(** ** Writing *)

Definition put_u32 (buf : bytes) (v : nat) : bytes := buf ++ le_bytes 4 (N.of_nat v).

Definition put_str (buf : bytes) (s : string) : bytes :=
  put_u32 buf (as_u32 (length (as_bytes s))) ++ as_bytes s.

Definition put_u32_slice (buf : bytes) (v : list nat) : bytes := foldl put_u32 buf v.

Definition payload_of (g : CsrGraph) : bytes :=
  let payload := put_u32 [] (as_u32 (length (ids g))) in
  let payload := put_u32 payload (as_u32 (length (etypes g))) in
  let payload := put_u32 payload (as_u32 (length (out_targets g))) in
  let payload := put_u32 payload (as_u32 (length (in_sources g))) in
  let payload := foldl put_str payload (ids g) in
  let payload := foldl put_str payload (etypes g) in
  let payload := put_u32_slice payload (out_offsets g) in
  let payload := put_u32_slice payload (out_targets g) in
  let payload := put_u32_slice payload (out_etype g) in
  let payload := put_u32_slice payload (in_offsets g) in
  let payload := put_u32_slice payload (in_sources g) in
  put_u32_slice payload (in_etype g).

Definition to_bytes (g : CsrGraph) : bytes :=
  let payload := payload_of g in
  MAGIC ++ le_bytes 2 VERSION ++ le_bytes 2 0 ++ le_bytes 8 (fnv1a payload) ++ payload.

(** ** Reading *)

Record Cursor := { cb : bytes; pos : nat }.

(** [c.op()?] *)
Abbreviation reader A := (Cursor -> outcome TopoError (A * Cursor)).

Definition c_take (n : nat) : reader bytes := fun c =>
  let end_ := pos c + n in
  if decide (2 ^ 64 <= N.of_nat end_)%N then Fail (Corrupt "length overflow")
  else if decide (length (cb c) < end_) then Fail (Corrupt "read past end")
  else Ret (take n (drop (pos c) (cb c)), {| cb := cb c; pos := end_ |}).

Definition c_u32 : reader nat := fun c =>
  r ← c_take 4 c;
  let '(s, c) := r in
  Ret (N.to_nat (le_value s), c).

Definition c_string : reader string := fun c =>
  r ← c_u32 c;
  let '(len, c) := r in
  r ← c_take len c;
  let '(s, c) := r in
  if valid_utf8 s then Ret (of_bytes s, c) else Fail (Corrupt "invalid utf8 id").

(** [for _ in 0..n { v.push(c.op()?) }] *)
Fixpoint c_repeat {A} (op : reader A) (n : nat) : reader (list A) := fun c =>
  match n with
  | 0 => Ret ([], c)
  | S n =>
      r ← op c;
      let '(x, c) := r in
      r ← c_repeat op n c;
      let '(xs, c) := r in
      Ret (x :: xs, c)
  end.

Definition c_u32_vec (n : nat) : reader (list nat) := c_repeat c_u32 n.

(** [id_to_idx.insert(s, ids.len() as u32); ids.push(s)] for each id read. *)
Definition index_ids (l : list string) : gmap string nat :=
  (foldl (fun '(ids, m) s => (ids ++ [s], <[s := as_u32 (length ids)]> m)) ([], ∅) l).2.

Definition read_payload : reader CsrGraph := fun c =>
  r ← c_u32 c; let '(n_nodes, c) := r in
  r ← c_u32 c; let '(n_etypes, c) := r in
  r ← c_u32 c; let '(n_out, c) := r in
  r ← c_u32 c; let '(n_in, c) := r in
  r ← c_repeat c_string n_nodes c; let '(ids, c) := r in
  r ← c_repeat c_string n_etypes c; let '(etypes, c) := r in
  r ← c_u32_vec (n_nodes + 1) c; let '(out_offsets, c) := r in
  r ← c_u32_vec n_out c; let '(out_targets, c) := r in
  r ← c_u32_vec n_out c; let '(out_etype, c) := r in
  r ← c_u32_vec (n_nodes + 1) c; let '(in_offsets, c) := r in
  r ← c_u32_vec n_in c; let '(in_sources, c) := r in
  r ← c_u32_vec n_in c; let '(in_etype, c) := r in
  Ret ({| ids := ids; id_to_idx := index_ids ids; etypes := etypes;
          out_offsets := out_offsets; out_targets := out_targets; out_etype := out_etype;
          in_offsets := in_offsets; in_sources := in_sources; in_etype := in_etype |}, c).

Definition from_bytes (b : bytes) : outcome TopoError CsrGraph :=
  if decide (length b < 16) then Fail (Corrupt "header truncated")
  else if decide (take 4 b <> MAGIC) then Fail (Corrupt "bad magic")
  else
    let version := le_value (take 2 (drop 4 b)) in
    if decide (version <> VERSION) then Fail (UnsupportedVersion version)
    else
      let stored_ck := le_value (take 8 (drop 8 b)) in
      let payload := drop 16 b in
      if decide (fnv1a payload <> stored_ck) then Fail ChecksumMismatch
      else
        r ← read_payload {| cb := payload; pos := 0 |};
        Ret r.1.

(** ** Round trip *)

(** [op] started at the encoding [e] inside a buffer consumes it and returns [x]. *)
Definition reads {A} (op : reader A) (e : bytes) (x : A) : Prop :=
  forall P pre suf, P = pre ++ e ++ suf -> (N.of_nat (length P) < 2 ^ 64)%N ->
    op {| cb := P; pos := length pre |} = Ret (x, {| cb := P; pos := length (pre ++ e) |}).

Lemma reads_take e : reads (c_take (length e)) e e.
Proof.
  intros P pre suf -> Hlt. unfold c_take. simpl. rewrite !length_app in *.
  rewrite !decide_False by lia. f_equal. f_equal.
  by rewrite drop_app_length, take_app_length.
Qed.

Lemma reads_u32 v : fits_u32 v -> reads c_u32 (le_bytes 4 (N.of_nat v)) v.
Proof.
  intros Hv P pre suf HP Hlt. unfold c_u32.
  rewrite <-(length_le_bytes 4 (N.of_nat v)) at 1.
  rewrite (reads_take _ P pre suf HP Hlt). cbn [mbind outcome_bind].
  assert (Hval : le_value (le_bytes 4 (N.of_nat v)) = N.of_nat v) by (by apply le_value_small).
  rewrite Hval. by rewrite Nat2N.id.
Qed.

Definition enc_str (s : string) : bytes :=
  le_bytes 4 (N.of_nat (as_u32 (length (as_bytes s)))) ++ as_bytes s.

Lemma reads_string s : is_str s -> fits_u32 (length (as_bytes s)) -> reads c_string (enc_str s) s.
Proof.
  intros Hs Hfit P pre suf HP Hlt. unfold enc_str in *. rewrite as_u32_id in * by done.
  unfold c_string. rewrite (reads_u32 _ Hfit P pre (as_bytes s ++ suf)) by (try done; by rewrite HP, <-!app_assoc).
  cbn [mbind outcome_bind].
  rewrite (reads_take _ P (pre ++ le_bytes 4 (N.of_nat (length (as_bytes s)))) suf)
    by (try done; by rewrite HP, <-!app_assoc).
  cbn [mbind outcome_bind]. rewrite Hs, of_as_bytes. by rewrite <-app_assoc.
Qed.

Lemma reads_repeat {A} (op : reader A) (enc : A -> bytes) xs :
  (forall x, x ∈ xs -> reads op (enc x) x) ->
  reads (c_repeat op (length xs)) (concat (map enc xs)) xs.
Proof.
  induction xs as [|x xs IH]; intros Hx P pre suf HP Hlt; simpl.
  { by rewrite app_nil_r. }
  simpl in HP. rewrite (Hx x ltac:(by left) P pre (concat (map enc xs) ++ suf))
    by (try done; by rewrite HP, <-!app_assoc).
  cbn [mbind outcome_bind].
  rewrite (IH (fun y Hy => Hx y ltac:(by right)) P (pre ++ enc x) suf)
    by (try done; by rewrite HP, <-!app_assoc).
  cbn [mbind outcome_bind]. by rewrite <-app_assoc.
Qed.

Lemma reads_u32_vec v : Forall fits_u32 v ->
  reads (c_u32_vec (length v)) (concat (map (fun x => le_bytes 4 (N.of_nat x)) v)) v.
Proof.
  intros Hv. apply reads_repeat. intros x Hx. apply reads_u32. rewrite Forall_forall in Hv. by apply Hv.
Qed.

Lemma put_u32_slice_concat buf v :
  put_u32_slice buf v = buf ++ concat (map (fun x => le_bytes 4 (N.of_nat x)) v).
Proof.
  unfold put_u32_slice. revert buf. induction v as [|x v IH]; intros buf; simpl.
  - by rewrite app_nil_r.
  - rewrite IH. unfold put_u32. by rewrite <-app_assoc.
Qed.

Lemma put_strs_concat buf l : foldl put_str buf l = buf ++ concat (map enc_str l).
Proof.
  revert buf. induction l as [|s l IH]; intros buf; simpl.
  - by rewrite app_nil_r.
  - rewrite IH. unfold put_str, put_u32, enc_str. by rewrite <-!app_assoc.
Qed.

(** Peel the chunks of a left-nested buffer down to the prefix read so far. *)
Ltac solve_prefix :=
  repeat match goal with
  | |- ?X `prefix_of` ?X => reflexivity
  | |- _ `prefix_of` (_ ++ _) => apply prefix_app_r
  end.

(** One read of the payload: [L] says what it decodes. *)
Ltac next P Hat L :=
  erewrite (Hat _ _ _ _ _ L) by (unfold P; solve_prefix); cbn [mbind outcome_bind].

(** What a topology must satisfy for its byte form to represent it: Rust's
    [String] and [u32] typing, the array shapes, and sizes within [u32]. *)
Record serializable (g : CsrGraph) : Prop := {
  ser_ids : interned (ids g) (id_to_idx g);
  ser_strings : Forall (fun s => is_str s /\ fits_u32 (length (as_bytes s))) (ids g ++ etypes g);
  ser_fits : fits_u32 (length (ids g)) /\ fits_u32 (length (etypes g)) /\
             fits_u32 (length (out_targets g)) /\ fits_u32 (length (in_sources g));
  ser_shape : length (out_offsets g) = length (ids g) + 1 /\ length (in_offsets g) = length (ids g) + 1 /\
              length (out_etype g) = length (out_targets g) /\ length (in_etype g) = length (in_sources g);
  ser_u32 : Forall fits_u32 (out_offsets g ++ out_targets g ++ out_etype g ++
                             in_offsets g ++ in_sources g ++ in_etype g);
  ser_size : (N.of_nat (length (payload_of g)) < 2 ^ 64)%N;
}.

Lemma index_ids_interned l : NoDup l -> fits_u32 (length l) -> interned l (index_ids l).
Proof.
  intros Hnd Hfit. unfold index_ids.
  set (f := fun '((l', m) : list string * gmap string nat) s => (l' ++ [s], <[s := as_u32 (length l')]> m)).
  assert (Hf : let '(l', m) := foldl f ([], ∅) l in l' = l /\ interned l' m).
  { apply (foldl_inv f (fun pre '(l', m) => l' = pre /\ interned l' m)).
    - split; [done|apply interned_empty].
    - intros pre s [l' m] [rest Hl] [-> Hi]. simpl. split; [done|].
      rewrite as_u32_id by (eapply fits_u32_le; [|exact Hfit]; rewrite Hl, length_app; lia).
      apply interned_snoc; [done|]. apply (interned_None _ _ _ Hi).
      rewrite Hl in Hnd. apply NoDup_app in Hnd as (_ & Hdis & _).
      intros Hin. apply (Hdis s Hin). by left. }
  change (foldl _ ([], ∅) l) with (foldl f ([], ∅) l).
  destruct (foldl f ([], ∅) l) as [l' m]. by destruct Hf as [-> ?].
Qed.

Lemma interned_unique l m m' : interned l m -> interned l m' -> m = m'.
Proof.
  intros [_ H] [_ H']. apply map_eq. intros s.
  destruct (m !! s) as [i|] eqn:Hm.
  - symmetry. apply H', H, Hm.
  - destruct (m' !! s) as [i|] eqn:Hm'; [|done].
    apply H', H in Hm'. congruence.
Qed.

Lemma read_payload_spec g :
  serializable g ->
  exists c, read_payload {| cb := payload_of g; pos := 0 |} = Ret (g, c).
Proof.
  intros [Hids Hstr (F1 & F2 & F3 & F4) (S1 & S2 & S3 & S4) Hu Hsize].
  rewrite !Forall_app in Hu. destruct Hu as (U1 & U2 & U3 & U4 & U5 & U6).
  rewrite Forall_app, !Forall_forall in Hstr. destruct Hstr as [Hs1 Hs2].
  assert (Hix : index_ids (ids g) = id_to_idx g).
  { eapply interned_unique; [|done]. apply index_ids_interned; [apply Hids|done]. }
  revert Hsize. unfold payload_of, put_u32.
  rewrite !put_u32_slice_concat, !put_strs_concat, !as_u32_id by done. intros Hsize.
  match type of Hsize with context[length ?Q] => set (P := Q) in * end.
  assert (Hat : forall A (op : reader A) e x pre, reads op e x -> (pre ++ e) `prefix_of` P ->
    op {| cb := P; pos := length pre |} = Ret (x, {| cb := P; pos := length (pre ++ e) |})).
  { intros A op e x pre Hr [suf HP]. apply (Hr P pre suf); [by rewrite HP, <-app_assoc|done]. }
  unfold read_payload.
  change {| cb := P; pos := 0 |} with {| cb := P; pos := length (@nil u8) |}.
  next P Hat (reads_u32 _ F1). next P Hat (reads_u32 _ F2). next P Hat (reads_u32 _ F3). next P Hat (reads_u32 _ F4).
  next P Hat (reads_repeat c_string enc_str (ids g)
    (fun s Hs => reads_string s (proj1 (Hs1 s Hs)) (proj2 (Hs1 s Hs)))).
  next P Hat (reads_repeat c_string enc_str (etypes g)
    (fun s Hs => reads_string s (proj1 (Hs2 s Hs)) (proj2 (Hs2 s Hs)))).
  pose proof (reads_u32_vec _ U1) as R1. rewrite S1 in R1.
  pose proof (reads_u32_vec _ U3) as R3. rewrite S3 in R3.
  pose proof (reads_u32_vec _ U4) as R4. rewrite S2 in R4.
  pose proof (reads_u32_vec _ U6) as R6. rewrite S4 in R6.
  next P Hat R1. next P Hat (reads_u32_vec _ U2). next P Hat R3.
  next P Hat R4. next P Hat (reads_u32_vec _ U5). next P Hat R6.
  rewrite Hix. destruct g. eauto.
Qed.

(** * The [KYCS] format round-trips and detects corruption *)

(** [from_bytes] on a buffer split at the header fields. *)
Lemma from_bytes_parts m v r c p :
  length m = 4 -> length v = 2 -> length r = 2 -> length c = 8 ->
  from_bytes (m ++ v ++ r ++ c ++ p) =
    if decide (m <> MAGIC) then Fail (Corrupt "bad magic")
    else if decide (le_value v <> VERSION) then Fail (UnsupportedVersion (le_value v))
    else if decide (fnv1a p <> le_value c) then Fail ChecksumMismatch
    else (x ← read_payload {| cb := p; pos := 0 |}; Ret x.1).
Proof.
  intros Hm Hv Hr Hc. unfold from_bytes.
  rewrite decide_False by (rewrite !length_app; lia).
  assert (Htake : forall (a b : bytes) k, length a = k -> take k (a ++ b) = a)
    by (intros a b k <-; apply take_app_length).
  assert (Hdrop : forall (a b : bytes) k, length a = k -> drop k (a ++ b) = b)
    by (intros a b k <-; apply drop_app_length).
  assert (D4 : drop 4 (m ++ v ++ r ++ c ++ p) = v ++ r ++ c ++ p) by (by apply Hdrop).
  assert (D8 : drop 8 (m ++ v ++ r ++ c ++ p) = c ++ p).
  { rewrite (app_assoc v), (app_assoc m). apply Hdrop. rewrite !length_app. lia. }
  assert (D16 : drop 16 (m ++ v ++ r ++ c ++ p) = p).
  { rewrite (app_assoc r), (app_assoc v), (app_assoc m). apply Hdrop. rewrite !length_app. lia. }
  rewrite D4, D8, D16. by rewrite (Htake m _ 4 Hm), (Htake v _ 2 Hv), (Htake c _ 8 Hc).
Qed.

Lemma to_bytes_parts g :
  to_bytes g = MAGIC ++ le_bytes 2 VERSION ++ le_bytes 2 0 ++ le_bytes 8 (fnv1a (payload_of g)) ++ payload_of g.
Proof. done. Qed.

Lemma checksum_value p : le_value (le_bytes 8 (fnv1a p)) = fnv1a p.
Proof. apply le_value_small. apply fnv1a_lt. Qed.

(** The reserved half-word is not looked at. *)
Lemma from_bytes_accepts g r :
  serializable g -> length r = 2 ->
  from_bytes (MAGIC ++ le_bytes 2 VERSION ++ r ++ le_bytes 8 (fnv1a (payload_of g)) ++ payload_of g) = Ret g.
Proof.
  intros Hg Hr. rewrite from_bytes_parts by (done || apply length_le_bytes).
  rewrite decide_False by (intros Hm; by apply Hm). rewrite decide_False by (intros Hv; by apply Hv).
  rewrite decide_False by (rewrite checksum_value; intros Hc; by apply Hc).
  destruct (read_payload_spec g Hg) as [c ->]. done.
Qed.

Lemma from_to_bytes g : serializable g -> from_bytes (to_bytes g) = Ret g.
Proof. intros Hg. rewrite to_bytes_parts. by apply from_bytes_accepts. Qed.

Lemma insert_app_r_alt' (l1 l2 : bytes) i b :
  length l1 <= i -> <[i := b]> (l1 ++ l2) = l1 ++ <[i - length l1 := b]> l2.
Proof. intros H. replace i with (length l1 + (i - length l1)) at 1 by lia. apply insert_app_r. Qed.

Lemma lookup_app_skip (l1 l2 : bytes) i b :
  length l1 <= i -> (l1 ++ l2) !! i <> Some b -> l2 !! (i - length l1) <> Some b.
Proof. intros Hle Hne. by rewrite lookup_app_r in Hne. Qed.

Lemma insert_changes (l : bytes) i b : i < length l -> l !! i <> Some b -> <[i := b]> l <> l.
Proof.
  intros Hi Hne Heq. apply Hne. rewrite <-Heq. by apply list_lookup_insert_eq.
Qed.

Lemma fnv1a_insert (l : bytes) i b :
  i < length l -> l !! i <> Some b -> fnv1a (<[i := b]> l) <> fnv1a l.
Proof.
  intros Hi Hne. destruct (lookup_lt_is_Some_2 _ _ Hi) as [b0 Hb0].
  rewrite <-(take_drop_middle l i b0 Hb0) at 2. rewrite insert_take_drop by done.
  apply fnv1a_detects. congruence.
Qed.

(** What decoding makes of a serialised topology with byte [i] set to [b]. *)
Definition corrupted_verdict (g : CsrGraph) (i : nat) (b : u8) : outcome TopoError CsrGraph :=
  if decide (i < 4) then Fail (Corrupt "bad magic")
  else if decide (i < 6) then Fail (UnsupportedVersion (le_value (<[i - 4 := b]> (le_bytes 2 VERSION))))
  else if decide (i < 8) then Ret g
  else Fail ChecksumMismatch.

Lemma from_bytes_corrupted g i b :
  serializable g -> i < length (to_bytes g) -> to_bytes g !! i <> Some b ->
  from_bytes (<[i := b]> (to_bytes g)) = corrupted_verdict g i b.
Proof.
  intros Hg Hi Hne. rewrite to_bytes_parts in *. unfold corrupted_verdict.
  set (ck := le_bytes 8 (fnv1a (payload_of g))) in *. set (p := payload_of g) in *.
  assert (Hck : length ck = 8) by apply length_le_bytes.
  assert (Hmag : length MAGIC = 4) by done.
  assert (Hver : length (le_bytes 2 VERSION) = 2) by done.
  assert (Hres : length (le_bytes 2 0) = 2) by done.
  destruct (decide (i < 4)) as [H4|H4].
  { rewrite insert_app_l by lia. rewrite from_bytes_parts by (rewrite ?length_insert; done).
    rewrite decide_True; [done|]. apply insert_changes; [done|].
    rewrite lookup_app_l in Hne by lia. done. }
  apply lookup_app_skip in Hne; [|lia]. rewrite insert_app_r_alt' by lia.
  rewrite length_app in Hi. rewrite Hmag in *.
  destruct (decide (i < 6)) as [H6|H6].
  { rewrite insert_app_l by lia. rewrite from_bytes_parts by (rewrite ?length_insert; done).
    rewrite decide_False by (intros Hm; by apply Hm).
    rewrite decide_True; [done|]. intros Heq. apply (insert_changes (le_bytes 2 VERSION) (i - 4) b); [lia| |].
    - rewrite lookup_app_l in Hne by lia. done.
    - apply le_value_inj; [by rewrite length_insert|done]. }
  apply lookup_app_skip in Hne; [|lia]. rewrite insert_app_r_alt' by lia.
  rewrite length_app in Hi. rewrite Hver in *.
  destruct (decide (i < 8)) as [H8|H8].
  { rewrite insert_app_l by lia. apply from_bytes_accepts; [done|]. by rewrite length_insert. }
  apply lookup_app_skip in Hne; [|lia]. rewrite insert_app_r_alt' by lia.
  rewrite length_app in Hi. rewrite Hres in *.
  destruct (decide (i < 16)) as [H16|H16].
  - rewrite insert_app_l by lia. rewrite from_bytes_parts by (rewrite ?length_insert; done).
    rewrite decide_False by (intros Hm; by apply Hm). rewrite decide_False by (intros Hv; by apply Hv).
    rewrite decide_True; [done|]. intros Heq. rewrite <-(checksum_value p) in Heq.
    apply (insert_changes ck (i - 4 - 2 - 2) b); [lia| |].
    + rewrite lookup_app_l in Hne by lia. done.
    + apply le_value_inj; [by rewrite length_insert|done].
  - rewrite insert_app_r_alt' by lia. apply lookup_app_skip in Hne; [|lia].
    rewrite length_app in Hi. rewrite Hck in *.
    rewrite from_bytes_parts by (rewrite ?length_insert; done).
    rewrite decide_False by (intros Hm; by apply Hm). rewrite decide_False by (intros Hv; by apply Hv).
    rewrite decide_True; [done|]. unfold ck. rewrite checksum_value. apply fnv1a_insert; [lia|done].
Qed.

(** ** Built topologies are serialisable *)

Lemma csr_fits n ts o t e m :
  csr_of n ts o t e -> fits_u32 n -> fits_u32 (length ts) -> fits_u32 m ->
  Forall (fun x => to x < n /\ tid x < m) ts -> Forall (fun x => from x < n) ts ->
  Forall fits_u32 o /\ Forall fits_u32 t /\ Forall fits_u32 e.
Proof.
  intros Hc Hn Hts Hm HF Hfrom.
  assert (Hslot : forall j, j < length ts -> exists x, x ∈ ts /\ t !! j = Some (to x) /\ e !! j = Some (tid x)).
  { intros j Hj.
    assert (Hrow : exists v i, v < n /\ i < length (row ts v) /\ j = below ts v + i).
    { rewrite <-(below_all ts n Hfrom) in Hj. clear -Hj. induction n as [|k IH]; [rewrite below_0 in Hj; lia|].
      destruct (decide (j < below ts k)) as [Hlt|Hge].
      - destruct (IH Hlt) as (v & i & Hv & Hi & ->). exists v, i. split_and!; [lia|done|done].
      - rewrite below_S in Hj. exists k, (j - below ts k). split_and!; lia. }
    destruct Hrow as (v & i & Hv & Hi & ->).
    destruct (lookup_lt_is_Some_2 _ _ Hi) as [x Hx]. exists x.
    split; [|by apply (csr_slot _ _ _ _ _ Hc)].
    apply list_elem_of_lookup_2 in Hx. by apply list_elem_of_filter in Hx as [_ Hx]. }
  rewrite Forall_forall in HF. split_and!; apply Forall_lookup; intros j x Hx.
  - assert (Hj : j <= n) by (apply lookup_lt_Some in Hx; rewrite (csr_length _ _ _ _ _ Hc) in Hx; lia).
    rewrite (csr_offset _ _ _ _ _ Hc) in Hx by done. injection Hx as <-.
    eapply fits_u32_le; [apply below_le|done].
  - assert (Hj : j < length ts) by (rewrite <-(csr_targets_length _ _ _ _ _ Hc); by eapply lookup_lt_Some).
    destruct (Hslot j Hj) as (y & Hy & Ht & _). simplify_eq. apply HF in Hy as [Hy _].
    eapply fits_u32_le; [|exact Hn]. lia.
  - assert (Hj : j < length ts) by (rewrite <-(csr_etype_length _ _ _ _ _ Hc); by eapply lookup_lt_Some).
    destruct (Hslot j Hj) as (y & Hy & _ & He). simplify_eq. apply HF in Hy as [_ Hy].
    eapply fits_u32_le; [|exact Hm]. lia.
Qed.

(** A Rust string that a [u32] length prefix can describe. *)
Definition short_str (s : string) : Prop := is_str s /\ fits_u32 (length (as_bytes s)).

Lemma names_edge_wf nids ets kept l :
  Forall2 (names_edge nids ets) kept l ->
  Forall (fun x => to x < length nids /\ tid x < length ets) kept /\
  Forall (fun x => from x < length nids) kept.
Proof.
  induction 1 as [|t e kept l (Hf & Ht & He) _ [IH1 IH2] ]; split; constructor; try done;
    [split|]; by eapply lookup_lt_Some.
Qed.

Lemma denotes_serializable g nodes edges :
  denotes g nodes edges -> fits_u32 (length edges) ->
  Forall short_str nodes -> Forall short_str (etypes g) ->
  (N.of_nat (length (payload_of g)) < 2 ^ 64)%N -> serializable g.
Proof.
  intros H Hfit Hstr Het Hsize. destruct (den_arrays _ _ _ H) as (kept & HF & Hout & Hin).
  pose proof (den_fits_nodes _ _ _ H) as Hn. pose proof (den_fits_etypes _ _ _ H) as He.
  assert (Hkept : fits_u32 (length kept)).
  { rewrite (Forall2_length _ _ _ HF). eapply fits_u32_le; [|exact Hfit]. apply length_filter. }
  destruct (names_edge_wf _ _ _ _ HF) as [HF1 HF2].
  destruct (csr_fits _ _ _ _ _ _ Hout Hn Hkept He HF1 HF2) as (U1 & U2 & U3).
  assert (Hlen : length (map swap kept) = length kept) by apply length_map.
  assert (HF3 : Forall (fun x => to x < length (ids g) /\ tid x < length (etypes g)) (map swap kept)).
  { apply Forall_map, Forall_forall. intros x Hx. rewrite Forall_forall in HF1, HF2.
    split; [exact (HF2 x Hx)|exact (proj2 (HF1 x Hx))]. }
  assert (HF4 : Forall (fun x => from x < length (ids g)) (map swap kept)).
  { apply Forall_map, Forall_forall. intros x Hx. rewrite Forall_forall in HF1. exact (proj1 (HF1 x Hx)). }
  destruct (csr_fits _ _ _ _ _ _ Hin Hn ltac:(by rewrite Hlen) He HF3 HF4) as (U4 & U5 & U6).
  split.
  - apply H.
  - apply Forall_app. split; [|exact Het]. rewrite Forall_forall in *. intros s Hs.
    apply Hstr. by apply (den_nodes _ _ _ H).
  - rewrite (csr_targets_length _ _ _ _ _ Hout), (csr_targets_length _ _ _ _ _ Hin), Hlen. done.
  - rewrite (csr_length _ _ _ _ _ Hout), (csr_length _ _ _ _ _ Hin).
    rewrite (csr_targets_length _ _ _ _ _ Hout), (csr_targets_length _ _ _ _ _ Hin).
    rewrite (csr_etype_length _ _ _ _ _ Hout), (csr_etype_length _ _ _ _ _ Hin). done.
  - rewrite !Forall_app. done.
  - done.
Qed.
