(* ===== verification/TopoProperties.v ===== *)
(** * Properties of the graph topology

    End-to-end statements about [CsrGraph]: from the node and edge streams given
    to [build], through the arrays, to the answers of the traversals and the byte
    format.  Each is stated against the abstract multigraph of [GraphSpec.v]. *)

From stdpp Require Import base gmap strings list.
From Stdlib Require Import NArith Lia Ascii.
From S2P Require Import Prelude GraphSpec Topo TopoSearch TopoComponents Bytes TopoCodec.

Local Open Scope string_scope.

(** C35: on a built topology [k_hop] terminates without panicking and returns
    exactly the triples (source, node, distance) with a known source and a
    shortest-path distance of at most [k] in the multigraph. *)
Theorem k_hop_exact nodes edges sources k dir etype :
  fits_u32 (length nodes) -> fits_u32 (length edges) ->
  exists g out, build nodes edges = Ret g /\ k_hop g sources k dir etype = Ret out /\
    forall s y d, (s, y, d) ∈ out <->
      s ∈ sources /\ s ∈ nodes /\ dist (neighbours nodes edges dir etype) s y d /\ d <= k.
Proof.
  intros Hn He. destruct (build_denotes nodes edges Hn He) as (g & Hb & Hg).
  destruct (k_hop_spec g nodes edges dir etype Hg sources k) as (out & Hout). by exists g, out.
Qed.

Definition sample_nodes : list string := ["a"; "b"; "c"; "d"; "a"].
Definition sample_edges : list edge :=
  [("a", "b", "x"); ("b", "c", "y"); ("a", "b", "x"); ("z", "c", "x"); ("c", "a", "x")].

Lemma k_hop_exact_witness :
  exists g out, build sample_nodes sample_edges = Ret g /\ k_hop g ["a"; "q"] 2 Both None = Ret out /\
    forall s y d, (s, y, d) ∈ out <->
      s ∈ ["a"; "q"] /\ s ∈ sample_nodes /\
      dist (neighbours sample_nodes sample_edges Both None) s y d /\ d <= 2.
Proof. apply (k_hop_exact sample_nodes sample_edges ["a"; "q"] 2 Both None); reflexivity. Defined.

(** [shortest_path_len] terminates without panicking and returns the hop
    distance, and [None] exactly when an endpoint is unknown or unreachable. *)
Theorem shortest_path_exact nodes edges src dst dir etype :
  fits_u32 (length nodes) -> fits_u32 (length edges) ->
  exists g r, build nodes edges = Ret g /\ shortest_path_len g src dst dir etype = Ret r /\
    forall h, r = Some h <-> src ∈ nodes /\ dst ∈ nodes /\ dist (neighbours nodes edges dir etype) src dst h.
Proof.
  intros Hn He. destruct (build_denotes nodes edges Hn He) as (g & Hb & Hg).
  destruct (shortest_path_len_spec g nodes edges dir etype Hg src dst) as (r & Hr). by exists g, r.
Qed.

Lemma shortest_path_exact_witness :
  exists g r, build sample_nodes sample_edges = Ret g /\
    shortest_path_len g "a" "c" Fwd (Some "x") = Ret r /\
    forall h, r = Some h <-> "a" ∈ sample_nodes /\ "c" ∈ sample_nodes /\
      dist (neighbours sample_nodes sample_edges Fwd (Some "x")) "a" "c" h.
Proof. apply (shortest_path_exact sample_nodes sample_edges "a" "c" Fwd (Some "x")); reflexivity. Defined.

(** [connected_components] under [Both] labels every node, gives two nodes
    the same label exactly when they are connected in the undirected multigraph,
    and numbers the components densely in first-seen order. *)
Theorem connected_components_weak nodes edges :
  fits_u32 (length nodes) -> fits_u32 (length edges) ->
  exists g l, build nodes edges = Ret g /\ connected_components g Both = Ret l /\
    map fst l = ids g /\
    (forall i j x y cx cy, l !! i = Some (x, cx) -> l !! j = Some (y, cy) ->
       cx = cy <-> reachable (neighbours nodes edges Both None) x y) /\
    (forall i x c c', l !! i = Some (x, c) -> (c' < c)%N -> exists j y, j < i /\ l !! j = Some (y, c')).
Proof.
  intros Hn He. destruct (build_denotes nodes edges Hn He) as (g & Hb & Hg).
  destruct (connected_components_spec g nodes edges Hg) as (C & Hrun & Hlen & Hsame & Hfirst).
  assert (Hzip : forall i x c, zip (ids g) C !! i = Some (x, c) -> ids g !! i = Some x /\ C !! i = Some c).
  { intros i x c Hi. apply lookup_zip_with_Some in Hi as (? & ? & [= <- <-] & ? & ?). done. }
  exists g, (zip (ids g) C). split_and!; [done|done|by apply fst_zip; lia| |].
  - intros i j x y cx cy [Hx Hcx]%Hzip [Hy Hcy]%Hzip. rewrite (Hsame i j cx cy Hcx Hcy).
    assert (Hnx : name g i = x) by (unfold name; by rewrite Hx).
    assert (Hny : name g j = y) by (unfold name; by rewrite Hy).
    rewrite <-Hnx, <-Hny. apply (reachable_relabel _ _ (name g) (fun v => v < length (ids g))).
    + intros v Hv. by apply (both_names g nodes edges Hg).
    + intros v w Hv Hw. by apply (both_lt g nodes edges Hg v w).
    + intros v w Hv Hw. by apply (name_inj _ _ _ _ _ Hg).
    + by eapply lookup_lt_Some.
    + by eapply lookup_lt_Some.
  - intros i x c c' [_ Hc]%Hzip Hlt. destruct (Hfirst i c c' Hc Hlt) as (j & Hj & Hcj).
    assert (Hjl : j < length (ids g)) by (rewrite <-Hlen; by eapply lookup_lt_Some).
    destruct (lookup_lt_is_Some_2 _ _ Hjl) as [y Hy]. exists j, y. split; [done|].
    apply lookup_zip_with_Some. by eexists _, _.
Qed.

Lemma connected_components_weak_witness :
  exists g l, build sample_nodes sample_edges = Ret g /\ connected_components g Both = Ret l /\
    map fst l = ids g /\
    (forall i j x y cx cy, l !! i = Some (x, cx) -> l !! j = Some (y, cy) ->
       cx = cy <-> reachable (neighbours sample_nodes sample_edges Both None) x y) /\
    (forall i x c c', l !! i = Some (x, c) -> (c' < c)%N -> exists j y, j < i /\ l !! j = Some (y, c')).
Proof. apply (connected_components_weak sample_nodes sample_edges); reflexivity. Defined.

(** Decoding what [to_bytes] wrote for a built topology gives it back, field
    by field (names being Rust strings, sizes within the format's [u32] fields). *)
Theorem topo_bytes_roundtrip nodes edges g :
  build nodes edges = Ret g ->
  fits_u32 (length nodes) -> fits_u32 (length edges) ->
  Forall short_str nodes -> Forall short_str (etypes g) ->
  (N.of_nat (length (payload_of g)) < 2 ^ 64)%N ->
  from_bytes (to_bytes g) = Ret g.
Proof.
  intros Hb Hn He Hs Ht Hsize. destruct (build_denotes nodes edges Hn He) as (g' & Hb' & Hg).
  assert (g' = g) as -> by congruence.
  apply from_to_bytes. by eapply denotes_serializable.
Qed.

Lemma topo_bytes_roundtrip_witness :
  exists g, build sample_nodes sample_edges = Ret g /\ from_bytes (to_bytes g) = Ret g.
Proof.
  eexists. split; [vm_compute; reflexivity|].
  apply (topo_bytes_roundtrip sample_nodes sample_edges).
  - vm_compute. reflexivity.
  - vm_compute. reflexivity.
  - vm_compute. reflexivity.
  - repeat (constructor; [split; vm_compute; reflexivity|]). constructor.
  - repeat (constructor; [split; vm_compute; reflexivity|]). constructor.
  - vm_compute. reflexivity.
Defined.

(** Flipping any single byte of a serialised topology is caught - as a bad
    magic, an unsupported version or a checksum mismatch - unless it lies in the
    two reserved bytes, which are ignored. *)
Theorem topo_bytes_corruption g i b :
  serializable g -> i < length (to_bytes g) -> to_bytes g !! i <> Some b ->
  from_bytes (<[i := b]> (to_bytes g)) = corrupted_verdict g i b.
Proof. apply from_bytes_corrupted. Qed.

Definition sample_graph : CsrGraph :=
  {| ids := ["a"; "b"]; id_to_idx := {["a" := 0; "b" := 1]}; etypes := ["x"];
     out_offsets := [0; 1; 1]; out_targets := [1]; out_etype := [0];
     in_offsets := [0; 0; 1]; in_sources := [0]; in_etype := [0] |}.

Lemma sample_graph_serializable : serializable sample_graph.
Proof.
  split.
  - replace (id_to_idx sample_graph) with (index_ids (ids sample_graph)) by (vm_compute; reflexivity).
    apply index_ids_interned; [|reflexivity]. apply (bool_decide_unpack _). vm_compute. exact I.
  - repeat (constructor; [split; vm_compute; reflexivity|]). constructor.
  - repeat split; reflexivity.
  - repeat split; reflexivity.
  - repeat (constructor; [vm_compute; reflexivity|]). constructor.
  - vm_compute. reflexivity.
Qed.

Lemma topo_bytes_corruption_witness :
  from_bytes (<[20 := "z"%char]> (to_bytes sample_graph)) = Fail ChecksumMismatch.
Proof.
  apply (topo_bytes_corruption sample_graph 20 "z"%char sample_graph_serializable).
  - vm_compute. lia.
  - vm_compute. discriminate.
Defined.

(** [build] never panics, keeps one node per distinct id and one edge per
    edge whose endpoints are both known, and the neighbour scan [step] appends
    the abstract neighbours of a node in edge order, parallel edges included. *)
Theorem build_step_neighbours nodes edges dir etype :
  fits_u32 (length nodes) -> fits_u32 (length edges) ->
  exists g, build nodes edges = Ret g /\
    NoDup (node_ids g) /\ (forall s, contains g s = true <-> s ∈ nodes) /\
    num_edges g = length (retained nodes edges) /\
    forall (v : nat) (s : string) (out : list nat), node_ids g !! v = Some s ->
      exists l, step g v dir (resolve_etype g etype) out = Ret (out ++ l)%list /\
        map (fun i : nat => node_ids g !! i) l = map Some (neighbours nodes edges dir etype s).
Proof.
  intros Hn He. destruct (build_denotes nodes edges Hn He) as (g & Hb & Hg).
  exists g. split_and!; [done|apply (den_ids _ _ _ Hg)| | |].
  - intros s. unfold contains. rewrite bool_decide_eq_true, <-(den_nodes _ _ _ Hg).
    rewrite list_elem_of_lookup. unfold is_Some. by setoid_rewrite (proj2 (den_ids _ _ _ Hg) s).
  - destruct (den_arrays _ _ _ Hg) as (kept & HF & Hout & _). unfold num_edges.
    by rewrite (csr_targets_length _ _ _ _ _ Hout), (Forall2_length _ _ _ HF).
  - intros v s out Hv. unfold node_ids in *.
    assert (Hvn : v < length (ids g)) by (by eapply lookup_lt_Some).
    destruct (step_denotes g nodes edges Hg v dir etype out Hvn) as (l & Hl & HF & Hm).
    exists l. split; [done|]. assert (name g v = s) as <- by (unfold name; by rewrite Hv).
    rewrite <-Hm, map_map. apply map_ext_in. intros i Hi%list_elem_of_In.
    rewrite Forall_forall in HF. by apply (denotes_name _ _ _ _ Hg), HF.
Qed.

Lemma build_step_neighbours_witness :
  exists g, build sample_nodes sample_edges = Ret g /\
    NoDup (node_ids g) /\ (forall s, contains g s = true <-> s ∈ sample_nodes) /\
    num_edges g = length (retained sample_nodes sample_edges) /\
    forall (v : nat) (s : string) (out : list nat), node_ids g !! v = Some s ->
      exists l, step g v Back (resolve_etype g (Some "x")) out = Ret (out ++ l)%list /\
        map (fun i : nat => node_ids g !! i) l = map Some (neighbours sample_nodes sample_edges Back (Some "x") s).
Proof. apply (build_step_neighbours sample_nodes sample_edges Back (Some "x")); reflexivity. Defined.

(** [var_length] keeps from the [max]-hop expansion the nodes whose shortest
    distance lies in the window [[min, max]]. *)
Theorem var_length_exact nodes edges sources min max dir etype :
  fits_u32 (length nodes) -> fits_u32 (length edges) ->
  exists g out, build nodes edges = Ret g /\ var_length g sources min max dir etype = Ret out /\
    forall s y d, (s, y, d) ∈ out <->
      s ∈ sources /\ s ∈ nodes /\ dist (neighbours nodes edges dir etype) s y d /\ min <= d <= max.
Proof.
  intros Hn He. destruct (build_denotes nodes edges Hn He) as (g & Hb & Hg).
  destruct (k_hop_spec g nodes edges dir etype Hg sources max) as (out & Hout & Hspec).
  eexists g, _. split_and!; [done|unfold var_length; by rewrite Hout|].
  intros s y d. rewrite elem_of_filter, Hspec. intuition lia.
Qed.

Lemma var_length_exact_witness :
  exists g out, build sample_nodes sample_edges = Ret g /\ var_length g ["a"] 1 3 Fwd None = Ret out /\
    forall s y d, (s, y, d) ∈ out <->
      s ∈ ["a"] /\ s ∈ sample_nodes /\
      dist (neighbours sample_nodes sample_edges Fwd None) s y d /\ 1 <= d <= 3.
Proof. apply (var_length_exact sample_nodes sample_edges ["a"] 1 3 Fwd None); reflexivity. Defined.
