(* ===== verification/F64.v ===== *)
(** * Decimal text and binary64

    [str::parse::<f64>] on the literals the KQL lexer builds (digits with one
    point) and [format!("{f}")] on the result: correctly rounded parsing and
    shortest round-trip printing, in exact integer arithmetic. *)

From stdpp Require Import base strings list.
From Stdlib Require Import NArith ZArith Lia Ascii.
From S2P Require Import Prelude Bytes.

Local Open Scope Z_scope.

(** A non-negative binary64 value [m * 2^e]. *)
Inductive f64 :=
  | Finite (m e : Z)
  | Infinite.

#[export] Instance f64_eq_dec : EqDecision f64.
Proof. solve_decision. Defined.

(** Round-half-even quotient. *)
Definition div_half_even (a b : Z) : Z :=
  let q := a / b in
  let r := a mod b in
  if 2 * r <? b then q else if b <? 2 * r then q + 1 else if Z.even q then q else q + 1.

(** Scale a fraction by a power of two. *)
Definition scale_num (num e : Z) : Z := if e <? 0 then num * 2 ^ (- e) else num.
Definition scale_den (den e : Z) : Z := if e <? 0 then den else den * 2 ^ e.

(** The binary64 value nearest to [num / den]. *)
Definition round_f64 (num den : Z) : f64 :=
  if num =? 0 then Finite 0 0
  else
    let e0 := Z.log2 num - Z.log2 den - 52 in
    let e1 := if scale_num num e0 <? 2 ^ 52 * scale_den den e0 then e0 - 1 else e0 in
    let e := Z.max e1 (-1074) in
    let m := div_half_even (scale_num num e) (scale_den den e) in
    let '(m, e) := if m =? 2 ^ 53 then (2 ^ 52, e + 1) else (m, e) in
    if 971 <? e then Infinite else Finite m e.

(** Split a literal at its decimal point; [None] when there are two points. *)
Fixpoint parse_digits (s : string) (seen_point : bool) (num scale : Z) : option (Z * Z) :=
  match s with
  | EmptyString => Some (num, scale)
  | String c s =>
      if decide (c = "."%char) then
        if seen_point then None else parse_digits s true num scale
      else
        let d := Z.of_N (ch c) - 48 in
        if (d <? 0) || (9 <? d) then None
        else parse_digits s seen_point (10 * num + d) (if seen_point then 10 * scale else scale)
  end.

Definition parse_f64 (s : string) : option f64 :=
  match s with
  | EmptyString => None
  | _ => match parse_digits s false 0 1 with
         | Some (num, scale) => Some (round_f64 num scale)
         | None => None
         end
  end.

(** [n] significant digits of [num / den] with last digit at [10^p], if some
    such decimal rounds back to [f]: the nearer of the two neighbours first. *)
Definition digits_at (f : f64) (num den p : Z) : option Z :=
  let num' := if p <? 0 then num * 10 ^ (- p) else num in
  let den' := if p <? 0 then den else den * 10 ^ p in
  let back d := if p <? 0 then round_f64 d (10 ^ (- p)) else round_f64 (d * 10 ^ p) 1 in
  let q := num' / den' in
  let near := div_half_even num' den' in
  let far := if near =? q then q + 1 else q in
  if decide (back near = f) then Some near
  else if decide (back far = f) then Some far
  else None.

Fixpoint shortest (fuel : nat) (f : f64) (num den p : Z) : Z * Z :=
  match fuel with
  | O => (num / den, 0)
  | S fuel =>
      match digits_at f num den p with
      | Some d => (d, p)
      | None => shortest fuel f num den (p - 1)
      end
  end.

(** Plain decimal notation of [d * 10^p], without exponent. *)
Definition show_decimal (d p : Z) : string :=
  if 0 <=? p then show_N (Z.to_N (d * 10 ^ p))
  else
    let scale := 10 ^ (- p) in
    let frac := d mod scale in
    let digits := show_N (Z.to_N (scale + frac)) in
    show_N (Z.to_N (d / scale)) +:+ (if frac =? 0 then "" else "." +:+ String.substring 1 (String.length digits - 1) digits).

Definition show_f64 (f : f64) : string :=
  match f with
  | Infinite => "inf"
  | Finite m e =>
      if m =? 0 then "0"
      else
        let num := scale_num m (- e) in
        let den := scale_den 1 (- e) in
        let p0 := (Z.log2 num - Z.log2 den) * 3 / 10 + 2 in
        let '(d, p) := shortest 400 f num den p0 in
        show_decimal d p
  end.
