(* ===== verification/KqlLexer.v ===== *)
(** * The KQL lexer (pensieve-kql/src/lexer.rs)

    [tokenize] turns source text into tokens.  The iterator over [src.chars()]
    is the list of the characters not consumed yet; the inner loops are
    structural on it and the outer loop, which consumes at least one character
    per iteration, runs on fuel. *)

From stdpp Require Import base strings list.
From Stdlib Require Import NArith ZArith Lia Ascii.
From S2P Require Import Prelude Bytes F64.

Local Open Scope string_scope.

Inductive Token :=
  | Ident (s : string)
  | Int (n : Z)
  | Float (f : f64)
  | Str (s : string)
  | Duration (s : string)
  | Pipe | Comma | LParen | RParen | LBracket | RBracket | Dot | DotDot
  | Eq | Ne | Lt | Le | Gt | Ge
  | Plus | Minus | Star | Slash | Percent
  | Assign | Colon | Arrow | RightArrow.

#[export] Instance Token_eq_dec : EqDecision Token.
Proof. solve_decision. Defined.

(** [LexError]: one constructor per message of the lexer. *)
Inductive LexError :=
  | ExpectedEqAfterBang
  | UnterminatedDoubleQuoted
  | DanglingBackslash
  | UnterminatedSingleQuoted
  | BadFloat
  | BadInt
  | UnexpectedCharacter (c : char).

#[export] Instance LexError_eq_dec : EqDecision LexError.
Proof. solve_decision. Defined.

(** Do the characters ahead start with [tag]? *)
Fixpoint peek2 (cs : list char) (tag : list char) : bool :=
  match tag with
  | [] => true
  | t :: tag =>
      match cs with
      | c :: cs => if (c =? t)%N then peek2 cs tag else false
      | [] => false
      end
  end.

(** A line comment: everything up to and including the newline. *)
Fixpoint skip_line (cs : list char) : list char :=
  match cs with
  | [] => []
  | c :: cs => if (c =? 10)%N then cs else skip_line cs
  end.

(** What a backslash followed by [next] stands for. *)
Definition unescape (next : char) : char :=
  if (next =? ch "n")%N then 10%N
  else if (next =? ch "t")%N then 9%N
  else if (next =? ch "r")%N then 13%N
  else next.

(** The body of a double-quoted string, after the opening quote. *)
Fixpoint scan_dquote (cs : list char) (s : string) : outcome LexError (string * list char) :=
  match cs with
  | [] => Fail UnterminatedDoubleQuoted
  | c :: cs =>
      if (c =? 34)%N then Ret (s, cs)
      else if (c =? 92)%N then
        match cs with
        | [] => Fail DanglingBackslash
        | next :: cs => scan_dquote cs (push s (unescape next))
        end
      else scan_dquote cs (push s c)
  end.

(** The body of a single-quoted string. *)
Fixpoint scan_squote (cs : list char) (s : string) : outcome LexError (string * list char) :=
  match cs with
  | [] => Fail UnterminatedSingleQuoted
  | c :: cs => if (c =? 39)%N then Ret (s, cs) else scan_squote cs (push s c)
  end.

(** The digits of a number, with the points that are followed by a digit. *)
Fixpoint scan_number (cs : list char) (lit : string) (is_float : bool)
    : string * bool * list char :=
  match cs with
  | [] => (lit, is_float, cs)
  | d :: rest =>
      if is_ascii_digit d then scan_number rest (push lit d) is_float
      else if (d =? ch ".")%N then
        match rest with
        | nc :: _ =>
            if is_ascii_digit nc then scan_number rest (push lit d) true
            else (lit, is_float, cs)
        | [] => (lit, is_float, cs)
        end
      else (lit, is_float, cs)
  end.

(** [lit.parse::<i64>()] on a string of digits. *)
Fixpoint digits_value (s : string) (acc : Z) : option Z :=
  match s with
  | EmptyString => Some acc
  | String c s =>
      let d := (Z.of_N (N_of_ascii c) - 48)%Z in
      if ((d <? 0) || (9 <? d))%Z then None else digits_value s (10 * acc + d)%Z
  end.

Definition parse_i64 (s : string) : option Z :=
  match s with
  | EmptyString => None
  | _ => match digits_value s 0 with
         | Some n => if (n <? 2 ^ 63)%Z then Some n else None
         | None => None
         end
  end.

(** The duration suffix, if one follows and no identifier character follows it. *)
Definition duration_suffix (cs : list char) : option (char * list char) :=
  match cs with
  | suffix :: rest =>
      if existsb (N.eqb suffix) [ch "s"; ch "m"; ch "h"; ch "d"] then
        let ok := match rest with
                  | [] => true
                  | nc :: _ => negb (is_ascii_alphanumeric nc) && negb (nc =? ch "_")%N
                  end in
        if ok then Some (suffix, rest) else None
      else None
  | [] => None
  end.

(** The token of a number: a duration, a float or an integer. *)
Definition number_token (cs : list char) : outcome LexError (Token * list char) :=
  let '(lit, is_float, rest) := scan_number cs "" false in
  match duration_suffix rest with
  | Some (suffix, rest) => Ret (Duration (push lit suffix), rest)
  | None =>
      if is_float then
        f ← or_fail BadFloat (parse_f64 lit);
        Ret (Float f, rest)
      else
        n ← or_fail BadInt (parse_i64 lit);
        Ret (Int n, rest)
  end.

Definition is_ident_char (c : char) : bool := is_ascii_alphanumeric c || (c =? ch "_")%N.

(** An identifier; a dash belongs to it when a letter follows. *)
Fixpoint scan_ident (cs : list char) (ident : string) : string * list char :=
  match cs with
  | [] => (ident, cs)
  | cc :: rest =>
      if is_ident_char cc || (cc =? ch "-")%N then
        if (cc =? ch "-")%N then
          match rest with
          | nc :: _ => if is_ascii_alphabetic nc then scan_ident rest (push ident cc) else (ident, cs)
          | [] => (ident, cs)
          end
        else scan_ident rest (push ident cc)
      else (ident, cs)
  end.

(** The longest-match choice between a one-character token and the token of
    that character followed by [second]. *)
Definition one_or_two (second : char) (two one : Token) (cs : list char) : Token * list char :=
  match cs with
  | c :: rest => if (c =? second)%N then (two, rest) else (one, cs)
  | [] => (one, cs)
  end.

(** One iteration of the loop of [tokenize], on the peeked character [c] and
    the characters [rest] after it: the token pushed, if any, and what is left. *)
Definition lex_step (c : char) (rest : list char) : outcome LexError (option Token * list char) :=
  let one t := Ret (Some t, rest) in
  let two second t2 t1 := let '(t, rest) := one_or_two second t2 t1 rest in Ret (Some t, rest) in
  if is_whitespace c then Ret (None, rest)
  else if (c =? ch "/")%N && peek2 (c :: rest) [ch "/"; ch "/"] then Ret (None, skip_line (c :: rest))
  else if (c =? ch "|")%N then one Pipe
  else if (c =? ch ",")%N then one Comma
  else if (c =? ch "(")%N then one LParen
  else if (c =? ch ")")%N then one RParen
  else if (c =? ch "[")%N then one LBracket
  else if (c =? ch "]")%N then one RBracket
  else if (c =? ch ".")%N then two (ch ".") DotDot Dot
  else if (c =? ch "+")%N then one Plus
  else if (c =? ch ":")%N then one Colon
  else if (c =? ch "-")%N then
    if peek2 rest [ch "-"; ch ">"] then Ret (Some Arrow, drop 2 rest)
    else two (ch ">") RightArrow Minus
  else if (c =? ch "*")%N then one Star
  else if (c =? ch "%")%N then one Percent
  else if (c =? ch "/")%N then one Slash
  else if (c =? ch "=")%N then two (ch "=") Eq Assign
  else if (c =? ch "!")%N then
    match rest with
    | n :: rest => if (n =? ch "=")%N then Ret (Some Ne, rest) else Fail ExpectedEqAfterBang
    | [] => Fail ExpectedEqAfterBang
    end
  else if (c =? ch "<")%N then two (ch "=") Le Lt
  else if (c =? ch ">")%N then two (ch "=") Ge Gt
  else if (c =? 34)%N then
    '(s, rest) ← scan_dquote rest "";
    Ret (Some (Str s), rest)
  else if (c =? 39)%N then
    '(s, rest) ← scan_squote rest "";
    Ret (Some (Str s), rest)
  else if is_ascii_digit c then
    '(t, rest) ← number_token (c :: rest);
    Ret (Some t, rest)
  else if is_ascii_alphabetic c || (c =? ch "_")%N then
    let '(ident, rest) := scan_ident (c :: rest) "" in
    Ret (Some (Ident ident), rest)
  else Fail (UnexpectedCharacter c).

Fixpoint tokenize_loop (fuel : nat) (cs : list char) (out : list Token)
    : outcome LexError (list Token) :=
  match cs with
  | [] => Ret out
  | c :: rest =>
      match fuel with
      | O => OutOfFuel
      | S fuel =>
          '(t, rest) ← lex_step c rest;
          tokenize_loop fuel rest (out ++ option_list t)%list
      end
  end.

Definition tokenize (src : string) : outcome LexError (list Token) :=
  let cs := chars src in
  tokenize_loop (List.length cs) cs [].

Example tokenize_pattern :
  tokenize "(a)-[e:T]->(b) --> 5m 1.5 'x' >= project-away status - 200 // done"
  = Ret [LParen; Ident "a"; RParen; Minus; LBracket; Ident "e"; Colon; Ident "T"; RBracket;
         RightArrow; LParen; Ident "b"; RParen; Arrow; Duration "5m";
         Float (Finite (3 * 2 ^ 51) (-52)); Str "x"; Ge; Ident "project-away"; Ident "status";
         Minus; Int 200].
Proof. vm_compute. reflexivity. Qed.
