(* ===== verification/KqlState.v ===== *)
(** * The SQL accumulator of the KQL parser (pensieve-kql/src/state.rs)

    [QueryState] with its renderings [to_sql], [render_cte_prelude] and the
    sealing of an aggregation, [rebase_aggregation]. *)

From stdpp Require Import base strings list.
From Stdlib Require Import NArith ZArith Lia Ascii.
From S2P Require Import Prelude Bytes.

Local Open Scope string_scope.

Record GraphDef := {
  edge_table : string;
  src_col : string;
  dst_col : string;
  node_table : string;
  id_col : string;
}.

Record QueryState := {
  table : string;
  root : string;
  select : list string;
  exclude : list string;
  extend : list (string * string);
  where_clauses : list string;
  group_by : list string;
  aggregates : list string;
  order_by : list (string * bool);
  limit : option N;
  distinct : bool;
  graph_def : option GraphDef;
  ctes : list (string * string * bool);
  aggregated : bool;
  agg_seq : N;
}.

(** [QueryState::default()] *)
Definition default_state : QueryState :=
  {| table := ""; root := ""; select := []; exclude := []; extend := []; where_clauses := [];
     group_by := []; aggregates := []; order_by := []; limit := None; distinct := false;
     graph_def := None; ctes := []; aggregated := false; agg_seq := 0 |}.

(** [QueryState::new] *)
Definition new_state (t : string) : QueryState :=
  {| table := t; root := t; select := []; exclude := []; extend := []; where_clauses := [];
     group_by := []; aggregates := []; order_by := []; limit := None; distinct := false;
     graph_def := None; ctes := []; aggregated := false; agg_seq := 0 |}.

Definition root_table (st : QueryState) : string := root st.

(** ** Field updates *)

Definition set_table (t : string) (st : QueryState) : QueryState :=
  {| table := t; root := root st; select := select st; exclude := exclude st;
     extend := extend st; where_clauses := where_clauses st; group_by := group_by st;
     aggregates := aggregates st; order_by := order_by st; limit := limit st;
     distinct := distinct st; graph_def := graph_def st; ctes := ctes st;
     aggregated := aggregated st; agg_seq := agg_seq st |}.
Definition set_select (l : list string) (st : QueryState) : QueryState :=
  {| table := table st; root := root st; select := l; exclude := exclude st;
     extend := extend st; where_clauses := where_clauses st; group_by := group_by st;
     aggregates := aggregates st; order_by := order_by st; limit := limit st;
     distinct := distinct st; graph_def := graph_def st; ctes := ctes st;
     aggregated := aggregated st; agg_seq := agg_seq st |}.
Definition extend_exclude (l : list string) (st : QueryState) : QueryState :=
  {| table := table st; root := root st; select := select st; exclude := (exclude st ++ l)%list;
     extend := extend st; where_clauses := where_clauses st; group_by := group_by st;
     aggregates := aggregates st; order_by := order_by st; limit := limit st;
     distinct := distinct st; graph_def := graph_def st; ctes := ctes st;
     aggregated := aggregated st; agg_seq := agg_seq st |}.
Definition push_extend (x : string * string) (st : QueryState) : QueryState :=
  {| table := table st; root := root st; select := select st; exclude := exclude st;
     extend := (extend st ++ [x])%list; where_clauses := where_clauses st; group_by := group_by st;
     aggregates := aggregates st; order_by := order_by st; limit := limit st;
     distinct := distinct st; graph_def := graph_def st; ctes := ctes st;
     aggregated := aggregated st; agg_seq := agg_seq st |}.
Definition push_where (e : string) (st : QueryState) : QueryState :=
  {| table := table st; root := root st; select := select st; exclude := exclude st;
     extend := extend st; where_clauses := (where_clauses st ++ [e])%list; group_by := group_by st;
     aggregates := aggregates st; order_by := order_by st; limit := limit st;
     distinct := distinct st; graph_def := graph_def st; ctes := ctes st;
     aggregated := aggregated st; agg_seq := agg_seq st |}.
Definition push_group_by (e : string) (st : QueryState) : QueryState :=
  {| table := table st; root := root st; select := select st; exclude := exclude st;
     extend := extend st; where_clauses := where_clauses st; group_by := (group_by st ++ [e])%list;
     aggregates := aggregates st; order_by := order_by st; limit := limit st;
     distinct := distinct st; graph_def := graph_def st; ctes := ctes st;
     aggregated := aggregated st; agg_seq := agg_seq st |}.
Definition push_aggregate (e : string) (st : QueryState) : QueryState :=
  {| table := table st; root := root st; select := select st; exclude := exclude st;
     extend := extend st; where_clauses := where_clauses st; group_by := group_by st;
     aggregates := (aggregates st ++ [e])%list; order_by := order_by st; limit := limit st;
     distinct := distinct st; graph_def := graph_def st; ctes := ctes st;
     aggregated := aggregated st; agg_seq := agg_seq st |}.
Definition push_order_by (x : string * bool) (st : QueryState) : QueryState :=
  {| table := table st; root := root st; select := select st; exclude := exclude st;
     extend := extend st; where_clauses := where_clauses st; group_by := group_by st;
     aggregates := aggregates st; order_by := (order_by st ++ [x])%list; limit := limit st;
     distinct := distinct st; graph_def := graph_def st; ctes := ctes st;
     aggregated := aggregated st; agg_seq := agg_seq st |}.
Definition set_limit (n : N) (st : QueryState) : QueryState :=
  {| table := table st; root := root st; select := select st; exclude := exclude st;
     extend := extend st; where_clauses := where_clauses st; group_by := group_by st;
     aggregates := aggregates st; order_by := order_by st; limit := Some n;
     distinct := distinct st; graph_def := graph_def st; ctes := ctes st;
     aggregated := aggregated st; agg_seq := agg_seq st |}.
Definition set_distinct (st : QueryState) : QueryState :=
  {| table := table st; root := root st; select := select st; exclude := exclude st;
     extend := extend st; where_clauses := where_clauses st; group_by := group_by st;
     aggregates := aggregates st; order_by := order_by st; limit := limit st;
     distinct := true; graph_def := graph_def st; ctes := ctes st;
     aggregated := aggregated st; agg_seq := agg_seq st |}.
Definition set_graph_def (g : GraphDef) (st : QueryState) : QueryState :=
  {| table := table st; root := root st; select := select st; exclude := exclude st;
     extend := extend st; where_clauses := where_clauses st; group_by := group_by st;
     aggregates := aggregates st; order_by := order_by st; limit := limit st;
     distinct := distinct st; graph_def := Some g; ctes := ctes st;
     aggregated := aggregated st; agg_seq := agg_seq st |}.
Definition push_cte (c : string * string * bool) (st : QueryState) : QueryState :=
  {| table := table st; root := root st; select := select st; exclude := exclude st;
     extend := extend st; where_clauses := where_clauses st; group_by := group_by st;
     aggregates := aggregates st; order_by := order_by st; limit := limit st;
     distinct := distinct st; graph_def := graph_def st; ctes := (ctes st ++ [c])%list;
     aggregated := aggregated st; agg_seq := agg_seq st |}.
Definition set_aggregated (st : QueryState) : QueryState :=
  {| table := table st; root := root st; select := select st; exclude := exclude st;
     extend := extend st; where_clauses := where_clauses st; group_by := group_by st;
     aggregates := aggregates st; order_by := order_by st; limit := limit st;
     distinct := distinct st; graph_def := graph_def st; ctes := ctes st;
     aggregated := true; agg_seq := agg_seq st |}.

(** ** Sealing an aggregation *)

(** The body of the sealed CTE. *)
Definition agg_body (st : QueryState) : string :=
  let items := (group_by st ++ aggregates st)%list in
  fmt ["SELECT "; join ", " items; " FROM "; table st;
       (if is_empty (where_clauses st) then "" else " WHERE " +:+ join " AND " (where_clauses st));
       (if is_empty (group_by st) then "" else " GROUP BY " +:+ join ", " (group_by st))].

Definition agg_name (n : N) : string := fmt ["_agg"; show_N n].

Definition rebase_aggregation (st : QueryState) : QueryState :=
  let name := agg_name (agg_seq st) in
  {| table := name; root := root st; select := []; exclude := []; extend := [];
     where_clauses := []; group_by := []; aggregates := []; order_by := []; limit := None;
     distinct := false; graph_def := graph_def st;
     ctes := (ctes st ++ [(name, agg_body st, false)])%list;
     aggregated := false; agg_seq := (agg_seq st + 1) mod 2 ^ 32 |}.

(** ** Rendering *)

(** [self.extend.iter().find(|(n, _)| n == col)] *)
Definition find_extend (col : string) (l : list (string * string)) : option string :=
  (fun x => x.2.2) <$> list_find (fun x => x.1 = col) l.

Definition as_alias (expr name : string) : string := fmt ["("; expr; ") AS "; name].

(** A selected column: the expression of the [extend] that defines it, or itself. *)
Definition select_item (st : QueryState) (col : string) : string :=
  match find_extend col (extend st) with
  | Some expr => as_alias expr col
  | None => col
  end.

Definition extend_items (st : QueryState) : list string :=
  map (fun '(name, expr) => as_alias expr name) (extend st).

Definition select_clause (st : QueryState) : string :=
  if negb (is_empty (aggregates st)) then join ", " (group_by st ++ aggregates st)%list
  else if distinct st then
    join ", " (if is_empty (select st) then
                 if is_empty (extend st) then ["*"] else extend_items st
               else map (select_item st) (select st))
  else if negb (is_empty (select st)) then join ", " (map (select_item st) (select st))
  else
    join ", " ((if is_empty (exclude st) then "*"
                else fmt ["* EXCEPT ("; join ", " (exclude st); ")"]) :: extend_items st).

Definition cte_item (c : string * string * bool) : string :=
  let '(name, body, _) := c in fmt [name; " AS ("; body; ")"].

Definition render_cte_prelude (st : QueryState) : string :=
  if is_empty (ctes st) then ""
  else
    let any_recursive := existsb snd (ctes st) in
    let keyword := if any_recursive then "WITH RECURSIVE " else "WITH " in
    fmt [keyword; join ", " (map cte_item (ctes st)); " "].

Definition order_item (x : string * bool) : string :=
  let '(c, desc) := x in if desc : bool then c +:+ " DESC" else c +:+ " ASC".

Definition to_sql (st : QueryState) : string :=
  fmt [render_cte_prelude st; "SELECT ";
       (if distinct st && is_empty (aggregates st) then "DISTINCT " else "");
       select_clause st; " FROM "; table st;
       (if is_empty (where_clauses st) then "" else " WHERE " +:+ join " AND " (where_clauses st));
       (if is_empty (group_by st) then "" else " GROUP BY " +:+ join ", " (group_by st));
       (if is_empty (order_by st) then ""
        else " ORDER BY " +:+ join ", " (map order_item (order_by st)));
       (match limit st with Some n => " LIMIT " +:+ show_N n | None => "" end)].
