(* ===== verification/KqlParser.v ===== *)
(** * The KQL parser: tokens, SQL text helpers and expressions
    (pensieve-kql/src/parser.rs)

    A parser operation is a state-passing function on [Parser] that may fail
    with a [ParseError].  An error is kept as the format string of the source
    with its arguments, unrendered.  Loops and the recursion of [parse_expr]
    run on fuel taken from the number of tokens left. *)

From stdpp Require Import base gmap strings list.
From Stdlib Require Import NArith ZArith Lia Ascii.
From S2P Require Import Prelude Bytes F64 KqlLexer KqlState.

Local Open Scope string_scope.

(** ** The parser state and its monad *)

(** [HashMap<String, Vec<String>>] *)
Abbreviation SchemaMap := (gmap string (list string)).

Record Parser := {
  toks : list Token;
  pos : nat;
  state : QueryState;
  schemas : SchemaMap;
}.

(** The arguments of an error message. *)
Inductive message_arg :=
  | MStr (s : string)
  | MTok (t : Token)
  | MPeek (t : option Token)
  | MToks (l : list Token)
  | MNum (n : N).

Inductive ParseError :=
  | LexErr (e : LexError)
  | ParseErr (message : string) (args : list message_arg).

Definition P (A : Type) : Type := Parser -> outcome ParseError (A * Parser).

#[export] Instance P_ret : MRet P := fun A a p => Ret (a, p).
#[export] Instance P_bind : MBind P := fun A B k m p =>
  match m p with
  | Ret (a, p') => k a p'
  | Fail e => Fail e
  | Panic => Panic
  | OutOfFuel => OutOfFuel
  end.

Definition perr {A} (message : string) (args : list message_arg) : P A :=
  fun _ => Fail (ParseErr message args).
Definition ppanic {A} : P A := fun _ => Panic.
Definition out_of_fuel {A} : P A := fun _ => OutOfFuel.

(** Access to the fields of [self]. *)
Definition get_state : P QueryState := fun p => Ret (state p, p).
Definition get_toks : P (list Token) := fun p => Ret (toks p, p).
Definition get_pos : P nat := fun p => Ret (pos p, p).
Definition get_schemas : P SchemaMap := fun p => Ret (schemas p, p).
Definition update_state (f : QueryState -> QueryState) : P unit := fun p =>
  Ret (tt, {| toks := toks p; pos := pos p; state := f (state p); schemas := schemas p |}).
(** [self.pos += n] *)
Definition advance (n : nat) : P unit := fun p =>
  Ret (tt, {| toks := toks p; pos := pos p + n; state := state p; schemas := schemas p |}).

(** The number of tokens left, the fuel of the loops. *)
Definition rem (p : Parser) : nat := List.length (toks p) - pos p.
Definition with_fuel {A} (f : nat -> P A) : P A := fun p => f (S (rem p)) p.

(** ** Token access *)

Definition new_parser (ts : list Token) (sch : SchemaMap) : Parser :=
  {| toks := ts; pos := 0; state := default_state; schemas := sch |}.

Definition peek : P (option Token) := fun p => Ret (nth_error (toks p) (pos p), p).

Definition bump : P Token :=
  t ← peek;
  match t with
  | Some t => _ ← advance 1; mret t
  | None => perr "unexpected end of query" []
  end.

Definition eat (expected : Token) : P bool :=
  t ← peek;
  if decide (t = Some expected) then _ ← advance 1; mret true else mret false.

Definition expect (expected : Token) (what : string) : P unit :=
  b ← eat expected;
  if b : bool then mret tt
  else t ← peek; perr "expected {what}, got {:?}" [MStr what; MPeek t].

Definition expect_ident_eq (lit : string) : P unit :=
  t ← peek;
  if decide (t = Some (Ident lit)) then advance 1
  else perr "expected `{lit}`, got {other:?}" [MStr lit; MPeek t].

Definition expect_ident : P string :=
  t ← bump;
  match t with
  | Ident s => mret s
  | other => perr "expected identifier, got {other:?}" [MTok other]
  end.

(** [matches!(self.peek(), Some(Token::Ident(s)) if s == kw)] *)
Definition peek_ident_eq (kw : string) : P bool :=
  t ← peek; mret (bool_decide (t = Some (Ident kw))).

Definition eat_ident_eq (kw : string) : P bool :=
  b ← peek_ident_eq kw;
  if b : bool then _ ← advance 1; mret true else mret false.

(** [match self.bump()? { Token::Ident(s) => s, other => return Err(..) }] *)
Definition bump_ident (message : string) : P string :=
  t ← bump;
  match t with
  | Ident s => mret s
  | other => perr message [MTok other]
  end.

(** [match self.bump()? { Token::Int(n) if n >= 0 => n as u64, other => return Err(..) }] *)
Definition bump_nonneg (message : string) : P N :=
  t ← bump;
  match t with
  | Int n => if (0 <=? n)%Z then mret (Z.to_N n) else perr message [MTok t]
  | other => perr message [MTok other]
  end.

(** [loop { v.push(item); if !self.eat(&Token::Comma) { break; } }] *)
Fixpoint comma_loop {A} (item : P A) (v : list A) (fuel : nat) : P (list A) :=
  match fuel with
  | O => out_of_fuel
  | S fuel =>
      x ← item;
      let v := (v ++ [x])%list in
      more ← eat Comma;
      if more : bool then comma_loop item v fuel else mret v
  end.
Definition comma_list {A} (item : P A) : P (list A) := with_fuel (comma_loop item []).

(** ** SQL text helpers *)

Definition SQL_RESERVED : list string := [
  "all"; "and"; "any"; "array"; "as"; "asc"; "asymmetric"; "authorization";
  "between"; "both"; "by"; "case"; "cast"; "check"; "collate"; "column";
  "constraint"; "create"; "cross"; "current"; "current_date"; "current_role";
  "current_time"; "current_timestamp"; "current_user"; "default";
  "deferrable"; "deferred"; "delete"; "desc"; "distinct"; "do"; "else";
  "end"; "except"; "exists"; "false"; "fetch"; "for"; "foreign"; "from";
  "full"; "grant"; "group"; "having"; "in"; "initially"; "inner"; "intersect";
  "into"; "is"; "join"; "leading"; "left"; "like"; "limit"; "localtime";
  "localtimestamp"; "natural"; "not"; "null"; "offset"; "on"; "only"; "or";
  "order"; "outer"; "overlaps"; "placing"; "primary"; "references"; "right";
  "select"; "session_user"; "similar"; "some"; "symmetric"; "table"; "then";
  "to"; "trailing"; "true"; "union"; "unique"; "user"; "using"; "variadic";
  "verbose"; "when"; "where"; "window"; "with"].

(** ASCII tests on the bytes of a string: a byte of a multi-byte character
    fails them, as the character does. *)
Definition ascii_byte_alnum (a : ascii) : bool := is_ascii_alphanumeric (ch a).
Definition ident_byte (a : ascii) : bool := is_ident_char (ch a).
Definition structurally_simple (name : string) : bool :=
  all_bytes ident_byte name
  && match name with
     | String a _ => negb (is_ascii_digit (ch a))
     | EmptyString => false
     end.

Definition quote_ident (name : string) : string :=
  if structurally_simple name && negb (bool_decide (lowercase name ∈ SQL_RESERVED)) then name
  else fmt [dq; replace "034"%char (dq +:+ dq) name; dq].

(** [format!("'{}'", s.replace('\'', "''"))] *)
Definition sql_quote (s : string) : string := fmt ["'"; replace "'" "''" s; "'"].

(** [s.split_at(s.len() - 1)] *)
Definition split_last (s : string) : string * string :=
  let n := String.length s - 1 in
  (String.substring 0 n s, String.substring n 1 s).

Definition duration_to_sql_interval (d : string) : P string :=
  let '(n, unit) := split_last d in
  match parse_i64 n with
  | None => perr "bad duration literal: {d}" [MStr d]
  | Some n =>
      let interval unit_name := mret (fmt ["INTERVAL '"; show_Z n; " "; unit_name; "'"]) in
      if decide (unit = "s") then interval "second"
      else if decide (unit = "m") then interval "minute"
      else if decide (unit = "h") then interval "hour"
      else if decide (unit = "d") then interval "day"
      else perr "unknown duration unit: {other}" [MStr unit]
  end.

Definition starts_with (a : ascii) (s : string) : bool :=
  match s with String c _ => bool_decide (c = a) | EmptyString => false end.
Fixpoint ends_with (a : ascii) (s : string) : bool :=
  match s with
  | EmptyString => false
  | String c EmptyString => bool_decide (c = a)
  | String _ s => ends_with a s
  end.

Definition strip_outer_quotes (s : string) : string :=
  if starts_with "'" s && ends_with "'" s && (2 <=? String.length s)%nat
  then undouble "'" (String.substring 1 (String.length s - 2) s)
  else s.

Definition add_like_right (lit : string) : string :=
  let unquoted := strip_outer_quotes lit in
  fmt ["'"; replace "'" "''" unquoted; "%'"].
Definition add_like_left (lit : string) : string :=
  let unquoted := strip_outer_quotes lit in
  fmt ["'%"; replace "'" "''" unquoted; "'"].
Definition add_like_both (lit : string) : string :=
  let unquoted := strip_outer_quotes lit in
  fmt ["'%"; replace "'" "''" unquoted; "%'"].

(** [trim_matches('_')] *)
Fixpoint trim_start_matches (c : char) (l : list char) : list char :=
  match l with
  | x :: l' => if (x =? c)%N then trim_start_matches c l' else l
  | [] => []
  end.
Definition trim_matches (c : char) (l : list char) : list char :=
  rev (trim_start_matches c (rev (trim_start_matches c l))).

Definition implicit_agg_alias (expr : string) : string :=
  let id := map (fun c => if is_ascii_alphanumeric c then c else ch "_") (chars expr) in
  let id := trim_matches (ch "_") id in
  if is_empty id then "expr" else of_chars (take 40 id).

(** ** Literals *)

Definition parse_scalar_literal : P string :=
  t ← bump;
  match t with
  | Str s => mret (sql_quote s)
  | Int n => mret (show_Z n)
  | Float f => mret (show_f64 f)
  | other => perr "expected literal, got {other:?}" [MTok other]
  end.

Definition parse_source_seeds : P (list string) :=
  b ← eat LParen;
  if b : bool then
    seeds ← comma_list parse_scalar_literal;
    c ← eat RParen;
    if negb c then perr "expected ')' to close source list" []
    else if is_empty seeds then perr "source list must have at least one value" []
    else mret seeds
  else
    s ← parse_scalar_literal; mret [s].
