(* ===== verification/KqlExpr.v ===== *)
(** * KQL expressions (pensieve-kql/src/parser.rs, [parse_expr] and below)

    The precedence levels, each lowering straight to SQL text.  [parse_expr]
    calls itself on parenthesised expressions and call arguments; the levels
    take that recursive call as a parameter and [parse_expr_fuel] ties the
    knot. *)

From stdpp Require Import base gmap strings list.
From Stdlib Require Import NArith ZArith Lia Ascii.
From S2P Require Import Prelude Bytes F64 KqlLexer KqlState KqlParser.

Local Open Scope string_scope.

(** [while let Some(op) = (operator of the peeked token) { pos += 1;
    rhs = sub()?; lhs = format!("({lhs} {op} {rhs})"); }] *)
Fixpoint binary_loop (op_of : option Token -> option string) (sub : P string) (lhs : string)
    (fuel : nat) : P string :=
  match fuel with
  | O => out_of_fuel
  | S fuel =>
      t ← peek;
      match op_of t with
      | None => mret lhs
      | Some op =>
          _ ← advance 1;
          rhs ← sub;
          binary_loop op_of sub (fmt ["("; lhs; " "; op; " "; rhs; ")"]) fuel
      end
  end.

Definition or_op (t : option Token) : option string :=
  if decide (t = Some (Ident "or")) then Some "OR" else None.
Definition and_op (t : option Token) : option string :=
  if decide (t = Some (Ident "and")) then Some "AND" else None.
Definition additive_op (t : option Token) : option string :=
  match t with Some Plus => Some "+" | Some Minus => Some "-" | _ => None end.
Definition multiplicative_op (t : option Token) : option string :=
  match t with Some Star => Some "*" | Some Slash => Some "/" | Some Percent => Some "%" | _ => None end.

(** The operators of [parse_comparison]. *)
Inductive cmp_op := KQL_CONTAINS | KQL_STARTSWITH | KQL_ENDSWITH | KQL_HAS | SqlOp (op : string).

Definition comparison_op (t : option Token) : option cmp_op :=
  match t with
  | Some Eq => Some (SqlOp "=")
  | Some Ne => Some (SqlOp "<>")
  | Some Lt => Some (SqlOp "<")
  | Some Le => Some (SqlOp "<=")
  | Some Gt => Some (SqlOp ">")
  | Some Ge => Some (SqlOp ">=")
  | Some (Ident s) =>
      if decide (s = "contains") then Some KQL_CONTAINS
      else if decide (s = "startswith") then Some KQL_STARTSWITH
      else if decide (s = "endswith") then Some KQL_ENDSWITH
      else if decide (s = "has") then Some KQL_HAS
      else None
  | _ => None
  end.

Definition comparison_sql (op : cmp_op) (lhs rhs : string) : string :=
  match op with
  | KQL_CONTAINS => fmt ["("; lhs; " LIKE "; add_like_both rhs; ")"]
  | KQL_STARTSWITH => fmt ["("; lhs; " LIKE "; add_like_right rhs; ")"]
  | KQL_ENDSWITH => fmt ["("; lhs; " LIKE "; add_like_left rhs; ")"]
  | KQL_HAS => fmt ["("; lhs; " LIKE "; add_like_both rhs; ")"]
  | SqlOp sql_op => fmt ["("; lhs; " "; sql_op; " "; rhs; ")"]
  end.

(** The function table of [parse_func_call]. *)
Definition func_sql (name : string) (args : list string) : option string :=
  let named n := bool_decide (name = n) in
  match args with
  | [] =>
      if named "now" then Some "now()"
      else if named "strcat" then Some (fmt ["concat("; join ", " args; ")"])
      else if named "count" then Some "count(*)"
      else None
  | [x] =>
      if named "ago" then Some (fmt ["(now() - "; x; ")"])
      else if named "startofhour" then Some (fmt ["date_trunc('hour', "; x; ")"])
      else if named "startofday" then Some (fmt ["date_trunc('day', "; x; ")"])
      else if named "startofmonth" then Some (fmt ["date_trunc('month', "; x; ")"])
      else if named "datetime" then Some (fmt ["CAST("; x; " AS TIMESTAMP)"])
      else if named "strcat" then Some (fmt ["concat("; join ", " args; ")"])
      else if named "tolower" then Some (fmt ["lower("; x; ")"])
      else if named "toupper" then Some (fmt ["upper("; x; ")"])
      else if named "strlen" then Some (fmt ["char_length("; x; ")"])
      else if named "isnull" then Some (fmt ["("; x; " IS NULL)"])
      else if named "isnotnull" then Some (fmt ["("; x; " IS NOT NULL)"])
      else if named "count" then Some (fmt ["count("; x; ")"])
      else if named "sum" then Some (fmt ["sum("; x; ")"])
      else if named "avg" then Some (fmt ["avg("; x; ")"])
      else if named "min" then Some (fmt ["min("; x; ")"])
      else if named "max" then Some (fmt ["max("; x; ")"])
      else if named "make_list" then Some (fmt ["array_agg("; x; ")"])
      else if named "dcount" then Some (fmt ["count(DISTINCT "; x; ")"])
      else None
  | [x; y] =>
      if named "bin" then Some (fmt ["date_bin("; y; ", "; x; ", TIMESTAMP '1970-01-01 00:00:00')"])
      else if named "strcat" then Some (fmt ["concat("; join ", " args; ")"])
      else if named "dcountif" then
        Some (fmt ["count(DISTINCT CASE WHEN "; y; " THEN "; x; " ELSE NULL END)"])
      else None
  | [x; y; z] =>
      if named "strcat" then Some (fmt ["concat("; join ", " args; ")"])
      else if named "iff" then Some (fmt ["(CASE WHEN "; x; " THEN "; y; " ELSE "; z; " END)"])
      else None
  | _ => if named "strcat" then Some (fmt ["concat("; join ", " args; ")"]) else None
  end.

Section levels.
Variable parse_expr : P string.

Definition parse_func_call (name : string) : P string :=
  closed ← eat RParen;
  args ← (if closed : bool then mret []
          else args ← comma_list parse_expr; _ ← expect RParen "`)`"; mret args);
  match func_sql name args with
  | Some sql => mret sql
  | None => perr "unsupported function: {other}/{}" [MStr name; MNum (N.of_nat (List.length args))]
  end.

(** A plain column reference or a keyword literal. *)
Definition column_sql (name : string) : string :=
  if decide (name = "true") then "TRUE"
  else if decide (name = "false") then "FALSE"
  else if decide (name = "null") then "NULL"
  else quote_ident name.

Definition parse_atom : P string :=
  t ← bump;
  match t with
  | Int n => mret (show_Z n)
  | Float f => mret (show_f64 f)
  | Str s => mret (sql_quote s)
  | Duration d => duration_to_sql_interval d
  | LParen =>
      inner ← parse_expr;
      _ ← expect RParen "`)`";
      mret (fmt ["("; inner; ")"])
  | Star => mret "*"
  | Ident name =>
      call ← eat LParen;
      if call : bool then parse_func_call name
      else
        t ← peek;
        if decide (t = Some Dot) then
          perr "dotted path `{name}...` not yet supported (dynamic columns land with format-v1)" [MStr name]
        else mret (column_sql name)
  | other => perr "unexpected token in expression: {other:?}" [MTok other]
  end.

Fixpoint parse_unary_loop (fuel : nat) : P string :=
  match fuel with
  | O => out_of_fuel
  | S fuel =>
      neg ← eat Minus;
      if neg : bool then
        inner ← parse_unary_loop fuel;
        mret (fmt ["(-"; inner; ")"])
      else parse_atom
  end.
Definition parse_unary : P string := with_fuel parse_unary_loop.

Definition parse_multiplicative : P string :=
  lhs ← parse_unary;
  with_fuel (binary_loop multiplicative_op parse_unary lhs).

Definition parse_additive : P string :=
  lhs ← parse_multiplicative;
  with_fuel (binary_loop additive_op parse_multiplicative lhs).

(** [s.eq_ignore_ascii_case("in")] *)
Definition peeks_in (t : option Token) : bool :=
  match t with Some (Ident s) => bool_decide (lowercase s = "in") | _ => false end.

Definition parse_comparison : P string :=
  lhs ← parse_additive;
  t ← peek;
  if decide (t = Some (Ident "between")) then
    _ ← advance 1;
    _ ← expect LParen "`(`";
    low ← parse_additive;
    _ ← expect DotDot "`..`";
    high ← parse_additive;
    _ ← expect RParen "`)`";
    mret (fmt ["(("; lhs; " >= "; low; ") AND ("; lhs; " <= "; high; "))"])
  else if peeks_in t then
    _ ← advance 1;
    _ ← expect LParen "`(` after `in`";
    values ← comma_list parse_additive;
    _ ← expect RParen "`)`";
    mret (fmt ["("; lhs; " IN ("; join ", " values; "))"])
  else
    match comparison_op t with
    | None => mret lhs
    | Some op =>
        _ ← advance 1;
        rhs ← parse_additive;
        mret (comparison_sql op lhs rhs)
    end.

Fixpoint parse_not_loop (fuel : nat) : P string :=
  match fuel with
  | O => out_of_fuel
  | S fuel =>
      b ← peek_ident_eq "not";
      if b : bool then
        _ ← advance 1;
        inner ← parse_not_loop fuel;
        mret (fmt ["(NOT "; inner; ")"])
      else parse_comparison
  end.
Definition parse_not : P string := with_fuel parse_not_loop.

Definition parse_and : P string :=
  lhs ← parse_not;
  with_fuel (binary_loop and_op parse_not lhs).

Definition parse_or : P string :=
  lhs ← parse_and;
  with_fuel (binary_loop or_op parse_and lhs).
End levels.

Fixpoint parse_expr_fuel (fuel : nat) : P string :=
  match fuel with
  | O => out_of_fuel
  | S fuel => parse_or (parse_expr_fuel fuel)
  end.
Definition parse_expr : P string := with_fuel parse_expr_fuel.

(** [try_alias]: [name = expr], by two tokens of lookahead. *)
Definition try_alias : P (option string) := fun p =>
  match nth_error (toks p) (pos p), nth_error (toks p) (pos p + 1) with
  | Some (Ident a), Some Assign => (_ ← advance 2; mret (Some (quote_ident a))) p
  | _, _ => Ret (None, p)
  end.
