(* ===== verification/KqlGraph.v ===== *)
(** * KQL graph operators (pensieve-kql/src/parser.rs)

    [graph-traverse], [graph-var-length], [graph-var-match],
    [graph-shortest-path] and [make-graph]: each parses its arguments and
    pushes the CTEs its result reads from. *)

From stdpp Require Import base gmap strings list.
From Stdlib Require Import NArith ZArith Lia Ascii.
From S2P Require Import Prelude Bytes F64 KqlLexer KqlState KqlParser KqlExpr.

Local Open Scope string_scope.

Inductive GraphDirection := Forward | Backward | Both.

#[export] Instance GraphDirection_eq_dec : EqDecision GraphDirection.
Proof. solve_decision. Defined.

(** The double-quoted column of an edge's type: e."type". *)
Definition type_col : string := fmt [dq; "type"; dq].

Definition build_recursive_step (_table src_col dst_col : string) (dir : GraphDirection) : string :=
  match dir with
  | Forward => fmt ["e."; dst_col; ", t.depth + 1"]
  | Backward => fmt ["e."; src_col; ", t.depth + 1"]
  | Both => fmt ["CASE WHEN e."; src_col; " = t.node THEN e."; dst_col; " ELSE e."; src_col;
                 " END, t.depth + 1"]
  end.

Definition build_recursive_step_with_src (_table src_col dst_col : string) (dir : GraphDirection)
    : string :=
  match dir with
  | Forward => fmt ["e."; dst_col; ", t.depth + 1, t.node"]
  | Backward => fmt ["e."; src_col; ", t.depth + 1, t.node"]
  | Both => fmt ["CASE WHEN e."; src_col; " = t.node THEN e."; dst_col; " ELSE e."; src_col;
                 " END, t.depth + 1, t.node"]
  end.

(** The join condition of a step against the frontier aliased [t]. *)
Definition step_join_cond (t src_col dst_col : string) (dir : GraphDirection) : string :=
  match dir with
  | Forward => fmt ["e."; src_col; " = "; t; ".node"]
  | Backward => fmt ["e."; dst_col; " = "; t; ".node"]
  | Both => fmt ["(e."; src_col; " = "; t; ".node OR e."; dst_col; " = "; t; ".node)"]
  end.

(** The next node of a step against the frontier aliased [v]. *)
Definition next_node_sql (src_col dst_col : string) (dir : GraphDirection) : string :=
  match dir with
  | Forward => fmt ["e."; dst_col]
  | Backward => fmt ["e."; src_col]
  | Both => fmt ["CASE WHEN e."; src_col; " = v.node THEN e."; dst_col; " ELSE e."; src_col; " END"]
  end.

(** [direction forward|backward|both], forward when absent. *)
Definition parse_direction : P GraphDirection :=
  b ← peek_ident_eq "direction";
  if b : bool then
    _ ← advance 1;
    t ← bump;
    match t with
    | Ident s =>
        if decide (s = "forward") then mret Forward
        else if decide (s = "backward") then mret Backward
        else if decide (s = "both") then mret Both
        else perr "unknown direction: {other}" [MStr s]
    | other => perr "expected direction keyword, got {other:?}" [MTok other]
    end
  else mret Forward.

(** [edge-type <literal>], as the filter it adds to the recursive step. *)
Definition parse_type_filter : P string :=
  b ← peek_ident_eq "edge-type";
  if b : bool then
    _ ← advance 1;
    v ← parse_scalar_literal;
    mret (fmt [" AND e."; type_col; " = "; v])
  else mret "".

Definition parse_graph_preamble : P (string * string * N * GraphDirection) :=
  _ ← expect_ident_eq "from";
  src_col ← bump_ident "expected `from` column name, got {other:?}";
  let src_col := quote_ident src_col in
  _ ← expect_ident_eq "to";
  dst_col ← bump_ident "expected `to` column name, got {other:?}";
  let dst_col := quote_ident dst_col in
  _ ← expect_ident_eq "max-hops";
  max_hops ← bump_nonneg "expected positive integer after `max-hops`, got {other:?}";
  direction ← parse_direction;
  mret (src_col, dst_col, max_hops, direction).

Definition seed_values (seeds : list string) : string :=
  join ", " (map (fun s => fmt ["(CAST("; s; " AS VARCHAR))"]) seeds).

(** ** graph-traverse *)

Definition traverse_anchor (seeds : list string) : string :=
  match seeds with
  | [s] => fmt ["SELECT CAST("; s; " AS VARCHAR) AS node, 0 AS depth, CAST("; s;
                " AS VARCHAR) AS path_src"]
  | _ => fmt ["SELECT node, 0 AS depth, node AS path_src FROM (VALUES "; seed_values seeds;
              ") AS _seeds(node)"]
  end.

Definition op_graph_traverse : P unit :=
  _ ← expect_ident_eq "source";
  seeds ← parse_source_seeds;
  '(src_col, dst_col, max_hops, direction) ← parse_graph_preamble;
  type_filter ← parse_type_filter;
  st ← get_state;
  let edge_table := table st in
  let step_sql := build_recursive_step_with_src edge_table src_col dst_col direction in
  let anchor := traverse_anchor seeds in
  let body := fmt [anchor; " UNION ALL SELECT "; step_sql; " FROM _gt t JOIN "; edge_table;
                   " e ON "; step_join_cond "t" src_col dst_col direction;
                   " WHERE t.depth < "; show_N max_hops; type_filter] in
  _ ← update_state (push_cte ("_gt(node, depth, path_src)", body, true));
  let min_body := "SELECT node, path_src, MIN(depth) AS depth FROM _gt GROUP BY node, path_src" in
  _ ← update_state (push_cte ("_gt_min", min_body, false));
  let result_body := fmt ["SELECT e.*, m.depth FROM _gt_min m JOIN "; edge_table; " e ON e.";
                          src_col; " = m.path_src AND e."; dst_col; " = m.node"] in
  _ ← update_state (push_cte ("_gt_result", result_body, false));
  update_state (set_table "_gt_result").

(** ** graph-var-length *)

(** The bounds check shared by the two variable-length operators. *)
Definition check_hops (op : string) (min_hops max_hops : N) : P unit :=
  if (max_hops =? 0)%N then perr "{op}: max-hops must be ≥ 1" [MStr op]
  else if (max_hops <? min_hops)%N then
    perr "{op}: min-hops ({min_hops}) must be ≤ max-hops ({max_hops})" [MStr op; MNum min_hops; MNum max_hops]
  else mret tt.

Definition parse_min_max_hops (op : string) : P (N * N) :=
  _ ← expect_ident_eq "min-hops";
  min_hops ← bump_nonneg "expected non-negative integer after `min-hops`, got {other:?}";
  _ ← expect_ident_eq "max-hops";
  max_hops ← bump_nonneg "expected non-negative integer after `max-hops`, got {other:?}";
  _ ← check_hops op min_hops max_hops;
  mret (min_hops, max_hops).

Definition var_length_anchor (seeds : list string) : string :=
  match seeds with
  | [s] => fmt ["SELECT CAST("; s; " AS VARCHAR) AS origin, CAST("; s;
                " AS VARCHAR) AS node, 0 AS depth"]
  | _ => fmt ["SELECT node AS origin, node, 0 AS depth FROM (VALUES "; seed_values seeds;
              ") AS _seeds(node)"]
  end.

(** The recursive body of the variable-length walk, over the CTE [cte]. *)
Definition var_length_body (anchor cte edge_table src_col dst_col : string)
    (direction : GraphDirection) (max_hops : N) (type_filter : string) : string :=
  fmt [anchor; " UNION ALL SELECT v.origin, "; next_node_sql src_col dst_col direction;
       ", v.depth + 1 FROM "; cte; " v JOIN "; edge_table; " e ON ";
       step_join_cond "v" src_col dst_col direction; " WHERE v.depth < "; show_N max_hops; type_filter].

Definition op_graph_var_length : P unit :=
  _ ← expect_ident_eq "source";
  seeds ← parse_source_seeds;
  _ ← expect_ident_eq "from";
  src_col ← bump_ident "expected `from` column name, got {other:?}";
  let src_col := quote_ident src_col in
  _ ← expect_ident_eq "to";
  dst_col ← bump_ident "expected `to` column name, got {other:?}";
  let dst_col := quote_ident dst_col in
  '(min_hops, max_hops) ← parse_min_max_hops "graph-var-length";
  direction ← parse_direction;
  type_filter ← parse_type_filter;
  st ← get_state;
  let edge_table := table st in
  let anchor := var_length_anchor seeds in
  let body := var_length_body anchor "_vl" edge_table src_col dst_col direction max_hops type_filter in
  _ ← update_state (push_cte ("_vl(origin, node, depth)", body, true));
  let min_body := "SELECT origin, node, MIN(depth) AS depth FROM _vl GROUP BY origin, node" in
  _ ← update_state (push_cte ("_vl_min", min_body, false));
  let result_body := fmt ["SELECT origin AS src, node AS dst, depth FROM _vl_min WHERE depth >= ";
                          show_N min_hops; " AND depth <= "; show_N max_hops] in
  _ ← update_state (push_cte ("_vl_result", result_body, false));
  update_state (set_table "_vl_result").

(** ** graph-var-match *)

(** The type of a relationship pattern: [':' T]. *)
Definition parse_edge_type : P (option string) :=
  b ← eat Colon;
  if b : bool then t ← expect_ident; mret (Some t) else mret None.

(** [( name )] *)
Definition parse_node_pattern : P string :=
  _ ← expect LParen "(";
  v ← expect_ident;
  _ ← expect RParen ")";
  mret v.

(** [\[ r :T \] -> ( b )], after the dash. *)
Definition parse_hop_pattern : P (string * option string * string) :=
  _ ← expect LBracket "[";
  e ← expect_ident;
  edge_type ← parse_edge_type;
  _ ← expect RBracket "]";
  _ ← expect RightArrow "->";
  b ← parse_node_pattern;
  mret (e, edge_type, b).

(** One item of the [project] list of a pattern operator, [var.col \[as alias\]]:
    [alias_of] maps the pattern variable to its table alias. *)
Definition parse_project_item (alias_of : string -> P string) : P string :=
  var ← expect_ident;
  _ ← expect Dot ".";
  col ← expect_ident;
  alias_tbl ← alias_of var;
  b ← eat_ident_eq "as";
  out_alias ← (if b : bool then expect_ident else mret (fmt [var; "_"; col]));
  mret (fmt [alias_tbl; "."; quote_ident col; " AS "; quote_ident out_alias]).

Definition parse_project_list (op : string) (alias_of : string -> P string) : P (list string) :=
  _ ← expect_ident_eq "project";
  select_items ← comma_list (parse_project_item alias_of);
  if is_empty select_items then perr "{op}: project must list at least one column" [MStr op]
  else mret select_items.

Definition var_match_alias (a_var rel_var b_var var : string) : P string :=
  if decide (var = a_var) then mret "a"
  else if decide (var = b_var) then mret "b"
  else if decide (var = rel_var) then
    perr "graph-var-match project: relationship `{rel_var}` has no columns in a variable-length match" [MStr rel_var]
  else perr "graph-var-match project: unknown variable `{var}`" [MStr var].

Definition op_graph_var_match : P unit :=
  st ← get_state;
  match graph_def st with
  | None => perr "graph-var-match requires a preceding make-graph" []
  | Some def =>
      a_var ← parse_node_pattern;
      _ ← expect Minus "-";
      '(rel_var, edge_type, b_var) ← parse_hop_pattern;
      '(min_hops, max_hops) ← parse_min_max_hops "graph-var-match";
      direction ← parse_direction;
      select_items ← parse_project_list "graph-var-match" (var_match_alias a_var rel_var b_var);
      let edges_tbl := edge_table def in
      let nodes_tbl := node_table def in
      let src := quote_ident (src_col def) in
      let dst := quote_ident (dst_col def) in
      let id := quote_ident (id_col def) in
      let type_filter := match edge_type with
                         | Some t => fmt [" AND e."; type_col; " = "; sql_quote t]
                         | None => ""
                         end in
      let anchor := fmt ["SELECT CAST("; id; " AS VARCHAR) AS origin, CAST("; id;
                         " AS VARCHAR) AS node, 0 AS depth FROM "; nodes_tbl] in
      let body := var_length_body anchor "_vm" edges_tbl src dst direction max_hops type_filter in
      _ ← update_state (push_cte ("_vm(origin, node, depth)", body, true));
      let min_body := "SELECT origin, node, MIN(depth) AS depth FROM _vm GROUP BY origin, node" in
      _ ← update_state (push_cte ("_vm_min", min_body, false));
      let result_body :=
        fmt ["SELECT "; join ", " select_items; " FROM _vm_min m JOIN "; nodes_tbl;
             " a ON m.origin = a."; id; " JOIN "; nodes_tbl; " b ON m.node = b."; id;
             " WHERE m.depth >= "; show_N min_hops; " AND m.depth <= "; show_N max_hops] in
      _ ← update_state (push_cte ("_vm_result", result_body, false));
      update_state (set_table "_vm_result")
  end.

(** ** graph-shortest-path *)

Definition op_graph_shortest_path : P unit :=
  _ ← expect_ident_eq "source";
  source_sql ← parse_scalar_literal;
  _ ← expect_ident_eq "target";
  target_sql ← parse_scalar_literal;
  '(src_col, dst_col, max_hops, direction) ← parse_graph_preamble;
  st ← get_state;
  let edge_table := table st in
  let body := fmt ["SELECT CAST("; source_sql; " AS VARCHAR) AS node, 0 AS depth UNION ALL SELECT ";
                   build_recursive_step edge_table src_col dst_col direction;
                   " FROM _sp t JOIN "; edge_table; " e ON ";
                   step_join_cond "t" src_col dst_col direction;
                   " WHERE t.depth < "; show_N max_hops] in
  _ ← update_state (push_cte ("_sp(node, depth)", body, true));
  let hits_body := fmt ["SELECT depth FROM _sp WHERE node = CAST("; target_sql; " AS VARCHAR)"] in
  _ ← update_state (push_cte ("_sp_hits", hits_body, false));
  let result_body := "SELECT MIN(depth) AS depth, COUNT(*) > 0 AS found FROM _sp_hits" in
  _ ← update_state (push_cte ("_sp_result", result_body, false));
  update_state (set_table "_sp_result").

(** ** make-graph *)

Definition op_make_graph : P unit :=
  src_col ← expect_ident;
  b ← eat Arrow;
  if negb b then perr "make-graph: expected `-->` between src and dst" []
  else
    dst_col ← expect_ident;
    _ ← expect_ident_eq "with";
    node_table ← expect_ident;
    _ ← expect_ident_eq "on";
    id_col ← expect_ident;
    update_state (fun st => set_graph_def
      {| edge_table := table st; src_col := src_col; dst_col := dst_col;
         node_table := node_table; id_col := id_col |} st).

(** * [graph-match] (pensieve-kql/src/parser.rs)

    The linear lowering of a single pattern segment and
    [emit_general_graph_match] for comma-separated (possibly optional)
    segments. *)

(** [iter().position(f)] *)
Definition position {A} (f : A -> bool) (l : list A) : option nat :=
  fst <$> list_find (fun x => f x = true) l.

(** The hops of a segment, up to the first one that no dash follows.  [nodes]
    and [edges] are what was parsed so far. *)
Fixpoint hops_loop (nodes : list string) (edges : list (string * option string)) (fuel : nat)
    : P (list string * list (string * option string)) :=
  match fuel with
  | O => out_of_fuel
  | S fuel =>
      '(e, edge_type, n) ← parse_hop_pattern;
      let nodes := (nodes ++ [n])%list in
      let edges := (edges ++ [(e, edge_type)])%list in
      more ← eat Minus;
      if more : bool then hops_loop nodes edges fuel else mret (nodes, edges)
  end.

(** ** A single segment *)

Definition unknown_variable (var : string) : P string :=
  perr "graph-match project: unknown variable `{var}`" [MStr var].

(** The table alias of a pattern variable in a single segment. *)
Definition linear_alias (nodes : list string) (edges : list (string * option string)) (var : string)
    : P string :=
  if decide (List.length edges = 1) then
    match nodes, edges with
    | n0 :: n1 :: _, (e0, _) :: _ =>
        if decide (var = n0) then mret "a"
        else if decide (var = e0) then mret "e"
        else if decide (var = n1) then mret "b"
        else unknown_variable var
    | _, _ => ppanic
    end
  else match position (fun n => bool_decide (n = var)) nodes with
       | Some i => mret (fmt ["n"; show_nat i])
       | None =>
           match position (fun e : string * option string => bool_decide (e.1 = var)) edges with
           | Some i => mret (fmt ["ed"; show_nat i])
           | None => unknown_variable var
           end
       end.

(** [wheres]: the type filters of the edges, under the alias prefix [pre]. *)
Definition type_filters (pre : string) (edges : list (nat * option string)) : list string :=
  omap (fun '(i, t) =>
          t ← t; Some (fmt [pre; show_nat i; "."; type_col; " = "; sql_quote t])) edges.

Definition where_sql (wheres : list string) : string :=
  if is_empty wheres then "" else fmt [" WHERE "; join " AND " wheres].

Definition enumerate {A} (l : list A) : list (nat * A) := zip (seq 0 (List.length l)) l.

(** The FROM clause of a chain of [n] hops, joined left to right. *)
Definition chain_from (edges_tbl nodes_tbl src dst id : string) (n : nat) : string :=
  foldl (fun from i =>
           let j := show_nat (i + 1) in
           let i := show_nat i in
           fmt [from; " JOIN "; edges_tbl; " ed"; i; " ON ed"; i; "."; src; " = n"; i; "."; id;
                " JOIN "; nodes_tbl; " n"; j; " ON ed"; i; "."; dst; " = n"; j; "."; id])
        (fmt [edges_tbl; " ed0 JOIN "; nodes_tbl; " n0 ON ed0."; src; " = n0."; id;
              " JOIN "; nodes_tbl; " n1 ON ed0."; dst; " = n1."; id])
        (seq 1 (n - 1)).

Definition linear_body (def : GraphDef) (sel : string) (edges : list (string * option string))
    : string :=
  let edges_tbl := edge_table def in
  let nodes_tbl := node_table def in
  let src := quote_ident (src_col def) in
  let dst := quote_ident (dst_col def) in
  let id := quote_ident (id_col def) in
  match edges with
  | [(_, t)] =>
      let where_clause := match t with
                          | Some t => fmt [" WHERE e."; type_col; " = "; sql_quote t]
                          | None => ""
                          end in
      fmt ["SELECT "; sel; " FROM "; edges_tbl; " e JOIN "; nodes_tbl; " a ON e."; src; " = a."; id;
           " JOIN "; nodes_tbl; " b ON e."; dst; " = b."; id; where_clause]
  | _ =>
      let from := chain_from edges_tbl nodes_tbl src dst id (List.length edges) in
      fmt ["SELECT "; sel; " FROM "; from; where_sql (type_filters "ed" (enumerate (map snd edges)))]
  end.

(** ** Several segments *)

Record Edge := {
  e_var : string;
  e_type : option string;
  e_src : string;
  e_dst : string;
  e_optional : bool;
}.

Definition push_node (nv : list string) (v : string) : list string :=
  if decide (v ∈ nv) then nv else (nv ++ [v])%list.

(** The edges of the first segment: [nodes\[i\]] to [nodes\[i+1\]]. *)
Fixpoint first_edges (nodes : list string) (edges : list (string * option string)) {struct edges} : option (list Edge) :=
  match edges with
  | [] => Some []
  | (ev, et) :: edges =>
      match nodes with
      | s :: ((d :: _) as nodes) =>
          l ← first_edges nodes edges;
          Some ({| e_var := ev; e_type := et; e_src := s; e_dst := d; e_optional := false |} :: l)
      | _ => None
      end
  end.

(** The hops of a further segment. *)
Fixpoint segment_loop (prev : string) (seg_optional : bool) (node_vars : list string)
    (edge_list : list Edge) (fuel : nat) : P (list string * list Edge) :=
  match fuel with
  | O => out_of_fuel
  | S fuel =>
      '(ev, et, nxt) ← parse_hop_pattern;
      let node_vars := push_node node_vars nxt in
      let edge_list := (edge_list ++ [{| e_var := ev; e_type := et; e_src := prev; e_dst := nxt;
                                         e_optional := seg_optional |}])%list in
      more ← eat Minus;
      if more : bool then segment_loop nxt seg_optional node_vars edge_list fuel
      else mret (node_vars, edge_list)
  end.

(** [while self.eat(&Token::Comma) { .. }] over the further segments. *)
Fixpoint segments_loop (node_vars : list string) (edge_list : list Edge) (fuel : nat)
    : P (list string * list Edge) :=
  match fuel with
  | O => out_of_fuel
  | S fuel =>
      b ← eat Comma;
      if b : bool then
        seg_optional ← eat_ident_eq "OPTIONAL";
        prev ← parse_node_pattern;
        let node_vars := push_node node_vars prev in
        _ ← expect Minus "-";
        '(node_vars, edge_list) ← with_fuel (segment_loop prev seg_optional node_vars edge_list);
        segments_loop node_vars edge_list fuel
      else mret (node_vars, edge_list)
  end.

Definition npos (node_vars : list string) (v : string) : option nat :=
  position (fun x => bool_decide (x = v)) node_vars.
Definition epos (edge_list : list Edge) (v : string) : option nat :=
  position (fun e => bool_decide (e_var e = v)) edge_list.

Definition general_alias (node_vars : list string) (edge_list : list Edge) (var : string) : P string :=
  match npos node_vars var with
  | Some i => mret (fmt ["gn"; show_nat i])
  | None =>
      match epos edge_list var with
      | Some i => mret (fmt ["ge"; show_nat i])
      | None => unknown_variable var
      end
  end.

Section joins.
Context (edges_tbl nodes_tbl src dst id : string).
Variable node_vars : list string.

(** The join of edge number [ei] against the aliases joined so far. *)
Definition join_edge (x : nat * Edge) (acc : list nat * string) : outcome ParseError (list nat * string) :=
  let '(ei, e) := x in
  let '(joined, from) := acc in
  si ← or_panic (npos node_vars (e_src e));
  di ← or_panic (npos node_vars (e_dst e));
  let gs := show_nat si in
  let gd := show_nat di in
  if decide (ei = 0) then
    Ret ((if decide (si = di) then [si] else [si; di]),
         fmt [edges_tbl; " ge0 JOIN "; nodes_tbl; " gn"; gs; " ON ge0."; src; " = gn"; gs; "."; id;
              " JOIN "; nodes_tbl; " gn"; gd; " ON ge0."; dst; " = gn"; gd; "."; id])
  else
    let ge := show_nat ei in
    let jk := if e_optional e then "LEFT JOIN" else "JOIN" in
    let conds :=
      ((if decide (si ∈ joined) then [fmt ["ge"; ge; "."; src; " = gn"; gs; "."; id]] else [])
       ++ (if decide (di ∈ joined) then [fmt ["ge"; ge; "."; dst; " = gn"; gd; "."; id]] else [])
       ++ (if e_optional e then
             match e_type e with
             | Some t => [fmt ["ge"; ge; "."; type_col; " = "; sql_quote t]]
             | None => []
             end
           else []))%list in
    let from :=
      if is_empty conds then
        if e_optional e then fmt [from; " LEFT JOIN "; edges_tbl; " ge"; ge; " ON true"]
        else fmt [from; " CROSS JOIN "; edges_tbl; " ge"; ge]
      else fmt [from; " "; jk; " "; edges_tbl; " ge"; ge; " ON "; join " AND " conds] in
    let '(joined, from) :=
      if decide (si ∈ joined) then (joined, from)
      else (si :: joined, fmt [from; " "; jk; " "; nodes_tbl; " gn"; gs; " ON ge"; ge; "."; src;
                               " = gn"; gs; "."; id]) in
    let '(joined, from) :=
      if decide (di ∈ joined) then (joined, from)
      else (di :: joined, fmt [from; " "; jk; " "; nodes_tbl; " gn"; gd; " ON ge"; ge; "."; dst;
                               " = gn"; gd; "."; id]) in
    Ret (joined, from).

Definition general_from (edge_list : list Edge) : outcome ParseError string :=
  '(_, from) ← for_each join_edge (enumerate edge_list) ([], "");
  Ret from.
End joins.

(** The type filters of the mandatory edges. *)
Definition general_wheres (edge_list : list Edge) : list string :=
  type_filters "ge" (map (fun '(i, e) => (i, if e_optional e then None else e_type e)) (enumerate edge_list)).

Definition lift {A} (o : outcome ParseError A) : P A := fun p =>
  match o with
  | Ret a => Ret (a, p)
  | Fail e => Fail e
  | Panic => Panic
  | OutOfFuel => OutOfFuel
  end.

Definition emit_general_graph_match (def : GraphDef) (nodes : list string)
    (edges : list (string * option string)) : P unit :=
  let node_vars := foldl push_node [] nodes in
  edge_list ← lift (or_panic (first_edges nodes edges));
  '(node_vars, edge_list) ← with_fuel (segments_loop node_vars edge_list);
  select_items ← parse_project_list "graph-match" (general_alias node_vars edge_list);
  let sel := join ", " select_items in
  let src := quote_ident (src_col def) in
  let dst := quote_ident (dst_col def) in
  let id := quote_ident (id_col def) in
  from ← lift (general_from (edge_table def) (node_table def) src dst id node_vars edge_list);
  let body := fmt ["SELECT "; sel; " FROM "; from; where_sql (general_wheres edge_list)] in
  _ ← update_state (push_cte ("_gm_result", body, false));
  update_state (set_table "_gm_result").

Definition op_graph_match : P unit :=
  st ← get_state;
  match graph_def st with
  | None => perr "graph-match requires a preceding make-graph" []
  | Some def =>
      n0 ← parse_node_pattern;
      _ ← expect Minus "-";
      '(nodes, edges) ← with_fuel (hops_loop [n0] []);
      t ← peek;
      if decide (t = Some Comma) then emit_general_graph_match def nodes edges
      else
        select_items ← parse_project_list "graph-match" (linear_alias nodes edges);
        let body := linear_body def (join ", " select_items) edges in
        _ ← update_state (push_cte ("_gm_result", body, false));
        update_state (set_table "_gm_result")
  end.
