(* ===== verification/KqlQuery.v ===== *)
(** * KQL pipelines (pensieve-kql/src/parser.rs)

    The pipeline operators, [union], [parse_query] and the entry points
    [kql_to_sql] and [kql_to_sql_with_schemas]. *)

From stdpp Require Import base gmap strings list.
From Stdlib Require Import NArith ZArith Lia Ascii.
From S2P Require Import Prelude Bytes F64 KqlLexer KqlState KqlParser KqlExpr KqlGraph.

Local Open Scope string_scope.

(** ** Operators *)

(** [if self.state.aggregated { self.state.rebase_aggregation(); }] *)
Definition rebase_if_aggregated : P unit :=
  update_state (fun st => if aggregated st then rebase_aggregation st else st).

Definition op_where : P unit :=
  _ ← rebase_if_aggregated;
  e ← parse_expr;
  update_state (push_where e).

Definition op_project (away : bool) : P unit :=
  _ ← rebase_if_aggregated;
  cols ← comma_list (s ← bump_ident "expected column name after project, got {other:?}";
                     mret (quote_ident s));
  if away then update_state (extend_exclude cols) else update_state (set_select cols).

Definition op_extend : P unit :=
  _ ← comma_list (name ← bump_ident "expected name in extend, got {other:?}";
                  _ ← expect Assign "`=`";
                  expr ← parse_expr;
                  update_state (push_extend (quote_ident name, expr)));
  mret tt.

Definition summarize_item : P unit :=
  alias_opt ← try_alias;
  agg_expr ← parse_expr;
  let item := match alias_opt with
              | Some a => fmt ["("; agg_expr; ") AS "; a]
              | None => fmt ["("; agg_expr; ") AS "; implicit_agg_alias agg_expr]
              end in
  update_state (push_aggregate item).

Definition op_summarize : P unit :=
  _ ← comma_list summarize_item;
  b ← eat_ident_eq "by";
  _ ← (if b : bool then
         _ ← comma_list (key ← parse_expr; update_state (push_group_by key)); mret tt
       else mret tt);
  update_state set_aggregated.

Definition op_take : P unit :=
  n ← bump_nonneg "`take` expects integer, got {other:?}";
  update_state (set_limit n).

(** The optional [asc] or [desc]; KQL defaults to [desc]. *)
Definition parse_desc : P bool :=
  t ← peek;
  if decide (t = Some (Ident "asc")) then _ ← advance 1; mret false
  else if decide (t = Some (Ident "desc")) then _ ← advance 1; mret true
  else mret true.

Definition op_sort : P unit :=
  _ ← expect_ident_eq "by";
  _ ← comma_list (col_expr ← parse_expr;
                  desc ← parse_desc;
                  update_state (push_order_by (col_expr, desc)));
  mret tt.

Definition op_top : P unit :=
  n ← bump_nonneg "`top` expects integer, got {other:?}";
  _ ← expect_ident_eq "by";
  col_expr ← parse_expr;
  desc ← parse_desc;
  _ ← update_state (push_order_by (col_expr, desc));
  update_state (set_limit n).

Definition count_item : string := fmt ["count(*) AS "; dq; "Count"; dq].

Definition op_count : P unit := update_state (push_aggregate count_item).

(** The columns of [distinct]: identifiers separated by commas, maybe none. *)
Fixpoint distinct_loop (cols : list string) (fuel : nat) : P (list string) :=
  match fuel with
  | O => out_of_fuel
  | S fuel =>
      t ← peek;
      match t with
      | Some (Ident s) =>
          let cols := (cols ++ [quote_ident s])%list in
          _ ← advance 1;
          more ← eat Comma;
          if more : bool then distinct_loop cols fuel else mret cols
      | _ => mret cols
      end
  end.

Definition op_distinct : P unit :=
  _ ← update_state set_distinct;
  cols ← with_fuel (distinct_loop []);
  if is_empty cols then mret tt else update_state (set_select cols).

Definition parse_operator : P unit :=
  op ← bump_ident "expected operator, got {other:?}";
  let named n := bool_decide (op = n) in
  if named "where" then op_where
  else if named "project" then op_project false
  else if named "project-away" then op_project true
  else if named "extend" then op_extend
  else if named "summarize" then op_summarize
  else if named "take" || named "limit" then op_take
  else if named "sort" || named "order" then op_sort
  else if named "top" then op_top
  else if named "count" then op_count
  else if named "distinct" then op_distinct
  else if named "graph-traverse" then op_graph_traverse
  else if named "graph-var-length" then op_graph_var_length
  else if named "graph-var-match" then op_graph_var_match
  else if named "graph-shortest-path" then op_graph_shortest_path
  else if named "make-graph" then op_make_graph
  else if named "graph-match" then op_graph_match
  else perr "unsupported operator: `{other}`" [MStr op].

(** ** union *)

Inductive UnionFrom :=
  | Table (t : string)
  | SubQuery (sql : string).

Record UnionOperand := {
  op_root_table : string;
  op_from : UnionFrom;
}.

(** The scan for the parenthesis that closes a sub-pipeline: from the tokens
    ahead and the depth, the tokens before it; [None] at the end of input. *)
Fixpoint matching_paren (ts : list Token) (depth : nat) : option (list Token) :=
  match ts with
  | [] => None
  | t :: ts =>
      match (match t with LParen => S depth | RParen => pred depth | _ => depth end) with
      | O => Some []
      | depth => cons t <$> matching_paren ts depth
      end
  end.

Definition RESHAPING_OPS : list string := [
  "project"; "project-away"; "summarize"; "count"; "distinct"; "extend";
  "graph-traverse"; "graph-shortest-path"; "make-graph"; "graph-match"].

(** The first reshaping operator that follows a pipe. *)
Fixpoint reshaping_op (ts : list Token) : option string :=
  match ts with
  | t1 :: ((t2 :: _) as ts') =>
      match t1, t2 with
      | Pipe, Ident op => if decide (op ∈ RESHAPING_OPS) then Some op else reshaping_op ts'
      | _, _ => reshaping_op ts'
      end
  | _ => None
  end.

(** The loop [while self.eat(&Token::Pipe) { self.parse_operator()?; }]. *)
Fixpoint pipe_loop (fuel : nat) : P unit :=
  match fuel with
  | O => out_of_fuel
  | S fuel =>
      b ← eat Pipe;
      if b : bool then _ ← parse_operator; pipe_loop fuel else mret tt
  end.

(** What follows the head of a query: the pipeline and the end of input. *)
Definition parse_pipeline : P unit :=
  _ ← with_fuel pipe_loop;
  p ← get_pos;
  ts ← get_toks;
  if (p <? List.length ts)%nat then perr "unexpected trailing tokens: {:?}" [MToks (drop p ts)]
  else mret tt.

(** [parse_query] on a query that does not start with [union]. *)
Definition parse_table_query : P unit :=
  table ← bump_ident "expected table name, got {other:?}";
  _ ← update_state (fun _ => new_state table);
  parse_pipeline.

(** One operand of [union].  The sub-parser runs [parse_query] on tokens that
    do not start with [union], the branch modelled by [parse_table_query]. *)
Definition parse_union_operand : P UnionOperand :=
  b ← eat LParen;
  if b : bool then
    start ← get_pos;
    ts ← get_toks;
    match matching_paren (drop start ts) 1 with
    | None => perr "unterminated `(` in union operand" []
    | Some inner_toks =>
        _ ← advance (List.length inner_toks);
        _ ← expect RParen "`)` to close union operand";
        if is_empty inner_toks then perr "empty `()` union operand" []
        else if decide (nth_error inner_toks 0 = Some (Ident "union")) then
          perr "nested union is not supported" []
        else
          match reshaping_op inner_toks with
          | Some op => perr "union branch reshapes its schema (`{op}`); v1 union branches may only filter/sort/take" [MStr op]
          | None =>
              sch ← get_schemas;
              '(_, sub) ← lift (parse_table_query (new_parser inner_toks sch));
              mret {| op_root_table := root_table (state sub);
                      op_from := SubQuery (to_sql (state sub)) |}
          end
    end
  else
    table ← expect_ident;
    mret {| op_root_table := table; op_from := Table table |}.

(** [if !superset.contains(c) { superset.push(c.clone()) }] *)
Definition add_column (superset : list string) (c : string) : list string :=
  if decide (c ∈ superset) then superset else (superset ++ [c])%list.

Definition superset_step (sch : SchemaMap) (op : UnionOperand) (superset : list string)
    : outcome ParseError (list string) :=
  match sch !! op_root_table op with
  | Some cols => Ret (foldl add_column superset cols)
  | None =>
      if decide (sch = ∅) then
        Fail (ParseErr "union requires schema context: no schema available for table `{}`" [MStr (op_root_table op)])
      else Fail (ParseErr "union: unknown table `{}` (not in schema)" [MStr (op_root_table op)])
  end.

Definition column_superset (sch : SchemaMap) (operands : list UnionOperand)
    : outcome ParseError (list string) :=
  for_each (superset_step sch) operands [].

(** The SELECT list of a branch. *)
Definition branch_projection (sch : SchemaMap) (with_source : option string) (superset : list string)
    (op : UnionOperand) : list string :=
  let branch_cols := default [] (sch !! op_root_table op) in
  ((match with_source with
    | Some src_col => [fmt [sql_quote (op_root_table op); " AS "; quote_ident src_col]]
    | None => []
    end)
   ++ map (fun col => if decide (col ∈ branch_cols) then quote_ident col
                      else fmt ["NULL AS "; quote_ident col]) superset)%list.

Definition union_branch (sch : SchemaMap) (with_source : option string) (superset : list string)
    (x : nat * UnionOperand) : string :=
  let '(i, op) := x in
  let projection := join ", " (branch_projection sch with_source superset op) in
  match op_from op with
  | Table t => fmt ["SELECT "; projection; " FROM "; t]
  | SubQuery sub_sql => fmt ["SELECT "; projection; " FROM ("; sub_sql; ") _b"; show_nat i]
  end.

Definition parse_union : P unit :=
  b ← eat_ident_eq "withsource";
  with_source ← (if b : bool then
                   _ ← expect Assign "`=` after withsource";
                   s ← expect_ident; mret (Some s)
                 else mret None);
  operands ← comma_list parse_union_operand;
  if is_empty operands then perr "union requires at least one operand" []
  else
    sch ← get_schemas;
    superset ← lift (column_superset sch operands);
    match with_source with
    | Some src_col =>
        if decide (src_col ∈ superset) then
          perr "withsource column `{src_col}` collides with a column of the union operands" [MStr src_col]
        else mret tt
    | None => mret tt
    end ;;
    let branches := map (union_branch sch with_source superset) (enumerate operands) in
    let union_body := join " UNION ALL " branches in
    _ ← update_state (fun _ => new_state "_u");
    update_state (push_cte ("_u", union_body, false)).

(** ** Queries *)

Definition parse_query : P unit :=
  b ← eat_ident_eq "union";
  if b : bool then _ ← parse_union; parse_pipeline
  else parse_table_query.

Definition lex (src : string) : outcome ParseError (list Token) :=
  match tokenize src with
  | Ret ts => Ret ts
  | Fail e => Fail (LexErr e)
  | Panic => Panic
  | OutOfFuel => OutOfFuel
  end.

Definition kql_to_sql_with_schemas (src : string) (sch : SchemaMap) : outcome ParseError string :=
  ts ← lex src;
  '(_, p) ← parse_query (new_parser ts sch);
  Ret (to_sql (state p)).

Definition kql_to_sql (src : string) : outcome ParseError string := kql_to_sql_with_schemas src ∅.
