(* ===== verification/SqlScan.v ===== *)
(** * The lexical structure of SQL text

    A scanner that tracks what a SQL lexer tracks: the depth of parentheses,
    whether the position is inside a string literal or a quoted identifier,
    and whether a comment or a second statement begins.  A text is [closed]
    when scanning it from a neutral position comes back to the neutral position
    of the same depth; closed texts compose, which is how the translator's
    output is shown to keep user data inside its literals. *)

From stdpp Require Import base strings list pretty.
From Stdlib Require Import NArith ZArith Lia Ascii.
From S2P Require Import Prelude Bytes F64 KqlLexer KqlState KqlParser KqlExpr.

Local Open Scope string_scope.

(** What the previous character may start together with the next one. *)
Inductive mark := Neutral | AfterDash | AfterSlash.

Inductive scan_state :=
  | Normal (depth : nat) (m : mark)
  | InLiteral (depth : nat)
  | InQuoted (depth : nat)
  | Broken.

Definition scan_byte (q : scan_state) (a : ascii) : scan_state :=
  match q with
  | Broken => Broken
  | InLiteral d => if Ascii.eqb a "'" then Normal d Neutral else q
  | InQuoted d => if Ascii.eqb a "034"%char then Normal d Neutral else q
  | Normal d m =>
      if Ascii.eqb a "'" then InLiteral d
      else if Ascii.eqb a "034"%char then InQuoted d
      else if Ascii.eqb a "(" then Normal (S d) Neutral
      else if Ascii.eqb a ")" then
        match d with O => Broken | S d => Normal d Neutral end
      else if Ascii.eqb a ";" then Broken
      else if Ascii.eqb a "-" then
        match m with AfterDash => Broken | _ => Normal d AfterDash end
      else if Ascii.eqb a "/" then Normal d AfterSlash
      else if Ascii.eqb a "*" then
        match m with AfterSlash => Broken | _ => Normal d Neutral end
      else Normal d Neutral
  end.

Fixpoint scan (q : scan_state) (s : string) : scan_state :=
  match s with
  | EmptyString => q
  | String a s => scan (scan_byte q a) s
  end.

(** Closed after a neutral character. *)
Definition closed (s : string) : Prop :=
  forall d, scan (Normal d Neutral) s = Normal d Neutral.

(** Closed after a neutral character or a dash, hence also non-empty: what
    every lowered expression is. *)
Definition closed_expr (s : string) : Prop :=
  forall d m, m <> AfterSlash -> scan (Normal d m) s = Normal d Neutral.

Lemma scan_app q s1 s2 : scan q (s1 +:+ s2) = scan (scan q s1) s2.
Proof. revert q; induction s1; intros q; simpl; [done|apply IHs1]. Qed.

Lemma closed_expr_closed s : closed_expr s -> closed s.
Proof. intros H d. by apply H. Qed.

Lemma closed_empty : closed "".
Proof. done. Qed.

(** ** Composition *)

Lemma closed_join sep l : closed sep -> Forall closed l -> closed (join sep l).
Proof.
  intros Hsep. induction 1 as [|s l Hs Hl IH]; [done|].
  destruct l as [|s2 l]; [done|]. rewrite join_cons. intros d.
  by rewrite !scan_app, Hs, Hsep, IH.
Qed.

Lemma scan_fmt_nil q : scan q (fmt []) = q.
Proof. done. Qed.
Lemma scan_fmt_cons q s l : scan q (fmt (s :: l)) = scan (scan q s) (fmt l).
Proof. by rewrite fmt_cons, scan_app. Qed.

(** Scan a template whose arguments are closed, left to right: an argument
    keeps the position, a literal piece is computed. *)
Ltac scan_piece q s :=
  first
    [ match goal with
      | H : closed s |- _ => rewrite (H _)
      | H : closed_expr s |- _ => rewrite (H _ _) by discriminate
      end
    | let r := eval cbv [scan scan_byte Ascii.eqb Bool.eqb dq] in (scan q s) in
      match r with
      | Normal _ _ => change (scan q s) with r
      | InQuoted _ => change (scan q s) with r
      | InLiteral _ => change (scan q s) with r
      end ].

Ltac scan_template :=
  repeat match goal with
  | |- context [scan ?q (fmt (_ :: _))] => rewrite (scan_fmt_cons q)
  | |- context [scan (Normal ?d ?m) ?s] => scan_piece (Normal d m) s
  | |- context [scan (InQuoted ?d) ?s] => scan_piece (InQuoted d) s
  | |- context [scan (InLiteral ?d) ?s] => scan_piece (InLiteral d) s
  | |- context [scan ?q (fmt [])] => rewrite (scan_fmt_nil q)
  | |- context [scan ?q (?s1 +:+ ?s2)] => rewrite (scan_app q s1 s2)
  end; try reflexivity.

(** ** Literals and identifiers *)

Lemma scan_literal d s : scan (InLiteral d) (replace "'" "''" s) = InLiteral d.
Proof.
  induction s as [|a s IH]; [done|]. simpl. case_decide as Ha.
  - subst. simpl. done.
  - simpl. destruct (Ascii.eqb_spec a "'"); [done|]. apply IH.
Qed.

Lemma scan_quoted d s :
  scan (InQuoted d) (replace "034"%char (dq +:+ dq) s) = InQuoted d.
Proof.
  induction s as [|a s IH]; [done|]. cbn [replace]. case_decide as Ha.
  - subst. rewrite scan_app. exact IH.
  - cbn [scan scan_byte]. destruct (Ascii.eqb_spec a "034"%char); [done|]. apply IH.
Qed.

Lemma closed_sql_quote s : closed_expr (sql_quote s).
Proof.
  intros d m _. unfold sql_quote. rewrite !fmt_cons, !scan_app.
  transitivity (scan (scan (scan (InLiteral d) (replace "'" "''" s)) "'") (fmt [])).
  - by destruct m.
  - by rewrite scan_literal.
Qed.

(** Bytes of numbers and simple identifiers: none changes the scanner's mode. *)
Definition word_byte (a : ascii) : bool :=
  ident_byte a || Ascii.eqb a ".".

Lemma scan_word_byte d m a : word_byte a = true -> scan_byte (Normal d m) a = Normal d Neutral.
Proof. destruct a as [[] [] [] [] [] [] [] []]; vm_compute; congruence. Qed.

Lemma closed_word s : s <> "" -> all_bytes word_byte s = true -> closed_expr s.
Proof.
  intros Hne H d m _. destruct s as [|a s]; [done|]. clear Hne. revert a m H.
  induction s as [|b s IH]; intros a m [Ha H]%andb_prop; cbn [scan].
  - by apply scan_word_byte.
  - rewrite scan_word_byte by done. by apply IH.
Qed.

Lemma all_bytes_weaken f g s :
  (forall a, f a = true -> g a = true) -> all_bytes f s = true -> all_bytes g s = true.
Proof.
  intros Hfg. induction s as [|a s IH]; [done|]. simpl. intros [? ?]%andb_prop.
  rewrite Hfg, IH by done. done.
Qed.

Lemma all_bytes_app f s1 s2 : all_bytes f (s1 +:+ s2) = all_bytes f s1 && all_bytes f s2.
Proof. induction s1; simpl; [done|]. by rewrite IHs1, andb_assoc. Qed.

Lemma ident_word a : ident_byte a = true -> word_byte a = true.
Proof. unfold word_byte. by intros ->. Qed.

Lemma closed_quote_ident s : closed_expr (quote_ident s).
Proof.
  unfold quote_ident. destruct (structurally_simple s && _) eqn:E.
  - apply andb_prop in E as [[Hall Hd]%andb_prop _]. apply closed_word.
    + by destruct s.
    + by apply (all_bytes_weaken ident_byte); [apply ident_word|].
  - intros d m _. rewrite !fmt_cons, !scan_app.
    transitivity (scan (scan (scan (InQuoted d) (replace "034"%char (dq +:+ dq) s)) dq) (fmt [])).
    + by destruct m.
    + by rewrite scan_quoted.
Qed.

(** * Closed text from the KQL helpers

    Every text the translator builds from a token, and every rendering of a
    [QueryState] whose fragments are closed, is closed in the sense of
    SqlScan. *)

(** ** Numbers *)

Lemma digit_word a : digit_byte a = true -> word_byte a = true.
Proof.
  intros H. apply ident_word. unfold ident_byte, is_ident_char, is_ascii_alphanumeric.
  unfold digit_byte in H. by rewrite H, orb_true_r.
Qed.

Lemma all_bytes_Forall f s : Forall (fun a => f a = true) (as_bytes s) -> all_bytes f s = true.
Proof. induction s as [|a s IH]; [done|]. inversion_clear 1 as [|? ? Ha Hs]. simpl. by rewrite Ha, IH. Qed.

Lemma show_N_word n : all_bytes word_byte (show_N n) = true /\ show_N n <> "".
Proof.
  destruct (show_N_digits n) as [H Hne]. split; [|done].
  apply all_bytes_Forall. eapply Forall_impl; [exact H|]. apply digit_word.
Qed.

Lemma closed_show_N n : closed_expr (show_N n).
Proof. destruct (show_N_word n). by apply closed_word. Qed.

Lemma closed_show_nat n : closed_expr (show_nat n).
Proof. apply closed_show_N. Qed.

Lemma closed_show_Z z : (0 <= z)%Z -> closed_expr (show_Z z).
Proof.
  intros Hz. destruct z as [|p|p]; [|apply (closed_show_N (N.pos p))|lia].
  apply closed_word; done.
Qed.

Lemma all_bytes_substring f n m s : all_bytes f s = true -> all_bytes f (String.substring n m s) = true.
Proof.
  revert n m; induction s as [|a s IH]; intros n m H; [by destruct n, m|].
  simpl in H. apply andb_prop in H as [Ha Hs].
  destruct n, m; simpl; try done; rewrite ?Ha; simpl; auto.
Qed.

Lemma show_decimal_word d p : all_bytes word_byte (show_decimal d p) = true /\ show_decimal d p <> "".
Proof.
  unfold show_decimal. destruct (0 <=? p)%Z; [apply show_N_word|]. cbv zeta.
  set (a := show_N (Z.to_N (d / _))). set (b := show_N (Z.to_N (_ + _))).
  destruct (show_N_word (Z.to_N (d / 10 ^ (- p)))) as [Ha Hne]. fold a in Ha, Hne.
  destruct (show_N_word (Z.to_N (10 ^ (- p) + d `mod` 10 ^ (- p)))) as [Hb _]. fold b in Hb.
  split; [|by destruct a].
  rewrite all_bytes_app, Ha. simpl. destruct (_ =? 0)%Z; [done|]. simpl. by apply all_bytes_substring.
Qed.

Lemma closed_show_f64 f : closed_expr (show_f64 f).
Proof.
  unfold show_f64. destruct f as [m e|]; [|by apply closed_word].
  destruct (m =? 0)%Z; [by apply closed_word|]. destruct (shortest _ _ _ _ _) as [d p].
  destruct (show_decimal_word d p). by apply closed_word.
Qed.

(** ** Literals built around a number or a pattern *)

Lemma scan_literal_word d s : all_bytes word_byte s = true -> scan (InLiteral d) s = InLiteral d.
Proof.
  induction s as [|a s IH]; [done|]. intros [Ha Hs]%andb_prop. cbn [scan scan_byte].
  destruct (Ascii.eqb_spec a "'"); [by subst|]. by apply IH.
Qed.

Lemma scan_literal_show_Z d z : scan (InLiteral d) (show_Z z) = InLiteral d.
Proof.
  assert (H : forall n, scan (InLiteral d) (show_N n) = InLiteral d).
  { intros n. apply scan_literal_word, show_N_word. }
  destruct z as [|p|p]; [done|exact (H (N.pos p))|].
  change (show_Z (Z.neg p)) with ("-" +:+ show_N (N.pos p)). rewrite scan_app. apply H.
Qed.

Lemma closed_interval z unit_name :
  all_bytes word_byte unit_name = true ->
  closed_expr (fmt ["INTERVAL '"; show_Z z; " "; unit_name; "'"]).
Proof.
  intros Hu d m Hm. rewrite !fmt_cons, !scan_app.
  replace (scan (Normal d m) "INTERVAL '") with (InLiteral d) by (destruct m; done).
  rewrite scan_literal_show_Z. cbn [scan scan_byte Ascii.eqb Bool.eqb].
  by rewrite scan_literal_word.
Qed.

Lemma closed_like_pattern pre post s :
  pre = "'" \/ pre = "'%" -> post = "'" \/ post = "%'" ->
  closed_expr (fmt [pre; replace "'" "''" s; post]).
Proof.
  intros Hpre Hpost d m Hm. rewrite !fmt_cons, !scan_app.
  replace (scan (Normal d m) pre) with (InLiteral d) by (destruct Hpre; subst; destruct m; done).
  rewrite scan_literal. by destruct Hpost; subst.
Qed.

Lemma closed_add_like_both s : closed_expr (add_like_both s).
Proof. apply closed_like_pattern; auto. Qed.
Lemma closed_add_like_left s : closed_expr (add_like_left s).
Proof. apply closed_like_pattern; auto. Qed.
Lemma closed_add_like_right s : closed_expr (add_like_right s).
Proof. apply closed_like_pattern; auto. Qed.

(** ** The implicit aggregate alias *)

Lemma encode_ident_char c : is_ident_char c = true ->
  exists a, encode_char c = [a] /\ ident_byte a = true.
Proof.
  intros Hc. assert (c < 128)%N as Hlt.
  { revert Hc. unfold is_ident_char, is_ascii_alphanumeric, is_ascii_alphabetic, is_ascii_digit, ch.
    change (N_of_ascii "_") with 95%N.
    repeat (rewrite ?orb_true_iff, ?andb_true_iff, ?N.leb_le, ?N.eqb_eq). lia. }
  exists (byte_of c). split.
  - unfold encode_char. by rewrite (proj2 (N.ltb_lt c 128)).
  - unfold ident_byte, ch. by rewrite N_of_byte_of by lia.
Qed.

Lemma of_chars_cons c l : of_chars (c :: l) = of_bytes (encode_char c) +:+ of_chars l.
Proof.
  unfold of_chars. simpl. induction (encode_char c) as [|a b IH]; [done|].
  change (String a (of_bytes (b ++ concat (map encode_char l)))
          = String a (of_bytes b +:+ of_bytes (concat (map encode_char l)))). by rewrite IH.
Qed.

Lemma of_chars_ident l :
  Forall (fun c => is_ident_char c = true) l ->
  all_bytes word_byte (of_chars l) = true /\ (l <> [] -> of_chars l <> "").
Proof.
  induction 1 as [|c l Hc Hl [IH _]]; [done|].
  destruct (encode_ident_char c Hc) as (a & Ha & Hi). rewrite of_chars_cons, Ha. simpl.
  rewrite (ident_word _ Hi). done.
Qed.

Lemma trim_start_Forall (P : char -> Prop) c l : Forall P l -> Forall P (trim_start_matches c l).
Proof. induction 1; simpl; [done|]. destruct (_ =? _)%N; auto. Qed.

Lemma trim_Forall (P : char -> Prop) c l : Forall P l -> Forall P (trim_matches c l).
Proof.
  intros H. unfold trim_matches.
  by apply Forall_rev, trim_start_Forall, Forall_rev, trim_start_Forall.
Qed.

Lemma closed_alias s : closed_expr (implicit_agg_alias s).
Proof.
  unfold implicit_agg_alias. set (l := trim_matches _ _).
  assert (Hl : Forall (fun c => is_ident_char c = true) l).
  { apply trim_Forall, Forall_fmap, Forall_true. intros c. simpl.
    unfold is_ident_char. destruct (is_ascii_alphanumeric c) eqn:E; simpl; [by rewrite E|done]. }
  destruct l as [|c l']; [by apply closed_word|].
  destruct (of_chars_ident (take 40 (c :: l'))) as [H1 H2]; [by apply Forall_take|].
  apply closed_word; [by apply H2|done].
Qed.

(** ** Operators and functions *)

Ltac expr_template :=
  let d := fresh "d" in let m := fresh "m" in
  intros d m ?; destruct m; try contradiction; scan_template.

Lemma closed_comparison op lhs rhs :
  match op with SqlOp s => s ∈ ["="; "<>"; "<"; "<="; ">"; ">="] | _ => True end ->
  closed_expr lhs -> closed_expr rhs -> closed_expr (comparison_sql op lhs rhs).
Proof.
  intros Hop Hl Hr. pose proof (closed_add_like_both rhs). pose proof (closed_add_like_left rhs).
  pose proof (closed_add_like_right rhs).
  destruct op as [| | | |s]; unfold comparison_sql.
  1-4: expr_template.
  repeat (apply elem_of_cons in Hop as [->|Hop]; [expr_template|]). by apply elem_of_nil in Hop.
Qed.

Lemma comparison_op_sql t op : comparison_op t = Some op ->
  match op with SqlOp s => s ∈ ["="; "<>"; "<"; "<="; ">"; ">="] | _ => True end.
Proof.
  unfold comparison_op. intros H. repeat case_match; simplify_eq; try done;
    (apply (bool_decide_unpack _); vm_compute; exact I).
Qed.

Lemma closed_comma_join l : Forall closed_expr l -> closed (join ", " l).
Proof.
  intros H. apply closed_join; [done|]. eapply Forall_impl; [exact H|]. apply closed_expr_closed.
Qed.

Example closed_template a b : closed_expr a -> closed b -> closed_expr (fmt ["(- "; a; " OR ("; b; "))"]).
Proof. intros. expr_template. Qed.

Lemma closed_func name args sql :
  Forall closed_expr args -> func_sql name args = Some sql -> closed_expr sql.
Proof.
  intros Hargs. pose proof (closed_comma_join args Hargs) as Hj. unfold func_sql. cbv zeta.
  destruct args as [|x [|y [|z [|w args]]]];
    repeat match goal with H : Forall _ (_ :: _) |- _ => apply Forall_cons in H as [? H] end;
    repeat (case_bool_decide; [intros <-%(inj Some); clear Hargs; expr_template|]); intros [=].
Qed.

Lemma closed_column name : closed_expr (column_sql name).
Proof.
  unfold column_sql. repeat case_decide; [by apply closed_word..|]. apply closed_quote_ident.
Qed.

(** ** The accumulator *)

(** Every fragment the state holds is closed. *)
Record closed_state (st : QueryState) : Prop := {
  cs_table : closed (table st);
  cs_select : Forall closed (select st);
  cs_exclude : Forall closed (exclude st);
  cs_extend : Forall (fun x => closed x.1 /\ closed x.2) (extend st);
  cs_where : Forall closed (where_clauses st);
  cs_group_by : Forall closed (group_by st);
  cs_aggregates : Forall closed (aggregates st);
  cs_order_by : Forall (fun x => closed x.1) (order_by st);
  cs_graph_def : forall g, graph_def st = Some g -> closed (edge_table g) /\ closed (node_table g);
  cs_ctes : Forall (fun c => closed c.1.1 /\ closed c.1.2) (ctes st);
}.

Lemma closed_default : closed_state default_state.
Proof. by split; simpl; try constructor. Qed.

Lemma closed_new t : closed t -> closed_state (new_state t).
Proof. by split; simpl; try constructor. Qed.

Ltac state_update :=
  intros; match goal with H : closed_state _ |- _ => destruct H end;
  split; simpl; rewrite ?Forall_app, ?Forall_singleton; auto.

Lemma closed_set_table t st : closed t -> closed_state st -> closed_state (set_table t st).
Proof. state_update. Qed.
Lemma closed_set_select l st : Forall closed l -> closed_state st -> closed_state (set_select l st).
Proof. state_update. Qed.
Lemma closed_extend_exclude l st : Forall closed l -> closed_state st -> closed_state (extend_exclude l st).
Proof. state_update. Qed.
Lemma closed_push_extend x st :
  closed x.1 -> closed x.2 -> closed_state st -> closed_state (push_extend x st).
Proof. state_update. Qed.
Lemma closed_push_where e st : closed e -> closed_state st -> closed_state (push_where e st).
Proof. state_update. Qed.
Lemma closed_push_group_by e st : closed e -> closed_state st -> closed_state (push_group_by e st).
Proof. state_update. Qed.
Lemma closed_push_aggregate e st : closed e -> closed_state st -> closed_state (push_aggregate e st).
Proof. state_update. Qed.
Lemma closed_push_order_by x st : closed x.1 -> closed_state st -> closed_state (push_order_by x st).
Proof. state_update. Qed.
Lemma closed_set_limit n st : closed_state st -> closed_state (set_limit n st).
Proof. state_update. Qed.
Lemma closed_set_distinct st : closed_state st -> closed_state (set_distinct st).
Proof. state_update. Qed.
Lemma closed_set_aggregated st : closed_state st -> closed_state (set_aggregated st).
Proof. state_update. Qed.
Lemma closed_set_graph_def g st :
  closed (edge_table g) -> closed (node_table g) -> closed_state st -> closed_state (set_graph_def g st).
Proof. state_update. intros ? [= <-]. done. Qed.
Lemma closed_push_cte c st :
  closed c.1.1 -> closed c.1.2 -> closed_state st -> closed_state (push_cte c st).
Proof. state_update. Qed.

(** Optional clauses: a keyword before a joined list, or nothing. *)
Lemma closed_clause {A} (l : list A) kw body : closed kw -> closed body ->
  closed (if is_empty l then "" else kw +:+ body).
Proof. intros Hkw Hb. destruct l; [done|]. intros d. simpl. by rewrite scan_app, Hkw, Hb. Qed.

Lemma closed_agg_body st : closed_state st -> closed (agg_body st).
Proof.
  intros H. unfold agg_body. destruct H.
  assert (closed (join ", " (group_by st ++ aggregates st))) by (apply closed_join; [done|by apply Forall_app]).
  pose proof (closed_clause (where_clauses st) " WHERE " (join " AND " (where_clauses st))
                ltac:(done) ltac:(by apply closed_join)).
  pose proof (closed_clause (group_by st) " GROUP BY " (join ", " (group_by st))
                ltac:(done) ltac:(by apply closed_join)).
  intros d. scan_template.
Qed.

Lemma closed_agg_name n : closed (agg_name n).
Proof. pose proof (closed_show_N n). intros d. unfold agg_name. scan_template. Qed.

Lemma closed_rebase st : closed_state st -> closed_state (rebase_aggregation st).
Proof.
  intros H. pose proof (closed_agg_body st H). pose proof (closed_agg_name (agg_seq st)).
  destruct H. split; simpl; rewrite ?Forall_app, ?Forall_singleton; auto.
Qed.

Lemma closed_as_alias e n : closed e -> closed n -> closed (as_alias e n).
Proof. intros He Hn d. unfold as_alias. scan_template. Qed.

Lemma closed_extend_items st : closed_state st -> Forall closed (extend_items st).
Proof.
  intros H. unfold extend_items. apply Forall_fmap. eapply Forall_impl; [apply (cs_extend _ H)|].
  intros [n e] [??]. by apply closed_as_alias.
Qed.

Lemma closed_select_item st col : closed_state st -> closed col -> closed (select_item st col).
Proof.
  intros H Hc. unfold select_item, find_extend. destruct (list_find _ _) as [[i x]|] eqn:E; simpl; [|done].
  apply list_find_Some in E as (Hx & _ & _). apply closed_as_alias; [|done].
  by apply (Forall_lookup_1 _ _ _ _ (cs_extend _ H) Hx).
Qed.

Lemma closed_select_clause st : closed_state st -> closed (select_clause st).
Proof.
  intros H. pose proof (closed_extend_items st H) as Hx.
  assert (Hs : Forall closed (map (select_item st) (select st))).
  { apply Forall_fmap. eapply Forall_impl; [apply (cs_select _ H)|].
    intros c. by apply closed_select_item. }
  pose proof (closed_join ", " (exclude st) ltac:(done) (cs_exclude _ H)) as Hex.
  unfold select_clause. repeat case_match; (apply closed_join; [done|]); try done.
  - apply Forall_app. split; [apply (cs_group_by _ H)|apply (cs_aggregates _ H)].
  - by repeat constructor.
  - constructor; [done|exact Hx].
  - constructor; [|exact Hx]. intros d. scan_template.
Qed.

Lemma closed_prelude st : closed_state st -> closed (render_cte_prelude st).
Proof.
  intros H. unfold render_cte_prelude.
  assert (Hj : closed (join ", " (map cte_item (ctes st)))).
  { apply closed_join; [done|]. apply Forall_fmap. eapply Forall_impl; [apply (cs_ctes _ H)|].
    intros [[n b] r] [Hn Hb]. simpl in *. intros d. scan_template. }
  destruct (is_empty _); [done|]. destruct (existsb _ _); intros d; scan_template.
Qed.

Lemma closed_order_items st : closed_state st -> closed (join ", " (map order_item (order_by st))).
Proof.
  intros H. apply closed_join; [done|]. apply Forall_fmap. eapply Forall_impl; [apply (cs_order_by _ H)|].
  intros [c []]; simpl; intros Hc d; by rewrite scan_app, Hc.
Qed.

(** A rendered query is closed. *)
Lemma closed_to_sql st : closed_state st -> closed (to_sql st).
Proof.
  intros H. pose proof (closed_prelude st H). pose proof (closed_select_clause st H).
  pose proof (cs_table _ H).
  pose proof (closed_clause (where_clauses st) " WHERE " (join " AND " (where_clauses st))
                ltac:(done) ltac:(apply closed_join; [done|apply (cs_where _ H)])).
  pose proof (closed_clause (group_by st) " GROUP BY " (join ", " (group_by st))
                ltac:(done) ltac:(apply closed_join; [done|apply (cs_group_by _ H)])).
  pose proof (closed_clause (order_by st) " ORDER BY " (join ", " (map order_item (order_by st)))
                ltac:(done) ltac:(by apply closed_order_items)).
  assert (closed (if distinct st && is_empty (aggregates st) then "DISTINCT " else "")) by by destruct (_ && _).
  assert (closed (match limit st with Some n => " LIMIT " +:+ show_N n | None => "" end)).
  { destruct (limit st) as [n|]; [|done]. pose proof (closed_show_N n). intros d. scan_template. }
  intros d. unfold to_sql. scan_template.
Qed.
