(* ===== verification/KqlExprSpec.v ===== *)
(** * A program logic for the KQL parser

    [spec n k m Q]: from a well-formed parser with fewer than [n] tokens left,
    [m] neither panics nor runs out of fuel; when it returns, its result
    satisfies [Q], the parser is still well-formed over the same tokens and
    schemas, and at least [k] tokens were consumed.  The bound [n] is what the
    fuel of loops and recursive calls is compared with. *)

From stdpp Require Import base gmap strings list.
From Stdlib Require Import NArith ZArith Lia Ascii.
From S2P Require Import Prelude Bytes F64 KqlLexer KqlState KqlParser KqlExpr SqlScan.

Local Open Scope string_scope.

(** What the lexer guarantees of a token. *)
Definition tok_ok (t : Token) : Prop :=
  match t with
  | Ident s => closed_expr s
  | Int n => (0 <= n)%Z
  | _ => True
  end.

Record good (p : Parser) : Prop := {
  good_toks : Forall tok_ok (toks p);
  good_pos : pos p <= List.length (toks p);
  good_state : closed_state (state p);
}.

Record reach (k : nat) (p p' : Parser) : Prop := {
  reach_good : good p';
  reach_toks : toks p' = toks p;
  reach_schemas : schemas p' = schemas p;
  reach_pos : pos p + k <= pos p';
}.

Definition wp {A} (m : P A) (p : Parser) (Q : A -> Parser -> Prop) : Prop :=
  match m p with
  | Ret (a, p') => Q a p'
  | Fail _ => True
  | Panic | OutOfFuel => False
  end.

Definition spec {A} (n k : nat) (m : P A) (Q : A -> Prop) : Prop :=
  forall p, good p -> rem p < n -> wp m p (fun a p' => Q a /\ reach k p p').

(** The same when the next token is known to be [t]. *)
Definition spec_next {A} (t : Token) (n k : nat) (m : P A) (Q : A -> Prop) : Prop :=
  forall p, good p -> rem p < n -> nth_error (toks p) (pos p) = Some t ->
    wp m p (fun a p' => Q a /\ reach k p p').

Lemma wp_bind {A B} (m : P A) (f : A -> P B) p Q :
  wp m p (fun a p' => wp (f a) p' Q) -> wp (m ≫= f) p Q.
Proof. unfold wp, mbind, P_bind. by destruct (m p) as [[a p']| | |]. Qed.

Lemma wp_mono {A} (m : P A) p (Q R : A -> Parser -> Prop) :
  (forall a p', Q a p' -> R a p') -> wp m p Q -> wp m p R.
Proof. unfold wp. intros H. destruct (m p) as [[a p']| | |]; auto. Qed.

Lemma reach_refl p : good p -> reach 0 p p.
Proof. intros H. split; try done. lia. Qed.

Lemma reach_trans k1 k2 k p1 p2 p3 :
  reach k1 p1 p2 -> reach k2 p2 p3 -> k <= k1 + k2 -> reach k p1 p3.
Proof. intros [] [] ?. split; try congruence; lia. Qed.

Lemma reach_rem k p p' n : reach k p p' -> rem p < n -> rem p' < n - k \/ k = 0 /\ rem p' < n.
Proof.
  intros [[] Ht _ ?] ?. unfold rem in *. rewrite Ht in *. destruct k; [right|left]; lia.
Qed.

Lemma reach_rem_lt k p p' n : reach k p p' -> rem p < n -> rem p' < n - k.
Proof. intros H Hn. destruct (reach_rem _ _ _ _ H Hn) as [?|[-> ?]]; lia. Qed.

(** ** Rules *)

Lemma spec_mono {A} n n' k k' (m : P A) (Q R : A -> Prop) :
  spec n k m Q -> n' <= n -> k' <= k -> (forall a, Q a -> R a) -> spec n' k' m R.
Proof.
  intros H Hn Hk HQ p Hg Hr. eapply wp_mono; [|apply H; [done|lia]].
  intros a p' [Ha Hp]. split; [auto|]. eapply reach_trans; [exact Hp|by apply reach_refl, Hp|lia].
Qed.

Lemma spec_ret {A} n (a : A) (Q : A -> Prop) : Q a -> spec n 0 (mret a) Q.
Proof. intros Ha p Hg _. split; [done|]. by apply reach_refl. Qed.

Lemma spec_perr {A} n k message args (Q : A -> Prop) : spec n k (perr message args) Q.
Proof. done. Qed.

Lemma spec_bind {A B} n k k1 k2 (m : P A) (f : A -> P B) Q R :
  spec n k1 m Q -> (forall a, Q a -> spec (n - k1) k2 (f a) R) -> k <= k1 + k2 ->
  spec n k (m ≫= f) R.
Proof.
  intros Hm Hf Hk p Hg Hr. apply wp_bind. eapply wp_mono; [|by apply Hm].
  intros a p' [Ha Hp]. eapply wp_mono; [|apply (Hf a Ha); [apply Hp|by eapply reach_rem_lt]].
  intros b p'' [Hb Hp']. split; [done|]. by eapply reach_trans.
Qed.

(** The rule for steps whose consumption does not matter. *)
Lemma spec_then {A B} n k1 (m : P A) (f : A -> P B) Q R :
  spec n k1 m Q -> (forall a, Q a -> spec n 0 (f a) R) -> spec n 0 (m ≫= f) R.
Proof.
  intros Hm Hf. eapply spec_bind with (k2 := 0); [exact Hm| |lia].
  intros a Ha. eapply spec_mono; [by apply Hf|lia..|done].
Qed.

(** The first step consumes the token the whole must consume. *)
Lemma spec_first {A B} n k1 (m : P A) (f : A -> P B) Q R :
  spec n 1 m Q -> (forall a, Q a -> spec (n - 1) k1 (f a) R) -> spec n 1 (m ≫= f) R.
Proof. intros Hm Hf. eapply spec_bind; [exact Hm|exact Hf|lia]. Qed.

Lemma spec_weaken {A} n k (m : P A) Q : spec n k m Q -> spec n 0 m Q.
Proof. intros H. eapply spec_mono; [exact H|lia..|done]. Qed.

Lemma spec_to_next {A} t n k (m : P A) Q : spec n k m Q -> spec_next t n k m Q.
Proof. intros H p Hg Hr _. by apply H. Qed.

Lemma spec_fuel {A} n k (f : nat -> P A) Q :
  (forall fuel, spec (Nat.min n fuel) k (f fuel) Q) -> spec n k (with_fuel f) Q.
Proof. intros H p Hg Hr. apply (H (S (rem p))); [done|lia]. Qed.

Lemma spec_get_state n : spec n 0 get_state closed_state.
Proof. intros p Hg _. split; [by destruct Hg|]. by apply reach_refl. Qed.

Lemma spec_update_state n f :
  (forall st, closed_state st -> closed_state (f st)) -> spec n 0 (update_state f) (fun _ => True).
Proof.
  intros Hf p Hg _. split; [done|]. destruct Hg. split; simpl; try done; [|lia].
  split; simpl; auto.
Qed.

(** Knowing the next token, it can be consumed. *)
Lemma reach_advance p t : good p -> nth_error (toks p) (pos p) = Some t ->
  reach 1 p {| toks := toks p; pos := pos p + 1; state := state p; schemas := schemas p |}.
Proof.
  intros [] Ht. assert (pos p < List.length (toks p)) by (apply nth_error_Some; congruence).
  split; simpl; try done. split; simpl; try done. lia.
Qed.

Lemma spec_next_advance {B} t n k k1 (f : unit -> P B) R :
  spec (n - 1) k1 (f tt) R -> k <= S k1 -> spec_next t n k (advance 1 ≫= f) R.
Proof.
  intros Hf Hk p Hg Hr Ht. apply wp_bind. unfold wp at 1, advance.
  pose proof (reach_advance p t Hg Ht) as Hp.
  eapply wp_mono; [|apply Hf; [apply Hp|by eapply reach_rem_lt]].
  intros b p' [Hb Hp']. split; [done|]. eapply reach_trans; [exact Hp|exact Hp'|lia].
Qed.

Lemma spec_next_advance_last t n : spec_next t n 1 (advance 1) (fun _ => True).
Proof. intros p Hg Hr Ht. split; [done|]. by eapply reach_advance. Qed.

Lemma spec_peek {B} n k (f : option Token -> P B) R :
  spec n k (f None) R -> (forall t, tok_ok t -> spec_next t n k (f (Some t)) R) ->
  spec n k (peek ≫= f) R.
Proof.
  intros Hn Hs p Hg Hr. apply wp_bind. unfold wp at 1, peek.
  destruct (nth_error (toks p) (pos p)) as [t|] eqn:Ht; [|by apply Hn].
  apply (Hs t); try done. destruct Hg as [Hall _ _]. rewrite Forall_forall in Hall.
  apply Hall. apply list_elem_of_In. by eapply nth_error_In.
Qed.

Lemma spec_bump n : spec n 1 bump tok_ok.
Proof.
  unfold bump. apply spec_peek; [apply spec_perr|]. intros t Ht.
  eapply spec_next_advance with (k1 := 0); [by apply spec_ret|lia].
Qed.

(** Branching on [eat]: the [true] branch has consumed the token. *)
Lemma spec_eat {B} n k k1 t (f : bool -> P B) R :
  (tok_ok t -> spec (n - 1) k1 (f true) R) -> spec n k (f false) R -> k <= S k1 ->
  spec n k (eat t ≫= f) R.
Proof.
  intros Ht Hf Hk p Hg Hr. unfold eat. apply wp_bind.
  unfold wp at 1, mbind, P_bind, peek.
  destruct (nth_error (toks p) (pos p)) as [t0|] eqn:E; simpl; [case_decide as Hd|].
  - injection Hd as ->. simpl. pose proof (reach_advance p t Hg E) as Hp.
    assert (tok_ok t) as Hok.
    { destruct Hg as [Hall _ _]. rewrite Forall_forall in Hall. apply Hall, list_elem_of_In. by eapply nth_error_In. }
    eapply wp_mono; [|apply (Ht Hok); [apply Hp|by eapply reach_rem_lt]].
    intros b p' [Hb Hp']. split; [done|]. eapply reach_trans; [exact Hp|exact Hp'|lia].
  - by apply Hf.
  - by apply Hf.
Qed.

Lemma spec_peek_ident_eq {B} n k kw (f : bool -> P B) R :
  spec_next (Ident kw) n k (f true) R -> spec n k (f false) R -> spec n k (peek_ident_eq kw ≫= f) R.
Proof.
  intros Ht Hf p Hg Hr. apply wp_bind. unfold peek_ident_eq. unfold wp at 1, mbind, P_bind, peek, mret, P_ret.
  case_bool_decide as E; [by apply Ht|by apply Hf].
Qed.

Lemma spec_eat_ident_eq {B} n k k1 kw (f : bool -> P B) R :
  spec (n - 1) k1 (f true) R -> spec n k (f false) R -> k <= S k1 -> spec n k (eat_ident_eq kw ≫= f) R.
Proof.
  intros Ht Hf Hk p Hg Hr. apply wp_bind. unfold eat_ident_eq, peek_ident_eq.
  unfold wp at 1, mbind, P_bind, peek, mret, P_ret.
  case_bool_decide as E; [|by apply Hf]. pose proof (reach_advance p _ Hg E) as Hp. simpl.
  eapply wp_mono; [|apply Ht; [apply Hp|by eapply reach_rem_lt]].
  intros b p' [Hb Hp']. split; [done|]. eapply reach_trans; [exact Hp|exact Hp'|lia].
Qed.

Lemma spec_expect n t what : spec n 1 (expect t what) (fun _ => True).
Proof.
  unfold expect. eapply spec_eat with (k1 := 0); [intros _; by apply spec_ret| |lia].
  apply spec_peek; [apply spec_perr|]. intros; apply spec_to_next, spec_perr.
Qed.

Lemma spec_expect_ident_eq n lit : spec n 1 (expect_ident_eq lit) (fun _ => True).
Proof.
  unfold expect_ident_eq. apply spec_peek; [apply spec_perr|]. intros t Ht.
  case_decide; [apply spec_next_advance_last|apply spec_to_next, spec_perr].
Qed.

Lemma spec_bump_ident n message : spec n 1 (bump_ident message) closed_expr.
Proof.
  unfold bump_ident. eapply spec_first; [apply spec_bump|]. intros t Ht.
  destruct t; try apply spec_perr. by apply spec_ret.
Qed.

Lemma spec_expect_ident n : spec n 1 expect_ident closed_expr.
Proof.
  unfold expect_ident. eapply spec_first; [apply spec_bump|]. intros t Ht.
  destruct t; try apply spec_perr. by apply spec_ret.
Qed.

Lemma spec_bump_nonneg n message : spec n 1 (bump_nonneg message) (fun _ => True).
Proof.
  unfold bump_nonneg. eapply spec_first with (k1 := 0); [apply spec_bump|]. intros t Ht.
  destruct t; try apply spec_perr. destruct (_ <=? _)%Z; [by apply spec_ret|apply spec_perr].
Qed.

(** The comma loop: as many items as tokens at most. *)
Lemma spec_comma_loop {A} (item : P A) (Q : A -> Prop) n fuel v :
  spec n 1 item Q -> Forall Q v -> spec (Nat.min n fuel) 1 (comma_loop item v fuel) (Forall Q).
Proof.
  intros Hitem. revert v. induction fuel as [|fuel IH]; intros v Hv; simpl.
  { intros p _ Hr. lia. }
  eapply spec_first; [eapply spec_mono; [exact Hitem|lia..|done]|]. intros x Hx.
  assert (Hv' : Forall Q (v ++ [x])) by (apply Forall_app; by split; [|apply Forall_singleton]).
  eapply spec_eat with (k := 0) (k1 := 1); [intros _|by apply spec_ret|lia].
  eapply spec_mono; [by apply IH|lia..|done].
Qed.

Lemma spec_comma_list {A} (item : P A) (Q : A -> Prop) n :
  spec n 1 item Q -> spec n 1 (comma_list item) (Forall Q).
Proof. intros H. apply spec_fuel. intros fuel. by apply spec_comma_loop. Qed.

Lemma spec_scalar_literal n : spec n 1 parse_scalar_literal closed_expr.
Proof.
  unfold parse_scalar_literal. eapply spec_first with (k1 := 0); [apply spec_bump|]. intros t Ht.
  destruct t; try apply spec_perr; apply spec_ret.
  - by apply closed_show_Z.
  - apply closed_show_f64.
  - apply closed_sql_quote.
Qed.

Lemma spec_source_seeds n : spec n 1 parse_source_seeds (Forall closed_expr).
Proof.
  unfold parse_source_seeds. eapply spec_eat with (k1 := 0); [intros _| |lia].
  - eapply spec_then; [apply spec_comma_list, spec_scalar_literal|]. intros seeds Hs.
    eapply spec_eat with (k1 := 0); [intros _; simpl|simpl; apply spec_perr|lia].
    destruct (is_empty seeds); [apply spec_perr|by apply spec_ret].
  - eapply spec_first; [apply spec_scalar_literal|]. intros s Hs. apply spec_ret. by apply Forall_singleton.
Qed.

(** * Expressions: termination and closed output

    Every precedence level consumes a token, never runs out of the fuel the
    number of tokens left gives it, and lowers to closed SQL. *)

Lemma spec_duration n d : spec n 0 (duration_to_sql_interval d) closed_expr.
Proof.
  unfold duration_to_sql_interval. destruct (split_last d) as [a u].
  destruct (parse_i64 a); [|apply spec_perr].
  repeat (case_decide; [apply spec_ret; by apply closed_interval|]). apply spec_perr.
Qed.

(** Operators whose SQL text is closed before a space. *)
Definition closed_ops (op_of : option Token -> option string) : Prop :=
  op_of None = None /\
  forall t op, op_of t = Some op -> op ∈ ["OR"; "AND"; "+"; "-"; "*"; "/"; "%"].

Lemma closed_binary op a b :
  op ∈ ["OR"; "AND"; "+"; "-"; "*"; "/"; "%"] -> closed_expr a -> closed_expr b ->
  closed_expr (fmt ["("; a; " "; op; " "; b; ")"]).
Proof.
  intros Hop Ha Hb.
  repeat (apply elem_of_cons in Hop as [->|Hop]; [expr_template|]). by apply elem_of_nil in Hop.
Qed.

Ltac member := apply (bool_decide_unpack _); vm_compute; exact I.

Lemma closed_or : closed_ops or_op.
Proof. split; [done|]. unfold or_op. intros t op H. case_decide; simplify_eq. member. Qed.
Lemma closed_and : closed_ops and_op.
Proof. split; [done|]. unfold and_op. intros t op H. case_decide; simplify_eq. member. Qed.
Lemma closed_additive : closed_ops additive_op.
Proof. split; [done|]. intros [[]|] op H; simplify_eq/=; member. Qed.
Lemma closed_multiplicative : closed_ops multiplicative_op.
Proof. split; [done|]. intros [[]|] op H; simplify_eq/=; member. Qed.

Lemma spec_binary_loop op_of sub n fuel lhs :
  closed_ops op_of -> spec n 1 sub closed_expr -> closed_expr lhs ->
  spec (Nat.min n fuel) 0 (binary_loop op_of sub lhs fuel) closed_expr.
Proof.
  intros [Hnone Hops] Hsub. revert lhs. induction fuel as [|fuel IH]; intros lhs Hl; cbn [binary_loop].
  { intros p _ Hr. lia. }
  apply spec_peek.
  - rewrite Hnone. by apply spec_ret.
  - intros t Ht. destruct (op_of (Some t)) as [op|] eqn:E; [|by apply spec_to_next, spec_ret].
    eapply spec_next_advance with (k1 := 0); [|lia].
    eapply spec_then; [eapply spec_mono; [exact Hsub|lia|reflexivity|done]|].
    intros rhs Hr. eapply spec_mono; [apply IH, closed_binary; [by eapply Hops|done..]|lia..|done].
Qed.

Lemma spec_binary op_of sub n :
  closed_ops op_of -> spec n 1 sub closed_expr ->
  spec n 1 (lhs ← sub; with_fuel (binary_loop op_of sub lhs)) closed_expr.
Proof.
  intros Hops Hsub. eapply spec_first; [exact Hsub|]. intros lhs Hl. apply spec_fuel. intros fuel.
  apply spec_binary_loop; [done| |done]. eapply spec_mono; [exact Hsub|lia..|done].
Qed.

Section levels.
Variable rec : P string.
Variable n : nat.
Hypothesis Hrec : spec n 1 rec closed_expr.

Lemma spec_func_call name : spec n 1 (parse_func_call rec name) closed_expr.
Proof.
  unfold parse_func_call. eapply spec_eat with (k1 := 0); [intros _| |lia].
  - eapply spec_then with (Q := Forall closed_expr); [by apply spec_ret|]. intros args Ha.
    destruct (func_sql name args) eqn:E; [apply spec_ret; by eapply closed_func|apply spec_perr].
  - eapply spec_first with (Q := Forall closed_expr) (k1 := 0).
    + eapply spec_first with (k1 := 0); [by apply spec_comma_list|]. intros args Ha.
      eapply spec_then; [apply spec_expect|]. intros _ _. by apply spec_ret.
    + intros args Ha.
      destruct (func_sql name args) eqn:E; [apply spec_ret; by eapply closed_func|apply spec_perr].
Qed.

Lemma spec_atom : spec (S n) 1 (parse_atom rec) closed_expr.
Proof.
  unfold parse_atom. eapply spec_first with (k1 := 0); [apply spec_bump|].
  rewrite Nat.sub_1_r. cbn [Nat.pred]. intros t Ht.
  destruct t; try apply spec_perr.
  - eapply spec_eat with (k1 := 0); [intros _; eapply spec_mono; [apply spec_func_call|lia..|done]| |lia].
    apply spec_peek; [by apply spec_ret, closed_column|]. intros t Ht'. apply spec_to_next.
    case_decide; [apply spec_perr|]. by apply spec_ret, closed_column.
  - by apply spec_ret, closed_show_Z.
  - apply spec_ret, closed_show_f64.
  - apply spec_ret, closed_sql_quote.
  - apply spec_duration.
  - eapply spec_then; [exact Hrec|]. intros inner Hi.
    eapply spec_then; [apply spec_expect|]. intros _ _. apply spec_ret. expr_template.
  - apply spec_ret. by expr_template.
Qed.

Lemma spec_unary_loop fuel : spec (Nat.min (S n) fuel) 1 (parse_unary_loop rec fuel) closed_expr.
Proof.
  induction fuel as [|fuel IH]; cbn [parse_unary_loop].
  { intros p _ Hr. lia. }
  eapply spec_eat with (k1 := 0); [intros _| |lia].
  - eapply spec_then; [eapply spec_mono; [exact IH|lia|reflexivity|done]|].
    intros inner Hi. apply spec_ret. expr_template.
  - eapply spec_mono; [apply spec_atom|lia..|done].
Qed.

Lemma spec_unary : spec (S n) 1 (parse_unary rec) closed_expr.
Proof. apply spec_fuel, spec_unary_loop. Qed.

Lemma spec_mult : spec (S n) 1 (parse_multiplicative rec) closed_expr.
Proof. apply spec_binary; [apply closed_multiplicative|apply spec_unary]. Qed.

Lemma spec_additive : spec (S n) 1 (parse_additive rec) closed_expr.
Proof. apply spec_binary; [apply closed_additive|apply spec_mult]. Qed.

Lemma spec_additive_less k : k <= 1 -> forall n', n' <= S n -> spec n' k (parse_additive rec) closed_expr.
Proof. intros Hk n' Hn. eapply spec_mono; [apply spec_additive|lia..|done]. Qed.

Lemma spec_between lhs : closed_expr lhs ->
  spec n 0 (_ ← expect LParen "`(`"; low ← parse_additive rec; _ ← expect DotDot "`..`";
            high ← parse_additive rec; _ ← expect RParen "`)`";
            mret (fmt ["(("; lhs; " >= "; low; ") AND ("; lhs; " <= "; high; "))"])) closed_expr.
Proof.
  intros Hl. eapply spec_then; [apply spec_expect|]. intros _ _.
  eapply spec_then; [by apply spec_additive_less with (k := 1); lia|]. intros low Hlow.
  eapply spec_then; [apply spec_expect|]. intros _ _.
  eapply spec_then; [by apply spec_additive_less with (k := 1); lia|]. intros high Hhigh.
  eapply spec_then; [apply spec_expect|]. intros _ _. apply spec_ret. expr_template.
Qed.

Lemma spec_in lhs : closed_expr lhs ->
  spec n 0 (_ ← expect LParen "`(` after `in`"; values ← comma_list (parse_additive rec);
            _ ← expect RParen "`)`"; mret (fmt ["("; lhs; " IN ("; join ", " values; "))"])) closed_expr.
Proof.
  intros Hl. eapply spec_then; [apply spec_expect|]. intros _ _.
  eapply spec_then; [by apply spec_comma_list, spec_additive_less; lia|]. intros values Hv.
  eapply spec_then; [apply spec_expect|]. intros _ _. apply spec_ret.
  pose proof (closed_comma_join _ Hv). expr_template.
Qed.

Lemma spec_comparison : spec (S n) 1 (parse_comparison rec) closed_expr.
Proof.
  unfold parse_comparison. eapply spec_first with (k1 := 0); [apply spec_additive|].
  rewrite Nat.sub_1_r. cbn [Nat.pred]. intros lhs Hl. apply spec_peek; [by apply spec_ret|]. intros t Ht.
  case_decide; [|destruct (peeks_in _); [|destruct (comparison_op _) as [op|] eqn:E]].
  - eapply spec_next_advance with (k1 := 0); [|lia]. eapply spec_mono; [by apply spec_between|lia..|done].
  - eapply spec_next_advance with (k1 := 0); [|lia]. eapply spec_mono; [by apply spec_in|lia..|done].
  - eapply spec_next_advance with (k1 := 0); [|lia].
    eapply spec_then; [by apply spec_additive_less with (k := 1); lia|]. intros rhs Hr.
    apply spec_ret, closed_comparison; [by eapply comparison_op_sql|done..].
  - by apply spec_to_next, spec_ret.
Qed.

Lemma spec_not_loop fuel : spec (Nat.min (S n) fuel) 1 (parse_not_loop rec fuel) closed_expr.
Proof.
  induction fuel as [|fuel IH]; cbn [parse_not_loop].
  { intros p _ Hr. lia. }
  apply spec_peek_ident_eq.
  - eapply spec_next_advance with (k1 := 0); [|lia].
    eapply spec_then; [eapply spec_mono; [exact IH|lia|reflexivity|done]|].
    intros inner Hi. apply spec_ret. expr_template.
  - eapply spec_mono; [apply spec_comparison|lia..|done].
Qed.

Lemma spec_not : spec (S n) 1 (parse_not rec) closed_expr.
Proof. apply spec_fuel, spec_not_loop. Qed.

Lemma spec_and : spec (S n) 1 (parse_and rec) closed_expr.
Proof. apply spec_binary; [apply closed_and|apply spec_not]. Qed.

Lemma spec_or : spec (S n) 1 (parse_or rec) closed_expr.
Proof. apply spec_binary; [apply closed_or|apply spec_and]. Qed.
End levels.

Lemma spec_expr_fuel fuel : spec fuel 1 (parse_expr_fuel fuel) closed_expr.
Proof.
  induction fuel as [|fuel IH]; cbn [parse_expr_fuel]; [intros p _ Hr; lia|]. by apply spec_or.
Qed.

Lemma spec_expr n : spec n 1 parse_expr closed_expr.
Proof.
  apply spec_fuel. intros fuel. eapply spec_mono; [apply spec_expr_fuel|lia..|done].
Qed.

Lemma spec_try_alias n :
  spec n 0 try_alias (fun o => match o with Some a => closed_expr a | None => True end).
Proof.
  intros p Hg Hr. unfold wp, try_alias.
  destruct (nth_error (toks p) (pos p)) as [[]|] eqn:E1; try (split; [done|by apply reach_refl]).
  destruct (nth_error (toks p) (pos p + 1)) as [[]|] eqn:E2; try (split; [done|by apply reach_refl]).
  simpl. split; [apply closed_quote_ident|]. destruct Hg.
  assert (pos p + 1 < List.length (toks p)) by (apply nth_error_Some; congruence).
  split; simpl; try done; [|lia]. split; simpl; try done. lia.
Qed.
