(* ===== verification/KqlGraphSpec.v ===== *)
(** * Graph operators: termination, no panic and closed output *)

From stdpp Require Import base gmap strings list.
From Stdlib Require Import NArith ZArith Lia Ascii.
From S2P Require Import Prelude Bytes F64 KqlLexer KqlState KqlParser KqlExpr KqlGraph SqlScan KqlExprSpec.

Local Open Scope string_scope.

Create HintDb kqlspec.
#[export] Hint Resolve spec_expect spec_expect_ident_eq spec_bump_ident spec_expect_ident
  spec_bump_nonneg spec_bump spec_comma_list spec_scalar_literal spec_source_seeds spec_expr
  spec_try_alias spec_get_state : kqlspec.

(** One step of a sequence whose consumption does not matter. *)
Ltac step :=
  first
  [ eapply spec_then; [solve [eauto 2 with kqlspec]|intros ? ?]
  | apply spec_perr
  | eapply spec_then with (Q := fun _ => True); [apply spec_update_state|intros ? _] ].

(** ** Shared pieces *)

Lemma closed_type_eq pre v : closed pre -> closed v -> closed (fmt [pre; type_col; " = "; v]).
Proof. intros Hp Hv d. unfold type_col. rewrite scan_fmt_cons, Hp. scan_template. Qed.

Lemma spec_direction n : spec n 0 parse_direction (fun _ => True).
Proof.
  unfold parse_direction. apply spec_peek_ident_eq; [|by apply spec_ret].
  eapply spec_next_advance with (k1 := 0); [|lia]. step.
  destruct a; try apply spec_perr. repeat (case_decide; [by apply spec_ret|]). apply spec_perr.
Qed.

Lemma spec_type_filter n : spec n 0 parse_type_filter closed.
Proof.
  unfold parse_type_filter. apply spec_peek_ident_eq; [|by apply spec_ret].
  eapply spec_next_advance with (k1 := 0); [|lia]. step. apply spec_ret.
  by apply closed_type_eq, closed_expr_closed.
Qed.
#[export] Hint Resolve spec_direction spec_type_filter : kqlspec.

Definition closed_cols (x : string * string * N * GraphDirection) : Prop :=
  closed_expr x.1.1.1 /\ closed_expr x.1.1.2.

Lemma spec_preamble n : spec n 0 parse_graph_preamble closed_cols.
Proof. unfold parse_graph_preamble. do 7 step. apply spec_ret. split; apply closed_quote_ident. Qed.

Lemma spec_min_max_hops n op : spec n 0 (parse_min_max_hops op) (fun _ => True).
Proof.
  unfold parse_min_max_hops. do 4 step. eapply spec_then with (Q := fun _ => True) (k1 := 0); [|by intros; apply spec_ret].
  unfold check_hops. repeat case_match; first [apply spec_perr|by apply spec_ret].
Qed.
#[export] Hint Resolve spec_preamble spec_min_max_hops : kqlspec.

Lemma closed_join_cond t s d dir : closed t -> closed_expr s -> closed_expr d -> closed (step_join_cond t s d dir).
Proof. intros Ht Hs Hd. unfold step_join_cond. destruct dir; intros de; scan_template. Qed.

Lemma closed_next_node s d dir : closed_expr s -> closed_expr d -> closed (next_node_sql s d dir).
Proof. intros Hs Hd. unfold next_node_sql. destruct dir; intros de; scan_template. Qed.

Lemma closed_step t s d dir : closed_expr s -> closed_expr d -> closed (build_recursive_step t s d dir).
Proof. intros Hs Hd. unfold build_recursive_step. destruct dir; intros de; scan_template. Qed.

Lemma closed_step_with_src t s d dir :
  closed_expr s -> closed_expr d -> closed (build_recursive_step_with_src t s d dir).
Proof. intros Hs Hd. unfold build_recursive_step_with_src. destruct dir; intros de; scan_template. Qed.

Lemma closed_seed_values seeds : Forall closed_expr seeds -> closed (seed_values seeds).
Proof.
  intros H. apply closed_join; [done|]. apply Forall_fmap. eapply Forall_impl; [exact H|].
  intros s Hs d. simpl. scan_template.
Qed.

Lemma closed_traverse_anchor seeds : Forall closed_expr seeds -> closed (traverse_anchor seeds).
Proof.
  intros H. pose proof (closed_seed_values _ H).
  destruct seeds as [|s [|s2 seeds]]; unfold traverse_anchor; intros d; [scan_template| |scan_template].
  inversion_clear H. scan_template.
Qed.

Lemma closed_var_anchor seeds : Forall closed_expr seeds -> closed (var_length_anchor seeds).
Proof.
  intros H. pose proof (closed_seed_values _ H).
  destruct seeds as [|s [|s2 seeds]]; unfold var_length_anchor; intros d; [scan_template| |scan_template].
  inversion_clear H. scan_template.
Qed.

Lemma closed_var_body anchor cte tbl s d dir n filt :
  closed anchor -> closed cte -> closed tbl -> closed_expr s -> closed_expr d -> closed filt ->
  closed (var_length_body anchor cte tbl s d dir n filt).
Proof.
  intros. pose proof (closed_next_node s d dir). pose proof (closed_join_cond "v" s d dir).
  pose proof (closed_show_N n). assert (closed "v") by done.
  unfold var_length_body. intros de. assert (closed (next_node_sql s d dir)) by auto.
  assert (closed (step_join_cond "v" s d dir)) by auto. scan_template.
Qed.

(** ** The operators *)

Lemma spec_graph_traverse n : spec n 0 op_graph_traverse (fun _ => True).
Proof.
  unfold op_graph_traverse. do 2 step.
  eapply spec_then; [apply spec_preamble|]. intros [[[src dst] hops] dir] [Hs Hd]. simpl in Hs, Hd.
  step. step. pose proof (cs_table _ H2) as Ht.
  pose proof (closed_traverse_anchor _ H0). pose proof (closed_step_with_src (table a2) src dst dir Hs Hd).
  pose proof (closed_join_cond "t" src dst dir ltac:(done) Hs Hd). pose proof (closed_show_N hops).
  step; [intros st Hst; apply closed_push_cte; simpl; [done| |done]; intros d; scan_template|].
  step; [intros st Hst; by apply closed_push_cte|].
  step; [intros st Hst; apply closed_push_cte; simpl; [done| |done]; intros d; scan_template|].
  apply spec_update_state. intros. by apply closed_set_table.
Qed.

Lemma spec_graph_var_length n : spec n 0 op_graph_var_length (fun _ => True).
Proof.
  unfold op_graph_var_length. do 6 step.
  eapply spec_then; [apply spec_min_max_hops|]. intros [lo hi] _. do 3 step.
  pose proof (closed_show_N lo). pose proof (closed_show_N hi).
  step; [intros st Hst; apply closed_push_cte; simpl; [done| |done]|].
  { apply closed_var_body; try done; [by apply closed_var_anchor|by destruct H7|apply closed_quote_ident..]. }
  step; [intros st Hst; by apply closed_push_cte|].
  step; [intros st Hst; apply closed_push_cte; simpl; [done| |done]; intros d; scan_template|].
  apply spec_update_state. intros. by apply closed_set_table.
Qed.

Lemma spec_graph_shortest_path n : spec n 0 op_graph_shortest_path (fun _ => True).
Proof.
  unfold op_graph_shortest_path. do 4 step.
  eapply spec_then; [apply spec_preamble|]. intros [[[src dst] hops] dir] [Hs Hd]. simpl in Hs, Hd.
  step. pose proof (cs_table _ H3) as Ht.
  pose proof (closed_step (table a3) src dst dir Hs Hd).
  pose proof (closed_join_cond "t" src dst dir ltac:(done) Hs Hd). pose proof (closed_show_N hops).
  step; [intros st Hst; apply closed_push_cte; simpl; [done| |done]; intros d; scan_template|].
  step; [intros st Hst; apply closed_push_cte; simpl; [done| |done]; intros d; scan_template|].
  step; [intros st Hst; by apply closed_push_cte|].
  apply spec_update_state. intros. by apply closed_set_table.
Qed.

Lemma spec_make_graph n : spec n 0 op_make_graph (fun _ => True).
Proof.
  unfold op_make_graph. step. eapply spec_eat with (k1 := 0); [intros _; simpl|simpl; apply spec_perr|lia].
  do 5 step. apply spec_update_state. intros st Hst. apply closed_set_graph_def; simpl; try done.
  - by destruct Hst.
  - by apply closed_expr_closed.
Qed.

(** ** Patterns *)

Lemma spec_edge_type n : spec n 0 parse_edge_type (fun _ => True).
Proof.
  unfold parse_edge_type. eapply spec_eat with (k1 := 0); [intros _| |lia].
  - step. by apply spec_ret.
  - by apply spec_ret.
Qed.

Lemma spec_node_pattern n : spec n 1 parse_node_pattern (fun _ => True).
Proof.
  unfold parse_node_pattern. eapply spec_first with (k1 := 0); [apply spec_expect|]. intros _ _.
  do 2 step. by apply spec_ret.
Qed.
#[export] Hint Resolve spec_edge_type spec_node_pattern : kqlspec.

Lemma spec_hop_pattern n : spec n 1 parse_hop_pattern (fun _ => True).
Proof.
  unfold parse_hop_pattern. eapply spec_first with (k1 := 0); [apply spec_expect|]. intros _ _.
  do 5 step. by apply spec_ret.
Qed.

Lemma spec_project_item n alias_of :
  (forall v n, spec n 0 (alias_of v) closed) -> spec n 1 (parse_project_item alias_of) closed.
Proof.
  intros Ha. unfold parse_project_item. eapply spec_first with (k1 := 0); [apply spec_expect_ident|]. intros v Hv.
  do 2 step. eapply spec_then; [apply Ha|]. intros tbl Ht.
  assert (Hend : forall n out, spec n 0 (mret (fmt [tbl; "."; quote_ident a0; " AS "; quote_ident out])) closed).
  { intros m out. apply spec_ret. pose proof (closed_quote_ident a0). pose proof (closed_quote_ident out).
    intros d. scan_template. }
  eapply spec_eat_ident_eq with (k1 := 0); [| |lia].
  - step. apply Hend.
  - eapply spec_then with (Q := fun _ => True); [by apply spec_ret|]. intros; apply Hend.
Qed.

Lemma spec_project_list n op alias_of :
  (forall v n, spec n 0 (alias_of v) closed) -> spec n 0 (parse_project_list op alias_of) (Forall closed).
Proof.
  intros Ha. unfold parse_project_list. step.
  eapply spec_then; [by apply spec_comma_list, spec_project_item|]. intros items Hi.
  destruct (is_empty items); [apply spec_perr|by apply spec_ret].
Qed.

Lemma spec_graph_var_match n : spec n 0 op_graph_var_match (fun _ => True).
Proof.
  unfold op_graph_var_match. eapply spec_then; [apply spec_get_state|]. intros st0 Hst0.
  destruct (graph_def st0) as [def|] eqn:E; [|apply spec_perr].
  destruct (cs_graph_def _ Hst0 _ E) as [He Hn]. do 2 step.
  eapply spec_then; [apply spec_hop_pattern|]. intros [[rel ty] b] _.
  eapply spec_then; [apply spec_min_max_hops|]. intros [lo hi] _. step.
  eapply spec_then; [apply spec_project_list|].
  { intros v m. unfold var_match_alias. repeat case_decide; first [apply spec_perr|by apply spec_ret]. }
  intros items Hi. pose proof (closed_join ", " items ltac:(done) Hi).
  pose proof (closed_show_N lo). pose proof (closed_show_N hi). pose proof (closed_quote_ident (id_col def)).
  step; [intros st Hst; apply closed_push_cte; simpl; [done| |done]|].
  { apply closed_var_body; try done; [|apply closed_quote_ident..|].
    - intros d. scan_template.
    - destruct ty; [|done]. apply closed_type_eq; [done|]. apply closed_expr_closed, closed_sql_quote. }
  step; [intros st Hst; by apply closed_push_cte|].
  step; [intros st Hst; apply closed_push_cte; simpl; [done| |done]; intros d; scan_template|].
  apply spec_update_state. intros. by apply closed_set_table.
Qed.

(** * [graph-match]: termination, no panic and closed output

    The pattern invariants that make the indexing and the [expect]s of the
    source safe: a segment has one node more than edges, and every endpoint of
    an edge is one of the pattern's node variables. *)

Abbreviation pattern := (list string * list (string * option string))%type.

(** A parsed segment. *)
Definition segment_ok (x : pattern) : Prop :=
  List.length x.1 = S (List.length x.2) /\ 1 <= List.length x.2.

Lemma spec_hops_loop n fuel nodes edges :
  List.length nodes = S (List.length edges) ->
  spec (Nat.min n fuel) 1 (hops_loop nodes edges fuel) segment_ok.
Proof.
  revert nodes edges. induction fuel as [|fuel IH]; intros nodes edges Hl; cbn [hops_loop].
  { intros p _ Hr. lia. }
  eapply spec_first; [apply spec_hop_pattern|]. intros [[e ty] x] _.
  assert (Hl' : List.length (nodes ++ [x]) = S (List.length (edges ++ [(e, ty)]))).
  { rewrite !length_app. simpl. lia. }
  eapply spec_eat with (k := 0) (k1 := 1); [intros _| |lia].
  - eapply spec_mono; [by apply IH|lia..|done].
  - apply spec_ret. split; simpl; [done|]. rewrite length_app. simpl. lia.
Qed.

(** ** The linear lowering *)

Lemma closed_indexed pre i : closed pre -> closed (fmt [pre; show_nat i]).
Proof. intros Hp d. pose proof (closed_show_nat i). rewrite scan_fmt_cons, Hp. scan_template. Qed.

Lemma spec_linear_alias n nodes edges v :
  segment_ok (nodes, edges) -> spec n 0 (linear_alias nodes edges v) closed.
Proof.
  intros [Hl H1]. simpl in *. unfold linear_alias, unknown_variable. case_decide as Hone.
  - destruct edges as [|[e ty] [|]]; simpl in *; try lia.
    destruct nodes as [|n0 [|n1 ns]]; simpl in *; try lia.
    repeat (case_decide; [by apply spec_ret|]). apply spec_perr.
  - repeat case_match; first [apply spec_perr|by apply spec_ret, closed_indexed].
Qed.

Lemma closed_type_filters pre l : closed pre -> Forall closed (type_filters pre l).
Proof.
  intros Hp. unfold type_filters. apply Forall_forall. intros s Hs.
  apply list_elem_of_omap in Hs as ([i [t|]] & _ & Hs); simplify_eq/=.
  pose proof (closed_show_nat i). pose proof (closed_sql_quote t). unfold type_col.
  intros d. rewrite scan_fmt_cons, Hp. scan_template.
Qed.

Lemma closed_where_sql l : Forall closed l -> closed (where_sql l).
Proof.
  intros H. unfold where_sql. destruct (is_empty l); [done|].
  pose proof (closed_join " AND " l ltac:(done) H). intros d. scan_template.
Qed.

Lemma closed_chain_from et nt s d id n :
  closed et -> closed nt -> closed_expr s -> closed_expr d -> closed_expr id ->
  closed (chain_from et nt s d id n).
Proof.
  intros. unfold chain_from. apply (foldl_inv _ (fun _ from => closed from)).
  - intros de. scan_template.
  - intros pre i from _ Hf. pose proof (closed_show_nat i). pose proof (closed_show_nat (i + 1)).
    intros de. scan_template.
Qed.

Lemma closed_linear_body def sel edges :
  closed (edge_table def) -> closed (node_table def) -> closed sel ->
  closed (linear_body def sel edges).
Proof.
  intros He Hn Hs. unfold linear_body.
  pose proof (closed_quote_ident (src_col def)) as Hsrc.
  pose proof (closed_quote_ident (dst_col def)) as Hdst.
  pose proof (closed_quote_ident (id_col def)) as Hid.
  assert (Hmulti : forall from w, closed from -> closed w -> closed (fmt ["SELECT "; sel; " FROM "; from; w])).
  { intros from w Hf Hw d. scan_template. }
  destruct edges as [|[e ty] [|e2 edges]].
  2:{ assert (Hw : closed (match ty with Some t => fmt [" WHERE e."; type_col; " = "; sql_quote t]
                                       | None => "" end)).
      { destruct ty as [t|]; [|done]. apply closed_type_eq; [done|]. apply closed_expr_closed, closed_sql_quote. }
      intros d. scan_template. }
  all: apply Hmulti; [by apply closed_chain_from|by apply closed_where_sql, closed_type_filters].
Qed.

(** ** The general lowering *)

Definition edges_ok (node_vars : list string) (edges : list Edge) : Prop :=
  Forall (fun e => e_src e ∈ node_vars /\ e_dst e ∈ node_vars) edges.

Lemma push_node_subset nv v : nv ⊆ push_node nv v /\ v ∈ push_node nv v.
Proof. unfold push_node. case_decide; set_solver. Qed.

Lemma push_nodes_subset nodes nv : nv ⊆ foldl push_node nv nodes /\ nodes ⊆ foldl push_node nv nodes.
Proof.
  revert nv. induction nodes as [|x nodes IH]; intros nv; simpl; [set_solver|].
  destruct (IH (push_node nv x)) as [H1 H2]. destruct (push_node_subset nv x) as [H3 H4]. clear IH. set_solver.
Qed.

Lemma edges_ok_mono nv nv' edges : nv ⊆ nv' -> edges_ok nv edges -> edges_ok nv' edges.
Proof. intros Hsub H. eapply Forall_impl; [exact H|]. set_solver. Qed.

Lemma first_edges_ok nodes edges : List.length nodes = S (List.length edges) ->
  exists l, first_edges nodes edges = Some l /\ edges_ok nodes l.
Proof.
  revert nodes. induction edges as [|[e ty] edges IH]; intros nodes Hl; simpl; [exists []; split; [done|constructor]|].
  destruct nodes as [|s [|d nodes]]; simpl in *; try lia.
  destruct (IH (d :: nodes)) as (l & -> & Hok); [simpl; lia|]. simpl.
  eexists; split; [done|]. constructor; simpl; [set_solver|].
  eapply edges_ok_mono; [|exact Hok]. set_solver.
Qed.

Lemma npos_elem nv v : v ∈ nv -> exists i, npos nv v = Some i.
Proof.
  intros Hv. unfold npos, position.
  destruct (list_find _ nv) as [[i x]|] eqn:E; [by exists i|].
  apply list_find_None in E. rewrite Forall_forall in E. exfalso. apply (E v Hv). by apply bool_decide_true.
Qed.

Lemma spec_segment_loop n fuel prev opt nv edges :
  prev ∈ nv -> edges_ok nv edges ->
  spec (Nat.min n fuel) 1 (segment_loop prev opt nv edges fuel) (fun x => edges_ok x.1 x.2).
Proof.
  revert prev nv edges. induction fuel as [|fuel IH]; intros prev nv edges Hp Hok; cbn [segment_loop].
  { intros p _ Hr. lia. }
  eapply spec_first; [apply spec_hop_pattern|]. intros [[e ty] x] _.
  destruct (push_node_subset nv x) as [Hsub Hx].
  assert (Hok' : edges_ok (push_node nv x)
    (edges ++ [{| e_var := e; e_type := ty; e_src := prev; e_dst := x; e_optional := opt |}])).
  { apply Forall_app. split; [by eapply edges_ok_mono|]. apply Forall_singleton. set_solver. }
  eapply spec_eat with (k := 0) (k1 := 1); [intros _| |lia].
  - eapply spec_mono; [by apply IH|lia..|done].
  - by apply spec_ret.
Qed.

Lemma spec_segments_loop n fuel nv edges :
  edges_ok nv edges -> spec (Nat.min n fuel) 0 (segments_loop nv edges fuel) (fun x => edges_ok x.1 x.2).
Proof.
  revert nv edges. induction fuel as [|fuel IH]; intros nv edges Hok; cbn [segments_loop].
  { intros p _ Hr. lia. }
  eapply spec_eat with (k1 := 0); [intros _|by apply spec_ret|lia].
  assert (Hrest : forall opt, spec (Nat.min n (S fuel) - 1) 0
    (prev ← parse_node_pattern;
     _ ← expect Minus "-";
     '(node_vars, edge_list) ← with_fuel (segment_loop prev opt (push_node nv prev) edges);
     segments_loop node_vars edge_list fuel) (fun x => edges_ok x.1 x.2)).
  { intros opt. do 2 step. destruct (push_node_subset nv a) as [Hsub Ha].
    eapply spec_then; [apply spec_fuel; intros f; apply spec_segment_loop; [done|by eapply edges_ok_mono]|].
    intros [nv' edges'] Hok'. eapply spec_mono; [by apply IH|lia..|done]. }
  eapply spec_eat_ident_eq with (k1 := 0); [eapply spec_mono; [apply (Hrest true)|lia..|done]|apply Hrest|lia].
Qed.

Lemma spec_general_alias n nv edges v : spec n 0 (general_alias nv edges v) closed.
Proof.
  unfold general_alias, unknown_variable. repeat case_match; first [apply spec_perr|by apply spec_ret, closed_indexed].
Qed.

Lemma elem_of_enumerate {A} (l : list A) i x : (i, x) ∈ enumerate l -> x ∈ l.
Proof.
  unfold enumerate. intros H. apply list_elem_of_In in H. apply list_elem_of_In.
  by eapply in_combine_r.
Qed.

Section joins.
Context (et nt s d id : string).
Hypothesis (Het : closed et) (Hnt : closed nt).
Hypothesis (Hs : closed_expr s) (Hd : closed_expr d) (Hid : closed_expr id).

Lemma closed_edge_cond g i j col : closed g -> closed_expr col ->
  closed (fmt [g; show_nat i; "."; col; " = gn"; show_nat j; "."; id]).
Proof.
  intros Hg Hc de. pose proof (closed_show_nat i). pose proof (closed_show_nat j).
  rewrite scan_fmt_cons, Hg. scan_template.
Qed.

Lemma closed_node_join from jk ge g col : closed from -> closed jk -> closed_expr col ->
  closed (fmt [from; " "; jk; " "; nt; " gn"; show_nat g; " ON ge"; show_nat ge; "."; col; " = gn"; show_nat g; "."; id]).
Proof.
  intros Hf Hj Hc de. pose proof (closed_show_nat ge). pose proof (closed_show_nat g). scan_template.
Qed.

Lemma join_edge_ok nv ei e joined from :
  e_src e ∈ nv -> e_dst e ∈ nv -> closed from ->
  exists joined' from', join_edge et nt s d id nv (ei, e) (joined, from) = Ret (joined', from') /\ closed from'.
Proof.
  intros [si Hsi]%npos_elem [di Hdi]%npos_elem Hf. unfold join_edge. rewrite Hsi, Hdi.
  pose proof (closed_show_nat si). pose proof (closed_show_nat di). pose proof (closed_show_nat ei).
  cbn [or_panic mbind outcome_bind]. case_decide.
  { do 2 eexists; split; [done|]. intros de. scan_template. }
  set (jk := if e_optional e then "LEFT JOIN" else "JOIN").
  assert (Hjk : closed jk) by (unfold jk; by destruct (e_optional e)).
  set (conds := (_ ++ _ ++ _)%list).
  assert (Hc : Forall closed conds).
  { unfold conds. repeat (apply Forall_app; split).
    - case_decide; [apply Forall_singleton; by apply closed_edge_cond|constructor].
    - case_decide; [apply Forall_singleton; by apply closed_edge_cond|constructor].
    - repeat case_match; try constructor; [|constructor]. pose proof (closed_sql_quote s0).
      unfold type_col. intros de. scan_template. }
  clearbody conds. set (from1 := if is_empty conds then _ else _).
  assert (Hf1 : closed from1).
  { unfold from1. pose proof (closed_join " AND " conds ltac:(done) Hc).
    repeat case_match; intros de; scan_template. }
  clearbody from1. cbv zeta.
  repeat case_decide; do 2 eexists; (split; [reflexivity|]); repeat apply closed_node_join; done.
Qed.

Lemma general_from_ok nv edges : edges_ok nv edges ->
  exists from, general_from et nt s d id nv edges = Ret from /\ closed from.
Proof.
  intros Hok. unfold general_from.
  destruct (for_each_inv (join_edge et nt s d id nv) (fun _ acc => closed acc.2) (enumerate edges) ([], ""))
    as ([j f] & -> & Hf); [done| |by exists f].
  intros pre [ei e] rest [j f] Hl Hf.
  assert (e ∈ edges) as Hin by (eapply (elem_of_enumerate edges ei); rewrite Hl; set_solver).
  unfold edges_ok in Hok. rewrite Forall_forall in Hok. destruct (Hok e Hin).
  destruct (join_edge_ok nv ei e j f) as (j' & f' & -> & Hf'); [done..|]. by exists (j', f').
Qed.
End joins.

(** ** The operator *)

Lemma spec_lift {A} n (o : outcome ParseError A) a (Q : A -> Prop) : o = Ret a -> Q a -> spec n 0 (lift o) Q.
Proof. intros -> Ha p Hg _. split; [done|]. by apply reach_refl. Qed.

Lemma spec_push_result n body :
  closed body ->
  spec n 0 (_ ← update_state (push_cte ("_gm_result", body, false)); update_state (set_table "_gm_result"))
    (fun _ => True).
Proof.
  intros Hb. step; [intros st Hst; by apply closed_push_cte|].
  apply spec_update_state. intros. by apply closed_set_table.
Qed.

Lemma spec_general n def nodes edges :
  segment_ok (nodes, edges) -> closed (edge_table def) -> closed (node_table def) ->
  spec n 0 (emit_general_graph_match def nodes edges) (fun _ => True).
Proof.
  intros [Hl _] He Hn. simpl in Hl. unfold emit_general_graph_match.
  destruct (first_edges_ok nodes edges Hl) as (l & Hfirst & Hok).
  eapply spec_then with (Q := fun x => x = l); [eapply spec_lift; [by rewrite Hfirst|done]|]. intros ? ->.
  eapply spec_then; [apply spec_fuel; intros f; apply spec_segments_loop|].
  { eapply edges_ok_mono; [|exact Hok]. apply push_nodes_subset. }
  intros [nv es] Hok'. simpl in Hok'.
  eapply spec_then; [apply spec_project_list; intros; apply spec_general_alias|]. intros items Hi.
  destruct (general_from_ok (edge_table def) (node_table def) (quote_ident (src_col def))
    (quote_ident (dst_col def)) (quote_ident (id_col def)) He Hn ltac:(apply closed_quote_ident)
    ltac:(apply closed_quote_ident) ltac:(apply closed_quote_ident) nv es Hok') as (from & Hfrom & Hcl).
  eapply spec_then with (Q := fun x => x = from); [eapply spec_lift; [exact Hfrom|done]|]. intros ? ->.
  apply spec_push_result. pose proof (closed_join ", " items ltac:(done) Hi).
  assert (closed (where_sql (general_wheres es))) by (by apply closed_where_sql, closed_type_filters).
  intros de. scan_template.
Qed.

Lemma spec_graph_match n : spec n 0 op_graph_match (fun _ => True).
Proof.
  unfold op_graph_match. eapply spec_then; [apply spec_get_state|]. intros st0 Hst0.
  destruct (graph_def st0) as [def|] eqn:E; [|apply spec_perr].
  destruct (cs_graph_def _ Hst0 _ E) as [He Hn]. do 2 step.
  eapply spec_then; [apply spec_fuel; intros f; by apply spec_hops_loop|]. intros [nodes edges] Hseg.
  assert (Hlin : forall m, spec m 0
    (select_items ← parse_project_list "graph-match" (linear_alias nodes edges);
     _ ← update_state (push_cte ("_gm_result", linear_body def (join ", " select_items) edges, false));
     update_state (set_table "_gm_result")) (fun _ => True)).
  { intros m. eapply spec_then; [apply spec_project_list; intros; by apply spec_linear_alias|].
    intros items Hi. apply spec_push_result, closed_linear_body; try done. by apply closed_join. }
  apply spec_peek; [apply Hlin|]. intros t _. apply spec_to_next.
  case_decide; [by apply spec_general|apply Hlin].
Qed.
