(* ===== verification/KqlLexSpec.v ===== *)
(** * What the lexer guarantees

    [tokenize] never runs out of fuel, and its tokens satisfy [tok_ok]:
    identifiers are closed SQL text and integers are not negative. *)

From stdpp Require Import base gmap strings list pretty.
From Stdlib Require Import NArith ZArith Lia Ascii.
From S2P Require Import Prelude Bytes F64 KqlLexer KqlState KqlParser SqlScan KqlExprSpec.

Local Open Scope string_scope.

(** ** Progress: every sub-scanner leaves a suffix of its input *)

Lemma skip_line_length cs : List.length (skip_line cs) <= List.length cs.
Proof. induction cs as [|c cs IH]; simpl; [done|]. destruct (_ =? _)%N; simpl; lia. Qed.

Lemma scan_dquote_length cs s s' rest :
  scan_dquote cs s = Ret (s', rest) -> List.length rest <= List.length cs.
Proof.
  revert s. induction cs as [cs IH] using (well_founded_induction (well_founded_ltof _ (@List.length char))).
  intros s H. destruct cs as [|c cs]; [done|]. simpl in *.
  destruct (c =? 34)%N; [simplify_eq; simpl; lia|].
  destruct (c =? 92)%N; [destruct cs as [|x cs]; [done|]|]; apply IH in H; unfold ltof in *; simpl in *; lia.
Qed.

Lemma scan_squote_length cs s s' rest :
  scan_squote cs s = Ret (s', rest) -> List.length rest <= List.length cs.
Proof.
  revert s. induction cs as [|c cs IH]; intros s H; [done|]. simpl in *.
  destruct (_ =? _)%N; [simplify_eq; lia|]. apply IH in H. lia.
Qed.

Lemma scan_dquote_total cs s : scan_dquote cs s <> Panic /\ scan_dquote cs s <> OutOfFuel.
Proof.
  revert s. induction cs as [cs IH] using (well_founded_induction (well_founded_ltof _ (@List.length char))).
  intros s. destruct cs as [|c cs]; [done|]. simpl.
  destruct (c =? 34)%N; [done|].
  destruct (c =? 92)%N; [destruct cs as [|x cs]; [done|]|]; apply IH; unfold ltof; simpl; lia.
Qed.

Lemma scan_squote_total cs s : scan_squote cs s <> Panic /\ scan_squote cs s <> OutOfFuel.
Proof.
  revert s. induction cs as [|c cs IH]; intros s; [done|]. simpl. destruct (_ =? _)%N; [done|apply IH].
Qed.

Lemma scan_number_length cs lit fl : List.length (scan_number cs lit fl).2 <= List.length cs.
Proof.
  revert lit fl. induction cs as [|c cs IH]; intros lit fl; [done|]. cbn [scan_number].
  destruct (is_ascii_digit c); [pose proof (IH (push lit c) fl); simpl; lia|].
  destruct (_ =? _)%N; [|done]. destruct cs as [|c' cs']; [done|].
  destruct (is_ascii_digit c'); [|done]. pose proof (IH (push lit c) true). simpl in *. lia.
Qed.

Lemma scan_ident_length cs s : List.length (scan_ident cs s).2 <= List.length cs.
Proof.
  revert s. induction cs as [|c cs IH]; intros s; [done|]. cbn [scan_ident].
  destruct (_ || _); [|done]. destruct (_ =? _)%N.
  - destruct cs as [|c' cs']; [done|]. destruct (is_ascii_alphabetic c'); [|done].
    pose proof (IH (push s c)). simpl in *. lia.
  - pose proof (IH (push s c)). simpl in *. lia.
Qed.

Lemma duration_suffix_length cs c rest :
  duration_suffix cs = Some (c, rest) -> List.length rest <= List.length cs.
Proof.
  unfold duration_suffix. destruct cs as [|x cs]; [done|].
  intros H. repeat case_match; simplify_eq; simpl; lia.
Qed.

(** ** Token contents *)

Lemma digits_value_nonneg s acc n : (0 <= acc)%Z -> digits_value s acc = Some n -> (0 <= n)%Z.
Proof.
  revert acc. induction s as [|a s IH]; intros acc Ha H; simpl in H; [by simplify_eq|].
  destruct (_ || _)%Z eqn:E; [done|]. apply orb_false_iff in E as [E1%Z.ltb_ge E2%Z.ltb_ge].
  eapply IH; [|exact H]. lia.
Qed.

Lemma parse_i64_range s n : parse_i64 s = Some n -> (0 <= n < 2 ^ 63)%Z.
Proof.
  unfold parse_i64. destruct s; [done|]. destruct (digits_value _ 0) as [v|] eqn:E; [|done].
  destruct (v <? 2 ^ 63)%Z eqn:Hv; [|done]. intros [= <-]. apply Z.ltb_lt in Hv.
  split; [by apply (digits_value_nonneg _ 0 v) in E|done].
Qed.

Lemma push_ascii s c : (c < 128)%N -> push s c = s +:+ String (byte_of c) "".
Proof. intros Hc. unfold push, encode_char. by rewrite (proj2 (N.ltb_lt c 128)). Qed.

Lemma ident_char_lt c : is_ident_char c = true -> (c < 128)%N.
Proof.
  unfold is_ident_char, is_ascii_alphanumeric, is_ascii_alphabetic, is_ascii_digit, ch.
  change (N_of_ascii "_") with 95%N.
  repeat (rewrite ?orb_true_iff, ?andb_true_iff, ?N.leb_le, ?N.eqb_eq). lia.
Qed.

Lemma alphabetic_ident c : is_ascii_alphabetic c = true -> is_ident_char c = true.
Proof. unfold is_ident_char, is_ascii_alphanumeric. by intros ->. Qed.

Lemma closed_push_ident s c : closed_expr s \/ s = "" -> is_ident_char c = true -> closed_expr (push s c).
Proof.
  intros Hs Hc. rewrite push_ascii by by apply ident_char_lt.
  assert (Hb : word_byte (byte_of c) = true).
  { apply ident_word. unfold ident_byte, ch. rewrite N_of_byte_of; [done|]. apply ident_char_lt in Hc. lia. }
  intros d m Hm. rewrite scan_app. destruct Hs as [Hs| ->]; [rewrite Hs by done|]; cbn [scan];
    by rewrite scan_word_byte.
Qed.

(** A dash inside an identifier is always followed by a letter. *)
Definition dashed (s : string) : Prop := exists s0, s = push s0 (ch "-") /\ closed_expr s0.

Lemma closed_push_dashed s c : dashed s -> is_ident_char c = true -> closed_expr (push s c).
Proof.
  intros (s0 & -> & Hs) Hc. rewrite (push_ascii _ c) by by apply ident_char_lt.
  rewrite push_ascii by done.
  assert (Hb : word_byte (byte_of c) = true).
  { apply ident_word. unfold ident_byte, ch. rewrite N_of_byte_of; [done|]. apply ident_char_lt in Hc. lia. }
  intros d m Hm. rewrite !scan_app, Hs by done. cbn [scan].
  change (scan_byte (Normal d Neutral) (byte_of (ch "-"))) with (Normal d AfterDash).
  by rewrite scan_word_byte.
Qed.

Lemma scan_ident_closed cs s :
  match cs with
  | c :: _ => closed_expr s \/ s = "" /\ is_ident_char c = true \/ dashed s /\ is_ascii_alphabetic c = true
  | [] => closed_expr s
  end -> closed_expr (scan_ident cs s).1.
Proof.
  revert s. induction cs as [|c cs IH]; intros s Hs; [done|]. cbn [scan_ident].
  destruct (is_ident_char c) eqn:Ec; cbn [orb].
  - assert (((c =? ch "-")%N) = false) as ->.
    { apply N.eqb_neq. intros ->. by vm_compute in Ec. }
    apply IH. assert (closed_expr (push s c)).
    { destruct Hs as [Hs|[[-> Hc]|[Hs Hc]]]; [apply closed_push_ident; auto..|by apply closed_push_dashed]. }
    by destruct cs; [|left].
  - assert (Hcl : closed_expr s).
    { destruct Hs as [Hs|[[_ Hc]|[_ Hc%alphabetic_ident]]]; [done|congruence..]. }
    destruct (c =? ch "-")%N eqn:Ed; [|done]. apply N.eqb_eq in Ed as ->.
    destruct cs as [|c' cs']; [done|]. destruct (is_ascii_alphabetic c') eqn:Ea; [|done].
    apply IH. right; right. split; [|done]. by exists s.
Qed.

(** ** The loop *)

Lemma number_token_ok cs t rest :
  number_token cs = Ret (t, rest) -> tok_ok t /\ List.length rest <= List.length cs.
Proof.
  unfold number_token. pose proof (scan_number_length cs "" false) as Hlen.
  destruct (scan_number cs "" false) as [[lit fl] r]. simpl in Hlen.
  destruct (duration_suffix r) as [[c r']|] eqn:Ed.
  - intros [= <- <-]. apply duration_suffix_length in Ed. split; [done|lia].
  - destruct fl.
    + destruct (parse_f64 lit); simpl; intros [= <- <-]. done.
    + destruct (parse_i64 lit) as [n|] eqn:En; simpl; intros [= <- <-].
      split; [|done]. apply parse_i64_range in En. simpl. lia.
Qed.

Lemma scan_number_progress c rest lit fl : is_ascii_digit c = true ->
  List.length (scan_number (c :: rest) lit fl).2 <= List.length rest.
Proof. intros Hd. cbn [scan_number]. rewrite Hd. apply scan_number_length. Qed.

Lemma scan_ident_progress c rest : is_ident_char c = true ->
  List.length (scan_ident (c :: rest) "").2 <= List.length rest.
Proof.
  intros Hc. cbn [scan_ident]. rewrite Hc. cbn [orb].
  destruct (c =? ch "-")%N eqn:E; [|apply scan_ident_length].
  apply N.eqb_eq in E as ->. by vm_compute in Hc.
Qed.

Lemma number_token_progress c rest : is_ascii_digit c = true ->
  match number_token (c :: rest) with
  | Ret (t, r) => tok_ok t /\ List.length r <= List.length rest
  | Fail _ => True
  | _ => False
  end.
Proof.
  intros Hd. pose proof (number_token_ok (c :: rest)) as Hok. unfold number_token in *.
  pose proof (scan_number_progress c rest "" false Hd) as Hlen.
  destruct (scan_number (c :: rest) "" false) as [[lit fl] r]. simpl in Hlen.
  destruct (duration_suffix r) as [[x r']|] eqn:Ed.
  - apply duration_suffix_length in Ed. split; [done|lia].
  - destruct fl; [destruct (parse_f64 lit)|destruct (parse_i64 lit)]; simpl in *; try done.
    split; [|done]. apply (Hok _ _ eq_refl).
Qed.

Definition token_ok (o : option Token) : Prop := match o with Some t => tok_ok t | None => True end.

Lemma one_or_two_ok second t2 t1 cs t rest : one_or_two second t2 t1 cs = (t, rest) ->
  tok_ok t2 -> tok_ok t1 -> tok_ok t /\ List.length rest <= List.length cs.
Proof.
  unfold one_or_two. destruct cs as [|c cs]; [by intros [= <- <-]|].
  destruct (_ =? _)%N; intros [= <- <-]; simpl; auto.
Qed.

(** The branches that push a fixed token. *)
Ltac punct :=
  first [ split; [done|simpl; lia]
        | match goal with
          | |- context [one_or_two ?a ?b ?c ?d] =>
              let E := fresh in destruct (one_or_two a b c d) as [? ?] eqn:E;
              eapply one_or_two_ok in E; [exact E|done..]
          end ].

Lemma lex_step_ok c rest :
  match lex_step c rest with
  | Ret (o, rest') => token_ok o /\ List.length rest' <= List.length rest
  | Fail _ => True
  | _ => False
  end.
Proof.
  unfold lex_step. cbv zeta.
  destruct (is_whitespace c); [done|].
  destruct ((c =? ch "/")%N && _) eqn:Esl.
  { split; [done|]. apply andb_prop in Esl as [Ec%N.eqb_eq _]. subst c.
    change (skip_line (ch "/" :: rest)) with (skip_line rest). apply skip_line_length. }
  repeat (match goal with
          | |- match (if (c =? ch "-")%N then _ else _) with _ => _ end => fail 1
          | |- match (if (c =? ch "!")%N then _ else _) with _ => _ end => fail 1
          | |- match (if (c =? 34)%N then _ else _) with _ => _ end => fail 1
          | |- match (if (c =? ?x)%N then _ else _) with _ => _ end => destruct (c =? x)%N; [punct|]
          end).
  destruct (c =? ch "-")%N.
  { destruct (peek2 rest _); [|punct]. split; [done|]. rewrite length_drop. lia. }
  repeat (match goal with
          | |- match (if (c =? ch "!")%N then _ else _) with _ => _ end => fail 1
          | |- match (if (c =? ?x)%N then _ else _) with _ => _ end => destruct (c =? x)%N; [punct|]
          end).
  destruct (c =? ch "!")%N.
  { destruct rest as [|x rest]; [done|]. destruct (_ =? _)%N; [|done]. split; [done|simpl; lia]. }
  repeat (match goal with
          | |- match (if (c =? 34)%N then _ else _) with _ => _ end => fail 1
          | |- match (if (c =? ?x)%N then _ else _) with _ => _ end => destruct (c =? x)%N; [punct|]
          end).
  destruct (c =? 34)%N.
  { pose proof (scan_dquote_total rest "") as [Hp Hf].
    destruct (scan_dquote rest "") as [[s r]| | |] eqn:E; simpl; try done. by apply scan_dquote_length in E. }
  destruct (c =? 39)%N.
  { pose proof (scan_squote_total rest "") as [Hp Hf].
    destruct (scan_squote rest "") as [[s r]| | |] eqn:E; simpl; try done. by apply scan_squote_length in E. }
  destruct (is_ascii_digit c) eqn:Edig.
  { pose proof (number_token_progress c rest Edig) as Hn. by destruct (number_token _) as [[t r]| | |]. }
  destruct (is_ascii_alphabetic c || _) eqn:Eal; [|done].
  assert (Hc : is_ident_char c = true).
  { unfold is_ident_char. apply orb_prop in Eal as [?%alphabetic_ident| ->]; [done|by rewrite orb_true_r]. }
  pose proof (scan_ident_closed (c :: rest) "") as Hcl.
  pose proof (scan_ident_progress c rest Hc) as Hlen.
  destruct (scan_ident (c :: rest) "") as [id r]. split; [|done]. apply Hcl. right; left. by split.
Qed.

Lemma tokenize_loop_ok fuel cs out :
  List.length cs <= fuel -> Forall tok_ok out ->
  match tokenize_loop fuel cs out with
  | Ret ts => Forall tok_ok ts
  | Fail _ => True
  | _ => False
  end.
Proof.
  revert cs out. induction fuel as [|fuel IH]; intros cs out Hf Ho; destruct cs as [|c rest]; simpl in *; try done; [lia|].
  pose proof (lex_step_ok c rest) as Hs. destruct (lex_step c rest) as [[o r]| | |]; try done. simpl.
  destruct Hs as [Hok Hl]. apply IH; [lia|]. apply Forall_app. split; [done|].
  destruct o; simpl; [by apply Forall_singleton|constructor].
Qed.

(** The lexer is total and its tokens are well-formed. *)
Lemma tokenize_ok src :
  match tokenize src with
  | Ret ts => Forall tok_ok ts
  | Fail _ => True
  | _ => False
  end.
Proof. apply tokenize_loop_ok; [done|constructor]. Qed.

(** * Lexemes: how tokens are written

    The spellings of every kind of token but floats, and that the lexer reads
    a sequence of them, separated by spaces, back as the tokens they spell. *)

(** A lexeme of each kind; a string is written between double quotes. *)
Inductive lexeme :=
  | LIdent (l : list char)
  | LInt (n : N)
  | LStr (l : list char)
  | LDuration (n : N) (suffix : char)
  | LPunct (t : Token).

Definition space : char := 32%N.
Definition digit_chars (n : N) : list char := map ch (as_bytes (show_N n)).

Definition escape (c : char) : list char :=
  if (c =? 34)%N then [92; 34]%N
  else if (c =? 92)%N then [92; 92]%N
  else if (c =? 10)%N then [92; ch "n"]%N
  else [c].

Definition punct (t : Token) : option (list char) :=
  match t with
  | Pipe => Some [ch "|"] | Comma => Some [ch ","] | LParen => Some [ch "("] | RParen => Some [ch ")"]
  | LBracket => Some [ch "["] | RBracket => Some [ch "]"] | Dot => Some [ch "."]
  | DotDot => Some [ch "."; ch "."] | Eq => Some [ch "="; ch "="] | Ne => Some [ch "!"; ch "="]
  | Lt => Some [ch "<"] | Le => Some [ch "<"; ch "="] | Gt => Some [ch ">"] | Ge => Some [ch ">"; ch "="]
  | Plus => Some [ch "+"] | Minus => Some [ch "-"] | Star => Some [ch "*"] | Slash => Some [ch "/"]
  | Percent => Some [ch "%"] | Assign => Some [ch "="] | Colon => Some [ch ":"]
  | Arrow => Some [ch "-"; ch "-"; ch ">"] | RightArrow => Some [ch "-"; ch ">"]
  | _ => None
  end.

Definition spell (x : lexeme) : list char :=
  match x with
  | LIdent l => l
  | LInt n => digit_chars n
  | LStr l => (34%N :: concat (map escape l) ++ [34%N])%list
  | LDuration n suffix => (digit_chars n ++ [suffix])%list
  | LPunct t => default [] (punct t)
  end.

Definition token_of (x : lexeme) : Token :=
  match x with
  | LIdent l => Ident (of_chars l)
  | LInt n => Int (Z.of_N n)
  | LStr l => Str (of_chars l)
  | LDuration n suffix => Duration (push (show_N n) suffix)
  | LPunct t => t
  end.

(** Identifier characters, where a dash must be followed by a letter. *)
Fixpoint ident_chars (l : list char) : bool :=
  match l with
  | [] => true
  | c :: l' =>
      (if (c =? ch "-")%N then match l' with nc :: _ => is_ascii_alphabetic nc | [] => false end
       else is_ident_char c) && ident_chars l'
  end.

Definition wf_lexeme (x : lexeme) : bool :=
  match x with
  | LIdent (c :: l) => (is_ascii_alphabetic c || (c =? ch "_")%N) && ident_chars (c :: l)
  | LIdent [] => false
  | LInt n => (n <? 2 ^ 63)%N
  | LStr l => true
  | LDuration n suffix => existsb (N.eqb suffix) [ch "s"; ch "m"; ch "h"; ch "d"]
  | LPunct t => bool_decide (is_Some (punct t))
  end.

(** Spaces between lexemes. *)
Fixpoint spell_all (l : list lexeme) : list char :=
  match l with
  | [] => []
  | x :: l => (spell x ++ space :: spell_all l)%list
  end.

(** ** The scanners on a spelling *)

Lemma scan_ident_spell l pre rest :
  ident_chars l = true -> scan_ident (l ++ space :: rest) (of_chars pre) = (of_chars (pre ++ l), space :: rest).
Proof.
  revert pre. induction l as [|c l IH]; intros pre H; [by rewrite app_nil_r|].
  cbn [ident_chars] in H. apply andb_prop in H as [Hc Hl]. cbn [app scan_ident].
  destruct (c =? ch "-")%N eqn:Ed.
  - rewrite orb_true_r. apply N.eqb_eq in Ed as ->. destruct l as [|c' l]; [done|]. cbn [app].
    rewrite Hc, push_of_chars. change (c' :: l ++ space :: rest)%list with ((c' :: l) ++ space :: rest)%list.
    rewrite IH by done. by rewrite <-app_assoc.
  - rewrite Hc, push_of_chars. cbn [orb]. rewrite IH by done. by rewrite <-app_assoc.
Qed.

Lemma scan_dquote_spell l pre rest :
  scan_dquote (concat (map escape l) ++ 34%N :: rest) (of_chars pre) = Ret (of_chars (pre ++ l), rest).
Proof.
  revert pre. induction l as [|c l IH]; intros pre; [by rewrite app_nil_r|]. cbn [map concat].
  assert (Hgo : forall c', scan_dquote (concat (map escape l) ++ 34%N :: rest) (push (of_chars pre) c')
                = Ret (of_chars (pre ++ [c'] ++ l), rest)).
  { intros c'. rewrite push_of_chars, IH. by rewrite <-app_assoc. }
  unfold escape at 1. destruct (c =? 34)%N eqn:E1; [apply N.eqb_eq in E1 as ->; apply Hgo|].
  destruct (c =? 92)%N eqn:E2; [apply N.eqb_eq in E2 as ->; apply Hgo|].
  destruct (c =? 10)%N eqn:E3; [apply N.eqb_eq in E3 as ->; apply Hgo|].
  cbn [app scan_dquote]. rewrite E1, E2. apply Hgo.
Qed.

Lemma digits_value_show n : digits_value (show_N n) 0 = Some (Z.of_N n).
Proof.
  assert (Hgo : forall x s, digits_value (pretty_N_go x s) 0 = digits_value s (Z.of_N x)).
  { intros x. induction (N.lt_wf_0 x) as [x _ IH]. intros s.
    destruct (decide (0 < x)%N) as [Hx|Hx]; [|by replace x with 0%N by lia].
    rewrite pretty_N_go_step by done. rewrite IH by (apply N.div_lt; lia). cbn [digits_value].
    assert (Hlt : (x `mod` 10 < 10)%N) by (apply N.mod_lt; lia).
    assert (Hd : (Z.of_N (N_of_ascii (pretty_N_char (x `mod` 10))) - 48 = Z.of_N (x `mod` 10))%Z).
    { destruct (pretty_N_char_digit _ Hlt) as [_ ->]. lia. }
    rewrite Hd. pose proof (N.div_mod x 10 ltac:(lia)) as Hdm. clear Hd IH. revert Hlt Hdm.
    generalize (x `mod` 10)%N (x / 10)%N. intros r q Hr Hq.
    destruct (_ || _)%Z eqn:E; [apply orb_prop in E as [E%Z.ltb_lt|E%Z.ltb_lt]; lia|]. f_equal. lia. }
  unfold show_N, pretty, pretty_N. case_decide; [by subst|]. by rewrite Hgo.
Qed.

Lemma push_byte s a : (ch a < 128)%N -> push s (ch a) = s +:+ String a "".
Proof. intros H. rewrite push_ascii by done. unfold byte_of, ch. by rewrite ascii_N_embedding. Qed.

Lemma digit_lt a : digit_byte a = true -> (ch a < 128)%N.
Proof. unfold digit_byte, is_ascii_digit. rewrite andb_true_iff, !N.leb_le. lia. Qed.

(** A run of digits ends at a character that is neither a digit nor a point. *)
Lemma scan_number_digits l pre fl stop rest :
  Forall (fun a => digit_byte a = true) l -> is_ascii_digit stop = false -> (stop =? ch ".")%N = false ->
  scan_number (map ch l ++ stop :: rest) pre fl = (pre +:+ of_bytes l, fl, stop :: rest).
Proof.
  intros Hl Hs Hp. revert pre. induction Hl as [|a l Ha Hl IH]; intros pre; cbn [map app scan_number].
  - rewrite Hs, Hp. by rewrite app_empty_r.
  - unfold digit_byte in Ha. rewrite Ha, IH, push_byte by by apply digit_lt. by rewrite app_assoc_s.
Qed.

(** ** One lexeme *)

Lemma whitespace_not c : (33 <= c < 128)%N -> is_whitespace c = false.
Proof.
  intros H. apply not_true_iff_false. unfold is_whitespace.
  repeat (rewrite ?orb_true_iff, ?andb_true_iff, ?N.leb_le, ?N.eqb_eq). lia.
Qed.

(** A character equal to none of the punctuation reaches the last branches. *)
Definition punctuation : list char :=
  [ch "|"; ch ","; ch "("; ch ")"; ch "["; ch "]"; ch "."; ch "+"; ch ":"; ch "-"; ch "*"; ch "%"; ch "/";
   ch "="; ch "!"; ch "<"; ch ">"; 34%N; 39%N].

Lemma lex_step_word c rest : (33 <= c < 128)%N -> Forall (fun x => (c =? x)%N = false) punctuation ->
  lex_step c rest =
    (if is_ascii_digit c then
       '(t, rest) ← number_token (c :: rest); Ret (Some t, rest)
     else if is_ascii_alphabetic c || (c =? ch "_")%N then
       let '(ident, rest) := scan_ident (c :: rest) "" in Ret (Some (Ident ident), rest)
     else Fail (UnexpectedCharacter c)).
Proof.
  intros Hc Hp. unfold punctuation in Hp.
  repeat match goal with H : Forall _ (_ :: _) |- _ => apply Forall_cons in H as [? H] end.
  unfold lex_step. rewrite whitespace_not by done.
  repeat match goal with H : (c =? _)%N = false |- _ => rewrite H; clear H end. done.
Qed.

Lemma word_not_punct c : is_ident_char c = true -> (33 <= c < 128)%N /\ Forall (fun x => (c =? x)%N = false) punctuation.
Proof.
  intros H. assert (Hr : (48 <= c <= 57 \/ 65 <= c <= 90 \/ 97 <= c <= 122 \/ c = 95)%N).
  { revert H. unfold is_ident_char, is_ascii_alphanumeric, is_ascii_alphabetic, is_ascii_digit.
    change (ch "_") with 95%N. repeat (rewrite ?orb_true_iff, ?andb_true_iff, ?N.leb_le, ?N.eqb_eq). lia. }
  split; [lia|]. repeat (constructor; [apply N.eqb_neq; unfold ch; simpl; lia|]). constructor.
Qed.

Definition lexes (x : lexeme) : Prop := forall rest, exists c cs,
  (spell x ++ space :: rest)%list = c :: cs /\ lex_step c cs = Ret (Some (token_of x), space :: rest).

Lemma lexes_ident l : wf_lexeme (LIdent l) = true -> lexes (LIdent l).
Proof.
  destruct l as [|c l]; [done|]. intros [Hc Hl]%andb_prop rest. exists c, (l ++ space :: rest)%list.
  split; [done|].
  assert (Hi : is_ident_char c = true).
  { apply orb_prop in Hc as [?%alphabetic_ident|Hc]; [done|]. unfold is_ident_char. by rewrite Hc, orb_true_r. }
  destruct (word_not_punct c Hi). rewrite lex_step_word by done.
  assert (is_ascii_digit c = false) as ->.
  { apply not_true_iff_false. revert Hc. unfold is_ascii_alphabetic, is_ascii_digit. change (ch "_") with 95%N.
    repeat (rewrite ?orb_true_iff, ?andb_true_iff, ?N.leb_le, ?N.eqb_eq). lia. }
  rewrite Hc. change "" with (of_chars []).
  change (c :: l ++ space :: rest)%list with ((c :: l) ++ space :: rest)%list.
  by rewrite scan_ident_spell.
Qed.

Lemma digit_chars_cons n : exists c cs, digit_chars n = c :: cs /\ is_ascii_digit c = true.
Proof.
  unfold digit_chars. destruct (show_N_digits n) as [Hd Hne]. destruct (show_N n) as [|a s]; [done|].
  inversion_clear Hd. by eexists _, _.
Qed.

Lemma number_digits n stop rest :
  is_ascii_digit stop = false -> (stop =? ch ".")%N = false ->
  scan_number (digit_chars n ++ stop :: rest) "" false = (show_N n, false, stop :: rest).
Proof.
  intros Hs Hp. unfold digit_chars. rewrite scan_number_digits; [|apply show_N_digits|done|done].
  by rewrite of_as_bytes.
Qed.

Lemma lexes_int n : wf_lexeme (LInt n) = true -> lexes (LInt n).
Proof.
  intros Hn%N.ltb_lt rest. destruct (digit_chars_cons n) as (c & cs & E & Hc).
  exists c, (cs ++ space :: rest)%list. split; [simpl; by rewrite E|].
  assert (Hi : is_ident_char c = true) by (unfold is_ident_char, is_ascii_alphanumeric; by rewrite Hc, orb_true_r).
  destruct (word_not_punct c Hi). rewrite lex_step_word, Hc by done.
  change (c :: cs ++ space :: rest)%list with ((c :: cs) ++ space :: rest)%list. rewrite <-E.
  unfold number_token. rewrite number_digits by done. cbn [duration_suffix existsb].
  change (existsb _ _) with false. cbv iota. unfold parse_i64. rewrite digits_value_show.
  destruct (show_N_digits n) as [_ Hne]. destruct (show_N n) eqn:Es; [done|].
  rewrite (proj2 (Z.ltb_lt _ _)) by lia. done.
Qed.

Lemma lexes_duration n suffix : wf_lexeme (LDuration n suffix) = true -> lexes (LDuration n suffix).
Proof.
  intros Hs rest. destruct (digit_chars_cons n) as (c & cs & E & Hc).
  exists c, (cs ++ suffix :: space :: rest)%list. split; [simpl; rewrite E, <-!app_assoc; done|].
  assert (Hi : is_ident_char c = true) by (unfold is_ident_char, is_ascii_alphanumeric; by rewrite Hc, orb_true_r).
  destruct (word_not_punct c Hi). rewrite lex_step_word, Hc by done.
  change (c :: cs ++ suffix :: space :: rest)%list with ((c :: cs) ++ suffix :: space :: rest)%list. rewrite <-E.
  cbn [wf_lexeme] in Hs. pose proof Hs as Hs'. cbn [existsb] in Hs'.
  unfold number_token. rewrite number_digits.
  - unfold duration_suffix. rewrite Hs. done.
  - rewrite !orb_true_iff, !N.eqb_eq in Hs'. by destruct Hs' as [->|[->|[->|[->|]]]].
  - rewrite !orb_true_iff, !N.eqb_eq in Hs'. by destruct Hs' as [->|[->|[->|[->|]]]].
Qed.

Lemma lexes_str l : lexes (LStr l).
Proof.
  intros rest. exists 34%N, (concat (map escape l) ++ 34%N :: space :: rest)%list.
  split; [simpl; by rewrite <-app_assoc|].
  unfold lex_step. cbn [is_whitespace]. change (is_whitespace 34) with false. cbv iota.
  change (34 =? ch "/")%N with false. cbn [andb].
  transitivity ('(s, r) ← scan_dquote (concat (map escape l) ++ 34%N :: space :: rest) "";
                 Ret (E:=LexError) (Some (Str s), r)); [done|].
  change "" with (of_chars []). by rewrite scan_dquote_spell.
Qed.

Lemma lexes_punct t : wf_lexeme (LPunct t) = true -> lexes (LPunct t).
Proof.
  intros H%bool_decide_eq_true rest. destruct t; try (by destruct H); by eexists _, _.
Qed.

Lemma lexes_all x : wf_lexeme x = true -> lexes x.
Proof.
  destruct x; [apply lexes_ident|apply lexes_int|intros _; apply lexes_str|apply lexes_duration|apply lexes_punct].
Qed.

(** ** Sequences *)

Lemma tokenize_loop_spell l out fuel :
  Forall (fun x => wf_lexeme x = true) l -> List.length (spell_all l) <= fuel ->
  tokenize_loop fuel (spell_all l) out = Ret (out ++ map token_of l)%list.
Proof.
  intros Hl. revert out fuel. induction Hl as [|x l Hx Hl IH]; intros out fuel Hf.
  { simpl. rewrite app_nil_r. by destruct fuel. }
  cbn [spell_all] in *. destruct (lexes_all x Hx (spell_all l)) as (c & cs & E & Hstep).
  pose proof (lex_step_ok c cs) as Hlen. rewrite Hstep in Hlen. destruct Hlen as [_ Hlen].
  rewrite E in *. simpl in Hf, Hlen. destruct fuel as [|[|fuel]]; [lia|lia|].
  cbn [tokenize_loop]. rewrite Hstep. cbn [mbind outcome_bind].
  change (lex_step space (spell_all l)) with (Ret (E:=LexError) (None (A:=Token), spell_all l)).
  cbn [mbind outcome_bind option_list]. rewrite IH by lia. rewrite app_nil_r, <-app_assoc. done.
Qed.

(** * Reading KQL text piece by piece

    [reads cs ts]: wherever the characters [cs] stand in a KQL source, before a
    character that ends a word or a number, the lexer reads them as the tokens
    [ts].  Readings of consecutive pieces compose, so the tokens of generated
    text follow from those of its pieces. *)

(** The tokens of a list of characters. *)
Definition lexed (cs : list char) : outcome LexError (list Token) := tokenize_loop (List.length cs) cs [].

Definition with_tokens (ts : list Token) (o : outcome LexError (list Token)) : outcome LexError (list Token) :=
  (fun l => (ts ++ l)%list) <$> o.

Lemma with_tokens_nil o : with_tokens [] o = o.
Proof. by destruct o. Qed.

Lemma with_tokens_app a b o : with_tokens a (with_tokens b o) = with_tokens (a ++ b) o.
Proof. destruct o; simpl; try done. unfold with_tokens. simpl. by rewrite app_assoc. Qed.

(** The accumulator is a prefix, and enough fuel is as good as any other. *)
Lemma tokenize_loop_out f cs out : tokenize_loop f cs out = with_tokens out (tokenize_loop f cs []).
Proof.
  revert cs out. induction f as [|f IH]; intros [|c cs] out; cbn [tokenize_loop];
    try (by unfold with_tokens; simpl; rewrite ?app_nil_r).
  destruct (lex_step c cs) as [[t r]| | |]; try done. cbn [mbind outcome_bind].
  rewrite IH, (IH r (_ ++ _)%list). by rewrite with_tokens_app.
Qed.

Lemma tokenize_loop_fuel f g cs out : List.length cs <= f -> List.length cs <= g ->
  tokenize_loop f cs out = tokenize_loop g cs out.
Proof.
  revert g cs out. induction f as [|f IH]; intros g [|c cs] out Hf Hg; simpl in *; try lia; try (by destruct g).
  destruct g as [|g]; [lia|]. cbn [tokenize_loop]. pose proof (lex_step_ok c cs) as Hok.
  destruct (lex_step c cs) as [[t r]| | |]; try done. destruct Hok as [_ Hl]. cbn [mbind outcome_bind].
  apply IH; lia.
Qed.

Lemma tokenize_loop_lexed f cs out : List.length cs <= f -> tokenize_loop f cs out = with_tokens out (lexed cs).
Proof. intros Hf. rewrite tokenize_loop_out. unfold lexed. f_equal. by apply tokenize_loop_fuel. Qed.

Lemma tokenize_lexed l : Forall is_scalar l -> tokenize (of_chars l) = lexed l.
Proof. intros Hl. unfold tokenize. by rewrite chars_of_chars. Qed.

(** One step of the lexer. *)
Lemma lexed_step c cs t r : lex_step c cs = Ret (t, r) -> lexed (c :: cs) = with_tokens (option_list t) (lexed r).
Proof.
  intros E. unfold lexed at 1. cbn [List.length tokenize_loop]. pose proof (lex_step_ok c cs) as Hok.
  rewrite E in *. destruct Hok as [_ Hl]. cbn [mbind outcome_bind]. by rewrite tokenize_loop_lexed.
Qed.

(** The characters that end a word or a number. *)
Definition is_stop (c : char) : bool :=
  existsb (N.eqb c) [space; ch "("; ch ")"; ch ","; ch "]"; ch ":"].

Definition stops (cs : list char) : bool := match cs with [] => true | c :: _ => is_stop c end.

Definition reads_any (cs : list char) (ts : list Token) : Prop :=
  forall rest, lexed (cs ++ rest) = with_tokens ts (lexed rest).
Definition reads (cs : list char) (ts : list Token) : Prop :=
  forall rest, stops rest = true -> lexed (cs ++ rest) = with_tokens ts (lexed rest).

Lemma reads_any_reads cs ts : reads_any cs ts -> reads cs ts.
Proof. intros H rest _. apply H. Qed.

Lemma reads_any_app c1 t1 c2 t2 : reads_any c1 t1 -> reads_any c2 t2 -> reads_any (c1 ++ c2) (t1 ++ t2).
Proof. intros H1 H2 rest. by rewrite <-app_assoc, H1, H2, with_tokens_app. Qed.

Lemma reads_app_any c1 t1 c2 t2 : reads_any c1 t1 -> reads c2 t2 -> reads (c1 ++ c2) (t1 ++ t2).
Proof. intros H1 H2 rest Hr. by rewrite <-app_assoc, H1, H2, with_tokens_app. Qed.

Lemma reads_app c1 t1 c2 t2 : reads c1 t1 -> c2 <> [] -> stops c2 = true -> reads c2 t2 ->
  reads (c1 ++ c2) (t1 ++ t2).
Proof.
  intros H1 Hne Hs H2 rest Hr. rewrite <-app_assoc, H1 by by destruct c2. by rewrite H2, with_tokens_app.
Qed.

(** The same, when the second piece ends in a delimiter. *)
Lemma reads_any_end c1 t1 c2 t2 : reads c1 t1 -> c2 <> [] -> stops c2 = true -> reads_any c2 t2 ->
  reads_any (c1 ++ c2) (t1 ++ t2).
Proof.
  intros H1 Hne Hs H2 rest. rewrite <-app_assoc, H1 by by destruct c2. by rewrite H2, with_tokens_app.
Qed.

Lemma reads_lexed cs ts : reads cs ts -> lexed cs = Ret ts.
Proof. intros H. specialize (H [] eq_refl). rewrite app_nil_r in H. rewrite H. unfold with_tokens. simpl. by rewrite app_nil_r. Qed.

(** Reading fixed text: run the lexer on its characters. *)
Lemma reads_any_step c cs t r ts :
  (forall rest, lex_step c (cs ++ rest) = Ret (t, (r ++ rest)%list)) -> reads_any r ts ->
  reads_any (c :: cs) (option_list t ++ ts).
Proof. intros Hs H rest. cbn [app]. rewrite (lexed_step _ _ _ _ (Hs rest)), H. by rewrite with_tokens_app. Qed.

Lemma reads_any_nil : reads_any [] [].
Proof. intros rest. by rewrite with_tokens_nil. Qed.

Ltac reads_text :=
  repeat (eapply reads_any_step; [intros ?; reflexivity|]); apply reads_any_nil.

(** ** Words *)

Lemma stop_not_ident c : is_stop c = true -> is_ident_char c = false /\ (c =? ch "-")%N = false
  /\ is_ascii_digit c = false /\ (c =? ch ".")%N = false.
Proof.
  intros (x & Hx & ->%N.eqb_eq)%existsb_exists. by repeat (destruct Hx as [<-|Hx]; [done|]).
Qed.

Lemma scan_ident_word l pre rest :
  Forall (fun c => is_ident_char c = true) l -> stops rest = true ->
  scan_ident (l ++ rest) (of_chars pre) = (of_chars (pre ++ l), rest).
Proof.
  intros Hl Hs. revert pre. induction Hl as [|c l Hc Hl IH]; intros pre; cbn [app].
  - rewrite app_nil_r. destruct rest as [|c rest]; [done|]. cbn [scan_ident].
    destruct (stop_not_ident c Hs) as (-> & -> & _). done.
  - cbn [scan_ident]. rewrite Hc. cbn [orb].
    assert ((c =? ch "-")%N = false) as ->.
    { apply not_true_iff_false. intros ->%N.eqb_eq. done. }
    by rewrite push_of_chars, IH, <-app_assoc.
Qed.

(** A word: a letter or underscore, then identifier characters. *)
Lemma reads_word c l :
  (is_ascii_alphabetic c || (c =? ch "_")%N) = true -> Forall (fun c => is_ident_char c = true) (c :: l) ->
  reads (c :: l) [Ident (of_chars (c :: l))].
Proof.
  intros Hc Hl rest Hr. inversion Hl as [|? ? Hi Hl']; subst. cbn [app].
  destruct (word_not_punct c Hi) as [Hrange Hp].
  rewrite (lexed_step c (l ++ rest) (Some (Ident (of_chars (c :: l)))) rest); [done|].
  rewrite lex_step_word by done.
  assert (is_ascii_digit c = false) as ->.
  { apply not_true_iff_false. revert Hc. unfold is_ascii_alphabetic, is_ascii_digit. change (ch "_") with 95%N.
    repeat (rewrite ?orb_true_iff, ?andb_true_iff, ?N.leb_le, ?N.eqb_eq). lia. }
  rewrite Hc. change "" with (of_chars []). change (c :: l ++ rest)%list with ((c :: l) ++ rest)%list.
  by rewrite scan_ident_word.
Qed.

(** ** Numbers *)

Lemma scan_number_stop cs lit fl lit' fl' rest :
  scan_number cs lit fl = (lit', fl', []) -> stops rest = true ->
  scan_number (cs ++ rest) lit fl = (lit', fl', rest).
Proof.
  intros H Hs. revert lit fl H. induction cs as [|d cs IH]; intros lit fl H; cbn [app].
  - simpl in H. simplify_eq. destruct rest as [|c rest]; [done|]. cbn [scan_number].
    destruct (stop_not_ident c Hs) as (_ & _ & -> & ->). done.
  - cbn [scan_number] in *. destruct (is_ascii_digit d); [by apply IH|].
    destruct (d =? ch ".")%N; [|done]. destruct cs as [|nc cs]; [done|]. cbn [app].
    destruct (is_ascii_digit nc); [|done]. by apply IH.
Qed.

(** A numeral that is one number token is so before a delimiter too. *)
Lemma reads_number c l t :
  is_ascii_digit c = true -> (forall d, t <> Duration d) -> number_token (c :: l) = Ret (t, []) -> reads (c :: l) [t].
Proof.
  intros Hc Ht Hn rest Hr. cbn [app].
  assert (Hi : is_ident_char c = true) by (unfold is_ident_char, is_ascii_alphanumeric; by rewrite Hc, orb_true_r).
  destruct (word_not_punct c Hi) as [Hrange Hp].
  rewrite (lexed_step c (l ++ rest) (Some t) rest); [done|].
  rewrite lex_step_word, Hc by done. unfold number_token in *.
  change (c :: l ++ rest)%list with ((c :: l) ++ rest)%list.
  destruct (scan_number (c :: l) "" false) as [[lit fl] r] eqn:E.
  destruct (duration_suffix r) as [[suffix r']|] eqn:Ed; [simplify_eq; by destruct (Ht (push lit suffix))|].
  assert (r = []) as ->.
  { destruct fl; [destruct (parse_f64 lit)|destruct (parse_i64 lit)]; simpl in Hn; by simplify_eq. }
  rewrite (scan_number_stop _ _ _ _ _ _ E Hr).
  assert (duration_suffix rest = None) as ->.
  { destruct rest as [|x rest]; [done|]. unfold duration_suffix. simpl in Hr. 
    apply existsb_exists in Hr as (y & Hy & ->%N.eqb_eq). by repeat (destruct Hy as [<-|Hy]; [done|]). }
  destruct fl; [destruct (parse_f64 lit)|destruct (parse_i64 lit)]; simpl in *; by simplify_eq.
Qed.

(** ** Single-quoted text *)

(** The pieces of [l] between its quotes. *)
Fixpoint split_quotes (l : list char) : list (list char) :=
  match l with
  | [] => [[]]
  | c :: l =>
      if (c =? 39)%N then [] :: split_quotes l
      else match split_quotes l with p :: ps => (c :: p) :: ps | [] => [[c]] end
  end.

(** [s.replace('\'', "''")] on characters. *)
Definition double_quotes (l : list char) : list char :=
  concat (map (fun c => if (c =? 39)%N then [39; 39]%N else [c]) l).

Lemma split_quotes_cons l : exists p ps, split_quotes l = p :: ps.
Proof. destruct l as [|c l]; simpl; [by eexists _, _|]. destruct (_ =? _)%N; [by eexists _, _|]. destruct (split_quotes l); by eexists _, _. Qed.

Lemma split_quotes_plain l : Forall (fun c => (c =? 39)%N = false) l -> split_quotes l = [l].
Proof. induction 1 as [|c l Hc Hl IH]; [done|]. simpl. by rewrite Hc, IH. Qed.

Lemma scan_squote_plain l pre rest : Forall (fun c => (c =? 39)%N = false) l ->
  scan_squote (l ++ 39%N :: rest) (of_chars pre) = Ret (of_chars (pre ++ l), rest).
Proof.
  intros Hl. revert pre. induction Hl as [|c l Hc Hl IH]; intros pre; cbn [app scan_squote].
  - by rewrite app_nil_r.
  - by rewrite Hc, push_of_chars, IH, <-app_assoc.
Qed.

Lemma lexed_squote l rest : Forall (fun c => (c =? 39)%N = false) l ->
  lexed (39%N :: l ++ 39%N :: rest) = with_tokens [Str (of_chars l)] (lexed rest).
Proof.
  intros Hl. apply (lexed_step 39%N _ (Some (Str (of_chars l)))).
  transitivity ('(s, r) ← scan_squote (l ++ 39%N :: rest) ""; Ret (E:=LexError) (Some (Str s), r)); [done|].
  change "" with (of_chars []). by rewrite scan_squote_plain.
Qed.

(** Text quoted with doubled quotes is read as one string per piece between
    its quotes. *)
Lemma lexed_quoted l pre rest : Forall (fun c => (c =? 39)%N = false) pre ->
  lexed (39%N :: pre ++ double_quotes l ++ 39%N :: rest) =
    with_tokens (match split_quotes l with
                 | p :: ps => Str (of_chars (pre ++ p)) :: map (fun p => Str (of_chars p)) ps
                 | [] => [] end) (lexed rest).
Proof.
  revert pre. induction l as [|c l IH]; intros pre Hpre.
  { unfold double_quotes. cbn [map concat app split_quotes]. rewrite lexed_squote by done. by rewrite app_nil_r. }
  unfold double_quotes. cbn [map concat split_quotes]. fold (double_quotes l). destruct (c =? 39)%N eqn:E.
  - cbn [app]. rewrite lexed_squote by done. specialize (IH [] ltac:(constructor)). cbn [app] in IH.
    rewrite IH, with_tokens_app, app_nil_r. destruct (split_quotes_cons l) as (p & ps & ->). done.
  - specialize (IH (pre ++ [c])%list). rewrite <-!app_assoc in IH. rewrite <-app_assoc. cbn [app] in *. rewrite IH.
    + destruct (split_quotes_cons l) as (p & ps & ->). by rewrite <-app_assoc.
    + apply Forall_app. split; [done|by constructor].
Qed.

Lemma reads_quoted l :
  reads_any (39%N :: double_quotes l ++ [39%N]) (map (fun p => Str (of_chars p)) (split_quotes l)).
Proof.
  intros rest. cbn [app]. rewrite <-app_assoc. cbn [app].
  pose proof (lexed_quoted l [] rest ltac:(constructor)) as H. cbn [app] in H. rewrite H.
  destruct (split_quotes_cons l) as (p & ps & ->). done.
Qed.

(** The characters of [s.replace('\'', "''")]. *)
Lemma replace_app a w s t : replace a w (s +:+ t) = replace a w s +:+ replace a w t.
Proof.
  induction s as [|c s IH]; [done|]. change (String c s +:+ t) with (String c (s +:+ t)). cbn [replace].
  rewrite IH. case_decide; [by rewrite app_assoc_s|done].
Qed.

Lemma replace_none a w l : Forall (fun b => b <> a) l -> replace a w (of_bytes l) = of_bytes l.
Proof.
  induction 1 as [|b l Hb Hl IH]; [done|].
  change (of_bytes (b :: l)) with (String b (of_bytes l)). cbn [replace]. by rewrite decide_False, IH by congruence.
Qed.

Lemma encode_char_no_quote c : is_scalar c -> (c =? 39)%N = false -> Forall (fun b => b <> "'"%char) (encode_char c).
Proof.
  intros Hc Hq. assert (forall n, (n < 256)%N -> n <> 39%N -> byte_of n <> "'"%char) as Hb.
  { intros n Hn Hne E. apply Hne. rewrite <-(N_of_byte_of n Hn), E. done. }
  apply N.eqb_neq in Hq. unfold encode_char, is_scalar in *.
  pose proof (N.mod_lt c 64 ltac:(done)) as H1. pose proof (N.mod_lt (c / 64) 64 ltac:(done)) as H2.
  pose proof (N.mod_lt (c / 4096) 64 ltac:(done)) as H3.
  assert (c < 2048 -> c / 64 < 32)%N as D1 by (intros; apply N.Div0.div_lt_upper_bound; lia).
  assert (c < 65536 -> c / 4096 < 16)%N as D2 by (intros; apply N.Div0.div_lt_upper_bound; lia).
  assert (c / 262144 < 5)%N as D3 by (apply N.Div0.div_lt_upper_bound; lia).
  revert H1 H2 H3 D1 D2 D3.
  generalize ((c / 64) mod 64)%N ((c / 4096) mod 64)%N. intros r2 r3.
  generalize (c mod 64)%N (c / 64)%N (c / 4096)%N (c / 262144)%N. intros r1 q1 q2 q3 H1 H2 H3 D1 D2 D3.
  destruct (N.ltb_spec c 128); [|destruct (N.ltb_spec c 2048); [|destruct (N.ltb_spec c 65536)]];
    repeat (apply Forall_cons_2; [apply Hb; lia|]); apply Forall_nil_2.
Qed.

Lemma replace_of_chars l : Forall is_scalar l -> replace "'" "''" (of_chars l) = of_chars (double_quotes l).
Proof.
  induction 1 as [|c l Hc Hl IH]; [done|].
  change (c :: l) with ([c] ++ l)%list at 1. rewrite of_chars_app, replace_app, IH.
  unfold double_quotes. cbn [map concat]. rewrite of_chars_app. f_equal.
  destruct (c =? 39)%N eqn:E; [by apply N.eqb_eq in E as ->|].
  unfold of_chars. cbn [map concat]. rewrite !app_nil_r. by apply replace_none, encode_char_no_quote.
Qed.

Lemma double_quotes_scalar l : Forall is_scalar l -> Forall is_scalar (double_quotes l).
Proof.
  induction 1 as [|c l Hc Hl IH]; [constructor|]. unfold double_quotes. cbn [map concat]. apply Forall_app.
  split; [destruct (_ =? _)%N; by repeat constructor|done].
Qed.

(** ** Texts

    [text s cs]: the characters of the string [s]. *)

Definition text (s : string) (cs : list char) : Prop := s = of_chars cs /\ Forall is_scalar cs.

Lemma text_app s cs t ds : text s cs -> text t ds -> text (s +:+ t) (cs ++ ds).
Proof. intros [-> Hc] [-> Hd]. split; [by rewrite of_chars_app|by apply Forall_app]. Qed.

Lemma text_ascii s : Forall (fun a => (ch a <? 128)%N = true) (as_bytes s) -> text s (map ch (as_bytes s)).
Proof.
  intros H. induction s as [|a s IH]; [by split|]. cbn [as_bytes] in *. unfold as_bytes in *. simpl in *.
  inversion_clear H as [|? ? Ha Hs]. destruct (IH Hs) as [E Hall]. split.
  - change (ch a :: map ch _)%list with ([ch a] ++ map ch (String.list_ascii_of_string s))%list. rewrite of_chars_app, <-E.
    unfold of_chars, encode_char. simpl. rewrite Ha. simpl. unfold byte_of, ch. by rewrite ascii_N_embedding.
  - constructor; [apply N.ltb_lt in Ha; unfold is_scalar; lia|done].
Qed.

Lemma text_tokens s cs ts : text s cs -> reads cs ts -> tokenize s = Ret ts.
Proof. intros [-> Hs] Hr. rewrite tokenize_lexed by done. by apply reads_lexed. Qed.

(** A text read as tokens. *)
Definition reads_as (s : string) (ts : list Token) : Prop := exists cs, text s cs /\ reads cs ts.
Definition reads_as_any (s : string) (ts : list Token) : Prop := exists cs, text s cs /\ reads_any cs ts.
(** Fixed text that starts with a delimiter. *)
Definition reads_delim (s : string) (ts : list Token) : Prop :=
  exists cs, text s cs /\ reads_any cs ts /\ cs <> [] /\ stops cs = true.

Lemma reads_as_tokens s ts : reads_as s ts -> tokenize s = Ret ts.
Proof. intros (cs & Ht & Hr). by eapply text_tokens. Qed.

Lemma delim_any s ts : reads_delim s ts -> reads_as_any s ts.
Proof. intros (cs & ? & ? & _). by exists cs. Qed.

Lemma reads_as_cons s t s' t' : reads_as_any s t -> reads_as s' t' -> reads_as (s +:+ s') (t ++ t').
Proof. intros (c & Hc & H) (c' & Hc' & H'). exists (c ++ c')%list. split; [by apply text_app|by apply reads_app_any]. Qed.

Lemma reads_as_delim s t d td : reads_as s t -> reads_delim d td -> reads_as_any (s +:+ d) (t ++ td).
Proof.
  intros (c & Hc & H) (c' & Hc' & H' & Hne & Hs). exists (c ++ c')%list.
  split; [by apply text_app|by apply reads_any_end].
Qed.

Lemma reads_as_app_any s t s' t' : reads_as_any s t -> reads_as_any s' t' -> reads_as_any (s +:+ s') (t ++ t').
Proof. intros (c & Hc & H) (c' & Hc' & H'). exists (c ++ c')%list. split; [by apply text_app|by apply reads_any_app]. Qed.

Lemma any_reads s t : reads_as_any s t -> reads_as s t.
Proof. intros (c & Hc & H). exists c. split; [done|by apply reads_any_reads]. Qed.

(** Fixed text, by running the lexer. *)
Ltac fixed_text s :=
  exists (map ch (as_bytes s)); split; [apply text_ascii; by repeat constructor|];
  change (map ch (as_bytes s)) with ltac:(let x := eval vm_compute in (map ch (as_bytes s)) in exact x);
  try (split; [|split; [discriminate|reflexivity]]);
  intros ?; cbn [app];
  repeat (erewrite lexed_step by (cbn; reflexivity); cbn [option_list]);
  rewrite ?with_tokens_app; reflexivity.

Lemma reads_lparen : reads_as_any "(" [LParen].
Proof. fixed_text "(". Qed.
Lemma reads_rparen : reads_delim ")" [RParen].
Proof. fixed_text ")". Qed.
Lemma reads_comma : reads_delim ", " [Comma].
Proof. fixed_text ", ". Qed.
Lemma reads_and : reads_delim " and " [Ident "and"].
Proof. fixed_text " and ". Qed.
Lemma reads_or : reads_delim " or " [Ident "or"].
Proof. fixed_text " or ". Qed.
Lemma reads_not : reads_as_any "not (" [Ident "not"; LParen].
Proof. fixed_text "not (". Qed.
Lemma reads_in : reads_delim " in " [Ident "in"].
Proof. fixed_text " in ". Qed.
Lemma reads_isnull : reads_as_any "isnull(" [Ident "isnull"; LParen].
Proof. fixed_text "isnull(". Qed.
Lemma reads_isnotnull : reads_as_any "isnotnull(" [Ident "isnotnull"; LParen].
Proof. fixed_text "isnotnull(". Qed.

(** Texts joined by a delimiter. *)
Fixpoint join_toks (sep : list Token) (l : list (list Token)) : list Token :=
  match l with
  | [] => []
  | [ts] => ts
  | ts :: l => (ts ++ sep ++ join_toks sep l)%list
  end.

Lemma reads_join sep td l ts : reads_delim sep td -> l <> [] -> Forall2 reads_as l ts ->
  reads_as (join sep l) (join_toks td ts).
Proof.
  intros Hsep Hne H. induction H as [|s t l ts Hs Hl IH]; [done|]. destruct Hl as [|s2 t2 l ts Hs2 Hl]; [done|].
  rewrite join_cons. change (join_toks td (t :: t2 :: ts)) with (t ++ td ++ join_toks td (t2 :: ts))%list.
  rewrite app_assoc, <-app_assoc_s. apply reads_as_cons; [|by apply IH]. by apply reads_as_delim.
Qed.
