(* ===== verification/KqlQuerySpec.v ===== *)
(** * Pipelines: termination, no panic and closed output *)

From stdpp Require Import base gmap strings list.
From Stdlib Require Import NArith ZArith Lia Ascii.
From S2P Require Import Prelude Bytes F64 KqlLexer KqlState KqlParser KqlExpr KqlGraph KqlQuery SqlScan KqlExprSpec.
From S2P Require Import KqlGraphSpec KqlLexSpec.

Local Open Scope string_scope.

Abbreviation total := (fun _ => True).

Lemma spec_rebase n : spec n 0 rebase_if_aggregated total.
Proof. apply spec_update_state. intros st Hst. destruct (aggregated st); [by apply closed_rebase|done]. Qed.
#[export] Hint Resolve spec_rebase : kqlspec.

Lemma spec_where n : spec n 0 op_where total.
Proof.
  unfold op_where. do 2 step. apply spec_update_state. intros.
  by apply closed_push_where; [apply closed_expr_closed|].
Qed.

Lemma spec_project n away : spec n 0 (op_project away) total.
Proof.
  unfold op_project. step.
  eapply spec_then with (Q := Forall closed).
  { apply spec_comma_list. eapply spec_first with (k1 := 0); [apply spec_bump_ident|]. intros s Hs.
    apply spec_ret, closed_expr_closed, closed_quote_ident. }
  intros cols Hc. destruct away; apply spec_update_state; intros.
  - by apply closed_extend_exclude.
  - by apply closed_set_select.
Qed.

Lemma spec_extend n : spec n 0 op_extend total.
Proof.
  unfold op_extend. eapply spec_then with (Q := Forall total).
  { apply spec_comma_list. eapply spec_first with (k1 := 0); [apply spec_bump_ident|]. intros s Hs.
    do 2 step. apply spec_update_state. intros. apply closed_push_extend; simpl; [| |done]; apply closed_expr_closed; [apply closed_quote_ident|done]. }
  intros. by apply spec_ret.
Qed.

Lemma spec_summarize_item n : spec n 1 summarize_item total.
Proof.
  unfold summarize_item. eapply spec_bind with (k1 := 0) (k2 := 1); [apply spec_try_alias| |lia]. intros al Hal.
  eapply spec_first with (k1 := 0); [apply spec_expr|]. intros e He.
  apply spec_update_state. intros. apply closed_push_aggregate; [|done].
  pose proof (closed_alias e). destruct al as [a|]; intros d; scan_template.
Qed.

Lemma spec_summarize n : spec n 0 op_summarize total.
Proof.
  unfold op_summarize. eapply spec_then; [apply spec_comma_list, spec_summarize_item|]. intros _ _.
  assert (Hend : forall m, spec m 0 (update_state set_aggregated) total).
  { intros m. apply spec_update_state. intros. by apply closed_set_aggregated. }
  eapply spec_eat_ident_eq with (k1 := 0); [| |lia].
  - eapply spec_then with (Q := total); [|intros; apply Hend].
    eapply spec_then with (Q := Forall total); [|by intros; apply spec_ret].
    apply spec_comma_list. eapply spec_first with (k1 := 0); [apply spec_expr|]. intros e He.
    apply spec_update_state. intros. by apply closed_push_group_by; [apply closed_expr_closed|].
  - eapply spec_then with (Q := total); [by apply spec_ret|]. intros; apply Hend.
Qed.

Lemma spec_take n : spec n 0 op_take total.
Proof. unfold op_take. step. apply spec_update_state. intros. by apply closed_set_limit. Qed.

Lemma spec_desc n : spec n 0 parse_desc total.
Proof.
  unfold parse_desc. apply spec_peek; [by apply spec_ret|]. intros t Ht.
  repeat (case_decide; [eapply spec_next_advance with (k1 := 0); [by apply spec_ret|lia]|]).
  by apply spec_to_next, spec_ret.
Qed.
#[export] Hint Resolve spec_desc : kqlspec.

Lemma spec_sort n : spec n 0 op_sort total.
Proof.
  unfold op_sort. step. eapply spec_then with (Q := Forall total); [|by intros; apply spec_ret].
  apply spec_comma_list. eapply spec_first with (k1 := 0); [apply spec_expr|]. intros e He. step.
  apply spec_update_state. intros. by apply closed_push_order_by; [apply closed_expr_closed|].
Qed.

Lemma spec_top n : spec n 0 op_top total.
Proof.
  unfold op_top. do 4 step.
  step; [intros st Hst; by apply closed_push_order_by; [apply closed_expr_closed|]|].
  apply spec_update_state. intros. by apply closed_set_limit.
Qed.

Lemma spec_count n : spec n 0 op_count total.
Proof.
  apply spec_update_state. intros. apply closed_push_aggregate; [|done].
  intros d. unfold count_item. scan_template.
Qed.

Lemma spec_distinct_loop n fuel cols :
  Forall closed cols -> spec (Nat.min n fuel) 0 (distinct_loop cols fuel) (Forall closed).
Proof.
  revert cols. induction fuel as [|fuel IH]; intros cols Hc; cbn [distinct_loop].
  { intros p _ Hr. lia. }
  apply spec_peek; [by apply spec_ret|]. intros t Ht.
  destruct t; try by apply spec_to_next, spec_ret.
  eapply spec_next_advance with (k1 := 0); [|lia].
  assert (Forall closed (cols ++ [quote_ident s])).
  { apply Forall_app. split; [done|]. by apply Forall_singleton, closed_expr_closed, closed_quote_ident. }
  eapply spec_eat with (k1 := 0); [intros _|by apply spec_ret|lia].
  eapply spec_mono; [by apply IH|lia..|done].
Qed.

Lemma spec_distinct n : spec n 0 op_distinct total.
Proof.
  unfold op_distinct. step; [intros; by apply closed_set_distinct|].
  eapply spec_then; [apply spec_fuel; intros f; by apply spec_distinct_loop|]. intros cols Hc.
  destruct (is_empty cols); [by apply spec_ret|].
  apply spec_update_state. intros. by apply closed_set_select.
Qed.
#[export] Hint Resolve spec_where spec_project spec_extend spec_summarize spec_take spec_sort spec_top
  spec_count spec_distinct spec_graph_traverse spec_graph_var_length spec_graph_var_match
  spec_graph_shortest_path spec_make_graph spec_graph_match : kqlspec.

Lemma spec_operator n : spec n 1 parse_operator total.
Proof.
  unfold parse_operator. eapply spec_first with (k1 := 0); [apply spec_bump_ident|]. intros op Hop. cbv zeta.
  repeat match goal with
  | |- spec _ _ (if ?b then _ else _) _ => destruct b; [solve [eauto 2 with kqlspec]|]
  end.
  apply spec_perr.
Qed.

Lemma spec_pipe_loop n fuel : spec (Nat.min n fuel) 0 (pipe_loop fuel) total.
Proof.
  induction fuel as [|fuel IH]; cbn [pipe_loop]; [intros p _ Hr; lia|].
  eapply spec_eat with (k1 := 0); [intros _|by apply spec_ret|lia].
  eapply spec_then; [apply spec_operator|]. intros _ _. eapply spec_mono; [exact IH|lia..|done].
Qed.

Lemma spec_pipeline n : spec n 0 parse_pipeline total.
Proof.
  unfold parse_pipeline. eapply spec_then; [apply spec_fuel, spec_pipe_loop|]. intros _ _.
  intros p Hg Hr. unfold wp, mbind, P_bind, get_pos, get_toks.
  destruct (_ <? _)%nat; [done|]. split; [done|]. by apply reach_refl.
Qed.

Lemma spec_table_query n : spec n 0 parse_table_query total.
Proof.
  unfold parse_table_query. step.
  step; [intros; by apply closed_new, closed_expr_closed|]. apply spec_pipeline.
Qed.

(** ** union *)

Definition operand_ok (op : UnionOperand) : Prop :=
  match op_from op with Table t => closed t | SubQuery s => closed s end.

Lemma spec_advance {B} n k (f : unit -> P B) R j p :
  good p -> rem p < n -> pos p + j <= List.length (toks p) ->
  spec (n - j) k (f tt) R -> wp (advance j ≫= f) p (fun a p' => R a /\ reach k p p').
Proof.
  intros Hg Hr Hj Hf. apply wp_bind. unfold wp at 1, advance.
  set (p1 := {| toks := toks p; pos := pos p + j; state := state p; schemas := schemas p |}).
  assert (Hp : reach j p p1) by (destruct Hg; split; simpl; try done; split; simpl; done).
  eapply wp_mono; [|apply Hf; [apply Hp|by eapply reach_rem_lt]].
  intros b p' [Hb Hp']. split; [done|]. eapply reach_trans; [exact Hp|exact Hp'|lia].
Qed.

Lemma matching_paren_prefix ts depth l : matching_paren ts depth = Some l ->
  exists rest, ts = (l ++ rest)%list.
Proof.
  revert depth l. induction ts as [|t ts IH]; intros depth l H; simpl in H; [done|].
  destruct (match t with LParen => S depth | RParen => pred depth | _ => depth end) as [|d].
  - simplify_eq. by eexists.
  - apply fmap_Some in H as (l' & Hl & ->). apply IH in Hl as [rest ->]. by exists rest.
Qed.

Lemma spec_sub_query toks sch : Forall tok_ok toks ->
  match parse_table_query (new_parser toks sch) with
  | Ret (_, sub) => closed_state (state sub)
  | Fail _ => True
  | _ => False
  end.
Proof.
  intros Ht. set (p := new_parser toks sch).
  assert (Hg : good p) by (split; simpl; [done|lia|apply closed_default]).
  pose proof (spec_table_query (S (rem p)) p Hg ltac:(lia)) as H. unfold wp in H.
  destruct (parse_table_query p) as [[a p']| | |]; try done. destruct H as [_ Hr]. apply (reach_good _ _ _ Hr).
Qed.

Lemma spec_union_sub n inner : Forall tok_ok inner ->
  spec n 0 (_ ← expect RParen "`)` to close union operand";
            if is_empty inner then perr "empty `()` union operand" []
            else if decide (nth_error inner 0 = Some (Ident "union")) then
              perr "nested union is not supported" []
            else
              match reshaping_op inner with
              | Some op => perr "union branch reshapes its schema (`{op}`); v1 union branches may only filter/sort/take" [MStr op]
              | None =>
                  sch ← get_schemas;
                  '(_, sub) ← lift (parse_table_query (new_parser inner sch));
                  mret {| op_root_table := root_table (state sub);
                          op_from := SubQuery (to_sql (state sub)) |}
              end) operand_ok.
Proof.
  intros Hin. step. destruct (is_empty inner); [apply spec_perr|]. case_decide; [apply spec_perr|].
  destruct (reshaping_op inner); [apply spec_perr|].
  intros p Hg Hr. unfold wp, mbind, P_bind, get_schemas, lift.
  pose proof (spec_sub_query inner (schemas p) Hin) as Hsub.
  destruct (parse_table_query _) as [[u sub]| | |]; try done.
  split; [|by apply reach_refl]. by apply closed_to_sql.
Qed.

Lemma spec_union_operand n : spec n 1 parse_union_operand operand_ok.
Proof.
  unfold parse_union_operand. eapply spec_eat with (k1 := 0); [intros _| |lia].
  - intros p Hg Hr. do 2 apply wp_bind. unfold wp at 1, get_pos. unfold wp at 1, get_toks.
    destruct (matching_paren (drop (pos p) (toks p)) 1) as [inner|] eqn:E; [|done].
    apply matching_paren_prefix in E as [rest Hdrop].
    assert (Hin : Forall tok_ok inner).
    { assert (H : Forall tok_ok (drop (pos p) (toks p))) by (apply Forall_drop; by destruct Hg).
      rewrite Hdrop in H. by apply Forall_app in H as [? _]. }
    eapply spec_advance; [done|exact Hr| |by apply spec_union_sub].
    apply (f_equal (@List.length _)) in Hdrop. rewrite length_drop, length_app in Hdrop.
    destruct Hg. lia.
  - eapply spec_first with (k1 := 0); [apply spec_expect_ident|]. intros t Ht. apply spec_ret.
    by apply closed_expr_closed.
Qed.

Lemma column_superset_total sch ops :
  column_superset sch ops <> Panic /\ column_superset sch ops <> OutOfFuel.
Proof.
  unfold column_superset. generalize (@nil string). induction ops as [|op ops IH]; intros l; simpl; [done|].
  destruct (superset_step sch op l) as [l'| | |] eqn:E; simpl; [apply IH|done|..];
    unfold superset_step in E; repeat case_match; done.
Qed.

Lemma closed_branch sch ws sup i op : operand_ok op -> closed (union_branch sch ws sup (i, op)).
Proof.
  intros Hop. unfold union_branch.
  assert (Hp : closed (join ", " (branch_projection sch ws sup op))).
  { apply closed_join; [done|]. unfold branch_projection. apply Forall_app. split.
    - destruct ws as [c|]; [|constructor]. apply Forall_singleton.
      pose proof (closed_sql_quote (op_root_table op)). pose proof (closed_quote_ident c). intros d. scan_template.
    - apply Forall_fmap, Forall_true. intros c. simpl. pose proof (closed_quote_ident c).
      case_decide; [by apply closed_expr_closed|]. intros d. scan_template. }
  unfold operand_ok in Hop. destruct (op_from op); intros d; [scan_template|].
  pose proof (closed_show_nat i). scan_template.
Qed.

Lemma spec_union_end n sch ws sup operands : Forall operand_ok operands ->
  spec n 0 (_ ← update_state (fun _ => new_state "_u");
            update_state (push_cte ("_u", join " UNION ALL " (map (union_branch sch ws sup) (enumerate operands)), false)))
    total.
Proof.
  intros Hops. step; [intros; by apply closed_new|]. apply spec_update_state. intros.
  apply closed_push_cte; simpl; [done| |done]. apply closed_join; [done|].
  apply Forall_forall. intros s Hs. apply list_elem_of_fmap in Hs as ([i op] & -> & Hin).
  apply closed_branch. rewrite Forall_forall in Hops. apply Hops. by eapply elem_of_enumerate.
Qed.

Lemma spec_union n : spec n 0 parse_union total.
Proof.
  assert (Hrest : forall n ws, spec n 0
    (operands ← comma_list parse_union_operand;
     if is_empty operands then perr "union requires at least one operand" []
     else
       sch ← get_schemas;
       superset ← lift (column_superset sch operands);
       (match ws with
        | Some src_col =>
            if decide (src_col ∈ superset) then
              perr "withsource column `{src_col}` collides with a column of the union operands" [MStr src_col]
            else mret tt
        | None => mret tt
        end ;;
        _ ← update_state (fun _ => new_state "_u");
        update_state (push_cte ("_u", join " UNION ALL " (map (union_branch sch ws superset) (enumerate operands)), false))))
    total).
  { intros m ws. eapply spec_then; [apply spec_comma_list, spec_union_operand|]. intros ops Hops.
    destruct (is_empty ops); [apply spec_perr|].
    intros p Hg Hr. do 2 apply wp_bind. unfold wp at 1, get_schemas. unfold wp at 1, lift.
    destruct (column_superset_total (schemas p) ops) as [Hnp Hnf].
    destruct (column_superset (schemas p) ops) as [sup| | |]; try done.
    revert p Hg Hr Hnp Hnf. intros p Hg Hr _ _.
    assert (Hend := spec_union_end m (schemas p) ws sup ops Hops p Hg Hr).
    apply wp_bind. destruct ws as [c|]; [case_decide; [done|]|]; exact Hend. }
  unfold parse_union. eapply spec_eat_ident_eq with (k1 := 0); [| |lia].
  - eapply spec_then with (Q := total); [|intros; apply Hrest].
    eapply spec_then; [apply spec_expect|]. intros _ _. eapply spec_then; [apply spec_expect_ident|].
    intros. by apply spec_ret.
  - eapply spec_then with (Q := total); [by apply spec_ret|]. intros; apply Hrest.
Qed.

Lemma spec_query n : spec n 0 parse_query total.
Proof.
  unfold parse_query. eapply spec_eat_ident_eq with (k1 := 0); [|apply spec_table_query|lia].
  eapply spec_then; [apply spec_union|]. intros; apply spec_pipeline.
Qed.

(** The whole translation. *)
Lemma kql_to_sql_ok src sch :
  match kql_to_sql_with_schemas src sch with
  | Ret sql => closed sql
  | Fail _ => True
  | _ => False
  end.
Proof.
  unfold kql_to_sql_with_schemas, lex. pose proof (tokenize_ok src) as Ht.
  destruct (tokenize src) as [ts| | |]; simpl; try done.
  set (p := new_parser ts sch).
  assert (Hg : good p) by (split; simpl; [done|lia|apply closed_default]).
  pose proof (spec_query (S (rem p)) p Hg ltac:(lia)) as H. unfold wp in H.
  destruct (parse_query p) as [[u p']| | |]; simpl; try done. destruct H as [_ Hr].
  apply closed_to_sql, (reach_good _ _ _ Hr).
Qed.

(** ** Operations that do not read the schemas

    [blind m]: running [m] over other schemas gives the same outcome, with the
    schemas replaced.  Every operation but [union] is blind. *)

Definition with_schemas (sch : SchemaMap) (p : Parser) : Parser :=
  {| toks := toks p; pos := pos p; state := state p; schemas := sch |}.

Definition retarget {A} (sch : SchemaMap) (o : outcome ParseError (A * Parser))
    : outcome ParseError (A * Parser) :=
  match o with
  | Ret (a, p) => Ret (a, with_schemas sch p)
  | Fail e => Fail e
  | Panic => Panic
  | OutOfFuel => OutOfFuel
  end.

Definition blind {A} (m : P A) : Prop := forall p sch, m (with_schemas sch p) = retarget sch (m p).

Lemma blind_ret {A} (a : A) : blind (mret a).
Proof. done. Qed.
Lemma blind_perr {A} message args : blind (perr (A:=A) message args).
Proof. done. Qed.
Lemma blind_out_of_fuel {A} : blind (out_of_fuel (A:=A)).
Proof. done. Qed.
Lemma blind_ppanic {A} : blind (ppanic (A:=A)).
Proof. done. Qed.
Lemma blind_bind {A B} (m : P A) (f : A -> P B) : blind m -> (forall a, blind (f a)) -> blind (m ≫= f).
Proof.
  intros Hm Hf p sch. unfold mbind, P_bind. rewrite Hm.
  destruct (m p) as [[a p']| | |]; simpl; [apply Hf|done..].
Qed.
Lemma blind_peek : blind peek.
Proof. done. Qed.
Lemma blind_advance n : blind (advance n).
Proof. done. Qed.
Lemma blind_get_state : blind get_state.
Proof. done. Qed.
Lemma blind_get_toks : blind get_toks.
Proof. done. Qed.
Lemma blind_get_pos : blind get_pos.
Proof. done. Qed.
Lemma blind_update_state f : blind (update_state f).
Proof. done. Qed.
Lemma blind_try_alias : blind try_alias.
Proof. intros p sch. unfold try_alias. simpl. by repeat case_match. Qed.
Lemma blind_lift {A} (o : outcome ParseError A) : blind (lift o).
Proof. intros p sch. by destruct o. Qed.
Lemma blind_with_fuel {A} (f : nat -> P A) : (forall n, blind (f n)) -> blind (with_fuel f).
Proof. intros H p sch. apply H. Qed.

Create HintDb blind.
#[export] Hint Resolve blind_ret blind_perr blind_out_of_fuel blind_ppanic blind_peek blind_advance
  blind_get_state blind_get_toks blind_get_pos blind_update_state blind_try_alias blind_lift : blind.

Lemma blind_comma_list {A} (item : P A) : blind item -> blind (comma_list item).
Proof.
  intros Hi. apply blind_with_fuel. intros n. generalize (@nil A). induction n as [|n IH]; intros v; [done|].
  simpl. apply blind_bind; [done|]. intros x. apply blind_bind.
  - intros p sch. unfold eat, mbind, P_bind, peek. simpl. by case_decide.
  - intros []; [apply IH|done].
Qed.

(** Decompose a composition of blind operations. *)
Ltac blind :=
  repeat first
  [ solve [auto 4 with blind]
  | match goal with
    | |- blind (mbind _ _) => apply blind_bind; [|intros ?]
    | |- blind (with_fuel _) => apply blind_with_fuel; intros ?
    | |- blind (comma_list _) => apply blind_comma_list
    | |- blind (if ?b then _ else _) => destruct b
    | |- blind (match ?x with _ => _ end) => destruct x
    end
  | progress cbv zeta beta ].

(** A loop on fuel is blind when its body is. *)
Ltac blind_loop n :=
  induction n as [|n IH]; intros; simpl; [apply blind_out_of_fuel|]; blind.

Lemma blind_bump : blind bump.
Proof. unfold bump. blind. Qed.
Lemma blind_eat t : blind (eat t).
Proof. unfold eat. blind. Qed.
#[export] Hint Resolve blind_bump blind_eat : blind.
Lemma blind_expect t w : blind (expect t w).
Proof. unfold expect. blind. Qed.
Lemma blind_expect_ident_eq l : blind (expect_ident_eq l).
Proof. unfold expect_ident_eq. blind. Qed.
Lemma blind_expect_ident : blind expect_ident.
Proof. unfold expect_ident. blind. Qed.
Lemma blind_peek_ident_eq kw : blind (peek_ident_eq kw).
Proof. unfold peek_ident_eq. blind. Qed.
#[export] Hint Resolve blind_expect blind_expect_ident_eq blind_expect_ident blind_peek_ident_eq : blind.
Lemma blind_eat_ident_eq kw : blind (eat_ident_eq kw).
Proof. unfold eat_ident_eq. blind. Qed.
Lemma blind_bump_ident m : blind (bump_ident m).
Proof. unfold bump_ident. blind. Qed.
Lemma blind_bump_nonneg m : blind (bump_nonneg m).
Proof. unfold bump_nonneg. blind. Qed.
#[export] Hint Resolve blind_eat_ident_eq blind_bump_ident blind_bump_nonneg : blind.

Lemma blind_scalar_literal : blind parse_scalar_literal.
Proof. unfold parse_scalar_literal. blind. Qed.
#[export] Hint Resolve blind_scalar_literal : blind.
Lemma blind_source_seeds : blind parse_source_seeds.
Proof. unfold parse_source_seeds. blind. Qed.
Lemma blind_duration d : blind (duration_to_sql_interval d).
Proof. unfold duration_to_sql_interval. blind. Qed.
#[export] Hint Resolve blind_source_seeds blind_duration : blind.

(** ** Expressions *)

Lemma blind_binary_loop ops sub lhs n : blind sub -> blind (binary_loop ops sub lhs n).
Proof. intros Hs. revert lhs. blind_loop n. Qed.
#[export] Hint Resolve blind_binary_loop : blind.

Section levels.
Variable rec : P string.
Hypothesis Hrec : blind rec.
#[local] Hint Resolve Hrec : blind.

Lemma blind_func_call name : blind (parse_func_call rec name).
Proof. unfold parse_func_call. blind. Qed.
#[local] Hint Resolve blind_func_call : blind.
Lemma blind_atom : blind (parse_atom rec).
Proof. unfold parse_atom. blind. Qed.
#[local] Hint Resolve blind_atom : blind.
Lemma blind_unary : blind (parse_unary rec).
Proof. apply blind_with_fuel. intros n. blind_loop n. Qed.
#[local] Hint Resolve blind_unary : blind.
Lemma blind_multiplicative : blind (parse_multiplicative rec).
Proof. unfold parse_multiplicative. blind. Qed.
#[local] Hint Resolve blind_multiplicative : blind.
Lemma blind_additive : blind (parse_additive rec).
Proof. unfold parse_additive. blind. Qed.
#[local] Hint Resolve blind_additive : blind.
Lemma blind_comparison : blind (parse_comparison rec).
Proof. unfold parse_comparison. blind. Qed.
#[local] Hint Resolve blind_comparison : blind.
Lemma blind_not : blind (parse_not rec).
Proof. apply blind_with_fuel. intros n. blind_loop n. Qed.
#[local] Hint Resolve blind_not : blind.
Lemma blind_and : blind (parse_and rec).
Proof. unfold parse_and. blind. Qed.
#[local] Hint Resolve blind_and : blind.
Lemma blind_or : blind (parse_or rec).
Proof. unfold parse_or. blind. Qed.
End levels.

Lemma blind_expr : blind parse_expr.
Proof.
  apply blind_with_fuel. intros n. induction n as [|n IH]; simpl; [apply blind_out_of_fuel|by apply blind_or].
Qed.
#[export] Hint Resolve blind_expr : blind.

(** ** Graph operators *)

Lemma blind_direction : blind parse_direction.
Proof. unfold parse_direction. blind. Qed.
Lemma blind_type_filter : blind parse_type_filter.
Proof. unfold parse_type_filter. blind. Qed.
#[export] Hint Resolve blind_direction blind_type_filter : blind.
Lemma blind_preamble : blind parse_graph_preamble.
Proof. unfold parse_graph_preamble. blind. Qed.
Lemma blind_min_max_hops op : blind (parse_min_max_hops op).
Proof. unfold parse_min_max_hops, check_hops. blind. Qed.
#[export] Hint Resolve blind_preamble blind_min_max_hops : blind.
Lemma blind_graph_traverse : blind op_graph_traverse.
Proof. unfold op_graph_traverse. blind. Qed.
Lemma blind_graph_var_length : blind op_graph_var_length.
Proof. unfold op_graph_var_length. blind. Qed.
Lemma blind_graph_shortest_path : blind op_graph_shortest_path.
Proof. unfold op_graph_shortest_path. blind. Qed.
Lemma blind_make_graph : blind op_make_graph.
Proof. unfold op_make_graph. blind. Qed.
Lemma blind_node_pattern : blind parse_node_pattern.
Proof. unfold parse_node_pattern. blind. Qed.
#[export] Hint Resolve blind_node_pattern : blind.
Lemma blind_hop_pattern : blind parse_hop_pattern.
Proof. unfold parse_hop_pattern, parse_edge_type. blind. Qed.
#[export] Hint Resolve blind_hop_pattern : blind.
Lemma blind_project_list op alias_of : (forall v, blind (alias_of v)) -> blind (parse_project_list op alias_of).
Proof.
  intros Ha. unfold parse_project_list, parse_project_item. blind.
Qed.
#[export] Hint Resolve blind_project_list : blind.
Lemma blind_var_match_alias a r b v : blind (var_match_alias a r b v).
Proof. unfold var_match_alias. blind. Qed.
Lemma blind_linear_alias nodes edges v : blind (linear_alias nodes edges v).
Proof. unfold linear_alias, unknown_variable. blind. Qed.
Lemma blind_general_alias nv es v : blind (general_alias nv es v).
Proof. unfold general_alias, unknown_variable. blind. Qed.
#[export] Hint Resolve blind_var_match_alias blind_linear_alias blind_general_alias : blind.
Lemma blind_graph_var_match : blind op_graph_var_match.
Proof. unfold op_graph_var_match. blind. Qed.
Lemma blind_hops_loop nodes edges n : blind (hops_loop nodes edges n).
Proof. revert nodes edges. blind_loop n. Qed.
Lemma blind_segment_loop prev opt nv es n : blind (segment_loop prev opt nv es n).
Proof. revert prev nv es. blind_loop n. Qed.
#[export] Hint Resolve blind_hops_loop blind_segment_loop : blind.
Lemma blind_segments_loop nv es n : blind (segments_loop nv es n).
Proof. revert nv es. blind_loop n. Qed.
#[export] Hint Resolve blind_segments_loop : blind.
Lemma blind_general def nodes edges : blind (emit_general_graph_match def nodes edges).
Proof. unfold emit_general_graph_match. blind. Qed.
#[export] Hint Resolve blind_general : blind.
Lemma blind_graph_match : blind op_graph_match.
Proof. unfold op_graph_match. blind. Qed.

(** ** Pipelines *)

Lemma blind_where : blind op_where.
Proof. unfold op_where, rebase_if_aggregated. blind. Qed.
Lemma blind_project away : blind (op_project away).
Proof. unfold op_project, rebase_if_aggregated. blind. Qed.
Lemma blind_extend : blind op_extend.
Proof. unfold op_extend. blind. Qed.
Lemma blind_summarize : blind op_summarize.
Proof. unfold op_summarize, summarize_item. blind. Qed.
Lemma blind_take : blind op_take.
Proof. unfold op_take. blind. Qed.
Lemma blind_desc : blind parse_desc.
Proof. unfold parse_desc. blind. Qed.
#[export] Hint Resolve blind_desc : blind.
Lemma blind_sort : blind op_sort.
Proof. unfold op_sort. blind. Qed.
Lemma blind_top : blind op_top.
Proof. unfold op_top. blind. Qed.
Lemma blind_count : blind op_count.
Proof. unfold op_count. blind. Qed.
Lemma blind_distinct_loop cols n : blind (distinct_loop cols n).
Proof. revert cols. blind_loop n. Qed.
#[export] Hint Resolve blind_distinct_loop : blind.
Lemma blind_distinct : blind op_distinct.
Proof. unfold op_distinct. blind. Qed.
#[export] Hint Resolve blind_where blind_project blind_extend blind_summarize blind_take blind_sort
  blind_top blind_count blind_distinct blind_graph_traverse blind_graph_var_length
  blind_graph_var_match blind_graph_shortest_path blind_make_graph blind_graph_match : blind.

Lemma blind_operator : blind parse_operator.
Proof. unfold parse_operator. blind. Qed.
#[export] Hint Resolve blind_operator : blind.

Lemma blind_pipeline : blind parse_pipeline.
Proof.
  unfold parse_pipeline. apply blind_bind; [|intros ?; blind]. apply blind_with_fuel. intros n. blind_loop n.
Qed.
#[export] Hint Resolve blind_pipeline : blind.

Lemma blind_table_query : blind parse_table_query.
Proof. unfold parse_table_query. blind. Qed.
