(* ===== verification/KqlRef.v ===== *)
(** * A reference grammar for KQL expressions

    Expressions as syntax trees, with the tokens they are written with (explicit
    parentheses, and those that precedence requires) and the SQL they stand for;
    the second half shows that the precedence-climbing parser computes this SQL. *)

From stdpp Require Import base gmap strings list.
From Stdlib Require Import NArith ZArith Lia Ascii.
From S2P Require Import Prelude Bytes F64 KqlLexer KqlState KqlParser KqlExpr.

Local Open Scope string_scope.

Inductive mul_op := OMul | ODiv | OMod.
Inductive add_op := OAdd | OSub.
Inductive rel_op := REq | RNe | RLt | RLe | RGt | RGe | RContains | RStartswith | REndswith | RHas.

Inductive expr :=
  | EInt (n : Z)
  | EFloat (f : f64)
  | EStr (s : string)
  | EStar
  | ECol (name : string)
  | ECall (f : string) (args : list expr)
  | EParen (e : expr)
  | ENeg (e : expr)
  | EMul (op : mul_op) (a b : expr)
  | EAdd (op : add_op) (a b : expr)
  | ERel (op : rel_op) (a b : expr)
  | EBetween (a low high : expr)
  | EIn (a : expr) (v : expr) (vs : list expr)
  | ENot (e : expr)
  | EAnd (a b : expr)
  | EOr (a b : expr).

Section expr_induction.
Variable Pe : expr -> Prop.
Hypothesis (HInt : forall n, Pe (EInt n)) (HFloat : forall f, Pe (EFloat f)).
Hypothesis (HStr : forall s, Pe (EStr s)) (HStar : Pe EStar) (HCol : forall s, Pe (ECol s)).
Hypothesis HCall : forall f args, Forall Pe args -> Pe (ECall f args).
Hypothesis HParen : forall e, Pe e -> Pe (EParen e).
Hypothesis HNeg : forall e, Pe e -> Pe (ENeg e).
Hypothesis HMul : forall op a b, Pe a -> Pe b -> Pe (EMul op a b).
Hypothesis HAdd : forall op a b, Pe a -> Pe b -> Pe (EAdd op a b).
Hypothesis HRel : forall op a b, Pe a -> Pe b -> Pe (ERel op a b).
Hypothesis HBetween : forall a l h, Pe a -> Pe l -> Pe h -> Pe (EBetween a l h).
Hypothesis HIn : forall a v vs, Pe a -> Pe v -> Forall Pe vs -> Pe (EIn a v vs).
Hypothesis HNot : forall e, Pe e -> Pe (ENot e).
Hypothesis HAnd : forall a b, Pe a -> Pe b -> Pe (EAnd a b).
Hypothesis HOr : forall a b, Pe a -> Pe b -> Pe (EOr a b).

(** Induction that reaches the arguments of calls and of [in]. *)
Fixpoint expr_nested_ind (e : expr) : Pe e :=
  let all := fix all (l : list expr) : Forall Pe l :=
    match l with
    | [] => Forall_nil_2 Pe
    | e :: l => Forall_cons_2 Pe e l (expr_nested_ind e) (all l)
    end in
  match e with
  | EInt n => HInt n
  | EFloat f => HFloat f
  | EStr s => HStr s
  | EStar => HStar
  | ECol s => HCol s
  | ECall f args => HCall f args (all args)
  | EParen e => HParen e (expr_nested_ind e)
  | ENeg e => HNeg e (expr_nested_ind e)
  | EMul op a b => HMul op a b (expr_nested_ind a) (expr_nested_ind b)
  | EAdd op a b => HAdd op a b (expr_nested_ind a) (expr_nested_ind b)
  | ERel op a b => HRel op a b (expr_nested_ind a) (expr_nested_ind b)
  | EBetween a l h => HBetween a l h (expr_nested_ind a) (expr_nested_ind l) (expr_nested_ind h)
  | EIn a v vs => HIn a v vs (expr_nested_ind a) (expr_nested_ind v) (all vs)
  | ENot e => HNot e (expr_nested_ind e)
  | EAnd a b => HAnd a b (expr_nested_ind a) (expr_nested_ind b)
  | EOr a b => HOr a b (expr_nested_ind a) (expr_nested_ind b)
  end.
End expr_induction.

(** Binding strength: 0 for atoms up to 7 for [or]. *)
Definition level (e : expr) : nat :=
  match e with
  | EInt _ | EFloat _ | EStr _ | EStar | ECol _ | ECall _ _ | EParen _ => 0
  | ENeg _ => 1
  | EMul _ _ _ => 2
  | EAdd _ _ _ => 3
  | ERel _ _ _ | EBetween _ _ _ | EIn _ _ _ => 4
  | ENot _ => 5
  | EAnd _ _ => 6
  | EOr _ _ => 7
  end.

Definition mul_tok (op : mul_op) : Token := match op with OMul => Star | ODiv => Slash | OMod => Percent end.
Definition mul_sql (op : mul_op) : string := match op with OMul => "*" | ODiv => "/" | OMod => "%" end.
Definition add_tok (op : add_op) : Token := match op with OAdd => Plus | OSub => Minus end.
Definition add_sql (op : add_op) : string := match op with OAdd => "+" | OSub => "-" end.
Definition rel_tok (op : rel_op) : Token :=
  match op with
  | REq => Eq | RNe => Ne | RLt => Lt | RLe => Le | RGt => Gt | RGe => Ge
  | RContains => Ident "contains" | RStartswith => Ident "startswith"
  | REndswith => Ident "endswith" | RHas => Ident "has"
  end.
Definition rel_sql (op : rel_op) : cmp_op :=
  match op with
  | REq => SqlOp "=" | RNe => SqlOp "<>" | RLt => SqlOp "<" | RLe => SqlOp "<="
  | RGt => SqlOp ">" | RGe => SqlOp ">="
  | RContains => KQL_CONTAINS | RStartswith => KQL_STARTSWITH
  | REndswith => KQL_ENDSWITH | RHas => KQL_HAS
  end.

(** Token sequences separated by commas. *)
Fixpoint commas (l : list (list Token)) : list Token :=
  match l with
  | [] => []
  | [ts] => ts
  | ts :: l => (ts ++ Comma :: commas l)%list
  end.

(** [t] as an operand of binding strength [k]: in parentheses when it binds
    less tightly. *)
Definition paren_toks (k l : nat) (ts : list Token) : list Token :=
  if (l <=? k)%nat then ts else (LParen :: ts ++ [RParen])%list.
Definition paren_sql (k l : nat) (s : string) : string :=
  if (l <=? k)%nat then s else fmt ["("; s; ")"].

Fixpoint write (e : expr) : list Token :=
  let at_level k e := paren_toks k (level e) (write e) in
  (match e with
  | EInt n => [Int n]
  | EFloat f => [Float f]
  | EStr s => [Str s]
  | EStar => [Star]
  | ECol name => [Ident name]
  | ECall f args => Ident f :: LParen :: commas (map (at_level 7) args) ++ [RParen]
  | EParen e => LParen :: write e ++ [RParen]
  | ENeg e => Minus :: at_level 1 e
  | EMul op a b => at_level 2 a ++ mul_tok op :: at_level 1 b
  | EAdd op a b => at_level 3 a ++ add_tok op :: at_level 2 b
  | ERel op a b => at_level 3 a ++ rel_tok op :: at_level 3 b
  | EBetween a l h =>
      at_level 3 a ++ Ident "between" :: LParen :: at_level 3 l ++ DotDot :: at_level 3 h ++ [RParen]
  | EIn a v vs => at_level 3 a ++ Ident "in" :: LParen :: commas (map (at_level 3) (v :: vs)) ++ [RParen]
  | ENot e => Ident "not" :: at_level 5 e
  | EAnd a b => at_level 6 a ++ Ident "and" :: at_level 5 b
  | EOr a b => at_level 7 a ++ Ident "or" :: at_level 6 b
  end)%list.

Fixpoint lower (e : expr) : string :=
  let at_level k e := paren_sql k (level e) (lower e) in
  match e with
  | EInt n => show_Z n
  | EFloat f => show_f64 f
  | EStr s => sql_quote s
  | EStar => "*"
  | ECol name => column_sql name
  | ECall f args => default "" (func_sql f (map (at_level 7) args))
  | EParen e => fmt ["("; lower e; ")"]
  | ENeg e => fmt ["(-"; at_level 1 e; ")"]
  | EMul op a b => fmt ["("; at_level 2 a; " "; mul_sql op; " "; at_level 1 b; ")"]
  | EAdd op a b => fmt ["("; at_level 3 a; " "; add_sql op; " "; at_level 2 b; ")"]
  | ERel op a b => comparison_sql (rel_sql op) (at_level 3 a) (at_level 3 b)
  | EBetween a l h =>
      fmt ["(("; at_level 3 a; " >= "; at_level 3 l; ") AND ("; at_level 3 a; " <= "; at_level 3 h; "))"]
  | EIn a v vs => fmt ["("; at_level 3 a; " IN ("; join ", " (map (at_level 3) (v :: vs)); "))"]
  | ENot e => fmt ["(NOT "; at_level 5 e; ")"]
  | EAnd a b => fmt ["("; at_level 6 a; " AND "; at_level 5 b; ")"]
  | EOr a b => fmt ["("; at_level 7 a; " OR "; at_level 6 b; ")"]
  end.

(** The expressions of the grammar: [not] is not a name, and every call is of
    a function the translation knows, at an arity it knows. *)
Fixpoint wf_expr (e : expr) : bool :=
  match e with
  | EInt _ | EFloat _ | EStr _ | EStar => true
  | ECol name => negb (bool_decide (name = "not"))
  | ECall f args =>
      negb (bool_decide (f = "not")) && forallb wf_expr args
      && bool_decide (is_Some (func_sql f (map (fun e => paren_sql 7 (level e) (lower e)) args)))
  | EParen e | ENeg e | ENot e => wf_expr e
  | EMul _ a b | EAdd _ a b | ERel _ a b | EAnd a b | EOr a b => wf_expr a && wf_expr b
  | EBetween a l h => wf_expr a && wf_expr l && wf_expr h
  | EIn a v vs => wf_expr a && wf_expr v && forallb wf_expr vs
  end.

(** May an expression of binding strength [k] end before the token [t]?  Not
    before a token that continues it. *)
Definition follow (k : nat) (t : option Token) : bool :=
  negb (bool_decide (t = Some LParen)) && negb (bool_decide (t = Some Dot))
  && (if (2 <=? k)%nat then bool_decide (multiplicative_op t = None) else true)
  && (if (3 <=? k)%nat then bool_decide (additive_op t = None) else true)
  && (if (4 <=? k)%nat then negb (bool_decide (t = Some (Ident "between"))) && negb (peeks_in t)
                      && match comparison_op t with None => true | Some _ => false end else true)
  && (if (6 <=? k)%nat then bool_decide (and_op t = None) else true)
  && (if (7 <=? k)%nat then bool_decide (or_op t = None) else true).

(** * The expression parser computes the reference translation

    [parses m ts a fol]: on a parser whose next tokens are [ts] followed by a
    token that [fol] accepts, [m] consumes exactly [ts] and returns [a]. *)

Definition ahead (p : Parser) : list Token := drop (pos p) (toks p).
Definition after (n : nat) (p : Parser) : Parser :=
  {| toks := toks p; pos := pos p + n; state := state p; schemas := schemas p |}.

Definition parses {A} (m : P A) (ts : list Token) (a : A) (fol : option Token -> bool) : Prop :=
  forall p rest, ahead p = (ts ++ rest)%list -> fol (head rest) = true ->
    m p = Ret (a, after (List.length ts) p).

(** ** Stepping *)

Lemma nth_error_head {A} (l : list A) n : nth_error l n = head (drop n l).
Proof. revert n; induction l as [|x l IH]; intros [|n]; simpl; auto. Qed.

Lemma peek_ahead p : peek p = Ret (head (ahead p), p).
Proof. unfold peek. by rewrite nth_error_head. Qed.

Lemma ahead_after p ts rest : ahead p = (ts ++ rest)%list -> ahead (after (List.length ts) p) = rest.
Proof.
  unfold ahead, after. simpl. intros H. by rewrite <-drop_drop, H, drop_app_length.
Qed.

Lemma ahead_after1 p t rest : ahead p = (t :: rest)%list -> ahead (after 1 p) = rest.
Proof. apply (ahead_after p [t]). Qed.

Lemma after_after n m p : after m (after n p) = after (n + m) p.
Proof. unfold after. simpl. f_equal. lia. Qed.

Lemma rem_ahead p : rem p = List.length (ahead p).
Proof. unfold rem, ahead. by rewrite length_drop. Qed.

Lemma advance_after n p : advance n p = Ret (tt, after n p).
Proof. done. Qed.

Lemma bind_run {A B} (m : P A) (f : A -> P B) p a p' : m p = Ret (a, p') -> (m ≫= f) p = f a p'.
Proof. intros H. unfold mbind, P_bind. by rewrite H. Qed.

Lemma eat_yes p t rest : ahead p = (t :: rest)%list -> eat t p = Ret (true, after 1 p).
Proof.
  intros H. unfold eat. rewrite (bind_run _ _ _ _ _ (peek_ahead p)), H. simpl.
  by rewrite decide_True.
Qed.

Lemma eat_no p t : head (ahead p) <> Some t -> eat t p = Ret (false, p).
Proof.
  intros H. unfold eat. rewrite (bind_run _ _ _ _ _ (peek_ahead p)). by rewrite decide_False.
Qed.

Lemma expect_yes p t what rest : ahead p = (t :: rest)%list -> expect t what p = Ret (tt, after 1 p).
Proof. intros H. unfold expect. by rewrite (bind_run _ _ _ _ _ (eat_yes p t rest H)). Qed.

Lemma bump_yes p t rest : ahead p = (t :: rest)%list -> bump p = Ret (t, after 1 p).
Proof. intros H. unfold bump. by rewrite (bind_run _ _ _ _ _ (peek_ahead p)), H. Qed.

Lemma parses_mono {A} (m : P A) ts a (f g : option Token -> bool) :
  (forall t, g t = true -> f t = true) -> parses m ts a f -> parses m ts a g.
Proof. intros H Hm p rest Hp Hg. by apply (Hm p rest), H. Qed.

(** ** Comma lists *)

Lemma commas_cons ts l : l <> [] -> commas (ts :: l) = (ts ++ Comma :: commas l)%list.
Proof. by destruct l. Qed.

Lemma commas_length ts l : ts ∈ l -> List.length ts <= List.length (commas l).
Proof.
  induction l as [|x l IH]; [set_solver|]. intros [->|H]%elem_of_cons; destruct l as [|y l].
  - done.
  - rewrite commas_cons, length_app by done. lia.
  - set_solver.
  - rewrite commas_cons, length_app by done. cbn [List.length]. apply IH in H. lia.
Qed.

Lemma parses_comma_loop {A} (item : P A) (fol : option Token -> bool) l vs v0 fuel p rest :
  fol (Some Comma) = true -> l <> [] ->
  Forall2 (fun ts v => parses item ts v fol /\ ts <> []) l vs ->
  ahead p = (commas l ++ rest)%list -> fol (head rest) = true -> head rest <> Some Comma ->
  rem p < fuel ->
  comma_loop item v0 fuel p = Ret ((v0 ++ vs)%list, after (List.length (commas l)) p).
Proof.
  intros HC Hne HF. revert Hne v0 fuel p.
  induction HF as [|ts v l vs [Hts Hnil] HF IH]; intros Hne v0 fuel p Hp Hf Hc Hfuel; [done|].
  destruct fuel as [|fuel]; [lia|]. cbn [comma_loop]. clear Hne.
  destruct l as [|ts2 l].
  - inversion HF; subst. simpl in Hp. erewrite bind_run; [|by apply (Hts p rest)].
    erewrite bind_run; [|apply eat_no; by rewrite (ahead_after _ _ _ Hp)]. done.
  - rewrite commas_cons in * by done. rewrite <-app_assoc in Hp. simpl in Hp.
    erewrite bind_run; [|by apply (Hts p _ Hp)].
    pose proof (ahead_after _ _ _ Hp) as Hp1.
    erewrite bind_run; [|by eapply eat_yes]. simpl.
    rewrite (IH ltac:(done)); [|by apply (ahead_after1 _ _ _ Hp1)|done|done|].
    + rewrite <-app_assoc. simpl. rewrite !after_after, length_app. simpl. repeat f_equal; lia.
    + rewrite !rem_ahead in *. rewrite (ahead_after1 _ _ _ Hp1). rewrite Hp, length_app in Hfuel.
      simpl in Hfuel. destruct ts; [done|]. simpl in Hfuel. lia.
Qed.

Lemma parses_comma_list {A} (item : P A) (fol : option Token -> bool) l vs :
  fol (Some Comma) = true -> l <> [] ->
  Forall2 (fun ts v => parses item ts v fol /\ ts <> []) l vs ->
  parses (comma_list item) (commas l) vs (fun t => fol t && negb (bool_decide (t = Some Comma))).
Proof.
  intros HC Hne HF p rest Hp [Hf Hc]%andb_prop. unfold comma_list, with_fuel.
  eapply (parses_comma_loop item fol l vs []); eauto. by apply negb_true_iff, bool_decide_eq_false in Hc.
Qed.

(** ** Left-associative chains *)

Section chain.
Variable ops : option Token -> option string.
Variable sub : P string.
Variable fol : option Token -> bool.

Abbreviation chain := (lhs ← sub; with_fuel (binary_loop ops sub lhs)).

(** Having read [ts], the level is in its loop with [a] accumulated. *)
Definition chain_parses (ts : list Token) (a : string) : Prop :=
  forall p rest, ahead p = (ts ++ rest)%list -> fol (head rest) = true ->
    exists f, rem (after (List.length ts) p) < f /\
      chain p = binary_loop ops sub a f (after (List.length ts) p).

Lemma chain_base ts a : parses sub ts a fol -> chain_parses ts a.
Proof.
  intros Hs p rest Hp Hf. eexists. split; [|by rewrite (bind_run _ _ _ _ _ (Hs p rest Hp Hf))]. lia.
Qed.

Lemma chain_step ts1 a1 t o ts2 a2 :
  chain_parses ts1 a1 -> ops (Some t) = Some o -> fol (Some t) = true -> parses sub ts2 a2 fol ->
  chain_parses (ts1 ++ t :: ts2) (fmt ["("; a1; " "; o; " "; a2; ")"]).
Proof.
  intros H1 Ho Ht H2 p rest Hp Hf. rewrite <-app_assoc in Hp. simpl in Hp.
  destruct (H1 p _ Hp Ht) as (f & Hlt & Heq). pose proof (ahead_after _ _ _ Hp) as Hp1.
  destruct f as [|f]; [lia|]. pose proof (ahead_after1 _ _ _ Hp1) as Hp2.
  pose proof (ahead_after _ _ _ Hp2) as Hp3. rewrite !after_after in Hp3.
  exists f. rewrite length_app. cbn [List.length]. split.
  - rewrite !rem_ahead in *. rewrite Hp1 in Hlt. simpl in Hlt. rewrite length_app in Hlt.
    change (S (List.length ts2)) with (1 + List.length ts2). rewrite Hp3. lia.
  - rewrite Heq. cbn [binary_loop]. rewrite (bind_run _ _ _ _ _ (peek_ahead _)), Hp1. cbn [head].
    rewrite Ho, (bind_run _ _ _ _ _ (advance_after _ _)), (bind_run _ _ _ _ _ (H2 _ _ Hp2 Hf)).
    by rewrite !after_after.
Qed.

Lemma chain_end ts a : chain_parses ts a ->
  parses chain ts a (fun t => fol t && bool_decide (ops t = None)).
Proof.
  intros H p rest Hp [Hf Ho]%andb_prop. apply bool_decide_eq_true in Ho.
  destruct (H p rest Hp Hf) as (f & Hlt & ->). destruct f as [|f]; [lia|]. cbn [binary_loop].
  rewrite (bind_run _ _ _ _ _ (peek_ahead _)), (ahead_after _ _ _ Hp), Ho. done.
Qed.
End chain.

(** ** The levels *)

Definition lev (k : nat) (rec : P string) : P string :=
  match k with
  | 0 => parse_atom rec
  | 1 => parse_unary rec
  | 2 => parse_multiplicative rec
  | 3 => parse_additive rec
  | 4 => parse_comparison rec
  | 5 => parse_not rec
  | 6 => parse_and rec
  | _ => parse_or rec
  end.

(** Tokens that a level would not take for its own prefix operator. *)
Definition starts (k : nat) (ts : list Token) : bool :=
  negb (bool_decide (ts = []))
  && (if decide (k = 1) then negb (bool_decide (head ts = Some Minus))
      else if decide (k = 5) then negb (bool_decide (head ts = Some (Ident "not")))
      else true).

Lemma follow_down k t : follow (S k) t = true -> follow k t = true.
Proof.
  unfold follow. do 7 (destruct k as [|k]; [simpl; rewrite ?andb_true_iff; tauto|]).
  simpl. rewrite ?andb_true_iff. tauto.
Qed.

Lemma unary_no_minus rec ts a fol :
  parses (parse_atom rec) ts a fol -> starts 1 ts = true -> parses (parse_unary rec) ts a fol.
Proof.
  intros Hm Hs p rest Hp Hf. unfold parse_unary, with_fuel. cbn [parse_unary_loop].
  assert (Hhead : head (ahead p) <> Some Minus).
  { unfold starts in Hs. apply andb_prop in Hs as [Hne Hh].
    apply negb_true_iff, bool_decide_eq_false in Hne, Hh. rewrite Hp. by destruct ts. }
  rewrite (bind_run _ _ _ _ _ (eat_no p Minus Hhead)). by apply (Hm p rest).
Qed.

Lemma unary_minus rec ts a fol :
  parses (parse_unary rec) ts a fol -> ts <> [] ->
  parses (parse_unary rec) (Minus :: ts) (fmt ["(-"; a; ")"]) fol.
Proof.
  intros Hm Hne p rest Hp Hf. unfold parse_unary, with_fuel. cbn [parse_unary_loop].
  rewrite (bind_run _ _ _ _ _ (eat_yes p Minus _ Hp)). cbv iota.
  pose proof (ahead_after1 _ _ _ Hp) as Hp1.
  assert (Hrem : S (rem (after 1 p)) = rem p).
  { rewrite !rem_ahead, Hp, Hp1. done. }
  pose proof (Hm _ _ Hp1 Hf) as H. unfold parse_unary, with_fuel in H. rewrite Hrem in H.
  rewrite (bind_run _ _ _ _ _ H). unfold mret, P_ret. by rewrite after_after.
Qed.

Lemma not_no_not rec ts a fol :
  parses (parse_comparison rec) ts a fol -> starts 5 ts = true -> parses (parse_not rec) ts a fol.
Proof.
  intros Hm Hs p rest Hp Hf. unfold parse_not, with_fuel. cbn [parse_not_loop].
  unfold starts in Hs. apply andb_prop in Hs as [Hne Hh].
  apply negb_true_iff, bool_decide_eq_false in Hne, Hh.
  unfold peek_ident_eq. unfold mbind at 1, P_bind at 1. rewrite (bind_run _ _ _ _ _ (peek_ahead p)).
  unfold mret at 1, P_ret at 1. rewrite bool_decide_eq_false_2; [by apply (Hm p rest)|].
  rewrite Hp. by destruct ts.
Qed.

Lemma not_not rec ts a fol :
  parses (parse_not rec) ts a fol ->
  parses (parse_not rec) (Ident "not" :: ts) (fmt ["(NOT "; a; ")"]) fol.
Proof.
  intros Hm p rest Hp Hf. unfold parse_not, with_fuel. cbn [parse_not_loop].
  unfold peek_ident_eq. unfold mbind at 1, P_bind at 1. rewrite (bind_run _ _ _ _ _ (peek_ahead p)).
  unfold mret at 1, P_ret at 1. rewrite bool_decide_eq_true_2 by (by rewrite Hp). cbv iota.
  rewrite (bind_run _ _ _ _ _ (advance_after _ _)). pose proof (ahead_after1 _ _ _ Hp) as Hp1.
  assert (Hrem : S (rem (after 1 p)) = rem p) by by rewrite !rem_ahead, Hp, Hp1.
  pose proof (Hm _ _ Hp1 Hf) as H. unfold parse_not, with_fuel in H. rewrite Hrem in H.
  rewrite (bind_run _ _ _ _ _ H). unfold mret, P_ret. by rewrite after_after.
Qed.

(** What may follow the operand of a comparison level that stops there. *)
Lemma comparison_stop rec ts a :
  parses (parse_additive rec) ts a (follow 3) -> parses (parse_comparison rec) ts a (follow 4).
Proof.
  intros Hm p rest Hp Hf. unfold parse_comparison.
  rewrite (bind_run _ _ _ _ _ (Hm p rest Hp (follow_down 3 _ Hf))).
  rewrite (bind_run _ _ _ _ _ (peek_ahead _)), (ahead_after _ _ _ Hp).
  unfold follow in Hf. simpl in Hf. repeat rewrite andb_true_iff in Hf.
  destruct Hf as [[[[[[_ _] _] _] [[Hb Hi] Hc]] _] _].
  apply negb_true_iff, bool_decide_eq_false in Hb. apply negb_true_iff in Hi.
  rewrite decide_False by done. rewrite Hi. by destruct (comparison_op _).
Qed.

Lemma lift_level rec k ts a :
  k < 7 -> starts (S k) ts = true ->
  parses (lev k rec) ts a (follow k) -> parses (lev (S k) rec) ts a (follow (S k)).
Proof.
  intros Hk Hs H.
  assert (Hdown : parses (lev k rec) ts a (follow (S k))) by (eapply parses_mono; [apply follow_down|exact H]).
  destruct k as [|[|[|[|[|[|[|k]]]]]]]; simpl in *; try lia.
  - by apply unary_no_minus.
  - eapply parses_mono; [|apply chain_end, chain_base, H]. intros t Ht. simpl.
    rewrite (follow_down 1 t Ht). unfold follow in Ht. simpl in Ht. rewrite !andb_true_iff in Ht. tauto.
  - eapply parses_mono; [|apply chain_end, chain_base, H]. intros t Ht. simpl.
    rewrite (follow_down 2 t Ht). unfold follow in Ht. simpl in Ht. rewrite !andb_true_iff in Ht. tauto.
  - by apply comparison_stop.
  - by apply not_no_not.
  - eapply parses_mono; [|apply chain_end, chain_base, H]. intros t Ht. simpl.
    rewrite (follow_down 5 t Ht). unfold follow in Ht. simpl in Ht. rewrite !andb_true_iff in Ht. tauto.
  - eapply parses_mono; [|apply chain_end, chain_base, H]. intros t Ht. simpl.
    rewrite (follow_down 6 t Ht). unfold follow in Ht. simpl in Ht. rewrite !andb_true_iff in Ht. tauto.
Qed.

(** What holds of an expression of binding strength [k]: at the levels with a
    loop, that the loop has it accumulated. *)
Definition chain_at (k : nat) (rec : P string) (ts : list Token) (a : string) : Prop :=
  match k with
  | 2 => chain_parses multiplicative_op (lev 1 rec) (follow 1) ts a
  | 3 => chain_parses additive_op (lev 2 rec) (follow 2) ts a
  | 6 => chain_parses and_op (lev 5 rec) (follow 5) ts a
  | 7 => chain_parses or_op (lev 6 rec) (follow 6) ts a
  | _ => parses (lev k rec) ts a (follow k)
  end.

Lemma follow_split k t : follow (S k) t = true ->
  follow k t && bool_decide (match S k with 2 => multiplicative_op t | 3 => additive_op t
                                        | 6 => and_op t | 7 => or_op t | _ => None end = None) = true.
Proof.
  intros Ht. rewrite (follow_down k t Ht). unfold follow in Ht.
  do 7 (destruct k as [|k]; [simpl in *; rewrite ?andb_true_iff in *; tauto|]). done.
Qed.

Lemma chain_at_parses k rec ts a : k <= 7 -> chain_at k rec ts a -> parses (lev k rec) ts a (follow k).
Proof.
  intros Hk H. destruct k as [|k]; [exact H|]. pose proof (follow_split k) as Hs.
  destruct k as [|[|[|[|[|[|[|k]]]]]]]; simpl in *; try exact H; try lia;
    (eapply parses_mono; [|apply chain_end, H]; exact Hs).
Qed.

Lemma step_at k rec ts a : k < 7 -> starts (S k) ts = true ->
  parses (lev k rec) ts a (follow k) -> chain_at (S k) rec ts a.
Proof.
  intros Hk Hs H. pose proof (lift_level rec k ts a Hk Hs H) as Hl.
  destruct k as [|[|[|[|[|[|[|k]]]]]]]; simpl in *; try exact Hl; try lia; by apply chain_base.
Qed.

Lemma raise_level rec ts a j k : j <= k <= 7 -> (forall i, j < i <= 7 -> starts i ts = true) ->
  parses (lev j rec) ts a (follow j) -> parses (lev k rec) ts a (follow k).
Proof.
  intros [Hjk Hk] Hs H. induction Hjk as [|k Hjk IH]; [done|].
  apply chain_at_parses, step_at; [lia|lia|apply Hs; lia|apply IH; lia].
Qed.

(** ** First tokens *)

Lemma level_le e : level e <= 7.
Proof. destruct e; simpl; lia. Qed.

(** The first token of an expression. *)
Definition opens (l : nat) (ts : list Token) : bool :=
  match ts with
  | [] => false
  | t :: _ => negb (bool_decide (t = RParen)) && (if decide (l = 0) then negb (bool_decide (t = Minus)) else true)
              && (if decide (l <= 4) then negb (bool_decide (t = Ident "not")) else true)
  end.

Lemma opens_paren k l ts rest l' : opens l ts = true -> k <= 4 \/ 5 <= l' -> 1 <= k \/ 1 <= l' -> 1 <= l' ->
  opens l' (paren_toks k l ts ++ rest) = true.
Proof.
  intros H Hk Hk0 Hl'. unfold paren_toks. destruct (Nat.leb_spec l k).
  - destruct ts as [|t ts]; [done|]. simpl in *. apply andb_prop in H as [[H1 H2]%andb_prop H3].
    rewrite H1, decide_False by lia. simpl. destruct (decide (l' <= 4)); [|done].
    by rewrite decide_True in H3 by lia.
  - simpl. by repeat case_decide.
Qed.

Lemma opens_ident l name ts : negb (bool_decide (name = "not")) = true -> opens l (Ident name :: ts) = true.
Proof.
  intros H%negb_true_iff%bool_decide_eq_false. simpl.
  rewrite !(bool_decide_eq_false_2 (_ = _)) by congruence. by repeat case_decide.
Qed.

Lemma write_opens e : wf_expr e = true -> opens (level e) (write e) = true.
Proof.
  induction e using expr_nested_ind; cbn [wf_expr level write]; intros Hwf;
    rewrite ?andb_true_iff in Hwf; try reflexivity;
    try (apply opens_ident; tauto);
    (apply opens_paren; [intuition|lia..]).
Qed.

Lemma opens_starts l ts i : opens l ts = true -> l < i -> starts i ts = true.
Proof.
  intros H Hi. destruct ts as [|t ts]; [done|]. unfold starts. simpl in *.
  revert H. rewrite !andb_true_iff. intros [[_ H1] H2].
  repeat case_decide; subst; try lia; try done; simpl;
    rewrite ?negb_true_iff, ?bool_decide_eq_false in *; congruence.
Qed.

(** * The expression theorem

    By induction on the syntax tree, [parse_expr] on the tokens an expression
    is written with returns the SQL it stands for. *)

Abbreviation R := parse_expr_fuel.

(** The claim at one expression: with fuel for its tokens, at its own level. *)
Definition holds (e : expr) : Prop :=
  forall n, List.length (write e) <= n -> chain_at (level e) (R n) (write e) (lower e).

(** ** Operands *)

Lemma starts_write e i : wf_expr e = true -> level e < i -> starts i (write e) = true.
Proof. intros Hwf Hi. eapply opens_starts; [by apply write_opens|done]. Qed.

(** An expression at the loosest level, as the recursive call reads it. *)
Lemma holds_full e n : wf_expr e = true -> holds e -> List.length (write e) < n ->
  parses (R n) (write e) (lower e) (follow 7).
Proof.
  intros Hwf He Hn. destruct n as [|n]; [lia|]. pose proof (level_le e).
  change (R (S n)) with (lev 7 (R n)).
  apply (raise_level (R n) (write e) (lower e) (level e) 7); [lia| |].
  - intros i Hi. apply starts_write; [done|lia].
  - apply chain_at_parses, He; lia.
Qed.

Lemma paren_atom e n : wf_expr e = true -> holds e -> List.length (write e) + 2 <= n ->
  parses (lev 0 (R n)) (LParen :: write e ++ [RParen]) (fmt ["("; lower e; ")"]) (follow 0).
Proof.
  intros Hwf He Hn p rest Hp _. simpl in Hp. rewrite <-app_assoc in Hp. simpl in Hp.
  unfold lev, parse_atom. rewrite (bind_run _ _ _ _ _ (bump_yes _ _ _ Hp)).
  pose proof (ahead_after1 _ _ _ Hp) as Hp1. pose proof (ahead_after _ _ _ Hp1) as Hp2.
  rewrite (bind_run _ _ _ _ _ (holds_full e n Hwf He ltac:(lia) _ _ Hp1 eq_refl)).
  rewrite (bind_run _ _ _ _ _ (expect_yes _ _ _ _ Hp2)).
  unfold mret, P_ret. rewrite !after_after. simpl. rewrite length_app. simpl. repeat f_equal; lia.
Qed.

(** An operand at binding strength [k], in parentheses when it needs them. *)
Lemma operand e k n : wf_expr e = true -> holds e -> k <= 7 ->
  List.length (paren_toks k (level e) (write e)) <= n ->
  chain_at k (R n) (paren_toks k (level e) (write e)) (paren_sql k (level e) (lower e)).
Proof.
  intros Hwf He Hk. unfold paren_toks, paren_sql. destruct (Nat.leb_spec (level e) k) as [Hle|Hgt]; intros Hn.
  - destruct (decide (level e = k)) as [<-|Hne]; [by apply He|].
    destruct k as [|k]; [lia|]. apply step_at; [lia|apply starts_write; [done|lia]|].
    apply (raise_level (R n) (write e) (lower e) (level e) k); [lia| |apply chain_at_parses, He; lia].
    intros i Hi. apply starts_write; [done|lia].
  - simpl in Hn. rewrite length_app in Hn. simpl in Hn.
    pose proof (paren_atom e n Hwf He ltac:(lia)) as Hp.
    assert (Hs : forall i, 0 < i <= 7 -> starts i (LParen :: write e ++ [RParen]) = true).
    { intros i _. unfold starts. simpl. by repeat case_decide. }
    destruct k as [|k]; [exact Hp|]. apply step_at; [lia|apply Hs; lia|].
    by apply (raise_level (R n) (LParen :: write e ++ [RParen]) (fmt ["("; lower e; ")"]) 0 k); [lia| |].
Qed.

Lemma operand_parses e k n : wf_expr e = true -> holds e -> k <= 7 ->
  List.length (paren_toks k (level e) (write e)) <= n ->
  parses (lev k (R n)) (paren_toks k (level e) (write e)) (paren_sql k (level e) (lower e)) (follow k).
Proof. intros. by apply chain_at_parses, operand. Qed.

Lemma operand_nonempty e k : wf_expr e = true -> paren_toks k (level e) (write e) <> [].
Proof.
  intros Hwf%write_opens. unfold paren_toks. destruct (_ <=? _)%nat; [|done]. by destruct (write e).
Qed.

(** A comma-separated list of operands of strength [k], with something to
    accept after each. *)
Lemma operands_list es k n : k <= 7 -> es <> [] -> Forall (fun e => wf_expr e = true -> holds e) es ->
  forallb wf_expr es = true -> follow k (Some Comma) = true ->
  List.length (commas (map (fun e => paren_toks k (level e) (write e)) es)) <= n ->
  parses (comma_list (lev k (R n))) (commas (map (fun e => paren_toks k (level e) (write e)) es))
    (map (fun e => paren_sql k (level e) (lower e)) es)
    (fun t => follow k t && negb (bool_decide (t = Some Comma))).
Proof.
  intros Hk Hne Hes Hwf Hf Hn. apply parses_comma_list; [done|by destruct es|].
  assert (Hall : Forall (fun e => wf_expr e = true /\ holds e
            /\ List.length (paren_toks k (level e) (write e)) <= n) es).
  { rewrite forallb_forall in Hwf. rewrite Forall_forall in Hes. apply Forall_forall. intros e He.
    assert (wf_expr e = true) by (apply Hwf; by apply list_elem_of_In).
    split_and!; [done|by apply Hes|]. etransitivity; [|exact Hn]. apply commas_length.
    apply list_elem_of_fmap. by exists e. }
  clear Hne Hes Hwf Hn. induction Hall as [|e es (Hwf & He & Hlen) Hall IH]; simpl; constructor; [|done].
  split; [by apply operand_parses|by apply operand_nonempty].
Qed.

(** ** The cases *)

Lemma follow_0 t : follow 0 t = true -> t <> Some LParen /\ t <> Some Dot.
Proof.
  unfold follow. cbn [Nat.leb]. rewrite !andb_true_iff. intros [[[[[[H1 H2] _] _] _] _] _].
  by apply negb_true_iff, bool_decide_eq_false in H1, H2.
Qed.

(** Tokens an atom is made of alone. *)
Lemma literal_parses rec t a : (forall p, (match t with
    | Int n => mret (show_Z n) | Float f => mret (show_f64 f) | Str s => mret (sql_quote s)
    | Star => mret "*" | _ => perr (A:=string) "" [] end) p = Ret (a, p)) ->
  parses (parse_atom rec) [t] a (follow 0).
Proof.
  intros H p rest Hp _. unfold parse_atom. rewrite (bind_run _ _ _ _ _ (bump_yes _ _ _ Hp)).
  specialize (H (after 1 p)). by destruct t.
Qed.

Lemma column_parses rec name : parses (parse_atom rec) [Ident name] (column_sql name) (follow 0).
Proof.
  intros p rest Hp Hf. apply follow_0 in Hf as [H1 H2]. unfold parse_atom.
  rewrite (bind_run _ _ _ _ _ (bump_yes _ _ _ Hp)). pose proof (ahead_after1 _ _ _ Hp) as Hp1.
  rewrite <-Hp1 in H1, H2. rewrite (bind_run _ _ _ _ _ (eat_no _ _ H1)).
  rewrite (bind_run _ _ _ _ _ (peek_ahead _)). by rewrite decide_False.
Qed.

Lemma call_nil_parses rec f sql : func_sql f [] = Some sql ->
  parses (parse_atom rec) [Ident f; LParen; RParen] sql (follow 0).
Proof.
  intros Hf p rest Hp _. unfold parse_atom. simpl in Hp.
  rewrite (bind_run _ _ _ _ _ (bump_yes _ _ _ Hp)). pose proof (ahead_after1 _ _ _ Hp) as Hp1.
  rewrite (bind_run _ _ _ _ _ (eat_yes _ _ _ Hp1)). pose proof (ahead_after1 _ _ _ Hp1) as Hp2.
  cbv iota. unfold parse_func_call. rewrite (bind_run _ _ _ _ _ (eat_yes _ _ _ Hp2)). cbv iota.
  unfold mret, P_ret, mbind, P_bind. rewrite Hf. by rewrite !after_after.
Qed.

Lemma call_parses rec f ts args sql :
  func_sql f args = Some sql -> head ts <> Some RParen -> ts <> [] ->
  parses (comma_list rec) ts args (fun t => follow 7 t && negb (bool_decide (t = Some Comma))) ->
  parses (parse_atom rec) (Ident f :: LParen :: ts ++ [RParen]) sql (follow 0).
Proof.
  intros Hf Hh Hne Hargs p rest Hp _. unfold parse_atom. simpl in Hp. rewrite <-app_assoc in Hp. simpl in Hp.
  rewrite (bind_run _ _ _ _ _ (bump_yes _ _ _ Hp)). pose proof (ahead_after1 _ _ _ Hp) as Hp1.
  rewrite (bind_run _ _ _ _ _ (eat_yes _ _ _ Hp1)). pose proof (ahead_after1 _ _ _ Hp1) as Hp2.
  cbv iota. unfold parse_func_call.
  assert (Hno : head (ahead (after 1 (after 1 p))) <> Some RParen) by (rewrite Hp2; by destruct ts).
  rewrite (bind_run _ _ _ _ _ (eat_no _ _ Hno)). cbv iota.
  pose proof (Hargs _ _ Hp2 eq_refl) as Hl. pose proof (ahead_after _ _ _ Hp2) as Hp3.
  erewrite bind_run; [|rewrite (bind_run _ _ _ _ _ Hl), (bind_run _ _ _ _ _ (expect_yes _ _ _ _ Hp3)); done].
  rewrite Hf. unfold mret, P_ret. rewrite !after_after. simpl. rewrite length_app. simpl.
  repeat f_equal; lia.
Qed.

(** The comparison level after its first operand. *)
Lemma comparison_run rec ts a p rest t :
  parses (parse_additive rec) ts a (follow 3) -> ahead p = (ts ++ t :: rest)%list -> follow 3 (Some t) = true ->
  parse_comparison rec p =
    (if decide (Some t = Some (Ident "between")) then
       _ ← advance 1; _ ← expect LParen "`(`"; low ← parse_additive rec; _ ← expect DotDot "`..`";
       high ← parse_additive rec; _ ← expect RParen "`)`";
       mret (fmt ["(("; a; " >= "; low; ") AND ("; a; " <= "; high; "))"])
     else if peeks_in (Some t) then
       _ ← advance 1; _ ← expect LParen "`(` after `in`"; values ← comma_list (parse_additive rec);
       _ ← expect RParen "`)`"; mret (fmt ["("; a; " IN ("; join ", " values; "))"])
     else match comparison_op (Some t) with
          | None => mret a
          | Some op => _ ← advance 1; rhs ← parse_additive rec; mret (comparison_sql op a rhs)
          end) (after (List.length ts) p).
Proof.
  intros Hm Hp Hf. unfold parse_comparison. rewrite (bind_run _ _ _ _ _ (Hm p _ Hp Hf)).
  by rewrite (bind_run _ _ _ _ _ (peek_ahead _)), (ahead_after _ _ _ Hp).
Qed.

Lemma rel_parses rec op ts1 a ts2 b :
  parses (parse_additive rec) ts1 a (follow 3) -> parses (parse_additive rec) ts2 b (follow 3) ->
  parses (parse_comparison rec) (ts1 ++ rel_tok op :: ts2) (comparison_sql (rel_sql op) a b) (follow 4).
Proof.
  intros H1 H2 p rest Hp Hf. rewrite <-app_assoc in Hp. simpl in Hp.
  rewrite (comparison_run rec ts1 a p _ (rel_tok op) H1 Hp) by by destruct op.
  pose proof (ahead_after _ _ _ Hp) as Hp1. pose proof (ahead_after1 _ _ _ Hp1) as Hp2.
  rewrite decide_False by by destruct op.
  replace (peeks_in (Some (rel_tok op))) with false by by destruct op.
  replace (comparison_op (Some (rel_tok op))) with (Some (rel_sql op)) by by destruct op.
  rewrite (bind_run _ _ _ _ _ (advance_after _ _)).
  rewrite (bind_run _ _ _ _ _ (H2 _ _ Hp2 (follow_down 3 _ Hf))).
  unfold mret, P_ret. rewrite !after_after, length_app. simpl. done.
Qed.

Lemma between_parses rec ts a ts1 lo ts2 hi :
  parses (parse_additive rec) ts a (follow 3) -> parses (parse_additive rec) ts1 lo (follow 3) ->
  parses (parse_additive rec) ts2 hi (follow 3) ->
  parses (parse_comparison rec)
    (ts ++ Ident "between" :: LParen :: ts1 ++ DotDot :: ts2 ++ [RParen])
    (fmt ["(("; a; " >= "; lo; ") AND ("; a; " <= "; hi; "))"]) (follow 4).
Proof.
  intros H H1 H2 p rest Hp Hf. rewrite <-app_assoc in Hp. simpl in Hp. rewrite <-app_assoc in Hp. simpl in Hp.
  rewrite <-app_assoc in Hp. simpl in Hp.
  rewrite (comparison_run rec ts a p _ _ H Hp eq_refl), decide_True by done.
  pose proof (ahead_after _ _ _ Hp) as Hp1. pose proof (ahead_after1 _ _ _ Hp1) as Hp2.
  pose proof (ahead_after1 _ _ _ Hp2) as Hp3. pose proof (ahead_after _ _ _ Hp3) as Hp4.
  pose proof (ahead_after1 _ _ _ Hp4) as Hp5. pose proof (ahead_after _ _ _ Hp5) as Hp6.
  rewrite (bind_run _ _ _ _ _ (advance_after _ _)), (bind_run _ _ _ _ _ (expect_yes _ _ _ _ Hp2)).
  rewrite (bind_run _ _ _ _ _ (H1 _ _ Hp3 eq_refl)), (bind_run _ _ _ _ _ (expect_yes _ _ _ _ Hp4)).
  rewrite (bind_run _ _ _ _ _ (H2 _ _ Hp5 eq_refl)), (bind_run _ _ _ _ _ (expect_yes _ _ _ _ Hp6)).
  unfold mret, P_ret. rewrite !after_after. repeat (rewrite length_app; simpl). repeat f_equal; lia.
Qed.

Lemma in_parses rec ts a ts1 vs :
  parses (parse_additive rec) ts a (follow 3) ->
  parses (comma_list (parse_additive rec)) ts1 vs (fun t => follow 3 t && negb (bool_decide (t = Some Comma))) ->
  parses (parse_comparison rec) (ts ++ Ident "in" :: LParen :: ts1 ++ [RParen])
    (fmt ["("; a; " IN ("; join ", " vs; "))"]) (follow 4).
Proof.
  intros H H1 p rest Hp Hf. rewrite <-app_assoc in Hp. simpl in Hp. rewrite <-app_assoc in Hp. simpl in Hp.
  rewrite (comparison_run rec ts a p _ _ H Hp eq_refl), decide_False by done.
  change (peeks_in (Some (Ident "in"))) with true. cbv iota.
  pose proof (ahead_after _ _ _ Hp) as Hp1. pose proof (ahead_after1 _ _ _ Hp1) as Hp2.
  pose proof (ahead_after1 _ _ _ Hp2) as Hp3. pose proof (ahead_after _ _ _ Hp3) as Hp4.
  rewrite (bind_run _ _ _ _ _ (advance_after _ _)), (bind_run _ _ _ _ _ (expect_yes _ _ _ _ Hp2)).
  rewrite (bind_run _ _ _ _ _ (H1 _ _ Hp3 eq_refl)), (bind_run _ _ _ _ _ (expect_yes _ _ _ _ Hp4)).
  unfold mret, P_ret. rewrite !after_after. repeat (rewrite length_app; simpl). repeat f_equal; lia.
Qed.

(** ** The induction *)

Lemma call_holds f args : Forall (fun e => wf_expr e = true -> holds e) args ->
  wf_expr (ECall f args) = true -> holds (ECall f args).
Proof.
  intros Hargs Hwf n Hn. cbn [wf_expr] in Hwf. apply andb_prop in Hwf as [[_ Hall]%andb_prop Hf].
  apply bool_decide_eq_true in Hf as [sql Hf].
  assert (Hsql : lower (ECall f args) = sql) by (simpl; by rewrite Hf). rewrite Hsql.
  cbn [level chain_at lev]. destruct args as [|e args].
  { by apply (call_nil_parses (R n) f sql). }
  cbn [write] in *.
  assert (Hhead : opens 7 (commas (map (fun e => paren_toks 7 (level e) (write e)) (e :: args))) = true).
  { simpl in Hall. apply andb_prop in Hall as [Hwe _]. pose proof (write_opens e Hwe) as Ho.
    destruct args as [|e2 args].
    - rewrite <-(app_nil_r (commas _)). apply opens_paren with (l := level e); [done|lia..].
    - cbn [map]. rewrite commas_cons by done. apply opens_paren with (l := level e); [done|lia..]. }
  apply (call_parses (R n) f _ _ _ Hf).
  - destruct (commas _) as [|t l]; [done|]. simpl in *. intros [= ->]. done.
  - by destruct (commas _).
  - cbn [List.length] in Hn. rewrite length_app in Hn. cbn [List.length] in Hn.
    destruct n as [|n]; [lia|].
    apply (operands_list (e :: args) 7 n); [lia|done|done|done|done|lia].
Qed.

Lemma holds_expr e : wf_expr e = true -> holds e.
Proof.
  induction e using expr_nested_ind; intros Hwf; try (by apply call_holds);
    intros m Hm; cbn [wf_expr] in Hwf; rewrite ?andb_true_iff in Hwf; cbn [write List.length] in Hm;
    repeat (rewrite length_app in Hm; cbn [List.length] in Hm); cbn [level chain_at write lower].
  - by apply literal_parses.
  - by apply literal_parses.
  - by apply literal_parses.
  - by apply literal_parses.
  - apply column_parses.
  - apply (paren_atom e m); [done|by apply IHe|lia].
  - apply unary_minus; [|by apply operand_nonempty].
    apply (operand_parses e 1 m); [done|by apply IHe|lia|lia].
  - destruct Hwf as [Ha Hb]. apply chain_step.
    + apply (operand e1 2 m); [done|by apply IHe1|lia|lia].
    + by destruct op.
    + by destruct op.
    + apply (operand_parses e2 1 m); [done|by apply IHe2|lia|lia].
  - destruct Hwf as [Ha Hb]. apply chain_step.
    + apply (operand e1 3 m); [done|by apply IHe1|lia|lia].
    + by destruct op.
    + by destruct op.
    + apply (operand_parses e2 2 m); [done|by apply IHe2|lia|lia].
  - destruct Hwf as [Ha Hb]. apply rel_parses.
    + apply (operand_parses e1 3 m); [done|by apply IHe1|lia|lia].
    + apply (operand_parses e2 3 m); [done|by apply IHe2|lia|lia].
  - destruct Hwf as [[Ha Hl] Hh]. apply between_parses.
    + apply (operand_parses e1 3 m); [done|by apply IHe1|lia|lia].
    + apply (operand_parses e2 3 m); [done|by apply IHe2|lia|lia].
    + apply (operand_parses e3 3 m); [done|by apply IHe3|lia|lia].
  - destruct Hwf as [[Ha Hv] Hvs]. apply in_parses.
    + apply (operand_parses e1 3 m); [done|by apply IHe1|lia|lia].
    + apply (operands_list (e2 :: vs) 3 m); [lia|done|by constructor| |done|lia].
      cbn [forallb]. by rewrite Hv, Hvs.
  - apply not_not. apply (operand_parses e 5 m); [done|by apply IHe|lia|lia].
  - destruct Hwf as [Ha Hb]. apply (chain_step and_op _ (follow 5) _ _ _ "AND").
    + apply (operand e1 6 m); [done|by apply IHe1|lia|lia].
    + done.
    + done.
    + apply (operand_parses e2 5 m); [done|by apply IHe2|lia|lia].
  - destruct Hwf as [Ha Hb]. apply (chain_step or_op _ (follow 6) _ _ _ "OR").
    + apply (operand e1 7 m); [done|by apply IHe1|lia|lia].
    + done.
    + done.
    + apply (operand_parses e2 6 m); [done|by apply IHe2|lia|lia].
Qed.

(** [parse_expr] on the tokens of an expression, wherever they are followed by
    a token that does not continue it. *)
Lemma parse_expr_write e p rest :
  wf_expr e = true -> ahead p = (write e ++ rest)%list -> follow 7 (head rest) = true ->
  parse_expr p = Ret (lower e, after (List.length (write e)) p).
Proof.
  intros Hwf Hp Hf. unfold parse_expr, with_fuel.
  apply (holds_full e (S (rem p)) Hwf (holds_expr e Hwf)) with (rest := rest); [|done|done].
  rewrite rem_ahead, Hp, length_app. lia.
Qed.
