(* ===== verification/KqlProperties.v ===== *)
(** * Properties of the KQL translator *)

From stdpp Require Import base gmap strings list.
From Stdlib Require Import NArith ZArith Lia Ascii.
From S2P Require Import Prelude Bytes F64 KqlLexer KqlState KqlParser KqlExpr KqlGraph KqlQuery SqlScan KqlExprSpec.
From S2P Require Import KqlGraphSpec KqlLexSpec KqlQuerySpec KqlRef.

Local Open Scope string_scope.

(** ** The translation as a whole *)


(** C20: The SQL a query is translated to is lexically closed.  Scanning it
    from the start ends outside every string literal and quoted identifier, at
    parenthesis depth zero, having met no comment, no statement separator and
    no closing parenthesis too many: whatever text a query's literals and names
    hold, it stays inside the literal or identifier it was put in. *)
Theorem kql_sql_closed src sch sql :
  kql_to_sql_with_schemas src sch = Ret sql -> scan (Normal 0 Neutral) sql = Normal 0 Neutral.
Proof. intros H. pose proof (kql_to_sql_ok src sch) as Hok. rewrite H in Hok. apply Hok. Qed.

Lemma kql_sql_closed_witness :
  scan (Normal 0 Neutral) "SELECT * FROM t WHERE (a = '''); DROP TABLE t; --')" = Normal 0 Neutral.
Proof.
  apply (kql_sql_closed (fmt ["t | where a == "; dq; "'); DROP TABLE t; --"; dq]) ∅).
  vm_compute. reflexivity.
Defined.

(** ** Schemas *)

Definition head_token (src : string) : option Token :=
  match tokenize src with Ret (t :: _) => Some t | _ => None end.

(** Both entry points agree on every query that does not start with
    [union], whatever the schemas are. *)
Theorem kql_schema_independent src sch :
  head_token src <> Some (Ident "union") -> kql_to_sql_with_schemas src sch = kql_to_sql src.
Proof.
  intros Hh. unfold kql_to_sql, kql_to_sql_with_schemas, lex, head_token in *.
  destruct (tokenize src) as [ts| | |]; simpl; try done.
  assert (Hq : forall sch, parse_query (new_parser ts sch) = parse_table_query (new_parser ts sch)).
  { intros s. unfold parse_query.
    assert (E : eat_ident_eq "union" (new_parser ts s) = Ret (false, new_parser ts s)).
    { unfold eat_ident_eq, peek_ident_eq, mbind, P_bind, peek, mret, P_ret. simpl.
      rewrite bool_decide_eq_false_2; [done|]. destruct ts; simpl in *; congruence. }
    by rewrite (bind_run _ _ _ _ _ E). }
  rewrite !Hq.
  change (new_parser ts sch) with (with_schemas sch (new_parser ts ∅)). rewrite blind_table_query.
  by destruct (parse_table_query (new_parser ts ∅)) as [[u p]| | |].
Qed.

Lemma kql_schema_independent_witness :
  kql_to_sql_with_schemas "t | where a == 1" {[ "t" := ["a"] ]} = kql_to_sql "t | where a == 1".
Proof. apply kql_schema_independent. vm_compute. congruence. Defined.

Lemma bind_inv {A B} (m : P A) (f : A -> P B) p b p'' :
  (m ≫= f) p = Ret (b, p'') -> exists a p', m p = Ret (a, p') /\ f a p' = Ret (b, p'').
Proof. unfold mbind, P_bind. destruct (m p) as [[a p']| | |]; try done. eauto. Qed.

Lemma spec_run {A} k (m : P A) Q p a p' :
  (forall n, spec n k m Q) -> good p -> m p = Ret (a, p') -> Q a /\ reach k p p'.
Proof.
  intros Hs Hg E. pose proof (Hs (S (rem p)) p Hg ltac:(lia)) as H. unfold wp in H. by rewrite E in H.
Qed.

(** The part of [parse_union] after [withsource], over no schemas. *)
Lemma union_no_schemas p a p' : good p -> schemas p = ∅ -> parse_union p <> Ret (a, p').
Proof.
  intros Hg Hsch H. unfold parse_union in H. apply bind_inv in H as (b & p1 & H1 & H).
  assert (R1 : reach 0 p p1).
  { eapply (spec_run 0 (eat_ident_eq "withsource") (fun _ => True)); [|done|exact H1].

    intros n. unfold eat_ident_eq. apply spec_peek_ident_eq; [|by apply spec_ret].
    eapply spec_next_advance with (k1 := 0); [by apply spec_ret|lia]. }
  apply bind_inv in H as (ws & p2 & H2 & H).
  assert (R2 : reach 0 p1 p2).
  { eapply (spec_run 0 _ (fun _ => True)); [|apply R1|exact H2]. intros n. destruct b; [|by apply spec_ret].
    eapply spec_then; [apply spec_expect|]. intros _ _.
    eapply spec_then; [apply spec_expect_ident|]. intros. by apply spec_ret. }
  apply bind_inv in H as (ops & p3 & H3 & H).
  destruct (spec_run 1 _ _ _ _ _ (fun n => spec_comma_list _ _ n (spec_union_operand n)) (reach_good _ _ _ R2) H3)
    as [_ R3].
  destruct ops as [|op ops]; [done|]. cbn [is_empty] in H.
  apply bind_inv in H as (sch & p4 & [= <- <-] & H). apply bind_inv in H as (sup & p5 & H5 & _).
  revert H5. rewrite (reach_schemas _ _ _ R3), (reach_schemas _ _ _ R2), (reach_schemas _ _ _ R1), Hsch.
  unfold lift, column_superset. cbn [for_each].
  assert (exists e, superset_step ∅ op [] = Fail e) as [e ->]; [|done].
  unfold superset_step. rewrite lookup_empty, decide_True by done. eauto.
Qed.

(** Without schemas a [union] query is always an error. *)
Theorem kql_union_needs_schemas src :
  head_token src = Some (Ident "union") -> exists e, kql_to_sql src = Fail e.
Proof.
  intros Hh. pose proof (kql_to_sql_ok src ∅) as Hok. unfold kql_to_sql.
  destruct (kql_to_sql_with_schemas src ∅) as [sql|e| |] eqn:E; [|by exists e|done|done].
  exfalso. unfold kql_to_sql_with_schemas, lex, head_token in *. pose proof (tokenize_ok src) as Ht.
  destruct (tokenize src) as [[|t ts]| | |]; simpl in *; try done. injection Hh as ->.
  apply bind_Ret in E as ([u p] & E & _). unfold parse_query in E.
  apply bind_inv in E as (b & p1 & E1 & E).
  unfold eat_ident_eq, peek_ident_eq, mbind, P_bind, peek, mret, P_ret in E1. simpl in E1.
  injection E1 as <- <-.
  apply bind_inv in E as (u' & p2 & E2 & _). revert E2. apply union_no_schemas; [|done].
  split; simpl; [done|lia|apply closed_default].
Qed.

Lemma kql_union_needs_schemas_witness : exists e, kql_to_sql "union a, b | count" = Fail e.
Proof. apply kql_union_needs_schemas. vm_compute. reflexivity. Defined.

(** ** union *)

Lemma add_columns superset cols :
  NoDup superset ->
  NoDup (foldl add_column superset cols)
  /\ (forall c, c ∈ foldl add_column superset cols <-> c ∈ superset \/ c ∈ cols)
  /\ superset `prefix_of` foldl add_column superset cols.
Proof.
  revert superset. induction cols as [|x cols IH]; intros sup Hnd; simpl.
  { split_and!; [done|set_solver|done]. }
  assert (Hx : NoDup (add_column sup x) /\ (forall c, c ∈ add_column sup x <-> c ∈ sup \/ c = x)
               /\ sup `prefix_of` add_column sup x).
  { unfold add_column. case_decide as Hx; split_and!; try done.
    - intros c. split; [by left|]. by intros [?| ->].
    - apply NoDup_app. split_and!; [done| |apply NoDup_singleton].
      intros y Hy ->%list_elem_of_singleton. done.
    - intros c. by rewrite elem_of_app, list_elem_of_singleton.
    - by apply prefix_app_r. }
  destruct Hx as (Hnd' & Hin & Hpre). destruct (IH _ Hnd') as (H1 & H2 & H3).
  split_and!; [done| |by etransitivity].
  intros c. rewrite H2, Hin, elem_of_cons. tauto.
Qed.

Lemma superset_from sch ops sup0 sup :
  NoDup sup0 -> for_each (superset_step sch) ops sup0 = Ret sup ->
  NoDup sup
  /\ (forall c, c ∈ sup <-> c ∈ sup0 \/ exists op cols, op ∈ ops /\ sch !! op_root_table op = Some cols /\ c ∈ cols)
  /\ Forall (fun op => is_Some (sch !! op_root_table op)) ops.
Proof.
  revert sup0. induction ops as [|op ops IH]; intros sup0 Hnd H; simpl in H.
  { injection H as <-. split_and!; [done|set_solver|constructor]. }
  apply bind_Ret in H as (sup1 & H1 & H). unfold superset_step in H1.
  destruct (sch !! op_root_table op) as [cols|] eqn:E; [|by case_decide]. injection H1 as <-.
  destruct (add_columns sup0 cols Hnd) as (Hnd1 & Hin1 & _).
  destruct (IH _ Hnd1 H) as (H1 & H2 & H3). split_and!; [done| |by constructor].
  intros c. rewrite H2, Hin1. split.
  - intros [[?|?]|(op' & cols' & ? & ? & ?)]; [by left|right; exists op, cols; set_solver|].
    right. exists op', cols'. set_solver.
  - intros [?|(op' & cols' & [->|?]%elem_of_cons & Hs & ?)]; [by left; left| |].
    + rewrite E in Hs. injection Hs as <-. left; by right.
    + right. by exists op', cols'.
Qed.

(** The branches of a [union] are aligned.  The column superset holds
    every column of every operand's table once, in the same order for all
    branches, and each branch selects at each position the superset's column,
    or NULL under that column's name when its table lacks it, after the
    [withsource] column when there is one. *)
Theorem union_branches_aligned sch operands superset with_source :
  column_superset sch operands = Ret superset ->
  NoDup superset
  /\ (forall c, c ∈ superset <->
        exists op cols, op ∈ operands /\ sch !! op_root_table op = Some cols /\ c ∈ cols)
  /\ (forall op, op ∈ operands -> exists cols, sch !! op_root_table op = Some cols
        /\ branch_projection sch with_source superset op
           = (match with_source with
              | Some s => [fmt [sql_quote (op_root_table op); " AS "; quote_ident s]]
              | None => []
              end
              ++ map (fun c => if decide (c ∈ cols) then quote_ident c else "NULL AS " +:+ quote_ident c)
                   superset)%list).
Proof.
  intros H. destruct (superset_from sch operands [] superset (NoDup_nil_2) H) as (Hnd & Hin & Hall).
  split_and!; [done|set_solver|]. intros op Hop. rewrite Forall_forall in Hall.
  destruct (Hall op Hop) as [cols Hc]. exists cols. split; [done|].
  unfold branch_projection. rewrite Hc. done.
Qed.

Definition example_schemas : SchemaMap := {[ "a" := ["x"; "y"]; "b" := ["y"; "z"] ]}.

Lemma union_branches_aligned_witness :
  branch_projection example_schemas (Some "src") ["x"; "y"; "z"]
    {| op_root_table := "b"; op_from := Table "b" |}
  = ["'b' AS src"; "NULL AS x"; "y"; "z"].
Proof.
  pose proof (union_branches_aligned example_schemas
    [{| op_root_table := "a"; op_from := Table "a" |}; {| op_root_table := "b"; op_from := Table "b" |}]
    ["x"; "y"; "z"] (Some "src") ltac:(vm_compute; reflexivity)) as (_ & _ & H).
  destruct (H {| op_root_table := "b"; op_from := Table "b" |}) as (cols & Hc & ->).
  { rewrite !elem_of_cons. auto. }
  vm_compute in Hc. injection Hc as <-. vm_compute. reflexivity.
Defined.

(** ** Lexing *)

(** The lexer reads back what is written.  A sequence of identifiers,
    integers, escaped strings, durations and punctuation, each followed by a
    space, is tokenized to exactly the tokens it spells. *)
Theorem lexer_roundtrip l :
  Forall (fun x => wf_lexeme x = true) l -> forallb is_scalar_value (spell_all l) = true ->
  tokenize (of_chars (spell_all l)) = Ret (map token_of l).
Proof.
  intros Hl Hs. unfold tokenize. rewrite chars_of_chars; [by apply tokenize_loop_spell|].
  apply Forall_forall. intros c Hc. rewrite forallb_forall in Hs. apply N.ltb_lt, Hs, list_elem_of_In, Hc.
Qed.

Lemma lexer_roundtrip_witness :
  tokenize (of_chars (spell_all [LIdent (chars "project-away"); LPunct Arrow; LInt 42;
                                 LStr [ch "a"; 34%N; 92%N; 233%N]; LDuration 5 (ch "m")]))
  = Ret [Ident "project-away"; Arrow; Int 42; Str (of_chars [ch "a"; 34%N; 92%N; 233%N]); Duration "5m"].
Proof.
  apply (lexer_roundtrip [LIdent (chars "project-away"); LPunct Arrow; LInt 42;
                          LStr [ch "a"; 34%N; 92%N; 233%N]; LDuration 5 (ch "m")]).
  - repeat constructor.
  - vm_compute. reflexivity.
Defined.

(** ** Expressions *)

(** C3: Expressions are translated with the precedence of the grammar.  For
    every syntax tree, [parse_expr] on the tokens it is written with (with the
    parentheses its precedence requires) and any token after them that cannot
    continue it returns the SQL of the tree, consumes exactly its tokens and
    leaves the rest of the parser unchanged: operators associate to the left,
    and every node of the tree is one parenthesised SQL term. *)
Theorem parse_expr_correct e p rest :
  wf_expr e = true -> ahead p = (write e ++ rest)%list -> follow 7 (head rest) = true ->
  parse_expr p = Ret (lower e, after (List.length (write e)) p).
Proof. apply parse_expr_write. Qed.

Definition example_expr : expr :=
  EOr (EAnd (ERel RContains (ECol "msg") (EStr "it's")) (ENot (EIn (ECol "level") (EInt 1) [EInt 2])))
      (ERel RGt (EMul OMul (EAdd OAdd (ECol "a") (ENeg (ECol "b"))) (ECall "strlen" [ECol "c"])) (EInt 3)).

Lemma parse_expr_correct_witness :
  parse_expr (new_parser (write example_expr ++ [Pipe]) ∅)
  = Ret ("(((msg LIKE '%it''s%') AND (NOT (level IN (1, 2)))) OR ((((a + (-b))) * char_length(c)) > 3))",
         after 26 (new_parser (write example_expr ++ [Pipe]) ∅)).
Proof.
  apply (parse_expr_correct example_expr (new_parser (write example_expr ++ [Pipe]) ∅) [Pipe]);
    vm_compute; reflexivity.
Defined.

(** ** Quoting *)

Lemma undouble_replace q s : undouble q (replace q (String q (String q "")) s) = s.
Proof.
  induction s as [|c s IH]; [done|]. cbn [replace]. case_decide as Hc.
  - subst c. change (String q (String q "") +:+ replace q (String q (String q "")) s)
      with (String q (String q (replace q (String q (String q "")) s))).
    cbn [undouble]. rewrite decide_True by done. by rewrite IH.
  - destruct (replace q (String q (String q "")) s) as [|c2 r] eqn:E.
    + destruct s as [|c3 s]; [done|]. cbn [replace] in E. by case_decide.
    + cbn [undouble]. rewrite decide_False by naive_solver. cbn [undouble] in IH. by rewrite IH.
Qed.

Lemma substring_middle s : String.substring 1 (String.length (String "'" (s +:+ "'")) - 2) (String "'" (s +:+ "'")) = s.
Proof.
  assert (Hl : String.length (s +:+ "'") = S (String.length s)).
  { induction s as [|a s IH]; [done|].
    change (String.length (String a s +:+ "'")) with (S (String.length (s +:+ "'"))). by rewrite IH. }
  cbn [String.length]. replace (S (String.length (s +:+ "'")) - 2) with (String.length s) by lia.
  clear Hl. cbn [String.substring]. induction s as [|a s IH]; [done|].
  change (String a s +:+ "'") with (String a (s +:+ "'")). cbn [String.length String.substring]. by rewrite IH.
Qed.

Lemma ends_with_snoc s : ends_with "'" (s +:+ "'") = true.
Proof.
  induction s as [|a s IH]; [done|]. change (String a s +:+ "'") with (String a (s +:+ "'")).
  destruct (s +:+ "'") eqn:E; [by destruct s|]. done.
Qed.

(** SQL string literals round-trip: reading a literal built by the
    translator back, as the LIKE patterns of [contains], [startswith],
    [endswith] and [has] do, gives the exact text it was built from. *)
Theorem sql_literal_roundtrip s : strip_outer_quotes (sql_quote s) = s.
Proof.
  assert (E : sql_quote s = String "'" (replace "'" "''" s +:+ "'")).
  { unfold sql_quote. by rewrite !fmt_cons, fmt_nil, app_empty_r. }
  rewrite E. unfold strip_outer_quotes.
  change (ends_with "'" (String "'" (replace "'" "''" s +:+ "'")))
    with (match replace "'" "''" s +:+ "'" with "" => bool_decide ("'"%char = "'"%char) | _ => ends_with "'" (replace "'" "''" s +:+ "'") end).
  rewrite substring_middle, ends_with_snoc. change "''" with (String "'" (String "'" "")). rewrite undouble_replace.
  destruct (replace "'" _ s +:+ "'") eqn:E2; [by destruct (replace "'" _ s)|]. done.
Qed.

(** Distinct identifiers stay distinct: [quote_ident] is injective, so no
    two columns of a query or a schema are written the same way in SQL. *)
Theorem quote_ident_injective a b : quote_ident a = quote_ident b -> a = b.
Proof.
  assert (Hq : forall s, fmt [dq; replace "034" (dq +:+ dq) s; dq] = String "034" (replace "034" (dq +:+ dq) s +:+ dq)).
  { intros s. by rewrite !fmt_cons, fmt_nil, app_empty_r. }
  assert (Hs : forall s r, structurally_simple s = true -> s <> String "034" r).
  { intros s r H ->. unfold structurally_simple in H. apply andb_prop in H as [H _]. simpl in H. done. }
  unfold quote_ident. rewrite !Hq.
  destruct (structurally_simple a && _) eqn:Ea, (structurally_simple b && _) eqn:Eb; try done.
  - apply andb_prop in Ea as [Ea _]. intros H. by apply Hs in H.
  - apply andb_prop in Eb as [Eb _]. intros H. symmetry in H. by apply Hs in H.
  - intros [= H]. apply app_inj_r in H. apply (f_equal (undouble "034")) in H.
    change (dq +:+ dq) with (String "034" (String "034" "")) in H. by rewrite !undouble_replace in H.
Qed.

Lemma quote_ident_injective_witness : "order by" = "order by".
Proof. apply quote_ident_injective. reflexivity. Defined.

(** ** Aggregation *)

(** A [where] after [summarize] is a HAVING.  On an aggregated state it
    seals the aggregation, with its own filters and groups, as a CTE of a name
    of its own, and filters the rows of that CTE: the new condition is not
    added to the rows that are aggregated. *)
Theorem where_after_summarize e p rest :
  wf_expr e = true -> ahead p = (write e ++ rest)%list -> follow 7 (head rest) = true ->
  aggregated (state p) = true ->
  exists p', op_where p = Ret (tt, p')
    /\ ahead p' = rest
    /\ ctes (state p') = (ctes (state p) ++ [(agg_name (agg_seq (state p)), agg_body (state p), false)])%list
    /\ to_sql (state p')
       = fmt [render_cte_prelude (state p'); "SELECT * FROM "; agg_name (agg_seq (state p)); " WHERE "; lower e]
    /\ aggregated (state p') = false.
Proof.
  intros Hwf Hp Hf Hagg. unfold op_where, rebase_if_aggregated.
  set (p1 := {| toks := toks p; pos := pos p; state := rebase_aggregation (state p); schemas := schemas p |}).
  assert (E1 : update_state (fun st => if aggregated st then rebase_aggregation st else st) p = Ret (tt, p1)).
  { unfold update_state. by rewrite Hagg. }
  rewrite (bind_run _ _ _ _ _ E1).
  rewrite (bind_run _ _ _ _ _ (parse_expr_write e p1 rest Hwf Hp Hf)).
  eexists. split; [reflexivity|]. split; [exact (ahead_after _ _ _ Hp)|].
  split; [done|]. split; [|done].
  set (st := push_where (lower e) _). unfold to_sql. set (pre := render_cte_prelude st).
  clearbody pre. rewrite !fmt_cons, !fmt_nil, !app_empty_r. done.
Qed.

Lemma where_after_summarize_witness :
  exists p', op_where {| toks := write (ERel RGt (ECol "n") (EInt 5)); pos := 0;
                         state := set_aggregated (push_aggregate "(count(*)) AS n" (push_group_by "svc" (new_state "t")));
                         schemas := ∅ |} = Ret (tt, p')
    /\ to_sql (state p')
       = "WITH _agg0 AS (SELECT svc, (count(*)) AS n FROM t GROUP BY svc) SELECT * FROM _agg0 WHERE (n > 5)".
Proof.
  destruct (where_after_summarize (ERel RGt (ECol "n") (EInt 5))
    {| toks := write (ERel RGt (ECol "n") (EInt 5)); pos := 0;
       state := set_aggregated (push_aggregate "(count(*)) AS n" (push_group_by "svc" (new_state "t")));
       schemas := ∅ |} [] ltac:(vm_compute; reflexivity) ltac:(vm_compute; reflexivity)
    ltac:(vm_compute; reflexivity) ltac:(vm_compute; reflexivity)) as (p' & H1 & _ & H3 & H4 & _).
  exists p'. split; [exact H1|]. rewrite H4. unfold render_cte_prelude. rewrite H3. vm_compute. reflexivity.
Defined.

(** * Queries whose SQL says something else

    Concrete compilations: operators that the SQL applies in another order than
    the query, and clauses that cannot hold. *)

(** A filter after [take] is applied before the limit. *)
Example take_then_where :
  kql_to_sql "T | take 5 | where a == 1" = kql_to_sql "T | where a == 1 | take 5" /\
  exists sql, kql_to_sql "T | take 5 | where a == 1" = Ret sql.
Proof. split; [vm_compute; reflexivity|eexists; vm_compute; reflexivity]. Qed.

(** A filter after [count] filters the rows that are counted; after
    [summarize] it filters the result. *)
Example count_then_where :
  kql_to_sql "T | count | where a == 1" = kql_to_sql "T | where a == 1 | count".
Proof. vm_compute. reflexivity. Qed.

(** A backward traversal steps from an edge's target to its source, and joins
    its result back as if it had stepped forward: it keeps the edges from the
    predecessor to the node reached, which are those in the other direction. *)
Example backward_join :
  kql_to_sql "E | graph-traverse source 'n' from s to d max-hops 2 direction backward" = Ret (
    "WITH RECURSIVE _gt(node, depth, path_src) AS (SELECT CAST('n' AS VARCHAR) AS node, 0 AS depth, CAST('n' AS VARCHAR) AS path_src" +:+
    " UNION ALL SELECT e.s, t.depth + 1, t.node FROM _gt t JOIN E e ON e.d = t.node WHERE t.depth < 2)," +:+
    " _gt_min AS (SELECT node, path_src, MIN(depth) AS depth FROM _gt GROUP BY node, path_src)," +:+
    " _gt_result AS (SELECT e.*, m.depth FROM _gt_min m JOIN E e ON e.s = m.path_src AND e.d = m.node) SELECT * FROM _gt_result").
Proof. vm_compute. reflexivity. Qed.
