(* ===== verification/Cypher.v ===== *)
(** * The Cypher front end: tokens, syntax and parser
    (pensieve-kql/src/cypher.rs)

    [tokenize] and the recursive-descent [Parser] that builds a [Query] (a
    [MATCH]) or a [CypherWrite] (a [CREATE] or [MERGE]).  The text the parser
    builds on the way (literals, IN lists, arithmetic) is KQL text.  Loops and
    recursion run on fuel taken from the number of tokens left, as in
    KqlParser. *)

From stdpp Require Import base strings list.
From Stdlib Require Import NArith ZArith Lia Ascii.
From S2P Require Import Prelude Bytes.

Local Open Scope string_scope.

(** ** Tokens *)

Inductive Tok :=
  | Word (s : string)
  | Str (s : string)
  | Num (s : string)
  | LParen | RParen | LBracket | RBracket | LBrace | RBrace
  | Dot | Comma | Colon | Star | Plus | Slash | Dash | ArrowR | ArrowL
  | Eq | Ne | Lt | Gt | Le | Ge.

#[export] Instance Tok_eq_dec : EqDecision Tok.
Proof. solve_decision. Defined.

(** The arguments of an error message. *)
Inductive message_arg :=
  | MStr (s : string)
  | MChar (c : char)
  | MPeek (t : option Tok)
  | MToks (l : list Tok)
  | MNum (n : N).

(** [ParseError], as the format string of the source with its arguments. *)
Inductive ParseError := CypherErr (message : string) (args : list message_arg).

(** The body of a string literal, after the opening [quote]. *)
Fixpoint scan_string (quote : char) (cs : list char) (s : string)
    : outcome ParseError (string * list char) :=
  match cs with
  | [] => Fail (CypherErr "cypher: unterminated string literal" [])
  | d :: cs =>
      match cs with
      | e :: cs' =>
          if (d =? 92)%N then scan_string quote cs' (push s e)
          else if (d =? quote)%N then Ret (s, cs)
          else scan_string quote cs (push s d)
      | [] => if (d =? quote)%N then Ret (s, cs) else scan_string quote cs (push s d)
      end
  end.

(** The longest prefix of characters that satisfy [f]. *)
Fixpoint scan_while (f : char -> bool) (cs : list char) (s : string) : string * list char :=
  match cs with
  | c :: rest => if f c then scan_while f rest (push s c) else (s, cs)
  | [] => (s, [])
  end.

Definition num_char (c : char) : bool := is_ascii_digit c || (c =? ch ".")%N.
Definition word_char (c : char) : bool := is_ascii_alphanumeric c || (c =? ch "_")%N.

(** One iteration of the loop of [tokenize], on the character [c] and the
    characters [rest] after it. *)
Definition lex_step (c : char) (rest : list char) : outcome ParseError (option Tok * list char) :=
  let one t := Ret (Some t, rest) in
  let next_is x := match rest with n :: _ => (n =? x)%N | [] => false end in
  let two t := Ret (Some t, drop 1 rest) in
  if is_whitespace c then Ret (None, rest)
  else if (c =? ch "(")%N then one LParen
  else if (c =? ch ")")%N then one RParen
  else if (c =? ch "[")%N then one LBracket
  else if (c =? ch "]")%N then one RBracket
  else if (c =? ch "{")%N then one LBrace
  else if (c =? ch "}")%N then one RBrace
  else if (c =? ch ".")%N then one Dot
  else if (c =? ch ",")%N then one Comma
  else if (c =? ch ":")%N then one Colon
  else if (c =? ch "*")%N then one Star
  else if (c =? ch "+")%N then one Plus
  else if (c =? ch "/")%N then one Slash
  else if (c =? ch "-")%N then if next_is (ch ">") then two ArrowR else one Dash
  else if (c =? ch "<")%N then
    if next_is (ch "-") then two ArrowL
    else if next_is (ch "=") then two Le
    else if next_is (ch ">") then two Ne
    else one Lt
  else if (c =? ch ">")%N then if next_is (ch "=") then two Ge else one Gt
  else if (c =? ch "=")%N then one Eq
  else if (c =? 39)%N || (c =? 34)%N then
    '(s, rest) ← scan_string c rest "";
    Ret (Some (Str s), rest)
  else if is_ascii_digit c then
    let '(s, rest) := scan_while num_char (c :: rest) "" in Ret (Some (Num s), rest)
  else if is_ascii_alphabetic c || (c =? ch "_")%N then
    let '(s, rest) := scan_while word_char (c :: rest) "" in Ret (Some (Word s), rest)
  else Fail (CypherErr "cypher: unexpected character `{other}`" [MChar c]).

Fixpoint tokenize_loop (fuel : nat) (cs : list char) (out : list Tok) : outcome ParseError (list Tok) :=
  match cs with
  | [] => Ret out
  | c :: rest =>
      match fuel with
      | O => OutOfFuel
      | S fuel =>
          '(t, rest) ← lex_step c rest;
          tokenize_loop fuel rest (out ++ option_list t)%list
      end
  end.

Definition tokenize (src : string) : outcome ParseError (list Tok) :=
  let cs := chars src in
  tokenize_loop (List.length cs) cs [].

(** ** Syntax *)

Inductive Direction := Forward | Backward | Undirected.

#[export] Instance Direction_eq_dec : EqDecision Direction.
Proof. solve_decision. Defined.

Record NodePat := { node_var : string; label : option string }.

Record RelPat := {
  rel_var : string;
  rel_type : option string;
  direction : Direction;
  var_length : option (N * N);
}.

Definition DEFAULT_VAR_LENGTH_MAX : N := 10.

Inductive CmpOp :=
  | OpEq | OpNe | OpLt | OpGt | OpLe | OpGe | In
  | StartsWith | EndsWith | Contains | IsNull | IsNotNull.

#[export] Instance CmpOp_eq_dec : EqDecision CmpOp.
Proof. solve_decision. Defined.

Record Comparison := { cmp_var : string; cmp_prop : string; op : CmpOp; literal : string }.

Inductive WhereExpr :=
  | Cmp (c : Comparison)
  | Not (e : WhereExpr)
  | And (terms : list WhereExpr)
  | Or (terms : list WhereExpr).

(** [CmpOp::kql] *)
Definition kql (o : CmpOp) : string :=
  match o with
  | OpEq => "==" | OpNe => "!=" | OpLt => "<" | OpGt => ">" | OpLe => "<=" | OpGe => ">="
  | In => "in" | StartsWith => "startswith" | EndsWith => "endswith" | Contains => "contains"
  | IsNull => "isnull" | IsNotNull => "isnotnull"
  end.

Definition render_clause (o : CmpOp) (alias lit : string) : string :=
  match o with
  | IsNull => fmt ["isnull("; alias; ")"]
  | IsNotNull => fmt ["isnotnull("; alias; ")"]
  | _ => fmt [alias; " "; kql o; " "; lit]
  end.

(** The flat column [{var}_{prop}] of a property. *)
Definition flat (var prop : string) : string := fmt [var; "_"; prop].
Arguments flat : simpl never.

Fixpoint render_kql (e : WhereExpr) : string :=
  match e with
  | Cmp c => render_clause (op c) (flat (cmp_var c) (cmp_prop c)) (literal c)
  | Not inner => fmt ["not ("; render_kql inner; ")"]
  | And terms => fmt ["("; join " and " (map render_kql terms); ")"]
  | Or terms => fmt ["("; join " or " (map render_kql terms); ")"]
  end.

Fixpoint collect_leaves (e : WhereExpr) : list (string * string) :=
  match e with
  | Cmp c => [(cmp_var c, cmp_prop c)]
  | Not inner => collect_leaves inner
  | And terms | Or terms => concat (map collect_leaves terms)
  end.

(** The loop of [try_flatten_where] over the terms. *)
Fixpoint flatten_terms (terms : list WhereExpr) : option (list Comparison) :=
  match terms with
  | [] => Some []
  | Cmp c :: terms => (c ::.) <$> flatten_terms terms
  | _ :: _ => None
  end.

Definition try_flatten_where (e : WhereExpr) : option (list Comparison * bool) :=
  match e with
  | Cmp c => Some ([c], false)
  | And terms => (fun preds => (preds, false)) <$> flatten_terms terms
  | Or terms => (fun preds => (preds, true)) <$> flatten_terms terms
  | Not _ => None
  end.

Inductive AggTarget := AggStar | AggVar (v : string) | AggProp (v p : string).

Inductive ReturnItem :=
  | RProp (var prop : string) (alias : option string)
  | RVar (var : string)
  | PathLength (path_var : string) (alias : option string)
  | Aggregate (func : string) (target : AggTarget) (alias : option string)
  | RExpr (kql_expr : string) (leaves : list (string * string)) (alias : string).

Record WithClause := {
  having : list (string * CmpOp * string);
  having_or : bool;
  ret_cols : list string;
  wc_distinct : bool;
  wc_order_by : list (string * bool);
  wc_limit : option Z;
}.

Record Segment := { seg_nodes : list NodePat; seg_rels : list RelPat; seg_optional : bool }.

Record Query := {
  nodes : list NodePat;
  rels : list RelPat;
  where_preds : list Comparison;
  where_or : bool;
  where_tree : option WhereExpr;
  returns : list ReturnItem;
  limit : option Z;
  shortest_path : option string;
  extra_segments : list Segment;
  distinct : bool;
  order_by : list (string * string * bool);
  with_clause : option WithClause;
}.

Inductive PropLit := PStr (s : string) | PNum (s : string).

#[export] Instance PropLit_eq_dec : EqDecision PropLit.
Proof. solve_decision. Defined.

Inductive CypherWriteOp :=
  | Node (merge : bool) (label : option string) (props : list (string * PropLit))
  | Edge (merge : bool) (rel_type : string) (src_id dst_id : PropLit) (props : list (string * PropLit)).

Record CypherWrite := { ops : list CypherWriteOp }.
