(* ===== verification/CypherParser.v ===== *)
(** * The Cypher parser (pensieve-kql/src/cypher.rs, [impl Parser])

    A parser operation is a state-passing function on [Parser].  Loops run on
    fuel taken from the number of tokens left; [parse_or_expr] and
    [parse_ret_arith], which call themselves through parentheses, take the
    recursive call as a parameter and a fuelled fixpoint ties the knot. *)

From stdpp Require Import base strings list.
From Stdlib Require Import NArith ZArith Lia Ascii.
From S2P Require Import Prelude Bytes Cypher.

Local Open Scope string_scope.

(** ** The parser state and its monad *)

Record Parser := { toks : list Tok; pos : nat }.

Definition P (A : Type) : Type := Parser -> outcome ParseError (A * Parser).

#[export] Instance P_ret : MRet P := fun A a p => Ret (a, p).
#[export] Instance P_bind : MBind P := fun A B k m p =>
  match m p with
  | Ret (a, p') => k a p'
  | Fail e => Fail e
  | Panic => Panic
  | OutOfFuel => OutOfFuel
  end.

Definition perr {A} (message : string) (args : list message_arg) : P A :=
  fun _ => Fail (CypherErr message args).
Definition unsupported {A} (feature : string) : P A :=
  perr "cypher: {feature} not supported yet (v1 single-hop MATCH)" [MStr feature].
Definition ppanic {A} : P A := fun _ => Panic.
Definition out_of_fuel {A} : P A := fun _ => OutOfFuel.

Definition new_parser (ts : list Tok) : Parser := {| toks := ts; pos := 0 |}.
Definition get_toks : P (list Tok) := fun p => Ret (toks p, p).
Definition get_pos : P nat := fun p => Ret (pos p, p).
(** [self.pos += n] *)
Definition advance (n : nat) : P unit := fun p => Ret (tt, {| toks := toks p; pos := pos p + n |}).

(** The number of tokens left, the fuel of the loops. *)
Definition rem (p : Parser) : nat := List.length (toks p) - pos p.
Definition with_fuel {A} (f : nat -> P A) : P A := fun p => f (S (rem p)) p.

Definition peek : P (option Tok) := fun p => Ret (nth_error (toks p) (pos p), p).

Definition bump : P (option Tok) :=
  t ← peek;
  match t with
  | Some t => _ ← advance 1; mret (Some t)
  | None => mret None
  end.

Definition eat (t : Tok) : P bool :=
  o ← peek;
  if decide (o = Some t) then _ ← advance 1; mret true else mret false.

Definition is_kw (kw : string) (o : option Tok) : bool :=
  match o with Some (Word w) => eq_ignore_ascii_case w kw | _ => false end.

Definition eat_kw (kw : string) : P bool :=
  o ← peek;
  if is_kw kw o then _ ← advance 1; mret true else mret false.

Definition peek_kw (kw : string) : P bool := o ← peek; mret (is_kw kw o).

Definition expect_word : P string :=
  o ← bump;
  match o with
  | Some (Word w) => mret w
  | other => perr "cypher: expected an identifier, got {other:?}" [MPeek other]
  end.

(** [if !self.eat(t) { return Err(ParseError(message)) }] *)
Definition must_eat (t : Tok) (message : string) : P unit :=
  b ← eat t; if b : bool then mret tt else perr message [].
(** [if !self.eat_kw(kw) { return Err(ParseError(message)) }] *)
Definition must_eat_kw (kw message : string) : P unit :=
  b ← eat_kw kw; if b : bool then mret tt else perr message [].

(** [loop { v.push(item); if !self.eat(&Tok::Comma) { break; } }] *)
Fixpoint comma_loop {A} (item : P A) (v : list A) (fuel : nat) : P (list A) :=
  match fuel with
  | O => out_of_fuel
  | S fuel =>
      x ← item;
      let v := (v ++ [x])%list in
      more ← eat Comma;
      if more : bool then comma_loop item v fuel else mret v
  end.
Definition comma_list {A} (item : P A) : P (list A) := with_fuel (comma_loop item []).

(** [if self.eat_kw("AS") { Some(self.expect_word()?) } else { None }] *)
Definition opt_alias : P (option string) :=
  b ← eat_kw "AS";
  if b : bool then w ← expect_word; mret (Some w) else mret None.

(** [if self.eat(&Tok::Colon) { Some(self.expect_word()?) } else { None }] *)
Definition opt_label : P (option string) :=
  b ← eat Colon;
  if b : bool then w ← expect_word; mret (Some w) else mret None.

(** ** Numbers *)

Fixpoint digits_value (s : string) (acc : N) : option N :=
  match s with
  | EmptyString => Some acc
  | String c s =>
      if digit_byte c then digits_value s (10 * acc + (N_of_ascii c - 48))%N else None
  end.

(** [s.parse::<u64>()] and [s.parse::<i64>()] of a string without a sign:
    digits only, at least one, within the type. *)
Definition parse_bounded (bound : N) (s : string) : option N :=
  match s with
  | EmptyString => None
  | _ => n ← digits_value s 0; if (n <? bound)%N then Some n else None
  end.
Definition parse_u64 : string -> option N := parse_bounded (2 ^ 64).
Definition parse_i64 (s : string) : option Z := Z.of_N <$> parse_bounded (2 ^ 63) s.

Definition parse_bound (s : string) : P N :=
  match parse_u64 s with
  | Some n => mret n
  | None => perr "cypher: invalid variable-length bound `{s}`" [MStr s]
  end.

(** [s.find("..")], as the parts before and after. *)
Fixpoint split_range (s : string) : option (string * string) :=
  match s with
  | String c1 (String c2 s2 as s1) =>
      if decide (c1 = "."%char /\ c2 = "."%char) then Some ("", s2)
      else (fun '(lo, hi) => (String c1 lo, hi)) <$> split_range s1
  | _ => None
  end.

(** ** Node and relationship patterns *)

Definition parse_node : P NodePat :=
  _ ← must_eat LParen "cypher: expected `(` to open a node pattern";
  o ← peek;
  match o with
  | Some (Word _) =>
      var ← expect_word;
      label ← opt_label;
      _ ← must_eat RParen "cypher: expected `)` to close a node pattern";
      mret {| node_var := var; label := label |}
  | _ => unsupported "anonymous node `()`"
  end.

(** The bounds of a variable-length relationship, after the [*]. *)
Definition parse_range : P (N * N) :=
  o ← peek;
  match o with
  | Some (Num raw) =>
      _ ← bump;
      match split_range raw with
      | Some (lo, hi) =>
          min ← (if decide (lo = "") then mret 1%N else parse_bound lo);
          max ← (if decide (hi = "") then mret DEFAULT_VAR_LENGTH_MAX else parse_bound hi);
          mret (min, max)
      | None => n ← parse_bound raw; mret (n, n)
      end
  | _ =>
      d ← eat Dot;
      if d : bool then
        _ ← must_eat Dot "cypher: expected `..` in variable-length relationship";
        o ← peek;
        match o with
        | Some (Num s) => _ ← bump; max ← parse_bound s; mret (1%N, max)
        | _ => mret (1%N, DEFAULT_VAR_LENGTH_MAX)
        end
      else mret (1%N, DEFAULT_VAR_LENGTH_MAX)
  end.

Definition parse_var_length : P (option (N * N)) :=
  s ← eat Star;
  if s : bool then
    '(min, max) ← parse_range;
    if (max =? 0)%N then perr "cypher: variable-length max must be ≥ 1" []
    else if (max <? min)%N then
      perr "cypher: variable-length min ({min}) must be ≤ max ({max})" [MNum min; MNum max]
    else mret (Some (min, max))
  else mret None.

(** The direction of the leading and the trailing side. *)
Definition direction_of (leading_backward trailing_forward : bool) : P Direction :=
  match leading_backward, trailing_forward with
  | false, true => mret Forward
  | true, false => mret Backward
  | false, false => mret Undirected
  | true, true => unsupported "bidirectional `<-[]->` relationship"
  end.

(** [if self.eat(a) { x } else if self.eat(b) { y } else { return Err(..) }] *)
Definition eat_either {A} (a : Tok) (x : A) (b : Tok) (y : A) (message : string) : P A :=
  e ← eat a;
  if e : bool then mret x
  else e ← eat b; if e : bool then mret y else perr message [].

Definition parse_rel : P RelPat :=
  leading_backward ← eat_either ArrowL true Dash false
    "cypher: expected a relationship `-[...]-` after the first node";
  _ ← must_eat LBracket "cypher: expected `[` to open relationship pattern";
  o ← peek;
  rel_var ← match o with Some (Word _) => expect_word | _ => mret "r" end;
  rel_type ← opt_label;
  var_length ← parse_var_length;
  _ ← must_eat RBracket "cypher: expected `]` to close relationship pattern";
  trailing_forward ← eat_either ArrowR true Dash false
    "cypher: expected `->` or `-` to close the relationship";
  direction ← direction_of leading_backward trailing_forward;
  mret {| rel_var := rel_var; rel_type := rel_type; direction := direction; var_length := var_length |}.

(** [matches!(self.peek(), Some(Tok::Dash | Tok::ArrowL))] *)
Definition starts_rel (o : option Tok) : bool :=
  match o with Some Dash | Some ArrowL => true | _ => false end.

(** [loop { rels.push(rel); nodes.push(node); if no relationship follows { break; } }] *)
Fixpoint chain_loop (ns : list NodePat) (rs : list RelPat) (fuel : nat) : P (list NodePat * list RelPat) :=
  match fuel with
  | O => out_of_fuel
  | S fuel =>
      r ← parse_rel;
      n ← parse_node;
      let rs := (rs ++ [r])%list in
      let ns := (ns ++ [n])%list in
      o ← peek;
      if starts_rel o then chain_loop ns rs fuel else mret (ns, rs)
  end.

Definition parse_chain : P (list NodePat * list RelPat) :=
  n ← parse_node;
  with_fuel (chain_loop [n] []).

(** ** Literals and comparisons *)

(** [format!("'{}'", s.replace('\'', "''"))] *)
Definition quote_literal (s : string) : string := fmt ["'"; replace "'" "''" s; "'"].

Definition parse_literal : P string :=
  o ← bump;
  match o with
  | Some (Str s) => mret (quote_literal s)
  | Some (Num n) => mret n
  | other => perr "cypher: expected a string or number literal, got {other:?}" [MPeek other]
  end.

Definition parse_in_list : P string :=
  _ ← must_eat LBracket "cypher: expected `[` after IN, e.g. n.x IN [1, 2, 3]";
  items ← comma_list parse_literal;
  _ ← must_eat RBracket "cypher: expected `]` to close the IN list";
  mret (fmt ["("; join ", " items; ")"]).

(** The scalar comparison operators. *)
Definition scalar_op (o : option Tok) : option CmpOp :=
  match o with
  | Some Eq => Some OpEq
  | Some Ne => Some OpNe
  | Some Lt => Some OpLt
  | Some Gt => Some OpGt
  | Some Le => Some OpLe
  | Some Ge => Some OpGe
  | _ => None
  end.

Definition bump_scalar_op (message : string) : P CmpOp :=
  o ← bump;
  match scalar_op o with
  | Some op => mret op
  | None => perr message [MPeek o]
  end.

(** The operator and the literal of a comparison. *)
Definition parse_op_literal : P (CmpOp * string) :=
  b ← eat_kw "IN";
  if b : bool then l ← parse_in_list; mret (In, l)
  else b ← eat_kw "STARTS";
  if b : bool then
    _ ← must_eat_kw "WITH" "cypher: expected WITH after STARTS"; l ← parse_literal; mret (StartsWith, l)
  else b ← eat_kw "ENDS";
  if b : bool then
    _ ← must_eat_kw "WITH" "cypher: expected WITH after ENDS"; l ← parse_literal; mret (EndsWith, l)
  else b ← eat_kw "CONTAINS";
  if b : bool then l ← parse_literal; mret (Contains, l)
  else b ← eat_kw "IS";
  if b : bool then
    negated ← eat_kw "NOT";
    _ ← must_eat_kw "NULL" "cypher: expected NULL after IS [NOT]";
    mret (if negated : bool then IsNotNull else IsNull, "")
  else
    op ← bump_scalar_op "cypher: expected a comparison operator in WHERE, got {other:?}";
    l ← parse_literal;
    mret (op, l).

Definition parse_comparison : P Comparison :=
  var ← expect_word;
  _ ← must_eat Dot "cypher: WHERE predicate must be `<var>.<prop> <op> <literal>`";
  prop ← expect_word;
  '(op, literal) ← parse_op_literal;
  mret {| cmp_var := var; cmp_prop := prop; op := op; literal := literal |}.

(** ** WHERE: or, and, not, atom *)

(** [while self.eat_kw(kw) { terms.push(sub); }] *)
Fixpoint terms_loop (kw : string) (sub : P WhereExpr) (terms : list WhereExpr) (fuel : nat)
    : P (list WhereExpr) :=
  match fuel with
  | O => out_of_fuel
  | S fuel =>
      b ← eat_kw kw;
      if b : bool then
        t ← sub;
        terms_loop kw sub (terms ++ [t])%list fuel
      else mret terms
  end.

(** A chain of terms; a single term stands for itself. *)
Definition parse_terms (kw : string) (sub : P WhereExpr) (node : list WhereExpr -> WhereExpr)
    : P WhereExpr :=
  t ← sub;
  terms ← with_fuel (terms_loop kw sub [t]);
  mret (match terms with [t] => t | _ => node terms end).

Section where_levels.
Variable parse_or_expr : P WhereExpr.

Definition parse_atom_expr : P WhereExpr :=
  b ← eat LParen;
  if b : bool then
    inner ← parse_or_expr;
    _ ← must_eat RParen "cypher: expected `)` to close a WHERE group";
    mret inner
  else c ← parse_comparison; mret (Cmp c).

Fixpoint parse_not_loop (fuel : nat) : P WhereExpr :=
  match fuel with
  | O => out_of_fuel
  | S fuel =>
      b ← eat_kw "NOT";
      if b : bool then inner ← parse_not_loop fuel; mret (Not inner) else parse_atom_expr
  end.
Definition parse_not_expr : P WhereExpr := with_fuel parse_not_loop.

Definition parse_and_expr : P WhereExpr := parse_terms "AND" parse_not_expr And.
End where_levels.

Fixpoint parse_or_fuel (fuel : nat) : P WhereExpr :=
  match fuel with
  | O => out_of_fuel
  | S fuel => parse_terms "OR" (parse_and_expr (parse_or_fuel fuel)) Or
  end.
Definition parse_or_expr : P WhereExpr := with_fuel parse_or_fuel.
Definition parse_where_expr : P WhereExpr := parse_or_expr.

(** ** Arithmetic in RETURN: text with the properties it mentions *)

Abbreviation leaves_t := (list (string * string)).

Definition mul_op (o : option Tok) : option string :=
  match o with Some Star => Some "*" | Some Slash => Some "/" | _ => None end.
Definition add_op (o : option Tok) : option string :=
  match o with Some Plus => Some "+" | Some Dash => Some "-" | _ => None end.

(** [loop { op = (operator peeked, or break); bump; r = sub; e = "{e} {op} {r}" }] *)
Fixpoint arith_loop (op_of : option Tok -> option string) (sub : leaves_t -> P (string * leaves_t))
    (e : string) (leaves : leaves_t) (fuel : nat) : P (string * leaves_t) :=
  match fuel with
  | O => out_of_fuel
  | S fuel =>
      o ← peek;
      match op_of o with
      | None => mret (e, leaves)
      | Some op =>
          _ ← bump;
          '(r, leaves) ← sub leaves;
          arith_loop op_of sub (fmt [e; " "; op; " "; r]) leaves fuel
      end
  end.

Section arith_levels.
Variable parse_ret_arith : leaves_t -> P (string * leaves_t).

Definition parse_ret_atom (leaves : leaves_t) : P (string * leaves_t) :=
  o ← peek;
  match o with
  | Some LParen =>
      _ ← bump;
      '(e, leaves) ← parse_ret_arith leaves;
      _ ← must_eat RParen "cypher: expected `)` in RETURN expression";
      mret (fmt ["("; e; ")"], leaves)
  | Some (Num n) => _ ← bump; mret (n, leaves)
  | Some (Word _) =>
      v ← expect_word;
      _ ← must_eat Dot "cypher: a RETURN expression term must be `<var>.<prop>`, a number, or `(…)`";
      p ← expect_word;
      mret (flat v p, (leaves ++ [(v, p)])%list)
  | other => perr "cypher: expected a RETURN expression term, got {other:?}" [MPeek other]
  end.

Definition parse_ret_mul_after (first : string) (leaves : leaves_t) : P (string * leaves_t) :=
  with_fuel (arith_loop mul_op parse_ret_atom first leaves).

Definition parse_ret_mul (leaves : leaves_t) : P (string * leaves_t) :=
  '(first, leaves) ← parse_ret_atom leaves;
  parse_ret_mul_after first leaves.

Definition parse_ret_arith_after (first : string) (leaves : leaves_t) : P (string * leaves_t) :=
  '(e, leaves) ← parse_ret_mul_after first leaves;
  with_fuel (arith_loop add_op parse_ret_mul e leaves).
End arith_levels.

Fixpoint parse_ret_arith_fuel (fuel : nat) (leaves : leaves_t) : P (string * leaves_t) :=
  match fuel with
  | O => out_of_fuel
  | S fuel =>
      '(first, leaves) ← parse_ret_mul (parse_ret_arith_fuel fuel) leaves;
      parse_ret_arith_after (parse_ret_arith_fuel fuel) first leaves
  end.
Definition parse_ret_arith (leaves : leaves_t) : P (string * leaves_t) :=
  with_fuel (fun fuel => parse_ret_arith_fuel fuel leaves).

(** ** RETURN *)

Definition AGGREGATES : list string := ["count"; "sum"; "avg"; "min"; "max"; "collect"].

Definition peek_is (t : Tok) : P bool := o ← peek; mret (bool_decide (o = Some t)).

Definition parse_path_length : P ReturnItem :=
  _ ← eat LParen;
  path_var ← expect_word;
  _ ← must_eat RParen "cypher: expected `)` after length(<path>)";
  alias ← opt_alias;
  mret (PathLength path_var alias).

Definition parse_agg_target : P AggTarget :=
  s ← eat Star;
  if s : bool then mret AggStar
  else
    v ← expect_word;
    d ← eat Dot;
    if d : bool then p ← expect_word; mret (AggProp v p) else mret (AggVar v).

Definition is_prop_target (t : AggTarget) : bool := match t with AggProp _ _ => true | _ => false end.

Definition parse_aggregate (lf : string) : P ReturnItem :=
  _ ← eat LParen;
  target ← parse_agg_target;
  b ← eat RParen;
  if negb b then perr "cypher: expected `)` after {lf}(…)" [MStr lf]
  else if negb (bool_decide (lf = "count")) && negb (is_prop_target target) then
    unsupported (fmt [lf; "(…) requires a property argument, e.g. "; lf; "(a.weight)"])
  else
    alias ← opt_alias;
    mret (Aggregate lf target alias).

(** [matches!(self.peek(), Some(Tok::Plus | Tok::Dash | Tok::Star | Tok::Slash))] *)
Definition starts_arith (o : option Tok) : bool :=
  match o with Some Plus | Some Dash | Some Star | Some Slash => true | _ => false end.

(** The rest of an item that starts with [var] and a dot. *)
Definition parse_prop_item (var : string) : P ReturnItem :=
  prop ← expect_word;
  o ← peek;
  if starts_arith o then
    '(kql_expr, leaves) ← parse_ret_arith_after parse_ret_arith (flat var prop) [(var, prop)];
    _ ← must_eat_kw "AS" "cypher: a computed RETURN expression requires `AS <alias>`";
    alias ← expect_word;
    mret (RExpr kql_expr leaves alias)
  else
    alias ← opt_alias;
    mret (RProp var prop alias).

Definition parse_return_item : P ReturnItem :=
  var ← expect_word;
  call ← peek_is LParen;
  let lf := lowercase var in
  if eq_ignore_ascii_case var "length" && call then parse_path_length
  else if bool_decide (lf ∈ AGGREGATES) && call then parse_aggregate lf
  else if call : bool then unsupported "aggregation / function call in RETURN"
  else
    d ← eat Dot;
    if d : bool then parse_prop_item var
    else
      a ← eat_kw "AS";
      if a : bool then
        perr "cypher: `AS` is only supported on `<var>.<prop>` return items" []
      else mret (RVar var).

Definition parse_return : P (list ReturnItem) :=
  s ← peek_is Star;
  if s : bool then unsupported "RETURN *" else comma_list parse_return_item.

Definition parse_limit : P Z :=
  o ← bump;
  match o with
  | Some (Num n) =>
      match parse_i64 n with
      | Some z => mret z
      | None => perr "cypher: invalid LIMIT value `{n}`" [MStr n]
      end
  | other => perr "cypher: LIMIT expects an integer, got {other:?}" [MPeek other]
  end.

Definition opt_limit : P (option Z) :=
  b ← eat_kw "LIMIT";
  if b : bool then n ← parse_limit; mret (Some n) else mret None.

(** [let desc = if self.eat_kw("DESC") { true } else { self.eat_kw("ASC"); false };] *)
Definition parse_desc : P bool :=
  d ← eat_kw "DESC";
  if d : bool then mret true else _ ← eat_kw "ASC"; mret false.

Definition order_item : P (string * string * bool) :=
  var ← expect_word;
  _ ← must_eat Dot "cypher: ORDER BY expects `<var>.<prop>`";
  prop ← expect_word;
  desc ← parse_desc;
  mret (var, prop, desc).

Definition opt_order_by {A} (item : P A) : P (list A) :=
  b ← eat_kw "ORDER";
  if b : bool then
    _ ← must_eat_kw "BY" "cypher: expected BY after ORDER";
    comma_list item
  else mret [].

(** * Cypher statements (pensieve-kql/src/cypher.rs, [impl Parser])

    [parse_query], with the [WITH] tail and its references, and [parse_write]
    for [CREATE] and [MERGE]. *)

(** ** WITH *)

(** What a reference after WITH may name: the growing list of items and
    grouping keys, the aggregate aliases and the carried variables. *)
Record WithScope := {
  items : list ReturnItem;
  keys : list (string * string);
  aggs : list string;
  carried : list string;
}.

(** One iteration of the classification of the WITH items. *)
Definition classify_item (it : ReturnItem) (sc : WithScope) : P WithScope :=
  match it with
  | RProp var prop (Some _) =>
      unsupported "AS alias on a WITH grouping key (reference the property directly)"
  | RProp var prop None =>
      mret {| items := items sc; keys := (keys sc ++ [(fmt [var; "."; prop], flat var prop)])%list;
              aggs := aggs sc; carried := carried sc |}
  | Aggregate func _ alias =>
      mret {| items := items sc; keys := keys sc;
              aggs := (aggs sc ++ [default func alias])%list; carried := carried sc |}
  | RVar var =>
      mret {| items := items sc; keys := keys sc; aggs := aggs sc;
              carried := (carried sc ++ [var])%list |}
  | _ => unsupported "WITH item must be `n` (carried node), `n.prop` (grouping key), or an aggregate `f(n.prop) AS x`"
  end.

Fixpoint classify (its : list ReturnItem) (sc : WithScope) : P WithScope :=
  match its with
  | [] => mret sc
  | it :: its => sc ← classify_item it sc; classify its sc
  end.

Definition with_scope (its : list ReturnItem) : P WithScope :=
  sc ← classify its {| items := its; keys := []; aggs := []; carried := [] |};
  if is_empty its then perr "cypher: WITH must project at least one item" [] else mret sc.

Definition find_key (key : string) (sc : WithScope) : option string :=
  snd <$> List.find (fun x => bool_decide (x.1 = key)) (keys sc).

(** A property of a carried node becomes a grouping key. *)
Definition carry (w p key : string) (sc : WithScope) : WithScope :=
  {| items := (items sc ++ [RProp w p None])%list; keys := (keys sc ++ [(key, flat w p)])%list;
     aggs := aggs sc; carried := carried sc |}.

Definition resolve_with_ref (sc : WithScope) : P (string * WithScope) :=
  w ← expect_word;
  d ← eat Dot;
  if d : bool then
    p ← expect_word;
    let key := fmt [w; "."; p] in
    match find_key key sc with
    | Some col => mret (col, sc)
    | None =>
        if decide (w ∈ carried sc) then mret (flat w p, carry w p key sc)
        else perr "cypher: `{key}` is not available after WITH (carry `{w}` or `{key}` through WITH first)"
               [MStr key; MStr w]
    end
  else if decide (w ∈ aggs sc) then mret (w, sc)
  else perr "cypher: `{w}` is not a WITH output (a grouping key, a carried node's property, or an aggregate alias)"
         [MStr w].

(** One HAVING predicate. *)
Definition having_item (sc : WithScope) : P (string * CmpOp * string * WithScope) :=
  '(col, sc) ← resolve_with_ref sc;
  op ← bump_scalar_op "cypher: HAVING after WITH supports only scalar comparisons, got {other:?}";
  lit ← parse_literal;
  mret (col, op, lit, sc).

Fixpoint having_loop (hs : list (string * CmpOp * string)) (saw_and saw_or : bool) (sc : WithScope)
    (fuel : nat) : P (list (string * CmpOp * string) * bool * bool * WithScope) :=
  match fuel with
  | O => out_of_fuel
  | S fuel =>
      '(h, sc) ← having_item sc;
      let hs := (hs ++ [h])%list in
      a ← eat_kw "AND";
      if a : bool then having_loop hs true saw_or sc fuel
      else
        o ← eat_kw "OR";
        if o : bool then having_loop hs saw_and true sc fuel else mret (hs, saw_and, saw_or, sc)
  end.

Definition parse_having (sc : WithScope) : P (list (string * CmpOp * string) * bool * WithScope) :=
  w ← eat_kw "WHERE";
  if w : bool then
    '(hs, saw_and, saw_or, sc) ← with_fuel (having_loop [] false false sc);
    if saw_and && saw_or then unsupported "mixed AND/OR in a WITH … WHERE (HAVING)"
    else mret (hs, saw_or, sc)
  else mret ([], false, sc).

(** A comma list whose items thread the scope. *)
Fixpoint scoped_loop {A} (item : WithScope -> P (A * WithScope)) (v : list A) (sc : WithScope)
    (fuel : nat) : P (list A * WithScope) :=
  match fuel with
  | O => out_of_fuel
  | S fuel =>
      '(x, sc) ← item sc;
      let v := (v ++ [x])%list in
      more ← eat Comma;
      if more : bool then scoped_loop item v sc fuel else mret (v, sc)
  end.
Definition scoped_list {A} (item : WithScope -> P (A * WithScope)) (sc : WithScope) : P (list A * WithScope) :=
  with_fuel (scoped_loop item [] sc).

Definition with_order_item (sc : WithScope) : P (string * bool * WithScope) :=
  '(col, sc) ← resolve_with_ref sc;
  desc ← parse_desc;
  mret (col, desc, sc).

Definition with_order_by (sc : WithScope) : P (list (string * bool) * WithScope) :=
  b ← eat_kw "ORDER";
  if b : bool then
    _ ← must_eat_kw "BY" "cypher: expected BY after ORDER";
    scoped_list with_order_item sc
  else mret ([], sc).

Definition parse_with_tail : P (list ReturnItem * WithClause) :=
  its ← parse_return;
  sc ← with_scope its;
  '(hs, hor, sc) ← parse_having sc;
  _ ← must_eat_kw "RETURN" "cypher: expected RETURN after WITH";
  d ← eat_kw "DISTINCT";
  '(cols, sc) ← scoped_list resolve_with_ref sc;
  '(ob, sc) ← with_order_by sc;
  lim ← opt_limit;
  mret (items sc,
        {| having := hs; having_or := hor; ret_cols := cols; wc_distinct := d;
           wc_order_by := ob; wc_limit := lim |}).

(** ** MATCH *)

(** [reject_unsupported_leading], one keyword after the other. *)
Definition LEADING : list (string * string) := [
  ("OPTIONAL", "OPTIONAL MATCH"); ("CREATE", "CREATE"); ("MERGE", "MERGE"); ("SET", "SET");
  ("DELETE", "DELETE"); ("REMOVE", "REMOVE"); ("CALL", "CALL"); ("UNWIND", "UNWIND")].

Fixpoint reject_leading (l : list (string * string)) : P unit :=
  match l with
  | [] => mret tt
  | (kw, feat) :: l => b ← peek_kw kw; if b : bool then unsupported feat else reject_leading l
  end.
Definition reject_unsupported_leading : P unit := reject_leading LEADING.

(** [<path> = shortestPath(]: a bareword followed by [=]. *)
Definition peek_path : P bool := fun p =>
  Ret (match nth_error (toks p) (pos p), nth_error (toks p) (pos p + 1) with
       | Some (Word _), Some Eq => true
       | _, _ => false
       end, p).

Definition parse_shortest : P (option string) :=
  b ← peek_path;
  if b : bool then
    pvar ← expect_word;
    _ ← eat Eq;
    func ← expect_word;
    if negb (eq_ignore_ascii_case func "shortestPath") then
      unsupported (fmt ["path function `"; func; "` (only shortestPath is supported)"])
    else
      _ ← must_eat LParen "cypher: expected `(` after shortestPath";
      mret (Some pvar)
  else mret None.

(** Does another pattern follow, and is its clause optional? *)
Definition next_clause (clause_optional : bool) : P (option bool) :=
  c ← eat Comma;
  if c : bool then mret (Some clause_optional)
  else
    o ← eat_kw "OPTIONAL";
    if o : bool then
      _ ← must_eat_kw "MATCH" "cypher: expected MATCH after OPTIONAL";
      mret (Some true)
    else
      m ← eat_kw "MATCH";
      mret (if m : bool then Some false else None).

Record Patterns := { pnodes : list NodePat; prels : list RelPat; psegments : list Segment }.

Definition first_var (ns : list NodePat) : outcome ParseError string :=
  or_panic (node_var <$> ns !! 0).

(** [nodes.last().map(|n| n.var.clone()).unwrap_or_default()] *)
Definition last_var (ns : list NodePat) : string := default "" (node_var <$> last ns).

(** A segment either extends the primary chain or is kept apart; the check
    [extra_segments.is_empty() && !clause_optional && ..] short-circuits before
    the index [seg_nodes[0]]. *)
Definition add_segment (ns : list NodePat) (rs : list RelPat) (optional : bool) (ps : Patterns)
    : P Patterns := fun p =>
  let keep := {| pnodes := pnodes ps; prels := prels ps;
                 psegments := (psegments ps ++ [{| seg_nodes := ns; seg_rels := rs; seg_optional := optional |}])%list |} in
  if is_empty (psegments ps) && negb optional then
    v ← first_var ns;
    if decide (v = last_var (pnodes ps)) then
      Ret ({| pnodes := (pnodes ps ++ drop 1 ns)%list; prels := (prels ps ++ rs)%list;
              psegments := psegments ps |}, p)
    else Ret (keep, p)
  else Ret (keep, p).

Fixpoint segments_loop (optional : bool) (ps : Patterns) (fuel : nat) : P Patterns :=
  match fuel with
  | O => out_of_fuel
  | S fuel =>
      c ← next_clause optional;
      match c with
      | None => mret ps
      | Some optional =>
          '(ns, rs) ← parse_chain;
          ps ← add_segment ns rs optional ps;
          segments_loop optional ps fuel
      end
  end.

(** The optional WHERE: the flat list, the connective and the tree. *)
Definition parse_where : P (list Comparison * bool * option WhereExpr) :=
  w ← eat_kw "WHERE";
  if w : bool then
    tree ← parse_where_expr;
    match try_flatten_where tree with
    | Some (preds, or) => mret (preds, or, None)
    | None => mret ([], false, Some tree)
    end
  else mret ([], false, None).

(** WITH .. RETURN, or RETURN with its ORDER BY and LIMIT. *)
Definition parse_tail
    : P (list ReturnItem * bool * list (string * string * bool) * option Z * option WithClause) :=
  w ← eat_kw "WITH";
  if w : bool then
    '(its, wc) ← parse_with_tail;
    mret (its, false, [], None, Some wc)
  else
    _ ← must_eat_kw "RETURN" "cypher: expected RETURN";
    d ← eat_kw "DISTINCT";
    rs ← parse_return;
    ob ← opt_order_by order_item;
    lim ← opt_limit;
    mret (rs, d, ob, lim, None).

(** Nothing may follow the query. *)
Definition expect_end : P unit :=
  s ← peek_kw "SKIP";
  if s : bool then unsupported "SKIP"
  else
    u ← peek_kw "UNION";
    if u : bool then unsupported "UNION"
    else
      ts ← get_toks;
      i ← get_pos;
      if decide (i = List.length ts) then mret tt
      else perr "cypher: unexpected trailing tokens after query: {:?}" [MToks (drop i ts)].

Definition parse_query : P Query :=
  _ ← reject_unsupported_leading;
  _ ← must_eat_kw "MATCH" "cypher: expected MATCH at start of query";
  shortest ← parse_shortest;
  '(ns, rs) ← parse_chain;
  ps ← match shortest with
       | Some _ =>
           _ ← must_eat RParen "cypher: expected `)` to close shortestPath(...)";
           mret {| pnodes := ns; prels := rs; psegments := [] |}
       | None => with_fuel (segments_loop false {| pnodes := ns; prels := rs; psegments := [] |})
       end;
  o ← peek_kw "OPTIONAL";
  m ← peek_kw "MATCH";
  if o || m then unsupported "MATCH / OPTIONAL MATCH after shortestPath"
  else
    '(preds, or, tree) ← parse_where;
    '(returns, distinct, order_by, limit, with_clause) ← parse_tail;
    _ ← expect_end;
    mret {| nodes := pnodes ps; rels := prels ps; where_preds := preds; where_or := or;
            where_tree := tree; returns := returns; limit := limit; shortest_path := shortest;
            extra_segments := psegments ps; distinct := distinct; order_by := order_by;
            with_clause := with_clause |}.

(** ** CREATE and MERGE *)

Definition parse_prop : P (string * PropLit) :=
  key ← expect_word;
  _ ← must_eat Colon "cypher: expected `:` after a property key";
  o ← bump;
  match o with
  | Some (Str s) => mret (key, PStr s)
  | Some (Num n) => mret (key, PNum n)
  | other => perr "cypher: property value must be a string or number, got {other:?}" [MPeek other]
  end.

Definition parse_prop_map : P (list (string * PropLit)) :=
  _ ← must_eat LBrace "cypher: expected `{` for a property map";
  e ← eat RBrace;
  if e : bool then mret []
  else
    props ← comma_list parse_prop;
    _ ← must_eat RBrace "cypher: expected `}` to close the property map";
    mret props.

Definition opt_prop_map : P (list (string * PropLit)) :=
  b ← peek_is LBrace;
  if b : bool then parse_prop_map else mret [].

Definition parse_write_node : P (option string * list (string * PropLit)) :=
  _ ← must_eat LParen "cypher: CREATE pattern must start with `(`";
  o ← peek;
  _ ← match o with Some (Word _) => _ ← expect_word; mret tt | _ => mret tt end;
  label ← opt_label;
  props ← opt_prop_map;
  _ ← must_eat RParen "cypher: expected `)` to close the CREATE node";
  mret (label, props).

(** [if !self.eat(t) { return Err(unsupported(feature)) }] *)
Definition need (t : Tok) (feature : string) : P unit :=
  b ← eat t; if b : bool then mret tt else unsupported feature.

Definition find_id (id_col : string) (props : list (string * PropLit)) : option PropLit :=
  snd <$> List.find (fun x => bool_decide (x.1 = id_col)) props.

Definition need_id (id_col : string) (props : list (string * PropLit)) (feature : string) : P PropLit :=
  match find_id id_col props with Some v => mret v | None => unsupported feature end.

Definition parse_write_pattern (merge : bool) (id_col : string) (out : list CypherWriteOp)
    : P (list CypherWriteOp) :=
  '(a_label, a_props) ← parse_write_node;
  o ← peek;
  if decide (o = Some ArrowL) then
    unsupported "backward `<-` relationship in CREATE (write the edge forward)"
  else if decide (o = Some Dash) then
    _ ← eat Dash;
    _ ← need LBracket "CREATE relationship without an explicit `[:TYPE]`";
    _ ← need Colon "CREATE relationship without a type, e.g. `[:CALLS]`";
    rel_type ← expect_word;
    edge_props ← opt_prop_map;
    _ ← must_eat RBracket "cypher: expected `]` after relationship";
    _ ← need ArrowR "CREATE relationship must be forward `-[:TYPE]->`";
    '(b_label, b_props) ← parse_write_node;
    src_id ← need_id id_col a_props "CREATE relationship source without an inline id property";
    dst_id ← need_id id_col b_props "CREATE relationship target without an inline id property";
    mret (out ++ [Node merge a_label a_props; Node merge b_label b_props;
                  Edge merge rel_type src_id dst_id edge_props])%list
  else mret (out ++ [Node merge a_label a_props])%list.

(** The patterns of one clause. *)
Fixpoint patterns_loop (merge : bool) (id_col : string) (out : list CypherWriteOp) (fuel : nat)
    : P (list CypherWriteOp) :=
  match fuel with
  | O => out_of_fuel
  | S fuel =>
      out ← parse_write_pattern merge id_col out;
      more ← eat Comma;
      if more : bool then patterns_loop merge id_col out fuel else mret out
  end.

(** [let merge = if self.eat_kw("MERGE") { true } else if self.eat_kw("CREATE") { false } else { break }] *)
Definition next_write : P (option bool) :=
  m ← eat_kw "MERGE";
  if m : bool then mret (Some true)
  else c ← eat_kw "CREATE"; mret (if c : bool then Some false else None).

Fixpoint clauses_loop (id_col : string) (out : list CypherWriteOp) (fuel : nat)
    : P (list CypherWriteOp) :=
  match fuel with
  | O => out_of_fuel
  | S fuel =>
      m ← next_write;
      match m with
      | None => mret out
      | Some merge =>
          out ← with_fuel (patterns_loop merge id_col out);
          clauses_loop id_col out fuel
      end
  end.

Definition WRITE_WORDS : list string := ["CREATE"; "MERGE"; "SET"; "DELETE"; "REMOVE"].

Definition is_write_word (t : Tok) : bool :=
  match t with Word w => bool_decide (uppercase w ∈ WRITE_WORDS) | _ => false end.

Definition has_write_clause : P bool := ts ← get_toks; mret (existsb is_write_word ts).

Definition write_statement (id_col : string) : P (option CypherWrite) :=
  ops ← with_fuel (clauses_loop id_col []);
  ts ← get_toks;
  i ← get_pos;
  if decide (i <> List.length ts) then unsupported "clauses after CREATE/MERGE (e.g. RETURN / WHERE)"
  else if is_empty ops then perr "cypher: CREATE/MERGE produced no node or edge" []
  else mret (Some {| ops := ops |}).

Definition parse_write (id_col : string) : P (option CypherWrite) :=
  o ← peek;
  match o with
  | Some (Word w) =>
      let lead := uppercase w in
      if decide (lead = "CREATE" \/ lead = "MERGE") then write_statement id_col
      else if decide (lead = "SET" \/ lead = "DELETE" \/ lead = "REMOVE") then
        unsupported (fmt [lead; " — in-place mutation; the graph is a read-only view over append-only tables (add data by ingesting rows)"])
      else
        b ← has_write_clause;
        if b : bool then unsupported "combining MATCH with CREATE/MERGE/SET/DELETE in one statement"
        else mret None
  | _ => mret None
  end.

Definition parse_cypher_write (src id_col : string) : outcome ParseError (option CypherWrite) :=
  toks ← tokenize src;
  '(w, _) ← parse_write id_col (new_parser toks);
  Ret w.
