(* ===== verification/CypherEmit.v ===== *)
(** * Cypher to KQL: the emitter (pensieve-kql/src/cypher.rs, [emit])

    The text of the KQL query for a parsed [Query]: the pattern, the flat
    projection list, the filters and the tail.  [push_proj] de-duplicates the
    projections by alias, as the closure of the source does. *)

From stdpp Require Import base strings list.
From Stdlib Require Import NArith ZArith Lia Ascii.
From S2P Require Import Prelude Bytes Cypher CypherParser.

Local Open Scope string_scope.

Record GraphBinding := {
  edge_table : string;
  node_table : string;
  id_col : string;
  src_col : string;
  dst_col : string;
  type_col : string;
  label_col : string;
}.

(** The emitter has no parser state: a result of the error type. *)
Definition E : Type -> Type := outcome ParseError.
Definition eerr {A} (message : string) (args : list message_arg) : E A := Fail (CypherErr message args).
Definition eunsupported {A} (feature : string) : E A :=
  eerr "cypher: {feature} not supported yet (v1 single-hop MATCH)" [MStr feature].

(** ** Shortest paths *)

Definition is_pin (g : GraphBinding) (p : Comparison) : bool :=
  bool_decide (cmp_prop p = id_col g) && bool_decide (op p = OpEq).

(** The literal the first id equality on [var] pins it to. *)
Definition pin (q : Query) (g : GraphBinding) (var : string) : option string :=
  literal <$> List.find (fun p => bool_decide (cmp_var p = var) && is_pin g p) (where_preds q).

Definition dir_kw (d : Direction) : string :=
  match d with Forward => "forward" | Backward => "backward" | Undirected => "both" end.

Definition check_path_return (path_var : string) (its : list ReturnItem) : E unit :=
  match its with
  | [PathLength pv alias] =>
      if negb (bool_decide (pv = path_var)) then
        eerr "cypher: length() of unknown path `{pv}` (the path is `{path_var}`)" [MStr pv; MStr path_var]
      else match alias with
      | Some _ => eunsupported "AS alias on length(<path>) (the shortest-path length is returned in the `depth` column)"
      | None => Ret tt
      end
  | [_] => eunsupported "shortestPath RETURN supports only length(<path>)"
  | _ => eunsupported "shortestPath RETURN must be a single length(<path>)"
  end.

Definition emit_shortest_path (q : Query) (g : GraphBinding) (path_var : string) : E string :=
  if negb (bool_decide (List.length (rels q) = 1)) then
    eunsupported "shortestPath over a multi-hop pattern"
  else if where_or q then eunsupported "OR in WHERE with shortestPath"
  else
    a ← or_panic (node_var <$> nodes q !! 0);
    b ← or_panic (node_var <$> nodes q !! 1);
    match pin q g a, pin q g b with
    | Some src, Some tgt =>
        let pins := List.length (List.filter (fun p =>
          is_pin g p && (bool_decide (cmp_var p = a) || bool_decide (cmp_var p = b))) (where_preds q)) in
        if negb (bool_decide (List.length (where_preds q) = pins)) then
          eunsupported "WHERE predicates other than the two endpoint id pins in a shortestPath query"
        else
          let max := default DEFAULT_VAR_LENGTH_MAX (r ← head (rels q); snd <$> var_length r) in
          r ← or_panic (rels q !! 0);
          _ ← check_path_return path_var (returns q);
          Ret (fmt [edge_table g; " | graph-shortest-path source "; src; " target "; tgt; " from ";
                    src_col g; " to "; dst_col g; " max-hops "; show_N max; " direction ";
                    dir_kw (direction r); " | project depth"])
    | _, _ =>
        eerr "cypher: shortestPath requires both endpoints pinned by `{id}` equality (e.g. WHERE {a}.{id} = '…' AND {b}.{id} = '…')"
          [MStr (id_col g); MStr a; MStr b]
    end.

(** ** Patterns *)

Definition rel_pat (r : RelPat) : string :=
  match rel_type r with
  | Some t => fmt ["["; rel_var r; ":"; t; "]"]
  | None => fmt ["["; rel_var r; "]"]
  end.

(** [format!("({left})-{}->({right})", rel_pat(r))], swapped when backward. *)
Definition hop_pattern (left right : NodePat) (r : RelPat) : string :=
  let '(l, r') := match direction r with Backward => (right, left) | _ => (left, right) end in
  fmt ["("; node_var l; ")-"; rel_pat r; "->("; node_var r'; ")"].

Definition single_hop (ns : list NodePat) (r : RelPat) : E string :=
  n0 ← or_panic (ns !! 0);
  n1 ← or_panic (ns !! 1);
  Ret (hop_pattern n0 n1 r).

(** [for (i, r) in rels.iter().enumerate() { .. nodes[i + 1] .. }] *)
Fixpoint chain_hops (reject : RelPat -> option string) (ns : list NodePat) (rs : list RelPat) (i : nat)
    (p : string) : E string :=
  match rs with
  | [] => Ret p
  | r :: rs =>
      match reject r with
      | Some feature => eunsupported feature
      | None =>
          n ← or_panic (ns !! (i + 1));
          chain_hops reject ns rs (i + 1) (fmt [p; "-"; rel_pat r; "->("; node_var n; ")"])
      end
  end.

Definition chain_pattern (reject : RelPat -> option string) (ns : list NodePat) (rs : list RelPat) : E string :=
  n0 ← or_panic (ns !! 0);
  chain_hops reject ns rs 0 (fmt ["("; node_var n0; ")"]).

Definition is_backward (r : RelPat) : bool := bool_decide (direction r = Backward).
Definition is_var_length (r : RelPat) : bool := match var_length r with Some _ => true | None => false end.

Definition reject_in_segment (r : RelPat) : option string :=
  if is_backward r then Some "backward `<-` relationship in a multi-hop segment" else None.
Definition reject_in_chain (r : RelPat) : option string :=
  if is_var_length r then Some "variable-length relationship inside a multi-hop pattern"
  else if is_backward r then Some "backward `<-` relationship in a multi-hop pattern"
  else None.

Definition segment_pattern (ns : list NodePat) (rs : list RelPat) : E string :=
  if existsb is_var_length rs then eunsupported "variable-length relationship in a multi-pattern MATCH"
  else match rs with
       | [r] => single_hop ns r
       | _ => chain_pattern reject_in_segment ns rs
       end.

(** [&v[a..b]]: out of range panics. *)
Definition slice {A} (v : list A) (a b : nat) : E (list A) :=
  if decide (a <= b /\ b <= List.length v) then Ret (take (b - a) (drop a v)) else Panic.

(** [for i in 0..rels.len() { out.push(segment_pattern(&nodes[i..=i + 1], &rels[i..=i])?) }] *)
Definition hop_segment (ns : list NodePat) (rs : list RelPat) (i : nat) (out : list string) : E (list string) :=
  n ← slice ns i (i + 2);
  r ← slice rs i (i + 1);
  p ← segment_pattern n r;
  Ret (out ++ [p])%list.

Definition segment_patterns (ns : list NodePat) (rs : list RelPat) : E (list string) :=
  if (1 <? List.length rs)%nat && existsb is_backward rs then
    for_each (hop_segment ns rs) (seq 0 (List.length rs)) []
  else p ← segment_pattern ns rs; Ret [p].

Definition optional_prefix (opt : bool) (p : string) : string := if opt then fmt ["OPTIONAL "; p] else p.

(** [for (sn, sr, opt) in &q.extra_segments { .. }] *)
Definition extra_segment (s : Segment) (segs : list string) : E (list string) :=
  ps ← segment_patterns (seg_nodes s) (seg_rels s);
  Ret (segs ++ map (optional_prefix (seg_optional s)) ps)%list.

Definition match_prefix (g : GraphBinding) (rest : list string) : string :=
  fmt ([edge_table g; " | make-graph "; src_col g; " --> "; dst_col g; " with "; node_table g;
        " on "; id_col g] ++ rest)%list.

Definition graph_match_prefix (q : Query) (g : GraphBinding) (proj_list : string) : E string :=
  let primary_backward_multihop := (1 <? List.length (rels q))%nat && existsb is_backward (rels q) in
  if negb (is_empty (extra_segments q)) || primary_backward_multihop then
    segs ← segment_patterns (nodes q) (rels q);
    segs ← for_each extra_segment (extra_segments q) segs;
    Ret (match_prefix g [" | graph-match "; join ", " segs; " project "; proj_list])
  else
    match rels q with
    | [r] =>
        match var_length r with
        | Some (min, max) =>
            a ← or_panic (node_var <$> nodes q !! 0);
            b ← or_panic (node_var <$> nodes q !! 1);
            Ret (match_prefix g [" | graph-var-match ("; a; ")-"; rel_pat r; "->("; b; ") min-hops ";
                                 show_N min; " max-hops "; show_N max; " direction ";
                                 dir_kw (direction r); " project "; proj_list])
        | None =>
            pattern ← single_hop (nodes q) r;
            Ret (match_prefix g [" | graph-match "; pattern; " project "; proj_list])
        end
    | rs =>
        pattern ← chain_pattern reject_in_chain (nodes q) rs;
        Ret (match_prefix g [" | graph-match "; pattern; " project "; proj_list])
    end.

(** ** Projections *)

Record Projection := { proj_var : string; proj_col : string; proj_alias : string }.

(** The closure [push_proj]: the first projection of an alias wins. *)
Definition push_proj (var col alias : string) (ps : list Projection) : list Projection :=
  if existsb (fun p => bool_decide (proj_alias p = alias)) ps then ps
  else (ps ++ [{| proj_var := var; proj_col := col; proj_alias := alias |}])%list.

(** The variables the pattern declares. *)
Definition known_vars (q : Query) : list string :=
  (map node_var (nodes q) ++ map rel_var (rels q)
   ++ concat (map (fun s => map node_var (seg_nodes s) ++ map rel_var (seg_rels s)) (extra_segments q)))%list.

Definition check_var (q : Query) (v : string) : E unit :=
  if decide (v ∈ known_vars q) then Ret tt
  else eerr "cypher: unknown variable `{v}` (pattern declares {})" [MStr v; MStr (join ", " (known_vars q))].

(** What [emit] accumulates over the RETURN items. *)
Record Emit := {
  projections : list Projection;
  aggregates : list string;
  group_keys : list string;
  extends : list (string * string);
  expr_output : list string;
}.

Definition empty_emit : Emit :=
  {| projections := []; aggregates := []; group_keys := []; extends := []; expr_output := [] |}.

Definition project (var col alias : string) (e : Emit) : Emit :=
  {| projections := push_proj var col alias (projections e); aggregates := aggregates e;
     group_keys := group_keys e; extends := extends e; expr_output := expr_output e |}.

(** Output columns that are also GROUP BY keys. *)
Definition push_output (outs : list string) (e : Emit) : Emit :=
  {| projections := projections e; aggregates := aggregates e; group_keys := (group_keys e ++ outs)%list;
     extends := extends e; expr_output := (expr_output e ++ outs)%list |}.

Definition push_extend (alias kql_expr : string) (e : Emit) : Emit :=
  {| projections := projections e; aggregates := aggregates e; group_keys := group_keys e;
     extends := (extends e ++ [(alias, kql_expr)])%list; expr_output := (expr_output e ++ [alias])%list |}.

Definition push_aggregate (a : string) (e : Emit) : Emit :=
  {| projections := projections e; aggregates := (aggregates e ++ [a])%list; group_keys := group_keys e;
     extends := extends e; expr_output := expr_output e |}.

(** [check_var(v)?; push_proj(v, p, format!("{v}_{p}"))] *)
Definition project_leaf (q : Query) (leaf : string * string) (e : Emit) : E Emit :=
  _ ← check_var q leaf.1;
  Ret (project leaf.1 leaf.2 (flat leaf.1 leaf.2) e).

Definition agg_expr (q : Query) (g : GraphBinding) (kfn : string) (target : AggTarget) (e : Emit)
    : E (string * Emit) :=
  match target with
  | AggStar => Ret (fmt [kfn; "(*)"], e)
  | AggVar v =>
      _ ← check_var q v;
      Ret (fmt [kfn; "("; flat v "id"; ")"], project v (id_col g) (flat v "id") e)
  | AggProp v p =>
      e ← project_leaf q (v, p) e;
      Ret (fmt [kfn; "("; flat v p; ")"], e)
  end.

Definition emit_item (q : Query) (g : GraphBinding) (item : ReturnItem) (e : Emit) : E Emit :=
  match item with
  | RProp var prop alias =>
      _ ← check_var q var;
      let out := default (flat var prop) alias in
      Ret (push_output [out] (project var prop out e))
  | RVar var =>
      _ ← check_var q var;
      Ret (push_output [flat var "id"; flat var "label"]
             (project var (label_col g) (flat var "label") (project var (id_col g) (flat var "id") e)))
  | RExpr kql_expr leaves alias =>
      e ← for_each (project_leaf q) leaves e;
      Ret (push_extend alias kql_expr e)
  | Aggregate func target alias =>
      let out := default func alias in
      let kfn := if decide (func = "collect") then "make_list" else func in
      '(expr, e) ← agg_expr q g kfn target e;
      Ret (push_aggregate (fmt [out; " = "; expr]) e)
  | PathLength _ _ => eunsupported "length(<path>) outside a shortestPath query"
  end.

(** The nodes of every segment. *)
Definition all_nodes (q : Query) : list NodePat :=
  (nodes q ++ concat (map seg_nodes (extra_segments q)))%list.

Definition label_filter (g : GraphBinding) (n : NodePat) (st : Emit * list (string * string))
    : Emit * list (string * string) :=
  match label n with
  | Some l =>
      let alias := flat (node_var n) (label_col g) in
      (project (node_var n) (label_col g) alias st.1, (st.2 ++ [(alias, l)])%list)
  | None => st
  end.

(** The flat predicates, each projecting its property. *)
Definition pred_clause (q : Query) (p : Comparison) (st : Emit * list string) : E (Emit * list string) :=
  e ← project_leaf q (cmp_var p, cmp_prop p) st.1;
  Ret (e, (st.2 ++ [render_clause (op p) (flat (cmp_var p) (cmp_prop p)) (literal p)])%list).

Definition tree_clause (q : Query) (st : Emit * list string) : E (Emit * list string) :=
  match where_tree q with
  | Some tree =>
      e ← for_each (project_leaf q) (collect_leaves tree) st.1;
      Ret (e, (st.2 ++ [render_kql tree])%list)
  | None => Ret st
  end.

Definition asc_desc (desc : bool) : string := if desc then "desc" else "asc".

Definition sort_item (q : Query) (o : string * string * bool) (st : Emit * list string)
    : E (Emit * list string) :=
  let '(var, prop, desc) := o in
  e ← project_leaf q (var, prop) st.1;
  Ret (e, (st.2 ++ [fmt [flat var prop; " "; asc_desc desc]])%list).

(** A query needs a column: [count( * )] alone projects the id of the first node. *)
Definition ensure_column (q : Query) (g : GraphBinding) (e : Emit) : E Emit :=
  if is_empty (projections e) then
    if is_empty (aggregates e) then eerr "cypher: RETURN must project at least one column" []
    else
      v ← or_panic (node_var <$> nodes q !! 0);
      Ret {| projections := [{| proj_var := v; proj_col := id_col g; proj_alias := flat v "id" |}];
             aggregates := aggregates e; group_keys := group_keys e; extends := extends e;
             expr_output := expr_output e |}
  else Ret e.

(** Everything [emit] collects before it writes the query. *)
Record Plan := {
  plan_emit : Emit;
  label_filters : list (string * string);
  where_clauses : list string;
  sort_items : list string;
}.

Definition plan (q : Query) (g : GraphBinding) : E Plan :=
  e ← for_each (emit_item q g) (returns q) empty_emit;
  let '(e, labels) := foldl (fun st n => label_filter g n st) (e, []) (all_nodes q) in
  st ← for_each (pred_clause q) (where_preds q) (e, []);
  '(e, wheres) ← tree_clause q st;
  '(e, sorts) ← for_each (sort_item q) (order_by q) (e, []);
  e ← ensure_column q g e;
  Ret {| plan_emit := e; label_filters := labels; where_clauses := wheres; sort_items := sorts |}.

Definition proj_text (p : Projection) : string :=
  fmt [proj_var p; "."; proj_col p; " as "; proj_alias p].

(** ** The query text *)

Definition label_clause (f : string * string) : string := fmt [f.1; " == "; quote_literal f.2].

Definition filters (q : Query) (pl : Plan) : list string :=
  (map label_clause (label_filters pl)
   ++ (if is_empty (where_clauses pl) then []
       else if where_or q then [fmt ["("; join " or " (where_clauses pl); ")"]]
       else where_clauses pl))%list.

Definition stage (kw : string) (body : string) : string := fmt [" | "; kw; body].

Definition is_expr (i : ReturnItem) : bool := match i with RExpr _ _ _ => true | _ => false end.

Definition expr_stages (q : Query) (e : Emit) : E string :=
  if existsb is_expr (returns q) then
    if negb (is_empty (aggregates e)) then
      eunsupported "a computed RETURN expression together with an aggregate"
    else
      Ret (fmt (map (fun x => stage "extend " (fmt [x.1; " = "; x.2])) (extends e)
                ++ [stage "project " (join ", " (expr_output e))])%list)
  else Ret "".

Definition summarize_stage (e : Emit) : string :=
  if is_empty (aggregates e) then ""
  else if is_empty (group_keys e) then stage "summarize " (join ", " (aggregates e))
  else stage "summarize " (fmt [join ", " (aggregates e); " by "; join ", " (group_keys e)]).

(** [| distinct], [| sort by ..], [| take n]. *)
Definition tail_stages (distinct : bool) (sorts : list string) (limit : option Z) : string :=
  fmt [(if distinct then stage "distinct" "" else "");
       (if is_empty sorts then "" else stage "sort by " (join ", " sorts));
       match limit with Some n => stage "take " (show_Z n) | None => "" end].

Definition having_text (h : string * CmpOp * string) : string :=
  let '(col, o, lit) := h in fmt [col; " "; kql o; " "; lit].

Definition having_stages (wc : WithClause) : string :=
  if is_empty (having wc) then ""
  else
    let preds := map having_text (having wc) in
    if having_or wc then stage "where (" (fmt [join " or " preds; ")"])
    else fmt (map (stage "where ") preds).

Definition with_stages (wc : WithClause) : string :=
  fmt [having_stages wc; stage "project " (join ", " (ret_cols wc));
       tail_stages (wc_distinct wc)
         (map (fun x => fmt [x.1; " "; asc_desc x.2]) (wc_order_by wc)) (wc_limit wc)].

Definition emit (q : Query) (g : GraphBinding) : E string :=
  match shortest_path q with
  | Some path_var => emit_shortest_path q g path_var
  | None =>
      pl ← plan q g;
      let e := plan_emit pl in
      prefix ← graph_match_prefix q g (join ", " (map proj_text (projections e)));
      exprs ← expr_stages q e;
      Ret (fmt [prefix; fmt (map (stage "where ") (filters q pl)); exprs; summarize_stage e;
                tail_stages (distinct q) (sort_items pl) (limit q);
                match with_clause q with Some wc => with_stages wc | None => "" end])
  end.

Definition cypher_to_kql (cypher : string) (g : GraphBinding) : outcome ParseError string :=
  toks ← tokenize cypher;
  '(query, _) ← parse_query (new_parser toks);
  emit query g.
