(* ===== verification/CypherParserSpec.v ===== *)
(** * A program logic for the Cypher parser

    [spec n k m Q], as in KqlExprSpec: from a parser with fewer than [n] tokens
    left, [m] neither panics nor runs out of fuel; a result satisfies [Q], and
    at least [k] tokens of the same list were consumed. *)

From stdpp Require Import base strings list sets.
From Stdlib Require Import NArith ZArith Lia Ascii.
From S2P Require Import Prelude Bytes Cypher CypherParser.

Local Open Scope string_scope.

(** ** What the lexer guarantees *)

(** A bareword: a letter or underscore, then letters, digits and underscores. *)
Definition word_shape (l : list char) : Prop :=
  exists c l', l = c :: l' /\ (is_ascii_alphabetic c || (c =? ch "_")%N) = true
            /\ Forall (fun c => word_char c = true) l.

(** A numeral: a digit, then digits and points. *)
Definition num_shape (l : list char) : Prop :=
  exists c l', l = c :: l' /\ is_ascii_digit c = true /\ Forall (fun c => num_char c = true) l.

Definition is_word (s : string) : Prop := exists l, s = of_chars l /\ word_shape l.
Definition is_num (s : string) : Prop := exists l, s = of_chars l /\ num_shape l.
Definition is_text (s : string) : Prop := exists l, s = of_chars l /\ Forall is_scalar l.

Definition tok_ok (t : Tok) : Prop :=
  match t with
  | Word s => is_word s
  | Num s => is_num s
  | Str s => is_text s
  | _ => True
  end.

Record good (p : Parser) : Prop := {
  good_toks : Forall tok_ok (toks p);
  good_pos : pos p <= List.length (toks p);
}.

Record reach (k : nat) (p p' : Parser) : Prop := {
  reach_good : good p';
  reach_toks : toks p' = toks p;
  reach_pos : pos p + k <= pos p';
}.

Definition wp {A} (m : P A) (p : Parser) (Q : A -> Parser -> Prop) : Prop :=
  match m p with
  | Ret (a, p') => Q a p'
  | Fail _ => True
  | Panic | OutOfFuel => False
  end.

Definition spec {A} (n k : nat) (m : P A) (Q : A -> Prop) : Prop :=
  forall p, good p -> rem p < n -> wp m p (fun a p' => Q a /\ reach k p p').

(** The same when the next token is [t]. *)
Definition spec_next {A} (t : Tok) (n k : nat) (m : P A) (Q : A -> Prop) : Prop :=
  forall p, good p -> rem p < n -> nth_error (toks p) (pos p) = Some t ->
    wp m p (fun a p' => Q a /\ reach k p p').

Lemma cy_wp_bind {A B} (m : P A) (f : A -> P B) p Q :
  wp m p (fun a p' => wp (f a) p' Q) -> wp (m ≫= f) p Q.
Proof. unfold wp, mbind, P_bind. by destruct (m p) as [[a p']| | |]. Qed.

Lemma cy_wp_mono {A} (m : P A) p (Q R : A -> Parser -> Prop) :
  (forall a p', Q a p' -> R a p') -> wp m p Q -> wp m p R.
Proof. unfold wp. intros H. destruct (m p) as [[a p']| | |]; auto. Qed.

Lemma cy_reach_refl p : good p -> reach 0 p p.
Proof. intros H. split; try done. lia. Qed.

Lemma cy_reach_trans k1 k2 k p1 p2 p3 :
  reach k1 p1 p2 -> reach k2 p2 p3 -> k <= k1 + k2 -> reach k p1 p3.
Proof. intros [] [] ?. split; try congruence; lia. Qed.

Lemma cy_reach_rem_lt k p p' n : reach k p p' -> rem p < n -> rem p' < n - k.
Proof.
  intros [[] Ht ?] ?. unfold rem in *. rewrite Ht in *. destruct k; lia.
Qed.

(** ** Rules *)

Lemma cy_spec_mono {A} n n' k k' (m : P A) (Q R : A -> Prop) :
  spec n k m Q -> n' <= n -> k' <= k -> (forall a, Q a -> R a) -> spec n' k' m R.
Proof.
  intros H Hn Hk HQ p Hg Hr. eapply cy_wp_mono; [|apply H; [done|lia]].
  intros a p' [Ha Hp]. split; [auto|]. eapply cy_reach_trans; [exact Hp|by apply cy_reach_refl, Hp|lia].
Qed.

Lemma cy_spec_weaken {A} n k (m : P A) Q : spec n k m Q -> spec n 0 m Q.
Proof. intros H. eapply cy_spec_mono; [exact H|lia..|done]. Qed.

Lemma cy_spec_ret {A} n (a : A) (Q : A -> Prop) : Q a -> spec n 0 (mret a) Q.
Proof. intros Ha p Hg _. split; [done|]. by apply cy_reach_refl. Qed.

Lemma cy_spec_perr {A} n k message args (Q : A -> Prop) : spec n k (perr message args) Q.
Proof. done. Qed.

Lemma spec_unsupported {A} n k feature (Q : A -> Prop) : spec n k (unsupported feature) Q.
Proof. done. Qed.

Lemma cy_spec_bind {A B} n k k1 k2 (m : P A) (f : A -> P B) Q R :
  spec n k1 m Q -> (forall a, Q a -> spec (n - k1) k2 (f a) R) -> k <= k1 + k2 ->
  spec n k (m ≫= f) R.
Proof.
  intros Hm Hf Hk p Hg Hr. apply cy_wp_bind. eapply cy_wp_mono; [|by apply Hm].
  intros a p' [Ha Hp]. eapply cy_wp_mono; [|apply (Hf a Ha); [apply Hp|by eapply cy_reach_rem_lt]].
  intros b p'' [Hb Hp']. split; [done|]. by eapply cy_reach_trans.
Qed.

(** A step whose consumption does not matter, and a step that consumes the
    token the whole must consume. *)
Lemma cy_spec_then {A B} n k1 (m : P A) (f : A -> P B) Q R :
  spec n k1 m Q -> (forall a, Q a -> spec n 0 (f a) R) -> spec n 0 (m ≫= f) R.
Proof.
  intros Hm Hf. eapply cy_spec_bind with (k2 := 0); [exact Hm| |lia].
  intros a Ha. eapply cy_spec_mono; [by apply Hf|lia..|done].
Qed.

Lemma cy_spec_first {A B} n (m : P A) (f : A -> P B) Q R :
  spec n 1 m Q -> (forall a, Q a -> spec (n - 1) 0 (f a) R) -> spec n 1 (m ≫= f) R.
Proof. intros Hm Hf. eapply cy_spec_bind; [exact Hm|exact Hf|lia]. Qed.

Lemma cy_spec_fuel {A} n k (f : nat -> P A) Q :
  (forall fuel, spec (Nat.min n fuel) k (f fuel) Q) -> spec n k (with_fuel f) Q.
Proof. intros H p Hg Hr. apply (H (S (rem p))); [done|lia]. Qed.

Lemma cy_reach_advance p t : good p -> nth_error (toks p) (pos p) = Some t ->
  reach 1 p {| toks := toks p; pos := pos p + 1 |}.
Proof.
  intros [] Ht. assert (pos p < List.length (toks p)) by (apply nth_error_Some; congruence).
  split; simpl; try done. split; simpl; try done. lia.
Qed.

Lemma next_ok p t : good p -> nth_error (toks p) (pos p) = Some t -> tok_ok t.
Proof.
  intros [Hall _] Ht. rewrite Forall_forall in Hall. apply Hall, list_elem_of_In. by eapply nth_error_In.
Qed.

Lemma cy_spec_next_advance {B} t n k k1 (f : unit -> P B) R :
  spec (n - 1) k1 (f tt) R -> k <= S k1 -> spec_next t n k (advance 1 ≫= f) R.
Proof.
  intros Hf Hk p Hg Hr Ht. apply cy_wp_bind. unfold wp at 1, advance.
  pose proof (cy_reach_advance p t Hg Ht) as Hp.
  eapply cy_wp_mono; [|apply Hf; [apply Hp|by eapply cy_reach_rem_lt]].
  intros b p' [Hb Hp']. split; [done|]. eapply cy_reach_trans; [exact Hp|exact Hp'|lia].
Qed.

Lemma cy_spec_to_next {A} t n k (m : P A) Q : spec n k m Q -> spec_next t n k m Q.
Proof. intros H p Hg Hr _. by apply H. Qed.

Lemma cy_spec_peek {B} n k (f : option Tok -> P B) R :
  spec n k (f None) R -> (forall t, tok_ok t -> spec_next t n k (f (Some t)) R) ->
  spec n k (peek ≫= f) R.
Proof.
  intros Hn Hs p Hg Hr. apply cy_wp_bind. unfold wp at 1, peek.
  destruct (nth_error (toks p) (pos p)) as [t|] eqn:Ht; [|by apply Hn].
  apply (Hs t); try done. by eapply next_ok.
Qed.

(** When only the token itself matters. *)
Lemma spec_peeked {B} n k (f : option Tok -> P B) R :
  (forall o, spec n k (f o) R) -> spec n k (peek ≫= f) R.
Proof. intros H. apply cy_spec_peek; [done|]. intros t _. by apply cy_spec_to_next. Qed.

Lemma spec_peek_then n (Q : option Tok -> Prop) : (forall o, Q o) -> spec n 0 peek Q.
Proof. intros H p Hg Hr. split; [done|]. by apply cy_reach_refl. Qed.

Definition opt_ok (o : option Tok) : Prop := match o with Some t => tok_ok t | None => True end.

(** [bump] consumes a token when there is one. *)
Lemma cy_spec_bump {B} n k1 (f : option Tok -> P B) R :
  (forall t, tok_ok t -> spec (n - 1) k1 (f (Some t)) R) -> spec n 1 (f None) R -> spec n 1 (bump ≫= f) R.
Proof.
  intros Hs Hn p Hg Hr. apply cy_wp_bind. unfold bump. unfold wp at 1, mbind at 1, P_bind at 1, peek.
  destruct (nth_error (toks p) (pos p)) as [t|] eqn:Ht; [|by apply Hn].
  pose proof (cy_reach_advance p t Hg Ht) as Hp. simpl.
  eapply cy_wp_mono; [|apply (Hs t); [by eapply next_ok|apply Hp|by eapply cy_reach_rem_lt]].
  intros b p' [Hb Hp']. split; [done|]. eapply cy_reach_trans; [exact Hp|exact Hp'|lia].
Qed.

Lemma spec_next_bump {B} t n k k1 (f : option Tok -> P B) R :
  spec (n - 1) k1 (f (Some t)) R -> k <= S k1 -> spec_next t n k (bump ≫= f) R.
Proof.
  intros Hf Hk p Hg Hr Ht. apply cy_wp_bind. unfold bump. unfold wp at 1, mbind at 1, P_bind at 1, peek.
  rewrite Ht. simpl. pose proof (cy_reach_advance p t Hg Ht) as Hp.
  eapply cy_wp_mono; [|apply Hf; [apply Hp|by eapply cy_reach_rem_lt]].
  intros b p' [Hb Hp']. split; [done|]. eapply cy_reach_trans; [exact Hp|exact Hp'|lia].
Qed.

Lemma spec_bump_any n : spec n 0 bump opt_ok.
Proof.
  unfold bump. apply cy_spec_peek; [by apply cy_spec_ret|]. intros t Ht.
  eapply cy_spec_next_advance with (k1 := 0); [by apply cy_spec_ret|lia].
Qed.

(** Branching on a conditional step: the [true] branch has consumed a token. *)
Definition conditional (m : P bool) : Prop := forall p,
  (exists t, nth_error (toks p) (pos p) = Some t /\ m p = Ret (true, {| toks := toks p; pos := pos p + 1 |}))
  \/ m p = Ret (false, p).

Lemma eat_conditional t : conditional (eat t).
Proof.
  intros p. unfold eat, mbind, P_bind, peek.
  destruct (nth_error (toks p) (pos p)) as [t0|] eqn:E; [|by right].
  case_decide as Hd; [left; by exists t0|by right].
Qed.

Lemma eat_kw_conditional kw : conditional (eat_kw kw).
Proof.
  intros p. unfold eat_kw, mbind, P_bind, peek.
  destruct (nth_error (toks p) (pos p)) as [t0|] eqn:E; [|by right].
  destruct (is_kw kw (Some t0)); [left; by exists t0|by right].
Qed.

Lemma spec_if {B} n k k1 m (f : bool -> P B) R : conditional m ->
  spec (n - 1) k1 (f true) R -> spec n k (f false) R -> k <= S k1 -> spec n k (m ≫= f) R.
Proof.
  intros Hm Ht Hf Hk p Hg Hr. apply cy_wp_bind. unfold wp at 1.
  destruct (Hm p) as [(t & E & ->)| ->]; [|by apply Hf].
  pose proof (cy_reach_advance p t Hg E) as Hp.
  eapply cy_wp_mono; [|apply Ht; [apply Hp|by eapply cy_reach_rem_lt]].
  intros b p' [Hb Hp']. split; [done|]. eapply cy_reach_trans; [exact Hp|exact Hp'|lia].
Qed.

Lemma spec_conditional n m : conditional m -> spec n 0 m (fun _ => True).
Proof.
  intros Hm p Hg Hr. unfold wp. destruct (Hm p) as [(t & E & ->)| ->]; split; try done.
  - eapply cy_reach_trans; [by eapply cy_reach_advance|apply cy_reach_refl; by eapply cy_reach_advance|lia].
  - by apply cy_reach_refl.
Qed.

Lemma cy_spec_eat {B} n k k1 t (f : bool -> P B) R :
  spec (n - 1) k1 (f true) R -> spec n k (f false) R -> k <= S k1 -> spec n k (eat t ≫= f) R.
Proof. apply spec_if, eat_conditional. Qed.
Lemma spec_eat_kw {B} n k k1 kw (f : bool -> P B) R :
  spec (n - 1) k1 (f true) R -> spec n k (f false) R -> k <= S k1 -> spec n k (eat_kw kw ≫= f) R.
Proof. apply spec_if, eat_kw_conditional. Qed.

Lemma spec_must_eat n t message : spec n 1 (must_eat t message) (fun _ => True).
Proof. unfold must_eat. eapply cy_spec_eat with (k1 := 0); [by apply cy_spec_ret|apply cy_spec_perr|lia]. Qed.
Lemma spec_must_eat_kw n kw message : spec n 1 (must_eat_kw kw message) (fun _ => True).
Proof. unfold must_eat_kw. eapply spec_eat_kw with (k1 := 0); [by apply cy_spec_ret|apply cy_spec_perr|lia]. Qed.
Lemma spec_need n t feature : spec n 1 (need t feature) (fun _ => True).
Proof. unfold need. eapply cy_spec_eat with (k1 := 0); [by apply cy_spec_ret|apply spec_unsupported|lia]. Qed.

Lemma spec_expect_word n : spec n 1 expect_word is_word.
Proof.
  unfold expect_word. eapply cy_spec_bump with (k1 := 0); [|apply cy_spec_perr].
  intros t Ht. destruct t; try apply cy_spec_perr. by apply cy_spec_ret.
Qed.

Lemma spec_peek_kw n kw : spec n 0 (peek_kw kw) (fun _ => True).
Proof. unfold peek_kw. apply spec_peeked. intros o. by apply cy_spec_ret. Qed.
Lemma spec_peek_is n t : spec n 0 (peek_is t) (fun _ => True).
Proof. unfold peek_is. apply spec_peeked. intros o. by apply cy_spec_ret. Qed.

Lemma cy_spec_comma_loop {A} (item : P A) (Q : A -> Prop) n fuel v :
  (forall n, spec n 1 item Q) -> Forall Q v ->
  spec (Nat.min n fuel) 1 (comma_loop item v fuel) (fun l => Forall Q l /\ l <> []).
Proof.
  intros Hi. revert n v. induction fuel as [|fuel IH]; intros n v Hv; [by intros p Hg Hr; lia|].
  cbn [comma_loop]. eapply cy_spec_first; [apply Hi|]. intros x Hx.
  assert (Forall Q (v ++ [x])%list) by (apply Forall_app; auto).
  eapply cy_spec_eat with (k1 := 0); [|apply cy_spec_ret; split; [done|by destruct v]|lia].
  eapply cy_spec_mono; [by apply (IH n)|lia..|done].
Qed.

Lemma cy_spec_comma_list {A} (item : P A) (Q : A -> Prop) n :
  (forall n, spec n 1 item Q) -> spec n 1 (comma_list item) (fun l => Forall Q l /\ l <> []).
Proof. intros Hi. unfold comma_list. apply cy_spec_fuel. intros fuel. by apply cy_spec_comma_loop. Qed.

Definition opt_prop {A} (Q : A -> Prop) (o : option A) : Prop := match o with Some a => Q a | None => True end.

Arguments opt_prop : simpl never.

Lemma spec_opt_alias n : spec n 0 opt_alias (opt_prop is_word).
Proof.
  unfold opt_alias. eapply spec_eat_kw with (k1 := 0); [|by apply cy_spec_ret|lia].
  eapply cy_spec_then; [apply spec_expect_word|]. intros w Hw. by apply cy_spec_ret.
Qed.
Lemma spec_opt_label n : spec n 0 opt_label (opt_prop is_word).
Proof.
  unfold opt_label. eapply cy_spec_eat with (k1 := 0); [|by apply cy_spec_ret|lia].
  eapply cy_spec_then; [apply spec_expect_word|]. intros w Hw. by apply cy_spec_ret.
Qed.

(** * What the Cypher parser returns

    The shape of parsed queries ([query_ok]) and write plans, and that every
    parsing function terminates without panic and returns that shape. *)

(** ** Shapes *)

Definition node_ok (n : NodePat) : Prop := is_word (node_var n) /\ opt_prop is_word (label n).

Definition range_ok (r : N * N) : Prop := (1 <= r.2 /\ r.1 <= r.2)%N.

Record rel_ok (r : RelPat) : Prop := {
  rel_ok_var : is_word (rel_var r);
  rel_ok_type : opt_prop is_word (rel_type r);
  rel_ok_range : opt_prop range_ok (var_length r);
}.

(** A path [n0 -r0- n1 .. -rk- nk+1] with at least one relationship. *)
Record chain_ok (ns : list NodePat) (rs : list RelPat) : Prop := {
  chain_nodes : Forall node_ok ns;
  chain_rels : Forall rel_ok rs;
  chain_length : List.length ns = S (List.length rs);
  chain_nonempty : rs <> [];
}.

Definition segment_ok (s : Segment) : Prop := chain_ok (seg_nodes s) (seg_rels s).

(** The texts of literals, of IN lists and of the right-hand side of an operator. *)
Definition lit_text (s : string) : Prop :=
  (exists x, is_text x /\ s = quote_literal x) \/ is_num s.
Definition list_text (s : string) : Prop :=
  exists l, l <> [] /\ Forall lit_text l /\ s = fmt ["("; join ", " l; ")"].

Definition rhs_ok (o : CmpOp) (s : string) : Prop :=
  match o with
  | In => list_text s
  | IsNull | IsNotNull => s = ""
  | _ => lit_text s
  end.

Definition cmp_ok (c : Comparison) : Prop :=
  is_word (cmp_var c) /\ is_word (cmp_prop c) /\ rhs_ok (op c) (literal c).

(** A WHERE tree: a connective joins at least two terms. *)
Inductive where_ok : WhereExpr -> Prop :=
  | ok_cmp c : cmp_ok c -> where_ok (Cmp c)
  | ok_not e : where_ok e -> where_ok (Not e)
  | ok_and ts : 2 <= List.length ts -> Forall where_ok ts -> where_ok (And ts)
  | ok_or ts : 2 <= List.length ts -> Forall where_ok ts -> where_ok (Or ts).

Definition leaf_ok (x : string * string) : Prop := is_word x.1 /\ is_word x.2.

Definition target_ok (func : string) (t : AggTarget) : Prop :=
  match t with
  | AggStar => func = "count"
  | AggVar v => func = "count" /\ is_word v
  | AggProp v p => is_word v /\ is_word p
  end.

Definition item_ok (i : ReturnItem) : Prop :=
  match i with
  | RProp v p a => is_word v /\ is_word p /\ opt_prop is_word a
  | RVar v => is_word v
  | PathLength v a => is_word v /\ opt_prop is_word a
  | Aggregate f t a => f ∈ AGGREGATES /\ target_ok f t /\ opt_prop is_word a
  | RExpr _ leaves a => Forall leaf_ok leaves /\ leaves <> [] /\ is_word a
  end.

Definition limit_ok (n : Z) : Prop := (0 <= n < 2 ^ 63)%Z.

Definition having_ok (h : string * CmpOp * string) : Prop :=
  is_word h.1.1 /\ h.1.2 ∈ [OpEq; OpNe; OpLt; OpGt; OpLe; OpGe] /\ lit_text h.2.

Record with_ok (wc : WithClause) : Prop := {
  with_having : Forall having_ok (having wc);
  with_cols : Forall is_word (ret_cols wc) /\ ret_cols wc <> [];
  with_order : Forall (fun x => is_word x.1) (wc_order_by wc);
  with_limit : opt_prop limit_ok (wc_limit wc);
}.

Record query_ok (q : Query) : Prop := {
  ok_chain : chain_ok (nodes q) (rels q);
  ok_segments : Forall segment_ok (extra_segments q);
  ok_preds : Forall cmp_ok (where_preds q);
  ok_tree : opt_prop (fun e => where_ok e /\ where_preds q = [] /\ where_or q = false) (where_tree q);
  ok_returns : Forall item_ok (returns q) /\ returns q <> [];
  ok_limit : opt_prop limit_ok (limit q);
  ok_path : opt_prop (fun v => is_word v /\ extra_segments q = []) (shortest_path q);
  ok_order : Forall (fun x => leaf_ok x.1) (order_by q);
  ok_with : opt_prop (fun wc => with_ok wc /\ distinct q = false /\ order_by q = [] /\ limit q = None) (with_clause q);
}.

(** ** Words are closed under the flat naming *)

Lemma word_char_ascii c : word_char c = true -> (c < 128)%N.
Proof.
  unfold word_char, is_ascii_alphanumeric, is_ascii_alphabetic, is_ascii_digit. change (ch "_") with 95%N.
  repeat (rewrite ?orb_true_iff, ?andb_true_iff, ?N.leb_le, ?N.eqb_eq). lia.
Qed.

Lemma flat_chars l1 l2 : flat (of_chars l1) (of_chars l2) = of_chars (l1 ++ ch "_" :: l2).
Proof. by rewrite of_chars_app. Qed.

Lemma word_shape_app l1 l2 : word_shape l1 -> Forall (fun c => word_char c = true) l2 -> word_shape (l1 ++ l2).
Proof.
  intros (c & l & -> & Hc & H1) H2. exists c, (l ++ l2)%list. split_and!; [done..|]. by apply Forall_app.
Qed.

Lemma is_word_flat v p : is_word v -> is_word p -> is_word (flat v p).
Proof.
  intros (l1 & -> & H1) (l2 & -> & H2). exists (l1 ++ ch "_" :: l2)%list. split; [apply flat_chars|].
  apply word_shape_app; [done|]. constructor; [done|]. by destruct H2 as (? & ? & -> & _ & ?).
Qed.

Lemma is_word_r : is_word "r".
Proof. exists [ch "r"]. split; [done|]. exists (ch "r"), []. split_and!; [done..|]. by constructor. Qed.

Lemma is_word_aggregate f : f ∈ AGGREGATES -> is_word f.
Proof.
  assert (forall l, word_shape l -> is_word (of_chars l)) as H by (intros l ?; by exists l).
  unfold AGGREGATES. intros Hf.
  repeat (apply elem_of_cons in Hf as [->|Hf];
    [match goal with |- is_word ?s => apply (H (map ch (as_bytes s))) end;
     eexists _, _; split_and!; [done|done|by repeat constructor]|]).
  by apply elem_of_nil in Hf.
Qed.

(** ** Automation: one step of the program logic *)

Create HintDb cyp discriminated.
#[export] Hint Resolve spec_must_eat spec_must_eat_kw spec_need spec_expect_word spec_peek_kw spec_peek_is
  spec_opt_alias spec_opt_label spec_bump_any : cyp.
#[export] Hint Extern 2 (spec _ 0 _ _) => eapply cy_spec_weaken : cyp.
#[export] Hint Extern 1 (spec _ 0 (eat _) _) => apply spec_conditional, eat_conditional : cyp.
#[export] Hint Extern 1 (spec _ 0 (eat_kw _) _) => apply spec_conditional, eat_kw_conditional : cyp.

(** A last step. *)
Lemma spec_last {A} n k (m : P A) (Q R : A -> Prop) : spec n k m Q -> (forall a, Q a -> R a) -> spec n k m R.
Proof. intros H HQ. by eapply cy_spec_mono; [exact H|lia..|]. Qed.

Ltac cstep :=
  lazymatch goal with
  | |- spec _ 0 (mret _) _ => apply cy_spec_ret
  | |- spec _ _ (perr _ _) _ => apply cy_spec_perr
  | |- spec _ _ (unsupported _) _ => apply spec_unsupported
  | |- spec _ _ (eat _ ≫= _) _ => eapply cy_spec_eat with (k1 := 0); [| |lia]
  | |- spec _ _ (eat_kw _ ≫= _) _ => eapply spec_eat_kw with (k1 := 0); [| |lia]
  | |- spec _ _ (peek ≫= _) _ => apply spec_peeked; intros ?
  | |- spec _ 1 (_ ≫= _) _ => eapply cy_spec_first; [solve [eauto 3 with cyp]|intros ? ?]
  | |- spec _ 0 (_ ≫= _) _ => eapply cy_spec_then; [solve [eauto 3 with cyp]|intros ? ?]
  | |- spec _ _ (let '(_, _) := ?x in _) _ => destruct x
  | |- spec _ _ (match ?x with _ => _ end) _ => destruct x eqn:?
  | |- spec _ _ _ _ => eapply spec_last; [solve [eauto 3 with cyp]|intros ? ?]
  end; cbn [fst snd negb] in *.
Ltac csteps := repeat cstep.

(** ** Patterns *)

Lemma spec_node n : spec n 1 parse_node node_ok.
Proof. unfold parse_node. csteps. split; simpl; done. Qed.

Lemma spec_bound n s : spec n 0 (parse_bound s) (fun _ => True).
Proof. unfold parse_bound. csteps; done. Qed.
#[export] Hint Resolve spec_node spec_bound : cyp.

Lemma spec_range n : spec n 0 parse_range (fun _ => True).
Proof.
  assert (forall s x m, spec m 0 (if decide (s = "") then mret x else parse_bound s) (fun _ => True)) as Hd.
  { intros s x m. case_decide; [by apply cy_spec_ret|apply spec_bound]. }
  unfold parse_range. csteps; try done.
Qed.
#[export] Hint Resolve spec_range : cyp.

Lemma spec_var_length n : spec n 0 parse_var_length (opt_prop range_ok).
Proof.
  unfold parse_var_length. csteps; try done. split; simpl.
  - apply N.eqb_neq in Heqb. lia.
  - by apply N.ltb_ge in Heqb0.
Qed.

Lemma cy_spec_direction n a b : spec n 0 (direction_of a b) (fun _ => True).
Proof. unfold direction_of. csteps; done. Qed.

Lemma spec_eat_either {A} n (a : Tok) (x : A) b y message : spec n 1 (eat_either a x b y message) (fun _ => True).
Proof. unfold eat_either. csteps; done. Qed.
#[export] Hint Resolve spec_var_length cy_spec_direction spec_eat_either : cyp.

Lemma spec_rel n : spec n 1 parse_rel rel_ok.
Proof.
  unfold parse_rel. cstep. cstep. cstep.
  eapply cy_spec_then with (Q := is_word).
  - destruct o as [[]|]; try (apply cy_spec_ret, is_word_r). by eapply cy_spec_weaken, spec_expect_word.
  - intros v Hv. csteps. split; simpl; done.
Qed.
#[export] Hint Resolve spec_rel : cyp.

Lemma spec_chain_loop n fuel ns rs :
  Forall node_ok ns -> Forall rel_ok rs -> List.length ns = S (List.length rs) ->
  spec (Nat.min n fuel) 1 (chain_loop ns rs fuel) (fun x => chain_ok x.1 x.2).
Proof.
  revert n ns rs. induction fuel as [|fuel IH]; intros n ns rs Hns Hrs Hl; [by intros p Hg Hr; lia|].
  cbn [chain_loop]. cstep. cstep. rename a into r, a0 into nd.
  assert (Forall node_ok (ns ++ [nd])%list) by (apply Forall_app; auto).
  assert (Forall rel_ok (rs ++ [r])%list) by (apply Forall_app; auto).
  assert (List.length (ns ++ [nd])%list = S (List.length (rs ++ [r])%list)) by (rewrite !length_app; simpl; lia).
  cstep. cstep.
  - eapply cy_spec_mono; [by apply (IH n)|lia..|done].
  - cstep. split; try done. by destruct rs.
Qed.

Lemma spec_chain n : spec n 1 parse_chain (fun x => chain_ok x.1 x.2).
Proof.
  unfold parse_chain. cstep. apply cy_spec_fuel. intros fuel.
  eapply cy_spec_weaken, spec_chain_loop; [auto|constructor|done].
Qed.
#[export] Hint Resolve spec_chain : cyp.

(** ** Literals and comparisons *)

Lemma spec_literal n : spec n 1 parse_literal lit_text.
Proof.
  unfold parse_literal. eapply cy_spec_bump with (k1 := 0); [|apply cy_spec_perr].
  intros t Ht. destruct t; try apply cy_spec_perr; apply cy_spec_ret; [left; eauto|by right].
Qed.
#[export] Hint Resolve spec_literal : cyp.

Lemma spec_in_list n : spec n 1 parse_in_list list_text.
Proof.
  unfold parse_in_list. cstep.
  eapply cy_spec_then; [by apply cy_spec_comma_list, spec_literal|]. intros l [Hl Hne]. csteps. by exists l.
Qed.

Lemma spec_bump_scalar n message : spec n 0 (bump_scalar_op message)
  (fun o => o ∈ [OpEq; OpNe; OpLt; OpGt; OpLe; OpGe]).
Proof.
  unfold bump_scalar_op. cstep. cstep; [|cstep]. apply cy_spec_ret.
  destruct a as [[]|]; simpl in *; simplify_eq; set_solver.
Qed.
#[export] Hint Resolve spec_in_list spec_bump_scalar : cyp.

Lemma spec_op_literal n : spec n 0 parse_op_literal (fun x => rhs_ok x.1 x.2).
Proof.
  unfold parse_op_literal. csteps; try done.
  all: repeat match goal with H : _ ∈ _ :: _ |- _ => apply elem_of_cons in H as [->|H] end; try done.
  by apply elem_of_nil in H.
Qed.
#[export] Hint Resolve spec_op_literal : cyp.

Lemma cy_spec_comparison n : spec n 1 parse_comparison cmp_ok.
Proof. unfold parse_comparison. csteps. split_and!; simpl; done. Qed.
#[export] Hint Resolve cy_spec_comparison : cyp.

(** ** WHERE

    The recursive call is known to work on parsers with fewer than [m] tokens. *)

Lemma spec_terms_loop kw sub terms n fuel :
  spec (Nat.min n fuel) 1 sub where_ok -> Forall where_ok terms ->
  spec (Nat.min n fuel) 0 (terms_loop kw sub terms fuel)
    (fun ts => Forall where_ok ts /\ List.length terms <= List.length ts).
Proof.
  intros Hsub. revert terms. 
  assert (forall f m terms, m <= Nat.min n fuel -> m <= f -> Forall where_ok terms ->
    spec m 0 (terms_loop kw sub terms f) (fun ts => Forall where_ok ts /\ List.length terms <= List.length ts)) as H.
  { induction f as [|f IH]; intros m terms Hm Hf Hts; [by intros p Hg Hr; lia|].
    cbn [terms_loop]. cstep; [|by cstep].
    eapply cy_spec_bind with (k1 := 1) (k2 := 0); [eapply cy_spec_mono; [exact Hsub|lia..|done]| |lia].
    intros t Ht. eapply spec_last; [apply IH; [lia|lia|apply Forall_app; auto]|].
    intros ts [Hall Hl]. split; [done|]. rewrite length_app in Hl. lia. }
  intros terms Hts. apply H; [lia|lia|done].
Qed.

Lemma spec_terms kw sub node n :
  spec n 1 sub where_ok -> (forall ts, 2 <= List.length ts -> Forall where_ok ts -> where_ok (node ts)) ->
  spec n 1 (parse_terms kw sub node) where_ok.
Proof.
  intros Hsub Hnode. unfold parse_terms. eapply cy_spec_first; [exact Hsub|]. intros t Ht.
  eapply cy_spec_then.
  - apply cy_spec_fuel. intros fuel. apply spec_terms_loop; [|by constructor].
    eapply cy_spec_mono; [exact Hsub|lia..|done].
  - intros ts [Hall Hl]. destruct ts as [|t1 [|t2 ts]]; [simpl in Hl; lia| |]; apply cy_spec_ret.
    + by inversion Hall.
    + apply Hnode; [simpl; lia|done].
Qed.

Section where_specs.
Variables (rec : P WhereExpr) (m : nat).
Hypothesis Hrec : forall n, n <= m -> spec n 1 rec where_ok.

Lemma cy_spec_atom n : n <= S m -> spec n 1 (parse_atom_expr rec) where_ok.
Proof using Hrec.
  intros Hn. unfold parse_atom_expr. cstep.
  - eapply cy_spec_then; [apply Hrec; lia|]. intros inner Hi. csteps. done.
  - csteps. by apply ok_cmp.
Qed.

Lemma cy_spec_not n : n <= S m -> spec n 1 (parse_not_expr rec) where_ok.
Proof using Hrec.
  intros Hn. unfold parse_not_expr. apply cy_spec_fuel. intros fuel.
  assert (forall f k, k <= S m -> k <= f -> spec k 1 (parse_not_loop rec f) where_ok) as H; [|apply H; lia].
  induction f as [|f IH]; intros k Hk Hf; [by intros p Hg Hr; lia|].
  cbn [parse_not_loop]. cstep; [|by apply cy_spec_atom].
  eapply cy_spec_then; [apply IH; lia|]. intros e He. apply cy_spec_ret. by apply ok_not.
Qed.

Lemma cy_spec_and n : n <= S m -> spec n 1 (parse_and_expr rec) where_ok.
Proof using Hrec. intros Hn. apply spec_terms; [by apply cy_spec_not|apply ok_and]. Qed.
End where_specs.

Lemma spec_or_fuel fuel n : n <= fuel -> spec n 1 (parse_or_fuel fuel) where_ok.
Proof.
  revert n. induction fuel as [|fuel IH]; intros n Hn; [by intros p Hg Hr; lia|].
  cbn [parse_or_fuel]. apply spec_terms; [|apply ok_or]. by eapply cy_spec_and.
Qed.

Lemma spec_where_expr n : spec n 1 parse_where_expr where_ok.
Proof. unfold parse_where_expr, parse_or_expr. apply cy_spec_fuel. intros fuel. apply spec_or_fuel. lia. Qed.
#[export] Hint Resolve spec_where_expr : cyp.

(** ** Arithmetic *)

(** The leaves grow, and are properties. *)
Definition grows (ls : leaves_t) (x : string * leaves_t) : Prop :=
  Forall leaf_ok x.2 /\ List.length ls <= List.length x.2.

Lemma grows_mono ls ls' x : grows ls' x -> List.length ls <= List.length ls' -> grows ls x.
Proof. intros [H Hl] Hle. split; [done|lia]. Qed.

Lemma spec_arith_loop op_of sub b :
  (forall n ls, n <= b -> Forall leaf_ok ls -> spec n 1 (sub ls) (grows ls)) ->
  forall f n e ls, n <= b -> n <= f -> Forall leaf_ok ls -> op_of None = None ->
  spec n 0 (arith_loop op_of sub e ls f) (grows ls).
Proof.
  intros Hsub. induction f as [|f IH]; intros n e ls Hn Hf Hls Hnone; [by intros p Hg Hr; lia|].
  cbn [arith_loop]. apply cy_spec_peek; [rewrite Hnone; by apply cy_spec_ret|]. intros t Ht.
  destruct (op_of (Some t)) as [op|]; [|apply cy_spec_to_next; by apply cy_spec_ret].
  eapply spec_next_bump with (k1 := 0); [|lia].
  eapply cy_spec_then; [apply Hsub; [lia|done]|]. intros [r ls'] [Hls' Hl]. cbn [fst snd] in *.
  eapply spec_last; [apply IH; [lia..|done|done]|]. intros x Hx. by eapply grows_mono.
Qed.

Section arith_specs.
Variables (rec : leaves_t -> P (string * leaves_t)) (m : nat).
Hypothesis Hrec : forall n ls, n <= m -> Forall leaf_ok ls -> spec n 1 (rec ls) (grows ls).

Lemma spec_ret_atom n ls : n <= S m -> Forall leaf_ok ls -> spec n 1 (parse_ret_atom rec ls) (grows ls).
Proof using Hrec.
  intros Hn Hls. unfold parse_ret_atom. apply cy_spec_peek; [apply cy_spec_perr|].
  intros t Ht. destruct t; try apply cy_spec_to_next, cy_spec_perr.
  - apply cy_spec_to_next. csteps. split; simpl; [apply Forall_app; by repeat constructor|rewrite length_app; lia].
  - eapply spec_next_bump with (k1 := 0); [by apply cy_spec_ret|lia].
  - eapply spec_next_bump with (k1 := 0); [|lia].
    eapply cy_spec_then; [apply Hrec; [lia|done]|]. intros [e ls'] Hx. csteps. done.
Qed.

Lemma spec_ret_mul_after n e ls : n <= S m -> Forall leaf_ok ls ->
  spec n 0 (parse_ret_mul_after rec e ls) (grows ls).
Proof using Hrec.
  intros Hn Hls. unfold parse_ret_mul_after. apply cy_spec_fuel. intros fuel.
  eapply spec_arith_loop with (b := n); [|lia|lia|done|done].
  intros k l Hk Hl. apply spec_ret_atom; [lia|done].
Qed.

Lemma spec_ret_mul n ls : n <= S m -> Forall leaf_ok ls -> spec n 1 (parse_ret_mul rec ls) (grows ls).
Proof using Hrec.
  intros Hn Hls. unfold parse_ret_mul. eapply cy_spec_first; [by apply spec_ret_atom|].
  intros [e ls'] [Hls' Hl]. eapply spec_last; [apply spec_ret_mul_after; [lia|done]|].
  intros x Hx. by eapply grows_mono.
Qed.

Lemma spec_ret_arith_after n e ls : n <= S m -> Forall leaf_ok ls ->
  spec n 0 (parse_ret_arith_after rec e ls) (grows ls).
Proof using Hrec.
  intros Hn Hls. unfold parse_ret_arith_after. eapply cy_spec_then; [by apply spec_ret_mul_after|].
  intros [e' ls'] [Hls' Hl]. cbn [fst snd] in *. eapply spec_last.
  - apply cy_spec_fuel. intros fuel. eapply spec_arith_loop with (b := n); [|lia|lia|done|done].
    intros k l Hk Hl'. apply spec_ret_mul; [lia|done].
  - intros x Hx. by eapply grows_mono.
Qed.
End arith_specs.

Lemma spec_ret_arith_fuel fuel n ls : n <= fuel -> Forall leaf_ok ls ->
  spec n 1 (parse_ret_arith_fuel fuel ls) (grows ls).
Proof.
  revert n ls. induction fuel as [|fuel IH]; intros n ls Hn Hls; [by intros p Hg Hr; lia|].
  cbn [parse_ret_arith_fuel]. eapply cy_spec_first; [by eapply spec_ret_mul|].
  intros [e ls'] [Hls' Hl]. eapply spec_last; [eapply spec_ret_arith_after; [exact IH|lia|done]|].
  intros x Hx. by eapply grows_mono.
Qed.

Lemma spec_ret_arith n ls : Forall leaf_ok ls -> spec n 1 (parse_ret_arith ls) (grows ls).
Proof. intros Hls. unfold parse_ret_arith. apply cy_spec_fuel. intros fuel. apply spec_ret_arith_fuel; [lia|done]. Qed.

(** ** RETURN *)

Lemma spec_path_length n : spec n 0 parse_path_length item_ok.
Proof. unfold parse_path_length. csteps; done. Qed.

Lemma spec_agg_target n : spec n 0 parse_agg_target
  (fun t => match t with AggStar => True | AggVar v => is_word v | AggProp v p => is_word v /\ is_word p end).
Proof. unfold parse_agg_target. csteps; done. Qed.
#[export] Hint Resolve spec_path_length spec_agg_target : cyp.

Lemma spec_aggregate n lf : lf ∈ AGGREGATES -> spec n 0 (parse_aggregate lf) item_ok.
Proof.
  intros Hlf. unfold parse_aggregate. csteps; simpl in *; split_and!; try done.
  all: match goal with H : _ && _ = false |- _ => apply andb_false_iff in H as [Hc|Hc] end;
    apply negb_false_iff in Hc; [apply bool_decide_eq_true in Hc as ->|]; by destruct a.
Qed.

Lemma spec_prop_item n var : is_word var -> spec n 0 (parse_prop_item var) item_ok.
Proof.
  intros Hv. unfold parse_prop_item. cstep. rename a into prop. cstep. cstep.
  - assert (Forall leaf_ok [(var, prop)]) as Hls by by repeat constructor.
    eapply cy_spec_then; [eapply spec_ret_arith_after with (m := n - 1); [|lia|exact Hls]|].
    { intros k ls _ Hk. by apply spec_ret_arith. }
    intros [e ls] [Hl Hlen]. csteps. simpl in *. split_and!; [done| |done]. destruct ls; [simpl in Hlen; lia|done].
  - csteps. done.
Qed.

Lemma spec_return_item n : spec n 1 parse_return_item item_ok.
Proof.
  unfold parse_return_item. cstep. cstep. cstep; [cstep; done|]. cstep.
  { apply andb_prop in Heqb0 as [Hin%bool_decide_eq_true _]. by apply spec_aggregate. }
  cstep; [cstep|]. cstep; [by apply spec_prop_item|]. csteps. done.
Qed.
#[export] Hint Resolve spec_return_item : cyp.

Lemma spec_return n : spec n 1 parse_return (fun l => Forall item_ok l /\ l <> []).
Proof.
  unfold parse_return. eapply cy_spec_bind with (k1 := 0) (k2 := 1); [apply spec_peek_is| |lia].
  intros b _. destruct b; [apply spec_unsupported|]. apply cy_spec_comma_list, spec_return_item.
Qed.

Lemma digits_value_bound s n v : parse_bounded s n = Some v -> (v < s)%N.
Proof.
  unfold parse_bounded. destruct n; [done|]. destruct (digits_value _ _) as [x|]; [|done]. simpl.
  destruct (N.ltb_spec x s); [|done]. by intros [= <-].
Qed.

Lemma spec_limit n : spec n 0 parse_limit limit_ok.
Proof.
  unfold parse_limit. cstep. csteps. unfold parse_i64 in *.
  destruct (parse_bounded _ _) as [v|] eqn:E; simpl in *; simplify_eq.
  apply digits_value_bound in E. unfold limit_ok. change (2 ^ 63)%Z with (Z.of_N (2 ^ 63)). lia.
Qed.
#[export] Hint Resolve spec_return spec_limit : cyp.

Lemma spec_opt_limit n : spec n 0 opt_limit (opt_prop limit_ok).
Proof. unfold opt_limit. csteps; done. Qed.

Lemma cy_spec_desc n : spec n 0 parse_desc (fun _ => True).
Proof. unfold parse_desc. csteps; done. Qed.
#[export] Hint Resolve spec_opt_limit cy_spec_desc : cyp.

Lemma spec_order_item n : spec n 1 order_item (fun x => leaf_ok x.1).
Proof. unfold order_item. csteps. done. Qed.

Lemma spec_opt_order n : spec n 0 (opt_order_by order_item) (Forall (fun x => leaf_ok x.1)).
Proof.
  unfold opt_order_by. cstep; [|by cstep]. cstep.
  eapply cy_spec_weaken, spec_last; [apply cy_spec_comma_list, spec_order_item|]. by intros l [? _].
Qed.
#[export] Hint Resolve spec_opt_order : cyp.

(** ** WITH *)

(** The columns a scope can resolve to are words. *)
Record scope_ok (sc : WithScope) : Prop := {
  scope_items : Forall item_ok (items sc) /\ items sc <> [];
  scope_keys : Forall (fun x => is_word x.2) (keys sc);
  scope_aggs : Forall is_word (aggs sc);
}.

Lemma spec_classify n its sc :
  Forall item_ok its -> scope_ok sc -> spec n 0 (classify its sc) scope_ok.
Proof.
  intros Hits. revert sc. induction Hits as [|it its Hit Hits IH]; intros sc Hsc; cbn [classify]; [by apply cy_spec_ret|].
  eapply cy_spec_then; [|intros sc' Hsc'; by apply IH]. destruct Hsc.
  destruct it as [v p [a|]|v|v a|f t a|e ls a]; try apply spec_unsupported; apply cy_spec_ret; split; simpl in *; try done.
  - apply Forall_app. split; [done|]. constructor; [|done]. destruct Hit as (? & ? & _). by apply is_word_flat.
  - apply Forall_app. split; [done|]. constructor; [|done].
    destruct Hit as (Hf & _ & Ha). destruct a; simpl; [done|by apply is_word_aggregate].
Qed.

Lemma spec_with_scope n its : Forall item_ok its -> its <> [] -> spec n 0 (with_scope its) scope_ok.
Proof.
  intros Hits Hne. unfold with_scope. eapply cy_spec_then; [apply spec_classify; [done|]|].
  - by split.
  - intros sc Hsc. destruct its; [done|]. simpl. by apply cy_spec_ret.
Qed.

Lemma find_key_ok key sc col : scope_ok sc -> find_key key sc = Some col -> is_word col.
Proof.
  intros [_ Hk _]. unfold find_key. destruct (List.find _ _) as [x|] eqn:E; [|done]. intros [= <-].
  apply find_some in E as [Hx _]. rewrite Forall_forall in Hk. apply Hk. by apply list_elem_of_In.
Qed.

Lemma spec_with_ref n sc : scope_ok sc ->
  spec n 1 (resolve_with_ref sc) (fun x => is_word x.1 /\ scope_ok x.2).
Proof.
  intros Hsc. unfold resolve_with_ref. cstep. rename a into w. cstep.
  - cstep. rename a into p. destruct (find_key _ _) eqn:E.
    + apply cy_spec_ret. split; [exact (find_key_ok _ _ _ Hsc E)|done].
    + destruct (decide _); [|apply cy_spec_perr]. apply cy_spec_ret. simpl. split; [by apply is_word_flat|].
      destruct Hsc as [[H1 H1'] H2 H3]. split; simpl; [split; [|by destruct (items sc)]| |done]; apply Forall_app.
      * split; [done|]. by repeat constructor.
      * split; [done|]. constructor; [|done]. by apply is_word_flat.
  - destruct (decide _) as [Hin|]; [|apply cy_spec_perr]. by apply cy_spec_ret.
Qed.

Lemma spec_having_item n sc : scope_ok sc ->
  spec n 1 (having_item sc) (fun x => having_ok x.1 /\ scope_ok x.2).
Proof.
  intros Hsc. unfold having_item. eapply cy_spec_first; [by apply spec_with_ref|].
  intros [col sc'] [Hc Hs]. csteps. by split.
Qed.

Lemma spec_having_loop f : forall n hs sa so sc, n <= f -> Forall having_ok hs -> scope_ok sc ->
  spec n 0 (having_loop hs sa so sc f) (fun x => Forall having_ok x.1.1.1 /\ scope_ok x.2).
Proof.
  induction f as [|f IH]; intros n hs sa so sc Hn Hhs Hsc; [by intros p Hg Hr; lia|].
  cbn [having_loop]. eapply cy_spec_bind with (k1 := 1) (k2 := 0); [by apply spec_having_item| |lia].
  intros [h sc'] [Hh Hsc']. cbn [fst snd] in *.
  assert (Forall having_ok (hs ++ [h])%list) by (apply Forall_app; auto).
  cstep; [apply IH; [lia|done..]|]. cstep; [apply IH; [lia|done..]|]. by apply cy_spec_ret.
Qed.

Lemma spec_having n sc : scope_ok sc ->
  spec n 0 (parse_having sc) (fun x => Forall having_ok x.1.1 /\ scope_ok x.2).
Proof.
  intros Hsc. unfold parse_having. cstep; [|by apply cy_spec_ret].
  eapply cy_spec_then; [apply cy_spec_fuel; intros fuel; apply spec_having_loop; [lia|constructor|done]|].
  intros [[[hs sa] so] sc'] [Hh Hs]. cstep; [apply spec_unsupported|]. by apply cy_spec_ret.
Qed.

Lemma spec_scoped_loop {A} (item : WithScope -> P (A * WithScope)) (Q : A -> Prop) f :
  (forall n sc, scope_ok sc -> spec n 1 (item sc) (fun x => Q x.1 /\ scope_ok x.2)) ->
  forall n v sc, n <= f -> Forall Q v -> scope_ok sc ->
  spec n 0 (scoped_loop item v sc f) (fun x => (Forall Q x.1 /\ x.1 <> []) /\ scope_ok x.2).
Proof.
  intros Hi. induction f as [|f IH]; intros n v sc Hn Hv Hsc; [by intros p Hg Hr; lia|].
  cbn [scoped_loop]. eapply cy_spec_bind with (k1 := 1) (k2 := 0); [by apply Hi| |lia].
  intros [x sc'] [Hx Hsc']. cbn [fst snd] in *.
  assert (Forall Q (v ++ [x])%list) by (apply Forall_app; auto).
  cstep; [apply IH; [lia|done..]|]. apply cy_spec_ret. simpl. split_and!; try done. by destruct v.
Qed.

Lemma spec_scoped_list {A} (item : WithScope -> P (A * WithScope)) (Q : A -> Prop) n sc :
  (forall n sc, scope_ok sc -> spec n 1 (item sc) (fun x => Q x.1 /\ scope_ok x.2)) -> scope_ok sc ->
  spec n 0 (scoped_list item sc) (fun x => (Forall Q x.1 /\ x.1 <> []) /\ scope_ok x.2).
Proof.
  intros Hi Hsc. apply cy_spec_fuel. intros fuel. apply spec_scoped_loop; [done|lia|constructor|done].
Qed.

Lemma spec_with_order n sc : scope_ok sc ->
  spec n 0 (with_order_by sc) (fun x => Forall (fun y => is_word y.1) x.1 /\ scope_ok x.2).
Proof.
  intros Hsc. unfold with_order_by. cstep; [|by apply cy_spec_ret]. cstep.
  eapply spec_last; [apply (spec_scoped_list with_order_item (fun y => is_word y.1)); [|done]|].
  - intros k sc' Hsc'. unfold with_order_item. eapply cy_spec_first; [by apply spec_with_ref|].
    intros [col sc2] [Hc Hs]. csteps. done.
  - by intros x [[? _] ?].
Qed.

Lemma spec_with_tail n :
  spec n 1 parse_with_tail (fun x => (Forall item_ok x.1 /\ x.1 <> []) /\ with_ok x.2).
Proof.
  unfold parse_with_tail. eapply cy_spec_first; [apply spec_return|]. intros its [Hits Hne].
  eapply cy_spec_then; [by apply spec_with_scope|]. intros sc Hsc.
  eapply cy_spec_then; [by apply spec_having|]. intros [[hs hor] sc1] [Hhs Hsc1]. cbn [fst snd] in *.
  cstep. eapply cy_spec_then; [apply spec_conditional, eat_kw_conditional|]. intros d _.
  eapply cy_spec_then; [by apply (spec_scoped_list _ is_word); [intros; apply spec_with_ref|]|].
  intros [cols sc2] [[Hcols Hcne] Hsc2]. cbn [fst snd] in *.
  eapply cy_spec_then; [by apply spec_with_order|]. intros [ob sc3] [Hob Hsc3]. cbn [fst snd] in *.
  csteps. split; [apply Hsc3|by split].
Qed.
#[export] Hint Resolve spec_with_tail : cyp.

(** ** MATCH *)

Lemma spec_reject n l : spec n 0 (reject_leading l) (fun _ => True).
Proof. induction l as [|[kw feat] l IH]; cbn [reject_leading]; [by apply cy_spec_ret|]. cstep. by destruct a; [cstep|]. Qed.

Lemma spec_peek_path n : spec n 0 peek_path (fun _ => True).
Proof. intros p Hg Hr. split; [done|]. by apply cy_reach_refl. Qed.
#[export] Hint Resolve spec_reject spec_peek_path : cyp.

Lemma spec_shortest n : spec n 0 parse_shortest (opt_prop is_word).
Proof.
  unfold parse_shortest. cstep. cstep; [|by apply cy_spec_ret]. cstep.
  eapply cy_spec_then; [apply spec_conditional, eat_conditional|]. intros e _. csteps. done.
Qed.

(** [next_clause] announces a pattern only after consuming a token. *)
Lemma spec_next_clause {B} n b (f : option bool -> P B) R :
  (forall o, spec (n - 1) 0 (f (Some o)) R) -> spec n 0 (f None) R -> spec n 0 (next_clause b ≫= f) R.
Proof.
  intros Hs Hn p Hg Hr. unfold next_clause. apply cy_wp_bind.
  assert (forall (x : option bool) (q : Parser), reach 1 p q -> (exists o, x = Some o) ->
    wp (f x) q (fun a p' => R a /\ reach 0 p p')) as Hgo.
  { intros x q Hq [o ->]. eapply cy_wp_mono; [|apply (Hs o); [apply Hq|by eapply cy_reach_rem_lt]].
    intros a p' [Ha Hp']. split; [done|]. eapply cy_reach_trans; [exact Hq|exact Hp'|lia]. }
  unfold wp at 1, mbind at 1, P_bind at 1.
  destruct (eat_conditional Comma p) as [(t & E & ->)| ->].
  { apply Hgo; [by eapply cy_reach_advance|eauto]. }
  unfold mbind at 1, P_bind at 1. destruct (eat_kw_conditional "OPTIONAL" p) as [(t & E & ->)| ->].
  - pose proof (cy_reach_advance p t Hg E) as Hp.
    pose proof (spec_must_eat_kw n "MATCH" "cypher: expected MATCH after OPTIONAL" _ (reach_good _ _ _ Hp)) as Hm.
    pose proof (cy_reach_rem_lt _ _ _ _ Hp Hr) as Hr1. specialize (Hm ltac:(lia)).
    unfold wp in Hm. unfold mbind, P_bind. destruct (must_eat_kw _ _ _) as [[[] q]| | |]; try done.
    destruct Hm as [_ Hm]. apply Hgo; [|eauto]. eapply cy_reach_trans; [exact Hp|exact Hm|lia].
  - unfold mbind, P_bind. destruct (eat_kw_conditional "MATCH" p) as [(t & E & ->)| ->].
    + apply Hgo; [by eapply cy_reach_advance|eauto].
    + by apply Hn.
Qed.

Definition patterns_ok (ps : Patterns) : Prop :=
  chain_ok (pnodes ps) (prels ps) /\ Forall segment_ok (psegments ps).

Lemma spec_add_segment n ns rs b ps : chain_ok ns rs -> patterns_ok ps ->
  spec n 0 (add_segment ns rs b ps) patterns_ok.
Proof.
  intros Hc [Hp Hs] p Hg Hr. unfold wp, add_segment.
  assert (patterns_ok {| pnodes := pnodes ps; prels := prels ps;
    psegments := (psegments ps ++ [{| seg_nodes := ns; seg_rels := rs; seg_optional := b |}])%list |}) as Hkeep.
  { split; [done|]. apply Forall_app. split; [done|]. by apply Forall_singleton. }
  destruct (is_empty _ && negb b); [|split; [done|by apply cy_reach_refl]].
  destruct Hc as [H1 H2 H3 H4]. destruct ns as [|n0 ns]; [done|]. cbn -[decide app drop].
  case_decide; (split; [|by apply cy_reach_refl]); [|done].
  destruct Hp as [P1 P2 P3 P4]. split; [|done]. inversion H1; subst.
  split; cbn [pnodes prels drop]; [by apply Forall_app|by apply Forall_app| |by destruct (prels ps)].
  rewrite !length_app, drop_0. simpl in H3. lia.
Qed.

Lemma cy_spec_segments_loop f : forall n b ps, n <= f -> patterns_ok ps -> spec n 0 (segments_loop b ps f) patterns_ok.
Proof.
  induction f as [|f IH]; intros n b ps Hn Hps; [by intros p Hg Hr; lia|].
  cbn [segments_loop]. apply spec_next_clause; [|by apply cy_spec_ret]. intros o.
  eapply cy_spec_then; [apply spec_chain|]. intros [ns rs] Hc. cbn [fst snd] in *.
  eapply cy_spec_then; [by apply spec_add_segment|]. intros ps' Hps'. apply IH; [lia|done].
Qed.

Lemma flatten_terms_ok ts l : Forall where_ok ts -> flatten_terms ts = Some l -> Forall cmp_ok l.
Proof.
  intros H. revert l. induction H as [|t ts Ht Hts IH]; intros l Hl; simpl in Hl; [by simplify_eq|].
  destruct t; try done. destruct (flatten_terms ts); simplify_eq/=. constructor; [by inversion Ht|auto].
Qed.

Lemma try_flatten_ok e l b : where_ok e -> try_flatten_where e = Some (l, b) -> Forall cmp_ok l.
Proof.
  intros He. destruct He as [c Hc|e He|ts Hl Hts|ts Hl Hts]; simpl; intros H; simplify_eq; [by constructor| |];
    destruct (flatten_terms ts) eqn:E; simplify_eq/=; by eapply flatten_terms_ok.
Qed.

Lemma cy_spec_where n : spec n 0 parse_where
  (fun x => Forall cmp_ok x.1.1 /\ opt_prop (fun e => where_ok e /\ x.1.1 = [] /\ x.1.2 = false) x.2).
Proof.
  unfold parse_where. cstep; [|by apply cy_spec_ret]. cstep. rename a into tree.
  destruct (try_flatten_where tree) as [[l b]|] eqn:E; apply cy_spec_ret; simpl; [|done].
  split; [by eapply try_flatten_ok|done].
Qed.

Lemma spec_tail n : spec n 0 parse_tail (fun '(its, d, ob, lim, wc) =>
  (Forall item_ok its /\ its <> []) /\ Forall (fun x => leaf_ok x.1) ob /\ opt_prop limit_ok lim
  /\ opt_prop (fun wc => with_ok wc /\ d = false /\ ob = [] /\ lim = None) wc).
Proof.
  unfold parse_tail. cstep.
  - cstep. destruct a as [its wc]. apply cy_spec_ret. destruct H as [[H1 H1'] H2]. unfold opt_prop. by split_and!.
  - cstep. eapply cy_spec_then; [apply spec_conditional, eat_kw_conditional|]. intros d _. csteps.
    split; [done|]. split; [done|]. split; [done|exact I].
Qed.

Lemma spec_expect_end n : spec n 0 expect_end (fun _ => True).
Proof.
  unfold expect_end. cstep. cstep; [cstep|]. cstep. cstep; [cstep|].
  intros p Hg Hr. unfold wp, mbind, P_bind, get_toks, get_pos. case_decide; [|done].
  split; [done|by apply cy_reach_refl].
Qed.
#[export] Hint Resolve spec_shortest cy_spec_where spec_expect_end : cyp.

Lemma cy_spec_query n : spec n 0 parse_query query_ok.
Proof.
  unfold parse_query. cstep. cstep. eapply cy_spec_then; [apply spec_shortest|]. intros sp Hsp.
  eapply cy_spec_then; [apply spec_chain|]. intros [ns rs] Hc. cbn [fst snd] in Hc.
  eapply cy_spec_then with (k1 := 0) (Q := fun ps => patterns_ok ps /\ opt_prop (fun _ => psegments ps = []) sp).
  { destruct sp as [pv|].
    - cstep. apply cy_spec_ret. unfold opt_prop, patterns_ok. by split_and!.
    - eapply spec_last; [apply cy_spec_fuel; intros fuel; apply cy_spec_segments_loop; [lia|by split]|]. intros ps Hps. split; [done|exact I]. }
  intros ps [[Hch Hsegs] Hps]. cstep. cstep. cstep; [cstep|].
  eapply cy_spec_then; [apply cy_spec_where|]. intros [[preds or] tree] [Hpr Htr]. cbn [fst snd] in *.
  eapply cy_spec_then; [apply spec_tail|]. intros [[[[its d] ob] lim] wc] (Hits & Hob & Hlim & Hwc).
  cstep. apply cy_spec_ret. split; cbn -[opt_prop]; try done. by destruct sp.
Qed.
