(* ===== verification/CypherTotal.v ===== *)
(** * Cypher translation is total

    What the lexer produces, the write statements and their plans, and that the
    emitter neither panics on the queries the parser returns. *)

From stdpp Require Import base strings list sets.
From Stdlib Require Import NArith ZArith Lia Ascii.
From S2P Require Import Prelude Bytes Cypher CypherParser CypherEmit CypherParserSpec.

Local Open Scope string_scope.

(** ** The lexer *)

Lemma in_range_spec lo hi b : in_range lo hi b = true -> (lo <= N_of_ascii b <= hi)%N.
Proof. intros [H1%N.leb_le H2%N.leb_le]%andb_prop. done. Qed.

(** The characters of a well-formed string are scalar values. *)
Lemma decode_scalar l : valid_utf8 l = true -> Forall is_scalar (decode l).
Proof.
  induction l as [l IH] using (induction_ltof1 _ (@List.length _)); unfold ltof in IH.
  destruct l as [|b0 l1]; [constructor|]. cbn [valid_utf8 decode].
  pose proof (u8_lt b0). destruct (in_range 0 127 b0) eqn:E0.
  { intros Hv. apply in_range_spec in E0. rewrite ltb_true by lia.
    constructor; [unfold is_scalar; lia|apply IH; simpl; [lia|done]]. }
  assert (128 <= N_of_ascii b0)%N as Hb0.
  { unfold in_range in E0. apply andb_false_iff in E0 as [E0|E0]; apply N.leb_gt in E0; lia. }
  rewrite ltb_false by done. destruct l1 as [|b1 l2]; [done|].
  pose proof (u8_lt b1). pose proof (N.mod_lt (N_of_ascii b1) 64 ltac:(done)).
  destruct (in_range 194 223 b0) eqn:E1.
  { apply in_range_spec in E1. intros [_ Hv]%andb_prop. rewrite ltb_true by lia.
    constructor; [unfold is_scalar; lia|apply IH; simpl; [lia|done]]. }
  destruct l2 as [|b2 l3]; [by destruct (_ <? _)%N|].
  pose proof (N.mod_lt (N_of_ascii b2) 64 ltac:(done)). destruct (in_range 224 239 b0) eqn:E2.
  { apply in_range_spec in E2. intros [_ Hv]%andb_prop. rewrite ltb_false, ltb_true by lia.
    constructor; [unfold is_scalar; lia|apply IH; simpl; [lia|done]]. }
  destruct l3 as [|b3 l4]; [done|].
  intros [[[[Hr%in_range_spec Hb1%in_range_spec]%andb_prop _]%andb_prop _]%andb_prop Hv]%andb_prop.
  rewrite !ltb_false by lia. pose proof (N.mod_lt (N_of_ascii b3) 64 ltac:(done)).
  constructor; [|apply IH; simpl; [lia|done]]. unfold is_scalar.
  assert (N_of_ascii b0 <= 243 \/ N_of_ascii b0 = 244 /\ N_of_ascii b1 mod 64 < 16)%N as [Hx|[Hx Hy]]; [|lia|lia].
  destruct (N.eq_dec (N_of_ascii b0) 244) as [E|E]; [right|left; lia]. split; [done|].
  rewrite E in Hb1. simpl in Hb1. replace (N_of_ascii b1) with (N_of_ascii b1 - 128 + 2 * 64)%N by lia.
  rewrite N.Div0.mod_add, N.mod_small; lia.
Qed.

(** A string body consumes at least its closing quote; its text is made of
    characters of the source. *)
Lemma scan_string_ok q cs pre :
  Forall is_scalar cs -> Forall is_scalar pre ->
  match scan_string q cs (of_chars pre) with
  | Ret (s, rest) => is_text s /\ Forall is_scalar rest /\ List.length rest < List.length cs
  | Fail _ => True
  | _ => False
  end.
Proof.
  revert pre. induction cs as [cs IH] using (induction_ltof1 _ (@List.length _)); unfold ltof in IH.
  intros pre Hcs Hpre. destruct Hcs as [|d cs Hd Hcs]; [done|]. cbn [scan_string].
  destruct Hcs as [|e cs' He Hcs'].
  - destruct (_ =? _)%N; [|done]. split_and!; [by exists pre|done|simpl; lia].
  - assert (forall rest, List.length rest < List.length (d :: e :: cs') -> forall pre', Forall is_scalar rest ->
      Forall is_scalar pre' ->
      match scan_string q rest (of_chars pre') with
      | Ret (s, r) => is_text s /\ Forall is_scalar r /\ List.length r < List.length (d :: e :: cs')
      | Fail _ => True | _ => False end) as Hrec.
    { intros rest Hl pre' Hr Hp. pose proof (IH rest Hl pre' Hr Hp) as H.
      destruct (scan_string q rest (of_chars pre')) as [[s r]| | |]; try done. destruct H as (?&?&?). split_and!; try done. lia. }
    rewrite !push_of_chars. destruct (_ =? 92)%N.
    { apply Hrec; [simpl; lia|done|apply Forall_app; auto]. }
    destruct (_ =? q)%N.
    { split_and!; [by exists pre|by constructor|simpl; lia]. }
    apply Hrec; [simpl; lia|by constructor|apply Forall_app; auto].
Qed.

Lemma scan_while_ok f cs pre : exists l,
  scan_while f cs (of_chars pre) = (of_chars (pre ++ l)%list, drop (List.length l) cs)
  /\ Forall (fun c => f c = true) l.
Proof.
  revert pre. induction cs as [|c cs IH]; intros pre; cbn [scan_while].
  { exists []. by rewrite app_nil_r. }
  destruct (f c) eqn:E.
  - rewrite push_of_chars. destruct (IH (pre ++ [c])%list) as (l & -> & Hl).
    exists (c :: l). rewrite <-app_assoc. split; [done|by constructor].
  - exists []. by rewrite app_nil_r.
Qed.

Lemma scan_while_first f c cs : f c = true -> exists l,
  scan_while f (c :: cs) "" = (of_chars (c :: l), drop (List.length l) cs) /\ Forall (fun c => f c = true) (c :: l).
Proof.
  intros Hc. cbn [scan_while]. rewrite Hc. change "" with (of_chars []). rewrite push_of_chars. cbn [app].
  destruct (scan_while_ok f cs [c]) as (l & -> & Hl). exists l. split; [done|by constructor].
Qed.

Lemma cy_lex_step_ok c rest :
  Forall is_scalar (c :: rest) ->
  match lex_step c rest with
  | Ret (t, rest') => opt_ok t /\ Forall is_scalar rest' /\ List.length rest' <= List.length rest
  | Fail _ => True
  | _ => False
  end.
Proof.
  intros Hall. inversion_clear Hall as [|? ? Hc Hrest].
  assert (forall n, Forall is_scalar (drop n rest) /\ List.length (drop n rest) <= List.length rest) as Hdrop.
  { intros n. split; [by apply Forall_drop|]. rewrite length_drop. lia. }
  unfold lex_step.
  repeat match goal with
  | |- match (if ?b then _ else _) with _ => _ end => destruct b eqn:?; [first [done | split_and!; [done|done|lia] | split_and!; [done|apply Hdrop|apply Hdrop] | idtac]|]
  end; try done; try (split_and!; [done|done|lia]).
  - pose proof (scan_string_ok c rest [] Hrest ltac:(constructor)) as H. change (of_chars []) with "" in H.
    destruct (scan_string c rest "") as [[s r]| | |]; try done. destruct H as (?&?&?). split_and!; [done..|simpl; lia].
  - destruct (scan_while_first num_char c rest) as (l & -> & Hl).
    { unfold num_char. match goal with H : is_ascii_digit c = true |- _ => by rewrite H end. }
    split_and!; [|apply Hdrop..]. exists (c :: l). split; [done|]. by exists c, l.
  - destruct (scan_while_first word_char c rest) as (l & -> & Hl).
    { unfold word_char, is_ascii_alphanumeric.
      match goal with H : is_ascii_alphabetic c || _ = true |- _ => apply orb_prop in H as [-> | ->] end;
        [done|by rewrite orb_true_r]. }
    split_and!; [|apply Hdrop..]. exists (c :: l). split; [done|]. by exists c, l.
Qed.

Lemma cy_tokenize_loop_ok fuel cs out :
  Forall is_scalar cs -> List.length cs <= fuel -> Forall tok_ok out ->
  match tokenize_loop fuel cs out with
  | Ret ts => Forall tok_ok ts
  | Fail _ => True
  | _ => False
  end.
Proof.
  revert cs out. induction fuel as [|fuel IH]; intros [|c cs] out Hcs Hf Hout; simpl in Hf; try done; [lia|].
  cbn [tokenize_loop]. pose proof (cy_lex_step_ok c cs Hcs) as H.
  destruct (lex_step c cs) as [[t r]| | |]; try done. destruct H as (Ht & Hr & Hl). cbn [mbind outcome_bind].
  apply IH; [done|lia|]. apply Forall_app. split; [done|]. destruct t; simpl; by repeat constructor.
Qed.

Lemma cy_tokenize_ok src : is_str src ->
  match tokenize src with
  | Ret ts => Forall tok_ok ts
  | Fail _ => True
  | _ => False
  end.
Proof.
  intros Hs. unfold tokenize. apply cy_tokenize_loop_ok; [by apply decode_scalar|done|constructor].
Qed.

(** ** Write statements *)

(** A write plan is a sequence of node appends and of edges, each edge right
    after its two endpoints, which carry the ids the edge refers to. *)
Inductive write_plan (id_col : string) : list CypherWriteOp -> Prop :=
  | plan_nil : write_plan id_col []
  | plan_node m l ps out : write_plan id_col out -> write_plan id_col (out ++ [Node m l ps])
  | plan_edge m l1 ps1 l2 ps2 t src dst ps out :
      write_plan id_col out -> find_id id_col ps1 = Some src -> find_id id_col ps2 = Some dst ->
      write_plan id_col (out ++ [Node m l1 ps1; Node m l2 ps2; Edge m t src dst ps]).

Lemma spec_prop n : spec n 1 parse_prop (fun x => is_word x.1).
Proof. unfold parse_prop. csteps; done. Qed.

Lemma spec_prop_map n : spec n 0 parse_prop_map (fun _ => True).
Proof.
  unfold parse_prop_map. cstep. cstep; [by apply cy_spec_ret|].
  eapply cy_spec_then; [apply cy_spec_comma_list, spec_prop|]. intros ps _. csteps. done.
Qed.
#[export] Hint Resolve spec_prop_map : cyp.

Lemma spec_opt_prop_map n : spec n 0 opt_prop_map (fun _ => True).
Proof. unfold opt_prop_map. cstep. destruct a; [apply spec_prop_map|by apply cy_spec_ret]. Qed.
#[export] Hint Resolve spec_opt_prop_map : cyp.

Lemma spec_write_node n : spec n 1 parse_write_node (fun _ => True).
Proof.
  unfold parse_write_node. cstep. cstep.
  eapply cy_spec_then with (k1 := 0) (Q := fun _ => True).
  - destruct o as [[]|]; try by apply cy_spec_ret. cstep. by apply cy_spec_ret.
  - intros u _. csteps. done.
Qed.
#[export] Hint Resolve spec_write_node : cyp.

Lemma spec_need_id n id_col ps feature :
  spec n 0 (need_id id_col ps feature) (fun v => find_id id_col ps = Some v).
Proof. unfold need_id. destruct (find_id _ _); [by apply cy_spec_ret|apply spec_unsupported]. Qed.
#[export] Hint Resolve spec_need_id : cyp.

Lemma spec_write_pattern n merge id_col out : write_plan id_col out ->
  spec n 1 (parse_write_pattern merge id_col out) (fun o => write_plan id_col o /\ o <> []).
Proof.
  intros Hout. unfold parse_write_pattern. cstep. cstep. cstep. case_decide; [cstep|]. case_decide.
  - eapply cy_spec_then; [apply spec_conditional, eat_conditional|]. intros d _. csteps.
    split; [by apply plan_edge|by destruct out].
  - apply cy_spec_ret. split; [by apply plan_node|by destruct out].
Qed.

Lemma spec_patterns_loop merge id_col f : forall n out, n <= f -> write_plan id_col out ->
  spec n 1 (patterns_loop merge id_col out f) (fun o => write_plan id_col o /\ o <> []).
Proof.
  induction f as [|f IH]; intros n out Hn Hout; [by intros p Hg Hr; lia|].
  cbn [patterns_loop]. eapply cy_spec_first; [by apply spec_write_pattern|]. intros out' [Ho Hne].
  cstep; [|by apply cy_spec_ret]. eapply cy_spec_weaken, IH; [lia|done].
Qed.

Lemma spec_next_write {B} n (f : option bool -> P B) R :
  (forall b, spec (n - 1) 0 (f (Some b)) R) -> spec n 0 (f None) R -> spec n 0 (next_write ≫= f) R.
Proof.
  intros Hs Hn p Hg Hr. unfold next_write. apply cy_wp_bind.
  assert (forall o (q : Parser), reach 1 p q -> wp (f (Some o)) q (fun a p' => R a /\ reach 0 p p')) as Hgo.
  { intros o q Hq. eapply cy_wp_mono; [|apply (Hs o); [apply Hq|by eapply cy_reach_rem_lt]].
    intros a p' [Ha Hp']. split; [done|]. eapply cy_reach_trans; [exact Hq|exact Hp'|lia]. }
  unfold wp at 1, mbind at 1, P_bind at 1.
  destruct (eat_kw_conditional "MERGE" p) as [(t & E & ->)| ->]; [apply Hgo; by eapply cy_reach_advance|].
  unfold mbind, P_bind.
  destruct (eat_kw_conditional "CREATE" p) as [(t & E & ->)| ->]; [apply Hgo; by eapply cy_reach_advance|by apply Hn].
Qed.

Lemma spec_clauses_loop id_col f : forall n out, n <= f -> write_plan id_col out ->
  spec n 0 (clauses_loop id_col out f) (write_plan id_col).
Proof.
  induction f as [|f IH]; intros n out Hn Hout; [by intros p Hg Hr; lia|].
  cbn [clauses_loop]. apply spec_next_write; [|by apply cy_spec_ret]. intros b.
  eapply cy_spec_then; [apply cy_spec_fuel; intros fuel; apply spec_patterns_loop; [lia|done]|].
  intros o [Ho _]. apply IH; [lia|done].
Qed.

Definition some_plan (id_col : string) (w : option CypherWrite) : Prop :=
  opt_prop (fun w => write_plan id_col (ops w) /\ ops w <> []) w.

Lemma spec_write n id_col : spec n 0 (parse_write id_col) (some_plan id_col).
Proof.
  unfold parse_write. cstep. destruct o as [[]|]; try by apply cy_spec_ret.
  case_decide.
  - unfold write_statement. eapply cy_spec_then.
    { apply cy_spec_fuel. intros fuel. apply spec_clauses_loop; [lia|apply plan_nil]. }
    intros out Hout p Hg Hr. unfold wp, mbind, P_bind, get_toks, get_pos. case_decide; [done|].
    destruct out; [done|]. split; [|by apply cy_reach_refl]. by split.
  - case_decide; [cstep|]. intros p Hg Hr. unfold wp, mbind, P_bind, has_write_clause, get_toks.
    simpl. destruct (existsb _ _); [done|]. split; [done|by apply cy_reach_refl].
Qed.

(** ** From source text *)

Lemma run_parser {A} (m : P A) (Q : A -> Prop) src :
  is_str src -> (forall n, spec n 0 m Q) ->
  match (ts ← tokenize src; '(a, _) ← m (new_parser ts); Ret a) with
  | Ret a => Q a
  | Fail _ => True
  | _ => False
  end.
Proof.
  intros Hs Hm. pose proof (cy_tokenize_ok src Hs) as Ht. destruct (tokenize src) as [ts| | |]; try done.
  cbn [mbind outcome_bind].
  assert (good (new_parser ts)) as Hg by (split; [done|simpl; lia]).
  specialize (Hm (S (rem (new_parser ts))) _ Hg ltac:(lia)). unfold wp in Hm.
  destruct (m (new_parser ts)) as [[a p]| | |]; try done. apply Hm.
Qed.

(** ** The emitter *)

(** Neither a panic nor the end of a fuel. *)
Definition sound {A} (o : outcome ParseError A) (Q : A -> Prop) : Prop :=
  match o with Ret a => Q a | Fail _ => True | _ => False end.

Lemma sound_bind {A B} (m : outcome ParseError A) (f : A -> outcome ParseError B) Q R :
  sound m Q -> (forall a, Q a -> sound (f a) R) -> sound (m ≫= f) R.
Proof. intros Hm Hf. destruct m; simpl in *; auto. Qed.

Lemma sound_mono {A} (m : outcome ParseError A) (Q R : A -> Prop) :
  sound m Q -> (forall a, Q a -> R a) -> sound m R.
Proof. intros Hm H. destruct m; simpl in *; auto. Qed.

Lemma sound_for_each {A S} (f : A -> S -> outcome ParseError S) l s :
  (forall x s, x ∈ l -> sound (f x s) (fun _ => True)) -> sound (for_each f l s) (fun _ => True).
Proof.
  revert s. induction l as [|x l IH]; intros s H; cbn [for_each]; [done|].
  eapply sound_bind; [apply H; set_solver|]. intros s' _. apply IH. intros y s2 Hy. apply H. set_solver.
Qed.

Lemma sound_index {A} (l : list A) i : i < List.length l -> sound (or_panic (l !! i)) (fun x => l !! i = Some x).
Proof. intros Hi. by destruct (lookup_lt_is_Some_2 l i Hi) as [x ->]. Qed.

Lemma sound_var ns i : i < List.length ns -> sound (or_panic (node_var <$> ns !! i)) (fun _ => True).
Proof. intros Hi. by destruct (lookup_lt_is_Some_2 ns i Hi) as [x ->]. Qed.

Lemma sound_single ns r : 2 <= List.length ns -> sound (single_hop ns r) (fun _ => True).
Proof.
  intros Hl. unfold single_hop. eapply sound_bind; [apply sound_index; lia|]. intros n0 _.
  eapply sound_bind; [apply sound_index; lia|]. done.
Qed.

Lemma sound_chain_hops reject ns rs i p : i + List.length rs < List.length ns ->
  sound (chain_hops reject ns rs i p) (fun _ => True).
Proof.
  revert i p. induction rs as [|r rs IH]; intros i p Hl; cbn [chain_hops]; [done|].
  destruct (reject r); [done|]. simpl in Hl. eapply sound_bind; [apply sound_index; lia|]. intros n _. apply IH. lia.
Qed.

Lemma sound_chain_pattern reject ns rs : List.length rs < List.length ns -> sound (chain_pattern reject ns rs) (fun _ => True).
Proof.
  intros Hl. unfold chain_pattern. eapply sound_bind; [apply sound_index; lia|]. intros n _. by apply sound_chain_hops.
Qed.

Lemma sound_segment ns rs : List.length rs < List.length ns -> sound (segment_pattern ns rs) (fun _ => True).
Proof.
  intros Hl. unfold segment_pattern. destruct (existsb _ _); [done|].
  destruct rs as [|r [|r2 rs]]; [by apply sound_chain_pattern|apply sound_single; simpl in Hl; lia|by apply sound_chain_pattern].
Qed.

Lemma sound_segments ns rs : List.length ns = S (List.length rs) -> sound (segment_patterns ns rs) (fun _ => True).
Proof.
  intros Hl. unfold segment_patterns. destruct (_ && _).
  - apply sound_for_each. intros i out [_ Hi]%elem_of_seq. unfold hop_segment, slice.
    rewrite !decide_True by lia. cbn [mbind outcome_bind].
    eapply sound_bind; [apply sound_segment; rewrite !length_take, !length_drop; lia|]. done.
  - eapply sound_bind; [apply sound_segment; lia|]. done.
Qed.

Lemma sound_prefix q g proj : query_ok q -> sound (graph_match_prefix q g proj) (fun _ => True).
Proof.
  intros [[_ _ Hl Hne] Hsegs _ _ _ _ _ _ _]. unfold graph_match_prefix. destruct (_ || _).
  - eapply sound_bind; [by apply sound_segments|]. intros segs _. eapply sound_bind; [|done].
    apply sound_for_each. intros s out Hs. unfold extra_segment. rewrite Forall_forall in Hsegs.
    destruct (Hsegs s Hs). eapply sound_bind; [by apply sound_segments|]. done.
  - destruct (rels q) as [|r [|r2 rs]]; [done| |].
    + destruct (var_length r) as [[min max]|].
      * do 2 (eapply sound_bind; [apply sound_var; simpl in Hl; lia|intros ? _]). done.
      * eapply sound_bind; [apply sound_single; simpl in Hl; lia|]. done.
    + eapply sound_bind; [apply sound_chain_pattern; lia|]. done.
Qed.

Lemma sound_check q v : sound (check_var q v) (fun _ => True).
Proof. unfold check_var. by case_decide. Qed.

Lemma sound_leaf q leaf e : sound (project_leaf q leaf e) (fun _ => True).
Proof. unfold project_leaf. eapply sound_bind; [apply sound_check|]. done. Qed.

Lemma sound_item q g it e : sound (emit_item q g it e) (fun _ => True).
Proof.
  destruct it as [v p a|v|v a|f t a|ex ls a]; cbn [emit_item]; try done;
    try (eapply sound_bind; [apply sound_check|done]).
  - eapply sound_bind with (Q := fun _ => True); [|by intros [? ?]].
    destruct t; cbn [agg_expr]; [done| |].
    + eapply sound_bind; [apply sound_check|done].
    + eapply sound_bind; [apply sound_leaf|done].
  - eapply sound_bind; [apply sound_for_each; intros; apply sound_leaf|]. done.
Qed.

Lemma sound_plan q g : query_ok q -> sound (plan q g) (fun _ => True).
Proof.
  intros Hq. unfold plan. eapply sound_bind; [apply sound_for_each; intros; apply sound_item|]. intros e _.
  destruct (foldl _ _ _) as [e1 labels].
  eapply sound_bind; [apply sound_for_each; intros c st _|].
  { unfold pred_clause. eapply sound_bind; [apply sound_leaf|]. done. }
  intros st _. eapply sound_bind with (Q := fun _ => True).
  { unfold tree_clause. destruct (where_tree q); [|done].
    eapply sound_bind; [apply sound_for_each; intros; apply sound_leaf|]. done. }
  intros [e2 wheres] _. eapply sound_bind with (Q := fun _ => True).
  { apply sound_for_each. intros [[v p] d] st' _. unfold sort_item.
    eapply sound_bind; [apply sound_leaf|]. done. }
  intros [e3 sorts] _. eapply sound_bind with (Q := fun _ => True); [|done].
  unfold ensure_column. destruct (is_empty _); [|done]. destruct (is_empty _); [done|].
  eapply sound_bind; [apply sound_var|done]. destruct (ok_chain _ Hq). lia.
Qed.

Lemma sound_shortest q g pv : query_ok q -> sound (emit_shortest_path q g pv) (fun _ => True).
Proof.
  intros [[_ _ Hl Hne] _ _ _ _ _ _ _ _]. unfold emit_shortest_path.
  destruct (bool_decide _) eqn:E; [|done]. apply bool_decide_eq_true in E. simpl.
  destruct (where_or q); [done|]. do 2 (eapply sound_bind; [apply sound_var; lia|intros ? _]).
  destruct (pin q g a), (pin q g a0); try done. destruct (negb _); [done|].
  eapply sound_bind; [apply sound_index; lia|]. intros r _. eapply sound_bind with (Q := fun _ => True); [|done].
  unfold check_path_return. repeat case_match; done.
Qed.

Lemma sound_emit q g : query_ok q -> sound (emit q g) (fun _ => True).
Proof.
  intros Hq. unfold emit. destruct (shortest_path q); [by apply sound_shortest|].
  eapply sound_bind; [by apply sound_plan|]. intros pl _. eapply sound_bind; [by apply sound_prefix|]. intros prefix _.
  eapply sound_bind with (Q := fun _ => True); [|done].
  unfold expr_stages. destruct (existsb _ _); [|done]. by destruct (is_empty _).
Qed.

(** * The columns and filters of an emitted query

    [requests]: the columns a query refers to, in the order the emitter meets
    them.  The projections of its plan are these requests without the ones
    whose alias is taken; the WHERE clauses of the plan are those of the parsed
    predicates and tree. *)

#[export] Instance Projection_eq_dec : EqDecision Projection.
Proof. solve_decision. Defined.

Definition want (var col alias : string) : Projection :=
  {| proj_var := var; proj_col := col; proj_alias := alias |}.
Definition want_leaf (leaf : string * string) : Projection := want leaf.1 leaf.2 (flat leaf.1 leaf.2).

Definition item_requests (g : GraphBinding) (it : ReturnItem) : list Projection :=
  match it with
  | RProp v p a => [want v p (default (flat v p) a)]
  | RVar v => [want v (id_col g) (flat v "id"); want v (label_col g) (flat v "label")]
  | RExpr _ leaves _ => map want_leaf leaves
  | Aggregate _ (AggVar v) _ => [want v (id_col g) (flat v "id")]
  | Aggregate _ (AggProp v p) _ => [want_leaf (v, p)]
  | Aggregate _ AggStar _ | PathLength _ _ => []
  end.

Definition label_request (g : GraphBinding) (n : NodePat) : list Projection :=
  match label n with
  | Some _ => [want (node_var n) (label_col g) (flat (node_var n) (label_col g))]
  | None => []
  end.

Definition tree_leaves (q : Query) : list (string * string) :=
  match where_tree q with Some t => collect_leaves t | None => [] end.

Definition requests (q : Query) (g : GraphBinding) : list Projection :=
  (concat (map (item_requests g) (returns q))
   ++ concat (map (label_request g) (all_nodes q))
   ++ map (fun c => want_leaf (cmp_var c, cmp_prop c)) (where_preds q)
   ++ map want_leaf (tree_leaves q)
   ++ map (fun o => want_leaf o.1) (order_by q))%list.

(** First come, first served. *)
Definition add (ps : list Projection) (r : Projection) : list Projection :=
  push_proj (proj_var r) (proj_col r) (proj_alias r) ps.

(** Two requests for one alias ask for the same column. *)
Definition unambiguous (rs : list Projection) : Prop :=
  forall r r', r ∈ rs -> r' ∈ rs -> proj_alias r = proj_alias r' -> r = r'.

(** ** Deduplication *)

Lemma add_spec ps r : add ps r = ps \/ add ps r = (ps ++ [r])%list.
Proof. unfold add, push_proj. destruct (existsb _ _); [by left|right]. by destruct r. Qed.

Lemma add_taken ps r : add ps r = ps -> proj_alias r ∈ map proj_alias ps.
Proof.
  unfold add, push_proj. destruct (existsb _ _) eqn:E.
  - intros _. apply existsb_exists in E as (x & Hx & Ha%bool_decide_eq_true). rewrite <-Ha.
    apply list_elem_of_fmap. exists x. split; [done|by apply list_elem_of_In].
  - intros H. apply (f_equal (@List.length _)) in H. rewrite length_app in H. simpl in H. lia.
Qed.

Lemma add_fresh ps r : add ps r = (ps ++ [r])%list -> proj_alias r ∉ map proj_alias ps.
Proof.
  unfold add, push_proj. destruct (existsb _ _) eqn:E.
  - intros H. apply (f_equal (@List.length _)) in H. rewrite length_app in H. simpl in H. lia.
  - intros _ (x & Ha & Hx)%list_elem_of_fmap.
    assert (existsb (fun p => bool_decide (proj_alias p = proj_alias r)) ps = true) as E2; [|congruence].
    apply existsb_exists. exists x. split; [by apply list_elem_of_In|by apply bool_decide_eq_true].
Qed.

Lemma adds_incl rs ps : forall r, r ∈ foldl add ps rs -> r ∈ ps \/ r ∈ rs.
Proof.
  revert ps. induction rs as [|x rs IH]; intros ps r Hr; cbn [foldl] in *; [by left|].
  apply IH in Hr as [Hr|Hr]; [|set_solver]. destruct (add_spec ps x) as [E|E]; rewrite E in Hr; set_solver.
Qed.

Lemma adds_NoDup rs ps : NoDup (map proj_alias ps) -> NoDup (map proj_alias (foldl add ps rs)).
Proof.
  revert ps. induction rs as [|x rs IH]; intros ps H; cbn [foldl]; [done|]. apply IH.
  destruct (add_spec ps x) as [E|E]; [by rewrite E|]. pose proof (add_fresh ps x E) as Hf. rewrite E, map_app.
  apply NoDup_app. split_and!; [done| |by apply NoDup_singleton]. set_solver.
Qed.

Lemma adds_keep rs ps r : r ∈ ps -> r ∈ foldl add ps rs.
Proof.
  revert ps. induction rs as [|x rs IH]; intros ps H; cbn [foldl]; [done|]. apply IH.
  destruct (add_spec ps x) as [->| ->]; set_solver.
Qed.

(** Every alias asked for is projected, and as asked when there is no clash. *)
Lemma adds_alias rs ps r : r ∈ rs -> proj_alias r ∈ map proj_alias (foldl add ps rs).
Proof.
  revert ps. induction rs as [|x rs IH]; intros ps H; [set_solver|]. cbn [foldl].
  apply elem_of_cons in H as [->|H]; [|by apply IH].
  assert (proj_alias x ∈ map proj_alias (add ps x)) as Ha.
  { destruct (add_spec ps x) as [E|E]; [pose proof (add_taken _ _ E); by rewrite E|]. rewrite E, map_app. set_solver. }
  apply list_elem_of_fmap in Ha as (y & Hy & Hin). rewrite Hy. apply list_elem_of_fmap_2. by apply adds_keep.
Qed.

Lemma adds_resolve rs r : unambiguous rs -> r ∈ rs -> r ∈ foldl add [] rs.
Proof.
  intros Hu Hr. pose proof (adds_alias rs [] r Hr) as (y & Hy & Hin)%list_elem_of_fmap.
  destruct (adds_incl rs [] y Hin) as [?|Hy']; [set_solver|]. by rewrite (Hu r y Hr Hy' Hy).
Qed.

(** ** The projections of a plan *)

(** [e'] is [e] with the requests [rs] served and every variable known. *)
Definition served (q : Query) (rs : list Projection) (e e' : Emit) : Prop :=
  projections e' = foldl add (projections e) rs /\ Forall (fun r => proj_var r ∈ known_vars q) rs.

Lemma served_nil q e e' : projections e' = projections e -> served q [] e e'.
Proof. intros H. by split. Qed.

Lemma served_app q r1 r2 e1 e2 e3 : served q r1 e1 e2 -> served q r2 e2 e3 -> served q (r1 ++ r2) e1 e3.
Proof.
  intros [H1 K1] [H2 K2]. split; [|by apply Forall_app]. by rewrite H2, H1, foldl_app.
Qed.

Lemma check_var_known q v u : check_var q v = Ret u -> v ∈ known_vars q.
Proof. unfold check_var. by case_decide. Qed.

Lemma project_leaf_served q leaf e e' : project_leaf q leaf e = Ret e' -> served q [want_leaf leaf] e e'.
Proof.
  unfold project_leaf. intros (u & Hc & [= <-])%bind_Ret. split; [done|].
  constructor; [by eapply check_var_known|constructor].
Qed.

(** A loop serves the requests of its iterations, one after the other. *)
Lemma for_each_served {A S} (f : A -> S -> E S) (em : S -> Emit) (req : A -> list Projection) q l s s' :
  (forall x s s', f x s = Ret s' -> served q (req x) (em s) (em s')) ->
  for_each f l s = Ret s' -> served q (concat (map req l)) (em s) (em s').
Proof.
  intros Hf. revert s. induction l as [|x l IH]; intros s H; cbn [for_each] in H.
  - simplify_eq. by apply served_nil.
  - apply bind_Ret in H as (s1 & H1 & H2). cbn [map concat]. eapply served_app; [by apply Hf|by apply IH].
Qed.

Lemma concat_singletons {A B} (f : A -> B) l : concat (map (fun x => [f x]) l) = map f l.
Proof. induction l as [|x l IH]; [done|]. cbn [map concat app]. by rewrite IH. Qed.

Lemma emit_item_served q g it e e' : emit_item q g it e = Ret e' -> served q (item_requests g it) e e'.
Proof.
  destruct it as [v p a|v|v a|f t a|ex ls a]; cbn [emit_item item_requests]; intros H; [| |done| |].
  - apply bind_Ret in H as (u & Hc & [= <-]). split; [done|]. constructor; [by eapply check_var_known|constructor].
  - apply bind_Ret in H as (u & Hc & [= <-]). split; [done|]. repeat constructor; by eapply check_var_known.
  - apply bind_Ret in H as ([ex e1] & H & [= <-]).
    destruct t as [|v|v p]; cbn [agg_expr] in H.
    + simplify_eq. by apply served_nil.
    + apply bind_Ret in H as (u & Hc & [= <- <-]). split; [done|]. constructor; [by eapply check_var_known|constructor].
    + apply bind_Ret in H as (e2 & Hl & [= <- <-]). apply project_leaf_served in Hl as [H1 H2]. by split.
  - apply bind_Ret in H as (e1 & H & [= <-]).
    destruct (for_each_served (project_leaf q) id (fun x => [want_leaf x]) q ls e e1) as [H1 H2]; [|done|].
    { intros. by apply project_leaf_served. }
    rewrite concat_singletons in *. by split.
Qed.

Lemma label_filter_served q g l e ls :
  Forall (fun n => node_var n ∈ known_vars q) l ->
  let st := foldl (fun st n => label_filter g n st) (e, ls) l in
  served q (concat (map (label_request g) l)) e st.1
  /\ aggregates st.1 = aggregates e
  /\ st.2 = (ls ++ omap (fun n => (fun x => (flat (node_var n) (label_col g), x)) <$> label n) l)%list.
Proof.
  intros Hl. cbn zeta. revert e ls. induction Hl as [|n l Hn Hl IH]; intros e ls; cbn [foldl].
  - split_and!; [by apply served_nil|done|by rewrite app_nil_r].
  - cbn [map concat omap list_omap]. unfold label_filter at 2 4 6, label_request at 1. cbn [fst snd].
    destruct (label n) as [x|]; cbn [fst snd fmap option_fmap option_map app]; [|apply IH].
    destruct (IH (project (node_var n) (label_col g) (flat (node_var n) (label_col g)) e)
                (ls ++ [(flat (node_var n) (label_col g), x)])%list) as (H1 & H2 & H3).
    split_and!; [|exact H2|rewrite H3, <-app_assoc; done].
    apply (served_app q [want (node_var n) (label_col g) (flat (node_var n) (label_col g))] _ e _ _) with (2 := H1).
    split; [done|by constructor].
Qed.

Lemma known_nodes q : Forall (fun n => node_var n ∈ known_vars q) (all_nodes q).
Proof.
  apply Forall_forall. intros n. unfold all_nodes, known_vars. rewrite !elem_of_app. intros [H|H].
  - left. by apply list_elem_of_fmap_2.
  - right; right. revert H. induction (extra_segments q) as [|s l IH]; cbn [map concat]; [by intros ?%elem_of_nil|].
    rewrite !elem_of_app. intros [H|H]; [|auto]. left; left. apply list_elem_of_fmap_2. done.
Qed.

(** The WHERE clauses of a query: its flat predicates, then its tree. *)
Definition clauses_of (preds : list Comparison) (tree : option WhereExpr) : list string :=
  (map (fun c => render_kql (Cmp c)) preds ++ map render_kql (option_list tree))%list.

Lemma pred_clauses_served q preds e ws e' ws' :
  for_each (pred_clause q) preds (e, ws) = Ret (e', ws') ->
  served q (map (fun c => want_leaf (cmp_var c, cmp_prop c)) preds) e e'
  /\ ws' = (ws ++ map (fun c => render_kql (Cmp c)) preds)%list.
Proof.
  intros H. split.
  - rewrite <-concat_singletons.
    apply (for_each_served (pred_clause q) fst (fun c => [want_leaf (cmp_var c, cmp_prop c)]) q preds (e, ws) (e', ws')); [|done].
    intros c s s' (e1 & H1 & [= <-])%bind_Ret. by apply project_leaf_served.
  - apply (for_each_Ret _ (fun done st => st.2 = (ws ++ map (fun c => render_kql (Cmp c)) done)%list)) in H; [done|by rewrite app_nil_r|].
    intros pre c s1 s2 (e1 & H1 & [= <-])%bind_Ret Hs. cbn [snd]. by rewrite Hs, map_app, <-app_assoc.
Qed.

Lemma tree_clause_served q st e' ws' : tree_clause q st = Ret (e', ws') ->
  served q (map want_leaf (tree_leaves q)) st.1 e' /\ ws' = (st.2 ++ map render_kql (option_list (where_tree q)))%list.
Proof.
  unfold tree_clause, tree_leaves. destruct (where_tree q) as [t|].
  - intros (e1 & H & [= <- <-])%bind_Ret. split; [|done]. rewrite <-concat_singletons.
    apply (for_each_served (project_leaf q) id (fun x => [want_leaf x]) q _ st.1 e1); [|done].
    intros. by apply project_leaf_served.
  - intros [= ->]. split; [by apply served_nil|by rewrite app_nil_r].
Qed.

Lemma sort_items_served q os e ss e' ss' :
  for_each (sort_item q) os (e, ss) = Ret (e', ss') ->
  served q (map (fun o => want_leaf o.1) os) e e'.
Proof.
  intros H. rewrite <-concat_singletons.
  apply (for_each_served (sort_item q) fst (fun o => [want_leaf o.1]) q os (e, ss) (e', ss')); [|done].
  intros [[v p] d] s s' (e1 & H1 & [= <-])%bind_Ret. by apply project_leaf_served.
Qed.

(** The shape of a plan. *)
Lemma plan_shape q g pl : plan q g = Ret pl ->
  Forall (fun r => proj_var r ∈ known_vars q) (requests q g)
  /\ label_filters pl = omap (fun n => (fun x => (flat (node_var n) (label_col g), x)) <$> label n) (all_nodes q)
  /\ where_clauses pl = clauses_of (where_preds q) (where_tree q)
  /\ (projections (plan_emit pl) = foldl add [] (requests q g) /\ projections (plan_emit pl) <> []
      \/ requests q g = [] /\ exists v, projections (plan_emit pl) = [want v (id_col g) (flat v "id")]
                                     /\ node_var <$> nodes q !! 0 = Some v).
Proof.
  unfold plan. intros (e & H0 & H)%bind_Ret.
  assert (served q (concat (map (item_requests g) (returns q))) empty_emit e) as S0.
  { eapply (for_each_served (emit_item q g) id (item_requests g) q); [|exact H0]. apply emit_item_served. }
  pose proof (label_filter_served q g (all_nodes q) e [] (known_nodes q)) as HL. cbn zeta in HL.
  destruct (foldl _ _ _) as [e1 labels]. destruct HL as (S1 & _ & HL). cbn [fst snd app] in *.
  apply bind_Ret in H as ([e2 w2] & H1 & H). apply (pred_clauses_served q) in H1 as [S2 ->]. cbn [app] in *.
  apply bind_Ret in H as ([e3 w3] & H2 & H). apply tree_clause_served in H2 as [S3 ->]. cbn [fst snd] in *.
  apply bind_Ret in H as ([e4 w4] & H3 & H). apply (sort_items_served q) in H3 as S4.
  apply bind_Ret in H as (e5 & H5 & [= <-]). cbn [label_filters where_clauses plan_emit].
  assert (served q (requests q g) empty_emit e4) as [HP HK].
  { unfold requests. do 4 (eapply served_app; [eassumption|]). exact S4. }
  split_and!; [done|done|done|]. unfold ensure_column in H5. destruct (is_empty (projections e4)) eqn:Ee.
  - right. destruct (projections e4) as [|pr ps] eqn:Ep; [|done]. split.
    + destruct (requests q g) as [|r rs] eqn:Er; [done|]. exfalso.
      pose proof (adds_alias (r :: rs) [] r ltac:(set_solver)) as Ha. cbn [empty_emit projections] in HP.
      rewrite <-HP in Ha. set_solver.
    + destruct (is_empty (aggregates e4)); [done|]. apply bind_Ret in H5 as (v & Hv & [= <-]). exists v.
      split; [done|]. by destruct (node_var <$> _); simplify_eq/=.
  - left. simplify_eq. split; [done|]. intros E. by rewrite E in Ee.
Qed.

(** ** Where filters *)

(** The WHERE part of [filters]. *)
Definition where_filters (preds : list Comparison) (or : bool) (tree : option WhereExpr) : list string :=
  let cs := clauses_of preds tree in
  if is_empty cs then [] else if or then [fmt ["("; join " or " cs; ")"]] else cs.

Lemma filters_shape q g pl : plan q g = Ret pl ->
  filters q pl = (map label_clause (label_filters pl) ++ where_filters (where_preds q) (where_or q) (where_tree q))%list.
Proof. intros H%plan_shape. destruct H as (_ & _ & Hw & _). unfold filters, where_filters. by rewrite Hw. Qed.
