(* ===== verification/CypherGrammar.v ===== *)
(** * The grammar of Cypher's WHERE

    [wtoks k ts t]: the tokens [ts] are an expression of level [k] (0 for
    atoms, 1 below NOT, 2 below AND, 3 below OR) with the tree [t].  The parser
    reads every such sequence as its tree: NOT binds tighter than AND, AND
    tighter than OR, and parentheses group. *)

From stdpp Require Import base strings list sets.
From Stdlib Require Import NArith ZArith Lia Ascii.
From S2P Require Import Prelude Bytes Cypher CypherParser.

Local Open Scope string_scope.

(** ** The grammar *)

Definition kw_tok (kw : string) (t : Tok) : Prop := is_kw kw (Some t) = true.

Inductive lit_tok : Tok -> string -> Prop :=
  | lt_str s : lit_tok (Str s) (quote_literal s)
  | lt_num s : lit_tok (Num s) s.

(** Token sequences separated by one token. *)
Fixpoint sep_toks (sep : list Tok) (l : list (list Tok)) : list Tok :=
  match l with
  | [] => []
  | [ts] => ts
  | ts :: l => (ts ++ sep ++ sep_toks sep l)%list
  end.

(** An operator with its literal; keywords in any case. *)
Inductive rhs_toks : list Tok -> CmpOp -> string -> Prop :=
  | rt_scalar t o l s : scalar_op (Some t) = Some o -> lit_tok l s -> rhs_toks [t; l] o s
  | rt_in k ls ss : kw_tok "IN" k -> ls <> [] -> Forall2 lit_tok ls ss ->
      rhs_toks (k :: LBracket :: sep_toks [Comma] (map (fun l => [l]) ls) ++ [RBracket]) In
        (fmt ["("; join ", " ss; ")"])
  | rt_starts k1 k2 l s : kw_tok "STARTS" k1 -> kw_tok "WITH" k2 -> lit_tok l s -> rhs_toks [k1; k2; l] StartsWith s
  | rt_ends k1 k2 l s : kw_tok "ENDS" k1 -> kw_tok "WITH" k2 -> lit_tok l s -> rhs_toks [k1; k2; l] EndsWith s
  | rt_contains k l s : kw_tok "CONTAINS" k -> lit_tok l s -> rhs_toks [k; l] Contains s
  | rt_null k1 k2 : kw_tok "IS" k1 -> kw_tok "NULL" k2 -> rhs_toks [k1; k2] IsNull ""
  | rt_not_null k1 k2 k3 : kw_tok "IS" k1 -> kw_tok "NOT" k2 -> kw_tok "NULL" k3 ->
      rhs_toks [k1; k2; k3] IsNotNull "".

Inductive wtoks : nat -> list Tok -> WhereExpr -> Prop :=
  | w_cmp v p ts o s : is_kw "NOT" (Some (Word v)) = false -> rhs_toks ts o s ->
      wtoks 0 (Word v :: Dot :: Word p :: ts) (Cmp {| cmp_var := v; cmp_prop := p; op := o; literal := s |})
  | w_paren ts t : wtoks 3 ts t -> wtoks 0 (LParen :: ts ++ [RParen]) t
  | w_up k ts t : k < 3 -> wtoks k ts t -> wtoks (S k) ts t
  | w_not k ts t : kw_tok "NOT" k -> wtoks 1 ts t -> wtoks 1 (k :: ts) (Not t)
  | w_and k ls ts : kw_tok "AND" k -> 2 <= List.length ls -> Forall2 (wtoks 1) ls ts ->
      wtoks 2 (sep_toks [k] ls) (And ts)
  | w_or k ls ts : kw_tok "OR" k -> 2 <= List.length ls -> Forall2 (wtoks 2) ls ts ->
      wtoks 3 (sep_toks [k] ls) (Or ts).

Section wtoks_induction.
Variable Q : nat -> list Tok -> WhereExpr -> Prop.
Hypothesis Hcmp : forall v p ts o s, is_kw "NOT" (Some (Word v)) = false -> rhs_toks ts o s ->
  Q 0 (Word v :: Dot :: Word p :: ts) (Cmp {| cmp_var := v; cmp_prop := p; op := o; literal := s |}).
Hypothesis Hparen : forall ts t, Q 3 ts t -> Q 0 (LParen :: ts ++ [RParen]) t.
Hypothesis Hup : forall k ts t, k < 3 -> Q k ts t -> Q (S k) ts t.
Hypothesis Hnot : forall k ts t, kw_tok "NOT" k -> Q 1 ts t -> Q 1 (k :: ts) (Not t).
Hypothesis Hand : forall k ls ts, kw_tok "AND" k -> 2 <= List.length ls -> Forall2 (Q 1) ls ts ->
  Q 2 (sep_toks [k] ls) (And ts).
Hypothesis Hor : forall k ls ts, kw_tok "OR" k -> 2 <= List.length ls -> Forall2 (Q 2) ls ts ->
  Q 3 (sep_toks [k] ls) (Or ts).

Fixpoint wtoks_nested k ts t (H : wtoks k ts t) : Q k ts t :=
  let all k := fix all ls ts (H : Forall2 (wtoks k) ls ts) : Forall2 (Q k) ls ts :=
    match H with
    | List.Forall2_nil _ => List.Forall2_nil (Q k)
    | @List.Forall2_cons _ _ _ x y l l' Hx Hl =>
        @List.Forall2_cons _ _ (Q k) x y l l' (wtoks_nested k x y Hx) (all l l' Hl)
    end in
  match H with
  | w_cmp v p ts o s Hv Hr => Hcmp v p ts o s Hv Hr
  | w_paren ts t H => Hparen ts t (wtoks_nested 3 ts t H)
  | w_up k ts t Hk H => Hup k ts t Hk (wtoks_nested k ts t H)
  | w_not k ts t Hk H => Hnot k ts t Hk (wtoks_nested 1 ts t H)
  | w_and k ls ts Hk Hl H => Hand k ls ts Hk Hl (all 1 ls ts H)
  | w_or k ls ts Hk Hl H => Hor k ls ts Hk Hl (all 2 ls ts H)
  end.
End wtoks_induction.

(** ** Running the parser *)

Definition ahead (p : Parser) : list Tok := drop (pos p) (toks p).
Definition after (n : nat) (p : Parser) : Parser := {| toks := toks p; pos := pos p + n |}.

(** [parses m ts a fol]: before a token that [fol] accepts, [m] consumes
    exactly [ts] and returns [a]. *)
Definition parses {A} (m : P A) (ts : list Tok) (a : A) (fol : option Tok -> bool) : Prop :=
  forall p rest, ahead p = (ts ++ rest)%list -> fol (head rest) = true -> m p = Ret (a, after (List.length ts) p).

Definition anything (o : option Tok) : bool := true.

Lemma cy_nth_error_head {A} (l : list A) n : nth_error l n = head (drop n l).
Proof. revert n; induction l as [|x l IH]; intros [|n]; simpl; auto. Qed.

Lemma cy_peek_ahead p : peek p = Ret (head (ahead p), p).
Proof. unfold peek. by rewrite cy_nth_error_head. Qed.

Lemma cy_ahead_after p ts rest : ahead p = (ts ++ rest)%list -> ahead (after (List.length ts) p) = rest.
Proof. unfold ahead, after. simpl. intros H. by rewrite <-drop_drop, H, drop_app_length. Qed.

Lemma cy_after_after n m p : after m (after n p) = after (n + m) p.
Proof. unfold after. simpl. f_equal. lia. Qed.

Lemma after_0 p : after 0 p = p.
Proof. unfold after. destruct p. simpl. f_equal. lia. Qed.

Lemma cy_rem_ahead p : rem p = List.length (ahead p).
Proof. unfold rem, ahead. by rewrite length_drop. Qed.

Lemma cy_bind_run {A B} (m : P A) (f : A -> P B) p a p' : m p = Ret (a, p') -> (m ≫= f) p = f a p'.
Proof. intros H. unfold mbind, P_bind. by rewrite H. Qed.

Lemma cy_parses_ret {A} (a : A) fol : parses (mret a) [] a fol.
Proof. intros p rest Hp _. by rewrite after_0. Qed.

(** Sequencing, when the first part does not look ahead. *)
Lemma cy_parses_bind {A B} (m : P A) (f : A -> P B) ts1 ts2 a b fol :
  parses m ts1 a anything -> parses (f a) ts2 b fol -> parses (m ≫= f) (ts1 ++ ts2) b fol.
Proof.
  intros Hm Hf p rest Hp Hr. rewrite <-app_assoc in Hp.
  rewrite (cy_bind_run _ _ _ _ _ (Hm p _ Hp eq_refl)), (Hf _ _ (cy_ahead_after _ _ _ Hp) Hr).
  by rewrite cy_after_after, length_app.
Qed.

(** A first part that consumes one token. *)
Lemma parses_cons {A B} (m : P A) (f : A -> P B) t ts a b fol :
  parses m [t] a anything -> parses (f a) ts b fol -> parses (m ≫= f) (t :: ts) b fol.
Proof. apply (cy_parses_bind m f [t] ts). Qed.

(** The next token decides. *)
Lemma parses_peek {B} (f : option Tok -> P B) t ts b fol :
  parses (f (Some t)) (t :: ts) b fol -> parses (peek ≫= f) (t :: ts) b fol.
Proof. intros H p rest Hp Hr. rewrite (cy_bind_run _ _ _ _ _ (cy_peek_ahead p)), Hp. by apply (H p rest). Qed.

Lemma advance_parses {B} (f : unit -> P B) t ts b fol :
  parses (f tt) ts b fol -> parses (advance 1 ≫= f) (t :: ts) b fol.
Proof.
  intros H p rest Hp Hr. unfold mbind, P_bind, advance. fold (after 1 p).
  rewrite (H (after 1 p) rest (cy_ahead_after p [t] _ Hp) Hr). by rewrite cy_after_after.
Qed.

Lemma parses_bump t : parses bump [t] (Some t) anything.
Proof. unfold bump. apply parses_peek, advance_parses, cy_parses_ret. Qed.

Lemma parses_word w : parses expect_word [Word w] w anything.
Proof. unfold expect_word. eapply parses_cons; [apply parses_bump|apply cy_parses_ret]. Qed.

Lemma cy_parses_eat t : parses (eat t) [t] true anything.
Proof. unfold eat. apply parses_peek. rewrite decide_True by done. apply advance_parses, cy_parses_ret. Qed.

Lemma parses_kw kw t : kw_tok kw t -> parses (eat_kw kw) [t] true anything.
Proof. intros Hk. unfold eat_kw. apply parses_peek. rewrite Hk. apply advance_parses, cy_parses_ret. Qed.

Lemma parses_must_eat t message : parses (must_eat t message) [t] tt anything.
Proof. unfold must_eat. eapply parses_cons; [apply cy_parses_eat|apply cy_parses_ret]. Qed.
Lemma parses_must_kw kw t message : kw_tok kw t -> parses (must_eat_kw kw message) [t] tt anything.
Proof. intros Hk. unfold must_eat_kw. eapply parses_cons; [by apply parses_kw|apply cy_parses_ret]. Qed.

(** A token that is not eaten. *)
Lemma skip_kw {B} (f : bool -> P B) kw t ts b fol : is_kw kw (Some t) = false ->
  parses (f false) (t :: ts) b fol -> parses (eat_kw kw ≫= f) (t :: ts) b fol.
Proof.
  intros Hk H p rest Hp Hr. rewrite <-(H p rest Hp Hr). apply cy_bind_run. unfold eat_kw.
  rewrite (cy_bind_run _ _ _ _ _ (cy_peek_ahead p)), Hp. cbn [app head]. by rewrite Hk.
Qed.

Lemma skip_eat {B} (f : bool -> P B) t' t ts b fol : t <> t' ->
  parses (f false) (t :: ts) b fol -> parses (eat t' ≫= f) (t :: ts) b fol.
Proof.
  intros Hk H p rest Hp Hr. rewrite <-(H p rest Hp Hr). apply cy_bind_run. unfold eat.
  rewrite (cy_bind_run _ _ _ _ _ (cy_peek_ahead p)), Hp. cbn [app head]. by rewrite decide_False by congruence.
Qed.

Lemma no_kw_run {B} (f : bool -> P B) kw p : is_kw kw (head (ahead p)) = false -> (eat_kw kw ≫= f) p = f false p.
Proof. intros H. apply cy_bind_run. unfold eat_kw. rewrite (cy_bind_run _ _ _ _ _ (cy_peek_ahead p)). by rewrite H. Qed.

Lemma no_eat_run {B} (f : bool -> P B) t p : head (ahead p) <> Some t -> (eat t ≫= f) p = f false p.
Proof. intros H. apply cy_bind_run. unfold eat. rewrite (cy_bind_run _ _ _ _ _ (cy_peek_ahead p)). by rewrite decide_False. Qed.

(** ** Literals and comparisons *)

Lemma parses_lit t s : lit_tok t s -> parses parse_literal [t] s anything.
Proof. intros []; (eapply parses_cons; [apply parses_bump|apply cy_parses_ret]). Qed.

(** A comma list, up to a token that is not a comma. *)
Lemma cy_parses_comma_loop {A} (item : P A) ls xs v fuel p rest :
  ls <> [] -> Forall2 (fun ts x => parses item ts x anything) ls xs ->
  ahead p = (sep_toks [Comma] ls ++ rest)%list -> head rest <> Some Comma -> List.length ls <= fuel ->
  comma_loop item v fuel p = Ret ((v ++ xs)%list, after (List.length (sep_toks [Comma] ls)) p).
Proof.
  intros Hne H. revert Hne v fuel p. induction H as [|ts x ls xs Hx Hl IH]; intros Hne v fuel p Hp Hc Hf; [done|].
  destruct fuel as [|fuel]; [simpl in Hf; lia|]. cbn [comma_loop]. clear Hne. destruct ls as [|ts2 ls].
  - inversion Hl; subst. cbn [sep_toks] in *. rewrite (cy_bind_run _ _ _ _ _ (Hx p _ Hp eq_refl)).
    rewrite no_eat_run; [done|]. by rewrite (cy_ahead_after _ _ _ Hp).
  - change (sep_toks [Comma] (ts :: ts2 :: ls)) with (ts ++ [Comma] ++ sep_toks [Comma] (ts2 :: ls))%list in *.
    rewrite <-!app_assoc in Hp. rewrite (cy_bind_run _ _ _ _ _ (Hx p _ Hp eq_refl)).
    pose proof (cy_ahead_after _ _ _ Hp) as Hp1.
    rewrite (cy_bind_run _ _ _ _ _ (cy_parses_eat Comma _ _ Hp1 eq_refl)).
    rewrite (IH ltac:(done)); [|by apply (cy_ahead_after _ [Comma])|done|simpl in *; lia].
    rewrite <-app_assoc, !cy_after_after, !length_app. simpl. repeat f_equal; lia.
Qed.

Lemma length_sep ls : Forall (fun ts => ts <> []) ls -> List.length ls <= List.length (sep_toks [Comma] ls).
Proof.
  induction 1 as [|ts ls Hts Hl IH]; [done|]. destruct ls as [|ts2 ls]; [destruct ts; simpl; [done|lia]|].
  change (sep_toks [Comma] (ts :: ts2 :: ls)) with (ts ++ [Comma] ++ sep_toks [Comma] (ts2 :: ls))%list.
  rewrite !length_app. destruct ts; [done|]. simpl in *. lia.
Qed.

Lemma cy_parses_comma_list {A} (item : P A) ls xs :
  ls <> [] -> Forall (fun ts => ts <> []) ls -> Forall2 (fun ts x => parses item ts x anything) ls xs ->
  parses (comma_list item) (sep_toks [Comma] ls) xs (fun o => negb (bool_decide (o = Some Comma))).
Proof.
  intros Hne Hts H p rest Hp Hc%negb_true_iff%bool_decide_eq_false. unfold comma_list, with_fuel.
  apply (cy_parses_comma_loop item ls xs []) with (rest := rest); try done.
  rewrite cy_rem_ahead, Hp, length_app. pose proof (length_sep ls Hts). lia.
Qed.

(** A comma list closed by a token. *)
Lemma parses_comma_end {A B} (item : P A) (f : list A -> P B) ls xs t ts b fol :
  ls <> [] -> Forall (fun ts => ts <> []) ls -> Forall2 (fun ts x => parses item ts x anything) ls xs -> t <> Comma ->
  parses (f xs) (t :: ts) b fol -> parses (comma_list item ≫= f) (sep_toks [Comma] ls ++ t :: ts) b fol.
Proof.
  intros Hne Hts H Ht Hf p rest Hp Hr. rewrite <-app_assoc in Hp.
  rewrite (cy_bind_run _ _ _ _ _ (cy_parses_comma_list item ls xs Hne Hts H p _ Hp ltac:(by apply negb_true_iff, bool_decide_eq_false; cbn; congruence))).
  rewrite (Hf _ _ (cy_ahead_after _ _ _ Hp) Hr). by rewrite cy_after_after, length_app.
Qed.

Lemma kw_not kw kw' t : kw_tok kw t -> lowercase kw <> lowercase kw' -> is_kw kw' (Some t) = false.
Proof.
  unfold kw_tok, is_kw, eq_ignore_ascii_case. destruct t; try done. intros H%bool_decide_eq_true Hne.
  apply bool_decide_eq_false. congruence.
Qed.

Lemma parses_rhs ts o s : rhs_toks ts o s -> parses parse_op_literal ts (o, s) anything.
Proof.
  assert (forall t x kws, scalar_op (Some t) = Some x -> is_kw kws (Some t) = false) as Hs.
  { intros t x kws. by destruct t. }
  intros [t o' l s' Ho Hl|k ls ss Hk Hne Hls|k1 k2 l s' H1 H2 Hl|k1 k2 l s' H1 H2 Hl|k l s' H1 Hl|k1 k2 H1 H2|k1 k2 k3 H1 H2 H3];
    unfold parse_op_literal.
  - do 5 (apply skip_kw; [by eapply Hs|]).
    eapply parses_cons; [unfold bump_scalar_op; eapply (parses_cons _ _ t []); [apply parses_bump|]; rewrite Ho; apply cy_parses_ret|].
    eapply parses_cons; [by apply parses_lit|]. apply cy_parses_ret.
  - eapply parses_cons; [by apply parses_kw|]. cbv iota. rewrite <-(app_nil_r (LBracket :: _)).
    eapply cy_parses_bind; [|apply cy_parses_ret]. unfold parse_in_list.
    eapply parses_cons; [apply parses_must_eat|].
    eapply parses_comma_end; [by destruct ls| | |done|].
    + by apply Forall_fmap, Forall_true.
    + instantiate (1 := ss). clear Hne. induction Hls; cbn [map]; constructor; [by apply parses_lit|done].
    + eapply parses_cons; [apply parses_must_eat|]. apply cy_parses_ret.
  - apply skip_kw; [by eapply kw_not|]. eapply parses_cons; [by apply parses_kw|]. cbv iota.
    eapply parses_cons; [by apply parses_must_kw|]. eapply parses_cons; [by apply parses_lit|]. apply cy_parses_ret.
  - do 2 (apply skip_kw; [by eapply kw_not|]). eapply parses_cons; [by apply parses_kw|]. cbv iota.
    eapply parses_cons; [by apply parses_must_kw|]. eapply parses_cons; [by apply parses_lit|]. apply cy_parses_ret.
  - do 3 (apply skip_kw; [by eapply kw_not|]). eapply parses_cons; [by apply parses_kw|]. cbv iota.
    eapply parses_cons; [by apply parses_lit|]. apply cy_parses_ret.
  - do 4 (apply skip_kw; [by eapply kw_not|]). eapply parses_cons; [by apply parses_kw|]. cbv iota.
    apply skip_kw; [by eapply kw_not|]. eapply parses_cons; [by apply parses_must_kw|]. apply cy_parses_ret.
  - do 4 (apply skip_kw; [by eapply kw_not|]). eapply parses_cons; [by apply parses_kw|]. cbv iota.
    eapply parses_cons; [by apply parses_kw|]. cbv iota. eapply parses_cons; [by apply parses_must_kw|]. apply cy_parses_ret.
Qed.

Lemma parses_comparison v p ts o s : rhs_toks ts o s ->
  parses parse_comparison (Word v :: Dot :: Word p :: ts) {| cmp_var := v; cmp_prop := p; op := o; literal := s |} anything.
Proof.
  intros H. unfold parse_comparison. eapply parses_cons; [apply parses_word|].
  eapply parses_cons; [apply parses_must_eat|]. eapply parses_cons; [apply parses_word|].
  rewrite <-(app_nil_r ts). eapply cy_parses_bind; [by apply parses_rhs|]. apply cy_parses_ret.
Qed.

(** ** Chains of terms *)

Section terms.
Variables (kw : string) (sub : P WhereExpr) (k : Tok) (folsub fol : option Tok -> bool).
Hypothesis Hk : kw_tok kw k.
Hypothesis Hfolk : folsub (Some k) = true.
Hypothesis Hfol : forall o, fol o = true -> folsub o = true /\ is_kw kw o = false.

Definition tail_toks (ls : list (list Tok)) : list Tok := concat (map (fun l => k :: l) ls).

Lemma sep_tail l ls : sep_toks [k] (l :: ls) = (l ++ tail_toks ls)%list.
Proof using.
  revert l. induction ls as [|l2 ls IH]; intros l; [by rewrite app_nil_r|].
  change (sep_toks [k] (l :: l2 :: ls)) with (l ++ [k] ++ sep_toks [k] (l2 :: ls))%list. by rewrite IH.
Qed.

(** What follows a term: the keyword of the next one, or the end. *)
Lemma tail_follow ls rest : fol (head rest) = true -> folsub (head (tail_toks ls ++ rest)) = true.
Proof using Hfolk Hfol. intros Hr. destruct ls; [by apply Hfol|done]. Qed.

Lemma parses_terms_loop ls ts terms fuel p rest :
  Forall2 (fun l t => parses sub l t folsub) ls ts ->
  ahead p = (tail_toks ls ++ rest)%list -> fol (head rest) = true -> List.length ls < fuel ->
  terms_loop kw sub terms fuel p = Ret ((terms ++ ts)%list, after (List.length (tail_toks ls)) p).
Proof using Hk Hfolk Hfol.
  intros H. revert terms fuel p. induction H as [|l t ls ts Hl Hls IH]; intros terms fuel p Hp Hr Hf;
    (destruct fuel as [|fuel]; [lia|]); cbn [terms_loop].
  - cbn [tail_toks map concat app] in *. rewrite no_kw_run by (rewrite Hp; by apply Hfol).
    rewrite app_nil_r, after_0. done.
  - change (tail_toks (l :: ls)) with ([k] ++ l ++ tail_toks ls)%list in *. rewrite <-!app_assoc in Hp.
    rewrite (cy_bind_run _ _ _ _ _ (parses_kw kw k Hk p _ Hp eq_refl)). pose proof (cy_ahead_after p [k] _ Hp) as Hp1.
    rewrite (cy_bind_run _ _ _ _ _ (Hl _ _ Hp1 (tail_follow ls rest Hr))). pose proof (cy_ahead_after _ _ _ Hp1) as Hp2.
    rewrite (IH _ fuel _ Hp2 Hr) by (simpl in Hf; lia). rewrite <-app_assoc, !cy_after_after, !length_app.
    simpl. repeat f_equal; lia.
Qed.

Lemma length_tail ls : List.length ls <= List.length (tail_toks ls).
Proof using. induction ls as [|l ls IH]; [done|]. unfold tail_toks in *. simpl. rewrite length_app. lia. Qed.

Lemma parses_terms node ls ts : ls <> [] -> Forall2 (fun l t => parses sub l t folsub) ls ts ->
  parses (parse_terms kw sub node) (sep_toks [k] ls) (match ts with [t] => t | _ => node ts end) fol.
Proof using Hk Hfolk Hfol.
  intros Hne H p rest Hp Hr. destruct H as [|l t ls ts Hl Hls]; [done|]. rewrite sep_tail in *.
  rewrite <-app_assoc in Hp. unfold parse_terms.
  rewrite (cy_bind_run _ _ _ _ _ (Hl p _ Hp (tail_follow ls rest Hr))). pose proof (cy_ahead_after _ _ _ Hp) as Hp1.
  unfold with_fuel at 1. unfold mbind, P_bind.
  rewrite (parses_terms_loop ls ts [t] _ _ rest Hls Hp1 Hr).
  - rewrite cy_after_after, length_app. cbn [app]. by destruct ts.
  - rewrite cy_rem_ahead, Hp1, length_app. pose proof (length_tail ls). lia.
Qed.
End terms.

(** ** Every expression of the grammar *)

Definition lev (k : nat) (rec : P WhereExpr) : P WhereExpr :=
  match k with
  | 0 => parse_atom_expr rec
  | 1 => parse_not_expr rec
  | 2 => parse_and_expr rec
  | _ => parse_terms "OR" (parse_and_expr rec) Or
  end.

(** The tokens that may follow an expression of level [k]. *)
Definition wfol (k : nat) (o : option Tok) : bool :=
  (if (2 <=? k)%nat then negb (is_kw "AND" o) else true) && (if (3 <=? k)%nat then negb (is_kw "OR" o) else true).

Lemma wfol_down k o : wfol (S k) o = true -> wfol k o = true.
Proof.
  unfold wfol. destruct k as [|[|[|k]]]; cbn [Nat.leb]; try done. rewrite !andb_true_iff. tauto.
Qed.

Record reads_where (k : nat) (ts : list Tok) (t : WhereExpr) : Prop := {
  rw_nonempty : ts <> [];
  rw_not : k = 0 -> is_kw "NOT" (head ts) = false;
  rw_parses n : List.length ts <= n -> parses (lev k (parse_or_fuel n)) ts t (wfol k);
}.

Lemma with_fuel_after {A} (f : nat -> P A) p t ts rest : ahead p = (t :: ts ++ rest)%list ->
  f (rem p) (after 1 p) = with_fuel f (after 1 p).
Proof.
  intros Hp. pose proof (cy_ahead_after p [t] _ Hp) as Hp1. cbn [List.length] in Hp1.
  unfold with_fuel. by rewrite !cy_rem_ahead, Hp1, Hp.
Qed.

Lemma sep_toks_length k l ls : l ∈ ls -> List.length l <= List.length (sep_toks [k] ls).
Proof.
  intros Hl. destruct ls as [|l0 ls]; [set_solver|]. rewrite sep_tail, length_app.
  apply elem_of_cons in Hl as [->|Hl]; [lia|]. assert (List.length l <= List.length (tail_toks k ls)); [|lia].
  induction ls as [|l1 ls IH]; [set_solver|]. unfold tail_toks in *. simpl. rewrite length_app.
  apply elem_of_cons in Hl as [->|Hl]; [lia|]. apply IH in Hl. lia.
Qed.

Lemma sep_toks_nonempty k ls : 2 <= List.length ls -> sep_toks [k] ls <> [].
Proof. intros Hl. destruct ls as [|l0 [|l1 ls]]; simpl in Hl; try lia. rewrite sep_tail. by destruct l0. Qed.

(** The terms of a chain, at one fuel. *)
Lemma chain_parses k kt ls ts n : Forall2 (reads_where k) ls ts -> List.length (sep_toks [kt] ls) <= n ->
  Forall2 (fun l t => parses (lev k (parse_or_fuel n)) l t (wfol k)) ls ts.
Proof.
  intros H Hn. assert (forall l, l ∈ ls -> List.length l <= n) as Hlen.
  { intros l Hl. pose proof (sep_toks_length kt l ls Hl). lia. }
  clear Hn. induction H as [|l t ls ts Hx Hl IH]; constructor.
  - apply Hx, Hlen. set_solver.
  - apply IH. intros l' Hl'. apply Hlen. set_solver.
Qed.

Lemma chain_node {A} (node : list A -> A) (ls : list (list Tok)) ts (R : list Tok -> A -> Prop) :
  2 <= List.length ls -> Forall2 R ls ts -> match ts with [t] => t | _ => node ts end = node ts.
Proof. intros Hl H. apply Forall2_length in H. destruct ts as [|t [|t2 ts]]; [done|simpl in H; lia|done]. Qed.

Lemma wtoks_parses k ts t : wtoks k ts t -> reads_where k ts t.
Proof.
  induction 1 as [v p ts o s Hv Hr|ts t [IH1 IH2 IH3]|k ts t Hk [IH1 IH2 IH3]|k ts t Hk [IH1 IH2 IH3]
                 |k ls ts Hk Hl IH|k ls ts Hk Hl IH] using wtoks_nested.
  - split; [done|done|]. intros n Hn. cbn [lev]. unfold parse_atom_expr. apply skip_eat; [done|]. cbv iota.
    rewrite <-(app_nil_r (Word v :: _)). eapply cy_parses_bind; [by apply parses_comparison|apply cy_parses_ret].
  - split; [done|done|]. intros n Hn. cbn [lev]. unfold parse_atom_expr.
    eapply parses_cons; [apply cy_parses_eat|]. cbv iota. destruct n as [|n]; [simpl in Hn; lia|].
    intros p rest Hp Hr. rewrite <-app_assoc in Hp. simpl in Hn. rewrite length_app in Hn. simpl in Hn.
    change (parse_or_fuel (S n)) with (lev 3 (parse_or_fuel n)).
    rewrite (cy_bind_run _ _ _ _ _ (IH3 n ltac:(lia) p _ Hp eq_refl)). pose proof (cy_ahead_after _ _ _ Hp) as Hp1.
    rewrite (cy_bind_run _ _ _ _ _ (parses_must_eat RParen _ _ _ Hp1 eq_refl)).
    unfold mret, P_ret. rewrite cy_after_after, length_app. done.
  - split; [done|done|]. intros n Hn. specialize (IH3 n Hn). destruct k as [|[|[|k]]]; [| | |lia]; cbn [lev] in *.
    + intros p rest Hp Hr. unfold parse_not_expr, with_fuel. cbn [parse_not_loop].
      rewrite no_kw_run; [by apply (IH3 p rest)|]. rewrite Hp. destruct ts; [done|]. by apply IH2.
    + intros p rest Hp Hr. unfold parse_and_expr.
      apply (parses_terms "AND" _ (Word "AND") (wfol 1) (wfol 2)) with (ls := [ts]) (ts := [t]) (rest := rest); try done.
      * intros o Ho. split; [done|]. unfold wfol in Ho. simpl in Ho. rewrite andb_true_r in Ho. by apply negb_true_iff.
      * by constructor.
    + intros p rest Hp Hr.
      apply (parses_terms "OR" _ (Word "OR") (wfol 2) (wfol 3)) with (ls := [ts]) (ts := [t]) (rest := rest); try done.
      * intros o Ho. split; [by apply wfol_down|]. unfold wfol in Ho. simpl in Ho.
        apply andb_prop in Ho as [_ Ho]. by apply negb_true_iff.
      * by constructor.
  - split; [done|done|]. intros n Hn p rest Hp Hr. cbn [lev]. unfold parse_not_expr, with_fuel. cbn [parse_not_loop].
    pose proof Hp as Hp0. rewrite (cy_bind_run _ _ _ _ _ (parses_kw "NOT" k Hk p _ Hp eq_refl)).
    cbv iota. erewrite cy_bind_run; [|rewrite (with_fuel_after _ p k ts rest Hp0);
      apply (IH3 n ltac:(simpl in Hn; lia) _ rest (cy_ahead_after p [k] _ Hp) eq_refl)].
    unfold mret, P_ret. by rewrite cy_after_after.
  - split; [by apply sep_toks_nonempty|done|]. intros n Hn. cbn [lev]. unfold parse_and_expr.
    rewrite <-(chain_node And ls ts _ Hl IH).
    apply (parses_terms "AND" (parse_not_expr (parse_or_fuel n)) k (wfol 1)); [done|done| |by intros ->; simpl in Hl; lia|].
    + intros o Ho. split; [done|]. unfold wfol in Ho. simpl in Ho. rewrite andb_true_r in Ho. by apply negb_true_iff.
    + by apply (chain_parses 1 k).
  - split; [by apply sep_toks_nonempty|done|]. intros n Hn. cbn [lev].
    rewrite <-(chain_node Or ls ts _ Hl IH).
    apply (parses_terms "OR" (parse_and_expr (parse_or_fuel n)) k (wfol 2)); [done| | |by intros ->; simpl in Hl; lia|].
    + unfold wfol. simpl. rewrite andb_true_r. apply negb_true_iff. by eapply kw_not.
    + intros o Ho. split; [by apply wfol_down|]. unfold wfol in Ho. simpl in Ho.
      apply andb_prop in Ho as [_ Ho]. by apply negb_true_iff.
    + by apply (chain_parses 2 k).
Qed.

(** The WHERE parser reads every expression of the grammar as its tree. *)
Lemma parse_where_expr_wtoks ts t : wtoks 3 ts t -> parses parse_where_expr ts t (wfol 3).
Proof.
  intros H p rest Hp Hr. unfold parse_where_expr, parse_or_expr, with_fuel.
  change (parse_or_fuel (S (rem p))) with (lev 3 (parse_or_fuel (rem p))).
  apply (rw_parses _ _ _ (wtoks_parses _ _ _ H)) with (rest := rest); [|done|done].
  rewrite cy_rem_ahead, Hp, length_app. lia.
Qed.
