(* ===== verification/CypherPattern.v ===== *)
(** * What a Cypher WHERE becomes in KQL

    [where_means t e]: the KQL expression [e] says what the WHERE tree [t] says.
    The text rendered for [t] is read by the KQL lexer as the tokens of [e] and
    parsed as [e]; in three-valued logic [e] is true, false or unknown exactly
    as [t] is, whatever the comparisons evaluate to. *)

From stdpp Require Import base gmap strings list sets.
From Stdlib Require Import NArith ZArith Lia Ascii.
From S2P Require Import Prelude Bytes Cypher CypherParser CypherEmit CypherParserSpec CypherTotal.
From S2P Require Import F64 KqlLexer KqlState KqlParser KqlExpr KqlGraph KqlLexSpec KqlRef.

Local Open Scope string_scope.

(** ** Three-valued logic *)

Definition not3 (a : option bool) : option bool := negb <$> a.
Definition and3 (a b : option bool) : option bool :=
  match a, b with
  | Some false, _ | _, Some false => Some false
  | Some true, Some true => Some true
  | _, _ => None
  end.
Definition or3 (a b : option bool) : option bool := not3 (and3 (not3 a) (not3 b)).

Lemma and3_assoc a b c : and3 a (and3 b c) = and3 (and3 a b) c.
Proof. by destruct a as [[]|], b as [[]|], c as [[]|]. Qed.
Lemma or3_assoc a b c : or3 a (or3 b c) = or3 (or3 a b) c.
Proof. by destruct a as [[]|], b as [[]|], c as [[]|]. Qed.
Lemma and3_true_l a : and3 (Some true) a = a.
Proof. by destruct a as [[]|]. Qed.
Lemma and3_true_r a : and3 a (Some true) = a.
Proof. by destruct a as [[]|]. Qed.
Lemma or3_false_r a : or3 a (Some false) = a.
Proof. by destruct a as [[]|]. Qed.

(** The truth of a KQL expression, given that of its atoms. *)
Fixpoint truth (atom : expr -> option bool) (e : expr) : option bool :=
  match e with
  | EParen e => truth atom e
  | ENot e => not3 (truth atom e)
  | EAnd a b => and3 (truth atom a) (truth atom b)
  | EOr a b => or3 (truth atom a) (truth atom b)
  | _ => atom e
  end.

(** The truth of a WHERE tree, given that of its comparisons. *)
Fixpoint where_truth (cmp : Comparison -> option bool) (t : WhereExpr) : option bool :=
  match t with
  | Cmp c => cmp c
  | Not t => not3 (where_truth cmp t)
  | And ts => foldr (fun t acc => and3 (where_truth cmp t) acc) (Some true) ts
  | Or ts => foldr (fun t acc => or3 (where_truth cmp t) acc) (Some false) ts
  end.

(** ** The expression of a tree *)

(** The text of a literal, and the literal it is in KQL: a string without a
    quote, or a numeral that is one number token. *)
Inductive lit_means : string -> expr -> Prop :=
  | lm_str l : Forall is_scalar l -> Forall (fun c => (c =? 39)%N = false) l ->
      lit_means (quote_literal (of_chars l)) (EStr (of_chars l))
  | lm_int l n : num_shape l -> number_token l = Ret (Int n, []) -> lit_means (of_chars l) (EInt n)
  | lm_float l f : num_shape l -> number_token l = Ret (Float f, []) -> lit_means (of_chars l) (EFloat f).

Definition kql_rel (o : CmpOp) : option rel_op :=
  match o with
  | OpEq => Some REq | OpNe => Some RNe | OpLt => Some RLt | OpGt => Some RGt | OpLe => Some RLe | OpGe => Some RGe
  | StartsWith => Some RStartswith | EndsWith => Some REndswith | Contains => Some RContains
  | In | IsNull | IsNotNull => None
  end.

Definition cmp_column (c : Comparison) : expr := ECol (flat (cmp_var c) (cmp_prop c)).

Inductive cmp_means (c : Comparison) : expr -> Prop :=
  | cm_rel r e : kql_rel (op c) = Some r -> lit_means (literal c) e -> cmp_means c (ERel r (cmp_column c) e)
  | cm_in l v vs : op c = In -> literal c = fmt ["("; join ", " l; ")"] -> Forall2 lit_means l (v :: vs) ->
      cmp_means c (EIn (cmp_column c) v vs)
  | cm_null : op c = IsNull -> cmp_means c (ECall "isnull" [cmp_column c])
  | cm_not_null : op c = IsNotNull -> cmp_means c (ECall "isnotnull" [cmp_column c]).

Inductive where_means : WhereExpr -> expr -> Prop :=
  | wm_cmp c e : is_word (cmp_var c) -> is_word (cmp_prop c) -> cmp_means c e -> where_means (Cmp c) e
  | wm_not t e : where_means t e -> where_means (Not t) (ENot (EParen e))
  | wm_and ts e es : Forall2 where_means ts (e :: es) -> where_means (And ts) (EParen (foldl EAnd e es))
  | wm_or ts e es : Forall2 where_means ts (e :: es) -> where_means (Or ts) (EParen (foldl EOr e es)).

Section where_means_induction.
Variable Q : WhereExpr -> expr -> Prop.
Hypothesis Hcmp : forall c e, is_word (cmp_var c) -> is_word (cmp_prop c) -> cmp_means c e -> Q (Cmp c) e.
Hypothesis Hnot : forall t e, where_means t e -> Q t e -> Q (Not t) (ENot (EParen e)).
Hypothesis Hand : forall ts e es, Forall2 Q ts (e :: es) -> Q (And ts) (EParen (foldl EAnd e es)).
Hypothesis Hor : forall ts e es, Forall2 Q ts (e :: es) -> Q (Or ts) (EParen (foldl EOr e es)).

Fixpoint where_means_nested t e (H : where_means t e) : Q t e :=
  let all := fix all ts es (H : Forall2 where_means ts es) : Forall2 Q ts es :=
    match H with
    | List.Forall2_nil _ => List.Forall2_nil Q
    | @List.Forall2_cons _ _ _ x y l l' Hx Hl => @List.Forall2_cons _ _ Q x y l l' (where_means_nested x y Hx) (all l l' Hl)
    end in
  match H with
  | wm_cmp c e Hv Hp Hc => Hcmp c e Hv Hp Hc
  | wm_not t e H => Hnot t e H (where_means_nested t e H)
  | wm_and ts e es H => Hand ts e es (all ts (e :: es) H)
  | wm_or ts e es H => Hor ts e es (all ts (e :: es) H)
  end.
End where_means_induction.

(** ** Reading the rendered text *)

Lemma reads_rel o r : kql_rel o = Some r -> reads_delim (" " +:+ kql o +:+ " ") [rel_tok r].
Proof.
  destruct o; simpl; intros [= <-];
    [fixed_text " == "|fixed_text " != "|fixed_text " < "|fixed_text " > "|fixed_text " <= "|fixed_text " >= "
    |fixed_text " startswith "|fixed_text " endswith "|fixed_text " contains "].
Qed.

Lemma reads_is_word w : is_word w -> reads_as w [Ident w].
Proof.
  intros (l & -> & c & l' & -> & Hc & Hall). exists (c :: l'). split; [split; [done|]|].
  - eapply Forall_impl; [exact Hall|]. intros x Hx%word_char_ascii. unfold is_scalar. lia.
  - apply reads_word; [done|]. exact Hall.
Qed.

(** A plain literal is one token. *)
Definition lit_token (e : expr) : list Token := write e.

Lemma reads_lit s e : lit_means s e -> reads_as s (write e) /\ level e = 0 /\ wf_expr e = true.
Proof.
  intros [l Hs Hq|l n Hsh Hn|l f Hsh Hn]; (split; [|done]).
  - exists (39%N :: double_quotes l ++ [39%N])%list. split.
    + unfold quote_literal. rewrite !fmt_cons, fmt_nil, app_empty_r, replace_of_chars by done.
      apply (text_app "'" [39%N]); [by split; [|repeat constructor]|].
      apply (text_app _ (double_quotes l) "'" [39%N]); [|by split; [|repeat constructor]].
      split; [done|by apply double_quotes_scalar].
    + apply reads_any_reads. pose proof (reads_quoted l) as H. by rewrite split_quotes_plain in H.
  - destruct Hsh as (c & l' & -> & Hc & Hall). exists (c :: l'). split; [split; [done|]|].
    + eapply Forall_impl; [exact Hall|]. intros x. unfold num_char, is_scalar, is_ascii_digit. change (ch ".") with 46%N.
      rewrite orb_true_iff, andb_true_iff, !N.leb_le, N.eqb_eq. lia.
    + by apply reads_number.
  - destruct Hsh as (c & l' & -> & Hc & Hall). exists (c :: l'). split; [split; [done|]|].
    + eapply Forall_impl; [exact Hall|]. intros x. unfold num_char, is_scalar, is_ascii_digit. change (ch ".") with 46%N.
      rewrite orb_true_iff, andb_true_iff, !N.leb_le, N.eqb_eq. lia.
    + by apply reads_number.
Qed.

Lemma commas_join l : commas l = join_toks [Comma] l.
Proof. induction l as [|t [|t2 l] IH]; [done|done|]. change (commas (t :: t2 :: l)) with (t ++ Comma :: commas (t2 :: l))%list. by rewrite IH. Qed.

(** A left-nested chain is written as its terms joined by the operator. *)
Lemma write_chain (node : expr -> expr -> expr) tok (k : nat) e es :
  (forall a b, level (node a b) <= k) -> 5 <= k ->
  (forall a b, level a <= k -> level b <= 5 -> write (node a b) = (write a ++ tok :: write b)%list) ->
  level e <= 5 -> Forall (fun e => level e <= 5) es ->
  write (foldl node e es) = join_toks [tok] (map write (e :: es)).
Proof.
  intros Hlev Hk Hw He Hes. assert (level e <= k) as Hek by lia. clear He. revert e Hek.
  induction Hes as [|e2 es He2 Hes IH]; intros e He; [done|]. cbn [foldl]. rewrite IH by done.
  cbn [map]. destruct es as [|e3 es]; cbn [map join_toks]; rewrite Hw by done; [done|].
  by rewrite <-app_assoc.
Qed.

Lemma write_and_chain e es : level e <= 5 -> Forall (fun e => level e <= 5) es ->
  write (foldl EAnd e es) = join_toks [Ident "and"] (map write (e :: es)).
Proof.
  apply (write_chain EAnd _ 6); [done|lia|]. intros a b Ha Hb. cbn [write]. unfold paren_toks.
  by rewrite (proj2 (Nat.leb_le _ _) Ha), (proj2 (Nat.leb_le _ _) Hb).
Qed.

Lemma write_or_chain e es : level e <= 5 -> Forall (fun e => level e <= 5) es ->
  write (foldl EOr e es) = join_toks [Ident "or"] (map write (e :: es)).
Proof.
  apply (write_chain EOr _ 7); [done|lia|]. intros a b Ha Hb. cbn [write]. unfold paren_toks.
  assert (level b <= 6) as Hb' by lia. by rewrite (proj2 (Nat.leb_le _ _) Ha), (proj2 (Nat.leb_le _ _) Hb').
Qed.

Lemma wf_chain (node : expr -> expr -> expr) e es :
  (forall a b, wf_expr (node a b) = wf_expr a && wf_expr b) ->
  wf_expr e = true -> Forall (fun e => wf_expr e = true) es -> wf_expr (foldl node e es) = true.
Proof.
  intros Hn He Hes. revert e He. induction Hes as [|e2 es He2 Hes IH]; intros e He; [done|].
  cbn [foldl]. apply IH. by rewrite Hn, He, He2.
Qed.

(** ** Trees *)

(** The text of a tree is the text of its expression. *)
Record rendered (s : string) (e : expr) : Prop := {
  rendered_reads : reads_as s (write e);
  rendered_wf : wf_expr e = true;
  rendered_level : level e <= 5;
}.

Lemma column_rendered v p : is_word v -> is_word p ->
  reads_as (flat v p) (write (ECol (flat v p))) /\ wf_expr (ECol (flat v p)) = true.
Proof.
  intros Hv Hp. split; [by apply reads_is_word, is_word_flat|].
  cbn [wf_expr]. apply negb_true_iff, bool_decide_eq_false. intros E.
  destruct Hv as (l1 & -> & _), Hp as (l2 & -> & H2). rewrite flat_chars in E.
  assert (Hu : "_"%char ∈ as_bytes (flat (of_chars l1) (of_chars l2))).
  { unfold flat. rewrite !fmt_cons. generalize (of_chars l1). intros u.
    induction u as [|a u IH]; [left|right; exact IH]. }
  rewrite flat_chars, E in Hu. revert Hu. clear. cbn. set_solver.
Qed.

Lemma render_clause_infix o a l r : kql_rel o = Some r ->
  render_clause o a l = a +:+ (" " +:+ kql o +:+ " ") +:+ l.
Proof. destruct o; simpl; try done; intros _; rewrite !fmt_cons, fmt_nil, app_empty_r; by rewrite !app_assoc_s. Qed.

Lemma reads_parens s ts : reads_as s ts -> reads_as_any (fmt ["("; s; ")"]) (LParen :: ts ++ [RParen]).
Proof.
  intros H. rewrite !fmt_cons, fmt_nil, app_empty_r. apply (reads_as_app_any _ [LParen]); [apply reads_lparen|].
  apply reads_as_delim; [done|apply reads_rparen].
Qed.

Lemma reads_call f s ts : reads_as_any (f +:+ "(") [Ident f; LParen] -> reads_as s ts ->
  reads_as_any (fmt [f +:+ "("; s; ")"]) (Ident f :: LParen :: ts ++ [RParen]).
Proof.
  intros Hf H. rewrite !fmt_cons, fmt_nil, app_empty_r. apply (reads_as_app_any _ [Ident f; LParen]); [done|].
  apply reads_as_delim; [done|apply reads_rparen].
Qed.

Lemma lits_level l es : Forall2 lit_means l es ->
  Forall2 reads_as l (map write es) /\ Forall (fun e => level e = 0) es /\ forallb wf_expr es = true.
Proof.
  induction 1 as [|s e l es Hs Hl (IH1 & IH2 & IH3)]; [done|].
  destruct (reads_lit s e Hs) as (H1 & H2 & H3). split_and!; [by constructor..|]. simpl. by rewrite H3, IH3.
Qed.

Lemma map_at_level k es : Forall (fun e => level e = 0) es ->
  map (fun e => paren_toks k (level e) (write e)) es = map write es.
Proof. induction 1 as [|e es He Hes IH]; [done|]. simpl. by rewrite He, IH. Qed.

Lemma cmp_rendered c e : is_word (cmp_var c) -> is_word (cmp_prop c) -> cmp_means c e ->
  rendered (render_kql (Cmp c)) e.
Proof.
  intros Hv Hp Hc. destruct (column_rendered _ _ Hv Hp) as [Hcol Hwf]. cbn [render_kql].
  change (wf_expr (cmp_column c) = true) in Hwf.
  destruct Hc as [r e Hr Hl|l v vs Ho Hlit Hl|Ho|Ho].
  - destruct (reads_lit _ _ Hl) as (H1 & H2 & H3). split; [|change (wf_expr (cmp_column c) && wf_expr e = true); by rewrite Hwf, H3|cbn; lia].
    assert (write (ERel r (cmp_column c) e) = (write (cmp_column c) ++ [rel_tok r]) ++ write e)%list as ->.
    { cbn [write]. by rewrite H2. }
    rewrite (render_clause_infix _ _ _ r), <-app_assoc_s by done.
    apply reads_as_cons; [|done]. apply reads_as_delim; [exact Hcol|by apply reads_rel].
  - destruct (lits_level _ _ Hl) as (H1 & H2 & H3). split; [|change (wf_expr (cmp_column c) && wf_expr v && forallb wf_expr vs = true); simpl in H3;
      by rewrite Hwf, <-andb_assoc, H3|cbn; lia].
    rewrite Ho, Hlit. unfold render_clause. rewrite fmt_cons.
    change (fmt [" "; kql In; " "; fmt ["("; join ", " l; ")"]])
      with (" in " +:+ fmt ["("; join ", " l; ")"]).
    assert (write (EIn (cmp_column c) v vs) = (write (cmp_column c) ++ [Ident "in"])
      ++ LParen :: join_toks [Comma] (map write (v :: vs)) ++ [RParen])%list as ->.
    { cbn [write]. by rewrite map_at_level, commas_join. }
    rewrite <-app_assoc_s. apply reads_as_cons; [apply reads_as_delim; [exact Hcol|apply reads_in]|].
    apply any_reads, reads_parens. apply reads_join; [apply reads_comma|by destruct l; inversion Hl|exact H1].
  - split; [| |cbn; lia].
    + rewrite Ho. apply any_reads, (reads_call "isnull"); [apply reads_isnull|exact Hcol].
    + change (true && (wf_expr (cmp_column c) && true) && true = true). by rewrite Hwf.
  - split; [| |cbn; lia].
    + rewrite Ho. apply any_reads, (reads_call "isnotnull"); [apply reads_isnotnull|exact Hcol].
    + change (true && (wf_expr (cmp_column c) && true) && true = true). by rewrite Hwf.
Qed.

Lemma rendered_all ts es : Forall2 (fun t e => rendered (render_kql t) e) ts es ->
  Forall2 reads_as (map render_kql ts) (map write es)
  /\ Forall (fun e => wf_expr e = true) es /\ Forall (fun e => level e <= 5) es.
Proof. induction 1 as [|t e ts es [] Hl (IH1 & IH2 & IH3)]; [done|]. cbn [map]. by split_and!; constructor. Qed.

(** A connective, rendered in parentheses. *)
Lemma chain_rendered sep tok (node : expr -> expr -> expr) ts e es :
  reads_delim sep [tok] ->
  (level e <= 5 -> Forall (fun e => level e <= 5) es ->
    write (foldl node e es) = join_toks [tok] (map write (e :: es))) ->
  (forall a b, wf_expr (node a b) = wf_expr a && wf_expr b) ->
  Forall2 (fun t e => rendered (render_kql t) e) ts (e :: es) ->
  rendered (fmt ["("; join sep (map render_kql ts); ")"]) (EParen (foldl node e es)).
Proof.
  intros Hsep Hw Hwf H. destruct (rendered_all _ _ H) as (H1 & H2 & H3).
  inversion H2; subst. inversion H3; subst. split; [|by apply wf_chain|cbn; lia].
  cbn [write]. apply any_reads, reads_parens. rewrite Hw by done.
  apply reads_join; [done|by destruct ts; inversion H|exact H1].
Qed.

Lemma where_rendered t e : where_means t e -> rendered (render_kql t) e.
Proof.
  induction 1 as [c e Hv Hp Hc|t e Ht [IH1 IH2 IH3]|ts e es IH|ts e es IH] using where_means_nested.
  - by apply cmp_rendered.
  - split; [|done|cbn; lia]. cbn [render_kql write]. rewrite !fmt_cons, fmt_nil, app_empty_r.
    change (Ident "not" :: paren_toks 5 (level (EParen e)) (LParen :: write e ++ [RParen]))%list
      with ([Ident "not"; LParen] ++ (write e ++ [RParen]))%list.
    apply reads_as_cons; [apply reads_not|]. apply any_reads, reads_as_delim; [done|apply reads_rparen].
  - apply (chain_rendered " and " (Ident "and")); [apply reads_and|apply write_and_chain|done|done].
  - apply (chain_rendered " or " (Ident "or")); [apply reads_or|apply write_or_chain|done|done].
Qed.

(** ** Truth *)

Section truth.
Variables (atom : expr -> option bool) (cmp : Comparison -> option bool).
Hypothesis Hatom : forall c e, cmp_means c e -> cmp c = atom e.

Lemma truth_chain (node : expr -> expr -> expr) (conn : option bool -> option bool -> option bool) unit e es :
  (forall a b, truth atom (node a b) = conn (truth atom a) (truth atom b)) ->
  (forall a b c, conn a (conn b c) = conn (conn a b) c) -> (forall a, conn a unit = a) ->
  truth atom (foldl node e es) = foldr (fun e acc => conn (truth atom e) acc) unit (e :: es).
Proof.
  intros Hn Ha Hu. revert e. induction es as [|e2 es IH]; intros e; cbn [foldl].
  - cbn [foldr]. by rewrite Hu.
  - rewrite IH. cbn [foldr]. by rewrite Hn, Ha.
Qed.

Lemma where_truth_means t e : where_means t e -> truth atom e = where_truth cmp t.
Proof using Hatom.
  induction 1 as [c e Hv Hp Hc|t e Ht IH|ts e es IH|ts e es IH] using where_means_nested.
  - cbn [where_truth]. rewrite (Hatom _ _ Hc). by destruct Hc.
  - cbn [truth where_truth]. by rewrite IH.
  - cbn [truth where_truth]. rewrite (truth_chain EAnd and3 (Some true)); [|done|apply and3_assoc|apply and3_true_r].
    revert IH. generalize (e :: es). intros l. induction 1 as [|t' e' ts' es' Hx Hl IHl]; [done|].
    cbn [foldr]. by rewrite IHl, Hx.
  - cbn [truth where_truth]. rewrite (truth_chain EOr or3 (Some false)); [|done|apply or3_assoc|apply or3_false_r].
    revert IH. generalize (e :: es). intros l. induction 1 as [|t' e' ts' es' Hx Hl IHl]; [done|].
    cbn [foldr]. by rewrite IHl, Hx.
Qed.
End truth.

(** ** The pattern a Cypher MATCH becomes

    [match_edges q]: the relationships of a query, each from its source to its
    destination.  The text emitted for a query with several segments is read by
    [graph-match] as exactly these edges, in order, with their types, their
    directions and the optional flag of their segment. *)

(** ** Edges *)

Definition hop_edge (opt : bool) (left : NodePat) (r : RelPat) (right : NodePat) : Edge :=
  let '(s, d) := match direction r with Cypher.Backward => (right, left) | _ => (left, right) end in
  {| e_var := rel_var r; e_type := rel_type r; e_src := node_var s; e_dst := node_var d; e_optional := opt |}.

Fixpoint hop_edges (opt : bool) (ns : list NodePat) (rs : list RelPat) : list Edge :=
  match ns, rs with
  | n :: ((m :: _) as ns), r :: rs => hop_edge opt n r m :: hop_edges opt ns rs
  | _, _ => []
  end.

Definition match_edges (q : Query) : list Edge :=
  (hop_edges false (nodes q) (rels q)
   ++ concat (map (fun s => hop_edges (seg_optional s) (seg_nodes s) (seg_rels s)) (extra_segments q)))%list.

(** ** Chains: what one segment of the emitted pattern spells *)

Record Hop := { hop_var : string; hop_type : option string; hop_node : string }.
Record Chain := { start : string; hops : list Hop }.

Fixpoint chain_edges (opt : bool) (s : string) (hs : list Hop) : list Edge :=
  match hs with
  | [] => []
  | h :: hs =>
      {| e_var := hop_var h; e_type := hop_type h; e_src := s; e_dst := hop_node h; e_optional := opt |}
      :: chain_edges opt (hop_node h) hs
  end.

Definition edge_pat (v : string) (t : option string) : string :=
  match t with Some t => fmt ["["; v; ":"; t; "]"] | None => fmt ["["; v; "]"] end.

Definition hop_text (h : Hop) : string := fmt ["-"; edge_pat (hop_var h) (hop_type h); "->("; hop_node h; ")"].
Definition chain_text (c : Chain) : string := fmt ["("; start c; ")"] +:+ fmt (map hop_text (hops c)).

Definition hop_toks (h : Hop) : list Token :=
  (LBracket :: Ident (hop_var h)
   :: match hop_type h with Some t => [Colon; Ident t] | None => [] end
   ++ [RBracket; RightArrow; LParen; Ident (hop_node h); RParen])%list.
Definition chain_toks (c : Chain) : list Token :=
  (LParen :: Ident (start c) :: RParen :: concat (map (fun h => Minus :: hop_toks h) (hops c)))%list.

Record hop_ok (h : Hop) : Prop := {
  hop_ok_var : is_word (hop_var h);
  hop_ok_type : opt_prop is_word (hop_type h);
  hop_ok_node : is_word (hop_node h);
}.
Record spelled (c : Chain) : Prop := {
  spelled_start : is_word (start c);
  spelled_hops : Forall hop_ok (hops c);
  spelled_nonempty : hops c <> [];
}.

(** ** What the emitter writes *)

Definition hop_of (r : RelPat) (n : NodePat) : Hop :=
  {| hop_var := rel_var r; hop_type := rel_type r; hop_node := node_var n |}.

(** A chain spells the relationships [rs] between the nodes [ns]. *)
Definition spells (c : Chain) (s : string) (ns : list NodePat) (rs : list RelPat) : Prop :=
  spelled c /\ s = chain_text c /\ forall opt, chain_edges opt (start c) (hops c) = hop_edges opt ns rs.

Lemma rel_pat_text r : rel_pat r = edge_pat (rel_var r) (rel_type r).
Proof. unfold rel_pat, edge_pat. by destruct (rel_type r). Qed.

Lemma hop_ok_of r n : rel_ok r -> node_ok n -> hop_ok (hop_of r n).
Proof. intros [Hv Ht _] [Hn _]. by split. Qed.

Lemma single_hop_spells n0 n1 ns r s : node_ok n0 -> node_ok n1 -> rel_ok r ->
  single_hop (n0 :: n1 :: ns) r = Ret s -> exists c, spells c s (n0 :: n1 :: ns) [r].
Proof.
  intros H0 H1 Hr [= <-]. unfold hop_pattern.
  exists (match direction r with
          | Cypher.Backward => {| start := node_var n1; hops := [hop_of r n0] |}
          | _ => {| start := node_var n0; hops := [hop_of r n1] |}
          end).
  assert (forall a b : NodePat, node_ok a -> node_ok b ->
    spelled {| start := node_var a; hops := [hop_of r b] |}
    /\ fmt ["("; node_var a; ")-"; rel_pat r; "->("; node_var b; ")"]
       = chain_text {| start := node_var a; hops := [hop_of r b] |}) as H.
  { intros a b Ha Hb. split.
    - split; [apply Ha|constructor; [by apply hop_ok_of|constructor]|done].
    - unfold chain_text, hop_text. cbn [start hops map hop_var hop_type hop_node hop_of].
      rewrite rel_pat_text, !fmt_cons, !fmt_nil, !app_empty_r. by rewrite !app_assoc_s. }
  assert (forall opt, hop_edges opt (n0 :: n1 :: ns) [r] = [hop_edge opt n0 r n1]) as He.
  { intros opt. by destruct ns. }
  unfold spells. setoid_rewrite He. unfold hop_edge. destruct (direction r); cbn [start hops];
    (split; [by apply H|split; [by apply H|done]]).
Qed.

(** The loop of a chain appends one hop per relationship. *)
Lemma chain_hops_spells reject rs : forall ns i p s,
  Forall node_ok ns -> Forall rel_ok rs -> List.length ns = S (i + List.length rs) ->
  (forall r, is_backward r = true -> reject r <> None) ->
  chain_hops reject ns rs i p = Ret s ->
  exists hs, Forall hop_ok hs /\ List.length hs = List.length rs /\ s = p +:+ fmt (map hop_text hs)
    /\ forall opt n, ns !! i = Some n -> chain_edges opt (node_var n) hs = hop_edges opt (drop i ns) rs.
Proof.
  induction rs as [|r rs IH]; intros ns i p s Hns Hrs Hl Hrej H; cbn [chain_hops] in H.
  - simplify_eq. exists []. split_and!; [constructor|done|by rewrite app_empty_r|].
    intros opt n Hn. cbn [chain_edges]. destruct (drop i ns) as [|? [|]]; done.
  - destruct (reject r) eqn:Er; [done|]. apply bind_Ret in H as (m & Hm & H).
    assert (ns !! (i + 1) = Some m) as Hm' by (destruct (ns !! (i + 1)); simpl in Hm; congruence).
    inversion Hrs as [|? ? Hr Hrs']; subst.
    destruct (IH ns (i + 1) _ s Hns Hrs' ltac:(simpl in Hl; lia) Hrej H) as (hs & H1 & H2 & -> & H4).
    assert (node_ok m) as Hmok by (rewrite Forall_forall in Hns; eapply Hns, list_elem_of_lookup_2, Hm').
    exists (hop_of r m :: hs). split_and!.
    + constructor; [by apply hop_ok_of|done].
    + simpl. by rewrite H2.
    + cbn [map]. rewrite rel_pat_text. rewrite (fmt_cons (hop_text _)). unfold hop_text.
      cbn [hop_var hop_type hop_node hop_of]. rewrite !fmt_cons, !fmt_nil, !app_empty_r. by rewrite !app_assoc_s.
    + intros opt n Hn. cbn [chain_edges hop_node hop_of]. rewrite (H4 opt m Hm').
      rewrite (drop_S ns n i Hn), (drop_S ns m (S i)) by (by rewrite <-Nat.add_1_r).
      rewrite Nat.add_1_r. cbn [hop_edges]. f_equal.
      * unfold hop_edge, hop_of. cbn [hop_var hop_type]. destruct (direction r) eqn:Ed; try done.
        exfalso. apply (Hrej r); [|done]. unfold is_backward. by rewrite Ed.
      * by rewrite (drop_S ns m (S i)) by (by rewrite <-Nat.add_1_r).
Qed.

Lemma segment_spells ns rs s : chain_ok ns rs -> segment_pattern ns rs = Ret s -> exists c, spells c s ns rs.
Proof.
  intros [H1 H2 H3 H4]. unfold segment_pattern. destruct (existsb is_var_length rs); [done|].
  destruct rs as [|r [|r2 rs]]; [done| |].
  - destruct ns as [|n0 [|n1 ns]]; [done..|]. inversion H1 as [|? ? Hn0 Hn']; subst. inversion Hn'; subst. inversion H2; subst.
    by apply single_hop_spells.
  - unfold chain_pattern. intros (n0 & Hn0 & H)%bind_Ret. destruct ns as [|n ns]; [done|]. injection Hn0 as ->.
    assert (forall r', is_backward r' = true -> reject_in_segment r' <> None) as Hrej.
    { intros x Hx. unfold reject_in_segment. by rewrite Hx. }
    destruct (chain_hops_spells _ _ _ 0 _ _ H1 H2 H3 Hrej H) as (hs & Hh & Hlen & -> & He).
    exists {| start := node_var n0; hops := hs |}. split; [|split; [by rewrite !fmt_cons|]].
    + split; [by inversion H1 as [|? ? [? _]]|done|]. intros E. cbn [hops] in E. by rewrite E in Hlen.
    + intros opt. by apply He.
Qed.

(** The texts [ps] spell chains with the edges between [ns] along [rs]. *)
Definition spell_all (cs : list Chain) (ps : list string) (ns : list NodePat) (rs : list RelPat) : Prop :=
  Forall spelled cs /\ ps = map chain_text cs
  /\ forall opt, concat (map (fun c => chain_edges opt (start c) (hops c)) cs) = hop_edges opt ns rs.

Lemma hop_segments_spell ns rs : Forall node_ok ns -> Forall rel_ok rs ->
  forall n i out ps, for_each (hop_segment ns rs) (seq i n) out = Ret ps -> i + n = List.length rs ->
  exists cs, Forall spelled cs /\ List.length cs = n /\ ps = (out ++ map chain_text cs)%list
    /\ forall opt, concat (map (fun c => chain_edges opt (start c) (hops c)) cs) = hop_edges opt (drop i ns) (drop i rs).
Proof.
  intros Hns Hrs. induction n as [|n IH]; intros i out ps H Hi; cbn [seq for_each] in H.
  { simplify_eq. exists []. split_and!; [constructor|done|by rewrite app_nil_r|]. intros opt.
    rewrite (drop_ge rs) by lia. by destruct (drop i ns) as [|? [|]]. }
  apply bind_Ret in H as (out' & Hseg & H). unfold hop_segment, slice in Hseg.
  apply bind_Ret in Hseg as (ns' & Hns' & Hseg). destruct (decide (i <= i + 2 <= _)) as [[_ Hn]|]; [|done].
  apply bind_Ret in Hseg as (rs' & Hrs' & Hseg). destruct (decide (i <= i + 1 <= _)) as [[_ Hr]|]; [|done].
  injection Hns' as <-. injection Hrs' as <-. apply bind_Ret in Hseg as (p & Hp & [= <-]).
  destruct (lookup_lt_is_Some_2 ns i) as [n0 H0]; [lia|]. destruct (lookup_lt_is_Some_2 ns (S i)) as [n1 H1]; [lia|].
  destruct (lookup_lt_is_Some_2 rs i) as [r H2]; [lia|].
  rewrite (drop_S ns n0 i H0), (drop_S ns n1 (S i) H1), (drop_S rs r i H2) in *.
  replace (i + 2 - i) with 2 in Hp by lia. replace (i + 1 - i) with 1 in Hp by lia. cbn [take] in Hp.
  assert (forall x, x ∈ ns -> node_ok x) as Hn' by by apply Forall_forall.
  assert (forall x, x ∈ rs -> rel_ok x) as Hr' by by apply Forall_forall.
  destruct (segment_spells [n0; n1] [r] p) as (c & Hc & -> & He); [|exact Hp|].
  { split; [|by constructor; [eapply Hr', list_elem_of_lookup_2|constructor]|done|done].
    constructor; [|constructor; [|constructor]]; eapply Hn', list_elem_of_lookup_2; done. }
  destruct (IH (S i) _ ps H ltac:(lia)) as (cs & Hcs & Hlen & -> & Hes).
  exists (c :: cs). split_and!; [by constructor|by rewrite <-Hlen|by rewrite <-app_assoc|].
  intros opt. cbn [map concat]. rewrite He, Hes. by rewrite (drop_S ns n1 (S i) H1).
Qed.

Lemma segments_spell ns rs ps : chain_ok ns rs -> segment_patterns ns rs = Ret ps ->
  exists cs, spell_all cs ps ns rs /\ cs <> []
    /\ ((1 <? List.length rs)%nat && existsb is_backward rs = true -> 1 < List.length cs).
Proof.
  intros Hok. pose proof Hok as [H1 H2 H3 H4]. unfold segment_patterns. destruct (_ && _) eqn:Eb.
  - intros H. destruct (hop_segments_spell ns rs H1 H2 _ 0 [] ps H ltac:(lia)) as (cs & Hcs & Hlen & -> & He).
    apply andb_true_iff in Eb as [Eb%Nat.ltb_lt _].
    exists cs. split; [split_and!; [done|done|exact He]|]. split; [|lia]. intros ->. simpl in Hlen. lia.
  - intros (p & Hp & [= <-])%bind_Ret. destruct (segment_spells _ _ _ Hok Hp) as (c & Hc & -> & He).
    exists [c]. split; [|done]. split_and!; [by constructor|done|]. intros opt. cbn [map concat]. by rewrite app_nil_r.
Qed.

(** A segment of the emitted pattern: its optional flag and its chain. *)
Definition marked_text (x : bool * Chain) : string := optional_prefix x.1 (chain_text x.2).
Definition marked_edges (x : bool * Chain) : list Edge := chain_edges x.1 (start x.2) (hops x.2).

Lemma mark_edges opt cs :
  concat (map marked_edges (map (pair opt) cs)) = concat (map (fun c => chain_edges opt (start c) (hops c)) cs).
Proof. by rewrite map_map. Qed.

Lemma extra_segments_spell segs : Forall segment_ok segs -> forall out ps,
  for_each extra_segment segs out = Ret ps -> exists l, Forall (fun x => spelled x.2) l
    /\ ps = (out ++ map marked_text l)%list
    /\ concat (map marked_edges l)
       = concat (map (fun s => hop_edges (seg_optional s) (seg_nodes s) (seg_rels s)) segs)
    /\ (segs <> [] -> l <> []).
Proof.
  induction 1 as [|s segs Hs Hsegs IH]; intros out ps H; cbn [for_each] in H.
  { simplify_eq. exists []. split_and!; [constructor|by rewrite app_nil_r|done..]. }
  apply bind_Ret in H as (out' & Hseg & H). unfold extra_segment in Hseg. apply bind_Ret in Hseg as (qs & Hqs & [= <-]).
  destruct (segments_spell _ _ _ Hs Hqs) as (cs & (Hcs & -> & He) & Hne & _). destruct (IH _ _ H) as (l & Hl & -> & Hle & _).
  exists (map (pair (seg_optional s)) cs ++ l)%list. split_and!.
  - apply Forall_app. split; [|done]. apply List.Forall_map. eapply Forall_impl; [exact Hcs|]. done.
  - rewrite map_app, !map_map, <-app_assoc. done.
  - rewrite map_app, concat_app, Hle. cbn [map concat]. rewrite mark_edges, He. done.
  - intros _. by destruct cs.
Qed.

(** What the emitter writes for a query with several segments. *)
Definition several_segments (q : Query) : bool :=
  negb (is_empty (extra_segments q)) || ((1 <? List.length (rels q))%nat && existsb is_backward (rels q)).

Lemma prefix_spells q g proj s : query_ok q -> several_segments q = true ->
  graph_match_prefix q g proj = Ret s ->
  exists c l, Forall (fun x => spelled x.2) ((false, c) :: l) /\ l <> []
    /\ s = match_prefix g [" | graph-match "; join ", " (map marked_text ((false, c) :: l)); " project "; proj]
    /\ concat (map marked_edges ((false, c) :: l)) = match_edges q.
Proof.
  intros Hq Hs. unfold graph_match_prefix. change (_ || _) with (several_segments q). rewrite Hs.
  intros (ps & Hps & H)%bind_Ret. apply bind_Ret in H as (segs & Hsegs & [= <-]).
  destruct (segments_spell _ _ _ (ok_chain _ Hq) Hps) as (cs & (Hcs & -> & He) & Hne & Hback).
  destruct (extra_segments_spell _ (ok_segments _ Hq) _ _ Hsegs) as (l & Hl & -> & Hle & Hmore).
  destruct cs as [|c cs]; [done|]. exists c, (map (pair false) cs ++ l)%list.
  change ((false, c) :: map (pair false) cs ++ l)%list with (map (pair false) (c :: cs) ++ l)%list. split_and!.
  - apply Forall_app. split; [|done]. apply List.Forall_map. eapply Forall_impl; [exact Hcs|]. done.
  - unfold several_segments in Hs. apply orb_true_iff in Hs as [Hs|Hs].
    + destruct (extra_segments q); [done|]. destruct l; [by destruct Hmore|]. by destruct cs.
    + specialize (Hback Hs). by destruct cs; [simpl in Hback; lia|].
  - by rewrite map_app, map_map.
  - rewrite map_app, concat_app, mark_edges, He, Hle. done.
Qed.

(** ** Reading the pattern *)

Lemma reads_dash_bracket : reads_as_any "-[" [Minus; LBracket].
Proof. fixed_text "-[". Qed.
Lemma reads_colon : reads_delim ":" [Colon].
Proof. fixed_text ":". Qed.
Lemma reads_arrow : reads_delim "]->(" [RBracket; RightArrow; LParen].
Proof. fixed_text "]->(". Qed.
Lemma reads_optional : reads_as_any "OPTIONAL " [Ident "OPTIONAL"].
Proof. fixed_text "OPTIONAL ". Qed.

Lemma hop_text_pieces h : hop_text h =
  "-[" +:+ ((hop_var h +:+ match hop_type h with Some t => ":" +:+ t | None => "" end) +:+ "]->(") +:+ (hop_node h +:+ ")").
Proof.
  unfold hop_text, edge_pat. destruct (hop_type h); rewrite !fmt_cons, !fmt_nil, ?app_empty_r; by rewrite !app_assoc_s.
Qed.

Lemma reads_hop h : hop_ok h -> reads_as_any (hop_text h) (Minus :: hop_toks h).
Proof.
  intros [Hv Ht Hn]. rewrite hop_text_pieces.
  assert (Minus :: hop_toks h = [Minus; LBracket] ++ (([Ident (hop_var h)]
    ++ match hop_type h with Some t => [Colon; Ident t] | None => [] end) ++ [RBracket; RightArrow; LParen])
    ++ ([Ident (hop_node h)] ++ [RParen]))%list as ->.
  { unfold hop_toks. cbn [app]. by rewrite <-!app_assoc. }
  apply reads_as_app_any; [apply reads_dash_bracket|]. apply reads_as_app_any.
  - apply reads_as_delim; [|apply reads_arrow]. destruct (hop_type h) as [t|].
    + change [Colon; Ident t] with ([Colon] ++ [Ident t])%list. rewrite app_assoc, <-app_assoc_s.
      apply reads_as_cons; [|by apply reads_is_word]. apply reads_as_delim; [by apply reads_is_word|apply reads_colon].
    + rewrite app_empty_r, app_nil_r. by apply reads_is_word.
  - apply reads_as_delim; [by apply reads_is_word|apply reads_rparen].
Qed.

Lemma reads_hops hs : Forall hop_ok hs ->
  reads_as_any (fmt (map hop_text hs)) (concat (map (fun h => Minus :: hop_toks h) hs)).
Proof.
  induction 1 as [|h hs Hh Hhs IH].
  - exists []. split; [by split|apply reads_any_nil].
  - cbn [map concat]. rewrite fmt_cons. apply reads_as_app_any; [by apply reads_hop|done].
Qed.

Lemma reads_chain c : spelled c -> reads_as_any (chain_text c) (chain_toks c).
Proof.
  intros [Hs Hh _]. unfold chain_text, chain_toks.
  apply (reads_as_app_any _ [LParen; Ident (start c); RParen]); [|by apply reads_hops].
  apply (reads_parens (start c) [Ident (start c)]). by apply reads_is_word.
Qed.

Definition marked_toks (x : bool * Chain) : list Token :=
  ((if x.1 then [Ident "OPTIONAL"] else []) ++ chain_toks x.2)%list.

Lemma reads_marked x : spelled x.2 -> reads_as_any (marked_text x) (marked_toks x).
Proof.
  destruct x as [[] c]; intros Hc; cbn [fst snd] in Hc; unfold marked_text, marked_toks, optional_prefix; cbn [fst snd app].
  - rewrite fmt_cons, fmt_cons, fmt_nil, app_empty_r.
    apply (reads_as_app_any _ [Ident "OPTIONAL"]); [apply reads_optional|by apply reads_chain].
  - by apply reads_chain.
Qed.

Lemma reads_pattern l : l <> [] -> Forall (fun x => spelled x.2) l ->
  reads_as (join ", " (map marked_text l)) (join_toks [Comma] (map marked_toks l)).
Proof.
  intros Hne Hl. apply reads_join; [apply reads_comma|by destruct l|].
  clear Hne. induction Hl as [|x l Hx Hl IH]; [constructor|]. constructor; [by apply any_reads, reads_marked|done].
Qed.

(** ** Parsing the pattern *)

Definition any (t : option Token) : bool := true.

Lemma parses_ret {A} (a : A) fol : parses (mret a) [] a fol.
Proof. intros p rest _ _. unfold mret, P_ret, after. cbn [List.length]. rewrite Nat.add_0_r. by destruct p. Qed.

Lemma parses_bind {A B} (m : KqlParser.P A) (k : A -> KqlParser.P B) ts1 ts2 a b f1 fol :
  parses m ts1 a f1 -> parses (k a) ts2 b fol ->
  (forall rest, fol (head rest) = true -> f1 (head (ts2 ++ rest)) = true) -> parses (m ≫= k) (ts1 ++ ts2) b fol.
Proof.
  intros Hm Hk Hf p rest Hp Hrest. rewrite <-app_assoc in Hp.
  rewrite (bind_run _ _ _ _ _ (Hm p _ Hp (Hf _ Hrest))), (Hk _ rest (ahead_after _ _ _ Hp) Hrest).
  by rewrite after_after, length_app.
Qed.

Lemma parses_then {A B} (m : KqlParser.P A) (k : A -> KqlParser.P B) ts1 ts2 a b fol :
  parses m ts1 a any -> parses (k a) ts2 b fol -> parses (m ≫= k) (ts1 ++ ts2) b fol.
Proof. intros Hm Hk. by eapply parses_bind. Qed.

Lemma parses_expect t what : parses (KqlParser.expect t what) [t] tt any.
Proof. intros p rest Hp _. by rewrite (expect_yes p t what rest Hp). Qed.

Lemma parses_ident v : parses KqlParser.expect_ident [Ident v] v any.
Proof. intros p rest Hp _. unfold KqlParser.expect_ident. by rewrite (bind_run _ _ _ _ _ (bump_yes p _ rest Hp)). Qed.

Lemma parses_eat t : parses (KqlParser.eat t) [t] true any.
Proof. intros p rest Hp _. by rewrite (eat_yes p t rest Hp). Qed.

Definition not_tok (t : Token) (o : option Token) : bool := negb (bool_decide (o = Some t)).

Lemma parses_no_eat t : parses (KqlParser.eat t) [] false (not_tok t).
Proof.
  intros p rest Hp Hf. rewrite (eat_no p t).
  - unfold after. cbn [List.length]. rewrite Nat.add_0_r. by destruct p.
  - cbn [app] in Hp. rewrite Hp. by apply negb_true_iff, bool_decide_eq_false in Hf.
Qed.

Lemma parses_node v : parses KqlGraph.parse_node_pattern [LParen; Ident v; RParen] v any.
Proof.
  unfold KqlGraph.parse_node_pattern.
  eapply (parses_then _ _ [LParen] [Ident v; RParen]); [apply parses_expect|].
  eapply (parses_then _ _ [Ident v] [RParen]); [apply parses_ident|].
  eapply (parses_then _ _ [RParen] []); [apply parses_expect|apply parses_ret].
Qed.

Lemma parses_edge_type t : parses parse_edge_type (match t with Some t => [Colon; Ident t] | None => [] end) t (not_tok Colon).
Proof.
  unfold parse_edge_type. destruct t as [t|].
  - eapply (parses_then _ _ [Colon] [Ident t]); [apply parses_eat|]. cbn beta iota.
    eapply (parses_then _ _ [Ident t] []); [apply parses_ident|apply parses_ret].
  - eapply (parses_bind _ _ [] []); [apply parses_no_eat|apply parses_ret|done].
Qed.

Lemma parses_hop h : parses parse_hop_pattern (hop_toks h) (hop_var h, hop_type h, hop_node h) any.
Proof.
  unfold parse_hop_pattern, hop_toks.
  eapply (parses_then _ _ [LBracket]); [apply parses_expect|].
  eapply (parses_then _ _ [Ident _]); [apply parses_ident|].
  eapply parses_bind; [apply parses_edge_type| |done].
  eapply (parses_then _ _ [RBracket]); [apply parses_expect|].
  eapply (parses_then _ _ [RightArrow]); [apply parses_expect|].
  eapply (parses_then _ _ [LParen; Ident _; RParen] []); [apply parses_node|apply parses_ret].
Qed.

(** The tokens of the hops after the first dash of a chain. *)
Definition hops_toks (hs : list Hop) : list Token := join_toks [Minus] (map hop_toks hs).

Lemma hops_toks_concat h hs : concat (map (fun h => Minus :: hop_toks h) (h :: hs)) = Minus :: hops_toks (h :: hs).
Proof.
  revert h. induction hs as [|h2 hs IH]; intros h; [cbn; by rewrite app_nil_r|].
  change (concat (map _ (h :: h2 :: hs)))
    with (Minus :: hop_toks h ++ concat (map (fun h => Minus :: hop_toks h) (h2 :: hs)))%list. by rewrite IH.
Qed.

Definition hop_edge_pat (h : Hop) : string * option string := (hop_var h, hop_type h).

Lemma parses_hops hs : hs <> [] -> forall nodes edges fuel, List.length hs <= fuel ->
  parses (hops_loop nodes edges fuel) (hops_toks hs)
    ((nodes ++ map hop_node hs)%list, (edges ++ map hop_edge_pat hs)%list) (not_tok Minus).
Proof.
  induction hs as [|h hs IH]; [done|]. intros _ nodes edges [|fuel] Hl; simpl in Hl; [lia|]. cbn [hops_loop].
  destruct hs as [|h2 hs].
  - rewrite <-(app_nil_r (hops_toks [h])). unfold hops_toks. cbn [map join_toks].
    eapply parses_then; [apply parses_hop|]. cbn beta iota.
    eapply (parses_bind _ _ [] []); [apply parses_no_eat|apply parses_ret|done].
  - change (hops_toks (h :: h2 :: hs)) with (hop_toks h ++ [Minus] ++ hops_toks (h2 :: hs))%list.
    eapply parses_then; [apply parses_hop|]. cbn beta iota.
    eapply parses_then; [apply parses_eat|]. cbn beta iota.
    pose proof (IH ltac:(done) (nodes ++ [hop_node h])%list (edges ++ [hop_edge_pat h])%list fuel ltac:(lia)) as H.
    by rewrite <-!app_assoc in H.
Qed.

Lemma first_edges_chain s hs :
  first_edges (s :: map hop_node hs) (map hop_edge_pat hs) = Some (chain_edges false s hs).
Proof.
  revert s. induction hs as [|h hs IH]; intros s; [done|]. cbn [map first_edges hop_edge_pat]. by rewrite IH.
Qed.

Lemma parses_segment hs : hs <> [] -> forall prev opt nv el fuel, List.length hs <= fuel ->
  parses (segment_loop prev opt nv el fuel) (hops_toks hs)
    (foldl push_node nv (map hop_node hs), (el ++ chain_edges opt prev hs)%list) (not_tok Minus).
Proof.
  induction hs as [|h hs IH]; [done|]. intros _ prev opt nv el [|fuel] Hl; simpl in Hl; [lia|]. cbn [segment_loop].
  destruct hs as [|h2 hs].
  - rewrite <-(app_nil_r (hops_toks [h])). unfold hops_toks. cbn [map join_toks].
    eapply parses_then; [apply parses_hop|]. cbn beta iota.
    eapply (parses_bind _ _ [] []); [apply parses_no_eat|apply parses_ret|done].
  - change (hops_toks (h :: h2 :: hs)) with (hop_toks h ++ [Minus] ++ hops_toks (h2 :: hs))%list.
    eapply parses_then; [apply parses_hop|]. cbn beta iota.
    eapply parses_then; [apply parses_eat|]. cbn beta iota.
    pose proof (IH ltac:(done) (hop_node h) opt (push_node nv (hop_node h))
      (el ++ [{| e_var := hop_var h; e_type := hop_type h; e_src := prev; e_dst := hop_node h; e_optional := opt |}])%list
      fuel ltac:(lia)) as H.
    by rewrite <-app_assoc in H.
Qed.

(** The segments after the first. *)
Definition more_toks (l : list (bool * Chain)) : list Token := concat (map (fun x => Comma :: marked_toks x) l).

Definition chain_nodes (c : Chain) : list string := start c :: map hop_node (hops c).

Lemma chain_toks_hops c : hops c <> [] ->
  chain_toks c = ([LParen; Ident (start c); RParen] ++ [Minus] ++ hops_toks (hops c))%list.
Proof. destruct c as [s [|h hs]]; [done|]. intros _. unfold chain_toks. cbn [start hops]. by rewrite hops_toks_concat. Qed.

Lemma parses_opt_kw (opt : bool) :
  parses (eat_ident_eq "OPTIONAL") (if opt then [Ident "OPTIONAL"] else []) opt (fun o => if opt then true else not_tok (Ident "OPTIONAL") o).
Proof.
  intros p rest Hp Hf. unfold eat_ident_eq, KqlParser.peek_ident_eq.
  rewrite (bind_run _ _ _ (bool_decide (head (ahead p) = Some (Ident "OPTIONAL"))) p) by (rewrite (bind_run _ _ _ _ _ (peek_ahead p)); done).
  rewrite Hp. destruct opt; [done|]. cbn [app]. apply negb_true_iff in Hf. rewrite Hf. cbn. unfold after.
  rewrite Nat.add_0_r. by destruct p.
Qed.

Lemma parses_with_fuel {A} (f : nat -> KqlParser.P A) ts a fol :
  (forall n, List.length ts < n -> parses (f n) ts a fol) -> parses (KqlParser.with_fuel f) ts a fol.
Proof.
  intros H p rest Hp Hf. unfold KqlParser.with_fuel. refine (H _ _ p rest Hp Hf).
  rewrite rem_ahead, Hp, length_app. lia.
Qed.

Lemma hops_toks_length hs : List.length hs <= List.length (hops_toks hs).
Proof.
  induction hs as [|h [|h2 hs] IH]; [done|simpl; lia|].
  change (hops_toks (h :: h2 :: hs)) with (hop_toks h ++ [Minus] ++ hops_toks (h2 :: hs))%list.
  rewrite !length_app. change (List.length (h :: h2 :: hs)) with (S (List.length (h2 :: hs))).
  cbn [List.length]. cbn [List.length] in IH. lia.
Qed.

Lemma more_toks_length l : List.length l <= List.length (more_toks l).
Proof.
  unfold more_toks. induction l as [|x l IH]; [done|]. cbn [map concat]. rewrite length_app. cbn [List.length]. lia.
Qed.

Definition pattern_end (o : option Token) : bool := not_tok Minus o && not_tok Comma o.

Lemma parses_segments l : Forall (fun x => spelled x.2) l -> forall nv el fuel, List.length l < fuel ->
  parses (segments_loop nv el fuel) (more_toks l)
    (foldl push_node nv (concat (map (fun x => chain_nodes x.2) l)), (el ++ concat (map marked_edges l))%list) pattern_end.
Proof.
  induction 1 as [|[opt c] l Hc Hl IH]; intros nv el [|fuel] Hfuel; try (simpl in Hfuel; lia); cbn [segments_loop].
  { eapply (parses_bind _ _ [] [] _ _ (not_tok Comma)); [apply parses_no_eat| |].
    - cbn beta iota. unfold more_toks. cbn. rewrite app_nil_r. apply parses_ret.
    - intros rest [_ H]%andb_true_iff. exact H. }
  cbn [snd] in Hc. unfold more_toks, marked_toks. cbn [map concat fst snd]. rewrite <-app_comm_cons, <-app_assoc.
  eapply (parses_then _ _ [Comma]); [apply parses_eat|]. cbn beta iota.
  rewrite chain_toks_hops, <-!app_assoc by apply Hc.
  eapply parses_bind; [apply parses_opt_kw| |by intros; destruct opt].
  eapply (parses_then _ _ [LParen; Ident _; RParen]); [apply parses_node|].
  eapply (parses_then _ _ [Minus]); [apply parses_expect|].
  eapply parses_bind; [apply parses_with_fuel; intros n Hn; apply parses_segment; [apply Hc|]| |].
  { pose proof (hops_toks_length (hops c)). lia. }
  - cbn beta iota. pose proof (IH (foldl push_node (push_node nv (start c)) (map hop_node (hops c)))
      (el ++ chain_edges opt (start c) (hops c))%list fuel ltac:(cbn in Hfuel; lia)) as H.
    rewrite <-app_assoc in H. rewrite foldl_app. exact H.
  - intros rest [Hm Hcm]%andb_true_iff. destruct l; [exact Hm|done].
Qed.

(** What [graph-match] does with the edges of several segments: the rest of
    [emit_general_graph_match] after its segments are read. *)
Definition match_result (def : GraphDef) (node_vars : list string) (edge_list : list Edge) : KqlParser.P unit :=
  select_items ← parse_project_list "graph-match" (general_alias node_vars edge_list);
  let sel := join ", " select_items in
  let src := quote_ident (src_col def) in
  let dst := quote_ident (dst_col def) in
  let id := quote_ident (id_col def) in
  from ← lift (general_from (edge_table def) (node_table def) src dst id node_vars edge_list);
  let body := fmt ["SELECT "; sel; " FROM "; from; where_sql (general_wheres edge_list)] in
  _ ← KqlParser.update_state (push_cte ("_gm_result", body, false));
  KqlParser.update_state (set_table "_gm_result").

Definition marked_nodes (l : list (bool * Chain)) : list string :=
  foldl push_node [] (concat (map (fun x => chain_nodes x.2) l)).

(** A pattern of several segments is read as the edges of its chains. *)
Lemma op_graph_match_parses c l def p rest : Forall (fun x => spelled x.2) ((false, c) :: l) -> l <> [] ->
  graph_def (state p) = Some def ->
  ahead p = (join_toks [Comma] (map marked_toks ((false, c) :: l)) ++ rest)%list -> pattern_end (head rest) = true ->
  op_graph_match p = match_result def (marked_nodes ((false, c) :: l)) (concat (map marked_edges ((false, c) :: l)))
    (after (List.length (join_toks [Comma] (map marked_toks ((false, c) :: l)))) p).
Proof.
  intros Hall Hne Hdef Hp Hend. inversion Hall as [|? ? Hc Hl]; subst. cbn [snd] in Hc.
  assert (forall x, join_toks [Comma] (map marked_toks (x :: l)) = (marked_toks x ++ more_toks l)%list) as E.
  { clear. induction l as [|y l IH]; intros x; [unfold more_toks; cbn; by rewrite app_nil_r|].
    change (join_toks [Comma] (map marked_toks (x :: y :: l)))
      with (marked_toks x ++ [Comma] ++ join_toks [Comma] (map marked_toks (y :: l)))%list. by rewrite IH. }
  rewrite E in *. unfold marked_toks in *. cbn [fst snd app] in *. rewrite chain_toks_hops, <-!app_assoc in * by apply Hc.
  unfold op_graph_match. rewrite (bind_run get_state _ p (state p) p eq_refl), Hdef.
  rewrite (bind_run _ _ _ _ _ (parses_node (start c) p _ Hp eq_refl)).
  pose proof (ahead_after _ _ _ Hp) as H1. cbn [List.length] in H1. rewrite (bind_run _ _ _ _ _ (parses_expect Minus "-" _ _ H1 eq_refl)).
  pose proof (ahead_after _ _ _ H1) as H2.
  cbn [List.length] in H1, H2.
  assert (head (more_toks l ++ rest) = Some Comma) as Hcomma by by destruct l.
  rewrite (bind_run _ _ _ ([start c] ++ map hop_node (hops c), [] ++ map hop_edge_pat (hops c))%list
    (after (List.length (hops_toks (hops c))) (after 1 (after 3 p)))).
  2:{ eapply (parses_with_fuel _ _ _ (not_tok Minus)); [|exact H2|by rewrite Hcomma].
      intros n Hn. apply parses_hops; [apply Hc|]. pose proof (hops_toks_length (hops c)). lia. }
  pose proof (ahead_after _ _ _ H2) as H3. cbn beta iota.
  rewrite (bind_run _ _ _ _ _ (peek_ahead _)), H3, Hcomma, decide_True by done.
  unfold emit_general_graph_match. cbn [app]. rewrite first_edges_chain.
  rewrite (bind_run _ _ _ (chain_edges false (start c) (hops c)) (after (List.length (hops_toks (hops c))) (after 1 (after 3 p))) eq_refl).
  rewrite (bind_run _ _ _ (marked_nodes ((false, c) :: l), concat (map marked_edges ((false, c) :: l)))
    (after (List.length (more_toks l)) (after (List.length (hops_toks (hops c))) (after 1 (after 3 p))))).
  - rewrite !after_after. cbn [List.length app]. rewrite !length_app. unfold match_result. repeat f_equal; lia.
  - eapply (parses_with_fuel _ _ _ pattern_end); [|exact H3|done]. intros n Hn. unfold marked_nodes. cbn [map concat snd].
    rewrite foldl_app. apply (parses_segments l Hl). pose proof (more_toks_length l). lia.
Qed.
