(* ===== verification/CypherProperties.v ===== *)
(** * Properties of the Cypher front end

    Totality of the translation and of write statements, the shape of what the
    parser returns, and what the emitted KQL means: its pattern, its WHERE, its
    literals and its columns. *)

From stdpp Require Import base gmap strings list sets.
From Stdlib Require Import NArith ZArith Lia Ascii.
From S2P Require Import Prelude Bytes Cypher CypherParser CypherEmit CypherParserSpec CypherTotal CypherGrammar CypherPattern.
From S2P Require Import F64 KqlLexer KqlState KqlParser KqlExpr KqlGraph KqlLexSpec KqlRef.

Local Open Scope string_scope.

(** The query a source text parses to. *)
Definition parsed (src : string) : outcome Cypher.ParseError Query :=
  ts ← Cypher.tokenize src; '(q, _) ← parse_query (CypherParser.new_parser ts); Ret q.

Lemma parsed_ok src q : is_str src -> parsed src = Ret q -> query_ok q.
Proof. intros Hs H. pose proof (run_parser parse_query query_ok src Hs cy_spec_query) as Hr. unfold parsed in H. by rewrite H in Hr. Qed.

Lemma cypher_to_kql_parsed src g : cypher_to_kql src g = (q ← parsed src; emit q g).
Proof.
  unfold cypher_to_kql, parsed. destruct (Cypher.tokenize src) as [ts| | |]; try done. cbn [mbind outcome_bind].
  by destruct (parse_query _) as [[q p]| | |].
Qed.

Definition returns_or_fails {E A} (o : outcome E A) : Prop :=
  match o with Ret _ | Fail _ => True | Panic | OutOfFuel => False end.

Definition sample_graph : GraphBinding :=
  {| CypherEmit.edge_table := "edges"; CypherEmit.node_table := "nodes"; CypherEmit.id_col := "id";
     CypherEmit.src_col := "src"; CypherEmit.dst_col := "dst"; CypherEmit.type_col := "type"; label_col := "label" |}.

(** ** Totality *)

(** C37: The Cypher front end never panics and never loops: on every UTF-8
    source, [cypher_to_kql] (every index and slice of the emitter included) and
    [parse_cypher_write] return a result or an error; a query that parses has the
    shape the emitter relies on. *)
Theorem cypher_total src g id_col : is_str src ->
  returns_or_fails (cypher_to_kql src g) /\ returns_or_fails (parse_cypher_write src id_col)
  /\ forall q, parsed src = Ret q -> query_ok q.
Proof.
  intros Hs. split_and!; [| |intros q; by apply parsed_ok].
  - rewrite cypher_to_kql_parsed. pose proof (run_parser parse_query query_ok src Hs cy_spec_query) as Hr.
    fold (parsed src) in Hr. destruct (parsed src) as [q| | |]; try done. cbn [mbind outcome_bind].
    pose proof (sound_emit q g Hr) as He. by destruct (emit q g).
  - pose proof (run_parser (parse_write id_col) (some_plan id_col) src Hs (fun n => spec_write n id_col)) as Hr.
    unfold parse_cypher_write. by destruct (_ ≫= _).
Qed.

Definition sample_src : string := "MATCH (a:User)-[r:KNOWS]->(b) OPTIONAL MATCH (b)<-[s]-(c) WHERE a.age > 3 RETURN a.name, c.name".

Lemma cypher_total_witness : is_str sample_src /\ returns_or_fails (cypher_to_kql sample_src sample_graph).
Proof. split; [reflexivity|apply (cypher_total sample_src sample_graph "id"); reflexivity]. Defined.

(** ** The pattern *)

(** C15: The edges of a MATCH reach graph-match unchanged.  For a query with
    several segments (extra comma-separated or OPTIONAL ones, or a chain with a
    backward relationship, which is split into one segment per hop), the emitted
    pattern is read by the KQL lexer and by [graph-match] as exactly the edges of
    the query: in order, each from its source to its destination (a backward
    relationship turned around), with its variable, its type and the optional flag
    of its segment. *)
Theorem match_edges_kept src q g proj s :
  is_str src -> parsed src = Ret q -> several_segments q = true -> graph_match_prefix q g proj = Ret s ->
  exists pattern ts nv,
    s = match_prefix g [" | graph-match "; pattern; " project "; proj]
    /\ KqlLexer.tokenize pattern = Ret ts
    /\ forall p rest def, graph_def (state p) = Some def -> KqlRef.ahead p = (ts ++ rest)%list ->
         pattern_end (head rest) = true ->
         op_graph_match p = match_result def nv (match_edges q) (KqlRef.after (List.length ts) p).
Proof.
  intros Hs Hq Hm Hg. apply parsed_ok in Hq as Hok; [|done].
  destruct (prefix_spells q g proj s Hok Hm Hg) as (c & l & Hall & Hne & -> & He).
  eexists _, (join_toks [Comma] (map marked_toks ((false, c) :: l))), (marked_nodes ((false, c) :: l)).
  split; [done|split].
  - by apply reads_as_tokens, reads_pattern.
  - intros p rest def Hdef Hp Hend. rewrite <-He. by apply (op_graph_match_parses c l def p rest).
Qed.

Definition sample_query : Query :=
  match parsed sample_src with
  | Ret q => q
  | _ => {| nodes := []; rels := []; where_preds := []; where_or := false; where_tree := None; returns := [];
            Cypher.limit := None; shortest_path := None; extra_segments := []; Cypher.distinct := false;
            Cypher.order_by := []; with_clause := None |}
  end.

Lemma match_edges_kept_witness :
  several_segments sample_query = true
  /\ match_edges sample_query =
       [{| e_var := "r"; e_type := Some "KNOWS"; e_src := "a"; e_dst := "b"; e_optional := false |};
        {| e_var := "s"; e_type := None; e_src := "c"; e_dst := "b"; e_optional := true |}]
  /\ exists pattern ts nv, KqlLexer.tokenize pattern = Ret ts
       /\ forall p rest def, graph_def (state p) = Some def -> KqlRef.ahead p = (ts ++ rest)%list ->
         pattern_end (head rest) = true ->
         op_graph_match p = match_result def nv (match_edges sample_query) (KqlRef.after (List.length ts) p).
Proof.
  split; [vm_compute; reflexivity|]. split; [vm_compute; reflexivity|].
  destruct (match_edges_kept sample_src sample_query sample_graph "a.name as n"
    "edges | make-graph src --> dst with nodes on id | graph-match (a)-[r:KNOWS]->(b), OPTIONAL (c)-[s]->(b) project a.name as n")
    as (pattern & ts & nv & _ & H); [vm_compute; reflexivity..|].
  exists pattern, ts, nv. exact H.
Defined.

(** ** WHERE *)


















(** ** Literals *)

(** How KQL reads a quoted literal.  The text written for a Cypher string is
    read as one string token per piece between its apostrophes; it is the string
    itself exactly when it has none.  (The KQL lexer does not know the doubled
    apostrophe the emitter escapes with.) *)
Theorem literal_tokens l : Forall is_scalar l ->
  KqlLexer.tokenize (quote_literal (of_chars l)) = Ret (map (fun p => KqlLexer.Str (of_chars p)) (split_quotes l))
  /\ (List.length (split_quotes l) = 1 <-> Forall (fun c => c <> 39%N) l).
Proof.
  intros Hl. split.
  - unfold quote_literal. rewrite !fmt_cons, fmt_nil, app_empty_r, replace_of_chars by done.
    apply (text_tokens _ (39%N :: double_quotes l ++ [39%N])%list); [|apply reads_any_reads, reads_quoted].
    apply (text_app "'" [39%N]); [by split; [|repeat constructor]|].
    apply (text_app _ (double_quotes l) "'" [39%N]); [|by split; [|repeat constructor]].
    split; [done|by apply double_quotes_scalar].
  - clear Hl. induction l as [|c l IH]; [by split; [constructor|]|]. cbn [split_quotes].
    destruct (split_quotes_cons l) as (p & ps & E). destruct (N.eqb_spec c 39) as [->|Hc].
    + rewrite E. split; [done|]. by inversion 1.
    + rewrite E in *. cbn [List.length] in *. rewrite IH. split; [by constructor|by inversion 1].
Qed.

Lemma literal_tokens_witness :
  KqlLexer.tokenize (quote_literal (of_chars (map ch (as_bytes "O'Brien")))) = Ret [KqlLexer.Str "O"; KqlLexer.Str "Brien"].
Proof.
  destruct (literal_tokens (map ch (as_bytes "O'Brien"))) as [-> _]; [repeat constructor; compute; lia|vm_compute; reflexivity].
Defined.

(** ** Columns *)

(** Every column an emitted query refers to is one it projects.  When a plan
    is made, its aliases are distinct and at least one; every variable projected
    is one the pattern declares; every alias asked for by RETURN, the labels,
    WHERE and ORDER BY is projected; and it is projected as asked when no two
    different columns ask for one alias. *)
Theorem columns_resolve q g pl : plan q g = Ret pl ->
  let ps := projections (plan_emit pl) in
  NoDup (map proj_alias ps) /\ ps <> []
  /\ Forall (fun p => proj_var p ∈ known_vars q) ps
  /\ (forall r, r ∈ requests q g -> proj_alias r ∈ map proj_alias ps)
  /\ (unambiguous (requests q g) -> forall r, r ∈ requests q g -> r ∈ ps).
Proof.
  intros (Hk & _ & _ & H)%plan_shape. cbn zeta.
  destruct H as [[Hps Hne]|(Hr & v & Hps & Hv)]; (split_and!; [| | | |]).
  - rewrite Hps. apply adds_NoDup. constructor.
  - done.
  - rewrite Hps. apply Forall_forall. intros p Hp. destruct (adds_incl _ _ _ Hp) as [?|Hin]; [set_solver|].
    rewrite Forall_forall in Hk. by apply Hk.
  - intros r Hr. rewrite Hps. by apply adds_alias.
  - intros Hu r Hr. rewrite Hps. by apply adds_resolve.
  - rewrite Hps. apply NoDup_singleton.
  - by rewrite Hps.
  - rewrite Hps. constructor; [|constructor]. cbn [proj_var want]. unfold known_vars. rewrite !elem_of_app. left.
    destruct (nodes q) as [|n ns]; [done|]. cbn in Hv. injection Hv as <-. cbn [map]. by left.
  - rewrite Hr. set_solver.
  - rewrite Hr. set_solver.
Qed.

Lemma columns_resolve_witness : exists pl, plan sample_query sample_graph = Ret pl
  /\ map proj_text (projections (plan_emit pl)) =
       ["a.name as a_name"; "c.name as c_name"; "a.label as a_label"; "a.age as a_age"]
  /\ NoDup (map proj_alias (projections (plan_emit pl))).
Proof.
  eexists. split; [vm_compute; reflexivity|]. split; [vm_compute; reflexivity|].
  apply (columns_resolve sample_query sample_graph). vm_compute. reflexivity.
Defined.

(** Two columns with one flat alias: the filter reads the column projected first. *)
Lemma alias_capture :
  cypher_to_kql "MATCH (a)-[r]->(a_b) WHERE a_b.c = 1 RETURN a.b_c" sample_graph =
    Ret "edges | make-graph src --> dst with nodes on id | graph-match (a)-[r]->(a_b) project a.b_c as a_b_c | where a_b_c == 1".
Proof. vm_compute. reflexivity. Qed.

(** The helper column of a filter is part of what DISTINCT compares. *)
Lemma distinct_sees_helpers :
  cypher_to_kql "MATCH (a)-[r]->(b) WHERE b.age > 3 RETURN DISTINCT a.name" sample_graph =
    Ret "edges | make-graph src --> dst with nodes on id | graph-match (a)-[r]->(b) project a.name as a_name, b.age as b_age | where b_age > 3 | distinct".
Proof. vm_compute. reflexivity. Qed.

(** Labels, the type of the relationship and LIMIT of a shortestPath query are dropped. *)
Lemma shortest_path_drops :
  cypher_to_kql "MATCH p = shortestPath((a:User)-[r:KNOWS*1..3]->(b)) WHERE a.id = 'x' AND b.id = 'y' RETURN length(p) LIMIT 1" sample_graph
  = cypher_to_kql "MATCH p = shortestPath((a)-[*2..3]->(b)) WHERE a.id = 'x' AND b.id = 'y' RETURN length(p)" sample_graph.
Proof. vm_compute. reflexivity. Qed.

(** A label on the node a chain continues from is dropped. *)
Lemma merged_label_lost :
  cypher_to_kql "MATCH (a)-[r]->(b), (b:User)-[s]->(c) RETURN a.x" sample_graph
  = cypher_to_kql "MATCH (a)-[r]->(b), (b)-[s]->(c) RETURN a.x" sample_graph.
Proof. vm_compute. reflexivity. Qed.

(** ** Writes *)

(** The endpoints of an edge are the two nodes written just before it. *)
Definition edge_after_endpoints (id_col : string) (l : list CypherWriteOp) : Prop :=
  forall i m t src dst ps, l !! i = Some (Cypher.Edge m t src dst ps) -> exists m1 l1 ps1 m2 l2 ps2,
    2 <= i /\ l !! (i - 2) = Some (Node m1 l1 ps1) /\ l !! (i - 1) = Some (Node m2 l2 ps2)
    /\ find_id id_col ps1 = Some src /\ find_id id_col ps2 = Some dst /\ m1 = m /\ m2 = m.

Lemma write_plan_edges id_col l : write_plan id_col l -> edge_after_endpoints id_col l.
Proof.
  induction 1 as [|m l ps out Hout IH|m l1 ps1 l2 ps2 t src dst ps out Hout IH H1 H2]; intros i m' t' s' d' ps' Hi.
  - by rewrite lookup_nil in Hi.
  - apply lookup_app_Some in Hi as [Hi|[Hle Hi]].
    + destruct (IH _ _ _ _ _ _ Hi) as (a & b & c & d & e & f & H0 & Ha & Hb & Hr). exists a, b, c, d, e, f.
      split_and!; [done|by apply lookup_app_l_Some..|by apply Hr|by apply Hr|by apply Hr|by apply Hr].
    + by destruct (i - List.length out) as [|k].
  - apply lookup_app_Some in Hi as [Hi|[Hle Hi]].
    + destruct (IH _ _ _ _ _ _ Hi) as (a & b & c & d & e & f & H0 & Ha & Hb & Hr). exists a, b, c, d, e, f.
      split_and!; [done|by apply lookup_app_l_Some..|by apply Hr|by apply Hr|by apply Hr|by apply Hr].
    + destruct (i - List.length out) as [|[|[|k]]] eqn:E; simplify_eq/=.
      exists m', l1, ps1, m', l2, ps2. split_and!; try done; [lia|rewrite lookup_app_r by lia; replace (_ - _ - _) with 0 by lia; done
        |rewrite lookup_app_r by lia; replace (_ - _ - _) with 1 by lia; done].
Qed.

(** A write statement plans every edge after its endpoints.  A source that
    parses as a write has at least one operation, and each of its edges comes right
    after the nodes of its two ends, written with the same MERGE or CREATE, whose
    id properties are the edge's source and destination. *)
Theorem write_endpoints src id_col w : is_str src -> parse_cypher_write src id_col = Ret (Some w) ->
  ops w <> [] /\ edge_after_endpoints id_col (ops w).
Proof.
  intros Hs H. pose proof (run_parser (parse_write id_col) (some_plan id_col) src Hs (fun n => spec_write n id_col)) as Hr.
  unfold parse_cypher_write in H. rewrite H in Hr. destruct Hr as [Hp Hne]. split; [done|by apply write_plan_edges].
Qed.

Lemma write_endpoints_witness : exists w,
  parse_cypher_write "MERGE (a:User {id: 'u1'})-[:KNOWS {since: 3}]->(b {id: 'u2'})" "id" = Ret (Some w)
  /\ edge_after_endpoints "id" (ops w).
Proof.
  eexists. split; [vm_compute; reflexivity|].
  apply (write_endpoints "MERGE (a:User {id: 'u1'})-[:KNOWS {since: 3}]->(b {id: 'u2'})" "id"); vm_compute; reflexivity.
Defined.
