(* ===== verification/Arrow.v ===== *)
(** * Arrow record batches, JSON values and the order of strings

    The data the storage engine and its pruning cascade work on: the part of
    Arrow's types and arrays that the sources inspect, [serde_json::Value], and
    the byte-wise order Rust gives to [str].  A timestamp array holds [i64]
    values of its unit; a [None] is a null. *)

From stdpp Require Import base gmap strings list.
From Stdlib Require Import NArith ZArith Lia Ascii SpecFloat.
From S2P Require Import Prelude.

Local Open Scope Z_scope.

(** ** Integers of 64 bits *)
Definition i64_MIN : Z := - 2 ^ 63.
Definition i64_MAX : Z := 2 ^ 63 - 1.
Definition is_i64 (z : Z) : Prop := i64_MIN <= z <= i64_MAX.

(** ** The order of [str] *)

Definition str_compare (a b : string) : comparison := String.compare a b.
Definition str_lt (a b : string) : bool := match str_compare a b with Lt => true | _ => false end.
Definition str_le (a b : string) : bool := match str_compare a b with Gt => false | _ => true end.

Lemma ascii_compare_N (a b : ascii) : Ascii.compare a b = (N_of_ascii a ?= N_of_ascii b)%N.
Proof. reflexivity. Qed.

Lemma N_of_ascii_inj (a b : ascii) : N_of_ascii a = N_of_ascii b -> a = b.
Proof. intros H. by rewrite <-(ascii_N_embedding a), H, ascii_N_embedding. Qed.

(** The order as a recursive predicate. *)
Lemma str_le_cons a s b t :
  str_le (String a s) (String b t) = true <->
  (N_of_ascii a < N_of_ascii b)%N \/ (a = b /\ str_le s t = true).
Proof.
  unfold str_le, str_compare. cbn [String.compare]. rewrite ascii_compare_N.
  destruct (N.compare_spec (N_of_ascii a) (N_of_ascii b)) as [Hab|Hab|Hab].
  - apply N_of_ascii_inj in Hab as ->. intuition (done || lia).
  - intuition done.
  - split; [done|]. intros [?|[-> _]]; lia.
Qed.

Lemma str_le_refl s : str_le s s = true.
Proof. induction s as [|a s IH]; [done|]. apply str_le_cons. by right. Qed.

Lemma str_le_trans s t u : str_le s t = true -> str_le t u = true -> str_le s u = true.
Proof.
  revert t u. induction s as [|a s IH]; intros [|b t] [|c u]; try done.
  rewrite !str_le_cons. intros [H1|[-> H1]] [H2|[-> H2]]; [left; lia|by left|by left|].
  right. split; [done|]. by eapply IH.
Qed.

Lemma str_lt_le s t : str_lt s t = true -> str_le s t = true.
Proof. unfold str_lt, str_le. by destruct (str_compare s t). Qed.

Lemma str_not_lt_le s t : str_lt s t = false -> str_le t s = true.
Proof.
  unfold str_lt, str_le, str_compare. rewrite (String.compare_antisym t s).
  by destruct (String.compare s t).
Qed.

Lemma str_le_antisym s t : str_le s t = true -> str_le t s = true -> s = t.
Proof.
  unfold str_le, str_compare. rewrite (String.compare_antisym t s).
  destruct (String.compare s t) eqn:E; [|done..]. intros _ _. by apply String.compare_eq_iff.
Qed.

#[export] Hint Resolve str_le_refl str_lt_le str_not_lt_le : pensieve.

(** ** Floating point: IEEE binary32 and binary64 *)

Abbreviation f32 := spec_float.
Abbreviation f64 := spec_float.
Definition f64_add : f64 -> f64 -> f64 := SFadd 53 1024.
Definition f64_sub : f64 -> f64 -> f64 := SFsub 53 1024.
Definition f64_mul : f64 -> f64 -> f64 := SFmul 53 1024.
Definition f64_div : f64 -> f64 -> f64 := SFdiv 53 1024.
Definition f64_sqrt : f64 -> f64 := SFsqrt 53 1024.
Definition f64_lt : f64 -> f64 -> bool := SFltb.
Definition f64_le : f64 -> f64 -> bool := SFleb.
Definition f64_of_Z (z : Z) : f64 := binary_normalize 53 1024 z 0 false.

(** [x as f64] and [x as f32]. *)
Definition f64_of_f32 (x : f32) : f64 :=
  match x with
  | S754_finite s m e => binary_normalize 53 1024 (if s then Zneg m else Zpos m) e s
  | _ => x
  end.
Definition f32_of_f64 (x : f64) : f32 :=
  match x with
  | S754_finite s m e => binary_normalize 24 128 (if s then Zneg m else Zpos m) e s
  | _ => x
  end.

Definition f64_zero : f64 := S754_zero false.
Definition f64_half : f64 := f64_div (f64_of_Z 1) (f64_of_Z 2).
(** The literal [1e-12]: the binary64 nearest to it. *)
Definition f64_1e_12 : f64 := f64_div (f64_of_Z 1) (f64_of_Z (10 ^ 12)).

(** [f64::max]: the other operand when one is a NaN. *)
Definition f64_max (x y : f64) : f64 :=
  match x, y with
  | S754_nan, _ => y
  | _, S754_nan => x
  | _, _ => if f64_lt x y then y else x
  end.

(** [iter().sum::<f64>()]. *)
Definition f64_sum (l : list f64) : f64 := foldl f64_add f64_zero l.

(** ** Schemas and record batches *)

Inductive TimeUnit := Second | Millisecond | Microsecond | Nanosecond.

Inductive DataType :=
  | Timestamp (unit : TimeUnit) (tz : option string)
  | Int32
  | Int64
  | Utf8
  | LargeUtf8
  | Float32
  | FixedSizeList (inner : DataType) (dim : nat)
  | OtherType (name : string).

#[export] Instance TimeUnit_eq_dec : EqDecision TimeUnit.
Proof. solve_decision. Defined.
#[export] Instance DataType_eq_dec : EqDecision DataType.
Proof. solve_decision. Defined.

Record Field := { f_name : string; f_type : DataType; f_nullable : bool }.
Abbreviation Schema := (list Field).

#[export] Instance Field_eq_dec : EqDecision Field.
Proof. solve_decision. Defined.

Inductive Array :=
  | TimestampArray (unit : TimeUnit) (tz : option string) (values : list (option Z))
  | Int32Array (values : list (option Z))
  | Int64Array (values : list (option Z))
  | StringArray (values : list (option string))
  | LargeStringArray (values : list (option string))
  | VectorArray (dim : nat) (valid : list bool) (floats : list f32)
  | OtherArray (ty : DataType) (valid : list bool).

Definition array_type (a : Array) : DataType :=
  match a with
  | TimestampArray u tz _ => Timestamp u tz
  | Int32Array _ => Int32
  | Int64Array _ => Int64
  | StringArray _ => Utf8
  | LargeStringArray _ => LargeUtf8
  | VectorArray dim _ _ => FixedSizeList Float32 dim
  | OtherArray ty _ => ty
  end.

Definition array_len (a : Array) : nat :=
  match a with
  | TimestampArray _ _ l | Int32Array l | Int64Array l => length l
  | StringArray l | LargeStringArray l => length l
  | VectorArray _ valid _ => length valid
  | OtherArray _ valid => length valid
  end.

Record RecordBatch := { b_schema : Schema; b_columns : list Array; b_num_rows : nat }.

(** A data type the sources downcast on is carried by its own array. *)
Definition plain_array (a : Array) : Prop :=
  match a with
  | OtherArray ty _ =>
      match ty with
      | Timestamp _ _ | Int32 | Int64 | Utf8 | LargeUtf8 => False
      | FixedSizeList Float32 _ => False
      | _ => True
      end
  | VectorArray dim valid floats => length floats = (length valid * dim)%nat
  | TimestampArray _ _ l | Int64Array l => Forall (fun o => forall z, o = Some z -> is_i64 z) l
  | Int32Array l => Forall (fun o => forall z, o = Some z -> - 2 ^ 31 <= z < 2 ^ 31) l
  | _ => True
  end.

(** What [RecordBatch::try_new] checks and the arrays guarantee. *)
Definition batch_ok (b : RecordBatch) : Prop :=
  Forall2 (fun f a => array_type a = f_type f) (b_schema b) (b_columns b) /\
  Forall (fun a => array_len a = b_num_rows b /\ plain_array a) (b_columns b).

(** ** Cells *)

(** A non-null cell, with timestamps as nanoseconds since the epoch. *)
Inductive value :=
  | VTimestamp (nanos : Z)
  | VInt (z : Z)
  | VStr (s : string)
  | VOther.

Definition nanos_per (u : TimeUnit) : Z :=
  match u with Second => 10 ^ 9 | Millisecond => 10 ^ 6 | Microsecond => 1000 | Nanosecond => 1 end.

(** The cell of row [i], [None] for a null. *)
Definition array_cell (a : Array) (i : nat) : option value :=
  match a with
  | TimestampArray u _ l => (fun z => VTimestamp (z * nanos_per u)) <$> mjoin (l !! i)
  | Int32Array l | Int64Array l => VInt <$> mjoin (l !! i)
  | StringArray l | LargeStringArray l => VStr <$> mjoin (l !! i)
  | VectorArray _ valid _ => if decide (valid !! i = Some true) then Some VOther else None
  | OtherArray _ valid => if decide (valid !! i = Some true) then Some VOther else None
  end.

(** [fields().iter().position(|f| f.name() == name)] *)
Fixpoint column_index (s : Schema) (name : string) : option nat :=
  match s with
  | [] => None
  | f :: s => if decide (f_name f = name) then Some 0%nat else S <$> column_index s name
  end.

Definition cell (b : RecordBatch) (name : string) (i : nat) : option value :=
  c ← column_index (b_schema b) name; a ← b_columns b !! c; array_cell a i.

Lemma column_index_Some s name i :
  column_index s name = Some i -> exists f, s !! i = Some f /\ f_name f = name.
Proof.
  revert i. induction s as [|f s IH]; intros i; simpl; [done|].
  case_decide as Hf; [intros [= <-]; by exists f|].
  destruct (column_index s name) as [j|] eqn:E; [|done].
  intros [= <-]. destruct (IH j eq_refl) as (g & Hg & Hn). by exists g.
Qed.

Lemma column_index_lookup s i f :
  NoDup (f_name <$> s) -> s !! i = Some f -> column_index s (f_name f) = Some i.
Proof.
  revert i. induction s as [|g s IH]; intros i Hnd Hi; [done|].
  apply NoDup_cons in Hnd as [Hnin Hnd]. destruct i as [|i]; simpl in *.
  - injection Hi as ->. by rewrite decide_True.
  - rewrite decide_False; [by rewrite (IH i)|].
    intros Heq. apply Hnin. rewrite Heq. apply list_elem_of_fmap. exists f.
    split; [done|]. by eapply list_elem_of_lookup_2.
Qed.

(** ** JSON *)

Inductive Number := NInt (z : Z) | NFloat (f : f64).

Inductive Json :=
  | JNull
  | JBool (b : bool)
  | JNumber (n : Number)
  | JString (s : string)
  | JArray (l : list Json)
  | JObject (kv : list (string * Json)).

(** [Value::get(key)] on an object; a [serde_json::Map] has each key once. *)
Definition json_get (v : Json) (key : string) : option Json :=
  match v with
  | JObject kv => (fun ie => ie.2.2) <$> list_find (fun e : string * Json => e.1 = key) kv
  | _ => None
  end.

Definition as_array (v : Json) : option (list Json) :=
  match v with JArray l => Some l | _ => None end.
Definition as_str (v : Json) : option string :=
  match v with JString s => Some s | _ => None end.
(** [Number::as_i64] *)
Definition as_i64 (v : Json) : option Z :=
  match v with
  | JNumber (NInt z) => if decide (i64_MIN <= z <= i64_MAX) then Some z else None
  | _ => None
  end.
Definition as_f64 (v : Json) : option f64 :=
  match v with
  | JNumber (NInt z) => Some (f64_of_Z z)
  | JNumber (NFloat f) => Some f
  | _ => None
  end.

Definition number_eqb (a b : Number) : bool :=
  match a, b with
  | NInt x, NInt y => x =? y
  | NFloat x, NFloat y => SFeqb x y
  | _, _ => false
  end.

(** [==] of scalar JSON values.  Objects and arrays never occur in the value
    sets that the sources compare; they are compared element-wise. *)
Fixpoint json_eqb (a b : Json) {struct a} : bool :=
  match a, b with
  | JNull, JNull => true
  | JBool x, JBool y => Bool.eqb x y
  | JNumber x, JNumber y => number_eqb x y
  | JString x, JString y => bool_decide (x = y)
  | JArray x, JArray y =>
      (fix go (x y : list Json) : bool :=
         match x, y with
         | [], [] => true
         | a :: x, b :: y => json_eqb a b && go x y
         | _, _ => false
         end) x y
  | JObject x, JObject y =>
      (fix go (x y : list (string * Json)) : bool :=
         match x, y with
         | [], [] => true
         | (k, a) :: x, (k', b) :: y => bool_decide (k = k') && json_eqb a b && go x y
         | _, _ => false
         end) x y
  | _, _ => false
  end.

Lemma json_eqb_str s : json_eqb (JString s) (JString s) = true.
Proof. simpl. by apply bool_decide_eq_true. Qed.

Lemma json_eqb_int z : json_eqb (JNumber (NInt z)) (JNumber (NInt z)) = true.
Proof. simpl. apply Z.eqb_refl. Qed.

#[export] Hint Resolve json_eqb_str json_eqb_int : pensieve.
