(* ===== verification/BlockStats.v ===== *)
(** * Per-block min/max statistics ([pensieve-format-tlm/src/block_stats.rs])

    [stats_for_batch] summarises one record batch.  A Utf8 column read through
    [as_string] panics when the array has 64-bit offsets. *)

From stdpp Require Import base gmap strings list.
From Stdlib Require Import NArith ZArith Lia SpecFloat.
From S2P Require Import Prelude Bytes Arrow.

Local Open Scope Z_scope.

Definition STRING_MINMAX_CAP : nat := 256.

Inductive ColStat :=
  | Ts (min max : Z) (nulls : Z)
  | SInt64 (min max : Z) (nulls : Z)
  | Str (min max : string) (nulls : Z).

Record BlockStats := { row_count : nat; cols : gmap string ColStat }.

(** [nulls += 1] at [u32]. *)
Definition add_null (nulls : Z) : Z := (nulls + 1) mod 2 ^ 32.

(** ** Integer and timestamp columns *)

Record MinMax := { mm_min : Z; mm_max : Z; mm_nulls : Z; mm_any : bool }.

Definition minmax_start : MinMax :=
  {| mm_min := i64_MAX; mm_max := i64_MIN; mm_nulls := 0; mm_any := false |}.

(** The body of the loops of [ts_stats], [i32_stats] and [i64_stats]. *)
Definition minmax_step (s : MinMax) (o : option Z) : MinMax :=
  match o with
  | None => {| mm_min := mm_min s; mm_max := mm_max s; mm_nulls := add_null (mm_nulls s); mm_any := mm_any s |}
  | Some v =>
      {| mm_min := if v <? mm_min s then v else mm_min s;
         mm_max := if mm_max s <? v then v else mm_max s;
         mm_nulls := mm_nulls s; mm_any := true |}
  end.

Definition ts_stats (arr : list (option Z)) : option ColStat :=
  let s := foldl minmax_step minmax_start arr in
  if negb (mm_any s) then None else Some (Ts (mm_min s) (mm_max s) (mm_nulls s)).

Definition i32_stats (arr : list (option Z)) : option ColStat :=
  let s := foldl minmax_step minmax_start arr in
  if negb (mm_any s) then None else Some (SInt64 (mm_min s) (mm_max s) (mm_nulls s)).

Definition i64_stats (arr : list (option Z)) : option ColStat :=
  let s := foldl minmax_step minmax_start arr in
  if negb (mm_any s) then None else Some (SInt64 (mm_min s) (mm_max s) (mm_nulls s)).

(** ** String columns *)

Record StrStat := { ss_min : option string; ss_max : option string; ss_nulls : Z }.

(** The loop of [str_stats]; [None] is its early return. *)
Fixpoint str_loop (arr : list (option string)) (s : StrStat) : option StrStat :=
  match arr with
  | [] => Some s
  | None :: arr => str_loop arr {| ss_min := ss_min s; ss_max := ss_max s; ss_nulls := add_null (ss_nulls s) |}
  | Some v :: arr =>
      if decide (STRING_MINMAX_CAP < String.length v)%nat then None
      else
        str_loop arr
          {| ss_min := Some match ss_min s with
                            | Some cur => if str_lt v cur then v else cur
                            | None => v
                            end;
             ss_max := Some match ss_max s with
                            | Some cur => if str_lt cur v then v else cur
                            | None => v
                            end;
             ss_nulls := ss_nulls s |}
  end.

Definition str_stats (arr : list (option string)) : option ColStat :=
  s ← str_loop arr {| ss_min := None; ss_max := None; ss_nulls := 0 |};
  match ss_min s, ss_max s with
  | Some mn, Some mx => Some (Str mn mx (ss_nulls s))
  | _, _ => None
  end.

(** ** The whole batch *)

(** [if let Some(s) = … { cols.insert(name, s); }] *)
Definition insert_stat (name : string) (s : option ColStat) (m : gmap string ColStat) : gmap string ColStat :=
  match s with Some s => <[name := s]> m | None => m end.

(** One iteration of the loop over the fields. *)
Definition field_stats (batch : RecordBatch) (i : nat) (m : gmap string ColStat) : infallible (gmap string ColStat) :=
  field ← or_panic (b_schema batch !! i);
  col ← or_panic (b_columns batch !! i);
  let name := f_name field in
  match f_type field with
  | Timestamp _ _ =>
      match col with
      | TimestampArray Nanosecond _ arr => Ret (insert_stat name (ts_stats arr) m)
      | _ => Ret m
      end
  | Int32 => match col with Int32Array arr => Ret (insert_stat name (i32_stats arr) m) | _ => Ret m end
  | Int64 => match col with Int64Array arr => Ret (insert_stat name (i64_stats arr) m) | _ => Ret m end
  | Utf8 | LargeUtf8 =>
      match col with
      | StringArray arr => Ret (insert_stat name (str_stats arr) m)
      | _ => Panic
      end
  | _ => Ret m
  end.

Definition stats_for_batch (batch : RecordBatch) : infallible BlockStats :=
  m ← for_each (field_stats batch) (seq 0 (length (b_schema batch))) ∅;
  Ret {| row_count := as_u32 (b_num_rows batch); cols := m |}.

(** ** What the statistics of a column mean *)

(** A non-null value lies within the statistic of its column. *)
Definition covers (s : ColStat) (v : value) : Prop :=
  match s, v with
  | Ts mn mx _, VTimestamp t => mn <= t <= mx
  | SInt64 mn mx _, VInt z => mn <= z <= mx
  | Str mn mx _, VStr t => str_le mn t = true /\ str_le t mx = true
  | _, _ => False
  end.

Lemma minmax_covers arr s v : Some v ∈ arr \/ (mm_any s = true /\ mm_min s <= v <= mm_max s) ->
  let r := foldl minmax_step s arr in mm_any r = true /\ mm_min r <= v <= mm_max r.
Proof.
  revert s. induction arr as [|o arr IH]; intros s H; simpl.
  - destruct H as [H|H]; [by apply not_elem_of_nil in H|done].
  - apply IH. destruct H as [[<-|H]%elem_of_cons|[Ha Hr]]; [right|by left|right].
    + simpl. repeat case_match; lia.
    + destruct o as [w|]; simpl; [repeat case_match; lia|done].
Qed.

Lemma ts_stats_covers arr v s : Some v ∈ arr -> ts_stats arr = Some s -> covers s (VTimestamp v).
Proof.
  intros Hv. unfold ts_stats. destruct (minmax_covers arr minmax_start v) as [-> Hr]; [by left|].
  intros [= <-]. done.
Qed.

Lemma int_stats_covers arr v s : Some v ∈ arr -> i64_stats arr = Some s -> covers s (VInt v).
Proof.
  intros Hv. unfold i64_stats. destruct (minmax_covers arr minmax_start v) as [-> Hr]; [by left|].
  intros [= <-]. done.
Qed.

Lemma str_loop_covers arr s r v : str_loop arr s = Some r ->
  Some v ∈ arr \/ (exists mn mx, ss_min s = Some mn /\ ss_max s = Some mx /\ str_le mn v = true /\ str_le v mx = true) ->
  exists mn mx, ss_min r = Some mn /\ ss_max r = Some mx /\ str_le mn v = true /\ str_le v mx = true.
Proof.
  revert s. induction arr as [|o arr IH]; intros s; simpl.
  - intros [= <-] [H|H]; [by apply not_elem_of_nil in H|done].
  - destruct o as [w|].
    + case_decide as Hc; [done|]. intros Hl H. apply (IH _ Hl). simpl.
      destruct H as [[[= <-]|H]%elem_of_cons|(mn & mx & -> & -> & H1 & H2)]; [right|by left|right].
      * eexists _, _. split_and!; [done..| |].
        -- repeat case_match; auto with pensieve.
        -- repeat case_match; auto with pensieve.
      * eexists _, _. split_and!; [done..| |].
        -- destruct (str_lt w mn) eqn:Hlt; [eapply str_le_trans; [|done]; auto with pensieve|done].
        -- destruct (str_lt mx w) eqn:Hlt; [eapply str_le_trans; [done|]; auto with pensieve|done].
    + intros Hl [[[=]|H]%elem_of_cons|H]; apply (IH _ Hl); [by left|by right].
Qed.

Lemma str_stats_covers arr v s : Some v ∈ arr -> str_stats arr = Some s -> covers s (VStr v).
Proof.
  intros Hv. unfold str_stats. destruct (str_loop arr _) as [r|] eqn:Hl; simpl; [|done].
  destruct (str_loop_covers _ _ _ v Hl (or_introl Hv)) as (mn & mx & -> & -> & H1 & H2).
  by intros [= <-].
Qed.

(** The statistic, if any, that the loop records for an array. *)
Definition array_stat (a : Array) : option ColStat :=
  match a with
  | TimestampArray Nanosecond _ l => ts_stats l
  | Int32Array l => i32_stats l
  | Int64Array l => i64_stats l
  | StringArray l => str_stats l
  | _ => None
  end.

Lemma array_cell_elem {A} (l : list (option A)) i v : mjoin (l !! i) = Some v -> Some v ∈ l.
Proof.
  destruct (l !! i) as [o|] eqn:E; simpl; [|done]. intros ->. by eapply list_elem_of_lookup_2.
Qed.

Lemma array_stat_covers a i v s :
  array_cell a i = Some v -> array_stat a = Some s -> covers s v.
Proof.
  destruct a; simpl; try done.
  - destruct unit; try done.
    intros (z & Hz%array_cell_elem & ->)%fmap_Some. rewrite Z.mul_1_r. by apply ts_stats_covers.
  - intros (z & Hz%array_cell_elem & ->)%fmap_Some. by apply int_stats_covers.
  - intros (z & Hz%array_cell_elem & ->)%fmap_Some. by apply int_stats_covers.
  - intros (z & Hz%array_cell_elem & ->)%fmap_Some. by apply str_stats_covers.
Qed.

Lemma field_stats_Ret b i m m' : batch_ok b -> field_stats b i m = Ret m' ->
  exists f a, b_schema b !! i = Some f /\ b_columns b !! i = Some a /\
    m' = insert_stat (f_name f) (array_stat a) m.
Proof.
  intros [Hty Harr]. unfold field_stats.
  destruct (b_schema b !! i) as [f|] eqn:Hf; simpl; [|done].
  destruct (b_columns b !! i) as [a|] eqn:Ha; simpl; [|done].
  pose proof (Forall2_lookup_lr _ _ _ _ _ _ Hty Hf Ha) as Hat. simpl in Hat.
  pose proof (proj1 (Forall_lookup _ _) Harr _ _ Ha) as [_ Hpl].
  intros H. exists f, a. split_and!; [done..|].
  destruct a; simpl in *; rewrite <-Hat in H; try congruence.
  - destruct unit; simpl in *; congruence.
  - destruct ty; simpl in *; try congruence; try done.
Qed.

Lemma stats_for_batch_Ret b bs : batch_ok b -> stats_for_batch b = Ret bs ->
  forall name s, cols bs !! name = Some s ->
    exists i f a, b_schema b !! i = Some f /\ f_name f = name /\
      b_columns b !! i = Some a /\ array_stat a = Some s.
Proof.
  intros Hok. unfold stats_for_batch. intros (m & Hm & [= <-])%bind_Ret. simpl.
  revert Hm. apply (for_each_Ret _ (fun _ m => forall name s, m !! name = Some s ->
    exists i f a, b_schema b !! i = Some f /\ f_name f = name /\
      b_columns b !! i = Some a /\ array_stat a = Some s)); [done|].
  intros _ i m1 m2 (f & a & Hf & Ha & ->)%field_stats_Ret IH name s; [|done].
  destruct (array_stat a) as [s'|] eqn:Hs; simpl; [|apply IH].
  rewrite lookup_insert. case_decide as Hn; [intros [= <-]; by exists i, f, a|apply IH].
Qed.

(** The contract of the statistics: every non-null cell of a column lies within
    the statistic recorded under the name of the column. *)
Lemma stats_for_batch_covers b bs name i v s :
  batch_ok b -> NoDup (f_name <$> b_schema b) -> stats_for_batch b = Ret bs ->
  cell b name i = Some v -> cols bs !! name = Some s -> covers s v.
Proof.
  intros Hok Hnd Hbs Hcell (j & f & a & Hf & <- & Ha & Hs)%(stats_for_batch_Ret _ _ Hok Hbs).
  unfold cell in Hcell. rewrite (column_index_lookup _ _ _ Hnd Hf) in Hcell. simpl in Hcell.
  rewrite Ha in Hcell. simpl in Hcell. by eapply array_stat_covers.
Qed.

(** Statistics exist for every batch without 64-bit-offset strings. *)
Lemma stats_for_batch_total b :
  batch_ok b -> Forall (fun f => f_type f <> LargeUtf8) (b_schema b) ->
  exists bs, stats_for_batch b = Ret bs.
Proof.
  intros [Hty Harr] Hl. unfold stats_for_batch.
  destruct (for_each_inv (field_stats b) (fun _ _ => True) (seq 0 (length (b_schema b))) ∅)
    as (m & -> & _); [done| |by eexists].
  intros pre i rest m Hseq _. unfold field_stats.
  assert (i < length (b_schema b))%nat as Hi.
  { assert (i ∈ seq 0 (length (b_schema b))) as Hin by (rewrite Hseq; apply elem_of_app; right; left).
    apply elem_of_seq in Hin. lia. }
  destruct (lookup_lt_is_Some_2 _ _ Hi) as [f Hf]. rewrite Hf. simpl.
  destruct (Forall2_lookup_l _ _ _ _ _ Hty Hf) as (a & Ha & Hat). rewrite Ha. simpl.
  pose proof (proj1 (Forall_lookup _ _) Harr _ _ Ha) as [_ Hpl].
  pose proof (proj1 (Forall_lookup _ _) Hl _ _ Hf) as Hfl. simpl in Hfl.
  rewrite <-Hat in *. destruct a; simpl in *; eauto; try (destruct unit; by eauto); try done.
  destruct ty; by eauto.
Qed.

Lemma field_stats_cases b i m : field_stats b i m = Panic \/ exists m', field_stats b i m = Ret m'.
Proof.
  unfold field_stats. destruct (b_schema b !! i) as [f|]; simpl; [|by left].
  destruct (b_columns b !! i) as [a|]; simpl; [|by left].
  destruct (f_type f); eauto; destruct a; eauto; destruct unit; eauto; destruct unit0; eauto.
Qed.

(** A string column with 64-bit offsets makes the statistics panic. *)
Lemma stats_for_batch_large b i f l :
  batch_ok b -> b_schema b !! i = Some f -> b_columns b !! i = Some (LargeStringArray l) ->
  stats_for_batch b = Panic.
Proof.
  intros [Hty _] Hf Ha. unfold stats_for_batch.
  pose proof (Forall2_lookup_lr _ _ _ _ _ _ Hty Hf Ha) as Hat. simpl in Hat.
  assert (forall l m, i ∈ l -> for_each (field_stats b) l m = Panic) as Hloop.
  { intros js. induction js as [|j js IH]; intros m; [by intros ?%not_elem_of_nil|].
    intros [<-|Hin]%elem_of_cons; simpl.
    - unfold field_stats. rewrite Hf, Ha. simpl. by rewrite <-Hat.
    - destruct (field_stats_cases b j m) as [->|[m' ->]]; simpl; auto. }
  rewrite Hloop; [done|]. apply elem_of_seq. apply lookup_lt_Some in Hf. lia.
Qed.

(** * Block predicates and the pruning of blocks

    [BlockPredicate] of [pensieve-core/src/segment_format.rs] and its
    evaluation against block statistics ([evaluate], [equals_ok] and
    [pruned_blocks] of [pensieve-format-tlm/src/reader.rs]).  [Matching] gives
    the predicates their meaning on the rows of a batch; the main lemma is that
    evaluation never drops a block with a matching row. *)

Record BlockId := { block_id : nat }.
Record ColumnId := { column_id : nat }.

(** [segment_format::ScalarValue] *)
Inductive BlockScalar :=
  | BNull
  | BBool (b : bool)
  | BInt64 (z : Z)
  | BFloat64 (f : f64)
  | BString (s : string)
  | BBytes (b : bytes)
  | BTimestamp (t : Z).

Inductive BlockPredicate :=
  | All
  | And (subs : list BlockPredicate)
  | Or (subs : list BlockPredicate)
  | Not (p : BlockPredicate)
  | TimeRange (col : ColumnId) (start_inclusive end_exclusive : Z)
  | Equals (col : ColumnId) (value : BlockScalar)
  | InSet (col : ColumnId) (values : list BlockScalar)
  | StringHas (col : ColumnId) (needle : string)
  | DynamicPathExists (col : ColumnId) (path : string)
  | DynamicPathEquals (col : ColumnId) (path : string) (value : BlockScalar).

(** ** Evaluation *)

Definition equals_ok (cs : ColStat) (v : BlockScalar) : bool :=
  match cs, v with
  | Ts mn mx _, BTimestamp t => (mn <=? t) && (t <=? mx)
  | SInt64 mn mx _, BInt64 t => (mn <=? t) && (t <=? mx)
  | Str mn mx _, BString t => str_le mn t && str_le t mx
  | _, _ => true
  end.

Fixpoint evaluate (pred : BlockPredicate) (bs : BlockStats) (names : list string) : bool :=
  match pred with
  | All => true
  | And subs => forallb (fun s => evaluate s bs names) subs
  | Or subs =>
      match subs with
      | [] => true
      | _ => existsb (fun s => evaluate s bs names) subs
      end
  | Not _ => true
  | TimeRange col start_inclusive end_exclusive =>
      match names !! column_id col with
      | None => true
      | Some name =>
          match cols bs !! name with
          | Some (Ts mn mx _) => negb ((mx <? start_inclusive) || (end_exclusive <=? mn))
          | _ => true
          end
      end
  | Equals col value =>
      match names !! column_id col with
      | None => true
      | Some name =>
          match cols bs !! name with
          | None => true
          | Some cs => equals_ok cs value
          end
      end
  | InSet col values =>
      match names !! column_id col with
      | None => true
      | Some name =>
          match cols bs !! name with
          | None => true
          | Some cs => existsb (equals_ok cs) values
          end
      end
  | StringHas _ _ | DynamicPathExists _ _ | DynamicPathEquals _ _ _ => true
  end.

(** ** The reader *)

Record ExtentMetadata := {
  em_row_count : N; em_block_count : nat; em_byte_size : N; em_schema : Schema; em_format_version : N }.

Record TelemetryExtentReader := {
  metadata : ExtentMetadata;
  batches : list RecordBatch;
  object_path : string;
  block_stats : option (list BlockStats) }.

Definition pruned_blocks (r : TelemetryExtentReader) (predicate : BlockPredicate) : list BlockId :=
  let total := em_block_count (metadata r) in
  match block_stats r with
  | None => Build_BlockId <$> seq 0 total
  | Some stats =>
      let names := f_name <$> em_schema (metadata r) in
      foldl (fun kept (ibs : nat * BlockStats) =>
               if evaluate predicate ibs.2 names then kept ++ [{| block_id := as_u32 ibs.1 |}] else kept)
            [] (imap pair stats)
  end.

Inductive FormatError :=
  | InvalidMagic
  | Corrupt (path : string) (detail : string)
  | TypeMismatch (expected got : Schema)
  | ObjectStoreError.

(** [batch.project(&indices)]: an index out of range is an error. *)
Definition project (b : RecordBatch) (indices : list nat) : option RecordBatch :=
  fields ← mapM (fun i => b_schema b !! i) indices;
  columns ← mapM (fun i => b_columns b !! i) indices;
  Some {| b_schema := fields; b_columns := columns; b_num_rows := b_num_rows b |}.

Definition read_block (r : TelemetryExtentReader) (block : BlockId) (projection : list ColumnId) :
    outcome FormatError RecordBatch :=
  batch ← or_fail (Corrupt (object_path r) "block id out of range") (batches r !! block_id block);
  match projection with
  | [] => Ret batch
  | _ => or_fail (Corrupt (object_path r) "projection failed") (project batch (column_id <$> projection))
  end.

(** ** The meaning of predicates on rows

    Equality of a cell with a scalar of its own type is fixed; [other_eq] is
    any meaning of a comparison across types and [other_atom] any meaning of
    the full-text and dynamic-path atoms. *)
Section Matching.
  Context (other_eq : value -> BlockScalar -> Prop) (other_atom : BlockPredicate -> RecordBatch -> nat -> Prop).
  Context (names : list string).

Definition scalar_eq (v : value) (sv : BlockScalar) : Prop :=
  match v, sv with
  | VTimestamp t, BTimestamp u => t = u
  | VInt z, BInt64 u => z = u
  | VStr s, BString t => s = t
  | _, _ => other_eq v sv
  end.

(** The non-null cell of the column with the given position among [names]. *)
Definition cell_of (b : RecordBatch) (col : ColumnId) (i : nat) (P : value -> Prop) : Prop :=
  exists name v, names !! column_id col = Some name /\ cell b name i = Some v /\ P v.

Fixpoint matches (p : BlockPredicate) (b : RecordBatch) (i : nat) : Prop :=
  match p with
  | All => True
  | And subs => (fix all l := match l with [] => True | p :: l => matches p b i /\ all l end) subs
  | Or subs => (fix any l := match l with [] => False | p :: l => matches p b i \/ any l end) subs
  | Not p => ~ matches p b i
  | TimeRange col s e => cell_of b col i (fun v => match v with VTimestamp t => s <= t < e | _ => False end)
  | Equals col value => cell_of b col i (fun v => scalar_eq v value)
  | InSet col values => cell_of b col i (fun v => exists sv, sv ∈ values /\ scalar_eq v sv)
  | StringHas _ _ | DynamicPathExists _ _ | DynamicPathEquals _ _ _ => other_atom p b i
  end.

Lemma matches_And l b i : matches (And l) b i <-> Forall (fun p => matches p b i) l.
Proof. induction l as [|p l IH]; [done|]. rewrite Forall_cons, <-IH. done. Qed.

Lemma matches_Or l b i : matches (Or l) b i <-> Exists (fun p => matches p b i) l.
Proof.
  induction l as [|p l IH]; [by rewrite Exists_nil|]. rewrite Exists_cons, <-IH. done.
Qed.

Lemma equals_ok_sound cs v sv : covers cs v -> scalar_eq v sv -> equals_ok cs sv = true.
Proof.
  destruct cs, v; simpl; try done; destruct sv; simpl; try done.
  - intros H <-. apply andb_true_iff. lia.
  - intros H <-. apply andb_true_iff. lia.
  - intros [H1 H2] <-. by rewrite H1, H2.
Qed.

Section Sound.
  Context (b : RecordBatch) (bs : BlockStats) (i : nat).
  Context (Hcov : forall name v s, cell b name i = Some v -> cols bs !! name = Some s -> covers s v).

(** Evaluation against statistics that cover the cells of a row never refuses
    a predicate the row satisfies. *)
Lemma evaluate_sound : forall p, matches p b i -> evaluate p bs names = true.
Proof using Hcov.
  fix IH 1. intros p. destruct p as [|subs|subs|p|col s e|col sv|col values| | |]; simpl; try done.
  - induction subs as [|p subs IHs]; [done|]. intros [Hp Hsubs].
    simpl. by rewrite (IH p Hp), IHs.
  - intros H. cut (existsb (fun s => evaluate s bs names) subs = true); [by destruct subs|].
    induction subs as [|p subs IHs]; [done|]. simpl. destruct H as [Hp|Hsubs].
    + by rewrite (IH p Hp).
    + rewrite (IHs Hsubs). apply orb_true_r.
  - intros (name & v & -> & Hcell & Hv). destruct (cols bs !! name) as [[mn mx n| |]|] eqn:Hs; try done.
    pose proof (Hcov _ _ _ Hcell Hs) as Hc. destruct v; simpl in *; try done.
    apply negb_true_iff, orb_false_iff. lia.
  - intros (name & v & -> & Hcell & Hv). destruct (cols bs !! name) as [cs|] eqn:Hs; [|done].
    eapply equals_ok_sound; eauto.
  - intros (name & v & -> & Hcell & sv & Hin & Hv). destruct (cols bs !! name) as [cs|] eqn:Hs; [|done].
    apply existsb_exists. exists sv. split; [by apply list_elem_of_In|].
    eapply equals_ok_sound; eauto.
Qed.
End Sound.
End Matching.

Arguments matches : simpl never.

(** ** The blocks that are kept *)

Lemma pruned_loop_acc p names (l : list (nat * BlockStats)) kept :
  foldl (fun kept ibs => if evaluate p ibs.2 names then kept ++ [{| block_id := as_u32 ibs.1 |}] else kept) kept l
  = kept ++ foldl (fun kept ibs => if evaluate p ibs.2 names then kept ++ [{| block_id := as_u32 ibs.1 |}] else kept) [] l.
Proof.
  revert kept. induction l as [|[i bs] l IH]; intros kept; simpl; [by rewrite app_nil_r|].
  destruct (evaluate p bs names); [|apply IH].
  rewrite IH, (IH [_]), app_assoc. done.
Qed.

Lemma elem_of_pruned_loop p names l k :
  k ∈ foldl (fun kept ibs => if evaluate p ibs.2 names then kept ++ [{| block_id := as_u32 ibs.1 |}] else kept) [] l
  <-> exists i bs, (i, bs) ∈ l /\ evaluate p bs names = true /\ k = {| block_id := as_u32 i |}.
Proof.
  induction l as [|[i bs] l IH]; simpl.
  - split; [by intros ?%not_elem_of_nil|by intros (? & ? & ?%not_elem_of_nil & _)].
  - rewrite pruned_loop_acc, elem_of_app, IH. split.
    + intros [H|(j & bs' & Hin & H)].
      * destruct (evaluate p bs names) eqn:He; [|by apply not_elem_of_nil in H].
        apply list_elem_of_singleton in H. exists i, bs. split_and!; [left|done..].
      * exists j, bs'. split; [by right|done].
    + intros (j & bs' & [[= -> ->]|Hin]%elem_of_cons & He & ->).
      * left. rewrite He. left.
      * right. by exists j, bs'.
Qed.

Lemma elem_of_imap_pair {A} (l : list A) i x : (i, x) ∈ imap pair l <-> l !! i = Some x.
Proof.
  rewrite list_elem_of_lookup. split.
  - intros [j Hj]. rewrite list_lookup_imap in Hj. destruct (l !! j) eqn:E; simplify_eq/=. done.
  - intros H. exists i. by rewrite list_lookup_imap, H.
Qed.

(** The kept blocks of an extent with statistics, exactly. *)
Lemma elem_of_pruned_blocks r p stats k :
  block_stats r = Some stats ->
  k ∈ pruned_blocks r p <->
  exists i bs, stats !! i = Some bs /\ evaluate p bs (f_name <$> em_schema (metadata r)) = true /\
    k = {| block_id := as_u32 i |}.
Proof.
  intros Hs. unfold pruned_blocks. rewrite Hs, elem_of_pruned_loop.
  by setoid_rewrite elem_of_imap_pair.
Qed.
