(* ===== verification/ColumnStats.v ===== *)
(** * Per-extent column statistics ([pensieve-format-tlm/src/column_stats.rs])

    The word tokenizer, the accumulator that every extent writer feeds its
    batches to, and the JSON it produces.  The parallel vectors of the
    accumulator, all indexed by the position of an indexable column, are one
    list of per-column records here.  Vector statistics compute in IEEE
    binary64 and binary32. *)

From stdpp Require Import base gmap strings list sorting.
From Stdlib Require Import NArith ZArith Lia SpecFloat.
From S2P Require Import Prelude Bytes Arrow.

Local Open Scope Z_scope.

Definition DISTINCT_SET_CAP : N := 1000.
Definition TOKEN_SET_CAP : N := 10000.
Definition VEC_ROW_CAP : N := 50000.

(** ** The tokenizer *)

(** [if cur.len() >= 2 { out.insert(cur) }] *)
Definition flush (cur : string) (out : gset string) : gset string :=
  if decide (2 <= String.length cur)%nat then {[cur]} ∪ out else out.

Fixpoint tokenize_loop (cs : list char) (cur : string) (out : gset string) : gset string :=
  match cs with
  | [] => flush cur out
  | c :: cs =>
      if is_ascii_alphanumeric c then tokenize_loop cs (push cur (to_ascii_lowercase c)) out
      else if decide (cur = EmptyString) then tokenize_loop cs cur out
      else tokenize_loop cs EmptyString (flush cur out)
  end.

Definition tokenize (s : string) (out : gset string) : gset string :=
  tokenize_loop (chars s) EmptyString out.

(** ** The accumulator *)

Inductive IndexableKind :=
  | KString
  | KInt32
  | KInt64
  | KVector (dim : nat).

(** The state of the column at one position of [indexable_columns]. *)
Record ColumnAcc := {
  col_idx : nat;
  kind : IndexableKind;
  distinct_string : option (gset string);
  distinct_int : option (gset Z);
  tokens : option (gset string);
  vec_sum : option (list f64);
  vec_rows : option (list (list f32));
  vec_count : N }.

Record ColumnStatsAccumulator := {
  schema : Schema;
  ts_col_index : option nat;
  min_ts_nanos : option Z;
  max_ts_nanos : option Z;
  indexable_columns : list ColumnAcc }.

(** [matches!(f.data_type(), DataType::Timestamp(TimeUnit::Nanosecond, _))] *)
Definition is_ts_nanos (f : Field) : bool :=
  match f_type f with Timestamp Nanosecond _ => true | _ => false end.

Fixpoint position {A} (P : A -> bool) (l : list A) : option nat :=
  match l with
  | [] => None
  | x :: l => if P x then Some 0%nat else S <$> position P l
  end.

Definition indexable_kind (ty : DataType) : option IndexableKind :=
  match ty with
  | Utf8 | LargeUtf8 => Some KString
  | Int32 => Some KInt32
  | Int64 => Some KInt64
  | FixedSizeList inner dim => match inner with Float32 => Some (KVector dim) | _ => None end
  | _ => None
  end.

Definition new_column (i : nat) (k : IndexableKind) : ColumnAcc :=
  {| col_idx := i;
     kind := k;
     distinct_string := match k with KString => Some ∅ | _ => None end;
     distinct_int := match k with KInt32 | KInt64 => Some ∅ | _ => None end;
     tokens := match k with KString => Some ∅ | _ => None end;
     vec_sum := match k with KVector dim => Some (replicate dim f64_zero) | _ => None end;
     vec_rows := match k with KVector _ => Some [] | _ => None end;
     vec_count := 0 |}.

Definition new_columns (s : Schema) : list ColumnAcc :=
  omap (fun ifd : nat * Field => new_column ifd.1 <$> indexable_kind (f_type ifd.2)) (imap pair s).

Definition new (s : Schema) : ColumnStatsAccumulator :=
  {| schema := s;
     ts_col_index := position is_ts_nanos s;
     min_ts_nanos := None;
     max_ts_nanos := None;
     indexable_columns := new_columns s |}.

(** *** Timestamp bounds *)

Definition ts_bound_step (mm : option Z * option Z) (o : option Z) : option Z * option Z :=
  match o with
  | None => mm
  | Some v =>
      (Some match mm.1 with None => v | Some m => Z.min m v end,
       Some match mm.2 with None => v | Some m => Z.max m v end)
  end.

Definition update_ts_bounds (batch : RecordBatch) (a : ColumnStatsAccumulator) : infallible ColumnStatsAccumulator :=
  match ts_col_index a with
  | None => Ret a
  | Some idx =>
      col ← or_panic (b_columns batch !! idx);
      match col with
      | TimestampArray Nanosecond _ arr =>
          let mm := foldl ts_bound_step (min_ts_nanos a, max_ts_nanos a) arr in
          Ret {| schema := schema a; ts_col_index := ts_col_index a; min_ts_nanos := mm.1;
                 max_ts_nanos := mm.2; indexable_columns := indexable_columns a |}
      | _ => Ret a
      end
  end.

(** *** Distinct values and tokens *)

Definition with_string_sets (c : ColumnAcc) (ds tk : option (gset string)) : ColumnAcc :=
  {| col_idx := col_idx c; kind := kind c; distinct_string := ds; distinct_int := distinct_int c;
     tokens := tk; vec_sum := vec_sum c; vec_rows := vec_rows c; vec_count := vec_count c |}.

Definition with_distinct_int (c : ColumnAcc) (di : option (gset Z)) : ColumnAcc :=
  {| col_idx := col_idx c; kind := kind c; distinct_string := distinct_string c; distinct_int := di;
     tokens := tokens c; vec_sum := vec_sum c; vec_rows := vec_rows c; vec_count := vec_count c |}.

Definition set_len {A} `{Countable A} (s : gset A) : N := N.of_nat (size s).

Definition add_distinct (value : string) (ds : option (gset string)) : option (gset string) :=
  match ds with
  | None => None
  | Some set => if decide (DISTINCT_SET_CAP <= set_len set)%N then None else Some ({[value]} ∪ set)
  end.

Definition add_tokens (value : string) (tk : option (gset string)) : option (gset string) :=
  match tk with
  | None => None
  | Some set =>
      let set := tokenize value set in
      if decide (TOKEN_SET_CAP < set_len set)%N then None else Some set
  end.

Definition string_step (c : ColumnAcc) (o : option string) : ColumnAcc :=
  match o with
  | None => c
  | Some value => with_string_sets c (add_distinct value (distinct_string c)) (add_tokens value (tokens c))
  end.

(** The loops of the two integer branches; [None] is the overflow and [break]. *)
Fixpoint int_loop (arr : list (option Z)) (set : gset Z) : option (gset Z) :=
  match arr with
  | [] => Some set
  | None :: arr => int_loop arr set
  | Some v :: arr =>
      if decide (DISTINCT_SET_CAP <= set_len set)%N then None else int_loop arr ({[v]} ∪ set)
  end.

Definition distinct_column (batch : RecordBatch) (c : ColumnAcc) : infallible ColumnAcc :=
  col ← or_panic (b_columns batch !! col_idx c);
  match kind c with
  | KString =>
      match col with
      | StringArray arr => Ret (foldl string_step c arr)
      | _ => Panic
      end
  | KInt32 =>
      match distinct_int c, col with
      | Some set, Int32Array arr => Ret (with_distinct_int c (int_loop arr set))
      | _, _ => Ret c
      end
  | KInt64 =>
      match distinct_int c, col with
      | Some set, Int64Array arr => Ret (with_distinct_int c (int_loop arr set))
      | _, _ => Ret c
      end
  | KVector _ => Ret c
  end.

(** A loop over the columns that replaces each of them. *)
Fixpoint each_column (f : ColumnAcc -> infallible ColumnAcc) (l : list ColumnAcc) : infallible (list ColumnAcc) :=
  match l with
  | [] => Ret []
  | c :: l => c' ← f c; l' ← each_column f l; Ret (c' :: l')
  end.

Definition with_columns (a : ColumnStatsAccumulator) (cs : list ColumnAcc) : ColumnStatsAccumulator :=
  {| schema := schema a; ts_col_index := ts_col_index a; min_ts_nanos := min_ts_nanos a;
     max_ts_nanos := max_ts_nanos a; indexable_columns := cs |}.

Definition update_distinct_sets (batch : RecordBatch) (a : ColumnStatsAccumulator) : infallible ColumnStatsAccumulator :=
  cs ← each_column (distinct_column batch) (indexable_columns a);
  Ret (with_columns a cs).

(** *** Vector statistics *)

Definition f64_norm (v : list f32) : f64 :=
  f64_sqrt (f64_sum ((fun x => f64_mul (f64_of_f32 x) (f64_of_f32 x)) <$> v)).

Definition with_vector (c : ColumnAcc) (sum : option (list f64)) (rows : option (list (list f32))) (n : N) : ColumnAcc :=
  {| col_idx := col_idx c; kind := kind c; distinct_string := distinct_string c;
     distinct_int := distinct_int c; tokens := tokens c; vec_sum := sum; vec_rows := rows; vec_count := n |}.

(** The body of the row loop, for row [i] of an array of [dim]-vectors. *)
Definition vector_step (dim : nat) (floats : list f32) (c : ColumnAcc) (iv : nat * bool) : ColumnAcc :=
  if negb iv.2 then c
  else
    let v := take dim (drop (iv.1 * dim) floats) in
    let norm := f64_norm v in
    if f64_le norm f64_1e_12 then c
    else
      let v := (fun x => f32_of_f64 (f64_div (f64_of_f32 x) norm)) <$> v in
      let sum := (fun s => zip_with (fun s x => f64_add s (f64_of_f32 x)) s v) <$> vec_sum c in
      let n := (vec_count c + 1)%N in
      match vec_rows c with
      | Some rows =>
          if decide (N.of_nat (length rows) < VEC_ROW_CAP)%N then with_vector c sum (Some (rows ++ [v])) n
          else with_vector c None None n
      | None => with_vector c sum None n
      end.

Definition vector_column (batch : RecordBatch) (c : ColumnAcc) : infallible ColumnAcc :=
  match kind c with
  | KVector dim =>
      match vec_sum c with
      | None => Ret c
      | Some _ =>
          col ← or_panic (b_columns batch !! col_idx c);
          match col with
          | VectorArray _ valid floats => Ret (foldl (vector_step dim floats) c (imap pair valid))
          | _ => Ret c
          end
      end
  | _ => Ret c
  end.

Definition update_vector_stats (batch : RecordBatch) (a : ColumnStatsAccumulator) : infallible ColumnStatsAccumulator :=
  cs ← each_column (vector_column batch) (indexable_columns a);
  Ret (with_columns a cs).

Definition update (batch : RecordBatch) (a : ColumnStatsAccumulator) : infallible ColumnStatsAccumulator :=
  a ← update_ts_bounds batch a;
  a ← update_distinct_sets batch a;
  update_vector_stats batch a.

(** ** The JSON *)

#[export] Instance str_le_dec : RelDecision (fun a b => str_le a b = true) := fun a b => bool_dec _ _.

Definition sort_strings (s : gset string) : list string := merge_sort (fun a b => str_le a b = true) (elements s).
Definition sort_ints (s : gset Z) : list Z := merge_sort Z.le (elements s).

Definition string_set_json (s : option (gset string)) : Json :=
  match s with
  | Some set => JArray (JString <$> sort_strings set)
  | None => JNull
  end.

Definition int_set_json (s : option (gset Z)) : Json :=
  match s with
  | Some set => JArray ((fun v => JNumber (NInt v)) <$> sort_ints set)
  | None => JNull
  end.

(** [Map::insert] *)
Fixpoint json_insert (kv : list (string * Json)) (k : string) (v : Json) : list (string * Json) :=
  match kv with
  | [] => [(k, v)]
  | (k', v') :: kv => if decide (k' = k) then (k, v) :: kv else (k', v') :: json_insert kv k v
  end.

Definition row_distance (centroid : list f64) (r : list f32) : f64 :=
  f64_sqrt (foldl (fun d (xc : f32 * f64) =>
                     let diff := f64_sub (f64_of_f32 xc.1) xc.2 in f64_add d (f64_mul diff diff))
                  f64_zero (zip r centroid)).

(** [json!(x)]: a number that is not finite becomes null. *)
Definition json_f64 (x : f64) : Json :=
  match x with
  | S754_nan | S754_infinity _ => JNull
  | _ => JNumber (NFloat x)
  end.

Definition vector_stat (c : ColumnAcc) : option Json :=
  sum ← vec_sum c;
  rows ← vec_rows c;
  let n := vec_count c in
  if decide (n = 0%N) then None
  else
    let nf := f64_of_Z (Z.of_N n) in
    let centroid := (fun s => f64_div s nf) <$> sum in
    let radius := foldl (fun radius r => let d := row_distance centroid r in
                                         if f64_lt radius d then d else radius) f64_zero rows in
    Some (JObject [("centroid", JArray (json_f64 <$> centroid));
                   ("radius", json_f64 radius);
                   ("count", JNumber (NInt (Z.of_N n)));
                   ("metric", JString "cosine")]).

(** The entry of one column, if it has one. *)
Definition column_stat (c : ColumnAcc) : option Json :=
  match kind c with
  | KVector _ => (fun v => JObject [("vec", v)]) <$> vector_stat c
  | KString => Some (JObject [("distinct", string_set_json (distinct_string c)); ("tokens", string_set_json (tokens c))])
  | KInt32 | KInt64 => Some (JObject [("distinct", int_set_json (distinct_int c)); ("tokens", JNull)])
  end.

Definition finish_step (s : Schema) (stats : list (string * Json)) (c : ColumnAcc) : infallible (list (string * Json)) :=
  field ← or_panic (s !! col_idx c);
  Ret match column_stat c with
      | Some j => json_insert stats (f_name field) j
      | None => stats
      end.

Definition finish (a : ColumnStatsAccumulator) : infallible Json :=
  kv ← for_each (fun c stats => finish_step (schema a) stats c) (indexable_columns a) [];
  Ret (JObject kv).

(** * What the column statistics of an extent contain

    The accumulated sets and bounds cover every cell of every batch that was
    folded in: the contract behind extent-level pruning. *)

(** ** The tokenizer accumulates *)

Definition tokens_of (s : string) : gset string := tokenize s ∅.

Lemma flush_union cur out : flush cur out = flush cur ∅ ∪ out.
Proof. unfold flush. case_decide; [by rewrite union_empty_r_L|by rewrite union_empty_l_L]. Qed.

Lemma tokenize_loop_union cs cur out :
  tokenize_loop cs cur out = tokenize_loop cs cur ∅ ∪ out.
Proof.
  revert cur out. induction cs as [|c cs IH]; intros cur out; simpl; [apply flush_union|].
  destruct (is_ascii_alphanumeric c); [apply IH|]. case_decide; [apply IH|].
  rewrite IH, (IH _ (flush cur ∅)), (flush_union cur out). by rewrite assoc_L by apply _.
Qed.

Lemma tokenize_union s out : tokenize s out = tokens_of s ∪ out.
Proof. apply tokenize_loop_union. Qed.

(** ** Columns only grow *)

Definition set_grows {A} `{Countable A} (o o' : option (gset A)) : Prop :=
  forall s', o' = Some s' -> exists s, o = Some s /\ s ⊆ s'.

#[export] Instance set_grows_preorder {A} `{Countable A} : PreOrder (@set_grows A _ _).
Proof.
  split; [by intros o s' ->; exists s'|].
  intros o1 o2 o3 H12 H23 s3 (s2 & (s1 & -> & Hs1)%H12 & Hs2)%H23. exists s1.
  split; [done|]. by transitivity s2.
Qed.

Definition grows (c c' : ColumnAcc) : Prop :=
  col_idx c' = col_idx c /\ kind c' = kind c /\
  set_grows (distinct_string c) (distinct_string c') /\
  set_grows (tokens c) (tokens c') /\
  set_grows (distinct_int c) (distinct_int c').

#[export] Instance grows_preorder : PreOrder grows.
Proof.
  split; [intros c; by split_and!|].
  intros c1 c2 c3 (H1 & H2 & H3 & H4 & H5) (G1 & G2 & G3 & G4 & G5).
  split_and!; [congruence..| | |]; etrans; done.
Qed.

Lemma add_distinct_grows v ds : set_grows ds (add_distinct v ds).
Proof.
  intros s'. unfold add_distinct. destruct ds as [s|]; [|done]. case_decide; [done|].
  intros [= <-]. exists s. split; [done|]. apply union_subseteq_r.
Qed.

Lemma add_tokens_grows v tk : set_grows tk (add_tokens v tk).
Proof.
  intros s'. unfold add_tokens. destruct tk as [s|]; [|done]. case_decide; [done|].
  intros [= <-]. exists s. split; [done|]. rewrite tokenize_union. apply union_subseteq_r.
Qed.

Lemma string_step_grows c o : grows c (string_step c o).
Proof.
  destruct o as [v|]; [|done]. split_and!; simpl; try done.
  - apply add_distinct_grows.
  - apply add_tokens_grows.
Qed.

Lemma string_fold_grows arr c : grows c (foldl string_step c arr).
Proof.
  revert c. induction arr as [|o arr IH]; intros c; simpl; [done|].
  etrans; [apply string_step_grows|apply IH].
Qed.

Lemma int_loop_spec arr set set' : int_loop arr set = Some set' ->
  set ⊆ set' /\ forall v, Some v ∈ arr -> v ∈ set'.
Proof.
  revert set. induction arr as [|[v|] arr IH]; intros set; simpl.
  - intros [= <-]. split; [done|]. by intros v ?%not_elem_of_nil.
  - case_decide; [done|]. intros [Hs Hin]%IH. split.
    + etrans; [|done]. apply union_subseteq_r.
    + intros w [[= ->]|Hw]%elem_of_cons; [|by apply Hin].
      apply Hs, elem_of_union_l, elem_of_singleton_2. done.
  - intros [Hs Hin]%IH. split; [done|]. intros w [[=]|Hw]%elem_of_cons. by apply Hin.
Qed.

Lemma vector_step_grows dim floats c iv : grows c (vector_step dim floats c iv).
Proof. unfold vector_step. repeat case_match; by split_and!. Qed.

Lemma vector_fold_grows dim floats l c : grows c (foldl (vector_step dim floats) c l).
Proof.
  revert c. induction l as [|o l IH]; intros c; simpl; [done|].
  etrans; [apply vector_step_grows|apply IH].
Qed.

Lemma vector_column_grows b c c' : vector_column b c = Ret c' -> grows c c'.
Proof.
  unfold vector_column. destruct (kind c); try (by intros [= <-]).
  destruct (vec_sum c); [|by intros [= <-]].
  intros (col & _ & H)%bind_Ret. destruct col; simplify_eq; try done. apply vector_fold_grows.
Qed.

(** ** Coverage of a column *)

(** The array of a column has the kind the accumulator indexes. *)
Definition array_kind (a : Array) : option IndexableKind := indexable_kind (array_type a).

Definition value_in (c : ColumnAcc) (v : value) : Prop :=
  match v with
  | VStr s =>
      (forall set, distinct_string c = Some set -> s ∈ set) /\
      (forall set, tokens c = Some set -> tokens_of s ⊆ set)
  | VInt z => forall set, distinct_int c = Some set -> z ∈ set
  | _ => True
  end.

Definition col_covers (bs : list RecordBatch) (c : ColumnAcc) : Prop :=
  forall b a i v, b ∈ bs -> b_columns b !! col_idx c = Some a -> array_kind a = Some (kind c) ->
    array_cell a i = Some v -> value_in c v.

Lemma value_in_grows c c' v : grows c c' -> value_in c v -> value_in c' v.
Proof.
  intros (_ & _ & Hd & Ht & Hi). destruct v; simpl; try done.
  - intros H set (s & Hs & Hsub)%Hi. apply Hsub. by apply H.
  - intros [H1 H2]. split; intros set.
    + intros (s' & Hs & Hsub)%Hd. apply Hsub. by apply H1.
    + intros (s' & Hs & Hsub)%Ht. etrans; [by apply H2|done].
Qed.

Lemma col_covers_grows bs c c' : grows c c' -> col_covers bs c -> col_covers bs c'.
Proof.
  intros Hg Hc b a i v Hb Ha Hk Hv. apply (value_in_grows c); [done|].
  destruct Hg as (Hci & Hki & _). rewrite Hci in Ha. rewrite Hki in Hk. by eapply Hc.
Qed.

Lemma string_step_in c s : value_in (string_step c (Some s)) (VStr s).
Proof.
  split; simpl; intros set.
  - unfold add_distinct. destruct (distinct_string c); [|done]. case_decide; [done|].
    intros [= <-]. by apply elem_of_union_l, elem_of_singleton_2.
  - unfold add_tokens. destruct (tokens c); [|done]. case_decide; [done|].
    intros [= <-]. rewrite tokenize_union. apply union_subseteq_l.
Qed.

Lemma string_fold_in arr c s : Some s ∈ arr -> value_in (foldl string_step c arr) (VStr s).
Proof.
  revert c. induction arr as [|o arr IH]; intros c; [by intros ?%not_elem_of_nil|].
  intros [<-|Hin]%elem_of_cons; cbn [foldl]; [|by apply IH].
  eapply value_in_grows; [apply string_fold_grows|apply string_step_in].
Qed.

Lemma elem_of_cell {A} (f : A -> value) (l : list (option A)) i v :
  f <$> mjoin (l !! i) = Some v -> exists x, Some x ∈ l /\ v = f x.
Proof.
  intros (x & Hx & ->)%fmap_Some. exists x. split; [|done].
  destruct (l !! i) as [o|] eqn:E; simpl in Hx; [subst o|done]. by eapply list_elem_of_lookup_2.
Qed.

Lemma int_loop_column c set arr : distinct_int c = Some set ->
  grows c (with_distinct_int c (int_loop arr set)) /\
  forall v, Some v ∈ arr -> value_in (with_distinct_int c (int_loop arr set)) (VInt v).
Proof.
  intros Hs. split.
  - split_and!; simpl; try done. intros s' [Hsub _]%int_loop_spec. by exists set.
  - simpl. intros v Hv set' [_ Hin]%int_loop_spec. by apply Hin.
Qed.

(** An array of an indexed kind has one of four shapes. *)
Lemma array_kind_cases a k i v : array_kind a = Some k -> plain_array a -> array_cell a i = Some v ->
  match k with
  | KString => exists l s, (a = StringArray l \/ a = LargeStringArray l) /\ v = VStr s /\ Some s ∈ l
  | KInt32 => exists l z, a = Int32Array l /\ v = VInt z /\ Some z ∈ l
  | KInt64 => exists l z, a = Int64Array l /\ v = VInt z /\ Some z ∈ l
  | KVector _ => v = VOther
  end.
Proof.
  destruct a; simpl; try done.
  all: try (intros [= <-] _ (x & Hx & ->)%elem_of_cell; by eauto 7).
  - intros [= <-] _. by case_decide; intros [= <-].
  - unfold array_kind. simpl. destruct ty as [| | | | | |[]|]; done.
Qed.

Lemma distinct_column_spec b c c' : batch_ok b -> distinct_column b c = Ret c' ->
  grows c c' /\ col_covers [b] c'.
Proof.
  intros [_ Hplain]. unfold distinct_column. intros (col & Hcol & H)%bind_Ret.
  destruct (b_columns b !! col_idx c) as [a|] eqn:Ha; [|done]. injection Hcol as <-.
  pose proof (proj1 (Forall_lookup _ _) Hplain _ _ Ha) as [_ Hpl].
  enough (grows c c' /\ forall i v, array_kind a = Some (kind c) -> array_cell a i = Some v -> value_in c' v)
    as [Hg Hv].
  { split; [done|]. intros b' a' i v ->%list_elem_of_singleton Ha' Hk Hcell.
    destruct Hg as (Hci & Hki & _). rewrite Hci, Ha in Ha'. injection Ha' as <-.
    rewrite Hki in Hk. by eapply Hv. }
  destruct (kind c) eqn:Hk.
  - destruct a; try done. injection H as <-. split; [apply string_fold_grows|].
    intros i v _ (s & Hs & ->)%elem_of_cell. by apply string_fold_in.
  - split; [|intros i v Hak (l & z & -> & -> & Hz)%(array_kind_cases _ _ _ _ Hak Hpl)];
      destruct (distinct_int c) as [set|] eqn:Hd; simplify_eq; try done.
    + destruct a; simplify_eq; try done. by apply int_loop_column.
    + by apply int_loop_column.
    + intros set. by rewrite Hd.
  - split; [|intros i v Hak (l & z & -> & -> & Hz)%(array_kind_cases _ _ _ _ Hak Hpl)];
      destruct (distinct_int c) as [set|] eqn:Hd; simplify_eq; try done.
    + destruct a; simplify_eq; try done. by apply int_loop_column.
    + by apply int_loop_column.
    + intros set. by rewrite Hd.
  - injection H as <-. split; [done|].
    by intros i v Hak ->%(array_kind_cases _ _ _ _ Hak Hpl).
Qed.

(** ** The whole accumulator *)

Lemma each_column_Forall2 f l l' : each_column f l = Ret l' -> Forall2 (fun c c' => f c = Ret c') l l'.
Proof.
  revert l'. induction l as [|c l IH]; intros l'; simpl; [intros [= <-]; constructor|].
  intros (c' & Hc & (l'' & Hl & [= <-])%bind_Ret)%bind_Ret. constructor; [done|by apply IH].
Qed.

Definition ts_covers (bs : list RecordBatch) (a : ColumnStatsAccumulator) : Prop :=
  forall b idx tz l z, b ∈ bs -> ts_col_index a = Some idx ->
    b_columns b !! idx = Some (TimestampArray Nanosecond tz l) -> Some z ∈ l ->
    exists mn mx, min_ts_nanos a = Some mn /\ max_ts_nanos a = Some mx /\ mn <= z <= mx.

(** The statistics account for the batches [bs]. *)
Record acc_covers (bs : list RecordBatch) (a : ColumnStatsAccumulator) : Prop := {
  ac_ts : ts_covers bs a;
  ac_cols : Forall (col_covers bs) (indexable_columns a) }.

Lemma ts_fold_covers arr mm z :
  Some z ∈ arr \/ (exists mn mx, mm = (Some mn, Some mx) /\ mn <= z <= mx) ->
  exists mn mx, foldl ts_bound_step mm arr = (Some mn, Some mx) /\ mn <= z <= mx.
Proof.
  revert mm. induction arr as [|o arr IH]; intros mm H; simpl.
  - destruct H as [H|H]; [by apply not_elem_of_nil in H|done].
  - apply IH. destruct H as [[<-|H]%elem_of_cons|(mn & mx & -> & Hr)]; [right|by left|right].
    + destruct mm as [[mn|] [mx|]]; simpl; eexists _, _; (split; [done|lia]).
    + destruct o as [w|]; simpl; eexists _, _; (split; [done|lia]).
Qed.

Lemma update_ts_bounds_spec b a a' bs : update_ts_bounds b a = Ret a' -> ts_covers bs a ->
  ts_covers (bs ++ [b]) a' /\ indexable_columns a' = indexable_columns a /\
  schema a' = schema a /\ ts_col_index a' = ts_col_index a.
Proof.
  unfold update_ts_bounds. intros H Hc.
  destruct (ts_col_index a) as [idx|] eqn:Hidx.
  2:{ injection H as <-. split_and!; try done. intros ?????? Hi. congruence. }
  apply bind_Ret in H as (col & Hcol & H).
  destruct (b_columns b !! idx) as [a0|] eqn:Ha; [|done]. injection Hcol as <-.
  split.
  - intros b' j tz l z [Hb| ->%list_elem_of_singleton]%elem_of_app Hj Hl Hz.
    + assert (ts_col_index a = Some j) as Hj'.
      { rewrite Hidx. destruct a0 as [[] ? ?| | | | | |]; simplify_eq/=; congruence. }
      destruct (Hc b' j tz l z Hb Hj' Hl Hz) as (mn & mx & Hmn & Hmx & Hr).
      destruct a0 as [[] tz0 arr| | | | | |]; simplify_eq/=; eauto 6.
      rewrite Hmn, Hmx.
      destruct (ts_fold_covers arr (Some mn, Some mx) z) as (mn' & mx' & -> & Hr'); [by eauto 6|].
      by exists mn', mx'.
    + assert (idx = j) as -> by (destruct a0 as [[] ? ?| | | | | |]; simplify_eq/=; congruence).
      rewrite Ha in Hl. injection Hl as ->. injection H as <-. simpl.
      destruct (ts_fold_covers l (min_ts_nanos a, max_ts_nanos a) z) as (mn' & mx' & -> & Hr'); [by left|].
      by exists mn', mx'.
  - destruct a0 as [[] ? ?| | | | | |]; simplify_eq/=; done.
Qed.

Lemma col_covers_snoc bs b c : col_covers bs c -> col_covers [b] c -> col_covers (bs ++ [b]) c.
Proof.
  intros H1 H2 b' a i v [Hb|Hb]%elem_of_app; [by eapply H1|by eapply H2].
Qed.

(** Folding a batch in keeps the account and adds the batch to it. *)
Lemma update_covers b a a' bs : batch_ok b -> update b a = Ret a' -> acc_covers bs a ->
  acc_covers (bs ++ [b]) a' /\ schema a' = schema a /\ ts_col_index a' = ts_col_index a.
Proof.
  intros Hok. unfold update, update_distinct_sets, update_vector_stats.
  intros (a1 & H1 & (a2 & (cs & Hcs%each_column_Forall2 & [= <-])%bind_Ret &
    (vs & Hvs%each_column_Forall2 & [= <-])%bind_Ret)%bind_Ret)%bind_Ret [Hts Hcols].
  destruct (update_ts_bounds_spec _ _ _ _ H1 Hts) as (Hts' & Hic & Hsch & Hidx).
  split; [|done]. split; [exact Hts'|]. simpl in *. rewrite Hic in Hcs.
  apply Forall_lookup. intros i c3 H3.
  destruct (Forall2_lookup_r _ _ _ _ _ Hvs H3) as (c2 & H2 & Hg%vector_column_grows).
  destruct (Forall2_lookup_r _ _ _ _ _ Hcs H2) as (c1 & Hc1 & [Hg1 Hb]%distinct_column_spec); [|done].
  apply (col_covers_grows _ c2); [done|]. apply col_covers_snoc; [|done].
  apply (col_covers_grows _ c1); [done|]. by apply (proj1 (Forall_lookup _ _) Hcols i).
Qed.

(** Every column record is that of an indexable column of the schema. *)
Definition acc_wf (a : ColumnStatsAccumulator) : Prop :=
  Forall (fun c => exists f, schema a !! col_idx c = Some f /\ indexable_kind (f_type f) = Some (kind c))
         (indexable_columns a).

Lemma elem_of_new_columns s c : c ∈ new_columns s ->
  exists i f k, s !! i = Some f /\ indexable_kind (f_type f) = Some k /\ c = new_column i k.
Proof.
  unfold new_columns. rewrite list_elem_of_omap. intros ([i f] & Hin & (k & Hk & ->)%fmap_Some).
  rewrite list_elem_of_lookup in Hin. destruct Hin as [j Hj]. rewrite list_lookup_imap in Hj.
  destruct (s !! j) eqn:E; simplify_eq/=. by eexists _, _, _.
Qed.

Lemma new_wf s : acc_wf (new s).
Proof.
  apply Forall_forall. intros c (i & f & k & Hi & Hk & ->)%elem_of_new_columns. by exists f.
Qed.

Lemma new_covers s : acc_covers [] (new s).
Proof.
  split; [by intros ????? ?%not_elem_of_nil|].
  apply Forall_forall. by intros c _ ???? ?%not_elem_of_nil.
Qed.

Lemma update_wf b a a' : batch_ok b -> update b a = Ret a' -> acc_wf a -> acc_wf a'.
Proof.
  intros Hok. unfold update, update_distinct_sets, update_vector_stats.
  intros (a1 & H1 & (a2 & (cs & Hcs%each_column_Forall2 & [= <-])%bind_Ret &
    (vs & Hvs%each_column_Forall2 & [= <-])%bind_Ret)%bind_Ret)%bind_Ret Hwf.
  assert (indexable_columns a1 = indexable_columns a /\ schema a1 = schema a) as [Hic Hs].
  { destruct (update_ts_bounds_spec b a a1 [] H1) as (_ & ? & ? & _); [|done].
    by intros ????? ?%not_elem_of_nil. }
  unfold acc_wf in *. simpl in *. rewrite Hic in Hcs. rewrite Hs.
  apply Forall_lookup. intros i c3 H3.
  destruct (Forall2_lookup_r _ _ _ _ _ Hvs H3) as (c2 & H2 & Hg%vector_column_grows).
  destruct (Forall2_lookup_r _ _ _ _ _ Hcs H2) as (c1 & Hc1 & [Hg1 _]%distinct_column_spec); [|done].
  destruct (proj1 (Forall_lookup _ _) Hwf i c1 Hc1) as (f & Hf & Hk).
  assert (grows c1 c3) as (-> & -> & _) by (by etrans). by exists f.
Qed.

(** ** The JSON object *)

Lemma json_get_insert kv k v k' :
  json_get (JObject (json_insert kv k v)) k' = if decide (k = k') then Some v else json_get (JObject kv) k'.
Proof.
  unfold json_get. induction kv as [|[k0 v0] kv IH]; simpl.
  - repeat case_decide; simplify_eq/=; done.
  - destruct (decide (k0 = k)) as [->|Hne]; simpl.
    + repeat case_decide; simplify_eq/=; done.
    + destruct (decide (k0 = k')) as [->|Hne']; simpl.
      * rewrite decide_False by congruence. done.
      * destruct (list_find _ (json_insert kv k v)) as [[]|]; destruct (list_find _ kv) as [[]|];
          simpl in *; done.
Qed.

(** An entry of the object is the entry of a column with that name. *)
Lemma finish_get a j name e : finish a = Ret j -> json_get j name = Some e ->
  exists c f, c ∈ indexable_columns a /\ schema a !! col_idx c = Some f /\ f_name f = name /\
    column_stat c = Some e.
Proof.
  unfold finish. intros (kv & Hkv & [= <-])%bind_Ret. revert e.
  revert Hkv. apply (for_each_Ret _ (fun pre kv => forall e, json_get (JObject kv) name = Some e ->
    exists c f, c ∈ pre /\ schema a !! col_idx c = Some f /\ f_name f = name /\ column_stat c = Some e));
    [done|].
  intros pre c kv1 kv2 (f & Hf & [= <-])%bind_Ret IH e.
  destruct (schema a !! col_idx c) as [f'|] eqn:Hs; [|done]. injection Hf as <-.
  assert (json_get (JObject kv1) name = Some e -> exists c0 f, c0 ∈ pre ++ [c] /\
    schema a !! col_idx c0 = Some f /\ f_name f = name /\ column_stat c0 = Some e) as IH'.
  { intros (c0 & f & Hin & H)%IH. exists c0, f. split; [apply elem_of_app; by left|done]. }
  destruct (column_stat c) as [e'|] eqn:Hc; [|exact IH'].
  rewrite json_get_insert. case_decide as Hn; [|exact IH'].
  intros [= <-]. exists c, f'. split_and!; [apply elem_of_app; right; by left|done..].
Qed.

(** ** The contract for the catalog *)

Section Contract.
  Context (a : ColumnStatsAccumulator) (bs : list RecordBatch) (j : Json).
  Context (Hcov : acc_covers bs a) (Hwf : acc_wf a) (Hfin : finish a = Ret j).
  Context (b : RecordBatch) (Hb : b ∈ bs) (Hok : batch_ok b) (Hsch : b_schema b = schema a).
  Context (Hnd : NoDup (f_name <$> schema a)).

(** The entry of the column of a cell comes from a record that has the cell. *)
Lemma cell_column name i v e : cell b name i = Some v -> json_get j name = Some e ->
  exists c, column_stat c = Some e /\ value_in c v /\
    match v with VStr _ => kind c = KString | VInt _ => kind c = KInt32 \/ kind c = KInt64 | _ => True end.
Proof using Hcov Hwf Hfin Hb Hok Hsch Hnd.
  intros Hcell (c & f & Hc & Hf & <- & Hst)%(finish_get _ _ _ _ Hfin).
  unfold cell in Hcell. rewrite Hsch, (column_index_lookup _ _ _ Hnd Hf) in Hcell. simpl in Hcell.
  destruct (b_columns b !! col_idx c) as [ar|] eqn:Har; [|done]. simpl in Hcell.
  destruct Hok as [Hty Hpl].
  pose proof (proj1 (Forall_lookup _ _) Hpl _ _ Har) as [_ Hp]. rewrite Hsch in Hty.
  pose proof (Forall2_lookup_lr _ _ _ _ _ _ Hty Hf Har) as Hat. simpl in Hat.
  destruct (proj1 (Forall_forall _ _) Hwf c Hc) as (f' & Hf' & Hk).
  rewrite Hf in Hf'. injection Hf' as <-. rewrite <-Hat in Hk.
  exists c. split_and!; [done| |].
  - apply (proj1 (Forall_forall _ _) (ac_cols _ _ Hcov) c Hc b ar i v); done.
  - pose proof (array_kind_cases _ _ _ _ Hk Hp Hcell) as H.
    destruct (kind c), v; naive_solver.
Qed.

Lemma elem_of_sort_strings x (s : gset string) : x ∈ sort_strings s <-> x ∈ s.
Proof. unfold sort_strings. by rewrite merge_sort_Permutation, elem_of_elements. Qed.
Lemma elem_of_sort_ints x (s : gset Z) : x ∈ sort_ints s <-> x ∈ s.
Proof. unfold sort_ints. by rewrite merge_sort_Permutation, elem_of_elements. Qed.

(** The JSON form of a cell. *)
Definition value_json (v : value) : option Json :=
  match v with
  | VStr s => Some (JString s)
  | VInt z => Some (JNumber (NInt z))
  | _ => None
  end.

Lemma distinct_contains name i v x e arr : cell b name i = Some v -> value_json v = Some x ->
  json_get j name = Some e -> json_get e "distinct" ≫= as_array = Some arr -> x ∈ arr.
Proof using Hcov Hwf Hfin Hb Hok Hsch Hnd.
  intros Hcell Hx He Harr. destruct (cell_column _ _ _ _ Hcell He) as (c & Hst & Hin & Hk).
  unfold column_stat in Hst. destruct v; simplify_eq/=.
  - assert (e = JObject [("distinct", int_set_json (distinct_int c)); ("tokens", JNull)]) as ->
      by (destruct Hk as [Hk|Hk]; rewrite Hk in Hst; congruence).
    simpl in Harr. destruct (distinct_int c) as [set|] eqn:Hd; simplify_eq/=.
    apply list_elem_of_fmap. exists z. split; [done|]. apply elem_of_sort_ints. by apply Hin.
  - rewrite Hk in Hst. injection Hst as <-. simpl in Harr.
    destruct (distinct_string c) as [set|] eqn:Hd; simplify_eq/=.
    apply list_elem_of_fmap. exists s. split; [done|]. apply elem_of_sort_strings.
    by apply (proj1 Hin).
Qed.

Lemma tokens_contain name i s t e arr : cell b name i = Some (VStr s) -> t ∈ tokens_of s ->
  json_get j name = Some e -> json_get e "tokens" ≫= as_array = Some arr -> JString t ∈ arr.
Proof using Hcov Hwf Hfin Hb Hok Hsch Hnd.
  intros Hcell Ht He Harr. destruct (cell_column _ _ _ _ Hcell He) as (c & Hst & Hin & Hk).
  unfold column_stat in Hst. rewrite Hk in Hst. injection Hst as <-. simpl in Harr.
  destruct (tokens c) as [set|] eqn:Hd; simplify_eq/=.
  apply list_elem_of_fmap. exists t. split; [done|]. apply elem_of_sort_strings.
  by apply (proj2 Hin set).
Qed.

(** The timestamp bounds contain the cells of the time column. *)
Lemma ts_bounds_contain f i t : ts_col_index a = Some i -> schema a !! i = Some f ->
  is_ts_nanos f = true -> forall row, cell b (f_name f) row = Some (VTimestamp t) ->
  exists mn mx, min_ts_nanos a = Some mn /\ max_ts_nanos a = Some mx /\ mn <= t <= mx.
Proof using Hcov Hb Hok Hsch Hnd.
  intros Hi Hf Hts row Hcell.
  unfold cell in Hcell. rewrite Hsch, (column_index_lookup _ _ _ Hnd Hf) in Hcell. simpl in Hcell.
  destruct (b_columns b !! i) as [ar|] eqn:Har; [|done]. simpl in Hcell.
  destruct Hok as [Hty Hpl]. pose proof (proj1 (Forall_lookup _ _) Hpl _ _ Har) as [_ Hp].
  rewrite Hsch in Hty.
  pose proof (Forall2_lookup_lr _ _ _ _ _ _ Hty Hf Har) as Hat. simpl in Hat.
  unfold is_ts_nanos in Hts. rewrite <-Hat in Hts.
  destruct ar as [[] tz l| | | | | |ty n]; simpl in *; try done; [|by destruct ty as [[] ?| | | | | |[]|]].
  apply elem_of_cell in Hcell as (z & Hz & [= ->]). rewrite Z.mul_1_r.
  by eapply (ac_ts _ _ Hcov b i tz l z).
Qed.
End Contract.

(** ** The accumulator returns or panics *)

Lemma each_column_cases f l : (forall c, f c = Panic \/ exists c', f c = Ret c') ->
  each_column f l = Panic \/ exists l', each_column f l = Ret l'.
Proof.
  intros Hf. induction l as [|c l IH]; simpl; [by right; eexists|].
  destruct (Hf c) as [->|[c' ->]]; [by left|]. simpl.
  destruct IH as [->|[l' ->]]; [by left|]. right. by eexists.
Qed.

Lemma update_ts_bounds_cases b a : update_ts_bounds b a = Panic \/ exists a', update_ts_bounds b a = Ret a'.
Proof.
  unfold update_ts_bounds. destruct (ts_col_index a); [|eauto].
  destruct (b_columns b !! n) as [[[] ? ?| | | | | |]|]; simpl; eauto.
Qed.

Lemma distinct_column_cases b c : distinct_column b c = Panic \/ exists c', distinct_column b c = Ret c'.
Proof.
  unfold distinct_column. destruct (b_columns b !! col_idx c) as [a|]; simpl; [|eauto].
  destruct (kind c); eauto; [destruct a; eauto|..]; destruct (distinct_int c); eauto; destruct a; eauto.
Qed.

Lemma vector_column_cases b c : vector_column b c = Panic \/ exists c', vector_column b c = Ret c'.
Proof.
  unfold vector_column. destruct (kind c); eauto. destruct (vec_sum c); eauto.
  destruct (b_columns b !! col_idx c) as [a|]; simpl; [|eauto]. destruct a; eauto.
Qed.

Lemma update_cases b a : update b a = Panic \/ exists a', update b a = Ret a'.
Proof.
  unfold update, update_distinct_sets, update_vector_stats.
  destruct (update_ts_bounds_cases b a) as [->|[a1 ->]]; simpl; [by left|].
  destruct (each_column_cases (distinct_column b) (indexable_columns a1) (distinct_column_cases b))
    as [->|[cs ->]]; simpl; [by left|].
  destruct (each_column_cases (vector_column b) cs (vector_column_cases b)) as [->|[vs ->]]; simpl; eauto.
Qed.
