(* ===== verification/Pushdown.v ===== *)
(** * Filter pushdown ([pensieve-exec/src/lib.rs])

    How a scan turns the filters of a query into the catalog-level
    [PrunePredicate] and the block-level [BlockPredicate].  DataFusion's [Expr]
    is the inductive of the shapes the functions match on.  A [DateTime<Utc>]
    is the instant it denotes, in nanoseconds since the epoch; the functions of
    chrono are a parameter. *)

From stdpp Require Import base gmap strings list sorting.
From Stdlib Require Import NArith ZArith Lia SpecFloat.
From S2P Require Import Prelude Bytes Arrow BlockStats ColumnStats.

Local Open Scope Z_scope.

(** ** chrono *)

Abbreviation DateTime := Z.

Class Chrono := {
  from_timestamp : Z -> Z -> option DateTime;  (** also [Utc.timestamp_opt(…).single()] *)
  timestamp_nanos_opt : DateTime -> option Z;
  parse_from_rfc3339 : string -> option DateTime;
  utc_now : DateTime }.

(** Documented behaviour: the seconds range of chrono contains that of [i64]
    nanoseconds; a sub-second part beyond a leap second is refused; nanoseconds
    since the epoch exist for the instants an [i64] can count. *)
Class ChronoLaws `{Chrono} := {
  from_timestamp_some s n :
    -9223372037 <= s <= 9223372036 -> 0 <= n < 10 ^ 9 -> from_timestamp s n = Some (s * 10 ^ 9 + n);
  from_timestamp_inv s n t :
    from_timestamp s n = Some t -> 0 <= n < 2 * 10 ^ 9 /\ t = s * 10 ^ 9 + n;
  timestamp_nanos_opt_spec t :
    timestamp_nanos_opt t = if decide (i64_MIN <= t <= i64_MAX) then Some t else None }.

(** ** DataFusion expressions *)

Inductive Operator := OEq | OLt | OLtEq | OGt | OGtEq | OOr | OAnd | OOther.

#[export] Instance Operator_eq_dec : EqDecision Operator.
Proof. solve_decision. Defined.

Inductive ScalarValue :=
  | STimestampNanosecond (v : option Z)
  | STimestampMicrosecond (v : option Z)
  | STimestampMillisecond (v : option Z)
  | STimestampSecond (v : option Z)
  | SUtf8 (v : option string)
  | SLargeUtf8 (v : option string)
  | SInt32 (v : option Z)
  | SI64 (v : option Z)
  | SFloat32 (v : option f32)
  | SFloat64 (v : option f64)
  | SOther.

Inductive Expr :=
  | Column (name : string)
  | Literal (s : ScalarValue)
  | Cast (e : Expr) (ty : DataType)
  | BinaryExpr (lhs : Expr) (op : Operator) (rhs : Expr)
  | Between (e : Expr) (negated : bool) (low high : Expr)
  | InList (e : Expr) (l : list Expr) (negated : bool)
  | Like (negated : bool) (e pattern : Expr) (escape_char : option char) (case_insensitive : bool)
  | ScalarFunction (func : string) (args : list Expr)
  | OtherExpr (n : nat).

(** ** Prune predicates ([pensieve-core/src/catalog.rs]) *)

Inductive ColumnPrune :=
  | PEquals (v : Json)
  | PBetween (low high : Json)
  | PInSet (vs : list Json)
  | PContainsTokens (tokens : list string)
  | PVectorDistance (query : list f32) (threshold : f64).

Record PruneTimeRange := { tr_start_inclusive : DateTime; tr_end_exclusive : DateTime }.

Record PrunePredicate := {
  time_range : option PruneTimeRange;
  required_paths : list string;
  column_predicates : gmap string ColumnPrune }.

Definition default_prune : PrunePredicate :=
  {| time_range := None; required_paths := []; column_predicates := ∅ |}.

(** ** Time bounds *)

Inductive TimeBound :=
  | GtOrGe (t : DateTime) (inclusive : bool)
  | LtOrLe (t : DateTime) (inclusive : bool)
  | BetweenTs (a b : DateTime).

Definition flip_op (op : Operator) : Operator :=
  match op with
  | OLt => OGt
  | OLtEq => OGtEq
  | OGt => OLt
  | OGtEq => OLtEq
  | other => other
  end.

(** [x as u32] *)
Definition cast_u32 (x : Z) : Z := x mod 2 ^ 32.

Section WithChrono.
  Context `{Chrono}.

Definition ts_from_scalar (lit : ScalarValue) : option DateTime :=
  match lit with
  | STimestampNanosecond (Some n) => from_timestamp (n / 1000000000) (cast_u32 (n mod 1000000000))
  | STimestampMicrosecond (Some n) => from_timestamp (Z.quot n 1000000) (cast_u32 (Z.rem n 1000000 * 1000))
  | STimestampMillisecond (Some n) => from_timestamp (Z.quot n 1000) (cast_u32 (Z.rem n 1000 * 1000000))
  | STimestampSecond (Some n) => from_timestamp n 0
  | SUtf8 (Some s) | SLargeUtf8 (Some s) => parse_from_rfc3339 s
  | _ => None
  end.

Definition ts_from_expr (e : Expr) : option DateTime :=
  match e with
  | Literal s => ts_from_scalar s
  | Cast (Literal s) _ => ts_from_scalar s
  | _ => None
  end.

(** The column is [ts_col]. *)
Definition is_column (e : Expr) (ts_col : string) : bool :=
  match e with Column c => bool_decide (c = ts_col) | _ => false end.

Definition extract_time_bound (expr : Expr) (ts_col : string) : option TimeBound :=
  match expr with
  | BinaryExpr lhs op rhs =>
      '(op, lit) ← (if is_column lhs ts_col then Some (op, rhs)
                    else if is_column rhs ts_col then Some (flip_op op, lhs)
                    else None);
      ts ← ts_from_expr lit;
      match op with
      | OGt => Some (GtOrGe ts false)
      | OGtEq => Some (GtOrGe ts true)
      | OLt => Some (LtOrLe ts false)
      | OLtEq => Some (LtOrLe ts true)
      | _ => None
      end
  | Between e false low high =>
      if is_column e ts_col then
        low ← ts_from_expr low;
        high ← ts_from_expr high;
        Some (BetweenTs low high)
      else None
  | _ => None
  end.

(** ** Equality and membership *)

Definition scalar_to_json (s : ScalarValue) : option Json :=
  match s with
  | SUtf8 (Some v) | SLargeUtf8 (Some v) => Some (JString v)
  | SInt32 (Some v) => Some (JNumber (NInt v))
  | SI64 (Some v) => Some (JNumber (NInt v))
  | _ => None
  end.

(** The [col = literal] match shared by the two branches. *)
Definition eq_operands (lhs rhs : Expr) (indexable : gset string) : option (string * ScalarValue) :=
  match lhs, rhs with
  | Column c, Literal l => if decide (c ∈ indexable) then Some (c, l) else None
  | Literal l, Column c => if decide (c ∈ indexable) then Some (c, l) else None
  | _, _ => None
  end.

(** The nested [fn walk]: the state is [col_name] and [values]; [None] is the
    result [false]. *)
Fixpoint walk (e : Expr) (indexable : gset string) (st : option string * list Json) :
    option (option string * list Json) :=
  match e with
  | BinaryExpr lhs op rhs =>
      if decide (op = OOr) then
        st ← walk lhs indexable st; walk rhs indexable st
      else if decide (op = OEq) then
        '(n, lit) ← eq_operands lhs rhs indexable;
        st ← match st.1 with
             | Some existing => if decide (existing = n) then Some st else None
             | None => Some (Some n, st.2)
             end;
        j ← scalar_to_json lit;
        Some (st.1, st.2 ++ [j])
      else None
  | _ => None
  end.

Definition literal_json (e : Expr) : option Json :=
  match e with Literal l => scalar_to_json l | _ => None end.

Definition extract_equality (expr : Expr) (indexable_cols : gset string) : option (string * ColumnPrune) :=
  match expr with
  | BinaryExpr lhs op rhs =>
      if decide (op = OEq) then
        '(col_name, lit) ← eq_operands lhs rhs indexable_cols;
        j ← scalar_to_json lit;
        Some (col_name, PEquals j)
      else if decide (op = OOr) then
        st ← walk lhs indexable_cols (None, []);
        st ← walk rhs indexable_cols st;
        n ← st.1;
        Some (n, PInSet st.2)
      else None
  | InList e l false =>
      match e with
      | Column c =>
          if decide (c ∈ indexable_cols) then
            vals ← mapM literal_json l;
            Some (c, PInSet vals)
          else None
      | _ => None
      end
  | _ => None
  end.

(** ** Text search *)

Definition is_percent (c : char) : bool := (c =? 37)%N.

(** [trim_matches('%')] on characters. *)
Fixpoint drop_percents (l : list char) : list char :=
  match l with
  | [] => []
  | c :: l' => if is_percent c then drop_percents l' else l
  end.
Definition trim_percents (l : list char) : list char := reverse (drop_percents (reverse (drop_percents l))).

(** [pensieve_format_tlm_tokenize_like] *)
Fixpoint tokenize_like_loop (cs : list char) (cur : string) (out : gset string) : gset string :=
  match cs with
  | [] => if decide (2 <= String.length cur)%nat then {[cur]} ∪ out else out
  | c :: cs =>
      if is_ascii_alphanumeric c then tokenize_like_loop cs (push cur (to_ascii_lowercase c)) out
      else if decide (cur = EmptyString) then tokenize_like_loop cs cur out
      else tokenize_like_loop cs EmptyString (if decide (2 <= String.length cur)%nat then {[cur]} ∪ out else out)
  end.
Definition tokenize_like (cs : list char) : gset string := tokenize_like_loop cs EmptyString ∅.

Definition extract_text_search (expr : Expr) (string_cols : gset string) : option (string * ColumnPrune) :=
  match expr with
  | Like false inner pattern _ _ =>
      match inner with
      | Column c =>
          if decide (c ∈ string_cols) then
            match pattern with
            | Literal (SUtf8 (Some raw)) | Literal (SLargeUtf8 (Some raw)) =>
                let tokens := tokenize_like (trim_percents (chars raw)) in
                if decide (tokens = ∅) then None
                else Some (c, PContainsTokens (sort_strings tokens))
            | _ => None
            end
          else None
      | _ => None
      end
  | _ => None
  end.

(** ** Vector distance *)

Definition scalar_to_f64 (s : ScalarValue) : option f64 :=
  match s with
  | SFloat64 (Some v) => Some v
  | SFloat32 (Some v) => Some (f64_of_f32 v)
  | SI64 (Some v) => Some (f64_of_Z v)
  | SInt32 (Some v) => Some (f64_of_Z v)
  | _ => None
  end.

Definition decode_make_array (e : Expr) : option (list f32) :=
  match e with
  | ScalarFunction func args =>
      if decide (func <> "make_array" \/ args = []) then None
      else mapM (fun a => match a with Literal s => f32_of_f64 <$> scalar_to_f64 s | _ => None end) args
  | _ => None
  end.

Definition extract_vector_distance (expr : Expr) (vector_cols : gset string) : option (string * ColumnPrune) :=
  match expr with
  | BinaryExpr lhs op rhs =>
      '(dist_expr, thresh_expr) ← match op with
                                  | OLt | OLtEq => Some (lhs, rhs)
                                  | OGt | OGtEq => Some (rhs, lhs)
                                  | _ => None
                                  end;
      match dist_expr with
      | ScalarFunction func args =>
          if decide (func <> "cosine_distance") then None
          else match args with
               | [a0; a1] =>
                   '(col_name, arr_expr) ←
                     match a0, a1 with
                     | Column c, other =>
                         if decide (c ∈ vector_cols) then Some (c, other)
                         else match other with
                              | Column c' => if decide (c' ∈ vector_cols) then Some (c', a0) else None
                              | _ => None
                              end
                     | other, Column c => if decide (c ∈ vector_cols) then Some (c, other) else None
                     | _, _ => None
                     end;
                   query ← decode_make_array arr_expr;
                   threshold ← match thresh_expr with Literal s => scalar_to_f64 s | _ => None end;
                   Some (col_name, PVectorDistance query threshold)
               | _ => None
               end
      | _ => None
      end
  | _ => None
  end.

(** ** The two predicates *)

Definition is_indexable_type (ty : DataType) : bool :=
  match ty with Utf8 | LargeUtf8 | Int32 | Int64 => true | _ => false end.
Definition is_string_type (ty : DataType) : bool :=
  match ty with Utf8 | LargeUtf8 => true | _ => false end.
Definition is_float_vector (ty : DataType) : bool :=
  match ty with FixedSizeList Float32 _ => true | _ => false end.

Definition cols_where (P : DataType -> bool) (s : Schema) : gset string :=
  list_to_set (f_name <$> filter (fun f => P (f_type f) = true) s).

Definition float_vector_cols (s : Schema) : gset string := cols_where is_float_vector s.

(** [entry(col).or_insert(prune)] *)
Definition or_insert (m : gmap string ColumnPrune) (cp : string * ColumnPrune) : gmap string ColumnPrune :=
  match m !! cp.1 with Some _ => m | None => <[cp.1 := cp.2]> m end.

Definition omax (cur : option Z) (t : Z) : option Z := Some match cur with Some c => Z.max c t | None => t end.
Definition omin (cur : option Z) (t : Z) : option Z := Some match cur with Some c => Z.min c t | None => t end.

(** One iteration of the loop over the filters that narrows [lo] and [hi]. *)
Definition bound_step (ts_col : string) (lohi : option Z * option Z) (f : Expr) : option Z * option Z :=
  let '(lo, hi) := lohi in
  match extract_time_bound f ts_col with
  | Some (GtOrGe t _) => (omax lo t, hi)
  | Some (LtOrLe t inclusive) => (lo, omin hi (if inclusive then t + 1 else t))
  | Some (BetweenTs a b) => (omax lo a, omin hi (b + 1))
  | None => (lo, hi)
  end.

(** 2999-12-31T23:59:59Z and 1970-01-01T00:00:00Z. *)
Definition FAR_END : DateTime := 32503679999 * 10 ^ 9.
Definition FAR_START : DateTime := 0.

Definition combine_bounds (lohi : option Z * option Z) : option PruneTimeRange :=
  match lohi with
  | (Some s, Some e) => if s <? e then Some {| tr_start_inclusive := s; tr_end_exclusive := e |} else None
  | (Some s, None) => Some {| tr_start_inclusive := s; tr_end_exclusive := FAR_END |}
  | (None, Some e) => Some {| tr_start_inclusive := FAR_START; tr_end_exclusive := e |}
  | (None, None) => None
  end.

(** The column predicate a filter contributes: the first extractor that
    recognises it. *)
Definition extract_column (s : Schema) (f : Expr) : option (string * ColumnPrune) :=
  match extract_equality f (cols_where is_indexable_type s) with
  | Some cp => Some cp
  | None =>
      match extract_text_search f (cols_where is_string_type s) with
      | Some cp => Some cp
      | None => extract_vector_distance f (float_vector_cols s)
      end
  end.

Definition column_step (s : Schema) (m : gmap string ColumnPrune) (f : Expr) : gmap string ColumnPrune :=
  match extract_column s f with Some cp => or_insert m cp | None => m end.

Definition build_prune_predicate (table_schema : Schema) (filters : list Expr) : PrunePredicate :=
  match position is_ts_nanos table_schema ≫= fun i => table_schema !! i with
  | None => default_prune
  | Some f =>
      {| time_range := combine_bounds (foldl (bound_step (f_name f)) (None, None) filters);
         required_paths := [];
         column_predicates := foldl (column_step table_schema) ∅ filters |}
  end.

Definition json_to_block_scalar (v : Json) : option BlockScalar :=
  match v with
  | JString s => Some (BString s)
  | JNumber _ => BInt64 <$> as_i64 v
  | JBool b => Some (BBool b)
  | JNull => Some BNull
  | _ => None
  end.

Definition unwrap_or {A} (d : A) (o : option A) : A := match o with Some x => x | None => d end.

Definition block_part (s : Schema) (cp : string * ColumnPrune) : option BlockPredicate :=
  col_id ← column_index s cp.1;
  match cp.2 with
  | PEquals v => Equals {| column_id := as_u32 col_id |} <$> json_to_block_scalar v
  | PInSet vals =>
      let values := omap json_to_block_scalar vals in
      match values with
      | [] => None
      | _ => Some (InSet {| column_id := as_u32 col_id |} values)
      end
  | PBetween _ _ | PContainsTokens _ | PVectorDistance _ _ => None
  end.

Definition time_part (s : Schema) (tr : PruneTimeRange) : option BlockPredicate :=
  i ← position is_ts_nanos s;
  Some (TimeRange {| column_id := as_u32 i |}
          (unwrap_or i64_MIN (timestamp_nanos_opt (tr_start_inclusive tr)))
          (unwrap_or i64_MAX (timestamp_nanos_opt (tr_end_exclusive tr)))).

Definition build_block_predicate (table_schema : Schema) (prune : PrunePredicate) : BlockPredicate :=
  let parts := option_list (time_range prune ≫= time_part table_schema) ++
               omap (block_part table_schema) (map_to_list (column_predicates prune)) in
  match parts with
  | [] => All
  | [p] => p
  | _ => And parts
  end.
End WithChrono.
