(* ===== verification/CatalogPrune.v ===== *)
(** * Extent pruning in the catalog

    [list_extents_in_tenant] of [pensieve-catalog-sqlite/src/lib.rs] with its
    helpers, [cosine_distance_lower_bound] of [pensieve-core/src/catalog.rs],
    and the manifest an ingest registers for a written extent
    ([pensieve-ingest-core/src/lib.rs]).  A row of the [extents] table holds
    the JSON value its text columns parse to. *)

From stdpp Require Import base gmap strings list sorting.
From Stdlib Require Import NArith ZArith Lia SpecFloat.
From S2P Require Import Prelude Bytes Arrow BlockStats ColumnStats Pushdown.

Local Open Scope Z_scope.

Record ExtentManifest := {
  m_id : N;
  m_table_id : N;
  m_schema_snapshot_id : N;
  m_object_path : string;
  m_byte_size : N;
  m_row_count : N;
  min_timestamp : option DateTime;
  max_timestamp : option DateTime;
  column_stats : Json;
  present_paths : list string;
  compaction_gen : N;
  created_at : DateTime }.

(** A row of the [extents] table. *)
Record ExtentRow := { r_tenant_id : N; r_deleted : bool; r_manifest : ExtentManifest }.

(** ** Statistics *)

Definition distinct_array (stats : Json) (col : string) : option (list Json) :=
  c ← json_get stats col; d ← json_get c "distinct"; as_array d.

Definition token_array (stats : Json) (col : string) : option (list Json) :=
  c ← json_get stats col; d ← json_get c "tokens"; as_array d.

(** [low <= x <= high]; incomparable values count as in range. *)
Definition json_in_range (x low high : Json) : bool :=
  match as_f64 x, as_f64 low, as_f64 high with
  | Some xv, Some lo, Some hi => f64_le lo xv && f64_le xv hi
  | _, _, _ =>
      match as_str x, as_str low, as_str high with
      | Some xs, Some ls, Some hs => str_le ls xs && str_le xs hs
      | _, _, _ => true
      end
  end.

Definition cosine_distance_lower_bound (query : list f32) (centroid : list f64) (radius : f64) : option f64 :=
  if decide (length query <> length centroid \/ query = []) then None
  else
    let norm := f64_norm query in
    if f64_le norm f64_1e_12 then None
    else
      let dist_sq := foldl (fun acc (qc : f32 * f64) =>
                              let qn := f64_div (f64_of_f32 qc.1) norm in
                              let diff := f64_sub qn qc.2 in
                              f64_add acc (f64_mul diff diff))
                           f64_zero (zip query centroid) in
      let dist := f64_sqrt dist_sq in
      let d := f64_max (f64_sub dist radius) f64_zero in
      Some (f64_mul (f64_mul f64_half d) d).

Definition keep_extent_by_vector (column_stats : Json) (col : string) (query : list f32) (threshold : f64) : bool :=
  match json_get column_stats col ≫= fun c => json_get c "vec" with
  | None => true
  | Some vec_stat =>
      match json_get vec_stat "centroid" ≫= as_array with
      | None => true
      | Some arr =>
          let centroid := omap as_f64 arr in
          match json_get vec_stat "radius" ≫= as_f64 with
          | None => true
          | Some radius =>
              match cosine_distance_lower_bound query centroid radius with
              | Some lb => f64_lt lb threshold
              | None => true
              end
          end
      end
  end.

(** [x == t] of a JSON value with a string. *)
Definition json_is_str (t : string) (x : Json) : bool := bool_decide (as_str x = Some t).

(** ** The retain closures *)

Definition keep_time (tr : PruneTimeRange) (m : ExtentManifest) : bool :=
  match min_timestamp m, max_timestamp m with
  | Some mn, Some mx => (tr_start_inclusive tr <=? mx) && (mn <? tr_end_exclusive tr)
  | _, _ => true
  end.

Definition keep_paths (required : list string) (m : ExtentManifest) : bool :=
  forallb (fun p => bool_decide (p ∈ present_paths m)) required.

Definition keep_column (cp : string * ColumnPrune) (m : ExtentManifest) : bool :=
  let '(col, pred) := cp in
  match pred with
  | PEquals v =>
      match distinct_array (column_stats m) col with
      | Some arr => existsb (fun x => json_eqb x v) arr
      | None => true
      end
  | PInSet vs =>
      match distinct_array (column_stats m) col with
      | Some arr => existsb (fun v => existsb (fun x => json_eqb x v) arr) vs
      | None => true
      end
  | PBetween low high =>
      match distinct_array (column_stats m) col with
      | Some arr => existsb (fun x => json_in_range x low high) arr
      | None => true
      end
  | PContainsTokens tokens =>
      match token_array (column_stats m) col with
      | Some toks => forallb (fun t => existsb (json_is_str t) toks) tokens
      | None => true
      end
  | PVectorDistance query threshold => keep_extent_by_vector (column_stats m) col query threshold
  end.

Definition retain (P : ExtentManifest -> bool) (l : list ExtentManifest) : list ExtentManifest :=
  filter (fun m => P m = true) l.

(** The order of the final sort: newest first, unknown last. *)
Definition newest_first (a b : ExtentManifest) : bool :=
  match min_timestamp b, min_timestamp a with
  | Some bt, Some at_ => bt <=? at_
  | Some _, None => false
  | None, Some _ => true
  | None, None => true
  end.

#[export] Instance newest_first_dec : RelDecision (fun a b => newest_first a b = true) := fun a b => bool_dec _ _.

Definition live_row (tenant table_id : N) (r : ExtentRow) : bool :=
  bool_decide (r_tenant_id r = tenant) && bool_decide (m_table_id (r_manifest r) = table_id) && negb (r_deleted r).

Definition list_extents_in_tenant (rows : list ExtentRow) (tenant table_id : N) (prune : PrunePredicate) :
    list ExtentManifest :=
  let out := r_manifest <$> filter (fun r => live_row tenant table_id r = true) rows in
  let out := match time_range prune with Some tr => retain (keep_time tr) out | None => out end in
  let out := match required_paths prune with [] => out | ps => retain (keep_paths ps) out end in
  let out := foldl (fun out cp => retain (keep_column cp) out) out (map_to_list (column_predicates prune)) in
  merge_sort (fun a b => newest_first a b = true) out.

(** ** The manifest of a written extent *)

Record ExtentWriteResult := {
  wr_extent_id : N;
  wr_object_path : string;
  wr_byte_size : N;
  wr_row_count : N;
  wr_block_count : nat;
  wr_min_timestamp_nanos : option Z;
  wr_max_timestamp_nanos : option Z;
  wr_present_paths : list string;
  wr_column_stats : Json }.

Section Manifest.
  Context `{Chrono}.

Definition nanos_to_utc (n : Z) : DateTime :=
  let secs := n / 1000000000 in
  let nsec := cast_u32 (n mod 1000000000) in
  unwrap_or utc_now (from_timestamp secs nsec).

(** [table] contributes its id and schema snapshot; the clock is read once. *)
Definition table_result_to_manifest (table_id schema_snapshot_id : N) (result : ExtentWriteResult) : ExtentManifest :=
  {| m_id := wr_extent_id result;
     m_table_id := table_id;
     m_schema_snapshot_id := schema_snapshot_id;
     m_object_path := wr_object_path result;
     m_byte_size := wr_byte_size result;
     m_row_count := wr_row_count result;
     min_timestamp := nanos_to_utc <$> wr_min_timestamp_nanos result;
     max_timestamp := nanos_to_utc <$> wr_max_timestamp_nanos result;
     column_stats := wr_column_stats result;
     present_paths := wr_present_paths result;
     compaction_gen := 0;
     created_at := utc_now |}.

Context `{!ChronoLaws}.

Lemma nanos_to_utc_spec n : is_i64 n -> nanos_to_utc n = n.
Proof.
  intros [Hlo Hhi]. unfold i64_MIN, i64_MAX in *. unfold nanos_to_utc, cast_u32.
  pose proof (Z.mod_pos_bound n 1000000000 ltac:(lia)) as Hm.
  pose proof (Z.div_mod n 1000000000 ltac:(lia)) as Hd.
  rewrite (Z.mod_small (n mod 1000000000)) by lia.
  rewrite from_timestamp_some; simpl; lia.
Qed.
End Manifest.

(** ** Which extents are listed *)

(** All closures accept the manifest. *)
Definition keep (prune : PrunePredicate) (m : ExtentManifest) : Prop :=
  (forall tr, time_range prune = Some tr -> keep_time tr m = true) /\
  keep_paths (required_paths prune) m = true /\
  (forall col pred, column_predicates prune !! col = Some pred -> keep_column (col, pred) m = true).

Lemma elem_of_retain P l m : m ∈ retain P l <-> P m = true /\ m ∈ l.
Proof. unfold retain. by rewrite list_elem_of_filter. Qed.

Lemma elem_of_retain_all cps l m :
  m ∈ foldl (fun out cp => retain (keep_column cp) out) l cps <->
  m ∈ l /\ Forall (fun cp => keep_column cp m = true) cps.
Proof.
  revert l. induction cps as [|cp cps IH]; intros l; simpl.
  - split; [by intros|by intros [? _]].
  - rewrite IH, elem_of_retain, Forall_cons. tauto.
Qed.

(** The listing contains exactly the live extents of the table that every
    closure accepts, whatever order the predicates are applied in. *)
Lemma elem_of_list_extents rows tenant table_id prune m :
  m ∈ list_extents_in_tenant rows tenant table_id prune <->
  (exists r, r ∈ rows /\ live_row tenant table_id r = true /\ r_manifest r = m) /\ keep prune m.
Proof.
  unfold list_extents_in_tenant, keep. rewrite merge_sort_Permutation, elem_of_retain_all.
  set (base := r_manifest <$> filter _ rows).
  assert (m ∈ base <-> exists r, r ∈ rows /\ live_row tenant table_id r = true /\ r_manifest r = m) as Hbase.
  { unfold base. rewrite list_elem_of_fmap. setoid_rewrite list_elem_of_filter. naive_solver. }
  rewrite <-Hbase. rewrite Forall_forall.
  assert ((forall cp, cp ∈ map_to_list (column_predicates prune) -> keep_column cp m = true) <->
          (forall col pred, column_predicates prune !! col = Some pred -> keep_column (col, pred) m = true)) as ->.
  { split.
    - intros Hc col pred Hp. apply Hc. by apply elem_of_map_to_list.
    - intros Hc [col pred] Hp%elem_of_map_to_list. by apply Hc. }
  assert (m ∈ (match required_paths prune with [] =>
             match time_range prune with Some tr => retain (keep_time tr) base | None => base end
           | ps => retain (keep_paths ps) match time_range prune with Some tr => retain (keep_time tr) base | None => base end end)
          <-> m ∈ base /\ (forall tr, time_range prune = Some tr -> keep_time tr m = true) /\
              keep_paths (required_paths prune) m = true) as Hm.
  { assert (m ∈ match time_range prune with Some tr => retain (keep_time tr) base | None => base end
            <-> m ∈ base /\ forall tr, time_range prune = Some tr -> keep_time tr m = true) as Ht.
    { destruct (time_range prune); [rewrite elem_of_retain|]; naive_solver. }
    destruct (required_paths prune); [|rewrite elem_of_retain]; rewrite Ht; naive_solver. }
  split; [intros [Hin%Hm Hc]|intros (Hin & Ht & Hp & Hc); split; [apply Hm|]]; tauto.
Qed.

(** * The time range on PostgreSQL

    [list_extents_in_tenant] of [pensieve-catalog/src/lib.rs] leaves the time
    range of a query to the statement
    [tstzrange(min_timestamp, max_timestamp) && tstzrange($a, $b)], where the
    SQLite catalog evaluates the closure [CatalogPrune.keep_time].  The two do
    not agree: a range built from two bounds is half-open, also that of the
    extent, whose greatest timestamp is one of a row. *)

(** ** Ranges *)

(** A value of [tstzrange]; no bound is infinite. *)
Inductive Range := REmpty | RHalfOpen (lower upper : option DateTime).

(** Bounds that are out of order are an error, equal ones make an empty range. *)
Definition tstzrange (lower upper : option DateTime) : option Range :=
  match lower, upper with
  | Some a, Some b => if b <? a then None else Some (if a =? b then REmpty else RHalfOpen lower upper)
  | _, _ => Some (RHalfOpen lower upper)
  end.

Definition below (lower upper : option DateTime) : bool :=
  match lower, upper with Some a, Some b => a <? b | _, _ => true end.

(** [&&] *)
Definition range_overlaps (r1 r2 : Range) : bool :=
  match r1, r2 with
  | RHalfOpen l1 u1, RHalfOpen l2 u2 => below l1 u2 && below l2 u1
  | _, _ => false
  end.

(** [None] when the statement fails. *)
Definition pg_keep_time (tr : PruneTimeRange) (m : ExtentManifest) : option bool :=
  r1 ← tstzrange (min_timestamp m) (max_timestamp m);
  r2 ← tstzrange (Some (tr_start_inclusive tr)) (Some (tr_end_exclusive tr));
  Some (range_overlaps r1 r2).

(** ** Comparison with the closure *)

Lemma pg_keep_time_iff tr m mn mx : min_timestamp m = Some mn -> max_timestamp m = Some mx -> mn <= mx ->
  tr_start_inclusive tr <= tr_end_exclusive tr ->
  pg_keep_time tr m = Some (bool_decide (mn < mx /\ tr_start_inclusive tr < tr_end_exclusive tr /\
                                         tr_start_inclusive tr < mx /\ mn < tr_end_exclusive tr)).
Proof.
  destruct tr as [a b]. simpl. intros Hmn Hmx Hle Hr. unfold pg_keep_time, tstzrange. rewrite Hmn, Hmx. simpl.
  rewrite (proj2 (Z.ltb_ge mx mn)), (proj2 (Z.ltb_ge b a)) by lia. simpl. f_equal. symmetry.
  destruct (Z.eqb_spec mn mx); [apply bool_decide_eq_false; lia|].
  destruct (Z.eqb_spec a b); [apply bool_decide_eq_false; lia|]. simpl.
  destruct (Z.ltb_spec mn b), (Z.ltb_spec a mx); simpl; first [apply bool_decide_eq_true|apply bool_decide_eq_false]; lia.
Qed.
