(* ===== verification/PruneSpec.v ===== *)
(** * The meaning of pushed-down filters on rows

    What it means that a row satisfies a filter, for the shapes the pushdown
    recognises; every other expression has an arbitrary meaning ([Engine]).
    [like_match] is SQL's LIKE without escapes.  The main lemmas say what a
    satisfied filter implies for the time bound and the column predicate that
    are extracted from it. *)

From stdpp Require Import base gmap strings list sorting.
From Stdlib Require Import NArith ZArith Lia SpecFloat.
From S2P Require Import Prelude Bytes Arrow BlockStats ColumnStats Pushdown CatalogPrune.

Local Open Scope Z_scope.

(** ** LIKE *)

Definition is_underscore (c : char) : bool := (c =? 95)%N.
Definition is_backslash (c : char) : bool := (c =? 92)%N.
Definition is_wild (c : char) : bool := is_percent c || is_underscore c.

Fixpoint like_match (p : list char) : list char -> bool :=
  match p with
  | [] => fun s => match s with [] => true | _ => false end
  | c :: p =>
      if is_percent c then
        fix any s := like_match p s || match s with [] => false | _ :: s => any s end
      else if is_underscore c then
        fun s => match s with [] => false | _ :: s => like_match p s end
      else
        fun s => match s with [] => false | d :: s => (c =? d)%N && like_match p s end
  end.

(** No letter or digit of the pattern touches a wildcard: [wild] and [alnum]
    say what the previous character was. *)
Fixpoint aligned_from (wild alnum : bool) (p : list char) : bool :=
  match p with
  | [] => true
  | c :: p =>
      if is_wild c then negb alnum && aligned_from true false p
      else if is_ascii_alphanumeric c then negb wild && aligned_from false true p
      else aligned_from false false p
  end.
Definition aligned (p : list char) : bool := aligned_from false false p.

(** ** Values of expressions *)

Definition scalar_value (s : ScalarValue) : option value :=
  match s with
  | STimestampNanosecond v => VTimestamp <$> v
  | STimestampMicrosecond v => (fun n => VTimestamp (n * 1000)) <$> v
  | STimestampMillisecond v => (fun n => VTimestamp (n * 1000000)) <$> v
  | STimestampSecond v => (fun n => VTimestamp (n * 1000000000)) <$> v
  | SUtf8 v | SLargeUtf8 v => VStr <$> v
  | SInt32 v | SI64 v => VInt <$> v
  | SFloat32 v | SFloat64 v => (fun _ => VOther) <$> v
  | SOther => Some VOther
  end.

(** The query engine's meaning of what the pushdown does not look at. *)
Class Engine := {
  other_cast : DataType -> value -> option value;
  other_value : Expr -> RecordBatch -> nat -> option value;
  other_sat : Expr -> RecordBatch -> nat -> bool }.

Section Sem.
  Context `{Chrono} `{Engine}.
  Context (b : RecordBatch) (i : nat).

Definition cast_value (ty : DataType) (v : value) : option value :=
  match ty, v with
  | Timestamp Nanosecond _, VTimestamp t => Some (VTimestamp t)
  | Timestamp Nanosecond _, VStr s => VTimestamp <$> parse_from_rfc3339 s
  | _, _ => other_cast ty v
  end.

Fixpoint expr_value (e : Expr) : option value :=
  match e with
  | Column c => cell b c i
  | Literal s => scalar_value s
  | Cast e ty => v ← expr_value e; cast_value ty v
  | _ => other_value e b i
  end.

(** Comparison of two values; a string compared with a timestamp is read as a
    timestamp. *)
Definition compare_values (v w : value) : option comparison :=
  match v, w with
  | VTimestamp x, VTimestamp y => Some (x ?= y)
  | VInt x, VInt y => Some (x ?= y)
  | VStr x, VStr y => Some (str_compare x y)
  | VTimestamp x, VStr s => Z.compare x <$> parse_from_rfc3339 s
  | VStr s, VTimestamp y => (fun x => x ?= y) <$> parse_from_rfc3339 s
  | _, _ => None
  end.

Definition op_holds (op : Operator) (c : comparison) : bool :=
  match op, c with
  | OEq, Eq | OLt, Lt | OLtEq, (Lt | Eq) | OGt, Gt | OGtEq, (Gt | Eq) => true
  | _, _ => false
  end.

Definition holds_op (op : Operator) (x y : option value) : bool :=
  match (v ← x; w ← y; compare_values v w) with
  | Some c => op_holds op c
  | None => false
  end.

Fixpoint sat (e : Expr) : bool :=
  match e with
  | BinaryExpr lhs op rhs =>
      match op with
      | OOr => sat lhs || sat rhs
      | OAnd => sat lhs && sat rhs
      | OOther => other_sat e b i
      | _ => holds_op op (expr_value lhs) (expr_value rhs)
      end
  | Between x false low high =>
      holds_op OGtEq (expr_value x) (expr_value low) && holds_op OLtEq (expr_value x) (expr_value high)
  | InList x l false => existsb (fun y => holds_op OEq (expr_value x) (expr_value y)) l
  | Like false x pattern None false =>
      match expr_value x, expr_value pattern with
      | Some (VStr s), Some (VStr p) =>
          if existsb is_backslash (chars p) then other_sat e b i else like_match (chars p) (chars s)
      | Some _, Some _ => other_sat e b i
      | _, _ => false
      end
  | _ => other_sat e b i
  end.
End Sem.

(** ** Filters the pushdown treats soundly *)

(** A cast of a literal targets nanosecond timestamps. *)
Definition cast_ok (e : Expr) : bool :=
  match e with
  | Cast (Literal _) (Timestamp Nanosecond _) => true
  | Cast (Literal _) _ => false
  | _ => true
  end.

Definition time_casts_ok (f : Expr) : bool :=
  match f with
  | BinaryExpr l _ r => cast_ok l && cast_ok r
  | Between _ _ lo hi => cast_ok lo && cast_ok hi
  | _ => true
  end.

(** A LIKE pattern is case-sensitive, has no escape and no letter or digit next
    to a wildcard. *)
Definition like_ok (f : Expr) : bool :=
  match f with
  | Like false _ (Literal (SUtf8 (Some p) | SLargeUtf8 (Some p))) esc ci =>
      negb ci && bool_decide (esc = None) && negb (existsb is_backslash (chars p)) && aligned (chars p)
  | _ => true
  end.

(** ** Tokens of a LIKE pattern *)

Lemma tokenize_like_eq cs cur out : tokenize_like_loop cs cur out = tokenize_loop cs cur out.
Proof.
  revert cur out. induction cs as [|c cs IH]; intros cur out; simpl; [done|].
  rewrite !IH. done.
Qed.

Lemma flush_empty out : flush EmptyString out = out.
Proof. done. Qed.

Lemma percent_not_alnum c : is_percent c = true -> is_ascii_alphanumeric c = false.
Proof. unfold is_percent. intros ->%N.eqb_eq. done. Qed.

Lemma wild_not_alnum c : is_wild c = true -> is_ascii_alphanumeric c = false.
Proof. unfold is_wild, is_percent, is_underscore. intros [->%N.eqb_eq| ->%N.eqb_eq]%orb_true_iff; done. Qed.

Lemma tokenize_loop_sep c cs out : is_ascii_alphanumeric c = false ->
  tokenize_loop (c :: cs) EmptyString out = tokenize_loop cs EmptyString out.
Proof. intros Hc. simpl. by rewrite Hc. Qed.

Lemma tokenize_loop_snoc cs c cur out : is_ascii_alphanumeric c = false ->
  tokenize_loop (cs ++ [c]) cur out = tokenize_loop cs cur out.
Proof.
  intros Hc. revert cur out. induction cs as [|d cs IH]; intros cur out; simpl.
  - rewrite Hc. case_decide as Hcur; [by subst|done].
  - by rewrite !IH.
Qed.

Lemma drop_percents_spec l : exists p, l = p ++ drop_percents l /\ Forall (fun c => is_percent c = true) p.
Proof.
  induction l as [|c l (p & Heq & Hp)]; simpl; [by exists []|].
  destruct (is_percent c) eqn:Hc; [|by exists []].
  exists (c :: p). split; [simpl; by f_equal|by constructor].
Qed.

(** Trimming percent signs does not change the tokens. *)
Lemma tokenize_trim l : tokenize_like (trim_percents l) = tokenize_loop l EmptyString ∅.
Proof.
  unfold tokenize_like, trim_percents. rewrite tokenize_like_eq.
  destruct (drop_percents_spec l) as (p & Hl & Hp).
  destruct (drop_percents_spec (reverse (drop_percents l))) as (q & Hq & Hqp).
  set (m := drop_percents l) in *.
  assert (tokenize_loop l EmptyString ∅ = tokenize_loop m EmptyString ∅) as ->.
  { rewrite Hl. clear - Hp. induction Hp as [|c p Hc Hp IH]; [done|].
    rewrite <-app_comm_cons, tokenize_loop_sep by (by apply percent_not_alnum). done. }
  assert (m = reverse (drop_percents (reverse m)) ++ reverse q) as Hm.
  { rewrite <-reverse_app, <-Hq. by rewrite reverse_involutive. }
  rewrite Hm at 2. generalize (reverse (drop_percents (reverse m))). clear - Hqp.
  induction Hqp as [|c q Hc Hq IH]; intros n; [by rewrite app_nil_r|].
  rewrite reverse_cons, app_assoc, tokenize_loop_snoc by (by apply percent_not_alnum). apply IH.
Qed.

(** Consuming one more character of the text only adds tokens. *)
Lemma tokenize_loop_step d s cur : exists cur', tokenize_loop s cur' ∅ ⊆ tokenize_loop (d :: s) cur ∅.
Proof.
  cbn [tokenize_loop]. destruct (is_ascii_alphanumeric d); [by eexists|]. case_decide; [by eexists|].
  exists EmptyString. rewrite (tokenize_loop_union s _ (flush cur ∅)). apply union_subseteq_l.
Qed.

(** A match of a percent sign skips to a match of the rest. *)
Lemma like_percent c p s cur : is_percent c = true -> like_match (c :: p) s = true ->
  exists s' cur', like_match p s' = true /\ tokenize_loop s' cur' ∅ ⊆ tokenize_loop s cur ∅.
Proof.
  intros Hc. cbn [like_match]. rewrite Hc. revert cur.
  induction s as [|d s IH]; intros cur Hm.
  - rewrite orb_false_r in Hm. by exists [], cur.
  - apply orb_true_iff in Hm as [Hm|Hm]; [by exists (d :: s), cur|].
    destruct (tokenize_loop_step d s cur) as [cur1 Hsub].
    destruct (IH cur1 Hm) as (s' & cur' & Hm' & Hsub'). exists s', cur'. split; [done|]. by etrans.
Qed.

(** The tokens of an aligned pattern are tokens of every text it matches.  The
    two tokenizers are in the same state, or the pattern's is empty and the
    previous pattern character was a wildcard. *)
Lemma like_tokens p s wild alnum curp curs :
  aligned_from wild alnum p = true -> like_match p s = true ->
  (alnum = false -> curp = EmptyString) ->
  (wild = false /\ curs = curp \/ wild = true /\ curp = EmptyString) ->
  tokenize_loop p curp ∅ ⊆ tokenize_loop s curs ∅.
Proof.
  revert s wild alnum curp curs. induction p as [|c p IH]; intros s wild alnum curp curs Hal Hm Hcur Hst.
  - destruct s; [|done]. simpl. destruct Hst as [[_ ->]|[_ ->]]; [done|].
    rewrite flush_empty. apply empty_subseteq.
  - cbn [aligned_from] in Hal. destruct (is_wild c) eqn:Hw.
    + apply andb_true_iff in Hal as [Ha%negb_true_iff Hal]. rewrite (Hcur Ha).
      rewrite tokenize_loop_sep by (by apply wild_not_alnum).
      destruct (is_percent c) eqn:Hp.
      * destruct (like_percent c p s curs Hp Hm) as (s' & cur' & Hm' & Hsub). etrans; [|exact Hsub].
        apply (IH s' true false); auto.
      * cbn [like_match] in Hm. unfold is_wild in Hw. rewrite Hp in *. simpl in Hw. rewrite Hw in Hm.
        destruct s as [|d s]; [done|]. destruct (tokenize_loop_step d s curs) as [cur' Hsub].
        etrans; [|exact Hsub]. apply (IH s true false); auto.
    + cbn [like_match] in Hm. unfold is_wild in Hw. apply orb_false_iff in Hw as [Hp Hu].
      rewrite Hp, Hu in Hm. destruct s as [|d s]; [done|].
      apply andb_true_iff in Hm as [<-%N.eqb_eq Hm]. cbn [tokenize_loop].
      destruct (is_ascii_alphanumeric c) eqn:Hc.
      * apply andb_true_iff in Hal as [->%negb_true_iff Hal].
        destruct Hst as [[_ ->]|[? _]]; [|done]. apply (IH s false true); auto. done.
      * assert (forall o, tokenize_loop p EmptyString o ⊆ tokenize_loop s EmptyString o) as Hsub.
        { intros o. rewrite (tokenize_loop_union p), (tokenize_loop_union s).
          apply union_mono_r. apply (IH s false false); auto. }
        destruct Hst as [[_ ->]|[_ ->]].
        -- case_decide as Hcp; [subst curp|]; apply Hsub.
        -- rewrite decide_True by done. case_decide as Hcs; [subst curs; apply Hsub|].
           etrans; [apply Hsub|].
           rewrite (tokenize_loop_union s _ (flush curs ∅)). apply union_subseteq_l.
Qed.

Lemma aligned_tokens p s : aligned p = true -> like_match p s = true ->
  tokenize_loop p EmptyString ∅ ⊆ tokenize_loop s EmptyString ∅.
Proof. intros Hal Hm. by apply (like_tokens p s false false); auto. Qed.

(** * A satisfied filter implies the predicates extracted from it

    For a row that satisfies a list of filters: the combined time range
    contains its timestamp, every catalog-level column predicate accepts the
    statistics of its extent, and the block-level predicate matches it. *)

(** A sub-second part that was negative does not survive the cast to [u32]. *)
Lemma cast_u32_neg x : -999999000 <= x < 0 -> 2 * 10 ^ 9 <= cast_u32 x.
Proof.
  intros Hx. unfold cast_u32. rewrite <-(Z_mod_plus_full x 1 (2 ^ 32)), Z.mod_small; lia.
Qed.

Lemma cast_u32_id x : 0 <= x < 2 ^ 32 -> cast_u32 x = x.
Proof. intros Hx. by apply Z.mod_small. Qed.

Section Row.
  Context `{Hchr : Chrono} `{Hlaws : !ChronoLaws} `{Heng : Engine}.
  Context (b : RecordBatch) (i : nat).

(** ** Timestamps of literals *)

(** A unit finer than a second, in the truncating arithmetic of the source. *)
Lemma from_timestamp_unit n per unit t :
  0 < per -> per * unit = 10 ^ 9 -> 0 < unit -> (per - 1) * unit <= 999999000 ->
  from_timestamp (Z.quot n per) (cast_u32 (Z.rem n per * unit)) = Some t -> t = n * unit.
Proof using Hlaws.
  intros Hper Hpu Hu Hle [Hn ->]%from_timestamp_inv.
  pose proof (Z.quot_rem n per ltac:(lia)) as Hqr.
  destruct (Z.le_gt_cases 0 n) as [Hpos|Hneg].
  - pose proof (Z.rem_bound_pos n per Hpos Hper) as Hr. rewrite cast_u32_id in * by nia. nia.
  - pose proof (Z.rem_bound_pos_neg n per ltac:(lia) ltac:(lia)) as Hr.
    destruct (decide (Z.rem n per = 0)) as [Hz|Hz].
    + rewrite Hz in *. simpl in *. rewrite cast_u32_id in * by lia. nia.
    + pose proof (cast_u32_neg (Z.rem n per * unit)). nia.
Qed.

(** The instant a scalar denotes when compared with a timestamp. *)
Definition denotes (v : option value) (t : DateTime) : Prop :=
  v = Some (VTimestamp t) \/ exists s, v = Some (VStr s) /\ parse_from_rfc3339 s = Some t.

Lemma ts_from_scalar_denotes s t : ts_from_scalar s = Some t -> denotes (scalar_value s) t.
Proof using Hlaws.
  unfold ts_from_scalar, denotes. destruct s as [[n|]|[n|]|[n|]|[n|]|[x|]|[x|]| | | | |]; simpl; try done.
  - intros [Hn ->]%from_timestamp_inv. left. do 2 f_equal.
    pose proof (Z.mod_pos_bound n 1000000000 ltac:(lia)). pose proof (Z.div_mod n 1000000000 ltac:(lia)).
    rewrite cast_u32_id by lia. lia.
  - intros Ht%(from_timestamp_unit n 1000000 1000); [|lia..]. left. by subst.
  - intros Ht%(from_timestamp_unit n 1000 1000000); [|lia..]. left. by subst.
  - intros [_ ->]%from_timestamp_inv. left. do 2 f_equal. lia.
  - intros Ht. right. by exists x.
  - intros Ht. right. by exists x.
Qed.

Lemma ts_from_expr_denotes e t : cast_ok e = true -> ts_from_expr e = Some t -> denotes (expr_value b i e) t.
Proof using Hlaws.
  destruct e as [|s|e ty| | | | | |]; try done; simpl; [intros _; apply ts_from_scalar_denotes|].
  destruct e as [|s| | | | | | |]; try done. simpl.
  destruct ty as [[] tz| | | | | | |]; try done. intros _ Ht.
  destruct (ts_from_scalar_denotes _ _ Ht) as [->|(x & -> & Hx)]; left; simpl; [done|].
  by rewrite Hx.
Qed.

(** A comparison with an instant, from either side. *)
Lemma holds_op_denotes op x lit t u : denotes lit u -> x = Some (VTimestamp t) ->
  holds_op op x lit = op_holds op (t ?= u).
Proof. intros [->|(s & -> & Hs)] ->; unfold holds_op; simpl; [done|]. by rewrite Hs. Qed.

Lemma holds_op_denotes_r op x lit t u : denotes lit u -> x = Some (VTimestamp t) ->
  holds_op op lit x = op_holds (flip_op op) (t ?= u).
Proof.
  intros [->|(s & -> & Hs)] ->; unfold holds_op; simpl; [|rewrite Hs; simpl];
    rewrite (Z.compare_antisym t u); destruct op, (t ?= u); done.
Qed.

(** The bound holds of an instant. *)
Definition bound_holds (tb : TimeBound) (t : Z) : Prop :=
  match tb with
  | GtOrGe u _ => u <= t
  | LtOrLe u incl => t < if incl then u + 1 else u
  | BetweenTs lo hi => lo <= t < hi + 1
  end.

Section TimeColumn.
  Context (ts_col : string) (Hts : forall v, cell b ts_col i = Some v -> exists t, v = VTimestamp t).

Lemma holds_op_cell op x y : holds_op op x y = true -> exists v w, x = Some v /\ y = Some w.
Proof. unfold holds_op. destruct x, y; simpl; eauto; done. Qed.

Lemma is_column_spec e c : is_column e c = true -> e = Column c.
Proof. destruct e; simpl; try done. by intros ->%bool_decide_eq_true. Qed.

Lemma extract_time_bound_holds f tb : time_casts_ok f = true -> sat b i f = true ->
  extract_time_bound f ts_col = Some tb ->
  exists t, cell b ts_col i = Some (VTimestamp t) /\ bound_holds tb t.
Proof using Hts Hlaws.
  intros Hcast Hsat. destruct f as [| | |l op r|x neg lo hi| | | |]; try done; simpl in Hcast.
  - apply andb_true_iff in Hcast as [Hcl Hcr]. cbn [extract_time_bound].
    destruct (is_column l ts_col) eqn:Hl.
    + apply is_column_spec in Hl as ->. simpl. destruct (ts_from_expr r) as [u|] eqn:Hr; [|done].
      apply ts_from_expr_denotes in Hr; [|done]. simpl in Hsat.
      destruct op; try done; simpl; intros [= <-];
        destruct (holds_op_cell _ _ _ Hsat) as (v & w & Hv & _); destruct (Hts v Hv) as [t ->];
        exists t; (split; [done|]);
        rewrite (holds_op_denotes _ _ _ t u Hr Hv) in Hsat;
        destruct (Z.compare_spec t u); simplify_eq/=; try done; lia.
    + destruct (is_column r ts_col) eqn:Hrc; [|done]. apply is_column_spec in Hrc as ->. simpl.
      destruct (ts_from_expr l) as [u|] eqn:Hlu; [|done]. apply ts_from_expr_denotes in Hlu; [|done].
      simpl in Hsat.
      destruct op; try done; simpl; intros [= <-];
        destruct (holds_op_cell _ _ _ Hsat) as (w & v & _ & Hv); destruct (Hts v Hv) as [t ->];
        exists t; (split; [done|]);
        rewrite (holds_op_denotes_r _ _ _ t u Hlu Hv) in Hsat;
        destruct (Z.compare_spec t u); simplify_eq/=; try done; lia.
  - destruct neg; [done|]. apply andb_true_iff in Hcast as [Hcl Hch]. simpl.
    destruct (is_column x ts_col) eqn:Hx; [|done]. apply is_column_spec in Hx as ->.
    destruct (ts_from_expr lo) as [a|] eqn:Ha; [|done]. destruct (ts_from_expr hi) as [c|] eqn:Hc; [|done].
    simpl. intros [= <-]. apply ts_from_expr_denotes in Ha; [|done]. apply ts_from_expr_denotes in Hc; [|done].
    simpl in Hsat. apply andb_true_iff in Hsat as [H1 H2].
    destruct (holds_op_cell _ _ _ H1) as (v & w & Hv & _). destruct (Hts v Hv) as [t ->].
    exists t. split; [done|]. rewrite (holds_op_denotes _ _ _ t a Ha Hv) in H1.
    rewrite (holds_op_denotes _ _ _ t c Hc Hv) in H2. simpl.
    destruct (Z.compare_spec t a), (Z.compare_spec t c); simplify_eq/=; try done; lia.
Qed.

(** The bounds gathered from the filters hold of the timestamp of the row. *)
Definition lohi_holds (lohi : option Z * option Z) : Prop :=
  (forall l, lohi.1 = Some l -> exists t, cell b ts_col i = Some (VTimestamp t) /\ l <= t) /\
  (forall h, lohi.2 = Some h -> exists t, cell b ts_col i = Some (VTimestamp t) /\ t < h).

Lemma bound_step_holds lohi f : time_casts_ok f = true -> sat b i f = true ->
  lohi_holds lohi -> lohi_holds (bound_step ts_col lohi f).
Proof using Hts Hlaws.
  destruct lohi as [lo hi]. intros Hc Hs [Hlo Hhi]. simpl in *.
  unfold bound_step. destruct (extract_time_bound f ts_col) as [tb|] eqn:Htb; [|done].
  destruct (extract_time_bound_holds f tb Hc Hs Htb) as (t & Ht & Hb).
  assert (forall u l, u <= t -> omax lo u = Some l -> exists t, cell b ts_col i = Some (VTimestamp t) /\ l <= t) as Hmax.
  { intros u l Hu [= <-]. exists t. split; [done|]. destruct lo as [l0|]; [|done].
    destruct (Hlo l0 eq_refl) as (t' & Ht' & Hl). rewrite Ht in Ht'. injection Ht' as <-. lia. }
  assert (forall u h, t < u -> omin hi u = Some h -> exists t, cell b ts_col i = Some (VTimestamp t) /\ t < h) as Hmin.
  { intros u h Hu [= <-]. exists t. split; [done|]. destruct hi as [h0|]; [|done].
    destruct (Hhi h0 eq_refl) as (t' & Ht' & Hl). rewrite Ht in Ht'. injection Ht' as <-. lia. }
  destruct tb; simpl in Hb; split; simpl; eauto; intros l Hl; first [eapply Hmax|eapply Hmin]; try exact Hl; lia.
Qed.

Lemma bounds_hold filters : Forall (fun f => time_casts_ok f = true /\ sat b i f = true) filters ->
  lohi_holds (foldl (bound_step ts_col) (None, None) filters).
Proof using Hts Hlaws.
  intros Hf. assert (lohi_holds (None, None)) as H0 by done. revert H0. generalize (@None Z, @None Z).
  induction Hf as [|f fs [Hc Hs] Hf IH]; intros st Hst; simpl; [done|].
  apply IH. by apply bound_step_holds.
Qed.

(** The combined range contains the timestamp of a row after the epoch. *)
Lemma combine_bounds_hold lohi tr :
  (forall t, cell b ts_col i = Some (VTimestamp t) -> 0 <= t <= i64_MAX) ->
  lohi_holds lohi -> combine_bounds lohi = Some tr ->
  exists t, cell b ts_col i = Some (VTimestamp t) /\ tr_start_inclusive tr <= t < tr_end_exclusive tr.
Proof using.
  intros Hpos [Hlo Hhi]. destruct lohi as [[lo|] [hi|]]; simpl in *; [case_match; [|done]| | |done];
    intros [= <-]; simpl.
  - destruct (Hlo lo eq_refl) as (t & Ht & Hl), (Hhi hi eq_refl) as (t' & Ht' & Hh).
    rewrite Ht in Ht'. injection Ht' as <-. eauto.
  - destruct (Hlo lo eq_refl) as (t & Ht & Hl). exists t. split; [done|].
    pose proof (Hpos t Ht). unfold FAR_END, i64_MAX in *. lia.
  - destruct (Hhi hi eq_refl) as (t & Ht & Hh). exists t. split; [done|]. pose proof (Hpos t Ht).
    unfold FAR_START. lia.
Qed.
End TimeColumn.

(** ** Column predicates *)

Section Columns.
  Context (s : Schema) (Hsch : b_schema b = s) (Hok : batch_ok b) (Hnd : NoDup (f_name <$> s)).

Lemma elem_of_cols_where P c : c ∈ cols_where P s -> exists k f, s !! k = Some f /\ f_name f = c /\ P (f_type f) = true.
Proof.
  unfold cols_where. rewrite elem_of_list_to_set, list_elem_of_fmap.
  intros (f & -> & [HP Hf]%list_elem_of_filter). apply list_elem_of_lookup in Hf as [k Hk]. eauto.
Qed.

(** The cells of a column of the schema, by its type. *)
Lemma cell_typed k f v : s !! k = Some f -> cell b (f_name f) i = Some v ->
  exists a, b_columns b !! k = Some a /\ array_type a = f_type f /\ plain_array a /\ array_cell a i = Some v.
Proof using Hsch Hok Hnd.
  intros Hk Hcell. unfold cell in Hcell. rewrite Hsch, (column_index_lookup _ _ _ Hnd Hk) in Hcell.
  simpl in Hcell. destruct (b_columns b !! k) as [a|] eqn:Ha; [|done]. simpl in Hcell.
  destruct Hok as [Hty Hpl]. rewrite Hsch in Hty.
  exists a. split_and!; [done| | |done].
  - by apply (Forall2_lookup_lr _ _ _ _ _ _ Hty Hk Ha).
  - by apply (proj1 (Forall_lookup _ _) Hpl _ _ Ha).
Qed.

Lemma cell_indexable c v : c ∈ cols_where is_indexable_type s -> cell b c i = Some v ->
  (exists x, v = VStr x) \/ (exists z, v = VInt z /\ is_i64 z).
Proof using Hsch Hok Hnd.
  intros (k & f & Hk & <- & Hty)%elem_of_cols_where Hcell.
  destruct (cell_typed k f v Hk Hcell) as (a & _ & Hat & Hpl & Hv). rewrite <-Hat in Hty.
  destruct a; try done; simpl in *; try (destruct ty; done).
  all: apply elem_of_cell in Hv as (x & Hx & ->); first [by eauto|right; exists x; split; [done|]].
  - pose proof (proj1 (Forall_forall _ _) Hpl _ Hx x eq_refl). unfold is_i64, i64_MIN, i64_MAX. lia.
  - exact (proj1 (Forall_forall _ _) Hpl _ Hx x eq_refl).
Qed.

(** What a column predicate says of the row. *)
Definition column_holds (cp : string * ColumnPrune) : Prop :=
  match cp.2 with
  | PEquals j => exists v, cell b cp.1 i = Some v /\ value_json v = Some j /\ (forall z, v = VInt z -> is_i64 z)
  | PInSet js => exists v j, cell b cp.1 i = Some v /\ j ∈ js /\ value_json v = Some j /\ (forall z, v = VInt z -> is_i64 z)
  | PContainsTokens ts => exists x, cell b cp.1 i = Some (VStr x) /\ forall t, t ∈ ts -> t ∈ tokens_of x
  | PBetween _ _ | PVectorDistance _ _ => False
  end.

(** A cell equals the literal it is compared with, in JSON form. *)
Definition cell_is (c : string) (j : Json) : Prop :=
  exists v, cell b c i = Some v /\ value_json v = Some j /\ (forall z, v = VInt z -> is_i64 z).

Lemma holds_eq_json c lit j : c ∈ cols_where is_indexable_type s -> scalar_to_json lit = Some j ->
  holds_op OEq (cell b c i) (scalar_value lit) = true \/ holds_op OEq (scalar_value lit) (cell b c i) = true ->
  cell_is c j.
Proof using Hsch Hok Hnd.
  intros Hc Hj Heq. assert (exists v, cell b c i = Some v) as [v Hv].
  { destruct Heq as [H|H]; destruct (holds_op_cell _ _ _ H) as (? & ? & ? & ?); eauto. }
  rewrite Hv in Heq. exists v. split; [done|].
  destruct (cell_indexable c v Hc Hv) as [[x ->]|(z & -> & Hz)];
    destruct lit as [[]|[]|[]|[]|[]|[]|[]|[]|[]|[]|]; simplify_eq/=; unfold holds_op in Heq; simpl in Heq;
    try (destruct Heq; done).
  all: (split; [|naive_solver]).
  all: try (destruct Heq as [Heq|Heq]; (destruct (str_compare _ _) eqn:E in Heq; [|done..]);
       by apply String.compare_eq_iff in E as ->).
  all: destruct Heq as [Heq|Heq]; (destruct (_ ?= _) eqn:E in Heq; [|done..]);
       by apply Z.compare_eq_iff in E as ->.
Qed.

Lemma eq_operands_sat l r c lit j : eq_operands l r (cols_where is_indexable_type s) = Some (c, lit) ->
  scalar_to_json lit = Some j -> holds_op OEq (expr_value b i l) (expr_value b i r) = true -> cell_is c j.
Proof using Hsch Hok Hnd.
  intros He Hj Hs. destruct l, r; simpl in He; try done; case_decide; [|done| |done]; injection He as -> ->.
  - apply (holds_eq_json c lit); auto.
  - apply (holds_eq_json c lit); auto.
Qed.

(** *** The OR walk *)

Lemma walk_mono e idx st st' : walk e idx st = Some st' ->
  (forall c, st.1 = Some c -> st'.1 = Some c) /\ (forall j, j ∈ st.2 -> j ∈ st'.2).
Proof.
  revert st st'. induction e as [| | |l IHl op r IHr| | | | |]; intros st st'; cbn [walk]; try done.
  destruct (decide (op = OOr)).
  - intros (st1 & [H1 H2]%IHl & [H3 H4]%IHr)%bind_Some. split; eauto.
  - destruct (decide (op = OEq)) as [->|]; [|done]. intros ([nm lit] & _ & H)%bind_Some.
    apply bind_Some in H as (st1 & Hst1 & (j & _ & [= <-])%bind_Some). simpl.
    destruct (st.1) as [c0|] eqn:E.
    + case_decide; [|done]. injection Hst1 as <-. rewrite E.
      split; [done|]. intros j' Hj. apply elem_of_app. by left.
    + injection Hst1 as <-. split; [done|]. intros j' Hj. apply elem_of_app. by left.
Qed.

Lemma walk_sat e st st' : sat b i e = true -> walk e (cols_where is_indexable_type s) st = Some st' ->
  exists c j, st'.1 = Some c /\ j ∈ st'.2 /\ cell_is c j.
Proof using Hsch Hok Hnd.
  revert st st'. induction e as [| | |l IHl op r IHr| | | | |]; intros st st' Hsat; cbn [walk]; try done.
  destruct (decide (op = OOr)) as [->|].
  - intros (st1 & H1 & H2)%bind_Some. simpl in Hsat. apply orb_true_iff in Hsat as [Hl|Hr].
    + destruct (IHl _ _ Hl H1) as (c & j & Hc & Hj & Heq). destruct (walk_mono _ _ _ _ H2) as [Hm1 Hm2].
      exists c, j. eauto.
    + by apply (IHr st1).
  - destruct (decide (op = OEq)) as [->|]; [|done]. intros ([nm lit] & Heo & H)%bind_Some.
    apply bind_Some in H as (st1 & Hst1 & (j & Hj & [= <-])%bind_Some). simpl in *.
    exists nm, j. split_and!; [|apply elem_of_app; right; by left|by eapply eq_operands_sat].
    destruct (st.1) as [c0|] eqn:E; [|by injection Hst1 as <-].
    case_decide as Hc; [|done]. injection Hst1 as <-. by rewrite E, Hc.
Qed.

Lemma existsb_literal_json x l vals c : c ∈ cols_where is_indexable_type s -> x = cell b c i ->
  mapM literal_json l = Some vals -> existsb (fun y => holds_op OEq x (expr_value b i y)) l = true ->
  exists j, j ∈ vals /\ cell_is c j.
Proof using Hsch Hok Hnd.
  intros Hc Hx Hvals%mapM_Some. induction Hvals as [|e j l vals He Hvals IH]; simpl; [done|].
  intros [Heq|Hrest]%orb_true_iff.
  - exists j. split; [left|]. destruct e; try done. simpl in *. rewrite Hx in Heq.
    by eapply holds_eq_json; [..|left].
  - destruct (IH Hrest) as (j' & Hj' & ?). exists j'. split; [by right|done].
Qed.

Lemma extract_equality_holds f cp : sat b i f = true ->
  extract_equality f (cols_where is_indexable_type s) = Some cp -> column_holds cp.
Proof using Hsch Hok Hnd.
  intros Hsat. destruct f as [| | |l op r| |x l neg| | |]; try done; cbn [extract_equality].
  - destruct (decide (op = OEq)) as [->|].
    + intros ([c lit] & Heo & (j & Hj & [= <-])%bind_Some)%bind_Some. simpl in Hsat.
      exact (eq_operands_sat _ _ _ _ _ Heo Hj Hsat).
    + destruct (decide (op = OOr)) as [->|Hn0]; [|done].
      intros (st1 & H1 & (st2 & H2 & (nm & Hn & [= <-])%bind_Some)%bind_Some)%bind_Some.
      assert (exists c j, st2.1 = Some c /\ j ∈ st2.2 /\ cell_is c j) as (c & j & Hc & Hj & v & Hv & Hvj & Hz).
      { apply (walk_sat (BinaryExpr l OOr r) (None, [])); [done|]. cbn [walk]. rewrite decide_True by done.
        by rewrite H1. }
      rewrite Hn in Hc. injection Hc as ->. exists v, j. done.
  - destruct neg; [done|]. destruct x; try done. case_decide as Hc; [|done].
    intros (vals & Hvals & [= <-])%bind_Some. cbn [sat] in Hsat.
    destruct (existsb_literal_json _ _ _ _ Hc eq_refl Hvals Hsat) as (j & Hj & v & Hv & Hvj & Hz).
    by exists v, j.
Qed.

(** *** Text search *)

Lemma extract_text_search_holds f cp : like_ok f = true -> sat b i f = true ->
  extract_text_search f (cols_where is_string_type s) = Some cp -> column_holds cp.
Proof using Hsch Hok Hnd.
  intros Hlike Hsat. destruct f as [| | | | | |neg x pat esc ci| |]; try done. cbn [extract_text_search].
  destruct neg; [done|]. destruct x as [c| | | | | | | |]; try done. case_decide as Hc; [|done].
  assert (forall raw, pat = Literal (SUtf8 (Some raw)) \/ pat = Literal (SLargeUtf8 (Some raw)) ->
    exists x, cell b c i = Some (VStr x) /\ tokenize_like (trim_percents (chars raw)) ⊆ tokens_of x) as Hkey.
  { intros raw Hpat.
    assert (negb ci && bool_decide (esc = None) && negb (existsb is_backslash (chars raw)) && aligned (chars raw) = true)
      as ([[Hci%negb_true_iff Hesc%bool_decide_eq_true]%andb_true_iff Hbs%negb_true_iff]%andb_true_iff & Hal)%andb_true_iff
      by (destruct Hpat as [->| ->]; exact Hlike).
    subst ci esc.
    assert (exists v, cell b c i = Some v /\ forall x, v = VStr x -> like_match (chars raw) (chars x) = true)
      as (v & Hv & Hm).
    { destruct Hpat as [->| ->]; cbn [sat expr_value scalar_value fmap option_fmap option_map] in Hsat;
        (destruct (cell b c i) as [v|]; [|done]); exists v; (split; [done|]); intros x ->;
        by rewrite Hbs in Hsat. }
    destruct (cell_indexable c v) as [[x ->]|(z & -> & _)]; [|done| |].
    - apply elem_of_cols_where in Hc as (k & f & Hk & <- & Hty).
      unfold cols_where. apply elem_of_list_to_set, list_elem_of_fmap. exists f. split; [done|].
      apply list_elem_of_filter. split; [by destruct (f_type f)|by eapply list_elem_of_lookup_2].
    - exists x. split; [done|]. rewrite tokenize_trim. apply aligned_tokens; auto.
    - apply elem_of_cols_where in Hc as (k & f & Hk & <- & Hty).
      destruct (cell_typed k f _ Hk Hv) as (a & _ & Hat & Hpl & Hcell). rewrite <-Hat in Hty.
      destruct a; try done; simpl in *; try (destruct ty; done);
        apply elem_of_cell in Hcell as (? & _ & [=]). }
  destruct pat as [|lit| | | | | | |]; try done.
  destruct lit as [| | | |[raw|]|[raw|]| | | | |]; try done; (case_decide as Hne; [done|]);
    intros [= <-]; destruct (Hkey raw) as (x & Hx & Hsub); auto; exists x; (split; [done|]);
    intros t Ht%elem_of_sort_strings; by apply Hsub.
Qed.

Lemma extract_column_holds f cp : like_ok f = true -> sat b i f = true ->
  extract_vector_distance f (float_vector_cols s) = None ->
  extract_column s f = Some cp -> column_holds cp.
Proof using Hsch Hok Hnd.
  intros Hlike Hsat Hvec. unfold extract_column. rewrite Hvec.
  destruct (extract_equality f _) as [cp'|] eqn:He.
  - intros [= <-]. by apply (extract_equality_holds f).
  - destruct (extract_text_search f _) as [cp'|] eqn:Ht; [|done].
    intros [= <-]. by apply (extract_text_search_holds f).
Qed.

(** Every gathered column predicate holds of the row. *)
Lemma column_predicates_hold filters :
  Forall (fun f => like_ok f = true /\ sat b i f = true /\ extract_vector_distance f (float_vector_cols s) = None) filters ->
  forall c pred, foldl (column_step s) ∅ filters !! c = Some pred -> column_holds (c, pred).
Proof using Hsch Hok Hnd.
  intros Hf. assert (forall c pred, (∅ : gmap string ColumnPrune) !! c = Some pred -> column_holds (c, pred)) as H0 by done.
  revert H0. generalize (∅ : gmap string ColumnPrune).
  induction Hf as [|f fs (Hl & Hs & Hv) Hf IH]; intros m Hm; [done|]. cbn [foldl]. apply IH.
  unfold column_step. destruct (extract_column s f) as [cp|] eqn:E; [|done].
  pose proof (extract_column_holds _ _ Hl Hs Hv E) as Hcp. unfold or_insert.
  destruct (m !! cp.1) eqn:Em; [done|]. intros c pred.
  rewrite lookup_insert. case_decide as Hc; [intros [= <-]; destruct cp; simpl in *; by subst|apply Hm].
Qed.
End Columns.
End Row.
