(* ===== verification/TlmExtent.v ===== *)
(** * The extent format over an object store

    ** The object store interface

    What the storage engine uses of an [object_store::ObjectStore]: a put and a
    get by path, on an explicit state.  [ObjectStoreLaws] is the contract, in
    terms of an abstract view of the contents: a get returns the bytes of the
    view and a successful put changes the view at one path.  The extent format
    is verified against this interface; the caching wrapper of
    [pensieve-storage] implements it. *)

From stdpp Require Import base gmap strings list.
From Stdlib Require Import NArith ZArith Lia Ascii.
From S2P Require Import Prelude Bytes Arrow BlockStats ColumnStats Pushdown CatalogPrune.

Class ObjectStore (St : Type) := {
  os_put : string -> bytes -> St -> option St;   (** [None]: the put failed *)
  os_get : string -> St -> option bytes * St }.  (** [None]: not found, or the get failed *)

Class ObjectStoreLaws (St : Type) `{ObjectStore St} := {
  os_inv : St -> Prop;
  os_view : St -> string -> option bytes;
  os_put_view st st' path body :
    os_inv st -> os_put path body st = Some st' ->
    os_inv st' /\ forall p, os_view st' p = if decide (p = path) then Some body else os_view st p;
  os_get_view st path :
    os_inv st -> (os_get path st).1 = os_view st path /\ os_inv (os_get path st).2 /\
      forall p, os_view (os_get path st).2 p = os_view st p }.

(** An in-memory map is an object store. *)
#[export] Instance memory_store : ObjectStore (gmap string bytes) := {
  os_put path body st := Some (<[path := body]> st);
  os_get path st := (st !! path, st) }.

#[export, refine] Instance memory_store_laws : ObjectStoreLaws (gmap string bytes) := {
  os_inv _ := True;
  os_view st p := st !! p }.
Proof.
  - intros st st' path body _ [= <-]. split; [done|]. intros p. rewrite lookup_insert.
    repeat case_decide; simplify_eq; done.
  - done.
Defined.

(** * The telemetry extent format ([pensieve-format-tlm])

    The writer that buffers batches and seals them in a v2 frame
    ([writer.rs]), the reader that parses v1 and v2 frames ([reader.rs]), on
    any object store.  Arrow's IPC file format and serde's JSON are
    parameters. *)

(** [PNSV\x01] and [PNSV\x02] *)
Definition MAGIC : bytes := as_bytes "PNSV" ++ [ascii_of_N 1].
Definition MAGIC_V2 : bytes := as_bytes "PNSV" ++ [ascii_of_N 2].

(** Third-party serialization: the IPC file of a schema and its batches, and
    the JSON text of the block statistics. *)
Class Codec := {
  ipc_accepts : RecordBatch -> bool;                  (** [FileWriter::write] succeeds *)
  ipc_file : Schema -> list RecordBatch -> option bytes;   (** [finish] and [into_inner] *)
  ipc_read : bytes -> option (list RecordBatch);      (** [FileReader], every batch decoded *)
  stats_to_json : list BlockStats -> option bytes;
  stats_from_json : bytes -> option (list BlockStats) }.

Record TelemetryFormat := { path_prefix : string; tenant_segment : string }.

Record TelemetryExtentWriter := {
  w_format : TelemetryFormat;
  w_extent_id : N;
  w_schema : Schema;
  w_ipc : list RecordBatch;         (** the batches written to the IPC file *)
  w_row_count : N;
  w_block_count : nat;
  w_stats : ColumnStatsAccumulator;
  w_block_stats : list BlockStats }.

Definition start_extent (format : TelemetryFormat) (extent_id : N) (schema : Schema) : TelemetryExtentWriter :=
  {| w_format := format; w_extent_id := extent_id; w_schema := schema; w_ipc := []; w_row_count := 0;
     w_block_count := 0; w_stats := ColumnStats.new schema; w_block_stats := [] |}.

(** [format!("{extent_id}")] of the hyphenated UUID. *)
Definition extent_path_core (tenant_segment id : string) : string :=
  if decide (tenant_segment = "") then "extents/" +:+ id +:+ ".pnsv"
  else tenant_segment +:+ "/extents/" +:+ id +:+ ".pnsv".

Definition format_extent_path (prefix tenant_segment id : string) : string :=
  let core := extent_path_core tenant_segment id in
  if decide (prefix = "") then core else prefix +:+ "/" +:+ core.

Section WithCodec.
  Context `{Codec}.

Definition append (batch : RecordBatch) (w : TelemetryExtentWriter) : outcome FormatError TelemetryExtentWriter :=
  if decide (b_schema batch <> w_schema w) then Fail (TypeMismatch (w_schema w) (b_schema batch))
  else
    stats ← lift (ColumnStats.update batch (w_stats w));
    bs ← lift (stats_for_batch batch);
    if ipc_accepts batch then
      Ret {| w_format := w_format w; w_extent_id := w_extent_id w; w_schema := w_schema w;
             w_ipc := w_ipc w ++ [batch];
             w_row_count := w_row_count w + N.of_nat (b_num_rows batch);
             w_block_count := w_block_count w + 1;
             w_stats := stats;
             w_block_stats := w_block_stats w ++ [bs] |}
    else Fail (Corrupt "<in-memory ipc>" "FileWriter::write").

(** MAGIC_V2 || ipc_bytes || block_stats_json || stats_len u32 LE || MAGIC_V2 *)
Definition frame (ipc_bytes stats_json : bytes) : bytes :=
  MAGIC_V2 ++ ipc_bytes ++ stats_json ++ le_bytes 4 (N.of_nat (length stats_json)) ++ MAGIC_V2.

(** [uuid] prints an extent id. *)
Definition seal (uuid : N -> string) (w : TelemetryExtentWriter) :
    outcome FormatError (string * bytes * ExtentWriteResult) :=
  column_stats ← lift (ColumnStats.finish (w_stats w));
  ipc_bytes ← or_fail (Corrupt "<in-memory ipc>" "FileWriter::finish") (ipc_file (w_schema w) (w_ipc w));
  stats_json ← or_fail (Corrupt "<in-memory ipc>" "block-stats serialize") (stats_to_json (w_block_stats w));
  let payload := frame ipc_bytes stats_json in
  let object_path := format_extent_path (path_prefix (w_format w)) (tenant_segment (w_format w)) (uuid (w_extent_id w)) in
  Ret (object_path, payload,
       {| wr_extent_id := w_extent_id w; wr_object_path := object_path;
          wr_byte_size := N.of_nat (length payload); wr_row_count := w_row_count w;
          wr_block_count := w_block_count w;
          wr_min_timestamp_nanos := min_ts_nanos (w_stats w);
          wr_max_timestamp_nanos := max_ts_nanos (w_stats w);
          wr_present_paths := []; wr_column_stats := column_stats |}).

(** ** The frame on the way back *)

Definition parse_frame (path : string) (data : bytes) :
    outcome FormatError (bytes * option (list BlockStats) * N) :=
  if decide (length data < length MAGIC) then Fail InvalidMagic
  else
    let head := take (length MAGIC) data in
    if decide (head = MAGIC_V2) then
      if decide (length data < length MAGIC_V2 + 4 + length MAGIC_V2) then
        Fail (Corrupt path "v2 extent too short for footer")
      else
        let end_ := length data in
        let tail_magic := drop (end_ - length MAGIC_V2) data in
        if decide (tail_magic <> MAGIC_V2) then Fail (Corrupt path "v2 trailing magic mismatch")
        else
          let stats_len_off := end_ - length MAGIC_V2 - 4 in
          let stats_len := le_value (take 4 (drop stats_len_off data)) in
          if decide (N.of_nat stats_len_off < stats_len)%N then Fail (Corrupt path "stats_len underflow")
          else
            let stats_off := stats_len_off - N.to_nat stats_len in
            let stats_bytes := take (N.to_nat stats_len) (drop stats_off data) in
            stats ← or_fail (Corrupt path "block-stats decode") (stats_from_json stats_bytes);
            (** [bytes.slice(a..b)] panics when [a > b] *)
            if decide (stats_off < length MAGIC_V2) then Panic
            else
              let ipc_body := take (stats_off - length MAGIC_V2) (drop (length MAGIC_V2) data) in
              Ret (ipc_body, Some stats, 2%N)
    else if decide (head = MAGIC) then Ret (drop (length MAGIC) data, None, 1%N)
    else Fail InvalidMagic.

Definition row_total (batches : list RecordBatch) : N :=
  foldl (fun n b => n + N.of_nat (b_num_rows b))%N 0%N batches.

Definition open_bytes (schema : Schema) (path : string) (byte_size : N) (data : bytes) :
    outcome FormatError TelemetryExtentReader :=
  '(ipc_body, stats, format_version) ← parse_frame path data;
  batches ← or_fail (Corrupt path "FileReader") (ipc_read ipc_body);
  Ret {| metadata := {| em_row_count := row_total batches; em_block_count := as_u32 (length batches);
                        em_byte_size := byte_size; em_schema := schema; em_format_version := format_version |};
         batches := batches; object_path := path; block_stats := stats |}.

(** ** Over an object store *)
Context {St} `{ObjectStore St}.

Definition finish_extent (uuid : N -> string) (w : TelemetryExtentWriter) (st : St) :
    outcome FormatError (ExtentWriteResult * St) :=
  '(path, payload, result) ← seal uuid w;
  st ← or_fail ObjectStoreError (os_put path payload st);
  Ret (result, st).

Definition open_extent (schema : Schema) (path : string) (byte_size : N) (st : St) :
    outcome FormatError TelemetryExtentReader * St :=
  let '(got, st) := os_get path st in
  (data ← or_fail ObjectStoreError got; open_bytes schema path byte_size data, st).
End WithCodec.

(** * What a written extent is, and what opening it returns

    The state of a writer after a list of appends, the frame round trip, and
    the round trip of an extent through an object store. *)

(** ** Timestamps stay within [i64] *)

Definition bounds_i64 (a : ColumnStatsAccumulator) : Prop :=
  (forall m, min_ts_nanos a = Some m -> is_i64 m) /\ (forall m, max_ts_nanos a = Some m -> is_i64 m).

Lemma ts_fold_i64 arr mm : Forall (fun o => forall z, o = Some z -> is_i64 z) arr ->
  (forall m, mm.1 = Some m -> is_i64 m) -> (forall m, mm.2 = Some m -> is_i64 m) ->
  let r := foldl ts_bound_step mm arr in
  (forall m, r.1 = Some m -> is_i64 m) /\ (forall m, r.2 = Some m -> is_i64 m).
Proof.
  intros Harr. revert mm. induction Harr as [|o arr Ho Harr IH]; intros mm H1 H2; cbn [foldl]; [done|].
  apply IH; destruct o as [v|]; simpl; auto; intros m [= <-]; pose proof (Ho v eq_refl) as Hv.
  - destruct (mm.1) as [m1|]; [|done]. pose proof (H1 m1 eq_refl). unfold is_i64 in *. lia.
  - destruct (mm.2) as [m1|]; [|done]. pose proof (H2 m1 eq_refl). unfold is_i64 in *. lia.
Qed.

Lemma update_bounds_i64 b a a' : batch_ok b -> update b a = Ret a' -> bounds_i64 a -> bounds_i64 a'.
Proof.
  intros [_ Hpl]. unfold update, update_distinct_sets, update_vector_stats.
  intros (a1 & H1 & (a2 & (cs & _ & [= <-])%bind_Ret & (vs & _ & [= <-])%bind_Ret)%bind_Ret)%bind_Ret [Hmn Hmx].
  unfold bounds_i64. simpl. unfold update_ts_bounds in H1.
  destruct (ts_col_index a) as [idx|]; [|by injection H1 as <-].
  apply bind_Ret in H1 as (col & Hcol & H1).
  destruct (b_columns b !! idx) as [a0|] eqn:Ha; [|done]. injection Hcol as <-.
  pose proof (proj1 (Forall_lookup _ _) Hpl _ _ Ha) as [_ Hp].
  destruct a0 as [[] tz arr| | | | | |]; injection H1 as <-; try done. simpl.
  by apply ts_fold_i64.
Qed.

Section WithCodec.
  Context `{Codec}.

Lemma row_total_app bs bs' : row_total (bs ++ bs') = (row_total bs + row_total bs')%N.
Proof.
  unfold row_total. rewrite foldl_app. generalize (foldl (fun n b => n + N.of_nat (b_num_rows b))%N 0%N bs). intros n.
  enough (forall m, foldl (fun n b => n + N.of_nat (b_num_rows b))%N (n + m)%N bs' =
    (n + foldl (fun n b => n + N.of_nat (b_num_rows b))%N m bs')%N) as He by (by rewrite <-He, N.add_0_r).
  induction bs' as [|b bs' IH]; intros m; simpl; [done|]. by rewrite <-N.add_assoc, IH.
Qed.

(** ** The writer after some appends *)

Record written (s : Schema) (bs : list RecordBatch) (w : TelemetryExtentWriter) : Prop := {
  wn_schema : w_schema w = s;
  wn_ipc : w_ipc w = bs;
  wn_batches : Forall (fun b => b_schema b = s) bs;
  wn_stats : Forall2 (fun b st => stats_for_batch b = Ret st) bs (w_block_stats w);
  wn_rows : w_row_count w = row_total bs;
  wn_blocks : w_block_count w = length bs;
  wn_covers : acc_covers bs (w_stats w);
  wn_wf : acc_wf (w_stats w);
  wn_acc : schema (w_stats w) = s /\ ts_col_index (w_stats w) = position is_ts_nanos s;
  wn_i64 : bounds_i64 (w_stats w) }.

Lemma start_written format id s : written s [] (start_extent format id s).
Proof. split; simpl; try done; first [apply new_covers|apply new_wf|by constructor]. Qed.

Lemma or_fail_Some {E A} (e : E) (o : option A) a : or_fail e o = Ret a -> o = Some a.
Proof. destruct o; [by intros [= ->]|done]. Qed.

Lemma append_written s bs b w w' : batch_ok b -> written s bs w -> append b w = Ret w' -> written s (bs ++ [b]) w'.
Proof.
  intros Hok [? ? Hb Hst Hrows Hblk Hcov Hwf [Hs Hi] H64]. unfold append.
  case_decide as Hsch; [done|].
  intros (a & Ha%lift_Ret & (st & Hbst%lift_Ret & Hw)%bind_Ret)%bind_Ret.
  destruct (ipc_accepts b); [|done]. injection Hw as <-.
  destruct (update_covers _ _ _ bs Hok Ha Hcov) as (Hcov' & Hs' & Hi').
  split; simpl; first [congruence|done|idtac].
  - apply Forall_app. split; [done|]. constructor; [congruence|done].
  - apply Forall2_app; [done|]. by constructor.
  - rewrite Hrows. unfold row_total. by rewrite foldl_app.
  - rewrite Hblk, length_app. done.
  - by eapply update_wf.
  - split; congruence.
  - by eapply update_bounds_i64.
Qed.

Lemma appends_written format id s bs w : Forall batch_ok bs ->
  for_each append bs (start_extent format id s) = Ret w -> written s bs w.
Proof.
  intros Hok Hw. rewrite <-(app_nil_l bs). generalize (start_written format id s).
  revert Hw. generalize (start_extent format id s), (@nil RecordBatch).
  induction Hok as [|b bs Hb Hok IH]; intros w0 pre; simpl.
  - intros [= <-]. by rewrite app_nil_r.
  - intros (w1 & H1 & Hrest)%bind_Ret Hw0. rewrite cons_middle, app_assoc.
    apply (IH w1); [done|]. by apply (append_written _ _ _ w0).
Qed.

(** ** The frame *)

Lemma drop_app_exact {A} (l k : list A) n : n = length l -> drop n (l ++ k) = k.
Proof. intros ->. apply drop_app_length. Qed.
Lemma take_app_exact {A} (l k : list A) n : n = length l -> take n (l ++ k) = l.
Proof. intros ->. apply take_app_length. Qed.

Lemma length_frame ipc js : length (frame ipc js) = 14 + length ipc + length js.
Proof. unfold frame. rewrite !length_app, length_le_bytes. simpl. lia. Qed.

Lemma parse_frame_frame path ipc js stats :
  (N.of_nat (length js) < 2 ^ 32)%N -> stats_from_json js = Some stats ->
  parse_frame path (frame ipc js) = Ret (ipc, Some stats, 2%N).
Proof.
  intros Hlen Hjs. unfold parse_frame. rewrite length_frame.
  change (length MAGIC) with 5. change (length MAGIC_V2) with 5.
  rewrite decide_False by lia.
  assert (take 5 (frame ipc js) = MAGIC_V2) as -> by (by apply take_app_exact).
  rewrite decide_True by done. rewrite decide_False by lia.
  set (body := MAGIC_V2 ++ ipc ++ js).
  assert (frame ipc js = body ++ le_bytes 4 (N.of_nat (length js)) ++ MAGIC_V2) as Hf
    by (unfold frame, body; by rewrite <-!app_assoc).
  assert (length body = 5 + length ipc + length js) as Hbody by (unfold body; rewrite !length_app; simpl; lia).
  assert (drop (14 + length ipc + length js - 5) (frame ipc js) = MAGIC_V2) as ->.
  { rewrite Hf, app_assoc. apply drop_app_exact. rewrite length_app, length_le_bytes. lia. }
  rewrite decide_False by (intros Hn; by apply Hn).
  assert (14 + length ipc + length js - 5 - 4 = length body) as -> by lia.
  assert (take 4 (drop (length body) (frame ipc js)) = le_bytes 4 (N.of_nat (length js))) as ->.
  { rewrite Hf, drop_app_exact by done. by apply take_app_exact. }
  rewrite le_value_small by exact Hlen. rewrite decide_False by lia.
  rewrite Nat2N.id.
  assert (take (length js) (drop (length body - length js) (frame ipc js)) = js) as ->.
  { unfold frame. rewrite app_assoc, drop_app_exact
      by (rewrite Hbody, length_app; change (length MAGIC_V2) with 5; lia).
    by apply take_app_exact. }
  rewrite Hjs. cbn [or_fail mbind outcome_bind]. rewrite decide_False by lia.
  do 3 f_equal. unfold frame. rewrite drop_app_exact by done. apply take_app_exact.
  rewrite Hbody. lia.
Qed.

(** A first generation extent: the whole body is the IPC file, no statistics. *)
Lemma parse_frame_v1 path ipc : parse_frame path (MAGIC ++ ipc) = Ret (ipc, None, 1%N).
Proof.
  unfold parse_frame. rewrite length_app. change (length MAGIC) with 5.
  rewrite decide_False by lia. rewrite (take_app_exact MAGIC ipc 5) by done.
  rewrite decide_False by discriminate. rewrite decide_True by done.
  by rewrite (drop_app_exact MAGIC ipc 5).
Qed.

(** ** Through an object store *)

Section Store.
  Context {St} `{ObjectStoreLaws St}.

(** What opening an extent returns depends on the view alone, and opening one
    changes nothing: an object can be opened again. *)
Lemma open_extent_view s path byte_size (st : St) : os_inv st ->
  (open_extent s path byte_size st).1 =
    (data ← or_fail ObjectStoreError (os_view st path); open_bytes s path byte_size data) /\
  os_inv (open_extent s path byte_size st).2 /\
  forall p, os_view (open_extent s path byte_size st).2 p = os_view st p.
Proof.
  intros Hinv. destruct (os_get_view st path Hinv) as (Hg & Hi & Hv). unfold open_extent.
  destruct (os_get path st) as [got st1]. simpl in *. by subst.
Qed.

Lemma open_extent_again s path byte_size (st : St) n : os_inv st ->
  (open_extent s path byte_size (Nat.iter n (fun st => (open_extent s path byte_size st).2) st)).1 =
  (open_extent s path byte_size st).1.
Proof.
  intros Hinv.
  assert (os_inv (Nat.iter n (fun st => (open_extent s path byte_size st).2) st) /\
          os_view (Nat.iter n (fun st => (open_extent s path byte_size st).2) st) path = os_view st path) as [Hi Hv].
  { induction n as [|n [IHi IHv]]; simpl; [done|].
    destruct (open_extent_view s path byte_size _ IHi) as (_ & Hi & Hv). by rewrite Hv. }
  destruct (open_extent_view s path byte_size _ Hi) as (-> & _).
  destruct (open_extent_view s path byte_size _ Hinv) as (-> & _). by rewrite Hv.
Qed.

Lemma finish_extent_inv uuid w (st : St) result st' :
  os_inv st -> finish_extent uuid w st = Ret (result, st') -> os_inv st'.
Proof.
  intros Hinv ([[path payload] res] & _ & (st1 & Hput & [= <- <-])%bind_Ret)%bind_Ret.
  destruct (os_put path payload st) as [st2|] eqn:Hp; [|done]. injection Hput as <-.
  by destruct (os_put_view _ _ _ _ Hinv Hp).
Qed.

(** It changes the store at the path of the extent only. *)
Lemma finish_extent_view uuid w (st : St) result st' p :
  os_inv st -> finish_extent uuid w st = Ret (result, st') -> p <> wr_object_path result -> os_view st' p = os_view st p.
Proof.
  intros Hinv ([[path payload] res] & Hseal & (st1 & Hput & [= <- <-])%bind_Ret)%bind_Ret Hp.
  apply or_fail_Some in Hput. destruct (os_put_view _ _ _ _ Hinv Hput) as [_ ->]. rewrite decide_False; [done|].
  intros ->. apply Hp. unfold seal in Hseal. apply bind_Ret in Hseal as (j & _ & Hseal).
  apply bind_Ret in Hseal as (ipc & _ & Hseal). by apply bind_Ret in Hseal as (js & _ & [= <- <- <-]).
Qed.

(** The codecs read back what they wrote for this extent. *)
Definition codec_roundtrip (s : Schema) (bs : list RecordBatch) (stats : list BlockStats) : Prop :=
  (forall data, ipc_file s bs = Some data -> ipc_read data = Some bs) /\
  (forall data, stats_to_json stats = Some data ->
     stats_from_json data = Some stats /\ (N.of_nat (length data) < 2 ^ 32)%N).

Lemma open_finished uuid w st result st' s bs byte_size :
  written s bs w -> codec_roundtrip s bs (w_block_stats w) -> os_inv st ->
  finish_extent uuid w st = Ret (result, st') ->
  (open_extent s (wr_object_path result) byte_size st').1 =
  Ret {| metadata := {| em_row_count := row_total bs; em_block_count := as_u32 (length bs);
                        em_byte_size := byte_size; em_schema := s; em_format_version := 2 |};
         batches := bs; object_path := wr_object_path result; block_stats := Some (w_block_stats w) |}.
Proof.
  intros Hw [Hipc Hjson] Hinv. unfold finish_extent.
  intros ([[path payload] res] & Hseal & (st1 & Hput & [= <- <-])%bind_Ret)%bind_Ret.
  destruct (os_put path payload st) as [st2|] eqn:Hp; [|done]. injection Hput as <-.
  unfold seal in Hseal. apply bind_Ret in Hseal as (cs & _ & Hseal).
  apply bind_Ret in Hseal as (ipc & Hf & Hseal). apply bind_Ret in Hseal as (js & Hj & Hseal).
  destruct (ipc_file (w_schema w) (w_ipc w)) as [ipc'|] eqn:Hf'; [|done]. injection Hf as <-.
  destruct (stats_to_json (w_block_stats w)) as [js'|] eqn:Hj'; [|done]. injection Hj as <-.
  injection Hseal as <- <- <-. simpl.
  destruct (os_put_view _ _ _ _ Hinv Hp) as [Hinv2 Hview].
  unfold open_extent.
  match goal with |- context [os_get ?p st2] => destruct (os_get_view st2 p Hinv2) as (Hg & _); destruct (os_get p st2) as [got st3] end.
  simpl in *. rewrite Hview, decide_True in Hg by done. subst got. simpl.
  rewrite (wn_schema _ _ _ Hw), (wn_ipc _ _ _ Hw) in Hf'. pose proof (Hipc _ Hf') as Hread.
  destruct (Hjson _ eq_refl) as [Hjs Hlen].
  unfold open_bytes. rewrite (parse_frame_frame _ _ _ _ Hlen Hjs). simpl. by rewrite Hread.
Qed.

Lemma finished_counts uuid w (st : St) result st' s bs :
  written s bs w -> finish_extent uuid w st = Ret (result, st') ->
  wr_row_count result = row_total bs /\ wr_block_count result = length bs.
Proof.
  intros Hw ([[path payload] res] & Hseal & (st1 & _ & [= <- <-])%bind_Ret)%bind_Ret.
  unfold seal in Hseal. apply bind_Ret in Hseal as (j & _ & Hseal).
  apply bind_Ret in Hseal as (ipc & _ & Hseal). apply bind_Ret in Hseal as (js & _ & [= <- <- <-]). simpl.
  by rewrite (wn_rows _ _ _ Hw), (wn_blocks _ _ _ Hw).
Qed.
End Store.
End WithCodec.
