(* ===== verification/PruneMain.v ===== *)
(** * Pruning keeps every matching row

    The lemmas of the pruning cascade put together: for an extent written by
    the telemetry writer, a row that satisfies the pushed-down filters is in a
    listed extent and in a kept block. *)

From stdpp Require Import base gmap strings list sorting.
From Stdlib Require Import NArith ZArith Lia SpecFloat.
From S2P Require Import Prelude Bytes Arrow BlockStats ColumnStats Pushdown CatalogPrune PruneSpec TlmExtent.

Local Open Scope Z_scope.

(** A filter whose extraction is conservative. *)
Definition pushdown_ok (s : Schema) (f : Expr) : Prop :=
  time_casts_ok f = true /\ like_ok f = true /\ extract_vector_distance f (float_vector_cols s) = None.

Lemma position_Some {A} (P : A -> bool) l k : position P l = Some k -> exists x, l !! k = Some x /\ P x = true.
Proof.
  revert k. induction l as [|x l IH]; intros k; simpl; [done|].
  destruct (P x) eqn:E; [intros [= <-]; by exists x|].
  destruct (position P l) as [j|]; [|done]. intros [= <-]. by apply IH.
Qed.

Lemma existsb_json_eqb arr j v : value_json v = Some j -> j ∈ arr -> existsb (fun x => json_eqb x j) arr = true.
Proof.
  intros Hv Hj. apply existsb_exists. exists j. split; [by apply list_elem_of_In|].
  destruct v; simplify_eq/=; [apply Z.eqb_refl|by apply bool_decide_eq_true].
Qed.

Section Main.
  Context `{Hchr : Chrono} `{Hlaws : !ChronoLaws} `{Heng : Engine} `{Hcodec : Codec}.
  Context (s : Schema) (Hnd : NoDup (f_name <$> s)) (bs : list RecordBatch) (Hok : Forall batch_ok bs).
  Context (w : TelemetryExtentWriter) (Hw : written s bs w).
  Context (k : nat) (b : RecordBatch) (Hk : bs !! k = Some b) (i : nat).
  Context (filters : list Expr) (Hpush : Forall (pushdown_ok s) filters) (Hsat : Forall (fun f => sat b i f = true) filters).
  (** The timestamp of the row is not before the epoch and not [i64::MAX]. *)
  Context (Hepoch : forall f t, f ∈ s -> is_ts_nanos f = true -> cell b (f_name f) i = Some (VTimestamp t) -> 0 <= t < i64_MAX).

Let prune := build_prune_predicate s filters.

Lemma row_batch : batch_ok b /\ b_schema b = s /\ b ∈ bs.
Proof using Hok Hw Hk.
  split_and!; [by apply (proj1 (Forall_lookup _ _) Hok k)|by apply (proj1 (Forall_lookup _ _) (wn_batches _ _ _ Hw) k)|].
  by eapply list_elem_of_lookup_2.
Qed.

(** The two parts of the predicate, on the row. *)
Lemma prune_time_holds tr : time_range prune = Some tr ->
  exists kt f t, position is_ts_nanos s = Some kt /\ s !! kt = Some f /\ is_ts_nanos f = true /\
    cell b (f_name f) i = Some (VTimestamp t) /\ tr_start_inclusive tr <= t < tr_end_exclusive tr /\ 0 <= t < i64_MAX.
Proof using Hlaws Hnd Hok Hw Hk Hpush Hsat Hepoch.
  unfold prune, build_prune_predicate. destruct (position is_ts_nanos s) as [kt|] eqn:Hpos; simpl; [|done].
  destruct (position_Some _ _ _ Hpos) as (f & Hf & Hts). rewrite Hf. simpl. intros Hcb.
  destruct row_batch as (Hbok & Hsch & Hb).
  assert (forall v, cell b (f_name f) i = Some v -> exists t, v = VTimestamp t) as Hcell.
  { intros v Hv. destruct (cell_typed b i s Hsch Hbok Hnd kt f v Hf Hv) as (a & _ & Hat & Hpl & Hc).
    unfold is_ts_nanos in Hts. rewrite <-Hat in Hts.
    destruct a as [u tz l| | | | | |ty n]; simpl in *; try done; [|by destruct ty as [[] ?| | | | | |[]|]].
    apply elem_of_cell in Hc as (z & _ & ->). by eexists. }
  assert (f ∈ s) as Hfs by (by eapply list_elem_of_lookup_2).
  assert (lohi_holds b i (f_name f) (foldl (bound_step (f_name f)) (None, None) filters)) as Hb0.
  { apply (bounds_hold b i (f_name f) Hcell). apply Forall_forall. intros g Hg.
    split; [apply (proj1 (Forall_forall _ _) Hpush g Hg)|by apply (proj1 (Forall_forall _ _) Hsat g Hg)]. }
  assert (forall t, cell b (f_name f) i = Some (VTimestamp t) -> 0 <= t <= i64_MAX) as Hpos'
    by (intros t Ht; pose proof (Hepoch f t Hfs Hts Ht); lia).
  destruct (combine_bounds_hold b i (f_name f) _ tr Hpos' Hb0 Hcb) as (t & Ht & Hr).
  exists kt, f, t. split_and!; try done; try apply Hr; by apply (Hepoch f t Hfs Hts Ht).
Qed.

Lemma prune_columns_hold c pred : column_predicates prune !! c = Some pred -> column_holds b i (c, pred).
Proof using Hnd Hok Hw Hk Hpush Hsat.
  unfold prune, build_prune_predicate. destruct (position is_ts_nanos s ≫= _); simpl; [|done].
  destruct row_batch as (Hbok & Hsch & Hb).
  apply (column_predicates_hold b i s Hsch Hbok Hnd).
  apply Forall_forall. intros g Hg. pose proof (proj1 (Forall_forall _ _) Hpush g Hg) as (_ & ? & ?).
  split_and!; try done. by apply (proj1 (Forall_forall _ _) Hsat g Hg).
Qed.

(** ** The catalog keeps the extent *)

Lemma distinct_array_spec stats c : distinct_array stats c = (json_get stats c ≫= fun e => json_get e "distinct" ≫= as_array).
Proof. unfold distinct_array. by destruct (json_get stats c). Qed.
Lemma token_array_spec stats c : token_array stats c = (json_get stats c ≫= fun e => json_get e "tokens" ≫= as_array).
Proof. unfold token_array. by destruct (json_get stats c). Qed.

Lemma manifest_keep table_id snapshot result j :
  ColumnStats.finish (w_stats w) = Ret j -> wr_column_stats result = j ->
  wr_min_timestamp_nanos result = min_ts_nanos (w_stats w) -> wr_max_timestamp_nanos result = max_ts_nanos (w_stats w) ->
  keep prune (table_result_to_manifest table_id snapshot result).
Proof using Hlaws Hnd Hok Hw Hk Hpush Hsat Hepoch.
  intros Hj Hcs Hmin Hmax. destruct row_batch as (Hbok & Hsch & Hb).
  pose proof (wn_covers _ _ _ Hw) as Hcov. pose proof (wn_wf _ _ _ Hw) as Hwf.
  destruct (wn_acc _ _ _ Hw) as [Hs Hidx]. destruct (wn_i64 _ _ _ Hw) as [H64n H64x].
  assert (b_schema b = schema (w_stats w)) as Hsch' by congruence.
  assert (NoDup (f_name <$> schema (w_stats w))) as Hnd' by congruence.
  split_and!.
  - intros tr Htr. destruct (prune_time_holds tr Htr) as (kt & f & t & Hpos & Hf & Hts & Hcell & Hr & _).
    rewrite <-Hidx in Hpos. rewrite <-Hs in Hf.
    destruct (ts_bounds_contain (w_stats w) bs Hcov b Hb Hbok Hsch' Hnd' f kt t Hpos Hf Hts i Hcell)
      as (mn & mx & Hmn & Hmx & Ht).
    unfold keep_time. simpl. rewrite Hmin, Hmax, Hmn, Hmx. simpl.
    rewrite !nanos_to_utc_spec by auto. apply andb_true_iff. lia.
  - unfold prune, build_prune_predicate. by destruct (position is_ts_nanos s ≫= _).
  - intros c pred Hp%prune_columns_hold. unfold column_holds in Hp. simpl in Hp. unfold keep_column. simpl.
    rewrite Hcs. destruct pred as [v|lo hi|vs|ts|q th]; [|done| | |done].
    + destruct Hp as (v' & Hv & Hvj & _). rewrite distinct_array_spec.
      destruct (json_get j c) as [e|] eqn:He; [|done]. simpl.
      destruct (json_get e "distinct" ≫= as_array) as [arr|] eqn:Harr; [|done].
      eapply existsb_json_eqb; [done|].
      by eapply (distinct_contains (w_stats w) bs j Hcov Hwf Hj b Hb Hbok Hsch' Hnd').
    + destruct Hp as (v' & v & Hv & Hin & Hvj & _). rewrite distinct_array_spec.
      destruct (json_get j c) as [e|] eqn:He; [|done]. simpl.
      destruct (json_get e "distinct" ≫= as_array) as [arr|] eqn:Harr; [|done].
      apply existsb_exists. exists v. split; [by apply list_elem_of_In|].
      eapply existsb_json_eqb; [done|].
      by eapply (distinct_contains (w_stats w) bs j Hcov Hwf Hj b Hb Hbok Hsch' Hnd').
    + destruct Hp as (x & Hv & Hts). rewrite token_array_spec.
      destruct (json_get j c) as [e|] eqn:He; [|done]. simpl.
      destruct (json_get e "tokens" ≫= as_array) as [arr|] eqn:Harr; [|done].
      apply forallb_forall. intros t Ht%list_elem_of_In. apply existsb_exists. exists (JString t).
      split; [|by apply bool_decide_eq_true]. apply list_elem_of_In.
      eapply (tokens_contain (w_stats w) bs j Hcov Hwf Hj b Hb Hbok Hsch' Hnd'); eauto.
Qed.

(** ** The reader keeps the block *)

Let no_eq : value -> BlockScalar -> Prop := fun _ _ => False.
Let no_atom : BlockPredicate -> RecordBatch -> nat -> Prop := fun _ _ _ => False.
Let names := f_name <$> s.

Lemma names_as_u32 kc f : fits_u32 (length s) -> s !! kc = Some f -> names !! as_u32 kc = Some (f_name f).
Proof using.
  intros Hfit Hf. rewrite as_u32_id; [unfold names; by rewrite list_lookup_fmap, Hf|].
  eapply fits_u32_le; [|exact Hfit]. apply lookup_lt_Some in Hf. lia.
Qed.

Lemma time_part_matches tr p : fits_u32 (length s) -> time_range prune = Some tr -> time_part s tr = Some p ->
  matches no_eq no_atom names p b i.
Proof using Hlaws Hnd Hok Hw Hk Hpush Hsat Hepoch.
  intros Hfit Htr. destruct (prune_time_holds tr Htr) as (kt & f & t & Hpos & Hf & Hts & Hcell & Hr & He).
  unfold time_part. rewrite Hpos. simpl. intros [= <-]. exists (f_name f), (VTimestamp t).
  split; [by apply names_as_u32|]. split; [done|]. rewrite !timestamp_nanos_opt_spec.
  unfold i64_MIN, i64_MAX in *. repeat case_decide; simpl; lia.
Qed.

Lemma value_scalar v j sv : value_json v = Some j -> json_to_block_scalar j = Some sv -> scalar_eq no_eq v sv.
Proof using.
  destruct v; simpl; try done; intros [= <-]; simpl; [case_decide|]; intros [= <-]; done.
Qed.

Lemma block_part_matches c pred p : fits_u32 (length s) -> column_predicates prune !! c = Some pred ->
  block_part s (c, pred) = Some p -> matches no_eq no_atom names p b i.
Proof using Hnd Hok Hw Hk Hpush Hsat.
  intros Hfit Hp%prune_columns_hold. unfold block_part. simpl.
  destruct (column_index s c) as [kc|] eqn:Hc; simpl; [|done].
  destruct (column_index_Some _ _ _ Hc) as (f & Hf & Hn).
  pose proof (names_as_u32 kc f Hfit Hf) as Hname. rewrite Hn in Hname.
  destruct pred as [v|lo hi|vs|ts|q th]; try done; simpl.
  - destruct Hp as (v' & Hv & Hvj & _). simpl in *. intros (sv & Hsv & ->)%fmap_Some.
    exists c, v'. split_and!; [done..|]. by eapply value_scalar.
  - destruct Hp as (v' & v & Hv & Hin & Hvj & Hz). simpl in *.
    assert (exists sv, json_to_block_scalar v = Some sv) as [sv Hsv].
    { destruct v'; simplify_eq/=; [|by eexists]. specialize (Hz z eq_refl). unfold is_i64 in Hz.
      rewrite decide_True by done. by eexists. }
    assert (sv ∈ omap json_to_block_scalar vs) as Hsvs by (apply list_elem_of_omap; eauto).
    destruct (omap json_to_block_scalar vs) as [|sv0 svs] eqn:E; [done|]. intros [= <-].
    exists c, v'. split_and!; [done..|]. exists sv. split; [done|]. by eapply value_scalar.
Qed.

Lemma block_predicate_matches : fits_u32 (length s) ->
  matches no_eq no_atom names (build_block_predicate s prune) b i.
Proof using Hlaws Hnd Hok Hw Hk Hpush Hsat Hepoch.
  intros Hfit. unfold build_block_predicate.
  match goal with |- matches _ _ _ (match ?parts with _ => _ end) _ _ => set (ps := parts) end.
  assert (Forall (fun p => matches no_eq no_atom names p b i) ps) as Hall.
  { apply Forall_forall. intros p [Hp|Hp]%elem_of_app.
    - destruct (time_range prune) as [tr|] eqn:Htr; simpl in Hp; [|by apply not_elem_of_nil in Hp].
      destruct (time_part s tr) as [q|] eqn:Hq; simpl in Hp; [|by apply not_elem_of_nil in Hp].
      apply list_elem_of_singleton in Hp as ->. by eapply time_part_matches.
    - apply list_elem_of_omap in Hp as ([c pred] & Hin%elem_of_map_to_list & Hp). by eapply block_part_matches. }
  destruct ps as [|p [|q ps]]; [done| |].
  - by apply Forall_cons in Hall as [? _].
  - by apply matches_And.
Qed.

Lemma block_kept r : fits_u32 (length s) -> fits_u32 (length bs) ->
  em_schema (metadata r) = s -> block_stats r = Some (w_block_stats w) ->
  {| block_id := k |} ∈ pruned_blocks r (build_block_predicate s prune).
Proof using Hlaws Hnd Hok Hw Hk Hpush Hsat Hepoch.
  intros Hfit Hfit' Hs Hstats. destruct row_batch as (Hbok & Hsch & Hb).
  destruct (Forall2_lookup_l _ _ _ _ _ (wn_stats _ _ _ Hw) Hk) as (st & Hst & Hstat).
  apply (elem_of_pruned_blocks r _ _ _ Hstats). exists k, st. split_and!; [done| |].
  - rewrite Hs. apply (evaluate_sound no_eq no_atom names b st i); [|by apply block_predicate_matches].
    intros name v cs. apply stats_for_batch_covers; [done|by rewrite Hsch|done].
  - rewrite as_u32_id; [done|]. eapply fits_u32_le; [|exact Hfit']. apply lookup_lt_Some in Hk. lia.
Qed.
End Main.
