(* ===== verification/PruneProperties.v ===== *)
(** * A sample table

    Two small batches of a log table, filters over it, and concrete functions
    for the third-party parameters: the inputs of the witnesses. *)

From stdpp Require Import base gmap strings list sorting.
From Stdlib Require Import NArith ZArith Lia Ascii SpecFloat.
From S2P Require Import Prelude Bytes Arrow BlockStats ColumnStats Pushdown CatalogPrune PruneSpec TlmExtent PruneMain.

Local Open Scope Z_scope.


(** The part of chrono the sources rely on, as a function on the [i64]
    nanosecond clock and beyond; it reads no text. *)
Definition from_timestamp_fn (s n : Z) : option Z :=
  if decide (0 <= n < 10 ^ 9) then Some (s * 10 ^ 9 + n) else None.

#[export] Instance chrono_fn : Chrono := {
  from_timestamp := from_timestamp_fn;
  timestamp_nanos_opt t := if decide (i64_MIN <= t <= i64_MAX) then Some t else None;
  parse_from_rfc3339 _ := None;
  utc_now := 0 }.

#[export] Instance chrono_fn_laws : ChronoLaws.
Proof.
  split; simpl.
  - intros s n _ Hn. unfold from_timestamp_fn. by rewrite decide_True.
  - intros s n t. unfold from_timestamp_fn. case_decide; [|done]. intros [= <-]. lia.
  - done.
Qed.

#[export] Instance engine_fn : Engine := {
  other_cast _ _ := None; other_value _ _ _ := None; other_sat _ _ _ := false }.

Definition schema_ : Schema :=
  [{| f_name := "ts"; f_type := Timestamp Nanosecond None; f_nullable := false |};
   {| f_name := "level"; f_type := Utf8; f_nullable := true |};
   {| f_name := "msg"; f_type := Utf8; f_nullable := true |};
   {| f_name := "n"; f_type := Int32; f_nullable := true |}].

Definition batch0 : RecordBatch :=
  {| b_schema := schema_;
     b_columns := [TimestampArray Nanosecond None [Some 1000; Some 2000];
                   StringArray [Some "info"; None];
                   StringArray [Some "started"; Some "OutOfMemoryError"];
                   Int32Array [Some 1; None]];
     b_num_rows := 2 |}.

Definition batch1 : RecordBatch :=
  {| b_schema := schema_;
     b_columns := [TimestampArray Nanosecond None [Some 5000];
                   StringArray [Some "error"];
                   StringArray [Some "no disk left"];
                   Int32Array [Some 7]];
     b_num_rows := 1 |}.

(** Codecs that work for extents over these two batches: one byte per batch. *)
Definition stats_of (b : RecordBatch) : list BlockStats :=
  match stats_for_batch b with Ret s => [s] | _ => [] end.

#[export] Instance codec_fn : Codec := {
  ipc_accepts _ := true;
  ipc_file _ l := Some ((fun _ => "b"%char) <$> l);
  ipc_read data := Some (take (length data) [batch0; batch1]);
  stats_to_json l := Some ((fun _ => "s"%char) <$> l);
  stats_from_json data := Some (take (length data) (stats_of batch0 ++ stats_of batch1)) }.

Definition start_ : TelemetryExtentWriter :=
  start_extent {| path_prefix := "pensieve"; tenant_segment := "" |} 1 schema_.

Definition writer_of (bs : list RecordBatch) : TelemetryExtentWriter :=
  match for_each append bs start_ with Ret w => w | _ => start_ end.

Definition uuid_fn (_ : N) : string := "00000001".

Definition empty_result : ExtentWriteResult :=
  {| wr_extent_id := 0; wr_object_path := ""; wr_byte_size := 0; wr_row_count := 0; wr_block_count := 0;
     wr_min_timestamp_nanos := None; wr_max_timestamp_nanos := None; wr_present_paths := []; wr_column_stats := JNull |}.

Definition result_of (w : TelemetryExtentWriter) : string * bytes * ExtentWriteResult :=
  match seal uuid_fn w with Ret r => r | _ => ("", [], empty_result) end.

Definition row_of (w : TelemetryExtentWriter) : ExtentRow :=
  {| r_tenant_id := 3; r_deleted := false; r_manifest := table_result_to_manifest 9 4 (result_of w).2 |}.


Lemma batch0_ok : batch_ok batch0.
Proof.
  split; [repeat constructor|].
  repeat (constructor; [split; [done|simpl]|]); try done;
    repeat (constructor; [intros z [= <-]; unfold is_i64, i64_MIN, i64_MAX; lia|]); repeat constructor; done.
Qed.

Lemma batch1_ok : batch_ok batch1.
Proof.
  split; [repeat constructor|].
  repeat (constructor; [split; [done|simpl]|]); try done;
    repeat (constructor; [intros z [= <-]; unfold is_i64, i64_MIN, i64_MAX; lia|]); repeat constructor; done.
Qed.

Lemma schema_nodup : NoDup (f_name <$> schema_).
Proof. apply (bool_decide_unpack _). vm_compute. exact I. Qed.




Lemma batches_ok : Forall batch_ok [batch0; batch1].
Proof. constructor; [apply batch0_ok|constructor; [apply batch1_ok|constructor]]. Qed.

(** msg LIKE '%Memory%', and ts < 1970-01-01T00:00:00Z *)
Definition like_memory : Expr := Like false (Column "msg") (Literal (SUtf8 (Some "%Memory%"))) None false.
Definition before_epoch : Expr := BinaryExpr (Column "ts") OLt (Literal (STimestampSecond (Some 0))).

(** One row, from the second before the epoch. *)
Definition batch_1969 : RecordBatch :=
  {| b_schema := schema_;
     b_columns := [TimestampArray Nanosecond None [Some (- 1000000000)];
                   StringArray [Some "info"]; StringArray [Some "old"]; Int32Array [None]];
     b_num_rows := 1 |}.

(** A table with a 64-bit-offset string column. *)
Definition large_schema : Schema := [{| f_name := "body"; f_type := LargeUtf8; f_nullable := true |}].
Definition large_batch : RecordBatch :=
  {| b_schema := large_schema; b_columns := [LargeStringArray [Some "x"]]; b_num_rows := 1 |}.

Lemma large_batch_ok : batch_ok large_batch.
Proof. split; repeat constructor. Qed.

(** The sample extent, sealed into an empty in-memory store. *)
Definition finished : ExtentWriteResult * gmap string bytes :=
  match finish_extent uuid_fn (writer_of [batch0; batch1]) (∅ : gmap string bytes) with
  | Ret r => r
  | _ => (empty_result, ∅)
  end.

Definition reader_ : TelemetryExtentReader :=
  {| metadata := {| em_row_count := 3; em_block_count := 2; em_byte_size := 10; em_schema := schema_; em_format_version := 2 |};
     batches := [batch0; batch1]; object_path := "pensieve/extents/00000001.pnsv";
     block_stats := Some (stats_of batch0 ++ stats_of batch1) |}.

Lemma sample_roundtrip : codec_roundtrip schema_ [batch0; batch1] (w_block_stats (writer_of [batch0; batch1])).
Proof. split; intros data [= <-]; [vm_compute; reflexivity|]. split; vm_compute; reflexivity. Qed.

(** * Properties of the pruning cascade

    No false negatives at the catalog and at the block level, the round trip
    of an extent, and the inputs for which pruning does lose rows. *)



(** Evaluation of any block predicate is conservative.  Whatever the
    full-text and dynamic-path atoms and the cross-type comparisons mean, if a
    row of a batch satisfies the predicate, the statistics of the batch pass
    its evaluation. *)
Theorem evaluate_conservative other_eq other_atom names p b bs i :
  batch_ok b -> NoDup (f_name <$> b_schema b) -> stats_for_batch b = Ret bs ->
  matches other_eq other_atom names p b i -> evaluate p bs names = true.
Proof.
  intros Hok Hnd Hst. apply evaluate_sound.
  intros name v s. by apply stats_for_batch_covers.
Qed.

(** C22: An extent is read back as it was written: opening the object a writer
    sealed returns its batches in order, their statistics, the row total and
    the block count, in format version 2, on any store that honours the object
    store contract. *)
Theorem extent_roundtrip `{Codec} {St} `{ObjectStoreLaws St} s format id bs w uuid st result st' byte_size :
  Forall batch_ok bs -> for_each append bs (start_extent format id s) = Ret w ->
  codec_roundtrip s bs (w_block_stats w) -> os_inv st ->
  finish_extent uuid w st = Ret (result, st') ->
  (open_extent s (wr_object_path result) byte_size st').1 =
  Ret {| metadata := {| em_row_count := wr_row_count result; em_block_count := as_u32 (wr_block_count result);
                        em_byte_size := byte_size; em_schema := s; em_format_version := 2 |};
         batches := bs; object_path := wr_object_path result; block_stats := Some (w_block_stats w) |}.
Proof.
  intros Hok Hw Hcodec Hinv Hfin. apply appends_written in Hw; [|done].
  rewrite (open_finished uuid w st result st' s bs byte_size Hw Hcodec Hinv Hfin).
  by destruct (finished_counts uuid w st result st' s bs Hw Hfin) as [-> ->].
Qed.

(** Any append to a table with a LargeUtf8 column panics: the column
    statistics read every string column as 32-bit-offset strings, although the
    schema types they match on include the 64-bit ones. *)
Theorem append_large_utf8_panics `{Codec} b w i f l :
  batch_ok b -> w_schema w = b_schema b ->
  b_schema b !! i = Some f -> b_columns b !! i = Some (LargeStringArray l) ->
  append b w = Panic.
Proof.
  intros Hok Hs Hf Hl. unfold append. rewrite decide_False by congruence.
  rewrite (stats_for_batch_large _ _ _ _ Hok Hf Hl).
  destruct (update_cases b (w_stats w)) as [->|[a ->]]; reflexivity.
Qed.

(** A LIKE pattern whose letters touch a wildcard can lose rows: the row
    "OutOfMemoryError" matches msg LIKE '%Memory%', and the catalog does not
    list its extent, whose word tokens contain "outofmemoryerror" only. *)
Theorem like_substring_false_negative :
  sat batch0 1 like_memory = true /\
  list_extents_in_tenant [row_of (writer_of [batch0])] 3 9 (build_prune_predicate schema_ [like_memory]) = [].
Proof. split; vm_compute; reflexivity. Qed.

(** A one-sided upper time bound loses rows from before 1970: the missing
    lower bound is set to the epoch. *)
Theorem pre_epoch_false_negative :
  sat batch_1969 0 before_epoch = true /\
  list_extents_in_tenant [row_of (writer_of [batch_1969])] 3 9 (build_prune_predicate schema_ [before_epoch]) = [].
Proof. split; vm_compute; reflexivity. Qed.

(** What the PostgreSQL catalog prunes that the SQLite catalog keeps.  An
    extent that may hold a row of the time range is dropped by the statement
    exactly if all its rows have one timestamp, or the range starts at its
    greatest timestamp, or the range is empty.  In the first two cases the
    extent does hold such a row. *)
Theorem pg_time_range_misses tr m mn mx : min_timestamp m = Some mn -> max_timestamp m = Some mx -> mn <= mx ->
  tr_start_inclusive tr <= tr_end_exclusive tr -> keep_time tr m = true ->
  (pg_keep_time tr m = Some false <->
   mn = mx \/ tr_start_inclusive tr = mx \/ tr_start_inclusive tr = tr_end_exclusive tr).
Proof.
  intros Hmn Hmx Hle Hr. rewrite (pg_keep_time_iff tr m mn mx) by done. unfold keep_time. rewrite Hmn, Hmx, andb_true_iff, Z.leb_le, Z.ltb_lt.
  intros [H1 H2]. split.
  - intros [= Hb%bool_decide_eq_false]. lia.
  - intros Hc. f_equal. apply bool_decide_eq_false. lia.
Qed.

(** ** Witnesses *)

(** One row, in the second asked for. *)
Definition one_instant : ExtentManifest :=
  {| m_id := 1; m_table_id := 9; m_schema_snapshot_id := 1; m_object_path := "x"; m_byte_size := 1; m_row_count := 1;
     min_timestamp := Some 500; max_timestamp := Some 500; column_stats := JNull; present_paths := []; compaction_gen := 0; created_at := 0 |}.
Lemma pg_time_range_misses_witness :
  pg_keep_time {| tr_start_inclusive := 0; tr_end_exclusive := 1000 |} one_instant = Some false <->
  (500 = 500 \/ 0 = 500 \/ 0 = 1000).
Proof. refine (pg_time_range_misses {| tr_start_inclusive := 0; tr_end_exclusive := 1000 |} one_instant 500 500 _ _ _ _ _); done. Defined.



Lemma evaluate_conservative_witness :
  evaluate (And [Equals {| column_id := 1 |} (BString "info"); InSet {| column_id := 3 |} [BInt64 1; BInt64 9]])
    (default {| row_count := 0; cols := ∅ |} (head (stats_of batch0))) (f_name <$> schema_) = true.
Proof.
  refine (evaluate_conservative (fun _ _ => False) (fun _ _ _ => False) _ _ batch0 _ 0 batch0_ok schema_nodup _ _).
  - vm_compute. reflexivity.
  - split; [|split; [|exact I]].
    + exists "level", (VStr "info"). split; [reflexivity|]. split; [vm_compute; reflexivity|reflexivity].
    + exists "n", (VInt 1). split; [reflexivity|]. split; [vm_compute; reflexivity|].
      exists (BInt64 1). split; [left|reflexivity].
Defined.

Lemma extent_roundtrip_witness :
  (open_extent schema_ (wr_object_path finished.1) 10 finished.2).1 = Ret reader_.
Proof.
  refine (extent_roundtrip (St:=gmap string bytes) schema_ _ 1 [batch0; batch1] (writer_of [batch0; batch1])
    uuid_fn ∅ finished.1 finished.2 10 batches_ok _ sample_roundtrip I _); vm_compute; reflexivity.
Defined.

Lemma append_large_utf8_panics_witness :
  append large_batch (start_extent {| path_prefix := ""; tenant_segment := "" |} 1 large_schema) = Panic.
Proof.
  refine (append_large_utf8_panics large_batch _ 0 _ [Some "x"] large_batch_ok _ _ _); reflexivity.
Defined.
