(* ===== verification/Lru.v ===== *)
(** * The byte-bounded LRU of the read cache ([pensieve-storage/src/cache.rs])

    [Lru] with its three indexes: the entries, the recency order by tick and
    the cached reads of each path.  Counters are unbounded naturals: a tick
    wraps only after 2^64 operations. *)

From stdpp Require Import base gmap strings list fin_maps.
From Stdlib Require Import NArith Lia.
From S2P Require Import Prelude Bytes.

Local Open Scope N_scope.

Definition ENTRY_OVERHEAD : N := 256.

Inductive RangeKey :=
  | Full
  | Bounded (a b : N)
  | Head.

#[export] Instance RangeKey_eq_dec : EqDecision RangeKey.
Proof. solve_decision. Defined.
#[export] Instance RangeKey_countable : Countable RangeKey.
Proof.
  refine (inj_countable'
    (fun k => match k with Full => inl (inl tt) | Head => inl (inr tt) | Bounded a b => inr (a, b) end)
    (fun x => match x with inl (inl _) => Full | inl (inr _) => Head | inr (a, b) => Bounded a b end) _).
  by intros [].
Defined.

Abbreviation Key := (string * RangeKey)%type.

Section Lru.
  (** [object_store]'s [ObjectMeta] and [Attributes]. *)
  Context {Meta Attrs : Type}.

Record Entry := {
  e_bytes : bytes; e_meta : Meta; e_attributes : Attrs; e_range : N * N; e_tick : N; e_nbytes : N }.

Record Lru := {
  map : gmap Key Entry;
  by_tick : gmap N Key;
  by_path : gmap string (list RangeKey);
  total_bytes : N;
  max_total : N;
  tick : N;
  hits : N;
  misses : N }.

Definition lru_new (max_total : N) : Lru :=
  {| map := ∅; by_tick := ∅; by_path := ∅; total_bytes := 0; max_total := max_total; tick := 0; hits := 0; misses := 0 |}.

Definition with_tick (e : Entry) (t : N) : Entry :=
  {| e_bytes := e_bytes e; e_meta := e_meta e; e_attributes := e_attributes e; e_range := e_range e;
     e_tick := t; e_nbytes := e_nbytes e |}.

Definition get (path : string) (rk : RangeKey) (s : Lru) : option Entry * Lru :=
  let key := (path, rk) in
  match map s !! key with
  | None =>
      (None, {| map := map s; by_tick := by_tick s; by_path := by_path s; total_bytes := total_bytes s;
                max_total := max_total s; tick := tick s; hits := hits s; misses := misses s + 1 |})
  | Some e =>
      let nt := tick s + 1 in
      let e' := with_tick e nt in
      (Some e', {| map := <[key := e']> (map s);
                   by_tick := <[nt := key]> (delete (e_tick e) (by_tick s));
                   by_path := by_path s; total_bytes := total_bytes s; max_total := max_total s;
                   tick := nt; hits := hits s + 1; misses := misses s |})
  end.

(** [v.retain(|r| r != &key.1); if v.is_empty() { remove }] *)
Definition unlist_key (key : Key) (m : gmap string (list RangeKey)) : gmap string (list RangeKey) :=
  match m !! key.1 with
  | None => m
  | Some v =>
      let v := filter (fun r => r <> key.2) v in
      match v with [] => delete key.1 m | _ => <[key.1 := v]> m end
  end.

Definition remove_key (key : Key) (s : Lru) : Lru :=
  match map s !! key with
  | None => s
  | Some e =>
      {| map := delete key (map s); by_tick := delete (e_tick e) (by_tick s);
         by_path := unlist_key key (by_path s);
         total_bytes := total_bytes s - e_nbytes e;    (** saturating *)
         max_total := max_total s; tick := tick s; hits := hits s; misses := misses s |}
  end.

(** [by_tick.iter().next()]: the least key of a BTreeMap. *)
Definition oldest (m : gmap N Key) : option (N * Key) :=
  foldr (fun tk acc => match acc with
                       | Some tk' => if tk.1 <? tk'.1 then Some tk else acc
                       | None => Some tk
                       end) None (map_to_list m).

Fixpoint evict_loop (fuel : nat) (s : Lru) : outcome Empty_set Lru :=
  if decide (total_bytes s <= max_total s) then Ret s
  else match fuel with
       | O => OutOfFuel
       | S fuel =>
           match oldest (by_tick s) with
           | None => Ret s
           | Some (_, victim) => evict_loop fuel (remove_key victim s)
           end
       end.

(** [entry(path).or_default().push(rk)] *)
Definition push_key (path : string) (rk : RangeKey) (m : gmap string (list RangeKey)) : gmap string (list RangeKey) :=
  <[path := default [] (m !! path) ++ [rk]]> m.

(** [insert] up to its eviction loop. *)
Definition place (path : string) (rk : RangeKey) (data : bytes) (meta : Meta) (attributes : Attrs) (range : N * N)
    (nbytes : N) (s : Lru) : Lru :=
  let key := (path, rk) in
  let s := remove_key key s in
  let t := tick s + 1 in
  {| map := <[key := {| e_bytes := data; e_meta := meta; e_attributes := attributes; e_range := range;
                        e_tick := t; e_nbytes := nbytes |}]> (map s);
     by_tick := <[t := key]> (by_tick s);
     by_path := push_key path rk (by_path s);
     total_bytes := total_bytes s + nbytes;
     max_total := max_total s; tick := t; hits := hits s; misses := misses s |}.

(** The fuel is the number of entries: each iteration removes one. *)
Definition insert (path : string) (rk : RangeKey) (data : bytes) (meta : Meta) (attributes : Attrs) (range : N * N)
    (s : Lru) : outcome Empty_set Lru :=
  let nbytes := N.max (N.of_nat (length data)) ENTRY_OVERHEAD in
  if decide (max_total s < nbytes) then Ret s
  else
    let s := place path rk data meta attributes range nbytes s in
    evict_loop (size (by_tick s)) s.

Definition evict_one (path : string) (s : Lru) (rk : RangeKey) : Lru :=
  let key := (path, rk) in
  match map s !! key with
  | None => s
  | Some e =>
      {| map := delete key (map s); by_tick := delete (e_tick e) (by_tick s); by_path := by_path s;
         total_bytes := total_bytes s - e_nbytes e; max_total := max_total s; tick := tick s;
         hits := hits s; misses := misses s |}
  end.

Definition evict_path (path : string) (s : Lru) : Lru :=
  match by_path s !! path with
  | None => s
  | Some rks =>
      foldl (evict_one path)
        {| map := map s; by_tick := by_tick s; by_path := delete path (by_path s); total_bytes := total_bytes s;
           max_total := max_total s; tick := tick s; hits := hits s; misses := misses s |} rks
  end.

(** ** The invariant *)

Definition sum_bytes (m : gmap Key Entry) : N := map_fold (fun _ e n => e_nbytes e + n) 0 m.

(** The recency order and the entries index each other. *)
Record ticks_ok (s : Lru) : Prop := {
  tk_entry k e : map s !! k = Some e -> by_tick s !! e_tick e = Some k;
  tk_tick t k : by_tick s !! t = Some k -> exists e, map s !! k = Some e /\ e_tick e = t;
  tk_bound k e : map s !! k = Some e -> e_tick e <= tick s;
  tk_total : total_bytes s = sum_bytes (map s);
  tk_cost k e : map s !! k = Some e -> e_nbytes e = N.max (N.of_nat (length (e_bytes e))) ENTRY_OVERHEAD }.

(** The reverse index of paths lists exactly the cached reads, once each. *)
Definition paths_ok (s : Lru) : Prop :=
  forall p, match by_path s !! p with
            | Some l => l <> [] /\ NoDup l /\ forall rk, rk ∈ l <-> is_Some (map s !! (p, rk))
            | None => forall rk, map s !! (p, rk) = None
            end.

Record lru_ok (s : Lru) : Prop := {
  ok_ticks : ticks_ok s;
  ok_paths : paths_ok s;
  ok_budget : total_bytes s <= max_total s }.
End Lru.

Arguments Entry : clear implicits.
Arguments Lru : clear implicits.

(** * The LRU keeps its invariant and evicts the least recently used

    Every operation preserves [lru_ok], the eviction loop ends within its fuel,
    and each operation is described by what it does to the map of entries. *)

Section Spec.
  Context {Meta Attrs : Type}.
  Implicit Types (s : Lru Meta Attrs) (e : Entry Meta Attrs) (m : gmap Key (Entry Meta Attrs)).

(** ** Sums and minima *)

Lemma sum_bytes_insert m k e : m !! k = None -> sum_bytes (<[k := e]> m) = e_nbytes e + sum_bytes m.
Proof.
  intros Hk. unfold sum_bytes. apply (map_fold_insert_L (fun _ e n => e_nbytes e + n)); [|done].
  intros. lia.
Qed.

Lemma sum_bytes_delete m k e : m !! k = Some e -> sum_bytes m = e_nbytes e + sum_bytes (delete k m).
Proof.
  intros Hk. rewrite <-(insert_delete_id m k e Hk) at 1. apply sum_bytes_insert. apply lookup_delete_eq.
Qed.

Lemma oldest_list (l : list (N * Key)) :
  match foldr (fun tk acc => match acc with
                       | Some tk' => if tk.1 <? tk'.1 then Some tk else acc
                       | None => Some tk
                       end) None l with
  | None => l = []
  | Some tk => tk ∈ l /\ forall tk', tk' ∈ l -> tk.1 <= tk'.1
  end.
Proof.
  induction l as [|tk l IH]; simpl; [done|].
  destruct (foldr _ None l) as [tk0|].
  - destruct IH as [Hin Hmin]. destruct (N.ltb_spec tk.1 tk0.1) as [Hlt|Hge].
    + split; [left|]. intros tk' [->|Hin']%elem_of_cons; [done|]. pose proof (Hmin tk' Hin'). lia.
    + split; [by right|]. intros tk' [->|Hin']%elem_of_cons; [done|by apply Hmin].
  - subst l. split; [left|]. intros tk' ->%list_elem_of_singleton. done.
Qed.

Lemma oldest_None (m : gmap N Key) : oldest m = None -> m = ∅.
Proof.
  unfold oldest. intros H. pose proof (oldest_list (map_to_list m)) as Hs. rewrite H in Hs.
  by apply map_to_list_empty_iff.
Qed.

Lemma oldest_Some (m : gmap N Key) t k : oldest m = Some (t, k) ->
  m !! t = Some k /\ forall t' k', m !! t' = Some k' -> t <= t'.
Proof.
  unfold oldest. intros H. pose proof (oldest_list (map_to_list m)) as Hs. rewrite H in Hs.
  destruct Hs as [Hin Hmin]. split; [by apply elem_of_map_to_list|].
  intros t' k' Hk'. by apply (Hmin (t', k')), elem_of_map_to_list.
Qed.

(** ** remove_key *)

Lemma map_remove_key key s : map (remove_key key s) = delete key (map s).
Proof.
  unfold remove_key. destruct (map s !! key) eqn:E; [done|]. by rewrite delete_id.
Qed.

Lemma remove_key_rest key s :
  max_total (remove_key key s) = max_total s /\ tick (remove_key key s) = tick s /\
  hits (remove_key key s) = hits s /\ misses (remove_key key s) = misses s.
Proof. unfold remove_key. by destruct (map s !! key). Qed.

(** Two cached reads never share a tick. *)
Lemma tick_inj s k1 k2 e1 e2 : ticks_ok s ->
  map s !! k1 = Some e1 -> map s !! k2 = Some e2 -> e_tick e1 = e_tick e2 -> k1 = k2.
Proof.
  intros Hok H1%(tk_entry _ Hok) H2%(tk_entry _ Hok) Heq. rewrite Heq in H1. congruence.
Qed.

Lemma remove_key_ticks key s : ticks_ok s -> ticks_ok (remove_key key s).
Proof.
  intros Hok. unfold remove_key. destruct (map s !! key) as [e|] eqn:He; [|done]. split; simpl.
  - intros k e' [Hne Hk]%lookup_delete_Some. rewrite lookup_delete_ne.
    + by apply (tk_entry _ Hok).
    + intros Heq. apply Hne. by eapply tick_inj.
  - intros t k [Hne Ht]%lookup_delete_Some. destruct (tk_tick _ Hok t k Ht) as (e' & Hk & Het).
    exists e'. split; [|done]. rewrite lookup_delete_ne; [done|]. intros <-. congruence.
  - intros k e' [_ Hk]%lookup_delete_Some. by apply (tk_bound _ Hok k).
  - rewrite (tk_total _ Hok), (sum_bytes_delete _ _ _ He). lia.
  - intros k e' [_ Hk]%lookup_delete_Some. by apply (tk_cost _ Hok k).
Qed.

Lemma unlist_key_lookup key (m : gmap string (list RangeKey)) p :
  unlist_key key m !! p =
  if decide (p = key.1) then
    l ← m !! p; match filter (fun r => r <> key.2) l with [] => None | l' => Some l' end
  else m !! p.
Proof.
  unfold unlist_key. case_decide as Hp.
  - subst p. destruct (m !! key.1) as [l|] eqn:E; simpl; [|done].
    destruct (filter _ l) as [|r l']; [apply lookup_delete_eq|apply lookup_insert_eq].
  - destruct (m !! key.1) as [l|]; [|done].
    destruct (filter _ l); [by rewrite lookup_delete_ne|by rewrite lookup_insert_ne].
Qed.

Lemma remove_key_paths key s : paths_ok s -> paths_ok (remove_key key s).
Proof.
  intros Hok p. rewrite map_remove_key. unfold remove_key.
  destruct (map s !! key) as [e|] eqn:He; [|rewrite delete_id by done; apply Hok].
  simpl. destruct key as [q r0]. rewrite unlist_key_lookup. simpl. pose proof (Hok p) as Hp.
  case_decide as Hpq.
  - subst q. destruct (by_path s !! p) as [l|]; simpl; [|intros rk; apply lookup_delete_None; by right].
    destruct Hp as (Hne & Hnd & Hin).
    assert (forall rk, rk ∈ filter (fun r => r <> r0) l <-> is_Some (delete (p, r0) (map s) !! (p, rk))) as Hf.
    { intros rk. rewrite list_elem_of_filter, Hin. destruct (decide (rk = r0)) as [->|Hr].
      - rewrite lookup_delete_eq. split; [by intros []|by intros [? ?]].
      - rewrite lookup_delete_ne by congruence. tauto. }
    destruct (filter (fun r => r <> r0) l) as [|r l'] eqn:El.
    + intros rk. apply eq_None_not_Some. intros Hs%Hf. by apply not_elem_of_nil in Hs.
    + split_and!; [done| |done]. rewrite <-El. by apply NoDup_filter.
  - destruct (by_path s !! p) as [l|].
    + destruct Hp as (Hne & Hnd & Hin). split_and!; [done..|]. intros rk.
      rewrite lookup_delete_ne by congruence. apply Hin.
    + intros rk. rewrite lookup_delete_ne by congruence. apply Hp.
Qed.

(** ** place *)

Section Place.
  Context (path : string) (rk : RangeKey) (data : bytes) (meta : Meta) (attributes : Attrs) (range : N * N).
  Context (nbytes : N) (Hnb : nbytes = N.max (N.of_nat (length data)) ENTRY_OVERHEAD).

Definition placed_entry s : Entry Meta Attrs :=
  {| e_bytes := data; e_meta := meta; e_attributes := attributes; e_range := range;
     e_tick := tick s + 1; e_nbytes := nbytes |}.

Let place_ s := place path rk data meta attributes range nbytes s.

Lemma map_place s : map (place_ s) = <[(path, rk) := placed_entry s]> (map s).
Proof using.
  unfold place_, place, placed_entry. simpl. rewrite map_remove_key, insert_delete_eq.
  by destruct (remove_key_rest (path, rk) s) as (_ & -> & _).
Qed.

Lemma place_ticks s : ticks_ok s -> ticks_ok (place_ s).
Proof using Hnb.
  intros Hok%(remove_key_ticks (path, rk)). pose proof (map_remove_key (path, rk) s) as Hm.
  unfold place_, place. set (s1 := remove_key (path, rk) s) in *.
  assert (map s1 !! (path, rk) = None) as Hnone by (rewrite Hm; apply lookup_delete_eq).
  split; simpl.
  - intros k e [[<- <-]|[Hne Hk]]%lookup_insert_Some; simpl; [apply lookup_insert_eq|].
    rewrite lookup_insert_ne; [by apply (tk_entry _ Hok)|].
    pose proof (tk_bound _ Hok k e Hk). lia.
  - intros t k [[<- <-]|[Hne Ht]]%lookup_insert_Some; [eexists; split; [apply lookup_insert_eq|done]|].
    destruct (tk_tick _ Hok t k Ht) as (e & Hk & He). exists e. split; [|done].
    rewrite lookup_insert_ne; [done|]. intros <-. congruence.
  - intros k e [[<- <-]|[Hne Hk]]%lookup_insert_Some; simpl; [lia|].
    pose proof (tk_bound _ Hok k e Hk). lia.
  - rewrite sum_bytes_insert by done. simpl. rewrite (tk_total _ Hok). lia.
  - intros k e [[<- <-]|[Hne Hk]]%lookup_insert_Some; simpl; [done|]. by apply (tk_cost _ Hok k).
Qed.

Lemma place_paths s : paths_ok s -> paths_ok (place_ s).
Proof using.
  intros Hok%(remove_key_paths (path, rk)) p. pose proof (map_remove_key (path, rk) s) as Hm.
  unfold place_, place. simpl. set (s1 := remove_key (path, rk) s) in *.
  assert (map s1 !! (path, rk) = None) as Hnone by (rewrite Hm; apply lookup_delete_eq).
  pose proof (Hok p) as Hp. unfold push_key. destruct (decide (path = p)) as [<-|Hne].
  - rewrite lookup_insert_eq. destruct (by_path s1 !! path) as [l|]; simpl.
    + destruct Hp as (Hl & Hnd & Hin). split_and!.
      * by destruct l.
      * apply NoDup_app. split_and!; [done| |apply NoDup_singleton].
        intros r Hr ->%list_elem_of_singleton. apply Hin in Hr. rewrite Hnone in Hr. by destruct Hr.
      * intros r. rewrite elem_of_app, list_elem_of_singleton, Hin, lookup_insert. case_decide as Hr.
        -- injection Hr as <-. split; [by eexists|by right].
        -- split; [intros [?| ->]; done|by left].
    + split_and!; [done|apply NoDup_singleton|]. intros r. rewrite list_elem_of_singleton, lookup_insert.
      case_decide as Hr; [injection Hr as <-; split; [by eexists|done]|].
      split; [by intros ->|]. rewrite Hp. by intros [].
  - rewrite lookup_insert_ne by done. destruct (by_path s1 !! p) as [l|].
    + destruct Hp as (Hl & Hnd & Hin). split_and!; [done..|]. intros r.
      rewrite lookup_insert_ne by congruence. apply Hin.
    + intros r. rewrite lookup_insert_ne by congruence. apply Hp.
Qed.
End Place.

(** ** The eviction loop *)

(** The entries that went are older than the entries that stayed. *)
Definition evicts_oldest s s' : Prop :=
  map s' ⊆ map s /\
  forall k e k' e', map s !! k = Some e -> map s' !! k = None -> map s' !! k' = Some e' -> e_tick e < e_tick e'.

(** What the loop leaves unchanged. *)
Definition same_rest s s' : Prop :=
  max_total s' = max_total s /\ tick s' = tick s /\ hits s' = hits s /\ misses s' = misses s.

Lemma evict_loop_spec fuel s k0 e0 :
  ticks_ok s -> paths_ok s -> (size (by_tick s) <= fuel)%nat ->
  map s !! k0 = Some e0 -> (forall k e, map s !! k = Some e -> e_tick e <= e_tick e0) -> e_nbytes e0 <= max_total s ->
  exists s', evict_loop fuel s = Ret s' /\ lru_ok s' /\ evicts_oldest s s' /\ map s' !! k0 = Some e0 /\ same_rest s s'.
Proof.
  revert s. induction fuel as [|fuel IH]; intros s Htk Hpa Hsize Hk0 Hmax Hfit; simpl.
  - assert (by_tick s = ∅) as Hemp by (apply map_size_empty_iff; lia).
    apply (tk_entry _ Htk) in Hk0. rewrite Hemp in Hk0. done.
  - case_decide as Hbud.
    { exists s. split_and!; [done|by split|split|done|done]; [done|]. intros k e k' e' Hk Hk'. congruence. }
    destruct (oldest (by_tick s)) as [[t v]|] eqn:Hold.
    2:{ apply oldest_None in Hold. apply (tk_entry _ Htk) in Hk0. by rewrite Hold in Hk0. }
    destruct (oldest_Some _ _ _ Hold) as [Hv Hmin]. destruct (tk_tick _ Htk _ _ Hv) as (ev & Hev & <-).
    assert (v <> k0) as Hne.
    { intros ->. rewrite Hk0 in Hev. injection Hev as <-. apply Hbud.
      rewrite (tk_total _ Htk), (sum_bytes_delete _ _ _ Hk0).
      assert (delete k0 (map s) = ∅) as ->; [|unfold sum_bytes; rewrite map_fold_empty; lia].
      apply map_empty. intros k. destruct (delete k0 (map s) !! k) as [e|] eqn:E; [|done].
      apply lookup_delete_Some in E as [Hk E]. exfalso. apply Hk.
      apply (tick_inj s k0 k e0 e Htk Hk0 E).
      pose proof (Hmin _ _ (tk_entry _ Htk _ _ E)). pose proof (Hmax _ _ E). lia. }
    destruct (remove_key_rest v s) as (Hr1 & Hr2 & Hr3 & Hr4).
    destruct (IH (remove_key v s)) as (s' & Hloop & Hok & [Hsub Hord] & Hk0' & Hs1 & Hs2 & Hs3 & Hs4).
    + by apply remove_key_ticks.
    + by apply remove_key_paths.
    + unfold remove_key. rewrite Hev. simpl. rewrite map_size_delete_Some by (by eexists). lia.
    + rewrite map_remove_key, lookup_delete_ne by done. done.
    + intros k e. rewrite map_remove_key. intros [_ Hk]%lookup_delete_Some. by apply (Hmax k).
    + by rewrite Hr1.
    + rewrite map_remove_key in Hsub, Hord.
      exists s'. split_and!; [done..|split| |split_and!; congruence].
      * etrans; [exact Hsub|apply delete_subseteq].
      * intros k e k' e' Hk Hk' Hke'. destruct (decide (v = k)) as [->|Hvk].
        -- rewrite Hk in Hev. injection Hev as ->.
           pose proof (lookup_weaken _ _ _ _ Hke' Hsub) as [Hne' Hin]%lookup_delete_Some.
           pose proof (Hmin _ _ (tk_entry _ Htk _ _ Hin)) as Hle.
           assert (e_tick ev <> e_tick e') as Hd; [|lia].
           intros Heq. apply Hne'. by apply (tick_inj s k k' ev e').
        -- apply (Hord k e k' e'); [by rewrite lookup_delete_ne|done|done].
      * done.
Qed.

(** [insert] returns; the entry is present unless it alone exceeds the budget,
    the others are those before, less an initial segment of the recency order. *)
Lemma insert_spec path rk data meta attributes range s : lru_ok s ->
  let nbytes := N.max (N.of_nat (length data)) ENTRY_OVERHEAD in
  exists s', insert path rk data meta attributes range s = Ret s' /\ lru_ok s' /\
    max_total s' = max_total s /\ hits s' = hits s /\ misses s' = misses s /\
    if decide (max_total s < nbytes) then s' = s
    else
      let s1 := place path rk data meta attributes range nbytes s in
      evicts_oldest s1 s' /\
      map s' !! (path, rk) = Some (placed_entry data meta attributes range nbytes s).
Proof.
  intros [Htk Hpa Hbud] nbytes. unfold insert. fold nbytes.
  destruct (decide (max_total s < nbytes)) as [Hbig|Hfit]; [by exists s|].
  set (s1 := place path rk data meta attributes range nbytes s).
  assert (map s1 !! (path, rk) = Some (placed_entry data meta attributes range nbytes s)) as Hk0
    by (unfold s1; rewrite map_place; apply lookup_insert_eq).
  destruct (remove_key_rest (path, rk) s) as (Hr1 & Hr2 & Hr3 & Hr4).
  destruct (evict_loop_spec (size (by_tick s1)) s1 (path, rk) (placed_entry data meta attributes range nbytes s))
    as (s' & Hloop & Hok & Hev & Hin & Hs1 & Hs2 & Hs3 & Hs4).
  - by apply place_ticks.
  - by apply place_paths.
  - done.
  - exact Hk0.
  - intros k e Hk. unfold s1 in Hk. rewrite map_place in Hk.
    apply lookup_insert_Some in Hk as [[_ <-]|[_ Hk]]; [done|]. simpl.
    pose proof (tk_bound _ Htk k e Hk). lia.
  - simpl. rewrite Hr1. lia.
  - exists s'. split_and!; [done|done| | | |done|done]; [rewrite Hs1|rewrite Hs3|rewrite Hs4]; done.
Qed.

(** ** get *)

Lemma get_spec path rk s : lru_ok s ->
  let '(r, s') := get path rk s in
  lru_ok s' /\ max_total s' = max_total s /\
  match map s !! (path, rk) with
  | None => r = None /\ map s' = map s /\ misses s' = misses s + 1 /\ hits s' = hits s
  | Some e =>
      r = Some (with_tick e (tick s + 1)) /\ map s' = <[(path, rk) := with_tick e (tick s + 1)]> (map s) /\
      hits s' = hits s + 1 /\ misses s' = misses s
  end.
Proof.
  intros [Htk Hpa Hbud]. unfold get. destruct (map s !! (path, rk)) as [e|] eqn:He.
  2:{ split_and!; try done. split; [|done|done]. destruct Htk. by split. }
  split_and!; try done. split; simpl; [|intros p; specialize (Hpa p); simpl|done].
  - split; simpl.
    + intros k e' [[<- <-]|[Hne Hk]]%lookup_insert_Some; simpl; [apply lookup_insert_eq|].
      rewrite lookup_insert_ne by (pose proof (tk_bound _ Htk k e' Hk); lia).
      rewrite lookup_delete_ne; [by apply (tk_entry _ Htk)|].
      intros Heq. apply Hne. by apply (tick_inj s (path, rk) k e e').
    + intros t k [[<- <-]|[Hne [Hd Ht]%lookup_delete_Some]]%lookup_insert_Some.
      * eexists. split; [apply lookup_insert_eq|done].
      * destruct (tk_tick _ Htk t k Ht) as (e' & Hk & Het). exists e'. split; [|done].
        rewrite lookup_insert_ne; [done|]. intros <-. rewrite He in Hk. by simplify_eq.
    + intros k e' [[<- <-]|[Hne Hk]]%lookup_insert_Some; simpl; [lia|].
      pose proof (tk_bound _ Htk k e' Hk). lia.
    + rewrite (tk_total _ Htk), (sum_bytes_delete _ _ _ He).
      rewrite <-(insert_delete_eq (map s) (path, rk)), sum_bytes_insert by apply lookup_delete_eq. done.
    + intros k e' [[<- <-]|[Hne Hk]]%lookup_insert_Some; simpl; [by apply (tk_cost _ Htk (path, rk))|].
      by apply (tk_cost _ Htk k).
  - assert (forall r, is_Some (<[(path, rk):=with_tick e (tick s + 1)]> (map s) !! (p, r)) <-> is_Some (map s !! (p, r))) as Hsome.
    { intros r. rewrite lookup_insert. case_decide as Hr; [|done]. rewrite <-Hr, He. split; by eexists. }
    destruct (by_path s !! p) as [l|].
    + destruct Hpa as (? & ? & Hin). split_and!; [done..|]. intros r. by rewrite Hsome.
    + intros r. apply eq_None_not_Some. rewrite Hsome, Hpa. by intros [].
Qed.

(** ** evict_path *)

Lemma evict_fold path rks s :
  ticks_ok s -> NoDup rks ->
  let s' := foldl (evict_one path) s rks in
  ticks_ok s' /\ by_path s' = by_path s /\ max_total s' = max_total s /\ total_bytes s' <= total_bytes s /\
  hits s' = hits s /\ misses s' = misses s /\
  forall k, map s' !! k = if decide (k.1 = path /\ k.2 ∈ rks) then None else map s !! k.
Proof.
  revert s. induction rks as [|rk rks IH]; intros s Htk Hnd; simpl.
  - split_and!; try done. intros k. rewrite decide_False; [done|]. by intros [_ ?%not_elem_of_nil].
  - apply NoDup_cons in Hnd as [Hnin Hnd].
    assert (ticks_ok (evict_one path s rk) /\ by_path (evict_one path s rk) = by_path s /\
            max_total (evict_one path s rk) = max_total s /\ total_bytes (evict_one path s rk) <= total_bytes s /\
            hits (evict_one path s rk) = hits s /\ misses (evict_one path s rk) = misses s /\
            map (evict_one path s rk) = delete (path, rk) (map s)) as (H1 & H2 & H3 & H4 & H5 & H6 & Hm).
    { pose proof (remove_key_ticks (path, rk) s Htk) as Hr. unfold remove_key in Hr. unfold evict_one.
      destruct (map s !! (path, rk)) as [e|] eqn:He; [|split_and!; try done; by rewrite delete_id].
      split_and!; try done; [destruct Hr; by split|simpl; lia]. }
    destruct (IH _ H1 Hnd) as (G1 & G2 & G3 & G4 & G5 & G6 & G7).
    split_and!; try congruence; try done; [lia|]. intros k. rewrite G7, Hm.
    destruct (decide (k = (path, rk))) as [->|Hne].
    + rewrite lookup_delete_eq. simpl. rewrite (decide_True (P:=path = path /\ rk ∈ rk :: rks)) by (split; [done|left]).
      by case_decide.
    + rewrite lookup_delete_ne by done. destruct k as [p r]. simpl.
      destruct (decide (p = path /\ r ∈ rks)) as [[-> Hr]|Hn].
      * rewrite decide_True by (split; [done|by right]). done.
      * rewrite decide_False; [done|]. intros [-> [->|Hr]%elem_of_cons]; [by apply Hne|by apply Hn].
Qed.

(** Every cached read of the path goes, every other stays. *)
Lemma evict_path_spec path s : lru_ok s ->
  let s' := evict_path path s in
  lru_ok s' /\ max_total s' = max_total s /\ hits s' = hits s /\ misses s' = misses s /\
  forall k, map s' !! k = if decide (k.1 = path) then None else map s !! k.
Proof.
  intros [Htk Hpa Hbud]. unfold evict_path. destruct (by_path s !! path) as [rks|] eqn:Hp.
  2:{ split_and!; try done. intros [p r]. simpl. case_decide as Hpp; [|done]. subst p.
      specialize (Hpa path). rewrite Hp in Hpa. apply Hpa. }
  pose proof (Hpa path) as Hpath. rewrite Hp in Hpath. destruct Hpath as (Hne & Hnd & Hin).
  set (s0 := Build_Lru _ _ _ _ _ _ _ _).
  assert (ticks_ok s0) as Htk0 by (destruct Htk; by split).
  destruct (evict_fold path rks s0 Htk0 Hnd) as (G1 & G2 & G3 & G4 & G5 & G6 & G7).
  assert (forall k, map (foldl (evict_one path) s0 rks) !! k = if decide (k.1 = path) then None else map s !! k) as Hmap.
  { intros [p r]. rewrite G7. simpl. case_decide as Hd.
    - destruct Hd as [-> _]. by rewrite decide_True.
    - case_decide as Hpp; [|done]. subst p. apply eq_None_not_Some. intros Hs%Hin. by apply Hd. }
  split_and!; try done.
  split; [done| |rewrite G3; simpl in *; lia].
  intros p. rewrite G2. simpl. destruct (decide (path = p)) as [<-|Hpp].
  - rewrite lookup_delete_eq. intros r. rewrite Hmap. simpl. by rewrite decide_True.
  - rewrite lookup_delete_ne by done. specialize (Hpa p).
    assert (forall r, map (foldl (evict_one path) s0 rks) !! (p, r) = map s !! (p, r)) as Hr
      by (intros r; rewrite Hmap; simpl; by rewrite decide_False).
    destruct (by_path s !! p) as [l|].
    + destruct Hpa as (? & ? & Hl). split_and!; [done..|]. intros r. by rewrite Hr.
    + intros r. by rewrite Hr.
Qed.

Lemma lru_new_ok n : lru_ok (lru_new n : Lru Meta Attrs).
Proof. split; [by split|intros p; simpl; rewrite lookup_empty; intros r; apply lookup_empty|simpl; lia]. Qed.
End Spec.
