(* ===== verification/CachingStore.v ===== *)
(** * The caching object store ([pensieve-storage/src/cache.rs])

    [CachingObjectStore] over any inner store.  [get_opts] and [head] hold the
    lock of the LRU only for the lookup and for the admission, not across the
    inner read, so the two phases are separate definitions and the method is
    their composition. *)

From stdpp Require Import base gmap strings list.
From Stdlib Require Import NArith Lia.
From S2P Require Import Prelude Bytes Lru.

Local Open Scope N_scope.

(** ** The inner store ([object_store]) *)

Inductive GetRange :=
  | GBounded (a b : N)
  | GOffset (n : N)
  | GSuffix (n : N).

(** The conditions of a get: only their presence matters to the cache. *)
Record GetOptions := {
  if_match : option string; if_none_match : option string; if_modified_since : option N;
  if_unmodified_since : option N; version : option string; opt_head : bool; range : option GetRange }.

(** [PutOptions]: the mode decides whether an existing object is replaced. *)
Inductive PutMode :=
  | Overwrite
  | Create
  | Update (e_tag version : option string).

Section Store.
  Context {Meta Attrs : Type}.

(** A response whose body has not been read: [None] when streaming it fails. *)
Record GetResult := { gr_body : option bytes; gr_meta : Meta; gr_range : N * N; gr_attributes : Attrs }.

Record Object := { o_bytes : bytes; o_meta : Meta; o_attributes : Attrs }.

(** The methods the wrapper calls.  A [None] is an [Err]. *)
Class InnerStore (St : Type) := {
  in_put_opts : string -> bytes -> PutMode -> St -> option unit * St;
  in_get_opts : string -> GetOptions -> St -> option GetResult * St;
  in_head : string -> St -> option Meta * St;
  in_delete : string -> St -> option unit * St;
  in_copy : string -> string -> St -> option unit * St;
  in_copy_if_not_exists : string -> string -> St -> option unit * St;
  default_attributes : Attrs }.

(** The contract of an object store, in terms of its contents: reads do not
    change them, a successful plain read returns the object of the path, a
    write or delete changes at most its destination, and a failed put or copy
    changes nothing. *)
Class InnerLaws (St : Type) `{InnerStore St} := {
  contents : St -> string -> option Object;
  (** the bytes and range of an object for a requested range *)
  read_object : Object -> option GetRange -> option (bytes * (N * N));
  get_contents st p o : contents (in_get_opts p o st).2 = contents st;
  get_result st p r body :
    (in_get_opts p {| if_match := None; if_none_match := None; if_modified_since := None; if_unmodified_since := None;
                      version := None; opt_head := false; range := r |} st).1 = Some body ->
    exists o, contents st p = Some o /\ gr_meta body = o_meta o /\ gr_attributes body = o_attributes o /\
      forall data, gr_body body = Some data -> read_object o r = Some (data, gr_range body);
  head_contents st p : contents (in_head p st).2 = contents st;
  head_result st p m : (in_head p st).1 = Some m -> exists o, contents st p = Some o /\ m = o_meta o;
  put_contents st p data mode q : q <> p -> contents (in_put_opts p data mode st).2 q = contents st q;
  put_failed st p data mode : (in_put_opts p data mode st).1 = None -> contents (in_put_opts p data mode st).2 = contents st;
  delete_contents st p q : q <> p -> contents (in_delete p st).2 q = contents st q;
  copy_contents st p q r : r <> q -> contents (in_copy p q st).2 r = contents st r;
  copy_failed st p q : (in_copy p q st).1 = None -> contents (in_copy p q st).2 = contents st;
  copy_ne_contents st p q r : r <> q -> contents (in_copy_if_not_exists p q st).2 r = contents st r;
  copy_ne_failed st p q : (in_copy_if_not_exists p q st).1 = None ->
    contents (in_copy_if_not_exists p q st).2 = contents st }.

(** ** The wrapper *)

Record CachingObjectStore (St : Type) := { inner : St; lru : Lru Meta Attrs; max_object : N }.
Arguments inner {St}.
Arguments lru {St}.
Arguments max_object {St}.

Definition new_cache {St} (inner : St) (max_total max_object : N) : CachingObjectStore St :=
  {| inner := inner; lru := lru_new (N.max max_total 1); max_object := N.min max_object (N.max max_total 1) |}.

(** [PENSIEVE_CACHE_MEM_MB] and [PENSIEVE_CACHE_MAX_OBJECT_KB], parsed. *)
Definition usize_MAX : N := 2 ^ 64 - 1.
Definition saturating_mul (a b : N) : N := N.min (a * b) usize_MAX.

Definition maybe_wrap {St} (mem_mb max_object_kb : option N) (inner : St) : St + CachingObjectStore St :=
  let mb := default 0 mem_mb in
  if decide (mb = 0) then inl inner
  else
    let max_total := N.max (saturating_mul mb (1024 * 1024)) 1 in
    let max_object := N.max (saturating_mul (default 4096 max_object_kb) 1024) 1 in
    inr (new_cache inner max_total max_object).

Definition stats {St} (s : CachingObjectStore St) : N * N * N :=
  (hits (lru s), misses (lru s), total_bytes (lru s)).

Definition range_key (r : option GetRange) : option RangeKey :=
  match r with
  | None => Some Full
  | Some (GBounded a b) => Some (Bounded a b)
  | Some (GOffset _) | Some (GSuffix _) => None
  end.

Definition cacheable (o : GetOptions) : bool :=
  bool_decide (if_match o = None) && bool_decide (if_none_match o = None) &&
  bool_decide (if_modified_since o = None) && bool_decide (if_unmodified_since o = None) &&
  bool_decide (version o = None) && negb (opt_head o).

Definition get_result_from (e : Entry Meta Attrs) : GetResult :=
  {| gr_body := Some (e_bytes e); gr_meta := e_meta e; gr_range := e_range e; gr_attributes := e_attributes e |}.

Definition request_key (o : GetOptions) : option RangeKey := if cacheable o then range_key (range o) else None.

(** The critical sections on the LRU. *)
Definition lookup_phase (p : string) (rk : RangeKey) (l : Lru Meta Attrs) : option (Entry Meta Attrs) * Lru Meta Attrs :=
  get p rk l.

(** After the inner read: what is returned, and what is admitted. *)
Definition admit_phase (p : string) (rkey : option RangeKey) (max_object : N) (res : GetResult) (l : Lru Meta Attrs) :
    outcome Empty_set (option GetResult * Lru Meta Attrs) :=
  match rkey with
  | None => Ret (Some res, l)
  | Some rk =>
      let len := (gr_range res).2 - (gr_range res).1 in
      if decide (max_object < len) then Ret (Some res, l)
      else match gr_body res with
           | None => Ret (None, l)
           | Some data =>
               l ← insert p rk data (gr_meta res) (gr_attributes res) (gr_range res) l;
               Ret (Some {| gr_body := Some data; gr_meta := gr_meta res; gr_range := gr_range res;
                            gr_attributes := gr_attributes res |}, l)
           end
  end.

Section Methods.
  Context {St : Type} `{InnerStore St}.

Definition with_lru (s : CachingObjectStore St) (l : Lru Meta Attrs) : CachingObjectStore St :=
  {| inner := inner s; lru := l; max_object := max_object s |}.
Definition with_inner (s : CachingObjectStore St) (i : St) : CachingObjectStore St :=
  {| inner := i; lru := lru s; max_object := max_object s |}.

Definition put_opts (p : string) (data : bytes) (mode : PutMode) (s : CachingObjectStore St) : option unit * CachingObjectStore St :=
  let '(r, i) := in_put_opts p data mode (inner s) in
  let s := with_inner s i in
  match r with
  | None => (None, s)
  | Some u => (Some u, with_lru s (evict_path p (lru s)))
  end.

Definition get_opts (p : string) (o : GetOptions) (s : CachingObjectStore St) :
    outcome Empty_set (option GetResult * CachingObjectStore St) :=
  let rkey := request_key o in
  let '(hit, l) := match rkey with Some rk => lookup_phase p rk (lru s) | None => (None, lru s) end in
  match hit with
  | Some e => Ret (Some (get_result_from e), with_lru s l)
  | None =>
      let '(res, i) := in_get_opts p o (inner s) in
      let s := with_inner (with_lru s l) i in
      match res with
      | None => Ret (None, s)
      | Some res =>
          '(r, l) ← admit_phase p rkey (max_object s) res (lru s);
          Ret (r, with_lru s l)
      end
  end.

Definition head (p : string) (s : CachingObjectStore St) : outcome Empty_set (option Meta * CachingObjectStore St) :=
  let '(hit, l) := get p Head (lru s) in
  match hit with
  | Some e => Ret (Some (e_meta e), with_lru s l)
  | None =>
      let '(r, i) := in_head p (inner s) in
      let s := with_inner (with_lru s l) i in
      match r with
      | None => Ret (None, s)
      | Some meta =>
          l ← insert p Head [] meta default_attributes (0, 0) (lru s);
          Ret (Some meta, with_lru s l)
      end
  end.

Definition delete_ (p : string) (s : CachingObjectStore St) : option unit * CachingObjectStore St :=
  let '(r, i) := in_delete p (inner s) in
  (r, with_lru (with_inner s i) (evict_path p (lru s))).

Definition copy (from to : string) (s : CachingObjectStore St) : option unit * CachingObjectStore St :=
  let '(r, i) := in_copy from to (inner s) in
  let s := with_inner s i in
  match r with
  | None => (None, s)
  | Some u => (Some u, with_lru s (evict_path to (lru s)))
  end.

Definition copy_if_not_exists (from to : string) (s : CachingObjectStore St) : option unit * CachingObjectStore St :=
  let '(r, i) := in_copy_if_not_exists from to (inner s) in
  let s := with_inner s i in
  match r with
  | None => (None, s)
  | Some u => (Some u, with_lru s (evict_path to (lru s)))
  end.
End Methods.

(** ** Coherence *)

Section Coherence.
  Context {St : Type} `{InnerLaws St}.

(** Every cached read is the read of the current object. *)
Definition entry_fresh (st : St) (k : Key) (e : Entry Meta Attrs) : Prop :=
  exists o, contents st k.1 = Some o /\ e_meta e = o_meta o /\
    match k.2 with
    | Head => True
    | Full => e_attributes e = o_attributes o /\ read_object o None = Some (e_bytes e, e_range e)
    | Bounded a b => e_attributes e = o_attributes o /\ read_object o (Some (GBounded a b)) = Some (e_bytes e, e_range e)
    end.

Record cache_ok (s : CachingObjectStore St) : Prop := {
  co_lru : lru_ok (lru s);
  co_fresh k e : map (lru s) !! k = Some e -> entry_fresh (inner s) k e }.
End Coherence.
End Store.

Arguments GetResult : clear implicits.
Arguments Object : clear implicits.
Arguments InnerStore : clear implicits.
Arguments InnerLaws Meta Attrs St {_}.
Arguments CachingObjectStore : clear implicits.
Arguments inner {Meta Attrs St}.
Arguments lru {Meta Attrs St}.
Arguments max_object {Meta Attrs St}.

(** * The cache is transparent

    Each method of the wrapper keeps every cached read equal to the read of the
    current object, and answers as the inner store would. *)

Section Spec.
  Context {Meta Attrs St : Type} {Hinner : InnerStore Meta Attrs St} {Hlaws : InnerLaws Meta Attrs St}.
  Implicit Types (s : CachingObjectStore Meta Attrs St).

Definition plain (r : option GetRange) : GetOptions :=
  {| if_match := None; if_none_match := None; if_modified_since := None; if_unmodified_since := None;
     version := None; opt_head := false; range := r |}.

Lemma cacheable_plain o : cacheable o = true -> o = plain (range o).
Proof.
  unfold cacheable. intros Hc.
  repeat match goal with H : _ && _ = true |- _ => apply andb_true_iff in H as [H ?] end.
  repeat match goal with H : bool_decide _ = true |- _ => apply bool_decide_eq_true in H end.
  destruct o as [? ? ? ? ? []]; simpl in *; unfold plain; simpl; congruence.
Qed.

Lemma request_key_Some o rk : request_key o = Some rk ->
  o = plain (range o) /\ range_key (range o) = Some rk.
Proof.
  unfold request_key. destruct (cacheable o) eqn:Hc; [|done]. intros Hr. split; [by apply cacheable_plain|done].
Qed.

(** What a fresh entry under a request key says. *)
Lemma entry_fresh_range st p rk r e : range_key r = Some rk -> entry_fresh st (p, rk) e <->
  exists o, contents st p = Some o /\ e_meta e = o_meta o /\ e_attributes e = o_attributes o /\
    read_object o r = Some (e_bytes e, e_range e).
Proof. unfold entry_fresh. destruct r as [[]|]; simpl; intros [= <-]; done. Qed.

(** Only the object of the path matters, and neither tick nor size do. *)
Lemma entry_fresh_contents st st' k e : contents st' k.1 = contents st k.1 -> entry_fresh st k e -> entry_fresh st' k e.
Proof. unfold entry_fresh. by intros ->. Qed.

Lemma entry_fresh_tick st k e t : entry_fresh st k e -> entry_fresh st k (with_tick e t).
Proof. done. Qed.

(** ** The critical sections *)

(** The map of an LRU that holds only entries satisfying [P]. *)
Definition all_entries (P : Key -> Entry Meta Attrs -> Prop) (l : Lru Meta Attrs) : Prop :=
  forall k e, map l !! k = Some e -> P k e.

Lemma get_entries (P : Key -> Entry Meta Attrs -> Prop) p rk l :
  (forall k e t, P k e -> P k (with_tick e t)) -> lru_ok l -> all_entries P l ->
  lru_ok (get p rk l).2 /\ all_entries P (get p rk l).2 /\ forall e, (get p rk l).1 = Some e -> P (p, rk) e.
Proof.
  intros Htick Hok Hall. pose proof (get_spec p rk l Hok) as Hg. destruct (get p rk l) as [r l'].
  destruct Hg as (Hok' & _ & Hm). split; [done|]. destruct (map l !! (p, rk)) as [e|] eqn:He; simpl.
  - destruct Hm as (-> & Hm & _). split; [|intros e' [= <-]; by apply Htick, Hall].
    intros k e'. rewrite Hm. intros [[<- <-]|[_ Hk]]%lookup_insert_Some; [by apply Htick, Hall|by apply Hall].
  - destruct Hm as (-> & Hm & _). split; [|done]. intros k e'. rewrite Hm. apply Hall.
Qed.

Lemma insert_entries (P : Key -> Entry Meta Attrs -> Prop) p rk data meta attributes range_ l :
  lru_ok l -> all_entries P l ->
  (forall t n, P (p, rk) {| e_bytes := data; e_meta := meta; e_attributes := attributes; e_range := range_; e_tick := t; e_nbytes := n |}) ->
  exists l', insert p rk data meta attributes range_ l = Ret l' /\ lru_ok l' /\ all_entries P l'.
Proof.
  intros Hok Hall Hnew. destruct (insert_spec p rk data meta attributes range_ l Hok) as (l' & Hi & Hok' & _ & _ & _ & Hd).
  exists l'. split_and!; [done..|]. case_decide as Hbig; [by subst l'|].
  destruct Hd as [[Hsub _] _]. intros k e Hk. pose proof (lookup_weaken _ _ _ _ Hk Hsub) as Hk'.
  rewrite map_place in Hk'. apply lookup_insert_Some in Hk' as [[<- <-]|[_ Hk']]; [apply Hnew|by apply Hall].
Qed.

Lemma evict_entries (P : Key -> Entry Meta Attrs -> Prop) p l :
  lru_ok l -> (forall k e, map l !! k = Some e -> k.1 <> p -> P k e) ->
  lru_ok (evict_path p l) /\ all_entries P (evict_path p l).
Proof.
  intros Hok Hall. destruct (evict_path_spec p l Hok) as (Hok' & _ & _ & _ & Hm). split; [done|].
  intros k e. rewrite Hm. case_decide as Hk; [done|]. intros He. by apply Hall.
Qed.

(** A response to a plain read agrees with an object. *)
Definition response_of (o : Object Meta Attrs) (r : option GetRange) (res : GetResult Meta Attrs) : Prop :=
  gr_meta res = o_meta o /\ gr_attributes res = o_attributes o /\
  forall data, gr_body res = Some data -> read_object o r = Some (data, gr_range res).

Definition answers (st : St) (p : string) (o : GetOptions) (res : GetResult Meta Attrs) : Prop :=
  forall rk, request_key o = Some rk -> exists obj, contents st p = Some obj /\ response_of obj (range o) res.

(** Admission of a response that agrees with the object of [st]. *)
Lemma admit_entries (P : Key -> Entry Meta Attrs -> Prop) st p o res mx l :
  lru_ok l -> all_entries P l -> answers st p o res ->
  (forall rk e, entry_fresh st (p, rk) e -> P (p, rk) e) ->
  exists r l', admit_phase p (request_key o) mx res l = Ret (r, l') /\ lru_ok l' /\ all_entries P l' /\
    forall res', r = Some res' -> answers st p o res'.
Proof.
  intros Hok Hall Hans Hp. unfold admit_phase. destruct (request_key o) as [rk|] eqn:Hrk.
  2:{ exists (Some res), l. split_and!; try done. by intros res' [= <-]. }
  destruct (decide (mx < _)) as [Hbig|Hfit]; [exists (Some res), l; split_and!; try done; by intros res' [= <-]|].
  destruct (Hans rk Hrk) as (obj & Hobj & Hmeta & Hattr & Hread). destruct (request_key_Some _ _ Hrk) as [_ Hr].
  destruct (gr_body res) as [data|] eqn:Hbody; [|by exists None, l].
  destruct (insert_entries P p rk data (gr_meta res) (gr_attributes res) (gr_range res) l Hok Hall) as (l' & -> & Hok' & Hall').
  { intros t n. apply Hp. apply (entry_fresh_range _ _ _ (range o) _ Hr). exists obj. split_and!; try done. by apply Hread. }
  eexists _, l'. split; [reflexivity|]. split_and!; [done..|]. intros res' [= <-] rk' Hrk'.
  exists obj. split; [done|]. split_and!; simpl; [done..|]. intros d [= <-]. by apply Hread.
Qed.

(** ** The methods *)

Lemma get_opts_spec p o s : cache_ok s ->
  exists r s', get_opts p o s = Ret (r, s') /\ cache_ok s' /\ contents (inner s') = contents (inner s) /\
    forall res, r = Some res -> answers (inner s) p o res.
Proof.
  intros [Hlru Hfresh]. unfold get_opts.
  set (P := entry_fresh (inner s)).
  assert (exists hit l, match request_key o with Some rk => lookup_phase p rk (lru s) | None => (None, lru s) end = (hit, l) /\
    lru_ok l /\ all_entries P l /\ forall e, hit = Some e -> answers (inner s) p o (get_result_from e))
    as (hit & l & -> & Hl & Hall & Hhit).
  { destruct (request_key o) as [rk|] eqn:Hrk; [|by eexists _, _].
    unfold lookup_phase. destruct (get_entries P p rk (lru s) (entry_fresh_tick (inner s)) Hlru Hfresh) as (H1 & H2 & H3).
    destruct (get p rk (lru s)) as [hit l]. exists hit, l. split_and!; try done.
    intros e He rk' Hrk'. apply H3 in He. destruct (request_key_Some _ _ Hrk) as [_ Hr].
    apply (entry_fresh_range _ _ _ (range o) _ Hr) in He as (obj & Ho & Hm & Ha & Hb).
    exists obj. split; [done|]. split_and!; simpl; [done..|]. by intros data [= <-]. }
  destruct hit as [e|].
  { eexists _, _. split; [reflexivity|]. split_and!; [by split|done|]. intros res [= <-]. by apply Hhit. }
  pose proof (get_contents (inner s) p o) as Hc.
  assert (forall res, (in_get_opts p o (inner s)).1 = Some res -> answers (inner s) p o res) as Hans.
  { intros res Hres rk Hrk. destruct (request_key_Some _ _ Hrk) as [Ho _]. rewrite Ho in Hres.
    destruct (get_result _ _ _ _ Hres) as (obj & H1 & H2 & H3 & H4). by exists obj. }
  destruct (in_get_opts p o (inner s)) as [res i]. simpl in Hc, Hans.
  assert (all_entries (entry_fresh i) l) as Hall'.
  { intros k e He. apply (entry_fresh_contents (inner s)); [by rewrite Hc|by apply Hall]. }
  destruct res as [res|]; [|eexists _, _; split; [reflexivity|]; by split_and!].
  destruct (admit_entries (entry_fresh i) (inner s) p o res (max_object s) l Hl Hall' (Hans _ eq_refl))
    as (r & l' & Hadm & Hl' & Hall'' & Hr).
  { intros rk e He. apply (entry_fresh_contents (inner s)); [by rewrite Hc|done]. }
  simpl. rewrite Hadm. eexists _, _. split; [reflexivity|]. by split_and!.
Qed.

Lemma head_spec p s : cache_ok s ->
  exists r s', head p s = Ret (r, s') /\ cache_ok s' /\ contents (inner s') = contents (inner s) /\
    forall m, r = Some m -> exists o, contents (inner s) p = Some o /\ m = o_meta o.
Proof.
  intros [Hlru Hfresh]. unfold head.
  destruct (get_entries (entry_fresh (inner s)) p Head (lru s) (entry_fresh_tick (inner s)) Hlru Hfresh) as (H1 & H2 & H3).
  destruct (get p Head (lru s)) as [hit l]. simpl in *. destruct hit as [e|].
  { destruct (H3 e eq_refl) as (o & Ho & Hm & _). eexists _, _. split; [reflexivity|].
    split_and!; [by split|done|]. intros m [= <-]. by exists o. }
  pose proof (head_contents (inner s) p) as Hc. pose proof (head_result (inner s) p) as Hres.
  destruct (in_head p (inner s)) as [r i]. simpl in Hc, Hres.
  assert (all_entries (entry_fresh i) l) as Hall'.
  { intros k e He. apply (entry_fresh_contents (inner s)); [by rewrite Hc|by apply H2]. }
  destruct r as [m|]; [|eexists _, _; split; [reflexivity|]; by split_and!].
  destruct (Hres m eq_refl) as (o & Ho & Hm).
  destruct (insert_entries (entry_fresh i) p Head [] m default_attributes (0, 0) l H1 Hall') as (l' & Hi & Hl' & Hall'').
  { intros t n. exists o. rewrite Hc. by split_and!. }
  simpl. rewrite Hi. eexists _, _. split; [reflexivity|]. split_and!; [by split|done|].
  intros m' [= <-]. by exists o.
Qed.

(** A write that may change one path, followed by the eviction of the path. *)
Lemma evict_after i p s : cache_ok s -> (forall q, q <> p -> contents i q = contents (inner s) q) ->
  cache_ok (with_lru (with_inner s i) (evict_path p (lru s))).
Proof.
  intros [Hlru Hfresh] Hq.
  destruct (evict_entries (entry_fresh i) p (lru s) Hlru) as [H1 H2].
  { intros k e He Hk. apply (entry_fresh_contents (inner s)); [by apply Hq|by apply Hfresh]. }
  by split.
Qed.

Lemma keep_inner i s : cache_ok s -> contents i = contents (inner s) -> cache_ok (with_inner s i).
Proof.
  intros [Hlru Hfresh] Hc. split; [done|]. intros k e He.
  apply (entry_fresh_contents (inner s)); [simpl; by rewrite Hc|by apply Hfresh].
Qed.

Lemma put_opts_spec p data mode s : cache_ok s ->
  cache_ok (put_opts p data mode s).2 /\
  contents (inner (put_opts p data mode s).2) = contents (in_put_opts p data mode (inner s)).2.
Proof.
  intros Hok. unfold put_opts. pose proof (put_contents (inner s) p data mode) as Hc.
  pose proof (put_failed (inner s) p data mode) as Hf.
  destruct (in_put_opts p data mode (inner s)) as [[u|] i]; simpl in *; (split; [|done]).
  - by apply evict_after.
  - apply keep_inner; auto.
Qed.

Lemma delete_spec p s : cache_ok s -> cache_ok (delete_ p s).2.
Proof.
  intros Hok. unfold delete_. pose proof (delete_contents (inner s) p) as Hc.
  destruct (in_delete p (inner s)) as [r i]; simpl in *. by apply evict_after.
Qed.

Lemma copy_spec p q s : cache_ok s -> cache_ok (copy p q s).2.
Proof.
  intros Hok. unfold copy. pose proof (copy_contents (inner s) p q) as Hc. pose proof (copy_failed (inner s) p q) as Hf.
  destruct (in_copy p q (inner s)) as [[u|] i]; simpl in *; [by apply evict_after|apply keep_inner; auto].
Qed.

Lemma copy_if_not_exists_spec p q s : cache_ok s -> cache_ok (copy_if_not_exists p q s).2.
Proof.
  intros Hok. unfold copy_if_not_exists.
  pose proof (copy_ne_contents (inner s) p q) as Hc. pose proof (copy_ne_failed (inner s) p q) as Hf.
  destruct (in_copy_if_not_exists p q (inner s)) as [[u|] i]; simpl in *; [by apply evict_after|apply keep_inner; auto].
Qed.

Lemma new_cache_ok i max_total mx : cache_ok (new_cache i max_total mx).
Proof. split; [apply lru_new_ok|]. intros k e He. exfalso. revert He. simpl. by rewrite lookup_empty. Qed.
End Spec.
