(* ===== verification/CacheSystem.v ===== *)
(** * Sequences and interleavings of cache operations

    [run] executes a sequence of store operations through the cache,
    [run_inner] the same sequence directly.  [step] interleaves the critical
    sections of concurrent calls: a reader looks up, fetches and admits in
    three steps, a writer writes and evicts in two.  [memory] is a concrete
    inner store. *)

From stdpp Require Import base gmap strings list relations.
From Stdlib Require Import NArith Lia.
From S2P Require Import Prelude Bytes Lru CachingStore.

Local Open Scope N_scope.

Inductive Op :=
  | OpPut (p : string) (data : bytes) (mode : PutMode)
  | OpGet (p : string) (o : GetOptions)
  | OpHead (p : string)
  | OpDelete (p : string)
  | OpCopy (from to : string)
  | OpCopyIfNotExists (from to : string).

Section System.
  Context {Meta Attrs St : Type} {Hinner : InnerStore Meta Attrs St}.

Inductive Out :=
  | ODone (r : option unit)
  | OGot (r : option (GetResult Meta Attrs))
  | OMeta (r : option Meta).

Definition run_op (op : Op) (s : CachingObjectStore Meta Attrs St) : outcome Empty_set (Out * CachingObjectStore Meta Attrs St) :=
  match op with
  | OpPut p data mode => let '(r, s) := put_opts p data mode s in Ret (ODone r, s)
  | OpGet p o => '(r, s) ← get_opts p o s; Ret (OGot r, s)
  | OpHead p => '(r, s) ← head p s; Ret (OMeta r, s)
  | OpDelete p => let '(r, s) := delete_ p s in Ret (ODone r, s)
  | OpCopy p q => let '(r, s) := copy p q s in Ret (ODone r, s)
  | OpCopyIfNotExists p q => let '(r, s) := copy_if_not_exists p q s in Ret (ODone r, s)
  end.

Fixpoint run (ops : list Op) (s : CachingObjectStore Meta Attrs St) :
    outcome Empty_set (list Out * CachingObjectStore Meta Attrs St) :=
  match ops with
  | [] => Ret ([], s)
  | op :: ops => '(r, s) ← run_op op s; '(rs, s) ← run ops s; Ret (r :: rs, s)
  end.

Definition run_op_inner (op : Op) (st : St) : Out * St :=
  match op with
  | OpPut p data mode => let '(r, st) := in_put_opts p data mode st in (ODone r, st)
  | OpGet p o => let '(r, st) := in_get_opts p o st in (OGot r, st)
  | OpHead p => let '(r, st) := in_head p st in (OMeta r, st)
  | OpDelete p => let '(r, st) := in_delete p st in (ODone r, st)
  | OpCopy p q => let '(r, st) := in_copy p q st in (ODone r, st)
  | OpCopyIfNotExists p q => let '(r, st) := in_copy_if_not_exists p q st in (ODone r, st)
  end.

Fixpoint run_inner (ops : list Op) (st : St) : list Out * St :=
  match ops with
  | [] => ([], st)
  | op :: ops => let '(r, st) := run_op_inner op st in let '(rs, st) := run_inner ops st in (r :: rs, st)
  end.

(** ** Interleavings *)

Inductive Thread :=
  | Idle
  | Fetching (p : string) (o : GetOptions)                                    (** missed, not yet read *)
  | Admitting (p : string) (o : GetOptions) (res : GetResult Meta Attrs)      (** read, not yet admitted *)
  | Evicting (p : string).                                                    (** written, not yet evicted *)

Record System := { store : CachingObjectStore Meta Attrs St; threads : list Thread }.

(** One critical section of one thread.  A write to [p] may start when
    [guard p] holds of the threads. *)
Inductive step (guard : string -> list Thread -> Prop) : System -> System -> Prop :=
  | step_hit s ths i p o rk e l :
      ths !! i = Some Idle -> request_key o = Some rk -> lookup_phase p rk (lru s) = (Some e, l) ->
      step guard {| store := s; threads := ths |} {| store := with_lru s l; threads := ths |}
  | step_miss s ths i p o rk l :
      ths !! i = Some Idle -> request_key o = Some rk -> lookup_phase p rk (lru s) = (None, l) ->
      step guard {| store := s; threads := ths |} {| store := with_lru s l; threads := <[i := Fetching p o]> ths |}
  | step_fetch s ths i p o r st :
      ths !! i = Some (Fetching p o) -> in_get_opts p o (inner s) = (r, st) ->
      step guard {| store := s; threads := ths |}
        {| store := with_inner s st;
           threads := <[i := match r with Some res => Admitting p o res | None => Idle end]> ths |}
  | step_admit s ths i p o res r l :
      ths !! i = Some (Admitting p o res) -> admit_phase p (request_key o) (max_object s) res (lru s) = Ret (r, l) ->
      step guard {| store := s; threads := ths |} {| store := with_lru s l; threads := <[i := Idle]> ths |}
  | step_put s ths i p data mode r st :
      ths !! i = Some Idle -> guard p ths -> in_put_opts p data mode (inner s) = (r, st) ->
      step guard {| store := s; threads := ths |}
        {| store := with_inner s st; threads := <[i := match r with Some _ => Evicting p | None => Idle end]> ths |}
  | step_delete s ths i p r st :
      ths !! i = Some Idle -> guard p ths -> in_delete p (inner s) = (r, st) ->
      step guard {| store := s; threads := ths |} {| store := with_inner s st; threads := <[i := Evicting p]> ths |}
  | step_evict s ths i p :
      ths !! i = Some (Evicting p) ->
      step guard {| store := s; threads := ths |}
        {| store := with_lru s (evict_path p (lru s)); threads := <[i := Idle]> ths |}.

(** No call holds a response for the path that it has yet to admit. *)
Definition no_inflight (p : string) (ths : list Thread) : Prop :=
  forall o res, Admitting p o res ∉ ths.
End System.

Arguments Out : clear implicits.
Arguments Thread : clear implicits.
Arguments System : clear implicits.

(** ** Reliable stores

    A store whose answers are determined by its contents: no transient
    failures, and the body of a response can always be read. *)
Class ReliableStore (Meta Attrs St : Type) `{InnerLaws Meta Attrs St} := {
  rel_get (st st' : St) p o :
    contents st = contents st' -> (in_get_opts p o st).1 = (in_get_opts p o st').1;
  rel_plain (st : St) p r o :
    contents st p = Some o ->
    (in_get_opts p (plain r) st).1 =
      (fun dr => {| gr_body := Some dr.1; gr_meta := o_meta o; gr_range := dr.2; gr_attributes := o_attributes o |})
        <$> read_object o r;
  rel_head (st : St) p : (in_head p st).1 = o_meta <$> contents st p;
  rel_put (st st' : St) p data mode : contents st = contents st' ->
    (in_put_opts p data mode st).1 = (in_put_opts p data mode st').1 /\
    contents (in_put_opts p data mode st).2 = contents (in_put_opts p data mode st').2;
  rel_delete (st st' : St) p : contents st = contents st' ->
    (in_delete p st).1 = (in_delete p st').1 /\ contents (in_delete p st).2 = contents (in_delete p st').2;
  rel_copy (st st' : St) p q : contents st = contents st' ->
    (in_copy p q st).1 = (in_copy p q st').1 /\ contents (in_copy p q st).2 = contents (in_copy p q st').2;
  rel_copy_ne (st st' : St) p q : contents st = contents st' ->
    (in_copy_if_not_exists p q st).1 = (in_copy_if_not_exists p q st').1 /\
    contents (in_copy_if_not_exists p q st).2 = contents (in_copy_if_not_exists p q st').2 }.

(** ** A store in memory *)

Abbreviation MemObject := (Object N unit).
Abbreviation Memory := (gmap string MemObject).

Definition sub_bytes (data : bytes) (a b : N) : bytes := take (N.to_nat (b - a)) (drop (N.to_nat a) data).

(** Ranges are clamped to the object; one that starts beyond it is an error. *)
Definition mem_read (o : MemObject) (r : option GetRange) : option (bytes * (N * N)) :=
  let len := N.of_nat (length (o_bytes o)) in
  match r with
  | None => Some (o_bytes o, (0, len))
  | Some (GBounded a b) =>
      if decide (a < len /\ a < b) then let e := N.min b len in Some (sub_bytes (o_bytes o) a e, (a, e)) else None
  | Some (GOffset a) => if decide (a < len) then Some (sub_bytes (o_bytes o) a len, (a, len)) else None
  | Some (GSuffix n) => let a := len - n in Some (sub_bytes (o_bytes o) a len, (a, len))
  end.

Definition mem_get (p : string) (o : GetOptions) (m : Memory) : option (GetResult N unit) :=
  obj ← m !! p;
  '(data, rng) ← mem_read obj (range o);
  Some {| gr_body := Some data; gr_meta := o_meta obj; gr_range := rng; gr_attributes := o_attributes obj |}.

Definition mem_object (data : bytes) : MemObject :=
  {| o_bytes := data; o_meta := N.of_nat (length data); o_attributes := tt |}.

(** The store keeps no e-tags, so a conditional update is refused. *)
Definition mem_put (p : string) (data : bytes) (mode : PutMode) (m : Memory) : option unit * Memory :=
  match mode with
  | Overwrite => (Some tt, <[p := mem_object data]> m)
  | Create => match m !! p with Some _ => (None, m) | None => (Some tt, <[p := mem_object data]> m) end
  | Update _ _ => (None, m)
  end.

#[export] Instance memory : InnerStore N unit Memory := {
  in_put_opts := mem_put;
  in_get_opts p o m := (mem_get p o m, m);
  in_head p m := (o_meta <$> m !! p, m);
  in_delete p m := (Some tt, delete p m);
  in_copy p q m := match m !! p with Some o => (Some tt, <[q := o]> m) | None => (None, m) end;
  in_copy_if_not_exists p q m :=
    match m !! p, m !! q with Some o, None => (Some tt, <[q := o]> m) | _, _ => (None, m) end;
  default_attributes := tt }.

#[export, refine] Instance memory_laws : InnerLaws N unit Memory := {
  contents m p := m !! p;
  read_object := mem_read }.
Proof.
  - done.
  - intros m p r res Hres. simpl in Hres. unfold mem_get in Hres. simpl in Hres.
    destruct (m !! p) as [obj|]; [|done]. exists obj. split; [done|]. simpl in Hres.
    destruct (mem_read obj r) as [[data rng]|]; [|done]. injection Hres as <-. simpl.
    split_and!; [done..|]. by intros d [= <-].
  - done.
  - intros m p mt H. simpl in H. destruct (m !! p) as [obj|]; [|done]. injection H as <-. by exists obj.
  - intros m p data mode q Hq. simpl. destruct mode; simpl; [|destruct (m !! p); simpl|done]; try done; by rewrite lookup_insert_ne.
  - intros m p data mode. simpl. destruct mode; simpl; [done|by destruct (m !! p)|done].
  - intros m p q Hq. simpl. by rewrite lookup_delete_ne.
  - intros m p q r Hr. simpl. destruct (m !! p); [|done]. simpl. by rewrite lookup_insert_ne.
  - intros m p q. simpl. by destruct (m !! p).
  - intros m p q r Hr. simpl. destruct (m !! p), (m !! q); try done. simpl. by rewrite lookup_insert_ne.
  - intros m p q. simpl. by destruct (m !! p), (m !! q).
Defined.

Lemma memory_ext (m m' : Memory) : contents m = contents m' -> m = m'.
Proof. intros H. apply map_eq. intros p. exact (f_equal (fun c => c p) H). Qed.

#[export, refine] Instance memory_reliable : ReliableStore N unit Memory := {}.
Proof.
  all: try (intros m m' **; match goal with H : contents m = contents m' |- _ => by rewrite (memory_ext _ _ H) end).
  - intros m p r o Ho. simpl in *. unfold mem_get. rewrite Ho. simpl. by destruct (mem_read o r) as [[]|].
  - done.
Defined.

(** * Concurrent calls under the write-once discipline

    When no write starts on a path while a reader holds an unadmitted response
    for it, every reachable state is coherent up to the writes that have yet to
    evict.  Also: sequences of operations, and equality with a direct store. *)

Section Concurrent.
  Context {Meta Attrs St : Type} {Hinner : InnerStore Meta Attrs St} {Hlaws : InnerLaws Meta Attrs St}.
  Implicit Types (s : CachingObjectStore Meta Attrs St) (ths : list (Thread Meta Attrs)).

(** ** Sequences *)

Lemma run_op_ok op s : cache_ok s -> exists r s', run_op op s = Ret (r, s') /\ cache_ok s'.
Proof.
  intros Hok. destruct op as [p data mode|p o|p|p|p q|p q]; simpl.
  - pose proof (put_opts_spec p data mode s Hok) as [H _]. destruct (put_opts p data mode s). by eexists _, _.
  - destruct (get_opts_spec p o s Hok) as (r & s' & -> & H & _). by eexists _, _.
  - destruct (head_spec p s Hok) as (r & s' & -> & H & _). by eexists _, _.
  - pose proof (delete_spec p s Hok) as H. destruct (delete_ p s). by eexists _, _.
  - pose proof (copy_spec p q s Hok) as H. destruct (copy p q s). by eexists _, _.
  - pose proof (copy_if_not_exists_spec p q s Hok) as H. destruct (copy_if_not_exists p q s). by eexists _, _.
Qed.

Lemma run_ok ops s : cache_ok s -> exists rs s', run ops s = Ret (rs, s') /\ cache_ok s'.
Proof.
  revert s. induction ops as [|op ops IH]; intros s Hok; simpl; [by eexists _, _|].
  destruct (run_op_ok op s Hok) as (r & s1 & -> & H1). simpl.
  destruct (IH s1 H1) as (rs & s2 & -> & H2). by eexists _, _.
Qed.

(** ** The invariant of the interleavings *)

Record disciplined (sys : System Meta Attrs St) : Prop := {
  di_lru : lru_ok (lru (store sys));
  di_fresh k e : map (lru (store sys)) !! k = Some e ->
    entry_fresh (inner (store sys)) k e \/ Evicting k.1 ∈ threads sys;
  di_resp p o res : Admitting p o res ∈ threads sys -> answers (inner (store sys)) p o res }.

Lemma elem_of_insert_thread i t th ths : th ∈ <[i := t]> ths -> th = t \/ th ∈ ths.
Proof.
  intros [j Hj]%list_elem_of_lookup. destruct (decide (i = j)) as [->|Hne].
  - destruct (decide (j < length ths)%nat).
    + rewrite list_lookup_insert_eq in Hj by done. injection Hj as ->. by left.
    + rewrite list_insert_ge in Hj by lia. right. by eapply list_elem_of_lookup_2.
  - rewrite list_lookup_insert_ne in Hj by done. right. by eapply list_elem_of_lookup_2.
Qed.

(** Another thread is still there after one thread moved on. *)
Lemma elem_of_insert_other i old t th ths : ths !! i = Some old -> th ∈ ths -> th <> old -> th ∈ <[i := t]> ths.
Proof.
  intros Hi [j Hj]%list_elem_of_lookup Hne. apply list_elem_of_lookup. exists j.
  rewrite list_lookup_insert_ne; [done|]. intros ->. congruence.
Qed.

Lemma elem_of_insert_self i old t ths : ths !! i = Some old -> t ∈ <[i := t]> ths.
Proof.
  intros Hi. apply list_elem_of_lookup. exists i. apply list_lookup_insert_eq. by eapply lookup_lt_Some.
Qed.

Lemma answers_contents (st st' : St) p o res :
  contents st' p = contents st p -> answers st p o res -> answers st' p o res.
Proof. unfold answers. intros ->. done. Qed.

Definition pending_or_fresh (st : St) ths (k : Key) (e : Entry Meta Attrs) : Prop :=
  entry_fresh st k e \/ Evicting k.1 ∈ ths.

(** A write of one thread changes the contents of one path only; it is pending
    unless it failed and changed nothing. *)
Lemma write_disciplined s ths i p st t :
  disciplined {| store := s; threads := ths |} -> ths !! i = Some Idle -> no_inflight p ths ->
  (forall q, q <> p -> contents st q = contents (inner s) q) ->
  (t = Evicting p \/ t = Idle /\ contents st = contents (inner s)) ->
  disciplined {| store := with_inner s st; threads := <[i := t]> ths |}.
Proof.
  intros [Hl Hf Hr] Hi Hno Hq Ht. split; simpl in *; [done| |].
  - intros k e He. destruct (Hf k e He) as [Hfr|Hev].
    + destruct (decide (k.1 = p)) as [Hk|Hk].
      * destruct Ht as [->|[-> Hc]]; [right; rewrite Hk; by eapply elem_of_insert_self|].
        left. apply (entry_fresh_contents (inner s)); [by rewrite Hc|done].
      * left. apply (entry_fresh_contents (inner s)); [by apply Hq|done].
    + right. eapply elem_of_insert_other; done.
  - intros p' o res Hin. apply elem_of_insert_thread in Hin as [Heq|Hin].
    + destruct Ht as [->|[-> _]]; done.
    + apply (answers_contents (inner s)); [|by apply Hr]. destruct (decide (p' = p)) as [->|Hne]; [|by apply Hq].
      by destruct (Hno o res).
Qed.

(** A step of a thread that is neither Idle nor Evicting keeps the evictions. *)
Lemma evicting_kept i old t ths p : ths !! i = Some old -> old <> Evicting p ->
  Evicting p ∈ ths -> Evicting p ∈ <[i := t]> ths.
Proof. intros. eapply elem_of_insert_other; eauto. Qed.

Lemma lookup_disciplined s ths p rk : disciplined {| store := s; threads := ths |} ->
  lru_ok (lookup_phase p rk (lru s)).2 /\
  all_entries (pending_or_fresh (inner s) ths) (lookup_phase p rk (lru s)).2.
Proof.
  intros [Hl Hf _]. destruct (get_entries (pending_or_fresh (inner s) ths) p rk (lru s)) as (H1 & H2 & _); try done.
Qed.

Lemma step_disciplined sys sys' : step no_inflight sys sys' -> disciplined sys -> disciplined sys'.
Proof.
  intros Hstep Hd. destruct Hstep as
    [s ths i p o rk e l Hi Hk Hlk|s ths i p o rk l Hi Hk Hlk|s ths i p o r st Hi Hg|s ths i p o res r l Hi Ha
    |s ths i p data mode r st Hi Hno Hp|s ths i p r st Hi Hno Hp|s ths i p Hi].
  - destruct (lookup_disciplined s ths p rk Hd) as [H1 H2]. rewrite Hlk in H1, H2.
    split; [done|exact H2|apply (di_resp _ Hd)].
  - destruct (lookup_disciplined s ths p rk Hd) as [H1 H2]. rewrite Hlk in H1, H2. split; [done| |].
    + intros k e He. destruct (H2 k e He) as [?|?]; [by left|right; by eapply evicting_kept].
    + intros p' o' res Hin. apply elem_of_insert_thread in Hin as [?|Hin]; [done|by apply (di_resp _ Hd)].
  - pose proof (get_contents (inner s) p o) as Hc. rewrite Hg in Hc. simpl in Hc. split; simpl; [apply (di_lru _ Hd)| |].
    + intros k e He. destruct (di_fresh _ Hd k e He) as [Hfr|?]; [|right; by eapply evicting_kept].
      left. apply (entry_fresh_contents (inner s)); [by rewrite Hc|done].
    + intros p' o' res Hin. apply elem_of_insert_thread in Hin as [Heq|Hin].
      * destruct r as [res'|]; [|done]. injection Heq as -> -> ->. intros rk Hrk.
        destruct (request_key_Some _ _ Hrk) as [Ho _].
        assert (in_get_opts p (plain (range o)) (inner s) = (Some res', st)) as Hg' by (rewrite <-Ho; exact Hg).
        destruct (get_result (inner s) p (range o) res' (f_equal fst Hg')) as (obj & G1 & G2 & G3 & G4).
        exists obj. rewrite Hc. by split_and!.
      * apply (answers_contents (inner s)); [by rewrite Hc|]. by apply (di_resp _ Hd).
  - destruct (admit_entries (pending_or_fresh (inner s) ths) (inner s) p o res (max_object s) (lru s))
      as (r' & l' & Hadm & Hl' & Hall & _).
    + apply (di_lru _ Hd).
    + exact (di_fresh _ Hd).
    + apply (di_resp _ Hd). by eapply list_elem_of_lookup_2.
    + intros. by left.
    + rewrite Hadm in Ha. injection Ha as <- <-. split; simpl; [done| |].
      * intros k e He. destruct (Hall k e He) as [?|?]; [by left|right; by eapply evicting_kept].
      * intros p' o' res' Hin. apply elem_of_insert_thread in Hin as [?|Hin]; [done|by apply (di_resp _ Hd)].
  - apply write_disciplined with (p := p); try done.
    + intros q Hq. pose proof (put_contents (inner s) p data mode q Hq) as Hc. by rewrite Hp in Hc.
    + pose proof (put_failed (inner s) p data mode) as Hc. rewrite Hp in Hc. destruct r; [by left|right]. split; [done|by apply Hc].
  - apply write_disciplined with (p := p); try done; [|by left].
    intros q Hq. pose proof (delete_contents (inner s) p q Hq) as Hc. by rewrite Hp in Hc.
  - destruct (evict_entries (pending_or_fresh (inner s) (<[i := Idle]> ths)) p (lru s)) as [H1 H2].
    + apply (di_lru _ Hd).
    + intros k e He Hk. destruct (di_fresh _ Hd k e He) as [?|Hev]; [by left|right].
      eapply elem_of_insert_other; [done|done|]. congruence.
    + split; [done|exact H2|]. intros p' o' res' Hin.
      apply elem_of_insert_thread in Hin as [?|Hin]; [done|by apply (di_resp _ Hd)].
Qed.

Lemma start_disciplined s n : cache_ok s -> disciplined {| store := s; threads := replicate n Idle |}.
Proof.
  intros [Hl Hf]. split; simpl; [done|by left; apply Hf|].
  intros p o res Hin. apply elem_of_replicate in Hin as [? _]. done.
Qed.

Lemma steps_disciplined sys sys' : rtc (step no_inflight) sys sys' -> disciplined sys -> disciplined sys'.
Proof. induction 1; [done|]. intros Hd. apply IHrtc. by eapply step_disciplined. Qed.
End Concurrent.

(** * One cached operation and its direct counterpart

    Over a reliable store every method of the cache returns what the wrapped
    store returns on equal contents, and leaves equal contents behind. *)

Section Equiv.
  Context {Meta Attrs St : Type} `{Hrel : ReliableStore Meta Attrs St}.

Lemma get_opts_equiv p o (s : CachingObjectStore Meta Attrs St) st : cache_ok s -> contents (inner s) = contents st ->
  exists s', get_opts p o s = Ret ((in_get_opts p o st).1, s') /\ cache_ok s' /\ contents (inner s') = contents st.
Proof.
  intros Hok Hc. destruct (get_opts_spec p o s Hok) as (r & s' & Hg & Hok' & Hc' & _).
  exists s'. split_and!; [|done|congruence]. rewrite Hg. do 2 f_equal. destruct Hok as [Hlru Hfresh].
  assert (forall obj, contents (inner s) p = Some obj -> contents st p = Some obj) as Hcp by (by rewrite Hc).
  unfold get_opts in Hg. destruct (request_key o) as [rk|] eqn:Hrk.
  - destruct (request_key_Some _ _ Hrk) as [Ho Hr]. unfold lookup_phase in Hg.
    destruct (get_entries (entry_fresh (inner s)) p rk (lru s) (entry_fresh_tick (inner s)) Hlru Hfresh) as (_ & _ & H3).
    destruct (get p rk (lru s)) as [[e|] l]; simpl in *.
    + injection Hg as <- _. specialize (H3 e eq_refl).
      apply (entry_fresh_range _ _ _ (range o) _ Hr) in H3 as (obj & Hobj & Hm & Ha & Hb).
      rewrite Ho, (rel_plain st p (range o) obj) by auto. rewrite Hb. simpl. unfold get_result_from. congruence.
    + rewrite <-(rel_get (inner s) st p o Hc). destruct (in_get_opts p o (inner s)) as [[res|] i] eqn:Hi; simpl in *;
        [|by injection Hg as <- _].
      assert (gr_body res <> None) as Hbody.
      { rewrite Ho in Hi. destruct (get_result (inner s) p (range o) res (f_equal fst Hi)) as (obj & Hobj & _).
        pose proof (f_equal fst Hi) as Hf. simpl in Hf. rewrite (rel_plain _ p (range o) obj Hobj) in Hf.
        destruct (read_object obj (range o)); [|done]. by injection Hf as <-. }
      unfold admit_phase in Hg. case_decide; [by injection Hg as <- _|].
      destruct (gr_body res) as [data|] eqn:Hd; [|done].
      destruct (insert _ _ _ _ _ _ l); simpl in Hg; try done. injection Hg as <- _.
      rewrite <-Hd. by destruct res.
  - simpl in Hg. rewrite <-(rel_get (inner s) st p o Hc).
    destruct (in_get_opts p o (inner s)) as [[res|] i]; simpl in *; by injection Hg as <- _.
Qed.

Lemma head_equiv p (s : CachingObjectStore Meta Attrs St) st : cache_ok s -> contents (inner s) = contents st ->
  exists s', head p s = Ret ((in_head p st).1, s') /\ cache_ok s' /\ contents (inner s') = contents st.
Proof.
  intros Hok Hc. destruct (head_spec p s Hok) as (r & s' & Hh & Hok' & Hc' & _).
  exists s'. split_and!; [|done|congruence]. rewrite Hh. do 2 f_equal. destruct Hok as [Hlru Hfresh].
  rewrite rel_head, <-Hc. unfold head in Hh.
  destruct (get_entries (entry_fresh (inner s)) p Head (lru s) (entry_fresh_tick (inner s)) Hlru Hfresh) as (_ & _ & H3).
  destruct (get p Head (lru s)) as [[e|] l]; simpl in *.
  - injection Hh as <- _. destruct (H3 e eq_refl) as (obj & Hobj & Hm & _). simpl in Hobj. by rewrite Hobj, Hm.
  - rewrite <-rel_head. destruct (in_head p (inner s)) as [[m|] i]; simpl in *; [|by injection Hh as <- _].
    destruct (insert _ _ _ _ _ _ l); simpl in Hh; try done. by injection Hh as <- _.
Qed.

Lemma run_op_equiv op (s : CachingObjectStore Meta Attrs St) st : cache_ok s -> contents (inner s) = contents st ->
  exists s', run_op op s = Ret ((run_op_inner op st).1, s') /\ cache_ok s' /\
    contents (inner s') = contents (run_op_inner op st).2.
Proof.
  intros Hok Hc. destruct (run_op_ok op s Hok) as (r & s' & Hr & Hok').
  destruct op as [p data mode|p o|p|p|p q|p q]; simpl in *.
  - destruct (rel_put _ _ p data mode Hc) as [H1 H2]. unfold put_opts in *.
    destruct (in_put_opts p data mode (inner s)) as [[u|] i], (in_put_opts p data mode st) as [r' i']; simpl in *;
      subst r'; injection Hr as <- <-; by eexists.
  - destruct (get_opts_equiv p o s st Hok Hc) as (s1 & H1 & H2 & H3). rewrite H1. simpl. exists s1.
    pose proof (get_contents st p o) as Hg. destruct (in_get_opts p o st) as [r' st']. simpl in *.
    split_and!; [done..|congruence].
  - destruct (head_equiv p s st Hok Hc) as (s1 & H1 & H2 & H3). rewrite H1. simpl. exists s1.
    pose proof (head_contents st p) as Hg. destruct (in_head p st) as [r' st']. simpl in *.
    split_and!; [done..|congruence].
  - destruct (rel_delete _ _ p Hc) as [H1 H2]. unfold delete_ in *.
    destruct (in_delete p (inner s)) as [u i], (in_delete p st) as [r' i']; simpl in *;
      subst r'; injection Hr as <- <-; by eexists.
  - destruct (rel_copy _ _ p q Hc) as [H1 H2]. unfold copy in *.
    destruct (in_copy p q (inner s)) as [[u|] i], (in_copy p q st) as [r' i']; simpl in *;
      subst r'; injection Hr as <- <-; by eexists.
  - destruct (rel_copy_ne _ _ p q Hc) as [H1 H2]. unfold copy_if_not_exists in *.
    destruct (in_copy_if_not_exists p q (inner s)) as [[u|] i], (in_copy_if_not_exists p q st) as [r' i']; simpl in *;
      subst r'; injection Hr as <- <-; by eexists.
Qed.
End Equiv.
