(* ===== verification/CachedStore.v ===== *)
(** * The read cache as an object store, and sample interleavings

    ** Sample interleavings

    Two runs over the in-memory store, step by step: a reader racing with a
    writer on one path, and a reader alone. *)

From stdpp Require Import base gmap strings list relations.
From Stdlib Require Import NArith Lia.
From S2P Require Import Prelude Bytes CatalogPrune TlmExtent PruneProperties Lru CachingStore CacheSystem.

Local Open Scope N_scope.

Abbreviation MemCache := (CachingObjectStore N unit Memory).

Definition memory_v1 : Memory := <["k" := mem_object (as_bytes "v1")]> ∅.
Definition whole : GetOptions := plain None.

(** The reader misses and reads the old object. *)
Definition race0 : MemCache := new_cache memory_v1 4096 4096.
Definition race1 : MemCache := with_lru race0 (lookup_phase "k" Full (lru race0)).2.
Definition old_response : GetResult N unit :=
  default {| gr_body := None; gr_meta := 0; gr_range := (0, 0); gr_attributes := tt |}
    (in_get_opts "k" whole (inner race1)).1.
Definition race2 : MemCache := with_inner race1 (in_get_opts "k" whole (inner race1)).2.
(** The writer overwrites the object and evicts the path. *)
Definition race3 : MemCache := with_inner race2 (in_put_opts "k" (as_bytes "v2") Overwrite (inner race2)).2.
Definition race4 : MemCache := with_lru race3 (evict_path "k" (lru race3)).
(** The reader admits what it had read. *)
Definition admitted (s : MemCache) : MemCache :=
  match admit_phase "k" (request_key whole) (max_object s) old_response (lru s) with
  | Ret (_, l) => with_lru s l
  | _ => s
  end.
Definition race5 : MemCache := admitted race4.

(** The same reader without the writer. *)
Definition calm3 : MemCache := admitted race2.

(** A cache after a put, a read, an overwrite and a second read. *)
Definition reread_ops : list Op :=
  [OpPut "a" (as_bytes "hello") Create; OpGet "a" whole; OpPut "a" (as_bytes "bye") Overwrite; OpGet "a" whole].
Definition reread : list (Out N unit) * MemCache :=
  match run reread_ops (new_cache ∅ 1024 512) with Ret r => r | _ => ([], race0) end.

Abbreviation sys s ths := {| store := s; threads := ths |}.

Section Steps.
  Context (guard : string -> list (Thread N unit) -> Prop).

Lemma miss_step : step guard (sys race0 [Idle; Idle]) (sys race1 [Fetching "k" whole; Idle]).
Proof. apply (step_miss guard race0 [Idle; Idle] 0%nat "k" whole Full); vm_compute; reflexivity. Qed.

Lemma fetch_step : step guard (sys race1 [Fetching "k" whole; Idle]) (sys race2 [Admitting "k" whole old_response; Idle]).
Proof.
  apply (step_fetch guard race1 [Fetching "k" whole; Idle] 0%nat "k" whole (Some old_response)); vm_compute; reflexivity.
Qed.

Lemma put_step th : guard "k" [th; Idle] -> step guard (sys race2 [th; Idle]) (sys race3 [th; Evicting "k"]).
Proof.
  intros Hg. apply (step_put guard race2 [th; Idle] 1%nat "k" (as_bytes "v2") Overwrite (Some tt)); [done|done|].
  vm_compute. reflexivity.
Qed.

Lemma evict_step th : step guard (sys race3 [th; Evicting "k"]) (sys race4 [th; Idle]).
Proof. by apply (step_evict guard race3 [th; Evicting "k"] 1%nat "k"). Qed.

Lemma admit_step s :
  (exists r l, admit_phase "k" (request_key whole) (max_object s) old_response (lru s) = Ret (r, l)) ->
  step guard (sys s [Admitting "k" whole old_response; Idle]) (sys (admitted s) [Idle; Idle]).
Proof.
  intros (r & l & Ha). unfold admitted. rewrite Ha.
  by apply (step_admit guard s [Admitting "k" whole old_response; Idle] 0%nat "k" whole old_response r).
Qed.
End Steps.

Definition is_ret {E A} (m : outcome E A) : bool := match m with Ret _ => true | _ => false end.

Lemma is_ret_pair {E A B} (m : outcome E (A * B)) : is_ret m = true -> exists a b, m = Ret (a, b).
Proof. destruct m as [[]| | |]; simpl; try done. by eexists _, _. Qed.

(** * The read cache as an object store

    [CachingObjectStore] implements the [ObjectStore] interface the extent
    format is verified against, when the store it wraps is reliable, serves
    whole objects and lets a plain put replace an object.  An extent written
    and read back through the cache is therefore the extent that was sealed. *)

(** A store that serves whole objects and whose unconditional put stores the
    bytes it is given. *)
Class PlainStore (Meta Attrs St : Type) `{ReliableStore Meta Attrs St} := {
  plain_missing (st : St) p : contents st p = None -> (in_get_opts p (plain None) st).1 = None;
  plain_full (o : Object Meta Attrs) : exists rng, read_object o None = Some (o_bytes o, rng);
  plain_put (st : St) p data : (in_put_opts p data Overwrite st).1 <> None ->
    o_bytes <$> contents (in_put_opts p data Overwrite st).2 p = Some data }.

#[export, refine] Instance memory_plain : PlainStore N unit Memory := {}.
Proof.
  - intros st p H. simpl in *. unfold mem_get. by rewrite H.
  - intros o. by eexists.
  - intros st p data _. simpl. by rewrite lookup_insert_eq.
Defined.

Section Cached.
  Context {Meta Attrs St : Type} `{Hplain : PlainStore Meta Attrs St}.

(** The methods as the extent writer and reader call them: [store.put(path,
    payload)] and [store.get(path).bytes()]. *)
#[export] Instance cached_store : ObjectStore (CachingObjectStore Meta Attrs St) := {
  os_put path body s :=
    match put_opts path body Overwrite s with (Some _, s') => Some s' | (None, _) => None end;
  os_get path s :=
    match get_opts path (plain None) s with
    | Ret (r, s') => (r ≫= gr_body, s')
    | _ => (None, s)
    end }.

Lemma plain_get_body (st : St) p :
  (in_get_opts p (plain None) st).1 ≫= gr_body = o_bytes <$> contents st p.
Proof.
  destruct (contents st p) as [o|] eqn:Hc.
  - rewrite (rel_plain st p None o Hc). by destruct (plain_full o) as [rng ->].
  - by rewrite (plain_missing st p Hc).
Qed.

#[export, refine] Instance cached_store_laws : ObjectStoreLaws (CachingObjectStore Meta Attrs St) := {
  os_inv := cache_ok;
  os_view s p := o_bytes <$> contents (inner s) p }.
Proof.
  - intros s s' path body Hok Hput. simpl in Hput.
    destruct (put_opts path body Overwrite s) as [[u|] s1] eqn:Hp; [|done]. injection Hput as <-.
    destruct (run_op_ok (OpPut path body Overwrite) s Hok) as (r & s2 & Hr & Hok').
    simpl in Hr. rewrite Hp in Hr. injection Hr as _ <-. split; [done|].
    unfold put_opts in Hp. pose proof (plain_put (inner s) path body) as Hnew.
    pose proof (put_contents (inner s) path body Overwrite) as Hold.
    destruct (in_put_opts path body Overwrite (inner s)) as [[u'|] i]; [|done].
    injection Hp as _ <-. simpl in *. intros p. case_decide as Hpp; [subst; by apply Hnew|].
    by rewrite Hold.
  - intros s path Hok. simpl.
    destruct (get_opts_equiv path (plain None) s (inner s) Hok eq_refl) as (s' & -> & Hok' & Hc).
    simpl. split_and!; [apply plain_get_body|done|]. intros p. by rewrite Hc.
Defined.
End Cached.

(** The sample extent, sealed into an empty in-memory store through a cache. *)
Definition cached_finish : ExtentWriteResult * CachingObjectStore N unit Memory :=
  match finish_extent uuid_fn (writer_of [batch0; batch1]) (new_cache (∅ : Memory) 4096 4096) with
  | Ret r => r
  | _ => (empty_result, new_cache ∅ 4096 4096)
  end.
