(* ===== verification/CacheProperties.v ===== *)
(** * Properties of the read cache

    Transparency for sequences of calls, the LRU discipline, coherence of
    interleaved calls under the write-once discipline, and the interleaving
    that breaks it. *)

From stdpp Require Import base gmap strings list relations.
From Stdlib Require Import NArith Lia.
From S2P Require Import Prelude Bytes Arrow BlockStats CatalogPrune TlmExtent PruneMain PruneProperties Lru CachingStore.
From S2P Require Import CacheSystem CachedStore.

Local Open Scope N_scope.

(** ** Properties *)

(** C6: The cache is observationally equal to the store it wraps.  Over a store
    whose answers are determined by its contents, any sequence of puts, gets
    (plain, ranged or conditional), heads, deletes and copies through a new
    cache of any budget returns what the same sequence returns directly. *)
Theorem cache_observationally_equal `{ReliableStore Meta Attrs St} ops (st : St) budget mx :
  exists s', run ops (new_cache st budget mx) = Ret ((run_inner ops st).1, s').
Proof.
  assert (forall s st, cache_ok s -> contents (inner s) = contents st ->
            exists s', run ops s = Ret ((run_inner ops st).1, s')) as Hgen.
  { induction ops as [|op ops IH]; intros s st0 Hok Hc; simpl; [by eexists|].
    destruct (run_op_equiv op s st0 Hok Hc) as (s1 & -> & Hok1 & Hc1). simpl.
    destruct (run_op_inner op st0) as [r st1]. simpl in *.
    destruct (IH s1 st1 Hok1 Hc1) as (s2 & ->). simpl.
    destruct (run_inner ops st1). simpl. by eexists. }
  apply Hgen; [apply new_cache_ok|done].
Qed.

(** Fresh reads and a bounded budget.  After any sequence of operations
    through a new cache over any store that honours the store contract,
    transient failures included, the cached bytes are within the budget, the
    three indexes of the LRU agree, and a plain get or a head that answers
    describes the object the inner store holds at that moment. *)
Theorem cache_reads_fresh `{InnerLaws Meta Attrs St} ops (st : St) budget mx outs s :
  run ops (new_cache st budget mx) = Ret (outs, s) ->
  lru_ok (lru s) /\ total_bytes (lru s) <= max_total (lru s) /\
  (forall p o, exists r s', get_opts p o s = Ret (r, s') /\ forall res, r = Some res -> answers (inner s) p o res) /\
  (forall p, exists r s', head p s = Ret (r, s') /\
     forall m, r = Some m -> exists obj, contents (inner s) p = Some obj /\ m = o_meta obj).
Proof.
  intros Hrun. destruct (run_ok ops _ (new_cache_ok st budget mx)) as (rs & s1 & Hr & Hok).
  rewrite Hrun in Hr. injection Hr as _ <-. split_and!; [apply Hok|apply Hok| |].
  - intros p o. destruct (get_opts_spec p o s Hok) as (r & s' & H1 & _ & _ & H4). by exists r, s'.
  - intros p. destruct (head_spec p s Hok) as (r & s' & H1 & _ & _ & H4). by exists r, s'.
Qed.

(** Insertion evicts the least recently used.  Inserting a read that fits
    the budget always returns, keeps the invariant and caches the read; the
    entries that go are all older than every entry that stays. *)
Theorem insert_evicts_lru {Meta Attrs} path rk data (meta : Meta) (attributes : Attrs) range l :
  lru_ok l -> N.max (N.of_nat (length data)) ENTRY_OVERHEAD <= max_total l ->
  exists l' e, insert path rk data meta attributes range l = Ret l' /\ lru_ok l' /\
    map l' !! (path, rk) = Some e /\ e_bytes e = data /\ e_tick e = tick l + 1 /\
    (forall k e, k <> (path, rk) -> map l' !! k = Some e -> map l !! k = Some e) /\
    (forall k v k' v', k <> (path, rk) -> map l !! k = Some v -> map l' !! k = None -> map l' !! k' = Some v' ->
       e_tick v < e_tick v').
Proof.
  intros Hok Hfit. destruct (insert_spec path rk data meta attributes range l Hok)
    as (l' & Hi & Hok' & _ & _ & _ & Hd).
  rewrite decide_False in Hd by lia. destruct Hd as [[Hsub Hord] Hin]. rewrite map_place in Hsub, Hord.
  exists l'. eexists. split_and!; [done..| |].
  - intros k e Hk He. pose proof (lookup_weaken _ _ _ _ He Hsub) as H1. by rewrite lookup_insert_ne in H1.
  - intros k v k' v' Hk Hv. apply Hord. by rewrite lookup_insert_ne.
Qed.

(** Interleavings are coherent under the write-once discipline.  If no write
    to a path starts while a call holds an unadmitted response for it, then
    after any interleaving of the critical sections of any number of concurrent
    calls, once every writer has evicted, every cached read is the read of the
    current object. *)
Theorem disciplined_coherent `{InnerLaws Meta Attrs St} (st : St) budget mx n sys :
  rtc (step no_inflight) {| store := new_cache st budget mx; threads := replicate n Idle |} sys ->
  (forall p, Evicting p ∉ threads sys) -> cache_ok (store sys).
Proof.
  intros Hsteps Hev. apply steps_disciplined in Hsteps; [|apply start_disciplined, new_cache_ok].
  destruct Hsteps as [Hl Hf _]. split; [done|]. intros k e He.
  destruct (Hf k e He) as [?|Hin]; [done|]. by destruct (Hev k.1).
Qed.

(** Without the discipline a re-read after an overwrite can be stale for
    good: a reader that missed and fetched the old object admits it after the
    writer has overwritten the object and evicted the path.  No call is in
    progress any more, and a get returns the old bytes. *)
Theorem overwrite_race_stale :
  exists sys' s' res,
    rtc (step (fun _ _ => True)) {| store := new_cache memory_v1 4096 4096; threads := [Idle; Idle] |} sys' /\
    threads sys' = [Idle; Idle] /\
    get_opts "k" whole (store sys') = Ret (Some res, s') /\ gr_body res = Some (as_bytes "v1") /\
    contents (inner (store sys')) "k" = Some (mem_object (as_bytes "v2")).
Proof.
  exists (sys race5 [Idle; Idle]).
  assert (exists res s', get_opts "k" whole race5 = Ret (Some res, s') /\ gr_body res = Some (as_bytes "v1")) as (res & s' & Hg & Hb).
  { assert (match get_opts "k" whole race5 with
            | Ret (Some res, _) => bool_decide (gr_body res = Some (as_bytes "v1")) | _ => false end = true) as H
      by (vm_compute; reflexivity).
    destruct (get_opts "k" whole race5) as [[[res|] s']| | |]; try done. exists res, s'.
    by apply bool_decide_eq_true in H. }
  exists s', res. split_and!; [|done|done|done|vm_compute; reflexivity].
  eapply rtc_l; [apply miss_step|]. eapply rtc_l; [apply fetch_step|]. eapply rtc_l; [by apply put_step|].
  eapply rtc_l; [apply evict_step|]. eapply rtc_l; [|apply rtc_refl].
  apply admit_step, is_ret_pair. vm_compute. reflexivity.
Qed.

(** An extent written through the cache reads back the same, however often
    it is opened.  The writer puts the sealed object through the caching store,
    the reader gets it through the same cache, from memory or from the wrapped
    store, and each opening returns the batches, their statistics and the
    counts that were written. *)
Theorem cached_extent_roundtrip `{Codec} `{PlainStore Meta Attrs St} s format id bs w uuid (st : St) budget mx
    result cache byte_size n :
  Forall batch_ok bs -> for_each append bs (start_extent format id s) = Ret w ->
  codec_roundtrip s bs (w_block_stats w) ->
  finish_extent uuid w (new_cache st budget mx) = Ret (result, cache) ->
  (open_extent s (wr_object_path result) byte_size
     (Nat.iter n (fun c => (open_extent s (wr_object_path result) byte_size c).2) cache)).1 =
  Ret {| metadata := {| em_row_count := wr_row_count result; em_block_count := as_u32 (wr_block_count result);
                        em_byte_size := byte_size; em_schema := s; em_format_version := 2 |};
         batches := bs; object_path := wr_object_path result; block_stats := Some (w_block_stats w) |}.
Proof.
  intros Hok Hw Hcodec Hfin. apply appends_written in Hw; [|done].
  assert (os_inv (new_cache st budget mx)) as Hnew by apply new_cache_ok.
  rewrite open_extent_again by exact (finish_extent_inv _ _ _ _ _ Hnew Hfin).
  rewrite (open_finished uuid w _ result cache s bs byte_size Hw Hcodec Hnew Hfin).
  by destruct (finished_counts uuid w _ result cache s bs Hw Hfin) as [-> ->].
Qed.

(** ** Witnesses *)

Lemma cached_extent_roundtrip_witness :
  (open_extent schema_ (wr_object_path cached_finish.1) 10
     (Nat.iter 2 (fun c => (open_extent schema_ (wr_object_path cached_finish.1) 10 c).2) cached_finish.2)).1 = Ret reader_.
Proof.
  refine (cached_extent_roundtrip schema_ _ 1 [batch0; batch1] (writer_of [batch0; batch1])
    uuid_fn (∅ : Memory) 4096 4096 cached_finish.1 cached_finish.2 10 2 batches_ok _ sample_roundtrip _); vm_compute; reflexivity.
Defined.

Lemma cache_observationally_equal_witness :
  exists s', run [OpPut "a" (as_bytes "hello") Create; OpGet "a" (plain None); OpGet "a" (plain (Some (GBounded 1 3)));
                  OpCopy "a" "b"; OpPut "a" (as_bytes "other") Overwrite; OpGet "a" (plain None); OpHead "b"; OpDelete "b"; OpHead "b"]
               (new_cache (∅ : Memory) 1024 512) =
             Ret ((run_inner [OpPut "a" (as_bytes "hello") Create; OpGet "a" (plain None); OpGet "a" (plain (Some (GBounded 1 3)));
                  OpCopy "a" "b"; OpPut "a" (as_bytes "other") Overwrite; OpGet "a" (plain None); OpHead "b"; OpDelete "b"; OpHead "b"] (∅ : Memory)).1, s').
Proof. apply cache_observationally_equal. Defined.


Lemma cache_reads_fresh_witness :
  exists r s', get_opts "a" whole reread.2 = Ret (r, s') /\
    forall res, r = Some res -> answers (inner reread.2) "a" whole res.
Proof.
  refine (proj1 (proj2 (proj2 (cache_reads_fresh reread_ops (∅ : Memory) 1024 512 reread.1 reread.2 _))) "a" whole).
  vm_compute. reflexivity.
Defined.

Lemma insert_evicts_lru_witness :
  exists l' e, insert "c" Full (as_bytes "x") 1 tt (0, 1) (lru_new 300 : Lru N unit) = Ret l' /\ lru_ok l' /\
    map l' !! ("c", Full) = Some e /\ e_bytes e = as_bytes "x" /\ e_tick e = 1 /\
    (forall k e, k <> ("c", Full) -> map l' !! k = Some e -> map (lru_new 300 : Lru N unit) !! k = Some e) /\
    (forall k v k' v', k <> ("c", Full) -> map (lru_new 300 : Lru N unit) !! k = Some v -> map l' !! k = None ->
       map l' !! k' = Some v' -> e_tick v < e_tick v').
Proof.
  apply (insert_evicts_lru "c" Full (as_bytes "x") 1 tt (0, 1) (lru_new 300)); [apply lru_new_ok|].
  vm_compute. discriminate.
Defined.

Lemma disciplined_coherent_witness : cache_ok calm3.
Proof.
  refine (disciplined_coherent memory_v1 4096 4096 2 (sys calm3 [Idle; Idle]) _ _).
  - eapply rtc_l; [apply miss_step|]. eapply rtc_l; [apply fetch_step|]. eapply rtc_l; [|apply rtc_refl].
    apply admit_step, is_ret_pair. vm_compute. reflexivity.
  - intros p. simpl. intros [|[|H]%elem_of_cons]%elem_of_cons; [done..|by apply not_elem_of_nil in H].
Defined.
