(* ===== verification/FtsFile.v ===== *)
(** * The full-text sidecar file ([pensieve-index-fts/src/file.rs], [build.rs])

    The packed directory of index files: writing, parsing the header and the
    manifest with every offset checked, and restoring the directory.  Offsets
    are [usize] of 64 bits.  A RAM directory is a map from path to bytes. *)

From stdpp Require Import base gmap strings list.
From Stdlib Require Import NArith ZArith Lia Ascii.
From S2P Require Import Prelude Bytes ColumnStats.

Local Open Scope N_scope.

Definition MAGIC : bytes := as_bytes "KYFT".
Definition FORMAT_VERSION : N := 1.

Inductive Corruption := OffsetOverflow | NameOverflow | NameNotUtf8 | RangeOverflow | RangePastData.

Inductive FtsError :=
  | TooShort (need have : N)
  | BadMagic
  | UnsupportedVersion (v : N)
  | Corrupt (why : Corruption).

Record Header := { h_version : N; h_file_count : N; h_manifest_offset : N }.
Record ManifestEntry := { me_name : string; data_off : N; data_len : N }.

Definition rd (width : nat) (buf : bytes) (off : N) : outcome FtsError N :=
  read_le (Corrupt OffsetOverflow) TooShort width buf off.
Definition rd_u32 := rd 4.
Definition rd_u64 := rd 8.

(** ** Writing *)

Fixpoint manifest (cursor : N) (files : list (string * bytes)) : bytes :=
  match files with
  | [] => []
  | (name, data) :: files =>
      le_bytes 4 (blen (as_bytes name)) ++ as_bytes name ++ le_bytes 8 cursor ++ le_bytes 8 (blen data) ++
      manifest (cursor + blen data) files
  end.

Definition manifest_bytes (files : list (string * bytes)) : N :=
  foldr (fun f n => 4 + blen (as_bytes f.1) + 8 + 8 + n) 0 files.

Definition write (files : list (string * bytes)) : bytes :=
  let header := MAGIC ++ le_bytes 4 FORMAT_VERSION ++ le_bytes 4 (N.of_nat (length files)) in
  let data_start := blen header + manifest_bytes files in
  header ++ manifest data_start files ++ concat (snd <$> files) ++ MAGIC.

(** ** Reading *)

Definition read_header (buf : bytes) : outcome FtsError Header :=
  if decide (blen buf < 12) then Fail (TooShort 12 (blen buf))
  else if decide (take 4 buf <> MAGIC) then Fail BadMagic
  else if decide (blen buf < 4 \/ drop (length buf - 4) buf <> MAGIC) then Fail BadMagic
  else
    version ← rd_u32 buf 4;
    if decide (version <> FORMAT_VERSION) then Fail (UnsupportedVersion version)
    else
      file_count ← rd_u32 buf 8;
      Ret {| h_version := version; h_file_count := file_count; h_manifest_offset := 12 |}.

(** One iteration of the manifest loop: the entry and the next offset. *)
Definition read_entry (buf : bytes) (off : N) : outcome FtsError (ManifestEntry * N) :=
  let data_floor := blen buf - 4 in
  name_len ← rd_u32 buf off;
  let off := off + 4 in
  name_end ← or_fail (Corrupt NameOverflow) (checked_add off name_len);
  name_slice ← or_fail (TooShort name_end (blen buf)) (bslice buf off name_end);
  if negb (valid_utf8 name_slice) then Fail (Corrupt NameNotUtf8)
  else
    let off := name_end in
    doff ← rd_u64 buf off;
    let off := off + 8 in
    dlen ← rd_u64 buf off;
    let off := off + 8 in
    data_end ← or_fail (Corrupt RangeOverflow) (checked_add doff dlen);
    if decide (data_floor < data_end) then Fail (Corrupt RangePastData)
    else Ret ({| me_name := of_bytes name_slice; data_off := doff; data_len := dlen |}, off).

Fixpoint read_entries (n : nat) (buf : bytes) (off : N) : outcome FtsError (list ManifestEntry) :=
  match n with
  | O => Ret []
  | S n => '(e, off) ← read_entry buf off; es ← read_entries n buf off; Ret (e :: es)
  end.

Definition read_manifest (buf : bytes) (h : Header) : outcome FtsError (list ManifestEntry) :=
  read_entries (N.to_nat (h_file_count h)) buf (h_manifest_offset h).

Definition restore (buf : bytes) (e : ManifestEntry) (dir : gmap string bytes) : outcome FtsError (gmap string bytes) :=
  s ← or_fail (TooShort (data_off e + data_len e) (blen buf)) (bslice buf (data_off e) (data_off e + data_len e));
  Ret (<[me_name e := s]> dir).

Definition open_directory (buf : bytes) : outcome FtsError (gmap string bytes) :=
  header ← read_header buf;
  entries ← read_manifest buf header;
  for_each (restore buf) entries ∅.

(** ** Row addresses *)

Record RowAddress := { block : N; row : N }.

Definition pack_addr (addr : RowAddress) : N := N.lor (N.shiftl (block addr) 32) (row addr).
Definition unpack_addr (v : N) : RowAddress :=
  {| block := (N.shiftr v 32) mod 2 ^ 32; row := N.land v 4294967295 mod 2 ^ 32 |}.

(** ** Lemmas *)

Lemma rd_app width a c x off : off = blen a -> x < 256 ^ N.of_nat width -> blen a + N.of_nat width < 2 ^ 64 ->
  rd width (a ++ le_bytes width x ++ c) off = Ret x.
Proof. apply read_le_app. Qed.

Lemma blen_manifest cursor files : blen (manifest cursor files) = manifest_bytes files.
Proof.
  revert cursor. induction files as [|[name data] files IH]; intros cursor; [done|].
  cbn [manifest manifest_bytes foldr fst]. rewrite !blen_app, IH. unfold manifest_bytes, blen. rewrite !length_le_bytes. lia.
Qed.

Definition data_bytes (files : list (string * bytes)) : N := blen (concat (snd <$> files)).

(** The entries of a written manifest. *)
Fixpoint entries_of (cursor : N) (files : list (string * bytes)) : list ManifestEntry :=
  match files with
  | [] => []
  | (name, data) :: files =>
      {| me_name := name; data_off := cursor; data_len := blen data |} :: entries_of (cursor + blen data) files
  end.

(** What Rust guarantees of the files of a directory, and the size limits of
    the format. *)
Definition file_ok (f : string * bytes) : Prop :=
  valid_utf8 (as_bytes f.1) = true /\ blen (as_bytes f.1) < 2 ^ 32.

Lemma read_entry_written pre name data cursor rest buf :
  file_ok (name, data) -> cursor + blen data <= blen buf - 4 -> blen buf < 2 ^ 64 ->
  buf = pre ++ (le_bytes 4 (blen (as_bytes name)) ++ as_bytes name ++ le_bytes 8 cursor ++ le_bytes 8 (blen data)) ++ rest ->
  read_entry buf (blen pre) =
  Ret ({| me_name := name; data_off := cursor; data_len := blen data |}, blen pre + (4 + blen (as_bytes name) + 8 + 8)).
Proof.
  intros [Hutf Hname] Hend Hbuf Heq. cbn [fst] in *. set (n := as_bytes name) in *.
  assert (blen buf = blen pre + 4 + blen n + 16 + blen rest) as Hlen
    by (rewrite Heq, !blen_app; unfold blen; rewrite !length_le_bytes; lia).
  assert (blen (le_bytes 4 (blen n)) = 4) as H4 by (unfold blen; by rewrite length_le_bytes).
  assert (blen (le_bytes 8 cursor) = 8) as H8 by (unfold blen; by rewrite length_le_bytes).
  unfold read_entry, rd_u32, rd_u64.
  assert (rd 4 buf (blen pre) = Ret (blen n)) as ->.
  { rewrite Heq, <-!app_assoc. apply rd_app; [done|lia|lia]. }
  cbn [or_fail mbind outcome_bind].
  rewrite checked_add_ok by lia. cbn [or_fail mbind outcome_bind].
  assert (bslice buf (blen pre + 4) (blen pre + 4 + blen n) = Some n) as ->.
  { rewrite Heq, <-!app_assoc, (app_assoc pre). apply bslice_app; [rewrite blen_app; lia|done]. }
  cbn [or_fail mbind outcome_bind]. rewrite Hutf. cbn [negb].
  assert (rd 8 buf (blen pre + 4 + blen n) = Ret cursor) as ->.
  { rewrite Heq, <-!app_assoc, (app_assoc pre), (app_assoc (pre ++ _)).
    apply rd_app; [rewrite !blen_app; lia|lia|rewrite !blen_app; lia]. }
  cbn [or_fail mbind outcome_bind].
  assert (rd 8 buf (blen pre + 4 + blen n + 8) = Ret (blen data)) as ->.
  { rewrite Heq, <-!app_assoc, (app_assoc pre), (app_assoc (pre ++ _)), (app_assoc ((pre ++ _) ++ _)).
    apply rd_app; [rewrite !blen_app; lia|lia|rewrite !blen_app; lia]. }
  cbn [or_fail mbind outcome_bind]. rewrite checked_add_ok by lia. cbn [or_fail mbind outcome_bind].
  rewrite decide_False by lia. unfold n. rewrite of_as_bytes. do 2 f_equal. lia.
Qed.

Lemma read_entries_written files pre cursor post buf :
  Forall file_ok files -> buf = pre ++ manifest cursor files ++ post ->
  cursor + data_bytes files <= blen buf - 4 -> blen buf < 2 ^ 64 ->
  read_entries (length files) buf (blen pre) = Ret (entries_of cursor files).
Proof.
  intros Hok. revert pre cursor. induction Hok as [|[name data] files Hf Hok IH]; intros pre cursor Heq Hend Hbuf; [done|].
  cbn [manifest] in Heq. unfold data_bytes in Hend. cbn [fmap list_fmap concat snd] in Hend. rewrite blen_app in Hend.
  cbn [length read_entries].
  rewrite (read_entry_written pre name data cursor (manifest (cursor + blen data) files ++ post)); [|done|lia|done|].
  2:{ rewrite Heq. by rewrite <-!app_assoc. }
  cbn [mbind outcome_bind entries_of].
  set (e := le_bytes 4 (blen (as_bytes name)) ++ as_bytes name ++ le_bytes 8 cursor ++ le_bytes 8 (blen data)).
  assert (blen pre + (4 + blen (as_bytes name) + 8 + 8) = blen (pre ++ e)) as ->.
  { unfold e. rewrite !blen_app. unfold blen. rewrite !length_le_bytes. lia. }
  rewrite (IH (pre ++ e) (cursor + blen data)); [done| |unfold data_bytes; lia|done].
  rewrite Heq. unfold e. by rewrite <-!app_assoc.
Qed.

Local Close Scope N_scope.

(** * The [pensieve-word-v1] tokenizer ([pensieve-index-fts/src/tokenizer.rs])

    The standalone tokenizer and the token stream with byte offsets and
    positions that tantivy indexes. *)

Definition MIN_TOKEN_LEN : nat := 2.

Fixpoint tokenize_words (cs : list char) (cur : string) : list string :=
  match cs with
  | [] => if decide (MIN_TOKEN_LEN <= String.length cur) then [cur] else []
  | c :: cs =>
      if is_ascii_alphanumeric c then tokenize_words cs (push cur (to_ascii_lowercase c))
      else if decide (cur = EmptyString) then tokenize_words cs cur
      else if decide (MIN_TOKEN_LEN <= String.length cur) then cur :: tokenize_words cs EmptyString
      else tokenize_words cs EmptyString
  end.

Definition tokenize (s : string) : list string := tokenize_words (chars s) EmptyString.

Record Token := { offset_from : nat; offset_to : nat; t_position : nat; text : string; position_length : nat }.

Record Scan := { sc_pos : nat; sc_cur : string; sc_start : nat; sc_byte : nat; sc_tokens : list Token }.

Definition mk_token (s : Scan) : Token :=
  {| offset_from := sc_start s; offset_to := sc_byte s; t_position := sc_pos s; text := sc_cur s; position_length := 1 |}.

(** The body of the loop of [token_stream]. *)
Definition scan_char (s : Scan) (c : char) : Scan :=
  let clen := len_utf8 c in
  if is_ascii_alphanumeric c then
    {| sc_pos := sc_pos s; sc_cur := push (sc_cur s) (to_ascii_lowercase c);
       sc_start := if decide (sc_cur s = EmptyString) then sc_byte s else sc_start s;
       sc_byte := sc_byte s + clen; sc_tokens := sc_tokens s |}
  else if decide (sc_cur s = EmptyString) then
    {| sc_pos := sc_pos s; sc_cur := sc_cur s; sc_start := sc_start s; sc_byte := sc_byte s + clen; sc_tokens := sc_tokens s |}
  else if decide (MIN_TOKEN_LEN <= String.length (sc_cur s)) then
    {| sc_pos := sc_pos s + 1; sc_cur := EmptyString; sc_start := sc_start s; sc_byte := sc_byte s + clen;
       sc_tokens := sc_tokens s ++ [mk_token s] |}
  else
    {| sc_pos := sc_pos s; sc_cur := EmptyString; sc_start := sc_start s; sc_byte := sc_byte s + clen; sc_tokens := sc_tokens s |}.

Definition scan_start : Scan := {| sc_pos := 0; sc_cur := EmptyString; sc_start := 0; sc_byte := 0; sc_tokens := [] |}.

Definition token_stream (s : string) : list Token :=
  let r := foldl scan_char scan_start (chars s) in
  if decide (MIN_TOKEN_LEN <= String.length (sc_cur r)) then sc_tokens r ++ [mk_token r] else sc_tokens r.

(** ** Agreement with the column statistics *)

Lemma words_set cs cur : list_to_set (tokenize_words cs cur) = tokenize_loop cs cur (∅ : gset string).
Proof.
  revert cur. induction cs as [|c cs IH]; intros cur; simpl.
  - unfold flush, MIN_TOKEN_LEN. by case_decide.
  - destruct (is_ascii_alphanumeric c); [apply IH|]. case_decide; [apply IH|].
    rewrite tokenize_loop_union. unfold flush, MIN_TOKEN_LEN. case_decide; simpl; rewrite IH.
    + rewrite (right_id_L ∅ (∪)). apply (comm_L (∪)).
    + by rewrite (right_id_L ∅ (∪)).
Qed.

(** ** The stream *)

(** The text of a run of letters and digits, lower-cased. *)
Definition lower (cs : list char) : string := of_chars (to_ascii_lowercase <$> cs).

Definition byte_len (cs : list char) : nat := sum_list_with len_utf8 cs.

(** A token of the characters [cs] lies where its offsets say. *)
Definition token_at (cs : list char) (t : Token) : Prop :=
  exists pre run post, cs = pre ++ run ++ post /\ offset_from t = byte_len pre /\
    offset_to t = byte_len (pre ++ run) /\ text t = lower run /\
    Forall (fun c => is_ascii_alphanumeric c = true) run.

Lemma byte_len_app a b : byte_len (a ++ b) = byte_len a + byte_len b.
Proof. unfold byte_len. induction a as [|c a IH]; simpl; [done|]. rewrite IH. lia. Qed.

Lemma lower_snoc run c : lower (run ++ [c]) = push (lower run) (to_ascii_lowercase c).
Proof.
  unfold lower, push, of_chars. rewrite fmap_app, map_app, concat_app. simpl. rewrite app_nil_r.
  generalize (concat (map encode_char (to_ascii_lowercase <$> run))), (encode_char (to_ascii_lowercase c)).
  intros a b. unfold of_bytes. induction a as [|x a IH]; simpl; [done|]. by rewrite IH.
Qed.

(** The state after the characters [done]: the current run is the end of them. *)
Record scan_ok (done : list char) (s : Scan) : Prop := {
  so_byte : sc_byte s = byte_len done;
  so_run : exists pre run, done = pre ++ run /\ sc_cur s = lower run /\
    Forall (fun c => is_ascii_alphanumeric c = true) run /\ (run <> [] -> sc_start s = byte_len pre);
  so_pos : sc_pos s = length (sc_tokens s);
  so_at : forall i t, sc_tokens s !! i = Some t -> t_position t = i /\ token_at done t }.

Lemma token_at_app cs more t : token_at cs t -> token_at (cs ++ more) t.
Proof.
  intros (pre & run & post & -> & H). exists pre, run, (post ++ more). split; [by rewrite <-!app_assoc|done].
Qed.

Lemma lower_empty run : lower run = EmptyString -> run = [].
Proof.
  destruct run as [|c run]; [done|]. unfold lower, of_chars. simpl. intros H.
  destruct (encode_char (to_ascii_lowercase c)) as [|b l] eqn:E; [|done].
  pose proof (length_encode_char (to_ascii_lowercase c)) as Hl. rewrite E in Hl. simpl in Hl.
  unfold len_utf8 in Hl. repeat case_match; lia.
Qed.

(** The finished run is a token of the characters seen so far. *)
Lemma mk_token_at done s : scan_ok done s -> sc_cur s <> EmptyString ->
  t_position (mk_token s) = length (sc_tokens s) /\ token_at done (mk_token s).
Proof.
  intros [Hb (pre & run & Heq & Hcur & Hrun & Hst) Hpos _] Hne. split; [exact Hpos|].
  exists pre, run, []. rewrite app_nil_r. split_and!; try done.
  - apply Hst. intros ->. by rewrite Hcur in Hne.
  - simpl. by rewrite Hb, Heq.
Qed.

Lemma scan_char_ok done s c : scan_ok done s -> scan_ok (done ++ [c]) (scan_char s c).
Proof.
  intros Hok. pose proof Hok as [Hb (pre & run & Heq & Hcur & Hrun & Hst) Hpos Hat].
  assert (sc_byte s + len_utf8 c = byte_len (done ++ [c])) as Hb'
    by (rewrite byte_len_app, Hb; unfold byte_len; simpl; lia).
  assert (forall i t, sc_tokens s !! i = Some t -> t_position t = i /\ token_at (done ++ [c]) t) as Hat'.
  { intros i t [H1 H2]%Hat. split; [done|by apply token_at_app]. }
  unfold scan_char. destruct (is_ascii_alphanumeric c) eqn:Hc.
  - split; simpl; [done| |done|done]. case_decide as He.
    + assert (run = []) as -> by (apply lower_empty; congruence). rewrite app_nil_r in Heq. subst pre.
      exists done, [c]. split_and!; [done| |by constructor|done].
      rewrite He. symmetry. apply (lower_snoc [] c).
    + exists pre, (run ++ [c]). split_and!; [by rewrite Heq, <-app_assoc|by rewrite lower_snoc, Hcur| |].
      * apply Forall_app. split; [done|by constructor].
      * intros _. apply Hst. intros ->. by rewrite Hcur in He.
  - assert (exists p r, done ++ [c] = p ++ r /\ EmptyString = lower r /\
      Forall (fun c => is_ascii_alphanumeric c = true) r /\ (r <> [] -> sc_start s = byte_len p)) as Hempty.
    { exists (done ++ [c]), []. rewrite app_nil_r. by split_and!. }
    case_decide as He; [|case_decide as Hlen]; split; simpl; try done.
    + by rewrite He.
    + rewrite length_app. simpl. lia.
    + intros i t [Ht|[Hi Ht]]%lookup_app_Some; [by apply Hat'|].
      apply list_lookup_singleton_Some in Ht as [Hi0 <-]. destruct (mk_token_at _ _ Hok He) as [Hp Htk].
      split; [rewrite Hp; lia|by apply token_at_app].
Qed.

Lemma scan_ok_all cs : scan_ok cs (foldl scan_char scan_start cs).
Proof.
  induction cs as [|c cs IH] using rev_ind.
  - split; simpl; try done. exists [], []. by split_and!.
  - rewrite foldl_app. by apply scan_char_ok.
Qed.

(** The texts in the stream are the tokens. *)
Lemma scan_texts cs s :
  let r := foldl scan_char s cs in
  text <$> (if decide (MIN_TOKEN_LEN <= String.length (sc_cur r)) then sc_tokens r ++ [mk_token r] else sc_tokens r)
  = (text <$> sc_tokens s) ++ tokenize_words cs (sc_cur s).
Proof.
  revert s. induction cs as [|c cs IH]; intros s; simpl.
  - case_decide; [by rewrite fmap_app|by rewrite app_nil_r].
  - simpl in IH. rewrite IH. unfold scan_char. destruct (is_ascii_alphanumeric c); [done|].
    repeat case_decide; simpl; try done. by rewrite fmap_app, <-app_assoc.
Qed.
