(* ===== verification/FtsProperties.v ===== *)
(** * Properties of the full-text sidecars *)

From stdpp Require Import base gmap strings list.
From Stdlib Require Import NArith ZArith Lia Ascii.
From S2P Require Import Prelude Bytes ColumnStats FtsFile.

Local Open Scope N_scope.

(** ** Helper lemmas *)

Lemma restore_entries files pre data_rest buf dir :
  buf = pre ++ concat (snd <$> files) ++ data_rest ->
  for_each (restore buf) (entries_of (blen pre) files) dir = Ret (list_to_map (reverse files) ∪ dir).
Proof.
  revert pre dir. induction files as [|[name data] files IH]; intros pre dir Heq.
  - simpl. by rewrite (left_id_L ∅ (∪)).
  - cbn [entries_of for_each].
    assert (restore buf {| me_name := name; data_off := blen pre; data_len := blen data |} dir = Ret (<[name := data]> dir)) as ->.
    { unfold restore. cbn [data_off data_len me_name].
      rewrite Heq. cbn [fmap list_fmap concat snd]. rewrite <-app_assoc. by rewrite bslice_app. }
    cbn [mbind outcome_bind].
    assert (blen pre + blen data = blen (pre ++ data))%N as -> by (by rewrite blen_app).
    rewrite (IH (pre ++ data)); [|rewrite Heq; cbn [fmap list_fmap concat snd]; by rewrite <-!app_assoc].
    f_equal. rewrite reverse_cons, list_to_map_app, <-(assoc_L (∪)). f_equal. simpl. by rewrite <-insert_union_l, (left_id_L ∅ (∪)).
Qed.

Lemma list_to_map_reverse (files : list (string * bytes)) : NoDup files.*1 ->
  (list_to_map (reverse files) : gmap string bytes) = list_to_map files.
Proof.
  intros Hnd. symmetry. apply list_to_map_proper; [done|]. by rewrite reverse_Permutation.
Qed.



(** A sidecar restores the directory it was written from: for files with
    distinct UTF-8 names, sizes and a total within the format's integers,
    opening the written blob gives back exactly those files. *)
Theorem sidecar_roundtrip files :
  NoDup files.*1 -> Forall file_ok files -> N.of_nat (length files) < 2 ^ 32 -> blen (write files) < 2 ^ 64 ->
  open_directory (write files) = Ret (list_to_map files).
Proof.
  intros Hnd Hok Hcount Hsize. unfold open_directory.
  set (header := MAGIC ++ le_bytes 4 FORMAT_VERSION ++ le_bytes 4 (N.of_nat (length files))).
  assert (blen header = 12) as Hh by (unfold header; rewrite !blen_app; unfold blen; rewrite !length_le_bytes; reflexivity).
  set (m := manifest (12 + manifest_bytes files) files). set (d := concat (snd <$> files)).
  assert (write files = header ++ m ++ d ++ MAGIC) as Hw
    by (unfold write; fold header; rewrite Hh; reflexivity).
  assert (blen (write files) = 16 + manifest_bytes files + blen d) as Hlen.
  { rewrite Hw, !blen_app, Hh. unfold m. rewrite blen_manifest. change (blen MAGIC) with 4. lia. }
  assert (read_header (write files) = Ret {| h_version := 1; h_file_count := N.of_nat (length files); h_manifest_offset := 12 |}) as ->.
  { unfold read_header. rewrite decide_False by lia. rewrite (decide_False (P := take 4 (write files) <> MAGIC)).
    2:{ intros Hn. apply Hn. by rewrite Hw. }
    rewrite decide_False.
    2:{ intros [Hlt|Hn]; [lia|]. apply Hn. rewrite Hw, !app_assoc.
        rewrite length_app, Nat.add_sub. apply drop_app_length. }
    assert (rd_u32 (write files) 4 = Ret 1) as ->.
    { rewrite Hw. unfold header. rewrite <-!app_assoc. apply rd_app; done. }
    cbn [mbind outcome_bind]. rewrite decide_False by (intros Hn; by apply Hn).
    assert (rd_u32 (write files) 8 = Ret (N.of_nat (length files))) as ->; [|done].
    rewrite Hw. unfold header. rewrite <-!app_assoc, (app_assoc MAGIC). apply rd_app; [done|exact Hcount|done]. }
  cbn [mbind outcome_bind]. unfold read_manifest. cbn [h_file_count h_manifest_offset]. rewrite Nat2N.id.
  rewrite <-Hh. rewrite (read_entries_written files header (12 + manifest_bytes files) (d ++ MAGIC)); [|done|done| |done].
  2:{ unfold data_bytes. fold d. lia. }
  cbn [mbind outcome_bind].
  assert (12 + manifest_bytes files = blen (header ++ m)) as -> by (rewrite blen_app, Hh; unfold m; by rewrite blen_manifest).
  rewrite (restore_entries files (header ++ m) MAGIC); [|rewrite Hw; by rewrite <-app_assoc].
  by rewrite (right_id_L ∅ (∪)), list_to_map_reverse.
Qed.

(** A blob never makes the reader run past its bytes: whatever the bytes,
    each manifest entry that is accepted lies before the trailing magic, there
    are as many as the header announces, and restoring accepted entries cannot
    fail. *)
Theorem manifest_in_bounds buf h es :
  read_header buf = Ret h -> read_manifest buf h = Ret es ->
  N.of_nat (length es) = h_file_count h /\
  Forall (fun e => data_off e + data_len e <= blen buf - 4) es /\
  exists dir, for_each (restore buf) es ∅ = Ret dir.
Proof.
  intros _ Hm. unfold read_manifest in Hm.
  assert (length es = N.to_nat (h_file_count h) /\ Forall (fun e => data_off e + data_len e <= blen buf - 4) es) as [Hl Hf].
  { revert Hm. generalize (h_manifest_offset h). revert es. induction (N.to_nat (h_file_count h)) as [|n IH]; intros es off; simpl.
    - intros [= <-]. split; [done|constructor].
    - intros ([e off'] & He & (es' & Hes & [= <-])%bind_Ret)%bind_Ret. destruct (IH _ _ Hes) as [Hl Hf].
      split; [simpl; by f_equal|]. constructor; [|done].
      unfold read_entry in He.
      repeat match goal with
      | H : (_ ≫= _) = Ret _ |- _ => apply bind_Ret in H as (? & ? & H)
      | H : (if _ then _ else _) = Ret _ |- _ => destruct (valid_utf8 _) in H; cbn [negb] in H; [|done]
      end.
      case_decide; [done|]. injection He as <- _. simpl.
      match goal with H : or_fail _ (checked_add ?a ?b) = Ret ?x |- ?a + ?b <= _ =>
        unfold checked_add in H; destruct (decide (a + b < 2 ^ 64)); simpl in H; [|done]; injection H as <- end.
      lia. }
  split_and!; [lia|done|]. generalize (∅ : gmap string bytes). clear Hm Hl. induction Hf as [|e es He Hf IH]; intros dir; simpl; [by eexists|].
  assert (restore buf e dir = Ret (<[me_name e := take (N.to_nat (data_off e + data_len e - data_off e)) (drop (N.to_nat (data_off e)) buf)]> dir)) as ->
    by (unfold restore, bslice; by rewrite decide_True by lia).
  simpl. apply IH.
Qed.

(** The terms of the index are the tokens of the catalog: the set of tokens
    the full-text tokenizer produces for a text is the set the extent writer
    records, and the token stream carries exactly those tokens in order. *)
Theorem tokenizers_agree s :
  list_to_set (FtsFile.tokenize s) = tokens_of s /\ text <$> token_stream s = FtsFile.tokenize s.
Proof. split; [apply words_set|]. apply (scan_texts (chars s) scan_start). Qed.

(** Token positions count the tokens and token offsets delimit their text:
    the [i]-th token of the stream has position [i], and its offsets bound a
    run of ASCII letters and digits of the input whose lower-casing it is. *)
Theorem token_offsets s i t :
  token_stream s !! i = Some t -> t_position t = i /\ token_at (chars s) t.
Proof.
  intros Ht. unfold token_stream in Ht. pose proof (scan_ok_all (chars s)) as Hok.
  set (r := foldl scan_char scan_start (chars s)) in *.
  case_decide as Hlen; [|by apply (so_at _ _ Hok)].
  apply lookup_app_Some in Ht as [Ht|[Hi Ht]]; [by apply (so_at _ _ Hok)|].
  apply list_lookup_singleton_Some in Ht as [Hi0 <-].
  destruct (mk_token_at _ _ Hok) as [Hp Hat]; [by intros Hc; rewrite Hc in Hlen; unfold MIN_TOKEN_LEN in Hlen; simpl in Hlen; lia|].
  split; [rewrite Hp; lia|done].
Qed.

(** Row addresses survive packing: a block and a row of 32 bits packed into
    64 are unpacked unchanged. *)
Theorem unpack_pack_addr a : block a < 2 ^ 32 -> row a < 2 ^ 32 -> unpack_addr (pack_addr a) = a.
Proof.
  intros Hb Hr. destruct a as [b r]. unfold pack_addr, unpack_addr. simpl in *. f_equal.
  - rewrite N.shiftr_lor, N.shiftr_shiftl_l, N.sub_diag, N.shiftl_0_r by done.
    assert (N.shiftr r 32 = 0) as -> by (rewrite N.shiftr_div_pow2; by apply N.div_small).
    rewrite N.lor_0_r. by apply N.mod_small.
  - change 4294967295 with (N.ones 32). rewrite N.land_lor_distr_l, !N.land_ones.
    rewrite N.shiftl_mul_pow2, N.Div0.mod_mul, N.lor_0_l, N.Div0.mod_mod. by apply N.mod_small.
Qed.

(** ** Witnesses *)

Lemma sidecar_roundtrip_witness :
  open_directory (write [("meta.json", as_bytes "{}"); ("seg.store", as_bytes "abc")]) =
  Ret (list_to_map [("meta.json", as_bytes "{}"); ("seg.store", as_bytes "abc")]).
Proof.
  apply (sidecar_roundtrip [("meta.json", as_bytes "{}"); ("seg.store", as_bytes "abc")]).
  - apply (bool_decide_unpack _). vm_compute. exact I.
  - constructor; [split; vm_compute; reflexivity|constructor; [split; vm_compute; reflexivity|constructor]].
  - reflexivity.
  - vm_compute. reflexivity.
Defined.

Lemma manifest_in_bounds_witness :
  N.of_nat 1 = 1 /\ Forall (fun e => data_off e + data_len e <= blen (write [("a", as_bytes "xy")]) - 4)
    [{| me_name := "a"; data_off := 33; data_len := 2 |}] /\
  exists dir, for_each (restore (write [("a", as_bytes "xy")])) [{| me_name := "a"; data_off := 33; data_len := 2 |}] ∅ = Ret dir.
Proof.
  refine (manifest_in_bounds (write [("a", as_bytes "xy")])
    {| h_version := 1; h_file_count := 1; h_manifest_offset := 12 |}
    [{| me_name := "a"; data_off := 33; data_len := 2 |}] _ _); vm_compute; reflexivity.
Defined.

Lemma token_offsets_witness :
  t_position {| offset_from := 4; offset_to := 8; t_position := 1; text := "disk"; position_length := 1 |} = 1%nat /\
  token_at (chars "No: Disk x") {| offset_from := 4; offset_to := 8; t_position := 1; text := "disk"; position_length := 1 |}.
Proof. apply (token_offsets "No: Disk x" 1). vm_compute. reflexivity. Defined.

Lemma unpack_pack_addr_witness : unpack_addr (pack_addr {| block := 7; row := 4294967295 |}) = {| block := 7; row := 4294967295 |}.
Proof. apply unpack_pack_addr; vm_compute; reflexivity. Defined.
