(* ===== verification/VectorMath.v ===== *)
(** * Vector arithmetic and clustering ([pensieve-index-vector/src/rng.rs], [ivf.rs])

    The generators an index build draws from, binary32 arithmetic on vectors,
    and the inverted-file quantizer: mini-batch k-means over the rows.  An
    [f32] in memory is its 32 bits, so reading what was written is exact; the
    operations decode, compute in IEEE arithmetic and encode.  The payload of
    a NaN the arithmetic produces is the canonical one. *)

From stdpp Require Import base list numbers.
From Stdlib Require Import ZArith NArith Lia SpecFloat.
From S2P Require Import Prelude Arrow.

Local Open Scope N_scope.

(** ** Binary32 *)

Abbreviation b32 := N.
Abbreviation vec := (list b32).

(** [f32::to_bits]: IEEE interchange form of a binary32 value. *)
Definition to_bits (x : spec_float) : b32 :=
  let sign (s : bool) : N := if s then 2 ^ 31 else 0 in
  match x with
  | S754_zero s => sign s
  | S754_infinity s => sign s + 255 * 2 ^ 23
  | S754_nan => 0x7fc00000
  | S754_finite s m e =>
      sign s + if Npos m <? 2 ^ 23 then Npos m else Z.to_N (e + 150) * 2 ^ 23 + (Npos m - 2 ^ 23)
  end mod 2 ^ 32.

(** [f32::from_bits]. *)
Definition from_bits (n : b32) : spec_float :=
  let s := 2 ^ 31 <=? n in
  let ex := (n / 2 ^ 23) mod 256 in
  let mant := n mod 2 ^ 23 in
  if ex =? 0 then match mant with N0 => S754_zero s | Npos m => S754_finite s m (-149) end
  else if ex =? 255 then match mant with N0 => S754_infinity s | Npos _ => S754_nan end
  else match mant + 2 ^ 23 with N0 => S754_nan | Npos m => S754_finite s m (Z.of_N ex - 150) end.

Definition f32_op (f : spec_float -> spec_float -> spec_float) (x y : b32) : b32 :=
  to_bits (f (from_bits x) (from_bits y)).
Definition f32_add := f32_op (SFadd 24 128).
Definition f32_sub := f32_op (SFsub 24 128).
Definition f32_mul := f32_op (SFmul 24 128).
Definition f32_div := f32_op (SFdiv 24 128).
Definition f32_sqrt (x : b32) : b32 := to_bits (SFsqrt 24 128 (from_bits x)).
Definition f32_abs (x : b32) : b32 := N.clearbit x 31.
Definition f32_lt (x y : b32) : bool := SFltb (from_bits x) (from_bits y).
Definition f32_le (x y : b32) : bool := SFleb (from_bits x) (from_bits y).
Definition f32_partial_cmp (x y : b32) : option comparison := SFcompare (from_bits x) (from_bits y).
(** [n as f32] *)
Definition f32_of_N (n : N) : b32 := to_bits (binary_normalize 24 128 (Z.of_N n) 0 false).
Definition f32_is_nan (x : b32) : bool := match from_bits x with S754_nan => true | _ => false end.

Definition f32_zero : b32 := 0.
Definition f32_one : b32 := f32_of_N 1.
Definition f32_INFINITY : b32 := to_bits (S754_infinity false).
(** The literal [1e-12f32], the binary32 nearest to it. *)
Definition f32_1e_12 : b32 := 0x2b8cbccc.
Definition f32_sum (l : list b32) : b32 := foldl f32_add f32_zero l.

(** ** Generators ([rng.rs]) *)

Definition wrapping_add64 (a b : N) : N := (a + b) mod 2 ^ 64.
Definition wrapping_mul64 (a b : N) : N := (a * b) mod 2 ^ 64.
Definition shl64 (a k : N) : N := N.shiftl a k mod 2 ^ 64.

Module SplitMix64.
Record t := { state : N }.

Definition new (seed : N) : t := {| state := seed |}.

Definition next_u64 (g : t) : N * t :=
  let state := wrapping_add64 (state g) 0x9E3779B97F4A7C15 in
  let z := state in
  let z := wrapping_mul64 (N.lxor z (N.shiftr z 30)) 0xBF58476D1CE4E5B9 in
  let z := wrapping_mul64 (N.lxor z (N.shiftr z 27)) 0x94D049BB133111EB in
  (N.lxor z (N.shiftr z 31), {| state := state |}).

Definition next_f64 (g : t) : f64 * t :=
  let '(x, g) := next_u64 g in
  (f64_div (f64_of_Z (Z.of_N (N.shiftr x 11))) (f64_of_Z (2 ^ 53)), g).

(** [std::f64::consts::TAU] *)
Definition TAU : f64 := S754_finite false 0x1921FB54442D18 (-50).

(** Box-Muller; [ln] and [cos] are the platform's, whose last digits Rust
    leaves open. *)
Definition next_gaussian (ln cos : f64 -> f64) (g : t) : f64 * t :=
  let '(u1, g) := next_f64 g in
  let u1 := f64_max u1 f64_1e_12 in
  let '(u2, g) := next_f64 g in
  (f64_mul (f64_sqrt (f64_mul (f64_of_Z (-2)) (ln u1))) (cos (f64_mul TAU u2)), g).
End SplitMix64.

Module Xorshift128.
Record t := { s0 : N; s1 : N }.

Definition new (seed : N) : t :=
  let sm := SplitMix64.new seed in
  let '(a, sm) := SplitMix64.next_u64 sm in
  let '(b, sm) := SplitMix64.next_u64 sm in
  {| s0 := N.lor a 1; s1 := N.lor b 1 |}.

Definition next_u64 (g : t) : N * t :=
  let x := s0 g in
  let y := s1 g in
  let x := N.lxor x (shl64 x 23) in
  let x := N.lxor x (N.shiftr x 17) in
  let x := N.lxor x (N.lxor y (N.shiftr y 26)) in
  (wrapping_add64 x y, {| s0 := y; s1 := x |}).

(** [next_u64() % n]; a zero [n] divides by zero. *)
Definition next_below (g : t) (n : nat) : infallible (nat * t) :=
  if decide (n = 0%nat) then Panic
  else let '(x, g) := next_u64 g in Ret (N.to_nat (x mod N.of_nat n), g).
End Xorshift128.

(** ** The coarse quantizer ([ivf.rs]) *)

Definition KMEANS_SEED : N := 0x1F1F2E2E3D3D4C4C.
Definition KMEANS_ITERS : nat := 10.
Definition BATCH_PER_CLUSTER : nat := 64.

(** [x.round() as usize] for a binary64 that is not negative: half away from
    zero, a NaN to 0. *)
Definition round_usize (x : f64) : N :=
  match x with
  | S754_finite false m e =>
      if (e <? 0)%Z then (2 * Npos m + 2 ^ Z.to_N (- e)) / (2 * 2 ^ Z.to_N (- e)) else Npos m * 2 ^ Z.to_N e
  | S754_infinity false => 2 ^ 64 - 1
  | _ => 0
  end.

Definition clamp (x lo hi : N) : N := if x <? lo then lo else if hi <? x then hi else x.

Definition choose_nlist (n_rows : nat) : nat :=
  if decide (n_rows = 0%nat) then 1%nat
  else
    let s := round_usize (f64_sqrt (f64_of_Z (Z.of_nat n_rows))) in
    (N.to_nat (clamp s 16 256) `min` n_rows)%nat.

Definition sq_l2 (a b : vec) : b32 :=
  foldl (fun acc xy => let d := f32_sub xy.1 xy.2 in f32_add acc (f32_mul d d)) f32_zero (zip a b).

(** The loop of [nearest_centroid] from index [i] on. *)
Fixpoint nearest_from (v : vec) (i : nat) (cs : list vec) (best : nat) (best_d : b32) : nat :=
  match cs with
  | [] => best
  | c :: cs =>
      let d := sq_l2 v c in
      if f32_lt d best_d then nearest_from v (S i) cs i d else nearest_from v (S i) cs best best_d
  end.

Definition nearest_centroid (v : vec) (centroids : list vec) : nat :=
  nearest_from v 0 centroids 0 f32_INFINITY.

Record Clustering := { centroids : list vec; assignments : list nat }.

Section Cluster.
Context (rows : list vec) (dim nlist : nat).
Let n := length rows.

(** *** Seeding: rows sampled without replacement *)

Record Init := { i_rng : SplitMix64.t; i_used : list bool; i_centroids : list vec }.

(** The first loop; [tries] is [n * 4 - attempts]. *)
Fixpoint sample (tries : nat) (s : Init) : infallible Init :=
  match tries with
  | O => Ret s
  | S tries =>
      if decide (length (i_centroids s) < nlist)%nat then
        let '(x, rng) := SplitMix64.next_u64 (i_rng s) in
        let idx := N.to_nat (x mod N.of_nat n) in
        used ← or_panic (i_used s !! idx);
        if used : bool then
          sample tries {| i_rng := rng; i_used := i_used s; i_centroids := i_centroids s |}
        else
          used' ← set_index (i_used s) idx true;
          row ← or_panic (rows !! idx);
          sample tries {| i_rng := rng; i_used := used'; i_centroids := i_centroids s ++ [row] |}
      else Ret s
  end.

(** The body of the top-up scan; past [nlist] it does nothing, the loop having
    ended. *)
Definition top_up (scan : nat) (s : Init) : infallible Init :=
  if decide (length (i_centroids s) < nlist)%nat then
    used ← or_panic (i_used s !! scan);
    if used : bool then Ret s
    else
      used' ← set_index (i_used s) scan true;
      row ← or_panic (rows !! scan);
      Ret {| i_rng := i_rng s; i_used := used'; i_centroids := i_centroids s ++ [row] |}
  else Ret s.

(** [while centroids.len() < nlist]: a round per missing centroid. *)
Fixpoint pad (missing : nat) (cs : list vec) : infallible (list vec) :=
  match missing with
  | O => Ret cs
  | S missing => row ← or_panic (rows !! (length cs mod n)%nat); pad missing (cs ++ [row])
  end.

Definition seeds : infallible (list vec) :=
  s ← sample (n * 4)
        {| i_rng := SplitMix64.new KMEANS_SEED; i_used := replicate n false; i_centroids := [] |};
  s ← for_each top_up (seq 0 n) s;
  pad (nlist - length (i_centroids s)) (i_centroids s).

(** *** Mini-batch updates *)

Record Means := { m_centroids : list vec; m_counts : list N; m_sampler : Xorshift128.t }.

(** [cen[j] += eta * (v[j] - cen[j])] *)
Definition pull (eta : b32) (v : vec) (j : nat) (cen : vec) : infallible vec :=
  c ← or_panic (cen !! j);
  x ← or_panic (v !! j);
  set_index cen j (f32_add c (f32_mul eta (f32_sub x c))).

Definition update (s : Means) : infallible Means :=
  '(ri, sampler) ← Xorshift128.next_below (m_sampler s) n;
  v ← or_panic (rows !! ri);
  let c := nearest_centroid v (m_centroids s) in
  count ← or_panic (m_counts s !! c);
  counts ← set_index (m_counts s) c (count + 1);
  let eta := f32_div f32_one (f32_of_N (count + 1)) in
  cen ← or_panic (m_centroids s !! c);
  cen ← for_each (pull eta v) (seq 0 dim) cen;
  cs ← set_index (m_centroids s) c cen;
  Ret {| m_centroids := cs; m_counts := counts; m_sampler := sampler |}.

Definition batch : nat := (nlist * BATCH_PER_CLUSTER) `min` n.

Definition minibatch (s : Means) : infallible Means := for_each (fun _ => update) (seq 0 batch) s.

Definition kmeans (cs : list vec) : infallible (list vec) :=
  s ← for_each (fun _ => minibatch) (seq 0 KMEANS_ITERS)
        {| m_centroids := cs; m_counts := replicate nlist 0;
           m_sampler := Xorshift128.new (N.lxor KMEANS_SEED 0xA5A5A5A5A5A5A5A5) |};
  Ret (m_centroids s).
End Cluster.

Definition cluster (rows : list vec) (dim nlist : nat) : infallible Clustering :=
  let n := length rows in
  if decide (n = 0%nat) then Panic
  else
    let nlist := N.to_nat (clamp (N.of_nat nlist) 1 (N.of_nat n)) in
    cs ← seeds rows nlist;
    cs ← kmeans rows dim nlist cs;
    Ret {| centroids := cs; assignments := (fun v => nearest_centroid v cs) <$> rows |}.

(** ** Lemmas: bits *)

Lemma to_bits_lt x : to_bits x < 2 ^ 32.
Proof. apply N.mod_lt. done. Qed.

Lemma digits_bounds m : (2 ^ (Zpos (digits2_pos m) - 1) <= Zpos m < 2 ^ Zpos (digits2_pos m))%Z.
Proof.
  induction m as [m IH|m IH|]; cbn [digits2_pos]; [| |done];
    rewrite Pos2Z.inj_succ;
    replace (Z.succ (Zpos (digits2_pos m)) - 1)%Z with (Zpos (digits2_pos m) - 1 + 1)%Z by lia;
    rewrite <-Z.add_1_r, !Z.pow_add_r by lia; lia.
Qed.

(** The binary32 a finite value is: its mantissa is below [2^24], and below
    [2^23] only at the least exponent. *)
Lemma bounded32 m e : bounded 24 128 m e = true ->
  Npos m < 2 ^ 24 /\ (-149 <= e <= 104)%Z /\ (Npos m < 2 ^ 23 -> e = (-149)%Z).
Proof.
  unfold bounded, canonical_mantissa, fexp, emin. intros [He%Z.eqb_eq Hle%Z.leb_le]%andb_prop.
  pose proof (digits_bounds m) as [Hlo Hhi]. set (d := Zpos (digits2_pos m)) in *.
  assert (d <= 24)%Z as Hd by lia.
  assert (2 ^ d <= 2 ^ 24)%Z by (apply Z.pow_le_mono_r; lia).
  split; [lia|]. split; [lia|]. intros Hm.
  destruct (Z.eq_dec d 24) as [->|]; [|lia]. change (2 ^ (24 - 1))%Z with (2 ^ 23)%Z in Hlo. lia.
Qed.

Lemma split_bits (s : bool) ex mant : ex < 256 -> mant < 2 ^ 23 ->
  let n := (if s then 2 ^ 31 else 0) + (ex * 2 ^ 23 + mant) in
  n < 2 ^ 32 /\ (2 ^ 31 <=? n) = s /\ (n / 2 ^ 23) mod 256 = ex /\ n mod 2 ^ 23 = mant.
Proof.
  intros He Hm n. subst n.
  change (2 ^ 31) with (256 * 2 ^ 23). change (2 ^ 32) with (512 * 2 ^ 23).
  split; [destruct s; lia|]. split.
  { destruct s; [apply N.leb_le; lia|apply N.leb_gt; lia]. }
  replace ((if s then 256 * 2 ^ 23 else 0) + (ex * 2 ^ 23 + mant))
    with (mant + ((if s then 256 else 0) + ex) * 2 ^ 23) by (destruct s; lia).
  rewrite N.Div0.mod_add, (N.mod_small mant) by done. split; [|done].
  rewrite N.div_add, (N.div_small mant), N.add_0_l by done.
  destruct s; [|by rewrite N.add_0_l, N.mod_small].
  replace (256 + ex) with (ex + 1 * 256) by lia. by rewrite N.Div0.mod_add, N.mod_small.
Qed.

Lemma from_to_bits x : valid_binary 24 128 x = true -> from_bits (to_bits x) = x.
Proof.
  intros Hv. destruct x as [s|s| |s m e]; [by destruct s..|done|].
  cbn [valid_binary] in Hv. apply bounded32 in Hv as (Hm & He & Hsub).
  unfold to_bits. destruct (Npos m <? 2 ^ 23) eqn:E.
  - apply N.ltb_lt in E. specialize (Hsub E). subst e.
    destruct (split_bits s 0 (Npos m)) as (H32 & H1 & H2 & H3); [done..|].
    rewrite N.mul_0_l, N.add_0_l in *. rewrite N.mod_small by done.
    unfold from_bits. by rewrite H1, H2, H3.
  - apply N.ltb_ge in E.
    destruct (split_bits s (Z.to_N (e + 150)) (Npos m - 2 ^ 23)) as (H32 & H1 & H2 & H3); [lia..|].
    rewrite N.mod_small by done. unfold from_bits. rewrite H1, H2, H3.
    destruct (N.eqb_spec (Z.to_N (e + 150)) 0); [lia|].
    destruct (N.eqb_spec (Z.to_N (e + 150)) 255); [lia|].
    replace (Npos m - 2 ^ 23 + 2 ^ 23) with (Npos m) by lia. f_equal. lia.
Qed.

(** ** Lemmas: the order of floating-point values *)

Definition rank (x : spec_float) : option (Z * Z * Z) :=
  match x with
  | S754_nan => None
  | S754_infinity s => Some (if s then -2 else 2, 0, 0)%Z
  | S754_zero _ => Some (0, 0, 0)%Z
  | S754_finite s m e => Some (if s then (-1, - e, Zneg m) else (1, e, Zpos m))%Z
  end.

Definition lex (a b : Z * Z * Z) : Prop :=
  (a.1.1 < b.1.1 \/ a.1.1 = b.1.1 /\ (a.1.2 < b.1.2 \/ a.1.2 = b.1.2 /\ a.2 < b.2))%Z.

Lemma decided_true (P : Prop) (b : bool) : b = true -> P -> b = true <-> P.
Proof. tauto. Qed.

Lemma decided_false (P : Prop) (b : bool) : b = false -> ~ P -> b = true <-> P.
Proof. intros ->. split; [done|tauto]. Qed.

(** Both sides of [ltb_rank] are known. *)
Ltac ltb_side :=
  first
    [ apply decided_false; [done|]; intros (? & ? & [=] & [=] & ?); subst; cbn in *; lia
    | apply decided_true; [done|]; do 2 eexists; split_and!; [done..|cbn; lia] ].

Lemma ltb_rank x y : SFltb x y = true <-> exists a b, rank x = Some a /\ rank y = Some b /\ lex a b.
Proof.
  unfold SFltb, lex.
  destruct x as [[]|[]| |[] mx ex], y as [[]|[]| |[] my ey]; cbn [SFcompare rank]; try ltb_side;
    change (Pos.compare_cont Eq mx my) with (mx ?= my)%positive;
    destruct (Z.compare_spec ex ey) as [->| |]; try ltb_side;
    destruct (Pos.compare_spec mx my); cbn [CompOpp]; ltb_side.
Qed.

Lemma ltb_trans x y z : SFltb x y = true -> SFltb y z = true -> SFltb x z = true.
Proof.
  rewrite !ltb_rank. intros (a & b & Ha & Hb & ?) (b' & c & Hb' & Hc & ?).
  rewrite Hb in Hb'. injection Hb' as <-. exists a, c. split_and!; [done..|]. unfold lex in *. lia.
Qed.

(** A value between two others: below the upper or above the lower. *)
Lemma ltb_split x y z : SFltb x y = true -> SFltb z y = false -> rank z = None \/ SFltb x z = true.
Proof.
  intros Hxy Hz. destruct (rank z) as [c|] eqn:Hc; [right|by left].
  apply ltb_rank in Hxy as (a & b & Ha & Hb & Hl). apply ltb_rank. exists a, c. split_and!; [done..|].
  apply not_true_iff_false in Hz. rewrite ltb_rank in Hz.
  assert (~ lex c b) as Hn by (intros ?; apply Hz; by exists c, b). unfold lex in *. lia.
Qed.

Lemma is_nan_rank x : f32_is_nan x = true <-> rank (from_bits x) = None.
Proof. unfold f32_is_nan. by destruct (from_bits x) as [| | |[]]. Qed.

Lemma ltb_infinity x : SFltb (S754_infinity false) x = false.
Proof. by destruct x as [|[]| |[]]. Qed.

Lemma f32_INFINITY_eq : from_bits f32_INFINITY = S754_infinity false.
Proof. reflexivity. Qed.

(** ** Lemmas: the nearest centroid *)

Section Nearest.
Context (v : vec) (all : list vec).

(** Before centroid [i], [best] is the first of the least distances so far. *)
Definition nearest_inv (i best : nat) (best_d : b32) : Prop :=
  (forall j c, (j < i)%nat -> all !! j = Some c -> f32_lt (sq_l2 v c) best_d = false) /\
  (best = 0%nat /\ best_d = f32_INFINITY \/
   (best < i)%nat /\ exists c, all !! best = Some c /\ best_d = sq_l2 v c /\
     forall j c', (j < best)%nat -> all !! j = Some c' ->
       f32_is_nan (sq_l2 v c') = true \/ f32_lt best_d (sq_l2 v c') = true).

Lemma nearest_from_inv cs i best best_d : drop i all = cs -> nearest_inv i best best_d ->
  exists d, nearest_inv (i + length cs) (nearest_from v i cs best best_d) d.
Proof.
  revert i best best_d. induction cs as [|c cs IH]; intros i best best_d Hall Hinv; cbn [nearest_from length].
  { exists best_d. by rewrite Nat.add_0_r. }
  assert (all !! i = Some c) as Hc by (rewrite <-(Nat.add_0_r i), <-lookup_drop, Hall; done).
  assert (drop (S i) all = cs) as Hcs by (rewrite <-Nat.add_1_r, <-drop_drop, Hall; done).
  replace (i + S (length cs))%nat with (S i + length cs)%nat by lia.
  destruct Hinv as [Hmin Hbest]. destruct (f32_lt (sq_l2 v c) best_d) eqn:E; apply IH; [done| |done|].
  - assert (forall j c', (j < i)%nat -> all !! j = Some c' ->
      f32_is_nan (sq_l2 v c') = true \/ f32_lt (sq_l2 v c) (sq_l2 v c') = true) as Htie.
    { intros j c' Hj Hl. rewrite is_nan_rank. by apply (ltb_split _ (from_bits best_d)), (Hmin j). }
    split.
    + intros j c' Hj Hl. destruct (decide (j = i)) as [->|].
      { rewrite Hc in Hl. injection Hl as <-. apply not_true_iff_false. unfold f32_lt. rewrite ltb_rank.
        intros (a & b & Ha & Hb & Hlt). rewrite Ha in Hb. injection Hb as <-. unfold lex in Hlt. lia. }
      apply not_true_iff_false. intros Hlt. assert (f32_lt (sq_l2 v c') best_d = true) as Hx by by eapply ltb_trans.
      rewrite (Hmin j c') in Hx; [done|lia|done].
    + right. split; [lia|]. exists c. split_and!; [done..|]. intros j c' Hj. by apply Htie.
  - split.
    + intros j c' Hj Hl. destruct (decide (j = i)) as [->|]; [congruence|]. apply (Hmin j); [lia|done].
    + destruct Hbest as [?|(Hi & Hex)]; [by left|right]. split; [lia|done].
Qed.

Lemma nearest_lt : all <> [] -> (nearest_centroid v all < length all)%nat.
Proof.
  intros Hne. destruct (nearest_from_inv all 0 0 f32_INFINITY) as (d & _ & Hb); [done| |].
  { split; [lia|by left]. }
  fold (nearest_centroid v all) in Hb. destruct all; [done|]. cbn in *. destruct Hb as [[-> _]|[? _]]; lia.
Qed.

(** No centroid is nearer, and of those equally near it is the first. *)
Lemma nearest_least c : all !! nearest_centroid v all = Some c ->
  (forall j c', all !! j = Some c' -> f32_lt (sq_l2 v c') (sq_l2 v c) = false) /\
  (forall j c', (j < nearest_centroid v all)%nat -> all !! j = Some c' ->
     f32_is_nan (sq_l2 v c') = true \/ f32_lt (sq_l2 v c) (sq_l2 v c') = true).
Proof.
  intros Hc. destruct (nearest_from_inv all 0 0 f32_INFINITY) as (d & Hmin & Hb); [done| |].
  { split; [lia|by left]. }
  fold (nearest_centroid v all) in Hb. destruct Hb as [(H0 & ->)|(Hi & c1 & Hc1 & -> & Htie)].
  - split; [|rewrite H0; lia]. intros j c' Hj. apply not_true_iff_false. intros Hlt.
    pose proof (ltb_split _ _ (S754_infinity false) Hlt (ltb_infinity _)) as [[=]|Hinf].
    rewrite <-f32_INFINITY_eq in Hinf. change (f32_lt (sq_l2 v c') f32_INFINITY = true) in Hinf.
    rewrite (Hmin j c') in Hinf; [done| |done]. by apply lookup_lt_Some in Hj.
  - rewrite Hc in Hc1. injection Hc1 as <-. split; [|done].
    intros j c' Hj. apply (Hmin j); [|done]. by apply lookup_lt_Some in Hj.
Qed.
End Nearest.

Definition is_b32 (x : b32) : Prop := x < 2 ^ 32.
Definition vec_ok (d : nat) (v : vec) : Prop := length v = d /\ Forall is_b32 v.

(** ** Lemmas: clustering ends with every seed and every row in place *)

Lemma next_below_ok g n : n <> 0%nat -> exists i g', Xorshift128.next_below g n = Ret (i, g') /\ (i < n)%nat.
Proof.
  intros Hn. unfold Xorshift128.next_below. rewrite decide_False by done.
  destruct (Xorshift128.next_u64 g) as [x g']. do 2 eexists. split; [done|].
  pose proof (N.mod_lt x (N.of_nat n)). lia.
Qed.

Section ClusterLemmas.
Context (rows : list vec) (dim nlist : nat).
Local Abbreviation n := (length rows).
Hypothesis Hn : n <> 0%nat.
Hypothesis Hdim : Forall (vec_ok dim) rows.

Definition init_ok (s : Init) : Prop :=
  length (i_used s) = n /\ (length (i_centroids s) <= nlist)%nat /\ Forall (fun c => c ∈ rows) (i_centroids s).

Lemma rows_lookup i : (i < n)%nat -> exists r, rows !! i = Some r /\ vec_ok dim r.
Proof.
  intros Hi. destruct (lookup_lt_is_Some_2 rows i Hi) as [r Hr]. exists r. split; [done|].
  by apply (Forall_lookup_1 _ _ _ _ Hdim Hr).
Qed.

Lemma init_push s rng used r : init_ok s -> (length (i_centroids s) < nlist)%nat -> length used = n -> r ∈ rows ->
  init_ok {| i_rng := rng; i_used := used; i_centroids := i_centroids s ++ [r] |}.
Proof.
  intros (_ & Hl & Hf) Hlt Hu Hr. split_and!; cbn; [done|rewrite length_app; cbn; lia|].
  apply Forall_app. split; [done|]. by constructor.
Qed.

Lemma used_lookup s i : init_ok s -> (i < n)%nat -> exists b, i_used s !! i = Some b.
Proof. intros (Hu & _) Hi. apply lookup_lt_is_Some_2. lia. Qed.

Lemma sample_ok tries s : init_ok s -> exists s', sample rows nlist tries s = Ret s' /\ init_ok s'.
Proof.
  revert s. induction tries as [|tries IH]; intros s Hs; cbn [sample]; [eauto|].
  destruct (decide _) as [Hlt|]; [|eauto]. destruct (SplitMix64.next_u64 (i_rng s)) as [x rng].
  assert (N.to_nat (x mod N.of_nat (length rows)) < n)%nat as Hi.
  { pose proof (N.mod_lt x (N.of_nat (length rows))). lia. }
  set (idx := N.to_nat _) in *. destruct (used_lookup s idx Hs Hi) as [[|] Hu]; rewrite Hu; cbn [or_panic mbind outcome_bind].
  - apply IH. by destruct Hs as (? & ? & ?).
  - rewrite set_index_ok by (destruct Hs; lia). destruct (rows_lookup idx Hi) as (r & Hr & _).
    rewrite Hr. cbn. apply IH, init_push; [done..| |by eapply list_elem_of_lookup_2].
    rewrite length_insert. apply Hs.
Qed.

Lemma top_up_ok i s : (i < n)%nat -> init_ok s -> exists s', top_up rows nlist i s = Ret s' /\ init_ok s'.
Proof.
  intros Hi Hs. unfold top_up. destruct (decide _) as [Hlt|]; [|eauto].
  destruct (used_lookup s i Hs Hi) as [[|] Hu]; rewrite Hu; cbn [or_panic mbind outcome_bind]; [eauto|].
  rewrite set_index_ok by (destruct Hs; lia). destruct (rows_lookup i Hi) as (r & Hr & _).
  rewrite Hr. cbn. eexists. split; [done|]. apply init_push; [done..| |by eapply list_elem_of_lookup_2].
  rewrite length_insert. apply Hs.
Qed.

Lemma pad_ok missing cs : Forall (fun c => c ∈ rows) cs ->
  exists cs', pad rows missing cs = Ret cs' /\ length cs' = (length cs + missing)%nat /\ Forall (fun c => c ∈ rows) cs'.
Proof.
  revert cs. induction missing as [|k IH]; intros cs Hcs; cbn [pad].
  { exists cs. split_and!; [done|lia|done]. }
  assert (length cs mod length rows < n)%nat as Hi by by apply Nat.mod_upper_bound.
  destruct (rows_lookup _ Hi) as (r & Hr & _). rewrite Hr. cbn.
  destruct (IH (cs ++ [r])) as (cs' & -> & Hl & Hf).
  { apply Forall_app. split; [done|]. constructor; [by eapply list_elem_of_lookup_2|done]. }
  exists cs'. split_and!; [done| |done]. rewrite Hl, length_app. cbn. lia.
Qed.

Lemma seeds_ok : exists cs, seeds rows nlist = Ret cs /\ length cs = nlist /\ Forall (fun c => c ∈ rows) cs.
Proof.
  unfold seeds.
  destruct (sample_ok (length rows * 4) {| i_rng := SplitMix64.new KMEANS_SEED;
    i_used := replicate (length rows) false; i_centroids := [] |}) as (s1 & -> & H1).
  { split_and!; cbn; [apply length_replicate|lia|done]. }
  cbn [mbind outcome_bind].
  destruct (for_range_inv (top_up rows nlist) (fun _ s => init_ok s) 0 (length rows) s1) as (s2 & -> & H2); [done| |].
  { intros i s Hi Hs. destruct (top_up_ok i s) as (s' & ? & ?); [lia|done|eauto]. }
  cbn [mbind outcome_bind]. destruct H2 as (_ & Hl & Hf).
  destruct (pad_ok (nlist - length (i_centroids s2)) (i_centroids s2) Hf) as (cs & -> & Hcs & Hall).
  exists cs. split_and!; [done|lia|done].
Qed.

Definition means_ok (s : Means) : Prop :=
  length (m_centroids s) = nlist /\ length (m_counts s) = nlist /\ Forall (vec_ok dim) (m_centroids s).

Lemma pull_ok eta v cen : vec_ok dim v -> vec_ok dim cen ->
  exists cen', for_each (pull eta v) (seq 0 dim) cen = Ret cen' /\ vec_ok dim cen'.
Proof.
  intros [Hv _] Hc. destruct (for_range_inv (pull eta v) (fun _ => vec_ok dim) 0 dim cen) as (c' & Hl & ?); [done| |eauto].
  intros j c Hj [Hlen Hb]. unfold pull.
  destruct (lookup_lt_is_Some_2 c j) as [y ->]; [lia|]. destruct (lookup_lt_is_Some_2 v j) as [x ->]; [lia|].
  cbn. rewrite set_index_ok by lia. eexists. split; [done|]. split; [by rewrite length_insert|].
  apply Forall_insert; [done|]. apply to_bits_lt.
Qed.

Lemma means_update_ok s : nlist <> 0%nat -> means_ok s -> exists s', update rows dim s = Ret s' /\ means_ok s'.
Proof.
  intros Hnl (Hc & Hk & Hf). unfold update.
  destruct (next_below_ok (m_sampler s) (length rows) Hn) as (ri & g & -> & Hri). cbn [mbind outcome_bind].
  destruct (rows_lookup ri Hri) as (v & -> & Hv). cbn [or_panic mbind outcome_bind].
  assert (nearest_centroid v (m_centroids s) < nlist)%nat as Hlt.
  { rewrite <-Hc. apply nearest_lt. intros Hnil. by rewrite Hnil in Hc. }
  set (c := nearest_centroid _ _) in *.
  destruct (lookup_lt_is_Some_2 (m_counts s) c) as [k ->]; [lia|]. cbn [or_panic mbind outcome_bind].
  rewrite set_index_ok by lia. cbn [mbind outcome_bind].
  destruct (lookup_lt_is_Some_2 (m_centroids s) c) as [cen Hcen]; [lia|]. rewrite Hcen. cbn [or_panic mbind outcome_bind].
  destruct (pull_ok (f32_div f32_one (f32_of_N (k + 1))) v cen Hv) as (cen' & -> & Hlen).
  { by apply (Forall_lookup_1 _ _ _ _ Hf Hcen). }
  cbn [mbind outcome_bind]. rewrite set_index_ok by lia. cbn. eexists. split; [done|].
  split_and!; cbn; rewrite ?length_insert; [done..|]. by apply Forall_insert.
Qed.

Lemma kmeans_ok cs : nlist <> 0%nat -> length cs = nlist -> Forall (vec_ok dim) cs ->
  exists cs', kmeans rows dim nlist cs = Ret cs' /\ length cs' = nlist /\ Forall (vec_ok dim) cs'.
Proof.
  intros Hnl Hl Hf. unfold kmeans.
  edestruct (for_range_inv (E:=Empty_set) (fun _ => minibatch rows dim nlist) (fun _ s => means_ok s) 0 KMEANS_ITERS)
    as (s & Hs & Hc & _ & Hd); [| |rewrite Hs; cbn; eauto].
  - split_and!; cbn; [done|apply length_replicate|done].
  - intros _ s _ Hs. unfold minibatch.
    destruct (for_range_inv (fun _ => update rows dim) (fun _ s => means_ok s) 0 (batch rows nlist) s)
      as (s' & ? & ?); [done| |eauto].
    intros _ s' _ Hs'. by apply means_update_ok.
Qed.
End ClusterLemmas.

Lemma cluster_ok rows dim nlist : rows <> [] -> Forall (vec_ok dim) rows ->
  exists cs, cluster rows dim nlist = Ret {| centroids := cs; assignments := (fun v => nearest_centroid v cs) <$> rows |} /\
    length cs = N.to_nat (clamp (N.of_nat nlist) 1 (N.of_nat (length rows))) /\ Forall (vec_ok dim) cs.
Proof.
  intros Hne Hdim. assert (length rows <> 0%nat) as Hn by by destruct rows.
  unfold cluster. rewrite decide_False by done. set (k := N.to_nat _).
  assert (k <> 0%nat) as Hk.
  { subst k. unfold clamp. destruct (N.ltb_spec (N.of_nat nlist) 1); [done|].
    destruct (N.ltb_spec (N.of_nat (length rows)) (N.of_nat nlist)); lia. }
  destruct (seeds_ok rows dim k Hn Hdim) as (cs & -> & Hl & Hin). cbn [mbind outcome_bind].
  destruct (kmeans_ok rows dim k Hn Hdim cs Hk Hl) as (cs' & -> & Hl' & Hd).
  { eapply Forall_impl; [|exact Hin]. intros c Hc. apply Forall_forall with (x := c) in Hdim; [done|by apply list_elem_of_In]. }
  by exists cs'.
Qed.

Lemma choose_nlist_bounds n : (n <> 0 -> 1 <= choose_nlist n <= 256 /\ choose_nlist n <= n)%nat.
Proof.
  intros Hn. unfold choose_nlist. rewrite decide_False by done. unfold clamp.
  generalize (round_usize (f64_sqrt (f64_of_Z (Z.of_nat n)))) as s. intros s.
  destruct (N.ltb_spec s 16); [lia|]. destruct (N.ltb_spec 256 s); lia.
Qed.
