(* ===== verification/VectorFile.v ===== *)
(** * The vector sidecar file ([pensieve-index-vector/src/rabitq.rs], [file.rs])

    The one-bit codes of the rows, the distance they estimate, and the [KYIV]
    blob that holds centroids and posting lists: written whole, read back a
    header, the centroids or one partition at a time.  Offsets are [usize] of
    64 bits; an addition the code leaves unchecked panics on overflow, as a
    checked build does. *)

From stdpp Require Import base list strings numbers sorting.
From Stdlib Require Import NArith ZArith Lia Ascii SpecFloat.
From S2P Require Import Prelude Bytes Arrow FtsFile VectorMath.

Local Open Scope N_scope.

(** ** One-bit codes ([rabitq.rs]) *)

Definition ROTATION_SEED : N := 0x5249425651414243.
Definition RABITQ_VERSION : N := 1.

Definition code_len (dim : N) : N := (dim + 7) / 8.

Record Rotation := { r_dim : nat; mat : vec }.

Section Rotate.
Context (ln cos : f64 -> f64).

(** [n] draws, in order. *)
Fixpoint draw (n : nat) (g : SplitMix64.t) : list f64 * SplitMix64.t :=
  match n with
  | O => ([], g)
  | S n =>
      let '(x, g) := SplitMix64.next_gaussian ln cos g in
      let '(xs, g) := draw n g in
      (x :: xs, g)
  end.

Fixpoint draw_rows (rows dim : nat) (g : SplitMix64.t) : list (list f64) :=
  match rows with
  | O => []
  | S rows => let '(xs, g) := draw dim g in xs :: draw_rows rows dim g
  end.

(** Subtract from [cur] its projection onto the finished row [prev]. *)
Definition project (cur prev : list f64) : list f64 :=
  let dot := f64_sum (zip_with f64_mul prev cur) in
  zip_with (fun c p => f64_sub c (f64_mul dot p)) cur prev.

Definition normalize_row (row : list f64) : list f64 :=
  let n := f64_sqrt (f64_sum ((fun x => f64_mul x x) <$> row)) in
  if f64_lt f64_1e_12 n then (fun x => f64_div x n) <$> row else row.

(** Modified Gram-Schmidt: each row against the rows before it. *)
Definition orthonormalize (rows : list (list f64)) : list (list f64) :=
  foldl (fun finished cur => finished ++ [normalize_row (foldl project cur finished)]) [] rows.

Definition rotation (dim : nat) : Rotation :=
  let seed := N.lxor ROTATION_SEED (wrapping_mul64 (N.of_nat dim) 0x9E3779B9) in
  let rows := orthonormalize (draw_rows dim dim (SplitMix64.new seed)) in
  {| r_dim := dim; mat := (fun x => to_bits (f32_of_f64 x)) <$> concat rows |}.
End Rotate.

Definition dot32 (row v : vec) : b32 := foldl (fun acc ab => f32_add acc (f32_mul ab.1 ab.2)) f32_zero (zip row v).

(** [Rotation::apply] *)
Definition apply (rot : Rotation) (v : vec) : vec :=
  (fun r => dot32 (take (r_dim rot) (drop (r * r_dim rot) (mat rot))) v) <$> seq 0 (r_dim rot).

Record VectorCode := { code : bytes; correction : b32 }.

Definition set_bit (i : nat) (b : u8) : u8 := byte_of (N.lor (N_of_ascii b) (N.shiftl 1 (N.of_nat (i mod 8)))).

(** The coordinates from [i] on; [i / 8] is inside the code. *)
Fixpoint pack_from (i : nat) (rotated : vec) (c : bytes) : bytes :=
  match rotated with
  | [] => c
  | x :: rotated => pack_from (S i) rotated (if f32_le f32_zero x then alter (set_bit i) (i / 8)%nat c else c)
  end.

Definition pack_signs (rotated : vec) : bytes :=
  pack_from 0 rotated (replicate (N.to_nat (code_len (N.of_nat (length rotated)))) (byte_of 0)).

Definition encode_rotated (rotated : vec) : VectorCode :=
  let dim := N.of_nat (length rotated) in
  let abs_sum := f32_sum (f32_abs <$> rotated) in
  let dot := f32_div abs_sum (f32_sqrt (f32_of_N dim)) in
  {| code := pack_signs rotated;
     correction := if f32_lt f32_1e_12 dot then f32_div f32_one dot else f32_zero |}.

Record QueryCode := { rotated : vec }.
Definition encode_query_rotated (v : vec) : QueryCode := {| rotated := v |}.

Definition sign_bit (c : bytes) (i : nat) : infallible bool :=
  b ← or_panic (c !! (i / 8)%nat);
  Ret (N.testbit (N_of_ascii b) (N.of_nat (i mod 8))).

(** The signed sum of the query's coordinates from [i] on. *)
Fixpoint signed_sum (c : bytes) (i : nat) (q : vec) (acc : b32) : infallible b32 :=
  match q with
  | [] => Ret acc
  | x :: q =>
      s ← sign_bit c i;
      signed_sum c (S i) q (if s : bool then f32_add acc x else f32_sub acc x)
  end.

Definition estimate_distance (vc : VectorCode) (qc : QueryCode) : infallible b32 :=
  acc ← signed_sum (code vc) 0 (rotated qc) f32_zero;
  let ip_est := f32_div (f32_mul (correction vc) acc) (f32_sqrt (f32_of_N (N.of_nat (length (rotated qc))))) in
  Ret (f32_sub f32_one ip_est).

(** ** The blob ([file.rs]) *)

Definition MAGIC : bytes := as_bytes "KYIV".
Definition FORMAT_VERSION : N := 1.
Definition METRIC_COSINE : N := 0.

Inductive Damage :=
  | OffsetOverflow | ModelIdOverflow | ModelIdNotUtf8 | DirectorySize | DirectoryEnd
  | FooterMismatch (dir_end expected : N) | PartitionEnd | EntryOffset | EntryPastEnd (need limit : N)
  | QueryDim (query index : N).

Inductive SidecarError :=
  | TooShort (need have : N)
  | BadMagic
  | UnsupportedVersion (v : N)
  | Corrupt (why : Damage)
  | PartitionOutOfRange (idx nlist : N).

Record Entry := { addr : RowAddress; e_code : VectorCode }.

Record Header := {
  version : N; dim : N; metric : N; nlist : N; model_id : option string; centroids_offset : N
}.

Definition rd (width : nat) (buf : bytes) (off : N) : outcome SidecarError N :=
  read_le (Corrupt OffsetOverflow) TooShort width buf off.
Definition rd_u32 := rd 4.
Definition rd_u64 := rd 8.
Definition rd_f32 : bytes -> N -> outcome SidecarError b32 := rd 4.

(** *** Writing *)

Definition entry_bytes (e : Entry) : bytes :=
  le_bytes 4 (block (addr e)) ++ le_bytes 4 (row (addr e)) ++ code (e_code e) ++ le_bytes 4 (correction (e_code e)).

Definition partition_bytes (part : list Entry) : bytes :=
  le_bytes 4 (N.of_nat (length part)) ++ concat (entry_bytes <$> part).

Definition write_partition (st : bytes * list (N * N)) (part : list Entry) : bytes * list (N * N) :=
  let '(buf, directory) := st in
  let buf' := buf ++ partition_bytes part in
  (buf', directory ++ [(blen buf, blen buf' - blen buf)]).

Definition header_bytes (magic : bytes) (version dim metric nlist : N) (model_id : option string) : bytes :=
  let model := as_bytes (default EmptyString model_id) in
  magic ++ le_bytes 4 version ++ le_bytes 4 dim ++ [byte_of metric] ++ le_bytes 4 nlist ++
  le_bytes 4 (blen model) ++ model.

Definition centroid_bytes (cs : list vec) : bytes := concat ((fun c => concat (le_bytes 4 <$> c)) <$> cs).

Definition directory_bytes (directory : list (N * N)) : bytes :=
  concat ((fun d => le_bytes 8 d.1 ++ le_bytes 8 d.2) <$> directory).

Definition write (dim : nat) (metric : N) (centroids : list vec) (partitions : list (list Entry))
    (model_id : option string) : infallible bytes :=
  if decide (length centroids <> length partitions) then Panic
  else
    let buf := header_bytes MAGIC FORMAT_VERSION (N.of_nat dim) metric (N.of_nat (length centroids)) model_id ++
               centroid_bytes centroids in
    let '(buf, directory) := foldl write_partition (buf, []) partitions in
    Ret (buf ++ directory_bytes directory ++ le_bytes 8 (blen buf) ++ MAGIC).

(** *** Reading *)

Definition read_header (buf : bytes) : outcome SidecarError Header :=
  if decide (blen buf < 4) then Fail (TooShort 4 (blen buf))
  else
    head ← or_panic (bslice buf 0 4);
    if decide (head <> MAGIC) then Fail BadMagic
    else
      v ← rd_u32 buf 4;
      if decide (v <> FORMAT_VERSION) then Fail (UnsupportedVersion v)
      else
        d ← rd_u32 buf 8;
        m ← or_fail (TooShort 13 (blen buf)) (buf !! 12%nat);
        k ← rd_u32 buf 13;
        model_len ← rd_u32 buf 17;
        model_end ← or_fail (Corrupt ModelIdOverflow) (checked_add 21 model_len);
        model ← or_fail (TooShort model_end (blen buf)) (bslice buf 21 model_end);
        id ← (if decide (model_len = 0) then Ret None
              else if valid_utf8 model then Ret (Some (of_bytes model)) else Fail (Corrupt ModelIdNotUtf8));
        Ret {| version := v; dim := d; metric := N_of_ascii m; nlist := k; model_id := id;
               centroids_offset := model_end |}.

(** [k] values of binary32 from [off] on, with the offset after them. *)
Fixpoint read_vec (k : nat) (buf : bytes) (off : N) : outcome SidecarError (vec * N) :=
  match k with
  | O => Ret ([], off)
  | S k =>
      x ← rd_f32 buf off;
      off ← add_usize off 4;
      '(xs, off) ← read_vec k buf off;
      Ret (x :: xs, off)
  end.

Fixpoint read_vecs (count dim : nat) (buf : bytes) (off : N) : outcome SidecarError (list vec * N) :=
  match count with
  | O => Ret ([], off)
  | S count =>
      '(c, off) ← read_vec dim buf off;
      '(cs, off) ← read_vecs count dim buf off;
      Ret (c :: cs, off)
  end.

Definition read_centroids (buf : bytes) (h : Header) : outcome SidecarError (list vec) :=
  fst <$> read_vecs (N.to_nat (nlist h)) (N.to_nat (dim h)) buf (centroids_offset h).

Definition read_footer_directory (buf : bytes) (nlist : N) : outcome SidecarError N :=
  if decide (blen buf < 12) then Fail (TooShort 12 (blen buf))
  else
    let tail := blen buf in
    last ← or_panic (bslice buf (tail - 4) tail);
    if decide (last <> MAGIC) then Fail BadMagic
    else
      footer_offset ← rd_u64 buf (tail - 12);
      dir_bytes ← or_fail (Corrupt DirectorySize) (checked_mul nlist 16);
      dir_end ← or_fail (Corrupt DirectoryEnd) (checked_add footer_offset dir_bytes);
      if decide (dir_end <> tail - 12) then Fail (Corrupt (FooterMismatch dir_end (tail - 12)))
      else Ret footer_offset.

(** One entry at [off] of a partition that ends at [limit], with the offset
    after it. *)
Definition decode_entry (buf : bytes) (limit dim off : N) : outcome SidecarError (Entry * N) :=
  let clen := code_len dim in
  needed ← or_fail (Corrupt EntryOffset) (checked_add off (4 + 4 + clen + 4));
  if decide (limit < needed) then Fail (Corrupt (EntryPastEnd needed limit))
  else
    b ← rd_u32 buf off;
    off4 ← add_usize off 4;
    r ← rd_u32 buf off4;
    off8 ← add_usize off 8;
    code_end ← add_usize off8 clen;
    c ← or_panic (bslice buf off8 code_end);
    corr ← rd_f32 buf code_end;
    Ret ({| addr := {| block := b; row := r |}; e_code := {| code := c; correction := corr |} |}, needed).

Fixpoint decode_entries (count : nat) (buf : bytes) (limit dim off : N) : outcome SidecarError (list Entry) :=
  match count with
  | O => Ret []
  | S count =>
      '(e, off) ← decode_entry buf limit dim off;
      es ← decode_entries count buf limit dim off;
      Ret (e :: es)
  end.

Definition decode_partition (buf : bytes) (start limit dim : N) : outcome SidecarError (list Entry) :=
  count ← rd_u32 buf start;
  off ← add_usize start 4;
  decode_entries (N.to_nat count) buf limit dim off.

Definition read_partition (buf : bytes) (h : Header) (idx : N) : outcome SidecarError (list Entry) :=
  if decide (nlist h <= idx) then Fail (PartitionOutOfRange idx (nlist h))
  else
    footer_offset ← read_footer_directory buf (nlist h);
    dir_entry_off ← add_usize footer_offset (idx * 16);
    part_off ← rd_u64 buf dir_entry_off;
    len_off ← add_usize dir_entry_off 8;
    part_len ← rd_u64 buf len_off;
    part_end ← or_fail (Corrupt PartitionEnd) (checked_add part_off part_len);
    if decide (blen buf < part_end) then Fail (TooShort part_end (blen buf))
    else decode_partition buf part_off part_end (dim h).

(** *** Probing *)

(** [partial_cmp(..).unwrap_or(Equal).then(index)] on (index, distance).  With
    a NaN among the distances this is no order, and what [sort_by] makes of
    the list is then its own affair. *)
Definition by_distance (a b : nat * b32) : comparison :=
  match default Eq (f32_partial_cmp a.2 b.2) with Eq => (a.1 ?= b.1)%nat | c => c end.

Definition scores (q : vec) (cs : list vec) : list (nat * b32) := imap (fun i c => (i, sq_l2 q c)) cs.

Definition probe (buf : bytes) (h : Header) (query : vec) (nprobe : nat) : outcome SidecarError (list nat) :=
  cs ← read_centroids buf h;
  if decide (N.of_nat (length query) <> dim h) then
    Fail (Corrupt (QueryDim (N.of_nat (length query)) (dim h)))
  else
    let scored := sort_by by_distance (scores query cs) in
    Ret (fst <$> take (nprobe `min` length scored) scored).

(** ** Lemmas: codes *)

Lemma lor_lt a b k : a < 2 ^ k -> b < 2 ^ k -> N.lor a b < 2 ^ k.
Proof.
  intros Ha Hb. destruct (N.eq_0_gt_0_cases (N.lor a b)) as [->|Hpos]; [lia|].
  apply N.log2_lt_pow2; [done|]. rewrite N.log2_lor.
  assert (forall x, x < 2 ^ k -> k <> 0 -> N.log2 x < k) as Hlog.
  { intros x Hx Hk. destruct (N.eq_0_gt_0_cases x) as [->|]; [cbn; lia|]. by apply N.log2_lt_pow2. }
  destruct (N.eq_0_gt_0_cases k) as [->|Hk].
  { change (2 ^ 0) with 1 in Ha, Hb. assert (a = 0) by lia. assert (b = 0) by lia. subst. done. }
  apply N.max_lub_lt; apply Hlog; lia.
Qed.

Definition bit (c : bytes) (j : nat) : bool :=
  match c !! (j / 8)%nat with Some b => N.testbit (N_of_ascii b) (N.of_nat (j mod 8)) | None => false end.

Lemma bit_set c i j : (i / 8 < length c)%nat ->
  bit (alter (set_bit i) (i / 8)%nat c) j = bit c j || bool_decide (i = j).
Proof.
  intros Hi. unfold bit. destruct (decide (i / 8 = j / 8)%nat) as [Heq|Hne].
  - rewrite <-Heq, list_lookup_alter_eq. destruct (lookup_lt_is_Some_2 c (i / 8)) as [b Hb]; [done|]. rewrite Hb. cbn [fmap option_fmap option_map].
    assert (i mod 8 < 8 /\ j mod 8 < 8)%nat as [] by (split; by apply Nat.mod_upper_bound).
    unfold set_bit. rewrite N_of_byte_of.
    2:{ apply (lor_lt _ _ 8); [apply u8_lt|]. rewrite N.shiftl_1_l. apply N.pow_lt_mono_r; lia. }
    rewrite N.lor_spec, N.shiftl_1_l. f_equal. rewrite N.pow2_bits_eqb.
    pose proof (Nat.div_mod_eq i 8). pose proof (Nat.div_mod_eq j 8).
    destruct (N.eqb_spec (N.of_nat (i mod 8)) (N.of_nat (j mod 8))); case_bool_decide; [done|lia|subst; lia|done].
  - rewrite list_lookup_alter_ne by done. rewrite bool_decide_eq_false_2 by (intros ->; done). by rewrite orb_false_r.
Qed.

Lemma bit_pack_from v i c j : (i + length v <= 8 * length c)%nat ->
  bit (pack_from i v c) j = bit c j || match v !! (j - i)%nat with
                                       | Some x => bool_decide (i <= j)%nat && f32_le f32_zero x
                                       | None => false end.
Proof.
  revert i c. induction v as [|x v IH]; intros i c Hlen; cbn [pack_from length] in *.
  { by rewrite orb_false_r. }
  assert (i / 8 < length c)%nat as Hi by (apply Nat.Div0.div_lt_upper_bound; lia).
  rewrite IH. 2:{ destruct (f32_le _ _); rewrite ?length_alter; lia. }
  assert (bit (if f32_le f32_zero x then alter (set_bit i) (i / 8)%nat c else c) j =
          bit c j || (bool_decide (i = j) && f32_le f32_zero x)) as ->.
  { destruct (f32_le f32_zero x); [rewrite bit_set by done; by rewrite andb_true_r|by rewrite andb_false_r, orb_false_r]. }
  rewrite <-orb_assoc. f_equal.
  assert (forall o : option b32, (j <= i)%nat ->
    match o with Some x => bool_decide (S i <= j)%nat && f32_le f32_zero x | None => false end = false) as Hlate.
  { intros [y|] Hji; [by rewrite bool_decide_eq_false_2 by lia|done]. }
  destruct (lt_eq_lt_dec i j) as [[Hlt|Heq]|Hgt].
  - rewrite (bool_decide_eq_false_2 (i = j)) by lia. replace (j - i)%nat with (S (j - S i)) by lia. cbn [lookup list_lookup].
    cbn. destruct (v !! _); [|done]. by rewrite !bool_decide_eq_true_2 by lia.
  - subst j. rewrite Hlate, Nat.sub_diag, !bool_decide_eq_true_2 by lia. by rewrite orb_false_r.
  - rewrite Hlate by lia. replace (j - i)%nat with 0%nat by lia. cbn. by rewrite !bool_decide_eq_false_2 by lia.
Qed.

Lemma length_pack_from v i c : length (pack_from i v c) = length c.
Proof.
  revert i c. induction v as [|x v IH]; intros i c; cbn [pack_from]; [done|]. rewrite IH.
  destruct (f32_le _ _); by rewrite ?length_alter.
Qed.

Lemma length_pack_signs v : N.of_nat (length (pack_signs v)) = code_len (N.of_nat (length v)).
Proof. unfold pack_signs. rewrite length_pack_from, length_replicate. lia. Qed.

Lemma code_len_enough d : d <= 8 * code_len d.
Proof. unfold code_len. pose proof (N.div_mod (d + 7) 8). pose proof (N.mod_lt (d + 7) 8). lia. Qed.

(** A stored sign bit is the sign of the coordinate it was packed from. *)
Lemma sign_bit_pack v i x : v !! i = Some x -> sign_bit (pack_signs v) i = Ret (f32_le f32_zero x).
Proof.
  intros Hx. pose proof (code_len_enough (N.of_nat (length v))). pose proof (length_pack_signs v) as Hl.
  pose proof (lookup_lt_Some _ _ _ Hx) as Hi.
  assert (bit (pack_signs v) i = f32_le f32_zero x) as <-.
  { unfold pack_signs. rewrite bit_pack_from by (rewrite length_replicate; lia).
    rewrite Nat.sub_0_r, Hx, bool_decide_eq_true_2 by lia. cbn.
    unfold bit. rewrite lookup_replicate_2; [done|]. apply Nat.Div0.div_lt_upper_bound. lia. }
  unfold sign_bit, bit. destruct (lookup_lt_is_Some_2 (pack_signs v) (i / 8)) as [b ->]; [|done].
  apply Nat.Div0.div_lt_upper_bound. lia.
Qed.

(** The signed sum against a code, with the signs in clear. *)
Fixpoint signed_by (signs : list bool) (q : vec) (acc : b32) : b32 :=
  match signs, q with
  | s :: signs, x :: q => signed_by signs q (if s : bool then f32_add acc x else f32_sub acc x)
  | _, _ => acc
  end.

Lemma signed_sum_eq c signs : forall i q acc, length q = length signs ->
  (forall j s, signs !! j = Some s -> sign_bit c (i + j)%nat = Ret s) ->
  signed_sum c i q acc = Ret (signed_by signs q acc).
Proof.
  induction signs as [|s signs IH]; intros i [|x q] acc Hlen Hs; try done; cbn [signed_sum signed_by].
  rewrite <-(Nat.add_0_r i) at 1. rewrite (Hs 0%nat s) by done. cbn [mbind outcome_bind].
  apply IH; [cbn in Hlen; lia|]. intros j s' Hj. replace (S i + j)%nat with (i + S j)%nat by lia. by apply Hs.
Qed.

(** ** Lemmas: the layout *)

Lemma rd_written width a c x off : off = blen a -> x < 256 ^ N.of_nat width -> blen a + N.of_nat width < 2 ^ 64 ->
  rd width (a ++ le_bytes width x ++ c) off = Ret x.
Proof. apply read_le_app. Qed.

(** The directory of partitions laid out from [start] on. *)
Fixpoint directory_of (start : N) (parts : list (list Entry)) : list (N * N) :=
  match parts with
  | [] => []
  | p :: parts => (start, blen (partition_bytes p)) :: directory_of (start + blen (partition_bytes p)) parts
  end.

Definition parts_bytes (parts : list (list Entry)) : bytes := concat (partition_bytes <$> parts).

Lemma write_partitions parts buf d :
  foldl write_partition (buf, d) parts = (buf ++ parts_bytes parts, d ++ directory_of (blen buf) parts).
Proof.
  revert buf d. induction parts as [|p parts IH]; intros buf d; cbn [foldl directory_of].
  { unfold parts_bytes. cbn. by rewrite !app_nil_r. }
  cbn [write_partition]. rewrite IH, !blen_app. unfold parts_bytes. cbn [fmap list_fmap concat].
  rewrite <-!app_assoc. replace (blen buf + blen (partition_bytes p) - blen buf) with (blen (partition_bytes p)) by lia.
  done.
Qed.

Definition blob (dim : nat) (metric : N) (cs : list vec) (parts : list (list Entry)) (id : option string) : bytes :=
  let head := header_bytes MAGIC FORMAT_VERSION (N.of_nat dim) metric (N.of_nat (length cs)) id ++ centroid_bytes cs in
  head ++ parts_bytes parts ++ directory_bytes (directory_of (blen head) parts) ++
  le_bytes 8 (blen head + blen (parts_bytes parts)) ++ MAGIC.

Lemma write_blob dim metric cs parts id : length cs = length parts ->
  write dim metric cs parts id = Ret (blob dim metric cs parts id).
Proof.
  intros Hl. unfold write, blob. rewrite decide_False by (intros Hn; by apply Hn).
  rewrite write_partitions, app_nil_l, (blen_app _ (parts_bytes parts)). by rewrite <-!app_assoc.
Qed.

(** *** The header, whatever follows it *)

Section HeaderFields.
Context {E : Type} (overflow : E) (too_short : N -> N -> E).
Context (magic : bytes) (v d m k : N) (id : option string) (rest : bytes).
Context (Hmagic : length magic = 4%nat) (Hv : v < 2 ^ 32) (Hd : d < 2 ^ 32) (Hk : k < 2 ^ 32) (Hm : m < 256).
Let model := as_bytes (default EmptyString id).
Context (Hid : blen model < 2 ^ 32).
Let buf := header_bytes magic v d m k id ++ rest.

Lemma blen_magic : blen magic = 4.
Proof using Hmagic. unfold blen. by rewrite Hmagic. Qed.

Lemma blen_header : blen (header_bytes magic v d m k id) = 21 + blen model.
Proof using Hmagic.
  unfold header_bytes. rewrite !blen_app, !blen_le_bytes, blen_magic. fold model. unfold blen at 1. cbn [length].
  generalize (blen model). clear. lia.
Qed.

Lemma header_magic : bslice buf 0 4 = Some magic.
Proof. subst buf. unfold header_bytes. rewrite <-!app_assoc. apply (bslice_app []); by rewrite ?blen_magic. Qed.


Lemma header_version : read_le overflow too_short 4 buf 4 = Ret v.
Proof. subst buf. unfold header_bytes. rewrite <-!app_assoc. apply read_le_app; rewrite ?blen_magic; done. Qed.

Lemma header_dim : read_le overflow too_short 4 buf 8 = Ret d.
Proof.
  subst buf. unfold header_bytes. rewrite <-!app_assoc, (app_assoc magic).
  apply read_le_app; rewrite ?blen_app, ?blen_magic, ?blen_le_bytes; done.
Qed.

Lemma header_metric : buf !! 12%nat = Some (byte_of m).
Proof.
  subst buf. unfold header_bytes. rewrite <-!app_assoc, (app_assoc magic), (app_assoc (magic ++ _)).
  rewrite lookup_app_r by (rewrite !length_app, !length_le_bytes, Hmagic; lia).
  by rewrite !length_app, !length_le_bytes, Hmagic.
Qed.

Lemma header_nlist : read_le overflow too_short 4 buf 13 = Ret k.
Proof.
  subst buf. unfold header_bytes.
  rewrite <-!app_assoc, (app_assoc magic), (app_assoc (magic ++ _)), (app_assoc ((magic ++ _) ++ _)).
  apply read_le_app; rewrite ?blen_app, ?blen_magic, ?blen_le_bytes; done.
Qed.

Lemma header_model_len : read_le overflow too_short 4 buf 17 = Ret (blen model).
Proof.
  subst buf. unfold header_bytes. fold model.
  rewrite <-!app_assoc, (app_assoc magic), (app_assoc (magic ++ _)), (app_assoc ((magic ++ _) ++ _)),
    (app_assoc (((magic ++ _) ++ _) ++ _)).
  apply read_le_app; rewrite ?blen_app, ?blen_magic, ?blen_le_bytes; done.
Qed.

Lemma header_model : bslice buf 21 (21 + blen model) = Some model.
Proof.
  subst buf. unfold header_bytes. fold model.
  rewrite <-!app_assoc, (app_assoc magic), (app_assoc (magic ++ _)), (app_assoc ((magic ++ _) ++ _)),
    (app_assoc (((magic ++ _) ++ _) ++ _)), (app_assoc ((((magic ++ _) ++ _) ++ _) ++ _)).
  apply bslice_app; rewrite ?blen_app, ?blen_magic, ?blen_le_bytes; done.
Qed.
End HeaderFields.

(** A model id that reads back as itself: absent, or text that is not empty. *)
Definition model_ok (id : option string) : Prop :=
  blen (as_bytes (default EmptyString id)) < 2 ^ 32 /\ forall s, id = Some s -> s <> EmptyString /\ is_str s.

Lemma blen_zero_model id : model_ok id -> blen (as_bytes (default EmptyString id)) = 0 <-> id = None.
Proof.
  intros (_ & Hs). destruct id as [s|]; cbn; [|done]. destruct (Hs s) as [Hne _]; [done|].
  split; [|done]. destruct s; [done|]. unfold blen. cbn. lia.
Qed.

Lemma read_header_written d m k id rest : d < 2 ^ 32 -> k < 2 ^ 32 -> m < 256 -> model_ok id ->
  let head := header_bytes MAGIC FORMAT_VERSION d m k id in
  read_header (head ++ rest) =
    Ret {| version := FORMAT_VERSION; dim := d; metric := m; nlist := k; model_id := id; centroids_offset := blen head |}.
Proof.
  intros Hd Hk Hm Hid head. destruct (Hid) as (Hlen & Hs).
  pose proof (blen_header MAGIC FORMAT_VERSION d m k id eq_refl) as Hhead. fold head in Hhead.
  unfold read_header. rewrite decide_False by (rewrite blen_app; lia).
  unfold head. rewrite header_magic by done. cbn [or_panic mbind outcome_bind]. rewrite decide_False by (intros Hn; by apply Hn).
  unfold rd_u32, rd. rewrite header_version by done. cbn [mbind outcome_bind]. rewrite decide_False by (intros Hn; by apply Hn).
  rewrite header_dim by done. cbn [mbind outcome_bind]. rewrite header_metric by done. cbn [or_fail mbind outcome_bind].
  rewrite header_nlist by done. cbn [mbind outcome_bind]. rewrite header_model_len by done. cbn [mbind outcome_bind].
  rewrite checked_add_ok by lia. cbn [or_fail mbind outcome_bind].
  rewrite header_model by done. cbn [or_fail mbind outcome_bind]. fold head.
  rewrite N_of_byte_of by done. destruct (decide _) as [H0|Hne].
  - apply (blen_zero_model id Hid) in H0. subst id. cbn [mbind outcome_bind]. by rewrite Hhead.
  - destruct id as [s|]; [|done]. destruct (Hs s) as [_ Hstr]; [done|]. change (default EmptyString (Some s)) with s in *. unfold is_str in Hstr.
    rewrite Hstr, of_as_bytes. cbn [mbind outcome_bind]. by rewrite Hhead.
Qed.

(** *** The centroids *)

Lemma blen_directory dir : blen (directory_bytes dir) = 16 * N.of_nat (length dir).
Proof.
  unfold directory_bytes. induction dir as [|d dir IH]; [done|]. cbn [fmap list_fmap concat length].
  rewrite !blen_app, !blen_le_bytes, IH. lia.
Qed.

(** Side conditions of a read: where the bytes start, and how large they are. *)
Ltac rd_side :=
  rewrite ?blen_app, ?blen_le_bytes, ?blen_directory in *; first [done | assumption | cbn [length] in *; lia].

Lemma read_vec_written v pre post off : Forall is_b32 v -> off = blen pre ->
  blen pre + 4 * N.of_nat (length v) < 2 ^ 64 ->
  read_vec (length v) (pre ++ concat (le_bytes 4 <$> v) ++ post) off = Ret (v, off + 4 * N.of_nat (length v)).
Proof.
  intros Hv. revert pre off. induction Hv as [|x v Hx Hv IH]; intros pre off -> Hlen; cbn [read_vec length fmap list_fmap concat].
  { do 2 f_equal. lia. }
  rewrite <-!app_assoc. unfold rd_f32. rewrite rd_written by rd_side. cbn [mbind outcome_bind].
  rewrite add_usize_ok by (cbn [length] in Hlen; lia). cbn [mbind outcome_bind].
  rewrite (app_assoc pre), (IH (pre ++ le_bytes 4 x));
    [|by rewrite blen_app, blen_le_bytes|rewrite blen_app, blen_le_bytes; cbn [length] in Hlen; lia].
  cbn [mbind outcome_bind]. do 2 f_equal. lia.
Qed.

Lemma blen_concat_le {A} k (f : A -> N) (l : list A) : blen (concat ((fun x => le_bytes k (f x)) <$> l)) = N.of_nat k * N.of_nat (length l).
Proof. induction l as [|x l IH]; cbn [fmap list_fmap concat length]; [unfold blen; cbn; lia|]. rewrite blen_app, blen_le_bytes, IH. lia. Qed.

Lemma blen_vec v : blen (concat (le_bytes 4 <$> v)) = 4 * N.of_nat (length v).
Proof. apply (blen_concat_le 4 id). Qed.

Lemma read_vecs_written cs d pre post off : Forall (vec_ok d) cs -> off = blen pre ->
  blen pre + blen (centroid_bytes cs) < 2 ^ 64 ->
  read_vecs (length cs) d (pre ++ centroid_bytes cs ++ post) off = Ret (cs, off + blen (centroid_bytes cs)).
Proof.
  intros Hc. revert pre off. induction Hc as [|c cs [Hd Hv] Hc IH]; intros pre off -> Hlen; cbn [read_vecs length].
  { change (blen (centroid_bytes [])) with 0. by rewrite N.add_0_r. }
  unfold centroid_bytes in *. cbn [fmap list_fmap concat] in *. rewrite blen_app, blen_vec in *. rewrite <-app_assoc.
  rewrite <-Hd at 1. rewrite read_vec_written by rd_side. cbn [mbind outcome_bind].
  rewrite app_assoc, (IH (pre ++ concat (le_bytes 4 <$> c)));
    [|by rewrite blen_app, blen_vec|rewrite blen_app, blen_vec; lia].
  cbn [mbind outcome_bind]. do 2 f_equal. lia.
Qed.

(** *** The partitions *)

Definition entry_ok (d : N) (e : Entry) : Prop :=
  block (addr e) < 2 ^ 32 /\ row (addr e) < 2 ^ 32 /\ blen (code (e_code e)) = code_len d /\
  is_b32 (correction (e_code e)).

Lemma blen_entry d e : entry_ok d e -> blen (entry_bytes e) = 4 + 4 + code_len d + 4.
Proof. intros (_ & _ & Hc & _). unfold entry_bytes. rewrite !blen_app, !blen_le_bytes, Hc. lia. Qed.

Lemma decode_entry_written d e pre post limit off : entry_ok d e -> off = blen pre ->
  blen pre + blen (entry_bytes e) <= limit -> limit < 2 ^ 64 ->
  decode_entry (pre ++ entry_bytes e ++ post) limit d off = Ret (e, off + blen (entry_bytes e)).
Proof.
  intros He -> Hlim Hmax. rewrite (blen_entry d) in * by done. destruct He as (Hb & Hr & Hc & Hx).
  unfold decode_entry. rewrite checked_add_ok by lia. cbn [or_fail mbind outcome_bind].
  rewrite decide_False by lia. unfold entry_bytes. rewrite <-!app_assoc.
  unfold rd_u32, rd_f32. rewrite rd_written by rd_side. cbn [mbind outcome_bind].
  rewrite (add_usize_ok (blen pre) 4), (add_usize_ok (blen pre) 8) by lia. cbn [mbind outcome_bind].
  rewrite (app_assoc pre), rd_written by rd_side. cbn [mbind outcome_bind].
  rewrite add_usize_ok by lia. cbn [mbind outcome_bind].
  rewrite (app_assoc (pre ++ _)), bslice_app by (rewrite ?blen_app, ?blen_le_bytes; lia). cbn [or_panic mbind outcome_bind].
  rewrite (app_assoc ((pre ++ _) ++ _)), rd_written by rd_side.
  cbn [mbind outcome_bind]. by destruct e as [[] []].
Qed.

Lemma decode_entries_written d es pre post limit off : Forall (entry_ok d) es -> off = blen pre ->
  blen pre + blen (concat (entry_bytes <$> es)) <= limit -> limit < 2 ^ 64 ->
  decode_entries (length es) (pre ++ concat (entry_bytes <$> es) ++ post) limit d off = Ret es.
Proof.
  intros Hes. revert pre off. induction Hes as [|e es He Hes IH]; intros pre off -> Hlim Hmax; [done|].
  cbn [decode_entries length fmap list_fmap concat] in *. rewrite blen_app in Hlim. rewrite <-app_assoc.
  rewrite decode_entry_written by rd_side. cbn [mbind outcome_bind].
  rewrite app_assoc, (IH (pre ++ entry_bytes e)); [done|by rewrite blen_app|rewrite blen_app; lia|done].
Qed.

Definition part_ok (d : N) (part : list Entry) : Prop := N.of_nat (length part) < 2 ^ 32 /\ Forall (entry_ok d) part.

Lemma decode_partition_written d part pre post off : part_ok d part -> off = blen pre ->
  blen pre + blen (partition_bytes part) < 2 ^ 64 ->
  decode_partition (pre ++ partition_bytes part ++ post) off (off + blen (partition_bytes part)) d = Ret part.
Proof.
  intros [Hl Hes] -> Hmax. unfold decode_partition, partition_bytes in *. rewrite blen_app, blen_le_bytes in *.
  rewrite <-app_assoc. unfold rd_u32. rewrite rd_written by rd_side. cbn [mbind outcome_bind].
  rewrite add_usize_ok by lia. cbn [mbind outcome_bind]. rewrite Nat2N.id, app_assoc.
  apply decode_entries_written; rd_side.
Qed.

(** *** The footer *)

Lemma length_directory start parts : length (directory_of start parts) = length parts.
Proof. revert start. induction parts as [|p parts IH]; intros start; [done|]. cbn. by rewrite IH. Qed.

Lemma directory_lookup start parts i part : parts !! i = Some part ->
  directory_of start parts !! i = Some (start + blen (parts_bytes (take i parts)), blen (partition_bytes part)).
Proof.
  revert start i. induction parts as [|p parts IH]; intros start [|i] Hi; try done; cbn [directory_of lookup list_lookup take] in *.
  - injection Hi as <-. change (blen (parts_bytes [])) with 0. by rewrite N.add_0_r.
  - change (directory_of (start + blen (partition_bytes p)) parts !! i =
      Some (start + blen (parts_bytes (p :: take i parts)), blen (partition_bytes part))).
    rewrite (IH _ _ Hi). do 2 f_equal. unfold parts_bytes. cbn [fmap list_fmap concat]. rewrite blen_app. lia.
Qed.

Lemma rd_directory dir i d pre post : dir !! i = Some d -> d.1 < 2 ^ 64 -> d.2 < 2 ^ 64 ->
  blen pre + blen (directory_bytes dir) < 2 ^ 64 ->
  let buf := pre ++ directory_bytes dir ++ post in
  rd_u64 buf (blen pre + N.of_nat i * 16) = Ret d.1 /\ rd_u64 buf (blen pre + N.of_nat i * 16 + 8) = Ret d.2.
Proof.
  intros Hi H1 H2 Hlen buf. rewrite blen_directory in Hlen.
  pose proof (lookup_lt_Some _ _ _ Hi) as Hlt.
  assert (buf = (pre ++ directory_bytes (take i dir)) ++ le_bytes 8 d.1 ++ le_bytes 8 d.2 ++ (directory_bytes (drop (S i) dir) ++ post)) as Heq.
  { subst buf. rewrite <-(take_drop_middle dir i d) at 1 by done. unfold directory_bytes.
    rewrite fmap_app, concat_app. cbn [fmap list_fmap concat]. by rewrite <-!app_assoc. }
  assert (blen (pre ++ directory_bytes (take i dir)) = blen pre + N.of_nat i * 16) as Hp.
  { rewrite blen_app, blen_directory, length_take. lia. }
  rewrite Heq. split; unfold rd_u64.
  - apply rd_written; [done|done|]. lia.
  - rewrite (app_assoc (pre ++ _)). apply rd_written; [|done|]; rewrite blen_app, blen_le_bytes; lia.
Qed.

Lemma read_footer_written body dir : blen body + 16 * N.of_nat (length dir) + 12 < 2 ^ 64 ->
  read_footer_directory (body ++ directory_bytes dir ++ le_bytes 8 (blen body) ++ MAGIC) (N.of_nat (length dir)) = Ret (blen body).
Proof.
  intros Hlen. set (buf := body ++ _).
  assert (blen buf = blen body + 16 * N.of_nat (length dir) + 12) as Hb.
  { unfold buf. rewrite !blen_app, blen_directory, blen_le_bytes. change (blen MAGIC) with 4. lia. }
  unfold read_footer_directory. rewrite decide_False by lia. cbv zeta.
  assert (bslice buf (blen buf - 4) (blen buf) = Some MAGIC) as ->.
  { transitivity (bslice ((body ++ directory_bytes dir ++ le_bytes 8 (blen body)) ++ MAGIC ++ []) (blen buf - 4) (blen buf)).
    - unfold buf. by rewrite app_nil_r, <-!app_assoc.
    - apply bslice_app; [rewrite !blen_app, blen_directory, blen_le_bytes; lia|change (blen MAGIC) with 4; lia]. }
  cbn [or_panic mbind outcome_bind]. rewrite decide_False by (intros Hn; by apply Hn).
  assert (rd_u64 buf (blen buf - 12) = Ret (blen body)) as ->.
  { rewrite Hb. unfold buf, rd_u64. rewrite app_assoc.
    apply rd_written; rewrite ?blen_app, ?blen_directory; [lia|change (256 ^ N.of_nat 8) with (2 ^ 64); lia|lia]. }
  cbn [mbind outcome_bind]. unfold checked_mul. rewrite decide_True by lia. cbn [or_fail mbind outcome_bind].
  rewrite checked_add_ok by lia. cbn [or_fail mbind outcome_bind]. by rewrite decide_False by lia.
Qed.

(** ** Lemmas: the blob read back *)

Section Blob.
Context (d : nat) (m : N) (cs : list vec) (parts : list (list Entry)) (id : option string).
Context (Hlen : length cs = length parts) (Hd : N.of_nat d < 2 ^ 32) (Hm : m < 256) (Hk : N.of_nat (length cs) < 2 ^ 32).
Context (Hid : model_ok id) (Hcs : Forall (vec_ok d) cs) (Hparts : Forall (part_ok (N.of_nat d)) parts).
Let head := header_bytes MAGIC FORMAT_VERSION (N.of_nat d) m (N.of_nat (length cs)) id.
Let buf := blob d m cs parts id.
Context (Hsize : blen buf < 2 ^ 64).

Definition written_header : Header :=
  {| version := FORMAT_VERSION; dim := N.of_nat d; metric := m; nlist := N.of_nat (length cs); model_id := id;
     centroids_offset := blen head |}.

Lemma blob_header : read_header buf = Ret written_header.
Proof. unfold buf, blob. rewrite <-app_assoc. by apply read_header_written. Qed.

Lemma blen_blob : blen buf = blen head + blen (centroid_bytes cs) + blen (parts_bytes parts) + 16 * N.of_nat (length parts) + 12.
Proof using.
  clear Hsize Hlen Hd Hm Hk Hid Hcs Hparts. unfold buf, blob. rewrite !blen_app, blen_directory, length_directory, blen_le_bytes. change (blen MAGIC) with 4.
  fold head. lia.
Qed.

Lemma blob_centroids : read_centroids buf written_header = Ret cs.
Proof.
  pose proof blen_blob as Hb. unfold read_centroids, written_header. cbn [nlist dim centroids_offset]. rewrite !Nat2N.id.
  unfold buf, blob. rewrite <-app_assoc. rewrite read_vecs_written; [done|done|done|]. fold head. lia.
Qed.

Lemma blob_partition i part : parts !! i = Some part -> read_partition buf written_header (N.of_nat i) = Ret part.
Proof.
  intros Hi. pose proof blen_blob as Hb. pose proof (lookup_lt_Some _ _ _ Hi) as Hlt.
  assert (parts_bytes parts = parts_bytes (take i parts) ++ partition_bytes part ++ parts_bytes (drop (S i) parts)) as Hsplit.
  { rewrite <-(take_drop_middle parts i part) at 1 by done. unfold parts_bytes. by rewrite fmap_app, concat_app. }
  set (body := (head ++ centroid_bytes cs) ++ parts_bytes parts).
  set (dir := directory_of (blen (head ++ centroid_bytes cs)) parts).
  assert (buf = body ++ directory_bytes dir ++ le_bytes 8 (blen body) ++ MAGIC) as Hbuf.
  { unfold buf, blob, body, dir. fold head. rewrite (blen_app _ (parts_bytes parts)). by rewrite <-!app_assoc. }
  assert (length dir = length parts) as Hdl by apply length_directory.
  assert (blen body + 16 * N.of_nat (length parts) + 12 = blen buf) as Hbody.
  { rewrite Hb. unfold body. rewrite !blen_app. done. }
  pose proof (directory_lookup (blen (head ++ centroid_bytes cs)) parts i part Hi) as Hdir. fold dir in Hdir.
  rewrite Hsplit, !blen_app in Hb. rewrite blen_app in Hdir.
  remember (blen head + blen (centroid_bytes cs) + blen (parts_bytes (take i parts))) as off eqn:Hoff.
  destruct (rd_directory dir i _ body (le_bytes 8 (blen body) ++ MAGIC) Hdir) as [H1 H2];
    [cbn [fst]; lia|cbn [snd]; lia|rewrite blen_directory; lia|]. rewrite <-Hbuf in H1, H2. cbn [fst snd] in H1, H2.
  unfold read_partition. cbn [written_header nlist dim]. rewrite decide_False by lia.
  pose proof (read_footer_written body dir) as Hf. rewrite Hdl, <-Hlen in Hf. rewrite <-Hbuf in Hf. rewrite Hf by lia.
  cbn [mbind outcome_bind]. rewrite add_usize_ok by lia. cbn [mbind outcome_bind]. rewrite H1. cbn [mbind outcome_bind].
  rewrite add_usize_ok by lia. cbn [mbind outcome_bind]. rewrite H2. cbn [mbind outcome_bind].
  rewrite checked_add_ok by lia. cbn [or_fail mbind outcome_bind]. rewrite decide_False by lia.
  assert (buf = ((head ++ centroid_bytes cs) ++ parts_bytes (take i parts)) ++ partition_bytes part ++
    (parts_bytes (drop (S i) parts) ++ directory_bytes dir ++ le_bytes 8 (blen body) ++ MAGIC)) as ->.
  { rewrite Hbuf. unfold body at 1. rewrite Hsplit. by rewrite <-!app_assoc. }
  apply decode_partition_written; [by eapply Forall_lookup_1| |];
    rewrite !blen_app; lia.
Qed.
End Blob.

(** ** Lemmas: reading any bytes *)

Lemma rd_no_panic width buf off : rd width buf off <> Panic.
Proof. unfold rd. by destruct (read_le_cases (Corrupt OffsetOverflow) TooShort width buf off) as [(x & -> & _)|(e & ->)]. Qed.

Lemma rd_Ret width buf off x : rd width buf off = Ret x -> off + N.of_nat width <= blen buf /\ x < 256 ^ N.of_nat width.
Proof.
  unfold rd. destruct (read_le_cases (Corrupt OffsetOverflow) TooShort width buf off) as [(y & -> & H)|(e & ->)]; [|done].
  by intros [= <-].
Qed.

Lemma checked_add_Some a b c : checked_add a b = Some c -> c = a + b /\ c < 2 ^ 64.
Proof. unfold checked_add. destruct (decide _); [|done]. by intros [= <-]. Qed.

#[local] Hint Resolve rd_no_panic or_fail_no_panic : pensieve.

(** One step of such a proof: a read or a check, and what its success says. *)
Ltac safe_step :=
  match goal with
  | |- (if decide ?P then _ else _) <> Panic => destruct (decide P); [try done|try done]
  | |- (add_usize _ _ ≫= _) <> Panic => rewrite add_usize_ok by lia; cbn [mbind outcome_bind]
  | |- (rd_u32 _ _ ≫= _) <> Panic => apply bind_no_panic; [apply rd_no_panic|intros ? [? ?]%rd_Ret]
  | |- (rd_u64 _ _ ≫= _) <> Panic => apply bind_no_panic; [apply rd_no_panic|intros ? [? ?]%rd_Ret]
  | |- (rd_f32 _ _ ≫= _) <> Panic => apply bind_no_panic; [apply rd_no_panic|intros ? [? ?]%rd_Ret]
  | |- (or_fail _ (checked_add _ _) ≫= _) <> Panic =>
      apply bind_no_panic; [apply or_fail_no_panic|intros ? [? ?]%or_fail_Ret%checked_add_Some]
  | |- (or_fail _ _ ≫= _) <> Panic => apply bind_no_panic; [apply or_fail_no_panic|intros ? ?]
  end.

Section AnyBytes.
Context (buf : bytes) (Hbuf : blen buf < 2 ^ 63).

Lemma read_header_safe : read_header buf <> Panic.
Proof.
  unfold read_header. safe_step. destruct (bslice_Some buf 0 4) as (s & -> & _); [lia|]. cbn [or_panic mbind outcome_bind].
  repeat safe_step. apply bind_no_panic; [|done].
  destruct (decide _); [done|]. by destruct (valid_utf8 _).
Qed.

Lemma read_header_Ret h : read_header buf = Ret h ->
  dim h < 2 ^ 32 /\ nlist h < 2 ^ 32 /\ 21 <= centroids_offset h <= blen buf.
Proof.
  unfold read_header. destruct (decide _); [done|]. intros (m & _ & Hr)%bind_Ret. destruct (decide _); [done|].
  apply bind_Ret in Hr as (v & _ & Hr). destruct (decide _); [done|]. apply bind_Ret in Hr as (d & [_ Hd]%rd_Ret & Hr).
  apply bind_Ret in Hr as (b & _ & Hr). apply bind_Ret in Hr as (k & [_ Hk]%rd_Ret & Hr).
  apply bind_Ret in Hr as (l & _ & Hr). apply bind_Ret in Hr as (e & [-> _]%or_fail_Ret%checked_add_Some & Hr).
  apply bind_Ret in Hr as (s & Hs%or_fail_Ret & Hr). apply bind_Ret in Hr as (id & _ & [= <-]). cbn [dim nlist centroids_offset].
  split_and!; [done|done|lia|]. unfold bslice in Hs. by destruct (decide _) as [[_ ?]|].
Qed.

Lemma read_vec_safe k off : read_vec k buf off <> Panic.
Proof.
  revert off. induction k as [|k IH]; intros off; cbn [read_vec]; [done|]. repeat safe_step.
  apply bind_no_panic; [apply IH|]. by intros [? ?] _.
Qed.

Lemma read_vec_Ret k off v off' : read_vec k buf off = Ret (v, off') ->
  vec_ok k v /\ off' = off + 4 * N.of_nat k /\ (k = 0%nat \/ off' <= blen buf).
Proof.
  revert off v off'. induction k as [|k IH]; intros off v off'; cbn [read_vec].
  { intros [= <- <-]. split_and!; [by split|lia|by left]. }
  intros (x & Hx & Hr)%bind_Ret. pose proof (rd_Ret _ _ _ _ Hx) as [Hle Hlt].
  rewrite add_usize_ok in Hr by lia. cbn [mbind outcome_bind] in Hr.
  apply bind_Ret in Hr as ([xs o] & Hv & [= <- <-]). apply IH in Hv as ([Hl Hf] & -> & Hb).
  split_and!; [split; [cbn; lia|by constructor]|lia|right]. destruct Hb as [->|Hb]; lia.
Qed.

Lemma read_vecs_safe count d off : read_vecs count d buf off <> Panic.
Proof.
  revert off. induction count as [|k IH]; intros off; cbn [read_vecs]; [done|].
  apply bind_no_panic; [apply read_vec_safe|]. intros [c o] _. apply bind_no_panic; [apply IH|]. by intros [? ?] _.
Qed.

Lemma read_vecs_Ret count d off cs off' : read_vecs count d buf off = Ret (cs, off') ->
  length cs = count /\ Forall (vec_ok d) cs /\ off' = off + 4 * N.of_nat (count * d) /\
  ((count * d = 0)%nat \/ off' <= blen buf).
Proof.
  revert off cs off'. induction count as [|k IH]; intros off cs off'; cbn [read_vecs].
  { intros [= <- <-]. split_and!; [done|done|lia|by left]. }
  intros ([c o] & Hc & Hr)%bind_Ret. apply bind_Ret in Hr as ([cs' o'] & Hcs & [= <- <-]).
  apply read_vec_Ret in Hc as (Hok & -> & Hb). apply IH in Hcs as (Hl & Hf & -> & Hb').
  split_and!; [cbn; lia|by constructor|lia|]. destruct Hb' as [H0|]; [|by right].
  destruct Hb as [->|Hb]; [left; lia|]. right. rewrite H0. lia.
Qed.

Lemma decode_entry_safe limit d off : limit <= blen buf -> decode_entry buf limit d off <> Panic.
Proof.
  intros Hlim. unfold decode_entry. repeat safe_step.
  destruct (bslice_Some buf (off + 8) (off + 8 + code_len d)) as (s & -> & _); [lia|]. cbn [or_panic mbind outcome_bind].
  by repeat safe_step.
Qed.

Lemma decode_entry_Ret limit d off e off' : limit <= blen buf -> decode_entry buf limit d off = Ret (e, off') ->
  entry_ok d e /\ off' = off + (12 + code_len d) /\ off' <= limit.
Proof.
  intros Hlim. unfold decode_entry. intros (n & [Hn ?]%or_fail_Ret%checked_add_Some & Hr)%bind_Ret.
  destruct (decide _); [done|]. apply bind_Ret in Hr as (b & [_ Hb]%rd_Ret & Hr).
  rewrite (add_usize_ok off 4), (add_usize_ok off 8) in Hr by lia. cbn [mbind outcome_bind] in Hr.
  apply bind_Ret in Hr as (r & [_ Hrow]%rd_Ret & Hr). rewrite add_usize_ok in Hr by lia. cbn [mbind outcome_bind] in Hr.
  destruct (bslice_Some buf (off + 8) (off + 8 + code_len d)) as (s & Hs & Hsl); [lia|]. rewrite Hs in Hr.
  cbn [or_panic mbind outcome_bind] in Hr. apply bind_Ret in Hr as (x & [_ Hx]%rd_Ret & [= <- <-]).
  split_and!; [|lia|lia]. split_and!; [done|done|cbn; lia|done].
Qed.

Lemma decode_entries_safe count limit d off : limit <= blen buf -> decode_entries count buf limit d off <> Panic.
Proof.
  intros Hlim. revert off. induction count as [|k IH]; intros off; cbn [decode_entries]; [done|].
  apply bind_no_panic; [by apply decode_entry_safe|]. intros [e o] _. apply bind_no_panic; [apply IH|done].
Qed.

Lemma decode_entries_Ret count limit d off es : limit <= blen buf -> decode_entries count buf limit d off = Ret es ->
  length es = count /\ Forall (entry_ok d) es /\ (count = 0%nat \/ off + N.of_nat count * (12 + code_len d) <= limit).
Proof.
  intros Hlim. revert off es. induction count as [|k IH]; intros off es; cbn [decode_entries].
  { intros [= <-]. split_and!; [done|done|by left]. }
  intros ([e o] & He & Hr)%bind_Ret. apply bind_Ret in Hr as (es' & Hes & [= <-]).
  apply decode_entry_Ret in He as (Hok & -> & Hle); [|done]. apply IH in Hes as (Hl & Hf & Hb).
  split_and!; [cbn; lia|by constructor|]. right. destruct Hb as [->|Hb]; lia.
Qed.

Lemma read_footer_safe k : k < 2 ^ 32 -> read_footer_directory buf k <> Panic.
Proof.
  intros Hk. unfold read_footer_directory. safe_step.
  destruct (bslice_Some buf (blen buf - 4) (blen buf)) as (s & -> & _); [lia|]. cbn [or_panic mbind outcome_bind].
  by repeat safe_step.
Qed.

Lemma read_footer_Ret k off : k < 2 ^ 32 -> read_footer_directory buf k = Ret off -> off + k * 16 + 12 = blen buf.
Proof.
  intros Hk. unfold read_footer_directory. destruct (decide _); [done|].
  destruct (bslice_Some buf (blen buf - 4) (blen buf)) as (s & -> & _); [lia|]. cbn [or_panic mbind outcome_bind].
  destruct (decide _); [done|]. intros (f & _ & Hr)%bind_Ret. unfold checked_mul in Hr. rewrite decide_True in Hr by lia.
  cbn [or_fail mbind outcome_bind] in Hr. apply bind_Ret in Hr as (e & [-> _]%or_fail_Ret%checked_add_Some & Hr).
  destruct (decide _); [done|]. injection Hr as ->. lia.
Qed.

Lemma read_partition_safe h idx : nlist h < 2 ^ 32 -> read_partition buf h idx <> Panic.
Proof.
  intros Hk. unfold read_partition. safe_step. apply bind_no_panic; [by apply read_footer_safe|].
  intros f Hf%read_footer_Ret; [|done]. repeat safe_step. unfold decode_partition. repeat safe_step.
  apply decode_entries_safe. lia.
Qed.

Lemma read_partition_Ret h idx es : nlist h < 2 ^ 32 -> read_partition buf h idx = Ret es ->
  idx < nlist h /\ part_ok (dim h) es /\ 4 + N.of_nat (length es) * (12 + code_len (dim h)) <= blen buf.
Proof.
  intros Hk. unfold read_partition. destruct (decide _); [done|].
  intros (f & Hf%read_footer_Ret & Hr)%bind_Ret; [|done]. rewrite add_usize_ok in Hr by lia. cbn [mbind outcome_bind] in Hr.
  apply bind_Ret in Hr as (p & [? ?]%rd_Ret & Hr). rewrite add_usize_ok in Hr by lia. cbn [mbind outcome_bind] in Hr.
  apply bind_Ret in Hr as (l & [? ?]%rd_Ret & Hr). apply bind_Ret in Hr as (e & [-> ?]%or_fail_Ret%checked_add_Some & Hr).
  destruct (decide _); [done|]. unfold decode_partition in Hr. apply bind_Ret in Hr as (c & [Hc Hc32]%rd_Ret & Hr).
  rewrite add_usize_ok in Hr by lia. cbn [mbind outcome_bind] in Hr.
  apply decode_entries_Ret in Hr as (Hl & Hes & Hb); [|lia]. change (256 ^ N.of_nat 4) with (2 ^ 32) in Hc32.
  split_and!; [lia|split; [lia|done]|]. rewrite Hl. destruct Hb as [Hz|Hb]; [rewrite Hz; lia|lia].
Qed.
End AnyBytes.
