(* ===== verification/VectorBuild.v ===== *)
(** * Building the vector index ([pensieve-index-vector/src/build.rs], [builder.rs],
    [search.rs], [global_tree.rs])

    From record batches to the rows of an extent, from rows to a sidecar blob,
    the scan of one partition, and the table-wide tree that routes a query to
    partitions of many extents.  The rotation draws on the platform's [ln] and
    [cos], and the fingerprint on SHA-256: parameters. *)

From stdpp Require Import base list strings gmap sorting.
From Stdlib Require Import NArith ZArith Lia Ascii SpecFloat.
From S2P Require Import Prelude Bytes Arrow ColumnStats FtsFile VectorMath VectorFile.

Local Open Scope N_scope.

(** ** Rows to blob ([build.rs]) *)

Inductive BuildError :=
  | ZeroDim
  | ZeroRows
  | RowLength (at_ : RowAddress) (len dim : nat).

Record IndexParams := { p_nlist : nat; p_bits : nat; p_dim : nat; p_metric : string; p_rabitq_version : N }.

Section Build.
Context (ln cos : f64 -> f64).

Definition encode_row (rot : Rotation) (v : vec) : VectorCode := encode_rotated (apply rot v).

(** The body of the encoding loop, for row [i]. *)
Definition bucket (rot : Rotation) (assigned : list nat) (i_row : nat * (RowAddress * vec))
    (partitions : list (list Entry)) : outcome BuildError (list (list Entry)) :=
  let '(i, (a, v)) := i_row in
  p ← or_panic (assigned !! i);
  part ← or_panic (partitions !! p);
  set_index partitions p (part ++ [{| addr := a; e_code := encode_row rot v |}]).

Definition check_row (dim : nat) (r : RowAddress * vec) (_ : unit) : outcome BuildError unit :=
  if decide (length r.2 <> dim) then Fail (RowLength r.1 (length r.2) dim) else Ret tt.

Definition build_ivf_rabitq (rows : list (RowAddress * vec)) (dim : nat) (model_id : option string) :
    outcome BuildError (bytes * IndexParams) :=
  if decide (dim = 0%nat) then Fail ZeroDim
  else if decide (rows = []) then Fail ZeroRows
  else
    for_each (check_row dim) rows tt;;
    let nlist := choose_nlist (length rows) in
    clustering ← lift (cluster (snd <$> rows) dim nlist);
    let nlist := length (centroids clustering) in
    partitions ← for_each (bucket (rotation ln cos dim) (assignments clustering)) (imap pair rows) (replicate nlist []);
    blob ← lift (write dim METRIC_COSINE (centroids clustering) partitions model_id);
    Ret (blob, {| p_nlist := nlist; p_bits := 1; p_dim := dim; p_metric := "cosine"; p_rabitq_version := RABITQ_VERSION |}).
End Build.

(** ** Batches to rows ([builder.rs]) *)

Inductive IndexError :=
  | BatchFailed (why : string)
  | NotAVectorColumn (ty : DataType)
  | DowncastFailed
  | InconsistentDim (prev d : nat)
  | ColumnMissing
  | NoRows
  | BuildFailed (why : BuildError).

(** [(0..dim).map(|j| floats.value(start + j))] *)
Fixpoint float_values {E} (floats : list spec_float) (start dim : nat) : outcome E vec :=
  match dim with
  | O => Ret []
  | S dim =>
      x ← or_panic (floats !! start);
      xs ← float_values floats (S start) dim;
      Ret (to_bits x :: xs)
  end.

(** The norm, summed in binary64, and the division by it. *)
Definition norm64 (v : vec) : f64 := f64_norm (from_bits <$> v).
Definition scaled (v : vec) : vec :=
  let norm := norm64 v in (fun x => to_bits (f32_of_f64 (f64_div (f64_of_f32 (from_bits x)) norm))) <$> v.

(** The body of the row loop of [extract_rows]. *)
Definition extract_row (floats : list spec_float) (dim : nat) (ordinal : N) (iv : nat * bool)
    (out : list (RowAddress * vec)) : outcome IndexError (list (RowAddress * vec)) :=
  let '(i, valid) := iv in
  if negb valid then Ret out
  else
    v ← float_values floats (i * dim) dim;
    if f64_le (norm64 v) f64_1e_12 then Ret out
    else Ret (out ++ [({| block := ordinal; row := N.of_nat i mod 2 ^ 32 |}, scaled v)]).

Definition extract_rows (batch : RecordBatch) (column : string) (ordinal : N) (out : list (RowAddress * vec)) :
    outcome IndexError (option nat * list (RowAddress * vec)) :=
  match column_index (b_schema batch) column with
  | None => Ret (None, out)
  | Some idx =>
      field ← or_panic (b_schema batch !! idx);
      match f_type field with
      | FixedSizeList Float32 dim =>
          col ← or_panic (b_columns batch !! idx);
          match col with
          | VectorArray _ valid floats =>
              out ← for_each (extract_row floats dim ordinal) (imap pair valid) out;
              Ret (Some dim, out)
          | _ => Fail DowncastFailed
          end
      | other => Fail (NotAVectorColumn other)
      end
  end.

Record Extracted := { x_rows : list (RowAddress * vec); x_dim : option nat; x_ordinal : N }.

(** The body of the batch loop of [IvfRabitqBuilder::build]. *)
Definition take_batch (column : string) (next : outcome IndexError RecordBatch) (s : Extracted) : outcome IndexError Extracted :=
  batch ← next;
  '(d, rows) ← extract_rows batch column (x_ordinal s) (x_rows s);
  dim ← match d, x_dim s with
        | Some d, Some prev => if decide (prev <> d) then Fail (InconsistentDim prev d) else Ret (Some d)
        | Some d, None => Ret (Some d)
        | None, dim => Ret dim
        end;
  ordinal ← or_panic (if decide (x_ordinal s + 1 < 2 ^ 32) then Some (x_ordinal s + 1) else None);
  Ret {| x_rows := rows; x_dim := dim; x_ordinal := ordinal |}.

Definition in_build (m : outcome BuildError (bytes * IndexParams)) : outcome IndexError (bytes * IndexParams) :=
  match m with Ret a => Ret a | Fail e => Fail (BuildFailed e) | Panic => Panic | OutOfFuel => OutOfFuel end.

(** [IvfRabitqBuilder::build]; the column stands for the stream's batches. *)
Definition builder_build (ln cos : f64 -> f64) (column : string) (batches : list (outcome IndexError RecordBatch)) :
    outcome IndexError (bytes * IndexParams) :=
  s ← for_each (take_batch column) batches {| x_rows := []; x_dim := None; x_ordinal := 0 |};
  dim ← or_fail ColumnMissing (x_dim s);
  if decide (x_rows s = []) then Fail NoRows
  else in_build (build_ivf_rabitq ln cos (x_rows s) dim None).

(** ** Scanning a partition ([search.rs]) *)

Fixpoint scan_partition (query : QueryCode) (partition : list Entry) : infallible (list (RowAddress * b32)) :=
  match partition with
  | [] => Ret []
  | e :: partition =>
      d ← estimate_distance (e_code e) query;
      rest ← scan_partition query partition;
      Ret ((addr e, d) :: rest)
  end.

(** ** The table-wide tree ([global_tree.rs]) *)

Abbreviation Uuid := bytes.

Record PartitionRef := { extent : Uuid; partition : N }.

#[export] Instance PartitionRef_eq_dec : EqDecision PartitionRef.
Proof. solve_decision. Defined.

Module Tree.
Definition MAGIC : bytes := as_bytes "KYGT".
Definition FORMAT_VERSION : N := 1.

Inductive TreeError :=
  | TooShort (need have : N)
  | BadMagic
  | UnsupportedVersion (v : N)
  | ModelIdOverflow
  | ModelIdNotUtf8
  | BadUuid.

Record GlobalTree := {
  dim : nat; metric : N; model_id : option string; centroids : list vec; postings : list (list PartitionRef)
}.
End Tree.
Import Tree (GlobalTree).

Definition hex_digit (n : N) : ascii := byte_of (if n <? 10 then 48 + n else 87 + n).

(** [content_hash_hex] of [crypto.rs], over SHA-256. *)
Definition content_hash_hex (sha256 : bytes -> bytes) (data : bytes) : string :=
  of_bytes (concat ((fun b => [hex_digit (N_of_ascii b / 16); hex_digit (N_of_ascii b mod 16)]) <$> sha256 data)).

Fixpoint bytes_compare (a b : bytes) : comparison :=
  match a, b with
  | [], [] => Eq
  | [], _ => Lt
  | _, [] => Gt
  | x :: a, y :: b => match N_of_ascii x ?= N_of_ascii y with Eq => bytes_compare a b | c => c end
  end.

Definition extent_fingerprint (sha256 : bytes -> bytes) (ids : list Uuid) : string :=
  content_hash_hex sha256 (concat (sort_by bytes_compare ids)).

Definition choose_global_nlist (total_partitions : nat) : nat :=
  if decide (total_partitions = 0%nat) then 1%nat
  else
    let s := round_usize (f64_sqrt (f64_of_Z (Z.of_nat total_partitions))) in
    (N.to_nat (clamp s 16 4096) `min` total_partitions)%nat.

(** The points an extent's centroids of the right length are. *)
Definition routed (dim : nat) (ec : Uuid * list vec) : list (vec * PartitionRef) :=
  omap (fun ic => if decide (length ic.2 <> dim) then None
                  else Some (ic.2, {| extent := ec.1; partition := N.of_nat ic.1 mod 2 ^ 32 |}))
       (imap pair ec.2).

Definition post (refs : list PartitionRef) (ig : nat * nat) (postings : list (list PartitionRef)) :
    infallible (list (list PartitionRef)) :=
  let '(i, g) := ig in
  posting ← or_panic (postings !! g);
  r ← or_panic (refs !! i);
  set_index postings g (posting ++ [r]).

(** [global_tree::build] *)
Definition build_tree (dim : nat) (metric : N) (model_id : option string)
    (extent_centroids : list (Uuid * list vec)) (global_nlist : nat) : infallible (option GlobalTree) :=
  let points := concat (routed dim <$> extent_centroids) in
  if decide (points = []) then Ret None
  else
    let global_nlist := N.to_nat (clamp (N.of_nat global_nlist) 1 (N.of_nat (length points))) in
    clustering ← cluster (fst <$> points) dim global_nlist;
    postings ← for_each (post (snd <$> points)) (imap pair (assignments clustering))
                 (replicate (length (centroids clustering)) []);
    Ret (Some {| Tree.dim := dim; Tree.metric := metric; Tree.model_id := model_id;
                 Tree.centroids := centroids clustering; Tree.postings := postings |}).

Definition total_refs (t : GlobalTree) : nat := sum_list_with length (Tree.postings t).

(** The references of one posting list that are not yet out. *)
Definition add_refs (out : list PartitionRef) (posting : list PartitionRef) : list PartitionRef :=
  foldl (fun out r => if decide (r ∈ out) then out else out ++ [r]) out posting.

Definition select_partitions (t : GlobalTree) (query : vec) (top_p : nat) : infallible (list PartitionRef) :=
  if decide (Tree.centroids t = [] \/ length query <> Tree.dim t) then Ret []
  else
    let scored := sort_by by_distance (scores query (Tree.centroids t)) in
    for_each (fun gd out => posting ← or_panic (Tree.postings t !! gd.1); Ret (add_refs out posting))
      (take (top_p `min` length scored) scored) [].

Definition ref_bytes (r : PartitionRef) : bytes := extent r ++ le_bytes 4 (partition r).

Definition posting_bytes (p : list PartitionRef) : bytes := le_bytes 4 (N.of_nat (length p)) ++ concat (ref_bytes <$> p).

Definition write_tree (t : GlobalTree) : bytes :=
  header_bytes Tree.MAGIC Tree.FORMAT_VERSION (N.of_nat (Tree.dim t)) (Tree.metric t)
    (N.of_nat (length (Tree.centroids t))) (Tree.model_id t) ++
  centroid_bytes (Tree.centroids t) ++ concat (posting_bytes <$> Tree.postings t) ++ Tree.MAGIC.

(** A range or a word read at an offset that is not checked for overflow. *)
Definition tree_range (buf : bytes) (off len : N) : outcome Tree.TreeError bytes :=
  e ← add_usize off len;
  or_fail (Tree.TooShort e (blen buf)) (bslice buf off e).
Definition tree_u32 (buf : bytes) (off : N) : outcome Tree.TreeError N := s ← tree_range buf off 4; Ret (le_value s).

Fixpoint tree_vec (k : nat) (buf : bytes) (off : N) : outcome Tree.TreeError (vec * N) :=
  match k with
  | O => Ret ([], off)
  | S k =>
      x ← tree_u32 buf off;
      off ← add_usize off 4;
      '(xs, off) ← tree_vec k buf off;
      Ret (x :: xs, off)
  end.

Fixpoint tree_vecs (count dim : nat) (buf : bytes) (off : N) : outcome Tree.TreeError (list vec * N) :=
  match count with
  | O => Ret ([], off)
  | S count =>
      '(c, off) ← tree_vec dim buf off;
      '(cs, off) ← tree_vecs count dim buf off;
      Ret (c :: cs, off)
  end.

Fixpoint tree_refs (count : nat) (buf : bytes) (off : N) : outcome Tree.TreeError (list PartitionRef * N) :=
  match count with
  | O => Ret ([], off)
  | S count =>
      id ← tree_range buf off 16;
      off ← add_usize off 16;
      p ← tree_u32 buf off;
      off ← add_usize off 4;
      '(rs, off) ← tree_refs count buf off;
      Ret ({| extent := id; partition := p |} :: rs, off)
  end.

Fixpoint tree_postings (count : nat) (buf : bytes) (off : N) : outcome Tree.TreeError (list (list PartitionRef)) :=
  match count with
  | O => Ret []
  | S count =>
      k ← tree_u32 buf off;
      off ← add_usize off 4;
      '(refs, off) ← tree_refs (N.to_nat k) buf off;
      rest ← tree_postings count buf off;
      Ret (refs :: rest)
  end.

(** [GlobalTree::read]; [Uuid::from_slice] takes any sixteen bytes. *)
Definition read_tree (buf : bytes) : outcome Tree.TreeError GlobalTree :=
  if decide (blen buf < 8) then Fail (Tree.TooShort 8 (blen buf))
  else
    head ← or_panic (bslice buf 0 4);
    if decide (head <> Tree.MAGIC) then Fail Tree.BadMagic
    else
      last ← or_panic (bslice buf (blen buf - 4) (blen buf));
      if decide (last <> Tree.MAGIC) then Fail Tree.BadMagic
      else
        v ← tree_u32 buf 4;
        if decide (v <> Tree.FORMAT_VERSION) then Fail (Tree.UnsupportedVersion v)
        else
          d ← tree_u32 buf 8;
          m ← or_fail (Tree.TooShort 13 (blen buf)) (buf !! 12%nat);
          k ← tree_u32 buf 13;
          model_len ← tree_u32 buf 17;
          model_end ← or_fail Tree.ModelIdOverflow (checked_add 21 model_len);
          model ← or_fail (Tree.TooShort model_end (blen buf)) (bslice buf 21 model_end);
          id ← (if decide (model_len = 0) then Ret None
                else if valid_utf8 model then Ret (Some (of_bytes model)) else Fail Tree.ModelIdNotUtf8);
          '(cs, off) ← tree_vecs (N.to_nat k) (N.to_nat d) buf model_end;
          ps ← tree_postings (N.to_nat k) buf off;
          Ret {| Tree.dim := N.to_nat d; Tree.metric := N_of_ascii m; Tree.model_id := id;
                 Tree.centroids := cs; Tree.postings := ps |}.

(** ** Lemmas: building a blob *)

Section BuildLemmas.
Context (ln cos : f64 -> f64).

Lemma length_apply rot v : length (apply rot v) = r_dim rot.
Proof. unfold apply. by rewrite length_fmap, length_seq. Qed.

Lemma f32_op_lt f x y : is_b32 (f32_op f x y).
Proof. apply to_bits_lt. Qed.

Definition row_entry (dim : nat) (r : RowAddress * vec) : Entry :=
  {| addr := r.1; e_code := encode_row (rotation ln cos dim) r.2 |}.

Definition addr_ok (a : RowAddress) : Prop := block a < 2 ^ 32 /\ row a < 2 ^ 32.

Lemma row_entry_ok dim r : addr_ok r.1 -> entry_ok (N.of_nat dim) (row_entry dim r).
Proof.
  intros [Hb Hr]. unfold entry_ok, row_entry, encode_row. cbn [addr e_code code correction encode_rotated].
  split_and!; [done|done| |].
  - unfold blen. by rewrite length_pack_signs, length_apply.
  - destruct (f32_lt _ _); [apply f32_op_lt|done].
Qed.

Lemma rows_checked dim rows : Forall (fun r : RowAddress * vec => length r.2 = dim) rows -> for_each (check_row dim) rows tt = Ret tt.
Proof.
  induction 1 as [|r rows Hr Hrows IH]; [done|]. cbn [for_each].
  assert (check_row dim r tt = Ret tt) as -> by (unfold check_row; by rewrite decide_False by (intros Hn; by apply Hn)). done.
Qed.

Lemma rows_unchecked dim rows r : r ∈ rows -> length r.2 <> dim -> exists e, for_each (check_row dim) rows tt = Fail e.
Proof.
  intros Hr Hd. induction rows as [|x rows IH]; [by apply elem_of_nil in Hr|]. cbn [for_each].
  destruct (decide (length x.2 = dim)) as [Hx|Hx].
  - assert (check_row dim x tt = Ret tt) as -> by (unfold check_row; by rewrite decide_False by (intros Hn; by apply Hn)).
    apply IH. apply elem_of_cons in Hr as [->|]; done.
  - assert (check_row dim x tt = Fail (RowLength x.1 (length x.2) dim)) as -> by (unfold check_row; by rewrite decide_True).
    cbn. eauto.
Qed.

(** The posting lists a clustering by [cs] gives. *)
Definition row_partitions (dim : nat) (cs : list vec) (rows : list (RowAddress * vec)) : list (list Entry) :=
  buckets (fun r => nearest_centroid r.2 cs) (row_entry dim) (length cs) rows.

Lemma build_loop dim cs rows : cs <> [] ->
  for_each (bucket (rotation ln cos dim) ((fun r => nearest_centroid r.2 cs) <$> rows)) (imap pair rows)
    (replicate (length cs) []) = Ret (row_partitions dim cs rows).
Proof.
  intros Hcs. unfold row_partitions.
  rewrite <-(buckets_ext (fun ix : nat * _ => nearest_centroid ix.2.2 cs) _ (fun ix => row_entry dim ix.2) _ _ (imap pair rows)).
  2:{ apply Forall2_same_length_lookup. split; [by rewrite length_imap|]. intros i x y Hx Hy.
      rewrite list_lookup_imap, Hy in Hx. by injection Hx as <-. }
  apply push_loop.
  - intros [i [a v]] st part Hin Hl Hpart. cbn [snd] in *.
    apply list_elem_of_lookup_1 in Hin as [k Hk]. rewrite list_lookup_imap in Hk.
    destruct (rows !! k) as [r|] eqn:Hr; [|done]. injection Hk as <- ->.
    unfold bucket. rewrite list_lookup_fmap, Hr. cbn [fmap option_fmap option_map or_panic mbind outcome_bind snd].
    rewrite Hpart. cbn [or_panic mbind outcome_bind]. rewrite set_index_ok; [done|].
    rewrite Hl. by apply nearest_lt.
  - apply Forall_forall. intros [i r] _. cbn. by apply nearest_lt.
Qed.

Lemma row_partitions_ok dim cs rows : N.of_nat (length rows) < 2 ^ 32 -> Forall (fun r => addr_ok r.1) rows ->
  Forall (part_ok (N.of_nat dim)) (row_partitions dim cs rows).
Proof.
  intros Hn Ha. apply Forall_lookup. intros p part Hp.
  assert (p < length cs)%nat as Hlt by (apply lookup_lt_Some in Hp; unfold row_partitions in Hp; by rewrite length_buckets in Hp).
  unfold row_partitions in Hp. rewrite buckets_lookup in Hp by done. injection Hp as <-. split.
  - rewrite length_fmap. pose proof (length_filter (fun r : RowAddress * vec => nearest_centroid r.2 cs = p) rows). lia.
  - apply Forall_fmap, Forall_forall. intros r [_ Hin]%list_elem_of_filter. apply row_entry_ok.
    apply Forall_forall with (x := r) in Ha; done.
Qed.

Record build_input (dim : nat) (rows : list (RowAddress * vec)) : Prop := {
  bi_dim : dim <> 0%nat;
  bi_dim32 : N.of_nat dim < 2 ^ 32;
  bi_rows : rows <> [];
  bi_count : N.of_nat (length rows) < 2 ^ 32;
  bi_len : Forall (fun r => vec_ok dim r.2) rows;
  bi_addr : Forall (fun r => addr_ok r.1) rows
}.

Lemma build_blob dim rows id : build_input dim rows ->
  exists cs, cluster (snd <$> rows) dim (choose_nlist (length rows)) =
      Ret {| centroids := cs; assignments := (fun r => nearest_centroid r.2 cs) <$> rows |} /\
    length cs = choose_nlist (length rows) /\ Forall (vec_ok dim) cs /\
    build_ivf_rabitq ln cos rows dim id =
      Ret (blob dim METRIC_COSINE cs (row_partitions dim cs rows) id,
           {| p_nlist := length cs; p_bits := 1; p_dim := dim; p_metric := "cosine"; p_rabitq_version := RABITQ_VERSION |}).
Proof.
  intros [Hd _ Hne _ Hlen _].
  destruct (cluster_ok (snd <$> rows) dim (choose_nlist (length rows))) as (cs & Hc & Hl & Hcd).
  { by destruct rows. }
  { by apply Forall_fmap. }
  rewrite length_fmap in Hl. assert (length rows <> 0%nat) as Hn by by destruct rows.
  pose proof (choose_nlist_bounds (length rows) Hn) as Hb.
  assert (length cs = choose_nlist (length rows)) as Hcl.
  { rewrite Hl. unfold clamp. destruct (N.ltb_spec (N.of_nat (choose_nlist (length rows))) 1); [lia|].
    destruct (N.ltb_spec (N.of_nat (length rows)) (N.of_nat (choose_nlist (length rows)))); lia. }
  rewrite <-list_fmap_compose in Hc. change ((fun v => nearest_centroid v cs) ∘ snd) with (fun r : RowAddress * vec => nearest_centroid r.2 cs) in Hc.
  exists cs. split_and!; [done..|]. unfold build_ivf_rabitq. rewrite !decide_False by done.
  rewrite rows_checked by (eapply Forall_impl; [exact Hlen|by intros r []]).
  cbn [mbind outcome_bind]. rewrite Hc. cbn [lift mbind outcome_bind centroids assignments].
  rewrite build_loop by (intros ->; cbn in *; lia). cbn [mbind outcome_bind].
  rewrite write_blob by (unfold row_partitions; by rewrite length_buckets). done.
Qed.
End BuildLemmas.

(** ** Lemmas: the tree *)

Lemma routed_ok dim (ecs : list (Uuid * list vec)) : Forall (fun ec => Forall (Forall is_b32) ec.2) ecs ->
  Forall (fun vr : vec * PartitionRef => vec_ok dim vr.1) (concat (routed dim <$> ecs)).
Proof.
  intros Hb. apply Forall_concat, Forall_fmap. eapply Forall_impl; [exact Hb|]. intros ec Hec. cbn. apply Forall_forall. intros [v r] Hin.
  unfold routed in Hin. apply list_elem_of_omap in Hin as ([i c] & Hic & Hc). cbn in Hc.
  destruct (decide _) as [|Hd]; [done|]. injection Hc as <- _. cbn. split; [destruct (decide (length c = dim)); [done|tauto]|].
  apply list_elem_of_lookup_1 in Hic as [k Hk]. rewrite list_lookup_imap in Hk. destruct (ec.2 !! k) as [c'|] eqn:Hl; [|done].
  injection Hk as _ ->. by eapply Forall_lookup_1 in Hl.
Qed.

(** Every routed partition is in the posting list of the nearest centroid, and
    in no other. *)
Lemma build_tree_ok dim m id (ecs : list (Uuid * list vec)) n : Forall (fun ec => Forall (Forall is_b32) ec.2) ecs ->
  concat (routed dim <$> ecs) <> [] ->
  let points := concat (routed dim <$> ecs) in
  exists t, build_tree dim m id ecs n = Ret (Some t) /\ Tree.dim t = dim /\ Tree.metric t = m /\ Tree.model_id t = id /\
    Tree.centroids t <> [] /\ Forall (vec_ok dim) (Tree.centroids t) /\
    (length (Tree.centroids t) <= length points)%nat /\
    Tree.postings t = buckets (fun vr => nearest_centroid vr.1 (Tree.centroids t)) snd (length (Tree.centroids t)) points.
Proof.
  intros Hb Hne points. unfold build_tree. rewrite decide_False by done. fold points. set (k := N.to_nat _).
  destruct (cluster_ok (fst <$> points) dim k) as (cs & -> & Hl & Hcd).
  { subst points. by destruct (concat _). }
  { apply Forall_fmap. by apply routed_ok. }
  rewrite length_fmap in Hl. assert (length points <> 0%nat) as Hn by (intros Hz; apply Hne; by apply nil_length_inv).
  assert (length cs <> 0%nat /\ (length cs <= length points)%nat) as [Hc0 Hcl].
  { rewrite Hl. unfold clamp. destruct (N.ltb_spec (N.of_nat k) 1); [lia|].
    destruct (N.ltb_spec (N.of_nat (length points)) (N.of_nat k)); lia. }
  assert (cs <> []) as Hcs by by intros ->.
  cbn [mbind outcome_bind assignments centroids].
  set (h := fun ig : nat * nat => default {| extent := []; partition := 0 |} ((snd <$> points) !! ig.1)).
  assert (for_each (post (snd <$> points)) (imap pair ((fun v => nearest_centroid v cs) <$> (fst <$> points)))
    (replicate (length cs) []) = Ret (buckets (fun vr => nearest_centroid vr.1 cs) snd (length cs) points)) as ->.
  { rewrite <-(buckets_ext snd _ h _ _ (imap pair ((fun v => nearest_centroid v cs) <$> (fst <$> points)))).
    2:{ apply Forall2_same_length_lookup. split; [by rewrite length_imap, !length_fmap|]. intros i x y Hx Hy.
        rewrite list_lookup_imap, !list_lookup_fmap, Hy in Hx. injection Hx as <-. split; [done|].
        unfold h. cbn. by rewrite list_lookup_fmap, Hy. }
    apply push_loop.
    - intros [i g] st part Hin Hst Hpart. cbn [snd] in *. apply list_elem_of_lookup_1 in Hin as [j Hj].
      rewrite list_lookup_imap, !list_lookup_fmap in Hj. destruct (points !! j) as [vr|] eqn:Hvr; [|done].
      injection Hj as <- Hg. unfold post. rewrite Hpart. cbn [or_panic mbind outcome_bind].
      unfold h. cbn [fst]. rewrite list_lookup_fmap, Hvr. cbn.
      rewrite set_index_ok; [done|]. rewrite Hst, <-Hg. by apply nearest_lt.
    - apply Forall_forall. intros [i g] Hin. apply list_elem_of_lookup_1 in Hin as [j Hj].
      rewrite list_lookup_imap, !list_lookup_fmap in Hj. destruct (points !! j); [|done]. injection Hj as _ <-. by apply nearest_lt. }
  cbn. eexists. by split_and!.
Qed.

(** *** Selection *)

Lemma add_refs_spec out p : NoDup out -> NoDup (add_refs out p) /\ (forall r, r ∈ add_refs out p <-> r ∈ out \/ r ∈ p).
Proof.
  revert out. induction p as [|r p IH]; intros out Hd; cbn [add_refs foldl].
  { split; [done|]. set_solver. }
  fold (add_refs (if decide (r ∈ out) then out else out ++ [r]) p). destruct (decide (r ∈ out)) as [Hr|Hr].
  - destruct (IH out Hd) as [? Hm]. split; [done|]. intros x. rewrite Hm, elem_of_cons. split; [tauto|].
    intros [?|[->|?]]; auto.
  - destruct (IH (out ++ [r])) as [? Hm].
    { apply NoDup_app. split_and!; [done| |apply NoDup_singleton]. intros x Hx ->%list_elem_of_singleton. done. }
    split; [done|]. intros x. rewrite Hm, elem_of_app, list_elem_of_singleton, elem_of_cons. tauto.
Qed.

Lemma scores_lookup q cs i d : (i, d) ∈ scores q cs <-> exists c, cs !! i = Some c /\ d = sq_l2 q c.
Proof.
  unfold scores. rewrite list_elem_of_lookup. split.
  - intros [j Hj]. rewrite list_lookup_imap in Hj. destruct (cs !! j) as [c|] eqn:Hc; [|done].
    injection Hj as <- <-. eauto.
  - intros (c & Hc & ->). exists i. by rewrite list_lookup_imap, Hc.
Qed.

Lemma scores_indices q cs : fst <$> scores q cs = seq 0 (length cs).
Proof. unfold scores. rewrite fmap_imap. rewrite <-(list_fmap_id (seq 0 (length cs))). apply (imap_seq_0 _ id). Qed.

Definition tree_ok (t : GlobalTree) : Prop := length (Tree.postings t) = length (Tree.centroids t).

(** The chosen centroids are [top_p] of the tree's, or all of them. *)
Lemma select_ok t q top_p : tree_ok t -> length q = Tree.dim t ->
  exists out chosen, select_partitions t q top_p = Ret out /\ NoDup out /\
    chosen ⊆+ seq 0 (length (Tree.centroids t)) /\ length chosen = (top_p `min` length (Tree.centroids t))%nat /\
    forall r, r ∈ out <-> exists g posting, g ∈ chosen /\ Tree.postings t !! g = Some posting /\ r ∈ posting.
Proof.
  intros Ht Hq. unfold select_partitions. destruct (decide _) as [[Hnil|]|_]; [|done|].
  { exists [], []. rewrite Hnil. cbn. split_and!; [done|by apply NoDup_nil|done|by rewrite Nat.min_0_r|].
    intros r. split; [by intros ?%elem_of_nil|]. intros (g & ? & ?%elem_of_nil & _). done. }
  set (scored := sort_by _ _). set (k := (top_p `min` _)%nat).
  assert (fst <$> scored ≡ₚ seq 0 (length (Tree.centroids t))) as Hperm.
  { unfold scored. by rewrite sort_by_Permutation, scores_indices. }
  assert (length scored = length (Tree.centroids t)) as Hlen.
  { rewrite <-(length_fmap fst), Hperm. by rewrite length_seq. }
  destruct (for_each_inv (E:=Empty_set)
    (fun gd out => posting ← or_panic (Tree.postings t !! gd.1); Ret (add_refs out posting))
    (fun pre out => NoDup out /\ forall r, r ∈ out <-> exists g posting, g ∈ fst <$> pre /\ Tree.postings t !! g = Some posting /\ r ∈ posting)
    (take k scored) []) as (out & Hout & Hd & Hm).
  - split; [by apply NoDup_nil|]. intros r. split; [by intros ?%elem_of_nil|]. intros (g & ? & Hg & _). by apply elem_of_nil in Hg.
  - intros pre gd rest out Hsplit (Hd & Hm).
    assert (gd.1 ∈ seq 0 (length (Tree.centroids t))) as Hg%elem_of_seq.
    { rewrite <-Hperm. apply list_elem_of_fmap_2. rewrite <-(take_drop k scored), Hsplit. set_solver. }
    destruct (lookup_lt_is_Some_2 (Tree.postings t) gd.1) as [p Hp]; [unfold tree_ok in Ht; lia|]. rewrite Hp.
    cbn [or_panic mbind outcome_bind]. eexists. split; [done|]. destruct (add_refs_spec out p Hd) as [Hd' Hm'].
    split; [done|]. intros r. rewrite Hm', Hm. rewrite fmap_app. split.
    + intros [(g & q' & Hg' & Hq' & Hr)|Hr]; [exists g, q'|exists gd.1, p]; (split_and!; [set_solver|done..]).
    + intros (g & q' & Hg' & Hq' & Hr). apply elem_of_app in Hg' as [Hg'|Hg']; [left; eauto|right].
      apply list_elem_of_fmap in Hg' as (x & -> & ->%list_elem_of_singleton). congruence.
  - exists out, (fst <$> take k scored). split_and!; [done|done| | |done].
    + rewrite <-Hperm. apply fmap_submseteq. apply submseteq_take.
    + rewrite length_fmap, length_take. unfold k. lia.
Qed.

(** *** The tree blob *)

Lemma tree_range_eq buf off len : off + len < 2 ^ 64 ->
  tree_range buf off len = or_fail (Tree.TooShort (off + len) (blen buf)) (bslice buf off (off + len)).
Proof. intros H. unfold tree_range. by rewrite add_usize_ok. Qed.

Lemma tree_u32_eq buf off : off + 4 < 2 ^ 64 -> tree_u32 buf off = read_le Tree.BadUuid Tree.TooShort 4 buf off.
Proof.
  intros H. unfold tree_u32, read_le. rewrite tree_range_eq, checked_add_ok by done. done.
Qed.

Lemma tree_u32_written a c x off : off = blen a -> x < 2 ^ 32 -> blen a + 4 < 2 ^ 64 ->
  tree_u32 (a ++ le_bytes 4 x ++ c) off = Ret x.
Proof. intros -> Hx Hl. rewrite tree_u32_eq by done. by apply read_le_app. Qed.

Lemma tree_vec_written v pre post off : Forall is_b32 v -> off = blen pre ->
  blen pre + 4 * N.of_nat (length v) < 2 ^ 64 ->
  tree_vec (length v) (pre ++ concat (le_bytes 4 <$> v) ++ post) off = Ret (v, off + 4 * N.of_nat (length v)).
Proof.
  intros Hv. revert pre off. induction Hv as [|x v Hx Hv IH]; intros pre off -> Hlen; cbn [tree_vec length fmap list_fmap concat].
  { do 2 f_equal. lia. }
  rewrite <-!app_assoc. rewrite tree_u32_written by rd_side. cbn [mbind outcome_bind].
  rewrite add_usize_ok by (cbn [length] in Hlen; lia). cbn [mbind outcome_bind].
  rewrite (app_assoc pre), (IH (pre ++ le_bytes 4 x)) by rd_side.
  cbn [mbind outcome_bind]. do 2 f_equal. lia.
Qed.

Lemma tree_vecs_written cs d pre post off : Forall (vec_ok d) cs -> off = blen pre ->
  blen pre + blen (centroid_bytes cs) < 2 ^ 64 ->
  tree_vecs (length cs) d (pre ++ centroid_bytes cs ++ post) off = Ret (cs, off + blen (centroid_bytes cs)).
Proof.
  intros Hc. revert pre off. induction Hc as [|c cs [Hd Hv] Hc IH]; intros pre off -> Hlen; cbn [tree_vecs length].
  { change (blen (centroid_bytes [])) with 0. by rewrite N.add_0_r. }
  unfold centroid_bytes in *. cbn [fmap list_fmap concat] in *. rewrite blen_app, blen_vec in *. rewrite <-app_assoc.
  rewrite <-Hd at 1. rewrite tree_vec_written by rd_side. cbn [mbind outcome_bind].
  rewrite app_assoc, (IH (pre ++ concat (le_bytes 4 <$> c)));
    [|by rewrite blen_app, blen_vec|rewrite blen_app, blen_vec; lia].
  cbn [mbind outcome_bind]. do 2 f_equal. lia.
Qed.

Definition ref_ok (r : PartitionRef) : Prop := blen (extent r) = 16 /\ partition r < 2 ^ 32.
Definition posting_ok (p : list PartitionRef) : Prop := N.of_nat (length p) < 2 ^ 32 /\ Forall ref_ok p.

Lemma tree_refs_written rs pre post off : Forall ref_ok rs -> off = blen pre ->
  blen pre + blen (concat (ref_bytes <$> rs)) < 2 ^ 64 ->
  tree_refs (length rs) (pre ++ concat (ref_bytes <$> rs) ++ post) off = Ret (rs, off + blen (concat (ref_bytes <$> rs))).
Proof.
  intros Hrs. revert pre off. induction Hrs as [|r rs [Hu Hp] Hrs IH]; intros pre off -> Hlen; cbn [tree_refs length fmap list_fmap concat] in *.
  { change (blen []) with 0. by rewrite N.add_0_r. }
  change (ref_bytes r) with (extent r ++ le_bytes 4 (partition r)) in *. rewrite !blen_app, blen_le_bytes, Hu in *.
  rewrite <-!app_assoc. rewrite tree_range_eq by lia.
  rewrite bslice_app by lia. cbn [or_fail mbind outcome_bind]. rewrite add_usize_ok by lia. cbn [mbind outcome_bind].
  rewrite (app_assoc pre), tree_u32_written by (rewrite ?blen_app; lia). cbn [mbind outcome_bind].
  rewrite add_usize_ok by lia. cbn [mbind outcome_bind].
  rewrite (app_assoc (pre ++ extent r)), (IH ((pre ++ extent r) ++ le_bytes 4 (partition r)));
    [|rewrite !blen_app, blen_le_bytes; lia|rewrite !blen_app, blen_le_bytes; lia].
  cbn [mbind outcome_bind]. destruct r as [u p]; cbn [extent partition] in *. do 2 f_equal. lia.
Qed.

Lemma tree_postings_written ps pre post off : Forall posting_ok ps -> off = blen pre ->
  blen pre + blen (concat (posting_bytes <$> ps)) < 2 ^ 64 ->
  tree_postings (length ps) (pre ++ concat (posting_bytes <$> ps) ++ post) off = Ret ps.
Proof.
  intros Hps. revert pre off. induction Hps as [|p ps [Hl Hp] Hps IH]; intros pre off -> Hlen; [done|].
  cbn [tree_postings length fmap list_fmap concat] in *. change (posting_bytes p) with (le_bytes 4 (N.of_nat (length p)) ++ concat (ref_bytes <$> p)) in *.
  rewrite !blen_app, blen_le_bytes in Hlen. rewrite <-!app_assoc. rewrite tree_u32_written by (done || lia). cbn [mbind outcome_bind].
  rewrite add_usize_ok by lia. cbn [mbind outcome_bind]. rewrite Nat2N.id, (app_assoc pre).
  rewrite tree_refs_written by (rewrite ?blen_app, ?blen_le_bytes; done || lia). cbn [mbind outcome_bind].
  rewrite (app_assoc (pre ++ _)), (IH ((pre ++ le_bytes 4 (N.of_nat (length p))) ++ concat (ref_bytes <$> p)));
    [done|rewrite !blen_app, blen_le_bytes; lia|rewrite !blen_app, blen_le_bytes; lia].
Qed.

Record tree_writable (t : GlobalTree) : Prop := {
  tw_dim : N.of_nat (Tree.dim t) < 2 ^ 32;
  tw_metric : Tree.metric t < 256;
  tw_model : model_ok (Tree.model_id t);
  tw_nlist : N.of_nat (length (Tree.centroids t)) < 2 ^ 32;
  tw_centroids : Forall (vec_ok (Tree.dim t)) (Tree.centroids t);
  tw_tree : tree_ok t;
  tw_postings : Forall posting_ok (Tree.postings t);
  tw_size : blen (write_tree t) < 2 ^ 64
}.

Lemma read_write_tree t : tree_writable t -> read_tree (write_tree t) = Ret t.
Proof.
  intros [Hd Hm Hid Hk Hcs Ht Hps Hsize]. destruct (Hid) as (Hlen & Hs).
  unfold write_tree in *. set (head := header_bytes _ _ _ _ _ _) in *.
  pose proof (blen_header Tree.MAGIC Tree.FORMAT_VERSION (N.of_nat (Tree.dim t)) (Tree.metric t)
    (N.of_nat (length (Tree.centroids t))) (Tree.model_id t) eq_refl) as Hhead. fold head in Hhead.
  set (cb := centroid_bytes (Tree.centroids t)) in *. set (pb := concat (posting_bytes <$> Tree.postings t)) in *.
  set (buf := head ++ cb ++ pb ++ Tree.MAGIC) in *.
  assert (blen buf = blen head + blen cb + blen pb + 4) as Hb.
  { unfold buf. rewrite !blen_app. change (blen Tree.MAGIC) with 4. lia. }
  unfold read_tree. rewrite decide_False by lia.
  assert (bslice buf 0 4 = Some Tree.MAGIC) as -> by by apply header_magic. cbn [or_panic mbind outcome_bind].
  rewrite decide_False by (intros Hn; by apply Hn).
  assert (bslice buf (blen buf - 4) (blen buf) = Some Tree.MAGIC) as ->.
  { transitivity (bslice ((head ++ cb ++ pb) ++ Tree.MAGIC ++ []) (blen buf - 4) (blen buf)).
    - unfold buf. by rewrite app_nil_r, <-!app_assoc.
    - apply bslice_app; [rewrite !blen_app; lia|change (blen Tree.MAGIC) with 4; lia]. }
  cbn [or_panic mbind outcome_bind]. rewrite decide_False by (intros Hn; by apply Hn).
  rewrite !tree_u32_eq by done. unfold buf, head.
  rewrite header_version by done. cbn [mbind outcome_bind]. rewrite decide_False by (intros Hn; by apply Hn).
  rewrite header_dim by done. cbn [mbind outcome_bind]. rewrite header_metric by done. cbn [or_fail mbind outcome_bind].
  rewrite header_nlist by done. cbn [mbind outcome_bind]. rewrite header_model_len by done. cbn [mbind outcome_bind].
  rewrite checked_add_ok by lia. cbn [or_fail mbind outcome_bind].
  rewrite header_model by done. cbn [or_fail mbind outcome_bind]. fold head. fold cb pb.
  rewrite N_of_byte_of, !Nat2N.id by done.
  assert ((if decide (blen (as_bytes (default EmptyString (Tree.model_id t))) = 0) then Ret None
    else if valid_utf8 (as_bytes (default EmptyString (Tree.model_id t)))
         then Ret (Some (of_bytes (as_bytes (default EmptyString (Tree.model_id t))))) else Fail Tree.ModelIdNotUtf8)
    = Ret (E:=Tree.TreeError) (Tree.model_id t)) as ->.
  { destruct (decide _) as [Hz|Hnz].
    - apply (blen_zero_model _ Hid) in Hz. by rewrite Hz.
    - destruct (Tree.model_id t) as [s|]; [|done]. destruct (Hs s eq_refl) as [_ Hstr].
      change (default EmptyString (Some s)) with s. unfold is_str in Hstr. by rewrite Hstr, of_as_bytes. }
  cbn [mbind outcome_bind]. rewrite <-Hhead. rewrite tree_vecs_written by (done || fold cb; lia).
  cbn [mbind outcome_bind]. fold cb. rewrite app_assoc, <-Ht.
  unfold pb. rewrite tree_postings_written; [|done|by rewrite blen_app|rewrite blen_app; fold pb; lia].
  cbn [mbind outcome_bind]. by destruct t.
Qed.

(** *** Reading any bytes as a tree *)

Section AnyTree.
Context (buf : bytes) (Hbuf : blen buf < 2 ^ 63).

Lemma bslice_inv a b s : bslice buf a b = Some s -> a <= b /\ b <= blen buf.
Proof using. clear. unfold bslice. by destruct (decide _). Qed.

Lemma tree_range_safe off len : off <= blen buf -> len <= 16 -> tree_range buf off len <> Panic.
Proof. intros. rewrite tree_range_eq by lia. apply or_fail_no_panic. Qed.

Lemma tree_range_Ret off len s : off <= blen buf -> len <= 16 -> tree_range buf off len = Ret s -> off + len <= blen buf.
Proof. intros ? ?. rewrite tree_range_eq by lia. by intros [_ ?]%or_fail_Ret%bslice_inv. Qed.

Lemma tree_u32_safe off : off <= blen buf -> tree_u32 buf off <> Panic.
Proof. intros H. apply bind_no_panic; [by apply tree_range_safe|done]. Qed.

Lemma tree_u32_Ret off x : off <= blen buf -> tree_u32 buf off = Ret x -> off + 4 <= blen buf.
Proof. intros H (s & Hs & _)%bind_Ret. by eapply tree_range_Ret. Qed.

Ltac tree_step :=
  match goal with
  | |- (tree_u32 _ _ ≫= _) <> Panic =>
      apply bind_no_panic; [apply tree_u32_safe; lia|intros ? ?%tree_u32_Ret; [|lia]]
  | |- (tree_range _ _ _ ≫= _) <> Panic =>
      apply bind_no_panic; [apply tree_range_safe; lia|intros ? ?%tree_range_Ret; [|lia|lia]]
  | _ => safe_step
  end.

Lemma tree_vec_safe k off : off <= blen buf ->
  tree_vec k buf off <> Panic /\ (forall v o, tree_vec k buf off = Ret (v, o) -> o <= blen buf).
Proof.
  revert off. induction k as [|k IH]; intros off Hoff; cbn [tree_vec].
  { split; [done|]. by intros v o [= _ <-]. }
  split.
  - tree_step. safe_step. apply bind_no_panic; [apply IH; lia|]. by intros [? ?] _.
  - intros v o (x & Hx%tree_u32_Ret & Hr)%bind_Ret; [|done]. rewrite add_usize_ok in Hr by lia. cbn [mbind outcome_bind] in Hr.
    apply bind_Ret in Hr as ([xs o'] & Hxs & [= _ <-]). eapply IH; [|exact Hxs]. lia.
Qed.

Lemma tree_vecs_safe k d off : off <= blen buf ->
  tree_vecs k d buf off <> Panic /\ (forall v o, tree_vecs k d buf off = Ret (v, o) -> o <= blen buf).
Proof.
  revert off. induction k as [|k IH]; intros off Hoff; cbn [tree_vecs].
  { split; [done|]. by intros v o [= _ <-]. }
  destruct (tree_vec_safe d off Hoff) as [Hs Hb]. split.
  - apply bind_no_panic; [done|]. intros [c o] Hc. apply bind_no_panic; [by apply IH, (Hb c)|]. by intros [? ?] _.
  - intros v o ([c o1] & Hc & Hr)%bind_Ret. apply bind_Ret in Hr as ([cs o2] & Hcs & [= _ <-]).
    eapply IH; [|exact Hcs]. by eapply Hb.
Qed.

Lemma tree_refs_safe k off : off <= blen buf ->
  tree_refs k buf off <> Panic /\ (forall v o, tree_refs k buf off = Ret (v, o) -> o <= blen buf).
Proof.
  revert off. induction k as [|k IH]; intros off Hoff; cbn [tree_refs].
  { split; [done|]. by intros v o [= _ <-]. }
  split.
  - tree_step. safe_step. tree_step. safe_step. apply bind_no_panic; [apply IH; lia|]. by intros [? ?] _.
  - intros v o (x & Hx%tree_range_Ret & Hr)%bind_Ret; [|done..]. rewrite add_usize_ok in Hr by lia. cbn [mbind outcome_bind] in Hr.
    apply bind_Ret in Hr as (p & Hp%tree_u32_Ret & Hr); [|lia]. rewrite add_usize_ok in Hr by lia. cbn [mbind outcome_bind] in Hr.
    apply bind_Ret in Hr as ([xs o'] & Hxs & [= _ <-]). eapply IH; [|exact Hxs]. lia.
Qed.

Lemma tree_postings_safe k off : off <= blen buf -> tree_postings k buf off <> Panic.
Proof.
  revert off. induction k as [|k IH]; intros off Hoff; cbn [tree_postings]; [done|].
  apply bind_no_panic; [by apply tree_u32_safe|]. intros c Hc%tree_u32_Ret; [|done]. safe_step.
  destruct (tree_refs_safe (N.to_nat c) (off + 4)) as [Hs Hb]; [lia|].
  apply bind_no_panic; [done|]. intros [rs o] Hr. apply bind_no_panic; [|done]. by apply IH, (Hb rs).
Qed.

Lemma read_tree_safe : read_tree buf <> Panic.
Proof.
  unfold read_tree. safe_step. destruct (bslice_Some buf 0 4) as (s & -> & _); [lia|]. cbn [or_panic mbind outcome_bind].
  safe_step. destruct (bslice_Some buf (blen buf - 4) (blen buf)) as (s' & -> & _); [lia|]. cbn [or_panic mbind outcome_bind].
  safe_step. tree_step. safe_step. tree_step.
  apply bind_no_panic; [apply or_fail_no_panic|]. intros m Hm%or_fail_Ret%lookup_lt_Some.
  assert (13 <= blen buf) by (unfold blen; lia). tree_step. tree_step. safe_step.
  apply bind_no_panic; [apply or_fail_no_panic|]. intros model [_ Hmd]%or_fail_Ret%bslice_inv.
  apply bind_no_panic; [destruct (decide _); [done|by destruct (valid_utf8 _)]|]. intros id _.
  match goal with |- (tree_vecs ?k ?d _ ?o ≫= _) <> _ => destruct (tree_vecs_safe k d o) as [Hs Hb]; [lia|] end.
  apply bind_no_panic; [done|]. intros [cs o] Hc. apply bind_no_panic; [|done]. by apply tree_postings_safe, (Hb cs).
Qed.
End AnyTree.

(** *** A tree that was read has a posting list per centroid *)

Lemma tree_vecs_length k d buf off cs o : tree_vecs k d buf off = Ret (cs, o) -> length cs = k.
Proof.
  revert off cs o. induction k as [|k IH]; intros off cs o; cbn [tree_vecs]; [by intros [= <- _]|].
  intros ([c o1] & _ & Hr)%bind_Ret. apply bind_Ret in Hr as ([cs' o2] & Hcs & [= <- _]). cbn. f_equal. by eapply IH.
Qed.

Lemma tree_postings_length k buf off ps : tree_postings k buf off = Ret ps -> length ps = k.
Proof.
  revert off ps. induction k as [|k IH]; intros off ps; cbn [tree_postings]; [by intros [= <-]|].
  intros (c & _ & Hr)%bind_Ret. apply bind_Ret in Hr as (o & _ & Hr). apply bind_Ret in Hr as ([rs o'] & _ & Hr).
  apply bind_Ret in Hr as (ps' & Hps & [= <-]). cbn. f_equal. by eapply IH.
Qed.

Lemma read_tree_ok buf t : read_tree buf = Ret t -> tree_ok t.
Proof.
  unfold read_tree. destruct (decide _); [done|]. intros (h & _ & Hr)%bind_Ret. destruct (decide _); [done|].
  apply bind_Ret in Hr as (l & _ & Hr). destruct (decide _); [done|]. apply bind_Ret in Hr as (v & _ & Hr).
  destruct (decide _); [done|]. do 7 apply bind_Ret in Hr as (? & _ & Hr).
  apply bind_Ret in Hr as ([cs o] & Hcs & Hr). apply bind_Ret in Hr as (ps & Hps & [= <-]). unfold tree_ok. cbn.
  by rewrite (tree_vecs_length _ _ _ _ _ _ Hcs), (tree_postings_length _ _ _ _ Hps).
Qed.
