(* ===== verification/AnnQuery.v ===== *)
(** * Nearest-neighbour queries ([pensieve-exec/src/ann.rs], [ann_tree.rs],
    [udfs_vector.rs], [pensieve-jobs/src/ann_maintain.rs])

    [ann_topk] over the extents of a table: the index where an extent has one,
    an exact scan where it has none, an exact rerank of the candidates; the
    routing by the table-wide tree with its in-process cache; the job that
    rebuilds the tree.  Catalog, object store and extent reader are an
    interface.  Extent ids are the 128-bit numbers of their UUIDs, whose order
    is that of their printed form. *)

From stdpp Require Import base list strings gmap sorting.
From Stdlib Require Import NArith ZArith Lia Ascii SpecFloat.
From S2P Require Import Prelude Bytes Arrow ColumnStats Pushdown CatalogPrune FtsFile VectorMath VectorFile VectorBuild.

Local Open Scope N_scope.

Import Tree (GlobalTree).



(** ** Distances ([udfs_vector.rs]) *)

Definition f64_one : f64 := f64_of_Z 1.
Definition wide (x : b32) : f64 := f64_of_f32 (from_bits x).

(** The three sums of [cosine], in one pass. *)
Definition cosine_sums (ab : list (b32 * b32)) : f64 * f64 * f64 :=
  foldl (fun s xy =>
    let '(dot, na, nb) := s in
    let x := wide xy.1 in
    let y := wide xy.2 in
    (f64_add dot (f64_mul x y), f64_add na (f64_mul x x), f64_add nb (f64_mul y y))) (f64_zero, f64_zero, f64_zero) ab.

Definition cosine (a b : vec) : option f64 :=
  if decide (length a <> length b \/ a = []) then None
  else
    let '(dot, na, nb) := cosine_sums (zip a b) in
    if SFeqb na f64_zero || SFeqb nb f64_zero then None
    else Some (f64_sub f64_one (f64_div dot (f64_mul (f64_sqrt na) (f64_sqrt nb)))).
Definition cosine_distance_vec : vec -> vec -> option f64 := cosine.

Definition l2 (a b : vec) : option f64 :=
  if decide (length a <> length b) then None
  else Some (f64_sqrt (foldl (fun s xy => let d := f64_sub (wide xy.1) (wide xy.2) in f64_add s (f64_mul d d)) f64_zero (zip a b))).

Definition inner (a b : vec) : option f64 :=
  if decide (length a <> length b) then None
  else Some (foldl (fun s xy => f64_add s (f64_mul (wide xy.1) (wide xy.2))) f64_zero (zip a b)).

(** ** What a query is given ([ann.rs]) *)

Record AnnParams := { k : nat; nprobe : nat; rerank_factor : nat; exact_scan_max_rows : N; tree_top_p : nat }.

Definition with_k (k : nat) : AnnParams :=
  {| k := k; nprobe := 16; rerank_factor := 48; exact_scan_max_rows := 50000; tree_top_p := 32 |}.

Record AnnHit := { extent_id : N; h_addr : RowAddress; distance : f64 }.

Inductive AnnError :=
  | Catalog (why : string)
  | Storage (why : string)
  | Format (why : string)
  | Sidecar (why : SidecarError).

Record ApproxCand := { c_extent : N; c_addr : RowAddress; approx_dist : b32 }.

Record IndexSidecarDescriptor := {
  d_extent_id : N; d_column : string; d_object_path : string; d_embedding_model_id : option string
}.

Record AnnTreeDescriptor := {
  t_table : N; t_column : string; t_model : option string; generation : Z; t_fingerprint : string; t_object_path : string
}.

(** The calls a query makes, with the errors they map to their own. *)
Class AnnEnv := {
  Reader : Type;
  list_extents : PrunePredicate -> outcome AnnError (list ExtentManifest);
  list_index_sidecars : list N -> outcome AnnError (list IndexSidecarDescriptor);
  (** [get_or_fetch] of the sidecar cache and the read of its file *)
  fetch_sidecar : IndexSidecarDescriptor -> outcome AnnError bytes;
  open_extent : ExtentManifest -> outcome AnnError Reader;
  all_blocks : Reader -> outcome AnnError (list N);
  read_block : Reader -> N -> outcome AnnError RecordBatch;
  get_ann_tree : string -> option string -> outcome AnnError (option AnnTreeDescriptor);
  get_object : string -> outcome AnnError bytes
}.

(** ** Normalization and extraction *)

Definition l2_normalize (v : vec) : vec := if f64_le (norm64 v) f64_1e_12 then v else scaled v.

(** The body of the row loop of [column_vectors_indexed]. *)
Definition row_vector (floats : list spec_float) (dim : nat) (iv : nat * bool) (out : list (option vec)) :
    outcome AnnError (list (option vec)) :=
  let '(i, valid) := iv in
  if negb valid then Ret (out ++ [None])
  else raw ← float_values floats (i * dim) dim; Ret (out ++ [Some (l2_normalize raw)]).

Definition column_vectors_indexed (batch : RecordBatch) (column : string) : outcome AnnError (option (list (option vec))) :=
  match column_index (b_schema batch) column with
  | None => Ret None
  | Some idx =>
      col ← or_panic (b_columns batch !! idx);
      match col with
      | VectorArray dim valid floats =>
          if decide (dim = 0%nat) then Ret None
          else Some <$> for_each (row_vector floats dim) (imap pair valid) []
      | _ => Ret None
      end
  end.

Definition present_rows (vs : list (option vec)) : list (nat * vec) :=
  omap (fun iv : nat * option vec => match iv.2 with Some v => Some (iv.1, v) | None => None end) (imap pair vs).

Definition column_vectors (batch : RecordBatch) (column : string) : outcome AnnError (option (list (nat * vec))) :=
  indexed ← column_vectors_indexed batch column;
  Ret (option_map present_rows indexed).

Definition keep_prune (cp : string * ColumnPrune) : Prop := match cp.2 with PVectorDistance _ _ => False | _ => True end.
#[export] Instance keep_prune_dec cp : Decision (keep_prune cp).
Proof. unfold keep_prune. destruct (cp.2); apply _. Defined.

Definition sanitize_prune (prefilter : option PrunePredicate) : PrunePredicate :=
  match prefilter with
  | None => default_prune
  | Some p => {| time_range := time_range p; required_paths := required_paths p;
                 column_predicates := filter keep_prune (column_predicates p) |}
  end.

(** ** Planning *)

Definition plan_force_exact (has_prefilter : bool) (surviving_rows max_rows : N) : bool :=
  has_prefilter && bool_decide (0 < max_rows) && bool_decide (surviving_rows <= max_rows).

Definition effective_nprobe (base nlist : nat) : nat :=
  if decide (nlist = 0)%nat then 0%nat else ((base `max` ((nlist + 3) / 4)) `min` nlist `max` 1)%nat.

(** ** Sorting *)

Definition partial (o : option comparison) : comparison := default Eq o.

Definition hit_order (a b : AnnHit) : comparison :=
  match partial (SFcompare (distance a) (distance b)) with
  | Eq => match extent_id a ?= extent_id b with
          | Eq => match block (h_addr a) ?= block (h_addr b) with
                  | Eq => row (h_addr a) ?= row (h_addr b)
                  | c => c
                  end
          | c => c
          end
  | c => c
  end.
Definition sort_hits : list AnnHit -> list AnnHit := sort_by hit_order.

Definition approx_order (a b : ApproxCand) : comparison := partial (f32_partial_cmp (approx_dist a) (approx_dist b)).
Definition truncate_pool (approx : list ApproxCand) (pool_size : nat) : list ApproxCand :=
  take pool_size (sort_by approx_order approx).

(** [usize::saturating_mul] *)
Definition saturating_mul (a b : nat) : nat := N.to_nat (N.min (N.of_nat a * N.of_nat b) (2 ^ 64 - 1)).
Definition pool_size (params : AnnParams) : nat := (saturating_mul (rerank_factor params) (k params) `max` k params)%nat.

(** ** The tree's selection ([ann_tree.rs]) *)

Definition uuid_value (u : Uuid) : N := le_value (rev u).
Definition uuid_bytes (n : N) : Uuid := rev (le_bytes 16 n).

Abbreviation CacheKey := (N * string * option string * Z)%type.
Abbreviation TreeCache := (gmap CacheKey GlobalTree).

Section Query.
Context `{AnnEnv}.
Context (ln cos : f64 -> f64) (sha256 : bytes -> bytes) (table_id : N) (column : string).

Definition same_tree (key : CacheKey) (kt : CacheKey * GlobalTree) : Prop := kt.1.1 = key.1.
#[export] Instance same_tree_dec key kt : Decision (same_tree key kt).
Proof. unfold same_tree. apply _. Defined.

Definition load_tree (cache : TreeCache) (key : CacheKey) (object_path : string) : option GlobalTree * TreeCache :=
  match cache !! key with
  | Some t => (Some t, cache)
  | None =>
      match get_object object_path with
      | Ret data =>
          match read_tree data with
          | Ret tree => (Some tree, <[key := tree]> (filter (fun kt => ~ same_tree key kt) cache))
          | _ => (None, cache)
          end
      | _ => (None, cache)
      end
  end.

Definition selection_of (refs : list PartitionRef) : gmap N (list nat) :=
  foldl (fun m r => let e := uuid_value (extent r) in <[e := default [] (m !! e) ++ [N.to_nat (partition r)]]> m) ∅ refs.

(** [ann_tree::select] *)
Definition select (model : option string) (sidecar_extent_ids : list N) (q : vec) (top_p : nat) (cache : TreeCache) :
    infallible (option (gmap N (list nat)) * TreeCache) :=
  match get_ann_tree column model with
  | Ret (Some desc) =>
      if decide (extent_fingerprint sha256 (uuid_bytes <$> sidecar_extent_ids) <> t_fingerprint desc) then Ret (None, cache)
      else
        let '(tree, cache) := load_tree cache (table_id, column, model, generation desc) (t_object_path desc) in
        match tree with
        | None => Ret (None, cache)
        | Some tree =>
            if decide (Tree.dim tree <> length q) then Ret (None, cache)
            else
              refs ← select_partitions tree q top_p;
              if decide (refs = []) then Ret (None, cache) else Ret (Some (selection_of refs), cache)
        end
  | _ => Ret (None, cache)
  end.

(** ** The query ([ann.rs]) *)

Definition in_sidecar {A} (m : outcome SidecarError A) : outcome AnnError A :=
  match m with Ret a => Ret a | Fail e => Fail (Sidecar e) | Panic => Panic | OutOfFuel => OutOfFuel end.

(** The partitions of one indexed extent to probe; [None] skips the extent. *)
Definition probed_partitions (params : AnnParams) (q : vec) (tree_sel : option (gmap N (list nat))) (m : ExtentManifest)
    (data : bytes) (header : Header) : outcome AnnError (option (list nat)) :=
  match tree_sel with
  | Some sel => Ret ((fun parts => filter (fun p => N.of_nat p < nlist header) parts) <$> sel !! m_id m)
  | None => Some <$> in_sidecar (probe data header q (effective_nprobe (nprobe params) (N.to_nat (nlist header))))
  end.

Definition scan_probed (id : N) (data : bytes) (header : Header) (qc : QueryCode) (p : nat) (approx : list ApproxCand) :
    outcome AnnError (list ApproxCand) :=
  part ← in_sidecar (read_partition data header (N.of_nat p));
  scored ← lift (scan_partition qc part);
  Ret (approx ++ ((fun ad => {| c_extent := id; c_addr := ad.1; approx_dist := ad.2 |}) <$> scored)).

(** An extent with an index: fetch, probe, scan. *)
Definition scan_indexed (params : AnnParams) (q : vec) (tree_sel : option (gmap N (list nat))) (m : ExtentManifest)
    (desc : IndexSidecarDescriptor) (approx : list ApproxCand) : outcome AnnError (list ApproxCand) :=
  data ← fetch_sidecar desc;
  header ← in_sidecar (read_header data);
  if decide (N.of_nat (length q) <> dim header) then Ret approx
  else
    let qc := encode_query_rotated (apply (rotation ln cos (N.to_nat (dim header))) q) in
    probed ← probed_partitions params q tree_sel m data header;
    match probed with
    | None => Ret approx
    | Some ps => for_each (scan_probed (m_id m) data header qc) ps approx
    end.

Definition score_row (q : vec) (id bid : N) (rv : nat * vec) (out : list AnnHit) : list AnnHit :=
  match cosine_distance_vec q rv.2 with
  | Some d => out ++ [{| extent_id := id; h_addr := {| block := bid; row := N.of_nat rv.1 mod 2 ^ 32 |}; distance := d |}]
  | None => out
  end.

Definition scan_block (q : vec) (id : N) (reader : Reader) (bid : N) (out : list AnnHit) : outcome AnnError (list AnnHit) :=
  batch ← read_block reader bid;
  col ← column_vectors batch column;
  match col with
  | None => Ret out
  | Some rows => Ret (foldl (fun out rv => score_row q id bid rv out) out rows)
  end.

(** An extent without an index: every row, exactly. *)
Definition scan_exact (q : vec) (m : ExtentManifest) (out : list AnnHit) : outcome AnnError (list AnnHit) :=
  reader ← open_extent m;
  blocks ← all_blocks reader;
  for_each (scan_block q (m_id m) reader) blocks out.

Definition scan_extent (params : AnnParams) (q : vec) (sidecars : gmap N IndexSidecarDescriptor)
    (tree_sel : option (gmap N (list nat))) (m : ExtentManifest) (st : list ApproxCand * list AnnHit) :
    outcome AnnError (list ApproxCand * list AnnHit) :=
  match sidecars !! m_id m with
  | Some desc => approx ← scan_indexed params q tree_sel m desc st.1; Ret (approx, st.2)
  | None => out ← scan_exact q m st.2; Ret (st.1, out)
  end.

(** The rows wanted of each block, by extent and block. *)
Definition group (cands : list ApproxCand) : gmap (N * N) (list N) :=
  foldl (fun m c => let e := (c_extent c, block (c_addr c)) in <[e := default [] (m !! e) ++ [row (c_addr c)]]> m) ∅ cands.

Definition key_order (a b : N * N) : comparison := match a.1 ?= b.1 with Eq => a.2 ?= b.2 | c => c end.

Definition rerank_row (q : vec) (vectors : list (option vec)) (key : N * N) (r : N) (out : list AnnHit) : list AnnHit :=
  match vectors !! N.to_nat r with
  | Some (Some v) =>
      match cosine_distance_vec q v with
      | Some d => out ++ [{| extent_id := key.1; h_addr := {| block := key.2; row := r |}; distance := d |}]
      | None => out
      end
  | _ => out
  end.

(** The body of the loop over (extent, block); the readers opened so far are
    kept, an extent's by its id. *)
Definition rerank_block (q : vec) (manifests : gmap N ExtentManifest) (kr : (N * N) * list N)
    (st : gmap N Reader * list AnnHit) : outcome AnnError (gmap N Reader * list AnnHit) :=
  let '(readers, out) := st in
  let '(key, rows) := kr in
  match manifests !! key.1 with
  | None => Ret st
  | Some m =>
      '(reader, readers) ← match readers !! key.1 with
                           | Some r => Ret (r, readers)
                           | None => r ← open_extent m; Ret (r, <[key.1 := r]> readers)
                           end;
      batch ← read_block reader key.2;
      vectors ← column_vectors_indexed batch column;
      match vectors with
      | None => Ret (readers, out)
      | Some vs => Ret (readers, foldl (fun out r => rerank_row q vs key r out) out rows)
      end
  end.

Definition exact_rerank (q : vec) (manifests : gmap N ExtentManifest) (cands : list ApproxCand) : outcome AnnError (list AnnHit) :=
  let wanted := group cands in
  let keys := sort_by key_order (map_to_list wanted).*1 in
  snd <$> for_each (rerank_block q manifests) ((fun key => (key, default [] (wanted !! key))) <$> keys) (∅, []).

Definition by_id (ms : list ExtentManifest) : gmap N ExtentManifest := foldl (fun m x => <[m_id x := x]> m) ∅ ms.

(** [sidecars.filter(column).map(..).collect()]: the last of an extent stays. *)
Definition sidecars_by_extent (ds : list IndexSidecarDescriptor) : gmap N IndexSidecarDescriptor :=
  foldl (fun m d => if decide (d_column d = column) then <[d_extent_id d := d]> m else m) ∅ ds.

(** [first_value] is the value a [HashMap] yields first, whichever it is. *)
Definition ann_topk (first_value : gmap N IndexSidecarDescriptor -> option IndexSidecarDescriptor)
    (qvec : vec) (params : AnnParams) (prefilter : option PrunePredicate) (cache : TreeCache) :
    outcome AnnError (list AnnHit * TreeCache) :=
  let q := l2_normalize qvec in
  extents ← list_extents (sanitize_prune prefilter);
  if decide (extents = []) then Ret ([], cache)
  else
    let surviving_rows := foldr (fun m n => m_row_count m + n) 0 extents in
    let force_exact := plan_force_exact (bool_decide (is_Some prefilter)) surviving_rows (exact_scan_max_rows params) in
    sidecars ← (if force_exact then Ret ∅ else sidecars_by_extent <$> list_index_sidecars (m_id <$> extents));
    '(tree_sel, cache) ← (if decide (sidecars = ∅) then Ret (None, cache)
                          else lift (select (first_value sidecars ≫= d_embedding_model_id) (map_to_list sidecars).*1 q
                                       (tree_top_p params) cache));
    '(approx, fallback_exact) ← for_each (scan_extent params q sidecars tree_sel) extents ([], []);
    let pool := truncate_pool approx (pool_size params) in
    reranked ← exact_rerank q (by_id extents) pool;
    Ret (take (k params) (sort_hits (reranked ++ fallback_exact)), cache).
End Query.

(** ** Rebuilding the tree ([ann_maintain.rs]) *)

Inductive JobError :=
  | Transient (why : string)
  | Permanent (why : string)
  | Config (why : string).

(** What the job changes outside, in the order it does. *)
Inductive Effect :=
  | PutTree (path : string) (blob : bytes)
  | UpsertTree (desc : AnnTreeDescriptor)
  | DeleteTrees (column : string).

Inductive MaintainStatus :=
  | NoSidecars
  | Unchanged (generation : Z)
  | EmptyTree
  | Built (generation : Z) (global_nlist source_extents total_partitions : nat).

Section Maintain.
Context `{AnnEnv}.
Context (sha256 : bytes -> bytes) (uuid : N -> string) (tenant table_id : N) (column : string) (model : option string).
Context (list_databases : outcome JobError (list string)) (list_tables : string -> outcome JobError (list N)).

Definition tree_path (model : option string) : string :=
  let m := replace "/" "_" (default "none"%string model) in
  fmt [uuid tenant; "/ann_tree/"; uuid table_id; "/"; column; "__"; m; ".kygt"]%string.

(** [table_by_id]: whether some database of the tenant has the table. *)
Fixpoint table_in (dbs : list string) : outcome JobError bool :=
  match dbs with
  | [] => Ret false
  | db :: dbs => ts ← list_tables db; if decide (table_id ∈ ts) then Ret true else table_in dbs
  end.
Definition table_by_id : outcome JobError bool := dbs ← list_databases; table_in dbs.

Definition fingerprint (extent_ids : list N) : string := extent_fingerprint sha256 (uuid_bytes <$> extent_ids).

Definition as_job {E A} (err : JobError) (m : outcome E A) : outcome JobError A :=
  match m with Ret a => Ret a | Fail _ => Fail err | Panic => Panic | OutOfFuel => OutOfFuel end.

Definition relevant (ds : list IndexSidecarDescriptor) : list IndexSidecarDescriptor :=
  sort_by (fun a b => d_extent_id a ?= d_extent_id b)
    (filter (fun d => d_column d = column /\ d_embedding_model_id d = model) ds).

(** The body of the loop over the sidecars: their centroids, and their one
    dimension. *)
Definition read_sidecar (d : IndexSidecarDescriptor) (st : list (Uuid * list vec) * option N) :
    outcome JobError (list (Uuid * list vec) * option N) :=
  let '(acc, known) := st in
  data ← as_job (Transient "get sidecar") (get_object (d_object_path d));
  header ← as_job (Permanent "sidecar header") (read_header data);
  centroids ← as_job (Permanent "sidecar centroids") (read_centroids data header);
  known ← match known with
          | None => Ret (Some (dim header))
          | Some prev => if decide (prev <> dim header) then Fail (Permanent "mixed sidecar dims") else Ret (Some prev)
          end;
  Ret (acc ++ [(uuid_bytes (d_extent_id d), centroids)], known).

(** [AnnMaintainExecutor::run]; a call that fails leaves the effects before it. *)
Definition maintain : outcome JobError (MaintainStatus * list Effect) :=
  found ← table_by_id;
  if negb (found : bool) then Fail (Permanent "table no longer exists")
  else
    live ← as_job (Transient "list extents") (list_extents default_prune);
    ds ← as_job (Transient "list sidecars") (list_index_sidecars (m_id <$> live));
    let covered := relevant ds in
    if decide (covered = []) then Ret (NoSidecars, [DeleteTrees column])
    else
      let fp := fingerprint (d_extent_id <$> covered) in
      existing ← as_job (Transient "get ann_tree") (get_ann_tree column model);
      if decide (t_fingerprint <$> existing = Some fp) then Ret (Unchanged (default 0%Z (generation <$> existing)), [])
      else
        '(extent_centroids, known) ← for_each read_sidecar covered ([], None);
        d ← or_fail (Permanent "no dim") known;
        let total_partitions := sum_list_with (fun ec : Uuid * list vec => length ec.2) extent_centroids in
        let global_nlist := choose_global_nlist total_partitions in
        tree ← lift (build_tree (N.to_nat d) METRIC_COSINE model extent_centroids global_nlist);
        match tree with
        | None => Ret (EmptyTree, [])
        | Some tree =>
            let path := tree_path model in
            let generation := match existing with Some t => (generation t + 1)%Z | None => 1%Z end in
            Ret (Built generation global_nlist (length covered) total_partitions,
                 [PutTree path (write_tree tree);
                  UpsertTree {| t_table := table_id; t_column := column; t_model := model; generation := generation;
                                t_fingerprint := fp; t_object_path := path |}])
        end.
End Maintain.
