(* ===== verification/AnnSpec.v ===== *)
(** * What a nearest-neighbour query computes

    The rows of an extent as vectors, the hits an exact scan of them gives, and
    the lemmas that relate scanning, probing and reranking to those hits. *)

From stdpp Require Import base list strings gmap sorting.
From Stdlib Require Import NArith ZArith Lia Ascii SpecFloat.
From S2P Require Import Prelude Bytes Arrow ColumnStats Pushdown CatalogPrune FtsFile VectorMath VectorFile VectorBuild.
From S2P Require Import AnnQuery.

Local Open Scope N_scope.

(** ** Vectors of a batch *)

Definition raw_row (floats : list spec_float) (dim i : nat) : vec := to_bits <$> take dim (drop (i * dim) floats).

(** The vector column of a batch: its dimension, validity and values. *)
Definition vector_column_of (b : RecordBatch) (column : string) : option (nat * list bool * list spec_float) :=
  match column_index (b_schema b) column ≫= fun idx => b_columns b !! idx with
  | Some (VectorArray dim valid floats) => Some (dim, valid, floats)
  | _ => None
  end.

Definition batch_rows (b : RecordBatch) (column : string) : list (option vec) :=
  match vector_column_of b column with
  | Some (dim, valid, floats) => imap (fun i (ok : bool) => if ok then Some (raw_row floats dim i) else None) valid
  | None => []
  end.

Lemma float_values_ok {E} floats start dim : (start + dim <= length floats)%nat ->
  float_values (E:=E) floats start dim = Ret (to_bits <$> take dim (drop start floats)).
Proof.
  revert start. induction dim as [|dim IH]; intros start Hl; cbn [float_values]; [done|].
  destruct (lookup_lt_is_Some_2 floats start) as [x Hx]; [lia|]. rewrite Hx. cbn [or_panic mbind outcome_bind].
  rewrite IH by lia. cbn. by rewrite (drop_S floats x start Hx).
Qed.

Lemma raw_row_values {E} floats (valid : list bool) dim i : length floats = (length valid * dim)%nat -> (i < length valid)%nat ->
  float_values (E:=E) floats (i * dim) dim = Ret (raw_row floats dim i).
Proof. intros Hl Hi. apply float_values_ok. nia. Qed.

Lemma length_raw_row floats (valid : list bool) dim i : length floats = (length valid * dim)%nat -> (i < length valid)%nat ->
  length (raw_row floats dim i) = dim.
Proof. intros Hl Hi. unfold raw_row. rewrite length_fmap, length_take, length_drop. nia. Qed.

(** A loop that appends one element per element of the list. *)
Lemma append_loop {E A B} (f : A -> list B -> outcome E (list B)) (g : A -> list B) l out :
  (forall x out, x ∈ l -> f x out = Ret (out ++ g x)) -> for_each f l out = Ret (out ++ concat (g <$> l)).
Proof.
  revert out. induction l as [|x l IH]; intros out Hf; cbn [for_each fmap list_fmap concat]; [by rewrite app_nil_r|].
  rewrite (Hf x) by by left. cbn [mbind outcome_bind]. rewrite IH by (intros; apply Hf; by right). by rewrite <-app_assoc.
Qed.

Lemma concat_imap_singleton {A B} (f : nat -> A -> B) l : concat ((fun ix : nat * A => [f ix.1 ix.2]) <$> imap pair l) = imap f l.
Proof.
  revert f. induction l as [|x l IH]; intros f; [done|]. rewrite !imap_cons. cbn [fmap list_fmap concat app fst snd]. f_equal.
  rewrite <-(IH (f ∘ S)). f_equal. rewrite !fmap_imap. apply imap_ext. done.
Qed.

Lemma vector_column_plain b column dim valid floats : batch_ok b -> vector_column_of b column = Some (dim, valid, floats) ->
  length floats = (length valid * dim)%nat /\ length valid = b_num_rows b.
Proof.
  intros [_ Hc] Hv. unfold vector_column_of in Hv.
  destruct (column_index (b_schema b) column) as [idx|]; [|done]. cbn [mbind option_bind] in Hv.
  destruct (b_columns b !! idx) as [[]|] eqn:Hcol; try done. injection Hv as <- <- <-.
  by destruct (Forall_lookup_1 _ _ _ _ Hc Hcol) as [Hn Hp].
Qed.

Lemma column_index_lt s column idx : column_index s column = Some idx -> (idx < length s)%nat.
Proof. intros Hi. by apply column_index_Some in Hi as (f & Hf & _); apply lookup_lt_Some in Hf. Qed.

(** [column_vectors_indexed] is the rows normalized, when there is a column. *)
Lemma column_vectors_ok b column : batch_ok b ->
  exists vs, column_vectors_indexed b column = Ret vs /\
    (default [] vs = option_map l2_normalize <$> batch_rows b column \/
     vs = None /\ exists valid floats, vector_column_of b column = Some (0%nat, valid, floats)).
Proof.
  intros Hok. unfold column_vectors_indexed, batch_rows. pose proof (vector_column_plain b column) as Hplain.
  destruct (column_index (b_schema b) column) as [idx|] eqn:Hidx.
  2:{ exists None. split; [done|]. left. unfold vector_column_of. by rewrite Hidx. }
  destruct (lookup_lt_is_Some_2 (b_columns b) idx) as [col Hcol].
  { destruct Hok as [Hs _]. apply column_index_lt in Hidx. by rewrite <-(Forall2_length _ _ _ Hs). }
  unfold vector_column_of in *. rewrite Hidx in *. cbn [mbind option_bind] in *. rewrite Hcol in *. cbn [or_panic mbind outcome_bind].
  destruct col as [| | | | |dim valid floats|]; try (exists None; split; [done|by left]).
  destruct (Hplain _ _ _ Hok eq_refl) as [Hl _].
  destruct (decide (dim = 0%nat)) as [->|Hd]; [exists None; split; [done|right]; eauto|].
  rewrite (append_loop _ (fun iv => [if iv.2 : bool then Some (l2_normalize (raw_row floats dim iv.1)) else None])).
  - eexists. split; [done|]. left. cbn [app].
    rewrite (concat_imap_singleton (fun i (ok : bool) => if ok then Some (l2_normalize (raw_row floats dim i)) else None)).
    cbn [default]. rewrite fmap_imap. apply imap_ext. by intros i [] _.
  - intros [i ok] out Hin. cbn [fst snd]. unfold row_vector. destruct ok; cbn [negb]; [|done].
    apply list_elem_of_lookup_1 in Hin as [j Hj]. rewrite list_lookup_imap in Hj.
    destruct (valid !! j) eqn:Hv; [|done]. injection Hj as -> ->. apply lookup_lt_Some in Hv.
    by rewrite (raw_row_values floats valid).
Qed.

(** ** Hits *)

Lemma foldl_omap {A B} (step : A -> list B -> list B) (f : A -> option B) l out :
  (forall x out, step x out = match f x with Some y => out ++ [y] | None => out end) ->
  foldl (fun out x => step x out) out l = out ++ omap f l.
Proof.
  intros Hs. revert out. induction l as [|x l IH]; intros out; cbn; [by rewrite app_nil_r|].
  rewrite Hs, IH. destruct (f x); [by rewrite <-app_assoc|done].
Qed.

Section Hits.
Context (q : vec) (column : string).

(** The hit a row is: none for a null, or where the distance is undefined. *)
Definition row_hit (id : N) (a : RowAddress) (raw : option vec) : option AnnHit :=
  match raw with
  | Some v => (fun d => {| extent_id := id; h_addr := a; distance := d |}) <$> cosine_distance_vec q (l2_normalize v)
  | None => None
  end.

(** The row an address names in the blocks of an extent. *)
Definition row_at (blocks : list RecordBatch) (a : RowAddress) : option vec :=
  match blocks !! N.to_nat (block a) with
  | Some b => default None (batch_rows b column !! N.to_nat (row a))
  | None => None
  end.

Definition addr_hit (blocks : list RecordBatch) (id : N) (a : RowAddress) : option AnnHit := row_hit id a (row_at blocks a).

Definition block_hits (id bid : N) (b : RecordBatch) : list AnnHit :=
  omap (fun iv : nat * option vec => row_hit id {| block := bid; row := N.of_nat iv.1 |} iv.2) (imap pair (batch_rows b column)).

Definition extent_hits (id : N) (blocks : list RecordBatch) : list AnnHit :=
  concat (imap (fun i b => block_hits id (N.of_nat i) b) blocks).

Lemma empty_rows_no_hit id a v : length v = 0%nat -> row_hit id a (Some v) = None.
Proof.
  intros Hv. apply nil_length_inv in Hv. subst v. cbn [row_hit]. unfold cosine_distance_vec, cosine, l2_normalize.
  assert ((if f64_le (norm64 []) f64_1e_12 then [] else scaled []) = ([] : vec)) as -> by by destruct (f64_le _ _).
  destruct (decide _) as [|Hn]; [done|]. exfalso. apply Hn. destruct q; [by right|by left].
Qed.

Lemma block_hits_zero id bid b valid floats : vector_column_of b column = Some (0%nat, valid, floats) -> block_hits id bid b = [].
Proof.
  intros Hv. unfold block_hits, batch_rows. rewrite Hv.
  assert (forall l, Forall (fun iv : nat * option vec => forall v, iv.2 = Some v -> length v = 0%nat) l ->
    omap (fun iv : nat * option vec => row_hit id {| block := bid; row := N.of_nat iv.1 |} iv.2) l = []) as Hgen.
  { induction 1 as [|[i [v|]] l Hx Hl IH]; cbn; [done| |done].
    pose proof (empty_rows_no_hit id {| block := bid; row := N.of_nat i |} v (Hx v eq_refl)) as Hr. cbn in Hr. by rewrite Hr. }
  apply Hgen, Forall_forall. intros [i o] Hin v Ho. cbn in Ho. subst o.
  apply list_elem_of_lookup_1 in Hin as [j Hj]. rewrite !list_lookup_imap in Hj.
  destruct (valid !! j) as [[]|]; try done. injection Hj as _ <-. unfold raw_row. by rewrite length_fmap, length_take.
Qed.

(** An exact scan of a block appends its hits. *)
Lemma score_rows id bid rows vs out : vs = option_map l2_normalize <$> rows -> N.of_nat (length rows) < 2 ^ 32 ->
  foldl (fun out rv => score_row q id bid rv out) out (present_rows vs) =
  out ++ omap (fun iv : nat * option vec => row_hit id {| block := bid; row := N.of_nat iv.1 |} iv.2) (imap pair rows).
Proof.
  intros -> Hn.
  rewrite (foldl_omap (score_row q id bid)
    (fun rv => (fun d => {| extent_id := id; h_addr := {| block := bid; row := N.of_nat rv.1 mod 2 ^ 32 |}; distance := d |})
       <$> cosine_distance_vec q rv.2)).
  2:{ intros [i v] o. unfold score_row. cbn [fst snd]. by destruct (cosine_distance_vec q v). }
  f_equal. unfold present_rows.
  assert (forall k l, (k + length l <= length rows)%nat ->
    omap (fun rv : nat * vec => (fun d => {| extent_id := id; h_addr := {| block := bid; row := N.of_nat rv.1 mod 2 ^ 32 |}; distance := d |})
       <$> cosine_distance_vec q rv.2)
      (omap (fun iv : nat * option vec => match iv.2 with Some v => Some (iv.1, v) | None => None end)
         (imap (fun i o => ((k + i)%nat, o)) (option_map l2_normalize <$> l))) =
    omap (fun iv : nat * option vec => row_hit id {| block := bid; row := N.of_nat iv.1 |} iv.2) (imap (fun i o => ((k + i)%nat, o)) l)) as Hgen.
  { intros k l. revert k. induction l as [|o l IH]; intros k Hk; [done|]. cbn [length] in Hk.
    assert (forall A (g : list A), imap ((fun i x => ((k + i)%nat, x)) ∘ S) g = imap (fun i x => ((S k + i)%nat, x)) g) as Hshift.
    { intros A g. apply imap_ext. intros i x _. cbn. f_equal. lia. }
    cbn [fmap list_fmap]. rewrite !imap_cons, !Hshift, Nat.add_0_r. destruct o as [v|]; cbn [option_map omap list_omap fst snd row_hit].
    - rewrite N.mod_small by lia. rewrite <-(IH (S k)) by lia. by destruct (cosine_distance_vec q (l2_normalize v)).
    - by rewrite <-(IH (S k)) by lia. }
  apply (Hgen 0%nat rows). lia.
Qed.
End Hits.

(** ** Scanning and reranking over an environment *)

Section Env.
Context `{AnnEnv} (q : vec) (column : string) (blocks : N -> list RecordBatch).

(** What the reader of an extent returns: its blocks, by their index. *)
Definition reader_of (id : N) (r : Reader) : Prop :=
  all_blocks r = Ret (N.of_nat <$> seq 0 (length (blocks id))) /\
  forall i b, read_block r i = Ret b <-> blocks id !! N.to_nat i = Some b.

Record env_ok (extents : list ExtentManifest) : Prop := {
  eo_open : forall m, m ∈ extents -> exists r, open_extent m = Ret r /\ reader_of (m_id m) r;
  eo_batches : forall m, m ∈ extents -> Forall batch_ok (blocks (m_id m));
  eo_rows : forall m b, m ∈ extents -> b ∈ blocks (m_id m) -> N.of_nat (length (batch_rows b column)) < 2 ^ 32;
  eo_ids : NoDup (m_id <$> extents)
}.

Context (extents : list ExtentManifest) (Henv : env_ok extents).

Lemma block_vectors m b : m ∈ extents -> b ∈ blocks (m_id m) ->
  exists vs, column_vectors_indexed b column = Ret vs /\
    (default [] vs = option_map l2_normalize <$> batch_rows b column \/
     vs = None /\ forall bid, block_hits q column (m_id m) bid b = []) /\
    (vs = None -> forall bid, block_hits q column (m_id m) bid b = []).
Proof.
  intros Hm Hb. pose proof (eo_batches _ Henv m Hm) as Hf. rewrite Forall_forall in Hf.
  destruct (column_vectors_ok b column (Hf b Hb)) as (vs & Hvs & Hcase). exists vs. split; [done|].
  assert (vs = None -> forall bid, block_hits q column (m_id m) bid b = []) as Hnone.
  { intros -> bid. destruct Hcase as [Heq|(_ & valid & floats & Hz)]; [|by eapply block_hits_zero].
    unfold block_hits. cbn in Heq. destruct (batch_rows b column); [done|discriminate]. }
  split; [|done]. destruct Hcase as [?|(-> & _)]; [by left|right]. auto.
Qed.

Lemma scan_block_ok m r i b out : m ∈ extents -> reader_of (m_id m) r -> blocks (m_id m) !! N.to_nat i = Some b ->
  scan_block column q (m_id m) r i out = Ret (out ++ block_hits q column (m_id m) i b).
Proof.
  intros Hm [_ Hread] Hb. unfold scan_block. rewrite (proj2 (Hread i b) Hb). cbn [mbind outcome_bind].
  assert (b ∈ blocks (m_id m)) as Hin by by eapply list_elem_of_lookup_2.
  destruct (block_vectors m b Hm Hin) as (vs & Hvs & Hcase & Hnone). unfold column_vectors. rewrite Hvs. cbn [mbind outcome_bind].
  destruct vs as [vs|]; cbn [option_map].
  - destruct Hcase as [Heq|[? _]]; [|done]. cbn in Heq. f_equal.
    by apply score_rows; [|by eapply eo_rows].
  - by rewrite Hnone, app_nil_r.
Qed.

Lemma scan_exact_ok m out : m ∈ extents ->
  scan_exact column q m out = Ret (out ++ extent_hits q column (m_id m) (blocks (m_id m))).
Proof.
  intros Hm. destruct (eo_open _ Henv m Hm) as (r & Hr & Hreader). unfold scan_exact. rewrite Hr. cbn [mbind outcome_bind].
  rewrite (proj1 Hreader). cbn [mbind outcome_bind]. unfold extent_hits.
  rewrite (append_loop _ (fun i => default [] (block_hits q column (m_id m) i <$> blocks (m_id m) !! N.to_nat i))).
  - do 3 f_equal. apply list_eq. intros i. rewrite list_lookup_fmap, list_lookup_fmap, list_lookup_imap.
    destruct (blocks (m_id m) !! i) as [b|] eqn:Hb; cbn.
    + rewrite lookup_seq_lt by (by eapply lookup_lt_Some). cbn. rewrite Nat2N.id, Hb. done.
    + apply lookup_ge_None in Hb. by rewrite lookup_seq_ge.
  - intros i o Hi. apply list_elem_of_fmap in Hi as (j & -> & [_ Hj]%elem_of_seq).
    destruct (lookup_lt_is_Some_2 (blocks (m_id m)) j) as [b Hb]; [lia|]. rewrite Nat2N.id, Hb. cbn.
    apply scan_block_ok; [done..|]. by rewrite Nat2N.id.
Qed.

(** *** Reranking *)

Lemma by_id_lookup m : m ∈ extents -> by_id extents !! m_id m = Some m.
Proof.
  pose proof (eo_ids _ Henv) as Hnd. clear Henv. revert Hnd. unfold by_id. induction extents as [|x ms IH] using rev_ind.
  { by intros _ ?%elem_of_nil. }
  intros Hnd Hm. rewrite foldl_snoc. rewrite fmap_app in Hnd. apply NoDup_app in Hnd as (Hnd & Hdis & _).
  apply elem_of_app in Hm as [Hm| ->%list_elem_of_singleton]; [|by rewrite lookup_insert_eq].
  rewrite lookup_insert_ne; [by apply IH|]. intros Heq. apply (Hdis (m_id m)); [by apply list_elem_of_fmap_2|].
  rewrite <-Heq. cbn. by left.
Qed.

Lemma by_id_Some id m : by_id extents !! id = Some m -> m ∈ extents /\ m_id m = id.
Proof.
  clear Henv. unfold by_id. induction extents as [|x ms IH] using rev_ind; [cbn; by rewrite lookup_empty|].
  rewrite foldl_snoc. destruct (decide (m_id x = id)) as [<-|Hne].
  - rewrite lookup_insert_eq. intros [= <-]. split; [|done]. apply elem_of_app. right. by left.
  - rewrite lookup_insert_ne by done. intros [? ?]%IH. split; [|done]. apply elem_of_app. by left.
Qed.

Definition readers_ok (readers : gmap N Reader) : Prop := forall id r, readers !! id = Some r -> reader_of id r.

Definition cand_hit (id : N) (a : RowAddress) : option AnnHit :=
  if decide (id ∈ m_id <$> extents) then addr_hit q column (blocks id) id a else None.

Lemma rerank_rows m b bid rows vs out : m ∈ extents -> blocks (m_id m) !! N.to_nat bid = Some b ->
  default [] vs = option_map l2_normalize <$> batch_rows b column ->
  foldl (fun out r => rerank_row q (default [] vs) (m_id m, bid) r out) out rows =
  out ++ omap (fun r => cand_hit (m_id m) {| block := bid; row := r |}) rows.
Proof.
  intros Hm Hb ->. apply (foldl_omap (rerank_row q _ (m_id m, bid))). intros r o. unfold rerank_row, cand_hit, addr_hit, row_at.
  rewrite decide_True by by apply list_elem_of_fmap_2. cbn [block row fst snd]. rewrite Hb, list_lookup_fmap.
  destruct (batch_rows b column !! N.to_nat r) as [[v|]|]; cbn; [|done..].
  by destruct (cosine_distance_vec q (l2_normalize v)).
Qed.

Lemma no_hits_rows id b bid rows : blocks id !! N.to_nat bid = Some b -> (forall bid, block_hits q column id bid b = []) ->
  omap (fun r => cand_hit id {| block := bid; row := r |}) rows = [].
Proof.
  intros Hb Hnone. induction rows as [|r rows IH]; cbn; [done|]. rewrite IH. unfold cand_hit.
  destruct (decide _); [|done]. unfold addr_hit, row_at. cbn [block row]. rewrite Hb.
  destruct (batch_rows b column !! N.to_nat r) as [o|] eqn:Hr; [|done]. cbn [from_option]. unfold Datatypes.id.
  destruct (row_hit q id {| block := bid; row := r |} o) as [h|] eqn:Hh; [|done]. exfalso.
  assert (h ∈ block_hits q column id bid b) as Hin; [|rewrite Hnone in Hin; by apply elem_of_nil in Hin].
  unfold block_hits. apply list_elem_of_omap. exists (N.to_nat r, o). cbn. rewrite N2Nat.id. split; [|done].
  apply list_elem_of_lookup_2 with (i := N.to_nat r). by rewrite list_lookup_imap, Hr.
Qed.

(** One (extent, block): its rows, in order, as hits. *)
Lemma rerank_block_ok key rows readers out : readers_ok readers ->
  (forall id, id ∈ m_id <$> extents -> id = key.1 -> exists b, blocks id !! N.to_nat key.2 = Some b) ->
  exists readers', rerank_block column q (by_id extents) (key, rows) (readers, out) =
    Ret (readers', out ++ omap (fun r => cand_hit key.1 {| block := key.2; row := r |}) rows) /\ readers_ok readers'.
Proof.
  intros Hro Hblock. destruct key as [id bid]. cbn [fst snd] in *. unfold rerank_block. cbn [fst snd].
  destruct (by_id extents !! id) as [m|] eqn:Hm.
  2:{ exists readers. split; [|done]. assert (id ∉ m_id <$> extents) as Hni.
      { intros (m & -> & Hin)%list_elem_of_fmap. by rewrite by_id_lookup in Hm. }
      assert (omap (fun r => cand_hit id {| block := bid; row := r |}) rows = []) as ->; [|by rewrite app_nil_r].
      clear Hblock. induction rows as [|r rows IH]; cbn; [done|]. rewrite IH. unfold cand_hit. by rewrite decide_False. }
  apply by_id_Some in Hm as [Hm <-]. destruct (eo_open _ Henv m Hm) as (r0 & Hopen & Hr0).
  assert (exists r readers', match readers !! m_id m with
      | Some r => Ret (r, readers)
      | None => r ← open_extent m; Ret (r, <[m_id m := r]> readers)
      end = Ret (E:=AnnError) (r, readers') /\ reader_of (m_id m) r /\ readers_ok readers') as (r & readers' & -> & Hr & Hro').
  { destruct (readers !! m_id m) as [r|] eqn:Hl; [exists r, readers; auto|]. rewrite Hopen. cbn.
    exists r0, (<[m_id m := r0]> readers). split_and!; [done..|]. intros id r. destruct (decide (m_id m = id)) as [<-|Hne].
    - rewrite lookup_insert_eq. by intros [= <-].
    - rewrite lookup_insert_ne by done. apply Hro. }
  cbn [mbind outcome_bind]. destruct (Hblock (m_id m)) as [b Hb]; [by apply list_elem_of_fmap_2|done|].
  rewrite (proj2 (proj2 Hr bid b) Hb). cbn [mbind outcome_bind].
  destruct (block_vectors m b Hm) as (vs & -> & Hcase & Hnone); [by eapply list_elem_of_lookup_2|]. cbn [mbind outcome_bind].
  exists readers'. split; [|done]. destruct vs as [vs|].
  - destruct Hcase as [Heq|[? _]]; [|done]. change vs with (default [] (Some vs)). by rewrite (rerank_rows m b).
  - rewrite (no_hits_rows (m_id m) b) by auto. by rewrite app_nil_r.
Qed.

Definition cand_key (c : ApproxCand) : N * N := (c_extent c, block (c_addr c)).

Lemma group_snoc cands c : group (cands ++ [c]) =
  <[cand_key c := default [] (group cands !! cand_key c) ++ [row (c_addr c)]]> (group cands).
Proof. unfold group. by rewrite foldl_snoc. Qed.

Lemma group_lookup cands key :
  default [] (group cands !! key) = (fun c => row (c_addr c)) <$> filter (fun c => cand_key c = key) cands.
Proof.
  induction cands as [|c cands IH] using rev_ind; [unfold group; cbn; by rewrite lookup_empty|].
  rewrite group_snoc, filter_app, fmap_app, <-IH. destruct (decide (cand_key c = key)) as [<-|Hne].
  - by rewrite lookup_insert_eq, filter_cons_True.
  - by rewrite lookup_insert_ne, filter_cons_False, app_nil_r.
Qed.

Lemma group_dom cands key rows : group cands !! key = Some rows -> exists c, c ∈ cands /\ cand_key c = key.
Proof.
  revert rows. induction cands as [|c cands IH] using rev_ind; intros rows; [unfold group; cbn; by rewrite lookup_empty|].
  rewrite group_snoc. destruct (decide (cand_key c = key)) as [<-|Hne].
  - intros _. exists c. split; [|done]. apply elem_of_app. right. by left.
  - rewrite lookup_insert_ne by done. intros (x & Hx & ?)%IH. exists x. split; [|done]. apply elem_of_app. by left.
Qed.

Lemma group_has cands c : c ∈ cands -> is_Some (group cands !! cand_key c).
Proof.
  induction cands as [|x cands IH] using rev_ind; [by intros ?%elem_of_nil|]. rewrite group_snoc.
  intros [Hc| ->%list_elem_of_singleton]%elem_of_app; [|by rewrite lookup_insert_eq].
  destruct (decide (cand_key x = cand_key c)) as [->|Hne]; [by rewrite lookup_insert_eq|].
  rewrite lookup_insert_ne by done. auto.
Qed.

(** A list taken apart by the keys of its elements. *)
Lemma split_by_keys {A K} `{EqDecision K} (g : A -> K) keys l : NoDup keys -> Forall (fun x => g x ∈ keys) l ->
  concat ((fun key => filter (fun x => g x = key) l) <$> keys) ≡ₚ l.
Proof using.
  intros Hnd Hl. assert (forall keys, NoDup keys ->
    concat ((fun key => filter (fun x => g x = key) l) <$> keys) ≡ₚ filter (fun x => g x ∈ keys) l) as Hgen.
  { clear. induction 1 as [|key keys Hk Hnd IH]; cbn [fmap list_fmap concat].
    { induction l as [|x l IH]; [done|]. rewrite filter_cons_False; [done|]. apply not_elem_of_nil. }
    rewrite IH. clear IH. induction l as [|x l IH]; [done|]. rewrite !filter_cons.
    destruct (decide (g x = key)) as [Hx|Hx].
    - rewrite decide_False by (by rewrite Hx). rewrite decide_True by (rewrite Hx; by left). cbn. by rewrite IH.
    - destruct (decide (g x ∈ keys)) as [Hin|Hin].
      + rewrite decide_True by by right. rewrite <-IH. by rewrite Permutation_middle.
      + rewrite decide_False; [done|]. intros [?|?]%elem_of_cons; done. }
  rewrite Hgen by done. clear Hgen. induction Hl as [|x l Hx Hl IH]; [done|]. rewrite filter_cons_True by done. by rewrite IH.
Qed.

Lemma omap_concat {A B} (f : A -> option B) (ls : list (list A)) : omap f (concat ls) = concat (fmap (M:=list) (omap (M:=list) f) ls).
Proof using. clear. induction ls as [|l ls IH]; [done|]. cbn [concat fmap list_fmap]. by rewrite omap_app, IH. Qed.

Lemma omap_cons {A B} (f : A -> option B) x l :
  omap (M:=list) f (x :: l) = match f x with Some y => y :: omap (M:=list) f l | None => omap (M:=list) f l end.
Proof using. done. Qed.

Lemma omap_perm {A B} (f : A -> option B) (l l' : list A) : l ≡ₚ l' -> omap (M:=list) f l ≡ₚ omap (M:=list) f l'.
Proof using.
  induction 1 as [|x l l' _ IH|x y l|l l1 l2 _ IH1 _ IH2]; rewrite ?omap_cons; [done| | |by rewrite IH1].
  - destruct (f x); by rewrite ?IH.
  - destruct (f x), (f y); rewrite ?omap_cons; [apply Permutation_swap|done..].
Qed.

Lemma keyed_hits key (cands : list ApproxCand) :
  omap (fun r => cand_hit key.1 {| block := key.2; row := r |})
    ((fun c => row (c_addr c)) <$> filter (fun c => cand_key c = key) cands) =
  omap (fun c => cand_hit (c_extent c) (c_addr c)) (filter (fun c => cand_key c = key) cands).
Proof.
  induction cands as [|c cs IH]; [done|]. rewrite filter_cons. destruct (decide (cand_key c = key)) as [Hk|]; [|apply IH].
  rewrite fmap_cons, !omap_cons, IH, <-Hk. by destruct c as [? []].
Qed.

Lemma exact_rerank_ok cands :
  (forall c, c ∈ cands -> c_extent c ∈ m_id <$> extents -> exists b, blocks (c_extent c) !! N.to_nat (block (c_addr c)) = Some b) ->
  exists out, exact_rerank column q (by_id extents) cands = Ret out /\
    out ≡ₚ omap (fun c => cand_hit (c_extent c) (c_addr c)) cands.
Proof.
  intros Hblock. unfold exact_rerank. set (keys := sort_by key_order _).
  assert (keys ≡ₚ (map_to_list (group cands)).*1) as Hkeys by apply sort_by_Permutation.
  assert (forall key, key ∈ keys -> exists c, c ∈ cands /\ cand_key c = key) as Hkey.
  { intros key Hin. rewrite Hkeys in Hin. apply list_elem_of_fmap in Hin as ([key' rows] & -> & Hin).
    by apply elem_of_map_to_list, group_dom in Hin. }
  assert (forall keys readers out, readers_ok readers -> (forall key, key ∈ keys -> exists c, c ∈ cands /\ cand_key c = key) ->
    exists readers', for_each (rerank_block column q (by_id extents))
      ((fun key => (key, default [] (group cands !! key))) <$> keys) (readers, out) =
    Ret (readers', out ++ concat ((fun key => omap (fun r => cand_hit key.1 {| block := key.2; row := r |})
      (default [] (group cands !! key))) <$> keys))) as Hloop.
  { clear Hkeys Hkey keys. induction keys as [|key keys IH]; intros readers out Hr Hkey; cbn [for_each fmap list_fmap concat].
    { exists readers. by rewrite app_nil_r. }
    destruct (rerank_block_ok key (default [] (group cands !! key)) readers out Hr) as (readers1 & -> & Hr1).
    { intros id Hid ->. destruct (Hkey key) as (c & Hc & <-); [by left|]. by apply Hblock. }
    cbn [mbind outcome_bind]. destruct (IH readers1 (out ++ omap (fun r => cand_hit key.1 {| block := key.2; row := r |})
      (default [] (group cands !! key))) Hr1) as (readers2 & ->).
    { intros k Hk. apply Hkey. by right. }
    exists readers2. by rewrite <-app_assoc. }
  destruct (Hloop keys ∅ []) as (readers & ->); [intros ? ?; by rewrite lookup_empty|done|].
  eexists. split; [done|]. cbn [app].
  etrans; [|apply omap_perm, (split_by_keys cand_key keys cands)].
  - rewrite omap_concat, <-list_fmap_compose.
    match goal with |- ?a ≡ₚ ?b => enough (a = b) as -> by done end.
    cbn [snd]. f_equal. apply list_fmap_ext. intros _ key _. cbn. rewrite group_lookup. apply keyed_hits.
  - rewrite Hkeys. apply NoDup_fst_map_to_list.
  - apply Forall_forall. intros c Hc. rewrite Hkeys. destruct (group_has cands c Hc) as [rows Hrows].
    apply list_elem_of_fmap. exists (cand_key c, rows). split; [done|]. by apply elem_of_map_to_list.
Qed.
End Env.

(** ** Orders *)

(** Lists of numbers, compared at the first place they differ. *)
Fixpoint lex_compare (a b : list Z) : comparison :=
  match a, b with
  | x :: a, y :: b => match (x ?= y)%Z with Eq => lex_compare a b | c => c end
  | _, _ => Eq
  end.

Lemma lex_compare_opp a b : lex_compare b a = CompOpp (lex_compare a b).
Proof.
  revert b. induction a as [|x a IH]; intros [|y b]; try done. cbn. rewrite Z.compare_antisym.
  destruct (x ?= y)%Z; cbn; auto.
Qed.

Lemma lex_compare_eq a b : length a = length b -> lex_compare a b = Eq -> a = b.
Proof.
  revert b. induction a as [|x a IH]; intros [|y b] Hl; try done. cbn in *.
  destruct (Z.compare_spec x y) as [->| |]; try done. intros ?. f_equal. apply IH; [lia|done].
Qed.

Lemma lex_compare_trans a b c : length a = length b -> length b = length c ->
  lex_compare a b <> Gt -> lex_compare b c <> Gt -> lex_compare a c <> Gt.
Proof.
  revert b c. induction a as [|x a IH]; intros [|y b] [|z c] Hab Hbc; try done. cbn in *.
  injection Hab as Hab. injection Hbc as Hbc. specialize (IH b c Hab Hbc).
  destruct (Z.compare_spec x y), (Z.compare_spec y z), (Z.compare_spec x z); intros Hle1 Hle2; subst; congruence || lia || auto.
Qed.

Definition rank_list (x : spec_float) : list Z := match rank x with Some (a, b, c) => [a; b; c] | None => [] end.

Lemma SFcompare_rank x y : x <> S754_nan -> y <> S754_nan -> SFcompare x y = Some (lex_compare (rank_list x) (rank_list y)).
Proof.
  intros Hx Hy.
  destruct x as [[]|[]| |[] mx ex], y as [[]|[]| |[] my ey]; try done; cbn [SFcompare rank_list rank lex_compare]; f_equal.
  - change (Pos.compare_cont Eq mx my) with (mx ?= my)%positive.
    change (Z.neg mx ?= Z.neg my)%Z with (CompOpp (mx ?= my)%positive).
    destruct (Z.compare_spec ex ey), (Z.compare_spec (- ex) (- ey)); lia || by destruct (mx ?= my)%positive.
  - change (Pos.compare_cont Eq mx my) with (mx ?= my)%positive.
    change (Z.pos mx ?= Z.pos my)%Z with (mx ?= my)%positive. destruct (ex ?= ey)%Z; cbn; [by destruct (mx ?= my)%positive|done..].
Qed.

Lemma length_rank_list x : x <> S754_nan -> length (rank_list x) = 3%nat.
Proof. by destruct x as [|[]| |[]]. Qed.

(** A comparison that is a comparison of lists of numbers is a total order. *)
Section Keyed.
Context {A : Type} (cmp : A -> A -> comparison) (P : A -> Prop) (key : A -> list Z) (n : nat).
Context (Hlen : forall a, P a -> length (key a) = n) (Hcmp : forall a b, P a -> P b -> cmp a b = lex_compare (key a) (key b)).

Lemma keyed_trans a b c : P a -> P b -> P c -> not_greater cmp a b -> not_greater cmp b c -> not_greater cmp a c.
Proof.
  unfold not_greater. intros. rewrite Hcmp in * by done. eapply (lex_compare_trans _ (key b)); rewrite ?Hlen; auto.
Qed.

Lemma keyed_total a b : P a -> P b -> cmp a b = Gt -> not_greater cmp b a.
Proof. unfold not_greater. intros Ha Hb Hgt. rewrite Hcmp in * by done. rewrite lex_compare_opp. by rewrite Hgt. Qed.

Lemma keyed_eq a b : P a -> P b -> not_greater cmp a b -> not_greater cmp b a -> key a = key b.
Proof.
  unfold not_greater. intros. rewrite Hcmp in * by done. apply lex_compare_eq; [by rewrite !Hlen|].
  rewrite (lex_compare_opp (key a)) in *. by destruct (lex_compare (key a) (key b)).
Qed.
End Keyed.

Definition hit_number (h : AnnHit) : Prop := distance h <> S754_nan.
Definition hit_key (h : AnnHit) : list Z :=
  rank_list (distance h) ++ [Z.of_N (extent_id h); Z.of_N (block (h_addr h)); Z.of_N (row (h_addr h))].

Lemma lex_compare_app a a' b b' : length a = length b ->
  lex_compare (a ++ a') (b ++ b') = match lex_compare a b with Eq => lex_compare a' b' | c => c end.
Proof.
  revert b. induction a as [|x a IH]; intros [|y b] Hl; try done. cbn in *. destruct (x ?= y)%Z; [apply IH; lia|done..].
Qed.

Lemma hit_order_key a b : hit_number a -> hit_number b -> hit_order a b = lex_compare (hit_key a) (hit_key b).
Proof.
  intros Ha Hb. unfold hit_order, hit_key. rewrite lex_compare_app by (by rewrite !length_rank_list).
  rewrite SFcompare_rank by done. cbn [partial default lex_compare]. rewrite !N2Z.inj_compare.
  destruct (lex_compare (rank_list _) _); [|done..]. cbn.
  by repeat case_match.
Qed.

Lemma length_hit_key h : hit_number h -> length (hit_key h) = 6%nat.
Proof. intros Hh. unfold hit_key. by rewrite length_app, length_rank_list. Qed.

Lemma sort_hits_sorted hits : Forall hit_number hits -> StronglySorted (not_greater hit_order) (sort_hits hits).
Proof.
  apply sort_by_sorted; [eapply keyed_trans|eapply keyed_total]; eauto using length_hit_key, hit_order_key.
Qed.

Definition hit_place (h : AnnHit) : N * RowAddress := (extent_id h, h_addr h).

(** The result does not depend on the order the hits were found in. *)
Lemma sort_hits_unique hits hits' : Forall hit_number hits -> NoDup (hit_place <$> hits) -> hits ≡ₚ hits' ->
  sort_hits hits = sort_hits hits'.
Proof.
  intros Hn Hd Hp. apply (sorted_unique hit_order hit_number).
  - eapply keyed_total; eauto using length_hit_key, hit_order_key.
  - unfold sort_hits. by rewrite sort_by_Permutation.
  - intros a b Ha Hb Hab Hba. unfold sort_hits in Ha, Hb. rewrite sort_by_Permutation in Ha, Hb.
    rewrite Forall_forall in Hn.
    assert (hit_key a = hit_key b) as Hkey.
    { apply (keyed_eq hit_order hit_number hit_key 6); eauto using length_hit_key, hit_order_key. }
    unfold hit_key in Hkey. apply app_inj_2 in Hkey as [_ [= He Hbl Hr]]; [|done].
    apply list_elem_of_lookup_1 in Ha as [i Hi], Hb as [j Hj].
    assert (i = j) as <-; [|congruence]. eapply (NoDup_lookup_inj (hit_place <$> hits)); [done| |].
    + by rewrite list_lookup_fmap, Hi.
    + rewrite list_lookup_fmap, Hj. cbn. f_equal. unfold hit_place. destruct (h_addr a), (h_addr b). cbn in *. f_equal; [lia|]. f_equal; lia.
  - by apply sort_hits_sorted.
  - apply sort_hits_sorted. by rewrite <-Hp.
  - unfold sort_hits. by rewrite !sort_by_Permutation.
Qed.

(** ** The rows of an index *)

(** The entry an index has for row [j] of block [i]: none for a null, or for a
    vector too short to have a direction. *)
Definition indexed_row (i j : nat) (raw : option vec) : option (RowAddress * vec) :=
  match raw with
  | Some v => if f64_le (norm64 v) f64_1e_12 then None
              else Some ({| block := N.of_nat i; row := N.of_nat j |}, scaled v)
  | None => None
  end.

Definition block_index (column : string) (i : nat) (b : RecordBatch) : list (RowAddress * vec) :=
  omap (fun jr => indexed_row i jr.1 jr.2) (imap pair (batch_rows b column)).

Definition index_rows (column : string) (blocks : list RecordBatch) : list (RowAddress * vec) :=
  concat (imap (block_index column) blocks).

(** *** What the builder extracts *)

Lemma extract_rows_ok b column dim valid floats i out : batch_ok b -> vector_column_of b column = Some (dim, valid, floats) ->
  N.of_nat (length valid) < 2 ^ 32 ->
  extract_rows b column (N.of_nat i) out = Ret (Some dim, out ++ block_index column i b).
Proof.
  intros Hok Hv Hn. destruct (vector_column_plain _ _ _ _ _ Hok Hv) as [Hl _].
  unfold extract_rows, block_index, batch_rows. rewrite Hv. unfold vector_column_of in Hv.
  destruct (column_index (b_schema b) column) as [idx|] eqn:Hidx; [|done]. cbn [mbind option_bind] in Hv.
  apply column_index_Some in Hidx as (f & Hf & _). rewrite Hf. cbn [or_panic mbind outcome_bind].
  destruct (b_columns b !! idx) as [col|] eqn:Hcol; [|done].
  pose proof (Forall2_lookup_lr _ _ _ _ _ _ (proj1 Hok) Hf Hcol) as Hty. cbn beta in Hty. rewrite <-Hty.
  destruct col; try done. injection Hv as -> -> ->. cbn [array_type or_panic mbind outcome_bind].
  rewrite (append_loop _ (fun jv => match indexed_row i jv.1 (if jv.2 : bool then Some (raw_row floats dim jv.1) else None) with
                                    | Some e => [e] | None => [] end)).
  - cbn [mbind outcome_bind]. do 3 f_equal. generalize (raw_row floats dim) as raw. intros raw. clear.
    assert (forall l : list (nat * bool), concat ((fun jv => match indexed_row i jv.1 (if jv.2 : bool then Some (raw jv.1) else None) with
        | Some e => [e] | None => [] end) <$> l) =
      omap (M:=list) (fun jr : nat * option vec => indexed_row i jr.1 jr.2) ((fun jv => (jv.1, if jv.2 : bool then Some (raw jv.1) else None)) <$> l)) as ->.
    { induction l as [|x l IH]; [done|]. rewrite !fmap_cons, omap_cons. cbn [concat]. rewrite IH. cbn [fst snd]. by destruct (indexed_row _ _ _). }
    f_equal. apply list_eq. intros j. rewrite list_lookup_fmap, !list_lookup_imap. by destruct (valid !! j).
  - intros [j ok] o Hin. cbn [fst snd]. unfold extract_row. destruct ok; cbn [negb indexed_row]; [|by rewrite app_nil_r].
    apply list_elem_of_lookup_1 in Hin as [j' Hj]. rewrite list_lookup_imap in Hj.
    destruct (valid !! j') eqn:Hvj; [|done]. injection Hj as -> ->. apply lookup_lt_Some in Hvj.
    rewrite (raw_row_values floats valid) by done. cbn [mbind outcome_bind].
    rewrite N.mod_small by lia. destruct (f64_le _ _); [by rewrite app_nil_r|done].
Qed.

Lemma index_rows_snoc column bs b : index_rows column (bs ++ [b]) = index_rows column bs ++ block_index column (length bs) b.
Proof. unfold index_rows. rewrite imap_app, concat_app. cbn. by rewrite app_nil_r, Nat.add_0_r. Qed.

(** Every batch of an extent has the column, with vectors of one length. *)
Definition column_dim (column : string) (dim : nat) (b : RecordBatch) : Prop :=
  exists valid floats, vector_column_of b column = Some (dim, valid, floats) /\ N.of_nat (length valid) < 2 ^ 32.

Lemma builder_rows column dim bs : Forall batch_ok bs -> Forall (column_dim column dim) bs -> N.of_nat (length bs) < 2 ^ 32 ->
  for_each (take_batch column) (Ret <$> bs) {| x_rows := []; x_dim := None; x_ordinal := 0 |} =
  Ret {| x_rows := index_rows column bs; x_dim := if decide (bs = []) then None else Some dim; x_ordinal := N.of_nat (length bs) |}.
Proof.
  intros Hok Hcol. revert Hok Hcol. induction bs as [|b bs IH] using rev_ind; intros Hok Hcol Hn; [done|].
  apply Forall_app in Hok as [Hok [Hb _]%Forall_cons], Hcol as [Hcol [(valid & floats & Hv & Hlen) _]%Forall_cons].
  rewrite length_app in *. cbn [length] in *.
  rewrite fmap_app, for_each_app, IH by (done || lia). cbn [mbind outcome_bind fmap list_fmap for_each].
  unfold take_batch at 1. cbn [mbind outcome_bind x_ordinal x_rows x_dim].
  rewrite (extract_rows_ok b column dim valid floats) by done. cbn [mbind outcome_bind].
  assert (match (if decide (bs = []) then None else Some dim) with
    | Some prev => if decide (prev <> dim) then Fail (InconsistentDim prev dim) else Ret (Some dim)
    | None => Ret (Some dim)
    end = Ret (Some dim)) as ->.
  { destruct (decide (bs = [])); [done|]. by rewrite decide_False by (intros Hx; by apply Hx). }
  cbn [mbind outcome_bind]. rewrite decide_True by lia. cbn [or_panic mbind outcome_bind].
  rewrite (decide_False (P := bs ++ [b] = [])) by (by intros [_ ?]%app_eq_nil). rewrite index_rows_snoc. do 2 f_equal. lia.
Qed.

Lemma indexed_row_ok i j raw a v : indexed_row i j raw = Some (a, v) ->
  a = {| block := N.of_nat i; row := N.of_nat j |} /\ exists w, raw = Some w /\ v = scaled w.
Proof.
  unfold indexed_row. destruct raw as [w|]; [|done]. destruct (f64_le _ _); [done|]. intros [= <- <-]. split; [done|]. eauto.
Qed.

(** An index entry is a row of the blocks, and its vector that row scaled. *)
Lemma index_rows_elem column blocks a v : (a, v) ∈ index_rows column blocks ->
  exists i j b w, a = {| block := N.of_nat i; row := N.of_nat j |} /\ blocks !! i = Some b /\
    batch_rows b column !! j = Some (Some w) /\ v = scaled w.
Proof.
  unfold index_rows. intros Hin. apply list_elem_of_In, in_concat in Hin as (l & Hl%list_elem_of_In & Hin%list_elem_of_In). apply list_elem_of_lookup_1 in Hl as [i Hi].
  rewrite list_lookup_imap in Hi. destruct (blocks !! i) as [b|] eqn:Hb; [|done]. injection Hi as <-.
  unfold block_index in Hin. apply list_elem_of_omap in Hin as ([j raw] & Hj & Hrow).
  apply list_elem_of_lookup_1 in Hj as [j' Hj]. rewrite list_lookup_imap in Hj.
  destruct (batch_rows b column !! j') as [raw'|] eqn:Hr; [|done]. injection Hj as <- <-.
  cbn [fst snd] in Hrow. apply indexed_row_ok in Hrow as (-> & w & -> & ->). exists i, j', b, w. done.
Qed.

(** ** Probing and scanning an index *)

Lemma signed_sum_total c q i acc : (i + length q <= 8 * length c)%nat -> exists x, signed_sum c i q acc = Ret x.
Proof.
  revert i acc. induction q as [|x q IH]; intros i acc Hl; cbn [signed_sum length] in *; [eauto|].
  unfold sign_bit. destruct (lookup_lt_is_Some_2 c (i / 8)) as [b ->].
  { apply Nat.Div0.div_lt_upper_bound. lia. }
  cbn [or_panic mbind outcome_bind]. apply IH. lia.
Qed.

Lemma scan_partition_ok d part qc : Forall (entry_ok (N.of_nat d)) part -> length (rotated qc) = d ->
  exists scored, scan_partition qc part = Ret scored /\ fst <$> scored = addr <$> part.
Proof.
  intros Hp Hq. induction Hp as [|e part (_ & _ & Hc & _) Hp (scored & IH & Ha)]; [by exists []|]. cbn [scan_partition].
  pose proof (code_len_enough (N.of_nat d)) as Hlen. unfold blen in Hc.
  destruct (signed_sum_total (code (e_code e)) (rotated qc) 0 f32_zero) as (x & Hx); [lia|].
  unfold estimate_distance. rewrite Hx. cbn [mbind outcome_bind]. rewrite IH. cbn [mbind outcome_bind].
  eexists. split; [done|]. cbn. by rewrite Ha.
Qed.

(** An index over the rows of [blocks]: a blob that a build writes. *)
Record index_of (ln cos : f64 -> f64) (column : string) (blocks : list RecordBatch) (dim : nat) (cs : list vec)
    (model : option string) (data : bytes) : Prop := {
  ix_data : data = blob dim METRIC_COSINE cs (row_partitions ln cos dim cs (index_rows column blocks)) model;
  ix_input : build_input dim (index_rows column blocks);
  ix_nonempty : cs <> [];
  ix_nlist : N.of_nat (length cs) < 2 ^ 32;
  ix_centroids : Forall (vec_ok dim) cs;
  ix_model : model_ok model;
  ix_size : blen data < 2 ^ 63;
  ix_columns : Forall (column_dim column dim) blocks
}.

Section Index.
Context (ln cos : f64 -> f64) (column : string) (blocks : list RecordBatch) (d : nat) (cs : list vec).
Context (model : option string) (data : bytes) (Hix : index_of ln cos column blocks d cs model data).
Let rows := index_rows column blocks.
Let parts := row_partitions ln cos d cs rows.
Let header := written_header d METRIC_COSINE cs model.

Lemma parts_length : length parts = length cs.
Proof using. clear Hix. unfold parts, row_partitions. by rewrite length_buckets. Qed.

Lemma index_reads : read_header data = Ret header /\ read_centroids data header = Ret cs /\
  forall p part, parts !! p = Some part -> read_partition data header (N.of_nat p) = Ret part.
Proof.
  destruct Hix as [-> Hin Hne Hk Hcs Hmodel Hsize _].
  pose proof (row_partitions_ok ln cos d cs rows (bi_count _ _ Hin) (bi_addr _ _ Hin)) as Hparts. fold parts in Hparts.
  fold rows parts in Hsize |- *. pose proof parts_length as Hlen. pose proof (bi_dim32 _ _ Hin).
  split_and!; [apply blob_header|apply blob_centroids|intros p part; apply blob_partition]; try done; lia.
Qed.

Lemma parts_addresses : concat (fmap (M:=list) (fmap (M:=list) addr) parts) ≡ₚ fst <$> rows.
Proof.
  unfold parts, row_partitions.
  assert (forall ls : list (list Entry), concat (fmap (M:=list) (fmap (M:=list) addr) ls) = addr <$> concat ls) as ->.
  { induction ls as [|l ls IH]; [done|]. cbn [fmap list_fmap concat]. by rewrite fmap_app, IH. }
  rewrite buckets_Permutation.
  - rewrite <-list_fmap_compose. done.
  - apply Forall_forall. intros r _. apply nearest_lt. by destruct Hix.
Qed.

Lemma part_lookup p : (p < length cs)%nat -> exists part, parts !! p = Some part /\ Forall (entry_ok (N.of_nat d)) part.
Proof.
  intros Hp. destruct (lookup_lt_is_Some_2 parts p) as [part Hpart]; [by rewrite parts_length|]. exists part. split; [done|].
  pose proof (row_partitions_ok ln cos d cs rows (bi_count _ _ (ix_input _ _ _ _ _ _ _ _ Hix)) (bi_addr _ _ (ix_input _ _ _ _ _ _ _ _ Hix))) as Hparts.
  by apply (Forall_lookup_1 _ _ _ _ Hparts Hpart).
Qed.
End Index.

Section Scan.
Context `{AnnEnv} (ln cos : f64 -> f64) (column : string) (blocks : N -> list RecordBatch).

(** The addresses a scan of partition [p] adds, in order. *)
Lemma scan_probed_ok id d cs model data qc p approx : index_of ln cos column (blocks id) d cs model data ->
  length (rotated qc) = d -> (p < length cs)%nat ->
  exists part new, row_partitions ln cos d cs (index_rows column (blocks id)) !! p = Some part /\
    scan_probed id data (written_header d METRIC_COSINE cs model) qc p approx = Ret (approx ++ new) /\
    c_addr <$> new = addr <$> part /\ Forall (fun c => c_extent c = id) new.
Proof.
  intros Hix Hq Hp. destruct (index_reads _ _ _ _ _ _ _ _ Hix) as (_ & _ & Hread).
  destruct (part_lookup _ _ _ _ _ _ _ _ Hix p Hp) as (part & Hpart & Hok).
  destruct (scan_partition_ok d part qc Hok Hq) as (scored & Hs & Ha). unfold scan_probed. rewrite (Hread p part Hpart).
  cbn [in_sidecar mbind outcome_bind]. rewrite Hs. cbn [lift mbind outcome_bind].
  eexists part, _. split_and!; [done|done| |].
  - rewrite <-list_fmap_compose. cbn. by rewrite <-Ha.
  - apply Forall_fmap, Forall_forall. done.
Qed.

Lemma scan_parts_ok id d cs model data qc ps approx : index_of ln cos column (blocks id) d cs model data ->
  length (rotated qc) = d -> Forall (fun p => p < length cs)%nat ps ->
  exists new, for_each (scan_probed id data (written_header d METRIC_COSINE cs model) qc) ps approx = Ret (approx ++ new) /\
    c_addr <$> new = concat ((fun p => default [] (fmap (M:=list) addr <$>
      row_partitions ln cos d cs (index_rows column (blocks id)) !! p)) <$> ps) /\
    Forall (fun c => c_extent c = id) new.
Proof.
  intros Hix Hq Hps. revert approx. induction Hps as [|p ps Hp Hps IH]; intros approx; cbn [for_each].
  { exists []. rewrite app_nil_r. split_and!; [done..|constructor]. }
  destruct (scan_probed_ok id d cs model data qc p approx Hix Hq Hp) as (part & new1 & Hpart & -> & Ha1 & Hf1).
  cbn [mbind outcome_bind]. destruct (IH (approx ++ new1)) as (new2 & -> & Ha2 & Hf2). exists (new1 ++ new2).
  rewrite app_assoc. split_and!; [done| |by apply Forall_app].
  rewrite fmap_app, Ha1, Ha2. cbn [fmap list_fmap concat]. by rewrite Hpart.
Qed.

Lemma all_parts {B} (ls : list (list B)) : concat ((fun p => default [] (ls !! p)) <$> seq 0 (length ls)) = concat ls.
Proof using.
  clear. induction ls as [|l ls IH]; [done|]. cbn [length seq fmap list_fmap concat]. f_equal.
  rewrite <-IH. f_equal. rewrite <-fmap_S_seq, <-list_fmap_compose. done.
Qed.

Lemma default_fmap {A B} (f : A -> B) (o : option (list A)) : default [] (fmap (M:=list) f <$> o) = f <$> default [] o.
Proof using. by destruct o. Qed.

Lemma probe_ok d cs model data q n id : index_of ln cos column (blocks id) d cs model data -> length q = d ->
  exists ps, probe data (written_header d METRIC_COSINE cs model) q n = Ret ps /\
    Forall (fun p => p < length cs)%nat ps /\ length ps = (n `min` length cs)%nat /\
    ((length cs <= n)%nat -> ps ≡ₚ seq 0 (length cs)).
Proof.
  intros Hix Hq. destruct (index_reads _ _ _ _ _ _ _ _ Hix) as (_ & Hcs & _). unfold probe. rewrite Hcs.
  cbn [mbind outcome_bind written_header dim]. rewrite decide_False by (intros Hn; apply Hn; by rewrite Hq).
  set (sorted := sort_by by_distance (scores q cs)).
  assert (fst <$> sorted ≡ₚ seq 0 (length cs)) as Hperm.
  { unfold sorted. by rewrite sort_by_Permutation, scores_indices. }
  assert (length sorted = length cs) as Hlen by (by rewrite <-(length_fmap fst), Hperm, length_seq).
  eexists. split; [done|]. rewrite Hlen. split_and!.
  - apply Forall_forall. intros p Hp. assert (p ∈ seq 0 (length cs)) as ?%elem_of_seq; [|lia].
    rewrite <-Hperm. rewrite <-(take_drop (n `min` length cs) sorted), fmap_app. apply elem_of_app. by left.
  - rewrite length_fmap, length_take. lia.
  - intros Hle. rewrite Nat.min_r by done. by rewrite take_ge by lia.
Qed.

(** An indexed extent adds candidates that are rows of its index; all of them
    when every partition is probed. *)
Lemma scan_indexed_ok params q tree_sel m desc d cs model data approx :
  fetch_sidecar desc = Ret data -> index_of ln cos column (blocks (m_id m)) d cs model data ->
  exists new, scan_indexed ln cos params q tree_sel m desc approx = Ret (approx ++ new) /\
    Forall (fun c => c_extent c = m_id m /\ c_addr c ∈ fst <$> index_rows column (blocks (m_id m))) new /\
    (length q = d -> tree_sel = None -> (length cs <= nprobe params)%nat ->
       c_addr <$> new ≡ₚ fst <$> index_rows column (blocks (m_id m))) /\
    (length q <> d -> new = []).
Proof.
  intros Hfetch Hix. destruct (index_reads _ _ _ _ _ _ _ _ Hix) as (Hh & _ & _).
  unfold scan_indexed. rewrite Hfetch. cbn [mbind outcome_bind]. rewrite Hh. cbn [in_sidecar mbind outcome_bind].
  cbn [written_header dim]. destruct (decide _) as [Hd|Hd].
  { exists []. rewrite app_nil_r. split_and!; [done|constructor| |done]. intros Hq. by rewrite Hq in Hd. }
  assert (length q = d) as Hq by lia. rewrite Nat2N.id.
  set (qc := encode_query_rotated _). assert (length (rotated qc) = d) as Hqc.
  { unfold qc, encode_query_rotated. cbn [rotated]. by rewrite length_apply. }
  assert (exists ps, probed_partitions params q tree_sel m data (written_header d METRIC_COSINE cs model) = Ret ps /\
    Forall (fun p => p < length cs)%nat (default [] ps) /\
    (tree_sel = None -> (length cs <= nprobe params)%nat -> exists ps', ps = Some ps' /\ ps' ≡ₚ seq 0 (length cs))) as (ps & -> & Hlt & Hall).
  { unfold probed_partitions. destruct tree_sel as [sel|].
    - eexists. split_and!; [done| |done]. destruct (sel !! m_id m) as [l|]; cbn; [|constructor].
      apply Forall_forall. intros p [Hp _]%list_elem_of_filter. lia.
    - destruct (probe_ok d cs model data q (effective_nprobe (nprobe params) (N.to_nat (N.of_nat (length cs)))) (m_id m) Hix Hq)
        as (ps & Hps & Hf & _ & Hfull).
      cbn [written_header nlist]. rewrite Hps. exists (Some ps). split_and!; [done|done|]. intros _ Hle. exists ps. split; [done|].
      apply Hfull. unfold effective_nprobe. rewrite Nat2N.id. destruct (decide _); [lia|]. lia. }
  cbn [mbind outcome_bind]. destruct ps as [ps|].
  - destruct (scan_parts_ok (m_id m) d cs model data qc ps approx Hix Hqc Hlt) as (new & -> & Ha & Hf).
    exists new. set (parts := row_partitions _ _ _ _ _) in *. split_and!; [done| | |done].
    + apply Forall_forall. intros c Hc. rewrite Forall_forall in Hf. split; [by apply Hf|].
      rewrite <-(parts_addresses _ _ _ _ _ _ _ _ Hix). fold parts. assert (c_addr c ∈ c_addr <$> new) as Hin by by apply list_elem_of_fmap_2.
      rewrite Ha in Hin. apply list_elem_of_In, in_concat in Hin as (l & Hl%list_elem_of_In & Hin).
      apply list_elem_of_fmap in Hl as (p & -> & _). destruct (parts !! p) as [part|] eqn:Hp; [|done]. cbn in Hin.
      apply list_elem_of_In, in_concat. exists (addr <$> part). split; [|done]. apply list_elem_of_In, list_elem_of_fmap_2.
      by eapply list_elem_of_lookup_2.
    + intros _ Ht Hle. destruct (Hall Ht Hle) as (ps' & [= <-] & Hperm). rewrite Ha, <-(parts_addresses _ _ _ _ _ _ _ _ Hix). fold parts.
      etrans; [rewrite Hperm; reflexivity|].
      assert (length parts = length cs) as <- by (unfold parts, row_partitions; by rewrite length_buckets).
      rewrite <-(all_parts (fmap (M:=list) (fmap (M:=list) addr) parts)), length_fmap.
      match goal with |- ?a ≡ₚ ?b => enough (a = b) as -> by done end.
      f_equal. apply list_fmap_ext. intros _ p _. by rewrite list_lookup_fmap.
  - exists []. rewrite app_nil_r. split_and!; [done|constructor| |done]. intros _ Ht Hle. destruct (Hall Ht Hle) as (? & [=] & _).
Qed.
End Scan.

(** ** The query *)

Section Query.
Context `{AnnEnv} (ln cos : f64 -> f64) (column : string) (blocks : N -> list RecordBatch) (q : vec).
Context (extents : list ExtentManifest) (Henv : env_ok column blocks extents).
Context (sidecars : gmap N IndexSidecarDescriptor).

(** Every index in use is one a build wrote over the extent's rows. *)
Definition indexes_ok (d : N -> nat) (cs : N -> list vec) : Prop :=
  forall m desc, m ∈ extents -> sidecars !! m_id m = Some desc ->
    exists data model, fetch_sidecar desc = Ret data /\
      index_of ln cos column (blocks (m_id m)) (d (m_id m)) (cs (m_id m)) model data.

(** A row an index leaves out has no distance to the query. *)
Definition no_short_rows : Prop :=
  forall m b raw, m ∈ extents -> b ∈ blocks (m_id m) -> Some raw ∈ batch_rows b column ->
    f64_le (norm64 raw) f64_1e_12 = true -> cosine_distance_vec q (l2_normalize raw) = None.

Definition indexed (m : ExtentManifest) : bool := bool_decide (is_Some (sidecars !! m_id m)).

Definition all_hits : list AnnHit := concat ((fun m => extent_hits q column (m_id m) (blocks (m_id m))) <$> extents).

Definition fallback_hits (m : ExtentManifest) : list AnnHit :=
  if indexed m then [] else extent_hits q column (m_id m) (blocks (m_id m)).
Definition indexed_hits (m : ExtentManifest) : list AnnHit :=
  if indexed m then extent_hits q column (m_id m) (blocks (m_id m)) else [].

Lemma row_at_index (bs : list RecordBatch) i j b : bs !! i = Some b ->
  row_at column bs {| block := N.of_nat i; row := N.of_nat j |} = default None (batch_rows b column !! j).
Proof. intros Hb. unfold row_at. cbn [block row]. by rewrite !Nat2N.id, Hb. Qed.

(** The index of an extent names the rows that are hits. *)
Lemma index_hits m : m ∈ extents -> no_short_rows ->
  omap (M:=list) (addr_hit q column (blocks (m_id m)) (m_id m)) (fst <$> index_rows column (blocks (m_id m))) =
  extent_hits q column (m_id m) (blocks (m_id m)).
Proof.
  intros Hm Hshort. unfold index_rows, extent_hits. set (bs := blocks (m_id m)).
  assert (forall k l, (forall i b, l !! i = Some b -> bs !! (k + i)%nat = Some b) ->
    omap (M:=list) (addr_hit q column bs (m_id m)) (fst <$> concat (imap (fun i => block_index column (k + i)) l)) =
    concat (imap (fun i b => block_hits q column (m_id m) (N.of_nat (k + i)) b) l)) as Hgen; [|by apply (Hgen 0%nat)].
  intros k l. revert k. induction l as [|b l IH]; intros k Hl; [done|]. rewrite !imap_cons. cbn [concat]. rewrite fmap_app, omap_app.
  f_equal.
  - rewrite Nat.add_0_r. assert (bs !! k = Some b) as Hb by (rewrite <-(Nat.add_0_r k); by apply Hl).
    unfold block_index, block_hits.
    assert (forall rows, (forall j o, (j, o) ∈ rows -> batch_rows b column !! j = Some o) ->
      omap (M:=list) (addr_hit q column bs (m_id m))
        (fst <$> omap (M:=list) (fun jr : nat * option vec => indexed_row k jr.1 jr.2) rows) =
      omap (M:=list) (fun iv : nat * option vec => row_hit q (m_id m) {| block := N.of_nat k; row := N.of_nat iv.1 |} iv.2) rows) as Hrows.
    { induction rows as [|[j o] rows IHr]; intros Hin; [done|]. rewrite !omap_cons. cbn [fst snd].
      assert (batch_rows b column !! j = Some o) as Hj by (apply Hin; by left).
      specialize (IHr (fun j o Ho => Hin j o (list_elem_of_further _ _ _ Ho))).
      destruct o as [w|]; cbn [indexed_row row_hit]; [|done]. destruct (f64_le (norm64 w) f64_1e_12) eqn:Hn.
      - rewrite (Hshort m b w Hm); [done| | |done]; eapply list_elem_of_lookup_2; eauto.
      - rewrite fmap_cons, omap_cons. cbn [fst]. unfold addr_hit at 1. rewrite (row_at_index bs k j b Hb), Hj.
        cbn [from_option]. unfold Datatypes.id. cbn [row_hit]. by destruct (cosine_distance_vec q (l2_normalize w)); cbn; rewrite IHr. }
    apply Hrows. intros j o Hin. apply list_elem_of_lookup_1 in Hin as [i Hi]. rewrite list_lookup_imap in Hi.
    destruct (batch_rows b column !! i) eqn:Hr; [|done]. by injection Hi as <- <-.
  - assert (forall A (f : nat -> RecordBatch -> A), imap ((fun i => f (k + i)%nat) ∘ S) l = imap (fun i => f (S k + i)%nat) l) as Hshift.
    { intros A f. apply imap_ext. intros i x _. cbn. by rewrite Nat.add_succ_r. }
    rewrite (Hshift _ (block_index column)), (Hshift _ (fun i b => block_hits q column (m_id m) (N.of_nat i) b)).
    apply IH. intros i x Hi. rewrite Nat.add_succ_comm. by apply Hl.
Qed.

Lemma batch_rows_length b d raw : batch_ok b -> column_dim column d b -> Some raw ∈ batch_rows b column -> length raw = d.
Proof using.
  clear. intros Hok (valid & floats & Hv & _) Hin. destruct (vector_column_plain _ _ _ _ _ Hok Hv) as [Hl _].
  unfold batch_rows in Hin. rewrite Hv in Hin. apply list_elem_of_lookup_1 in Hin as [i Hi]. rewrite list_lookup_imap in Hi.
  destruct (valid !! i) as [[]|] eqn:Hvi; try done. injection Hi as <-. apply length_raw_row with (valid := valid); [done|].
  by apply lookup_lt_Some in Hvi.
Qed.

Lemma length_l2_normalize v : length (l2_normalize v) = length v.
Proof using. clear. unfold l2_normalize, scaled. destruct (f64_le _ _); [done|]. by rewrite length_fmap. Qed.

Lemma wrong_length_no_hits m d : m ∈ extents -> Forall (column_dim column d) (blocks (m_id m)) -> length q <> d ->
  extent_hits q column (m_id m) (blocks (m_id m)) = [].
Proof.
  intros Hm Hd Hq. apply elem_of_nil_inv. intros h Hin. unfold extent_hits in Hin.
  apply list_elem_of_In, in_concat in Hin as (l & Hl%list_elem_of_In & Hin%list_elem_of_In).
  apply list_elem_of_lookup_1 in Hl as [i Hi]. rewrite list_lookup_imap in Hi. destruct (blocks (m_id m) !! i) as [b|] eqn:Hb; [|done].
  injection Hi as <-. unfold block_hits in Hin. apply list_elem_of_omap in Hin as ([j o] & Hj & Hh). cbn in Hh.
  apply list_elem_of_lookup_1 in Hj as [j' Hj]. rewrite list_lookup_imap in Hj. destruct (batch_rows b column !! j') as [o'|] eqn:Ho; [|done].
  injection Hj as <- <-. destruct o' as [raw|]; [|done]. cbn in Hh.
  pose proof (eo_batches _ _ _ Henv m Hm) as Hok.
  assert (length raw = d) as Hr.
  { eapply batch_rows_length; [by eapply Forall_lookup_1|by eapply Forall_lookup_1|by eapply list_elem_of_lookup_2]. }
  unfold cosine_distance_vec, cosine in Hh. rewrite length_l2_normalize, Hr in Hh. rewrite decide_True in Hh by by left. done.
Qed.

Definition cand_of (c : ApproxCand) : option AnnHit := cand_hit q column blocks extents (c_extent c) (c_addr c).

(** The candidate is a row of the index of an extent in use. *)
Definition cand_ok (c : ApproxCand) : Prop :=
  exists m, m ∈ extents /\ m_id m = c_extent c /\ c_addr c ∈ fst <$> index_rows column (blocks (m_id m)).

Lemma cands_hits m new : m ∈ extents -> Forall (fun c => c_extent c = m_id m) new ->
  omap (M:=list) cand_of new = omap (M:=list) (addr_hit q column (blocks (m_id m)) (m_id m)) (c_addr <$> new).
Proof using.
  clear Henv. intros Hm. induction 1 as [|c new Hc Hnew IH]; [done|]. rewrite fmap_cons, !omap_cons, IH.
  unfold cand_of, cand_hit. rewrite Hc, decide_True by by apply list_elem_of_fmap_2. done.
Qed.

(** How many rows the indexes in use hold. *)
Definition index_size (ms : list ExtentManifest) : nat :=
  sum_list_with (fun m => if indexed m then length (index_rows column (blocks (m_id m))) else 0%nat) ms.

Lemma scan_extent_eq params tree_sel m approx out : scan_extent ln cos column params q sidecars tree_sel m (approx, out) =
  match sidecars !! m_id m with
  | Some desc => approx ← scan_indexed ln cos params q tree_sel m desc approx; Ret (approx, out)
  | None => out ← scan_exact column q m out; Ret (approx, out)
  end.
Proof using. done. Qed.

Lemma scan_extents_ok params tree_sel d cs : indexes_ok d cs -> no_short_rows -> forall ms, ms ⊆ extents -> forall approx out,
  exists new, for_each (scan_extent ln cos column params q sidecars tree_sel) ms (approx, out) =
      Ret (approx ++ new, out ++ concat (fallback_hits <$> ms)) /\
    Forall cand_ok new /\
    (tree_sel = None -> (forall m, m ∈ ms -> indexed m = true -> length (cs (m_id m)) <= nprobe params)%nat ->
     omap (M:=list) cand_of new ≡ₚ concat (indexed_hits <$> ms) /\ (length new <= index_size ms)%nat).
Proof.
  intros Hix Hshort ms. induction ms as [|m ms IH]; intros Hms approx out; cbn [for_each].
  { exists []. rewrite !app_nil_r. split_and!; [done|constructor|by split]. }
  assert (m ∈ extents) as Hm by (apply Hms; by left). assert (ms ⊆ extents) as Hms' by (intros x Hx; apply Hms; by right).
  rewrite scan_extent_eq. cbn [fmap list_fmap concat].
  destruct (sidecars !! m_id m) as [desc|] eqn:Hdesc.
  - assert (indexed m = true) as Hi by (unfold indexed; rewrite Hdesc; by apply bool_decide_eq_true_2).
    assert (fallback_hits m = []) as -> by (unfold fallback_hits; by rewrite Hi).
    assert (indexed_hits m = extent_hits q column (m_id m) (blocks (m_id m))) as -> by (unfold indexed_hits; by rewrite Hi).
    destruct (Hix m desc Hm Hdesc) as (data & model & Hf & Hindex).
    destruct (scan_indexed_ok ln cos column blocks params q tree_sel m desc _ _ model data approx Hf Hindex)
      as (new1 & -> & Hnew1 & Hfull & Hwrong). cbn [mbind outcome_bind].
    destruct (IH Hms' (approx ++ new1) out) as (new2 & -> & Hnew2 & Hfull2). exists (new1 ++ new2). rewrite app_assoc.
    split_and!; [done| |].
    + apply Forall_app. split; [|done]. eapply Forall_impl; [exact Hnew1|]. intros c [Hc Ha]. by exists m.
    + intros Ht Hle. destruct (Hfull2 Ht) as [Hperm2 Hlen2]; [intros x Hx; apply Hle; by right|].
      rewrite omap_app, Hperm2, (cands_hits m) by (done || (eapply Forall_impl; [exact Hnew1|by intros ? []])).
      unfold index_size in *. cbn [sum_list_with]. rewrite Hi, length_app.
      destruct (decide (length q = d (m_id m))) as [Hq|Hq].
      * assert (c_addr <$> new1 ≡ₚ fst <$> index_rows column (blocks (m_id m))) as Hperm1.
        { apply Hfull; [done|done|]. apply Hle; [by left|done]. }
        split; [rewrite <-index_hits by done; by apply Permutation_app_tail, omap_perm|].
        apply Permutation_length in Hperm1. rewrite !length_fmap in Hperm1. lia.
      * rewrite Hwrong, (wrong_length_no_hits m (d (m_id m))); [|done| |done|done]; [|by destruct Hindex].
        split; [done|]. cbn [length]. lia.
  - assert (indexed m = false) as Hi by (unfold indexed; rewrite Hdesc; apply bool_decide_eq_false_2; by intros [? ?]).
    assert (fallback_hits m = extent_hits q column (m_id m) (blocks (m_id m))) as -> by (unfold fallback_hits; by rewrite Hi).
    assert (indexed_hits m = []) as -> by (unfold indexed_hits; by rewrite Hi).
    rewrite (scan_exact_ok q column blocks extents Henv) by done.
    cbn [mbind outcome_bind]. destruct (IH Hms' approx (out ++ extent_hits q column (m_id m) (blocks (m_id m)))) as (new & -> & Hnew & Hfull).
    exists new. rewrite <-app_assoc. split_and!; [done|done|]. intros Ht Hle. unfold index_size in *. cbn [sum_list_with]. rewrite Hi. apply Hfull; [done|].
    intros x Hx. apply Hle. by right.
Qed.

(** A candidate of an index reranks to a hit of its extent. *)
Lemma pool_hits pool h : Forall cand_ok pool -> h ∈ omap (M:=list) cand_of pool -> h ∈ all_hits.
Proof.
  intros Hp Hh. apply list_elem_of_omap in Hh as (c & Hc & Hh). rewrite Forall_forall in Hp.
  destruct (Hp c Hc) as (m & Hm & Hid & Ha). unfold cand_of, cand_hit in Hh. destruct (decide _); [|done].
  rewrite <-Hid in Hh. apply list_elem_of_fmap in Ha as ([a v] & Heq & Ha). rewrite Heq in Hh. cbn [fst] in Hh.
  apply index_rows_elem in Ha as (i & j & b & w & -> & Hb & Hw & _). unfold addr_hit in Hh.
  rewrite (row_at_index _ i j b Hb), Hw in Hh. cbn [from_option] in Hh. unfold Datatypes.id in Hh.
  apply list_elem_of_In, in_concat. exists (extent_hits q column (m_id m) (blocks (m_id m))).
  split; apply list_elem_of_In; [by apply (list_elem_of_fmap_2 (fun m => extent_hits q column (m_id m) (blocks (m_id m))))|].
  unfold extent_hits. apply list_elem_of_In, in_concat. exists (block_hits q column (m_id m) (N.of_nat i) b).
  split; apply list_elem_of_In.
  - apply list_elem_of_lookup_2 with (i := i). by rewrite list_lookup_imap, Hb.
  - unfold block_hits. apply list_elem_of_omap. exists (j, Some w). split; [|done].
    apply list_elem_of_lookup_2 with (i := j). by rewrite list_lookup_imap, Hw.
Qed.

Lemma all_hits_split : all_hits ≡ₚ concat (indexed_hits <$> extents) ++ concat (fallback_hits <$> extents).
Proof using.
  clear Henv. unfold all_hits. induction extents as [|m ms IH]; [done|]. cbn [fmap list_fmap concat]. rewrite IH.
  unfold indexed_hits, fallback_hits. destruct (indexed m); cbn [app]; [by rewrite <-app_assoc|].
  rewrite !app_assoc. apply Permutation_app_tail. rewrite Permutation_app_comm. done.
Qed.
End Query.

Section TopK.
Context `{AnnEnv} (ln cos : f64 -> f64) (sha256 : bytes -> bytes) (table_id : N) (column : string).

Definition cache_ok (cache : TreeCache) : Prop := map_Forall (fun _ t => tree_ok t) cache.

Lemma load_tree_ok cache key path : cache_ok cache ->
  cache_ok (load_tree cache key path).2 /\ forall t, (load_tree cache key path).1 = Some t -> tree_ok t.
Proof.
  intros Hc. unfold load_tree. destruct (cache !! key) as [t|] eqn:Ht.
  { split; [done|]. intros t' [= <-]. by apply (Hc key). }
  destruct (get_object path) as [data| | |]; try done. destruct (read_tree data) as [tree| | |] eqn:Hr; try done.
  apply read_tree_ok in Hr. cbn. split; [|by intros t [= <-]].
  apply map_Forall_insert_2; [done|]. intros k t Hk. apply map_lookup_filter_Some in Hk as [Hk _]. by apply (Hc k).
Qed.

Lemma select_total model ids q top_p cache : cache_ok cache ->
  exists sel cache', select sha256 table_id column model ids q top_p cache = Ret (sel, cache') /\ cache_ok cache' /\
    ((forall model, get_ann_tree column model = Ret None) -> sel = None).
Proof.
  intros Hc. unfold select. destruct (get_ann_tree column model) as [[desc|]| | |] eqn:Hg; try (exists None, cache; done).
  assert ((forall model, get_ann_tree column model = Ret None) -> False) as Hno by (intros Hn; by rewrite Hn in Hg).
  destruct (decide _); [by exists None, cache|].
  destruct (load_tree_ok cache (table_id, column, model, generation desc) (t_object_path desc) Hc) as [Hc' Ht].
  destruct (load_tree _ _ _) as [tree cache']. cbn in Hc', Ht. destruct tree as [t|]; [|by exists None, cache'].
  destruct (decide _) as [|Hd]; [by exists None, cache'|].
  destruct (select_ok t q top_p) as (out & _ & -> & _); [by apply Ht|by destruct (decide (Tree.dim t = length q))|].
  cbn [mbind outcome_bind]. destruct (decide _); [by exists None, cache'|]. eexists _, cache'. split_and!; [done|done|]. by intros ?%Hno.
Qed.

Context (blocks : N -> list RecordBatch) (extents : list ExtentManifest) (Henv : env_ok column blocks extents).

(** The indexes a query uses. *)
Definition indexes_used (params : AnnParams) (prefilter : option PrunePredicate) (ds : list IndexSidecarDescriptor) :
    gmap N IndexSidecarDescriptor :=
  if plan_force_exact (bool_decide (is_Some prefilter)) (foldr (fun m n => m_row_count m + n) 0 extents) (exact_scan_max_rows params)
  then ∅ else sidecars_by_extent column ds.

Lemma index_block_exists id a : a ∈ fst <$> index_rows column (blocks id) ->
  exists b, blocks id !! N.to_nat (block a) = Some b.
Proof.
  intros Ha. apply list_elem_of_fmap in Ha as ([a' v] & -> & Hin). apply index_rows_elem in Hin as (i & j & b & w & -> & Hb & _).
  exists b. cbn. by rewrite Nat2N.id.
Qed.

Lemma ann_topk_ok first_value qvec params prefilter cache ds d cs :
  let q := l2_normalize qvec in
  let sidecars := indexes_used params prefilter ds in
  list_extents (sanitize_prune prefilter) = Ret extents -> list_index_sidecars (m_id <$> extents) = Ret ds ->
  cache_ok cache -> indexes_ok ln cos column blocks extents sidecars d cs -> no_short_rows column blocks q extents ->
  exists reranked pool cache',
    ann_topk ln cos sha256 table_id column first_value qvec params prefilter cache =
      Ret (take (k params) (sort_hits (reranked ++ concat (fallback_hits column blocks q sidecars <$> extents))), cache') /\
    Forall (cand_ok column blocks extents) pool /\ reranked ≡ₚ omap (M:=list) (cand_of column blocks q extents) pool /\
    ((forall model, get_ann_tree column model = Ret None) ->
     (forall m, m ∈ extents -> indexed sidecars m = true -> length (cs (m_id m)) <= nprobe params)%nat ->
     (index_size column blocks sidecars extents <= pool_size params)%nat ->
     reranked ≡ₚ concat (indexed_hits column blocks q sidecars <$> extents)).
Proof.
  intros q sidecars Hext Hds Hcache Hix Hshort. unfold ann_topk. fold q. rewrite Hext. cbn [mbind outcome_bind].
  destruct (decide (extents = [])) as [Hnil|_].
  { exists [], [], cache. rewrite Hnil. cbn. by rewrite take_nil. }
  assert ((if plan_force_exact (bool_decide (is_Some prefilter)) (foldr (fun m n => m_row_count m + n) 0 extents) (exact_scan_max_rows params)
           then Ret ∅ else sidecars_by_extent column <$> list_index_sidecars (m_id <$> extents)) = Ret (E:=AnnError) sidecars) as ->.
  { unfold sidecars, indexes_used. destruct (plan_force_exact _ _ _); [done|]. by rewrite Hds. }
  cbn [mbind outcome_bind].
  assert (exists sel cache', (if decide (sidecars = ∅) then Ret (None, cache)
      else lift (select sha256 table_id column (first_value sidecars ≫= d_embedding_model_id) (map_to_list sidecars).*1 q (tree_top_p params) cache)) =
    Ret (E:=AnnError) (sel, cache') /\ ((forall model, get_ann_tree column model = Ret None) -> sel = None)) as (sel & cache' & -> & Hsel).
  { destruct (decide _); [by exists None, cache|].
    destruct (select_total (first_value sidecars ≫= d_embedding_model_id) (map_to_list sidecars).*1 q (tree_top_p params) cache Hcache)
      as (sel & cache' & -> & _ & Hno). by exists sel, cache'. }
  cbn [mbind outcome_bind].
  destruct (scan_extents_ok ln cos column blocks q extents Henv sidecars params sel d cs Hix Hshort extents ltac:(done) [] [])
    as (new & -> & Hnew & Hfull). cbn [mbind outcome_bind app].
  set (pool := truncate_pool new (pool_size params)).
  assert (Forall (cand_ok column blocks extents) pool) as Hpool.
  { unfold pool, truncate_pool. apply Forall_take. by rewrite sort_by_Permutation. }
  destruct (exact_rerank_ok q column blocks extents Henv pool) as (out & -> & Hout).
  { intros c Hc _. rewrite Forall_forall in Hpool. destruct (Hpool c Hc) as (m & _ & <- & Ha). by apply index_block_exists. }
  cbn [mbind outcome_bind]. exists out, pool, cache'. split_and!; [done|done|done|].
  intros Hno Hprobe Hsize. destruct (Hfull (Hsel Hno) Hprobe) as [Hperm Hlen]. rewrite Hout, <-Hperm. apply omap_perm.
  unfold pool, truncate_pool. rewrite take_ge by (rewrite length_sort_by; lia). apply sort_by_Permutation.
Qed.
End TopK.

(** ** Every row is one hit at most *)

Lemma block_hits_elem q column id bid b h : h ∈ block_hits q column id bid b ->
  exists j o, batch_rows b column !! j = Some o /\ row_hit q id {| block := bid; row := N.of_nat j |} o = Some h.
Proof.
  intros Hin. unfold block_hits in Hin. apply list_elem_of_omap in Hin as ([j o] & Hj & Hh).
  apply list_elem_of_lookup_1 in Hj as [j' Hj]. rewrite list_lookup_imap in Hj. destruct (batch_rows b column !! j') eqn:Ho; [|done].
  injection Hj as <- <-. by exists j', o0.
Qed.

Lemma row_hit_place q id a o h : row_hit q id a o = Some h -> hit_place h = (id, a).
Proof. destruct o as [v|]; [|done]. cbn. destruct (cosine_distance_vec _ _); [|done]. by intros [= <-]. Qed.

Lemma block_hits_places q column id bid b : NoDup (hit_place <$> block_hits q column id bid b).
Proof.
  unfold block_hits.
  assert (forall k l, NoDup (hit_place <$> omap (M:=list) (fun iv : nat * option vec => row_hit q id {| block := bid; row := N.of_nat iv.1 |} iv.2)
      (imap (fun i o => ((k + i)%nat, o)) l)) /\
    forall p, p ∈ hit_place <$> omap (M:=list) (fun iv : nat * option vec => row_hit q id {| block := bid; row := N.of_nat iv.1 |} iv.2)
      (imap (fun i o => ((k + i)%nat, o)) l) -> exists i, (k <= i)%nat /\ p = (id, {| block := bid; row := N.of_nat i |})) as Hgen;
    [|apply (Hgen 0%nat)].
  intros k l. revert k. induction l as [|o l IH]; intros k; [split; [constructor|by intros p ?%elem_of_nil]|].
  rewrite imap_cons, omap_cons, Nat.add_0_r. cbn [fst snd].
  assert (imap ((fun i o => ((k + i)%nat, o)) ∘ S) l = imap (fun i o => ((S k + i)%nat, o)) l) as ->.
  { apply imap_ext. intros i x _. cbn. f_equal. lia. }
  destruct (IH (S k)) as [Hnd Hin]. destruct (row_hit _ _ _ _) as [h|] eqn:Hh.
  - apply row_hit_place in Hh. rewrite fmap_cons, Hh. split.
    + constructor; [|done]. intros (i & Hi & Heq)%Hin. injection Heq as Heq. lia.
    + intros p [->|Hp]%elem_of_cons; [by exists k|]. destruct (Hin p Hp) as (i & ? & ->). exists i. split; [lia|done].
  - split; [done|]. intros p (i & ? & ->)%Hin. exists i. split; [lia|done].
Qed.

Lemma block_hits_in q column id bid b p : p ∈ hit_place <$> block_hits q column id bid b -> p.1 = id /\ block p.2 = bid.
Proof.
  intros (h & -> & Hh)%list_elem_of_fmap. apply block_hits_elem in Hh as (j & o & _ & Hrow).
  by rewrite (row_hit_place _ _ _ _ _ Hrow).
Qed.

Lemma extent_hits_places q column id blocks : NoDup (hit_place <$> extent_hits q column id blocks) /\
  forall p, p ∈ hit_place <$> extent_hits q column id blocks -> p.1 = id.
Proof.
  assert (forall k l, NoDup (hit_place <$> concat (imap (fun i b => block_hits q column id (N.of_nat (k + i)) b) l)) /\
    forall p, p ∈ hit_place <$> concat (imap (fun i b => block_hits q column id (N.of_nat (k + i)) b) l) ->
      p.1 = id /\ exists i, (k <= i)%nat /\ block p.2 = N.of_nat i) as Hgen.
  2:{ destruct (Hgen 0%nat blocks) as [Hnd Hin]. split; [done|]. intros p Hp. by apply Hin. }
  intros k l. revert k. induction l as [|b l IH]; intros k; [split; [constructor|by intros p ?%elem_of_nil]|].
  rewrite imap_cons, Nat.add_0_r. cbn [concat]. rewrite fmap_app.
  assert (imap ((fun i b => block_hits q column id (N.of_nat (k + i)) b) ∘ S) l = imap (fun i b => block_hits q column id (N.of_nat (S k + i)) b) l) as ->.
  { apply imap_ext. intros i x _. cbn. by rewrite Nat.add_succ_r. }
  destruct (IH (S k)) as [Hnd Hin]. split.
  - apply NoDup_app. split_and!; [apply block_hits_places| |done].
    intros p [_ Hp]%block_hits_in (_ & i & Hi & Hb)%Hin. rewrite Hp in Hb. lia.
  - intros p [[Hid Hb]%block_hits_in|(Hid & i & Hi & Hb)%Hin]%elem_of_app; (split; [done|]); eexists; (split; [|exact Hb]); lia.
Qed.

Lemma all_hits_places column blocks q extents : NoDup (m_id <$> extents) ->
  NoDup (hit_place <$> all_hits column blocks q extents).
Proof.
  intros Hnd. enough (NoDup (hit_place <$> all_hits column blocks q extents) /\
    forall p, p ∈ hit_place <$> all_hits column blocks q extents -> p.1 ∈ m_id <$> extents) by tauto.
  unfold all_hits. induction extents as [|m ms IH]; [split; [constructor|by intros p ?%elem_of_nil]|].
  cbn [fmap list_fmap concat] in *. apply NoDup_cons in Hnd as [Hm Hnd]. rewrite !fmap_app.
  destruct (IH Hnd) as [Hnd' Hin]. destruct (extent_hits_places q column (m_id m) (blocks (m_id m))) as [Hnd1 Hin1]. split.
  - apply NoDup_app. split_and!; [done| |done]. intros p Hp Hp'. apply Hm. rewrite <-(Hin1 p Hp). by apply Hin.
  - intros p [Hp|Hp]%elem_of_app; apply elem_of_cons; [left; by apply Hin1|right; by apply Hin].
Qed.

(** ** What the builder writes is an index *)

Lemma index_rows_input column dim bs : Forall batch_ok bs -> Forall (column_dim column dim) bs ->
  N.of_nat (length bs) < 2 ^ 32 -> dim <> 0%nat -> N.of_nat dim < 2 ^ 32 ->
  index_rows column bs <> [] -> N.of_nat (length (index_rows column bs)) < 2 ^ 32 -> build_input dim (index_rows column bs).
Proof.
  intros Hok Hcol Hn Hd Hd32 Hne Hcount. split; try done.
  - apply Forall_forall. intros [a v] Hin. apply index_rows_elem in Hin as (i & j & b & w & -> & Hb & Hw & ->). cbn [snd].
    apply list_elem_of_lookup_2 in Hw. split.
    + unfold scaled. rewrite length_fmap. eapply batch_rows_length; [by eapply Forall_lookup_1|by eapply Forall_lookup_1|done].
    + unfold scaled. apply Forall_fmap, Forall_forall. intros x _. apply to_bits_lt.
  - apply Forall_forall. intros [a v] Hin. apply index_rows_elem in Hin as (i & j & b & w & -> & Hb & Hw & _). cbn.
    destruct (Forall_lookup_1 _ _ _ _ Hcol Hb) as (valid & floats & Hv & Hl).
    assert (length (batch_rows b column) = length valid) as Hlen by (unfold batch_rows; by rewrite Hv, length_imap).
    apply lookup_lt_Some in Hb, Hw. split; cbn; lia.
Qed.

Lemma builder_index_of ln cos column dim bs : Forall batch_ok bs -> Forall (column_dim column dim) bs ->
  N.of_nat (length bs) < 2 ^ 32 -> dim <> 0%nat -> N.of_nat dim < 2 ^ 32 ->
  index_rows column bs <> [] -> N.of_nat (length (index_rows column bs)) < 2 ^ 32 ->
  exists data params cs, builder_build ln cos column (Ret <$> bs) = Ret (data, params) /\
    p_nlist params = length cs /\ length cs = choose_nlist (length (index_rows column bs)) /\
    (blen data < 2 ^ 63 -> index_of ln cos column bs dim cs None data).
Proof.
  intros Hok Hcol Hn Hd Hd32 Hne Hcount.
  pose proof (index_rows_input column dim bs Hok Hcol Hn Hd Hd32 Hne Hcount) as Hin.
  assert (bs <> []) as Hbs by (intros ->; by apply Hne).
  destruct (build_blob ln cos dim (index_rows column bs) None Hin) as (cs & _ & Hcl & Hcs & Hb).
  unfold builder_build. rewrite (builder_rows column dim bs) by done. cbn [mbind outcome_bind x_dim x_rows].
  rewrite (decide_False (P := bs = [])) by done. cbn [or_fail mbind outcome_bind]. rewrite decide_False by done.
  rewrite Hb. cbn [in_build]. eexists _, _, cs. split_and!; [done|done|done|].
  assert (length (index_rows column bs) <> 0%nat) as Hr0 by (intros Hz; apply Hne; by apply nil_length_inv).
  pose proof (choose_nlist_bounds _ Hr0) as Hbounds.
  intros Hsize. split; try done.
  - intros ->. cbn in Hcl. lia.
  - rewrite Hcl. lia.
Qed.

(** ** The routing tree between the job that builds it and the queries that use it

    What the effects of a rebuild do to an environment, the fingerprint of a
    set of extents, the sidecars a rebuild reads, and the selection a query
    takes from the tree it wrote. *)

Import Tree (GlobalTree).

#[local] Arguments uuid_bytes _ : simpl never.

(** ** Effects *)

(** An environment after an effect: a put object reads back, the registered
    tree is found under its column and model, deleted ones are gone. *)
Definition apply_effect (e : Effect) (env : AnnEnv) : AnnEnv := {|
  Reader := Reader; list_extents := list_extents; list_index_sidecars := list_index_sidecars; fetch_sidecar := fetch_sidecar;
  open_extent := open_extent; all_blocks := all_blocks; read_block := read_block;
  get_ann_tree c m :=
    match e with
    | UpsertTree t => if decide (c = t_column t /\ m = t_model t) then Ret (Some t) else get_ann_tree c m
    | DeleteTrees c' => if decide (c = c') then Ret None else get_ann_tree c m
    | PutTree _ _ => get_ann_tree c m
    end;
  get_object p :=
    match e with PutTree path blob => if decide (p = path) then Ret blob else get_object p | _ => get_object p end
|}.

Definition apply_effects (es : list Effect) (env : AnnEnv) : AnnEnv := foldl (fun env e => apply_effect e env) env es.

(** After a put and a registration, the tree is found and its object reads back. *)
Lemma registered (env : AnnEnv) path blob t :
  let env' := apply_effects [PutTree path blob; UpsertTree t] env in
  @get_ann_tree env' (t_column t) (t_model t) = Ret (Some t) /\ @get_object env' path = Ret blob /\
  @list_extents env' = @list_extents env /\ @list_index_sidecars env' = @list_index_sidecars env.
Proof. split_and!; cbn; [by rewrite decide_True|by rewrite decide_True|done..]. Qed.

(** ** Fingerprints *)

Lemma bytes_compare_key a b : length a = length b ->
  bytes_compare a b = lex_compare ((fun x => Z.of_N (N_of_ascii x)) <$> a) ((fun x => Z.of_N (N_of_ascii x)) <$> b).
Proof.
  revert b. induction a as [|x a IH]; intros [|y b] Hl; try done. cbn [bytes_compare fmap list_fmap lex_compare].
  rewrite N2Z.inj_compare. destruct (N.compare _ _); [apply IH; cbn in Hl; lia|done..].
Qed.

Lemma length_uuid_bytes n : length (uuid_bytes n) = 16%nat.
Proof. unfold uuid_bytes. by rewrite length_rev, length_le_bytes. Qed.

Lemma uuid_value_bytes n : n < 2 ^ 128 -> uuid_value (uuid_bytes n) = n.
Proof. intros Hn. unfold uuid_value, uuid_bytes. rewrite rev_involutive. by apply le_value_small. Qed.

Section Fingerprint.
Let P (b : bytes) : Prop := length b = 16%nat.
Let key (b : bytes) : list Z := (fun x => Z.of_N (N_of_ascii x)) <$> b.

Lemma length_key a : P a -> length (key a) = 16%nat.
Proof. intros Ha. unfold key. by rewrite length_fmap. Qed.

Lemma compare_key a b : P a -> P b -> bytes_compare a b = lex_compare (key a) (key b).
Proof. intros Ha Hb. apply bytes_compare_key. by rewrite Ha, Hb. Qed.

Lemma uuids_sorted (l : list bytes) : Forall P l -> StronglySorted (not_greater bytes_compare) (sort_by bytes_compare l).
Proof.
  apply sort_by_sorted; [eapply keyed_trans|eapply keyed_total]; eauto using length_key, compare_key.
Qed.

(** The fingerprint does not depend on the order of the extents. *)
Lemma extent_fingerprint_perm sha256 (l l' : list bytes) : Forall P l -> l ≡ₚ l' ->
  extent_fingerprint sha256 l = extent_fingerprint sha256 l'.
Proof.
  intros Hl Hp. unfold extent_fingerprint. do 2 f_equal.
  apply (sorted_unique bytes_compare P).
  - eapply keyed_total; eauto using length_key, compare_key.
  - by rewrite sort_by_Permutation.
  - intros a b Ha Hb Hab Hba. rewrite sort_by_Permutation in Ha, Hb. rewrite Forall_forall in Hl.
    assert (key a = key b) as Hkey by (eapply (keyed_eq bytes_compare P key 16); eauto using length_key, compare_key).
    unfold key in Hkey. apply (list_fmap_eq_inj (fun x => Z.of_N (N_of_ascii x))) in Hkey; [done|].
    intros x y Hxy%N2Z.inj. rewrite <-(ascii_N_embedding x), <-(ascii_N_embedding y). by rewrite Hxy.
  - by apply uuids_sorted.
  - apply uuids_sorted. by rewrite <-Hp.
  - by rewrite !sort_by_Permutation.
Qed.
End Fingerprint.

(** ** A selection by extent *)

Lemma selection_of_spec refs e p : p ∈ default [] (selection_of refs !! e) <->
  exists r, r ∈ refs /\ uuid_value (extent r) = e /\ N.to_nat (partition r) = p.
Proof.
  induction refs as [|r refs IH] using rev_ind; [unfold selection_of; cbn; rewrite lookup_empty; set_solver|].
  unfold selection_of in *. rewrite foldl_snoc. destruct (decide (uuid_value (extent r) = e)) as [<-|Hne].
  - rewrite lookup_insert_eq. cbn [default]. unfold id. rewrite elem_of_app, IH, list_elem_of_singleton. split.
    + intros [(x & Hx & He & Hp)|Hp]; [exists x|exists r]; rewrite elem_of_app, list_elem_of_singleton; auto.
    + intros (x & [Hx| ->%list_elem_of_singleton]%elem_of_app & He & Hp); [left; eauto|by right].
  - rewrite lookup_insert_ne by done. rewrite IH. split; intros (x & Hx & He & Hp); exists x; (split; [|done]).
    + apply elem_of_app. by left.
    + apply elem_of_app in Hx as [| ->%list_elem_of_singleton]; done.
Qed.

(** ** What a rebuild reads *)

Section Rebuild.
Context `{AnnEnv} (sha256 : bytes -> bytes) (column : string) (model : option string).

(** A sidecar of dimension [dim] whose centroids are [cs]. *)
Definition has_centroids (D : nat) (d : IndexSidecarDescriptor) (cs : list vec) : Prop :=
  exists data h, get_object (d_object_path d) = Ret data /\ blen data < 2 ^ 63 /\ read_header data = Ret h /\
    dim h = N.of_nat D /\ read_centroids data h = Ret cs.

Lemma has_centroids_ok D d cs : has_centroids D d cs ->
  Forall (vec_ok D) cs /\ N.of_nat (length cs) < 2 ^ 32 /\ N.of_nat D < 2 ^ 32.
Proof.
  intros (data & h & _ & Hlen & Hh & Hd & Hcs). apply read_header_Ret in Hh as (Hd32 & Hk & _); [|done].
  unfold read_centroids in Hcs. destruct (read_vecs _ _ _ _) as [[cs' off]| | |] eqn:Hr; try done. injection Hcs as ->.
  apply read_vecs_Ret in Hr as (Hl & Hf & _); [|done]. rewrite Hd, Nat2N.id in Hf. split_and!; [done|lia|lia].
Qed.

Context (D : nat) (cs : IndexSidecarDescriptor -> list vec).

Lemma read_sidecar_ok d acc known : has_centroids D d (cs d) -> known = None \/ known = Some (N.of_nat D) ->
  read_sidecar d (acc, known) = Ret (acc ++ [(uuid_bytes (d_extent_id d), cs d)], Some (N.of_nat D)).
Proof.
  intros (data & h & Hg & _ & Hh & Hd & Hcs) Hk. unfold read_sidecar. rewrite Hg. cbn [as_job mbind outcome_bind].
  rewrite Hh. cbn [as_job mbind outcome_bind]. rewrite Hcs. cbn [as_job mbind outcome_bind].
  destruct Hk as [-> | ->]; rewrite Hd; [done|]. by rewrite decide_False by (intros Hn; by apply Hn).
Qed.

Lemma read_sidecars covered acc known : (forall d, d ∈ covered -> has_centroids D d (cs d)) ->
  known = None \/ known = Some (N.of_nat D) -> covered <> [] ->
  for_each read_sidecar covered (acc, known) =
    Ret (acc ++ ((fun d => (uuid_bytes (d_extent_id d), cs d)) <$> covered), Some (N.of_nat D)).
Proof.
  revert acc known. induction covered as [|d covered IH]; intros acc known Hc Hk Hne; [done|]. cbn [for_each fmap list_fmap].
  rewrite read_sidecar_ok by (apply Hc || done; by left). cbn [mbind outcome_bind].
  destruct covered as [|d' covered]; [done|]. rewrite IH by (auto; intros; apply Hc; by right). by rewrite <-app_assoc.
Qed.

(** The partitions of the covered extents, as the points of the tree. *)
Definition centroids_of (covered : list IndexSidecarDescriptor) : list (Uuid * list vec) :=
  (fun d => (uuid_bytes (d_extent_id d), cs d)) <$> covered.

Lemma routed_all ec : Forall (vec_ok D) ec.2 ->
  routed D ec = imap (fun i c => (c, {| extent := ec.1; partition := N.of_nat i mod 2 ^ 32 |})) ec.2.
Proof.
  intros Hok. unfold routed.
  assert (forall l : list (nat * vec), Forall (fun ic => vec_ok D ic.2) l ->
    omap (fun ic => if decide (length ic.2 <> D) then None else Some (ic.2, {| extent := ec.1; partition := N.of_nat ic.1 mod 2 ^ 32 |})) l =
    (fun ic : nat * vec => (ic.2, {| extent := ec.1; partition := N.of_nat ic.1 mod 2 ^ 32 |})) <$> l) as Hgen.
  { induction 1 as [|[i c] l [Hc _] _ IH]; [done|]. cbn in *. rewrite decide_False by (intros Hn; by apply Hn). by rewrite IH. }
  rewrite Hgen; [by rewrite fmap_imap|]. apply Forall_lookup. intros i [j c] Hi. rewrite list_lookup_imap in Hi.
  destruct (ec.2 !! i) as [c'|] eqn:Hc; [|done]. injection Hi as _ <-. by eapply Forall_lookup_1 in Hok.
Qed.

Definition points (covered : list IndexSidecarDescriptor) : list (vec * PartitionRef) :=
  concat (routed D <$> centroids_of covered).

Context (covered : list IndexSidecarDescriptor) (Hc : forall d, d ∈ covered -> has_centroids D d (cs d)).

Lemma centroids_of_ok ec : ec ∈ centroids_of covered -> Forall (vec_ok D) ec.2 /\ N.of_nat (length ec.2) < 2 ^ 32.
Proof.
  intros (d & -> & Hd)%list_elem_of_fmap. cbn. destruct (has_centroids_ok D d (cs d) (Hc d Hd)) as (? & ? & _). done.
Qed.

Lemma length_points : length (points covered) = sum_list_with (fun ec : Uuid * list vec => length ec.2) (centroids_of covered).
Proof.
  unfold points. pose proof centroids_of_ok as Hok. revert Hok. generalize (centroids_of covered) as ecs. intros ecs Hok.
  induction ecs as [|ec ecs IH]; [done|]. cbn [fmap list_fmap concat sum_list_with]. rewrite length_app, IH by (intros; apply Hok; by right).
  f_equal. rewrite routed_all by (by apply Hok; left). by rewrite length_imap.
Qed.

(** Every partition of a covered extent is a point, and points are nothing else. *)
Lemma points_refs r : r ∈ snd <$> points covered <->
  exists d p, d ∈ covered /\ (p < length (cs d))%nat /\ r = {| extent := uuid_bytes (d_extent_id d); partition := N.of_nat p |}.
Proof.
  unfold points. rewrite list_elem_of_fmap. setoid_rewrite list_elem_of_In. setoid_rewrite in_concat.
  setoid_rewrite <-list_elem_of_In. split.
  - intros ([v r'] & -> & l & Hl & Hin). apply list_elem_of_fmap in Hl as (ec & -> & Hec).
    pose proof (centroids_of_ok ec Hec) as [Hok H32]. rewrite routed_all in Hin by done.
    apply list_elem_of_fmap in Hec as (d & -> & Hd). cbn [fst snd] in *.
    apply list_elem_of_lookup in Hin as [p Hp]. rewrite list_lookup_imap in Hp. destruct (cs d !! p) as [c|] eqn:Hcp; [|done].
    injection Hp as <- <-. apply lookup_lt_Some in Hcp. exists d, p. split_and!; [done|done|]. by rewrite N.mod_small by lia.
  - intros (d & p & Hd & Hp & ->). destruct (lookup_lt_is_Some_2 (cs d) p Hp) as [c Hcp].
    assert ((uuid_bytes (d_extent_id d), cs d) ∈ centroids_of covered) as Hec by (apply list_elem_of_fmap; by exists d).
    destruct (centroids_of_ok _ Hec) as [Hok H32]. cbn [snd] in *.
    exists (c, {| extent := uuid_bytes (d_extent_id d); partition := N.of_nat p |}). split; [done|].
    eexists. split; [by apply list_elem_of_fmap_2|]. rewrite routed_all by done. cbn [fst snd].
    apply list_elem_of_lookup. exists p. rewrite list_lookup_imap, Hcp. cbn [fmap option_fmap option_map]. by rewrite N.mod_small by lia.
Qed.

(** ** The tree that is written *)

Lemma blen_concat {A} (f : A -> bytes) w l : Forall (fun x => blen (f x) = w) l ->
  blen (concat (f <$> l)) = w * N.of_nat (length l).
Proof.
  induction 1 as [|x l Hx _ IH]; [by rewrite N.mul_0_r|]. cbn [fmap list_fmap concat length]. rewrite blen_app, IH, Hx. lia.
Qed.

Lemma blen_postings ps : Forall posting_ok ps ->
  blen (concat (posting_bytes <$> ps)) = 4 * N.of_nat (length ps) + 20 * N.of_nat (length (concat ps)).
Proof.
  induction 1 as [|p ps [_ Hp] _ IH]; [done|]. cbn [fmap list_fmap concat length]. rewrite blen_app, IH, length_app.
  unfold posting_bytes. rewrite blen_app, blen_le_bytes, (blen_concat _ 20); [lia|].
  eapply Forall_impl; [exact Hp|]. intros r [Hr _]. unfold ref_bytes. rewrite blen_app, blen_le_bytes, Hr. done.
Qed.

(** The tree fits when its points do. *)
Definition tree_fits : Prop :=
  covered <> [] /\ points covered <> [] /\ model_ok model /\
  N.of_nat (length (points covered)) < 2 ^ 32 /\ N.of_nat (length (points covered)) * (4 * N.of_nat D + 24) < 2 ^ 63.

Lemma tree_built n : tree_fits -> exists t, build_tree D METRIC_COSINE model (centroids_of covered) n = Ret (Some t) /\
  tree_writable t /\ Tree.dim t = D /\ (length (Tree.centroids t) <= length (points covered))%nat /\
  concat (Tree.postings t) ≡ₚ snd <$> points covered.
Proof.
  intros (Hcov & Hne & Hmodel & Hlen & Hsize). destruct (build_tree_ok D METRIC_COSINE model (centroids_of covered) n) as
    (t & Ht & Hd & Hm & Hid & Hk0 & Hcs & Hk & Hps); [| |].
  { apply Forall_forall. intros ec Hec. destruct (centroids_of_ok ec Hec) as [Hok _].
    eapply Forall_impl; [exact Hok|]. by intros c []. }
  { exact Hne. }
  fold (points covered) in *. exists t.
  assert (concat (Tree.postings t) ≡ₚ snd <$> points covered) as Hperm.
  { rewrite Hps. apply buckets_Permutation. apply Forall_forall. intros vr _. by apply nearest_lt. }
  assert (Forall ref_ok (snd <$> points covered)) as Hrefs.
  { apply Forall_forall. intros r (d & p & Hdc & Hp & ->)%points_refs.
    destruct (has_centroids_ok D d (cs d) (Hc d Hdc)) as (_ & ? & _). split; cbn; [|lia]. unfold blen. by rewrite length_uuid_bytes. }
  assert (Forall posting_ok (Tree.postings t)) as Hpok.
  { apply Forall_lookup. intros i p Hp. split.
    - assert (length p <= length (concat (Tree.postings t)))%nat; [|rewrite Hperm, length_fmap in *; lia].
      rewrite <-(take_drop_middle _ _ _ Hp), concat_app. cbn [concat]. rewrite !length_app. lia.
    - rewrite <-Hperm in Hrefs. rewrite Forall_concat in Hrefs. by eapply Forall_lookup_1 in Hrefs. }
  assert (length (Tree.postings t) = length (Tree.centroids t)) as Hpl by (by rewrite Hps, length_buckets).
  destruct (covered) as [|d0 rest] eqn:Hcovered; [done|]. rewrite <-Hcovered in *.
  destruct (has_centroids_ok D d0 (cs d0)) as (_ & _ & HD); [apply Hc; rewrite Hcovered; by left|].
  split_and!; [done| |done|done|done]. split; rewrite ?Hd, ?Hm, ?Hid; [done|done|done|lia|done|done|done|].
  unfold write_tree. rewrite !blen_app, blen_header, blen_postings by done. rewrite Hid, Hpl, Hperm, length_fmap.
  assert (blen (centroid_bytes (Tree.centroids t)) = 4 * N.of_nat D * N.of_nat (length (Tree.centroids t))) as ->.
  { apply blen_concat. eapply Forall_impl; [exact Hcs|]. intros c [Hl _]. by rewrite blen_vec, Hl. }
  change (blen Tree.MAGIC) with 4. destruct Hmodel as [Hml _]. nia.
Qed.

(** A selection of as many centroids as the tree has covers every partition. *)
Lemma select_all t q top_p : tree_writable t -> Tree.dim t = D -> concat (Tree.postings t) ≡ₚ snd <$> points covered ->
  length q = D -> (length (Tree.centroids t) <= top_p)%nat ->
  exists out, select_partitions t q top_p = Ret out /\ forall r, r ∈ out <-> r ∈ snd <$> points covered.
Proof.
  intros Ht Hd Hperm Hq Htop. destruct (select_ok t q top_p) as (out & chosen & Hout & _ & Hsub & Hl & Hin).
  { by apply Ht. }
  { by rewrite Hq. }
  exists out. split; [done|]. intros r. rewrite Hin, <-Hperm.
  assert (chosen ≡ₚ seq 0 (length (Tree.centroids t))) as Hch.
  { apply submseteq_length_Permutation; [done|]. rewrite length_seq, Hl. lia. }
  setoid_rewrite Hch. rewrite list_elem_of_In, in_concat. setoid_rewrite <-list_elem_of_In. split.
  - intros (g & p & _ & Hp & Hr). exists p. split; [by eapply list_elem_of_lookup_2|done].
  - intros (p & [g Hg]%list_elem_of_lookup & Hr). exists g, p. split_and!; [|done|done].
    apply elem_of_seq. apply lookup_lt_Some in Hg. rewrite (tw_tree _ Ht) in Hg. lia.
Qed.
End Rebuild.
