(* ===== verification/VectorProperties.v ===== *)
(** * Properties of the vector index and of nearest-neighbour queries

    What a query returns against an exhaustive scan, what a build puts into a
    sidecar and a reader gets out of it, that reading arbitrary bytes stays in
    bounds, and the routing tree; each with a witness. *)

From stdpp Require Import base list strings gmap sorting.
From Stdlib Require Import NArith ZArith Lia Ascii SpecFloat.
From S2P Require Import Prelude Bytes F64 Arrow ColumnStats Pushdown CatalogPrune FtsFile VectorMath VectorFile VectorBuild.
From S2P Require Import AnnQuery AnnSpec.

Local Open Scope N_scope.

(** ** A table of two extents, the first indexed *)

Definition num (z : Z) : spec_float := f32_of_f64 (f64_of_Z z).

Definition sample_batch (rows : list (option (Z * Z))) : RecordBatch :=
  {| b_schema := [{| f_name := "v"; f_type := FixedSizeList Float32 2; f_nullable := true |}];
     b_columns := [VectorArray 2 ((fun o => bool_decide (is_Some o)) <$> rows)
       (concat ((fun o : option (Z * Z) => match o with Some (x, y) => [num x; num y] | None => [num 0; num 0] end) <$> rows))];
     b_num_rows := length rows |}.

(** Stand-ins for the platform's functions: any give a rotation. *)
Definition sample_ln (x : f64) : f64 := f64_of_Z (-2).
Definition sample_cos (x : f64) : f64 := f64_of_Z 1.

Definition sample_blocks (id : N) : list RecordBatch :=
  if id =? 1 then [sample_batch [Some (1, 0); None; Some (0, 1)]%Z; sample_batch [Some (1, 1)]%Z]
  else [sample_batch [Some (0, 0); Some (1, 2)]%Z].

Definition sample_extent (id rows : N) : ExtentManifest :=
  {| m_id := id; m_table_id := 9; m_schema_snapshot_id := 1; m_object_path := "x"; m_byte_size := 1; m_row_count := rows;
     min_timestamp := None; max_timestamp := None; column_stats := JNull; present_paths := []; compaction_gen := 0;
     created_at := 0%Z |}.
Definition sample_extents : list ExtentManifest := [sample_extent 1 4; sample_extent 2 2].

Definition sample_built : outcome IndexError (bytes * IndexParams) :=
  builder_build sample_ln sample_cos "v" (Ret <$> sample_blocks 1).
Definition output {E A} (default : A) (m : outcome E A) : A := match m with Ret a => a | _ => default end.
Definition no_params : IndexParams := {| p_nlist := 0; p_bits := 0; p_dim := 0; p_metric := ""; p_rabitq_version := 0 |}.
Definition sample_data : bytes := (output ([], no_params) sample_built).1.
Definition sample_sidecar : IndexSidecarDescriptor :=
  {| d_extent_id := 1; d_column := "v"; d_object_path := "s"; d_embedding_model_id := None |}.

#[local] Instance sample_env : AnnEnv := {|
  Reader := N;
  list_extents _ := Ret sample_extents;
  list_index_sidecars _ := Ret [sample_sidecar];
  fetch_sidecar _ := Ret sample_data;
  open_extent m := Ret (m_id m);
  all_blocks id := Ret (N.of_nat <$> seq 0 (length (sample_blocks id)));
  read_block id i := or_fail (Format "no block") (sample_blocks id !! N.to_nat i);
  get_ann_tree _ _ := Ret None;
  get_object _ := Ret sample_data
|}.

Definition sample_query : vec := to_bits <$> [num 3; num 1].
Definition first_of (m : gmap N IndexSidecarDescriptor) : option IndexSidecarDescriptor := snd <$> head (map_to_list m).

Lemma sample_vectors rows : batch_ok (sample_batch rows) /\
  (N.of_nat (length rows) < 2 ^ 32 -> column_dim "v" 2 (sample_batch rows)).
Proof.
  split.
  - split; [repeat constructor|]. constructor; [|constructor]. cbn. rewrite length_fmap. split; [done|].
    induction rows as [|o rows IH]; [done|]. cbn [fmap list_fmap concat]. rewrite length_app, IH. by destruct o as [[]|].
  - intros Hl. eexists _, _. split; [reflexivity|]. by rewrite length_fmap.
Qed.

Lemma sample_extent_cases m : m ∈ sample_extents -> m = sample_extent 1 4 \/ m = sample_extent 2 2.
Proof. intros [->|[->|[]%elem_of_nil]%elem_of_cons]%elem_of_cons; auto. Qed.

Lemma sample_blocks_cases id b : b ∈ sample_blocks id -> exists rows, b = sample_batch rows /\ (length rows <= 3)%nat.
Proof.
  unfold sample_blocks. destruct (id =? 1); intros Hb; repeat (apply elem_of_cons in Hb as [->|Hb]);
    try (by apply elem_of_nil in Hb); eexists; (split; [reflexivity|cbn; lia]).
Qed.

Lemma sample_blocks_ok id : Forall batch_ok (sample_blocks id) /\ Forall (column_dim "v" 2) (sample_blocks id).
Proof.
  split; apply Forall_forall; intros b (rows & -> & Hl)%sample_blocks_cases; apply sample_vectors; lia.
Qed.

Lemma sample_blocks_rows id b : b ∈ sample_blocks id -> (length (batch_rows b "v") <= 3)%nat.
Proof.
  intros (rows & -> & Hl)%sample_blocks_cases. unfold batch_rows. destruct (vector_column_of _ _) as [[[dim valid] floats]|] eqn:Hv; [|cbn; lia].
  injection Hv as _ <- _. by rewrite length_imap, length_fmap.
Qed.

Lemma sample_env_ok : env_ok "v" sample_blocks sample_extents.
Proof.
  split.
  - intros m _. exists (m_id m). split; [done|]. split; [done|]. intros i b. cbn. destruct (sample_blocks (m_id m) !! N.to_nat i); cbn.
    + split; by intros [= ->].
    + done.
  - intros m _. apply sample_blocks_ok.
  - intros m b _ Hb. apply sample_blocks_rows in Hb. lia.
  - by apply (bool_decide_eq_true_1 _); vm_compute.
Qed.

Lemma sample_index : exists cs, length cs = 3%nat /\ index_of sample_ln sample_cos "v" (sample_blocks 1) 2 cs None sample_data.
Proof.
  destruct (builder_index_of sample_ln sample_cos "v" 2 (sample_blocks 1)) as (data & params & cs & Hb & Hn & Hcs & Hix).
  - apply sample_blocks_ok.
  - apply sample_blocks_ok.
  - done.
  - done.
  - done.
  - by vm_compute.
  - by vm_compute.
  - assert (data = sample_data) as -> by (unfold sample_data, sample_built; by rewrite Hb).
    exists cs. split; [rewrite Hcs; by vm_compute|]. apply Hix. by vm_compute.
Qed.

Lemma sample_indexes_ok params : exists cs, length (cs 1) = 3%nat /\
  indexes_ok sample_ln sample_cos "v" sample_blocks sample_extents (indexes_used "v" sample_extents params None [sample_sidecar])
    (fun _ => 2%nat) cs.
Proof.
  destruct sample_index as (cs & Hl & Hix). exists (fun _ => cs). split; [done|]. intros m desc Hm Hd.
  destruct (sample_extent_cases m Hm) as [->| ->]; [|done].
  exists sample_data, None. done.
Qed.

Lemma sample_no_short : no_short_rows "v" sample_blocks (l2_normalize sample_query) sample_extents.
Proof.
  intros m b raw Hm Hb Hraw Hle. destruct (sample_extent_cases m Hm) as [->| ->]; clear Hm;
    repeat (apply elem_of_cons in Hb as [->|Hb]); try (by apply elem_of_nil in Hb);
    match type of Hraw with _ ∈ ?l => let l' := eval vm_compute in l in change (Some raw ∈ l') in Hraw end;
    repeat (apply elem_of_cons in Hraw as [[= ->]|Hraw]); try (by apply elem_of_nil in Hraw);
    first [by vm_compute in Hle | by vm_compute].
Qed.

Lemma sample_hits_numbers : Forall hit_number (all_hits "v" sample_blocks (l2_normalize sample_query) sample_extents).
Proof. vm_compute. by repeat constructor. Qed.

(** C9: with every partition probed and a pool that holds all candidates, [ann_topk] returns
    the k nearest rows of an exhaustive exact scan of all extents, in the same order:
    the index changes the cost of a query and not its answer.  Extents may be
    indexed or not, and the sidecars are those a build writes. *)
Theorem ann_topk_exact `{AnnEnv} ln cos sha256 table_id column blocks extents first_value qvec params prefilter cache ds d cs :
  let q := l2_normalize qvec in
  let sidecars := indexes_used column extents params prefilter ds in
  env_ok column blocks extents ->
  list_extents (sanitize_prune prefilter) = Ret extents -> list_index_sidecars (m_id <$> extents) = Ret ds ->
  cache_ok cache -> indexes_ok ln cos column blocks extents sidecars d cs ->
  no_short_rows column blocks q extents -> (forall model, get_ann_tree column model = Ret None) ->
  (forall m, m ∈ extents -> indexed sidecars m = true -> length (cs (m_id m)) <= nprobe params)%nat ->
  (index_size column blocks sidecars extents <= pool_size params)%nat ->
  Forall hit_number (all_hits column blocks q extents) ->
  exists cache', ann_topk ln cos sha256 table_id column first_value qvec params prefilter cache =
    Ret (take (k params) (sort_hits (all_hits column blocks q extents)), cache').
Proof.
  intros q sidecars Henv Hext Hds Hcache Hix Hshort Htree Hprobe Hpool Hnum.
  destruct (ann_topk_ok ln cos sha256 table_id column blocks extents Henv first_value qvec params prefilter cache ds d cs
    Hext Hds Hcache Hix Hshort) as (reranked & pool & cache' & -> & _ & _ & Hfull).
  exists cache'. do 3 f_equal. symmetry. apply sort_hits_unique.
  - done.
  - apply all_hits_places. by apply Henv.
  - etrans; [apply (all_hits_split column blocks q extents sidecars)|]. apply Permutation_app_tail. symmetry. by apply Hfull.
Qed.

Lemma ann_topk_exact_witness :
  exists cache', ann_topk sample_ln sample_cos (fun b => b) 9 "v" first_of sample_query (with_k 2) None ∅ =
    Ret (take 2 (sort_hits (all_hits "v" sample_blocks (l2_normalize sample_query) sample_extents)), cache').
Proof.
  destruct (sample_indexes_ok (with_k 2)) as (cs & Hl & Hix).
  apply (ann_topk_exact sample_ln sample_cos (fun b => b) 9 "v" sample_blocks sample_extents first_of sample_query (with_k 2) None ∅
    [sample_sidecar] (fun _ => 2%nat) cs sample_env_ok eq_refl eq_refl (map_Forall_empty _) Hix sample_no_short (fun _ => eq_refl)).
  - intros m Hm Hi. destruct (sample_extent_cases m Hm) as [->| ->]; [cbn; lia|done].
  - vm_compute. lia.
  - apply sample_hits_numbers.
Defined.

(** C14: whatever the probing and the routing tree leave out, a query over built indexes ends
    without error; its hits are at most k, sorted by exact distance, each a row of a listed
    extent at its exact distance; and a row of an extent without index is among
    them unless k hits come before it. *)
Theorem ann_topk_sound `{AnnEnv} ln cos sha256 table_id column blocks extents first_value qvec params prefilter cache ds d cs :
  let q := l2_normalize qvec in
  let sidecars := indexes_used column extents params prefilter ds in
  env_ok column blocks extents ->
  list_extents (sanitize_prune prefilter) = Ret extents -> list_index_sidecars (m_id <$> extents) = Ret ds ->
  cache_ok cache -> indexes_ok ln cos column blocks extents sidecars d cs ->
  no_short_rows column blocks q extents -> Forall hit_number (all_hits column blocks q extents) ->
  exists hits cache', ann_topk ln cos sha256 table_id column first_value qvec params prefilter cache = Ret (hits, cache') /\
    (length hits <= k params)%nat /\ StronglySorted (not_greater hit_order) hits /\
    (forall h, h ∈ hits -> h ∈ all_hits column blocks q extents) /\
    (forall m h, m ∈ extents -> indexed sidecars m = false -> h ∈ extent_hits q column (m_id m) (blocks (m_id m)) ->
       h ∈ hits \/ length hits = k params /\ Forall (fun h' => not_greater hit_order h' h) hits).
Proof.
  intros q sidecars Henv Hext Hds Hcache Hix Hshort Hnum.
  destruct (ann_topk_ok ln cos sha256 table_id column blocks extents Henv first_value qvec params prefilter cache ds d cs
    Hext Hds Hcache Hix Hshort) as (reranked & pool & cache' & -> & Hpool & Hre & _).
  set (found := reranked ++ _).
  assert (forall h, h ∈ found -> h ∈ all_hits column blocks q extents) as Hsub.
  { intros h [Hh|Hh]%elem_of_app.
    - rewrite Hre in Hh. by eapply pool_hits.
    - rewrite (all_hits_split column blocks q extents sidecars). apply elem_of_app. by right. }
  assert (Forall hit_number found) as Hfn.
  { apply Forall_forall. intros h Hh. rewrite Forall_forall in Hnum. auto. }
  pose proof (sort_hits_sorted found Hfn) as Hsorted.
  eexists _, cache'. split; [done|]. split_and!.
  - rewrite length_take. lia.
  - by apply StronglySorted_take.
  - intros h Hh. apply Hsub. assert (h ∈ sort_hits found) as Hin.
    { rewrite <-(take_drop (k params) (sort_hits found)). apply elem_of_app. by left. }
    unfold sort_hits in Hin. by rewrite sort_by_Permutation in Hin.
  - intros m h Hm Hi Hh. apply take_sorted; [done|]. unfold sort_hits. rewrite sort_by_Permutation. unfold found.
    apply elem_of_app. right. apply list_elem_of_In, in_concat. exists (fallback_hits column blocks q sidecars m).
    split; apply list_elem_of_In; [by apply list_elem_of_fmap_2|]. unfold fallback_hits. by rewrite Hi.
Qed.

Lemma ann_topk_sound_witness :
  exists hits cache', ann_topk sample_ln sample_cos (fun b => b) 9 "v" first_of sample_query (with_k 1) None ∅ = Ret (hits, cache') /\
    (length hits <= 1)%nat.
Proof.
  destruct (sample_indexes_ok (with_k 1)) as (cs & Hl & Hix).
  destruct (ann_topk_sound sample_ln sample_cos (fun b => b) 9 "v" sample_blocks sample_extents first_of sample_query (with_k 1) None ∅
    [sample_sidecar] (fun _ => 2%nat) cs sample_env_ok eq_refl eq_refl (map_Forall_empty _) Hix sample_no_short sample_hits_numbers)
    as (hits & cache & Hrun & Hlen & _).
  exists hits, cache. split; [exact Hrun|exact Hlen].
Defined.

(** ** What a build puts into a sidecar *)

(** C24: a sidecar built from the batches of an extent reads back: its header, its
    centroids, and in each partition, in the order of the rows, the encodings of exactly the rows of usable
    direction that have this partition's centroid as their nearest; no centroid is
    nearer to such a row, and among equally near ones it is the first. *)
Theorem built_sidecar_reads_back ln cos column dim bs : Forall batch_ok bs -> Forall (column_dim column dim) bs ->
  N.of_nat (length bs) < 2 ^ 32 -> dim <> 0%nat -> N.of_nat dim < 2 ^ 32 ->
  index_rows column bs <> [] -> N.of_nat (length (index_rows column bs)) < 2 ^ 32 ->
  exists data params cs, builder_build ln cos column (Ret <$> bs) = Ret (data, params) /\
    length cs = p_nlist params /\ (1 <= p_nlist params <= 256)%nat /\
    (blen data < 2 ^ 63 -> exists header,
       read_header data = Ret header /\ VectorFile.dim header = N.of_nat dim /\ nlist header = N.of_nat (length cs) /\
       read_centroids data header = Ret cs /\
       (forall p, (p < length cs)%nat -> read_partition data header (N.of_nat p) =
          Ret (row_entry ln cos dim <$> filter (fun r => nearest_centroid r.2 cs = p) (index_rows column bs))) /\
       (forall r, r ∈ index_rows column bs -> exists c, cs !! nearest_centroid r.2 cs = Some c /\
          (forall j c', cs !! j = Some c' -> f32_lt (sq_l2 r.2 c') (sq_l2 r.2 c) = false) /\
          (forall j c', (j < nearest_centroid r.2 cs)%nat -> cs !! j = Some c' ->
             f32_is_nan (sq_l2 r.2 c') = true \/ f32_lt (sq_l2 r.2 c) (sq_l2 r.2 c') = true))).
Proof.
  intros Hbs Hcol Hn Hd Hd32 Hne H32.
  destruct (builder_index_of ln cos column dim bs Hbs Hcol Hn Hd Hd32 Hne H32) as (data & params & cs & Hbuild & Hp & Hcs & Hix).
  exists data, params, cs. assert (length (index_rows column bs) <> 0%nat) as Hnz by (by destruct (index_rows column bs)).
  pose proof (choose_nlist_bounds _ Hnz) as Hb. split_and!; [done|done|lia|lia|]. intros Hsize. specialize (Hix Hsize).
  destruct (index_reads _ _ _ _ _ _ _ _ Hix) as (Hh & Hc & Hparts). eexists. split; [exact Hh|]. split_and!; [done|done|done| |].
  - intros p Hlt. apply Hparts. unfold row_partitions. by apply buckets_lookup.
  - intros r _. destruct (lookup_lt_is_Some_2 cs (nearest_centroid r.2 cs)) as [c Hcr]; [apply nearest_lt; by destruct Hix|].
    exists c. split; [done|]. by apply nearest_least.
Qed.

Lemma built_sidecar_reads_back_witness : exists data params cs header,
  builder_build sample_ln sample_cos "v" (Ret <$> sample_blocks 1) = Ret (data, params) /\
  read_header data = Ret header /\ read_centroids data header = Ret cs /\ length cs = 3%nat.
Proof.
  destruct (built_sidecar_reads_back sample_ln sample_cos "v" 2 (sample_blocks 1)) as (data & params & cs & Hb & Hn & _ & Hread).
  - apply sample_blocks_ok.
  - apply sample_blocks_ok.
  - done.
  - done.
  - done.
  - by vm_compute.
  - by vm_compute.
  - assert (data = sample_data) as -> by (unfold sample_data, sample_built; by rewrite Hb).
    destruct Hread as (header & Hh & _ & _ & Hc & _); [by vm_compute|].
    exists sample_data, params, cs, header. split; [exact Hb|]. split; [exact Hh|]. split; [exact Hc|].
    rewrite Hn. assert (params = (output ([], no_params) sample_built).2) as -> by (unfold sample_built; by rewrite Hb).
    by vm_compute.
Defined.

(** ** Reading arbitrary bytes *)

(** C23: whatever bytes a sidecar or a tree file holds, reading it never panics: a header
    read points inside the buffer, a partition read has an index below the header's count and entries that
    all lie inside the buffer and can be scanned, and a tree has one posting list per
    centroid. *)
Theorem index_reads_in_bounds buf : blen buf < 2 ^ 63 ->
  read_header buf <> Panic /\ read_tree buf <> Panic /\
  (forall h, read_header buf = Ret h -> 21 <= centroids_offset h <= blen buf /\
     read_centroids buf h <> Panic /\
     (forall cs, read_centroids buf h = Ret cs -> N.of_nat (length cs) = nlist h /\ Forall (vec_ok (N.to_nat (dim h))) cs /\
        4 * (nlist h * dim h) <= blen buf) /\
     forall i, read_partition buf h i <> Panic /\
       forall part, read_partition buf h i = Ret part -> i < nlist h /\ Forall (entry_ok (dim h)) part /\
         4 + N.of_nat (length part) * (12 + code_len (dim h)) <= blen buf /\
         forall query, N.of_nat (length (rotated query)) = dim h ->
           exists scored, scan_partition query part = Ret scored /\ fst <$> scored = addr <$> part) /\
  (forall t, read_tree buf = Ret t -> length (Tree.postings t) = length (Tree.centroids t)).
Proof.
  intros Hlen. split; [by apply read_header_safe|]. split; [by apply read_tree_safe|]. split.
  2:{ intros t Ht. by apply (read_tree_ok buf). }
  intros h Hh. apply read_header_Ret in Hh as (Hd & Hk & Hoff); [|done]. split; [done|]. unfold read_centroids. split_and!.
  - destruct (read_vecs _ _ _ _) eqn:Hr; try done. by apply read_vecs_safe in Hr.
  - intros cs Hcs. destruct (read_vecs _ _ _ _) as [[cs' off]| | |] eqn:Hr; try done. injection Hcs as ->.
    apply read_vecs_Ret in Hr as (Hl & Hf & -> & Hb); [|done]. split_and!; [lia|done|nia].
  - intros i. split; [by apply read_partition_safe|]. intros part Hp.
    apply read_partition_Ret in Hp as (Hi & [_ Hes] & Hb); [|done..]. split_and!; [done|done|done|]. intros query Hq.
    destruct (scan_partition_ok (N.to_nat (dim h)) part query) as (scored & Hs & Haddr).
    + by rewrite N2Nat.id.
    + lia.
    + exists scored. done.
Qed.

Lemma index_reads_in_bounds_witness : exists part, read_partition sample_data
  (written_header 2 METRIC_COSINE (replicate 3 []) None) 1 = Ret part /\ (length part <= 1)%nat /\
  N.of_nat (length part) * 13 <= blen sample_data.
Proof.
  destruct (index_reads_in_bounds sample_data) as (_ & _ & Hread & _); [by vm_compute|].
  destruct (Hread (written_header 2 METRIC_COSINE (replicate 3 []) None)) as (_ & _ & _ & Hpart); [by vm_compute|].
  destruct (Hpart 1) as [_ Hp].
  destruct (read_partition sample_data (written_header 2 METRIC_COSINE (replicate 3 []) None) 1) as [part| | |] eqn:Hr;
    [|by vm_compute in Hr..].
  exists part. destruct (Hp part eq_refl) as (_ & _ & Hb & _). split; [reflexivity|].
  split; [vm_compute in Hr; injection Hr as <-; vm_compute; lia|]. change (12 + code_len (dim _)) with 13 in Hb. lia.
Defined.

(** ** The routing tree *)

(** C27: a rebuild of the routing tree leaves the catalog and the store such that the next
    rebuild finds nothing to do, and a query over the same indexed extents, in
    whatever order they come, takes its partitions from the tree; with as many probes as the tree
    has centroids it selects every partition of every covered extent. *)
Theorem rebuilt_tree_serves `{AnnEnv} sha256 uuid tenant table_id column model dbs tables live ds D cs existing :
  let covered := relevant column model ds in
  table_by_id table_id dbs tables = Ret true -> list_extents default_prune = Ret live ->
  list_index_sidecars (m_id <$> live) = Ret ds -> get_ann_tree column model = Ret existing ->
  t_fingerprint <$> existing <> Some (fingerprint sha256 (d_extent_id <$> covered)) ->
  (forall d, d ∈ covered -> d_extent_id d < 2 ^ 128 /\ has_centroids D d (cs d)) -> tree_fits model D cs covered ->
  exists generation nlist partitions effects,
    maintain sha256 uuid tenant table_id column model dbs tables =
      Ret (Built generation nlist (length covered) partitions, effects) /\
    @maintain (apply_effects effects H) sha256 uuid tenant table_id column model dbs tables = Ret (Unchanged generation, []) /\
    forall q ids top_p, ids ≡ₚ d_extent_id <$> covered -> length q = D -> (partitions <= top_p)%nat ->
      exists sel cache, @select (apply_effects effects H) sha256 table_id column model ids q top_p ∅ = Ret (Some sel, cache) /\
        forall d p, d ∈ covered -> (p < length (cs d))%nat -> p ∈ default [] (sel !! d_extent_id d).
Proof.
  intros covered Htab Hlive Hds Hex Hfp Hc Hfits. pose proof Hfits as (Hcov & Hpts & _).
  assert (forall d, d ∈ covered -> has_centroids D d (cs d)) as Hcs by (intros d Hd; by apply Hc).
  destruct (tree_built model D cs covered Hcs (choose_global_nlist (length (points D cs covered))) Hfits)
    as (t & Ht & Hw & Hdim & Hk & Hperm).
  set (path := tree_path uuid tenant table_id column model).
  set (g := match existing with Some t => (generation t + 1)%Z | None => 1%Z end).
  set (desc := {| t_table := table_id; t_column := column; t_model := model; generation := g;
                  t_fingerprint := fingerprint sha256 (d_extent_id <$> covered); t_object_path := path |}).
  exists g, (choose_global_nlist (length (points D cs covered))), (length (points D cs covered)),
    [PutTree path (write_tree t); UpsertTree desc]. split_and!.
  - unfold maintain. rewrite Htab. cbn [mbind outcome_bind negb]. rewrite Hlive. cbn [as_job mbind outcome_bind].
    rewrite Hds. cbn [as_job mbind outcome_bind]. fold covered. rewrite decide_False by done.
    rewrite Hex. cbn [as_job mbind outcome_bind]. rewrite decide_False by done.
    rewrite (read_sidecars D cs) by auto. cbn [mbind outcome_bind or_fail app]. rewrite Nat2N.id.
    fold (centroids_of cs covered). rewrite <-(length_points D cs covered Hcs), Ht. done.
  - destruct (registered H path (write_tree t) desc) as (Hget & _ & Hle & Hli).
    change (t_column desc) with column in Hget. change (t_model desc) with model in Hget. unfold maintain.
    rewrite Hle, Hli, Htab. cbn [mbind outcome_bind negb]. rewrite Hlive. cbn [as_job mbind outcome_bind].
    rewrite Hds. cbn [as_job mbind outcome_bind]. fold covered. rewrite decide_False by done.
    rewrite Hget.
    cbn [as_job mbind outcome_bind fmap option_fmap option_map t_fingerprint]. by rewrite decide_True by done.
  - destruct (registered H path (write_tree t) desc) as (Hget & Hobj & _).
    change (t_column desc) with column in Hget. change (t_model desc) with model in Hget. intros q ids top_p Hids Hq Htop. unfold select.
    rewrite Hget. rewrite decide_False.
    2:{ intros Hn. apply Hn. cbn [t_fingerprint]. unfold fingerprint. apply extent_fingerprint_perm; [|by rewrite Hids].
        apply Forall_fmap, Forall_forall. intros x _. apply length_uuid_bytes. }
    unfold load_tree. rewrite lookup_empty. change (t_object_path desc) with path. rewrite Hobj.
    rewrite (read_write_tree t Hw). rewrite decide_False by (intros Hn; apply Hn; congruence).
    destruct (select_all D cs covered t q top_p Hw Hdim Hperm Hq) as (out & -> & Hout); [lia|]. cbn [mbind outcome_bind].
    assert (forall d p, d ∈ covered -> (p < length (cs d))%nat ->
      {| extent := uuid_bytes (d_extent_id d); partition := N.of_nat p |} ∈ out) as Hall.
    { intros d p Hd Hp. apply Hout, points_refs; eauto. }
    rewrite decide_False.
    + eexists _, _. split; [done|]. intros d p Hd Hp. apply selection_of_spec. eexists. split; [by apply Hall|]. cbn.
      rewrite Nat2N.id. split; [|done]. apply uuid_value_bytes. by apply Hc.
    + intros ->. destruct (points D cs covered) as [|x l] eqn:Hx; [done|].
      assert (x.2 ∈ []) as Hin; [|by apply elem_of_nil in Hin]. apply Hout. cbn. by left.
Qed.

Definition no_dbs : outcome JobError (list string) := Ret ["db"%string].
Definition db_tables (db : string) : outcome JobError (list N) := Ret [9].
Definition sample_uuid (n : N) : string := "t"%string.

Definition sample_header : Header := written_header 2 METRIC_COSINE (replicate 3 []) None.
Definition sample_centroids : list vec := output [] (read_centroids sample_data sample_header).

Lemma rebuilt_tree_serves_witness : exists generation nlist effects,
  maintain (fun b => b) sample_uuid 5 9 "v" None no_dbs db_tables = Ret (Built generation nlist 1 3, effects) /\
  @maintain (apply_effects effects sample_env) (fun b => b) sample_uuid 5 9 "v" None no_dbs db_tables = Ret (Unchanged generation, []).
Proof.
  destruct (rebuilt_tree_serves (fun b => b) sample_uuid 5 9 "v" None no_dbs db_tables sample_extents [sample_sidecar]
    2 (fun _ => sample_centroids) None) as (generation & nlist & partitions & effects & Hrun & Hagain & _).
  - reflexivity.
  - reflexivity.
  - reflexivity.
  - reflexivity.
  - done.
  - intros d Hd. assert (d = sample_sidecar) as -> by (by apply list_elem_of_singleton in Hd).
    split; [done|]. exists sample_data, (written_header 2 METRIC_COSINE (replicate 3 []) None).
    repeat (split; [by vm_compute|]). by vm_compute.
  - split; [by vm_compute|]. split; [by vm_compute|]. split; [by split|]. by vm_compute.
  - exists generation, nlist, effects. split; [|exact Hagain].
    assert (partitions = 3%nat) as ->; [|exact Hrun]. vm_compute in Hrun. congruence.
Defined.

(** ** Where index, scan and job differ from what they mean to do *)

(** Trees of different models share an object: a slash is written as an
    underscore, and a model called [none] is taken for no model. *)
Lemma tree_path_collides uuid tenant table_id column :
  tree_path uuid tenant table_id column (Some "a/b"%string) = tree_path uuid tenant table_id column (Some "a_b"%string) /\
  tree_path uuid tenant table_id column None = tree_path uuid tenant table_id column (Some "none"%string).
Proof. done. Qed.

(** A vector shorter than the index accepts, but not zero, has a distance in an
    exact scan and no entry in an index. *)
Lemma short_row_only_in_scans : exists v, indexed_row 0 0 (Some v) = None /\
  row_hit (l2_normalize sample_query) 1 {| block := 0; row := 0 |} (Some v) <> None.
Proof.
  exists (to_bits <$> [f32_of_f64 (S754_finite false 4503599627370496 (-112)); num 0]). by split; vm_compute.
Qed.

(** A vector with a NaN passes the index's length check and is an entry; a scan
    gives it the distance NaN, which compares as equal to every other. *)
Lemma nan_row_is_kept : exists v d, indexed_row 0 0 (Some v) <> None /\
  option_map distance (row_hit (l2_normalize sample_query) 1 {| block := 0; row := 0 |} (Some v)) = Some d /\ d = S754_nan.
Proof. exists (to_bits <$> [S754_nan; num 0]), S754_nan. by vm_compute. Qed.
