(* ===== verification/SqlTable.v ===== *)
(** * Tables as lists of rows

    What the statements of the catalogs do to a table: [UPDATE ... WHERE] and
    its number of affected rows, and the row that [ORDER BY ... LIMIT 1]
    selects, with the lemmas on them that the job and task stores share. *)

From stdpp Require Import base list sets.
From Stdlib Require Import Lia.
From S2P Require Import Prelude.

Section Table.
  Context {A : Type}.
  Implicit Types (guard : A -> bool) (f : A -> A) (l : list A).

(** [UPDATE ... SET f WHERE guard] *)
Definition update_rows guard f l : list A := (fun t => if guard t then f t else t) <$> l.

Definition rows_affected guard l : nat := length (filter (fun t => guard t = true) l).

(** [ORDER BY ... LIMIT 1]; of rows that agree, the first of the table. *)
Fixpoint first_by (precedes : A -> A -> bool) l : option A :=
  match l with
  | [] => None
  | x :: l =>
      match first_by precedes l with
      | None => Some x
      | Some y => Some (if precedes x y then x else y)
      end
  end.

(** ** Updates *)

Lemma update_rows_fmap {B} (key : A -> B) guard f l :
  (forall t, key (f t) = key t) -> key <$> update_rows guard f l = key <$> l.
Proof.
  intros Hf. unfold update_rows. rewrite <-list_fmap_compose. apply list_fmap_ext. intros _ t _. simpl.
  by destruct (guard t).
Qed.

Lemma elem_of_update_rows guard f l t' :
  t' ∈ update_rows guard f l <-> exists t, t ∈ l /\ t' = if guard t then f t else t.
Proof. unfold update_rows. rewrite list_elem_of_fmap. naive_solver. Qed.

Lemma update_rows_Forall (P Q : A -> Prop) guard f l :
  Forall P l -> (forall t, P t -> guard t = true -> Q (f t)) -> (forall t, P t -> guard t = false -> Q t) ->
  Forall Q (update_rows guard f l).
Proof.
  intros HP Hf Hn. apply Forall_forall. intros t' (t & Ht & ->)%elem_of_update_rows.
  rewrite Forall_forall in HP. destruct (guard t) eqn:Hg; auto.
Qed.

Lemma update_rows_none guard f l : (forall t, t ∈ l -> guard t = false) -> update_rows guard f l = l.
Proof.
  intros Hn. unfold update_rows. rewrite <-(list_fmap_id l) at 2. apply list_fmap_ext.
  intros i t Ht. simpl. by rewrite (Hn t) by (by eapply list_elem_of_lookup_2).
Qed.

Section Sum.
  Context (w : A -> nat) (guard : A -> bool) (f : A -> A).

Lemma update_rows_sum_le l : (forall t, t ∈ l -> guard t = true -> w (f t) <= w t) ->
  sum_list_with w (update_rows guard f l) <= sum_list_with w l.
Proof.
  unfold update_rows. induction l as [|t l IH]; intros Hf; [done|]. rewrite fmap_cons. cbn [sum_list_with].
  assert (w (if guard t then f t else t) <= w t).
  { destruct (guard t) eqn:Hg; [apply Hf; [left|done]|done]. }
  assert (sum_list_with w ((fun t => if guard t then f t else t) <$> l) <= sum_list_with w l).
  { apply IH. intros x Hx. apply Hf. by right. }
  lia.
Qed.

Lemma update_rows_sum_lt l t : (forall t, t ∈ l -> guard t = true -> w (f t) <= w t) ->
  t ∈ l -> guard t = true -> w (f t) < w t -> sum_list_with w (update_rows guard f l) < sum_list_with w l.
Proof.
  intros Hf Ht Hg Hlt. apply list_elem_of_split in Ht as (l1 & l2 & ->).
  unfold update_rows. rewrite fmap_app, fmap_cons, !sum_list_with_app. cbn [sum_list_with]. rewrite Hg.
  pose proof (update_rows_sum_le l1) as H1. pose proof (update_rows_sum_le l2) as H2. unfold update_rows in *.
  assert (sum_list_with w ((fun t => if guard t then f t else t) <$> l1) <= sum_list_with w l1).
  { apply H1. intros x Hx. apply Hf. set_solver. }
  assert (sum_list_with w ((fun t => if guard t then f t else t) <$> l2) <= sum_list_with w l2).
  { apply H2. intros x Hx. apply Hf. set_solver. }
  lia.
Qed.
End Sum.

Lemma filter_none (P : A -> Prop) `{!forall t, Decision (P t)} l : (forall t, t ∈ l -> ~ P t) -> filter P l = [].
Proof.
  induction l as [|x l IH]; intros HP; [done|].
  rewrite filter_cons_False by (apply HP; left). apply IH. intros t Ht. apply HP. by right.
Qed.

Lemma elem_of_where (p : A -> bool) l t : t ∈ filter (fun t => p t = true) l <-> p t = true /\ t ∈ l.
Proof. by rewrite list_elem_of_filter. Qed.

(** ** Selection *)

Lemma first_by_None p l : first_by p l = None -> l = [].
Proof. destruct l as [|x l]; [done|]. simpl. by destruct (first_by p l). Qed.

Lemma first_by_elem p l t : first_by p l = Some t -> t ∈ l.
Proof.
  revert t. induction l as [|x l IH]; intros t; simpl; [done|].
  destruct (first_by p l) as [y|]; [|intros [= <-]; left].
  intros [= <-]. destruct (p x y); [left|right; by apply IH].
Qed.

Lemma first_by_where_None p (c : A -> bool) l :
  first_by p (filter (fun t => c t = true) l) = None -> forall t, t ∈ l -> c t = false.
Proof.
  intros Hf%first_by_None t Ht. destruct (c t) eqn:Hc; [|done].
  assert (t ∈ filter (fun t => c t = true) l) as Hin by (by apply elem_of_where).
  rewrite Hf in Hin. by apply not_elem_of_nil in Hin.
Qed.

(** ** Primary keys *)

Lemma same_key {K} (key : A -> K) l t t' : NoDup (key <$> l) -> t ∈ l -> t' ∈ l -> key t = key t' -> t = t'.
Proof.
  intros Hnd (i & Hi)%list_elem_of_lookup (j & Hj)%list_elem_of_lookup Heq.
  assert (i = j) as ->; [|congruence].
  eapply NoDup_lookup; [done|rewrite list_lookup_fmap, Hi; done|rewrite list_lookup_fmap, Hj; simpl; congruence].
Qed.

Lemma rows_affected_one {K} (key : A -> K) guard l row :
  NoDup (key <$> l) -> row ∈ l -> (forall t, guard t = true -> key t = key row) -> guard row = true ->
  rows_affected guard l = 1.
Proof.
  intros Hnd Hrow Hg Hr. apply list_elem_of_split in Hrow as (l1 & l2 & ->).
  unfold rows_affected. rewrite filter_app, filter_cons_True by done.
  rewrite fmap_app, fmap_cons in Hnd. apply NoDup_app in Hnd as (_ & H1 & [H2 _]%NoDup_cons).
  rewrite (filter_none _ l1); [rewrite (filter_none _ l2); [done|]|].
  - intros t Ht Hgt. destruct H2. rewrite <-(Hg t Hgt). by apply list_elem_of_fmap_2.
  - intros t Ht Hgt. apply (H1 (key t)); [by apply list_elem_of_fmap_2|rewrite (Hg t Hgt); left].
Qed.

Lemma rows_affected_zero guard l : rows_affected guard l = 0 <-> forall t, t ∈ l -> guard t = false.
Proof.
  unfold rows_affected. split.
  - intros H t Ht. destruct (guard t) eqn:Hg; [|done].
    assert (t ∈ filter (fun t => guard t = true) l) as Hin by (by apply elem_of_where).
    apply nil_length_inv in H. rewrite H in Hin. by apply not_elem_of_nil in Hin.
  - intros H. rewrite filter_none; [done|]. intros t Ht. by rewrite H.
Qed.
End Table.

(** ** Grouping *)

Section Group.
  Context {A K : Type} `{!EqDecision K} (key : A -> K).

(** [map.entry(key(x)).or_default().push(x)], on the entries of the map. *)
Fixpoint entry_push (x : A) (groups : list (K * list A)) : list (K * list A) :=
  match groups with
  | [] => [(key x, [x])]
  | (k, l) :: groups => if decide (k = key x) then (k, l ++ [x]) :: groups else (k, l) :: entry_push x groups
  end.
Definition group_by (l : list A) : list (K * list A) := foldl (fun groups x => entry_push x groups) [] l.

Lemma entry_push_elements x groups : concat (entry_push x groups).*2 ≡ₚ x :: concat groups.*2.
Proof.
  induction groups as [|[k l] groups IH]; [done|]. simpl. case_decide; simpl.
  - rewrite <-app_assoc. simpl. by rewrite <-Permutation_middle.
  - rewrite IH. by rewrite <-Permutation_middle.
Qed.

(** No element is lost or added. *)
Lemma group_by_elements l : concat (group_by l).*2 ≡ₚ l.
Proof.
  unfold group_by.
  assert (forall groups, concat (foldl (fun groups x => entry_push x groups) groups l).*2 ≡ₚ concat groups.*2 ++ l) as Hg.
  { induction l as [|x l IH]; intros groups; simpl; [by rewrite app_nil_r|].
    rewrite IH, entry_push_elements. simpl. by rewrite Permutation_middle. }
  by rewrite Hg.
Qed.

Lemma entry_push_key x groups : Forall (fun g => Forall (fun y => key y = g.1) g.2) groups ->
  Forall (fun g => Forall (fun y => key y = g.1) g.2) (entry_push x groups).
Proof.
  induction 1 as [|[k l] groups Hk Hg IH]; simpl; [by repeat constructor|]. case_decide; constructor; try done.
  simpl in *. apply Forall_app. split; [done|]. by repeat constructor.
Qed.

(** The elements of a group have its key. *)
Lemma group_by_key l : Forall (fun g => Forall (fun y => key y = g.1) g.2) (group_by l).
Proof.
  unfold group_by. apply (foldl_inv (fun groups x => entry_push x groups)
    (fun _ groups => Forall (fun g => Forall (fun y => key y = g.1) g.2) groups)); [constructor|].
  intros l1 x s _ Hs. by apply entry_push_key.
Qed.
End Group.

(** An order of claims selects a row that precedes every other candidate. *)
Class ClaimOrder {A} (p : A -> A -> bool) : Prop := {
  order_total a b : p a b = true \/ p b a = true;
  order_trans a b c : p a b = true -> p b c = true -> p a c = true }.

Lemma first_by_precedes `{ClaimOrder A p} (l : list A) t : first_by p l = Some t -> forall t', t' ∈ l -> p t t' = true.
Proof.
  revert t. induction l as [|x l IH]; intros t; simpl; [done|].
  assert (forall x, p x x = true) as Hrefl by (intros y; by destruct (order_total y y)).
  destruct (first_by p l) as [y|] eqn:Hy.
  - intros [= <-] t' [->|Ht']%elem_of_cons; destruct (p x y) eqn:Hxy; auto.
    + destruct (order_total x y); congruence.
    + eapply order_trans; [done|auto].
  - intros [= <-] t' [->|Ht']%elem_of_cons; [done|]. apply first_by_None in Hy as ->. by apply not_elem_of_nil in Ht'.
Qed.
