(* ===== verification/TaskStore.v ===== *)
(** * The background task store ([background_tasks])

    The table behind [Catalog::submit_task], [claim_task], [complete_task] and
    [fail_task], and the statements that the SQLite catalog
    ([pensieve-catalog-sqlite/src/lib.rs]) and the Postgres catalog
    ([pensieve-catalog/src/lib.rs]) run on it.  A statement of either catalog
    may fail, and reads the clock: [TaskEnv] says what the n-th call sees.
    [TaskCatalog] is the interface of the store to its clients and
    [TaskCatalogLaws] its contract when no statement fails; both catalogs
    satisfy it. *)

From stdpp Require Import base gmap strings list.
From Stdlib Require Import ZArith NArith Lia.
From S2P Require Import Prelude Arrow SqlTable.

Local Open Scope Z_scope.

Abbreviation Uuid := N.

(** Values of the [status] column.  A claimed row is [running] in SQLite and
    [claimed] in Postgres. *)
Inductive TaskStatus := Pending | Running | Claimed | Done | Failed.
#[export] Instance TaskStatus_eq_dec : EqDecision TaskStatus.
Proof. solve_decision. Defined.

(** A row.  Times are nanoseconds: both catalogs order them chronologically. *)
Record Task := {
  t_id : Uuid; t_kind : string; t_table_id : option Uuid; t_payload : Json; t_priority : Z;
  t_status : TaskStatus; t_attempt : Z; t_max_attempts : Z; t_claim_expires_at : option Z;
  t_claimed_by : option Uuid; t_last_error : option string; t_created_at : Z; t_updated_at : Z }.

(** A claimed task, as handed to a worker. *)
Record BackgroundTask := {
  bt_id : Uuid; bt_kind : string; bt_table_id : option Uuid; bt_payload : Json; bt_priority : Z;
  bt_attempt : Z; bt_max_attempts : Z; bt_claim_expires_at : Z }.

(** ** The interface *)

(** A [None] is an [Err] of the statement. *)
Class TaskCatalog (C : Type) := {
  submit_task : string -> option Uuid -> Json -> Z -> C -> option Uuid * C;
  claim_task : string -> Uuid -> Z -> C -> option (option BackgroundTask) * C;
  complete_task : Uuid -> C -> option unit * C;
  fail_task : Uuid -> string -> C -> option unit * C }.

(** The contract, for the tasks of one kind, in terms of which tasks wait
    unclaimed, which are claimed with no attempt left, and how many attempts
    the unfinished ones have left.  No statement fails; a claim hands out a
    task at the cost of an attempt, or finds that nothing waits; settling a
    task finishes it or leaves it with the attempts it has. *)
Class TaskCatalogLaws (C : Type) `{TaskCatalog C} := {
  store_ok : C -> Prop;
  finished : C -> Uuid -> Prop;   (** completed *)
  waiting : string -> C -> Uuid -> Json -> Prop;   (** with this payload *)
  spent : string -> C -> Uuid -> Prop;
  attempts_left : string -> C -> nat;
  submit_ok k tbl payload prio c : store_ok c -> store_ok (submit_task k tbl payload prio c).2;
  claim_ok k node lease c : store_ok c -> store_ok (claim_task k node lease c).2;
  complete_ok id c : store_ok c -> store_ok (complete_task id c).2;
  fail_ok id e c : store_ok c -> store_ok (fail_task id e c).2;
  submit_waits k tbl payload prio c : store_ok c -> exists id,
    (submit_task k tbl payload prio c).1 = Some id /\ waiting k (submit_task k tbl payload prio c).2 id payload;
  claim_returns k node lease c : store_ok c -> exists r, (claim_task k node lease c).1 = Some r;
  claim_progress k node lease c t : store_ok c -> (claim_task k node lease c).1 = Some (Some t) ->
    (attempts_left k (claim_task k node lease c).2 < attempts_left k c)%nat \/
    spent k (claim_task k node lease c).2 (bt_id t);
  claim_unfinished k node lease c t : store_ok c -> (claim_task k node lease c).1 = Some (Some t) -> ~ finished c (bt_id t);
  claim_finished k node lease c id : store_ok c -> finished (claim_task k node lease c).2 id -> finished c id;
  fail_finished id e c id' : finished (fail_task id e c).2 id' -> finished c id';
  claim_bounded k node lease c : store_ok c -> (attempts_left k (claim_task k node lease c).2 <= attempts_left k c)%nat;
  claim_spent k node lease c id : store_ok c -> spent k c id -> spent k (claim_task k node lease c).2 id;
  claim_dry k node lease c id body : store_ok c -> (claim_task k node lease c).1 = Some None -> ~ waiting k c id body;
  claim_waiting k node lease c id body : store_ok c -> waiting k c id body ->
    (exists t, (claim_task k node lease c).1 = Some (Some t) /\ bt_id t = id /\ bt_payload t = body) \/
    waiting k (claim_task k node lease c).2 id body;
  claim_taken k node lease c t body : store_ok c -> (claim_task k node lease c).1 = Some (Some t) ->
    ~ waiting k (claim_task k node lease c).2 (bt_id t) body;
  claim_waited k node lease c id body : store_ok c -> waiting k (claim_task k node lease c).2 id body -> waiting k c id body;
  complete_returns id c : store_ok c -> (complete_task id c).1 = Some tt;
  fail_returns id e c : store_ok c -> (fail_task id e c).1 = Some tt;
  complete_bounded k id c : store_ok c -> (attempts_left k (complete_task id c).2 <= attempts_left k c)%nat;
  fail_bounded k id e c : store_ok c -> ~ finished c id -> (attempts_left k (fail_task id e c).2 <= attempts_left k c)%nat;
  complete_spent k id c : store_ok c -> spent k c id -> (attempts_left k (complete_task id c).2 < attempts_left k c)%nat;
  fail_spent k id e c : store_ok c -> spent k c id -> (attempts_left k (fail_task id e c).2 < attempts_left k c)%nat;
  complete_waiting k id id' c body : store_ok c -> id' <> id -> waiting k c id' body -> waiting k (complete_task id c).2 id' body;
  fail_waiting k id id' e c body : store_ok c -> id' <> id -> waiting k c id' body -> waiting k (fail_task id e c).2 id' body }.

(** ** The table *)

(** The environment of the statements: the clock at the n-th call, whether that
    call succeeds, and the identifier it would draw. *)
Class TaskEnv := { now_at : nat -> Z; succeeds : nat -> bool; uuid_at : nat -> Uuid }.

Inductive Backend := Sqlite | Postgres.
Record TaskDb (b : Backend) := { rows : list Task; calls : nat }.
Arguments rows {b}.
Arguments calls {b}.
Arguments Build_TaskDb {b}.

(** [ORDER BY priority DESC, created_at ASC]; of rows that agree on both, the
    first of the table is taken. *)
Definition precedes (a b : Task) : bool :=
  bool_decide (t_priority b < t_priority a \/ (t_priority b = t_priority a /\ t_created_at a <= t_created_at b)).

Definition fresh_task (id : Uuid) (k : string) (tbl : option Uuid) (payload : Json) (prio max_attempts now : Z) : Task :=
  {| t_id := id; t_kind := k; t_table_id := tbl; t_payload := payload; t_priority := prio; t_status := Pending;
     t_attempt := 0; t_max_attempts := max_attempts; t_claim_expires_at := None; t_claimed_by := None;
     t_last_error := None; t_created_at := now; t_updated_at := now |}.

Definition claimed_task (status : TaskStatus) (attempt : Z) (node : Uuid) (expires now : Z) (t : Task) : Task :=
  {| t_id := t_id t; t_kind := t_kind t; t_table_id := t_table_id t; t_payload := t_payload t;
     t_priority := t_priority t; t_status := status; t_attempt := attempt;
     t_max_attempts := t_max_attempts t; t_claim_expires_at := Some expires; t_claimed_by := Some node;
     t_last_error := t_last_error t; t_created_at := t_created_at t; t_updated_at := now |}.

Definition handed_out (expires : Z) (t : Task) : BackgroundTask :=
  {| bt_id := t_id t; bt_kind := t_kind t; bt_table_id := t_table_id t; bt_payload := t_payload t;
     bt_priority := t_priority t; bt_attempt := t_attempt t + 1; bt_max_attempts := t_max_attempts t;
     bt_claim_expires_at := expires |}.

Definition with_id (id : Uuid) (t : Task) : bool := bool_decide (t_id t = id).
Definition expired (now : Z) (t : Task) : bool :=
  match t_claim_expires_at t with Some e => bool_decide (e < now) | None => false end.

(** [lease] in whole seconds, as both catalogs bind it. *)
Definition lease_end (now lease : Z) : Z := now + lease * 10 ^ 9.

Section Statements.
  Context `{TaskEnv}.

(** One statement, or transaction, at the current call: it reads the clock,
    and either takes effect and returns, or fails and changes nothing. *)
Definition statement {A b} (f : Z -> list Task -> A * list Task) (db : TaskDb b) : option A * TaskDb b :=
  let n := calls db in
  if succeeds n then
    let '(r, l) := f (now_at n) (rows db) in (Some r, {| rows := l; calls := S n |})
  else (None, {| rows := rows db; calls := S n |}).

Definition insert_task {b} (max_attempts : Z) (k : string) (tbl : option Uuid) (payload : Json) (prio : Z)
    (db : TaskDb b) : option Uuid * TaskDb b :=
  let id := uuid_at (calls db) in
  statement (fun now l => (id, l ++ [fresh_task id k tbl payload prio max_attempts now])) db.

(** *** SQLite *)

Definition sqlite_submit_task := @insert_task Sqlite 5.

Definition sqlite_claimable (k : string) (now : Z) (t : Task) : bool :=
  bool_decide (t_kind t = k) && bool_decide (t_status t = Pending \/ t_status t = Running) &&
  (bool_decide (t_claim_expires_at t = None) || expired now t).

Definition sqlite_claim (k : string) (node : Uuid) (lease now : Z) (l : list Task) : option BackgroundTask * list Task :=
  match first_by precedes (filter (fun t => sqlite_claimable k now t = true) l) with
  | None => (None, l)
  | Some row =>
      let guard t := with_id (t_id row) t && bool_decide (t_status t = Pending \/ t_status t = Running) in
      let l' := update_rows guard (claimed_task Running (t_attempt row + 1) node (lease_end now lease) now) l in
      if decide (rows_affected guard l <> 1%nat) then (None, l')
      else (Some (handed_out (lease_end now lease) row), l')
  end.
Definition sqlite_claim_task (k : string) (node : Uuid) (lease : Z) : TaskDb Sqlite -> option (option BackgroundTask) * TaskDb Sqlite :=
  statement (sqlite_claim k node lease).

(** [UPDATE background_tasks SET status = 'done', updated_at = ? WHERE id = ?] *)
Definition sqlite_completed (now : Z) (t : Task) : Task :=
  {| t_id := t_id t; t_kind := t_kind t; t_table_id := t_table_id t; t_payload := t_payload t;
     t_priority := t_priority t; t_status := Done; t_attempt := t_attempt t; t_max_attempts := t_max_attempts t;
     t_claim_expires_at := t_claim_expires_at t; t_claimed_by := t_claimed_by t; t_last_error := t_last_error t;
     t_created_at := t_created_at t; t_updated_at := now |}.
Definition sqlite_complete_task (id : Uuid) : TaskDb Sqlite -> option unit * TaskDb Sqlite :=
  statement (fun now l => (tt, update_rows (with_id id) (sqlite_completed now) l)).

(** Requeue if attempts remain, else mark failed. *)
Definition sqlite_failed (e : string) (now : Z) (t : Task) : Task :=
  {| t_id := t_id t; t_kind := t_kind t; t_table_id := t_table_id t; t_payload := t_payload t;
     t_priority := t_priority t; t_status := if decide (t_attempt t < t_max_attempts t) then Pending else Failed;
     t_attempt := t_attempt t; t_max_attempts := t_max_attempts t; t_claim_expires_at := None;
     t_claimed_by := t_claimed_by t; t_last_error := Some e; t_created_at := t_created_at t; t_updated_at := now |}.
Definition sqlite_fail_task (id : Uuid) (e : string) : TaskDb Sqlite -> option unit * TaskDb Sqlite :=
  statement (fun now l => (tt, update_rows (with_id id) (sqlite_failed e now) l)).

(** *** Postgres *)

Definition pg_submit_task := @insert_task Postgres 3.

Definition pg_claimable (k : string) (now : Z) (t : Task) : bool :=
  bool_decide (t_kind t = k) &&
  (bool_decide (t_status t = Pending) || (bool_decide (t_status t = Claimed) && expired now t)).

Definition pg_claim (k : string) (node : Uuid) (lease now : Z) (l : list Task) : option BackgroundTask * list Task :=
  match first_by precedes (filter (fun t => pg_claimable k now t = true) l) with
  | None => (None, l)
  | Some row =>
      (Some (handed_out (lease_end now lease) row),
       update_rows (with_id (t_id row))
         (fun t => claimed_task Claimed (t_attempt t + 1) node (lease_end now lease) now t) l)
  end.
Definition pg_claim_task (k : string) (node : Uuid) (lease : Z) : TaskDb Postgres -> option (option BackgroundTask) * TaskDb Postgres :=
  statement (pg_claim k node lease).

(** Only a claimed row is completed. *)
Definition pg_completed (now : Z) (t : Task) : Task :=
  {| t_id := t_id t; t_kind := t_kind t; t_table_id := t_table_id t; t_payload := t_payload t;
     t_priority := t_priority t; t_status := Done; t_attempt := t_attempt t; t_max_attempts := t_max_attempts t;
     t_claim_expires_at := None; t_claimed_by := t_claimed_by t; t_last_error := t_last_error t;
     t_created_at := t_created_at t; t_updated_at := now |}.
Definition pg_complete_task (id : Uuid) : TaskDb Postgres -> option unit * TaskDb Postgres :=
  statement (fun now l =>
    (tt, update_rows (fun t => with_id id t && bool_decide (t_status t = Claimed)) (pg_completed now) l)).

Definition pg_failed (e : string) (now : Z) (t : Task) : Task :=
  {| t_id := t_id t; t_kind := t_kind t; t_table_id := t_table_id t; t_payload := t_payload t;
     t_priority := t_priority t; t_status := if decide (t_max_attempts t <= t_attempt t) then Failed else Pending;
     t_attempt := t_attempt t; t_max_attempts := t_max_attempts t; t_claim_expires_at := None;
     t_claimed_by := None; t_last_error := Some e; t_created_at := t_created_at t; t_updated_at := now |}.
Definition pg_fail_task (id : Uuid) (e : string) : TaskDb Postgres -> option unit * TaskDb Postgres :=
  statement (fun now l => (tt, update_rows (with_id id) (pg_failed e now) l)).
End Statements.

#[export] Instance sqlite_tasks `{TaskEnv} : TaskCatalog (TaskDb Sqlite) := {
  submit_task := sqlite_submit_task; claim_task := sqlite_claim_task;
  complete_task := sqlite_complete_task; fail_task := sqlite_fail_task }.
#[export] Instance pg_tasks `{TaskEnv} : TaskCatalog (TaskDb Postgres) := {
  submit_task := pg_submit_task; claim_task := pg_claim_task;
  complete_task := pg_complete_task; fail_task := pg_fail_task }.

(** * Both catalogs implement the task store contract

    The invariant of the table (identifiers are distinct and drawn by earlier
    calls, a pending row holds no lease), what an update does to the rows, and
    the instances of [TaskCatalogLaws] for SQLite and Postgres when no
    statement fails. *)

(** The order of claims. *)
#[export] Instance precedes_total : ClaimOrder precedes.
Proof.
  split.
  - intros a b. unfold precedes. rewrite !bool_decide_eq_true. lia.
  - intros a b c. unfold precedes. rewrite !bool_decide_eq_true. lia.
Qed.

(** ** The invariant and the abstract view *)

Definition claimed_status (b : Backend) : TaskStatus := match b with Sqlite => Running | Postgres => Claimed end.

Definition task_weight (b : Backend) (k : string) (t : Task) : nat :=
  if decide (t_kind t = k /\ (t_status t = Pending \/ t_status t = claimed_status b))
  then S (Z.to_nat (t_max_attempts t - t_attempt t)) else 0%nat.

Definition db_attempts_left {b} (k : string) (db : TaskDb b) : nat := sum_list_with (task_weight b k) (rows db).

Definition task_waits (k : string) (t : Task) : Prop := t_kind t = k /\ t_status t = Pending.
Definition task_spent (b : Backend) (k : string) (t : Task) : Prop :=
  t_kind t = k /\ t_status t = claimed_status b /\ t_max_attempts t <= t_attempt t.

Definition db_waiting {b} (k : string) (db : TaskDb b) (id : Uuid) (body : Json) : Prop :=
  exists t, t ∈ rows db /\ t_id t = id /\ t_payload t = body /\ task_waits k t.
Definition db_spent {b} (k : string) (db : TaskDb b) (id : Uuid) : Prop :=
  exists t, t ∈ rows db /\ t_id t = id /\ task_spent b k t.

Definition db_finished {b} (db : TaskDb b) (id : Uuid) : Prop :=
  exists t, t ∈ rows db /\ t_id t = id /\ t_status t = Done.

(** [Uuid::new_v4] never draws an identifier twice, and no statement fails. *)
Class ReliableEnv `{TaskEnv} := {
  uuid_inj i j : uuid_at i = uuid_at j -> i = j;
  no_failure n : succeeds n = true }.

Section Table.
  Context `{TaskEnv}.

Record row_ok (b : Backend) (n : nat) (t : Task) : Prop := {
  ro_id : exists i, (i < n)%nat /\ t_id t = uuid_at i;
  ro_status : t_status t = Pending \/ t_status t = claimed_status b \/ t_status t = Done \/ t_status t = Failed;
  ro_lease : t_status t = Pending -> t_claim_expires_at t = None;
  ro_failed : t_status t = Failed -> t_max_attempts t <= t_attempt t }.

Record db_ok {b} (db : TaskDb b) : Prop := {
  do_ids : NoDup (t_id <$> rows db);
  do_rows : Forall (row_ok b (calls db)) (rows db) }.

Lemma row_ok_S b n t : row_ok b n t -> row_ok b (S n) t.
Proof. intros [(i & Hi & Hid) Hs Hl Hf]. split; [|done..]. exists i. split; [lia|done]. Qed.

Lemma db_same_id {b} (db : TaskDb b) t t' :
  db_ok db -> t ∈ rows db -> t' ∈ rows db -> t_id t = t_id t' -> t = t'.
Proof. intros [Hnd _]. by apply same_key. Qed.

Lemma update_ok {b} (db : TaskDb b) guard f :
  (forall t, t_id (f t) = t_id t) ->
  (forall t, guard t = true -> t_status (f t) = Pending \/ t_status (f t) = claimed_status b \/
     t_status (f t) = Done \/ t_status (f t) = Failed) ->
  (forall t, guard t = true -> t_status (f t) = Pending -> t_claim_expires_at (f t) = None) ->
  (forall t, guard t = true -> t_status (f t) = Failed -> t_max_attempts (f t) <= t_attempt (f t)) ->
  db_ok db -> db_ok (b := b) {| rows := update_rows guard f (rows db); calls := S (calls db) |}.
Proof.
  intros Hid Hs Hl Hf [Hnd Hr]. split; simpl.
  - by rewrite update_rows_fmap.
  - apply (update_rows_Forall (row_ok b (S (calls db)))); [by eapply Forall_impl, row_ok_S| |done].
    intros t [(i & Hi & He) _ _ _] Hg. split; [|by apply Hs|by apply Hl|by apply Hf]. exists i. by rewrite Hid.
Qed.

Lemma unchanged_ok {b} (db : TaskDb b) : db_ok db -> db_ok (b := b) {| rows := rows db; calls := S (calls db) |}.
Proof. intros [Hnd Hr]. split; [done|]. by eapply Forall_impl, row_ok_S. Qed.

Lemma insert_ok `{!ReliableEnv} {b} (db : TaskDb b) k tbl payload prio mx now :
  db_ok db ->
  db_ok (b := b) {| rows := rows db ++ [fresh_task (uuid_at (calls db)) k tbl payload prio mx now]; calls := S (calls db) |}.
Proof.
  intros [Hnd Hr]. split; simpl.
  - rewrite fmap_app. apply NoDup_app. split_and!; [done| |apply NoDup_singleton].
    intros id (t & -> & Ht)%list_elem_of_fmap Hin%list_elem_of_singleton.
    rewrite Forall_forall in Hr. destruct (Hr t Ht) as [(i & Hi & He) _ _ _]. simpl in Hin.
    rewrite He in Hin. apply uuid_inj in Hin. lia.
  - apply Forall_app. split; [by eapply Forall_impl, row_ok_S|]. constructor; [|constructor].
    split; [|by left|done..]. exists (calls db). split; [lia|done].
Qed.

Lemma update_finished {b} (db : TaskDb b) guard f id :
  (forall t, guard t = true -> t_status (f t) = Done -> t_id (f t) = t_id t /\ t_status t = Done) ->
  db_finished (b := b) {| rows := update_rows guard f (rows db); calls := S (calls db) |} id -> db_finished db id.
Proof.
  intros Hf (t' & (t & Ht & ->)%elem_of_update_rows & Hid & Hd). exists t. split; [done|].
  destruct (guard t) eqn:Hg; [|done]. destruct (Hf t Hg Hd) as [<- ?]. done.
Qed.

(** An update that touches only the rows of one identifier. *)
Lemma update_waiting {b} (db : TaskDb b) guard f id k id' body :
  (forall t, guard t = true -> t_id t = id) -> id' <> id -> db_waiting k db id' body ->
  db_waiting (b := b) k {| rows := update_rows guard f (rows db); calls := S (calls db) |} id' body.
Proof.
  intros Hg Hne (t & Ht & Hid & Hb & Hw). exists t. split_and!; [|done..]. apply elem_of_update_rows. exists t.
  split; [done|]. destruct (guard t) eqn:E; [|done]. apply Hg in E. congruence.
Qed.
End Table.

(** ** Claims *)

(** What a claim does: nothing when no row is claimable, else one claimable row
    is handed out and loses an attempt. *)
Definition claim_effect (b : Backend) (claimable : Task -> bool) (l : list Task) (r : option BackgroundTask) (l' : list Task) : Prop :=
  (r = None /\ l' = l /\ forall t, t ∈ l -> claimable t = false) \/
  exists row guard f node expires now,
    row ∈ l /\ claimable row = true /\ r = Some (handed_out expires row) /\ l' = update_rows guard f l /\
    guard row = true /\ (forall t, guard t = true -> t_id t = t_id row) /\
    (forall t, t_id (f t) = t_id t /\ t_status (f t) = claimed_status b) /\
    f row = claimed_task (claimed_status b) (t_attempt row + 1) node expires now row.

Lemma sqlite_claim_effect `{TaskEnv} k node lease now (db : TaskDb Sqlite) : db_ok db ->
  claim_effect Sqlite (sqlite_claimable k now) (rows db) (sqlite_claim k node lease now (rows db)).1
    (sqlite_claim k node lease now (rows db)).2.
Proof.
  intros [Hnd _]. unfold sqlite_claim.
  destruct (first_by _) as [row|] eqn:Hf.
  - apply first_by_elem, elem_of_where in Hf as [Hc Hrow].
    assert (bool_decide (t_status row = Pending \/ t_status row = Running) = true) as Hs.
    { unfold sqlite_claimable in Hc. rewrite !andb_true_iff in Hc. naive_solver. }
    assert (with_id (t_id row) row = true) as Hw by (by apply bool_decide_eq_true).
    assert (forall t, with_id (t_id row) t && bool_decide (t_status t = Pending \/ t_status t = Running) = true ->
              t_id t = t_id row) as Hg by (by intros t [?%bool_decide_eq_true _]%andb_true_iff).
    rewrite decide_False by (intros Hn; apply Hn, (rows_affected_one t_id _ _ row); [done..|]; cbn beta; by rewrite Hw, Hs).
    right. simpl. eexists row, _, _, node, (lease_end now lease), now. split_and!; try done. cbn beta. by rewrite Hw, Hs.
  - left. simpl. split_and!; [done..|]. by apply (first_by_where_None precedes).
Qed.

Lemma pg_claim_effect `{TaskEnv} k node lease now (db : TaskDb Postgres) : db_ok db ->
  claim_effect Postgres (pg_claimable k now) (rows db) (pg_claim k node lease now (rows db)).1
    (pg_claim k node lease now (rows db)).2.
Proof.
  intros [Hnd _]. unfold pg_claim.
  destruct (first_by _) as [row|] eqn:Hf.
  - apply first_by_elem, elem_of_where in Hf as [Hc Hrow].
    right. simpl. eexists row, _, _, node, (lease_end now lease), now. split_and!; try done.
    + by apply bool_decide_eq_true.
    + by intros t ?%bool_decide_eq_true.
  - left. simpl. split_and!; [done..|]. by apply (first_by_where_None precedes).
Qed.

(** The laws of a claim, for either catalog. *)
Section Claims.
  Context `{TaskEnv} {b : Backend} (k : string) (claimable : Task -> bool).
  Context (claimable_active : forall t, claimable t = true ->
    t_kind t = k /\ (t_status t = Pending \/ t_status t = claimed_status b)).
  Context (waiting_claimable : forall n t, row_ok b n t -> task_waits k t -> claimable t = true).
  Context (db : TaskDb b) (Hok : db_ok db) (r : option BackgroundTask) (l' : list Task).
  Context (Heff : claim_effect b claimable (rows db) r l').

Abbreviation after := ({| rows := l'; calls := S (calls db) |} : TaskDb b).

Lemma claim_effect_row row (guard : Task -> bool) :
  row ∈ rows db -> (forall t, guard t = true -> t_id t = t_id row) -> forall t, t ∈ rows db -> guard t = true -> t = row.
Proof. intros Hrow Hg t Ht Hgt. eapply db_same_id; eauto. Qed.

Lemma claim_effect_ok : db_ok after.
Proof.
  destruct Heff as [(-> & -> & _)|(row & guard & f & node & e & now & Hrow & Hc & -> & -> & Hgr & Hg & Hf & Hfr)].
  - by apply unchanged_ok.
  - apply update_ok; [apply Hf|intros t _; right; left; apply Hf| | |done]; intros t _ Hs; exfalso; destruct (Hf t) as [_ H2];
      rewrite H2 in Hs; by destruct b.
Qed.

Lemma claim_weight row node e now : claimable row = true ->
  (task_weight b k (claimed_task (claimed_status b) (t_attempt row + 1) node e now row) <= task_weight b k row)%nat /\
  (t_attempt row < t_max_attempts row ->
   (task_weight b k (claimed_task (claimed_status b) (t_attempt row + 1) node e now row) < task_weight b k row)%nat).
Proof.
  intros Hc. destruct (claimable_active _ Hc) as [Hk Hs]. unfold task_weight. simpl.
  rewrite decide_True by auto. rewrite decide_True by auto. split; lia.
Qed.

Lemma claim_effect_bounded : (db_attempts_left k after <= db_attempts_left k db)%nat.
Proof.
  destruct Heff as [(-> & -> & _)|(row & guard & f & node & e & now & Hrow & Hc & -> & -> & Hgr & Hg & Hf & Hfr)]; [done|].
  apply update_rows_sum_le. intros t Ht Hgt.
  rewrite (claim_effect_row row guard Hrow Hg t Ht Hgt), Hfr. by apply claim_weight.
Qed.

Lemma claim_effect_progress t : r = Some t ->
  (db_attempts_left k after < db_attempts_left k db)%nat \/ db_spent k after (bt_id t).
Proof.
  destruct Heff as [(-> & _)|(row & guard & f & node & e & now & Hrow & Hc & -> & -> & Hgr & Hg & Hf & Hfr)]; [done|].
  intros [= <-]. destruct (decide (t_attempt row < t_max_attempts row)) as [Hlt|Hge].
  - left. apply (update_rows_sum_lt _ _ _ _ row); [|done|done|].
    + intros t Ht Hgt. rewrite (claim_effect_row row guard Hrow Hg t Ht Hgt), Hfr. by apply claim_weight.
    + rewrite Hfr. by apply claim_weight.
  - right. exists (f row). split_and!.
    + apply elem_of_update_rows. exists row. by rewrite Hgr.
    + simpl. apply Hf.
    + rewrite Hfr. destruct (claimable_active _ Hc) as [Hk _]. unfold task_spent. simpl. split_and!; [done..|lia].
Qed.

Lemma claim_effect_spent id : db_spent k db id -> db_spent k after id.
Proof.
  destruct Heff as [(-> & -> & _)|(row & guard & f & node & e & now & Hrow & Hc & -> & -> & Hgr & Hg & Hf & Hfr)]; [done|].
  intros (t & Ht & Hid & Hs). destruct (guard t) eqn:Hgt.
  - pose proof (claim_effect_row row guard Hrow Hg t Ht Hgt) as ->. exists (f row). split_and!.
    + apply elem_of_update_rows. exists row. by rewrite Hgr.
    + rewrite <-Hid. apply Hf.
    + rewrite Hfr. destruct Hs as (H1 & _ & H3). unfold task_spent. simpl. split_and!; [done..|lia].
  - exists t. split_and!; [|done..]. apply elem_of_update_rows. exists t. by rewrite Hgt.
Qed.

Lemma claim_effect_unfinished t : r = Some t -> ~ db_finished db (bt_id t).
Proof.
  destruct Heff as [(-> & _)|(row & guard & f & node & e & now & Hrow & Hc & -> & _)]; [done|].
  intros [= <-] (t' & Ht & Hid & Hd). simpl in Hid. pose proof (db_same_id db t' row Hok Ht Hrow Hid) as ->.
  destruct (claimable_active _ Hc) as [_ Hs]. rewrite Hd in Hs. destruct b, Hs; done.
Qed.

Lemma claim_effect_finished id : db_finished after id -> db_finished db id.
Proof.
  destruct Heff as [(-> & -> & _)|(row & guard & f & node & e & now & Hrow & Hc & -> & -> & Hgr & Hg & Hf & Hfr)]; [done|].
  apply update_finished. intros t _ Hd. exfalso. destruct (Hf t) as [_ H2]. rewrite H2 in Hd. by destruct b.
Qed.

Lemma claim_effect_dry id body : r = None -> ~ db_waiting k db id body.
Proof.
  destruct Heff as [(_ & _ & Hn)|(row & guard & f & node & e & now & Hrow & Hc & -> & _)]; [|done].
  intros _ (t & Ht & _ & _ & Hw). destruct Hok as [_ Hr]. rewrite Forall_forall in Hr.
  pose proof (waiting_claimable _ t (Hr t Ht) Hw) as Hc. by rewrite (Hn t Ht) in Hc.
Qed.

Lemma claim_effect_waiting id body : db_waiting k db id body ->
  (exists t, r = Some t /\ bt_id t = id /\ bt_payload t = body) \/ db_waiting k after id body.
Proof.
  destruct Heff as [(-> & -> & _)|(row & guard & f & node & e & now & Hrow & Hc & -> & -> & Hgr & Hg & Hf & Hfr)]; [by right|].
  intros Hw. destruct (decide (id = t_id row)) as [->|Hne]; [left|right; by apply (update_waiting db guard f (t_id row))].
  destruct Hw as (t & Ht & Hid & Hb & _). rewrite (db_same_id db t row Hok Ht Hrow Hid) in Hb. by eexists.
Qed.

Lemma claim_effect_waited id body : db_waiting k after id body -> db_waiting k db id body.
Proof.
  destruct Heff as [(-> & -> & _)|(row & guard & f & node & e & now & Hrow & Hc & -> & -> & Hgr & Hg & Hf & Hfr)]; [done|].
  intros (t' & (t & Ht & ->)%elem_of_update_rows & Hid & Hb & Hw). destruct (guard t); [|by exists t].
  destruct Hw as [_ Hs], (Hf t) as [_ H2]. rewrite H2 in Hs. by destruct b.
Qed.

Lemma claim_effect_taken t body : r = Some t -> ~ db_waiting k after (bt_id t) body.
Proof.
  destruct Heff as [(-> & _)|(row & guard & f & node & e & now & Hrow & Hc & -> & -> & Hgr & Hg & Hf & Hfr)]; [done|].
  intros [= <-] (t' & (u & Ht & ->)%elem_of_update_rows & Hid & _ & Hw). simpl in Hid. destruct (guard u) eqn:Hgt.
  - destruct Hw as [_ Hs], (Hf u) as [_ H2]. rewrite H2 in Hs. by destruct b.
  - rewrite (db_same_id db u row Hok Ht Hrow Hid) in Hgt. congruence.
Qed.
End Claims.

(** ** Settling *)

(** An update that settles the task [id]: it finishes a spent row. *)
Record settles (b : Backend) (id : Uuid) (guard : Task -> bool) (f : Task -> Task) : Prop := {
  st_guard t : guard t = true -> t_id t = id;
  st_id t : t_id (f t) = t_id t;
  st_status t : guard t = true -> t_status (f t) = Pending \/ t_status (f t) = claimed_status b \/
    t_status (f t) = Done \/ t_status (f t) = Failed;
  st_lease t : guard t = true -> t_status (f t) = Pending -> t_claim_expires_at (f t) = None;
  st_failed t : guard t = true -> t_status (f t) = Failed -> t_max_attempts (f t) <= t_attempt (f t);
  st_spent k t : t_id t = id -> task_spent b k t -> guard t = true /\ (task_weight b k (f t) < task_weight b k t)%nat }.

Section Settle.
  Context `{TaskEnv} {b : Backend} (id : Uuid) (guard : Task -> bool) (f : Task -> Task).
  Context (Hset : settles b id guard f) (db : TaskDb b) (Hok : db_ok db).

Abbreviation after := ({| rows := update_rows guard f (rows db); calls := S (calls db) |} : TaskDb b).

Lemma settle_ok : db_ok after.
Proof. destruct Hset. by apply update_ok. Qed.

Lemma settle_bounded k : (forall t, t ∈ rows db -> guard t = true -> (task_weight b k (f t) <= task_weight b k t)%nat) ->
  (db_attempts_left k after <= db_attempts_left k db)%nat.
Proof. apply update_rows_sum_le. Qed.

Lemma settle_spent k : db_spent k db id -> (db_attempts_left k after < db_attempts_left k db)%nat.
Proof.
  intros (t & Ht & Hid & Hs). destruct (st_spent _ _ _ _ Hset k t Hid Hs) as [Hg Hw].
  apply (update_rows_sum_lt _ _ _ _ t); [|done..]. intros t' Ht' Hg'.
  rewrite (db_same_id db t' t Hok Ht' Ht) by (by rewrite Hid; apply (st_guard _ _ _ _ Hset)). lia.
Qed.

Lemma settle_waiting k id' body : id' <> id -> db_waiting k db id' body -> db_waiting k after id' body.
Proof. intros Hne. apply (update_waiting db guard f id); [apply (st_guard _ _ _ _ Hset)|done]. Qed.
End Settle.

Lemma weight_finished b k t : t_status t = Done \/ t_status t = Failed -> task_weight b k t = 0%nat.
Proof. intros Hs. unfold task_weight. rewrite decide_False; [done|]. destruct b, Hs as [Hs|Hs]; rewrite Hs; naive_solver. Qed.

Lemma weight_spent b k t : task_spent b k t -> task_weight b k t = 1%nat.
Proof.
  intros (Hk & Hs & Hle). unfold task_weight. rewrite decide_True by auto.
  by replace (Z.to_nat (t_max_attempts t - t_attempt t)) with 0%nat by lia.
Qed.

(** Failing a row leaves an unfinished row no heavier; a row with no attempt
    left is finished. *)
Lemma weight_le_active b k t t' :
  t_kind t' = t_kind t -> t_attempt t' = t_attempt t -> t_max_attempts t' = t_max_attempts t ->
  (t_status t = Pending \/ t_status t = claimed_status b) -> (task_weight b k t' <= task_weight b k t)%nat.
Proof.
  intros Hk Ha Hm Hs. unfold task_weight. rewrite Hk, Ha, Hm.
  case_decide as H1; [|lia]. rewrite decide_True; [done|naive_solver].
Qed.

(** ** The instances *)

Section Instances.
  Context `{TaskEnv} {Hrel : ReliableEnv}.

Lemma statement_ok {A b} (f : Z -> list Task -> A * list Task) (db : TaskDb b) :
  statement f db =
    (Some (f (now_at (calls db)) (rows db)).1,
     {| rows := (f (now_at (calls db)) (rows db)).2; calls := S (calls db) |}).
Proof. unfold statement. rewrite no_failure. by destruct (f _ _). Qed.

Lemma sqlite_claimable_active k now t : sqlite_claimable k now t = true ->
  t_kind t = k /\ (t_status t = Pending \/ t_status t = claimed_status Sqlite).
Proof. unfold sqlite_claimable. rewrite !andb_true_iff, !bool_decide_eq_true. naive_solver. Qed.

Lemma sqlite_waiting_claimable k now n t : row_ok Sqlite n t -> task_waits k t -> sqlite_claimable k now t = true.
Proof.
  intros [_ _ Hl _] [Hk Hs]. unfold sqlite_claimable.
  rewrite !andb_true_iff, orb_true_iff, !bool_decide_eq_true. auto.
Qed.

Lemma pg_claimable_active k now t : pg_claimable k now t = true ->
  t_kind t = k /\ (t_status t = Pending \/ t_status t = claimed_status Postgres).
Proof. unfold pg_claimable. rewrite !andb_true_iff, orb_true_iff, andb_true_iff, !bool_decide_eq_true. naive_solver. Qed.

Lemma pg_waiting_claimable k now n t : row_ok Postgres n t -> task_waits k t -> pg_claimable k now t = true.
Proof. intros _ [Hk Hs]. unfold pg_claimable. rewrite !andb_true_iff, orb_true_iff, !bool_decide_eq_true. auto. Qed.

(** Failing an unfinished row leaves it no heavier. *)
Lemma failed_weight b n k t t' : row_ok b n t -> t_status t <> Done ->
  t_kind t' = t_kind t -> t_attempt t' = t_attempt t -> t_max_attempts t' = t_max_attempts t ->
  (t_status t' = Failed \/ t_attempt t < t_max_attempts t) -> (task_weight b k t' <= task_weight b k t)%nat.
Proof.
  intros [_ Hs _ Hf] Hd Hk Ha Hm Hs'. destruct Hs as [Hs|[Hs|[Hs|Hs]]]; [apply weight_le_active; auto..|done|].
  destruct Hs' as [Hs'|Hlt]; [|specialize (Hf Hs); lia]. rewrite weight_finished by auto. lia.
Qed.

Lemma unfinished_row {b} (db : TaskDb b) id t : ~ db_finished db id -> t ∈ rows db -> t_id t = id -> t_status t <> Done.
Proof. intros Hn Ht Hid Hd. apply Hn. by exists t. Qed.

Lemma db_row_ok {b} (db : TaskDb b) t : db_ok db -> t ∈ rows db -> row_ok b (calls db) t.
Proof. intros [_ Hr]. rewrite Forall_forall in Hr. apply Hr. Qed.

Lemma insert_waits {b} (db : TaskDb b) k tbl payload prio mx now :
  db_waiting (b := b) k {| rows := rows db ++ [fresh_task (uuid_at (calls db)) k tbl payload prio mx now];
                           calls := S (calls db) |} (uuid_at (calls db)) payload.
Proof. eexists. split_and!; [apply elem_of_app; right; left|done..]. Qed.

Lemma sqlite_completes id now : settles Sqlite id (with_id id) (sqlite_completed now).
Proof.
  split; simpl; try done; [by intros t ?%bool_decide_eq_true|auto|].
  intros k t Hid Hs. split; [by apply bool_decide_eq_true|].
  rewrite (weight_finished _ _ (sqlite_completed now t)), (weight_spent _ _ _ Hs) by auto. lia.
Qed.

Lemma sqlite_fails id e now : settles Sqlite id (with_id id) (sqlite_failed e now).
Proof.
  split; simpl; try done; [by intros t ?%bool_decide_eq_true|intros t _; case_decide; auto|intros t _; case_decide; intros ?; [congruence|lia]|].
  intros k t Hid Hs. split; [by apply bool_decide_eq_true|]. rewrite (weight_spent _ _ _ Hs).
  rewrite weight_finished; [lia|]. simpl. destruct Hs as (_ & _ & Hle). rewrite decide_False by lia. auto.
Qed.

Lemma pg_completes id now :
  settles Postgres id (fun t => with_id id t && bool_decide (t_status t = Claimed)) (pg_completed now).
Proof.
  split; simpl; try done; [by intros t [?%bool_decide_eq_true _]%andb_true_iff|auto|].
  intros k t Hid Hs. split; [unfold with_id; by rewrite !bool_decide_eq_true_2 by first [done|apply Hs]|].
  rewrite (weight_finished _ _ (pg_completed now t)), (weight_spent _ _ _ Hs) by auto. lia.
Qed.

Lemma pg_fails id e now : settles Postgres id (with_id id) (pg_failed e now).
Proof.
  split; simpl; try done; [by intros t ?%bool_decide_eq_true|intros t _; case_decide; auto|intros t _; case_decide; intros ?; [lia|congruence]|].
  intros k t Hid Hs. split; [by apply bool_decide_eq_true|]. rewrite (weight_spent _ _ _ Hs).
  rewrite weight_finished; [lia|]. simpl. destruct Hs as (_ & _ & Hle). rewrite decide_True by lia. auto.
Qed.

#[local] Hint Resolve sqlite_completes sqlite_fails pg_completes pg_fails insert_ok insert_waits : tasks.
#[local] Hint Resolve sqlite_claim_effect pg_claim_effect sqlite_claimable_active pg_claimable_active : tasks.
#[local] Hint Resolve sqlite_waiting_claimable pg_waiting_claimable : tasks.

Ltac task_statement :=
  intros; simpl in *;
  unfold sqlite_submit_task, pg_submit_task, insert_task, sqlite_claim_task, sqlite_complete_task, sqlite_fail_task,
    pg_claim_task, pg_complete_task, pg_fail_task in *;
  rewrite ?statement_ok in *; simpl in *;
  try match goal with H : Some _ = Some _ |- _ => injection H as H end.

#[export, refine] Instance sqlite_tasks_laws : TaskCatalogLaws (TaskDb Sqlite) := {
  store_ok := db_ok; finished := db_finished; waiting := db_waiting; spent := db_spent; attempts_left := db_attempts_left }.
Proof.
  all: task_statement.
  - eauto with tasks.
  - eapply claim_effect_ok; eauto with tasks.
  - eapply settle_ok; eauto with tasks.
  - eapply settle_ok; eauto with tasks.
  - eauto with tasks.
  - eauto.
  - eapply claim_effect_progress; eauto with tasks.
  - eapply claim_effect_unfinished; eauto with tasks.
  - eapply claim_effect_finished; eauto with tasks.
  - eapply update_finished; [|done]. intros t _. simpl. by case_decide.
  - eapply claim_effect_bounded; eauto with tasks.
  - eapply claim_effect_spent; eauto with tasks.
  - eapply (claim_effect_dry k (sqlite_claimable k (now_at (calls c)))); eauto with tasks.
  - match goal with Hok : db_ok c, Hw : db_waiting _ _ _ _ |- _ =>
      destruct (claim_effect_waiting _ _ c Hok _ _ (sqlite_claim_effect k node lease (now_at (calls c)) c Hok) _ _ Hw)
        as [(t & Ht & ?)|?]; [left; exists t; split; congruence|by right] end.
  - eapply claim_effect_taken; eauto with tasks.
  - eapply claim_effect_waited; eauto with tasks.
  - done.
  - done.
  - eapply settle_bounded; intros t _ _. rewrite weight_finished by auto. lia.
  - eapply settle_bounded; eauto with tasks; intros t Ht Hid%bool_decide_eq_true.
    eapply failed_weight; [by eapply db_row_ok|by eapply unfinished_row|done..|]. simpl. case_decide; [by right|by left].
  - eapply settle_spent; eauto with tasks.
  - eapply settle_spent; eauto with tasks.
  - eapply settle_waiting; eauto with tasks.
  - eapply settle_waiting; eauto with tasks.
Defined.

#[export, refine] Instance pg_tasks_laws : TaskCatalogLaws (TaskDb Postgres) := {
  store_ok := db_ok; finished := db_finished; waiting := db_waiting; spent := db_spent; attempts_left := db_attempts_left }.
Proof.
  all: task_statement.
  - eauto with tasks.
  - eapply claim_effect_ok; eauto with tasks.
  - eapply settle_ok; eauto with tasks.
  - eapply settle_ok; eauto with tasks.
  - eauto with tasks.
  - eauto.
  - eapply claim_effect_progress; eauto with tasks.
  - eapply claim_effect_unfinished; eauto with tasks.
  - eapply claim_effect_finished; eauto with tasks.
  - eapply update_finished; [|done]. intros t _. simpl. by case_decide.
  - eapply claim_effect_bounded; eauto with tasks.
  - eapply claim_effect_spent; eauto with tasks.
  - eapply (claim_effect_dry k (pg_claimable k (now_at (calls c)))); eauto with tasks.
  - match goal with Hok : db_ok c, Hw : db_waiting _ _ _ _ |- _ =>
      destruct (claim_effect_waiting _ _ c Hok _ _ (pg_claim_effect k node lease (now_at (calls c)) c Hok) _ _ Hw)
        as [(t & Ht & ?)|?]; [left; exists t; split; congruence|by right] end.
  - eapply claim_effect_taken; eauto with tasks.
  - eapply claim_effect_waited; eauto with tasks.
  - done.
  - done.
  - eapply settle_bounded; intros t _ _. rewrite weight_finished by auto. lia.
  - eapply settle_bounded; eauto with tasks; intros t Ht Hid%bool_decide_eq_true.
    eapply failed_weight; [by eapply db_row_ok|by eapply unfinished_row|done..|]. simpl. case_decide; [by left|right; lia].
  - eapply settle_spent; eauto with tasks.
  - eapply settle_spent; eauto with tasks.
  - eapply settle_waiting; eauto with tasks.
  - eapply settle_waiting; eauto with tasks.
Defined.
End Instances.
