(* ===== verification/TaskQueue.v ===== *)
(** * The internal queue and its worker ([pensieve-queue])

    [Queue::submit] and [Queue::barrier] of [lib.rs], and the worker of
    [worker.rs]: batches collected from the channel, in-process retries,
    settling of durable rows, watermarks, replay from the store.  The store is
    any [TaskCatalog], the handler any [BatchHandler].  What depends on timing
    is an argument: how many jobs arrive before the linger deadline, and which
    branch the worker's [select!] takes. *)

From stdpp Require Import base gmap strings list.
From Stdlib Require Import ZArith NArith Lia.
From S2P Require Import Prelude Arrow TaskStore.

Local Open Scope N_scope.

Inductive QueueError := Full (name : string) | Closed (name : string) | Store.

(** Flush and batch tuning; durations in milliseconds. *)
Record QueueConfig := {
  name : string; max_batch : nat; linger : N; channel_cap : nat; max_retries : nat;
  barrier_timeout : N; poll_interval : N }.

Definition default_config : QueueConfig :=
  {| name := "queue"; max_batch := 64; linger := 50; channel_cap := 1024; max_retries := 3;
     barrier_timeout := 2000; poll_interval := 2000 |}.

(** [QueueConfig::from_env]: [num] reads an unsigned number from the
    environment variable of a key, [PREFIX_KEY]. *)
Definition from_env (nm prefix : string) (num : string -> option N) : QueueConfig :=
  let var key := num (prefix +:+ "_" +:+ key) in
  {| name := nm;
     max_batch := match var "MAX_BATCH" with Some v => N.to_nat (N.max v 1) | None => max_batch default_config end;
     linger := default (linger default_config) (var "LINGER_MS");
     channel_cap := match var "CAP" with Some v => N.to_nat (N.max v 1) | None => channel_cap default_config end;
     max_retries := match var "MAX_RETRIES" with
                    | Some v => N.to_nat (v mod 2 ^ 32) | None => max_retries default_config end;
     barrier_timeout := default (barrier_timeout default_config) (var "BARRIER_MS");
     poll_interval := default (poll_interval default_config) (var "POLL_MS") |}.

Record Job := { seq : N; partition : string; payload : Json; job_durable : bool; task_id : option Uuid }.

(** Processes one batch in order; [false] fails the whole batch. *)
Class BatchHandler (HS : Type) := handle : list Job -> HS -> bool * HS.

(** Per-partition high-water marks. *)
Record Watermarks := { submitted : gmap string N; attempted : gmap string N }.

(** The state shared by the handles and the worker, the channel between them,
    the handler, and the history of the batches that have been attempted. *)
Record Queue (C HS : Type) := {
  cfg : QueueConfig; last_seq : N; marks : Watermarks; durable : option C;
  channel : list Job; rx_open : bool; handler : HS; history : list (list Job * bool) }.
Arguments cfg {C HS}.
Arguments last_seq {C HS}.
Arguments marks {C HS}.
Arguments durable {C HS}.
Arguments channel {C HS}.
Arguments rx_open {C HS}.
Arguments handler {C HS}.
Arguments history {C HS}.

(** [entry(p).or_insert(0)], raised to [n]. *)
Definition raise_mark (p : string) (n : N) (m : gmap string N) : gmap string N :=
  let e := default 0 (m !! p) in <[p := if decide (e < n) then n else e]> m.

Section Ops.
  Context {C HS : Type} `{TaskCatalog C} `{BatchHandler HS}.

Definition spawn (c : QueueConfig) (store : option C) (h : HS) : Queue C HS :=
  {| cfg := c; last_seq := 0; marks := {| submitted := ∅; attempted := ∅ |}; durable := store;
     channel := []; rx_open := true; handler := h; history := [] |}.

Definition with_seq (n : N) (s : Queue C HS) : Queue C HS :=
  {| cfg := cfg s; last_seq := n; marks := marks s; durable := durable s; channel := channel s;
     rx_open := rx_open s; handler := handler s; history := history s |}.
Definition with_marks (m : Watermarks) (s : Queue C HS) : Queue C HS :=
  {| cfg := cfg s; last_seq := last_seq s; marks := m; durable := durable s; channel := channel s;
     rx_open := rx_open s; handler := handler s; history := history s |}.
Definition with_durable (c : option C) (s : Queue C HS) : Queue C HS :=
  {| cfg := cfg s; last_seq := last_seq s; marks := marks s; durable := c; channel := channel s;
     rx_open := rx_open s; handler := handler s; history := history s |}.
Definition with_channel (ch : list Job) (s : Queue C HS) : Queue C HS :=
  {| cfg := cfg s; last_seq := last_seq s; marks := marks s; durable := durable s; channel := ch;
     rx_open := rx_open s; handler := handler s; history := history s |}.
Definition with_handler (h : HS) (s : Queue C HS) : Queue C HS :=
  {| cfg := cfg s; last_seq := last_seq s; marks := marks s; durable := durable s; channel := channel s;
     rx_open := rx_open s; handler := h; history := history s |}.
Definition attempt_recorded (batch : list Job) (ok : bool) (s : Queue C HS) : Queue C HS :=
  {| cfg := cfg s; last_seq := last_seq s; marks := marks s; durable := durable s; channel := channel s;
     rx_open := rx_open s; handler := handler s; history := history s ++ [(batch, ok)] |}.
Definition close_rx (s : Queue C HS) : Queue C HS :=
  {| cfg := cfg s; last_seq := last_seq s; marks := marks s; durable := durable s; channel := channel s;
     rx_open := false; handler := handler s; history := history s |}.

(** ** Submitting *)

(** [fetch_add(1) + 1] *)
Definition fetch_seq (s : Queue C HS) : N * Queue C HS := (last_seq s + 1, with_seq (last_seq s + 1) s).

Definition envelope (p : string) (body : Json) : Json := JObject [("partition", JString p); ("payload", body)].

(** The durable row, when one is asked for and there is a store. *)
Definition persist (p : string) (body : Json) (dur : bool) (s : Queue C HS) : (option Uuid + QueueError) * Queue C HS :=
  if dur then
    match durable s with
    | Some c =>
        let '(r, c) := submit_task (name (cfg s)) None (envelope p body) 0%Z c in
        (match r with Some id => inl (Some id) | None => inr Store end, with_durable (Some c) s)
    | None => (inl None, s)
    end
  else (inl None, s).

Inductive SendResult := Sent | ChannelFull | ChannelClosed.

Definition try_send (job : Job) (s : Queue C HS) : SendResult * Queue C HS :=
  if negb (rx_open s) then (ChannelClosed, s)
  else if decide (channel_cap (cfg s) <= length (channel s))%nat then (ChannelFull, s)
  else (Sent, with_channel (channel s ++ [job]) s).

Definition mark_submitted (job : Job) (s : Queue C HS) : Queue C HS :=
  with_marks {| submitted := raise_mark (partition job) (seq job) (submitted (marks s)); attempted := attempted (marks s) |} s.

(** A closed channel retires the row. *)
Definition retire (job : Job) (s : Queue C HS) : Queue C HS :=
  match durable s, task_id job with
  | Some c, Some id => with_durable (Some (complete_task id c).2) s
  | _, _ => s
  end.

Definition submit (p : string) (body : Json) (dur : bool) (s : Queue C HS) : (N + QueueError) * Queue C HS :=
  let '(n, s) := fetch_seq s in
  let '(r, s) := persist p body dur s in
  match r with
  | inr e => (inr e, s)
  | inl tid =>
      let job := {| seq := n; partition := p; payload := body; job_durable := dur; task_id := tid |} in
      let '(sent, s) := try_send job s in
      match sent with
      | Sent => (inl n, mark_submitted job s)
      | ChannelFull => (match tid with Some _ => inl n | None => inr (Full (name (cfg s))) end, s)
      | ChannelClosed => (inr (Closed (name (cfg s))), retire job s)
      end
  end.

(** ** Barriers *)

(** The submitted marks of the given partitions, or of all. *)
Definition targets (partitions : list string) (s : Queue C HS) : list (string * N) :=
  match partitions with
  | [] => map_to_list (submitted (marks s))
  | _ => omap (fun p => (fun n => (p, n)) <$> submitted (marks s) !! p) partitions
  end.

Definition reached (ts : list (string * N)) (s : Queue C HS) : bool :=
  forallb (fun pt => bool_decide (pt.2 <= default 0 (attempted (marks s) !! pt.1))) ts.

(** ** Processing a batch *)

(** The attempts of one batch: up to [max_retries] retries. *)
Fixpoint handle_retrying (fuel : nat) (attempt retries : nat) (batch : list Job) (h : HS) : infallible (bool * HS) :=
  match fuel with
  | O => OutOfFuel
  | S fuel =>
      let '(ok, h) := handle batch h in
      if ok then Ret (true, h)
      else
        let attempt := (attempt + 1)%nat in
        if decide (retries < attempt)%nat then Ret (false, h) else handle_retrying fuel attempt retries batch h
  end.

(** Durable rows are completed, or failed; an error is only logged. *)
Definition settle_job (ok : bool) (c : C) (job : Job) : C :=
  match task_id job with
  | None => c
  | Some id => if ok then (complete_task id c).2 else (fail_task id "batch failed after in-process retries" c).2
  end.
Definition settle_batch (ok : bool) (batch : list Job) (s : Queue C HS) : Queue C HS :=
  with_durable ((fun c => foldl (settle_job ok) c batch) <$> durable s) s.

Definition mark_attempted (batch : list Job) (s : Queue C HS) : Queue C HS :=
  with_marks {| submitted := submitted (marks s);
                attempted := foldl (fun m job => raise_mark (partition job) (seq job) m) (attempted (marks s)) batch |} s.

Definition process_batch (batch : list Job) (s : Queue C HS) : infallible (Queue C HS) :=
  '(ok, h) ← handle_retrying (max_retries (cfg s) + 1) 0 (max_retries (cfg s)) batch (handler s);
  let s := settle_batch ok batch (with_handler h s) in
  Ret (attempt_recorded batch ok (mark_attempted batch s)).

(** ** The worker *)

(** Extend a batch until it is full or the linger deadline: [arrived] receives
    complete before it. *)
Fixpoint collect_batch (limit arrived : nat) (batch ch : list Job) : list Job * list Job :=
  match arrived with
  | O => (batch, ch)
  | S arrived =>
      if decide (length batch < limit)%nat then
        match ch with
        | job :: ch => collect_batch limit arrived (batch ++ [job]) ch
        | [] => (batch, [])
        end
      else (batch, ch)
  end.

(** Drain what is queued, in [max_batch] chunks. *)
Fixpoint drain_channel (fuel : nat) (s : Queue C HS) : infallible (Queue C HS) :=
  match fuel with
  | O => OutOfFuel
  | S fuel =>
      match take (max_batch (cfg s)) (channel s) with
      | [] => Ret s
      | batch =>
          s ← process_batch batch (with_channel (drop (max_batch (cfg s)) (channel s)) s);
          drain_channel fuel s
      end
  end.

(** The partition and payload of an envelope. *)
Definition unwrap_payload (body : Json) : string * Json :=
  match body with
  | JObject _ => (default "default" (json_get body "partition" ≫= as_str), default JNull (json_get body "payload"))
  | other => ("default", other)
  end.

(** A store row as a job, with a fresh sequence number. *)
Definition job_from_task (task : BackgroundTask) (s : Queue C HS) : Job * Queue C HS :=
  let '(n, s) := fetch_seq s in
  let '(p, body) := unwrap_payload (bt_payload task) in
  ({| seq := n; partition := p; payload := body; job_durable := true; task_id := Some (bt_id task) |}, s).

Definition LEASE_SECS : Z := 120.

(** Claims until the batch is full or the store has nothing more. *)
Fixpoint claim_batch (room : nat) (node : Uuid) (batch : list Job) (s : Queue C HS) : list Job * Queue C HS :=
  match room, durable s with
  | S room, Some c =>
      let '(r, c) := claim_task (name (cfg s)) node LEASE_SECS c in
      let s := with_durable (Some c) s in
      match r with
      | Some (Some task) => let '(job, s) := job_from_task task s in claim_batch room node (batch ++ [job]) s
      | _ => (batch, s)
      end
  | _, _ => (batch, s)
  end.

(** Claim and process store-backed jobs until the store runs dry. *)
Fixpoint claim_from_store (fuel : nat) (node : Uuid) (s : Queue C HS) : infallible (Queue C HS) :=
  match fuel with
  | O => OutOfFuel
  | S fuel =>
      match claim_batch (max_batch (cfg s)) node [] s with
      | ([], s) => Ret s
      | (batch, s) => s ← process_batch batch s; claim_from_store fuel node s
      end
  end.

(** The branches of the worker's [select!]. *)
Inductive Event :=
  | Shutdown
  | Receive (arrived : nat)     (** a job is received, and [arrived] more before the deadline *)
  | Poll.

Definition is_some {A} (o : option A) : bool := match o with Some _ => true | None => false end.

(** One turn of the loop, and whether the worker goes on.  A receive from an
    empty channel means that every handle has been dropped. *)
Definition turn (fuel : nat) (node : Uuid) (e : Event) (s : Queue C HS) : infallible (bool * Queue C HS) :=
  match e with
  | Shutdown => s ← drain_channel fuel s; Ret (false, close_rx s)
  | Receive arrived =>
      match channel s with
      | [] => Ret (false, close_rx s)
      | first :: ch =>
          let '(batch, ch) := collect_batch (max_batch (cfg s)) arrived [first] ch in
          s ← process_batch batch (with_channel ch s);
          Ret (true, s)
      end
  | Poll =>
      if is_some (durable s) && bool_decide (channel s = []) then
        s ← claim_from_store fuel node s; Ret (true, s)
      else Ret (true, s)
  end.

(** The replay before live traffic. *)
Definition start_worker (fuel : nat) (node : Uuid) (s : Queue C HS) : infallible (Queue C HS) :=
  if is_some (durable s) then claim_from_store fuel node s else Ret s.
End Ops.
