(* ===== verification/TaskQueueSpec.v ===== *)
(** * Lemmas on the queue and its worker

    Processing a batch always returns and records the attempt; draining empties
    the channel; the replay from a store that honours its contract terminates
    and hands out every waiting task. *)

From stdpp Require Import base gmap strings list.
From Stdlib Require Import ZArith NArith Lia.
From S2P Require Import Prelude Arrow SqlTable TaskStore TaskQueue.

Local Open Scope N_scope.

(** ** Marks *)

Definition mark (m : gmap string N) (p : string) : N := default 0 (m !! p).

Lemma mark_raise p n m q : mark (raise_mark p n m) q = if decide (q = p) then N.max (mark m p) n else mark m q.
Proof.
  unfold mark, raise_mark. rewrite lookup_insert. repeat case_decide; subst; simpl; try done; lia.
Qed.

Lemma mark_raise_le p n m q : mark m q <= mark (raise_mark p n m) q.
Proof. rewrite mark_raise. case_decide; subst; lia. Qed.

Lemma raise_mark_Some p n m q t : raise_mark p n m !! q = Some t -> q = p /\ (t = n \/ m !! p = Some t \/ n = 0) \/ q <> p /\ m !! q = Some t.
Proof.
  unfold raise_mark. rewrite lookup_insert. case_decide as Hq; subst; [|by right].
  intros [= <-]. left. split; [done|]. destruct (m !! q) as [e|]; simpl; case_decide; auto. right. right. lia.
Qed.

Abbreviation raise_all marks0 batch := (foldl (fun m (job : Job) => raise_mark (partition job) (seq job) m) marks0 batch).

Lemma mark_raise_all_le (batch : list Job) m q : mark m q <= mark (raise_all m batch) q.
Proof.
  revert m. induction batch as [|j batch IH]; intros m; simpl; [lia|].
  etrans; [apply mark_raise_le|apply IH].
Qed.

Lemma mark_raise_all_elem (batch : list Job) m j : j ∈ batch -> seq j <= mark (raise_all m batch) (partition j).
Proof.
  revert m. induction batch as [|k batch IH]; intros m; [by intros ?%not_elem_of_nil|].
  simpl. intros [->|Hj]%elem_of_cons; [|by apply IH].
  etrans; [|apply mark_raise_all_le]. rewrite mark_raise, decide_True by done. lia.
Qed.

Lemma mark_raise_all_bound (batch : list Job) m q n :
  (forall j, j ∈ batch -> seq j < n) -> mark m q < n -> mark (raise_all m batch) q < n.
Proof.
  revert m. induction batch as [|k batch IH]; intros m Hb Hm; simpl; [done|].
  apply IH; [intros j Hj; apply Hb; by right|]. rewrite mark_raise.
  case_decide; [|done]. subst. pose proof (Hb k ltac:(left)). lia.
Qed.

Section Spec.
  Context {C HS : Type} `{TaskCatalog C} `{BatchHandler HS}.

(** ** Batches *)

Lemma handle_retrying_total attempt retries fuel batch (h : HS) : (attempt <= retries)%nat ->
  (retries < attempt + fuel)%nat -> exists ok h', handle_retrying fuel attempt retries batch h = Ret (ok, h').
Proof.
  revert attempt h. induction fuel as [|fuel IH]; intros attempt h Ha Hf; [lia|]. simpl.
  destruct (handle batch h) as [[] h']; [by eexists _, _|]. case_decide; [by eexists _, _|]. apply IH; lia.
Qed.

(** What processing a batch leaves: only the store, the handler, the attempted
    marks and the history change. *)
Record processed (batch : list Job) (s s' : Queue C HS) : Prop := {
  pr_cfg : cfg s' = cfg s;
  pr_seq : last_seq s' = last_seq s;
  pr_channel : channel s' = channel s;
  pr_open : rx_open s' = rx_open s;
  pr_submitted : submitted (marks s') = submitted (marks s);
  pr_attempted : attempted (marks s') = raise_all (attempted (marks s)) batch;
  pr_outcome : exists ok, history s' = history s ++ [(batch, ok)] /\
    durable s' = (fun c => foldl (settle_job ok) c batch) <$> durable s }.

Lemma process_batch_total batch (s : Queue C HS) : exists s', process_batch batch s = Ret s' /\ processed batch s s'.
Proof.
  unfold process_batch.
  destruct (handle_retrying_total 0 (max_retries (cfg s)) (max_retries (cfg s) + 1) batch (handler s))
    as (ok & h & ->); [lia..|]. simpl. eexists. split; [done|]. split; try done. by exists ok.
Qed.

Lemma concat_batches_app (h1 h2 : list (list Job * bool)) :
  concat (h1 ++ h2).*1 = concat h1.*1 ++ concat h2.*1.
Proof. by rewrite fmap_app, concat_app. Qed.

(** Draining attempts everything that is queued, in order. *)
Lemma drain_channel_total fuel (s : Queue C HS) : (1 <= max_batch (cfg s))%nat -> (length (channel s) < fuel)%nat ->
  exists s' h, drain_channel fuel s = Ret s' /\ channel s' = [] /\ history s' = history s ++ h /\
    concat h.*1 = channel s /\ submitted (marks s') = submitted (marks s) /\
    attempted (marks s') = raise_all (attempted (marks s)) (channel s) /\
    Forall (fun b => b.1 <> [] /\ (length b.1 <= max_batch (cfg s))%nat) h.
Proof.
  revert s. induction fuel as [|fuel IH]; intros s Hm Hf; [lia|]. simpl.
  destruct (take (max_batch (cfg s)) (channel s)) as [|j batch] eqn:Ht.
  - destruct (channel s) as [|x ch] eqn:Hc; [|destruct (max_batch (cfg s)); [lia|done]].
    exists s, []. rewrite app_nil_r. split_and!; done || constructor.
  - pose proof (take_drop (max_batch (cfg s)) (channel s)) as Hsplit. rewrite Ht in Hsplit.
    destruct (process_batch_total (j :: batch) (with_channel (drop (max_batch (cfg s)) (channel s)) s)) as (s1 & -> & Hp).
    simpl. destruct (pr_outcome _ _ _ Hp) as (ok & Hh & _).
    destruct (IH s1) as (s2 & h & -> & Hc & Hh2 & Hcat & Hsub & Hatt & Hall).
    { by rewrite (pr_cfg _ _ _ Hp). }
    { rewrite (pr_channel _ _ _ Hp). simpl. apply (f_equal length) in Hsplit. rewrite length_app in Hsplit. simpl in *. lia. }
    exists s2, ((j :: batch, ok) :: h). rewrite (pr_channel _ _ _ Hp) in *. rewrite (pr_cfg _ _ _ Hp) in Hall.
    cbn [channel with_channel history cfg] in *.
    split_and!; [done|done|by rewrite Hh2, Hh, <-app_assoc|rewrite fmap_cons; cbn [concat fst]; by rewrite Hcat| |..].
    + by rewrite Hsub, (pr_submitted _ _ _ Hp).
    + rewrite Hatt, (pr_attempted _ _ _ Hp). cbn [marks attempted with_channel]. by rewrite <-foldl_app, Hsplit.
    + constructor; [|done]. split; [done|]. cbn [fst]. rewrite <-Ht, length_take. lia.
Qed.

Lemma collect_batch_app limit arrived batch ch :
  (collect_batch limit arrived batch ch).1 ++ (collect_batch limit arrived batch ch).2 = batch ++ ch.
Proof.
  revert batch ch. induction arrived as [|n IH]; intros batch ch; simpl; [done|].
  case_decide; [|done]. destruct ch as [|job ch]; [done|]. by rewrite IH, <-app_assoc.
Qed.

(** ** Replay from the store *)

Section Store.
  Context {Hlaws : TaskCatalogLaws C}.

Definition is_job_of (id : Uuid) (body : Json) (j : Job) : Prop :=
  task_id j = Some id /\ (partition j, payload j) = unwrap_payload body.
Definition job_of (id : Uuid) (body : Json) (batch : list Job) : Prop := exists j, j ∈ batch /\ is_job_of id body j.

(** After the claims of one batch: the store is sound, no job of the batch is
    finished, the first one cost an attempt or is the last of its task, and a
    task that waited is in the batch or still waits. *)
Record claims (k : string) (c : C) (batch : list Job) (c' : C) : Prop := {
  cl_ok : store_ok c';
  cl_left : (attempts_left k c' <= attempts_left k c)%nat;
  cl_unfinished id : finished c' id -> finished c id;
  cl_spent id : spent k c id -> spent k c' id;
  cl_jobs : Forall (fun j => exists id, task_id j = Some id /\ ~ finished c' id /\ forall body, ~ waiting k c' id body) batch;
  cl_waited id body : waiting k c' id body -> waiting k c id body;
  cl_first j rest : batch = j :: rest -> exists id, task_id j = Some id /\
    ((attempts_left k c' < attempts_left k c)%nat \/ spent k c' id);
  cl_waiting id body : waiting k c id body -> job_of id body batch \/ waiting k c' id body }.

(** Only the store and the sequence counter differ. *)
Record claimed_from (s s' : Queue C HS) (c' : C) : Prop := {
  cf_durable : durable s' = Some c';
  cf_cfg : cfg s' = cfg s;
  cf_marks : marks s' = marks s;
  cf_channel : channel s' = channel s;
  cf_handler : handler s' = handler s;
  cf_open : rx_open s' = rx_open s;
  cf_history : history s' = history s }.

Lemma job_from_task_spec task (s : Queue C HS) : exists j, job_from_task task s = (j, with_seq (last_seq s + 1) s) /\
  is_job_of (bt_id task) (bt_payload task) j /\ seq j = last_seq s + 1.
Proof. unfold job_from_task, is_job_of. simpl. destruct (unwrap_payload (bt_payload task)); by eexists. Qed.

Lemma claims_nil k c : store_ok c -> claims k c [] c.
Proof. intros Hok. split; try done; auto. Qed.

Lemma claims_cons k c node lease task c1 batch c2 j : store_ok c -> claim_task k node lease c = (Some (Some task), c1) ->
  is_job_of (bt_id task) (bt_payload task) j -> claims k c1 batch c2 -> claims k c (j :: batch) c2.
Proof.
  intros Hok Hc Hj Hcl.
  pose proof (claim_bounded k node lease c Hok) as Hb. pose proof (claim_progress k node lease c task Hok) as Hp.
  pose proof (claim_unfinished k node lease c task Hok) as Hu.
  pose proof (fun id => claim_finished k node lease c id Hok) as Hf.
  pose proof (fun id => claim_spent k node lease c id Hok) as Hs.
  pose proof (fun id body => claim_waiting k node lease c id body Hok) as Hw.
  pose proof (fun body => claim_taken k node lease c task body Hok) as Ht.
  pose proof (fun id body => claim_waited k node lease c id body Hok) as Hwd.
  pose proof (proj1 Hj) as Hid. rewrite Hc in *. simpl in *. destruct Hcl as [Hok2 Hl Hfin Hsp Hjobs Hwd2 Hfirst Hwait]. split; auto.
  - lia.
  - constructor; [|done]. exists (bt_id task). split_and!; [done|intros Hn; apply (Hu eq_refl); auto|].
    intros body Hn%Hwd2. by apply (Ht body).
  - intros j' rest [= <- _]. exists (bt_id task). split; [done|].
    destruct (Hp eq_refl) as [Hlt|Hspent]; [left; lia|right; auto].
  - intros id body Hid0. destruct (Hw id body Hid0) as [(t & [= <-] & <- & <-)|Hid1]; [left; exists j; split; [left|done]|].
    destruct (Hwait id body Hid1) as [(j' & Hj' & Hid')|?]; [|by right]. left. exists j'. split; [by right|done].
Qed.

Lemma claim_batch_spec room node batch (s : Queue C HS) c : durable s = Some c -> store_ok c ->
  exists batch' s' c', claim_batch room node batch s = (batch ++ batch', s') /\ claimed_from s s' c' /\
    claims (name (cfg s)) c batch' c' /\
    (batch' = [] -> (0 < room)%nat -> forall id body, ~ waiting (name (cfg s)) c id body).
Proof.
  revert batch s c. induction room as [|room IH]; intros batch s c Hd Hok; simpl.
  - exists [], s, c. rewrite app_nil_r. split_and!; try done; [by apply claims_nil|lia].
  - rewrite Hd. pose proof (claim_ok (name (cfg s)) node LEASE_SECS c Hok) as Hok1.
    pose proof (claim_returns (name (cfg s)) node LEASE_SECS c Hok) as [r Hr].
    pose proof (fun id body => claim_dry (name (cfg s)) node LEASE_SECS c id body Hok) as Hdry.
    destruct (claim_task (name (cfg s)) node LEASE_SECS c) as [r' c1] eqn:Hc. simpl in *. subst r'.
    destruct r as [task|].
    + destruct (job_from_task_spec task (with_durable (Some c1) s)) as (j & -> & Hj & _).
      destruct (IH (batch ++ [j]) (with_seq (last_seq (with_durable (Some c1) s) + 1) (with_durable (Some c1) s)) c1 eq_refl Hok1)
        as (batch' & s' & c' & -> & Hfrom & Hcl & _).
      exists (j :: batch'), s', c'. rewrite <-app_assoc. split_and!; [done|by destruct Hfrom| |done].
      by eapply claims_cons.
    + exists [], (with_durable (Some c1) s), c1. rewrite app_nil_r. split_and!; [done..| |auto].
      pose proof (claim_bounded (name (cfg s)) node LEASE_SECS c Hok) as H1.
      pose proof (fun id => claim_finished (name (cfg s)) node LEASE_SECS c id Hok) as H2.
      pose proof (fun id => claim_spent (name (cfg s)) node LEASE_SECS c id Hok) as H3.
      pose proof (fun id body => claim_waited (name (cfg s)) node LEASE_SECS c id body Hok) as H4.
      rewrite Hc in *. split; auto; try done. intros id body Hid. by destruct (Hdry id body eq_refl).
Qed.

Lemma settle_job_spec k ok c j id : store_ok c -> task_id j = Some id -> (ok = false -> ~ finished c id) ->
  let c' := settle_job ok c j in
  store_ok c' /\ (attempts_left k c' <= attempts_left k c)%nat /\
  (ok = false -> forall id', finished c' id' -> finished c id') /\
  (spent k c id -> (attempts_left k c' < attempts_left k c)%nat) /\
  (forall id' body, id' <> id -> waiting k c id' body -> waiting k c' id' body).
Proof.
  intros Hok Hj Hf. unfold settle_job. rewrite Hj. destruct ok; simpl.
  - split_and!; [by apply complete_ok|by apply complete_bounded|done|by apply complete_spent|intros; by apply complete_waiting].
  - split_and!; [by apply fail_ok|apply fail_bounded; auto|intros _ id'; apply fail_finished|by apply fail_spent|
      intros; by apply fail_waiting].
Qed.

Lemma settle_jobs_spec k ok batch c : store_ok c ->
  Forall (fun j => exists id, task_id j = Some id /\ (ok = false -> ~ finished c id)) batch ->
  let c' := foldl (settle_job ok) c batch in
  store_ok c' /\ (attempts_left k c' <= attempts_left k c)%nat /\
  (forall id' body, waiting k c id' body -> (forall j, j ∈ batch -> task_id j <> Some id') -> waiting k c' id' body) /\
  (forall j rest id, batch = j :: rest -> task_id j = Some id -> spent k c id -> (attempts_left k c' < attempts_left k c)%nat).
Proof.
  revert c. induction batch as [|j batch IH]; intros c Hok Hall; simpl; [by auto|].
  apply Forall_cons in Hall as [(id & Hj & Hf) Hall].
  destruct (settle_job_spec k ok c j id Hok Hj Hf) as (Hok1 & Hle & Hfin & Hsp & Hw).
  destruct (IH (settle_job ok c j) Hok1) as (Hok2 & Hle2 & Hw2 & _).
  { eapply Forall_impl; [done|]. intros j' (id' & Hj' & Hf'). exists id'. split; [done|].
    intros Ho Hn. apply (Hf' Ho). auto. }
  split_and!; [done|lia| |].
  - intros id' body Hid' Hn. apply Hw2; [|intros x Hx; apply Hn; by right].
    apply Hw; [|done]. intros ->. apply (Hn j); [left|done].
  - intros j' rest id' [= <- _] Hj' Hspent. rewrite Hj in Hj'. injection Hj' as <-. specialize (Hsp Hspent). lia.
Qed.

(** The replay terminates, and attempts every task that waited. *)
Lemma claim_from_store_spec fuel node (s : Queue C HS) c : durable s = Some c -> store_ok c -> (1 <= max_batch (cfg s))%nat ->
  (attempts_left (name (cfg s)) c < fuel)%nat ->
  exists s' c' h, claim_from_store fuel node s = Ret s' /\ durable s' = Some c' /\ store_ok c' /\
    history s' = history s ++ h /\ cfg s' = cfg s /\ channel s' = channel s /\
    (attempts_left (name (cfg s)) c' <= attempts_left (name (cfg s)) c)%nat /\
    forall id body, waiting (name (cfg s)) c id body -> exists b, b ∈ h.*1 /\ job_of id body b.
Proof.
  revert s c. induction fuel as [|fuel IH]; intros s c Hd Hok Hm Hf; [lia|]. simpl.
  destruct (claim_batch_spec (max_batch (cfg s)) node [] s c Hd Hok) as (batch & s1 & c1 & Hcb & Hfrom & Hcl & Hdry).
  rewrite Hcb. simpl. destruct batch as [|j batch].
  - exists s1, c1, []. rewrite app_nil_r. destruct Hfrom, Hcl.
    split_and!; try done. intros id body Hw. by destruct (Hdry eq_refl Hm id body).
  - set (k := name (cfg s)) in *.
    destruct (process_batch_total (j :: batch) s1) as (s2 & -> & Hp). simpl.
    destruct (pr_outcome _ _ _ Hp) as (ok & Hh & Hd2). rewrite (cf_durable _ _ _ Hfrom) in Hd2. cbn [fmap option_fmap option_map] in Hd2.
    destruct (settle_jobs_spec k ok (j :: batch) c1 (cl_ok _ _ _ _ Hcl)) as (Hok2 & Hle2 & Hw2 & Hsp2).
    { eapply Forall_impl; [apply Hcl|]. intros j' (id & Hj & Hn & _). exists id. auto. }
    destruct (cl_first _ _ _ _ Hcl _ _ eq_refl) as (id1 & Hj1 & Hprog).
    assert (attempts_left k (foldl (settle_job ok) c1 (j :: batch)) < attempts_left k c)%nat as Hlt.
    { pose proof (cl_left _ _ _ _ Hcl). destruct Hprog as [Hlt|Hspent]; [lia|].
      specialize (Hsp2 _ _ _ eq_refl Hj1 Hspent). lia. }
    assert (cfg s2 = cfg s) as Hcfg by (rewrite (pr_cfg _ _ _ Hp); apply Hfrom).
    destruct (IH s2 _ Hd2 Hok2) as (s' & c' & h & -> & Hd' & Hok' & Hh' & Hcfg' & Hch' & Hle' & Hw').
    { by rewrite Hcfg. }
    { rewrite Hcfg. fold k. lia. }
    exists s', c', ((j :: batch, ok) :: h). rewrite Hcfg in *. fold k in Hle', Hw'. split_and!; try done.
    + rewrite Hh', Hh, (cf_history _ _ _ Hfrom), <-app_assoc. done.
    + rewrite Hch', (pr_channel _ _ _ Hp). apply Hfrom.
    + lia.
    + intros id body Hid. rewrite fmap_cons.
      destruct (cl_waiting _ _ _ _ Hcl id body Hid) as [Hin|Hid1]; [exists (j :: batch); split; [left|done]|].
      destruct (Hw' id body) as (b & Hb & Hjob); [|exists b; split; [by right|done]].
      apply Hw2; [done|]. intros x Hx Hxi. pose proof (cl_jobs _ _ _ _ Hcl) as Hjobs. rewrite Forall_forall in Hjobs.
      destruct (Hjobs x Hx) as (id' & Hid' & _ & Hnw). apply (Hnw body). congruence.
Qed.
End Store.
End Spec.
