(* ===== verification/TaskQueueSystem.v ===== *)
(** * The queue under concurrency

    Any number of clients submit and wait on barriers while the worker runs.
    One step is one access to a shared object: the sequence counter, the store,
    the channel or the watermarks; the handler runs between two of them.  The
    definitions of [TaskQueue] are the transitions; [sent], [marked] and
    [drained] record which jobs were placed on the channel, recorded as
    submitted, and attempted from the channel. *)

From stdpp Require Import base gmap strings list relations sorting.
From Stdlib Require Import ZArith NArith Lia.
From S2P Require Import Prelude Arrow TaskStore TaskQueue TaskQueueSpec.

Local Open Scope N_scope.

(** A call in progress on a [Queue] handle. *)
Inductive Client :=
  | Idle
  | Numbered (p : string) (body : Json) (dur : bool) (n : N)   (** [fetch_add] done *)
  | Ready (job : Job)                                          (** row written, not yet sent *)
  | OnChannel (job : Job)                                      (** sent, not yet marked *)
  | Waiting (ps : list string) (ts : list (string * N)) (before : list Job)
  | Released.                                                  (** the barrier returned [true] *)

(** What the worker is doing: waiting in [select!], collecting from the channel,
    claiming from the store, or through with the handler or the rows of a batch
    that came from the channel, the store or the final drain. *)
Inductive Origin := FromChannel | FromStore | FromDrain.
Inductive Worker :=
  | Selecting
  | Collecting (batch : list Job)
  | Claiming (batch : list Job)
  | Handled (o : Origin) (batch : list Job) (ok : bool)
  | Settled (o : Origin) (batch : list Job) (ok : bool)
  | Draining
  | Drained    (** the channel was found empty, and is not closed yet *)
  | Stopped.

Record System (C HS : Type) := {
  q : Queue C HS; clients : list Client; worker : Worker;
  sent : list Job; marked : list Job; drained : list Job }.
Arguments q {C HS}.
Arguments clients {C HS}.
Arguments worker {C HS}.
Arguments sent {C HS}.
Arguments marked {C HS}.
Arguments drained {C HS}.

Section System.
  Context {C HS : Type} `{TaskCatalog C} `{BatchHandler HS} (node : Uuid).

Definition handled (s : Queue C HS) (batch : list Job) : infallible (bool * HS) :=
  handle_retrying (max_retries (cfg s) + 1) 0 (max_retries (cfg s)) batch (handler s).

Definition resume (o : Origin) : Worker :=
  match o with FromChannel => Selecting | FromStore => Claiming [] | FromDrain => Draining end.

Definition from_channel (o : Origin) (batch : list Job) : list Job :=
  match o with FromStore => [] | _ => batch end.

(** The jobs of the channel that the worker holds. *)
Definition in_flight (w : Worker) : list Job :=
  match w with
  | Collecting batch => batch
  | Handled o batch _ | Settled o batch _ => from_channel o batch
  | _ => []
  end.

(** The batch is full, or the store hands out no task. *)
Definition claiming_ends (s : Queue C HS) (batch : list Job) (c c' : C) : Prop :=
  (max_batch (cfg s) <= length batch)%nat /\ c' = c \/
  (length batch < max_batch (cfg s))%nat /\
    exists r, claim_task (name (cfg s)) node LEASE_SECS c = (r, c') /\ forall t, r <> Some (Some t).

Inductive client_step : System C HS -> System C HS -> Prop :=
  | step_fetch s i p body dur n q' : clients s !! i = Some Idle -> fetch_seq (q s) = (n, q') ->
      client_step s {| q := q'; clients := <[i := Numbered p body dur n]> (clients s); worker := worker s;
                       sent := sent s; marked := marked s; drained := drained s |}
  | step_persist s i p body dur n r q' : clients s !! i = Some (Numbered p body dur n) -> persist p body dur (q s) = (r, q') ->
      client_step s {| q := q';
                       clients := <[i := match r with
                                         | inl tid => Ready {| seq := n; partition := p; payload := body;
                                                               job_durable := dur; task_id := tid |}
                                         | inr _ => Idle end]> (clients s); worker := worker s;
                       sent := sent s; marked := marked s; drained := drained s |}
  | step_send s i job q' : clients s !! i = Some (Ready job) -> try_send job (q s) = (Sent, q') ->
      client_step s {| q := q'; clients := <[i := OnChannel job]> (clients s); worker := worker s;
                       sent := sent s ++ [job]; marked := marked s; drained := drained s |}
  | step_full s i job q' : clients s !! i = Some (Ready job) -> try_send job (q s) = (ChannelFull, q') ->
      client_step s {| q := q'; clients := <[i := Idle]> (clients s); worker := worker s;
                       sent := sent s; marked := marked s; drained := drained s |}
  | step_closed s i job q' : clients s !! i = Some (Ready job) -> try_send job (q s) = (ChannelClosed, q') ->
      client_step s {| q := retire job q'; clients := <[i := Idle]> (clients s); worker := worker s;
                       sent := sent s; marked := marked s; drained := drained s |}
  | step_mark s i job : clients s !! i = Some (OnChannel job) ->
      client_step s {| q := mark_submitted job (q s); clients := <[i := Idle]> (clients s); worker := worker s;
                       sent := sent s; marked := marked s ++ [job]; drained := drained s |}
  | step_barrier s i ps : clients s !! i = Some Idle ->
      client_step s {| q := q s; clients := <[i := Waiting ps (targets ps (q s)) (marked s)]> (clients s); worker := worker s;
                       sent := sent s; marked := marked s; drained := drained s |}
  | step_released s i ps ts before : clients s !! i = Some (Waiting ps ts before) -> reached ts (q s) = true ->
      client_step s {| q := q s; clients := <[i := Released]> (clients s); worker := worker s;
                       sent := sent s; marked := marked s; drained := drained s |}
  | step_again s i : clients s !! i = Some Released ->
      client_step s {| q := q s; clients := <[i := Idle]> (clients s); worker := worker s;
                       sent := sent s; marked := marked s; drained := drained s |}
  | step_timeout s i ps ts before : clients s !! i = Some (Waiting ps ts before) ->
      client_step s {| q := q s; clients := <[i := Idle]> (clients s); worker := worker s;
                       sent := sent s; marked := marked s; drained := drained s |}.

Definition at_work (s : System C HS) (q' : Queue C HS) (w : Worker) : System C HS :=
  {| q := q'; clients := clients s; worker := w; sent := sent s; marked := marked s; drained := drained s |}.

(** The steps of a worker that is not told to stop. *)
Inductive worker_step : System C HS -> System C HS -> Prop :=
  | step_recv s first ch : worker s = Selecting -> channel (q s) = first :: ch ->
      worker_step s (at_work s (with_channel ch (q s)) (Collecting [first]))
  | step_poll s : worker s = Selecting -> is_some (durable (q s)) = true -> channel (q s) = [] ->
      worker_step s (at_work s (q s) (Claiming []))
  | step_more s batch job ch : worker s = Collecting batch -> (length batch < max_batch (cfg (q s)))%nat ->
      channel (q s) = job :: ch -> worker_step s (at_work s (with_channel ch (q s)) (Collecting (batch ++ [job])))
  | step_handle s batch ok h : worker s = Collecting batch -> handled (q s) batch = Ret (ok, h) ->
      worker_step s (at_work s (with_handler h (q s)) (Handled FromChannel batch ok))
  | step_claim s batch c c' task job q' : worker s = Claiming batch -> (length batch < max_batch (cfg (q s)))%nat ->
      durable (q s) = Some c -> claim_task (name (cfg (q s))) node LEASE_SECS c = (Some (Some task), c') ->
      job_from_task task (with_durable (Some c') (q s)) = (job, q') ->
      worker_step s (at_work s q' (Claiming (batch ++ [job])))
  | step_claimed s batch c c' ok h : worker s = Claiming batch -> durable (q s) = Some c -> claiming_ends (q s) batch c c' ->
      batch <> [] -> handled (q s) batch = Ret (ok, h) ->
      worker_step s (at_work s (with_handler h (with_durable (Some c') (q s))) (Handled FromStore batch ok))
  | step_dry s c c' : worker s = Claiming [] -> durable (q s) = Some c -> claiming_ends (q s) [] c c' ->
      worker_step s (at_work s (with_durable (Some c') (q s)) Selecting)
  | step_settle s o batch ok : worker s = Handled o batch ok ->
      worker_step s (at_work s (settle_batch ok batch (q s)) (Settled o batch ok))
  | step_attempted s o batch ok : worker s = Settled o batch ok ->
      worker_step s {| q := attempt_recorded batch ok (mark_attempted batch (q s)); clients := clients s; worker := resume o;
                       sent := sent s; marked := marked s; drained := drained s ++ from_channel o batch |}
  | step_drain s batch ok h : worker s = Draining -> batch = take (max_batch (cfg (q s))) (channel (q s)) -> batch <> [] ->
      handled (q s) batch = Ret (ok, h) ->
      worker_step s (at_work s (with_handler h (with_channel (drop (max_batch (cfg (q s))) (channel (q s))) (q s)))
                       (Handled FromDrain batch ok))
  | step_drained s : worker s = Draining -> take (max_batch (cfg (q s))) (channel (q s)) = [] ->
      worker_step s (at_work s (q s) Drained)
  | step_exit s : worker s = Drained -> worker_step s (at_work s (close_rx (q s)) Stopped).

(** Shutting down, or every handle dropped. *)
Inductive stop_step : System C HS -> System C HS -> Prop :=
  | step_shutdown s : worker s = Selecting -> stop_step s (at_work s (q s) Draining)
  | step_dropped s : worker s = Selecting -> channel (q s) = [] -> Forall (fun c => c = Idle \/ c = Released) (clients s) ->
      stop_step s {| q := close_rx (q s); clients := []; worker := Stopped;
                     sent := sent s; marked := marked s; drained := drained s |}.

Definition system_step (s s' : System C HS) : Prop := client_step s s' \/ worker_step s s' \/ stop_step s s'.

(** [n] handles on a queue whose worker replays the store first, if any. *)
Definition start (c : QueueConfig) (store : option C) (h : HS) (n : nat) : System C HS :=
  {| q := spawn c store h; clients := replicate n Idle;
     worker := if is_some store then Claiming [] else Selecting; sent := []; marked := []; drained := [] |}.
End System.

Arguments Client : clear implicits.
Arguments Worker : clear implicits.

(** * Invariants of the concurrent queue

    [accounted] holds of every reachable state: each job placed on the channel
    is attempted, held by the worker or queued, in that order, and the marks
    are those of jobs that were placed.  [in_order] holds as long as sequence
    numbers are drawn in the order in which jobs are placed. *)

Section Spec.
  Context {C HS : Type} `{TaskCatalog C} `{BatchHandler HS} (node : Uuid).

(** ** What the calls leave unchanged *)

Lemma persist_frame p body dur (s : Queue C HS) r s' : persist p body dur s = (r, s') ->
  marks s' = marks s /\ channel s' = channel s /\ cfg s' = cfg s /\ last_seq s' = last_seq s.
Proof.
  unfold persist. destruct dur, (durable s) as [c|]; try (by intros [= _ <-]).
  destruct (submit_task _ _ _ _ c). by intros [= _ <-].
Qed.

Lemma try_send_frame job (s : Queue C HS) r s' : try_send job s = (r, s') ->
  marks s' = marks s /\ cfg s' = cfg s /\ last_seq s' = last_seq s /\
  channel s' = match r with Sent => channel s ++ [job] | _ => channel s end /\
  ((length (channel s) <= channel_cap (cfg s))%nat -> (length (channel s') <= channel_cap (cfg s))%nat).
Proof.
  unfold try_send. destruct (rx_open s); simpl; [case_decide|]; intros [= <- <-]; simpl; try done.
  split_and!; try done. rewrite length_app. simpl. lia.
Qed.

Lemma retire_frame job (s : Queue C HS) : marks (retire job s) = marks s /\ cfg (retire job s) = cfg s /\
  last_seq (retire job s) = last_seq s /\ channel (retire job s) = channel s.
Proof. unfold retire. by destruct (durable s), (task_id job). Qed.

(** ** Jobs are accounted for *)

(** A barrier on [ps] covers the partition; on none, it covers all. *)
Definition covers (ps : list string) (p : string) : Prop := ps = [] \/ p ∈ ps.

(** What a client holds is numbered from one, and was placed once it is sent. *)
Definition client_ok (s : System C HS) (c : Client) : Prop :=
  match c with
  | Numbered _ _ _ n => 1 <= n
  | Ready job => 1 <= seq job
  | OnChannel job => job ∈ sent s /\ 1 <= seq job
  | Waiting ps ts before =>
      (forall p t, (p, t) ∈ ts -> exists j, j ∈ sent s /\ partition j = p /\ seq j = t) /\
      forall j, j ∈ before -> j ∈ sent s /\ (covers ps (partition j) -> exists t, (partition j, t) ∈ ts /\ seq j <= t)
  | _ => True
  end.

Record accounted (s : System C HS) : Prop := {
  ac_fifo : sent s = drained s ++ in_flight (worker s) ++ channel (q s);
  ac_cap : (length (channel (q s)) <= channel_cap (cfg (q s)))%nat;
  ac_drained j : j ∈ drained s -> seq j <= mark (attempted (marks (q s))) (partition j);
  ac_submitted p t : submitted (marks (q s)) !! p = Some t -> exists j, j ∈ sent s /\ partition j = p /\ seq j = t;
  ac_marked j : j ∈ marked s -> j ∈ sent s /\ exists t, submitted (marks (q s)) !! partition j = Some t /\ seq j <= t;
  ac_clients : Forall (client_ok s) (clients s) }.

Lemma client_ok_mono s s' c : (forall j, j ∈ sent s -> j ∈ sent s') -> client_ok s c -> client_ok s' c.
Proof.
  intros Hs. destruct c as [|p body dur n|job|job|ps ts before|]; simpl; auto; [naive_solver|].
  intros [Hts Hb]. split; [naive_solver|]. intros j Hj. destruct (Hb j Hj). auto.
Qed.

Lemma clients_ok_insert s s' i c : (forall j, j ∈ sent s -> j ∈ sent s') -> Forall (client_ok s) (clients s) -> client_ok s' c ->
  Forall (client_ok s') (<[i := c]> (clients s)).
Proof.
  intros Hs Hall Hc. apply Forall_insert; [|done]. eapply Forall_impl; [done|]. intros c'. by apply client_ok_mono.
Qed.

Lemma targets_submitted ps (s : Queue C HS) p t : (p, t) ∈ targets ps s -> submitted (marks s) !! p = Some t.
Proof.
  unfold targets. destruct ps as [|p0 ps]; [by intros ?%elem_of_map_to_list|].
  intros (p' & _ & Hp)%list_elem_of_omap. destruct (submitted (marks s) !! p') eqn:E; [|done].
  by injection Hp as <- <-.
Qed.

Lemma submitted_targets ps (s : Queue C HS) p t : covers ps p -> submitted (marks s) !! p = Some t -> (p, t) ∈ targets ps s.
Proof.
  intros Hc Hp. unfold targets. destruct ps as [|p0 ps]; [by apply elem_of_map_to_list|].
  destruct Hc as [|Hin]; [done|]. apply list_elem_of_omap. exists p. by rewrite Hp.
Qed.

Lemma raise_mark_marked p n m q t : m !! q = Some t -> exists t', raise_mark p n m !! q = Some t' /\ t <= t'.
Proof.
  intros Hq. unfold raise_mark. rewrite lookup_insert. case_decide as Hpq; [|by eexists].
  subst. rewrite Hq. simpl. eexists. split; [done|]. case_decide; lia.
Qed.

Lemma raise_mark_self p n m : exists t, raise_mark p n m !! p = Some t /\ n <= t.
Proof. unfold raise_mark. rewrite lookup_insert_eq. eexists. split; [done|]. case_decide; lia. Qed.

Lemma start_accounted cf (store : option C) (h : HS) n : accounted (start cf store h n).
Proof.
  split; simpl.
  - by destruct store.
  - lia.
  - by intros j ?%not_elem_of_nil.
  - intros p t. by rewrite lookup_empty.
  - by intros j ?%not_elem_of_nil.
  - apply Forall_forall. by intros c [-> _]%elem_of_replicate.
Qed.

Lemma client_step_accounted (s s' : System C HS) : client_step s s' -> accounted s -> accounted s'.
Proof.
  intros Hstep [Hf Hcap Hd Hs Hma Hc]. pose proof Hc as Hc'. rewrite Forall_lookup in Hc'.
  destruct Hstep as [s i p body dur n q' Hi Hq|s i p body dur n r q' Hi Hq|s i job q' Hi Hq|s i job q' Hi Hq
    |s i job q' Hi Hq|s i job Hi|s i ps Hi|s i ps ts before Hi Hr|s i Hi|s i ps ts before Hi]; specialize (Hc' _ _ Hi); simpl in *.
  - injection Hq as <- <-. split; simpl; auto. eapply clients_ok_insert; [|done|]; simpl; [done|lia].
  - apply persist_frame in Hq as (Hm & Hch & Hcf & _). split; simpl; rewrite ?Hm, ?Hch, ?Hcf; auto.
    eapply clients_ok_insert; [|done|]; [done|]. by destruct r.
  - apply try_send_frame in Hq as (Hm & Hcf & _ & Hch & Hb). split; simpl; rewrite ?Hm, ?Hcf; auto.
    + by rewrite Hch, Hf, <-!app_assoc.
    + intros p t Hp. destruct (Hs p t Hp) as (j & Hj & ?). exists j. split; [set_solver|done].
    + intros j Hj. destruct (Hma j Hj). split; [set_solver|done].
    + eapply clients_ok_insert; [|done|]; simpl; [set_solver|]. split; [set_solver|done].
  - apply try_send_frame in Hq as (Hm & Hcf & _ & Hch & _). split; simpl; rewrite ?Hm, ?Hch, ?Hcf; auto.
    by eapply clients_ok_insert.
  - apply try_send_frame in Hq as (Hm & Hcf & _ & Hch & _). destruct (retire_frame job q') as (Hm' & Hcf' & _ & Hch').
    split; simpl; rewrite ?Hm', ?Hch', ?Hcf', ?Hm, ?Hch, ?Hcf; auto. by eapply clients_ok_insert.
  - destruct Hc' as [Hsent Hpos]. split; simpl; auto; [| |by eapply clients_ok_insert].
    2: { intros j [Hj| ->%list_elem_of_singleton]%elem_of_app; [|split; [done|apply raise_mark_self]].
         destruct (Hma j Hj) as [? (t & Ht & Hle)]. split; [done|].
         destruct (raise_mark_marked (partition job) (seq job) _ _ _ Ht) as (t' & ? & ?). exists t'. split; [done|lia]. }
    intros p t [[-> [->|[Ht|Hz]]]|[_ Ht]]%raise_mark_Some; eauto; lia.
  - split; simpl; auto. eapply clients_ok_insert; [done..|]. simpl. split; [intros p t Hp%targets_submitted; eauto|].
    intros j Hj. destruct (Hma j Hj) as [? (t & Ht & Hle)]. split; [done|]. intros Hcov. exists t.
    split; [by apply submitted_targets|done].
  - split; simpl; auto. by eapply clients_ok_insert.
  - split; simpl; auto. by eapply clients_ok_insert.
  - split; simpl; auto. by eapply clients_ok_insert.
Qed.

Lemma job_from_task_frame task (qu : Queue C HS) j q' : job_from_task task qu = (j, q') ->
  marks q' = marks qu /\ channel q' = channel qu /\ cfg q' = cfg qu /\ last_seq q' = last_seq qu + 1 /\ seq j = last_seq qu + 1 /\
  durable q' = durable qu.
Proof. destruct (job_from_task_spec task qu) as (j' & -> & _ & Hj). by intros [= <- <-]. Qed.

Lemma in_flight_resume o : in_flight (resume o) = [].
Proof. by destruct o. Qed.

Lemma worker_step_accounted (s s' : System C HS) : worker_step node s s' -> accounted s -> accounted s'.
Proof.
  intros Hstep [Hf Hcap Hd Hs Hma Hc].
  assert (forall q' w, marks q' = marks (q s) -> cfg q' = cfg (q s) -> (length (channel q') <= length (channel (q s)))%nat ->
    sent s = drained s ++ in_flight w ++ channel q' -> accounted (at_work s q' w)) as Hwork
    by (intros q' w Hm Hcf Hle Hfl; split; simpl; rewrite ?Hm, ?Hcf; auto; lia).
  destruct Hstep as [s first ch Hw Hch|s Hw Hsome Hch|s batch job ch Hw Hl Hch|s batch ok h Hw Hh
    |s batch c c' task job q' Hw Hl Hdu Hcl Hj|s batch c c' ok h Hw Hdu Hend Hne Hh|s c c' Hw Hdu Hend
    |s o batch ok Hw|s o batch ok Hw|s batch ok h Hw -> Hne Hh|s Hw Hch|s Hw]; rewrite Hw in Hf; simpl in *.
  - apply Hwork; simpl; rewrite ?Hch; simpl; done || lia || by rewrite Hf, Hch.
  - by apply Hwork.
  - apply Hwork; simpl; rewrite ?Hch; simpl; done || lia || by rewrite Hf, Hch, <-app_assoc.
  - by apply Hwork.
  - apply job_from_task_frame in Hj as (Hm & Hch & Hcf & _). simpl in *. apply Hwork; try done; by rewrite Hch.
  - by apply Hwork.
  - by apply Hwork.
  - by apply Hwork.
  - split; simpl; auto.
    + rewrite in_flight_resume, Hf. by rewrite <-app_assoc.
    + intros j [Hj|Hj]%elem_of_app; [etrans; [by apply Hd|apply mark_raise_all_le]|].
      apply mark_raise_all_elem. by destruct o; [|apply not_elem_of_nil in Hj|].
  - apply Hwork; simpl; rewrite ?length_drop, ?take_drop; done || lia.
  - by apply Hwork.
  - by apply Hwork.
Qed.

Lemma stop_step_accounted (s s' : System C HS) : stop_step s s' -> accounted s -> accounted s'.
Proof. intros Hstep [Hf Hcap Hd Hs Hma Hc]. destruct Hstep as [s Hw|s Hw Hch _]; rewrite Hw in Hf; split; simpl; auto. Qed.

Lemma system_step_accounted (s s' : System C HS) : system_step node s s' -> accounted s -> accounted s'.
Proof.
  intros [Hst|[Hst|Hst]]; [by apply client_step_accounted|by apply worker_step_accounted|by apply stop_step_accounted].
Qed.

Lemma steps_accounted (s0 s : System C HS) : rtc (system_step node) s0 s -> accounted s0 -> accounted s.
Proof. induction 1; eauto using system_step_accounted. Qed.

(** ** Progress

    While no new job arrives, a worker that serves the channel empties it. *)

Definition serving (w : Worker) : Prop :=
  match w with
  | Selecting | Collecting _ | Handled FromChannel _ _ | Settled FromChannel _ _ => True
  | _ => False
  end.

Definition stage (w : Worker) : nat :=
  match w with Selecting => 0 | Settled _ _ _ => 1 | Handled _ _ _ => 2 | _ => 3 end.

Definition work_left (s : System C HS) : nat := 5 * length (channel (q s)) + stage (worker s).

Definition idle (s : System C HS) : Prop := worker s = Selecting /\ channel (q s) = [].

#[local] Instance idle_dec s : Decision (idle s).
Proof.
  refine (match worker s as w, channel (q s) as ch return Decision (w = Selecting /\ ch = []) with
          | Selecting, [] => left (conj eq_refl eq_refl) | _, _ => right _ end); by intros [].
Defined.

Lemma serving_progress (s : System C HS) : serving (worker s) -> ~ idle s -> exists s', worker_step node s s'.
Proof.
  intros Hserv Hidle. destruct (worker s) as [|batch|batch|o batch ok|o batch ok| | |] eqn:Hw; try done.
  - destruct (channel (q s)) as [|j ch] eqn:Hc; [by destruct Hidle|]. eexists. by eapply step_recv.
  - destruct (handle_retrying_total 0 (max_retries (cfg (q s))) (max_retries (cfg (q s)) + 1) batch (handler (q s)))
      as (ok & h & Hh); [lia..|]. eexists. by eapply step_handle.
  - eexists. by eapply step_settle.
  - eexists. by eapply step_attempted.
Qed.

Lemma serving_step (s s' : System C HS) : worker_step node s s' -> serving (worker s) -> ~ idle s ->
  serving (worker s') /\ (work_left s' < work_left s)%nat /\ clients s' = clients s /\
  sent s' = sent s /\ rx_open (q s') = rx_open (q s).
Proof.
  intros Hstep Hserv Hidle. unfold work_left.
  destruct Hstep as [s first ch Hw Hch|s Hw Hsome Hch|s batch job ch Hw Hl Hch|s batch ok h Hw Hh
    |s batch c c' task job q' Hw Hl Hdu Hcl Hj|s batch c c' ok h Hw Hdu Hend Hne Hh|s c c' Hw Hdu Hend
    |s o batch ok Hw|s o batch ok Hw|s batch ok h Hw -> Hne Hh|s Hw Hch|s Hw];
    rewrite ?Hw in *; try done; simpl; rewrite ?Hch; simpl; try (split_and!; done || lia).
  - by destruct Hidle.
  - destruct o; try done. simpl. split_and!; done || lia.
Qed.

Lemma serving_eventually_idle (s : System C HS) : serving (worker s) ->
  eventually (worker_step node) (fun s' => idle s' /\ clients s' = clients s /\ sent s' = sent s) s.
Proof.
  intros Hserv.
  apply (eventually_measure _ (fun s' => serving (worker s') /\ clients s' = clients s /\ sent s' = sent s) work_left); [..|done].
  - intros s' (_ & Hc & Hs). destruct (decide (idle s')); [by left|right; tauto].
  - intros s' (Hs' & Hc & Hse) Hn. apply serving_progress; [done|tauto].
  - intros s1 s2 (Hs1 & Hc & Hse) Hn Hst. destruct (serving_step s1 s2 Hst Hs1) as (? & ? & ? & ? & _); [tauto|].
    split_and!; congruence || done.
Qed.

(** When the channel is empty and the worker idle, every target is reached. *)
Lemma idle_reached (s : System C HS) i ps ts before : accounted s -> idle s -> clients s !! i = Some (Waiting ps ts before) ->
  reached ts (q s) = true.
Proof.
  intros [Hf _ Hd _ _ Hc] [Hw Hch] Hi. rewrite Hw, Hch in Hf. simpl in Hf. rewrite app_nil_r in Hf.
  rewrite Forall_lookup in Hc. specialize (Hc _ _ Hi). simpl in Hc. destruct Hc as [Hc _].
  apply forallb_forall. intros [p t] Hin%list_elem_of_In. destruct (Hc p t Hin) as (j & Hj & <- & <-).
  apply bool_decide_eq_true. apply Hd. by rewrite <-Hf.
Qed.

(** ** Sequence numbers in channel order *)

(** The jobs whose attempt is not recorded yet, those of the worker first. *)
Definition held (w : Worker) : list Job :=
  match w with
  | Collecting batch | Claiming batch | Handled _ batch _ | Settled _ batch _ => batch
  | _ => []
  end.
Definition unsettled (s : System C HS) : list Job := held (worker s) ++ channel (q s).

(** The number a client has drawn and not placed yet. *)
Definition pending (c : Client) : option N :=
  match c with Numbered _ _ _ n => Some n | Ready job => Some (seq job) | _ => None end.

(** A number is drawn only when no other is drawn and not placed, and by a
    replay only when nothing is queued. *)
Definition orderly (s s' : System C HS) : Prop :=
  last_seq (q s') <> last_seq (q s) ->
  (forall c, c ∈ clients s -> pending c = None) /\ (worker s' <> worker s -> channel (q s) = []).

Definition above (s : System C HS) (n : N) : Prop :=
  (forall j, j ∈ unsettled s -> seq j < n) /\ forall p, mark (attempted (marks (q s))) p < n.

Record in_order (s : System C HS) : Prop := {
  io_sorted : StronglySorted N.lt (seq <$> unsettled s);
  io_attempted j p : j ∈ unsettled s -> mark (attempted (marks (q s))) p < seq j;
  io_last : above s (last_seq (q s) + 1);
  io_pending i c n : clients s !! i = Some c -> pending c = Some n -> n <= last_seq (q s) /\ above s n;
  io_single i j c c' : clients s !! i = Some c -> clients s !! j = Some c' -> pending c <> None -> pending c' <> None -> i = j }.

(** A step that keeps the unsettled jobs and the attempted marks keeps the
    order, if it draws no number. *)
Lemma in_order_same (s s' : System C HS) : unsettled s' = unsettled s -> attempted (marks (q s')) = attempted (marks (q s)) ->
  last_seq (q s') = last_seq (q s) ->
  (forall i c, clients s' !! i = Some c -> pending c <> None ->
     exists c', clients s !! i = Some c' /\ pending c' = pending c) ->
  in_order s -> in_order s'.
Proof.
  intros Hu Ha Hl Hc [H1 H2 H3 H4 H5]. unfold above in *.
  split; unfold above; rewrite ?Hu, ?Ha, ?Hl; auto.
  - intros i c n Hi Hn. destruct (Hc i c Hi) as (c' & Hi' & Hp); [by rewrite Hn|]. apply (H4 i c' n Hi'). congruence.
  - intros i j c c' Hi Hj Hpi Hpj. destruct (Hc i c Hi Hpi) as (d & Hd & Ed), (Hc j c' Hj Hpj) as (d' & Hd' & Ed').
    apply (H5 i j d d'); congruence.
Qed.

Lemma pending_insert (s : System C HS) i c0 c : clients s !! i = Some c0 -> (pending c <> None -> pending c0 = pending c) ->
  forall j c', <[i := c]> (clients s) !! j = Some c' -> pending c' <> None ->
    exists d, clients s !! j = Some d /\ pending d = pending c'.
Proof.
  intros Hi Hp j c' Hj Hn. rewrite list_lookup_insert in Hj. case_decide as Hij; [|by exists c'].
  destruct Hij as [-> _]. injection Hj as <-. exists c0. auto.
Qed.

Lemma sorted_snoc (l : list N) n : StronglySorted N.lt l -> (forall m, m ∈ l -> m < n) -> StronglySorted N.lt (l ++ [n]).
Proof.
  induction 1 as [|x l Hs IH Hx]; intros Hn; simpl; [repeat constructor|].
  constructor; [apply IH; intros m Hm; apply Hn; by right|].
  apply Forall_app. split; [done|]. constructor; [|constructor]. apply Hn. left.
Qed.

Lemma sorted_app_lt (l1 l2 : list N) a b : StronglySorted N.lt (l1 ++ l2) -> a ∈ l1 -> b ∈ l2 -> a < b.
Proof.
  induction l1 as [|x l1 IH]; simpl; intros Hs Ha Hb; [by apply not_elem_of_nil in Ha|].
  apply StronglySorted_inv in Hs as [Hs Hx]. rewrite Forall_forall in Hx.
  apply elem_of_cons in Ha as [->|Ha]; [apply Hx, elem_of_app; by right|by apply IH].
Qed.

Lemma sorted_app_r (l1 l2 : list N) : StronglySorted N.lt (l1 ++ l2) -> StronglySorted N.lt l2.
Proof. induction l1 as [|x l1 IH]; [done|]. simpl. intros [Hs _]%StronglySorted_inv. auto. Qed.

Lemma fetch_in_order (s : System C HS) i p body dur : clients s !! i = Some Idle -> (forall c, c ∈ clients s -> pending c = None) ->
  in_order s ->
  in_order {| q := with_seq (last_seq (q s) + 1) (q s); clients := <[i := Numbered p body dur (last_seq (q s) + 1)]> (clients s);
              worker := worker s; sent := sent s; marked := marked s; drained := drained s |}.
Proof.
  intros Hi Hnone [H1 H2 [H3 H3'] H4 H5].
  assert (forall j c, <[i := Numbered p body dur (last_seq (q s) + 1)]> (clients s) !! j = Some c -> pending c <> None ->
    j = i /\ pending c = Some (last_seq (q s) + 1)) as Hpend.
  { intros j c Hj Hn. rewrite list_lookup_insert in Hj. case_decide as Hij.
    - destruct Hij as [-> _]. by injection Hj as <-.
    - destruct Hn. by apply Hnone, list_elem_of_lookup_2 with j. }
  split; simpl; unfold above, unsettled in *; simpl; auto.
  - split; [intros j Hj; specialize (H3 j Hj); lia|intros p'; specialize (H3' p'); lia].
  - intros j c n Hj Hn. destruct (Hpend j c Hj) as [_ Hc]; [by rewrite Hn|]. assert (n = last_seq (q s) + 1) as -> by congruence.
    by split.
  - intros j j' c c' Hj Hj' Hn Hn'. destruct (Hpend j c Hj Hn), (Hpend j' c' Hj' Hn'). congruence.
Qed.

Lemma send_in_order (s : System C HS) i job q' : clients s !! i = Some (Ready job) -> marks q' = marks (q s) ->
  last_seq q' = last_seq (q s) -> channel q' = channel (q s) ++ [job] -> in_order s ->
  in_order {| q := q'; clients := <[i := OnChannel job]> (clients s); worker := worker s;
              sent := sent s ++ [job]; marked := marked s; drained := drained s |}.
Proof.
  intros Hi Hm Hl Hch [H1 H2 [H3 H3'] H4 H5].
  destruct (H4 i _ (seq job) Hi eq_refl) as [Hle [Hab Hab']].
  assert (forall j c, <[i := OnChannel job]> (clients s) !! j = Some c -> pending c = None) as Hnone.
  { intros j c Hj. rewrite list_lookup_insert in Hj. case_decide as Hij; [destruct Hij as [-> _]; by injection Hj as <-|].
    destruct (pending c) as [n|] eqn:Hn; [|done]. destruct Hij. split; [|by apply lookup_lt_Some in Hi].
    apply (H5 i j (Ready job) c); [done..|by rewrite Hn]. }
  assert (unsettled {| q := q'; clients := <[i := OnChannel job]> (clients s); worker := worker s;
              sent := sent s ++ [job]; marked := marked s; drained := drained s |} = unsettled s ++ [job]) as Hu.
  { unfold unsettled. simpl. by rewrite Hch, app_assoc. }
  split; simpl; unfold above; rewrite ?Hu; simpl; rewrite ?Hm, ?Hl.
  - rewrite fmap_app. apply sorted_snoc; [done|]. by intros m (j & -> & Hj)%list_elem_of_fmap; apply Hab.
  - intros j p [Hj| ->%list_elem_of_singleton]%elem_of_app; auto.
  - split; [|auto]. intros j [Hj| ->%list_elem_of_singleton]%elem_of_app; [auto|lia].
  - intros j c n Hj Hn. by rewrite (Hnone j c Hj) in Hn.
  - intros j j' c c' Hj _ Hn. by rewrite (Hnone j c Hj) in Hn.
Qed.

Lemma client_step_in_order (s s' : System C HS) : client_step s s' -> orderly s s' -> in_order s -> in_order s'.
Proof.
  intros Hstep Hord Hin.
  destruct Hstep as [s i p body dur n q' Hi Hq|s i p body dur n r q' Hi Hq|s i job q' Hi Hq|s i job q' Hi Hq
    |s i job q' Hi Hq|s i job Hi|s i ps Hi|s i ps ts before Hi Hr|s i Hi|s i ps ts before Hi].
  - injection Hq as <- <-. apply fetch_in_order; [done| |done]. apply Hord. simpl. lia.
  - apply persist_frame in Hq as (Hm & Hch & _ & Hl). apply (in_order_same s); simpl; rewrite ?Hm, ?Hl; auto.
    + unfold unsettled. simpl. by rewrite Hch.
    + apply (pending_insert s i _ _ Hi). by destruct r.
  - apply try_send_frame in Hq as (Hm & _ & Hl & Hch & _). by apply send_in_order.
  - apply try_send_frame in Hq as (Hm & _ & Hl & Hch & _). apply (in_order_same s); simpl; rewrite ?Hm, ?Hl; auto.
    + unfold unsettled. simpl. by rewrite Hch.
    + by apply (pending_insert s i _ _ Hi).
  - apply try_send_frame in Hq as (Hm & _ & Hl & Hch & _). destruct (retire_frame job q') as (Hm' & _ & Hl' & Hch').
    apply (in_order_same s); simpl; rewrite ?Hm', ?Hl', ?Hm, ?Hl; auto.
    + unfold unsettled. simpl. by rewrite Hch', Hch.
    + by apply (pending_insert s i _ _ Hi).
  - apply (in_order_same s); auto. by apply (pending_insert s i _ _ Hi).
  - apply (in_order_same s); auto. by apply (pending_insert s i _ _ Hi).
  - apply (in_order_same s); auto. by apply (pending_insert s i _ _ Hi).
  - apply (in_order_same s); auto. by apply (pending_insert s i _ _ Hi).
  - apply (in_order_same s); auto. by apply (pending_insert s i _ _ Hi).
Qed.

(** A replay that draws a number while nothing is queued. *)
Lemma claim_in_order (s : System C HS) batch job q' : worker s = Claiming batch -> channel (q s) = [] ->
  (forall c, c ∈ clients s -> pending c = None) -> marks q' = marks (q s) -> channel q' = channel (q s) ->
  last_seq q' = last_seq (q s) + 1 -> seq job = last_seq (q s) + 1 -> in_order s -> in_order (at_work s q' (Claiming (batch ++ [job]))).
Proof.
  intros Hw Hch Hnone Hm Hch' Hl Hj [H1 H2 [H3 H3'] H4 H5].
  assert (unsettled (at_work s q' (Claiming (batch ++ [job]))) = unsettled s ++ [job]) as Hu.
  { unfold unsettled. simpl. by rewrite Hw, Hch', Hch, !app_nil_r. }
  split; simpl; unfold above; rewrite ?Hu; simpl; rewrite ?Hm, ?Hl.
  - rewrite fmap_app. apply sorted_snoc; [done|]. intros m (j & -> & Hin)%list_elem_of_fmap. rewrite Hj. by apply H3.
  - intros j p [Hin| ->%list_elem_of_singleton]%elem_of_app; [auto|]. rewrite Hj. apply H3'.
  - split; [|intros p; specialize (H3' p); lia].
    intros j [Hin| ->%list_elem_of_singleton]%elem_of_app; [specialize (H3 j Hin); lia|lia].
  - intros i c n Hi Hn. by rewrite (Hnone c) in Hn by (by eapply list_elem_of_lookup_2).
  - intros i j c c' Hi _ Hn. by rewrite (Hnone c) in Hn by (by eapply list_elem_of_lookup_2).
Qed.

(** Recording the attempt of the batch held. *)
Lemma attempted_in_order (s : System C HS) o batch ok : worker s = Settled o batch ok -> in_order s ->
  in_order {| q := attempt_recorded batch ok (mark_attempted batch (q s)); clients := clients s; worker := resume o;
              sent := sent s; marked := marked s; drained := drained s ++ from_channel o batch |}.
Proof.
  intros Hw [H1 H2 [H3 H3'] H4 H5]. unfold above, unsettled in *. rewrite Hw in *. simpl in *.
  rewrite fmap_app in H1.
  assert (held (resume o) = []) as Hr by (by destruct o).
  split; unfold above, unsettled; simpl; rewrite ?Hr; simpl; auto.
  - by eapply sorted_app_r.
  - intros j p Hj. apply mark_raise_all_bound; [|apply H2, elem_of_app; by right].
    intros b Hb. eapply sorted_app_lt; [done|by apply list_elem_of_fmap_2..].
  - split; [intros j Hj; apply H3, elem_of_app; by right|]. intros p. apply mark_raise_all_bound; [|done].
    intros b Hb. apply H3, elem_of_app. by left.
  - intros i c n Hi Hn. destruct (H4 i c n Hi Hn) as [Hle [Hab Hab']]. split; [done|].
    split; [intros j Hj; apply Hab, elem_of_app; by right|]. intros p. apply mark_raise_all_bound; [|done].
    intros b Hb. apply Hab, elem_of_app. by left.
Qed.

Lemma worker_step_in_order (s s' : System C HS) : worker_step node s s' -> orderly s s' -> in_order s -> in_order s'.
Proof.
  intros Hstep Hord Hin.
  assert (forall q' w, marks q' = marks (q s) -> last_seq q' = last_seq (q s) -> held w ++ channel q' = unsettled s ->
    in_order (at_work s q' w)) as Hwork.
  { intros q' w Hm Hl Hu. apply (in_order_same s); simpl; rewrite ?Hm, ?Hl; auto. intros i c Hi _. by exists c. }
  destruct Hstep as [s first ch Hw Hch|s Hw Hsome Hch|s batch job ch Hw Hl Hch|s batch ok h Hw Hh
    |s batch c c' task job q' Hw Hl Hdu Hcl Hj|s batch c c' ok h Hw Hdu Hend Hne Hh|s c c' Hw Hdu Hend
    |s o batch ok Hw|s o batch ok Hw|s batch ok h Hw -> Hne Hh|s Hw Hch|s Hw];
    unfold unsettled in Hwork; rewrite Hw in Hwork; simpl in Hwork; try by apply Hwork.
  - apply Hwork; [done..|]. simpl. by rewrite Hch, <-app_assoc.
  - pose proof Hj as Hj'. apply job_from_task_frame in Hj' as (Hm & Hch & _ & Hls & Hseq & _). simpl in *.
    destruct Hord as [Hnone Hempty]; [simpl; rewrite Hls; lia|].
    apply claim_in_order; auto. apply Hempty. simpl. rewrite Hw. intros Heq. injection Heq as Heq.
    by apply (f_equal length) in Heq; rewrite length_app in Heq; simpl in Heq; lia.
  - by apply attempted_in_order.
  - apply Hwork; [done..|]. simpl. by rewrite take_drop.
Qed.

Lemma stop_step_in_order (s s' : System C HS) : stop_step s s' -> in_order s -> in_order s'.
Proof.
  intros Hstep Hin. destruct Hstep as [s Hw|s Hw Hch _]; apply (in_order_same s); auto;
    try (unfold unsettled; simpl; by rewrite Hw); intros i c Hi; [by exists c|done].
Qed.

Lemma start_in_order cf (store : option C) (h : HS) n : in_order (start cf store h n).
Proof.
  split; unfold unsettled; simpl.
  - destruct store; constructor.
  - intros j p Hj. by destruct store; apply not_elem_of_nil in Hj.
  - split; simpl; [intros j Hj; by destruct store; apply not_elem_of_nil in Hj|]. intros p. unfold mark. rewrite lookup_empty. simpl. lia.
  - intros i c m [-> _]%lookup_replicate. done.
  - intros i j c c' [-> _]%lookup_replicate. done.
Qed.

Lemma orderly_steps (s0 s : System C HS) : rtc (fun s s' => system_step node s s' /\ orderly s s') s0 s ->
  accounted s0 -> in_order s0 -> accounted s /\ in_order s.
Proof.
  induction 1 as [|s1 s2 s3 [Hst Ho] _ IH]; [done|]. intros Ha Hi.
  apply IH; [by eapply system_step_accounted|].
  destruct Hst as [Hst|[Hst|Hst]]; [by eapply client_step_in_order|by eapply worker_step_in_order|by eapply stop_step_in_order].
Qed.

(** A reached barrier covers what was marked before it. *)
Lemma reached_drained (s : System C HS) i ps ts before : accounted s -> in_order s ->
  clients s !! i = Some (Waiting ps ts before) -> reached ts (q s) = true ->
  forall j, j ∈ before -> covers ps (partition j) -> j ∈ drained s.
Proof.
  intros [Hf _ _ _ _ Hc] [_ H2 _ _ _] Hi Hr j Hj Hcov. rewrite Forall_lookup in Hc.
  specialize (Hc _ _ Hi). destruct Hc as [_ Hb]. destruct (Hb j Hj) as [Hsent Ht].
  destruct (Ht Hcov) as (t & Hin & Hle). unfold reached in Hr. rewrite forallb_forall in Hr.
  specialize (Hr _ (proj1 (list_elem_of_In _ _) Hin)). apply bool_decide_eq_true in Hr. simpl in Hr.
  rewrite Hf in Hsent. apply elem_of_app in Hsent as [|Hun]; [done|]. exfalso.
  assert (j ∈ unsettled s) as Hu.
  { unfold unsettled. apply elem_of_app in Hun as [Hun|]; [|set_solver]. apply elem_of_app. left.
    destruct (worker s) as [|b|b|[] b ok|[] b ok| | |]; simpl in *; done || by apply not_elem_of_nil in Hun. }
  specialize (H2 j (partition j) Hu). unfold mark in H2. lia.
Qed.
End Spec.
