(* ===== verification/TaskQueueProperties.v ===== *)
(** * Properties of the internal queue, with the sample runs of their witnesses

    ** Sample runs

    A concrete environment and handler, a run on each catalog, and the states
    of two interleavings: the inputs of the witnesses and counterexamples. *)

From stdpp Require Import base gmap strings list relations.
From Stdlib Require Import ZArith NArith Lia.
From S2P Require Import Prelude Arrow TaskStore TaskQueue TaskQueueSpec TaskQueueSystem.

Local Open Scope N_scope.

(** The n-th call happens at second [n] and succeeds. *)
#[export] Instance env_fn : TaskEnv := {
  now_at n := (Z.of_nat n * 10 ^ 9)%Z; succeeds _ := true; uuid_at n := N.of_nat n + 1 }.

#[export] Instance env_fn_reliable : ReliableEnv.
Proof. split; [|done]. intros i j. simpl. lia. Qed.

(** A handler that never fails, and keeps no state. *)
#[export] Instance handler_fn : BatchHandler unit := fun _ h => (true, h).

Definition config_ : QueueConfig :=
  {| name := "memory"; max_batch := 2; linger := 50; channel_cap := 4; max_retries := 1;
     barrier_timeout := 2000; poll_interval := 2000 |}.

Definition empty_db (b : Backend) : TaskDb b := {| rows := []; calls := 0 |}.

(** The task identifiers of the jobs the handler was given, in order. *)
Definition handled_tasks {C} (s : Queue C unit) : list (option Uuid) := task_id <$> concat (history s).*1.

(** A durable job is submitted, received from the channel and handled; then
    the worker polls the store. *)
Definition live_then_poll {C} `{TaskCatalog C} (c : C) : infallible (list (option Uuid)) :=
  let s := (submit "realm" JNull true (spawn config_ (Some c) tt)).2 in
  '(_, s) ← turn 10 7 (Receive 0) s;
  '(_, s) ← turn 10 7 Poll s;
  Ret (handled_tasks s).

Definition job_ (n : N) : Job :=
  {| seq := n; partition := "realm"; payload := JNull; job_durable := false; task_id := None |}.

(** A store that a previous process left a task of the realm in. *)
Definition leftover : TaskDb Sqlite := (submit_task (name config_) None (envelope "realm" JNull) 0%Z (empty_db Sqlite)).2.
Definition config_one : QueueConfig :=
  {| name := "memory"; max_batch := 1; linger := 50; channel_cap := 4; max_retries := 1;
     barrier_timeout := 2000; poll_interval := 2000 |}.

(** A step to a state that computes to a given one. *)
Lemma rtc_l_eq {A} (R : relation A) x y y' z : R x y -> y = y' -> rtc R y' z -> rtc R x z.
Proof. intros Hxy <-. by eapply rtc_l. Qed.

(** [stepping H t]: the step [H] leads to [t]. *)
Ltac stepping H t := eapply (rtc_l_eq _ _ _ t); [H|vm_compute; reflexivity|].

(** One client submits a job and calls a barrier; the worker attempts the job. *)
Definition calm_state (cl : Client) (w : Worker) (n : N) (ch : list Job) (sub att : gmap string N)
    (hist : list (list Job * bool)) (se ma dr : list Job) : System (TaskDb Sqlite) unit :=
  {| q := {| cfg := config_; last_seq := n; marks := {| submitted := sub; attempted := att |};
             durable := None; channel := ch; rx_open := true; handler := tt; history := hist |};
     clients := [cl]; worker := w; sent := se; marked := ma; drained := dr |}.
Definition barrier_ : Client := Waiting ["realm"] [("realm", 1)] [job_ 1].
Definition queued : System (TaskDb Sqlite) unit :=
  calm_state barrier_ Selecting 1 [job_ 1] {["realm" := 1]} ∅ [] [job_ 1] [job_ 1] [].
Definition calm : System (TaskDb Sqlite) unit :=
  calm_state barrier_ Selecting 1 [] {["realm" := 1]} {["realm" := 1]} [([job_ 1], true)] [job_ 1] [job_ 1] [job_ 1].

Abbreviation orderly_step := (fun s s' : System (TaskDb Sqlite) unit => system_step 7 s s' /\ orderly s s').

Lemma queued_orderly : rtc orderly_step (start config_ None tt 1) queued.
Proof.
  stepping ltac:(split; [left; apply (step_fetch _ 0 "realm" JNull false); reflexivity|];
      intros _; split; [intros c [->|Hc]%elem_of_cons; [done|by apply not_elem_of_nil in Hc]|done])
    (calm_state (Numbered "realm" JNull false 1) Selecting 1 [] ∅ ∅ [] [] [] []).
  stepping ltac:(split; [left; eapply (step_persist _ 0); reflexivity|by intros []])
    (calm_state (Ready (job_ 1)) Selecting 1 [] ∅ ∅ [] [] [] []).
  stepping ltac:(split; [left; eapply (step_send _ 0); reflexivity|by intros []])
    (calm_state (OnChannel (job_ 1)) Selecting 1 [job_ 1] ∅ ∅ [] [job_ 1] [] []).
  stepping ltac:(split; [left; eapply (step_mark _ 0); reflexivity|by intros []])
    (calm_state Idle Selecting 1 [job_ 1] {["realm" := 1]} ∅ [] [job_ 1] [job_ 1] []).
  stepping ltac:(split; [left; apply (step_barrier _ 0 ["realm"]); reflexivity|by intros []]) queued.
  apply rtc_refl.
Qed.

Lemma calm_orderly : rtc orderly_step (start config_ None tt 1) calm.
Proof.
  etrans; [apply queued_orderly|].
  stepping ltac:(split; [right; left; eapply step_recv; reflexivity|by intros []])
    (calm_state barrier_ (Collecting [job_ 1]) 1 [] {["realm" := 1]} ∅ [] [job_ 1] [job_ 1] []).
  stepping ltac:(split; [right; left; eapply step_handle; reflexivity|by intros []])
    (calm_state barrier_ (Handled FromChannel [job_ 1] true) 1 [] {["realm" := 1]} ∅ [] [job_ 1] [job_ 1] []).
  stepping ltac:(split; [right; left; eapply step_settle; reflexivity|by intros []])
    (calm_state barrier_ (Settled FromChannel [job_ 1] true) 1 [] {["realm" := 1]} ∅ [] [job_ 1] [job_ 1] []).
  stepping ltac:(split; [right; left; eapply step_attempted; reflexivity|by intros []]) calm.
  apply rtc_refl.
Qed.

Lemma queued_reached : rtc (system_step 7) (start config_ None tt 1) queued.
Proof. apply (rtc_subrel orderly_step); [by intros ? ? []|apply queued_orderly]. Qed.
Lemma calm_reached : rtc (system_step 7) (start config_ None tt 1) calm.
Proof. apply (rtc_subrel orderly_step); [by intros ? ? []|apply calm_orderly]. Qed.

(** *** A replay that overtakes a queued job *)

Definition replayed : Job :=
  {| seq := 2; partition := "realm"; payload := JNull; job_durable := true; task_id := Some 1 |}.
Definition claimed_db : TaskDb Sqlite := Eval vm_compute in (claim_task (name config_one) 7 LEASE_SECS leftover).2.
Definition settled_db : TaskDb Sqlite := Eval vm_compute in settle_job true claimed_db replayed.

(** The client's job is queued, or about to be; [n] numbers are drawn. *)
Definition overtaking (n : N) (db : TaskDb Sqlite) (ch : list Job) (sub att : gmap string N) (hist : list (list Job * bool))
    (cl : Client) (w : Worker) (ma : list Job) : System (TaskDb Sqlite) unit :=
  {| q := {| cfg := config_one; last_seq := n; marks := {| submitted := sub; attempted := att |};
             durable := Some db; channel := ch; rx_open := true; handler := tt; history := hist |};
     clients := [cl]; worker := w; sent := ch; marked := ma; drained := [] |}.
Definition overtaken : System (TaskDb Sqlite) unit :=
  overtaking 2 settled_db [job_ 1] {["realm" := 1]} {["realm" := 2]} [([replayed], true)] barrier_ (Claiming []) [job_ 1].

Lemma overtaken_reached : rtc (system_step 7) (start config_one (Some leftover) tt 1) overtaken.
Proof.
  stepping ltac:(left; apply (step_fetch _ 0 "realm" JNull false); reflexivity)
    (overtaking 1 leftover [] ∅ ∅ [] (Numbered "realm" JNull false 1) (Claiming []) []).
  stepping ltac:(left; eapply (step_persist _ 0); reflexivity) (overtaking 1 leftover [] ∅ ∅ [] (Ready (job_ 1)) (Claiming []) []).
  stepping ltac:(left; eapply (step_send _ 0); reflexivity)
    (overtaking 1 leftover [job_ 1] ∅ ∅ [] (OnChannel (job_ 1)) (Claiming []) []).
  stepping ltac:(left; eapply (step_mark _ 0); reflexivity)
    (overtaking 1 leftover [job_ 1] {["realm" := 1]} ∅ [] Idle (Claiming []) [job_ 1]).
  stepping ltac:(right; left;
      eapply (step_claim 7 _ [] leftover claimed_db
        (handed_out 121000000000 (fresh_task 1 "memory" None (envelope "realm" JNull) 0 5 0)) replayed
        (q (overtaking 2 claimed_db [job_ 1] {["realm" := 1]} ∅ [] Idle Selecting [job_ 1])));
      [reflexivity|simpl; lia|reflexivity|vm_compute; reflexivity|reflexivity])
    (overtaking 2 claimed_db [job_ 1] {["realm" := 1]} ∅ [] Idle (Claiming [replayed]) [job_ 1]).
  stepping ltac:(right; left; eapply (step_claimed 7 _ [replayed] claimed_db claimed_db);
      [reflexivity|reflexivity|left; split; [simpl; lia|reflexivity]|done|reflexivity])
    (overtaking 2 claimed_db [job_ 1] {["realm" := 1]} ∅ [] Idle (Handled FromStore [replayed] true) [job_ 1]).
  stepping ltac:(right; left; eapply step_settle; reflexivity)
    (overtaking 2 settled_db [job_ 1] {["realm" := 1]} ∅ [] Idle (Settled FromStore [replayed] true) [job_ 1]).
  stepping ltac:(right; left; eapply step_attempted; reflexivity)
    (overtaking 2 settled_db [job_ 1] {["realm" := 1]} {["realm" := 2]} [([replayed], true)] Idle (Claiming []) [job_ 1]).
  stepping ltac:(left; apply (step_barrier _ 0 ["realm"]); reflexivity) overtaken. apply rtc_refl.
Qed.

(** *** Two submits that cross *)

Definition crossing (cls : list Client) (w : Worker) (n : N) (ch : list Job) (sub att : gmap string N)
    (hist : list (list Job * bool)) (se ma dr : list Job) : System (TaskDb Sqlite) unit :=
  {| q := {| cfg := config_one; last_seq := n; marks := {| submitted := sub; attempted := att |};
             durable := None; channel := ch; rx_open := true; handler := tt; history := hist |};
     clients := cls; worker := w; sent := se; marked := ma; drained := dr |}.
Definition both : list Job := [job_ 2; job_ 1].
Definition crossed : System (TaskDb Sqlite) unit :=
  crossing [Waiting [] [("realm", 2)] both; Idle] Selecting 2 [job_ 1] {["realm" := 2]} {["realm" := 2]}
    [([job_ 2], true)] both both [job_ 2].

Lemma crossed_reached : rtc (system_step 7) (start config_one None tt 2) crossed.
Proof.
  stepping ltac:(left; apply (step_fetch _ 0 "realm" JNull false); reflexivity)
    (crossing [Numbered "realm" JNull false 1; Idle] Selecting 1 [] ∅ ∅ [] [] [] []).
  stepping ltac:(left; apply (step_fetch _ 1 "realm" JNull false); reflexivity)
    (crossing [Numbered "realm" JNull false 1; Numbered "realm" JNull false 2] Selecting 2 [] ∅ ∅ [] [] [] []).
  stepping ltac:(left; eapply (step_persist _ 0); reflexivity)
    (crossing [Ready (job_ 1); Numbered "realm" JNull false 2] Selecting 2 [] ∅ ∅ [] [] [] []).
  stepping ltac:(left; eapply (step_persist _ 1); reflexivity)
    (crossing [Ready (job_ 1); Ready (job_ 2)] Selecting 2 [] ∅ ∅ [] [] [] []).
  stepping ltac:(left; eapply (step_send _ 1); reflexivity)
    (crossing [Ready (job_ 1); OnChannel (job_ 2)] Selecting 2 [job_ 2] ∅ ∅ [] [job_ 2] [] []).
  stepping ltac:(left; eapply (step_send _ 0); reflexivity)
    (crossing [OnChannel (job_ 1); OnChannel (job_ 2)] Selecting 2 both ∅ ∅ [] both [] []).
  stepping ltac:(left; eapply (step_mark _ 1); reflexivity)
    (crossing [OnChannel (job_ 1); Idle] Selecting 2 both {["realm" := 2]} ∅ [] both [job_ 2] []).
  stepping ltac:(left; eapply (step_mark _ 0); reflexivity)
    (crossing [Idle; Idle] Selecting 2 both {["realm" := 2]} ∅ [] both both []).
  stepping ltac:(right; left; eapply step_recv; reflexivity)
    (crossing [Idle; Idle] (Collecting [job_ 2]) 2 [job_ 1] {["realm" := 2]} ∅ [] both both []).
  stepping ltac:(right; left; eapply step_handle; reflexivity)
    (crossing [Idle; Idle] (Handled FromChannel [job_ 2] true) 2 [job_ 1] {["realm" := 2]} ∅ [] both both []).
  stepping ltac:(right; left; eapply step_settle; reflexivity)
    (crossing [Idle; Idle] (Settled FromChannel [job_ 2] true) 2 [job_ 1] {["realm" := 2]} ∅ [] both both []).
  stepping ltac:(right; left; eapply step_attempted; reflexivity)
    (crossing [Idle; Idle] Selecting 2 [job_ 1] {["realm" := 2]} {["realm" := 2]} [([job_ 2], true)] both both [job_ 2]).
  stepping ltac:(left; apply (step_barrier _ 0 []); reflexivity) crossed. apply rtc_refl.
Qed.

(** * Properties of the internal queue

    First in, first out through the channel, what a barrier promises and when
    it keeps the promise, progress of the worker, recovery of durable jobs. *)

(** C28: First in, first out.  In every reachable state of any number of clients,
    the worker and the store, the jobs placed on the channel are, in the order
    they were placed: those whose attempt is recorded, those the worker holds,
    and those queued, of which there are never more than the capacity. *)
Theorem channel_fifo `{TaskCatalog C} `{BatchHandler HS} node cf (store : option C) (h : HS) n s :
  rtc (system_step node) (start cf store h n) s ->
  sent s = drained s ++ in_flight (worker s) ++ channel (q s) /\
  (length (channel (q s)) <= channel_cap (cfg (q s)))%nat.
Proof. intros Hs. apply steps_accounted in Hs; [|apply start_accounted]. by destruct Hs. Qed.

(** C29: A barrier that returns [true] covers what was submitted before it, as
    long as sequence numbers are drawn in the order jobs are placed: no submit
    draws one while another has drawn and not placed its own, and no replay
    draws one while a job is queued.  Every job of the barrier's partitions
    that was recorded as submitted when the barrier was called has then been
    attempted. *)
Theorem barrier_covers `{TaskCatalog C} `{BatchHandler HS} node cf (store : option C) (h : HS) n s i ps ts before j :
  rtc (fun s s' => system_step node s s' /\ orderly s s') (start cf store h n) s ->
  clients s !! i = Some (Waiting ps ts before) -> reached ts (q s) = true ->
  j ∈ before -> covers ps (partition j) -> j ∈ drained s.
Proof.
  intros Hs Hi Hr. apply orderly_steps in Hs as [Ha Ho]; [|apply start_accounted|apply start_in_order].
  intros Hj Hc. by apply (reached_drained s i ps ts before).
Qed.

(** Progress of barriers.  From every reachable state in which the worker
    serves the channel, and whatever the handler answers, every run of the
    worker comes to a state where all targets of every waiting barrier are
    reached; no step of the worker can be missing on the way. *)
Theorem barrier_eventually `{TaskCatalog C} `{BatchHandler HS} node cf (store : option C) (h : HS) n s :
  rtc (system_step node) (start cf store h n) s -> serving (worker s) ->
  eventually (worker_step node)
    (fun s' => forall i ps ts before, clients s !! i = Some (Waiting ps ts before) -> reached ts (q s') = true) s.
Proof.
  intros Hs Hserv. apply steps_accounted in Hs; [|apply start_accounted].
  apply (eventually_weaken (fun s' => idle s' /\ clients s' = clients s /\ sent s' = sent s) _ accounted);
    [intros s1 s2; apply worker_step_accounted| |done|by apply serving_eventually_idle].
  intros s' Ha (Hi & Hc & _) i ps ts before Hcl. apply (idle_reached s' i ps ts before Ha Hi). by rewrite Hc.
Qed.

(** C38: A durable job survives a crash.  When a durable submit is acknowledged
    and the process is lost, a worker started on the store that is left comes
    through its replay, and has handed the handler a job with the partition
    and the payload that were submitted, whatever the handler answers. *)
Theorem durable_job_recovered `{TaskCatalogLaws C} `{BatchHandler HS} (s : Queue C HS) c p body n node cf (h : HS) :
  durable s = Some c -> store_ok c -> (submit p body true s).1 = inl n ->
  name cf = name (cfg s) -> (1 <= max_batch cf)%nat ->
  exists c1 fuel s', durable (submit p body true s).2 = Some c1 /\ start_worker fuel node (spawn cf (Some c1) h) = Ret s' /\
    exists j, j ∈ concat (history s').*1 /\ partition j = p /\ payload j = body.
Proof.
  intros Hd Hok Hsub Hname Hmax. unfold submit, persist in *. simpl in *. rewrite Hd in *.
  destruct (submit_waits (name (cfg s)) None (envelope p body) 0%Z c Hok) as (id & Hid & Hw).
  pose proof (submit_ok (name (cfg s)) None (envelope p body) 0%Z c Hok) as Hok1.
  destruct (submit_task (name (cfg s)) None (envelope p body) 0%Z c) as [r c1]. simpl in *. subst r.
  exists c1, (S (attempts_left (name (cfg s)) c1)).
  destruct (claim_from_store_spec (S (attempts_left (name (cfg s)) c1)) node (spawn cf (Some c1) h) c1 eq_refl Hok1 Hmax)
    as (s' & c' & hist & Hrun & _ & _ & Hh & _ & _ & _ & Hall); [simpl; rewrite Hname; lia|].
  exists s'. split.
  - unfold try_send in *. simpl in *. destruct (rx_open s); [|done]. simpl in *. by case_decide.
  - split; [exact Hrun|]. simpl in Hall. rewrite Hname in Hall.
    destruct (Hall id (envelope p body) Hw) as (b & Hb & j & Hj & _ & Hp). simpl in Hp. injection Hp as Hp1 Hp2.
    exists j. rewrite Hh. simpl. split; [|done]. apply list_elem_of_In, in_concat. exists b. by rewrite <-!list_elem_of_In.
Qed.

(** On Postgres a completed durable job is handled again.  A durable job that
    is received from the channel is never claimed, and Postgres completes only
    claimed rows: the next poll of the store replays the job.  On SQLite the
    same run hands the job to the handler once. *)
Theorem postgres_replays_completed_job : exists id,
  live_then_poll (empty_db Postgres) = Ret [Some id; Some id] /\ live_then_poll (empty_db Sqlite) = Ret [Some id].
Proof. exists 1. split; vm_compute; reflexivity. Qed.

(** A replay overtakes a barrier.  With a single client and numbers drawn in
    submit order, the job of a replay draws a number above that of a job that
    is still queued; once the replayed job is attempted, a barrier returns
    [true] although the client's job, marked before it, has not been attempted. *)
Theorem replay_overtakes_barrier : exists s,
  rtc (system_step 7) (start config_one (Some leftover) tt 1) s /\
  clients s = [Waiting ["realm"] [("realm", 1)] [job_ 1]] /\ reached [("realm", 1)] (q s) = true /\
  drained s = [] /\ channel (q s) = [job_ 1].
Proof. exists overtaken. split_and!; [apply overtaken_reached|vm_compute; reflexivity..]. Qed.

(** Two concurrent submits suffice: the one that draws its number first places
    its job last, and a barrier returns [true] when only the other job has been
    attempted. *)
Theorem concurrent_submits_overtake_barrier : exists s,
  rtc (system_step (C := TaskDb Sqlite) 7) (start config_one None tt 2) s /\
  clients s = [Waiting [] [("realm", 2)] [job_ 2; job_ 1]; Idle] /\ reached [("realm", 2)] (q s) = true /\
  drained s = [job_ 2] /\ channel (q s) = [job_ 1].
Proof. exists crossed. split_and!; [apply crossed_reached|vm_compute; reflexivity..]. Qed.

(** ** Witnesses *)

(** One client submits a job and waits while the worker attempts it. *)
Lemma channel_fifo_witness :
  sent calm = drained calm ++ in_flight (worker calm) ++ channel (q calm) /\
  (length (channel (q calm)) <= channel_cap (cfg (q calm)))%nat.
Proof. refine (channel_fifo 7 config_ None tt 1 calm calm_reached). Defined.

Lemma barrier_covers_witness : job_ 1 ∈ drained calm.
Proof.
  refine (barrier_covers 7 config_ None tt 1 calm 0 ["realm"] [("realm", 1)] [job_ 1] (job_ 1) calm_orderly _ _ _ _);
    [vm_compute; reflexivity|vm_compute; reflexivity|left|right; left].
Defined.

Lemma barrier_eventually_witness :
  eventually (worker_step 7)
    (fun s' => forall i ps ts before, clients queued !! i = Some (Waiting ps ts before) -> reached ts (q s') = true) queued.
Proof. refine (barrier_eventually 7 config_ None tt 1 queued queued_reached _). exact I. Defined.

Lemma durable_job_recovered_witness :
  exists c1 fuel s', durable (submit "realm" JNull true (spawn config_ (Some (empty_db Sqlite)) tt)).2 = Some c1 /\
    start_worker fuel 7 (spawn config_ (Some c1) tt) = Ret s' /\
    exists j, j ∈ concat (history s').*1 /\ partition j = "realm" /\ payload j = JNull.
Proof.
  refine (durable_job_recovered (spawn config_ (Some (empty_db Sqlite)) tt) (empty_db Sqlite) "realm" JNull 1 7 config_ tt
    eq_refl _ _ eq_refl _); [split; constructor|vm_compute; reflexivity|simpl; lia].
Defined.
