(* ===== verification/JobStore.v ===== *)
(** * The job fabric: the [jobs] table and its two queues

    Claims, leases, completion and failure of jobs, as the statements of
    [PgFabricStore] ([pensieve-catalog/src/fabric.rs]) and of [SqliteQueue]
    ([pensieve-local/src/sqlite_queue.rs]) run them on the table.  Every
    statement reads the clock once, [now], in nanoseconds.  A Postgres
    operation is one statement; in SQLite, [claim] and [fail] read a row and
    update it in two. *)

From stdpp Require Import base gmap strings list.
From Stdlib Require Import ZArith NArith Lia.
From S2P Require Import Prelude Arrow SqlTable.

Local Open Scope Z_scope.

Abbreviation Uuid := N.

Inductive JobStatus := Pending | Claimed | Running | Done | Failed | Canceled.
#[export] Instance JobStatus_eq_dec : EqDecision JobStatus.
Proof. solve_decision. Defined.

Record JobRow := {
  j_id : Uuid; j_tenant : Uuid; j_kind : string; j_payload : Json; j_status : JobStatus; j_priority : Z;
  j_affinity : option Uuid; j_req_capabilities : list string; j_claimed_by : option Uuid;
  j_claim_expires_at : option Z; j_attempt : Z; j_max_attempts : Z; j_progress : Json; j_result : option Json;
  j_last_error : option string; j_created_at : Z; j_updated_at : Z }.

Record EnqueueJob := {
  ej_kind : string; ej_payload : Json; ej_priority : Z; ej_affinity : option Uuid;
  ej_req_capabilities : list string; ej_max_attempts : Z }.

Record ClaimedJob := {
  cj_id : Uuid; cj_tenant : Uuid; cj_kind : string; cj_payload : Json; cj_attempt : Z; cj_max_attempts : Z;
  cj_claim_expires_at : Z }.

Definition seconds (s : Z) : Z := s * 10 ^ 9.

Definition is_open (t : JobRow) : bool := bool_decide (j_status t = Claimed \/ j_status t = Running).
Definition is_job (id : Uuid) (t : JobRow) : bool := bool_decide (j_id t = id).
Definition held_by (w : Uuid) (t : JobRow) : bool := bool_decide (j_claimed_by t = Some w).
Definition lease_expired (now : Z) (t : JobRow) : bool :=
  match j_claim_expires_at t with Some e => bool_decide (e < now) | None => false end.

(** Pending, or a lease that expired with attempts left. *)
Definition reclaimable (now : Z) (t : JobRow) : bool :=
  bool_decide (j_status t = Pending) || (is_open t && lease_expired now t && bool_decide (j_attempt t < j_max_attempts t)).

(** The capabilities of the worker include those the job requires. *)
Definition capable (caps : list string) (t : JobRow) : bool :=
  forallb (fun c => bool_decide (c ∈ caps)) (j_req_capabilities t).

(** [ORDER BY priority DESC, created_at] *)
Definition by_priority (a b : JobRow) : bool :=
  bool_decide (j_priority b < j_priority a \/ (j_priority b = j_priority a /\ j_created_at a <= j_created_at b)).

(** *** Updates of a row *)

Definition set_claim (s : JobStatus) (by_ : option Uuid) (expires : option Z) (attempt : Z) (now : Z) (t : JobRow) : JobRow :=
  {| j_id := j_id t; j_tenant := j_tenant t; j_kind := j_kind t; j_payload := j_payload t; j_status := s;
     j_priority := j_priority t; j_affinity := j_affinity t; j_req_capabilities := j_req_capabilities t;
     j_claimed_by := by_; j_claim_expires_at := expires; j_attempt := attempt; j_max_attempts := j_max_attempts t;
     j_progress := j_progress t; j_result := j_result t; j_last_error := j_last_error t;
     j_created_at := j_created_at t; j_updated_at := now |}.
Definition set_report (progress : Json) (result : option Json) (e : option string) (t : JobRow) : JobRow :=
  {| j_id := j_id t; j_tenant := j_tenant t; j_kind := j_kind t; j_payload := j_payload t; j_status := j_status t;
     j_priority := j_priority t; j_affinity := j_affinity t; j_req_capabilities := j_req_capabilities t;
     j_claimed_by := j_claimed_by t; j_claim_expires_at := j_claim_expires_at t; j_attempt := j_attempt t;
     j_max_attempts := j_max_attempts t; j_progress := progress; j_result := result; j_last_error := e;
     j_created_at := j_created_at t; j_updated_at := j_updated_at t |}.

Definition new_job (id tenant : Uuid) (affinity : option Uuid) (now : Z) (j : EnqueueJob) : JobRow :=
  {| j_id := id; j_tenant := tenant; j_kind := ej_kind j; j_payload := ej_payload j; j_status := Pending;
     j_priority := ej_priority j; j_affinity := affinity; j_req_capabilities := ej_req_capabilities j;
     j_claimed_by := None; j_claim_expires_at := None; j_attempt := 0; j_max_attempts := ej_max_attempts j;
     j_progress := JObject []; j_result := None; j_last_error := None; j_created_at := now; j_updated_at := now |}.

Definition claimed_job (attempt expires : Z) (t : JobRow) : ClaimedJob :=
  {| cj_id := j_id t; cj_tenant := j_tenant t; cj_kind := j_kind t; cj_payload := j_payload t;
     cj_attempt := attempt; cj_max_attempts := j_max_attempts t; cj_claim_expires_at := expires |}.

(** [UPDATE ...] and whether it affected a row. *)
Definition update_jobs (guard : JobRow -> bool) (f : JobRow -> JobRow) (l : list JobRow) : bool * list JobRow :=
  (bool_decide (0 < rows_affected guard l)%nat, update_rows guard f l).

(** ** Postgres *)

(** [INSERT ... ON CONFLICT DO NOTHING]: [conflicts] are the unique indexes of
    the migrations, and a fresh identifier is drawn. *)
Definition enqueue_job (conflicts : EnqueueJob -> list JobRow -> bool) (id tenant : Uuid) (now : Z) (j : EnqueueJob)
    (l : list JobRow) : option Uuid * list JobRow :=
  if conflicts j l then (None, l) else (Some id, l ++ [new_job id tenant (ej_affinity j) now j]).

Definition pg_candidate (worker : Uuid) (tenant : option Uuid) (caps kinds : list string) (now : Z) (t : JobRow) : bool :=
  bool_decide (j_kind t ∈ kinds) && bool_decide (tenant = None \/ tenant = Some (j_tenant t)) &&
  bool_decide (j_affinity t = Some worker \/ j_affinity t = None) && capable caps t && reclaimable now t.

(** Pinned first. *)
Definition pg_order (worker : Uuid) (a b : JobRow) : bool :=
  let pa := bool_decide (j_affinity a = Some worker) in
  let pb := bool_decide (j_affinity b = Some worker) in
  if Bool.eqb pa pb then by_priority a b else pa.

Definition claim_job (worker : Uuid) (tenant : option Uuid) (caps kinds : list string) (lease_secs now : Z)
    (l : list JobRow) : option ClaimedJob * list JobRow :=
  match first_by (pg_order worker) (filter (fun t => pg_candidate worker tenant caps kinds now t = true) l) with
  | None => (None, l)
  | Some next =>
      let expires := now + seconds lease_secs in
      (Some (claimed_job (j_attempt next + 1) expires next),
       update_rows (is_job (j_id next))
         (fun t => set_claim Claimed (Some worker) (Some expires) (j_attempt t + 1) now t) l)
  end.

(** Only the worker that holds an open job reports on it. *)
Definition reports (id worker : Uuid) (t : JobRow) : bool := is_job id t && held_by worker t && is_open t.

Definition job_progress (id worker : Uuid) (snapshot : Json) (now : Z) : list JobRow -> bool * list JobRow :=
  update_jobs (reports id worker)
    (fun t => set_report snapshot (j_result t) (j_last_error t)
       (set_claim (if decide (j_status t = Claimed) then Running else j_status t) (j_claimed_by t)
          (j_claim_expires_at t) (j_attempt t) now t)).

Definition complete_job (id worker : Uuid) (result : Json) (now : Z) : list JobRow -> bool * list JobRow :=
  update_jobs (reports id worker)
    (fun t => set_report (j_progress t) (Some result) (j_last_error t)
       (set_claim Done (j_claimed_by t) None (j_attempt t) now t)).

Definition fail_job (id worker : Uuid) (e : string) (now : Z) : list JobRow -> bool * list JobRow :=
  update_jobs (reports id worker)
    (fun t => set_report (j_progress t) (j_result t) (Some e)
       (if decide (j_max_attempts t <= j_attempt t)
        then set_claim Failed (j_claimed_by t) None (j_attempt t) now t
        else set_claim Pending None None (j_attempt t) now t)).

Definition fail_job_terminal (id worker : Uuid) (e : string) (now : Z) : list JobRow -> bool * list JobRow :=
  update_jobs (reports id worker)
    (fun t => set_report (j_progress t) (j_result t) (Some e)
       (set_claim Failed (j_claimed_by t) None (j_attempt t) now t)).

Definition extend_lease (id worker : Uuid) (lease_secs now : Z) : list JobRow -> bool * list JobRow :=
  update_jobs (reports id worker)
    (fun t => set_claim (j_status t) (j_claimed_by t) (Some (now + seconds lease_secs)) (j_attempt t) now t).

(** Requeue expired leases with attempts left, fail the exhausted ones. *)
Definition abandoned (now : Z) (t : JobRow) : bool := is_open t && lease_expired now t.
Definition sweep_requeue (now : Z) : list JobRow -> list JobRow :=
  update_rows (fun t => abandoned now t && bool_decide (j_attempt t < j_max_attempts t))
    (fun t => set_report (j_progress t) (j_result t) (Some (default "" (j_last_error t) +:+ " [recovered: stale lease]"))
       (set_claim Pending None None (j_attempt t) now t)).
Definition sweep_fail (now : Z) : list JobRow -> list JobRow :=
  update_rows (fun t => abandoned now t && bool_decide (j_max_attempts t <= j_attempt t))
    (fun t => set_report (j_progress t) (j_result t)
       (Some (default "" (j_last_error t) +:+ " [failed: lease expired, attempts exhausted]"))
       (set_claim Failed (j_claimed_by t) None (j_attempt t) now t)).
Definition sweep_stale (now : Z) (l : list JobRow) : list JobRow := sweep_fail now (sweep_requeue now l).

(** ** SQLite *)

Record SqliteQueue := { worker_id : Uuid; capabilities : list string; lease_secs : Z }.

(** *** The statements *)

Definition sq_select (kind : string) (now : Z) (l : list JobRow) : option JobRow :=
  first_by by_priority (filter (fun t => bool_decide (j_kind t = kind) && reclaimable now t = true) l).

(** The update of a claim is guarded by the state of the row, not by its attempts. *)
Definition sq_claim_update (q : SqliteQueue) (id : Uuid) (now : Z) : list JobRow -> bool * list JobRow :=
  update_jobs (fun t => is_job id t && (bool_decide (j_status t = Pending) || (is_open t && lease_expired now t)))
    (fun t => set_claim Claimed (Some (worker_id q)) (Some (now + seconds (lease_secs q))) (j_attempt t + 1) now t).

(** Whoever is recorded as the claimant reports, whatever the status. *)
Definition sq_reports (q : SqliteQueue) (id : Uuid) (t : JobRow) : bool := is_job id t && held_by (worker_id q) t.

Definition sq_progress (q : SqliteQueue) (id : Uuid) (snapshot : Json) (now : Z) : list JobRow -> bool * list JobRow :=
  update_jobs (sq_reports q id)
    (fun t => set_report snapshot (j_result t) (j_last_error t)
       (set_claim (j_status t) (j_claimed_by t) (j_claim_expires_at t) (j_attempt t) now t)).

Definition sq_complete (q : SqliteQueue) (id : Uuid) (result : Json) (now : Z) : list JobRow -> bool * list JobRow :=
  update_jobs (sq_reports q id)
    (fun t => set_report (j_progress t) (Some result) (j_last_error t)
       (set_claim Done (j_claimed_by t) (j_claim_expires_at t) (j_attempt t) now t)).

(** [SELECT attempt, max_attempts FROM jobs WHERE id = ?]; a missing row is terminal. *)
Definition sq_terminal (id : Uuid) (l : list JobRow) : bool :=
  match list_find (fun t => is_job id t = true) l with
  | Some (_, t) => bool_decide (j_max_attempts t <= j_attempt t)
  | None => true
  end.
Definition sq_fail_update (q : SqliteQueue) (id : Uuid) (terminal : bool) (e : string) (now : Z) :
    list JobRow -> bool * list JobRow :=
  update_jobs (sq_reports q id)
    (fun t => set_report (j_progress t) (j_result t) (Some e)
       (set_claim (if terminal then Failed else Pending) None None (j_attempt t) now t)).
Definition sq_fail (q : SqliteQueue) (id : Uuid) (e : string) (now : Z) (l : list JobRow) : bool * list JobRow :=
  sq_fail_update q id (sq_terminal id l) e now l.

Definition sq_fail_terminal (q : SqliteQueue) (id : Uuid) (e : string) (now : Z) : list JobRow -> bool * list JobRow :=
  sq_fail_update q id true e now.

Definition sq_extend_lease (q : SqliteQueue) (id : Uuid) (lease now : Z) : list JobRow -> bool * list JobRow :=
  update_jobs (sq_reports q id)
    (fun t => set_claim (j_status t) (j_claimed_by t) (Some (now + seconds lease)) (j_attempt t) now t).

(** The [jobs] table of SQLite has no affinity column. *)
Definition sq_enqueue (conflicts : EnqueueJob -> list JobRow -> bool) (id tenant : Uuid) (now : Z) (j : EnqueueJob)
    (l : list JobRow) : option Uuid * list JobRow :=
  if conflicts j l then (None, l) else (Some id, l ++ [new_job id tenant None now j]).

(** *** The claim loop, undisturbed *)

(** One kind: the oldest claimable row, if the worker is capable of it. *)
Definition sq_try_kind (q : SqliteQueue) (kind : string) (now : Z) (l : list JobRow) : option ClaimedJob * list JobRow :=
  match sq_select kind now l with
  | None => (None, l)
  | Some row =>
      if negb (capable (capabilities q) row) then (None, l)
      else
        let '(affected, l) := sq_claim_update q (j_id row) now l in
        (if affected then Some (claimed_job (j_attempt row + 1) (now + seconds (lease_secs q)) row) else None, l)
  end.

Fixpoint sq_claim_one (q : SqliteQueue) (kinds : list string) (now : Z) (l : list JobRow) : option ClaimedJob * list JobRow :=
  match kinds with
  | [] => (None, l)
  | kind :: kinds =>
      match sq_try_kind q kind now l with
      | (Some job, l) => (Some job, l)
      | (None, l) => sq_claim_one q kinds now l
      end
  end.

Fixpoint sq_claim (q : SqliteQueue) (kinds : list string) (max : nat) (now : Z) (l : list JobRow) : list ClaimedJob * list JobRow :=
  match max with
  | O => ([], l)
  | S max =>
      match sq_claim_one q kinds now l with
      | (Some job, l) => let '(out, l) := sq_claim q kinds max now l in (job :: out, l)
      | (None, l) => ([], l)
      end
  end.

(** ** The queue front-ends and the runner ([pensieve-jobs]) *)

Record JobQueue := {
  claim : list string -> nat -> Z -> list JobRow -> list ClaimedJob * list JobRow;
  progress : Uuid -> Json -> Z -> list JobRow -> bool * list JobRow;
  complete : Uuid -> Json -> Z -> list JobRow -> bool * list JobRow;
  fail : Uuid -> string -> Z -> list JobRow -> bool * list JobRow;
  fail_terminal : Uuid -> string -> Z -> list JobRow -> bool * list JobRow;
  extend : Uuid -> Z -> Z -> list JobRow -> bool * list JobRow }.

Record PgQueue := { pq_worker_id : Uuid; pq_tenant : option Uuid; pq_capabilities : list string; pq_lease_secs : Z }.

Fixpoint pg_claim_loop (q : PgQueue) (kinds : list string) (max : nat) (now : Z) (l : list JobRow) : list ClaimedJob * list JobRow :=
  match max with
  | O => ([], l)
  | S max =>
      match claim_job (pq_worker_id q) (pq_tenant q) (pq_capabilities q) kinds (pq_lease_secs q) now l with
      | (Some job, l) => let '(out, l) := pg_claim_loop q kinds max now l in (job :: out, l)
      | (None, l) => ([], l)
      end
  end.

Definition pg_queue (q : PgQueue) : JobQueue := {|
  claim := pg_claim_loop q;
  progress id s := job_progress id (pq_worker_id q) s;
  complete id r := complete_job id (pq_worker_id q) r;
  fail id e := fail_job id (pq_worker_id q) e;
  fail_terminal id e := fail_job_terminal id (pq_worker_id q) e;
  extend id s := extend_lease id (pq_worker_id q) s |}.

Definition sqlite_queue (q : SqliteQueue) : JobQueue := {|
  claim := sq_claim q; progress := sq_progress q; complete := sq_complete q;
  fail := sq_fail q; fail_terminal := sq_fail_terminal q; extend := sq_extend_lease q |}.

(** What an executor returns, and how the runner reports it. *)
Inductive JobError := Transient (m : string) | Permanent (m : string) | Config (m : string).
Definition job_error_text (e : JobError) : string :=
  match e with
  | Transient m => "transient: " +:+ m
  | Permanent m => "permanent: " +:+ m
  | Config m => "config: " +:+ m
  end.

Definition report (q : JobQueue) (id : Uuid) (outcome : Json + JobError) (now : Z) (l : list JobRow) : bool * list JobRow :=
  match outcome with
  | inl result => complete q id result now l
  | inr (Transient m) => fail q id m now l
  | inr e => fail_terminal q id (job_error_text e) now l
  end.

(** One job: the lease is extended at each keep-alive tick while the executor
    runs, then its outcome is reported at [done_at].  No executor for the kind
    is a terminal failure. *)
Definition run_job (q : JobQueue) (lease : Z) (outcome : option (Json + JobError)) (job : ClaimedJob) (ticks : list Z) (done_at : Z)
    (l : list JobRow) : bool * list JobRow :=
  match outcome with
  | None => fail_terminal q (cj_id job) ("no executor for kind " +:+ cj_kind job) done_at l
  | Some outcome =>
      let l := foldl (fun l tick => (extend q (cj_id job) lease tick l).2) l ticks in
      report q (cj_id job) outcome done_at l
  end.

Definition claim_and_run_one (q : JobQueue) (lease : Z) (kinds : list string) (run : ClaimedJob -> option (Json + JobError))
    (now : Z) (ticks : list Z) (done_at : Z) (l : list JobRow) : bool * list JobRow :=
  match claim q kinds 1 now l with
  | (job :: _, l) => (true, (run_job q lease (run job) job ticks done_at l).2)
  | ([], l) => (false, l)
  end.
