(* ===== verification/JobLifecycle.v ===== *)
(** * The life of a job

    The state machine that the Postgres queue promises: who may change a job
    in which state, at which time.  [pg_apply] is one statement of
    [PgFabricStore]; every statement changes each row by at most one
    [lifecycle] transition. *)

From stdpp Require Import base gmap strings list relations.
From Stdlib Require Import ZArith NArith Lia.
From S2P Require Import Prelude Arrow SqlTable JobStore.

Local Open Scope Z_scope.

(** ** The state machine *)

(** A transition at time [now], by a worker or by the sweep. *)
Inductive lifecycle (now : Z) : option Uuid -> JobRow -> JobRow -> Prop :=
  | lc_claim w e t : reclaimable now t = true ->
      lifecycle now (Some w) t (set_claim Claimed (Some w) (Some e) (j_attempt t + 1) now t)
  | lc_progress w s p t : held_by w t = true -> is_open t = true -> (s = j_status t \/ s = Running) ->
      lifecycle now (Some w) t
        (set_report p (j_result t) (j_last_error t) (set_claim s (j_claimed_by t) (j_claim_expires_at t) (j_attempt t) now t))
  | lc_extend w e t : held_by w t = true -> is_open t = true ->
      lifecycle now (Some w) t (set_claim (j_status t) (j_claimed_by t) (Some e) (j_attempt t) now t)
  | lc_done w r t : held_by w t = true -> is_open t = true ->
      lifecycle now (Some w) t
        (set_report (j_progress t) (Some r) (j_last_error t) (set_claim Done (j_claimed_by t) None (j_attempt t) now t))
  | lc_retry w e t : held_by w t = true -> is_open t = true -> j_attempt t < j_max_attempts t ->
      lifecycle now (Some w) t
        (set_report (j_progress t) (j_result t) (Some e) (set_claim Pending None None (j_attempt t) now t))
  | lc_failed w e t : held_by w t = true -> is_open t = true ->
      lifecycle now (Some w) t
        (set_report (j_progress t) (j_result t) (Some e) (set_claim Failed (j_claimed_by t) None (j_attempt t) now t))
  | lc_requeue e t : abandoned now t = true -> j_attempt t < j_max_attempts t ->
      lifecycle now None t
        (set_report (j_progress t) (j_result t) (Some e) (set_claim Pending None None (j_attempt t) now t))
  | lc_give_up e t : abandoned now t = true -> j_max_attempts t <= j_attempt t ->
      lifecycle now None t
        (set_report (j_progress t) (j_result t) (Some e) (set_claim Failed (j_claimed_by t) None (j_attempt t) now t)).

(** The shape of a row in each state. *)
Definition job_wf (t : JobRow) : Prop :=
  match j_status t with
  | Pending => j_claimed_by t = None /\ j_claim_expires_at t = None /\ 0 <= j_attempt t < j_max_attempts t
  | Claimed | Running => j_claimed_by t <> None /\ j_claim_expires_at t <> None /\ 1 <= j_attempt t <= j_max_attempts t
  | Done => j_result t <> None /\ j_claim_expires_at t = None /\ 1 <= j_attempt t <= j_max_attempts t
  | Failed => j_last_error t <> None /\ j_claim_expires_at t = None /\ 1 <= j_attempt t <= j_max_attempts t
  | Canceled => False
  end.

Definition terminal (t : JobRow) : Prop := j_status t = Done \/ j_status t = Failed.

(** A lease that has not run out. *)
Definition leased (w : Uuid) (now : Z) (t : JobRow) : Prop :=
  is_open t = true /\ held_by w t = true /\ lease_expired now t = false.

(** How far a job is from its end. *)
Definition remaining (t : JobRow) : nat :=
  3 * Z.to_nat (j_max_attempts t - j_attempt t) +
  match j_status t with Pending => 1 | Claimed | Running => 2 | _ => 0 end.

(** ** The statements *)

Inductive PgOp :=
  | OpEnqueue (id tenant : Uuid) (j : EnqueueJob)
  | OpClaim (worker : Uuid) (tenant : option Uuid) (caps kinds : list string) (lease : Z)
  | OpProgress (id worker : Uuid) (snapshot : Json)
  | OpComplete (id worker : Uuid) (result : Json)
  | OpFail (id worker : Uuid) (e : string)
  | OpFailTerminal (id worker : Uuid) (e : string)
  | OpExtend (id worker : Uuid) (lease : Z)
  | OpSweepRequeue
  | OpSweepFail.

Definition pg_apply (conflicts : EnqueueJob -> list JobRow -> bool) (op : PgOp) (now : Z) (l : list JobRow) : list JobRow :=
  match op with
  | OpEnqueue id tenant j => (enqueue_job conflicts id tenant now j l).2
  | OpClaim worker tenant caps kinds lease => (claim_job worker tenant caps kinds lease now l).2
  | OpProgress id worker s => (job_progress id worker s now l).2
  | OpComplete id worker r => (complete_job id worker r now l).2
  | OpFail id worker e => (fail_job id worker e now l).2
  | OpFailTerminal id worker e => (fail_job_terminal id worker e now l).2
  | OpExtend id worker lease => (extend_lease id worker lease now l).2
  | OpSweepRequeue => sweep_requeue now l
  | OpSweepFail => sweep_fail now l
  end.

(** Who runs the statement. *)
Definition actor (op : PgOp) : option Uuid :=
  match op with
  | OpClaim w _ _ _ _ | OpProgress _ w _ | OpComplete _ w _ | OpFail _ w _ | OpFailTerminal _ w _ | OpExtend _ w _ => Some w
  | _ => None
  end.

(** A fresh identifier, and at least one attempt. *)
Definition admissible (op : PgOp) (l : list JobRow) : Prop :=
  match op with
  | OpEnqueue id _ j => id ∉ j_id <$> l /\ 0 < ej_max_attempts j
  | _ => True
  end.

Definition pg_step (conflicts : EnqueueJob -> list JobRow -> bool) (l l' : list JobRow) : Prop :=
  exists op now, admissible op l /\ l' = pg_apply conflicts op now l.

(** *** Transitions of the machine *)

Lemma lifecycle_id now a t t' : lifecycle now a t t' -> j_id t' = j_id t.
Proof. by destruct 1. Qed.

Lemma lifecycle_max now a t t' : lifecycle now a t t' -> j_max_attempts t' = j_max_attempts t.
Proof. by destruct 1. Qed.

Lemma is_open_true t : is_open t = true <-> j_status t = Claimed \/ j_status t = Running.
Proof. apply bool_decide_eq_true. Qed.

Lemma abandoned_true now t : abandoned now t = true <-> is_open t = true /\ lease_expired now t = true.
Proof. apply andb_true_iff. Qed.

Lemma reclaimable_true now t : reclaimable now t = true <->
  j_status t = Pending \/ (is_open t = true /\ lease_expired now t = true /\ j_attempt t < j_max_attempts t).
Proof.
  unfold reclaimable. rewrite orb_true_iff, !andb_true_iff, !bool_decide_eq_true. tauto.
Qed.

Lemma open_wf t : job_wf t -> is_open t = true ->
  j_claimed_by t <> None /\ j_claim_expires_at t <> None /\ 1 <= j_attempt t <= j_max_attempts t.
Proof. unfold job_wf. by intros Hw [Hs|Hs]%is_open_true; rewrite Hs in Hw. Qed.

Lemma lifecycle_wf now a t t' : lifecycle now a t t' -> job_wf t -> job_wf t'.
Proof.
  intros Hl Hw. destruct Hl as [w e t Hr|w s p t Hh Ho Hs|w e t Hh Ho|w r t Hh Ho|w e t Hh Ho Hlt|w e t Hh Ho
    |e t Ha Hlt|e t Ha Hge].
  - apply reclaimable_true in Hr as [Hr|(Ho & _ & Hlt)]; unfold job_wf; simpl.
    + unfold job_wf in Hw. rewrite Hr in Hw. split_and!; done || lia.
    + destruct (open_wf t Hw Ho) as (_ & _ & ?). split_and!; done || lia.
  - pose proof (open_wf t Hw Ho) as Hwf. unfold job_wf; simpl. destruct Hs as [->| ->]; [|done].
    by apply is_open_true in Ho as [-> | ->].
  - pose proof (open_wf t Hw Ho) as (? & _ & ?). unfold job_wf; simpl. by apply is_open_true in Ho as [-> | ->].
  - pose proof (open_wf t Hw Ho) as (_ & _ & ?). unfold job_wf; simpl. split_and!; done || lia.
  - pose proof (open_wf t Hw Ho) as (_ & _ & ?). unfold job_wf; simpl. split_and!; done || lia.
  - pose proof (open_wf t Hw Ho) as (_ & _ & ?). unfold job_wf; simpl. split_and!; done || lia.
  - apply abandoned_true in Ha as [Ho _]. pose proof (open_wf t Hw Ho) as (_ & _ & ?). unfold job_wf; simpl. split_and!; done || lia.
  - apply abandoned_true in Ha as [Ho _]. pose proof (open_wf t Hw Ho) as (_ & _ & ?). unfold job_wf; simpl. split_and!; done || lia.
Qed.

(** A finished job does not change any more. *)
Lemma lifecycle_terminal now a t t' : lifecycle now a t t' -> ~ terminal t.
Proof.
  intros Hl Ht. assert (is_open t = false) as Ho by (apply bool_decide_eq_false; destruct Ht as [-> | ->]; by intros []).
  destruct Hl; try congruence;
    try match goal with H : abandoned _ _ = true |- _ => apply abandoned_true in H as [? _]; congruence end.
  apply reclaimable_true in H as [H|[H _]]; [|congruence]. by destruct Ht as [Ht|Ht]; rewrite Ht in H.
Qed.

(** While a lease runs, only its holder changes the job. *)
Lemma lifecycle_leased now a t t' w : lifecycle now a t t' -> leased w now t -> a = Some w.
Proof.
  intros Hl (Ho & Hh & He).
  assert (forall w', held_by w' t = true -> w' = w) as Hw.
  { intros w' Hw'. apply bool_decide_eq_true in Hw', Hh. congruence. }
  destruct Hl; try (f_equal; by apply Hw);
    try match goal with H : abandoned _ _ = true |- _ => apply abandoned_true in H as [_ ?]; congruence end.
  apply reclaimable_true in H as [H|(_ & H & _)]; [|congruence].
  apply is_open_true in Ho as [Ho|Ho]; congruence.
Qed.

(** Every transition that changes the state or the attempt brings the job
    closer to its end. *)
Definition same_stage (t t' : JobRow) : Prop := is_open t = is_open t' /\ (is_open t = false -> j_status t = j_status t') /\
  j_attempt t = j_attempt t'.

Lemma lifecycle_remaining now a t t' : lifecycle now a t t' -> job_wf t -> same_stage t t' \/ (remaining t' < remaining t)%nat.
Proof.
  intros Hl Hw.
  assert (forall t, is_open t = true -> match j_status t with Pending => 1 | Claimed | Running => 2 | _ => 0 end = 2)%nat as Hopen
    by (by intros u [-> | ->]%is_open_true).
  destruct Hl as [w e t Hr|w s p t Hh Ho Hs|w e t Hh Ho|w r t Hh Ho|w e t Hh Ho Hlt|w e t Hh Ho|e t Ha Hlt|e t Ha Hge];
    unfold remaining; simpl.
  - right. apply reclaimable_true in Hr as [Hr|(Ho & _ & Hlt)]; [|rewrite (Hopen _ Ho); lia].
    unfold job_wf in Hw. rewrite Hr in *. lia.
  - left. split_and!; [|congruence|done]. rewrite Ho. symmetry. apply bool_decide_eq_true.
    apply is_open_true in Ho. simpl. destruct Hs as [->| ->]; auto.
  - left. split_and!; done.
  - right. rewrite (Hopen _ Ho). lia.
  - right. rewrite (Hopen _ Ho). lia.
  - right. rewrite (Hopen _ Ho). lia.
  - right. apply abandoned_true in Ha as [Ho _]. rewrite (Hopen _ Ho). lia.
  - right. apply abandoned_true in Ha as [Ho _]. rewrite (Hopen _ Ho). lia.
Qed.

(** * The Postgres queue implements the life of a job

    Every statement changes the rows by transitions of the state machine, so
    the table stays well formed, and every job comes to an end. *)

Record table_wf (l : list JobRow) : Prop := {
  tw_ids : NoDup (j_id <$> l);
  tw_rows : Forall job_wf l }.

(** One row after a statement. *)
Definition row_after (now : Z) (a : option Uuid) (t t' : JobRow) : Prop := t' = t \/ lifecycle now a t t'.

Lemma update_row_after now a guard f l :
  (forall t, t ∈ l -> guard t = true -> lifecycle now a t (f t)) -> Forall2 (row_after now a) l (update_rows guard f l).
Proof.
  intros Hf. unfold update_rows. apply Forall2_fmap_r, Forall_Forall2_diag, Forall_forall.
  intros t Ht. unfold compose. destruct (guard t) eqn:Hg; [right; auto|by left].
Qed.

Lemma reports_true id w t : reports id w t = true <-> j_id t = id /\ held_by w t = true /\ is_open t = true.
Proof. unfold reports, is_job. rewrite !andb_true_iff, bool_decide_eq_true. tauto. Qed.

Lemma claim_job_spec worker tenant caps kinds lease now l :
  (claim_job worker tenant caps kinds lease now l = (None, l) /\
     forall t, t ∈ l -> pg_candidate worker tenant caps kinds now t = false) \/
  exists next, next ∈ l /\ pg_candidate worker tenant caps kinds now next = true /\
    claim_job worker tenant caps kinds lease now l =
      (Some (claimed_job (j_attempt next + 1) (now + seconds lease) next),
       update_rows (is_job (j_id next))
         (fun t => set_claim Claimed (Some worker) (Some (now + seconds lease)) (j_attempt t + 1) now t) l).
Proof.
  unfold claim_job. destruct (first_by _ _) as [next|] eqn:Hf.
  - right. apply first_by_elem, elem_of_where in Hf as [Hc Hn]. by exists next.
  - left. split; [done|]. intros t Ht. by eapply first_by_where_None.
Qed.

Lemma candidate_reclaimable worker tenant caps kinds now t :
  pg_candidate worker tenant caps kinds now t = true -> reclaimable now t = true.
Proof. unfold pg_candidate. by intros [_ ?]%andb_true_iff. Qed.

(** The refinement: a statement changes rows by transitions, or adds a row. *)
Lemma pg_apply_rows conflicts op now l : NoDup (j_id <$> l) ->
  Forall2 (row_after now (actor op)) l (pg_apply conflicts op now l) \/
  exists id tenant j, op = OpEnqueue id tenant j /\ pg_apply conflicts op now l = l ++ [new_job id tenant (ej_affinity j) now j].
Proof.
  intros Hnd. destruct op as [id tenant j|worker tenant caps kinds lease|id w s|id w r|id w e|id w e|id w lease| |]; simpl.
  - unfold enqueue_job. destruct (conflicts j l); simpl; [left|right; by eexists _, _, _].
    apply Forall_Forall2_diag, Forall_forall. by left.
  - left. destruct (claim_job_spec worker tenant caps kinds lease now l) as [[-> _]|(next & Hn & Hc & ->)]; simpl.
    + apply Forall_Forall2_diag, Forall_forall. by left.
    + apply update_row_after. intros t Ht Hid%bool_decide_eq_true. rewrite (same_key j_id l t next Hnd Ht Hn Hid).
      by eapply lc_claim, candidate_reclaimable.
  - left. apply update_row_after. intros t _ (_ & Hh & Ho)%reports_true. apply lc_progress; [done..|].
    case_decide; auto.
  - left. apply update_row_after. intros t _ (_ & Hh & Ho)%reports_true. by apply lc_done.
  - left. apply update_row_after. intros t _ (_ & Hh & Ho)%reports_true.
    case_decide; [by apply lc_failed|apply lc_retry; done || lia].
  - left. apply update_row_after. intros t _ (_ & Hh & Ho)%reports_true. by apply lc_failed.
  - left. apply update_row_after. intros t _ (_ & Hh & Ho)%reports_true. by apply lc_extend.
  - left. apply update_row_after. intros t _ [Ha Hlt%bool_decide_eq_true]%andb_true_iff. by apply lc_requeue.
  - left. apply update_row_after. intros t _ [Ha Hge%bool_decide_eq_true]%andb_true_iff. by apply lc_give_up.
Qed.

Lemma row_after_id now a t t' : row_after now a t t' -> j_id t' = j_id t.
Proof. intros [->|Hl]; [done|by eapply lifecycle_id]. Qed.

Lemma rows_after_ids now a l l' : Forall2 (row_after now a) l l' -> j_id <$> l' = j_id <$> l.
Proof. induction 1 as [|t t' l l' Ht _ IH]; [done|]. rewrite !fmap_cons, IH. f_equal. by eapply row_after_id. Qed.

(** ** Invariants *)

Lemma pg_apply_wf conflicts op now l : admissible op l -> table_wf l -> table_wf (pg_apply conflicts op now l).
Proof.
  intros Hadm [Hnd Hwf]. destruct (pg_apply_rows conflicts op now l Hnd) as [Hr|(id & tenant & j & -> & ->)].
  - split; [by erewrite rows_after_ids|].
    clear Hnd Hadm. induction Hr as [|t t' l l' Ht _ IH]; [constructor|]. apply Forall_cons in Hwf as [Hw Hwf].
    constructor; [|auto]. destruct Ht as [->|Hl]; [done|by eapply lifecycle_wf].
  - destruct Hadm as [Hid Hmax]. split.
    + rewrite fmap_app. apply NoDup_app. split_and!; [done| |apply NoDup_singleton].
      by intros x Hx ->%list_elem_of_singleton.
    + apply Forall_app. split; [done|]. constructor; [|constructor]. split_and!; simpl; done || lia.
Qed.

Lemma pg_steps_wf conflicts l l' : rtc (pg_step conflicts) l l' -> table_wf l -> table_wf l'.
Proof. induction 1 as [|l1 l2 l3 (op & now & Hadm & ->) _ IH]; intros Hw; auto using pg_apply_wf. Qed.

Lemma empty_wf : table_wf [].
Proof. split; constructor. Qed.

(** A row that no transition of the statement can change is in the table after it. *)
Lemma row_unchanged conflicts op now l t : NoDup (j_id <$> l) -> t ∈ l ->
  (forall t', ~ lifecycle now (actor op) t t') -> t ∈ pg_apply conflicts op now l.
Proof.
  intros Hnd Ht Hno. destruct (pg_apply_rows conflicts op now l Hnd) as [Hr|(id & tenant & j & -> & ->)]; [|set_solver].
  apply list_elem_of_lookup in Ht as [i Hi]. destruct (Forall2_lookup_l _ _ _ _ _ Hr Hi) as (t' & Hi' & [->|Hl]).
  - by eapply list_elem_of_lookup_2.
  - by destruct (Hno t').
Qed.

(** The row of a job before and after a statement. *)
Lemma row_followed conflicts op now l t : NoDup (j_id <$> l) -> t ∈ l ->
  exists t', t' ∈ pg_apply conflicts op now l /\ row_after now (actor op) t t'.
Proof.
  intros Hnd Ht. destruct (pg_apply_rows conflicts op now l Hnd) as [Hr|(id & tenant & j & -> & ->)].
  - apply list_elem_of_lookup in Ht as [i Hi]. destruct (Forall2_lookup_l _ _ _ _ _ Hr Hi) as (t' & Hi' & Hrow).
    exists t'. split; [by eapply list_elem_of_lookup_2|done].
  - exists t. split; [set_solver|by left].
Qed.

(** ** Progress *)

(** A run of statements that moves the job [id]: its state or its attempt changes. *)
Definition moves (conflicts : EnqueueJob -> list JobRow -> bool) (id : Uuid) (l l' : list JobRow) : Prop :=
  rtc (pg_step conflicts) l l' /\
  exists t t', t ∈ l /\ t' ∈ l' /\ j_id t = id /\ j_id t' = id /\ ~ same_stage t t'.

Definition finished (id : Uuid) (l : list JobRow) : Prop := exists t, t ∈ l /\ j_id t = id /\ terminal t.

Definition job_remaining (id : Uuid) (l : list JobRow) : nat :=
  sum_list_with (fun t => if is_job id t then remaining t else 0%nat) l.

Lemma job_remaining_row id l t : NoDup (j_id <$> l) -> t ∈ l -> j_id t = id -> job_remaining id l = remaining t.
Proof.
  intros Hnd Ht <-. apply list_elem_of_split in Ht as (l1 & l2 & ->). unfold job_remaining.
  rewrite sum_list_with_app. cbn [sum_list_with]. unfold is_job at 2. rewrite bool_decide_true by done.
  rewrite fmap_app, fmap_cons in Hnd. apply NoDup_app in Hnd as (_ & H1 & [H2 _]%NoDup_cons).
  assert (forall l', (forall u, u ∈ l' -> j_id u <> j_id t) ->
    sum_list_with (fun u => if is_job (j_id t) u then remaining u else 0%nat) l' = 0%nat) as Hzero.
  { induction l' as [|u l' IH]; intros Hne; [done|]. cbn [sum_list_with].
    unfold is_job at 1. rewrite bool_decide_false by (apply Hne; left).
    rewrite IH; [done|]. intros v Hv. apply Hne. by right. }
  rewrite (Hzero l1), (Hzero l2); [lia|..].
  - intros u Hu Heq. destruct H2. rewrite <-Heq. by apply list_elem_of_fmap_2.
  - intros u Hu Heq. apply (H1 (j_id u)); [by apply list_elem_of_fmap_2|rewrite Heq; left].
Qed.

Lemma same_stage_trans t1 t2 t3 : same_stage t1 t2 -> same_stage t2 t3 -> same_stage t1 t3.
Proof. intros (H1 & H2 & H3) (H4 & H5 & H6). split_and!; [congruence| |congruence]. intros Ho. rewrite H2, H5; congruence. Qed.

Lemma same_stage_refl t : same_stage t t.
Proof. done. Qed.

Lemma same_stage_remaining t t' : same_stage t t' -> j_max_attempts t' = j_max_attempts t -> remaining t' = remaining t.
Proof.
  intros (H1 & H2 & H3) Hm. unfold remaining. rewrite H3, Hm. destruct (is_open t) eqn:Ho.
  - symmetry in H1. by apply is_open_true in Ho as [-> | ->], H1 as [-> | ->].
  - by rewrite H2.
Qed.

(** Over a run, the row of a job keeps its stage or comes closer to its end. *)
Lemma steps_row conflicts l l' t : rtc (pg_step conflicts) l l' -> table_wf l -> t ∈ l ->
  exists t', t' ∈ l' /\ j_id t' = j_id t /\ j_max_attempts t' = j_max_attempts t /\
    (same_stage t t' \/ (remaining t' < remaining t)%nat).
Proof.
  intros Hsteps. revert t. induction Hsteps as [l|l1 l2 l3 (op & now & Hadm & ->) _ IH]; intros t Hw Ht.
  { exists t. split_and!; [done..|by left]. }
  pose proof (pg_apply_wf conflicts op now l1 Hadm Hw) as Hw2. destruct Hw as [Hnd Hwf].
  rewrite Forall_forall in Hwf.
  destruct (row_followed conflicts op now l1 t Hnd Ht) as (u & Hu & Hrow).
  destruct (IH u Hw2 Hu) as (t' & Ht' & Hid & Hmax & Hst). exists t'.
  rewrite Hid, Hmax, (row_after_id _ _ _ _ Hrow).
  destruct Hrow as [->|Hl]; [done|]. rewrite (lifecycle_max _ _ _ _ Hl). split_and!; [done..|].
  destruct (lifecycle_remaining _ _ _ _ Hl (Hwf t Ht)) as [Hs|Hlt].
  - pose proof (same_stage_remaining t u Hs (lifecycle_max _ _ _ _ Hl)) as Hr.
    destruct Hst as [Hs2|Hlt]; [left; by eapply same_stage_trans|right; lia].
  - right. destruct Hst as [Hs2|?]; [|lia]. pose proof (same_stage_remaining u t' Hs2 Hmax). lia.
Qed.

Lemma moves_remaining conflicts id l l' : table_wf l -> moves conflicts id l l' ->
  (job_remaining id l' < job_remaining id l)%nat.
Proof.
  intros Hw (Hsteps & t & t' & Ht & Ht' & Hid & Hid' & Hns).
  pose proof (pg_steps_wf conflicts l l' Hsteps Hw) as [Hnd' _].
  destruct (steps_row conflicts l l' t Hsteps Hw Ht) as (u & Hu & Huid & _ & Hst).
  assert (u = t') as -> by (apply (same_key j_id _ _ _ Hnd' Hu Ht'); congruence).
  destruct Hw as [Hnd _]. rewrite (job_remaining_row id _ t' Hnd' Ht' Hid'), (job_remaining_row id l t Hnd Ht Hid).
  by destruct Hst.
Qed.

(** A job that has just been claimed is no candidate. *)
Lemma just_claimed worker tenant caps kinds w e att now t : now <= e ->
  pg_candidate worker tenant caps kinds now (set_claim Claimed w (Some e) att now t) = false.
Proof.
  intros He. apply not_true_is_false. intros [Hs|(_ & Hx & _)]%candidate_reclaimable%reclaimable_true; [done|].
  apply bool_decide_eq_true in Hx. lia.
Qed.

(** A worker that polls often enough comes to claim a given pending job: each
    claim takes a candidate that precedes it. *)
Lemma poll_reaches conflicts worker now l t : table_wf l -> t ∈ l -> j_status t = Pending ->
  pg_candidate worker None (j_req_capabilities t) [j_kind t] now t = true ->
  exists l' t', rtc (pg_step conflicts) l l' /\ t' ∈ l' /\ j_id t' = j_id t /\ j_status t' = Claimed.
Proof.
  remember (sum_list_with (fun u => if pg_candidate worker None (j_req_capabilities t) [j_kind t] now u then 1 else 0)%nat l)
    as n eqn:Hn. revert l Hn. induction (lt_wf n) as [n _ IH]. intros l -> Hw Ht Hs Hc.
  set (op := OpClaim worker None (j_req_capabilities t) [j_kind t] 1).
  assert (pg_step conflicts l (pg_apply conflicts op now l)) as Hstep by (by exists op, now).
  pose proof (pg_apply_wf conflicts op now l I Hw) as Hw'. destruct Hw as [Hnd Hwf].
  simpl in Hw', Hstep.
  destruct (claim_job_spec worker None (j_req_capabilities t) [j_kind t] 1 now l) as [[_ Hnone]|(next & Hnx & Hcn & Heq)].
  { by rewrite (Hnone t Ht) in Hc. }
  rewrite Heq in Hw', Hstep. simpl in Hw', Hstep.
  destruct (decide (j_id next = j_id t)) as [Hid|Hne].
  - pose proof (same_key j_id l next t Hnd Hnx Ht Hid) as ->.
    eexists _, (set_claim Claimed (Some worker) (Some (now + seconds 1)) (j_attempt t + 1) now t).
    split_and!; [by apply rtc_once| |done|done].
    apply elem_of_update_rows. exists t. split; [done|]. unfold is_job. by rewrite bool_decide_true.
  - edestruct IH as (l' & t' & Hsteps & Ht' & Hid' & Hs'); [|reflexivity|exact Hw'| |exact Hs|exact Hc|].
    + apply (update_rows_sum_lt _ _ _ _ next); [|done|by apply bool_decide_eq_true|].
      * intros u Hu Hid%bool_decide_eq_true. rewrite (same_key j_id l u next Hnd Hu Hnx Hid), Hcn. by case_match; lia.
      * cbn beta. rewrite Hcn, just_claimed; [lia|]. unfold seconds. lia.
    + apply elem_of_update_rows. exists t. split; [done|]. unfold is_job. by rewrite bool_decide_false.
    + exists l', t'. split_and!; [|done..]. eapply rtc_l; [done|done].
Qed.

(** The updated row is in the table. *)
Lemma update_row_in (guard : JobRow -> bool) f l t : t ∈ l -> guard t = true -> f t ∈ update_rows guard f l.
Proof. intros Ht Hg. apply elem_of_update_rows. exists t. by rewrite Hg. Qed.

(** An unfinished job can move: a worker claims it, or the sweep releases it. *)
Lemma unfinished_moves conflicts id l t : table_wf l -> t ∈ l -> j_id t = id -> ~ terminal t ->
  exists l', moves conflicts id l l'.
Proof.
  intros Hw Ht Hid Hterm. pose proof Hw as [Hnd Hwf]. rewrite Forall_forall in Hwf. specialize (Hwf t Ht).
  destruct (decide (j_status t = Pending)) as [Hs|Hs].
  - destruct (poll_reaches conflicts (default 0%N (j_affinity t)) 0 l t Hw Ht Hs) as (l' & t' & Hsteps & Ht' & Hid' & Hs').
    { unfold pg_candidate, capable, reclaimable. rewrite !andb_true_iff, orb_true_iff, !bool_decide_eq_true, forallb_forall.
      split_and!; [left|by left|destruct (j_affinity t); auto| |by left].
      intros c Hc%list_elem_of_In. by apply bool_decide_eq_true. }
    exists l'. split; [done|]. exists t, t'. split_and!; try done; [congruence|].
    intros [Ho _]. assert (is_open t' = true) as Ho' by (apply is_open_true; auto). rewrite Ho' in Ho.
    apply is_open_true in Ho as [Ho|Ho]; congruence.
  - assert (is_open t = true) as Ho.
    { apply is_open_true. unfold job_wf in Hwf. destruct (j_status t) eqn:E; try done; auto; exfalso; apply Hterm; unfold terminal; auto. }
    destruct (open_wf t Hwf Ho) as (_ & Hlease & Hatt). destruct (j_claim_expires_at t) as [e|] eqn:He; [|done].
    assert (abandoned (e + 1) t = true) as Hab.
    { apply abandoned_true. split; [done|]. unfold lease_expired. rewrite He. apply bool_decide_eq_true. lia. }
    set (op := if decide (j_attempt t < j_max_attempts t) then OpSweepRequeue else OpSweepFail).
    exists (pg_apply conflicts op (e + 1) l). split.
    { apply rtc_once. exists op, (e + 1). split; [unfold op; by case_decide|done]. }
    unfold op. case_decide as Hlt; simpl; unfold sweep_requeue, sweep_fail.
    + pose proof (update_row_in (fun u => abandoned (e + 1) u && bool_decide (j_attempt u < j_max_attempts u))
        (fun t => set_report (j_progress t) (j_result t) (Some (default "" (j_last_error t) +:+ " [recovered: stale lease]"))
           (set_claim Pending None None (j_attempt t) (e + 1) t)) l t Ht) as Hin. cbn beta in Hin.
      rewrite Hab, bool_decide_true in Hin by lia. specialize (Hin eq_refl).
      eexists t, _. split_and!; [done|exact Hin|done|done|]. intros [Hop _]. by rewrite Ho in Hop.
    + pose proof (update_row_in (fun u => abandoned (e + 1) u && bool_decide (j_max_attempts u <= j_attempt u))
        (fun t => set_report (j_progress t) (j_result t)
           (Some (default "" (j_last_error t) +:+ " [failed: lease expired, attempts exhausted]"))
           (set_claim Failed (j_claimed_by t) None (j_attempt t) (e + 1) t)) l t Ht) as Hin. cbn beta in Hin.
      rewrite Hab, bool_decide_true in Hin by lia. specialize (Hin eq_refl).
      eexists t, _. split_and!; [done|exact Hin|done|done|]. intros [Hop _]. by rewrite Ho in Hop.
Qed.
