(* ===== verification/JobRunner.v ===== *)
(** * The runner over either queue, and the local queue

    [JobQueueLaws] is what the runner of [pensieve-jobs] relies on when no one
    else touches its job; the Postgres and the SQLite queue satisfy it.  The
    operations of [SqliteQueue] are then run in sequence, to follow a job whose
    worker is gone. *)

From stdpp Require Import base gmap strings list relations.
From Stdlib Require Import ZArith NArith Lia.
From S2P Require Import Prelude Arrow SqlTable JobStore JobLifecycle.

Local Open Scope Z_scope.

(** A job that a worker has claimed and not reported on. *)
Definition working (w : Uuid) (job : ClaimedJob) (t : JobRow) : Prop :=
  j_id t = cj_id job /\ held_by w t = true /\ is_open t = true /\ j_attempt t = cj_attempt job /\
  j_max_attempts t = cj_max_attempts job.

Class JobQueueLaws (q : JobQueue) (w : Uuid) := {
  jq_claim kinds now l : NoDup (j_id <$> l) ->
    NoDup (j_id <$> (claim q kinds 1 now l).2) /\
    match (claim q kinds 1 now l).1 with
    | [] => (claim q kinds 1 now l).2 = l
    | [job] => exists t, t ∈ (claim q kinds 1 now l).2 /\ working w job t
    | _ => False
    end;
  jq_extend id lease now l job t : NoDup (j_id <$> l) -> t ∈ l -> working w job t -> id = cj_id job ->
    NoDup (j_id <$> (extend q id lease now l).2) /\
    exists t', t' ∈ (extend q id lease now l).2 /\ working w job t';
  jq_complete job r now l t : t ∈ l -> working w job t ->
    (complete q (cj_id job) r now l).1 = true /\
    exists t', t' ∈ (complete q (cj_id job) r now l).2 /\ j_id t' = cj_id job /\ j_status t' = Done /\ j_result t' = Some r;
  jq_fail job e now l t : NoDup (j_id <$> l) -> t ∈ l -> working w job t ->
    (fail q (cj_id job) e now l).1 = true /\
    exists t', t' ∈ (fail q (cj_id job) e now l).2 /\ j_id t' = cj_id job /\ j_last_error t' = Some e /\
      j_status t' = if decide (cj_max_attempts job <= cj_attempt job) then Failed else Pending;
  jq_fail_terminal job e now l t : t ∈ l -> working w job t ->
    (fail_terminal q (cj_id job) e now l).1 = true /\
    exists t', t' ∈ (fail_terminal q (cj_id job) e now l).2 /\ j_id t' = cj_id job /\ j_last_error t' = Some e /\
      j_status t' = Failed }.

(** An update that the worker's row passes takes effect on it. *)
Lemma update_jobs_hit guard f l t : t ∈ l -> guard t = true ->
  (update_jobs guard f l).1 = true /\ f t ∈ (update_jobs guard f l).2.
Proof.
  intros Ht Hg. unfold update_jobs. simpl. split; [|by apply update_row_in].
  apply bool_decide_eq_true. destruct (rows_affected guard l) eqn:Hr; [|lia].
  rewrite rows_affected_zero in Hr. by rewrite (Hr t Ht) in Hg.
Qed.

Lemma working_reports w job t : working w job t -> reports (cj_id job) w t = true.
Proof. intros (Hid & Hh & Ho & _). by apply reports_true. Qed.

(** What the outcome of an executor leaves of its job. *)
Definition settled_as (outcome : option (Json + JobError)) (job : ClaimedJob) (t : JobRow) : Prop :=
  match outcome with
  | Some (inl r) => j_status t = Done /\ j_result t = Some r
  | Some (inr (Transient m)) =>
      j_status t = (if decide (cj_max_attempts job <= cj_attempt job) then Failed else Pending) /\ j_last_error t = Some m
  | Some (inr e) => j_status t = Failed /\ j_last_error t = Some (job_error_text e)
  | None => j_status t = Failed /\ j_last_error t = Some ("no executor for kind " +:+ cj_kind job)
  end.

Section Runner.
  Context {q : JobQueue} {w : Uuid} {Hq : JobQueueLaws q w}.

Lemma run_job_settles lease outcome job ticks done_at l t : NoDup (j_id <$> l) -> t ∈ l -> working w job t ->
  exists t', t' ∈ (run_job q lease outcome job ticks done_at l).2 /\ j_id t' = cj_id job /\ settled_as outcome job t'.
Proof.
  intros Hnd Ht Hw. unfold run_job. destruct outcome as [outcome|].
  - assert (exists u, u ∈ foldl (fun l tick => (extend q (cj_id job) lease tick l).2) l ticks /\ working w job u /\
              NoDup (j_id <$> foldl (fun l tick => (extend q (cj_id job) lease tick l).2) l ticks)) as (u & Hu & Hwu & Hndu).
    { revert l t Hnd Ht Hw. induction ticks as [|tick ticks IH]; intros l t Hnd Ht Hw; simpl; [by exists t|].
      destruct (jq_extend (cj_id job) lease tick l job t Hnd Ht Hw eq_refl) as (Hnd' & t' & Ht' & Hw'). by eapply IH. }
    destruct outcome as [r|[m|m|m]]; simpl.
    + destruct (jq_complete job r done_at _ u Hu Hwu) as (_ & t' & Ht' & Hid & Hs & Hr). by exists t'.
    + destruct (jq_fail job m done_at _ u Hndu Hu Hwu) as (_ & t' & Ht' & Hid & He & Hs). by exists t'.
    + destruct (jq_fail_terminal job (job_error_text (Permanent m)) done_at _ u Hu Hwu) as (_ & t' & Ht' & Hid & He & Hs).
      by exists t'.
    + destruct (jq_fail_terminal job (job_error_text (Config m)) done_at _ u Hu Hwu) as (_ & t' & Ht' & Hid & He & Hs).
      by exists t'.
  - destruct (jq_fail_terminal job ("no executor for kind " +:+ cj_kind job) done_at l t Ht Hw) as (_ & t' & Ht' & Hid & He & Hs).
    by exists t'.
Qed.

Lemma claim_and_run_one_spec lease kinds run now ticks done_at l : NoDup (j_id <$> l) ->
  claim_and_run_one q lease kinds run now ticks done_at l = (false, l) \/
  exists job t', (claim q kinds 1 now l).1 = [job] /\ (claim_and_run_one q lease kinds run now ticks done_at l).1 = true /\
    t' ∈ (claim_and_run_one q lease kinds run now ticks done_at l).2 /\ j_id t' = cj_id job /\ settled_as (run job) job t'.
Proof.
  intros Hnd. unfold claim_and_run_one. destruct (jq_claim kinds now l Hnd) as [Hnd' Hc].
  destruct (claim q kinds 1 now l) as [[|job [|]] l']; simpl in *; [left; congruence| |done].
  destruct Hc as (t & Ht & Hw). right.
  destruct (run_job_settles lease (run job) job ticks done_at l' t Hnd' Ht Hw) as (t' & ? & ? & ?).
  exists job, t'. done.
Qed.
End Runner.

(** ** Postgres *)

Lemma pg_reported w job f l t : t ∈ l -> working w job t ->
  (update_jobs (reports (cj_id job) w) f l).1 = true /\ f t ∈ (update_jobs (reports (cj_id job) w) f l).2.
Proof. intros Ht Hw. by apply update_jobs_hit; [|apply working_reports]. Qed.

#[export] Instance pg_queue_laws (q : PgQueue) : JobQueueLaws (pg_queue q) (pq_worker_id q).
Proof.
  split; simpl.
  - intros kinds now l Hnd.
    destruct (claim_job_spec (pq_worker_id q) (pq_tenant q) (pq_capabilities q) kinds (pq_lease_secs q) now l)
      as [[-> _]|(next & Hn & Hc & ->)]; simpl; [done|].
    split; [by rewrite update_rows_fmap|]. eexists. split; [apply update_row_in; [done|by apply bool_decide_eq_true]|].
    split_and!; [done|by apply bool_decide_eq_true|apply is_open_true; by left|done..].
  - intros id lease now l job t Hnd Ht Hw ->. split; [simpl; by rewrite update_rows_fmap|].
    eexists. split; [by eapply pg_reported|]. by destruct Hw as (? & ? & ? & ? & ?).
  - intros job r now l t Ht Hw. edestruct pg_reported as [Ha Hin]; [done..|]. split; [exact Ha|].
    eexists. split; [exact Hin|]. split; [apply Hw|done].
  - intros job e now l t _ Ht Hw. edestruct pg_reported as [Ha Hin]; [done..|]. split; [exact Ha|].
    eexists. split; [exact Hin|]. destruct Hw as (Hid & _ & _ & -> & ->). by case_decide.
  - intros job e now l t Ht Hw. edestruct pg_reported as [Ha Hin]; [done..|]. split; [exact Ha|].
    eexists. split; [exact Hin|]. split_and!; [apply Hw|done..].
Qed.

(** ** SQLite *)

Lemma sq_reported q job f l t : t ∈ l -> working (worker_id q) job t ->
  (update_jobs (sq_reports q (cj_id job)) f l).1 = true /\ f t ∈ (update_jobs (sq_reports q (cj_id job)) f l).2.
Proof.
  intros Ht (Hid & Hh & _). apply update_jobs_hit; [done|]. unfold sq_reports. rewrite Hh. unfold is_job.
  by rewrite bool_decide_true.
Qed.

Lemma sq_claim_hit q row now l : row ∈ l -> reclaimable now row = true ->
  (sq_claim_update q (j_id row) now l).1 = true /\
  set_claim Claimed (Some (worker_id q)) (Some (now + seconds (lease_secs q))) (j_attempt row + 1) now row
    ∈ (sq_claim_update q (j_id row) now l).2.
Proof.
  intros Hin [Hs|(Ho & He & _)]%reclaimable_true;
    apply (update_jobs_hit _ (fun t => set_claim Claimed (Some (worker_id q)) (Some (now + seconds (lease_secs q)))
                                         (j_attempt t + 1) now t)); try done; unfold is_job; rewrite bool_decide_true by done.
  - by rewrite bool_decide_true.
  - rewrite Ho, He. apply orb_true_r.
Qed.

(** Undisturbed, the row that was read is the row that is claimed. *)
Lemma sq_try_kind_spec q kind now l :
  sq_try_kind q kind now l = (None, l) \/
  exists row, row ∈ l /\ j_kind row = kind /\ reclaimable now row = true /\ capable (capabilities q) row = true /\
    sq_try_kind q kind now l =
      (Some (claimed_job (j_attempt row + 1) (now + seconds (lease_secs q)) row),
       (sq_claim_update q (j_id row) now l).2).
Proof.
  unfold sq_try_kind, sq_select. destruct (first_by _ _) as [row|] eqn:Hf; [|by left].
  apply first_by_elem, elem_of_where in Hf as [[Hk%bool_decide_eq_true Hr]%andb_true_iff Hin].
  destruct (capable (capabilities q) row) eqn:Hcap; simpl; [right|by left].
  exists row. split_and!; [done..|]. destruct (sq_claim_hit q row now l Hin Hr) as [Ha _].
  unfold sq_claim_update, update_jobs in *. simpl in *. by rewrite Ha.
Qed.

Lemma sq_claim_one_spec q kinds now l :
  sq_claim_one q kinds now l = (None, l) \/
  exists row, row ∈ l /\ j_kind row ∈ kinds /\ reclaimable now row = true /\ capable (capabilities q) row = true /\
    sq_claim_one q kinds now l =
      (Some (claimed_job (j_attempt row + 1) (now + seconds (lease_secs q)) row),
       (sq_claim_update q (j_id row) now l).2).
Proof.
  induction kinds as [|kind kinds IH]; simpl; [by left|].
  destruct (sq_try_kind_spec q kind now l) as [->|(row & Hin & Hk & Hr & Hc & ->)].
  - destruct IH as [?|(row & Hin & Hk & Hrest)]; [by left|right]. exists row. split_and!; [done|by right|apply Hrest..].
  - right. exists row. split_and!; [done|rewrite Hk; left|done..].
Qed.

Lemma sq_terminal_row id l t : NoDup (j_id <$> l) -> t ∈ l -> j_id t = id ->
  sq_terminal id l = bool_decide (j_max_attempts t <= j_attempt t).
Proof.
  intros Hnd Ht Hid. unfold sq_terminal. destruct (list_find _ l) as [[i u]|] eqn:Hf.
  - apply list_find_Some in Hf as (Hi & Hu & _). apply bool_decide_eq_true in Hu.
    apply list_elem_of_lookup_2 in Hi. by rewrite (same_key j_id l u t Hnd Hi Ht) by congruence.
  - apply list_find_None in Hf. rewrite Forall_forall in Hf. destruct (Hf t Ht). by apply bool_decide_eq_true.
Qed.

#[export] Instance sqlite_queue_laws (q : SqliteQueue) : JobQueueLaws (sqlite_queue q) (worker_id q).
Proof.
  split; simpl.
  - intros kinds now l Hnd.
    destruct (sq_claim_one_spec q kinds now l) as [->|(row & Hin & _ & Hr & _ & ->)]; simpl; [done|].
    destruct (sq_claim_hit q row now l Hin Hr) as [_ Hx].
    split; [by rewrite update_rows_fmap|]. eexists. split; [exact Hx|].
    split_and!; [done|by apply bool_decide_eq_true|apply is_open_true; by left|done..].
  - intros id lease now l job t Hnd Ht Hw ->. split; [simpl; by rewrite update_rows_fmap|].
    eexists. split; [by eapply sq_reported|]. by destruct Hw as (? & ? & ? & ? & ?).
  - intros job r now l t Ht Hw. edestruct sq_reported as [Ha Hin]; [done..|]. split; [exact Ha|].
    eexists. split; [exact Hin|]. split; [apply Hw|done].
  - intros job e now l t Hnd Ht Hw. unfold sq_fail. edestruct sq_reported as [Ha Hin]; [done..|]. split; [exact Ha|].
    eexists. split; [exact Hin|]. destruct Hw as (Hid & _ & _ & Hat & Hmax).
    rewrite (sq_terminal_row _ _ _ Hnd Ht Hid), Hat, Hmax. split_and!; [done..|]. simpl. by repeat case_decide.
  - intros job e now l t Ht Hw. edestruct sq_reported as [Ha Hin]; [done..|]. split; [exact Ha|].
    eexists. split; [exact Hin|]. split_and!; [apply Hw|done..].
Qed.

(** * The SQLite queue with several workers

    In SQLite a claim is a read of the table and, later, an update of the row
    that was read.  [sq_step] interleaves the statements of any number of
    workers; between its two statements a claim is in flight.  A worker
    reports only on behalf of its own identity, which the process draws when
    it starts. *)

Record SqSystem := { sq_rows : list JobRow; in_flight : list (SqliteQueue * Uuid) }.

(** The statements with which a worker reports. *)
Inductive SqReport :=
  | SqProgress (snapshot : Json)
  | SqComplete (result : Json)
  | SqFail (terminal : bool) (e : string)
  | SqExtend (lease : Z).

Definition sq_report (q : SqliteQueue) (id : Uuid) (r : SqReport) (now : Z) (l : list JobRow) : list JobRow :=
  match r with
  | SqProgress s => (sq_progress q id s now l).2
  | SqComplete x => (sq_complete q id x now l).2
  | SqFail terminal e => (sq_fail_update q id terminal e now l).2
  | SqExtend lease => (sq_extend_lease q id lease now l).2
  end.

(** The workers that run, as a predicate on their identities. *)
Inductive sq_step (live : Uuid -> Prop) : SqSystem -> SqSystem -> Prop :=
  | sq_read q kind now row s : live (worker_id q) -> sq_select kind now (sq_rows s) = Some row ->
      capable (capabilities q) row = true ->
      sq_step live s {| sq_rows := sq_rows s; in_flight := in_flight s ++ [(q, j_id row)] |}
  | sq_write q id now s rest : in_flight s ≡ₚ (q, id) :: rest ->
      sq_step live s {| sq_rows := (sq_claim_update q id now (sq_rows s)).2; in_flight := rest |}
  | sq_tell q id r now s : live (worker_id q) ->
      sq_step live s {| sq_rows := sq_report q id r now (sq_rows s); in_flight := in_flight s |}
  | sq_insert conflicts id tenant now j s : id ∉ j_id <$> sq_rows s ->
      sq_step live s {| sq_rows := (sq_enqueue conflicts id tenant now j (sq_rows s)).2; in_flight := in_flight s |}.

(** An open job of a worker that is gone, without attempts left, which no claim
    in flight has read. *)
Record stuck (live : Uuid -> Prop) (t : JobRow) (s : SqSystem) : Prop := {
  st_ids : NoDup (j_id <$> sq_rows s);
  st_in : t ∈ sq_rows s;
  st_open : is_open t = true;
  st_exhausted : j_max_attempts t <= j_attempt t;
  st_gone w : j_claimed_by t = Some w -> ~ live w;
  st_unread q : (q, j_id t) ∉ in_flight s }.

Lemma exhausted_not_reclaimable now t : is_open t = true -> j_max_attempts t <= j_attempt t -> reclaimable now t = false.
Proof.
  intros Ho Hge. apply not_true_is_false. intros [Hs|(_ & _ & Hlt)]%reclaimable_true; [|lia].
  apply is_open_true in Ho as [Ho|Ho]; congruence.
Qed.

Lemma sq_select_elem kind now l row : sq_select kind now l = Some row -> row ∈ l /\ j_kind row = kind /\ reclaimable now row = true.
Proof. by intros [[Hk%bool_decide_eq_true Hr]%andb_true_iff Hin]%first_by_elem%elem_of_where. Qed.

(** A row that the guard passes over is not changed. *)
Lemma update_jobs_other guard f l t : t ∈ l -> guard t = false -> t ∈ (update_jobs guard f l).2.
Proof. intros Ht Hg. apply elem_of_update_rows. exists t. by rewrite Hg. Qed.

Lemma sq_report_row q id r now l :
  exists f, sq_report q id r now l = (update_jobs (sq_reports q id) f l).2 /\ forall t, j_id (f t) = j_id t.
Proof. destruct r; simpl; by eexists. Qed.

Lemma stuck_step live t s s' : sq_step live s s' -> stuck live t s -> stuck live t s'.
Proof.
  intros Hs [Hnd Hin Ho Hex Hgone Hun].
  destruct Hs as [q kind now row s Hlive Hsel Hcap|q id now s rest Hperm|q id r now s Hlive|conflicts id tenant now j s Hid];
    simpl in *.
  - split; simpl; try done. intros q' [Hq|Hq%list_elem_of_singleton]%elem_of_app; [by apply (Hun q')|].
    apply sq_select_elem in Hsel as (Hrow & _ & Hr). injection Hq as -> Heq.
    rewrite (same_key j_id _ _ _ Hnd Hrow Hin (eq_sym Heq)), exhausted_not_reclaimable in Hr; done.
  - assert (forall q', (q', j_id t) ∉ rest) as Hun' by (intros q' Hq; apply (Hun q'); rewrite Hperm; by right).
    split; simpl; try done; [by rewrite update_rows_fmap|]. apply update_jobs_other; [done|].
    unfold is_job. rewrite bool_decide_false; [done|]. intros Hid. apply (Hun q). rewrite Hperm, Hid. left.
  - destruct (sq_report_row q id r now (sq_rows s)) as (f & -> & Hf).
    split; simpl; try done; [by rewrite update_rows_fmap|]. apply update_jobs_other; [done|].
    unfold sq_reports, held_by. apply andb_false_iff. right. apply bool_decide_eq_false. intros Hw. by destruct (Hgone _ Hw).
  - unfold sq_enqueue. destruct (conflicts j (sq_rows s)); simpl; [done|]. split; simpl; try done; [|set_solver].
    rewrite fmap_app. apply NoDup_app. split_and!; [done| |apply NoDup_singleton]. by intros x Hx ->%list_elem_of_singleton.
Qed.
