(* ===== verification/JobProperties.v ===== *)
(** * What the job fabric guarantees

    The theorems on the [jobs] table: its invariant, the exclusion that a
    lease gives, the end of every job, the report of the runner, and where the
    local queue differs. *)

From stdpp Require Import base gmap strings list relations.
From Stdlib Require Import ZArith NArith Lia.
From S2P Require Import Prelude Arrow SqlTable JobStore JobLifecycle JobRunner.

Local Open Scope Z_scope.
Local Open Scope string_scope.

(** ** A sequence of statements *)

Definition pg_run (conflicts : EnqueueJob -> list JobRow -> bool) (ops : list (PgOp * Z)) (l : list JobRow) : list JobRow :=
  foldl (fun l '(op, now) => pg_apply conflicts op now l) l ops.

Fixpoint admissible_run (conflicts : EnqueueJob -> list JobRow -> bool) (ops : list (PgOp * Z)) (l : list JobRow) : Prop :=
  match ops with
  | [] => True
  | (op, now) :: ops => admissible op l /\ admissible_run conflicts ops (pg_apply conflicts op now l)
  end.

(** ** Samples *)

Definition no_conflict : EnqueueJob -> list JobRow -> bool := fun _ _ => false.
Definition sync_job : EnqueueJob :=
  {| ej_kind := "data_source_sync"; ej_payload := JNull; ej_priority := 0; ej_affinity := None;
     ej_req_capabilities := ["data_source"]; ej_max_attempts := 2 |}.
Definition claim_as (w : Uuid) : PgOp := OpClaim w None ["data_source"] ["data_source_sync"] 120.

(** Worker 7 claims the job and is gone; the sweep releases it, worker 8 claims it. *)
Definition retried_run : list (PgOp * Z) :=
  [(OpEnqueue 1 5 sync_job, 0); (claim_as 7, 1); (OpSweepRequeue, seconds 121); (claim_as 8, seconds 122)].
Definition retried_table : list JobRow := Eval vm_compute in pg_run no_conflict retried_run [].
Definition retried_row : JobRow := Eval vm_compute in nth 0 retried_table (new_job 0 0 None 0 sync_job).

Lemma pg_run_steps conflicts ops l : admissible_run conflicts ops l -> rtc (pg_step conflicts) l (pg_run conflicts ops l).
Proof.
  revert l. induction ops as [|[op now] ops IH]; intros l; simpl; [done|]. intros [Ha Hrun].
  eapply rtc_l; [by exists op, now|by apply IH].
Qed.

Lemma retried_steps : rtc (pg_step no_conflict) [] retried_table.
Proof.
  apply (pg_run_steps no_conflict retried_run). simpl. split_and!; try done. apply not_elem_of_nil.
Defined.

(** ** Postgres *)

(** C31: whatever statements the server and any number of workers run on the
    [jobs] table, in any order and at any times, identifiers stay unique and
    every row stays well formed: a pending job has no claimant, no lease and
    an attempt left, an open one has both and has used at least one attempt,
    a finished one has its result or its error and no lease, and the number of
    attempts never exceeds the bound given at the insertion. *)
Theorem jobs_well_formed conflicts l : rtc (pg_step conflicts) [] l -> table_wf l.
Proof. intros Hs. eapply pg_steps_wf; [exact Hs|apply empty_wf]. Qed.

Lemma jobs_well_formed_witness : table_wf retried_table.
Proof. exact (jobs_well_formed no_conflict retried_table retried_steps). Defined.

Lemma pg_run_keeps conflicts ops l t : table_wf l -> admissible_run conflicts ops l -> t ∈ l ->
  Forall (fun '(op, now) => terminal t \/ exists w, leased w now t /\ actor op <> Some w) ops -> t ∈ pg_run conflicts ops l.
Proof.
  revert l. induction ops as [|[op now] ops IH]; intros l Hw; simpl; [done|].
  intros [Ha Hrun] Ht [Hk Hks]%Forall_cons. apply IH; [by apply pg_apply_wf|done| |done].
  apply row_unchanged; [by destruct Hw|done|]. intros t' Hl. destruct Hk as [Hk|(w & Hk & Hne)].
  - by eapply lifecycle_terminal.
  - by apply Hne, (lifecycle_leased _ _ _ _ _ Hl).
Qed.

(** C30: a job that is done or has failed never changes again, and a job whose
    lease has not run out is not changed by anyone but its holder: whatever
    other workers, the enqueuers and the sweep do at such times, its row is
    in the table unchanged.  In particular a worker that lost its lease cannot
    complete, fail or prolong a job that another worker has claimed since. *)
Theorem lease_exclusive conflicts ops l t :
  rtc (pg_step conflicts) [] l -> admissible_run conflicts ops l -> t ∈ l ->
  Forall (fun '(op, now) => terminal t \/ exists w, leased w now t /\ actor op <> Some w) ops -> t ∈ pg_run conflicts ops l.
Proof. intros Hs. apply pg_run_keeps. eapply pg_steps_wf; [exact Hs|apply empty_wf]. Qed.

(** The report of worker 7 comes late: the job is worker 8's. *)
Lemma lease_exclusive_witness :
  retried_row ∈ pg_run no_conflict [(OpComplete 1 7 JNull, seconds 130); (OpSweepRequeue, seconds 131)] retried_table.
Proof.
  refine (lease_exclusive no_conflict _ retried_table retried_row retried_steps _ _ _).
  - repeat split.
  - left.
  - do 2 (apply Forall_cons; split; [right; exists 8%N; split; [split_and!; vm_compute; reflexivity|discriminate]|]).
    constructor.
Defined.

(** C39: every job comes to an end.  From any table that the statements can
    reach, whatever the order in which the job is claimed, lost, released,
    failed and claimed again, as long as it is not finished some statements
    that move it can be run, and after finitely many moves it is done or has
    failed for good: the job can neither be lost nor be retried forever. *)
Theorem jobs_eventually_finish conflicts l t :
  rtc (pg_step conflicts) [] l -> t ∈ l -> eventually (moves conflicts (j_id t)) (finished (j_id t)) l.
Proof.
  intros Hs Ht.
  apply (eventually_measure _ (fun l => table_wf l /\ exists u, u ∈ l /\ j_id u = j_id t) (job_remaining (j_id t))).
  - intros l' (Hw & u & Hu & Hid).
    destruct (decide (j_status u = Done \/ j_status u = Failed)) as [Hf|Hf]; [left; by exists u|right].
    intros (v & Hv & Hvid & Hvt). apply Hf. destruct Hw as [Hnd _].
    by rewrite (same_key j_id l' u v Hnd Hu Hv) by congruence.
  - intros l' (Hw & u & Hu & Hid) Hnf. apply (unfinished_moves conflicts _ l' u); [done..|].
    intros Hterm. apply Hnf. by exists u.
  - intros l1 l2 (Hw & u & Hu & Hid) _ Hm. pose proof Hm as (Hsteps & v & v' & _ & Hv' & _ & Hid' & _).
    split; [split; [by eapply pg_steps_wf|by exists v']|by eapply moves_remaining].
  - split; [eapply pg_steps_wf; [exact Hs|apply empty_wf]|by exists t].
Qed.

Lemma jobs_eventually_finish_witness : eventually (moves no_conflict 1%N) (finished 1%N) retried_table.
Proof. refine (jobs_eventually_finish no_conflict retried_table retried_row retried_steps _). left. Defined.

(** ** The runner *)

(** On any queue that keeps the contract of the runner, one turn either
    finds no job and leaves the table as it is, or runs the job it claimed,
    prolonging the lease at each tick, and leaves it as its outcome says: done
    with the executor's result, queued again after a transient error while
    attempts remain and failed with that error after the last one, failed
    with the error text when it is permanent or of the configuration or when
    no executor is registered.  Both queues keep the contract. *)
Theorem runner_settles q w `{!JobQueueLaws q w} lease kinds run now ticks done_at l : NoDup (j_id <$> l) ->
  claim_and_run_one q lease kinds run now ticks done_at l = (false, l) \/
  exists job t', (claim q kinds 1 now l).1 = [job] /\ (claim_and_run_one q lease kinds run now ticks done_at l).1 = true /\
    t' ∈ (claim_and_run_one q lease kinds run now ticks done_at l).2 /\ j_id t' = cj_id job /\ settled_as (run job) job t'.
Proof. apply claim_and_run_one_spec. Qed.

Definition local_queue : SqliteQueue := {| worker_id := 9; capabilities := ["data_source"]; lease_secs := 120 |}.
Definition server_queue : PgQueue :=
  {| pq_worker_id := 9; pq_tenant := None; pq_capabilities := ["data_source"]; pq_lease_secs := 120 |}.

Definition settles_on (q : JobQueue) : Prop :=
  let l := [new_job 1 5 None 0 sync_job] in
  let turn := claim_and_run_one q 120 ["data_source_sync"] (fun _ => Some (inr (Transient "offline"))) 1 [seconds 60] (seconds 90) l in
  turn = (false, l) \/
  exists job t', (claim q ["data_source_sync"] 1 1 l).1 = [job] /\ turn.1 = true /\
    t' ∈ turn.2 /\ j_id t' = cj_id job /\ settled_as (Some (inr (Transient "offline"))) job t'.

Lemma runner_settles_witness : settles_on (pg_queue server_queue) /\ settles_on (sqlite_queue local_queue).
Proof.
  split.
  - apply (runner_settles (pg_queue server_queue) 9%N). vm_compute. repeat constructor. apply not_elem_of_nil.
  - apply (runner_settles (sqlite_queue local_queue) 9%N). vm_compute. repeat constructor. apply not_elem_of_nil.
Defined.

(** ** SQLite *)

(** The local queue has no sweep: a job whose worker is gone during its
    last attempt stays claimed forever.  Whatever the workers that run, each
    with an identity of its own, do, its row is never read for a claim and
    never changed, while the Postgres sweep fails such a job. *)
Theorem sqlite_exhausted_job_stuck live t s s' :
  stuck live t s -> rtc (sq_step live) s s' -> t ∈ sq_rows s' /\ is_open t = true.
Proof.
  intros Hst Hs. assert (stuck live t s') as [_ Hin Ho _ _ _]; [|done].
  induction Hs as [s|s1 s2 s3 H12 _ IH]; [done|]. apply IH. by eapply stuck_step.
Qed.

(** The last attempt of worker 8 in the run above, seen by worker 9. *)
Lemma sqlite_exhausted_job_stuck_witness :
  let s := {| sq_rows := [retried_row]; in_flight := [] |} in
  let s' := {| sq_rows := sq_report local_queue 1 (SqComplete JNull) (seconds 500) [retried_row]; in_flight := [] |} in
  retried_row ∈ sq_rows s' /\ is_open retried_row = true.
Proof.
  intros s s'. refine (sqlite_exhausted_job_stuck (fun w => w = 9%N) retried_row s s' _ _).
  - split; simpl.
    + repeat constructor. apply not_elem_of_nil.
    + left.
    + reflexivity.
    + lia.
    + intros w [= <-]. discriminate.
    + intros q. apply not_elem_of_nil.
  - eapply rtc_l; [|apply rtc_refl]. apply (sq_tell _ local_queue 1 (SqComplete JNull) (seconds 500) s). reflexivity.
Defined.

(** ... which the sweep of Postgres fails. *)
Example pg_sweep_fails_exhausted : j_status <$> sweep_stale (seconds 500) [retried_row] = [Failed].
Proof. vm_compute. reflexivity. Qed.

(** The claim of the local queue reads one row of a kind and gives up on the
    kind when the worker is not capable of it, where the Postgres claim
    selects among the jobs the worker is capable of. *)
Example sqlite_incapable_head :
  let blocked := {| ej_kind := "data_source_sync"; ej_payload := JNull; ej_priority := 0; ej_affinity := None;
                    ej_req_capabilities := ["gpu"]; ej_max_attempts := 2 |} in
  let l := [new_job 1 5 None 0 blocked; new_job 2 5 None 1 sync_job] in
  (claim (sqlite_queue local_queue) ["data_source_sync"] 1 5 l).1 = [] /\
  cj_id <$> (claim (pg_queue server_queue) ["data_source_sync"] 1 5 l).1 = [2%N].
Proof. vm_compute. auto. Qed.
