(* ===== verification/CatalogSchema.v ===== *)
(** * Table schemas in the catalog

    Schemas are stored as JSON text; the conversion of
    [pensieve-catalog-sqlite/src/lib.rs], both ways.  Arrow types that no
    function names are [OtherType] with their [Debug] text. *)

From stdpp Require Import base gmap strings list pretty.
From Stdlib Require Import NArith ZArith Lia Ascii.
From S2P Require Import Prelude Bytes Arrow.

Local Open Scope Z_scope.
Local Open Scope string_scope.
Local Open Scope list_scope.

Inductive CatalogError := Conflict | TableNotFound (database name : string) | Sql (m : string).
#[export] Instance CatalogError_eq_dec : EqDecision CatalogError.
Proof. solve_decision. Defined.

(** [CatalogError] has more cases, for operations that are not modelled. *)
Definition error_text (e : CatalogError) : string :=
  match e with
  | Conflict => "concurrent update: parent snapshot no longer current; retry"
  | TableNotFound database name => "table not found: " +:+ database +:+ "." +:+ name
  | Sql m => "sql error: " +:+ m
  end.

(** ** Type names *)

Definition drop_spaces : list char -> list char :=
  fix go l := match l with c :: l' => if is_whitespace c then go l' else l | [] => [] end.
(** [str::trim] *)
Definition trim (s : string) : string := of_chars (rev (drop_spaces (rev (drop_spaces (chars s))))).

(** [str::parse::<i32>] *)
Definition digit_value (b : u8) : option Z :=
  if is_ascii_digit (ch b) then Some (Z.of_N (N_of_ascii b) - 48) else None.
Fixpoint digits_value (acc : Z) (l : bytes) : option Z :=
  match l with
  | [] => Some acc
  | b :: l => d ← digit_value b; digits_value (acc * 10 + d) l
  end.
Definition parse_i32 (s : string) : option Z :=
  let in_i32 z := if decide (- 2 ^ 31 <= z < 2 ^ 31) then Some z else None in
  match as_bytes s with
  | "-"%char :: (_ :: _ as l) => z ← digits_value 0 l; in_i32 (- z)
  | "+"%char :: (_ :: _ as l) => z ← digits_value 0 l; in_i32 z
  | [] | ["-"%char] | ["+"%char] => None
  | l => z ← digits_value 0 l; in_i32 z
  end.

(** [Debug] of an Arrow type. *)
Class ArrowText := { debug_type : DataType -> string }.

Section Types.
  Context `{ArrowText}.

Definition arrow_type_to_string (ty : DataType) : string :=
  match ty with
  | Int32 => "int"
  | Int64 => "long"
  | Utf8 | LargeUtf8 => "string"
  | Timestamp Nanosecond _ => "timestamp"
  | FixedSizeList Float32 dim => "vector(" +:+ show_nat dim +:+ ")"
  | OtherType n =>
      if decide (n = "Boolean") then "bool"
      else if decide (n = "Float64") then "real"
      else if decide (n = "Binary" \/ n = "LargeBinary") then "dynamic"
      else "arrow:" +:+ debug_type ty
  | other => "arrow:" +:+ debug_type other
  end.

(** The text between [vector(] and the final parenthesis. *)
Definition vector_inner (s : string) : option string :=
  let b := as_bytes s in
  if bool_decide (as_bytes "vector(" `prefix_of` b) && bool_decide (last b = Some ")"%char)
  then Some (of_bytes (drop 7 (take (length b - 1) b))) else None.

Definition string_to_arrow_type (s : string) : CatalogError + DataType :=
  match s with
  | "bool" => inr (OtherType "Boolean")
  | "int" => inr Int32
  | "long" => inr Int64
  | "real" => inr (OtherType "Float64")
  | "string" => inr Utf8
  | "timestamp" => inr (Timestamp Nanosecond None)
  | "dynamic" => inr (OtherType "Binary")
  | other =>
      match vector_inner other with
      | Some inner =>
          match parse_i32 (trim inner) with
          | None => inl (Sql ("vector(N): N must be a positive integer, got '" +:+ inner +:+ "'"))
          | Some dim =>
              if decide (dim <= 0) then inl (Sql ("vector(N): N must be > 0, got " +:+ show_Z dim))
              else inr (FixedSizeList Float32 (Z.to_nat dim))
          end
      | None => inl (Sql ("unsupported column type in schema: " +:+ other))
      end
  end.

(** ** Schemas *)

Definition field_to_json (f : Field) : Json :=
  JObject [("name", JString (f_name f)); ("type", JString (arrow_type_to_string (f_type f))); ("nullable", JBool (f_nullable f))].
Definition schema_to_json (schema : Schema) : Json := JObject [("fields", JArray (field_to_json <$> schema))].

Definition as_bool (v : Json) : option bool := match v with JBool b => Some b | _ => None end.

Definition json_to_field (f : Json) : CatalogError + Field :=
  match json_get f "name" ≫= as_str with
  | None => inl (Sql "field missing name")
  | Some name =>
      match json_get f "type" ≫= as_str with
      | None => inl (Sql "field missing type")
      | Some ty =>
          let nullable := default true (json_get f "nullable" ≫= as_bool) in
          match string_to_arrow_type ty with
          | inl e => inl e
          | inr t => inr {| f_name := name; f_type := t; f_nullable := nullable |}
          end
      end
  end.

Fixpoint json_to_fields (l : list Json) : CatalogError + Schema :=
  match l with
  | [] => inr []
  | f :: l =>
      match json_to_field f with
      | inl e => inl e
      | inr f => match json_to_fields l with inl e => inl e | inr l => inr (f :: l) end
      end
  end.
Definition json_to_schema (json : Json) : CatalogError + Schema :=
  match json_get json "fields" ≫= as_array with
  | None => inl (Sql "malformed schema json: missing fields")
  | Some fields => json_to_fields fields
  end.

(** [alter_table_add_column] on the JSON of the schema. *)
Definition add_column (schema : Json) (name type_ : string) : CatalogError + Json :=
  match json_get schema "fields" ≫= as_array with
  | Some fields =>
      if bool_decide (Exists (fun f => json_get f "name" ≫= as_str = Some name) fields)
      then inl (Sql ("column " +:+ name +:+ " already exists"))
      else
        let col := JObject [("name", JString name); ("type", JString type_); ("nullable", JBool true)] in
        inr (match schema with
             | JObject kv => JObject ((fun e => if decide (e.1 = "fields") then (e.1, JArray (fields ++ [col])) else e) <$> kv)
             | _ => schema
             end)
  | None => inl (Sql "existing schema has no `fields` array")
  end.

(** ** What can be read back *)

(** The types with a name of their own. *)
Definition has_name (ty : DataType) : bool :=
  match ty with
  | Int32 | Int64 | Utf8 | LargeUtf8 | Timestamp Nanosecond _ => true
  | OtherType n => bool_decide (n ∈ ["Boolean"; "Float64"; "Binary"; "LargeBinary"])
  | FixedSizeList Float32 dim => bool_decide (0 < dim)%nat
  | _ => false
  end.

(** A dimension is an [i32]. *)
Definition dim_ok (ty : DataType) : Prop :=
  match ty with FixedSizeList _ dim => Z.of_nat dim < 2 ^ 31 | _ => True end.

(** What reading back forgets. *)
Definition normal_type (ty : DataType) : DataType :=
  match ty with
  | LargeUtf8 => Utf8
  | Timestamp Nanosecond _ => Timestamp Nanosecond None
  | OtherType n => OtherType (if decide (n = "LargeBinary") then "Binary" else n)
  | ty => ty
  end.
Definition normal_field (f : Field) : Field :=
  {| f_name := f_name f; f_type := normal_type (f_type f); f_nullable := f_nullable f |}.

Lemma digits_value_app acc l1 l2 : digits_value acc (l1 ++ l2) = (z ← digits_value acc l1; digits_value z l2).
Proof.
  revert acc. induction l1 as [|b l1 IH]; intros acc; simpl; [done|]. destruct (digit_value b); simpl; auto.
Qed.

Lemma digit_value_char d : (d < 10)%N -> digit_value (pretty_N_char d) = Some (Z.of_N d).
Proof.
  intros Hd. destruct (pretty_N_char_digit d Hd) as [Hb Hn]. unfold digit_value, digit_byte in *. rewrite Hb, Hn. f_equal. lia.
Qed.

Lemma pretty_N_go_value x s : digits_value 0 (as_bytes (pretty_N_go x s)) = digits_value (Z.of_N x) (as_bytes s).
Proof.
  revert s. induction (N.lt_wf_0 x) as [x _ IH]. intros s. destruct (decide (0 < x)%N) as [Hx|Hx].
  - rewrite pretty_N_go_step by done. rewrite IH by (apply N.div_lt; lia). cbn [as_bytes].
    assert (x mod 10 < 10)%N as Hm by (apply N.mod_lt; lia).
    change (as_bytes (String (pretty_N_char (x mod 10)) s)) with (pretty_N_char (x mod 10) :: as_bytes s).
    cbn [digits_value]. rewrite (digit_value_char _ Hm). simpl. f_equal.
    pose proof (N.div_mod x 10 ltac:(lia)). lia.
  - replace x with 0%N by lia. by rewrite pretty_N_go_0.
Qed.

Lemma show_N_value n : digits_value 0 (as_bytes (show_N n)) = Some (Z.of_N n).
Proof.
  unfold show_N, pretty, pretty_N. case_decide; [by subst|]. by rewrite pretty_N_go_value.
Qed.

(** Printed numbers consist of ASCII digits, which neither the trimming nor the
    sign rule touches. *)
Lemma digit_byte_cases b : digit_byte b = true ->
  b ∈ ["0"%char; "1"%char; "2"%char; "3"%char; "4"%char; "5"%char; "6"%char; "7"%char; "8"%char; "9"%char].
Proof. destruct b as [[] [] [] [] [] [] [] []]; intros Hb; vm_compute in Hb; try discriminate Hb; set_solver. Qed.

Ltac digit_cases H :=
  apply digit_byte_cases in H; repeat (apply elem_of_cons in H as [->|H]; [|]); [..|by apply not_elem_of_nil in H].

Lemma decode_digits l : Forall (fun b => digit_byte b = true) l -> decode l = N_of_ascii <$> l /\
  Forall (fun c => is_whitespace c = false /\ is_scalar c /\ encode_char c = [byte_of c]) (decode l).
Proof.
  induction 1 as [|b l Hb _ [IH1 IH2]]; [done|].
  digit_cases Hb; (split; [simpl; by rewrite IH1|simpl; constructor; [split_and!; vm_compute; reflexivity|exact IH2]]).
Qed.

Lemma drop_spaces_none l : Forall (fun c => is_whitespace c = false) l -> drop_spaces l = l.
Proof. destruct 1 as [|c l Hc _]; [done|]. simpl. by rewrite Hc. Qed.

Lemma trim_digits l : Forall (fun b => digit_byte b = true) l -> trim (of_bytes l) = of_bytes l.
Proof.
  intros Hl. destruct (decode_digits l Hl) as [Hd Hc]. unfold trim, chars. rewrite as_of_bytes.
  assert (Forall (fun c => is_whitespace c = false) (decode l)) as Hw by (eapply Forall_impl; [exact Hc|by intros c [? _]]).
  rewrite (drop_spaces_none (decode l)), drop_spaces_none, rev_involutive; [|by apply Forall_rev|done].
  unfold of_chars. f_equal. rewrite Hd in Hc |- *. clear Hd Hw. induction Hl as [|b l Hb _ IH]; [done|].
  rewrite fmap_cons in Hc |- *. apply Forall_cons in Hc as [(_ & _ & Henc) Hc]. simpl. rewrite Henc. simpl. f_equal; [|auto].
  unfold byte_of. apply ascii_N_embedding.
Qed.

Lemma parse_i32_digits l : Forall (fun b => digit_byte b = true) l -> l <> [] ->
  parse_i32 (of_bytes l) = (z ← digits_value 0 l; if decide (- 2 ^ 31 <= z < 2 ^ 31) then Some z else None).
Proof.
  intros Hl Hne. unfold parse_i32. rewrite as_of_bytes. destruct Hl as [|b l Hb _]; [done|].
  by digit_cases Hb; destruct l.
Qed.

Lemma vector_inner_digits n :
  vector_inner ("vector(" +:+ show_nat n +:+ ")") = Some (show_nat n).
Proof.
  unfold vector_inner. set (d := show_nat n).
  assert (as_bytes ("vector(" +:+ d +:+ ")") = as_bytes "vector(" ++ as_bytes d ++ [")"%char]) as ->.
  { change (as_bytes ("vector(" +:+ d +:+ ")")) with (as_bytes "vector(" ++ as_bytes (d +:+ ")")). f_equal.
    clear. induction d as [|a d IH]; [done|]. simpl. by f_equal. }
  rewrite bool_decide_true by (by apply prefix_app_r).
  rewrite bool_decide_true by (by rewrite !last_app).
  rewrite !length_app. simpl length. rewrite app_assoc, take_app_length' by (rewrite length_app; simpl; lia).
  rewrite drop_app_length' by done. by rewrite of_as_bytes.
Qed.

Lemma vector_type dim : Z.of_nat dim < 2 ^ 31 ->
  string_to_arrow_type ("vector(" +:+ show_nat dim +:+ ")") =
    if decide (0 < dim)%nat then inr (FixedSizeList Float32 dim) else inl (Sql ("vector(N): N must be > 0, got 0")).
Proof.
  intros Hdim. destruct (show_N_digits (N.of_nat dim)) as [Hd Hne].
  transitivity (match vector_inner ("vector(" +:+ show_nat dim +:+ ")") with
    | Some inner =>
        match parse_i32 (trim inner) with
        | None => inl (Sql ("vector(N): N must be a positive integer, got '" +:+ inner +:+ "'"))
        | Some dim =>
            if decide (dim <= 0) then inl (Sql ("vector(N): N must be > 0, got " +:+ show_Z dim))
            else inr (FixedSizeList Float32 (Z.to_nat dim))
        end
    | None => inl (Sql ("unsupported column type in schema: " +:+ ("vector(" +:+ show_nat dim +:+ ")")))
    end); [reflexivity|].
  rewrite vector_inner_digits. unfold show_nat. fold (show_N (N.of_nat dim)).
  rewrite <-(of_as_bytes (show_N (N.of_nat dim))), trim_digits, parse_i32_digits, show_N_value by
    (first [done | by intros E; apply Hne; rewrite <-(of_as_bytes (show_N _)), E]).
  simpl. rewrite decide_True by lia. repeat case_decide; try lia.
  - by replace dim with 0%nat by lia.
  - do 2 f_equal. lia.
Qed.

Lemma unnamed_type ty : string_to_arrow_type ("arrow:" +:+ debug_type ty) =
  inl (Sql ("unsupported column type in schema: " +:+ ("arrow:" +:+ debug_type ty))).
Proof. reflexivity. Qed.

(** A type read back from its stored name. *)
Lemma type_read_back ty : dim_ok ty ->
  match string_to_arrow_type (arrow_type_to_string ty) with
  | inr ty' => has_name ty = true /\ ty' = normal_type ty
  | inl e => has_name ty = false /\ exists m, e = Sql m
  end.
Proof.
  intros Hdim.
  assert (forall ty, string_to_arrow_type ("arrow:" +:+ debug_type ty) = inl (Sql ("unsupported column type in schema: " +:+ ("arrow:" +:+ debug_type ty))))
    as Harrow by apply unnamed_type.
  destruct ty as [[]| | | | | |[]|n]; simpl arrow_type_to_string; try (rewrite Harrow; eauto); try done.
  - rewrite vector_type by done. unfold has_name, normal_type. case_decide as Hd; [by rewrite bool_decide_true|].
    rewrite bool_decide_false by done. eauto.
  - unfold has_name, normal_type.
    destruct (decide (n = "Boolean")) as [->|H1]; [done|]. destruct (decide (n = "Float64")) as [->|H2]; [done|].
    destruct (decide (n = "Binary" \/ n = "LargeBinary")) as [[-> | ->]|H3]; [done..|].
    rewrite Harrow, bool_decide_false by set_solver. eauto.
Qed.

Lemma field_read_back f : dim_ok (f_type f) ->
  match json_to_field (field_to_json f) with
  | inr f' => has_name (f_type f) = true /\ f' = normal_field f
  | inl e => has_name (f_type f) = false /\ exists m, e = Sql m
  end.
Proof.
  intros Hdim. unfold json_to_field, field_to_json. simpl. pose proof (type_read_back _ Hdim) as Ht.
  destruct (string_to_arrow_type _) as [e|ty]; [done|]. by destruct Ht as [Ht ->].
Qed.

(** A stored schema reads back normalised exactly if all its types have names. *)
Lemma schema_read_back schema : Forall (fun f => dim_ok (f_type f)) schema ->
  match json_to_schema (schema_to_json schema) with
  | inr schema' => Forall (fun f => has_name (f_type f) = true) schema /\ schema' = normal_field <$> schema
  | inl e => Exists (fun f => has_name (f_type f) = false) schema /\ exists m, e = Sql m
  end.
Proof.
  unfold json_to_schema, schema_to_json. simpl. induction 1 as [|f schema Hf _ IH]; simpl; [done|].
  pose proof (field_read_back f Hf) as Hr. destruct (json_to_field _) as [e|f'].
  - destruct Hr as [Hn He]. split; [by left|done].
  - destruct Hr as [Hn ->]. destruct (json_to_fields _) as [e|l].
    + destruct IH as [Hx He]. split; [by right|done].
    + destruct IH as [Hx ->]. split; [by constructor|done].
Qed.
End Types.
