(* ===== verification/SnapshotDb.v ===== *)
(** * The catalog database: tables, snapshots, extents

    The rows the catalogs keep and the operations on them: snapshot
    transactions ([pensieve-catalog-sqlite/src/snapshot.rs] and [lib.rs]),
    staged extents ([pensieve-catalog/src/lib.rs]), compaction candidates and
    garbage collection.  A database transaction takes effect as a whole: the
    model takes the isolation of SQLite and Postgres as given, and a
    transaction that the database aborts, for a lock or a lost connection,
    changes nothing.  Identifiers drawn by the code ([Uuid::new_v4]) and the
    clock are arguments. *)

From stdpp Require Import base gmap strings list.
From Stdlib Require Import NArith ZArith Lia.
From S2P Require Import Prelude Bytes Arrow Pushdown CatalogPrune SqlTable CatalogSchema.

Local Open Scope Z_scope.
Local Open Scope string_scope.
Local Open Scope list_scope.

Abbreviation Uuid := N.

(** Texts of the libraries: an error the database or its driver raises on the
    given column, and a [Uuid]. *)
Class Database := { db_message : string -> string; uuid_text : Uuid -> string }.

(** ** Rows *)

Record DatabaseRow := { db_id : Uuid; db_tenant : Uuid; db_name : string }.
Record TableRow := {
  tb_id : Uuid; tb_tenant : Uuid; tb_database : Uuid; tb_name : string;
  tb_current_snapshot : option Uuid; tb_schema_snapshot : option Uuid }.
Record SchemaSnapshotRow := { ss_id : Uuid; ss_tenant : Uuid; ss_table : Uuid; ss_schema : Json }.

Record SnapshotSummary := {
  rows_added : Z; rows_removed : Z; bytes_added : Z; bytes_removed : Z; operation : string }.

Record SnapshotRow := {
  sn_id : Uuid; sn_tenant : Uuid; sn_table : Uuid; sn_parent : option Uuid; sn_sequence : Z; sn_schema : Uuid;
  sn_summary : SnapshotSummary }.
Record ManifestRow := { mf_id : Uuid; mf_tenant : Uuid; mf_snapshot : Uuid; mf_extent_count : nat; mf_byte_size : Z }.

(** An extent with its manifest and the time of its soft deletion. *)
Record StoredExtent := { ex_tenant : Uuid; ex_manifest : Uuid; ex_deleted_at : option Z; ex_extent : ExtentManifest }.
Definition ex_id (e : StoredExtent) : Uuid := m_id (ex_extent e).

Record StagedRow := { st_id : Uuid; st_tenant : Uuid; st_table : Uuid; st_batch : Uuid; st_manifest : ExtentManifest; st_created_at : Z }.

(** A row of [extent_indexes]. *)
Record SidecarRow := { sc_tenant : Uuid; sc_extent : Uuid; sc_path : string }.

Record Db := {
  databases : list DatabaseRow; tables : list TableRow; schema_snapshots : list SchemaSnapshotRow;
  snapshots : list SnapshotRow; manifests : list ManifestRow; extents : list StoredExtent;
  staged : list StagedRow; sidecars : list SidecarRow }.

Definition empty_db : Db :=
  {| databases := []; tables := []; schema_snapshots := []; snapshots := []; manifests := []; extents := [];
     staged := []; sidecars := [] |}.

(** [SELECT ... WHERE p], at most one row. *)
Definition find_row {A} (p : A -> bool) (l : list A) : option A := snd <$> list_find (fun x => p x = true) l.

Definition is_table (id : Uuid) (t : TableRow) : bool := bool_decide (tb_id t = id).
Definition is_snapshot (id : Uuid) (s : SnapshotRow) : bool := bool_decide (sn_id s = id).
Definition find_snapshot (id : Uuid) (db : Db) : option SnapshotRow := find_row (is_snapshot id) (snapshots db).
Definition find_table (tenant id : Uuid) (db : Db) : option TableRow :=
  find_row (fun t => is_table id t && bool_decide (tb_tenant t = tenant)) (tables db).

(** ** Statements *)

Definition with_tables (f : list TableRow -> list TableRow) (db : Db) : Db :=
  {| databases := databases db; tables := f (tables db); schema_snapshots := schema_snapshots db;
     snapshots := snapshots db; manifests := manifests db; extents := extents db; staged := staged db; sidecars := sidecars db |}.
Definition with_snapshots (f : list SnapshotRow -> list SnapshotRow) (db : Db) : Db :=
  {| databases := databases db; tables := tables db; schema_snapshots := schema_snapshots db;
     snapshots := f (snapshots db); manifests := manifests db; extents := extents db; staged := staged db; sidecars := sidecars db |}.
Definition with_manifests (f : list ManifestRow -> list ManifestRow) (db : Db) : Db :=
  {| databases := databases db; tables := tables db; schema_snapshots := schema_snapshots db;
     snapshots := snapshots db; manifests := f (manifests db); extents := extents db; staged := staged db; sidecars := sidecars db |}.
Definition with_extents (f : list StoredExtent -> list StoredExtent) (db : Db) : Db :=
  {| databases := databases db; tables := tables db; schema_snapshots := schema_snapshots db;
     snapshots := snapshots db; manifests := manifests db; extents := f (extents db); staged := staged db; sidecars := sidecars db |}.
Definition with_staged (f : list StagedRow -> list StagedRow) (db : Db) : Db :=
  {| databases := databases db; tables := tables db; schema_snapshots := schema_snapshots db;
     snapshots := snapshots db; manifests := manifests db; extents := extents db; staged := f (staged db); sidecars := sidecars db |}.
Definition with_sidecars (f : list SidecarRow -> list SidecarRow) (db : Db) : Db :=
  {| databases := databases db; tables := tables db; schema_snapshots := schema_snapshots db;
     snapshots := snapshots db; manifests := manifests db; extents := extents db; staged := staged db; sidecars := f (sidecars db) |}.

(** [DELETE FROM ... WHERE p] *)
Definition delete_where {A} (p : A -> bool) (l : list A) : list A := filter (fun x => p x = false) l.

Section Statements.
  Context `{Database}.

(** [UNIQUE (table_id, sequence_number)] *)
Definition sequence_taken (table : Uuid) (seq : Z) (db : Db) : bool :=
  existsb (fun s => bool_decide (sn_table s = table) && bool_decide (sn_sequence s = seq)) (snapshots db).

(** Extents are inserted one by one; their identifier is the primary key. *)
Fixpoint insert_extents (tenant manifest : Uuid) (es : list ExtentManifest) (rows : list StoredExtent) :
    CatalogError + list StoredExtent :=
  match es with
  | [] => inr rows
  | e :: es =>
      if bool_decide (m_id e ∈ ex_id <$> rows) then inl (Sql (db_message "extents.id"))
      else insert_extents tenant manifest es
             (rows ++ [{| ex_tenant := tenant; ex_manifest := manifest; ex_deleted_at := None; ex_extent := e |}])
  end.

(** Soft deletion; of the extents already deleted none is touched. *)
Definition soft_delete (tenant : Uuid) (removed : list Uuid) (now : Z) : list StoredExtent -> list StoredExtent :=
  update_rows
    (fun e => bool_decide (ex_tenant e = tenant) && bool_decide (ex_deleted_at e = None) && bool_decide (ex_id e ∈ removed))
    (fun e => {| ex_tenant := ex_tenant e; ex_manifest := ex_manifest e; ex_deleted_at := Some now; ex_extent := ex_extent e |}).

(** The compare-and-set of [tables.current_snapshot_id]. *)
Definition cas_guard (tenant table parent : Uuid) (t : TableRow) : bool :=
  bool_decide (tb_tenant t = tenant) && is_table table t && bool_decide (tb_current_snapshot t = Some parent).
Definition set_current (snap : Uuid) (t : TableRow) : TableRow :=
  {| tb_id := tb_id t; tb_tenant := tb_tenant t; tb_database := tb_database t; tb_name := tb_name t;
     tb_current_snapshot := Some snap; tb_schema_snapshot := tb_schema_snapshot t |}.

(** ** Snapshot transactions *)

Record SnapshotTxn := {
  txn_tenant : Uuid; txn_table_id : Uuid; parent_snapshot_id : Uuid; txn_schema_snapshot_id : Uuid;
  added : list ExtentManifest; removed : list Uuid }.

Definition begin_snapshot_in_tenant (tenant table_id : Uuid) (db : Db) : CatalogError + SnapshotTxn :=
  match find_table tenant table_id db with
  | None => inl (Sql ("table " +:+ uuid_text table_id +:+ " not found in tenant " +:+ uuid_text tenant +:+ " for begin_snapshot"))
  | Some row =>
      match tb_current_snapshot row with
      | None => inl (Sql "table has no current_snapshot_id")
      | Some parent =>
          match tb_schema_snapshot row with
          | None => inl (Sql "table has no schema_snapshot_id")
          | Some schema_snap =>
              inr {| txn_tenant := tenant; txn_table_id := table_id; parent_snapshot_id := parent;
                     txn_schema_snapshot_id := schema_snap; added := []; removed := [] |}
          end
      end
  end.

Definition add_extent (m : ExtentManifest) (t : SnapshotTxn) : SnapshotTxn :=
  {| txn_tenant := txn_tenant t; txn_table_id := txn_table_id t; parent_snapshot_id := parent_snapshot_id t;
     txn_schema_snapshot_id := txn_schema_snapshot_id t; added := added t ++ [m]; removed := removed t |}.
Definition remove_extents (ids : list Uuid) (t : SnapshotTxn) : SnapshotTxn :=
  {| txn_tenant := txn_tenant t; txn_table_id := txn_table_id t; parent_snapshot_id := parent_snapshot_id t;
     txn_schema_snapshot_id := txn_schema_snapshot_id t; added := added t; removed := removed t ++ ids |}.

(** [x as i64] of a [u64] *)
Definition cast_i64 (n : N) : Z := let z := Z.of_N n mod 2 ^ 64 in if decide (z < 2 ^ 63) then z else z - 2 ^ 64.

Definition commit (txn : SnapshotTxn) (summary : SnapshotSummary)
    (new_snap_id manifest_id : Uuid) (now : Z) (db : Db) : (CatalogError + Uuid) * Db :=
  let parent := parent_snapshot_id txn in
  match find_snapshot parent db with
  | None => (inl (Sql ("parent snapshot " +:+ uuid_text parent +:+ " not found")), db)
  | Some p =>
      let new_seq := sn_sequence p + 1 in
      if sequence_taken (txn_table_id txn) new_seq db then (inl Conflict, db)
      else
        let db1 := with_snapshots (fun l => l ++ [
          {| sn_id := new_snap_id; sn_tenant := txn_tenant txn; sn_table := txn_table_id txn; sn_parent := Some parent;
             sn_sequence := new_seq; sn_schema := txn_schema_snapshot_id txn; sn_summary := summary |}]) db in
        let db2 := with_manifests (fun l => l ++ [
          {| mf_id := manifest_id; mf_tenant := txn_tenant txn; mf_snapshot := new_snap_id;
             mf_extent_count := length (added txn);
             mf_byte_size := foldr (fun e n => cast_i64 (m_byte_size e) + n) 0 (added txn) |}]) db1 in
        match insert_extents (txn_tenant txn) manifest_id (added txn) (extents db2) with
        | inl e => (inl e, db)
        | inr rows =>
            let db3 := with_extents (fun _ => soft_delete (txn_tenant txn) (removed txn) now rows) db2 in
            let guard := cas_guard (txn_tenant txn) (txn_table_id txn) parent in
            if decide (rows_affected guard (tables db3) = 1%nat)
            then (inr new_snap_id, with_tables (update_rows guard (set_current new_snap_id)) db3)
            else (inl Conflict, db)
        end
  end.
End Statements.
