(* ===== verification/CatalogOps.v ===== *)
(** * The catalog's operations on tables and extents

    Databases, tables and schema evolution, the extents a query sees, staged
    extents, the candidates for compaction and garbage collection, as the
    statements of [pensieve-catalog-sqlite/src/lib.rs] (staging and the group
    commit: [pensieve-catalog/src/lib.rs]) run them. *)

From stdpp Require Import base gmap strings list sorting.
From Stdlib Require Import NArith ZArith Lia.
From S2P Require Import Prelude Bytes Arrow Pushdown CatalogPrune SqlTable CatalogSchema SnapshotDb.

Local Open Scope Z_scope.
Local Open Scope string_scope.
Local Open Scope list_scope.

Section Operations.
  Context `{Database} `{ArrowText}.

(** ** Databases and tables *)

Definition create_database_in_tenant (id tenant : Uuid) (name : string) (db : Db) : (CatalogError + Uuid) * Db :=
  if existsb (fun d => bool_decide (db_tenant d = tenant) && bool_decide (db_name d = name)) (databases db)
  then (inl (Sql (db_message "databases.tenant_id, databases.name")), db)
  else
    (inr id,
     {| databases := databases db ++ [{| db_id := id; db_tenant := tenant; db_name := name |}]; tables := tables db;
        schema_snapshots := schema_snapshots db; snapshots := snapshots db; manifests := manifests db;
        extents := extents db; staged := staged db; sidecars := sidecars db |}).

(** The row is inserted without snapshot pointers, then pointed at the empty
    snapshot 0 and the schema. *)
Definition bootstrap_summary : SnapshotSummary :=
  {| rows_added := 0; rows_removed := 0; bytes_added := 0; bytes_removed := 0; operation := "bootstrap" |}.

Definition create_table_in_tenant (table_id schema_snap_id snap_id tenant database_id : Uuid) (name : string)
    (schema : Schema) (db : Db) : (CatalogError + Uuid) * Db :=
  match find_row (fun d => bool_decide (db_id d = database_id)) (databases db) with
  | None => (inl (Sql ("database " +:+ uuid_text database_id +:+ " not found")), db)
  | Some d =>
      if negb (bool_decide (db_tenant d = tenant))
      then (inl (Sql ("database " +:+ uuid_text database_id +:+ " does not belong to tenant " +:+ uuid_text tenant)), db)
      else if existsb (fun t => bool_decide (tb_tenant t = tenant) && bool_decide (tb_database t = database_id) &&
                                bool_decide (tb_name t = name)) (tables db)
      then (inl (Sql (db_message "tables.tenant_id, tables.database_id, tables.name")), db)
      else
        (inr table_id,
         {| databases := databases db;
            tables := tables db ++ [
              {| tb_id := table_id; tb_tenant := tenant; tb_database := database_id; tb_name := name;
                 tb_current_snapshot := Some snap_id; tb_schema_snapshot := Some schema_snap_id |}];
            schema_snapshots := schema_snapshots db ++ [
              {| ss_id := schema_snap_id; ss_tenant := tenant; ss_table := table_id; ss_schema := schema_to_json schema |}];
            snapshots := snapshots db ++ [
              {| sn_id := snap_id; sn_tenant := tenant; sn_table := table_id; sn_parent := None; sn_sequence := 0;
                 sn_schema := schema_snap_id; sn_summary := bootstrap_summary |}];
            manifests := manifests db; extents := extents db; staged := staged db; sidecars := sidecars db |})
  end.

(** The join of a table with its database. *)
Definition in_database (tenant : Uuid) (database : string) (db : Db) (t : TableRow) : bool :=
  bool_decide (tb_tenant t = tenant) &&
  existsb (fun d => bool_decide (db_id d = tb_database t) && bool_decide (db_tenant d = tenant) &&
                    bool_decide (db_name d = database)) (databases db).

Record TableRef := {
  tr_id : Uuid; tr_database : Uuid; tr_name : string; tr_current_snapshot : Uuid; tr_schema_snapshot : Uuid; tr_schema : Schema }.

Definition schema_row (db : Db) (t : TableRow) : option SchemaSnapshotRow :=
  id ← tb_schema_snapshot t; find_row (fun s => bool_decide (ss_id s = id)) (schema_snapshots db).

(** The columns of the joined row. *)
Definition table_ref (t : TableRow) (schema : Schema) (snap schema_snap : Uuid) : TableRef :=
  {| tr_id := tb_id t; tr_database := tb_database t; tr_name := tb_name t; tr_current_snapshot := snap;
     tr_schema_snapshot := schema_snap; tr_schema := schema |}.

Definition lookup_table_in_tenant (tenant : Uuid) (database name : string) (db : Db) : CatalogError + TableRef :=
  match find_row (fun t => in_database tenant database db t && bool_decide (tb_name t = name)) (tables db) with
  | None => inl (TableNotFound database name)
  | Some t =>
      match schema_row db t with
      | None => inl (Sql (db_message "arrow_schema"))
      | Some s =>
          match json_to_schema (ss_schema s) with
          | inl e => inl e
          | inr schema =>
              match tb_current_snapshot t, tb_schema_snapshot t with
              | None, _ => inl (Sql "table has no current snapshot (bootstrap row)")
              | _, None => inl (Sql "table has no schema snapshot")
              | Some snap, Some schema_snap => inr (table_ref t schema snap schema_snap)
              end
          end
      end
  end.

(** A table that is not bootstrapped is skipped. *)
Definition listed_table (db : Db) (t : TableRow) : option (CatalogError + TableRef) :=
  s ← schema_row db t; snap ← tb_current_snapshot t; schema_snap ← tb_schema_snapshot t;
  Some (match json_to_schema (ss_schema s) with
        | inl e => inl e
        | inr schema => inr (table_ref t schema snap schema_snap)
        end).

(** The first table that cannot be read fails the listing. *)
Fixpoint collect {E A} (l : list (E + A)) : E + list A :=
  match l with
  | [] => inr []
  | inl e :: _ => inl e
  | inr x :: l => match collect l with inl e => inl e | inr l => inr (x :: l) end
  end.

Definition name_le (a b : TableRow) : Prop := str_le (tb_name a) (tb_name b) = true.
#[global] Instance name_le_dec : RelDecision name_le := fun a b => bool_dec _ _.

Definition list_tables_in_database_in_tenant (tenant : Uuid) (database : string) (db : Db) : CatalogError + list TableRef :=
  collect (omap (listed_table db) (merge_sort name_le (filter (fun t => in_database tenant database db t = true) (tables db)))).

Definition drop_table_in_tenant (tenant : Uuid) (database name : string) (db : Db) : bool * Db :=
  match find_row (fun t => in_database tenant database db t && bool_decide (tb_name t = name)) (tables db) with
  | None => (false, db)
  | Some t =>
      let id := tb_id t in
      let snaps := filter (fun s => sn_table s = id) (snapshots db) in
      (true,
       {| databases := databases db;
          tables := delete_where (is_table id) (tables db);
          schema_snapshots := delete_where (fun s => bool_decide (ss_table s = id)) (schema_snapshots db);
          snapshots := delete_where (fun s => bool_decide (sn_table s = id)) (snapshots db);
          manifests := delete_where (fun m => bool_decide (mf_snapshot m ∈ sn_id <$> snaps)) (manifests db);
          extents := delete_where (fun e => bool_decide (m_table_id (ex_extent e) = id)) (extents db);
          staged := staged db; sidecars := sidecars db |})
  end.

(** The schema pointer has a compare-and-set of its own. *)
Definition alter_table_add_column (new_schema_snap_id table_id : Uuid) (column_name column_type : string) (db : Db) :
    (CatalogError + Uuid) * Db :=
  match string_to_arrow_type column_type with
  | inl e => (inl e, db)
  | inr _ =>
      match t ← find_row (is_table table_id) (tables db);
            cur ← tb_schema_snapshot t;
            s ← find_row (fun s => bool_decide (ss_id s = cur)) (schema_snapshots db);
            Some (t, cur, s) with
      | None => (inl (Sql ("table " +:+ uuid_text table_id +:+ " not found")), db)
      | Some (t, cur, s) =>
          match add_column (ss_schema s) column_name column_type with
          | inl e => (inl e, db)
          | inr schema_json =>
              let guard := fun t => is_table table_id t && bool_decide (tb_schema_snapshot t = Some cur) in
              let db1 :=
                {| databases := databases db; tables := tables db;
                   schema_snapshots := schema_snapshots db ++ [
                     {| ss_id := new_schema_snap_id; ss_tenant := tb_tenant t; ss_table := table_id; ss_schema := schema_json |}];
                   snapshots := snapshots db; manifests := manifests db; extents := extents db; staged := staged db;
                   sidecars := sidecars db |} in
              if decide (rows_affected guard (tables db1) = 1%nat)
              then
                (inr new_schema_snap_id,
                 with_tables (update_rows guard (fun t =>
                   {| tb_id := tb_id t; tb_tenant := tb_tenant t; tb_database := tb_database t; tb_name := tb_name t;
                      tb_current_snapshot := tb_current_snapshot t; tb_schema_snapshot := Some new_schema_snap_id |})) db1)
              else (inl Conflict, db)
          end
      end
  end.

(** ** Extents *)

(** The row as the listing reads it. *)
Definition extent_row (e : StoredExtent) : ExtentRow :=
  {| r_tenant_id := ex_tenant e; r_deleted := bool_decide (ex_deleted_at e <> None); r_manifest := ex_extent e |}.

(** The extents of a table that are live now: the snapshot is not consulted. *)
Definition list_extents (tenant table_id _snapshot : Uuid) (prune : PrunePredicate) (db : Db) : list ExtentManifest :=
  list_extents_in_tenant (extent_row <$> extents db) tenant table_id prune.

(** [SELECT ... WHERE deleted_at IS NOT NULL AND deleted_at < before] *)
Definition doomed (before : Z) (e : StoredExtent) : bool :=
  match ex_deleted_at e with Some d => bool_decide (d < before) | None => false end.
Definition gc_candidates (before : Z) (db : Db) : list Uuid := ex_id <$> filter (fun e => doomed before e = true) (extents db).

Definition delete_extent_rows (ids : list Uuid) (db : Db) : Db :=
  match ids with
  | [] => db
  | _ =>
      with_extents (delete_where (fun e => bool_decide (ex_id e ∈ ids)))
        (with_sidecars (delete_where (fun s => bool_decide (sc_extent s ∈ ids))) db)
  end.

Record CleanupResult := { extents_deleted : N; rows_freed : Z; bytes_freed : Z }.

(** Three statements: the totals, the sidecar rows, the extent rows. *)
Definition cleanup_soft_deleted_extents_in_tenant (tenant : Uuid) (database table : string) (before : Z) (db : Db) :
    CleanupResult * Db :=
  match find_row (fun t => in_database tenant database db t && bool_decide (tb_name t = table)) (tables db) with
  | None => ({| extents_deleted := 0; rows_freed := 0; bytes_freed := 0 |}, db)
  | Some t =>
      let gone := fun e => bool_decide (ex_tenant e = tenant) && bool_decide (m_table_id (ex_extent e) = tb_id t) && doomed before e in
      let rows := filter (fun e => gone e = true) (extents db) in
      ({| extents_deleted := N.of_nat (length rows);
          rows_freed := foldr (fun e n => cast_i64 (m_row_count (ex_extent e)) + n) 0 rows;
          bytes_freed := foldr (fun e n => cast_i64 (m_byte_size (ex_extent e)) + n) 0 rows |},
       with_extents (delete_where gone)
         (with_sidecars (delete_where (fun s => bool_decide (sc_extent s ∈ ex_id <$> rows))) db))
  end.

(** *** Candidates for compaction *)

Definition smaller (a b : StoredExtent) : Prop := (m_byte_size (ex_extent a) <= m_byte_size (ex_extent b))%N.
#[global] Instance smaller_dec : RelDecision smaller.
Proof. intros a b. unfold smaller. apply _. Defined.

(** Of each table with at least [min_extents] small live extents, the smallest
    [max_merge]; tables in the order of their identifiers. *)
Definition small_extents (tenant table : Uuid) (small_bytes : Z) (db : Db) : list StoredExtent :=
  filter (fun e => ex_deleted_at e = None /\ ex_tenant e = tenant /\ m_table_id (ex_extent e) = table /\
                   cast_i64 (m_byte_size (ex_extent e)) < small_bytes) (extents db).

Definition compaction_candidates (tenant : Uuid) (small_bytes min_extents max_merge : Z) (db : Db) : list (Uuid * list Uuid) :=
  let table_ids := merge_sort N.le (remove_dups ((fun e => m_table_id (ex_extent e)) <$> extents db)) in
  filter (fun g => (2 <= length g.2)%nat)
    ((fun table =>
       let small := small_extents tenant table small_bytes db in
       (table,
        if decide (min_extents <= Z.of_nat (length small))
        then ex_id <$> take (Z.to_nat max_merge) (merge_sort smaller small) else [])) <$> table_ids).

(** ** Staged extents (Postgres) *)

(** [ON CONFLICT (tenant_id, batch_id) DO NOTHING] *)
Definition stage_extent (id tenant batch_id : Uuid) (now : Z) (m : ExtentManifest) (db : Db) : bool * Db :=
  if existsb (fun r => bool_decide (st_tenant r = tenant) && bool_decide (st_batch r = batch_id)) (staged db)
  then (false, db)
  else
    (true, with_staged (fun l => l ++ [
       {| st_id := id; st_tenant := tenant; st_table := m_table_id m; st_batch := batch_id; st_manifest := m;
          st_created_at := now |}]) db).

Definition older (a b : StagedRow) : Prop := st_created_at a <= st_created_at b.
#[global] Instance older_dec : RelDecision older.
Proof. intros a b. unfold older. apply _. Defined.

(** Oldest first; [LIMIT] of a negative number is an error of the database. *)
Definition list_staged_extents (tenant : Uuid) (max : nat) (db : Db) : list StagedRow :=
  take max (merge_sort older (filter (fun r => st_tenant r = tenant) (staged db))).

(** One transaction: snapshot, extents, compare-and-set, destaging. *)
Definition commit_staged_group (tenant table_id : Uuid) (staged_ids : list Uuid) (ms : list ExtentManifest)
    (new_snap manifest_id : Uuid) (db : Db) : (CatalogError + option Uuid) * Db :=
  match ms with
  | [] => (inr None, db)
  | _ =>
      match tb_current_snapshot <$> find_table tenant table_id db with
      | None => (inl (Sql ("table " +:+ uuid_text table_id +:+ " not found")), db)
      | Some None => (inl (Sql (db_message "current_snapshot_id")), db)
      | Some (Some parent) =>
          match find_snapshot parent db with
          | None => (inl (Sql "parent snapshot not found"), db)
          | Some p =>
              let seq := sn_sequence p + 1 in
              if sequence_taken table_id seq db then (inl Conflict, db)
              else
                let summary :=
                  {| rows_added := foldr (fun m n => cast_i64 (m_row_count m) + n) 0 ms; rows_removed := 0;
                     bytes_added := foldr (fun m n => cast_i64 (m_byte_size m) + n) 0 ms; bytes_removed := 0;
                     operation := "ingest_staged_x" +:+ show_nat (length ms) |} in
                let db1 := with_snapshots (fun l => l ++ [
                  {| sn_id := new_snap; sn_tenant := tenant; sn_table := table_id; sn_parent := Some parent;
                     sn_sequence := seq; sn_schema := sn_schema p; sn_summary := summary |}]) db in
                let db2 := with_manifests (fun l => l ++ [
                  {| mf_id := manifest_id; mf_tenant := tenant; mf_snapshot := new_snap; mf_extent_count := length ms;
                     mf_byte_size := bytes_added summary |}]) db1 in
                match insert_extents tenant manifest_id ms (extents db2) with
                | inl e => (inl e, db)
                | inr rows =>
                    let db3 := with_extents (fun _ => rows) db2 in
                    let guard := cas_guard tenant table_id parent in
                    if decide (rows_affected guard (tables db3) = 1%nat)
                    then
                      (inr (Some new_snap),
                       with_staged (delete_where (fun r => bool_decide (st_tenant r = tenant) && bool_decide (st_id r ∈ staged_ids)))
                         (with_tables (update_rows guard (set_current new_snap)) db3))
                    else (inl Conflict, db)
                end
          end
      end
  end.
End Operations.
