(* ===== verification/SnapshotSpec.v ===== *)
(** * Snapshots: histories and serial replay

    The invariant of the catalog database under any interleaving of its
    operations, the outcome of a commit, and the serial log of the commits
    whose replay gives the live extents. *)

From stdpp Require Import base gmap strings list relations sorting.
From Stdlib Require Import NArith ZArith Lia.
From S2P Require Import Prelude Bytes Arrow Pushdown CatalogPrune SqlTable CatalogSchema SnapshotDb CatalogOps.

Local Open Scope Z_scope.

(** ** The invariant *)

(** A snapshot continues its parent, a first one is number 0. *)
Definition continues (db : Db) (s : SnapshotRow) : Prop :=
  match sn_parent s with
  | None => sn_sequence s = 0
  | Some p => exists s', s' ∈ snapshots db /\ sn_id s' = p /\ sn_table s' = sn_table s /\ sn_sequence s = sn_sequence s' + 1
  end.

(** A table points at the last of its snapshots. *)
Definition heads (db : Db) (t : TableRow) : Prop :=
  exists s, s ∈ snapshots db /\ tb_current_snapshot t = Some (sn_id s) /\ sn_table s = tb_id t /\
    forall s', s' ∈ snapshots db -> sn_table s' = tb_id t -> sn_sequence s' <= sn_sequence s.

(** The extents of a table are listed by manifests of its snapshots. *)
Definition manifested (db : Db) (e : StoredExtent) : Prop :=
  exists m s, m ∈ manifests db /\ s ∈ snapshots db /\ ex_manifest e = mf_id m /\ mf_snapshot m = sn_id s /\
    sn_table s = m_table_id (ex_extent e).

Record db_wf (db : Db) : Prop := {
  wf_snapshot_ids : NoDup (sn_id <$> snapshots db);
  wf_table_ids : NoDup (tb_id <$> tables db);
  wf_manifest_ids : NoDup (mf_id <$> manifests db);
  wf_extent_ids : NoDup (ex_id <$> extents db);
  wf_sequence s : s ∈ snapshots db -> 0 <= sn_sequence s;
  wf_chain s : s ∈ snapshots db -> continues db s;
  wf_one s s' : s ∈ snapshots db -> s' ∈ snapshots db -> sn_table s = sn_table s' -> sn_sequence s = sn_sequence s' -> s = s';
  wf_owner s : s ∈ snapshots db -> exists t, t ∈ tables db /\ tb_id t = sn_table s;
  wf_head t : t ∈ tables db -> heads db t;
  wf_manifested e : e ∈ extents db -> manifested db e }.

(** ** The operations as steps *)

(** What a successful step does to the live extents. *)
Inductive Delta :=
  | DCommit (tenant : Uuid) (added : list ExtentManifest) (removed : list Uuid)
  | DDrop (table : Uuid).

(** The rows of a transaction are of its table. *)
Definition txn_ok (t : SnapshotTxn) : Prop := Forall (fun m => m_table_id m = txn_table_id t) (added t).

Section Steps.
  Context `{Database} `{ArrowText}.

(** Any client, at any time; drawn identifiers are new.  The collector passes
    identifiers of extents that are soft-deleted. *)
Inductive db_step : list Delta -> Db -> Db -> Prop :=
  | do_database id tenant name db : db_step [] db (create_database_in_tenant id tenant name db).2
  | do_table id schema_snap snap tenant database name schema db :
      id ∉ tb_id <$> tables db -> snap ∉ sn_id <$> snapshots db ->
      db_step [] db (create_table_in_tenant id schema_snap snap tenant database name schema db).2
  | do_drop tenant database name db :
      db_step (DDrop <$> (tb_id <$> option_list
                 (find_row (fun t => in_database tenant database db t && bool_decide (tb_name t = name)) (tables db))))
        db (drop_table_in_tenant tenant database name db).2
  | do_alter id table name type_ db : db_step [] db (alter_table_add_column id table name type_ db).2
  | do_commit txn summary snap manifest now db db' r : txn_ok txn ->
      snap ∉ sn_id <$> snapshots db -> manifest ∉ mf_id <$> manifests db ->
      commit txn summary snap manifest now db = (r, db') ->
      db_step (match r with inr _ => [DCommit (txn_tenant txn) (added txn) (removed txn)] | inl _ => [] end) db db'
  | do_staged tenant table ids ms snap manifest db db' r : Forall (fun m => m_table_id m = table) ms ->
      snap ∉ sn_id <$> snapshots db -> manifest ∉ mf_id <$> manifests db ->
      commit_staged_group tenant table ids ms snap manifest db = (r, db') ->
      db_step (match r with inr (Some _) => [DCommit tenant ms []] | _ => [] end) db db'
  | do_stage id tenant batch now m db : db_step [] db (stage_extent id tenant batch now m db).2
  | do_collect ids db : (forall e, e ∈ extents db -> ex_id e ∈ ids -> ex_deleted_at e <> None) ->
      db_step [] db (delete_extent_rows ids db)
  | do_cleanup tenant database table before db :
      db_step [] db (cleanup_soft_deleted_extents_in_tenant tenant database table before db).2.

(** A run and its serial log. *)
Inductive db_run : list Delta -> Db -> Db -> Prop :=
  | run_nil db : db_run [] db db
  | run_step ds ds' db db1 db2 : db_run ds db db1 -> db_step ds' db1 db2 -> db_run (ds ++ ds') db db2.

(** ** Lemmas on the statements *)

Lemma find_row_Some {A} (p : A -> bool) l x : find_row p l = Some x -> x ∈ l /\ p x = true.
Proof.
  unfold find_row. destruct (list_find _ l) as [[i y]|] eqn:Hf; [|done]. intros [= <-].
  apply list_find_Some in Hf as (Hi & Hp & _). split; [by eapply list_elem_of_lookup_2|done].
Qed.

Lemma find_row_None {A} (p : A -> bool) l : find_row p l = None -> forall x, x ∈ l -> p x = false.
Proof.
  unfold find_row. destruct (list_find _ l) as [[i y]|] eqn:Hf; [done|]. intros _ x Hx.
  apply list_find_None in Hf. rewrite Forall_forall in Hf. specialize (Hf x Hx). by destruct (p x).
Qed.

Lemma find_snapshot_Some id db s : find_snapshot id db = Some s -> s ∈ snapshots db /\ sn_id s = id.
Proof. intros [Hs Hid]%find_row_Some. by apply bool_decide_eq_true in Hid. Qed.

Lemma sequence_taken_false table seq db : sequence_taken table seq db = false <->
  forall s, s ∈ snapshots db -> sn_table s = table -> sn_sequence s <> seq.
Proof.
  unfold sequence_taken. rewrite <-not_true_iff_false, existsb_exists. split.
  - intros Hn s Hs Ht Hq. apply Hn. exists s. rewrite andb_true_iff, !bool_decide_eq_true. by rewrite <-list_elem_of_In.
  - intros Hn (s & Hs%list_elem_of_In & [Ht Hq]%andb_true_iff). apply bool_decide_eq_true in Ht, Hq. by apply (Hn s).
Qed.

(** The new rows of an insertion. *)
Definition new_rows (tenant manifest : Uuid) (es : list ExtentManifest) : list StoredExtent :=
  (fun e => {| ex_tenant := tenant; ex_manifest := manifest; ex_deleted_at := None; ex_extent := e |}) <$> es.

Lemma insert_extents_ok tenant manifest es rows rows' :
  insert_extents tenant manifest es rows = inr rows' -> rows' = rows ++ new_rows tenant manifest es /\
    (NoDup (ex_id <$> rows) -> NoDup (ex_id <$> rows')).
Proof.
  revert rows. induction es as [|e es IH]; intros rows; simpl.
  - intros [= <-]. by rewrite app_nil_r.
  - case_bool_decide as Hin; [done|]. intros Hins. destruct (IH _ Hins) as [Hr' Hnd].
    split; [by rewrite Hr', <-app_assoc|]. intros Hr. apply Hnd. rewrite fmap_app. apply NoDup_app. split_and!; [done| |apply NoDup_singleton].
    by intros x Hx ->%list_elem_of_singleton.
Qed.

Lemma insert_extents_error tenant manifest es rows err :
  insert_extents tenant manifest es rows = inl err -> exists e, e ∈ es /\ err = Sql (db_message "extents.id").
Proof.
  revert rows. induction es as [|e es IH]; intros rows; simpl; [done|]. case_bool_decide.
  - intros [= <-]. exists e. split; [left|done].
  - intros (e' & He & ->)%IH. exists e'. split; [by right|done].
Qed.

(** What a successful commit has done, for either kind of group. *)
Record committed (tenant table parent schema snap manifest : Uuid) (es : list ExtentManifest) (removed : list Uuid) (now : Z)
    (db db' : Db) : Prop := {
  cm_parent : exists p, p ∈ snapshots db /\ sn_id p = parent /\
    (forall s, s ∈ snapshots db -> sn_table s = table -> sn_sequence s <> sn_sequence p + 1) /\
    exists summary, snapshots db' = snapshots db ++ [
      {| sn_id := snap; sn_tenant := tenant; sn_table := table; sn_parent := Some parent;
         sn_sequence := sn_sequence p + 1; sn_schema := schema; sn_summary := summary |}];
  cm_manifest : exists m, manifests db' = manifests db ++ [m] /\ mf_id m = manifest /\ mf_snapshot m = snap;
  cm_tables : tables db' = update_rows (cas_guard tenant table parent) (set_current snap) (tables db) /\
    rows_affected (cas_guard tenant table parent) (tables db) = 1%nat;
  cm_rows : exists rows, insert_extents tenant manifest es (extents db) = inr rows /\
    extents db' = soft_delete tenant removed now rows }.

Lemma soft_delete_none tenant now l : soft_delete tenant [] now l = l.
Proof. apply update_rows_none. intros e _. rewrite !andb_false_iff. right. by apply bool_decide_eq_false, not_elem_of_nil. Qed.

Lemma commit_ok txn summary snap manifest now db db' s :
  commit txn summary snap manifest now db = (inr s, db') ->
  s = snap /\ committed (txn_tenant txn) (txn_table_id txn) (parent_snapshot_id txn) (txn_schema_snapshot_id txn)
               snap manifest (added txn) (removed txn) now db db'.
Proof.
  unfold commit. destruct (find_snapshot _ db) as [p|] eqn:Hp; [|done].
  destruct (sequence_taken _ _ db) eqn:Hseq; [done|].
  destruct (insert_extents _ _ _ _) as [e|rows] eqn:Hins; [done|]. case_decide as Hcas; [|done].
  intros [= <- <-]. split; [done|]. simpl in Hins, Hcas. apply find_snapshot_Some in Hp as [Hin Hid].
  split; simpl.
  - exists p. split_and!; [done..|by apply sequence_taken_false|]. by exists summary.
  - by eexists.
  - done.
  - by exists rows.
Qed.

Lemma commit_staged_ok tenant table ids ms snap manifest db db' s :
  commit_staged_group tenant table ids ms snap manifest db = (inr (Some s), db') ->
  s = snap /\ exists parent schema, committed tenant table parent schema snap manifest ms [] 0 db db'.
Proof.
  unfold commit_staged_group. destruct ms as [|m ms]; [done|].
  destruct (tb_current_snapshot <$> find_table tenant table db) as [[parent|]|]; [|done..].
  destruct (find_snapshot parent db) as [p|] eqn:Hp; [|done].
  destruct (sequence_taken _ _ db) eqn:Hseq; [done|].
  destruct (insert_extents _ _ _ _) as [e|rows] eqn:Hins; [done|]. case_decide as Hcas; [|done].
  intros [= <- <-]. split; [done|]. simpl in Hins, Hcas. apply find_snapshot_Some in Hp as [Hin Hid]. simpl.
  exists parent, (sn_schema p). split; simpl.
  - exists p. split_and!; [done..|by apply sequence_taken_false|]. by eexists.
  - by eexists.
  - done.
  - exists rows. by rewrite soft_delete_none.
Qed.

(** An operation that answers with an error changes nothing. *)
Lemma commit_error txn summary snap manifest now db db' e : commit txn summary snap manifest now db = (inl e, db') -> db' = db.
Proof.
  unfold commit. destruct (find_snapshot _ db); [|congruence]. destruct (sequence_taken _ _ db); [congruence|].
  destruct (insert_extents _ _ _ _); [congruence|]. case_decide; congruence.
Qed.

Lemma commit_staged_error tenant table ids ms snap manifest db db' r :
  commit_staged_group tenant table ids ms snap manifest db = (r, db') -> (forall s, r <> inr (Some s)) -> db' = db.
Proof.
  unfold commit_staged_group. destruct ms as [|m ms]; [congruence|].
  destruct (tb_current_snapshot <$> find_table tenant table db) as [[parent|]|]; [|congruence..].
  destruct (find_snapshot parent db); [|congruence]. destruct (sequence_taken _ _ db); [congruence|].
  destruct (insert_extents _ _ _ _); [congruence|]. case_decide; [|congruence]. intros [= <- <-] Hn. by destruct (Hn snap).
Qed.

(** The table a commit swings, and its head before. *)
Lemma committed_head tenant table parent schema snap manifest es removed now db db' : db_wf db ->
  committed tenant table parent schema snap manifest es removed now db db' ->
  exists t p, t ∈ tables db /\ tb_id t = table /\ tb_tenant t = tenant /\ p ∈ snapshots db /\ sn_id p = parent /\
    sn_table p = table /\ tb_current_snapshot t = Some parent /\
    (forall s, s ∈ snapshots db -> sn_table s = table -> sn_sequence s <= sn_sequence p) /\
    exists summary, snapshots db' = snapshots db ++ [
      {| sn_id := snap; sn_tenant := tenant; sn_table := table; sn_parent := Some parent;
         sn_sequence := sn_sequence p + 1; sn_schema := schema; sn_summary := summary |}].
Proof.
  intros Hw [(p & Hp & Hpid & _ & Hsn) _ [_ Hcas] _].
  unfold rows_affected in Hcas. destruct (filter _ (tables db)) as [|t l] eqn:Hf; [done|].
  assert (t ∈ filter (fun t => cas_guard tenant table parent t = true) (tables db)) as Ht by (rewrite Hf; left).
  apply elem_of_where in Ht as [Hg Ht]. unfold cas_guard, is_table in Hg.
  rewrite !andb_true_iff, !bool_decide_eq_true in Hg. destruct Hg as ((Hten & Hid) & Hcur).
  destruct (wf_head db Hw t Ht) as (s & Hs & Hcur' & Hst & Hmax). rewrite Hcur in Hcur'. injection Hcur' as Hps.
  assert (s = p) as -> by (apply (same_key sn_id _ _ _ (wf_snapshot_ids db Hw) Hs Hp); congruence).
  exists t, p. rewrite Hid in *. split_and!; try done. 
Qed.

Lemma continues_mono db db' s : (forall x, x ∈ snapshots db -> x ∈ snapshots db') -> continues db s -> continues db' s.
Proof. intros Hsub. unfold continues. destruct (sn_parent s); [|done]. intros (s' & ? & ?). exists s'. auto. Qed.

Lemma soft_delete_ids tenant ids now l : ex_id <$> soft_delete tenant ids now l = ex_id <$> l.
Proof. by apply update_rows_fmap. Qed.

Lemma elem_of_soft_delete tenant ids now l e : e ∈ soft_delete tenant ids now l ->
  exists e0, e0 ∈ l /\ ex_manifest e = ex_manifest e0 /\ ex_extent e = ex_extent e0.
Proof. intros (e0 & He & ->)%elem_of_update_rows. exists e0. by case_match. Qed.

Lemma committed_wf tenant table parent schema snap manifest es removed now db db' : db_wf db ->
  committed tenant table parent schema snap manifest es removed now db db' ->
  snap ∉ sn_id <$> snapshots db -> manifest ∉ mf_id <$> manifests db -> Forall (fun m => m_table_id m = table) es -> db_wf db'.
Proof.
  intros Hw Hc Hsnap Hman Hes.
  destruct (committed_head _ _ _ _ _ _ _ _ _ _ _ Hw Hc) as (t & p & Ht & Htid & Htt & Hp & Hpid & Hpt & Hcur & Hmax & summary & Hsn).
  destruct Hc as [_ (m & Hm & Hmid & Hms) [Htab _] (rows & Hins & Hex)].
  destruct (insert_extents_ok _ _ _ _ _ Hins) as [Hrows Hnd].
  set (new := {| sn_id := snap |}) in Hsn.
  assert (forall x, x ∈ snapshots db -> x ∈ snapshots db') as Hsub by (intros x Hx; rewrite Hsn; set_solver).
  assert (forall x, x ∈ snapshots db' -> x ∈ snapshots db \/ x = new) as Hinv.
  { intros x. rewrite Hsn. intros [?| ->%list_elem_of_singleton]%elem_of_app; auto. }
  assert (new ∈ snapshots db') as Hnew by (rewrite Hsn; set_solver).
  split.
  - rewrite Hsn, fmap_app. apply NoDup_app. split_and!; [apply Hw| |apply NoDup_singleton].
    by intros x Hx ->%list_elem_of_singleton.
  - rewrite Htab, update_rows_fmap by done. apply Hw.
  - rewrite Hm, fmap_app. apply NoDup_app. split_and!; [apply Hw| |apply NoDup_singleton].
    intros x Hx ->%list_elem_of_singleton. by rewrite Hmid in Hx.
  - rewrite Hex, soft_delete_ids. apply Hnd, Hw.
  - intros s [Hs| ->]%Hinv; [by apply Hw|]. simpl. pose proof (wf_sequence db Hw p Hp). lia.
  - intros s [Hs| ->]%Hinv; [eapply continues_mono; [exact Hsub|by apply Hw]|]. exists p. auto.
  - intros s s' [Hs| ->]%Hinv [Hs'| ->]%Hinv Hst Hsq; [by apply (wf_one db Hw)| | |done].
    + specialize (Hmax s Hs Hst). simpl in Hsq. lia.
    + specialize (Hmax s' Hs' (eq_sym Hst)). simpl in Hsq. lia.
  - assert (forall id, (exists t, t ∈ tables db /\ tb_id t = id) -> exists t, t ∈ tables db' /\ tb_id t = id) as Htables.
    { intros id (u & Hu & <-). rewrite Htab. eexists. split; [apply elem_of_update_rows; by exists u|]. by case_match. }
    intros s [Hs| ->]%Hinv; apply Htables; [by apply Hw|by exists t].
  - intros u Hu. rewrite Htab in Hu. apply elem_of_update_rows in Hu as (u0 & Hu0 & ->).
    destruct (cas_guard tenant table parent u0) eqn:Hg.
    + unfold cas_guard, is_table in Hg. rewrite !andb_true_iff, !bool_decide_eq_true in Hg. destruct Hg as ((_ & Hid) & _).
      exists new. simpl. split_and!; try done. intros s [Hs| ->]%Hinv Hst; simpl; [|lia].
      rewrite Hid in Hst. specialize (Hmax s Hs Hst). lia.
    + destruct (wf_head db Hw u0 Hu0) as (s & Hs & Hsc & Hst & Hsm). exists s. split_and!; [auto|done..|].
      intros s' [Hs'| ->]%Hinv Hst'; [by apply Hsm|]. simpl in *. exfalso.
      assert (u0 = t) as -> by (apply (same_key tb_id _ _ _ (wf_table_ids db Hw) Hu0 Ht); congruence).
      unfold cas_guard, is_table in Hg. by rewrite !bool_decide_true in Hg.
  - intros e He. rewrite Hex in He. apply elem_of_soft_delete in He as (e0 & He & Hem & Hee).
    unfold manifested. rewrite Hem, Hee. rewrite Hrows in He. apply elem_of_app in He as [He|He].
    + destruct (wf_manifested db Hw e0 He) as (m0 & s & Hm0 & Hs & ?). exists m0, s. rewrite Hm. split_and!; [set_solver|auto|tauto..].
    + apply list_elem_of_fmap in He as (x & -> & Hx). exists m, new. rewrite Hm. simpl.
      rewrite Forall_forall in Hes. split_and!; [set_solver|done..|]. by rewrite (Hes x Hx).
Qed.

(** Fewer extents, the rest unchanged. *)
Lemma fewer_extents_wf db db' p : db_wf db -> tables db' = tables db -> snapshots db' = snapshots db ->
  manifests db' = manifests db -> extents db' = delete_where p (extents db) -> db_wf db'.
Proof.
  intros Hw Ht Hs Hm He. destruct Hw as [H1 H2 H3 H4 H5 H6 H7 H8 H9 H10].
  split; unfold continues, heads, manifested in *; rewrite ?Ht, ?Hs, ?Hm; try done.
  - rewrite He. eapply sublist_NoDup; [exact H4|]. apply fmap_sublist, sublist_filter.
  - rewrite He. intros e [_ Hin]%list_elem_of_filter. auto.
Qed.

(** Tables renamed in columns other than the identifier and the head. *)
Lemma same_heads_wf db db' g : db_wf db -> tables db' = g <$> tables db ->
  (forall t, tb_id (g t) = tb_id t /\ tb_current_snapshot (g t) = tb_current_snapshot t) ->
  snapshots db' = snapshots db -> manifests db' = manifests db -> extents db' = extents db -> db_wf db'.
Proof.
  intros Hw Ht Hg Hs Hm He. destruct Hw as [H1 H2 H3 H4 H5 H6 H7 H8 H9 H10].
  split; unfold continues, heads, manifested in *; rewrite ?Ht, ?Hs, ?Hm, ?He; try done.
  - rewrite <-list_fmap_compose. erewrite list_fmap_ext; [exact H2|]. intros i t _. simpl. apply Hg.
  - intros s Hin. destruct (H8 s Hin) as (t & Hin' & Hid). exists (g t). split; [by apply list_elem_of_fmap_2|].
    destruct (Hg t). congruence.
  - intros t (t0 & -> & Hin)%list_elem_of_fmap. destruct (Hg t0) as [-> ->]. auto.
Qed.

Lemma same_rows_wf db db' : db_wf db -> tables db' = tables db -> snapshots db' = snapshots db ->
  manifests db' = manifests db -> extents db' = extents db -> db_wf db'.
Proof. intros Hw Ht. apply (same_heads_wf db db' id); [done|by rewrite list_fmap_id|done]. Qed.

Lemma elem_of_delete_where {A} (p : A -> bool) l x : x ∈ delete_where p l <-> p x = false /\ x ∈ l.
Proof. unfold delete_where. by rewrite list_elem_of_filter. Qed.

Lemma delete_where_NoDup {A B} (key : A -> B) p l : NoDup (key <$> l) -> NoDup (key <$> delete_where p l).
Proof. intros Hnd. eapply sublist_NoDup; [exact Hnd|]. apply fmap_sublist, sublist_filter. Qed.

Lemma drop_table_wf tenant database name db : db_wf db -> db_wf (drop_table_in_tenant tenant database name db).2.
Proof.
  intros Hw. unfold drop_table_in_tenant. destruct (find_row _ (tables db)) as [t|]; simpl; [|done].
  set (id := tb_id t). destruct Hw as [H1 H2 H3 H4 H5 H6 H7 H8 H9 H10].
  assert (forall s, s ∈ delete_where (fun s => bool_decide (sn_table s = id)) (snapshots db) <-> sn_table s <> id /\ s ∈ snapshots db) as Hsn.
  { intros s. by rewrite elem_of_delete_where, bool_decide_eq_false. }
  split; simpl; [by apply delete_where_NoDup..| | | | | |].
  - intros s [_ Hs]%Hsn. auto.
  - intros s [Hne Hs]%Hsn. specialize (H6 s Hs). unfold continues in *. simpl. destruct (sn_parent s); [|done].
    destruct H6 as (s' & Hs' & Hid & Hst & Hseq). exists s'. split_and!; [|done..]. apply Hsn. split; [congruence|done].
  - intros s s' [_ Hs]%Hsn [_ Hs']%Hsn. auto.
  - intros s [Hne Hs]%Hsn. destruct (H8 s Hs) as (u & Hu & Hid). exists u. split; [|done].
    apply elem_of_delete_where. split; [|done]. apply bool_decide_eq_false. congruence.
  - intros u [Hne%bool_decide_eq_false Hu]%elem_of_delete_where. destruct (H9 u Hu) as (s & Hs & Hcur & Hst & Hmax).
    exists s. simpl. split_and!; [apply Hsn; split; [congruence|done]|done..|]. intros s' [_ Hs']%Hsn. auto.
  - intros e [Hne%bool_decide_eq_false He]%elem_of_delete_where.
    destruct (H10 e He) as (m & s & Hm & Hs & Hem & Hms & Hst). exists m, s. simpl. split_and!; [|apply Hsn; split; [congruence|done]|done..].
    apply elem_of_delete_where. split; [|done]. apply bool_decide_eq_false.
    intros (s' & Hid & [Hs'1 Hs'2]%list_elem_of_filter)%list_elem_of_fmap.
    assert (s' = s) as -> by (apply (same_key sn_id _ _ _ H1 Hs'2 Hs); congruence). congruence.
Qed.

Lemma create_table_wf id schema_snap snap tenant database name schema db : db_wf db ->
  id ∉ tb_id <$> tables db -> snap ∉ sn_id <$> snapshots db ->
  db_wf (create_table_in_tenant id schema_snap snap tenant database name schema db).2.
Proof.
  intros Hw Hid Hsnap. unfold create_table_in_tenant. destruct (find_row _ (databases db)) as [d|]; simpl; [|done].
  destruct (negb _); simpl; [done|]. destruct (existsb _ _); simpl; [done|].
  destruct Hw as [H1 H2 H3 H4 H5 H6 H7 H8 H9 H10].
  assert (forall s, s ∈ snapshots db -> sn_table s <> id) as Hold.
  { intros s Hs Hst. destruct (H8 s Hs) as (t & Ht & Htid). apply Hid. rewrite <-Hst, <-Htid. by apply list_elem_of_fmap_2. }
  split; simpl; [| |done..| | | | | |].
  - rewrite fmap_app. apply NoDup_app. split_and!; [done| |apply NoDup_singleton]. by intros x Hx ->%list_elem_of_singleton.
  - rewrite fmap_app. apply NoDup_app. split_and!; [done| |apply NoDup_singleton]. by intros x Hx ->%list_elem_of_singleton.
  - intros s [Hs| ->%list_elem_of_singleton]%elem_of_app; [auto|done].
  - intros s [Hs| ->%list_elem_of_singleton]%elem_of_app; [|done].
    eapply continues_mono; [|by apply H6]. intros x Hx. simpl. set_solver.
  - intros s s' [Hs| ->%list_elem_of_singleton]%elem_of_app [Hs'| ->%list_elem_of_singleton]%elem_of_app Hst Hsq; simpl in *;
      [by apply H7|by destruct (Hold s Hs)|by destruct (Hold s' Hs')|done].
  - intros s [Hs| ->%list_elem_of_singleton]%elem_of_app; simpl.
    + destruct (H8 s Hs) as (t & Ht & Htid). exists t. set_solver.
    + eexists. split; [apply elem_of_app; right; by apply list_elem_of_singleton|done].
  - intros t [Ht| ->%list_elem_of_singleton]%elem_of_app.
    + destruct (H9 t Ht) as (s & Hs & Hcur & Hst & Hmax). exists s. simpl. split_and!; [set_solver|done..|].
      intros s' [Hs'| ->%list_elem_of_singleton]%elem_of_app Hst'; [by apply Hmax|]. simpl in *. destruct Hid. rewrite Hst'.
      by apply list_elem_of_fmap_2.
    + eexists. simpl. split_and!; [apply elem_of_app; right; by apply list_elem_of_singleton|done..|].
      simpl. intros s' [Hs'| ->%list_elem_of_singleton]%elem_of_app Hst'; [by destruct (Hold s' Hs')|done].
  - intros e He. destruct (H10 e He) as (m & s & Hm & Hs & ?). exists m, s. simpl. split_and!; [done|set_solver|tauto..].
Qed.

Lemma db_step_wf ds db db' : db_step ds db db' -> db_wf db -> db_wf db'.
Proof.
  intros Hst Hw. destruct Hst as [id tenant name db|id schema_snap snap tenant database name schema db|tenant database name db
    |id table name type_ db|txn summary snap manifest now db db' r Hok Hsnap Hman Hc
    |tenant table ids ms snap manifest db db' r Hok Hsnap Hman Hc|id tenant batch now m db|ids db Hdel|tenant database table before db].
  - unfold create_database_in_tenant. destruct (existsb _ _); [done|]. by apply (same_rows_wf db).
  - by apply create_table_wf.
  - by apply drop_table_wf.
  - unfold alter_table_add_column. destruct (string_to_arrow_type type_); [done|].
    destruct (t ← _; _) as [[[t cur] s]|]; [|done]. destruct (add_column _ _ _); [done|]. case_decide; [|done].
    eapply (same_heads_wf db); [done|reflexivity| |done..]. intros u. cbn beta.
    by destruct (is_table table u && _).
  - destruct r as [e|s]; [by rewrite (commit_error _ _ _ _ _ _ _ _ Hc)|]. apply commit_ok in Hc as [_ Hc]. by eapply committed_wf.
  - destruct r as [e|[s|]].
    + rewrite (commit_staged_error _ _ _ _ _ _ _ _ _ Hc); done.
    + apply commit_staged_ok in Hc as (_ & parent & schema & Hc). by eapply committed_wf.
    + rewrite (commit_staged_error _ _ _ _ _ _ _ _ _ Hc); done.
  - unfold stage_extent. destruct (existsb _ _); [done|]. by apply (same_rows_wf db).
  - unfold delete_extent_rows. destruct ids as [|i ids]; [done|]. by eapply (fewer_extents_wf db).
  - unfold cleanup_soft_deleted_extents_in_tenant. destruct (find_row _ _) as [t|]; [|done]. by eapply (fewer_extents_wf db).
Qed.

Lemma empty_db_wf : db_wf empty_db.
Proof. split; simpl; try apply NoDup_nil_2; intros; set_solver. Qed.

Lemma db_run_once ds db db' : db_step ds db db' -> db_run ds db db'.
Proof. intros Hst. apply (run_step [] ds db db); [constructor|done]. Qed.

Lemma db_run_trans ds1 ds2 db1 db2 db3 : db_run ds1 db1 db2 -> db_run ds2 db2 db3 -> db_run (ds1 ++ ds2) db1 db3.
Proof.
  intros H12 H23. revert H12. induction H23 as [db|ds ds' db2 db db' _ IH Hst]; intros H12; [by rewrite app_nil_r|].
  rewrite app_assoc. by eapply run_step; [apply IH|].
Qed.

Lemma db_run_wf ds db db' : db_run ds db db' -> db_wf db -> db_wf db'.
Proof. induction 1; eauto using db_step_wf. Qed.
End Steps.

(** ** Histories, replay and the outcome of a commit *)

(** ** The history of a snapshot *)

(** From a snapshot back to the first one. *)
Fixpoint history (fuel : nat) (id : Uuid) (db : Db) : list SnapshotRow :=
  match fuel with
  | O => []
  | S fuel =>
      match find_snapshot id db with
      | None => []
      | Some s => s :: match sn_parent s with None => [] | Some p => history fuel p db end
      end
  end.

Fixpoint countdown (n : nat) : list Z :=
  match n with O => [0] | S m => Z.of_nat n :: countdown m end.

Lemma elem_of_countdown n z : z ∈ countdown n <-> 0 <= z <= Z.of_nat n.
Proof.
  induction n as [|n IH]; [simpl; rewrite list_elem_of_singleton; lia|].
  cbn [countdown]. rewrite elem_of_cons, IH. lia.
Qed.

Lemma countdown_NoDup n : NoDup (countdown n).
Proof. induction n as [|n IH]; cbn [countdown]; constructor; [by apply not_elem_of_nil|by constructor|rewrite elem_of_countdown; lia|done]. Qed.

Lemma length_countdown n : length (countdown n) = S n.
Proof. induction n; simpl; congruence. Qed.

Section History.
  Context (db : Db) (Hw : db_wf db).

Lemma find_snapshot_self s : s ∈ snapshots db -> find_snapshot (sn_id s) db = Some s.
Proof using Hw.
  intros Hs. unfold find_snapshot. destruct (find_row _ _) as [s'|] eqn:Hf.
  - apply find_row_Some in Hf as [Hs' Hid%bool_decide_eq_true]. f_equal. by apply (same_key sn_id _ _ _ (wf_snapshot_ids db Hw)).
  - apply find_row_None with (x := s) in Hf; [|done]. by apply bool_decide_eq_false in Hf.
Qed.

Lemma history_spec n s fuel : s ∈ snapshots db -> sn_sequence s = Z.of_nat n -> (n < fuel)%nat ->
  let h := history fuel (sn_id s) db in
  sn_sequence <$> h = countdown n /\ Forall (fun x => x ∈ snapshots db /\ sn_table x = sn_table s) h.
Proof using Hw.
  revert s fuel. induction n as [|n IH]; intros s [|fuel] Hs Hn Hf; [lia| |lia|]; simpl; rewrite find_snapshot_self by done;
    pose proof (wf_chain db Hw s Hs) as Hc; unfold continues in Hc; destruct (sn_parent s) as [p|].
  - destruct Hc as (s' & Hs' & _ & _ & Hsq). pose proof (wf_sequence db Hw s' Hs'). lia.
  - simpl. rewrite Hn. split; [done|]. by constructor.
  - destruct Hc as (s' & Hs' & <- & Hst & Hsq). destruct (IH s' fuel) as [H1 H2]; [done|lia|lia|].
    rewrite fmap_cons, H1, Hn. split; [done|]. constructor; [done|]. eapply Forall_impl; [exact H2|]. intros x [? ?]. split; congruence.
  - lia.
Qed.

Lemma sequence_nat s : s ∈ snapshots db -> sn_sequence s = Z.of_nat (Z.to_nat (sn_sequence s)).
Proof using Hw. intros Hs. pose proof (wf_sequence db Hw s Hs). lia. Qed.

(** There are at least as many snapshots as a sequence number says. *)
Lemma sequence_bound s : s ∈ snapshots db -> (Z.to_nat (sn_sequence s) < length (snapshots db))%nat.
Proof using Hw.
  intros Hs. set (n := Z.to_nat (sn_sequence s)).
  destruct (history_spec n s (S n) Hs (sequence_nat s Hs) ltac:(lia)) as [Hseq Hin].
  set (h := history _ _ _) in *. clearbody h.
  assert (length h = S n) as Hlen by (rewrite <-(length_countdown n), <-Hseq; by rewrite length_fmap).
  enough (length h <= length (snapshots db))%nat by lia.
  apply submseteq_length, NoDup_submseteq.
  - apply (NoDup_fmap_1 sn_sequence). rewrite Hseq. apply countdown_NoDup.
  - intros x Hx. rewrite Forall_forall in Hin. by apply Hin.
Qed.

(** The history of the head of a table: all its snapshots, numbered without a gap. *)
Lemma table_history t : t ∈ tables db -> exists s h n,
  tb_current_snapshot t = Some s /\ h = history (length (snapshots db)) s db /\ sn_sequence <$> h = countdown n /\
  (forall x, x ∈ h <-> x ∈ snapshots db /\ sn_table x = tb_id t).
Proof using Hw.
  intros Ht. destruct (wf_head db Hw t Ht) as (s & Hs & Hcur & Hst & Hmax). set (n := Z.to_nat (sn_sequence s)).
  destruct (history_spec n s (length (snapshots db)) Hs (sequence_nat s Hs) (sequence_bound s Hs)) as [Hseq Hin].
  exists (sn_id s), (history (length (snapshots db)) (sn_id s) db), n. split_and!; [done..|].
  rewrite Forall_forall in Hin. intros x. split; [intros Hx; destruct (Hin x Hx); split; congruence|].
  intros [Hx Hxt].
  assert (sn_sequence x ∈ sn_sequence <$> history (length (snapshots db)) (sn_id s) db) as Hmem.
  { rewrite Hseq, elem_of_countdown. split; [by apply (wf_sequence db Hw)|]. unfold n. rewrite <-(sequence_nat s Hs). by apply Hmax. }
  apply list_elem_of_fmap in Hmem as (y & Hy & Hyin). destruct (Hin y Hyin) as [Hydb Hyt].
  by rewrite (wf_one db Hw x y Hx Hydb) by congruence.
Qed.
End History.

(** ** The serial log *)

(** The live extents of all tenants, in the order of the table. *)
Definition live_in (l : list StoredExtent) : list (Uuid * ExtentManifest) :=
  (fun e => (ex_tenant e, ex_extent e)) <$> filter (fun e => ex_deleted_at e = None) l.
Definition live (db : Db) : list (Uuid * ExtentManifest) := live_in (extents db).

(** One committed transaction, run alone. *)
Definition replay_delta (l : list (Uuid * ExtentManifest)) (d : Delta) : list (Uuid * ExtentManifest) :=
  match d with
  | DCommit tenant added removed =>
      filter (fun x => ~ (x.1 = tenant /\ m_id x.2 ∈ removed)) (l ++ (pair tenant <$> added))
  | DDrop table => filter (fun x => m_table_id x.2 <> table) l
  end.
Definition replay : list Delta -> list (Uuid * ExtentManifest) := foldl replay_delta [].

Lemma live_in_cons e l : live_in (e :: l) =
  (if decide (ex_deleted_at e = None) then [(ex_tenant e, ex_extent e)] else []) ++ live_in l.
Proof. unfold live_in. rewrite filter_cons. by case_decide. Qed.

Lemma live_in_app l1 l2 : live_in (l1 ++ l2) = live_in l1 ++ live_in l2.
Proof. unfold live_in. by rewrite filter_app, fmap_app. Qed.

Lemma live_in_new tenant manifest es : live_in (new_rows tenant manifest es) = pair tenant <$> es.
Proof. induction es as [|e es IH]; [done|]. unfold new_rows. rewrite fmap_cons, live_in_cons. simpl. by f_equal. Qed.

Lemma live_in_soft_delete tenant removed now l :
  live_in (soft_delete tenant removed now l) = filter (fun x => ~ (x.1 = tenant /\ m_id x.2 ∈ removed)) (live_in l).
Proof.
  induction l as [|e l IH]; [done|]. unfold soft_delete, update_rows in *. rewrite fmap_cons, !live_in_cons, filter_app, IH.
  f_equal. destruct (decide (ex_deleted_at e = None)) as [Hd|Hd].
  - rewrite (bool_decide_true (ex_deleted_at e = None)) by done.
    destruct (decide (ex_tenant e = tenant /\ ex_id e ∈ removed)) as [[Ht Hr]|Hn].
    + rewrite !bool_decide_true by done. simpl. rewrite filter_cons_False; [done|]. simpl. tauto.
    + rewrite filter_cons_True by (simpl; tauto). simpl.
      destruct (decide (ex_tenant e = tenant)) as [Ht|Ht]; [rewrite (bool_decide_true (_ = tenant)) by done|rewrite (bool_decide_false (_ = tenant)) by done].
      * rewrite bool_decide_false by tauto. simpl. by rewrite decide_True.
      * simpl. by rewrite decide_True.
  - rewrite (bool_decide_false (ex_deleted_at e = None)) by done. rewrite andb_false_r. simpl. by rewrite decide_False.
Qed.

Lemma live_in_delete_dead p l : (forall e, e ∈ l -> p e = true -> ex_deleted_at e <> None) -> live_in (delete_where p l) = live_in l.
Proof.
  unfold delete_where. induction l as [|e l IH]; intros Hp; [done|]. rewrite filter_cons, live_in_cons.
  assert (live_in (filter (fun x => p x = false) l) = live_in l) as IH' by (apply IH; intros; apply Hp; [by right|done]).
  case_decide as Hd.
  - by rewrite live_in_cons, IH'.
  - rewrite IH'. rewrite decide_False; [done|]. apply Hp; [left|]. by destruct (p e).
Qed.

Lemma live_in_drop table l :
  live_in (delete_where (fun e => bool_decide (m_table_id (ex_extent e) = table)) l) = filter (fun x => m_table_id x.2 <> table) (live_in l).
Proof.
  unfold delete_where. induction l as [|e l IH]; [done|]. rewrite filter_cons, live_in_cons, filter_app, <-IH.
  destruct (decide (m_table_id (ex_extent e) = table)) as [Ht|Ht].
  - rewrite decide_False by (by rewrite bool_decide_true). destruct (decide (ex_deleted_at e = None)); [|done].
    by rewrite filter_cons_False by (simpl; tauto).
  - rewrite decide_True by (by rewrite bool_decide_false). rewrite live_in_cons. f_equal.
    destruct (decide (ex_deleted_at e = None)); [|done]. by rewrite filter_cons_True.
Qed.

Section Replay.
  Context `{Database} `{ArrowText}.

Lemma committed_live tenant table parent schema snap manifest es removed now db db' :
  committed tenant table parent schema snap manifest es removed now db db' ->
  live db' = replay_delta (live db) (DCommit tenant es removed).
Proof.
  intros [_ _ _ (rows & Hins & Hex)]. destruct (insert_extents_ok _ _ _ _ _ Hins) as [-> _].
  unfold live. by rewrite Hex, live_in_soft_delete, live_in_app, live_in_new.
Qed.

Lemma doomed_dead before e : doomed before e = true -> ex_deleted_at e <> None.
Proof. unfold doomed. by destruct (ex_deleted_at e). Qed.

Lemma db_step_live ds db db' : db_step ds db db' -> live db' = foldl replay_delta (live db) ds.
Proof.
  intros Hst. destruct Hst as [id tenant name db|id schema_snap snap tenant database name schema db|tenant database name db
    |id table name type_ db|txn summary snap manifest now db db' r Hok Hsnap Hman Hc
    |tenant table ids ms snap manifest db db' r Hok Hsnap Hman Hc|id tenant batch now m db|ids db Hdel|tenant database table before db].
  - unfold create_database_in_tenant. by destruct (existsb _ _).
  - unfold create_table_in_tenant. destruct (find_row _ _); [|done]. destruct (negb _); [done|]. by destruct (existsb _ _).
  - unfold drop_table_in_tenant. destruct (find_row _ _) as [t|]; [|done]. unfold live. simpl. apply live_in_drop.
  - unfold alter_table_add_column. destruct (string_to_arrow_type type_); [done|].
    destruct (t ← _; _) as [[[t cur] s]|]; [|done]. destruct (add_column _ _ _); [done|]. by case_decide.
  - destruct r as [e|s]; [by rewrite (commit_error _ _ _ _ _ _ _ _ Hc)|]. apply commit_ok in Hc as [_ Hc]. by apply committed_live in Hc.
  - destruct r as [e|[s|]].
    + by rewrite (commit_staged_error _ _ _ _ _ _ _ _ _ Hc).
    + apply commit_staged_ok in Hc as (_ & parent & schema & Hc). by apply committed_live in Hc.
    + by rewrite (commit_staged_error _ _ _ _ _ _ _ _ _ Hc).
  - unfold stage_extent. by destruct (existsb _ _).
  - unfold delete_extent_rows. destruct ids as [|i ids]; [done|]. unfold live. simpl. apply live_in_delete_dead.
    intros e He Hp%bool_decide_eq_true. by apply Hdel.
  - unfold cleanup_soft_deleted_extents_in_tenant. destruct (find_row _ _) as [t|]; [|done]. unfold live. simpl.
    apply live_in_delete_dead. intros e _ [_ Hp]%andb_true_iff. by eapply doomed_dead.
Qed.

Lemma db_run_live ds db db' : db_run ds db db' -> live db' = foldl replay_delta (live db) ds.
Proof. induction 1 as [|ds ds' db db1 db2 _ IH Hst]; [done|]. by rewrite foldl_app, <-IH, <-(db_step_live _ _ _ Hst). Qed.

(** ** The outcome of a commit *)

Lemma head_unique db t s : db_wf db -> t ∈ tables db -> s ∈ snapshots db -> sn_table s = tb_id t ->
  tb_current_snapshot t = Some (sn_id s) \/ exists s', s' ∈ snapshots db /\ sn_table s' = tb_id t /\ sn_sequence s' = sn_sequence s + 1.
Proof.
  intros Hw Ht Hs Hst. destruct (table_history db Hw t Ht) as (c & h & n & Hcur & Hh & Hseq & Hall).
  destruct (wf_head db Hw t Ht) as (s0 & Hs0 & Hcur0 & Hst0 & Hmax).
  destruct (decide (sn_sequence s = sn_sequence s0)) as [He|Hne].
  - left. rewrite Hcur0. by rewrite (wf_one db Hw s s0 Hs Hs0) by congruence.
  - right. specialize (Hmax s Hs Hst). pose proof (wf_sequence db Hw s Hs).
    assert (sn_sequence s + 1 ∈ sn_sequence <$> h) as (x & Hx & Hxin)%list_elem_of_fmap.
    { rewrite Hseq, elem_of_countdown. split; [lia|].
      assert (sn_sequence s0 ∈ countdown n) as [_ ?]%elem_of_countdown; [|lia].
      rewrite <-Hseq. apply list_elem_of_fmap_2. by apply Hall. }
    apply Hall in Hxin as [? ?]. by exists x.
Qed.

(** A transaction that branches from a snapshot of its table succeeds exactly
    when this is still the head; a table that moved on is a conflict. *)
Lemma commit_decides txn summary snap manifest now db t p : db_wf db ->
  t ∈ tables db -> tb_id t = txn_table_id txn -> tb_tenant t = txn_tenant txn ->
  p ∈ snapshots db -> sn_id p = parent_snapshot_id txn -> sn_table p = txn_table_id txn ->
  (commit txn summary snap manifest now db).1 =
    if decide (tb_current_snapshot t = Some (parent_snapshot_id txn))
    then match insert_extents (txn_tenant txn) manifest (added txn) (extents db) with inl e => inl e | inr _ => inr snap end
    else inl Conflict.
Proof.
  intros Hw Ht Htid Htt Hp Hpid Hpt. unfold commit. rewrite <-Hpid, (find_snapshot_self db Hw p Hp), Hpid.
  destruct (sequence_taken _ _ db) eqn:Hseq.
  - rewrite decide_False; [done|]. intros Hcur. destruct (wf_head db Hw t Ht) as (s & Hs & Hcur' & Hst & Hmax).
    rewrite Hcur in Hcur'. injection Hcur' as Hid.
    assert (s = p) as -> by (apply (same_key sn_id _ _ _ (wf_snapshot_ids db Hw) Hs Hp); congruence).
    assert (sequence_taken (txn_table_id txn) (sn_sequence p + 1) db = false) as Hf; [|congruence].
    apply sequence_taken_false. intros x Hx Hxt Hxs. specialize (Hmax x Hx ltac:(congruence)). lia.
  - rewrite sequence_taken_false in Hseq.
    destruct (head_unique db t p Hw Ht Hp) as [Hcur|(x & Hx & Hxt & Hxs)]; [congruence| |by destruct (Hseq x Hx); congruence].
    rewrite decide_True by congruence. simpl. destruct (insert_extents _ _ _ _) as [e|rows]; [done|].
    rewrite decide_True; [done|]. simpl. apply (rows_affected_one tb_id _ _ t); [apply Hw|done|..].
    + intros u Hu. unfold cas_guard, is_table in Hu. rewrite !andb_true_iff, !bool_decide_eq_true in Hu.
      destruct Hu as ((_ & ->) & _). done.
    + unfold cas_guard, is_table. rewrite !bool_decide_true by congruence. done.
Qed.
End Replay.

(** ** Tables of a database

    Names are unique in every reachable catalog, what a new table looks like to
    the lookup, and when the listing of a database fails. *)

Local Open Scope list_scope.

Section Tables.
  Context `{Database} `{ArrowText}.

(** ** Names *)

Definition db_named (d : DatabaseRow) : Uuid * string := (db_tenant d, db_name d).

Lemma commit_databases txn summary snap manifest now db : databases (commit txn summary snap manifest now db).2 = databases db.
Proof. unfold commit. by repeat case_match. Qed.
Lemma commit_staged_databases tenant table ids ms snap manifest db :
  databases (commit_staged_group tenant table ids ms snap manifest db).2 = databases db.
Proof. unfold commit_staged_group. by repeat case_match. Qed.

Lemma db_step_named ds db db' : db_step ds db db' -> NoDup (db_named <$> databases db) -> NoDup (db_named <$> databases db').
Proof.
  intros [id tenant name d|id schema_snap snap tenant database name schema d|tenant database name d
    |id table name type_ d|txn summary snap manifest now d d' r Hok Hsnap Hman Hc
    |tenant table ids ms snap manifest d d' r Hok Hsnap Hman Hc|id tenant batch now m d|ids d Hdel|tenant database table before d] Hnd.
  - unfold create_database_in_tenant. destruct (existsb _ _) eqn:Hex; [done|]. simpl. rewrite fmap_app. apply NoDup_app.
    split_and!; [done| |apply NoDup_singleton]. intros x Hx ->%list_elem_of_singleton. apply list_elem_of_fmap in Hx as (d0 & [= Ht Hn] & Hd0).
    apply not_true_iff_false in Hex. apply Hex, existsb_exists. exists d0. split; [by apply list_elem_of_In|].
    apply andb_true_intro. by split; apply bool_decide_eq_true.
  - unfold create_table_in_tenant. destruct (find_row _ _); [|done]. destruct (negb _); [done|]. by destruct (existsb _ _).
  - unfold drop_table_in_tenant. by destruct (find_row _ _).
  - unfold alter_table_add_column. destruct (string_to_arrow_type type_); [done|].
    destruct (t ← _; _) as [[[t cur] sr]|]; [|done]. destruct (add_column _ _ _); [done|]. by case_decide.
  - pose proof (commit_databases txn summary snap manifest now d) as Hd. rewrite Hc in Hd. simpl in Hd. by rewrite Hd.
  - pose proof (commit_staged_databases tenant table ids ms snap manifest d) as Hd. rewrite Hc in Hd. simpl in Hd. by rewrite Hd.
  - unfold stage_extent. by destruct (existsb _ _).
  - unfold delete_extent_rows. by destruct ids.
  - unfold cleanup_soft_deleted_extents_in_tenant. by destruct (find_row _ _).
Qed.

Lemma db_run_named ds db db' : db_run ds db db' -> NoDup (db_named <$> databases db) -> NoDup (db_named <$> databases db').
Proof. induction 1; [done|]. intros Hnd. eapply db_step_named; eauto. Qed.

(** ** A new table *)

Lemma find_row_app {A} (p : A -> bool) l x : (forall y, y ∈ l -> p y = false) -> p x = true -> find_row p (l ++ [x]) = Some x.
Proof.
  intros Hl Hx. destruct (find_row p (l ++ [x])) as [y|] eqn:Hf.
  - apply find_row_Some in Hf as [[Hy|Hy]%elem_of_app Hp]; [by rewrite Hl in Hp|by apply list_elem_of_singleton in Hy as ->].
  - apply find_row_None with (x := x) in Hf; [congruence|set_solver].
Qed.

Section Created.
  Context (id schema_snap snap tenant : Uuid) (d : DatabaseRow) (name : string) (schema : Schema) (db db' : Db).
  Context (Hnd : NoDup (db_named <$> databases db)) (Hd : d ∈ databases db) (Hten : db_tenant d = tenant).
  Context (Hss : schema_snap ∉ ss_id <$> schema_snapshots db).
  Context (Hc : create_table_in_tenant id schema_snap snap tenant (db_id d) name schema db = (@inr CatalogError Uuid id, db')).

Definition new_row : TableRow :=
  {| tb_id := id; tb_tenant := tenant; tb_database := db_id d; tb_name := name;
     tb_current_snapshot := Some snap; tb_schema_snapshot := Some schema_snap |}.
Definition new_schema_row : SchemaSnapshotRow :=
  {| ss_id := schema_snap; ss_tenant := tenant; ss_table := id; ss_schema := schema_to_json schema |}.

Lemma created_rows : databases db' = databases db /\ tables db' = tables db ++ [new_row] /\
  schema_snapshots db' = schema_snapshots db ++ [new_schema_row] /\
  forall t, t ∈ tables db -> tb_tenant t = tenant -> tb_database t = db_id d -> tb_name t <> name.
Proof using Hc.
  revert Hc. unfold create_table_in_tenant. destruct (find_row _ _); [|done]. destruct (negb _); [done|].
  destruct (existsb _ _) eqn:Hex; [done|]. intros [= <-]. split_and!; [done..|]. intros t Ht Htt Htd Htn.
  apply not_true_iff_false in Hex. apply Hex, existsb_exists. exists t. split; [by apply list_elem_of_In|].
  by rewrite Htt, Htd, Htn, !bool_decide_true.
Qed.

Lemma new_row_in : in_database tenant (db_name d) db' new_row = true.
Proof using Hc Hd Hten.
  destruct created_rows as (Hdb & _). unfold in_database. rewrite Hdb. simpl. rewrite bool_decide_true by done. simpl.
  apply existsb_exists. exists d. split; [by apply list_elem_of_In|]. by rewrite !bool_decide_true.
Qed.

(** No other table of the database has the name. *)
Lemma others_named t : t ∈ tables db -> in_database tenant (db_name d) db' t && bool_decide (tb_name t = name) = false.
Proof using Hc Hd Hten Hnd.
  destruct created_rows as (Hdb & _ & _ & Hname). intros Ht. apply not_true_iff_false. unfold in_database. rewrite Hdb.
  rewrite !andb_true_iff, existsb_exists, !bool_decide_eq_true. intros [[Htt (d' & Hd'%list_elem_of_In & Hdd)] Hn].
  rewrite !andb_true_iff, !bool_decide_eq_true in Hdd. destruct Hdd as [[Hi Ht'] Hn'].
  assert (d' = d) as -> by (apply (same_key db_named _ _ _ Hnd Hd' Hd); unfold db_named; congruence).
  by apply (Hname t).
Qed.

Lemma new_schema : schema_row db' new_row = Some new_schema_row.
Proof using Hc Hss.
  destruct created_rows as (_ & _ & Hs & _). unfold schema_row. simpl. rewrite Hs. apply find_row_app; [|by apply bool_decide_eq_true].
  intros y Hy. apply bool_decide_eq_false. intros Heq. apply Hss. rewrite <-Heq. by apply list_elem_of_fmap_2.
Qed.

Lemma created_lookup : lookup_table_in_tenant tenant (db_name d) name db' =
  match json_to_schema (schema_to_json schema) with
  | inl e => inl e
  | inr s => inr {| tr_id := id; tr_database := db_id d; tr_name := name; tr_current_snapshot := snap; tr_schema_snapshot := schema_snap; tr_schema := s |}
  end.
Proof using Hc Hd Hten Hnd Hss.
  destruct created_rows as (_ & Ht & _). unfold lookup_table_in_tenant. rewrite Ht, find_row_app.
  - rewrite new_schema. simpl. by destruct (json_to_schema _).
  - exact others_named.
  - by rewrite new_row_in, bool_decide_true.
Qed.

Lemma created_listed : listed_table db' new_row =
  Some match json_to_schema (schema_to_json schema) with
       | inl e => inl e
       | inr s => inr {| tr_id := id; tr_database := db_id d; tr_name := name; tr_current_snapshot := snap; tr_schema_snapshot := schema_snap; tr_schema := s |}
       end.
Proof using Hc Hss. unfold listed_table. rewrite new_schema. simpl. done. Qed.
End Created.

(** ** The listing *)

(** A list of results is collected unless one failed. *)
Lemma collect_spec {E A} (l : list (E + A)) :
  match collect l with
  | inr xs => l = inr <$> xs
  | inl e => inl e ∈ l
  end.
Proof.
  induction l as [|[e|x] l IH]; simpl; [done|left|]. destruct (collect l) as [e|xs]; [by right|by rewrite IH].
Qed.

(** The listing fails if one of its tables cannot be read. *)
Lemma listing_fails tenant database db t e : t ∈ tables db -> in_database tenant database db t = true ->
  listed_table db t = Some (inl e) -> exists e', list_tables_in_database_in_tenant tenant database db = inl e'.
Proof.
  intros Ht Hin He. unfold list_tables_in_database_in_tenant. set (l := omap _ _).
  assert (inl e ∈ l) as Hl.
  { apply list_elem_of_omap. exists t. split; [|done]. rewrite merge_sort_Permutation. by apply elem_of_where. }
  pose proof (collect_spec l) as Hs. destruct (collect l) as [e'|xs]; [by exists e'|].
  rewrite Hs in Hl. by apply list_elem_of_fmap in Hl as (x & ? & _).
Qed.
End Tables.
