(* ===== verification/CommitCoordinator.v ===== *)
(** * The commit coordinator

    [pensieve-ingest-core/src/commit_coordinator.rs]: extents of concurrent
    flushes are drained in batches, grouped by table, and each group is
    committed as one snapshot, with up to 20 attempts on conflicts.  Between
    the calls to the catalog the rest of the system acts: a [World] says what
    it does to the database, which calls fail, and which identifiers and times
    are drawn. *)

From stdpp Require Import base gmap strings list relations.
From Stdlib Require Import NArith ZArith Lia.
From S2P Require Import Prelude Bytes Arrow Pushdown CatalogPrune SqlTable CatalogSchema SnapshotDb CatalogOps SnapshotSpec.

Local Open Scope Z_scope.
Local Open Scope string_scope.
Local Open Scope list_scope.

(** The cases of [Error] that occur here. *)
Inductive Error := ECatalog (e : CatalogError) | Internal (m : string).
Definition error_message (e : Error) : string :=
  match e with
  | ECatalog e => "catalog error: " +:+ error_text e
  | Internal m => "internal error: " +:+ m
  end.

Definition DEFAULT_TENANT : Uuid := 0%N.

(** ** The world around a caller of the catalog *)

Record World := {
  wd_env : nat -> Db -> Db;                 (** what happens before call [k] *)
  wd_fault : nat -> option CatalogError;    (** call [k] fails without effect *)
  wd_snapshot : nat -> Db -> Uuid;
  wd_manifest : nat -> Db -> Uuid;
  wd_clock : nat -> Z }.

Section Calls.
  Context `{Database} `{ArrowText}.

Definition begin_snapshot (W : World) (k : nat) (table_id : Uuid) (db : Db) : (CatalogError + SnapshotTxn) * Db :=
  let db := wd_env W k db in
  (match wd_fault W k with Some e => inl e | None => begin_snapshot_in_tenant DEFAULT_TENANT table_id db end, db).

Definition commit_txn (W : World) (k : nat) (txn : SnapshotTxn) (summary : SnapshotSummary) (db : Db) : (CatalogError + Uuid) * Db :=
  let db := wd_env W k db in
  match wd_fault W k with
  | Some e => (inl e, db)
  | None => commit txn summary (wd_snapshot W k db) (wd_manifest W k db) (wd_clock W k) db
  end.
End Calls.

(** ** The coordinator *)

Record CommitJob := {
  table_id : Uuid; manifest : ExtentManifest; job_rows : N; job_bytes : N; table_label : string; responder : nat }.

Record CoordinatorConfig := { batch_window : Z; max_extents_per_snapshot : nat }.
Definition default_config : CoordinatorConfig := {| batch_window := 5; max_extents_per_snapshot := 128 |}.
(** The environment variables, parsed. *)
Definition from_env (window : option Z) (max_extents : option nat) : CoordinatorConfig :=
  {| batch_window := default (batch_window default_config) window;
     max_extents_per_snapshot := default (max_extents_per_snapshot default_config) max_extents |}.

Abbreviation Answer := (nat * (Error + Uuid))%type.

(** The first responder gets the error, the others a text. *)
Definition fail_all (jobs : list CommitJob) (err : Error) : list Answer :=
  let msg := "commit batch failed: " +:+ error_message err in
  match jobs with
  | [] => []
  | first :: rest => (responder first, inl err) :: ((fun j => (responder j, inl (Internal msg))) <$> rest)
  end.

Definition MAX_ATTEMPTS : nat := 20.

Definition group_summary (jobs : list CommitJob) : SnapshotSummary :=
  {| rows_added := foldr (fun j n => cast_i64 (job_rows j) + n) 0 jobs; rows_removed := 0;
     bytes_added := foldr (fun j n => cast_i64 (job_bytes j) + n) 0 jobs; bytes_removed := 0;
     operation := "ingest_x" +:+ show_nat (length jobs) |}.

Section Coordinator.
  Context `{Database} `{ArrowText}.

(** The loop with [n] attempts left; it also counts the calls. *)
Fixpoint commit_attempts (W : World) (table : Uuid) (jobs : list CommitJob) (n k : nat) (db : Db) : list Answer * nat * Db :=
  match n with
  | O => (fail_all jobs (ECatalog Conflict), k, db)
  | S n =>
      match begin_snapshot W k table db with
      | (inl e, db) => (fail_all jobs (ECatalog (Sql (error_message (ECatalog e)))), S k, db)
      | (inr txn, db) =>
          let txn := foldl (fun txn j => add_extent (manifest j) txn) txn jobs in
          match commit_txn W (S k) txn (group_summary jobs) db with
          | (inr snapshot_id, db) => ((fun j => (responder j, inr snapshot_id)) <$> jobs, S (S k), db)
          | (inl Conflict, db) => commit_attempts W table jobs n (S (S k)) db
          | (inl e, db) => (fail_all jobs (ECatalog e), S (S k), db)
          end
      end
  end.

Definition commit_one_table_group (W : World) (table : Uuid) (jobs : list CommitJob) (k : nat) (db : Db) : list Answer * nat * Db :=
  commit_attempts W table jobs MAX_ATTEMPTS k db.

(** [by_table.entry(job.table_id).or_default().push(job)] *)
Definition group_by_table (batch : list CommitJob) : list (Uuid * list CommitJob) := group_by table_id batch.

(** The groups in the order in which the hash map happens to yield them. *)
Fixpoint commit_groups (W : World) (groups : list (Uuid * list CommitJob)) (k : nat) (db : Db) : list Answer * nat * Db :=
  match groups with
  | [] => ([], k, db)
  | (table, jobs) :: groups =>
      let '(a1, k, db) := commit_one_table_group W table jobs k db in
      let '(a2, k, db) := commit_groups W groups k db in
      (a1 ++ a2, k, db)
  end.
Definition process_batch (W : World) (order : list (Uuid * list CommitJob) -> list (Uuid * list CommitJob))
    (batch : list CommitJob) (k : nat) (db : Db) : list Answer * nat * Db :=
  commit_groups W (order (group_by_table batch)) k db.

(** The channel, until it is closed: each round takes the first job and, of the
    [arrived] that come within its window, as many as the cap leaves room for.
    Every round takes a job, so the number of jobs is fuel enough. *)
Fixpoint run_coordinator (W : World) (order : list (Uuid * list CommitJob) -> list (Uuid * list CommitJob)) (cap : nat)
    (arrived : nat -> nat) (fuel round k : nat) (channel : list CommitJob) (db : Db) : option (list Answer * nat * Db) :=
  match channel with
  | [] => Some ([], k, db)
  | first :: rest =>
      match fuel with
      | O => None
      | S fuel =>
          let n := (arrived round `min` (cap - 1))%nat in
          let '(a1, k, db) := process_batch W order (first :: take n rest) k db in
          '(a2, k, db) ← run_coordinator W order cap arrived fuel (S round) k (drop n rest) db;
          Some (a1 ++ a2, k, db)
      end
  end.
End Coordinator.

(** ** Every responder is answered once *)

Lemma fail_all_responders jobs err : (fail_all jobs err).*1 = responder <$> jobs.
Proof. destruct jobs as [|j jobs]; [done|]. simpl. f_equal. by rewrite <-list_fmap_compose. Qed.

Section Answers.
  Context `{Database} `{ArrowText} (W : World).

Lemma commit_attempts_responders table jobs n k db :
  (commit_attempts W table jobs n k db).1.1.*1 = responder <$> jobs.
Proof.
  revert k db. induction n as [|n IH]; intros k db; cbn [commit_attempts]; [apply fail_all_responders|].
  destruct (begin_snapshot W k table db) as [[e|txn] db1]; [apply fail_all_responders|].
  destruct (commit_txn _ _ _ _ _) as [[[]|s] db2]; cbn [fst snd]; try apply fail_all_responders; [apply IH|].
  by rewrite <-list_fmap_compose.
Qed.

Lemma commit_groups_responders groups k db :
  (commit_groups W groups k db).1.1.*1 = responder <$> concat groups.*2.
Proof.
  revert k db. induction groups as [|[table jobs] groups IH]; intros k db; [done|]. simpl.
  pose proof (commit_attempts_responders table jobs MAX_ATTEMPTS k db) as H1. unfold commit_one_table_group.
  destruct (commit_attempts _ _ _ _ _ _) as [[a1 k1] db1]. specialize (IH k1 db1).
  destruct (commit_groups W groups k1 db1) as [[a2 k2] db2]. simpl in *. by rewrite !fmap_app, H1, IH.
Qed.

Lemma run_coordinator_answers order cap arrived fuel round k channel db :
  (forall groups, order groups ≡ₚ groups) -> (length channel <= fuel)%nat ->
  exists answers k' db', run_coordinator W order cap arrived fuel round k channel db = Some (answers, k', db') /\
    answers.*1 ≡ₚ responder <$> channel.
Proof.
  intros Hord. revert round k channel db. induction fuel as [|fuel IH]; intros round k [|first rest] db Hl; simpl in *; [| lia| |].
  1,2: by eexists _, _, _.
  set (n := (arrived round `min` (cap - 1))%nat). pose proof (commit_groups_responders (order (group_by_table (first :: take n rest))) k db) as H1.
  unfold process_batch. destruct (commit_groups _ _ _ _) as [[a1 k1] db1]. simpl in H1.
  destruct (IH (S round) k1 (drop n rest) db1) as (a2 & k2 & db2 & Hrun & H2); [rewrite length_drop; lia|].
  rewrite Hrun. simpl. eexists _, _, _. split; [done|].
  unfold group_by_table in H1. rewrite fmap_app, H1, H2, Hord, group_by_elements, <-fmap_app. simpl. by rewrite take_drop.
Qed.
End Answers.

(** * What a group commit guarantees

    In any lawful world: a group ends either as one committed transaction that
    adds all its extents, or without effect of its own; and a group that gives
    up has seen as many commits of others as it made attempts. *)

Section Spec.
  Context `{Database} `{ArrowText}.

(** The others run operations of the catalog; drawn identifiers are new. *)
Record lawful (W : World) : Prop := {
  lw_env k db : exists ds, db_run ds db (wd_env W k db);
  lw_snapshot k db : wd_snapshot W k db ∉ sn_id <$> snapshots db;
  lw_manifest k db : wd_manifest W k db ∉ mf_id <$> manifests db }.

(** Only the others act. *)
Definition others (W : World) : Db -> Db -> Prop := rtc (fun db db' => exists k, db' = wd_env W k db).

Lemma others_once W k db : others W db (wd_env W k db).
Proof. apply rtc_once. by exists k. Qed.

Lemma others_run W db db' : lawful W -> others W db db' -> exists ds, db_run ds db db'.
Proof.
  intros HW. induction 1 as [db|db1 db2 db3 [k ->] _ [ds IH]]; [exists []; constructor|].
  destruct (lw_env W HW k db1) as [ds1 H1]. exists (ds1 ++ ds). by eapply db_run_trans.
Qed.

Lemma others_trans W db1 db2 db3 : others W db1 db2 -> others W db2 db3 -> others W db1 db3.
Proof. unfold others. intros H1 H2. by etrans. Qed.

(** ** The transaction of a group *)

Lemma begin_ok tenant table db txn : begin_snapshot_in_tenant tenant table db = inr txn ->
  exists t schema, t ∈ tables db /\ tb_id t = table /\ tb_tenant t = tenant /\ tb_current_snapshot t = Some (parent_snapshot_id txn) /\
    txn = {| txn_tenant := tenant; txn_table_id := table; parent_snapshot_id := parent_snapshot_id txn;
             txn_schema_snapshot_id := schema; added := []; removed := [] |}.
Proof.
  unfold begin_snapshot_in_tenant. destruct (find_table tenant table db) as [t|] eqn:Ht; [|done].
  apply find_row_Some in Ht as [Ht [Hid Hten]%andb_true_iff]. apply bool_decide_eq_true in Hid, Hten.
  destruct (tb_current_snapshot t) as [parent|] eqn:Hp; [|done]. destruct (tb_schema_snapshot t) as [schema|]; [|done].
  intros [= <-]. by exists t, schema.
Qed.

(** The extents of all jobs are registered, in order. *)
Lemma add_all jobs txn : foldl (fun txn j => add_extent (manifest j) txn) txn jobs =
  {| txn_tenant := txn_tenant txn; txn_table_id := txn_table_id txn; parent_snapshot_id := parent_snapshot_id txn;
     txn_schema_snapshot_id := txn_schema_snapshot_id txn; added := added txn ++ (manifest <$> jobs); removed := removed txn |}.
Proof.
  revert txn. induction jobs as [|j jobs IH]; intros txn; simpl; [rewrite app_nil_r; by destruct txn|].
  rewrite IH. unfold add_extent. simpl. by rewrite <-app_assoc.
Qed.

(** The snapshot [s] of the table has a manifest that lists the group's extents,
    which are live, and it is the table's head. *)
Definition group_committed (s table : Uuid) (ms : list ExtentManifest) (db : Db) : Prop :=
  (exists row, row ∈ snapshots db /\ sn_id row = s /\ sn_table row = table) /\
  (exists t, t ∈ tables db /\ tb_id t = table /\ tb_current_snapshot t = Some s) /\
  exists m, m ∈ manifests db /\ mf_snapshot m = s /\
    forall x, x ∈ ms -> exists e, e ∈ extents db /\ ex_extent e = x /\ ex_manifest e = mf_id m /\ ex_deleted_at e = None.

Lemma committed_group tenant table parent schema snap man es now db db' :
  committed tenant table parent schema snap man es [] now db db' -> group_committed snap table es db'.
Proof.
  intros [(p & Hp & Hpid & _ & summary & Hsn) (m & Hm & Hmid & Hms) [Htab Hcas] (rows & Hins & Hex)].
  destruct (insert_extents_ok _ _ _ _ _ Hins) as [-> _]. rewrite soft_delete_none in Hex. split_and!.
  - eexists. rewrite Hsn. split; [apply elem_of_app; right; by apply list_elem_of_singleton|done].
  - unfold rows_affected in Hcas. destruct (filter _ (tables db)) as [|t l] eqn:Hf; [done|].
    assert (t ∈ filter (fun t => cas_guard tenant table parent t = true) (tables db)) as Ht by (rewrite Hf; left).
    apply elem_of_where in Ht as [Hg Ht]. exists (set_current snap t). simpl. rewrite Htab. split_and!; [|by apply andb_true_iff in Hg as [[_ ?%bool_decide_eq_true]%andb_true_iff _]|done].
    apply elem_of_update_rows. exists t. by rewrite Hg.
  - exists m. rewrite Hm, Hex. split_and!; [set_solver|done|]. intros x Hx.
    eexists. split; [apply elem_of_app; right; by apply list_elem_of_fmap_2|]. by rewrite Hmid.
Qed.

Lemma fail_all_errors jobs err : Forall (fun a => exists e, a.2 = inl e) (fail_all jobs err).
Proof.
  destruct jobs as [|j jobs]; constructor; [by eexists|]. apply Forall_fmap, Forall_true. intros x. by eexists.
Qed.

(** The outcome of a group: it is committed as one transaction, or every job
    gets an error and only the others have acted. *)
Definition group_outcome (W : World) (table : Uuid) (jobs : list CommitJob) (db : Db) (answers : list Answer) (db' : Db) : Prop :=
  (exists s db1, others W db db1 /\ db_step [DCommit DEFAULT_TENANT (manifest <$> jobs) []] db1 db' /\
     group_committed s table (manifest <$> jobs) db' /\ answers = (fun j => (responder j, inr s)) <$> jobs) \/
  (others W db db' /\ Forall (fun a => exists e, a.2 = inl e) answers).

Lemma others_outcome W table jobs db db1 answers db' : others W db db1 ->
  group_outcome W table jobs db1 answers db' -> group_outcome W table jobs db answers db'.
Proof.
  intros Ho [(s & db2 & Ho2 & Hrest)|[Ho2 Ha]]; [left; exists s, db2; split; [by eapply others_trans|done]|right].
  split; [by eapply others_trans|done].
Qed.

(** A transaction that only adds extents of its table, when it succeeds. *)
Lemma commit_group_ok txn ms table summary snap man now db s db' : Forall (fun m => m_table_id m = table) ms ->
  txn_tenant txn = DEFAULT_TENANT -> txn_table_id txn = table -> added txn = ms -> removed txn = [] ->
  snap ∉ sn_id <$> snapshots db -> man ∉ mf_id <$> manifests db -> commit txn summary snap man now db = (inr s, db') ->
  db_step [DCommit DEFAULT_TENANT ms []] db db' /\ group_committed s table ms db'.
Proof.
  intros Hms Hten Htab Hadd Hrem Hsnap Hman Hc.
  destruct (commit_ok _ _ _ _ _ _ _ _ Hc) as [-> Hcm]. rewrite Hten, Htab, Hadd, Hrem in Hcm.
  split; [|by eapply committed_group]. rewrite <-Hten, <-Hadd, <-Hrem.
  apply (do_commit _ _ _ _ _ _ _ _) in Hc; [done| |done..]. unfold txn_ok. by rewrite Htab, Hadd.
Qed.

(** One attempt at a commit: it happens after the others have acted, or not at all. *)
Lemma commit_call_outcome W k txn ms table summary db : lawful W -> Forall (fun m => m_table_id m = table) ms ->
  txn_tenant txn = DEFAULT_TENANT -> txn_table_id txn = table -> added txn = ms -> removed txn = [] ->
  match commit_txn W k txn summary db with
  | (inr s, db') => db_step [DCommit DEFAULT_TENANT ms []] (wd_env W k db) db' /\ group_committed s table ms db'
  | (inl _, db') => db' = wd_env W k db
  end.
Proof.
  intros HW Hms Hten Htab Hadd Hrem. unfold commit_txn. destruct (wd_fault W k); [done|].
  destruct (commit _ _ _ _ _ _) as [[e|s] db'] eqn:Hc; [by eapply commit_error|].
  eapply commit_group_ok; [done..|apply (lw_snapshot W HW)|apply (lw_manifest W HW)|exact Hc].
Qed.

(** Where a transaction of the table begins. *)
Lemma begin_call_outcome W k table db :
  match begin_snapshot W k table db with
  | (inr txn, db') => db' = wd_env W k db /\ txn_tenant txn = DEFAULT_TENANT /\ txn_table_id txn = table /\
                      added txn = [] /\ removed txn = []
  | (inl _, db') => db' = wd_env W k db
  end.
Proof.
  unfold begin_snapshot. destruct (wd_fault W k); [done|].
  destruct (begin_snapshot_in_tenant _ _ _) as [e|txn] eqn:Hb; [done|].
  destruct (begin_ok _ _ _ _ Hb) as (t & schema & _ & _ & _ & _ & ->). by split_and!.
Qed.

Lemma commit_attempts_outcome W table jobs n k db : lawful W -> Forall (fun j => m_table_id (manifest j) = table) jobs ->
  group_outcome W table jobs db (commit_attempts W table jobs n k db).1.1 (commit_attempts W table jobs n k db).2.
Proof.
  intros HW Hj. revert k db. induction n as [|n IH]; intros k db; cbn [commit_attempts].
  { right. split; [apply rtc_refl|apply fail_all_errors]. }
  pose proof (begin_call_outcome W k table db) as Hb. destruct (begin_snapshot W k table db) as [[e|txn] db1].
  { right. subst db1. split; [apply others_once|apply fail_all_errors]. }
  destruct Hb as (-> & Hten & Htab & Hadd & Hrem). eapply others_outcome; [apply others_once|]. rewrite add_all, Hadd, Hrem.
  match goal with |- context [commit_txn W (S k) ?txn _ _] =>
    pose proof (commit_call_outcome W (S k) txn (manifest <$> jobs) table (group_summary jobs) (wd_env W k db) HW) as Hc end.
  ospecialize (Hc _ Hten Htab eq_refl eq_refl); [by apply Forall_fmap|].
  destruct (commit_txn W (S k) _ _ _) as [[e|s] db2].
  - subst db2. eapply others_outcome; [apply others_once|]. destruct e; [apply IH|right; split; [apply rtc_refl|apply fail_all_errors]..].
  - destruct Hc as [Hst Hg]. left. exists s, (wd_env W (S k) (wd_env W k db)). split_and!; [apply others_once|done..].
Qed.

(** ** Conflicts are progress of others *)

(** Nobody drops a table meanwhile. *)
Record no_drop (W : World) : Prop := {
  nd_snapshots k db s : s ∈ snapshots db -> s ∈ snapshots (wd_env W k db);
  nd_tables k db t : t ∈ tables db -> exists t', t' ∈ tables (wd_env W k db) /\ tb_id t' = tb_id t /\ tb_tenant t' = tb_tenant t }.

(** The head of the table is number [n]. *)
Definition version (table : Uuid) (db : Db) (n : Z) : Prop :=
  exists t s, t ∈ tables db /\ tb_id t = table /\ s ∈ snapshots db /\ tb_current_snapshot t = Some (sn_id s) /\ sn_sequence s = n.

Lemma version_at_least table db t s : db_wf db -> t ∈ tables db -> tb_id t = table -> s ∈ snapshots db -> sn_table s = table ->
  exists n, version table db n /\ sn_sequence s <= n.
Proof.
  intros Hw Ht Hid Hs Hst. destruct (wf_head db Hw t Ht) as (h & Hh & Hcur & _ & Hmax).
  exists (sn_sequence h). split; [by exists t, h|]. apply Hmax; congruence.
Qed.

Lemma version_table table db n : db_wf db -> version table db n ->
  exists t s, t ∈ tables db /\ tb_id t = table /\ s ∈ snapshots db /\ sn_table s = table /\ sn_sequence s = n.
Proof.
  intros Hw (t & s & Ht & Hid & Hs & Hcur & Hn). destruct (wf_head db Hw t Ht) as (h & Hh & Hcur' & Hht & _).
  assert (h = s) as -> by (apply (same_key sn_id _ _ _ (wf_snapshot_ids db Hw) Hh Hs); congruence).
  exists t, s. split_and!; congruence || done.
Qed.

Lemma env_version W k table db n : lawful W -> no_drop W -> db_wf db -> version table db n ->
  db_wf (wd_env W k db) /\ exists n', version table (wd_env W k db) n' /\ n <= n'.
Proof.
  intros HW Hnd Hw Hv. destruct (lw_env W HW k db) as [ds Hrun]. pose proof (db_run_wf _ _ _ Hrun Hw) as Hw'. split; [done|].
  destruct (version_table _ _ _ Hw Hv) as (t & s & Ht & Hid & Hs & Hst & <-).
  destruct (nd_tables W Hnd k db t Ht) as (t' & Ht' & Hid' & _).
  apply (version_at_least table _ t' s); [done..|congruence|by apply (nd_snapshots W Hnd)|done].
Qed.

(** A commit that finds its parent superseded has been overtaken. *)
Lemma conflict_version W k txn summary snap man now table db t : lawful W -> no_drop W -> db_wf db -> t ∈ tables db ->
  tb_id t = table -> tb_tenant t = txn_tenant txn -> txn_table_id txn = table -> tb_current_snapshot t = Some (parent_snapshot_id txn) ->
  (commit txn summary snap man now (wd_env W k db)).1 = inl Conflict ->
  exists n n', version table db n /\ version table (wd_env W k db) n' /\ n < n'.
Proof.
  intros HW Hnd Hw Ht Hid Hten Htab Hcur Hc. destruct (lw_env W HW k db) as [ds Hrun].
  pose proof (db_run_wf _ _ _ Hrun Hw) as Hw'. destruct (wf_head db Hw t Ht) as (p & Hp & Hcur' & Hpt & _).
  destruct (nd_tables W Hnd k db t Ht) as (t' & Ht' & Hid' & Hten'). pose proof (nd_snapshots W Hnd k db p Hp) as Hp'.
  assert (sn_id p = parent_snapshot_id txn) as Hpid by congruence.
  rewrite (commit_decides txn summary snap man now _ t' p Hw' Ht') in Hc; [|congruence..].
  case_decide as Hd.
  - destruct (insert_extents _ _ _ _) as [e|] eqn:Hins; [|done]. apply insert_extents_error in Hins as (x & _ & ->). done.
  - destruct (head_unique _ t' p Hw' Ht' Hp') as [Hh|(s & Hs & Hst & Hsq)]; [congruence|congruence|].
    destruct (version_at_least table _ t' s Hw' Ht') as (n' & Hv' & Hle); [congruence|done|congruence|].
    exists (sn_sequence p), n'. split_and!; [by exists t, p|done|lia].
Qed.

Lemma fail_all_inj jobs e e' : jobs <> [] -> fail_all jobs e = fail_all jobs e' -> e = e'.
Proof. destruct jobs; [done|]. by intros _ [= ->]. Qed.

Lemma version_unique table db n n' : db_wf db -> version table db n -> version table db n' -> n = n'.
Proof.
  intros Hw (t & s & Ht & Hid & Hs & Hcur & <-) (t' & s' & Ht' & Hid' & Hs' & Hcur' & <-).
  assert (t = t') as <- by (apply (same_key tb_id _ _ _ (wf_table_ids db Hw) Ht Ht'); congruence).
  by rewrite (same_key sn_id _ _ _ (wf_snapshot_ids db Hw) Hs Hs') by congruence.
Qed.

Lemma commit_attempts_progress W table jobs n k db m : lawful W -> no_drop W -> (forall k, wd_fault W k = None) -> jobs <> [] ->
  db_wf db -> version table db m -> (commit_attempts W table jobs n k db).1.1 = fail_all jobs (ECatalog Conflict) ->
  exists m', version table (commit_attempts W table jobs n k db).2 m' /\ m + Z.of_nat n <= m'.
Proof.
  intros HW Hnd Hnf Hjobs. revert k db m. induction n as [|n IH]; intros k db m Hw Hv; cbn [commit_attempts].
  { intros _. exists m. split; [done|lia]. }
  unfold begin_snapshot. rewrite Hnf. destruct (env_version W k table db m HW Hnd Hw Hv) as (Hw1 & m1 & Hv1 & Hle).
  set (db1 := wd_env W k db) in *. destruct (begin_snapshot_in_tenant DEFAULT_TENANT table db1) as [e|txn] eqn:Hb.
  { intros Heq. by apply fail_all_inj in Heq. }
  destruct (begin_ok _ _ _ _ Hb) as (t & schema & Ht & Hid & Hten & Hcur & Htxn). rewrite add_all. unfold commit_txn. rewrite Hnf.
  destruct (env_version W (S k) table db1 m1 HW Hnd Hw1 Hv1) as (Hw2 & _).
  destruct (commit _ _ _ _ _ _) as [r db3] eqn:Hc. destruct r as [[]|s]; cbn [fst snd].
  - pose proof (commit_error _ _ _ _ _ _ _ _ Hc) as ->. intros Hans.
    pose proof (f_equal fst Hc) as Hc1. simpl in Hc1.
    epose proof (fun a b c => conflict_version W (S k) _ _ _ _ _ table db1 t HW Hnd Hw1 Ht Hid a b c Hc1) as Hcv.
    destruct Hcv as (m1' & m2 & Hv1' & Hv2 & Hlt); [by rewrite Htxn|by rewrite Htxn|exact Hcur|].
    pose proof (version_unique _ _ _ _ Hw1 Hv1 Hv1') as <-.
    destruct (IH (S (S k)) _ m2 Hw2 Hv2 Hans) as (m' & Hv' & Hle'). exists m'. split; [done|lia].
  - intros Heq. by apply fail_all_inj in Heq.
  - intros Heq. by apply fail_all_inj in Heq.
  - intros Heq. by destruct jobs.
Qed.
End Spec.
