(* ===== verification/Committer.v ===== *)
(** * The committer of staged extents

    [pensieve-ingest-core/src/committer.rs]: in staged mode an ingest records
    the manifest of its extent in [staged_extents]; the committer drains the
    staged rows, groups them by table and commits each group together with its
    destaging.  Several committers may run at once, each on a listing that the
    others have made stale. *)

From stdpp Require Import base gmap strings list relations sorting.
From Stdlib Require Import NArith ZArith Lia.
From S2P Require Import Prelude Bytes Arrow Pushdown CatalogPrune SqlTable CatalogSchema SnapshotDb CatalogOps SnapshotSpec.
From S2P Require Import CommitCoordinator.

Local Open Scope Z_scope.

Section Committer.
  Context `{Database} `{ArrowText}.

(** One call of [commit_staged_group]. *)
Definition commit_staged_call (W : World) (k : nat) (tenant table : Uuid) (ids : list Uuid) (ms : list ExtentManifest) (db : Db) :
    (CatalogError + option Uuid) * Db :=
  let db := wd_env W k db in
  match wd_fault W k with
  | Some e => (inl e, db)
  | None => commit_staged_group tenant table ids ms (wd_snapshot W k db) (wd_manifest W k db) db
  end.

(** A conflict is retried [retries] times, any other error ends the group. *)
Fixpoint commit_group (W : World) (tenant table : Uuid) (ids : list Uuid) (ms : list ExtentManifest) (retries k : nat) (db : Db) :
    nat * nat * Db :=
  match commit_staged_call W k tenant table ids ms db with
  | (inr _, db) => (length ms, S k, db)
  | (inl Conflict, db) =>
      match retries with
      | S retries => commit_group W tenant table ids ms retries (S k) db
      | O => (0%nat, S k, db)
      end
  | (inl _, db) => (0%nat, S k, db)
  end.

Fixpoint commit_staged_groups (W : World) (tenant : Uuid) (groups : list (Uuid * list StagedRow)) (k : nat) (db : Db) : nat * nat * Db :=
  match groups with
  | [] => (0%nat, k, db)
  | (table, rows) :: groups =>
      let '(n1, k, db) := commit_group W tenant table (st_id <$> rows) (st_manifest <$> rows) 20 k db in
      let '(n2, k, db) := commit_staged_groups W tenant groups k db in
      ((n1 + n2)%nat, k, db)
  end.

(** One pass: the number of extents committed; the groups come in the order of
    a hash map. *)
Definition tick (W : World) (tenant : Uuid) (order : list (Uuid * list StagedRow) -> list (Uuid * list StagedRow))
    (max_per_tick k : nat) (db : Db) : (CatalogError + nat) * nat * Db :=
  let db := wd_env W k db in
  match wd_fault W k with
  | Some e => (inl e, S k, db)
  | None =>
      match list_staged_extents tenant max_per_tick db with
      | [] => (inr 0%nat, S k, db)
      | staged =>
          let groups := group_by st_table staged in
          let '(n, k, db) := commit_staged_groups W tenant (order groups) (S k) db in
          (inr n, k, db)
      end
  end.

(** ** Exactly once *)

(** A system of ingests and committers: the database, and the rows that were
    ever staged. *)
Record Staging := { stg_db : Db; seen : list StagedRow }.

(** A staged row is new, and so is its extent; a committer works on rows of one
    table of the tenant that it has listed at some time; other transactions add
    extents of their own.  The collector is not among the steps: it touches an
    extent a day after its removal. *)
Inductive staging_step (tenant : Uuid) : Staging -> Staging -> Prop :=
  | sg_stage id batch now m s : id ∉ st_id <$> seen s -> m_id m ∉ (m_id ∘ st_manifest) <$> seen s ->
      m_id m ∉ ex_id <$> extents (stg_db s) -> (stage_extent id tenant batch now m (stg_db s)).1 = true ->
      staging_step tenant s
        {| stg_db := (stage_extent id tenant batch now m (stg_db s)).2;
           seen := seen s ++ [{| st_id := id; st_tenant := tenant; st_table := m_table_id m; st_batch := batch;
                                 st_manifest := m; st_created_at := now |}] |}
  | sg_restage id batch now m s : (stage_extent id tenant batch now m (stg_db s)).1 = false -> staging_step tenant s s
  | sg_commit table rows snap man s : rows ⊆ seen s -> Forall (fun r => st_tenant r = tenant /\ st_table r = table) rows ->
      staging_step tenant s
        {| stg_db := (commit_staged_group tenant table (st_id <$> rows) (st_manifest <$> rows) snap man (stg_db s)).2; seen := seen s |}
  | sg_other txn summary snap man now s : (forall m, m ∈ added txn -> m_id m ∉ (m_id ∘ st_manifest) <$> seen s) ->
      staging_step tenant s {| stg_db := (commit txn summary snap man now (stg_db s)).2; seen := seen s |}.

(** Each row that was ever staged is waiting or committed, never both. *)
Record exactly_once (s : Staging) : Prop := {
  eo_ids : NoDup (st_id <$> seen s);
  eo_extents : NoDup ((m_id ∘ st_manifest) <$> seen s);
  eo_staged r : r ∈ staged (stg_db s) -> r ∈ seen s;
  eo_once r : r ∈ seen s ->
    (r ∈ staged (stg_db s) /\ m_id (st_manifest r) ∉ ex_id <$> extents (stg_db s)) \/
    (r ∉ staged (stg_db s) /\ exists e, e ∈ extents (stg_db s) /\ ex_extent e = st_manifest r) }.

Lemma insert_extents_fresh tenant man es rows rows' : insert_extents tenant man es rows = inr rows' ->
  forall x, x ∈ es -> m_id x ∉ ex_id <$> rows.
Proof.
  revert rows. induction es as [|e es IH]; intros rows; simpl; [intros _ x Hx; by apply not_elem_of_nil in Hx|].
  case_bool_decide as He; [done|]. intros Hins x [->|Hx]%elem_of_cons; [done|]. intros Hin. apply (IH _ Hins x Hx).
  rewrite fmap_app. set_solver.
Qed.

(** A commit keeps the rows of the extents and adds those of its group. *)
Lemma committed_extents tenant table parent schema snap man es removed now db db' :
  committed tenant table parent schema snap man es removed now db db' ->
  (forall e, e ∈ extents db -> exists e', e' ∈ extents db' /\ ex_extent e' = ex_extent e) /\
  (forall x, x ∈ es -> exists e', e' ∈ extents db' /\ ex_extent e' = x) /\
  (ex_id <$> extents db' = (ex_id <$> extents db) ++ (m_id <$> es)) /\ (forall x, x ∈ es -> m_id x ∉ ex_id <$> extents db).
Proof.
  intros [_ _ _ (rows & Hins & Hex)]. destruct (insert_extents_ok _ _ _ _ _ Hins) as [-> _]. rewrite Hex.
  assert (forall e l, e ∈ l -> exists e', e' ∈ soft_delete tenant removed now l /\ ex_extent e' = ex_extent e) as Hsd.
  { intros e l He. eexists. split; [apply elem_of_update_rows; by exists e|]. by case_match. }
  split_and!.
  - intros e He. apply Hsd. set_solver.
  - intros x Hx. destruct (Hsd {| ex_tenant := tenant; ex_manifest := man; ex_deleted_at := None; ex_extent := x |}
      (extents db ++ new_rows tenant man es)) as (e' & He' & Hee'); [|by exists e'].
    apply elem_of_app. right. apply list_elem_of_fmap. by exists x.
  - rewrite soft_delete_ids, fmap_app. f_equal. unfold new_rows. by rewrite <-list_fmap_compose.
  - by eapply insert_extents_fresh.
Qed.

Lemma commit_staged_staged tenant table ids ms snap man db db' s :
  commit_staged_group tenant table ids ms snap man db = (inr (Some s), db') ->
  staged db' = delete_where (fun r => bool_decide (st_tenant r = tenant) && bool_decide (st_id r ∈ ids)) (staged db).
Proof.
  unfold commit_staged_group. destruct ms as [|m ms]; [done|].
  destruct (tb_current_snapshot <$> find_table tenant table db) as [[parent|]|]; [|done..].
  destruct (find_snapshot parent db); [|done]. destruct (sequence_taken _ _ db); [done|].
  destruct (insert_extents _ _ _ _); [done|]. case_decide; [|done]. by intros [= _ <-].
Qed.

Lemma commit_staged_same txn summary snap man now db : staged (commit txn summary snap man now db).2 = staged db.
Proof.
  unfold commit. destruct (find_snapshot _ db); [|done]. destruct (sequence_taken _ _ db); [done|].
  destruct (insert_extents _ _ _ _); [done|]. by case_decide.
Qed.

Lemma staging_step_once tenant s s' : staging_step tenant s s' -> exactly_once s -> exactly_once s'.
Proof.
  intros Hst [Hids Hexts Hstg Honce].
  destruct Hst as [id batch now m s Hid Hm Hex Ht|id batch now m s _|table rows snap man s Hsub Hrows|txn summary snap man now s Hadd].
  - revert Ht. unfold stage_extent. destruct (existsb _ _); [done|]. intros _. split; simpl.
    + rewrite fmap_app. apply NoDup_app. split_and!; [done| |apply NoDup_singleton]. by intros x Hx ->%list_elem_of_singleton.
    + rewrite fmap_app. apply NoDup_app. split_and!; [done| |apply NoDup_singleton]. by intros x Hx ->%list_elem_of_singleton.
    + intros r [Hr|Hr]%elem_of_app; apply elem_of_app; [left; by apply Hstg|by right].
    + intros r [Hr| ->%list_elem_of_singleton]%elem_of_app; [|left; set_solver].
      destruct (Honce r Hr) as [[H1 H2]|[H1 H2]]; [left; set_solver|right]. split; [|done].
      intros [?| ->%list_elem_of_singleton]%elem_of_app; [done|]. apply Hid. by apply (list_elem_of_fmap_2 st_id) in Hr.
  - done.
  - destruct (commit_staged_group _ _ _ _ _ _ _) as [r db'] eqn:Hc. simpl.
    assert ((exists x, r = inr (Some x)) \/ forall x, r <> inr (Some x)) as [(x & ->)|Hnone]
      by (destruct r as [|[x|]]; [by right|left; by exists x|by right]).
    2: { rewrite (commit_staged_error _ _ _ _ _ _ _ _ _ Hc Hnone). by destruct s. }
    pose proof (commit_staged_staged _ _ _ _ _ _ _ _ _ Hc) as Hstaged. apply commit_staged_ok in Hc as (_ & parent & schema & Hc).
    destruct (committed_extents _ _ _ _ _ _ _ _ _ _ _ Hc) as (Hkeep & Hnew & Hexids & Hfresh). rewrite Forall_forall in Hrows.
    assert (forall r, r ∈ staged db' <-> r ∈ staged (stg_db s) /\ ~ (st_tenant r = tenant /\ st_id r ∈ st_id <$> rows)) as Hin.
    { intros r. rewrite Hstaged, elem_of_delete_where, andb_false_iff, !bool_decide_eq_false. destruct (decide (st_tenant r = tenant)); tauto. }
    split; simpl; [done|done|intros r [Hr _]%Hin; by apply Hstg|]. intros r Hr.
    destruct (decide (st_id r ∈ st_id <$> rows)) as [Hidr|Hidr].
    + assert (r ∈ rows) as Hrr.
      { apply list_elem_of_fmap in Hidr as (r' & Heq & Hr'). by rewrite (same_key st_id _ _ _ Hids Hr (Hsub _ Hr') Heq). }
      right. rewrite Hin. split.
      * intros [_ Hno]. apply Hno. split; [by apply Hrows|by apply list_elem_of_fmap_2].
      * apply Hnew. by apply list_elem_of_fmap_2.
    + destruct (Honce r Hr) as [[H1 H2]|(H1 & e & He & Hee)]; [left|right]; rewrite Hin; (split; [tauto|]).
      * rewrite Hexids, elem_of_app. intros [?|Hm]; [done|]. apply list_elem_of_fmap in Hm as (m & Heq & Hm).
        apply list_elem_of_fmap in Hm as (r' & -> & Hr'). apply Hidr, list_elem_of_fmap_2.
        by rewrite (same_key (m_id ∘ st_manifest) _ _ _ Hexts Hr (Hsub _ Hr') Heq).
      * destruct (Hkeep e He) as (e' & He' & Hee'). exists e'. split; [done|congruence].
  - pose proof (commit_staged_same txn summary snap man now (stg_db s)) as Hsame.
    destruct (commit _ _ _ _ _ _) as [[e|x] db'] eqn:Hc; simpl in *.
    { rewrite (commit_error _ _ _ _ _ _ _ _ Hc). by destruct s. }
    apply commit_ok in Hc as [_ Hc]. destruct (committed_extents _ _ _ _ _ _ _ _ _ _ _ Hc) as (Hkeep & _ & Hexids & _).
    split; simpl; rewrite ?Hsame; [done..|]. intros r Hr.
    destruct (Honce r Hr) as [[H1 H2]|(H1 & e & He & Hee)]; [left|right]; (split; [done|]).
    + rewrite Hexids, elem_of_app. intros [?|Hm]; [done|]. apply list_elem_of_fmap in Hm as (m & Heq & Hm).
      apply (Hadd m Hm). rewrite <-Heq. by apply (list_elem_of_fmap_2 (m_id ∘ st_manifest)).
    + destruct (Hkeep e He) as (e' & He' & Hee'). exists e'. split; [done|congruence].
Qed.

(** ** A pass of the committer *)

(** What happens during a pass that listed [listed]: the others act, or a group
    of listed rows of one table is committed. *)
Inductive pass_step (W : World) (tenant : Uuid) (listed : list StagedRow) : Db -> Db -> Prop :=
  | ps_others k db : pass_step W tenant listed db (wd_env W k db)
  | ps_commit table rows snap man db : rows ⊆ listed -> Forall (fun r => st_tenant r = tenant /\ st_table r = table) rows ->
      pass_step W tenant listed db (commit_staged_group tenant table (st_id <$> rows) (st_manifest <$> rows) snap man db).2.

Lemma commit_group_pass W tenant listed table rows retries k db :
  rows ⊆ listed -> Forall (fun r => st_tenant r = tenant /\ st_table r = table) rows ->
  rtc (pass_step W tenant listed) db (commit_group W tenant table (st_id <$> rows) (st_manifest <$> rows) retries k db).2.
Proof.
  intros Hsub Hrows. revert k db. induction retries as [|retries IH]; intros k db; cbn [commit_group]; unfold commit_staged_call;
    set (db1 := wd_env W k db);
    (assert (rtc (pass_step W tenant listed) db db1) as H1 by (apply rtc_once; constructor)).
  all: destruct (wd_fault W k) as [[]|]; try exact H1; try (etrans; [exact H1|apply IH]).
  all: assert (rtc (pass_step W tenant listed) db (commit_staged_group tenant table (st_id <$> rows) (st_manifest <$> rows)
         (wd_snapshot W k db1) (wd_manifest W k db1) db1).2) as H2 by (eapply rtc_r; [exact H1|by constructor]).
  all: destruct (commit_staged_group _ _ _ _ _ _ db1) as [[[]|] db2]; try exact H2. etrans; [exact H2|apply IH].
Qed.

Lemma commit_staged_groups_pass W tenant listed groups k db :
  Forall (fun g => g.2 ⊆ listed /\ Forall (fun r => st_tenant r = tenant /\ st_table r = g.1) g.2) groups ->
  rtc (pass_step W tenant listed) db (commit_staged_groups W tenant groups k db).2.
Proof.
  intros Hg. revert k db. induction Hg as [|[table rows] groups [Hsub Hrows] _ IH]; intros k db; [done|].
  cbn [commit_staged_groups fst snd] in *. pose proof (commit_group_pass W tenant listed table rows 20 k db Hsub Hrows) as H1.
  destruct (commit_group _ _ _ _ _ _ _ _) as [[n1 k1] db1]. specialize (IH k1 db1).
  destruct (commit_staged_groups _ _ _ _ _) as [[n2 k2] db2]. cbn [fst snd] in *. etrans; [exact H1|exact IH].
Qed.

Lemma list_staged_in tenant max db r : r ∈ list_staged_extents tenant max db -> r ∈ staged db /\ st_tenant r = tenant.
Proof.
  unfold list_staged_extents. intros Hr%elem_of_take. destruct Hr as (i & Hi & _). apply list_elem_of_lookup_2 in Hi.
  rewrite merge_sort_Permutation in Hi. apply list_elem_of_filter in Hi. tauto.
Qed.

(** A pass only commits rows of its listing, table by table. *)
Lemma tick_pass W tenant order max k db : (forall groups, order groups ≡ₚ groups) ->
  rtc (pass_step W tenant (list_staged_extents tenant max (wd_env W k db))) db (tick W tenant order max k db).2.
Proof.
  intros Hord. unfold tick. set (db1 := wd_env W k db). set (listed := list_staged_extents tenant max db1).
  assert (rtc (pass_step W tenant listed) db db1) as H1 by (apply rtc_once; constructor).
  destruct (wd_fault W k); [done|]. pose proof (group_by_key st_table listed) as Hkey. pose proof (group_by_elements st_table listed) as Hel.
  pose proof (fun r => list_staged_in tenant max db1 r) as Hin. fold listed in Hin. fold listed.
  assert (rtc (pass_step W tenant listed) db1 (commit_staged_groups W tenant (order (group_by st_table listed)) (S k) db1).2) as H2.
  { apply commit_staged_groups_pass. rewrite Hord. apply Forall_forall. intros [table rows] Hg.
    rewrite Forall_forall in Hkey. specialize (Hkey _ Hg). rewrite Forall_forall in Hkey. simpl in *.
    assert (rows ⊆ listed) as Hsub.
    { intros r Hr. rewrite <-Hel. apply list_elem_of_In, in_concat. exists rows. rewrite <-!list_elem_of_In.
      split; [|done]. by apply (list_elem_of_fmap_2 snd _ (table, rows)). }
    split; [done|]. apply Forall_forall. intros r Hr. split; [by apply Hin, Hsub|by apply Hkey]. }
  destruct listed; [done|]. destruct (commit_staged_groups _ _ _ _ _) as [[n k'] db2]. simpl in *. etrans; [exact H1|exact H2].
Qed.
End Committer.
