(* ===== verification/Compaction.v ===== *)
(** * Compaction

    [pensieve-compaction/src/lib.rs]: a task names extents of a table; the
    worker resolves those that are live, merges their batches, promoted to the
    current schema, into one new extent, and commits a snapshot that adds it
    and removes the sources. *)

From stdpp Require Import base gmap strings list sorting.
From Stdlib Require Import NArith ZArith Lia.
From S2P Require Import Prelude Bytes Arrow BlockStats ColumnStats Pushdown CatalogPrune TlmExtent SqlTable CatalogSchema.
From S2P Require Import SnapshotDb CatalogOps CommitCoordinator.

Local Open Scope Z_scope.
Local Open Scope string_scope.
Local Open Scope list_scope.

(** The errors of a task. *)
Inductive CompactionError :=
  | CCatalog (e : CatalogError) | CFormat (e : FormatError) | CInternal (m : string) | CExecution (m : string).

Definition of_catalog {A} (r : CatalogError + A) : outcome CompactionError A :=
  match r with inl e => Fail (CCatalog e) | inr a => Ret a end.
Definition of_format {A} (r : outcome FormatError A) : outcome CompactionError A :=
  match r with Ret a => Ret a | Fail e => Fail (CFormat e) | Panic => Panic | OutOfFuel => OutOfFuel end.

(** ** Promotion to the current schema *)

(** [new_null_array] *)
Definition new_null_array (ty : DataType) (n : nat) : Array :=
  match ty with
  | Timestamp u tz => TimestampArray u tz (replicate n None)
  | Int32 => Int32Array (replicate n None)
  | Int64 => Int64Array (replicate n None)
  | Utf8 => StringArray (replicate n None)
  | LargeUtf8 => LargeStringArray (replicate n None)
  | FixedSizeList Float32 dim => VectorArray dim (replicate n false) (replicate (n * dim) (SpecFloat.S754_zero false))
  | ty => OtherArray ty (replicate n false)
  end.

Definition has_null (a : Array) : bool :=
  match a with
  | TimestampArray _ _ l | Int32Array l | Int64Array l => bool_decide (None ∈ l)
  | StringArray l | LargeStringArray l => bool_decide (None ∈ l)
  | VectorArray _ valid _ | OtherArray _ valid => bool_decide (false ∈ valid)
  end.

(** What [RecordBatch::try_new] checks, and the text of its error. *)
Definition try_new (schema : Schema) (cols : list Array) (n : nat) : option RecordBatch :=
  if bool_decide (Forall2 (fun f a => array_type a = f_type f /\ (f_nullable f = false -> has_null a = false)) schema cols) &&
     bool_decide (Forall (fun a => array_len a = n) cols)
  then Some {| b_schema := schema; b_columns := cols; b_num_rows := n |} else None.
Class TryNewText := { try_new_error : string }.

Section Worker.
  Context `{TryNewText} `{Codec} `{Database} `{ArrowText} `{Chrono}.

Definition promote_column (batch : RecordBatch) (f : Field) : infallible Array :=
  match column_index (b_schema batch) (f_name f) with
  | Some i => or_panic (b_columns batch !! i)
  | None => Ret (new_null_array (f_type f) (b_num_rows batch))
  end.

(** The number of rows of the result is that of its first column. *)
Definition promote_batch (batch : RecordBatch) (target : Schema) : outcome CompactionError RecordBatch :=
  if decide (b_schema batch = target) then Ret batch
  else
    cols ← for_each (fun f cols => c ← lift (promote_column batch f); Ret (cols ++ [c])) target [];
    match cols with
    | [] => Fail (CExecution ("compaction schema promote: " +:+ try_new_error))
    | c :: _ =>
        or_fail (CExecution ("compaction schema promote: " +:+ try_new_error)) (try_new target cols (array_len c))
    end.

(** ** Merging *)

Definition merge_batches (schema : Schema) (bs : list RecordBatch) (w : TelemetryExtentWriter) (merged : N) :
    outcome CompactionError (TelemetryExtentWriter * N) :=
  for_each (fun b '(w, merged) =>
      batch ← promote_batch b schema;
      w ← of_format (append batch w);
      Ret (w, merged + N.of_nat (b_num_rows batch))%N) bs (w, merged).

Context {St} `{ObjectStore St}.

Fixpoint merge_extents (schema : Schema) (ms : list ExtentManifest) (w : TelemetryExtentWriter) (merged input_bytes : N) (st : St) :
    outcome CompactionError (TelemetryExtentWriter * N * N) * St :=
  match ms with
  | [] => (Ret (w, merged, input_bytes), st)
  | m :: ms =>
      let '(reader, st) := open_extent schema (m_object_path m) (m_byte_size m) st in
      match reader ← of_format reader; merge_batches schema (batches reader) w merged with
      | Ret (w, merged) => merge_extents schema ms w merged (input_bytes + m_byte_size m) st
      | Fail e => (Fail e, st)
      | Panic => (Panic, st)
      | OutOfFuel => (OutOfFuel, st)
      end
  end.

Definition u32_MAX : N := (2 ^ 32 - 1)%N.

(** One above the highest input, saturating. *)
Definition next_compaction_level (sources : list ExtentManifest) : N :=
  (foldr (fun m n => N.max (compaction_gen m) n) 0 sources + 1)%N `min` u32_MAX.

Definition new_manifest_from_write (table : TableRef) (w : ExtentWriteResult) (level : N) : ExtentManifest :=
  {| m_id := wr_extent_id w; m_table_id := tr_id table; m_schema_snapshot_id := tr_schema_snapshot table;
     m_object_path := wr_object_path w; m_byte_size := wr_byte_size w; m_row_count := wr_row_count w;
     min_timestamp := nanos_to_utc <$> wr_min_timestamp_nanos w; max_timestamp := nanos_to_utc <$> wr_max_timestamp_nanos w;
     column_stats := wr_column_stats w; present_paths := wr_present_paths w; compaction_gen := N.max level 1;
     created_at := utc_now |}.

(** ** The commit *)

(** Up to [n] attempts, each on a fresh transaction with the same contents. *)
Fixpoint commit_with_retry (W : World) (table : Uuid) (new_manifest : ExtentManifest) (sources : list Uuid)
    (rows_merged bytes_in : N) (n k : nat) (db : Db) : outcome CompactionError unit * nat * Db :=
  match n with
  | O => (Fail (CCatalog Conflict), k, db)
  | S n =>
      match begin_snapshot W k table db with
      | (inl e, db) => (Fail (CCatalog e), S k, db)
      | (inr txn, db) =>
          let txn := remove_extents sources (add_extent new_manifest txn) in
          let summary :=
            {| rows_added := cast_i64 rows_merged; rows_removed := cast_i64 rows_merged;
               bytes_added := cast_i64 (m_byte_size new_manifest); bytes_removed := cast_i64 bytes_in; operation := "compaction" |} in
          match commit_txn W (S k) txn summary db with
          | (inr _, db) => (Ret tt, S (S k), db)
          | (inl Conflict, db) => commit_with_retry W table new_manifest sources rows_merged bytes_in n (S (S k)) db
          | (inl e, db) => (Fail (CCatalog e), S (S k), db)
          end
      end
  end.
Definition MAX : nat := 10.

(** ** A task *)

(** A call that reads the database. *)
Definition read_call {A} (W : World) (k : nat) (f : Db -> CatalogError + A) (db : Db) : (CatalogError + A) * Db :=
  let db := wd_env W k db in
  (match wd_fault W k with Some e => inl e | None => f db end, db).

Definition str_order (a b : string) : Prop := str_le a b = true.
#[local] Instance str_order_dec : RelDecision str_order := fun a b => bool_dec _ _.
Definition list_databases (db : Db) : list string :=
  merge_sort str_order (db_name <$> filter (fun d => db_tenant d = DEFAULT_TENANT) (databases db)).

(** The table with the given identifier, by listing every database. *)
Fixpoint find_table_in (W : World) (table : Uuid) (names : list string) (k : nat) (db : Db) :
    (CatalogError + option TableRef) * nat * Db :=
  match names with
  | [] => (inr None, k, db)
  | name :: names =>
      match read_call W k (list_tables_in_database_in_tenant DEFAULT_TENANT name) db with
      | (inl e, db) => (inl e, S k, db)
      | (inr ts, db) =>
          match list_find (fun t => tr_id t = table) ts with
          | Some (_, t) => (inr (Some t), S k, db)
          | None => find_table_in W table names (S k) db
          end
      end
  end.
Definition list_tables_for (W : World) (table : Uuid) (k : nat) (db : Db) : (CatalogError + option TableRef) * nat * Db :=
  match read_call W k (fun db => inr (list_databases db)) db with
  | (inl e, db) => (inl e, S k, db)
  | (inr names, db) => find_table_in W table names (S k) db
  end.

Definition source_manifests (table : TableRef) (ids : list Uuid) (db : Db) : list ExtentManifest :=
  filter (fun m => m_id m ∈ ids) (list_extents DEFAULT_TENANT (tr_id table) (tr_current_snapshot table) default_prune db).

(** The merged extent: written, then committed.  The follow-up that enqueues
    sidecar builds never fails the merge. *)
Definition merge_and_commit (W : World) (format : TelemetryFormat) (uuid : N -> string) (extent_id : N) (table : TableRef)
    (sources : list ExtentManifest) (k : nat) (db : Db) (st : St) : outcome CompactionError unit * nat * Db * St :=
  match merge_extents (tr_schema table) sources (start_extent format extent_id (tr_schema table)) 0 0 st with
  | (Ret (w, merged_rows, input_bytes), st) =>
      match of_format (finish_extent uuid w st) with
      | Ret (result, st) =>
          let new_manifest := new_manifest_from_write table result (next_compaction_level sources) in
          (commit_with_retry W (tr_id table) new_manifest (m_id <$> sources) merged_rows input_bytes MAX k db, st)
      | Fail e => (Fail e, k, db, st)
      | Panic => (Panic, k, db, st)
      | OutOfFuel => (OutOfFuel, k, db, st)
      end
  | (Fail e, st) => (Fail e, k, db, st)
  | (Panic, st) => (Panic, k, db, st)
  | (OutOfFuel, st) => (OutOfFuel, k, db, st)
  end.

(** [source_extent_ids] is the decoded payload, [None] when it does not decode. *)
Definition run_one (W : World) (format : TelemetryFormat) (uuid : N -> string) (extent_id : N) (table : option Uuid)
    (source_extent_ids : option (list Uuid)) (bad_payload : string) (k : nat) (db : Db) (st : St) :
    outcome CompactionError unit * nat * Db * St :=
  match source_extent_ids with
  | None => (Fail (CInternal ("bad compaction payload: " +:+ bad_payload)), k, db, st)
  | Some ids =>
      match table with
      | None => (Fail (CInternal "compaction task missing table_id"), k, db, st)
      | Some table =>
          match list_tables_for W table k db with
          | (inl e, k, db) => (Fail (CCatalog e), k, db, st)
          | (inr None, k, db) =>
              (Fail (CInternal ("compaction: table " +:+ uuid_text table +:+ " no longer exists")), k, db, st)
          | (inr (Some table_ref), k, db) =>
              match read_call W k (fun db => inr (source_manifests table_ref ids db)) db with
              | (inl e, db) => (Fail (CCatalog e), S k, db, st)
              | (inr [], db) | (inr [_], db) => (Ret tt, S k, db, st)
              | (inr sources, db) => merge_and_commit W format uuid extent_id table_ref sources (S k) db st
              end
          end
      end
  end.
End Worker.
