(* ===== verification/CompactionSpec.v ===== *)
(** * What a merge does to the rows of a table

    Promotion keeps the rows as the current schema reads them, the merged
    extent holds the rows of its sources, and the commit exchanges them. *)

From stdpp Require Import base gmap strings list relations sorting.
From Stdlib Require Import NArith ZArith Lia.
From S2P Require Import Prelude Bytes Arrow BlockStats ColumnStats Pushdown CatalogPrune TlmExtent SqlTable CatalogSchema.
From S2P Require Import SnapshotDb CatalogOps SnapshotSpec CommitCoordinator Compaction.

(** ** Rows *)

(** Row [i] as a schema reads it: a column the batch does not have is null. *)
Definition row (s : Schema) (b : RecordBatch) (i : nat) : list (option value) := (fun f => cell b (f_name f) i) <$> s.
Definition batch_rows (s : Schema) (b : RecordBatch) : list (list (option value)) := row s b <$> seq 0 (b_num_rows b).

Lemma null_array_type ty n : array_type (new_null_array ty n) = ty.
Proof. by destruct ty as [| | | | | |[]|]. Qed.
Lemma null_array_len ty n : array_len (new_null_array ty n) = n.
Proof. destruct ty as [| | | | | |[]|]; simpl; by rewrite length_replicate. Qed.
Lemma null_array_plain ty n : plain_array (new_null_array ty n).
Proof.
  destruct ty as [| | | | | |[]|]; simpl; try done; try (apply Forall_replicate; done).
  by rewrite !length_replicate.
Qed.
Lemma null_array_cell ty n i : array_cell (new_null_array ty n) i = None.
Proof.
  assert (forall A, mjoin (replicate n (None : option A) !! i) = None) as Hn.
  { intros A. destruct (replicate n None !! i) eqn:Hl; [|done]. apply lookup_replicate in Hl as [-> _]. done. }
  destruct ty as [| | | | | |[]|]; simpl; rewrite ?Hn; try done; case_decide as Hl; try done; by apply lookup_replicate in Hl as [? _].
Qed.

Section Promote.
  Context `{TryNewText}.

Lemma promote_column_spec b f c : batch_ok b -> promote_column b f = Ret c ->
  array_len c = b_num_rows b /\ plain_array c /\ forall i, array_cell c i = cell b (f_name f) i.
Proof.
  intros [_ Hcols]. unfold promote_column, cell. destruct (column_index (b_schema b) (f_name f)) as [j|] eqn:Hj.
  - destruct (b_columns b !! j) as [c'|] eqn:Hc; [|done]. intros [= ->]. rewrite Forall_lookup in Hcols.
    destruct (Hcols j c Hc). split_and!; [done..|]. simpl. by rewrite Hc.
  - intros [= <-]. split_and!; [apply null_array_len|apply null_array_plain|]. intros i. by rewrite null_array_cell.
Qed.

Lemma promote_columns_spec b target cols :
  for_each (fun f cols => c ← lift (E:=CompactionError) (promote_column b f); Ret (cols ++ [c])) target [] = Ret cols ->
  Forall2 (fun f c => promote_column b f = Ret c) target cols.
Proof.
  apply (for_each_Ret _ (fun fs cols => Forall2 (fun f c => promote_column b f = Ret c) fs cols)); [constructor|].
  intros fs f cols1 cols2 (c & Hc%lift_Ret & [= <-])%bind_Ret IH. apply Forall2_app; [done|]. by repeat constructor.
Qed.

Lemma promote_batch_ok b target b' : batch_ok b -> NoDup (f_name <$> target) -> promote_batch b target = Ret b' ->
  b_schema b' = target /\ batch_ok b' /\ b_num_rows b' = b_num_rows b /\ batch_rows target b' = batch_rows target b.
Proof.
  intros Hok Hnd. unfold promote_batch. case_decide as Hs; [by intros [= <-]|].
  intros (cols & Hcols%promote_columns_spec & Hb)%bind_Ret.
  assert (Forall (fun c => array_len c = b_num_rows b /\ plain_array c) cols) as Hlen.
  { clear -Hok Hcols. induction Hcols as [|f c fs cols Hc _ IH]; constructor; [|done].
    destruct (promote_column_spec b f c Hok Hc) as (? & ? & _). done. }
  destruct cols as [|c cols]; [done|]. apply or_fail_Some in Hb. unfold try_new in Hb.
  destruct (bool_decide _) eqn:Htypes; [|done]. apply bool_decide_eq_true in Htypes. destruct (bool_decide _); [|done].
  injection Hb as <-. simpl. assert (array_len c = b_num_rows b) as Hc by (by apply Forall_cons in Hlen as [[? _] _]).
  split; [done|]. split.
  { split; simpl; [|by rewrite Hc]. eapply Forall2_impl; [exact Htypes|]. by intros f a [? _]. }
  split; [done|]. unfold batch_rows. simpl. rewrite Hc. apply list_fmap_ext. intros _ i _. unfold row.
  apply list_fmap_ext. intros j f Hf. unfold cell at 1. simpl. rewrite (column_index_lookup _ _ _ Hnd Hf). simpl.
  destruct (Forall2_lookup_l _ _ _ _ _ Hcols Hf) as (d & Hd & Hp). rewrite Hd. simpl.
  by destruct (promote_column_spec b f d Hok Hp) as (_ & _ & ->).
Qed.
End Promote.

(** ** The merged extent *)

Lemma of_format_Ret {A} (m : outcome FormatError A) a : of_format m = Ret a <-> m = Ret a.
Proof. destruct m; simpl; split; intros [=]; congruence. Qed.

Section Merge.
  Context `{TryNewText} `{Codec} `{Database} `{ArrowText} `{Chrono}.

Lemma merge_batches_written target bs w merged w' merged' bs0 : Forall batch_ok bs -> NoDup (f_name <$> target) ->
  written target bs0 w -> merge_batches target bs w merged = Ret (w', merged') ->
  exists bs', written target (bs0 ++ bs') w' /\ concat (batch_rows target <$> bs') = concat (batch_rows target <$> bs).
Proof.
  intros Hok Hnd. unfold merge_batches. revert w merged bs0.
  induction Hok as [|b bs Hb Hok IH]; intros w merged bs0 Hw; simpl.
  - intros [= <- <-]. exists []. by rewrite app_nil_r.
  - intros ([w1 m1] & (b' & Hp & (w2 & Ha%of_format_Ret & [= <- <-])%bind_Ret)%bind_Ret & Hrest)%bind_Ret.
    destruct (promote_batch_ok b target b' Hb Hnd Hp) as (Hs & Hb' & _ & Hrows).
    pose proof (append_written target bs0 b' w w2 Hb' Hw Ha) as Hw2.
    destruct (IH _ _ _ Hw2 Hrest) as (bs' & Hw' & Hr). exists (b' :: bs').
    rewrite <-app_assoc in Hw'. split; [done|]. rewrite !fmap_cons. cbn [concat]. by rewrite Hrows, Hr.
Qed.

Context {St} `{ObjectStoreLaws St}.

(** The rows of an extent in the store; an extent that cannot be opened has none. *)
Definition extent_rows (s : Schema) (st : St) (m : ExtentManifest) : list (list (option value)) :=
  match (open_extent s (m_object_path m) (m_byte_size m) st).1 with
  | Ret reader => concat (batch_rows s <$> batches reader)
  | _ => []
  end.

(** The batches that the format reads are well formed. *)
Definition readable (s : Schema) (st : St) (m : ExtentManifest) : Prop :=
  forall reader, (open_extent s (m_object_path m) (m_byte_size m) st).1 = Ret reader -> Forall batch_ok (batches reader).

Lemma open_same_view s m (st st' : St) : os_inv st -> os_inv st' ->
  os_view st' (m_object_path m) = os_view st (m_object_path m) ->
  (open_extent s (m_object_path m) (m_byte_size m) st').1 = (open_extent s (m_object_path m) (m_byte_size m) st).1.
Proof.
  intros Hi Hi' Hv. destruct (open_extent_view s (m_object_path m) (m_byte_size m) st Hi) as (-> & _).
  destruct (open_extent_view s (m_object_path m) (m_byte_size m) st' Hi') as (-> & _). by rewrite Hv.
Qed.

Lemma extent_rows_view s m (st st' : St) : os_inv st -> os_inv st' ->
  os_view st' (m_object_path m) = os_view st (m_object_path m) -> extent_rows s st' m = extent_rows s st m.
Proof. intros Hi Hi' Hv. unfold extent_rows. by rewrite (open_same_view s m st st'). Qed.

Lemma merge_extents_written target ms w merged input_bytes (st : St) w' merged' input' st' bs0 :
  os_inv st -> Forall (readable target st) ms -> NoDup (f_name <$> target) -> written target bs0 w ->
  merge_extents target ms w merged input_bytes st = (Ret (w', merged', input'), st') ->
  os_inv st' /\ (forall p, os_view st' p = os_view st p) /\
  exists bs, written target (bs0 ++ bs) w' /\ concat (batch_rows target <$> bs) = concat (extent_rows target st <$> ms).
Proof.
  intros Hi Hread Hnd. revert w merged input_bytes st bs0 Hi Hread.
  induction ms as [|m ms IH]; intros w merged input_bytes st bs0 Hi Hread Hw; cbn [merge_extents].
  { intros [= <- _ _ <-]. split_and!; [done..|]. exists []. by rewrite app_nil_r. }
  apply Forall_cons in Hread as [Hm Hread].
  destruct (open_extent_view target (m_object_path m) (m_byte_size m) st Hi) as (_ & Hi1 & Hv1).
  destruct (open_extent target (m_object_path m) (m_byte_size m) st) as [opened st1] eqn:Hopen. simpl in Hi1, Hv1.
  destruct (reader ← of_format opened; _) as [[w1 m1]| | |] eqn:Hb; try done.
  apply bind_Ret in Hb as (reader & Hr%of_format_Ret & Hb). subst opened.
  assert (Forall batch_ok (batches reader)) as Hok by (apply Hm; by rewrite Hopen).
  destruct (merge_batches_written _ _ _ _ _ _ _ Hok Hnd Hw Hb) as (bs1 & Hw1 & Hrows1).
  assert (Forall (readable target st1) ms) as Hread1.
  { eapply Forall_impl; [exact Hread|]. intros x Hx reader' Ho. apply Hx. rewrite <-Ho. symmetry. by apply open_same_view. }
  intros Hrest. destruct (IH _ _ _ _ _ Hi1 Hread1 Hw1 Hrest) as (Hi2 & Hv2 & bs2 & Hw2 & Hrows2).
  split_and!; [done|intros p; by rewrite Hv2|]. exists (bs1 ++ bs2). rewrite app_assoc. split; [done|].
  rewrite fmap_app, concat_app, fmap_cons, Hrows1, Hrows2. simpl. f_equal.
  - unfold extent_rows. by rewrite Hopen.
  - f_equal. apply list_fmap_ext. intros _ x _. by apply extent_rows_view.
Qed.

(** The merged extent reads back as the rows of the sources; the others are as before. *)
Lemma merged_extent_rows format uuid extent_id target ms (st : St) w merged input st1 result st' new :
  os_inv st -> Forall (readable target st) ms -> NoDup (f_name <$> target) ->
  merge_extents target ms (start_extent format extent_id target) 0 0 st = (Ret (w, merged, input), st1) ->
  finish_extent uuid w st1 = Ret (result, st') -> (forall bs, written target bs w -> codec_roundtrip target bs (w_block_stats w)) ->
  m_object_path new = wr_object_path result ->
  extent_rows target st' new = concat (extent_rows target st <$> ms) /\
  forall m, m_object_path m <> wr_object_path result -> extent_rows target st' m = extent_rows target st m.
Proof.
  intros Hi Hread Hnd Hmerge Hfin Hcodec Hpath.
  destruct (merge_extents_written _ _ _ _ _ _ _ _ _ _ _ Hi Hread Hnd (start_written format extent_id target) Hmerge)
    as (Hi1 & Hv1 & bs & Hw & Hrows). simpl in Hw.
  pose proof (finish_extent_inv _ _ _ _ _ Hi1 Hfin) as Hi'. split.
  - unfold extent_rows. rewrite Hpath, (open_finished uuid w st1 result st' target bs _ Hw (Hcodec _ Hw) Hi1 Hfin). simpl. done.
  - intros m Hne. apply extent_rows_view; [done..|]. rewrite <-Hv1. by eapply finish_extent_view.
Qed.

(** *** The name of the merged extent *)

Definition same_extent (w w' : TelemetryExtentWriter) : Prop := w_format w' = w_format w /\ w_extent_id w' = w_extent_id w.

Lemma append_same b w w' : append b w = Ret w' -> same_extent w w'.
Proof.
  unfold append. case_decide; [done|]. intros (st1 & _ & (bs1 & _ & Hw)%bind_Ret)%bind_Ret.
  destruct (ipc_accepts b); [|done]. by injection Hw as <-.
Qed.

Lemma merge_batches_same target bs w merged w' merged' : merge_batches target bs w merged = Ret (w', merged') -> same_extent w w'.
Proof.
  unfold merge_batches. apply (for_each_Ret _ (fun _ wm => same_extent w wm.1)); [done|].
  intros pre b [w1 m1] [w2 m2] (b' & _ & (w3 & Ha%of_format_Ret & [= <- _])%bind_Ret)%bind_Ret [H1' H2'].
  apply append_same in Ha as [Hf Hi]. split; simpl in *; congruence.
Qed.

Lemma merge_extents_same target ms w merged input_bytes (st : St) w' merged' input' st' :
  merge_extents target ms w merged input_bytes st = (Ret (w', merged', input'), st') -> same_extent w w'.
Proof.
  revert w merged input_bytes st. induction ms as [|m ms IH]; intros w merged input_bytes st; cbn [merge_extents].
  { by intros [= <- _ _ _]. }
  destruct (open_extent _ _ _ st) as [opened st1]. destruct (reader ← of_format opened; _) as [[w1 m1]| | |] eqn:Hb; try done.
  apply bind_Ret in Hb as (reader & _ & Hb%merge_batches_same). intros [Hf Hi]%IH. destruct Hb. split; congruence.
Qed.

Definition extent_path (format : TelemetryFormat) (uuid : N -> string) (id : N) : string :=
  format_extent_path (path_prefix format) (tenant_segment format) (uuid id).

Lemma finish_extent_named uuid w (st : St) result st' : finish_extent uuid w st = Ret (result, st') ->
  wr_extent_id result = w_extent_id w /\ wr_object_path result = extent_path (w_format w) uuid (w_extent_id w).
Proof.
  intros ([[path payload] res] & Hseal & (st2 & _ & [= <- <-])%bind_Ret)%bind_Ret. unfold seal in Hseal.
  apply bind_Ret in Hseal as (j & _ & Hseal). apply bind_Ret in Hseal as (ipc & _ & Hseal).
  by apply bind_Ret in Hseal as (js & _ & [= <- <- <-]).
Qed.

(** ** The commit exchanges the sources for the merged extent *)

Lemma commit_with_retry_outcome W table new sources rows bytes_in n k db : lawful W -> m_table_id new = table ->
  match commit_with_retry W table new sources rows bytes_in n k db with
  | (Ret _, _, db') => exists db1, others W db db1 /\ db_step [DCommit DEFAULT_TENANT [new] sources] db1 db'
  | (_, _, db') => others W db db'
  end.
Proof.
  intros HW Htab. revert k db. induction n as [|n IH]; intros k db; cbn [commit_with_retry]; [apply rtc_refl|].
  unfold begin_snapshot. set (db1 := wd_env W k db). assert (others W db db1) as Ho1 by apply others_once.
  set (b := match wd_fault W k with Some e => inl e | None => begin_snapshot_in_tenant DEFAULT_TENANT table db1 end).
  assert (forall txn, b = inr txn -> begin_snapshot_in_tenant DEFAULT_TENANT table db1 = inr txn) as Hb.
  { unfold b. by destruct (wd_fault W k). }
  destruct b as [e|txn]; [done|]. destruct (begin_ok _ _ _ _ (Hb txn eq_refl)) as (t & schema & _ & _ & _ & _ & Htxn).
  unfold commit_txn. set (db2 := wd_env W (S k) db1). assert (others W db db2) as Ho2 by (eapply others_trans; [done|apply others_once]).
  assert (match commit_with_retry W table new sources rows bytes_in n (S (S k)) db2 with
          | (Ret _, _, db') => exists db1, others W db db1 /\ db_step [DCommit DEFAULT_TENANT [new] sources] db1 db'
          | (_, _, db') => others W db db'
          end) as Hretry.
  { specialize (IH (S (S k)) db2). destruct (commit_with_retry _ _ _ _ _ _ _ _ _) as [[[]] db']; try (by eapply others_trans).
    destruct IH as (db3 & Ho3 & Hst). exists db3. split; [by eapply others_trans|done]. }
  destruct (wd_fault W (S k)) as [[]|]; try done.
  destruct (commit _ _ _ _ _ db2) as [[e|s] db3] eqn:Hc.
  - pose proof (commit_error _ _ _ _ _ _ _ _ Hc) as ->. by destruct e.
  - exists db2. split; [done|].
    assert (txn_ok (remove_extents sources (add_extent new txn))) as Hok.
    { unfold txn_ok. rewrite Htxn. simpl. by repeat constructor. }
    apply (do_commit _ _ _ _ _ _ _ _ Hok) in Hc; [|apply (lw_snapshot W HW)|apply (lw_manifest W HW)].
    rewrite Htxn in Hc. done.
Qed.

Lemma commit_with_retry_ok W table new sources rows bytes_in n k db k' db' : lawful W -> m_table_id new = table ->
  commit_with_retry W table new sources rows bytes_in n k db = (Ret tt, k', db') ->
  exists db1, others W db db1 /\ db_step [DCommit DEFAULT_TENANT [new] sources] db1 db'.
Proof.
  intros HW Htab Hc. pose proof (commit_with_retry_outcome W table new sources rows bytes_in n k db HW Htab) as Ho. by rewrite Hc in Ho.
Qed.

(** The live extents of a table. *)
Definition table_live (table : Uuid) (db : Db) : list ExtentManifest :=
  snd <$> filter (fun x => x.1 = DEFAULT_TENANT /\ m_table_id x.2 = table) (live db).

(** Those that are sources. *)
Definition still_live (table : Uuid) (ids : list Uuid) (db : Db) : list ExtentManifest :=
  filter (fun m => m_id m ∈ ids) (table_live table db).

Lemma exchange_live table new ids db db' : m_table_id new = table -> m_id new ∉ ids ->
  db_step [DCommit DEFAULT_TENANT [new] ids] db db' ->
  table_live table db' ++ still_live table ids db ≡ₚ table_live table db ++ [new].
Proof.
  intros Htab Hid Hst%db_step_live. simpl in Hst. unfold still_live, table_live. rewrite Hst. clear Hst db'.
  rewrite filter_app, filter_cons_True by (simpl; tauto). rewrite filter_app, fmap_app.
  rewrite (filter_cons_True _ (DEFAULT_TENANT, new) []) by done. simpl.
  induction (live db) as [|[tn m] l IH]; [done|]. rewrite (filter_cons _ (tn, m) l). simpl.
  rewrite (filter_cons (fun x : Uuid * ExtentManifest => x.1 = DEFAULT_TENANT /\ _) (tn, m) l). simpl.
  destruct (decide (tn = DEFAULT_TENANT /\ m_table_id m = table)) as [[-> Ht]|Hn].
  - rewrite fmap_cons, (filter_cons _ m). simpl. destruct (decide (m_id m ∈ ids)) as [Hi|Hi].
    + rewrite (decide_False (P:=~ _)) by tauto. rewrite <-Permutation_middle. simpl. by f_equiv.
    + rewrite (decide_True (P:=~ _)) by tauto. rewrite filter_cons_True by done. rewrite fmap_cons. simpl. by f_equiv.
  - destruct (decide (~ _)); [rewrite filter_cons_False by done|]; exact IH.
Qed.

Definition table_rows (s : Schema) (table : Uuid) (st : St) (db : Db) : list (list (option value)) :=
  concat (extent_rows s st <$> table_live table db).

Lemma concat_Permutation {A} (l k : list (list A)) : l ≡ₚ k -> concat l ≡ₚ concat k.
Proof. induction 1; simpl; [done|by f_equiv|rewrite !app_assoc; f_equiv; apply Permutation_app_comm|by etrans]. Qed.

(** What a merge conserves: afterwards the table has the rows it had at the
    commit, with those of the sources that were still live exchanged for those
    of all sources. *)
Lemma merge_conserves W format uuid extent_id table sources k db (st : St) k' db' st' :
  lawful W -> os_inv st -> Forall (readable (tr_schema table) st) sources -> NoDup (f_name <$> tr_schema table) ->
  (forall bs w, written (tr_schema table) bs w -> codec_roundtrip (tr_schema table) bs (w_block_stats w)) ->
  extent_id ∉ m_id <$> sources ->
  (forall db1 m, others W db db1 -> m ∈ table_live (tr_id table) db1 -> m_object_path m <> extent_path format uuid extent_id) ->
  merge_and_commit W format uuid extent_id table sources k db st = (Ret tt, k', db', st') ->
  exists db1, others W db db1 /\
    table_rows (tr_schema table) (tr_id table) st' db' ++
      concat (extent_rows (tr_schema table) st <$> still_live (tr_id table) (m_id <$> sources) db1) ≡ₚ
    table_rows (tr_schema table) (tr_id table) st db1 ++ concat (extent_rows (tr_schema table) st <$> sources).
Proof.
  intros HW Hi Hread Hnd Hcodec Hid Hpath. unfold merge_and_commit.
  destruct (merge_extents _ _ _ _ _ _) as [[[[w merged] input]| | |] st1] eqn:Hmerge; try done.
  destruct (of_format (finish_extent uuid w st1)) as [[result st2]| | |] eqn:Hfin; try done.
  apply of_format_Ret in Hfin. destruct (finish_extent_named _ _ _ _ _ Hfin) as [Heid Hepath].
  destruct (merge_extents_same _ _ _ _ _ _ _ _ _ _ Hmerge) as [Hf He]. rewrite Hf, He in Hepath. rewrite He in Heid. simpl in Heid, Hepath.
  set (new := new_manifest_from_write _ _ _). destruct (commit_with_retry _ _ _ _ _ _ _ _ _) as [[r k1] db1'] eqn:Hc.
  intros [= -> <- <- <-]. apply commit_with_retry_ok in Hc as (db1 & Ho & Hst); [|done|done]. exists db1. split; [done|].
  destruct (merged_extent_rows format uuid extent_id (tr_schema table) sources st w merged input st1 result st2 new
    Hi Hread Hnd Hmerge Hfin (fun bs => Hcodec bs w) eq_refl) as [Hnew Hold]. rewrite Hepath in Hold.
  assert (forall l : list ExtentManifest, (forall m, m ∈ l -> m ∈ table_live (tr_id table) db1) ->
    extent_rows (tr_schema table) st <$> l = extent_rows (tr_schema table) st2 <$> l) as Hsame.
  { intros l Hl. apply list_fmap_ext. intros j m Hm%list_elem_of_lookup_2. symmetry. apply Hold, (Hpath db1); auto. }
  unfold table_rows. rewrite (Hsame (still_live _ _ _)) by (intros m [_ Hm]%list_elem_of_filter; done).
  rewrite (Hsame (table_live _ db1)), <-Hnew by done.
  assert (concat (fmap (M:=list) (extent_rows (tr_schema table) st2) [new]) = extent_rows (tr_schema table) st2 new) as <- by apply app_nil_r.
  rewrite <-!concat_app, <-!fmap_app. apply concat_Permutation, fmap_Permutation, exchange_live; [done| |exact Hst].
  simpl. by rewrite Heid.
Qed.
End Merge.
