(* ===== verification/Retention.v ===== *)
(** * Retention and physical deletion

    [pensieve-compaction/src/retention.rs]: the sweeper soft-deletes the extents
    of a table that are older than its retention, one snapshot per table; a day
    later the collector deletes their objects and index sidecars, then their
    rows. *)

From stdpp Require Import base gmap strings list relations sorting.
From Stdlib Require Import NArith ZArith Lia.
From S2P Require Import Prelude Bytes Arrow Pushdown CatalogPrune TlmExtent SqlTable CatalogSchema SnapshotDb CatalogOps.
From S2P Require Import SnapshotSpec CommitCoordinator.

Local Open Scope Z_scope.

Section Retention.
  Context `{Database} `{ArrowText}.

(** ** The sweeper *)

Definition days (n : Z) : Z := n * 86400 * 10 ^ 9.

(** The live extents past the retention of their table, with their table;
    [retention_days] reads the configuration of a table. *)
Definition expired (retention_days : Uuid -> option Z) (now : Z) (db : Db) (e : StoredExtent) : bool :=
  bool_decide (ex_deleted_at e = None) &&
  existsb (fun t => bool_decide (tb_id t = m_table_id (ex_extent e))) (tables db) &&
  match retention_days (m_table_id (ex_extent e)), max_timestamp (ex_extent e) with
  | Some n, Some ts => bool_decide (ts < now - days n)
  | _, _ => false
  end.

(** Each table is retried on conflicts while [attempts < 5]; another error ends
    the pass. *)
Fixpoint sweep_table (W : World) (table : Uuid) (ids : list Uuid) (n k : nat) (db : Db) : (CatalogError + unit) * nat * Db :=
  match begin_snapshot W k table db with
  | (inl e, db) => (inl e, S k, db)
  | (inr txn, db) =>
      let summary := {| rows_added := 0; rows_removed := 0; bytes_added := 0; bytes_removed := 0; operation := "retention" |} in
      match commit_txn W (S k) (remove_extents ids txn) summary db with
      | (inr _, db) => (inr tt, S (S k), db)
      | (inl Conflict, db) =>
          match n with
          | S n => sweep_table W table ids n (S (S k)) db
          | O => (inl Conflict, S (S k), db)
          end
      | (inl e, db) => (inl e, S (S k), db)
      end
  end.

Fixpoint sweep_tables (W : World) (groups : list (Uuid * list Uuid)) (k : nat) (db : Db) : (CatalogError + unit) * nat * Db :=
  match groups with
  | [] => (inr tt, k, db)
  | (table, ids) :: groups =>
      match sweep_table W table ids 4 k db with
      | (inr _, k, db) => sweep_tables W groups k db
      | (inl e, k, db) => (inl e, k, db)
      end
  end.

(** The tables come in the order of a hash map. *)
Definition retention_tick (W : World) (retention_days : Uuid -> option Z)
    (order : list (Uuid * list StoredExtent) -> list (Uuid * list StoredExtent)) (k : nat) (db : Db) : (CatalogError + unit) * nat * Db :=
  let db := wd_env W k db in
  match wd_fault W k with
  | Some e => (inl e, S k, db)
  | None =>
      let rows := filter (fun e => expired retention_days (wd_clock W k) db e = true) (extents db) in
      let by_table := group_by (fun e => m_table_id (ex_extent e)) rows in
      sweep_tables W ((fun g : Uuid * list StoredExtent => (g.1, ex_id <$> g.2)) <$> order by_table) (S k) db
  end.

(** ** The collector *)

(** A store that deletes: an object is gone, or the deletion failed. *)
Class DeletingStore (St : Type) := { os_delete : string -> St -> bool * St }.
Class DeletingStoreLaws (St : Type) `{ObjectStoreLaws St} `{!DeletingStore St} := {
  os_delete_view path (st : St) : os_inv st ->
    os_inv (os_delete path st).2 /\ forall p, p <> path -> os_view (os_delete path st).2 p = os_view st p }.

Context {St} `{DeletingStoreLaws St}.

Definition GRACE : Z := 24 * 3600 * 10 ^ 9.

(** Failed deletions are counted and passed over. *)
Definition delete_object (acc : nat * nat * St) (path : string) : nat * nat * St :=
  let '(deleted, failed, st) := acc in
  let '(ok, st) := os_delete path st in
  if ok then (S deleted, failed, st) else (deleted, S failed, st).
Definition delete_objects (paths : list string) (st : St) : nat * nat * St := foldl delete_object (0%nat, 0%nat, st) paths.

(** Four calls: the candidates, the paths of their objects and of their
    sidecars, the deletion of the rows. *)
Definition collector_tick (W : World) (k : nat) (db : Db) (st : St) : (CatalogError + unit) * Db * St :=
  let cutoff := wd_clock W k - GRACE in
  let db := wd_env W k db in
  match wd_fault W k with
  | Some e => (inl e, db, st)
  | None =>
      match gc_candidates cutoff db with
      | [] => (inr tt, db, st)
      | ids =>
          let db := wd_env W (S k) db in
          match wd_fault W (S k) with
          | Some e => (inl e, db, st)
          | None =>
              let paths := (fun e => m_object_path (ex_extent e)) <$> filter (fun e => ex_id e ∈ ids) (extents db) in
              let db := wd_env W (S (S k)) db in
              match wd_fault W (S (S k)) with
              | Some e => (inl e, db, st)
              | None =>
                  let sidecar_paths := sc_path <$> filter (fun s => sc_extent s ∈ ids) (sidecars db) in
                  let '(_, _, st) := delete_objects (paths ++ sidecar_paths) st in
                  let db := wd_env W (S (S (S k))) db in
                  match wd_fault W (S (S (S k))) with
                  | Some e => (inl e, db, st)
                  | None => (inr tt, delete_extent_rows ids db, st)
                  end
              end
          end
      end
  end.

(** ** Dead extents *)

(** Whoever acts, an extent that is soft-deleted is not live later: extents
    keep their identifiers for themselves. *)
Definition no_reuse (W : World) : Prop := forall k db e e', db_wf db ->
  e ∈ extents db -> ex_deleted_at e <> None -> e' ∈ extents (wd_env W k db) -> ex_id e' = ex_id e -> ex_deleted_at e' <> None.

Definition dead_ids (ids : list Uuid) (db : Db) : Prop := forall e, e ∈ extents db -> ex_id e ∈ ids -> ex_deleted_at e <> None.

(** A single step revives nothing: the primary key protects the row. *)
Lemma db_step_dead ds db db' e e' : db_wf db -> db_step ds db db' -> e ∈ extents db -> ex_deleted_at e <> None ->
  e' ∈ extents db' -> ex_id e' = ex_id e -> ex_deleted_at e' <> None.
Proof.
  intros Hw Hst He Hd He' Hid.
  assert (e' ∈ extents db -> ex_deleted_at e' <> None) as Hold.
  { intros Hin. by rewrite (same_key ex_id _ _ _ (wf_extent_ids db Hw) Hin He Hid). }
  assert (forall tenant table parent schema snap man es removed now,
    committed tenant table parent schema snap man es removed now db db' -> ex_deleted_at e' <> None) as Hcommit.
  { intros tenant table parent schema snap man es removed now [_ _ _ (rows & Hins & Hex)].
    destruct (insert_extents_ok _ _ _ _ _ Hins) as [Hrows Hnd]. specialize (Hnd (wf_extent_ids db Hw)).
    rewrite Hex in He'. apply elem_of_update_rows in He' as (x & Hx & Hxe).
    assert (x = e) as ->; [|rewrite Hxe; by case_match].
    apply (same_key ex_id _ _ _ Hnd Hx); [rewrite Hrows; set_solver|]. rewrite <-Hid, Hxe. by case_match. }
  destruct Hst as [id tenant name db|id schema_snap snap tenant database name schema db|tenant database name db
    |id table name type_ db|txn summary snap manifest now db db' r Hok Hsnap Hman Hc
    |tenant table ids ms snap manifest db db' r Hok Hsnap Hman Hc|id tenant batch now m db|ids db Hdel|tenant database table before db].
  - revert He'. unfold create_database_in_tenant. by destruct (existsb _ _).
  - revert He'. unfold create_table_in_tenant. destruct (find_row _ _); [|done]. destruct (negb _); [done|]. by destruct (existsb _ _).
  - revert He'. unfold drop_table_in_tenant. destruct (find_row _ _); [|done]. simpl. intros [_ ?]%elem_of_delete_where. auto.
  - revert He'. unfold alter_table_add_column. destruct (string_to_arrow_type type_); [done|].
    destruct (t ← _; _) as [[[t cur] s]|]; [|done]. destruct (add_column _ _ _); [done|]. by case_decide.
  - destruct r as [err|s]; [by rewrite (commit_error _ _ _ _ _ _ _ _ Hc) in He'; auto|].
    apply commit_ok in Hc as [_ Hc]. by eapply Hcommit.
  - destruct r as [err|[s|]].
    + rewrite (commit_staged_error _ _ _ _ _ _ _ _ _ Hc) in He'; auto.
    + apply commit_staged_ok in Hc as (_ & parent & schema & Hc). by eapply Hcommit.
    + rewrite (commit_staged_error _ _ _ _ _ _ _ _ _ Hc) in He'; auto.
  - revert He'. unfold stage_extent. by destruct (existsb _ _).
  - revert He'. unfold delete_extent_rows. destruct ids; [done|]. simpl. intros [_ ?]%elem_of_delete_where. auto.
  - revert He'. unfold cleanup_soft_deleted_extents_in_tenant. destruct (find_row _ _); [|done]. simpl.
    intros [_ ?]%elem_of_delete_where. auto.
Qed.

(** Others that act one step at a time do not reuse identifiers. *)
Lemma step_no_reuse W : (forall k db, wd_env W k db = db \/ exists ds, db_step ds db (wd_env W k db)) -> no_reuse W.
Proof.
  intros Hs k db e e' Hw He Hd He' Hid. destruct (Hs k db) as [Heq|[ds Hst]]; [|by eapply db_step_dead].
  rewrite Heq in He'. by rewrite (same_key ex_id _ _ _ (wf_extent_ids db Hw) He' He Hid).
Qed.

(** ** Only dead extents lose their objects *)

Lemma delete_objects_view paths (st : St) : os_inv st ->
  os_inv (delete_objects paths st).2 /\ forall p, p ∉ paths -> os_view (delete_objects paths st).2 p = os_view st p.
Proof.
  intros Hi. unfold delete_objects.
  apply (foldl_inv delete_object (fun done acc => os_inv acc.2 /\ forall p, p ∉ done -> os_view acc.2 p = os_view st p)); [done|].
  intros pre path [[deleted failed] st1] _ [Hi1 Hv1]. cbn [snd] in *. destruct (os_delete_view path st1 Hi1) as [Hi2 Hv2].
  assert (os_inv (delete_object (deleted, failed, st1) path).2 /\
    (delete_object (deleted, failed, st1) path).2 = (os_delete path st1).2) as [Hi3 ->].
  { unfold delete_object. destruct (os_delete path st1) as [[] st2]; done. }
  split; [done|]. intros p [Hp Hne%not_elem_of_cons]%not_elem_of_app. rewrite Hv2 by tauto. by apply Hv1.
Qed.

Lemma candidates_dead cutoff db e : db_wf db -> e ∈ extents db -> ex_id e ∈ gc_candidates cutoff db ->
  exists d, ex_deleted_at e = Some d /\ d < cutoff.
Proof.
  intros Hw He Hid. unfold gc_candidates in Hid. apply list_elem_of_fmap in Hid as (e0 & Heq & [Hd He0]%elem_of_where).
  rewrite (same_key ex_id _ _ _ (wf_extent_ids db Hw) He He0 Heq). unfold doomed in Hd.
  destruct (ex_deleted_at e0) as [d|]; [|done]. exists d. by apply bool_decide_eq_true in Hd.
Qed.

Lemma dead_ids_env W k (ids : list Uuid) db : no_reuse W -> db_wf db ->
  (forall i, i ∈ ids -> exists e, e ∈ extents db /\ ex_id e = i /\ ex_deleted_at e <> None) -> dead_ids ids (wd_env W k db).
Proof. intros Hr Hw Hids e He Hid. destruct (Hids _ Hid) as (e0 & He0 & Heq & Hd). eapply Hr; eauto. Qed.

(** The rows of the candidates are in the table until the collector deletes
    them: no other collector runs. *)
Definition keeps_rows (W : World) : Prop := forall k db e, e ∈ extents db -> exists e', e' ∈ extents (wd_env W k db) /\ ex_id e' = ex_id e.

Lemma dead_rows_env W k (ids : list Uuid) db : no_reuse W -> keeps_rows W -> db_wf db ->
  (forall i, i ∈ ids -> exists e, e ∈ extents db /\ ex_id e = i /\ ex_deleted_at e <> None) ->
  forall i, i ∈ ids -> exists e, e ∈ extents (wd_env W k db) /\ ex_id e = i /\ ex_deleted_at e <> None.
Proof.
  intros Hr Hk Hw Hids i Hi. destruct (Hids i Hi) as (e & He & Heq & Hd). destruct (Hk k db e He) as (e' & He' & Hid').
  exists e'. split_and!; [done|congruence|]. by apply (Hr k db e e').
Qed.

(** Whatever the collector does, an object that is neither of a soft-deleted
    extent nor of a sidecar of one is untouched, and no live row is deleted. *)
Lemma collector_spares W k db (st : St) r db' st' : lawful W -> no_reuse W -> keeps_rows W -> db_wf db -> os_inv st ->
  collector_tick W k db st = (r, db', st') ->
  (forall e, e ∈ extents (wd_env W (S (S (S k))) (wd_env W (S (S k)) (wd_env W (S k) (wd_env W k db)))) ->
     ex_deleted_at e = None -> r = inr tt -> gc_candidates (wd_clock W k - GRACE) (wd_env W k db) <> [] -> e ∈ extents db') /\
  forall p,
    (forall e, e ∈ extents (wd_env W (S k) (wd_env W k db)) -> m_object_path (ex_extent e) = p -> ex_deleted_at e = None) ->
    (forall s, s ∈ sidecars (wd_env W (S (S k)) (wd_env W (S k) (wd_env W k db))) -> sc_path s <> p) ->
    os_view st' p = os_view st p.
Proof.
  intros HW Hr Hk Hw Hi. unfold collector_tick.
  assert (forall k db, db_wf db -> db_wf (wd_env W k db)) as Hwe.
  { intros k0 db0 Hw0. destruct (lw_env W HW k0 db0) as [ds Hrun]. exact (db_run_wf _ _ _ Hrun Hw0). }
  set (db1 := wd_env W k db) in *. set (db2 := wd_env W (S k) db1). set (db3 := wd_env W (S (S k)) db2).
  pose proof (Hwe k db Hw : db_wf db1) as Hw1. pose proof (Hwe (S k) db1 Hw1 : db_wf db2) as Hw2. pose proof (Hwe _ db2 Hw2 : db_wf db3) as Hw3. set (db4 := wd_env W (S (S (S k))) db3).
  destruct (wd_fault W k); [by intros [= <- <- <-]|].
  destruct (gc_candidates (wd_clock W k - GRACE) db1) as [|i ids] eqn:Hids; [by intros [= <- <- <-]|].
  destruct (wd_fault W (S k)); [by intros [= <- <- <-]|]. destruct (wd_fault W (S (S k))); [by intros [= <- <- <-]|].
  rewrite <-Hids. set (all := gc_candidates (wd_clock W k - GRACE) db1) in *.
  assert (forall i, i ∈ all -> exists e, e ∈ extents db1 /\ ex_id e = i /\ ex_deleted_at e <> None) as Hd1.
  { intros j Hj. pose proof Hj as Hj'. apply list_elem_of_fmap in Hj as (e & -> & [_ He]%elem_of_where). exists e. split_and!; [done..|].
    destruct (candidates_dead _ _ _ Hw1 He Hj') as (d & -> & _). done. }
  pose proof (dead_rows_env W (S k) all db1 Hr Hk Hw1 Hd1) as Hd2. pose proof (dead_rows_env W (S (S k)) all db2 Hr Hk Hw2 Hd2) as Hd3.
  pose proof (dead_ids_env W (S k) all db1 Hr Hw1 Hd1) as Hdead2. pose proof (dead_ids_env W (S (S (S k))) all db3 Hr Hw3 Hd3) as Hdead4.
  set (paths := _ ++ _). destruct (delete_objects_view paths st Hi) as [_ Hv].
  destruct (delete_objects paths st) as [[nd nf] st1] eqn:Hdel. simpl in Hv.
  assert (forall p, (forall e, e ∈ extents db2 -> m_object_path (ex_extent e) = p -> ex_deleted_at e = None) ->
    (forall s, s ∈ sidecars db3 -> sc_path s <> p) -> os_view st1 p = os_view st p) as Hview.
  { intros p Hlive Hside. apply Hv. unfold paths. intros [Hp|Hp]%elem_of_app.
    - apply list_elem_of_fmap in Hp as (e & -> & [Hid He]%list_elem_of_filter). by apply (Hdead2 e He Hid), Hlive.
    - apply list_elem_of_fmap in Hp as (s & -> & [_ Hs]%list_elem_of_filter). by apply (Hside s Hs). }
  destruct (wd_fault W (S (S (S k)))); intros [= <- <- <-]; (split; [|done]); [done|].
  intros e He Hl _ _. rewrite Hids. unfold delete_extent_rows. simpl. apply elem_of_delete_where. split; [|done].
  rewrite <-Hids. apply bool_decide_eq_false. intros Hid. by apply (Hdead4 e He Hid).
Qed.
End Retention.
