(* ===== verification/IngestPath.v ===== *)
(** * The write path

    [pensieve-ingest-core/src/lib.rs]: a request's batches become one extent,
    its manifest is committed into a new snapshot (or staged, or handed to the
    staging buffer), and the answer is remembered in the ledger under the
    request's idempotency key.  The ledger is that of
    [pensieve-catalog-sqlite/src/lib.rs].

    The write path is a state and error monad over everything it touches; the
    rest of the system acts before each call to the catalog. *)

From stdpp Require Import base gmap strings list relations.
From Stdlib Require Import NArith ZArith Lia.
From S2P Require Import Prelude Bytes Arrow BlockStats ColumnStats Pushdown CatalogPrune TlmExtent SqlTable CatalogSchema.
From S2P Require Import SnapshotDb CatalogOps SnapshotSpec CommitCoordinator Compaction CompactionSpec.

Local Open Scope Z_scope.
Local Open Scope string_scope.
Local Open Scope list_scope.

(** ** The ledger *)

Record IngestLedgerEntry := {
  le_table_id : Uuid; le_snapshot_id : Uuid; le_rows_ingested : N; le_bytes_written : N; le_applied_at : Z }.

(** A row; the counters are stored as [i64]. *)
Record LedgerRow := {
  lr_tenant : Uuid; lr_key : string; lr_table_id : Uuid; lr_snapshot_id : Uuid;
  lr_rows_ingested : Z; lr_bytes_written : Z; lr_applied_at : Z; lr_expires_at : option Z }.
Abbreviation Ledger := (list LedgerRow).

(** [x as u64] of an [i64] *)
Definition cast_u64 (z : Z) : N := Z.to_N (z mod 2 ^ 64).

Definition row_to_ledger (r : LedgerRow) : IngestLedgerEntry :=
  {| le_table_id := lr_table_id r; le_snapshot_id := lr_snapshot_id r; le_rows_ingested := cast_u64 (lr_rows_ingested r);
     le_bytes_written := cast_u64 (lr_bytes_written r); le_applied_at := lr_applied_at r |}.

Definition same_key (tenant : Uuid) (key : string) (r : LedgerRow) : bool :=
  bool_decide (lr_tenant r = tenant) && bool_decide (lr_key r = key).
Definition unexpired (now : Z) (r : LedgerRow) : bool :=
  match lr_expires_at r with None => true | Some t => bool_decide (now < t) end.

Definition lookup_idempotency_in_tenant (tenant : Uuid) (key : string) (now : Z) (l : Ledger) : option IngestLedgerEntry :=
  row_to_ledger <$> find_row (fun r => same_key tenant key r && unexpired now r) l.

(** [ON CONFLICT (tenant_id, key) DO NOTHING] *)
Definition record_idempotency_in_tenant (tenant : Uuid) (key : string) (entry : IngestLedgerEntry) (ttl : Z) (l : Ledger) :
    option IngestLedgerEntry * Ledger :=
  if existsb (same_key tenant key) l then (None, l)
  else
    (Some entry, l ++ [
       {| lr_tenant := tenant; lr_key := key; lr_table_id := le_table_id entry; lr_snapshot_id := le_snapshot_id entry;
          lr_rows_ingested := cast_i64 (le_rows_ingested entry); lr_bytes_written := cast_i64 (le_bytes_written entry);
          lr_applied_at := le_applied_at entry; lr_expires_at := Some (le_applied_at entry + ttl) |}]).

(** The hourly cleanup, on Postgres: an hour after their expiry rows are deleted. *)
Definition cleanup_ledger (now : Z) (l : Ledger) : Ledger :=
  delete_where (fun r => match lr_expires_at r with None => false | Some t => bool_decide (t < now - 3600 * 10 ^ 9) end) l.

(** [chrono::Duration::hours(24)], in nanoseconds *)
Definition hours_24 : Z := 24 * 3600 * 10 ^ 9.

(** ** The monad *)

Inductive IngestError := Config (m : string) | CatalogErr (e : CatalogError) | FormatErr (e : FormatError) | InternalErr (m : string).

Record RowsAppended := { ra_database : string; ra_table : string; ra_rows : N }.

(** Everything a request reads or changes: the calls made so far, the database,
    the ledger, the object store and the events published. *)
Record Node (St : Type) := {
  calls : nat; node_db : Db; node_ledger : Ledger; node_store : St; published : list RowsAppended }.
Arguments calls {St}.
Arguments node_db {St}.
Arguments node_ledger {St}.
Arguments node_store {St}.
Arguments published {St}.

Definition M (St A : Type) : Type := Node St -> outcome IngestError A * Node St.
#[export] Instance M_ret St : MRet (M St) := fun A a n => (Ret a, n).
#[export] Instance M_bind St : MBind (M St) := fun A B f m n =>
  match m n with
  | (Ret a, n) => f a n
  | (Fail e, n) => (Fail e, n)
  | (Panic, n) => (Panic, n)
  | (OutOfFuel, n) => (OutOfFuel, n)
  end.
Definition fail {St A} (e : IngestError) : M St A := fun n => (Fail e, n).

(** The world of a request: what the others do, to the ledger too, which
    calls fail, and the identifiers it draws. *)
Record IngestWorld := {
  iw_catalog : World;
  iw_ledger : nat -> Ledger -> Ledger;
  iw_ledger_fault : nat -> option CatalogError;
  iw_extent_id : nat -> N;
  iw_batch_id : nat -> Uuid;
  iw_row_id : nat -> Uuid }.

Section Monad.
  Context {St : Type} (W : IngestWorld).

(** A call of the catalog; [f] says what is done to the database. *)
Definition db_call {A} (f : nat -> Db -> A * Db) : M St A := fun n =>
  let '(r, db) := f (calls n) (node_db n) in
  (Ret r, {| calls := S (calls n); node_db := db; node_ledger := iw_ledger W (calls n) (node_ledger n);
             node_store := node_store n; published := published n |}).

(** A call that concerns the ledger only. *)
Definition ledger_call {A} (f : nat -> Ledger -> A * Ledger) : M St (CatalogError + A) := fun n =>
  let l := iw_ledger W (calls n) (node_ledger n) in
  let '(r, l) := match iw_ledger_fault W (calls n) with
                 | Some e => (inl e, l)
                 | None => let '(a, l) := f (calls n) l in (inr a, l)
                 end in
  (Ret r, {| calls := S (calls n); node_db := wd_env (iw_catalog W) (calls n) (node_db n); node_ledger := l;
             node_store := node_store n; published := published n |}).

(** [?] on a result of the catalog. *)
Definition try_catalog {A} (r : CatalogError + A) : M St A :=
  match r with inl e => fail (CatalogErr e) | inr a => mret a end.

(** The format writes to the store. *)
Definition on_store {A} (f : St -> outcome FormatError (A * St)) : M St A := fun n =>
  match f (node_store n) with
  | Ret (a, st) => (Ret a, {| calls := calls n; node_db := node_db n; node_ledger := node_ledger n; node_store := st;
                              published := published n |})
  | Fail e => (Fail (FormatErr e), n)
  | Panic => (Panic, n)
  | OutOfFuel => (OutOfFuel, n)
  end.

Definition clock : M St Z := fun n => (Ret (wd_clock (iw_catalog W) (calls n)), n).
Definition draw (f : nat -> N) : M St N := fun n => (Ret (f (calls n)), n).
Definition publish (e : RowsAppended) : M St unit := fun n =>
  (Ret tt, {| calls := calls n; node_db := node_db n; node_ledger := node_ledger n; node_store := node_store n;
              published := published n ++ [e] |}).
End Monad.

(** ** The write path *)

Record FlushOutcome := { fo_snapshot_id : Uuid; fo_extent_id : N; fo_byte_size : N; fo_row_count : N }.
Record IngestAck := { snapshot_id : Uuid; extent_count : nat; rows_ingested : N; bytes_written : N; replayed : bool }.

(** [staging] is the [submit] of a staging buffer. *)
Record WritePath (St : Type) := {
  wp_format : TelemetryFormat;
  wp_staging : option (TableRef -> list RecordBatch -> M St FlushOutcome);
  wp_events : bool;
  wp_staged : bool }.
Arguments wp_format {St}.
Arguments wp_staging {St}.
Arguments wp_events {St}.
Arguments wp_staged {St}.

Definition MAX_ATTEMPTS_INGEST : nat := 20.

(** [Uuid::parse_str] and the text of an identifier. *)
Class UuidParse := { parse_uuid : string -> option Uuid; hyphenated : N -> string }.
Class UuidLaws `{UuidParse} := { hyphenated_inj : Inj (=) (=) hyphenated }.

Section WritePath.
  Context `{Codec} `{Database} `{ArrowText} `{Chrono} `{UuidParse} {St} `{ObjectStore St} (W : IngestWorld).

Definition ingest_summary (manifest : ExtentManifest) : SnapshotSummary :=
  {| rows_added := cast_i64 (m_row_count manifest); rows_removed := 0; bytes_added := cast_i64 (m_byte_size manifest);
     bytes_removed := 0; operation := "ingest" |}.

(** [n] attempts are left. *)
Fixpoint commit_with_retry (table_id : Uuid) (manifest : ExtentManifest) (n : nat) : M St Uuid :=
  match n with
  | O => fail (CatalogErr Conflict)
  | S n =>
      begun ← db_call W (fun k => begin_snapshot (iw_catalog W) k table_id);
      txn ← try_catalog begun;
      r ← db_call W (fun k => commit_txn (iw_catalog W) k (add_extent manifest txn) (ingest_summary manifest));
      match r with
      | inr id => mret id
      | inl Conflict => commit_with_retry table_id manifest n
      | inl e => fail (CatalogErr e)
      end
  end.

(** One extent with all the batches.  The format does not use the target size. *)
Definition write_batches (format : TelemetryFormat) (id : N) (schema : Schema) (batches : list RecordBatch) (st : St) :
    outcome FormatError (ExtentWriteResult * St) :=
  w ← for_each append batches (start_extent format id schema); finish_extent hyphenated w st.

(** The extent of a request, written to the store. *)
Definition write_extent (format : TelemetryFormat) (table : TableRef) (batches : list RecordBatch) : M St ExtentWriteResult :=
  id ← draw (iw_extent_id W);
  on_store (write_batches format id (tr_schema table) batches).

(** After the commit, under the key of the request. *)
Definition record_key (key : option string) (table : TableRef) (snapshot : Uuid) (rows bytes : N) : M St unit :=
  match key with
  | None => mret tt
  | Some key =>
      now ← clock W;
      let entry := {| le_table_id := tr_id table; le_snapshot_id := snapshot; le_rows_ingested := rows;
                      le_bytes_written := bytes; le_applied_at := now |} in
      r ← ledger_call W (fun _ => record_idempotency_in_tenant DEFAULT_TENANT key entry hours_24);
      _ ← try_catalog r; mret tt
  end.

(** Not acknowledged from the ledger. *)
Definition fresh_ack (snapshot : Uuid) (extents : nat) (rows bytes : N) : IngestAck :=
  {| snapshot_id := snapshot; extent_count := extents; rows_ingested := rows; bytes_written := bytes; replayed := false |}.

(** The request's own extent, committed or staged. *)
Definition ingest_extent (p : WritePath St) (table : TableRef) (batches : list RecordBatch) (key : option string) : M St IngestAck :=
  result ← write_extent (wp_format p) table batches;
  let manifest := table_result_to_manifest (tr_id table) (tr_schema_snapshot table) result in
  snapshot ← (if wp_staged p then
                fresh ← draw (iw_batch_id W);
                row_id ← draw (iw_row_id W);
                let batch_id := default fresh (key ≫= parse_uuid) in
                staged ← db_call W (fun k db =>
                  let db := wd_env (iw_catalog W) k db in
                  match wd_fault (iw_catalog W) k with
                  | Some e => (inl e, db)
                  | None => let '(b, db) := stage_extent row_id DEFAULT_TENANT batch_id (wd_clock (iw_catalog W) k) manifest db in
                            (inr b, db)
                  end);
                _ ← try_catalog staged; mret (tr_current_snapshot table)
              else commit_with_retry (tr_id table) manifest MAX_ATTEMPTS_INGEST);
  let rows := row_total batches in
  _ ← record_key key table snapshot rows (wr_byte_size result);
  mret (fresh_ack snapshot 1 rows (wr_byte_size result)).

(** Through the staging buffer; the flush may hold the rows of others. *)
Definition ingest_staging (submit : TableRef -> list RecordBatch -> M St FlushOutcome) (table : TableRef)
    (batches : list RecordBatch) (key : option string) : M St IngestAck :=
  o ← submit table batches;
  let rows := N.min (fo_row_count o) (row_total batches) in
  _ ← record_key key table (fo_snapshot_id o) rows (fo_byte_size o);
  mret (fresh_ack (fo_snapshot_id o) 1 rows (fo_byte_size o)).

Definition lookup_key (key : option string) : M St (option IngestLedgerEntry) :=
  match key with
  | None => mret None
  | Some key =>
      r ← ledger_call W (fun k l => (lookup_idempotency_in_tenant DEFAULT_TENANT key (wd_clock (iw_catalog W) k) l, l));
      try_catalog r
  end.

Definition replay_ack (e : IngestLedgerEntry) : IngestAck :=
  {| snapshot_id := le_snapshot_id e; extent_count := 0; rows_ingested := le_rows_ingested e;
     bytes_written := le_bytes_written e; replayed := true |}.

Definition publish_rows (p : WritePath St) (database : string) (table : TableRef) (ack : IngestAck) : M St unit :=
  if wp_events p && bool_decide (0 < rows_ingested ack)%N && negb (replayed ack)
  then publish {| ra_database := database; ra_table := tr_name table; ra_rows := rows_ingested ack |}
  else mret tt.

(** [federated] is the table's configuration. *)
Definition ingest_with_idempotency (p : WritePath St) (database : string) (table : TableRef) (federated : bool)
    (batches : list RecordBatch) (key : option string) : M St IngestAck :=
  if federated
  then fail (Config ("table `" +:+ database +:+ "." +:+ tr_name table +:+
                     "` is federated (live-proxied); it does not accept ingest"))
  else
    cached ← lookup_key key;
    match cached with
    | Some e => mret (replay_ack e)
    | None =>
        match batches with
        | [] => mret (fresh_ack (tr_current_snapshot table) 0 0 0)
        | _ =>
            ack ← match wp_staging p with
                  | Some submit => ingest_staging submit table batches key
                  | None => ingest_extent p table batches key
                  end;
            _ ← publish_rows p database table ack;
            mret ack
        end
    end.

Definition ingest (p : WritePath St) (database : string) (table : TableRef) (federated : bool) (batches : list RecordBatch) : M St IngestAck :=
  ingest_with_idempotency p database table federated batches None.
End WritePath.

(** * What a request does

    [wp m Q n]: the computation [m] run in [n] ends as [Q] says. *)

Definition wp {St A} (m : M St A) (Q : outcome IngestError A -> Node St -> Prop) (n : Node St) : Prop := Q (m n).1 (m n).2.

Lemma run_bind {St A B} (m : M St A) (f : A -> M St B) Q n :
  wp m (fun r n => match r with
                   | Ret a => wp (f a) Q n
                   | Fail e => Q (Fail e) n
                   | Panic => Q Panic n
                   | OutOfFuel => Q OutOfFuel n
                   end) n -> wp (m ≫= f) Q n.
Proof. unfold wp, mbind, M_bind. by destruct (m n) as [[] n']. Qed.

Lemma run_mono {St A} (m : M St A) (Q Q' : outcome IngestError A -> Node St -> Prop) n :
  wp m Q n -> (forall r n, Q r n -> Q' r n) -> wp m Q' n.
Proof. unfold wp. auto. Qed.

Lemma run_ret {St A} (a : A) Q (n : Node St) : Q (Ret a) n -> wp (mret a) Q n.
Proof. done. Qed.

Section Spec.
  Context `{Codec} `{Database} `{ArrowText} `{Chrono} `{UuidParse} {St} `{ObjectStoreLaws St} (W : IngestWorld).

(** The rows of a key, and that the others do not use it. *)
Definition key_rows (key : string) (l : Ledger) : Ledger := filter (fun r => same_key DEFAULT_TENANT key r = true) l.
Definition leaves (key : string) : Prop := forall k l, key_rows key (iw_ledger W k l) = key_rows key l.

(** The request has published nothing and left the rows of every key alone. *)
Record quiet_rest (n n' : Node St) : Prop := {
  qr_published : published n' = published n;
  qr_ledger key : leaves key -> key_rows key (node_ledger n') = key_rows key (node_ledger n) }.

Lemma quiet_refl n : quiet_rest n n.
Proof. by split. Qed.
Lemma quiet_trans n1 n2 n3 : quiet_rest n1 n2 -> quiet_rest n2 n3 -> quiet_rest n1 n3.
Proof. intros [Hp Hl] [Hp' Hl']. split; [congruence|]. intros key Hk. by rewrite Hl', Hl. Qed.

(** Only the others have acted, and the store is as it was. *)
Record aside (n n' : Node St) : Prop := {
  as_db : others (iw_catalog W) (node_db n) (node_db n');
  as_store : node_store n' = node_store n;
  as_rest : quiet_rest n n' }.

Lemma aside_refl n : aside n n.
Proof. split; [apply rtc_refl|done|apply quiet_refl]. Qed.
Lemma aside_trans n1 n2 n3 : aside n1 n2 -> aside n2 n3 -> aside n1 n3.
Proof.
  intros [] []. split; [by eapply others_trans|congruence|by eapply quiet_trans].
Qed.

(** ** The commit *)

Definition commits (n : Node St) (table s : Uuid) (m : ExtentManifest) (n' : Node St) : Prop :=
  node_store n' = node_store n /\ quiet_rest n n' /\
  exists db, others (iw_catalog W) (node_db n) db /\ db_step [DCommit DEFAULT_TENANT [m] []] db (node_db n') /\
    group_committed s table [m] (node_db n').

Lemma aside_commits n n1 table s m n' : aside n n1 -> commits n1 table s m n' -> commits n table s m n'.
Proof.
  intros [Ho Hs Hr] (Hs' & Hr' & db & Ho' & Hst). split; [congruence|]. split; [by eapply quiet_trans|].
  exists db. split; [by eapply others_trans|done].
Qed.

(** A call of the catalog by which only the others act on the database. *)
Lemma wp_db_call {A} (f : nat -> Db -> A * Db) Q n :
  (forall n', node_store n' = node_store n -> quiet_rest n n' ->
     (f (calls n) (node_db n)).2 = node_db n' -> Q (Ret (f (calls n) (node_db n)).1) n') -> wp (db_call W f) Q n.
Proof.
  intros HQ. unfold wp, db_call. destruct (f (calls n) (node_db n)) as [r db]. simpl in *. apply HQ; [done| |done].
  split; [done|]. intros key Hk. apply Hk.
Qed.

Lemma wp_try_catalog {A} (r : CatalogError + A) Q (n : Node St) :
  match r with inl e => Q (Fail (CatalogErr e)) n | inr a => Q (Ret a) n end -> wp (try_catalog r) Q n.
Proof. by destruct r. Qed.

Lemma commit_with_retry_spec table m k n : lawful (iw_catalog W) -> m_table_id m = table ->
  wp (commit_with_retry W table m k)
     (fun r n' => match r with Ret s => commits n table s m n' | Fail _ => aside n n' | _ => False end) n.
Proof.
  intros HW Hm. revert n. induction k as [|k IH]; intros n; cbn [commit_with_retry]; [by apply aside_refl|].
  apply run_bind, wp_db_call. intros n1 Hs1 Hr1 Hdb1.
  pose proof (begin_call_outcome (iw_catalog W) (calls n) table (node_db n)) as Hb.
  destruct (begin_snapshot _ _ _ _) as [b db1]. simpl in Hdb1. subst db1. simpl.
  assert (aside n n1) as Ha1.
  { split; [|done..]. destruct b as [e|txn]; [subst|destruct Hb as [-> _]]; (rewrite Hb || idtac); apply others_once. }
  apply run_bind, wp_try_catalog. destruct b as [e|txn]; [done|]. destruct Hb as (_ & Hten & Htab & Hadd & Hrem).
  apply run_bind, wp_db_call. intros n2 Hs2 Hr2 Hdb2.
  pose proof (commit_call_outcome (iw_catalog W) (calls n1) (add_extent m txn) [m] table (ingest_summary m) (node_db n1) HW) as Hc.
  ospecialize (Hc _ Hten Htab _ Hrem); [by repeat constructor|by simpl; rewrite Hadd|].
  destruct (commit_txn _ _ _ _ _) as [r db2]. simpl in Hdb2. subst db2. simpl.
  assert (forall e, r = inl e -> aside n n2) as Ha2.
  { intros e ->. eapply aside_trans; [exact Ha1|]. split; [|done..]. rewrite Hc. apply others_once. }
  destruct r as [[]|s]; try (by eapply Ha2).
  - eapply run_mono; [apply IH|]. intros [s|e| |] n3; try done; [apply aside_commits|apply aside_trans]; by eapply Ha2.
  - apply (aside_commits n n1); [done|]. destruct Hc as [Hst Hg]. split; [done|]. split; [done|].
    eexists. split; [apply others_once|done].
Qed.
(** ** The extent *)

(** The extent [m] of the table holds the rows of [bs] in the store. *)
Record holds (table : Uuid) (schema : Schema) (bs : list RecordBatch) (m : ExtentManifest) (st : St) : Prop := {
  ho_table : m_table_id m = table;
  ho_count : m_row_count m = row_total bs;
  ho_rows : extent_rows schema st m = concat (batch_rows schema <$> bs) }.

Definition codec_faithful : Prop := forall s bs stats, codec_roundtrip s bs stats.

Lemma write_batches_spec format id schema table schema_snapshot bs st result st' : os_inv st -> Forall batch_ok bs -> codec_faithful ->
  write_batches format id schema bs st = Ret (result, st') ->
  os_inv st' /\ wr_extent_id result = id /\ wr_object_path result = extent_path format hyphenated id /\
  (forall p, p <> extent_path format hyphenated id -> os_view st' p = os_view st p) /\
  holds table schema bs (table_result_to_manifest table schema_snapshot result) st'.
Proof.
  intros Hi Hok Hcodec (w & Happ & Hfin)%bind_Ret. pose proof (appends_written _ _ _ _ _ Hok Happ) as Hw.
  destruct (finish_extent_named _ _ _ _ _ Hfin) as [Hid Hpath].
  assert (w_format w = format /\ w_extent_id w = id) as [Hf Hwid].
  { clear -Happ. apply (for_each_Ret append (fun _ w' => same_extent (start_extent format id schema) w') bs) in Happ;
      [by destruct Happ|done|].
    intros pre b w1 w2 Ha [Hf Hi]. apply append_same in Ha as [Hf' Hi']. split; congruence. }
  rewrite Hf, Hwid in Hpath. destruct (finished_counts _ _ _ _ _ _ _ Hw Hfin) as [Hrows _].
  split_and!; [by eapply finish_extent_inv|congruence|done| |].
  - intros p Hp. eapply finish_extent_view; [done..|congruence].
  - split; [done|done|]. unfold extent_rows. simpl. by rewrite (open_finished _ _ _ _ _ _ _ _ Hw (Hcodec _ _ _) Hi Hfin).
Qed.

Lemma write_extent_spec format table bs n : os_inv (node_store n) -> Forall batch_ok bs -> codec_faithful ->
  wp (write_extent W format table bs)
     (fun r n' => node_db n' = node_db n /\ node_ledger n' = node_ledger n /\ published n' = published n /\
        match r with
        | Ret result => os_inv (node_store n') /\
            holds (tr_id table) (tr_schema table) bs (table_result_to_manifest (tr_id table) (tr_schema_snapshot table) result) (node_store n')
        | _ => node_store n' = node_store n
        end) n.
Proof.
  intros Hi Hok Hcodec. unfold write_extent. apply run_bind. unfold wp, draw, on_store. simpl.
  destruct (write_batches _ _ _ _ _) as [[result st]| | |] eqn:Hm; simpl; try done.
  apply (write_batches_spec _ _ _ (tr_id table) (tr_schema_snapshot table)) in Hm as (Hi' & _ & _ & _ & Hh); [|done..]. by split_and!.
Qed.

(** ** The ledger *)

Definition ledger_row (key : string) (table : TableRef) (s : Uuid) (rows bytes : N) (now : Z) : LedgerRow :=
  {| lr_tenant := DEFAULT_TENANT; lr_key := key; lr_table_id := tr_id table; lr_snapshot_id := s;
     lr_rows_ingested := cast_i64 rows; lr_bytes_written := cast_i64 bytes; lr_applied_at := now;
     lr_expires_at := Some (now + hours_24) |}.

(** A call may fail on the ledger. *)
Definition ledger_fails : Prop := exists k e, iw_ledger_fault W k = Some e.

Lemma existsb_key_rows key l : existsb (same_key DEFAULT_TENANT key) l = false <-> key_rows key l = [].
Proof.
  unfold key_rows. induction l as [|r l IH]; [done|]. simpl. destruct (same_key DEFAULT_TENANT key r) eqn:Hr.
  - rewrite filter_cons_True by done. done.
  - rewrite filter_cons_False by (by rewrite Hr). done.
Qed.

Lemma key_rows_snoc key l r : same_key DEFAULT_TENANT key r = true -> key_rows key (l ++ [r]) = key_rows key l ++ [r].
Proof. intros Hr. unfold key_rows. rewrite filter_app. by rewrite (filter_cons_True _ r) by done. Qed.

Lemma lookup_key_rows key now l : lookup_idempotency_in_tenant DEFAULT_TENANT key now l =
  row_to_ledger <$> find_row (unexpired now) (key_rows key l).
Proof.
  unfold lookup_idempotency_in_tenant, find_row, key_rows. f_equal. induction l as [|r l IH]; [done|]. simpl.
  destruct (same_key DEFAULT_TENANT key r) eqn:Hr.
  - rewrite filter_cons_True by done. simpl. destruct (unexpired now r); simpl; [done|].
    destruct (list_find _ l) as [[]|], (list_find _ (filter _ l)) as [[]|]; simpl in *; congruence.
  - rewrite filter_cons_False by (by rewrite Hr). simpl. rewrite <-IH. by destruct (list_find _ l) as [[]|].
Qed.

(** The cleanup deletes no row that still protects its key. *)
Lemma cleanup_keeps now l r : r ∈ l -> unexpired now r = true -> r ∈ cleanup_ledger now l.
Proof.
  intros Hr Hu. unfold cleanup_ledger, delete_where. apply list_elem_of_filter. split; [|done]. unfold unexpired in Hu.
  destruct (lr_expires_at r); [|done]. apply bool_decide_eq_true in Hu. apply bool_decide_eq_false. lia.
Qed.

(** What the rest of the system may have done meanwhile, the ledger apart. *)
Definition elsewhere (n n' : Node St) : Prop :=
  others (iw_catalog W) (node_db n) (node_db n') /\ node_store n' = node_store n /\ published n' = published n.

Lemma record_key_spec key table s rows bytes n :
  wp (record_key W key table s rows bytes)
     (fun r n' => elsewhere n n' /\
        match r with
        | Ret _ => forall k, key = Some k -> leaves k -> key_rows k (node_ledger n) = [] ->
                     exists now i, now = wd_clock (iw_catalog W) i /\ key_rows k (node_ledger n') = [ledger_row k table s rows bytes now]
        | Fail _ => ledger_fails /\ key <> None
        | _ => False
        end) n.
Proof.
  destruct key as [key|]; [|by split; [split; [apply rtc_refl|]|]]. unfold record_key. apply run_bind. unfold wp at 1, clock. simpl.
  apply run_bind. unfold wp at 1, ledger_call. set (l := iw_ledger W (calls n) (node_ledger n)).
  destruct (iw_ledger_fault W (calls n)) as [e|] eqn:Hf; simpl.
  { split; [split; [apply others_once|done]|]. split; [by exists (calls n), e|done]. }
  unfold record_idempotency_in_tenant. destruct (existsb _ l) eqn:Hex; simpl; (split; [split; [apply others_once|done]|]).
  - intros k [= <-] Hl Hk. rewrite <-(Hl (calls n)) in Hk. fold l in Hk. apply existsb_key_rows in Hk. congruence.
  - intros k [= <-] Hl Hk. exists (wd_clock (iw_catalog W) (calls n)), (calls n). split; [done|].
    change (key_rows key (l ++ [ledger_row key table s rows bytes (wd_clock (iw_catalog W) (calls n))]) = [ledger_row key table s rows bytes (wd_clock (iw_catalog W) (calls n))]).
    rewrite key_rows_snoc; [unfold l; by rewrite Hl, Hk|]. unfold same_key. simpl. by rewrite !bool_decide_eq_true_2.
Qed.

Lemma lookup_key_spec key n :
  wp (lookup_key W key)
     (fun r n' => aside n n' /\
        match r with
        | Ret found => forall k, key = Some k -> leaves k ->
            exists i, found = row_to_ledger <$> find_row (unexpired (wd_clock (iw_catalog W) i)) (key_rows k (node_ledger n))
        | Fail _ => ledger_fails
        | _ => False
        end) n.
Proof.
  destruct key as [key|]; [|by split; [apply aside_refl|]]. unfold lookup_key. apply run_bind. unfold wp at 1, ledger_call.
  set (l := iw_ledger W (calls n) (node_ledger n)).
  assert (forall n', node_db n' = wd_env (iw_catalog W) (calls n) (node_db n) -> node_store n' = node_store n ->
    published n' = published n -> node_ledger n' = l -> aside n n') as Ha.
  { intros n' Hdb Hs Hp Hl'. split; [rewrite Hdb; apply others_once|done|]. split; [done|]. intros k Hk. rewrite Hl'. apply Hk. }
  destruct (iw_ledger_fault W (calls n)) as [e|] eqn:Hf; simpl.
  { split; [by apply Ha|]. by exists (calls n), e. }
  split; [by apply Ha|]. intros k [= <-] Hk. exists (calls n). rewrite lookup_key_rows. unfold l. by rewrite Hk.
Qed.
(** ** A request *)

(** Its rows are in an extent of the snapshot [s], committed once. *)
Definition extent_committed (n : Node St) (table : TableRef) (bs : list RecordBatch) (s : Uuid) (bytes : N) (n' : Node St) : Prop :=
  exists m db1 db2, others (iw_catalog W) (node_db n) db1 /\ db_step [DCommit DEFAULT_TENANT [m] []] db1 db2 /\
    group_committed s (tr_id table) [m] db2 /\ others (iw_catalog W) db2 (node_db n') /\
    holds (tr_id table) (tr_schema table) bs m (node_store n') /\ m_byte_size m = bytes.

(** [found] is what the ledger has for the key at some time of the request. *)
Definition looked_up (key : option string) (n : Node St) (found : option IngestLedgerEntry) : Prop :=
  forall k, key = Some k -> leaves k ->
    exists i, found = row_to_ledger <$> find_row (unexpired (wd_clock (iw_catalog W) i)) (key_rows k (node_ledger n)).

(** The key is in the ledger, if it was not before. *)
Definition recorded (key : option string) (table : TableRef) (s : Uuid) (rows bytes : N) (n n' : Node St) : Prop :=
  forall k, key = Some k -> leaves k -> key_rows k (node_ledger n) = [] ->
    exists now i, now = wd_clock (iw_catalog W) i /\ key_rows k (node_ledger n') = [ledger_row k table s rows bytes now].

Section Request.
  Context (p : WritePath St) (database : string) (table : TableRef) (federated : bool) (bs : list RecordBatch) (key : option string).

Definition event_of (rows : N) : list RowsAppended :=
  if wp_events p && bool_decide (0 < rows)%N
  then [{| ra_database := database; ra_table := tr_name table; ra_rows := rows |}] else [].

(** The ways in which a request on the direct path ends. *)
Inductive ingest_result (n : Node St) : outcome IngestError IngestAck -> Node St -> Prop :=
  | request_replayed e n' : looked_up key n (Some e) -> aside n n' -> ingest_result n (Ret (replay_ack e)) n'
  | request_empty n' : bs = [] -> looked_up key n None -> aside n n' ->
      ingest_result n (Ret (fresh_ack (tr_current_snapshot table) 0 0 0)) n'
  | request_committed s bytes n' : bs <> [] -> looked_up key n None -> extent_committed n table bs s bytes n' ->
      published n' = published n ++ event_of (row_total bs) -> recorded key table s (row_total bs) bytes n n' ->
      ingest_result n (Ret (fresh_ack s 1 (row_total bs) bytes)) n'
  | request_refused e : federated = true -> ingest_result n (Fail (Config e)) n
  | request_failed r n' : (forall a, r <> Ret a) -> looked_up key n None \/ ledger_fails ->
      others (iw_catalog W) (node_db n) (node_db n') -> quiet_rest n n' -> ingest_result n r n'
  | request_unrecorded e s bytes n' : key <> None -> ledger_fails -> extent_committed n table bs s bytes n' ->
      published n' = published n -> ingest_result n (Fail e) n'.

Lemma ingest_extent_spec n n1 : lawful (iw_catalog W) -> codec_faithful -> wp_staged p = false -> Forall batch_ok bs ->
  os_inv (node_store n) -> aside n n1 -> looked_up key n None -> bs <> [] ->
  wp (ingest_extent W p table bs key)
     (fun r n' => os_inv (node_store n') /\
        match r with
        | Ret ack => exists s bytes, ack = fresh_ack s 1 (row_total bs) bytes /\ published n' = published n /\
                       extent_committed n table bs s bytes n' /\ recorded key table s (row_total bs) bytes n n'
        | _ => ingest_result n r n'
        end) n1.
Proof.
  intros HW Hcodec Hstaged Hok Hi [Ho1 Hs1 Hr1] Hlook Hbs. unfold ingest_extent. rewrite Hstaged. apply run_bind.
  eapply run_mono; [apply write_extent_spec; [by rewrite Hs1|done..]|]. intros r n2 (Hdb2 & Hl2 & Hp2 & Hr).
  assert (others (iw_catalog W) (node_db n) (node_db n2) /\ quiet_rest n n2) as [Ho2 Hr2].
  { rewrite Hdb2. split; [done|]. destruct Hr1 as [Hp Hl]. split; [congruence|]. intros k Hk. rewrite Hl2. by apply Hl. }
  destruct r as [result|e| |]; [|rewrite Hr, Hs1; (split; [done|]); apply request_failed; try done; by left..].
  destruct Hr as [Hi2 Hholds]. set (m := table_result_to_manifest _ _ _) in *. apply run_bind.
  eapply run_mono; [apply commit_with_retry_spec; [done|apply Hholds]|]. intros [s|e| |] n3; try done.
  2: { intros [Ho3 Hs3 Hr3]. rewrite Hs3. split; [done|]. apply request_failed; [done|by left|by eapply others_trans|by eapply quiet_trans]. }
  intros (Hs3 & Hr3 & db1 & Ho3 & Hst & Hg). apply run_bind.
  eapply run_mono; [apply record_key_spec|]. intros r n4 [(Ho4 & Hs4 & Hp4) Hr4]. rewrite <-Hs3 in Hi2, Hholds. rewrite <-Hs4 in Hi2, Hholds.
  assert (extent_committed n table bs s (wr_byte_size result) n4) as Hcom.
  { exists m, db1, (node_db n3). split_and!; try done. by eapply others_trans. }
  pose proof (quiet_trans _ _ _ Hr2 Hr3) as [Hp3 Hl3]. destruct r as [[]|e| |]; try done.
  - apply run_ret. split; [done|]. exists s, (wr_byte_size result). split_and!; [done|congruence|done|].
    intros k Hk Hlv Hn. apply (Hr4 k Hk Hlv). by rewrite Hl3.
  - destruct Hr4 as [Hf Hk]. split; [done|]. apply (request_unrecorded _ _ s (wr_byte_size result)); [done..|congruence].
Qed.

Lemma ingest_with_idempotency_spec n : lawful (iw_catalog W) -> codec_faithful -> wp_staging p = None ->
  wp_staged p = false -> Forall batch_ok bs -> os_inv (node_store n) ->
  wp (ingest_with_idempotency W p database table federated bs key) (fun r n' => os_inv (node_store n') /\ ingest_result n r n') n.
Proof.
  intros HW Hcodec Hstaging Hstaged Hok Hi. unfold ingest_with_idempotency. destruct federated eqn:Hfed.
  { split; [done|]. by apply request_refused. }
  apply run_bind. eapply run_mono; [apply lookup_key_spec|]. intros [found|e| |] n1 [Ha Hf]; try done.
  2: { destruct Ha as [Ho Hs Hr]. rewrite Hs. split; [done|]. apply request_failed; [done|by right|done..]. }
  pose proof (as_store _ _ Ha) as Hs1. destruct found as [e|].
  { split; [simpl; by rewrite Hs1|]. by apply request_replayed. }
  rewrite Hstaging. destruct (decide (bs = [])) as [Hbs|Hbs].
  { rewrite Hbs. split; [simpl; by rewrite Hs1|]. by apply request_empty. }
  replace (match bs with [] => _ | _ :: _ => _ end) with
    (ack ← ingest_extent W p table bs key; publish_rows p database table ack ≫= fun _ => mret ack) by (by destruct bs).
  apply run_bind. eapply run_mono; [by apply (ingest_extent_spec n n1)|]. intros [ack|e| |] n2 [Hi2 Hr]; try done.
  destruct Hr as (s & bytes & -> & Hp & Hcom & Hrec). unfold publish_rows, event_of. simpl. rewrite andb_true_r.
  destruct (wp_events p && _) eqn:Hev; (split; [done|]); apply request_committed; try done; simpl; unfold event_of; rewrite Hev.
  - by rewrite Hp.
  - by rewrite app_nil_r.
Qed.
(** ** Repeated requests *)

(** The same request, [m] times, whatever it answers. *)
Fixpoint requests (m : nat) (n : Node St) : list (outcome IngestError IngestAck) * Node St :=
  match m with
  | O => ([], n)
  | S m =>
      let '(r, n) := ingest_with_idempotency W p database table federated bs key n in
      let '(rs, n) := requests m n in (r :: rs, n)
  end.

Lemma cast_u64_i64 x : cast_u64 (cast_i64 x) = (x mod 2 ^ 64)%N.
Proof.
  unfold cast_u64, cast_i64. assert (forall z, (z - 2 ^ 64) mod 2 ^ 64 = z mod 2 ^ 64) as Hz.
  { intros z. replace (z - 2 ^ 64) with (z + (-1) * 2 ^ 64) by lia. by rewrite Z.mod_add. }
  case_decide; rewrite ?Hz, Z.mod_mod by done; rewrite <-(N2Z.id (x mod 2 ^ 64)), N2Z.inj_mod; done.
Qed.

(** What the ledger answers; its counters are 64 bits wide. *)
Definition replay_of (s : Uuid) (rows bytes : N) : IngestAck :=
  {| snapshot_id := s; extent_count := 0; rows_ingested := rows mod 2 ^ 64; bytes_written := bytes mod 2 ^ 64; replayed := true |}.

Lemma committed_around n n1 n2 n3 s bytes : others (iw_catalog W) (node_db n) (node_db n1) ->
  extent_committed n1 table bs s bytes n2 -> aside n2 n3 -> extent_committed n table bs s bytes n3.
Proof.
  intros Ho (m & db1 & db2 & Ho1 & Hst & Hg & Ho2 & Hh & Hb) [Ho3 Hs3 _]. exists m, db1, db2. rewrite Hs3.
  split_and!; try done; by eapply others_trans.
Qed.

Hypothesis Hlawful : lawful (iw_catalog W).
Hypothesis Hcodec : codec_faithful.
Hypothesis Hdirect : wp_staging p = None /\ wp_staged p = false.
Hypothesis Hok : Forall batch_ok bs.

Lemma one_request n : os_inv (node_store n) -> exists r n', ingest_with_idempotency W p database table federated bs key n = (r, n') /\
  os_inv (node_store n') /\ ingest_result n r n'.
Proof.
  intros Hi. destruct Hdirect as [Hd1 Hd2]. pose proof (ingest_with_idempotency_spec n Hlawful Hcodec Hd1 Hd2 Hok Hi) as Hspec.
  unfold wp in Hspec. destruct (ingest_with_idempotency _ _ _ _ _ _ _ _) as [r n']. by exists r, n'.
Qed.
(** The key is nobody else's, the ledger answers, and all is over within a day. *)
Context (k : string).
Hypothesis Hkey : key = Some k.
Hypothesis Hleaves : leaves k.
Hypothesis Hledger : ~ ledger_fails.
Hypothesis Hday : forall i j, wd_clock (iw_catalog W) i < wd_clock (iw_catalog W) j + hours_24.
Hypothesis Hbs : bs <> [].
Hypothesis Hfederated : federated = false.

Lemma requests_replayed m n s bytes j : os_inv (node_store n) ->
  key_rows k (node_ledger n) = [ledger_row k table s (row_total bs) bytes (wd_clock (iw_catalog W) j)] ->
  exists n', requests m n = (replicate m (Ret (replay_of s (row_total bs) bytes)), n') /\ aside n n'.
Proof.
  revert n. induction m as [|m IH]; intros n Hi Hrow; [exists n; split; [done|apply aside_refl]|]. simpl.
  assert (forall found, looked_up key n found ->
    found = Some (row_to_ledger (ledger_row k table s (row_total bs) bytes (wd_clock (iw_catalog W) j)))) as Hfound.
  { intros found Hl. destruct (Hl k Hkey Hleaves) as (i & ->). rewrite Hrow. unfold find_row. simpl.
    rewrite decide_True; [done|]. apply bool_decide_eq_true. apply Hday. }
  destruct (one_request n Hi) as (r & n1 & -> & Hi1 & Hr).
  destruct Hr as [e n1 Hl Ha|n1 ? _ _|s' b' n1 _ Hl _ _ _|e ?|r n1 _ [Hl|Hl] _ _|e s' b' n1 _ Hl _ _];
    try congruence; try done; try (by apply Hfound in Hl).
  apply Hfound in Hl as [= ->]. destruct (IH n1 Hi1) as (n' & -> & Ha').
  { by rewrite (qr_ledger _ _ (as_rest _ _ Ha) k Hleaves). }
  exists n'. split; [|by eapply aside_trans]. simpl. unfold replay_ack, replay_of. simpl. by rewrite !cast_u64_i64.
Qed.

Lemma requests_once m n : os_inv (node_store n) -> key_rows k (node_ledger n) = [] ->
  exists rs n', requests m n = (rs, n') /\
    ((Forall (fun r => forall a, r <> Ret a) rs /\ others (iw_catalog W) (node_db n) (node_db n') /\ published n' = published n) \/
     exists fs s bytes rest, Forall (fun r => forall a, r <> Ret a) fs /\
       rs = fs ++ Ret (fresh_ack s 1 (row_total bs) bytes) :: replicate rest (Ret (replay_of s (row_total bs) bytes)) /\
       extent_committed n table bs s bytes n' /\ published n' = published n ++ event_of (row_total bs)).
Proof.
  revert n. induction m as [|m IH]; intros n Hi Hempty.
  { exists [], n. split; [done|]. left. split; [done|]. split; [apply rtc_refl|done]. }
  simpl. assert (forall e, ~ looked_up key n (Some e)) as Hnone.
  { intros e Hl. destruct (Hl k Hkey Hleaves) as (i & He). by rewrite Hempty in He. }
  destruct (one_request n Hi) as (r & n1 & -> & Hi1 & Hr).
  destruct Hr as [e n1 Hl _|n1 ? _ _|s b n1 _ _ Hcom Hp Hrec|e ?|r n1 Hr [_|Hl] Ho Hq|e s b n1 _ Hl _ _];
    try congruence; try done; try (by apply Hnone in Hl).
  - destruct (Hrec k Hkey Hleaves Hempty) as (now & j & -> & Hrow).
    destruct (requests_replayed m n1 s b j Hi1 Hrow) as (n' & -> & Ha). eexists _, n'. split; [done|]. right.
    exists [], s, b, m. split_and!; [done|done| |by rewrite (qr_published _ _ (as_rest _ _ Ha))].
    eapply committed_around; [apply rtc_refl|done..].
  - destruct (IH n1 Hi1) as (rs & n' & -> & IHr); [by rewrite (qr_ledger _ _ Hq k Hleaves)|].
    exists (r :: rs), n'. split; [done|]. destruct IHr as [(Hrs & Ho' & Hp')|(fs & s & b & rest & Hfs & -> & Hcom & Hp')].
    + left. split; [by constructor|]. split; [by eapply others_trans|]. by rewrite Hp', (qr_published _ _ Hq).
    + right. exists (r :: fs), s, b, rest. split_and!; [by constructor|done| |by rewrite Hp', (qr_published _ _ Hq)].
      eapply committed_around; [done..|apply aside_refl].
Qed.
End Request.
End Spec.
