(* ===== verification/StagingBuffer.v ===== *)
(** * The staging buffer

    [pensieve-ingest-core/src/staging.rs]: concurrent requests to one table are
    collected and flushed as one extent.  First the critical sections of the
    buffer, one function each; then the system of callers, flushes and
    commits, in which every step is one access to the buffer, the database or
    the store.  Waiters are the numbers of the callers. *)

From stdpp Require Import base gmap strings list relations.
From Stdlib Require Import NArith ZArith Lia.
From S2P Require Import Prelude Bytes Arrow BlockStats ColumnStats Pushdown CatalogPrune TlmExtent SqlTable CatalogSchema.
From S2P Require Import SnapshotDb CatalogOps SnapshotSpec CommitCoordinator Compaction CompactionSpec IngestPath.

Local Open Scope Z_scope.
Local Open Scope string_scope.
Local Open Scope list_scope.

(** [get_array_memory_size] *)
Class ArrayMemory := { array_memory_size : Array -> N }.

(** Durations and instants are in nanoseconds. *)
Record StagingConfig := { flush_max_rows : N; flush_max_bytes : N; flush_max_age : Z; request_timeout : Z }.
Definition millis (n : Z) : Z := n * 10 ^ 6.
Definition default_staging : StagingConfig :=
  {| flush_max_rows := 8000; flush_max_bytes := 16 * 1024 * 1024; flush_max_age := millis 50; request_timeout := millis 30000 |}.
(** The environment variables, parsed. *)
Definition staging_from_env (rows bytes age_ms : option N) : StagingConfig :=
  {| flush_max_rows := default (flush_max_rows default_staging) rows;
     flush_max_bytes := default (flush_max_bytes default_staging) bytes;
     flush_max_age := from_option (fun n => millis (Z.of_N n)) (flush_max_age default_staging) age_ms;
     request_timeout := request_timeout default_staging |}.

Record TableStaging := {
  ts_schema : Schema; ts_table_name : string; ts_batches : list RecordBatch; ts_total_rows : N; ts_total_bytes : N;
  ts_first_queued_at : Z; ts_waiters : list nat }.
Abbreviation Buffer := (gmap Uuid TableStaging).

Record DrainedStaging := {
  ds_schema : Schema; ds_table_name : string; ds_batches : list RecordBatch; ds_waiters : list nat; ds_rows : N; ds_bytes : N }.

Section Buffer.
  Context `{ArrayMemory}.

(** Rows and bytes, as [u64]; neither comes near its bound. *)
Definition batch_bytes (b : RecordBatch) : N := foldl (fun n c => n + array_memory_size c)%N 0%N (b_columns b).
Definition sum_batches (bs : list RecordBatch) : N * N := (row_total bs, foldl (fun n b => n + batch_bytes b)%N 0%N bs).

(** [enqueue], under its first lock *)
Definition needs_schema_flush (table : Uuid) (schema : Schema) (buf : Buffer) : bool :=
  match buf !! table with Some e => bool_decide (ts_schema e <> schema) | None => false end.

(** Under its second lock: the result says whether a threshold is reached. *)
Definition push_request (cfg : StagingConfig) (table : Uuid) (name : string) (schema : Schema) (batches : list RecordBatch)
    (tx : nat) (now : Z) (buf : Buffer) : bool * Buffer :=
  let '(added_rows, added_bytes) := sum_batches batches in
  let entry := default {| ts_schema := schema; ts_table_name := name; ts_batches := []; ts_total_rows := 0; ts_total_bytes := 0;
                          ts_first_queued_at := now; ts_waiters := [] |} (buf !! table) in
  let entry := {| ts_schema := schema; ts_table_name := ts_table_name entry; ts_batches := ts_batches entry ++ batches;
                  ts_total_rows := ts_total_rows entry + added_rows; ts_total_bytes := ts_total_bytes entry + added_bytes;
                  ts_first_queued_at := ts_first_queued_at entry; ts_waiters := ts_waiters entry ++ [tx] |} in
  (bool_decide (flush_max_rows cfg <= ts_total_rows entry)%N || bool_decide (flush_max_bytes cfg <= ts_total_bytes entry)%N,
   <[table := entry]> buf).

(** [flush_table], step 1: the entry stays, empty, with its schema. *)
Definition take_staged (table : Uuid) (now : Z) (buf : Buffer) : option DrainedStaging * Buffer :=
  match buf !! table with
  | None => (None, buf)
  | Some e =>
      match ts_batches e with
      | [] => (None, buf)
      | _ =>
          (Some {| ds_schema := ts_schema e; ds_table_name := ts_table_name e; ds_batches := ts_batches e;
                   ds_waiters := ts_waiters e; ds_rows := ts_total_rows e; ds_bytes := ts_total_bytes e |},
           <[table := {| ts_schema := ts_schema e; ts_table_name := ts_table_name e; ts_batches := []; ts_total_rows := 0;
                         ts_total_bytes := 0; ts_first_queued_at := now; ts_waiters := [] |}]> buf)
      end
  end.

Definition staged_nonempty (e : TableStaging) : bool := match ts_batches e with [] => false | _ => true end.

(** [flush_if_expired] and [drain_all]: the tables to flush; the map yields them
    in any order. *)
Definition expired (cfg : StagingConfig) (now : Z) (buf : Buffer) : list Uuid :=
  let cutoff := now - flush_max_age cfg in
  (filter (fun p => staged_nonempty p.2 = true /\ ts_first_queued_at p.2 <= cutoff) (map_to_list buf)).*1.
Definition pending (buf : Buffer) : list Uuid := (filter (fun p => staged_nonempty p.2 = true) (map_to_list buf)).*1.
End Buffer.

(** [lookup_by_id], on Postgres: the name of the table's database, then the
    tables of that database. *)
Definition database_of (table : Uuid) (db : Db) : option string :=
  t ← find_row (is_table table) (tables db);
  d ← find_row (fun d => bool_decide (db_id d = tb_database t)) (databases db);
  Some (db_name d).
Definition listed_by_id `{Database} `{ArrowText} (table : Uuid) (name : string) (db : Db) : CatalogError + option TableRef :=
  match list_tables_in_database_in_tenant DEFAULT_TENANT name db with
  | inl e => inl e
  | inr ts => inr (snd <$> list_find (fun t => tr_id t = table) ts)
  end.

(** ** The system *)

Record Request := { rq_table : TableRef; rq_batches : list RecordBatch }.

(** What [submit] reports. *)
Inductive SubmitError := DroppedWaiter | NotInTime.

(** A call of [submit]: entered; flushing first because the buffer holds another
    schema; to take the second lock; waiting since; returned. *)
Inductive Caller :=
  | Entered (r : Request)
  | Preflushing (r : Request)
  | Enqueueing (r : Request)
  | Awaiting (r : Request) (since : Z)
  | Returned (r : Request) (res : SubmitError + FlushOutcome).
Definition request_of (c : Caller) : Request :=
  match c with Entered r | Preflushing r | Enqueueing r | Awaiting r _ | Returned r _ => r end.

(** How far a run of [flush_table] is. *)
Inductive Stage :=
  | Called
  | Taken (d : DrainedStaging)
  | Named (d : DrainedStaging) (name : string)
  | Found (d : DrainedStaging) (table : TableRef)
  | Written (d : DrainedStaging) (table : TableRef) (result : ExtentWriteResult)
  | Committed (d : DrainedStaging) (result : ExtentWriteResult) (snapshot : Uuid).

(** [flush_owner]: the caller that waits for the end of this flush. *)
Record Flush := { flush_table : Uuid; flush_owner : option nat; flush_stage : Stage }.

(** An extent that is written and not committed yet. *)
Record PendingExtent := { pe_owner : option nat; pe_drained : DrainedStaging; pe_table : TableRef; pe_result : ExtentWriteResult }.
Definition extent_write_result_to_manifest `{Chrono} (table : TableRef) (r : ExtentWriteResult) : ExtentManifest :=
  table_result_to_manifest (tr_id table) (tr_schema_snapshot table) r.
Definition pe_manifest `{Chrono} (j : PendingExtent) : ExtentManifest := extent_write_result_to_manifest (pe_table j) (pe_result j).

(** A commit in progress, with the attempts left: on its own a flush commits its
    extent; the coordinator commits the extents of several flushes at once. *)
Record Unit := { u_table : Uuid; u_jobs : list PendingExtent; u_left : nat; u_txn : option SnapshotTxn }.

(** A waiter is answered with an outcome, or dropped. *)
Abbreviation Answered := (nat * option FlushOutcome)%type.
Definition dropped (l : list nat) : list Answered := (fun i => (i, None)) <$> l.

(** An extent committed by a flush. *)
Record Committed_extent := { ce_waiters : list nat; ce_schema : Schema; ce_manifest : ExtentManifest; ce_snapshot : Uuid }.

Record System (St : Type) := {
  buffer : Buffer; callers : list Caller; flushes : list Flush; units : list Unit; time : Z;
  sys_db : Db; sys_store : St;
  entered : list nat;                (** who took the second lock, in order *)
  answers : list Answered;
  log : list Committed_extent;       (** the extents committed by flushes *)
  drawn : list N;                    (** their identifiers, and those that failed *)
  deltas : list (bool * list Delta)  (** the steps of the database; the flag marks those of flushes *) }.
Arguments buffer {St}.
Arguments callers {St}.
Arguments flushes {St}.
Arguments units {St}.
Arguments time {St}.
Arguments sys_db {St}.
Arguments sys_store {St}.
Arguments entered {St}.
Arguments answers {St}.
Arguments log {St}.
Arguments drawn {St}.
Arguments deltas {St}.

Definition stage_drained (st : Stage) : option DrainedStaging :=
  match st with
  | Called => None
  | Taken d | Named d _ | Found d _ | Written d _ _ | Committed d _ _ => Some d
  end.
Definition flush_waiters (f : Flush) : list nat := from_option ds_waiters [] (stage_drained (flush_stage f)).
Definition unit_waiters (u : Unit) : list nat := concat ((fun j => ds_waiters (pe_drained j)) <$> u_jobs u).

(** ** Updates *)

Definition with_callers {St} (callers' : list Caller) (s : System St) : System St :=
  {| buffer := buffer s; callers := callers'; flushes := flushes s; units := units s; time := time s; sys_db
     := sys_db s; sys_store := sys_store s; entered := entered s; answers := answers s; log := log s; drawn :=
     drawn s; deltas := deltas s |}.
Definition with_flushes {St} (flushes' : list Flush) (s : System St) : System St :=
  {| buffer := buffer s; callers := callers s; flushes := flushes'; units := units s; time := time s; sys_db
     := sys_db s; sys_store := sys_store s; entered := entered s; answers := answers s; log := log s; drawn :=
     drawn s; deltas := deltas s |}.
Definition with_units {St} (units' : list Unit) (s : System St) : System St :=
  {| buffer := buffer s; callers := callers s; flushes := flushes s; units := units'; time := time s; sys_db
     := sys_db s; sys_store := sys_store s; entered := entered s; answers := answers s; log := log s; drawn :=
     drawn s; deltas := deltas s |}.
Definition with_time {St} (time' : Z) (s : System St) : System St :=
  {| buffer := buffer s; callers := callers s; flushes := flushes s; units := units s; time := time'; sys_db
     := sys_db s; sys_store := sys_store s; entered := entered s; answers := answers s; log := log s; drawn :=
     drawn s; deltas := deltas s |}.
Definition with_buffer {St} (buffer' : Buffer) (s : System St) : System St :=
  {| buffer := buffer'; callers := callers s; flushes := flushes s; units := units s; time := time s; sys_db
     := sys_db s; sys_store := sys_store s; entered := entered s; answers := answers s; log := log s; drawn :=
     drawn s; deltas := deltas s |}.
Definition with_answers {St} (answers' : list Answered) (s : System St) : System St :=
  {| buffer := buffer s; callers := callers s; flushes := flushes s; units := units s; time := time s; sys_db
     := sys_db s; sys_store := sys_store s; entered := entered s; answers := answers'; log := log s; drawn :=
     drawn s; deltas := deltas s |}.
Definition with_entered {St} (entered' : list nat) (s : System St) : System St :=
  {| buffer := buffer s; callers := callers s; flushes := flushes s; units := units s; time := time s; sys_db
     := sys_db s; sys_store := sys_store s; entered := entered'; answers := answers s; log := log s; drawn :=
     drawn s; deltas := deltas s |}.
Definition with_written {St} (sys_store' : St) (drawn' : list N) (s : System St) : System St :=
  {| buffer := buffer s; callers := callers s; flushes := flushes s; units := units s; time := time s; sys_db
     := sys_db s; sys_store := sys_store'; entered := entered s; answers := answers s; log := log s; drawn :=
     drawn'; deltas := deltas s |}.
Definition with_delta {St} (sys_db' : Db) (deltas' : list (bool * list Delta)) (s : System St) : System St :=
  {| buffer := buffer s; callers := callers s; flushes := flushes s; units := units s; time := time s; sys_db
     := sys_db'; sys_store := sys_store s; entered := entered s; answers := answers s; log := log s; drawn :=
     drawn s; deltas := deltas' |}.
Definition with_log {St} (log' : list Committed_extent) (s : System St) : System St :=
  {| buffer := buffer s; callers := callers s; flushes := flushes s; units := units s; time := time s; sys_db
     := sys_db s; sys_store := sys_store s; entered := entered s; answers := answers s; log := log'; drawn :=
     drawn s; deltas := deltas s |}.

(** ** The steps *)

(** The owner of a flush that ends goes on to the second lock. *)
Definition resume_owner (owner : option nat) (cs : list Caller) : list Caller :=
  match owner with
  | Some i => match cs !! i with Some (Preflushing r) => <[i := Enqueueing r]> cs | _ => cs end
  | None => cs
  end.
Definition resume_owners (owners : list (option nat)) (cs : list Caller) : list Caller := foldr resume_owner cs owners.

Definition call_flush (owner : option nat) (table : Uuid) : Flush := {| flush_table := table; flush_owner := owner; flush_stage := Called |}.
Definition at_stage (f : Flush) (st : Stage) : Flush :=
  {| flush_table := flush_table f; flush_owner := flush_owner f; flush_stage := st |}.
Definition written_flush (table : Uuid) (j : PendingExtent) : Flush :=
  {| flush_table := table; flush_owner := pe_owner j; flush_stage := Written (pe_drained j) (pe_table j) (pe_result j) |}.
Definition committed_flush (table snapshot : Uuid) (j : PendingExtent) : Flush :=
  {| flush_table := table; flush_owner := pe_owner j; flush_stage := Committed (pe_drained j) (pe_result j) snapshot |}.

Definition outcome_of (result : ExtentWriteResult) (snapshot : Uuid) : FlushOutcome :=
  {| fo_snapshot_id := snapshot; fo_extent_id := wr_extent_id result; fo_byte_size := wr_byte_size result;
     fo_row_count := wr_row_count result |}.

Section System.
  Context `{ArrayMemory} `{Codec} `{Database} `{ArrowText} `{Chrono} `{UuidParse} {St} `{ObjectStore St}.
  Context (cfg : StagingConfig) (format : TelemetryFormat) (coordinated : bool).

Definition committed_extent (snapshot : Uuid) (j : PendingExtent) : Committed_extent :=
  {| ce_waiters := ds_waiters (pe_drained j); ce_schema := ds_schema (pe_drained j); ce_manifest := pe_manifest j; ce_snapshot := snapshot |}.

(** The flush goes away and with it the senders it held. *)
Definition drop_flush (f : Flush) (s : System St) : System St :=
  with_answers (answers s ++ dropped (flush_waiters f)) (with_callers (resume_owner (flush_owner f) (callers s)) s).

Inductive caller_step : System St -> System St -> Prop :=
  | step_enter s r : Forall batch_ok (rq_batches r) -> caller_step s (with_callers (callers s ++ [Entered r]) s)
  | step_nothing s i r extent_id : callers s !! i = Some (Entered r) -> rq_batches r = [] ->
      caller_step s (with_callers (<[i := Returned r (inr {| fo_snapshot_id := tr_current_snapshot (rq_table r);
        fo_extent_id := extent_id; fo_byte_size := 0; fo_row_count := 0 |})]> (callers s)) s)
  | step_same_schema s i r : callers s !! i = Some (Entered r) -> rq_batches r <> [] ->
      needs_schema_flush (tr_id (rq_table r)) (tr_schema (rq_table r)) (buffer s) = false ->
      caller_step s (with_callers (<[i := Enqueueing r]> (callers s)) s)
  | step_other_schema s i r : callers s !! i = Some (Entered r) -> rq_batches r <> [] ->
      needs_schema_flush (tr_id (rq_table r)) (tr_schema (rq_table r)) (buffer s) = true ->
      caller_step s (with_flushes (flushes s ++ [call_flush (Some i) (tr_id (rq_table r))])
                       (with_callers (<[i := Preflushing r]> (callers s)) s))
  | step_enqueue s i r full buf : callers s !! i = Some (Enqueueing r) ->
      push_request cfg (tr_id (rq_table r)) (tr_name (rq_table r)) (tr_schema (rq_table r)) (rq_batches r) i (time s) (buffer s) = (full, buf) ->
      caller_step s (with_flushes (flushes s ++ (if full then [call_flush None (tr_id (rq_table r))] else []))
                       (with_callers (<[i := Awaiting r (time s)]> (callers s))
                          (with_entered (entered s ++ [i]) (with_buffer buf s))))
  | step_answered s i r since a : callers s !! i = Some (Awaiting r since) -> (i, a) ∈ answers s ->
      caller_step s (with_callers (<[i := Returned r (match a with Some o => inr o | None => inl DroppedWaiter end)]> (callers s)) s)
  | step_timeout s i r since : callers s !! i = Some (Awaiting r since) -> since + request_timeout cfg <= time s ->
      caller_step s (with_callers (<[i := Returned r (inl NotInTime)]> (callers s)) s).

(** The clock, the timer and the shutdown. *)
Inductive timer_step : System St -> System St -> Prop :=
  | step_clock s t : time s <= t -> timer_step s (with_time t s)
  | step_tick s ts : ts ≡ₚ expired cfg (time s) (buffer s) ->
      timer_step s (with_flushes (flushes s ++ (call_flush None <$> ts)) s)
  | step_drain_all s ts : ts ≡ₚ pending (buffer s) ->
      timer_step s (with_flushes (flushes s ++ (call_flush None <$> ts)) s).

(** A flush, up to its commit and after it.  What drops it is an error, or in a
    background task a panic. *)
Inductive flush_step : System St -> System St -> Prop :=
  | step_idle s f l1 l2 : flushes s = l1 ++ f :: l2 -> flush_stage f = Called ->
      (take_staged (flush_table f) (time s) (buffer s)).1 = None ->
      flush_step s (drop_flush f (with_flushes (l1 ++ l2) s))
  | step_take s f d buf l1 l2 : flushes s = l1 ++ f :: l2 -> flush_stage f = Called ->
      take_staged (flush_table f) (time s) (buffer s) = (Some d, buf) ->
      flush_step s (with_buffer buf (with_flushes (l1 ++ at_stage f (Taken d) :: l2) s))
  | step_named s f d name l1 l2 : flushes s = l1 ++ f :: l2 -> flush_stage f = Taken d ->
      database_of (flush_table f) (sys_db s) = Some name ->
      flush_step s (with_flushes (l1 ++ at_stage f (Named d name) :: l2) s)
  | step_gone s f d l1 l2 : flushes s = l1 ++ f :: l2 -> flush_stage f = Taken d ->
      database_of (flush_table f) (sys_db s) = None -> flush_step s (drop_flush f (with_flushes (l1 ++ l2) s))
  | step_found s f d name t l1 l2 : flushes s = l1 ++ f :: l2 -> flush_stage f = Named d name ->
      listed_by_id (flush_table f) name (sys_db s) = inr (Some t) ->
      flush_step s (with_flushes (l1 ++ at_stage f (Found d t) :: l2) s)
  | step_unlisted s f d name l1 l2 : flushes s = l1 ++ f :: l2 -> flush_stage f = Named d name ->
      (forall t, listed_by_id (flush_table f) name (sys_db s) <> inr (Some t)) ->
      flush_step s (drop_flush f (with_flushes (l1 ++ l2) s))
  | step_write s f d t id result st l1 l2 : flushes s = l1 ++ f :: l2 -> flush_stage f = Found d t -> id ∉ drawn s ->
      write_batches format id (ds_schema d) (ds_batches d) (sys_store s) = Ret (result, st) ->
      flush_step s (with_flushes (l1 ++ at_stage f (Written d t result) :: l2) (with_written st (drawn s ++ [id]) s))
  | step_unwritten s f d t id l1 l2 : flushes s = l1 ++ f :: l2 -> flush_stage f = Found d t -> id ∉ drawn s ->
      (forall x, write_batches format id (ds_schema d) (ds_batches d) (sys_store s) <> Ret x) ->
      flush_step s (drop_flush f (with_flushes (l1 ++ l2) (with_written (sys_store s) (drawn s ++ [id]) s)))
  | step_fault s f d l1 l2 : flushes s = l1 ++ f :: l2 -> (flush_stage f = Taken d \/ exists name, flush_stage f = Named d name) ->
      flush_step s (drop_flush f (with_flushes (l1 ++ l2) s))
  | step_wake s f d result snapshot l1 l2 : flushes s = l1 ++ f :: l2 -> flush_stage f = Committed d result snapshot ->
      flush_step s (with_answers (answers s ++ ((fun i => (i, Some (outcome_of result snapshot))) <$> ds_waiters d))
                      (with_callers (resume_owner (flush_owner f) (callers s)) (with_flushes (l1 ++ l2) s))).

(** What a commit records. *)
Definition job_of (table : Uuid) (j : PendingExtent) : CommitJob :=
  {| table_id := table; manifest := pe_manifest j; job_rows := ds_rows (pe_drained j); job_bytes := wr_byte_size (pe_result j);
     table_label := ds_table_name (pe_drained j); responder := 0 |}.
Definition staging_summary (j : PendingExtent) : SnapshotSummary :=
  {| rows_added := cast_i64 (ds_rows (pe_drained j)); rows_removed := 0; bytes_added := cast_i64 (wr_byte_size (pe_result j));
     bytes_removed := 0; operation := "ingest" |}.
Definition unit_summary (u : Unit) : SnapshotSummary :=
  match u_jobs u with
  | [j] => if coordinated then group_summary [job_of (u_table u) j] else staging_summary j
  | js => group_summary (job_of (u_table u) <$> js)
  end.

Definition with_txn (u : Unit) (left : nat) (txn : option SnapshotTxn) : Unit :=
  {| u_table := u_table u; u_jobs := u_jobs u; u_left := left; u_txn := txn |}.
Definition drop_unit (u : Unit) (s : System St) : System St :=
  with_answers (answers s ++ dropped (unit_waiters u)) (with_callers (resume_owners (pe_owner <$> u_jobs u) (callers s)) s).

(** Without a coordinator each flush commits alone; the coordinator commits one
    group at a time. *)
Definition may_start (jobs : list PendingExtent) (us : list Unit) : Prop :=
  if coordinated then us = [] /\ jobs <> [] else length jobs = 1%nat.

Inductive commit_step : System St -> System St -> Prop :=
  | step_start s table jobs rest : flushes s ≡ₚ (written_flush table <$> jobs) ++ rest -> may_start jobs (units s) ->
      commit_step s (with_flushes rest
        (with_units (units s ++ [{| u_table := table; u_jobs := jobs; u_left := MAX_ATTEMPTS; u_txn := None |}]) s))
  | step_begin s u n txn l1 l2 : units s = l1 ++ u :: l2 -> u_left u = S n -> u_txn u = None ->
      begin_snapshot_in_tenant DEFAULT_TENANT (u_table u) (sys_db s) = inr txn ->
      commit_step s (with_units (l1 ++ with_txn u (S n) (Some (foldl (fun txn j => add_extent (pe_manifest j) txn) txn (u_jobs u))) :: l2) s)
  | step_conflict s u n txn snap man now l1 l2 : units s = l1 ++ u :: l2 -> u_left u = S n -> u_txn u = Some txn ->
      (commit txn (unit_summary u) snap man now (sys_db s)).1 = inl Conflict ->
      commit_step s (with_units (l1 ++ with_txn u n None :: l2) s)
  | step_commit s u txn snap man now snapshot db l1 l2 : units s = l1 ++ u :: l2 -> u_txn u = Some txn ->
      snap ∉ sn_id <$> snapshots (sys_db s) -> man ∉ mf_id <$> manifests (sys_db s) ->
      commit txn (unit_summary u) snap man now (sys_db s) = (inr snapshot, db) ->
      commit_step s (with_units (l1 ++ l2)
        (with_flushes (flushes s ++ (committed_flush (u_table u) snapshot <$> u_jobs u))
           (with_log (log s ++ (committed_extent snapshot <$> u_jobs u))
              (with_delta db (deltas s ++ [(true, [DCommit DEFAULT_TENANT (pe_manifest <$> u_jobs u) []])]) s))))
  | step_failed s u l1 l2 : units s = l1 ++ u :: l2 ->
      (** no attempt is left, or a call fails *)
      commit_step s (drop_unit u (with_units (l1 ++ l2) s)).

(** The others. *)
Inductive other_step : System St -> System St -> Prop :=
  | step_others s ds db : db_step ds (sys_db s) db -> other_step s (with_delta db (deltas s ++ [(false, ds)]) s).

Definition system_step (s s' : System St) : Prop :=
  caller_step s s' \/ timer_step s s' \/ flush_step s s' \/ commit_step s s' \/ other_step s s'.

Definition initial (db : Db) (st : St) (t : Z) : System St :=
  {| buffer := ∅; callers := []; flushes := []; units := []; time := t; sys_db := db; sys_store := st; entered := [];
     answers := []; log := []; drawn := []; deltas := [] |}.
End System.

(** * Accounts

    [occ i l] counts an element; equations between sums of counts say where
    every waiter is. *)

Definition occ (i : nat) (l : list nat) : nat := length (filter (fun j => j = i) l).
Arguments occ : simpl never.
Lemma occ_app i l k : occ i (l ++ k) = (occ i l + occ i k)%nat.
Proof. unfold occ. by rewrite filter_app, length_app. Qed.
Lemma occ_cons i j l : occ i (j :: l) = (occ i [j] + occ i l)%nat.
Proof. apply (occ_app i [j]). Qed.
Lemma occ_nil i : occ i [] = 0%nat.
Proof. done. Qed.
Lemma occ_self i : occ i [i] = 1%nat.
Proof. unfold occ. by rewrite filter_cons_True. Qed.
Lemma occ_other i j : i <> j -> occ i [j] = 0%nat.
Proof. intros Hij. unfold occ. by rewrite filter_cons_False by congruence. Qed.
#[export] Instance occ_perm i : Proper ((≡ₚ) ==> (=)) (occ i).
Proof. intros l k Hlk. unfold occ. by rewrite Hlk. Qed.
Lemma occ_elem i l : i ∈ l <-> (0 < occ i l)%nat.
Proof.
  unfold occ. split; intros Hi.
  - destruct (filter _ l) eqn:Hf; [|simpl; lia]. assert (i ∈ filter (fun j => j = i) l) as Hin by (by apply list_elem_of_filter).
    rewrite Hf in Hin. by apply not_elem_of_nil in Hin.
  - destruct (filter _ l) as [|j k] eqn:Hf; [simpl in Hi; lia|].
    assert (j ∈ filter (fun j => j = i) l) as [-> Hj]%list_elem_of_filter by (rewrite Hf; left). done.
Qed.
Lemma occ_NoDup l : NoDup l <-> forall i, (occ i l <= 1)%nat.
Proof.
  split.
  - induction 1 as [|x l Hx Hl IH]; intros i; [rewrite occ_nil; lia|]. rewrite occ_cons. specialize (IH i).
    destruct (decide (i = x)) as [->|Hne]; [|rewrite occ_other by done; lia].
    rewrite occ_self. destruct (occ x l) eqn:Ho; [lia|]. exfalso. apply Hx, occ_elem. lia.
  - induction l as [|x l IH]; intros Ho; [constructor|]. constructor.
    + intros Hx%occ_elem. specialize (Ho x). rewrite occ_cons, occ_self in Ho. lia.
    + apply IH. intros i. specialize (Ho i). rewrite occ_cons in Ho. lia.
Qed.

Definition buffer_waiters (b : Buffer) : list nat := concat (ts_waiters <$> (map_to_list b).*2).

Lemma buffer_waiters_insert i t e b :
  (occ i (buffer_waiters (<[t := e]> b)) + occ i (from_option ts_waiters [] (b !! t)) = occ i (buffer_waiters b) + occ i (ts_waiters e))%nat.
Proof.
  unfold buffer_waiters. destruct (b !! t) as [e0|] eqn:Ht; simpl.
  - rewrite <-insert_delete_eq, (map_to_list_insert (delete t b)) by apply lookup_delete_eq.
    rewrite <-(map_to_list_delete b t e0) by done. simpl. rewrite !occ_app. lia.
  - rewrite (map_to_list_insert b) by done. rewrite !fmap_cons. cbn [concat snd]. rewrite !occ_app, occ_nil. lia.
Qed.

(** The waiters of flushes and commits in progress, and of answers. *)
Definition in_flushes (fs : list Flush) : list nat := concat (flush_waiters <$> fs).
Definition in_units (us : list Unit) : list nat := concat (unit_waiters <$> us).

Lemma in_flushes_app fs gs : in_flushes (fs ++ gs) = in_flushes fs ++ in_flushes gs.
Proof. unfold in_flushes. by rewrite fmap_app, concat_app. Qed.
Lemma in_flushes_cons f fs : in_flushes (f :: fs) = flush_waiters f ++ in_flushes fs.
Proof. done. Qed.
Lemma in_units_app us vs : in_units (us ++ vs) = in_units us ++ in_units vs.
Proof. unfold in_units. by rewrite fmap_app, concat_app. Qed.
Lemma in_units_cons u us : in_units (u :: us) = unit_waiters u ++ in_units us.
Proof. done. Qed.
Lemma in_flushes_called os : in_flushes ((fun t => call_flush None t) <$> os) = [].
Proof. unfold in_flushes. induction os; [done|]. exact IHos. Qed.
Lemma in_flushes_written table js : in_flushes (written_flush table <$> js) = concat ((fun j => ds_waiters (pe_drained j)) <$> js).
Proof. unfold in_flushes. by rewrite <-list_fmap_compose. Qed.
Lemma in_flushes_committed table snap js :
  in_flushes (committed_flush table snap <$> js) = concat ((fun j => ds_waiters (pe_drained j)) <$> js).
Proof. unfold in_flushes. by rewrite <-list_fmap_compose. Qed.
Lemma dropped_waiters l : (dropped l).*1 = l.
Proof. unfold dropped. rewrite <-list_fmap_compose. apply list_fmap_id. Qed.
Lemma answered_waiters (o : option FlushOutcome) (l : list nat) : ((fun i => (i, o)) <$> l).*1 = l.
Proof. rewrite <-list_fmap_compose. apply list_fmap_id. Qed.

#[export] Hint Rewrite in_flushes_app in_flushes_cons in_flushes_called in_flushes_written in_flushes_committed in_units_app in_units_cons
  dropped_waiters answered_waiters @fmap_app occ_app occ_nil : accounts.

(** A caller is accounted for from its second lock on. *)
Definition phase_ok (ents : list nat) (cs : list Caller) : Prop :=
  forall i c, cs !! i = Some c -> match c with Awaiting _ _ => i ∈ ents | Returned _ _ => True | _ => i ∉ ents end.

Lemma phase_insert ents cs i c : phase_ok ents cs -> match c with Awaiting _ _ => i ∈ ents | Returned _ _ => True | _ => i ∉ ents end ->
  phase_ok ents (<[i := c]> cs).
Proof. intros Hp Hc j d. rewrite list_lookup_insert_Some. intros [(<- & <- & _)|[_ Hd]]; [done|by apply Hp in Hd]. Qed.

Lemma phase_resume ents o cs : phase_ok ents cs -> phase_ok ents (resume_owner o cs).
Proof.
  intros Hp. unfold resume_owner. destruct o as [i|]; [|done]. destruct (cs !! i) as [[]|] eqn:Hi; try done.
  apply phase_insert; [done|]. apply Hp in Hi. done.
Qed.
Lemma phase_resumes ents os cs : phase_ok ents cs -> phase_ok ents (resume_owners os cs).
Proof. intros Hp. induction os as [|o os IH]; [done|]. by apply phase_resume. Qed.

Lemma phase_snoc ents cs r : phase_ok ents cs -> length cs ∉ ents -> phase_ok ents (cs ++ [Entered r]).
Proof.
  intros Hp Hn i c. rewrite lookup_snoc_Some. intros [[_ Hc]|[-> <-]]; [by apply Hp in Hc|done].
Qed.

Lemma phase_enqueue ents cs i r since : phase_ok ents cs -> phase_ok (ents ++ [i]) (<[i := Awaiting r since]> cs).
Proof.
  intros Hp j c. rewrite list_lookup_insert_Some. intros [(<- & <- & _)|[Hne Hc]].
  - apply elem_of_app. right. by apply list_elem_of_singleton.
  - specialize (Hp j c Hc). destruct c; rewrite ?not_elem_of_app, ?elem_of_app, ?not_elem_of_cons; try tauto;
      (split_and!; [done|congruence|apply not_elem_of_nil]).
Qed.

Lemma length_resume o cs : length (resume_owner o cs) = length cs.
Proof. unfold resume_owner. destruct o as [i|]; [|done]. destruct (cs !! i) as [[]|]; try done. by rewrite length_insert. Qed.
Lemma length_resumes os cs : length (resume_owners os cs) = length cs.
Proof. induction os as [|o os IH]; [done|]. simpl. by rewrite length_resume. Qed.

Section Accounts.
  Context `{ArrayMemory} `{Codec} `{Database} `{ArrowText} `{Chrono} `{UuidParse} {St} `{ObjectStore St}.
  Context (cfg : StagingConfig) (format : TelemetryFormat) (coordinated : bool).

Record accounted (s : System St) : Prop := {
  ac_once : NoDup (entered s);
  ac_phase : phase_ok (entered s) (callers s);
  ac_known i : i ∈ entered s -> (i < length (callers s))%nat;
  ac_sum i : occ i (entered s) =
    (occ i (answers s).*1 + occ i (in_flushes (flushes s)) + occ i (in_units (units s)) + occ i (buffer_waiters (buffer s)))%nat }.

Lemma push_waiters table name schema bs tx now b full b' i :
  push_request cfg table name schema bs tx now b = (full, b') -> occ i (buffer_waiters b') = (occ i (buffer_waiters b) + occ i [tx])%nat.
Proof.
  unfold push_request. destruct (sum_batches bs) as [rows bytes]. intros [= _ <-].
  match goal with |- context [<[table := ?e]> b] => pose proof (buffer_waiters_insert i table e b) as Hi end. simpl in Hi.
  rewrite occ_app in Hi. destruct (b !! table); simpl in *; rewrite ?occ_nil in Hi; lia.
Qed.

Lemma take_waiters table now b d b' i : take_staged table now b = (Some d, b') ->
  occ i (buffer_waiters b) = (occ i (ds_waiters d) + occ i (buffer_waiters b'))%nat.
Proof.
  unfold take_staged. destruct (b !! table) as [e|] eqn:He; [|done]. destruct (ts_batches e); [done|]. intros [= <- <-].
  match goal with |- context [<[table := ?e]> b] => pose proof (buffer_waiters_insert i table e b) as Hi end.
  rewrite He in Hi. simpl in *. rewrite occ_nil in Hi. lia.
Qed.

Lemma take_none table now b d b' : take_staged table now b = (d, b') -> d = None -> b' = b.
Proof. unfold take_staged. destruct (b !! table) as [e|]; [destruct (ts_batches e)|]; by intros [= <- <-]. Qed.

(** A step that leaves the callers' accounts alone. *)
Lemma accounted_same (s s' : System St) : accounted s -> entered s' = entered s -> phase_ok (entered s) (callers s') ->
  (length (callers s) <= length (callers s'))%nat ->
  (forall i, (occ i (answers s).*1 + occ i (in_flushes (flushes s)) + occ i (in_units (units s)) + occ i (buffer_waiters (buffer s)) =
     occ i (answers s').*1 + occ i (in_flushes (flushes s')) + occ i (in_units (units s')) + occ i (buffer_waiters (buffer s')))%nat) ->
  accounted s'.
Proof.
  intros [Ho Hp Hk Hs] He Hp' Hl Hsum. split; rewrite ?He; [done..|intros i Hi; specialize (Hk i Hi); lia|].
  intros i. by rewrite Hs.
Qed.

Lemma caller_accounted s s' : caller_step cfg s s' -> accounted s -> accounted s'.
Proof.
  intros Hst Ha. pose proof Ha as [Ho Hp Hk Hs]. destruct Hst as [s r _|s i r eid Hi _|s i r Hi _ _|s i r Hi _ _|s i r full buf Hi Hpush|s i r since a Hi _|s i r since Hi _].
  all: try (apply (accounted_same s); simpl; [done|done|first [apply phase_snoc|apply phase_insert]|rewrite ?length_app, ?length_insert; simpl; lia
    |intros j; autorewrite with accounts; unfold in_flushes; simpl; rewrite ?occ_nil; lia]; try done; try (by apply Hp in Hi)).
  { intros Hin%Hk. lia. }
  pose proof (Hp i _ Hi) as Hnew. simpl in Hnew. split; simpl.
  - apply NoDup_app. split_and!; [done| |by apply NoDup_singleton]. intros j Hj ->%list_elem_of_singleton. done.
  - by apply phase_enqueue.
  - intros j. rewrite elem_of_app, list_elem_of_singleton, length_insert. intros [Hj| ->]; [by apply Hk|by eapply lookup_lt_Some].
  - intros j. rewrite occ_app, Hs, (push_waiters _ _ _ _ _ _ _ _ _ j Hpush), in_flushes_app, occ_app. destruct full; unfold in_flushes; simpl; rewrite ?occ_nil; lia.
Qed.
Lemma timer_accounted s s' : timer_step cfg s s' -> accounted s -> accounted s'.
Proof.
  intros Hst Ha. pose proof Ha as [Ho Hp Hk Hs]. destruct Hst; (apply (accounted_same s); simpl; [done..|]);
    intros j; autorewrite with accounts; lia.
Qed.

Lemma flush_accounted s s' : flush_step format s s' -> accounted s -> accounted s'.
Proof.
  intros Hst Ha. pose proof Ha as [Ho Hp Hk Hs].
  destruct Hst as [s f l1 l2 Hf Hstg _|s f d buf l1 l2 Hf Hstg Ht|s f d name l1 l2 Hf Hstg _|s f d l1 l2 Hf Hstg _|s f d name t l1 l2 Hf Hstg _
    |s f d name l1 l2 Hf Hstg _|s f d t id result st l1 l2 Hf Hstg _ _|s f d t id l1 l2 Hf Hstg _ _|s f d l1 l2 Hf Hstg
    |s f d result snapshot l1 l2 Hf Hstg].
  all: apply (accounted_same s); simpl; [done|done|by (apply phase_resume || idtac)|by rewrite ?length_resume|].
  all: intros j; rewrite Hf; autorewrite with accounts; unfold flush_waiters, at_stage; simpl; rewrite ?Hstg; simpl.
  all: rewrite ?occ_nil; try (rewrite (take_waiters _ _ _ _ _ j Ht)); lia.
Qed.

Lemma commit_accounted s s' : commit_step coordinated s s' -> accounted s -> accounted s'.
Proof.
  intros Hst Ha. pose proof Ha as [Ho Hp Hk Hs].
  destruct Hst as [s table jobs rest Hf _|s u n txn l1 l2 Hu _ _ _|s u n txn snap man now l1 l2 Hu _ _ _
    |s u txn snap man now snapshot db l1 l2 Hu _ _ _ _|s u l1 l2 Hu].
  all: apply (accounted_same s); simpl; [done|done|by (apply phase_resumes || idtac)|by rewrite ?length_resumes|].
  all: intros j; rewrite ?Hf, ?Hu; autorewrite with accounts; unfold unit_waiters; simpl.
  2-5: lia.
  assert (in_flushes (flushes s) ≡ₚ in_flushes ((written_flush table <$> jobs) ++ rest)) as -> by (unfold in_flushes; by rewrite Hf).
  autorewrite with accounts. unfold in_units, unit_waiters. simpl. rewrite ?app_nil_r, ?occ_app, ?occ_nil. lia.
Qed.

Lemma system_accounted s s' : system_step cfg format coordinated s s' -> accounted s -> accounted s'.
Proof.
  intros [Hst|[Hst|[Hst|[Hst|Hst]]]]; [by eapply caller_accounted|by eapply timer_accounted|by eapply flush_accounted|by eapply commit_accounted|].
  destruct Hst. intros []. by split.
Qed.

Lemma initial_accounted db (st : St) t : accounted (initial db st t).
Proof. split; simpl; [constructor|done|by intros i Hi%not_elem_of_nil|]. intros i. unfold buffer_waiters. by rewrite map_to_list_empty. Qed.
End Accounts.

(** * Contents

    What a buffer, a flush or a commit holds is the batches of its waiters'
    requests, one after the other. *)

Definition requests_of (cs : list Caller) : list Request := request_of <$> cs.

(** Admitted requests are for the table and not empty. *)
Definition carries (rqs : list Request) (table : Uuid) (ws : list nat) (bs : list RecordBatch) : Prop :=
  exists rs, Forall2 (fun i r => rqs !! i = Some r) ws rs /\
    Forall (fun r => tr_id (rq_table r) = table /\ rq_batches r <> []) rs /\ bs = concat (rq_batches <$> rs).

Lemma carries_nil rqs table : carries rqs table [] [].
Proof. exists []. split_and!; [apply List.Forall2_nil|done|done]. Qed.

Lemma carries_app rqs new table ws bs : carries rqs table ws bs -> carries (rqs ++ new) table ws bs.
Proof.
  intros (rs & Hrs & Hok & ->). exists rs. split_and!; [|done|done]. eapply Forall2_impl; [exact Hrs|].
  intros i r Hr. by apply lookup_app_l_Some.
Qed.

Lemma carries_snoc rqs table ws bs i r : carries rqs table ws bs -> rqs !! i = Some r -> tr_id (rq_table r) = table ->
  rq_batches r <> [] -> carries rqs table (ws ++ [i]) (bs ++ rq_batches r).
Proof.
  intros (rs & Hrs & Hok & ->) Hr Ht Hne. exists (rs ++ [r]). split_and!.
  - apply Forall2_app; [done|]. by apply Forall2_cons_2; [|apply List.Forall2_nil].
  - apply Forall_app. split; [done|]. by constructor.
  - rewrite fmap_app, concat_app. simpl. by rewrite app_nil_r.
Qed.

Lemma carries_ok rqs table ws bs : Forall (fun r => Forall batch_ok (rq_batches r)) rqs -> carries rqs table ws bs -> Forall batch_ok bs.
Proof.
  intros Hok (rs & Hrs & _ & ->). rewrite Forall_concat, Forall_fmap. clear -Hok Hrs.
  induction Hrs as [|i r ws rs Hr _ IH]; constructor; [|done]. simpl. rewrite Forall_lookup in Hok. by eapply Hok.
Qed.

Lemma resume_requests o cs : requests_of (resume_owner o cs) = requests_of cs.
Proof.
  unfold resume_owner, requests_of. destruct o as [i|]; [|done]. destruct (cs !! i) as [[]|] eqn:Hi; try done.
  rewrite list_fmap_insert. apply list_insert_id. by rewrite list_lookup_fmap, Hi.
Qed.
Lemma resumes_requests os cs : requests_of (resume_owners os cs) = requests_of cs.
Proof. induction os as [|o os IH]; [done|]. simpl. by rewrite resume_requests. Qed.
Lemma insert_requests cs i c c' : cs !! i = Some c' -> request_of c = request_of c' -> requests_of (<[i := c]> cs) = requests_of cs.
Proof. intros Hi Hc. unfold requests_of. rewrite list_fmap_insert. apply list_insert_id. by rewrite list_lookup_fmap, Hi, Hc. Qed.
Lemma lookup_requests cs i c : cs !! i = Some c -> requests_of cs !! i = Some (request_of c).
Proof. intros Hi. unfold requests_of. by rewrite list_lookup_fmap, Hi. Qed.

Section Contents.
  Context `{ArrayMemory} `{Codec} `{Database} `{ArrowText} `{Chrono} `{UuidParse} {St} `{ObjectStore St}.
  Context (cfg : StagingConfig) (format : TelemetryFormat) (coordinated : bool).

(** The callers keep their requests, new ones come at the end. *)
Definition grows (s s' : System St) : Prop :=
  exists new, requests_of (callers s') = requests_of (callers s) ++ new /\ Forall (fun r => Forall batch_ok (rq_batches r)) new.

Lemma grows_same (s s' : System St) : requests_of (callers s') = requests_of (callers s) -> grows s s'.
Proof. intros Heq. exists []. by rewrite Heq, app_nil_r. Qed.

Lemma system_grows s s' : system_step cfg format coordinated s s' -> grows s s'.
Proof.
  intros [Hst|[Hst|[Hst|[Hst|Hst]]]]; destruct Hst; try (by apply grows_same);
    try (apply grows_same; simpl; by eapply insert_requests); try (apply grows_same; simpl; apply resume_requests);
    try (apply grows_same; simpl; apply resumes_requests).
  exists [r]. split; [|by constructor]. unfold requests_of. simpl. by rewrite fmap_app.
Qed.

Definition entry_ok (rqs : list Request) (t : Uuid) (e : TableStaging) : Prop :=
  carries rqs t (ts_waiters e) (ts_batches e) /\ ts_total_rows e = row_total (ts_batches e).
Definition drained_ok (rqs : list Request) (t : Uuid) (d : DrainedStaging) : Prop :=
  carries rqs t (ds_waiters d) (ds_batches d) /\ ds_rows d = row_total (ds_batches d).
Definition flush_ok (rqs : list Request) (f : Flush) : Prop :=
  match flush_stage f with
  | Called => True
  | Taken d | Named d _ | Committed d _ _ => drained_ok rqs (flush_table f) d
  | Found d t | Written d t _ => drained_ok rqs (flush_table f) d /\ tr_id t = flush_table f
  end.
Definition pending_ok (rqs : list Request) (table : Uuid) (j : PendingExtent) : Prop :=
  drained_ok rqs table (pe_drained j) /\ tr_id (pe_table j) = table.
Definition caller_ok (c : Caller) : Prop :=
  match c with Preflushing r | Enqueueing r => rq_batches r <> [] | _ => True end.

Record contents (rqs : list Request) (s : System St) : Prop := {
  co_callers : Forall caller_ok (callers s);
  co_buffer : map_Forall (entry_ok rqs) (buffer s);
  co_flushes : Forall (flush_ok rqs) (flushes s);
  co_units : Forall (fun u => Forall (pending_ok rqs (u_table u)) (u_jobs u)) (units s) }.

Lemma drained_grow rqs new t d : drained_ok rqs t d -> drained_ok (rqs ++ new) t d.
Proof. intros [Hc Hr]. split; [by apply carries_app|done]. Qed.

Lemma contents_grow rqs new s : contents rqs s -> contents (rqs ++ new) s.
Proof.
  intros [Hc Hb Hf Hu]. split; [done|..].
  - intros t e He. destruct (Hb t e He). split; [by apply carries_app|done].
  - eapply Forall_impl; [exact Hf|]. intros f. unfold flush_ok.
    destruct (flush_stage f); try done; try apply drained_grow; (intros [Hd Ht]; split; [by apply drained_grow|done]).
  - eapply Forall_impl; [exact Hu|]. intros u Hj. eapply Forall_impl; [exact Hj|]. intros j [Hd Ht]. split; [by apply drained_grow|done].
Qed.

Lemma push_contents rqs table name schema r i now b full b' : map_Forall (entry_ok rqs) b -> rqs !! i = Some r ->
  tr_id (rq_table r) = table -> rq_batches r <> [] ->
  push_request cfg table name schema (rq_batches r) i now b = (full, b') -> map_Forall (entry_ok rqs) b'.
Proof.
  intros Hb Hr Ht Hne. unfold push_request. destruct (sum_batches (rq_batches r)) as [rows bytes] eqn:Hsum. intros [= _ <-].
  unfold sum_batches in Hsum. injection Hsum as <- _.
  apply map_Forall_insert_2; [|done]. destruct (b !! table) as [e|] eqn:He; unfold entry_ok; cbn [default ts_waiters ts_batches ts_total_rows].
  - destruct (Hb table e He) as [Hc Hrows]. split; [by apply carries_snoc|]. simpl. rewrite Hrows. symmetry. apply row_total_app.
  - split; [|simpl; lia]. by apply (carries_snoc _ _ [] []); [apply carries_nil|..].
Qed.

Lemma take_contents rqs table now b d b' : map_Forall (entry_ok rqs) b -> take_staged table now b = (Some d, b') ->
  map_Forall (entry_ok rqs) b' /\ drained_ok rqs table d.
Proof.
  intros Hb. unfold take_staged. destruct (b !! table) as [e|] eqn:He; [|done]. pose proof (Hb table e He) as [Hc Hr].
  destruct (ts_batches e) eqn:Hbs; [done|]. intros [= <- <-]. rewrite <-Hbs in *. split; [|done].
  apply map_Forall_insert_2; [|done]. split; [apply carries_nil|done].
Qed.

Lemma resume_ok o cs : Forall caller_ok cs -> Forall caller_ok (resume_owner o cs).
Proof.
  intros Hc. unfold resume_owner. destruct o as [i|]; [|done]. destruct (cs !! i) as [[]|] eqn:Hi; try done.
  apply Forall_insert; [done|]. rewrite Forall_lookup in Hc. by apply Hc in Hi.
Qed.
Lemma resumes_ok os cs : Forall caller_ok cs -> Forall caller_ok (resume_owners os cs).
Proof. intros Hc. induction os as [|o os IH]; [done|]. by apply resume_ok. Qed.
Lemma called_ok rqs os : Forall (flush_ok rqs) ((fun t => call_flush None t) <$> os).
Proof. by apply Forall_fmap, Forall_true. Qed.

Lemma caller_contents rqs s s' : caller_step cfg s s' -> rqs = requests_of (callers s) -> contents rqs s -> contents rqs s'.
Proof.
  intros Hst Hrqs [Hc Hb Hf Hu].
  destruct Hst as [s r _|s i r eid Hi _|s i r Hi Hne _|s i r Hi Hne _|s i r full buf Hi Hpush|s i r since a Hi _|s i r since Hi _];
    split; simpl; try done; try (by apply Forall_insert); try (apply Forall_app; split; [done|]; by repeat constructor).
  - rewrite Forall_lookup in Hc. specialize (Hc i _ Hi). simpl in Hc.
    eapply push_contents; [done| |done|exact Hc|exact Hpush]. rewrite Hrqs. by apply lookup_requests in Hi.
  - apply Forall_app. split; [done|]. destruct full; by repeat constructor.
Qed.

Lemma flush_contents rqs s s' : flush_step format s s' -> contents rqs s -> contents rqs s'.
Proof.
  intros Hst [Hc Hb Hf Hu].
  destruct Hst as [s f l1 l2 Hfl Hstg _|s f d buf l1 l2 Hfl Hstg Ht|s f d name l1 l2 Hfl Hstg _|s f d l1 l2 Hfl Hstg _|s f d name t l1 l2 Hfl Hstg Hl
    |s f d name l1 l2 Hfl Hstg _|s f d t id result st l1 l2 Hfl Hstg _ _|s f d t id l1 l2 Hfl Hstg _ _|s f d l1 l2 Hfl Hstg
    |s f d result snapshot l1 l2 Hfl Hstg].
  all: rewrite Hfl in Hf; apply Forall_app in Hf as [Hf1 [Hff Hf2]%Forall_cons].
  all: split; simpl; try (by apply resume_ok); try done.
  all: try (by apply Forall_app); try (apply Forall_app; split; [done|]; constructor; [|done]).
  all: unfold flush_ok in Hff; rewrite ?Hstg in Hff; try done.
  - by destruct (take_contents _ _ _ _ _ _ Hb Ht).
  - by destruct (take_contents _ _ _ _ _ _ Hb Ht).
  - split; [done|]. unfold listed_by_id in Hl. destruct (list_tables_in_database_in_tenant _ _ _) as [|ts]; [done|].
    destruct (list_find _ ts) as [[k t']|] eqn:Hfind; [|done]. apply list_find_Some in Hfind as (_ & Hid & _). simpl in Hl. simpl. congruence.
Qed.

Lemma commit_contents rqs s s' : commit_step coordinated s s' -> contents rqs s -> contents rqs s'.
Proof.
  intros Hst [Hc Hb Hf Hu].
  destruct Hst as [s table jobs rest Hfl _|s u n txn l1 l2 Hul _ _ _|s u n txn snap man now l1 l2 Hul _ _ _
    |s u txn snap man now snapshot db l1 l2 Hul _ _ _ _|s u l1 l2 Hul].
  all: try (rewrite Hul in Hu; apply Forall_app in Hu as [Hu1 [Huu Hu2]%Forall_cons]).
  all: split; simpl; try (by apply resumes_ok); try done; try (by apply Forall_app); try (apply Forall_app; split; [done|]).
  - rewrite Hfl in Hf. by apply Forall_app in Hf as [_ Hf].
  - rewrite Hfl in Hf. apply Forall_app in Hf as [Hf _]. constructor; [|done]. simpl. by rewrite Forall_fmap in Hf.
  - by constructor.
  - by constructor.
  - apply Forall_fmap. eapply Forall_impl; [exact Huu|]. by intros j [Hd _].
Qed.

Lemma system_contents s s' : system_step cfg format coordinated s s' ->
  contents (requests_of (callers s)) s -> contents (requests_of (callers s')) s'.
Proof.
  intros Hst Hc. destruct (system_grows _ _ Hst) as (new & -> & _). apply contents_grow.
  destruct Hst as [Hst|[Hst|[Hst|[Hst|Hst]]]].
  - by eapply caller_contents.
  - destruct Hc. destruct Hst; split; simpl; try done; apply Forall_app; split; try done; apply called_ok.
  - by eapply flush_contents.
  - by eapply commit_contents.
  - destruct Hst. by destruct Hc.
Qed.
End Contents.

(** * Durability

    Extents that were written and committed hold what their waiters asked for,
    and every answer is that of such an extent. *)

Lemma format_path_inj prefix segment a b : format_extent_path prefix segment a = format_extent_path prefix segment b -> a = b.
Proof.
  assert (forall a b, extent_path_core segment a = extent_path_core segment b -> a = b) as Hcore.
  { clear. intros a b. unfold extent_path_core. case_decide; intros Heq.
    - apply (app_inj_r _ _ ".pnsv"). by apply (inj (String.append "extents/")).
    - apply (app_inj_r _ _ ".pnsv"), (inj (String.append "/extents/")). by apply (inj (String.append segment)). }
  unfold format_extent_path. case_decide; intros Heq; [by apply Hcore|].
  apply Hcore. apply (inj (String.append "/")). by apply (inj (String.append prefix)).
Qed.

(** What a caller learns of an extent. *)
Definition extent_outcome (ce : Committed_extent) : FlushOutcome :=
  {| fo_snapshot_id := ce_snapshot ce; fo_extent_id := m_id (ce_manifest ce); fo_byte_size := m_byte_size (ce_manifest ce);
     fo_row_count := m_row_count (ce_manifest ce) |}.

Section Durability.
  Context `{ArrayMemory} `{Codec} `{Database} `{ArrowText} `{Chrono} `{UuidLaws} {St} `{ObjectStoreLaws St}.
  Context (cfg : StagingConfig) (format : TelemetryFormat) (coordinated : bool) (Hcodec : codec_faithful).

Definition stored (st : St) (ids : list N) (table : Uuid) (schema : Schema) (bs : list RecordBatch) (m : ExtentManifest) : Prop :=
  holds table schema bs m st /\ m_id m ∈ ids /\ m_object_path m = extent_path format hyphenated (m_id m).

(** Extents written later do not touch it. *)
Lemma stored_kept st st' ids id table schema bs m : os_inv st -> os_inv st' -> id ∉ ids ->
  (forall p, p <> extent_path format hyphenated id -> os_view st' p = os_view st p) ->
  stored st ids table schema bs m -> stored st' (ids ++ [id]) table schema bs m.
Proof.
  intros Hi Hi' Hid Hv ([Ht Hc Hr] & Hin & Hp). split_and!; [|by apply elem_of_app; left|done].
  split; [done|done|]. rewrite <-Hr. apply extent_rows_view; [done..|]. apply Hv. rewrite Hp.
  intros Heq%format_path_inj%hyphenated_inj. congruence.
Qed.

Definition logged (lg : list Committed_extent) (d : DrainedStaging) (w : ExtentWriteResult) (snap : Uuid) : Prop :=
  exists ce, ce ∈ lg /\ ce_waiters ce = ds_waiters d /\ outcome_of w snap = extent_outcome ce.

Definition flush_stored (s : System St) (f : Flush) : Prop :=
  match flush_stage f with
  | Written d t w =>
      stored (sys_store s) (drawn s) (flush_table f) (ds_schema d) (ds_batches d) (extent_write_result_to_manifest t w)
  | Committed d w snap => logged (log s) d w snap
  | _ => True
  end.
Definition pending_stored (s : System St) (table : Uuid) (j : PendingExtent) : Prop :=
  stored (sys_store s) (drawn s) table (ds_schema (pe_drained j)) (ds_batches (pe_drained j)) (pe_manifest j).
Definition extent_stored (rqs : list Request) (s : System St) (ce : Committed_extent) : Prop :=
  exists bs, carries rqs (m_table_id (ce_manifest ce)) (ce_waiters ce) bs /\
    stored (sys_store s) (drawn s) (m_table_id (ce_manifest ce)) (ce_schema ce) bs (ce_manifest ce).

Record durable (rqs : list Request) (s : System St) : Prop := {
  du_store : os_inv (sys_store s);
  du_flushes : Forall (flush_stored s) (flushes s);
  du_units : Forall (fun u => Forall (pending_stored s (u_table u)) (u_jobs u)) (units s);
  du_log : Forall (extent_stored rqs s) (log s);
  du_answers i o : (i, Some o) ∈ answers s -> exists ce, ce ∈ log s /\ i ∈ ce_waiters ce /\ o = extent_outcome ce;
  du_returned i r o : callers s !! i = Some (Returned r (inr o)) -> rq_batches r <> [] -> (i, Some o) ∈ answers s }.

(** Updates that leave the store, the log and the answers alone. *)
Lemma durable_same rqs (s s' : System St) : durable rqs s -> sys_store s' = sys_store s -> drawn s' = drawn s -> log s' = log s ->
  Forall (flush_stored s) (flushes s') -> Forall (fun u => Forall (pending_stored s (u_table u)) (u_jobs u)) (units s') ->
  (forall i o, (i, Some o) ∈ answers s' -> (i, Some o) ∈ answers s) ->
  (forall i r o, callers s' !! i = Some (Returned r (inr o)) -> rq_batches r <> [] -> (i, Some o) ∈ answers s') -> durable rqs s'.
Proof.
  intros [Hi Hf Hu Hl Ha Hr] Hst Hdr Hlog Hf' Hu' Ha' Hr'. split; unfold flush_stored, pending_stored, extent_stored in *; rewrite ?Hst, ?Hdr, ?Hlog; try done.
  intros i o Hin. by apply Ha, Ha'.
Qed.

Lemma dropped_some i o l : (i, Some o) ∉ dropped l.
Proof. unfold dropped. by intros (j & [=] & _)%list_elem_of_fmap. Qed.

Lemma returned_resume o cs i r res : resume_owner o cs !! i = Some (Returned r res) -> cs !! i = Some (Returned r res).
Proof.
  unfold resume_owner. destruct o as [j|]; [|done]. destruct (cs !! j) as [[]|] eqn:Hj; try done.
  by rewrite list_lookup_insert_Some; intros [(_ & [=] & _)|[_ Hc]].
Qed.
Lemma returned_resumes os cs i r res : resume_owners os cs !! i = Some (Returned r res) -> cs !! i = Some (Returned r res).
Proof. induction os as [|o os IH]; [done|]. intros Hi%returned_resume. by apply IH. Qed.
Lemma called_stored s os : Forall (flush_stored s) ((fun t => call_flush None t) <$> os).
Proof. by apply Forall_fmap, Forall_true. Qed.

Lemma caller_durable rqs s s' : caller_step cfg s s' -> durable rqs s -> durable rqs s'.
Proof.
  intros Hst Hd. pose proof Hd as [Hi Hf Hu Hl Ha Hr].
  destruct Hst as [s r _|s i r eid Hic Hn|s i r Hic _ _|s i r Hic _ _|s i r full buf Hic Hpush|s i r since a Hic Hans|s i r since Hic _];
    apply (durable_same rqs s); simpl; try done; try (apply Forall_app; split; [done|]; try destruct full; by repeat constructor);
    intros j r' o; rewrite ?lookup_snoc_Some, ?list_lookup_insert_Some.
  - intros [[_ Hj]|[_ [=]]]. by eapply Hr.
  - intros [(_ & [= <- _] & _)|[_ Hj]]; [by rewrite Hn|by eapply Hr].
  - intros [(_ & [=] & _)|[_ Hj]]. by eapply Hr.
  - intros [(_ & [=] & _)|[_ Hj]]. by eapply Hr.
  - intros [(_ & [=] & _)|[_ Hj]]. by eapply Hr.
  - intros [(<- & Hj & _)|[_ Hj]]; [|by eapply Hr]. destruct a as [o'|]; [|done]. injection Hj as <- <-. done.
  - intros [(_ & [=] & _)|[_ Hj]]. by eapply Hr.
Qed.

Lemma timer_durable rqs s s' : timer_step cfg s s' -> durable rqs s -> durable rqs s'.
Proof.
  intros Hst Hd. pose proof Hd as [Hi Hf Hu Hl Ha Hr]. destruct Hst; (apply (durable_same rqs s); simpl; try done);
    apply Forall_app; split; try done; apply called_stored.
Qed.

(** A flush that goes away. *)
Lemma drop_durable rqs s f fs : durable rqs s -> Forall (flush_stored s) fs -> durable rqs (drop_flush f (with_flushes fs s)).
Proof.
  intros Hd Hfs. pose proof Hd as [Hi Hf Hu Hl Ha Hr]. apply (durable_same rqs s); simpl; try done.
  - intros i o [Hin|Hin]%elem_of_app; [done|]. by apply dropped_some in Hin.
  - intros i r o Hin%returned_resume Hne. apply elem_of_app. left. by eapply Hr.
Qed.

(** A new extent in the store. *)
Lemma write_durable rqs s id st : durable rqs s -> os_inv st -> id ∉ drawn s ->
  (forall p, p <> extent_path format hyphenated id -> os_view st p = os_view (sys_store s) p) ->
  durable rqs (with_written st (drawn s ++ [id]) s).
Proof.
  intros [Hi Hf Hu Hl Ha Hr] Hi' Hid Hv.
  assert (forall table schema bs m, stored (sys_store s) (drawn s) table schema bs m -> stored st (drawn s ++ [id]) table schema bs m) as Hk.
  { intros table schema bs m. by apply stored_kept. }
  split; simpl; try done.
  - eapply Forall_impl; [exact Hf|]. intros f. unfold flush_stored. destruct (flush_stage f); try done. apply Hk.
  - eapply Forall_impl; [exact Hu|]. intros u Hj. eapply Forall_impl; [exact Hj|]. intros j. apply Hk.
  - eapply Forall_impl; [exact Hl|]. intros ce (bs & Hc & Hs). exists bs. split; [done|]. by apply Hk.
Qed.

Lemma flush_durable rqs s s' : flush_step format s s' -> Forall (fun r => Forall batch_ok (rq_batches r)) rqs ->
  contents rqs s -> durable rqs s -> durable rqs s'.
Proof.
  intros Hst Hok Hc Hd. pose proof Hd as [Hi Hf Hu Hl Ha Hr].
  destruct Hst as [s f l1 l2 Hfl Hstg _|s f d buf l1 l2 Hfl Hstg Ht|s f d name l1 l2 Hfl Hstg _|s f d l1 l2 Hfl Hstg _|s f d name t l1 l2 Hfl Hstg _
    |s f d name l1 l2 Hfl Hstg _|s f d t id result st l1 l2 Hfl Hstg Hid Hw|s f d t id l1 l2 Hfl Hstg Hid _|s f d l1 l2 Hfl Hstg
    |s f d result snapshot l1 l2 Hfl Hstg].
  all: rewrite Hfl in Hf; apply Forall_app in Hf as [Hf1 [Hff Hf2]%Forall_cons].
  all: try (apply drop_durable; [done|by apply Forall_app]).
  all: try (apply (durable_same rqs s); simpl; try done; apply Forall_app; split; [done|]; by constructor).
  - pose proof (co_flushes _ _ Hc) as Hcf. rewrite Hfl in Hcf. apply Forall_app in Hcf as [_ [Hcf _]%Forall_cons].
    unfold flush_ok in Hcf. rewrite Hstg in Hcf. destruct Hcf as [[Hcar _] Htab].
    pose proof (carries_ok _ _ _ _ Hok Hcar) as Hbok.
    destruct (write_batches_spec _ _ _ (tr_id t) (tr_schema_snapshot t) _ _ _ _ Hi Hbok Hcodec Hw) as (Hi' & Hid' & Hpath & Hv & Hh).
    pose proof (write_durable rqs s id st Hd Hi' Hid Hv) as [Hi2 Hf2' Hu2 Hl2 Ha2 Hr2]. split; simpl in *; try done.
    rewrite Hfl in Hf2'. apply Forall_app in Hf2' as [? [_ ?]%Forall_cons]. apply Forall_app. split; [done|]. constructor; [|done].
    unfold flush_stored, at_stage. simpl. rewrite <-Htab. split_and!; [exact Hh| |simpl; congruence].
    apply elem_of_app. right. simpl. rewrite Hid'. by apply list_elem_of_singleton.
  - pose proof (write_durable rqs s id (sys_store s) Hd Hi Hid (fun _ _ => eq_refl)) as Hd2.
    apply (drop_durable rqs (with_written (sys_store s) (drawn s ++ [id]) s)); [done|].
    pose proof (du_flushes _ _ Hd2) as Hf2'. simpl in Hf2'. rewrite Hfl in Hf2'. apply Forall_app in Hf2' as [? [_ ?]%Forall_cons]. by apply Forall_app.
  - unfold flush_stored in Hff. rewrite Hstg in Hff. destruct Hff as (ce & Hce & Hws & Hout).
    split; simpl; try done; [by apply Forall_app| |].
    + intros i o [Hin|(j & Hij & Hj)%list_elem_of_fmap]%elem_of_app; [by apply Ha|]. injection Hij as -> ->.
      exists ce. by rewrite Hws.
    + intros i r o Hin%returned_resume Hne. apply elem_of_app. left. by eapply Hr.
Qed.

Lemma commit_durable rqs s s' : commit_step coordinated s s' -> contents rqs s -> durable rqs s -> durable rqs s'.
Proof.
  intros Hst Hc Hd. pose proof Hd as [Hi Hf Hu Hl Ha Hr].
  destruct Hst as [s table jobs rest Hfl _|s u n txn l1 l2 Hul _ _ _|s u n txn snap man now l1 l2 Hul _ _ _
    |s u txn snap man now snapshot db l1 l2 Hul _ _ _ _|s u l1 l2 Hul].
  all: try (pose proof Hu as Hu'; rewrite Hul in Hu'; apply Forall_app in Hu' as [Hu1 [Huu Hu2]%Forall_cons]).
  - rewrite Hfl in Hf. apply Forall_app in Hf as [Hf1 Hf2]. apply (durable_same rqs s); simpl; try done.
    apply Forall_app. split; [done|]. constructor; [|done]. simpl. by rewrite Forall_fmap in Hf1.
  - apply (durable_same rqs s); simpl; try done. apply Forall_app. split; [done|]. by constructor.
  - apply (durable_same rqs s); simpl; try done. apply Forall_app. split; [done|]. by constructor.
  - pose proof (co_units _ _ Hc) as Hcu. rewrite Hul in Hcu. apply Forall_app in Hcu as [_ [Hcu _]%Forall_cons].
    assert (forall f, flush_stored s f -> flush_stored (with_log (log s ++ (committed_extent snapshot <$> u_jobs u)) s) f) as Hmono.
    { intros f. unfold flush_stored. destruct (flush_stage f); try done. simpl. intros (ce & Hce & Hrest). exists ce.
      split; [by apply elem_of_app; left|done]. }
    split; simpl; try done.
    + apply Forall_app. split; [by eapply Forall_impl|]. apply Forall_fmap, Forall_forall. intros j Hj.
      exists (committed_extent snapshot j). split; [|done]. apply elem_of_app. right. by apply list_elem_of_fmap_2.
    + by apply Forall_app.
    + apply Forall_app. split; [done|]. apply Forall_fmap, Forall_forall. intros j Hj. rewrite Forall_forall in Hcu, Huu.
      destruct (Hcu j Hj) as [[Hcar _] Htab]. pose proof (Huu j Hj) as Hsto. exists (ds_batches (pe_drained j)).
      assert (m_table_id (ce_manifest (committed_extent snapshot j)) = u_table u) as -> by apply Hsto. done.
    + intros i o Hin. destruct (Ha i o Hin) as (ce & Hce & Hrest). exists ce. split; [by apply elem_of_app; left|done].
  - apply (durable_same rqs s); simpl; try done; [by apply Forall_app| |].
    + intros i o [Hin|Hin]%elem_of_app; [done|]. by apply dropped_some in Hin.
    + intros i r o Hin%returned_resumes Hne. apply elem_of_app. left. by eapply Hr.
Qed.

Lemma durable_grow rqs new s : durable rqs s -> durable (rqs ++ new) s.
Proof.
  intros [Hi Hf Hu Hl Ha Hr]. split; try done. eapply Forall_impl; [exact Hl|]. intros ce (bs & Hc & Hs).
  exists bs. split; [by apply carries_app|done].
Qed.
End Durability.

(** * The database *)

(** The extents that a step of a flush or of the coordinator adds. *)
Definition own_extents (p : bool * list Delta) : list ExtentManifest :=
  if p.1 then concat ((fun d => match d with DCommit _ ms _ => ms | DDrop _ => [] end) <$> p.2) else [].

Section Serial.
  Context `{ArrayMemory} `{Codec} `{Database} `{ArrowText} `{Chrono} `{UuidParse} {St} `{ObjectStore St}.
  Context (cfg : StagingConfig) (format : TelemetryFormat) (coordinated : bool) (db0 : Db).

(** The transaction of a commit in progress. *)
Definition txn_of (u : Unit) : Prop :=
  forall txn, u_txn u = Some txn -> txn_tenant txn = DEFAULT_TENANT /\ txn_table_id txn = u_table u /\
    added txn = pe_manifest <$> u_jobs u /\ removed txn = [].

(** When the extent was committed, and that others have run before and since. *)
Definition committed_at (s : System St) (ce : Committed_extent) : Prop :=
  exists pre ms post db1 db2, deltas s = pre ++ (true, [DCommit DEFAULT_TENANT ms []]) :: post /\ ce_manifest ce ∈ ms /\
    db_run (concat pre.*2) db0 db1 /\ db_step [DCommit DEFAULT_TENANT ms []] db1 db2 /\
    group_committed (ce_snapshot ce) (m_table_id (ce_manifest ce)) ms db2 /\ db_run (concat post.*2) db2 (sys_db s).

Record serial (s : System St) : Prop := {
  se_run : db_run (concat (deltas s).*2) db0 (sys_db s);
  se_own : ce_manifest <$> log s = concat (own_extents <$> deltas s);
  se_txn : Forall txn_of (units s);
  se_log : Forall (committed_at s) (log s) }.

Lemma serial_same (s s' : System St) : serial s -> sys_db s' = sys_db s -> deltas s' = deltas s -> log s' = log s ->
  Forall txn_of (units s') -> serial s'.
Proof. intros [Hr Ho Ht Hl] Hdb Hde Hlog Ht'. split; unfold committed_at in *; rewrite ?Hdb, ?Hde, ?Hlog; done. Qed.

Lemma committed_later s ds db b lg : db_step ds (sys_db s) db ->
  Forall (committed_at s) lg -> Forall (committed_at (with_delta db (deltas s ++ [(b, ds)]) s)) lg.
Proof.
  intros Hst Hl. eapply Forall_impl; [exact Hl|]. intros ce (pre & ms & post & db1 & db2 & Hde & Hm & Hr1 & Hst1 & Hg & Hr2).
  exists pre, ms, (post ++ [(b, ds)]), db1, db2. simpl. split_and!; try done.
  - by rewrite Hde, <-app_assoc.
  - rewrite fmap_app, concat_app. simpl. rewrite app_nil_r. by eapply run_step.
Qed.

Lemma committed_now s table snap ms db (js : list PendingExtent) : db_run (concat (deltas s).*2) db0 (sys_db s) ->
  ms = pe_manifest <$> js -> Forall (fun m => m_table_id m = table) ms ->
  db_step [DCommit DEFAULT_TENANT ms []] (sys_db s) db -> group_committed snap table ms db ->
  Forall (committed_at (with_delta db (deltas s ++ [(true, [DCommit DEFAULT_TENANT ms []])]) s)) (committed_extent snap <$> js).
Proof.
  intros Hr -> Hms Hst Hg. apply Forall_fmap, Forall_forall. intros j Hj.
  assert (m_table_id (pe_manifest j) = table) as Hjt.
  { rewrite Forall_forall in Hms. by apply Hms, list_elem_of_fmap_2. }
  simpl in Hjt. exists (deltas s), (pe_manifest <$> js), [], (sys_db s), db. simpl. rewrite Hjt. split_and!; try done; [by apply list_elem_of_fmap_2|constructor].
Qed.

Lemma commit_serial rqs s s' : commit_step coordinated s s' ->
  Forall (fun u => Forall (fun j => m_table_id (pe_manifest j) = u_table u) (u_jobs u)) (units s) -> contents rqs s -> serial s -> serial s'.
Proof.
  intros Hst Htab Hc Hse. pose proof Hse as [Hr Ho Ht Hl].
  destruct Hst as [s table jobs rest Hfl _|s u n txn l1 l2 Hul _ _ Hb|s u n txn snap man now l1 l2 Hul _ _ _
    |s u txn snap man now snapshot db l1 l2 Hul Hutxn Hsnap Hman Hcm|s u l1 l2 Hul].
  all: try (rewrite Hul in Ht; apply Forall_app in Ht as [Ht1 [Htu Ht2]%Forall_cons]).
  1-3,5: apply (serial_same s); try done; simpl; apply Forall_app; split; try done; constructor; try done.
  - destruct (begin_ok _ _ _ _ Hb) as (t & schema & _ & _ & _ & _ & Htxn). intros txn' [= <-]. rewrite Htxn.
    clear. set (txn0 := {| added := [] |}). simpl.
    assert (forall js txn, let txn' := foldl (fun txn j => add_extent (pe_manifest j) txn) txn js in
      txn_tenant txn' = txn_tenant txn /\ txn_table_id txn' = txn_table_id txn /\ added txn' = added txn ++ (pe_manifest <$> js) /\
      removed txn' = removed txn) as Hall.
    { induction js as [|j js IH]; intros txn1; simpl; [by rewrite app_nil_r|]. destruct (IH (add_extent (pe_manifest j) txn1)) as (-> & -> & -> & ->).
      simpl. by rewrite <-app_assoc. }
    destruct (Hall (u_jobs u) txn0) as (-> & -> & -> & ->). done.
  - rewrite Hul in Htab. apply Forall_app in Htab as [_ [Htab _]%Forall_cons].
    destruct (Htu txn Hutxn) as (Hten & Htb & Hadd & Hrem).
    assert (Forall (fun m => m_table_id m = u_table u) (pe_manifest <$> u_jobs u)) as Hms by (by apply Forall_fmap).
    destruct (commit_group_ok _ _ _ _ _ _ _ _ _ _ Hms Hten Htb Hadd Hrem Hsnap Hman Hcm) as [Hst Hg]. split; simpl.
    + rewrite fmap_app, concat_app. simpl. by eapply run_step.
    + rewrite fmap_app, Ho, fmap_app, concat_app. cbn [concat fmap list_fmap]. rewrite app_nil_r. f_equal.
      unfold own_extents. cbn [fst snd fmap list_fmap concat]. by rewrite app_nil_r, <-list_fmap_compose.
    + by apply Forall_app.
    + apply Forall_app. split; [by apply (committed_later s)|by eapply committed_now].
Qed.

Lemma other_serial s s' : other_step s s' -> serial s -> serial s'.
Proof.
  intros [s0 ds db Hst] [Hr Ho Ht Hl]. split; simpl; try done.
  - rewrite fmap_app, concat_app. simpl. rewrite app_nil_r. by eapply run_step.
  - rewrite Ho, fmap_app, concat_app. simpl. by rewrite app_nil_r.
  - by apply (committed_later s0).
Qed.

Lemma rest_serial s s' : caller_step cfg s s' \/ timer_step cfg s s' \/ flush_step format s s' -> serial s -> serial s'.
Proof. intros Hst Hse. destruct Hst as [Hst|[Hst|Hst]]; destruct Hst; (apply (serial_same s); [done..|]); apply Hse. Qed.
End Serial.

(** * Once, in time, to the end *)

(** The acknowledged waiters, and those whose extent is committed already. *)
Definition acknowledged (l : list Answered) : list nat := omap (fun a : Answered => (fun _ => a.1) <$> a.2) l.
Definition committed_waiters (f : Flush) : list nat :=
  match flush_stage f with Committed d _ _ => ds_waiters d | _ => [] end.
Definition in_committed (fs : list Flush) : list nat := concat (committed_waiters <$> fs).
Definition log_waiters (lg : list Committed_extent) : list nat := concat (ce_waiters <$> lg).

Lemma acknowledged_app l k : acknowledged (l ++ k) = acknowledged l ++ acknowledged k.
Proof. apply omap_app. Qed.
Lemma acknowledged_dropped l : acknowledged (dropped l) = [].
Proof. unfold acknowledged, dropped. induction l; [done|]. exact IHl. Qed.
Lemma acknowledged_all o (l : list nat) : acknowledged ((fun i => (i, Some o)) <$> l) = l.
Proof. unfold acknowledged. induction l as [|i l IH]; [done|]. exact (f_equal (cons i) IH). Qed.
Lemma in_committed_app fs gs : in_committed (fs ++ gs) = in_committed fs ++ in_committed gs.
Proof. unfold in_committed. by rewrite fmap_app, concat_app. Qed.
Lemma in_committed_cons f fs : in_committed (f :: fs) = committed_waiters f ++ in_committed fs.
Proof. done. Qed.
Lemma in_committed_called os : in_committed ((fun t => call_flush None t) <$> os) = [].
Proof. unfold in_committed. induction os; [done|]. exact IHos. Qed.
Lemma in_committed_written table js : in_committed (written_flush table <$> js) = [].
Proof. unfold in_committed. induction js; [done|]. exact IHjs. Qed.
Lemma in_committed_committed table snap js :
  in_committed (committed_flush table snap <$> js) = concat ((fun j => ds_waiters (pe_drained j)) <$> js).
Proof. unfold in_committed. by rewrite <-list_fmap_compose. Qed.
Lemma log_waiters_app l k : log_waiters (l ++ k) = log_waiters l ++ log_waiters k.
Proof. unfold log_waiters. by rewrite fmap_app, concat_app. Qed.
Lemma log_waiters_committed `{Chrono} snap js : log_waiters (committed_extent snap <$> js) = concat ((fun j => ds_waiters (pe_drained j)) <$> js).
Proof. unfold log_waiters. by rewrite <-list_fmap_compose. Qed.

#[export] Hint Rewrite acknowledged_app acknowledged_dropped acknowledged_all in_committed_app in_committed_cons in_committed_called
  in_committed_written in_committed_committed log_waiters_app @log_waiters_committed : accounts.

Lemma occ_acknowledged i l : (occ i (acknowledged l) <= occ i l.*1)%nat.
Proof.
  induction l as [|[j [o|]] l IH]; [done| |].
  - change (occ i (j :: acknowledged l) <= occ i (j :: l.*1))%nat. rewrite (occ_cons i j), (occ_cons i j l.*1). lia.
  - change (occ i (acknowledged l) <= occ i (j :: l.*1))%nat. rewrite (occ_cons i j). lia.
Qed.
Lemma occ_in_committed i fs : (occ i (in_committed fs) <= occ i (in_flushes fs))%nat.
Proof.
  induction fs as [|f fs IH]; [done|]. rewrite in_committed_cons, in_flushes_cons, !occ_app.
  unfold committed_waiters, flush_waiters. destruct (flush_stage f); simpl; rewrite ?occ_nil; lia.
Qed.

Lemma occ_Permutation l k : (forall i, occ i l = occ i k) -> l ≡ₚ k.
Proof.
  revert k. induction l as [|x l IH]; intros k Ho.
  - destruct k as [|y k]; [done|]. specialize (Ho y). rewrite occ_nil, occ_cons, occ_self in Ho. lia.
  - assert (x ∈ k) as (k1 & k2 & ->)%list_elem_of_split by (apply occ_elem; rewrite <-Ho, occ_cons, occ_self; lia).
    rewrite <-Permutation_middle. f_equiv. apply IH. intros i. specialize (Ho i).
    rewrite occ_cons, occ_app, (occ_cons i x k2) in Ho. rewrite occ_app. lia.
Qed.

Section Once.
  Context `{ArrayMemory} `{Codec} `{Database} `{ArrowText} `{Chrono} `{UuidParse} {St} `{ObjectStore St}.
  Context (cfg : StagingConfig) (format : TelemetryFormat) (coordinated : bool).

Definition log_sum (s : System St) : Prop :=
  forall i, occ i (log_waiters (log s)) = (occ i (acknowledged (answers s)) + occ i (in_committed (flushes s)))%nat.

Lemma flush_log_sum s s' : flush_step format s s' -> log_sum s -> log_sum s'.
Proof.
  intros Hst Hs j. specialize (Hs j).
  destruct Hst as [s f l1 l2 Hf Hstg _|s f d buf l1 l2 Hf Hstg Ht|s f d name l1 l2 Hf Hstg _|s f d l1 l2 Hf Hstg _|s f d name t l1 l2 Hf Hstg _
    |s f d name l1 l2 Hf Hstg _|s f d t id result st l1 l2 Hf Hstg _ _|s f d t id l1 l2 Hf Hstg _ _|s f d l1 l2 Hf Hstg
    |s f d result snapshot l1 l2 Hf Hstg].
  9: destruct Hstg as [Hstg|[name Hstg]].
  all: rewrite Hf in Hs; simpl; autorewrite with accounts in *; unfold committed_waiters, at_stage in *; simpl in *; rewrite Hstg in Hs;
    simpl in *; rewrite ?occ_nil in *; lia.
Qed.

Lemma commit_log_sum s s' : commit_step coordinated s s' -> log_sum s -> log_sum s'.
Proof.
  intros Hst Hs j. specialize (Hs j).
  destruct Hst as [s table jobs rest Hf _|s u n txn l1 l2 Hu _ _ _|s u n txn snap man now l1 l2 Hu _ _ _
    |s u txn snap man now snapshot db l1 l2 Hu _ _ _ _|s u l1 l2 Hu]; simpl; autorewrite with accounts; try lia.
  assert (in_committed (flushes s) ≡ₚ in_committed ((written_flush table <$> jobs) ++ rest)) as Hp by (unfold in_committed; by rewrite Hf).
  rewrite Hp in Hs. autorewrite with accounts in Hs. lia.
Qed.

Lemma system_log_sum s s' : system_step cfg format coordinated s s' -> log_sum s -> log_sum s'.
Proof.
  intros [Hst|[Hst|[Hst|[Hst|Hst]]]]; [| |by apply flush_log_sum|by apply commit_log_sum|]; intros Hs j; specialize (Hs j).
  - destruct Hst as [| | | |s i r [] buf Hi Hpush| |]; simpl; autorewrite with accounts; unfold in_committed in *; simpl; rewrite ?occ_nil; lia.
  - destruct Hst; simpl; autorewrite with accounts; lia.
  - by destruct Hst.
Qed.

(** No request is in two extents. *)
Lemma log_once s : accounted s -> log_sum s -> NoDup (log_waiters (log s)).
Proof.
  intros [Ho _ _ Hsum] Hlog. apply occ_NoDup. intros i. rewrite Hlog. rewrite occ_NoDup in Ho. specialize (Ho i). rewrite Hsum in Ho.
  pose proof (occ_acknowledged i (answers s)). pose proof (occ_in_committed i (flushes s)). lia.
Qed.

(** ** The age of a request *)

Record timely (s : System St) : Prop := {
  ti_first t e : buffer s !! t = Some e -> ts_first_queued_at e <= time s;
  ti_since t e i r since : buffer s !! t = Some e -> i ∈ ts_waiters e -> callers s !! i = Some (Awaiting r since) ->
    ts_first_queued_at e <= since }.

Lemma awaiting_resume o cs i r since : resume_owner o cs !! i = Some (Awaiting r since) -> cs !! i = Some (Awaiting r since).
Proof.
  unfold resume_owner. destruct o as [j|]; [|done]. destruct (cs !! j) as [[]|] eqn:Hj; try done.
  by rewrite list_lookup_insert_Some; intros [(_ & [=] & _)|[_ Hc]].
Qed.
Lemma awaiting_resumes os cs i r since : resume_owners os cs !! i = Some (Awaiting r since) -> cs !! i = Some (Awaiting r since).
Proof. induction os as [|o os IH]; [done|]. intros Hi%awaiting_resume. by apply IH. Qed.

Lemma timely_same (s s' : System St) : timely s -> buffer s' = buffer s -> time s <= time s' ->
  (forall i r since, callers s' !! i = Some (Awaiting r since) -> callers s !! i = Some (Awaiting r since)) -> timely s'.
Proof.
  intros [Hf Hs] Hb Ht Hc. split; rewrite ?Hb.
  - intros t e He. specialize (Hf t e He). lia.
  - intros t e i r since He Hi Haw%Hc. by eapply Hs.
Qed.

Lemma caller_timely s s' : caller_step cfg s s' -> timely s -> timely s'.
Proof.
  intros Hst Ht. destruct Hst as [s r _|s i r eid Hic Hn|s i r Hic _ _|s i r Hic _ _|s i r full buf Hic Hpush|s i r since a Hic Hans|s i r since Hic _];
    try (apply (timely_same s); simpl; [done|done|lia|]; intros j r' since'; rewrite ?lookup_snoc_Some, ?list_lookup_insert_Some; naive_solver).
  destruct Ht as [Hf Hs]. unfold push_request in Hpush. destruct (sum_batches _) as [rows bytes]. injection Hpush as _ <-. split; simpl.
  - intros t e [[<- <-]|[_ He]]%lookup_insert_Some; [|by apply (Hf t)]. simpl. destruct (buffer s !! tr_id (rq_table r)) eqn:Hb; simpl; [|lia]. by eapply Hf.
  - intros t e j r' since' He Hj. rewrite list_lookup_insert_Some. intros [(<- & [= <- <-] & _)|[Hne Haw]].
    + apply lookup_insert_Some in He as [[<- <-]|[_ He]]; [|by apply (Hf t)]. simpl.
      destruct (buffer s !! tr_id (rq_table r)) eqn:Hb; simpl; [|lia]. by eapply Hf.
    + apply lookup_insert_Some in He as [[<- <-]|[_ He]]; [|by eapply Hs]. simpl in *.
      destruct (buffer s !! tr_id (rq_table r)) as [e|] eqn:Hb; simpl in *.
      * apply elem_of_app in Hj as [Hj|Hj%list_elem_of_singleton]; [by eapply Hs|congruence].
      * apply list_elem_of_singleton in Hj. congruence.
Qed.

Lemma take_timely s table d b' : take_staged table (time s) (buffer s) = (Some d, b') -> timely s -> timely (with_buffer b' s).
Proof.
  intros Ht [Hf Hs]. unfold take_staged in Ht. destruct (buffer s !! table) as [e0|] eqn:He0; [|done]. destruct (ts_batches e0) as [|b0 bs0]; [done|].
  injection Ht as _ <-. split; simpl.
  - intros t e [[<- <-]|[_ He]]%lookup_insert_Some; [simpl; lia|by apply (Hf t)].
  - intros t e i r since [[<- <-]|[_ He]]%lookup_insert_Some; [by intros Hi%not_elem_of_nil|by eapply Hs].
Qed.

Lemma system_timely s s' : system_step cfg format coordinated s s' -> timely s -> timely s'.
Proof.
  intros [Hst|[Hst|[Hst|[Hst|Hst]]]] Ht; [by eapply caller_timely|..].
  1,3,4: destruct Hst; apply (timely_same s); simpl; try done; try lia; intros i0 r0 since0; apply awaiting_resumes.
  destruct Hst as [| s f d buf l1 l2 Hf Hstg Htake| | | | | | | |]; try (apply (timely_same s); simpl; try done; try lia; intros i0 r0 since0; apply awaiting_resume).
  pose proof (take_timely _ _ _ _ Htake Ht) as [Hf' Hs']. by split.
Qed.

Lemma carries_nonempty rqs t ws bs : carries rqs t ws bs -> ws <> [] -> bs <> [].
Proof.
  intros (rs & Hrs & Hok & ->) Hws. destruct Hrs as [|i r ws rs _ _]; [done|]. apply Forall_cons in Hok as [[_ Hne] _].
  rewrite fmap_cons. cbn [concat]. by destruct (rq_batches r).
Qed.

(** A request of that age makes its table due. *)
Lemma aged_expired rqs s t e i r since : contents rqs s -> timely s -> buffer s !! t = Some e -> i ∈ ts_waiters e ->
  callers s !! i = Some (Awaiting r since) -> since + flush_max_age cfg <= time s -> t ∈ expired cfg (time s) (buffer s).
Proof.
  intros Hc Ht He Hi Haw Hage. unfold expired. apply list_elem_of_fmap. exists (t, e). split; [done|]. apply list_elem_of_filter.
  split; [|by apply elem_of_map_to_list]. simpl. split.
  - destruct (co_buffer _ _ Hc t e He) as [Hcar _]. unfold staged_nonempty.
    assert (ts_batches e <> []) as Hne; [|by destruct (ts_batches e)]. eapply carries_nonempty; [exact Hcar|].
    intros Hnil. rewrite Hnil in Hi. by apply not_elem_of_nil in Hi.
  - pose proof (ti_since s Ht t e i r since He Hi Haw). lia.
Qed.
End Once.

(** * Flushes come to an end *)

Section Progress.
  Context `{ArrayMemory} `{Codec} `{Database} `{ArrowText} `{Chrono} `{UuidParse} {St} `{ObjectStore St}.
  Context (cfg : StagingConfig) (format : TelemetryFormat) (coordinated : bool).

(** Callers, timer and the others stand still. *)
Definition work_step (s s' : System St) : Prop := flush_step format s s' \/ commit_step coordinated s s'.

Definition flush_weight (f : Flush) : nat :=
  match flush_stage f with
  | Called => 56 | Taken _ => 55 | Named _ _ => 54 | Found _ _ => 53 | Written _ _ _ => 52 | Committed _ _ _ => 1
  end.
(** An attempt has two calls. *)
Definition unit_weight (u : Unit) : nat :=
  (2 + 2 * u_left u + (match u_txn u with None => 1 | Some _ => 0 end) + length (u_jobs u))%nat.
Definition work (s : System St) : nat := (sum_list_with flush_weight (flushes s) + sum_list_with unit_weight (units s))%nat.

Lemma weight_written table js : sum_list_with flush_weight (written_flush table <$> js) = (52 * length js)%nat.
Proof. induction js as [|j js IH]; [done|]. rewrite fmap_cons. simpl. rewrite IH. unfold flush_weight. simpl. lia. Qed.
Lemma weight_committed table snap js : sum_list_with flush_weight (committed_flush table snap <$> js) = length js.
Proof. induction js as [|j js IH]; [done|]. rewrite fmap_cons. simpl. by rewrite IH. Qed.

Lemma may_start_nonempty jobs us : may_start coordinated jobs us -> (0 < length jobs)%nat.
Proof. unfold may_start. destruct coordinated; [intros [_ Hne]; destruct jobs; [done|simpl; lia]|lia]. Qed.

Lemma work_decreases s s' : work_step s s' -> (work s' < work s)%nat.
Proof.
  unfold work. intros [Hst|Hst].
  - destruct Hst as [s f l1 l2 Hf Hstg _|s f d buf l1 l2 Hf Hstg Ht|s f d name l1 l2 Hf Hstg _|s f d l1 l2 Hf Hstg _|s f d name t l1 l2 Hf Hstg _
      |s f d name l1 l2 Hf Hstg _|s f d t id result st l1 l2 Hf Hstg _ _|s f d t id l1 l2 Hf Hstg _ _|s f d l1 l2 Hf Hstg
      |s f d result snapshot l1 l2 Hf Hstg].
    9: destruct Hstg as [Hstg|[name Hstg]].
    all: simpl; rewrite Hf, !sum_list_with_app; cbn [sum_list_with foldr]; unfold flush_weight, at_stage; simpl; rewrite ?Hstg; lia.
  - destruct Hst as [s table jobs rest Hf Hmay|s u n txn l1 l2 Hu Hleft Htxn _|s u n txn snap man now l1 l2 Hu Hleft Htxn _
      |s u txn snap man now snapshot db l1 l2 Hu Htxn _ _ _|s u l1 l2 Hu]; simpl.
    2-5: rewrite Hu, ?sum_list_with_app, ?weight_committed; simpl; unfold unit_weight, with_txn; simpl; rewrite ?Hleft, ?Htxn; simpl; lia.
    rewrite Hf, !sum_list_with_app, weight_written. simpl. apply may_start_nonempty in Hmay. unfold unit_weight, MAX_ATTEMPTS. simpl. lia.
Qed.

Lemma work_progress s : flushes s <> [] \/ units s <> [] -> exists s', work_step s s'.
Proof.
  intros Hne. destruct (units s) as [|u us] eqn:Hu; [|eexists; right; by apply (step_failed _ _ u [] us)].
  destruct (flushes s) as [|f fs] eqn:Hf; [by destruct Hne|]. destruct (flush_stage f) as [|d|d name|d t|d t w|d w snap] eqn:Hstg.
  - destruct (take_staged (flush_table f) (time s) (buffer s)) as [[d|] buf] eqn:Ht; eexists; left.
    + by apply (step_take _ _ f d buf [] fs).
    + apply (step_idle _ _ f [] fs); [done..|]. by rewrite Ht.
  - eexists. left. apply (step_fault _ _ f d [] fs); [done|by left].
  - eexists. left. apply (step_fault _ _ f d [] fs); [done|right; by exists name].
  - pose proof (infinite_is_fresh (drawn s)) as Hfresh.
    destruct (write_batches format (fresh (drawn s)) (ds_schema d) (ds_batches d) (sys_store s)) as [[result st]| | |] eqn:Hw; eexists; left.
    + by apply (step_write _ _ f d t (fresh (drawn s)) result st [] fs).
    + apply (step_unwritten _ _ f d t (fresh (drawn s)) [] fs); [done..|]. intros x. by rewrite Hw.
    + apply (step_unwritten _ _ f d t (fresh (drawn s)) [] fs); [done..|]. intros x. by rewrite Hw.
    + apply (step_unwritten _ _ f d t (fresh (drawn s)) [] fs); [done..|]. intros x. by rewrite Hw.
  - eexists. right. apply (step_start _ _ (flush_table f) [{| pe_owner := flush_owner f; pe_drained := d; pe_table := t; pe_result := w |}] fs).
    + rewrite Hf. destruct f as [tb ow sg]. simpl in *. by subst.
    + unfold may_start. rewrite Hu. by destruct coordinated.
  - eexists. left. by apply (step_wake _ _ f d w snap [] fs).
Qed.

(** Tables with waiters in the buffer that a flush is called for. *)
Definition due (ts : list Uuid) (s : System St) : Prop :=
  forall t e, t ∈ ts -> buffer s !! t = Some e -> ts_waiters e <> [] ->
    exists f, f ∈ flushes s /\ flush_table f = t /\ flush_stage f = Called.

Lemma due_same ts (s s' : System St) : due ts s -> buffer s' = buffer s ->
  (forall f, f ∈ flushes s -> flush_stage f = Called -> f ∈ flushes s') -> due ts s'.
Proof. intros Hd Hb Hf t e Ht He Hne. rewrite Hb in He. destruct (Hd t e Ht He Hne) as (f & Hin & Htab & Hstg). exists f. auto. Qed.

Lemma work_due rqs ts s s' : work_step s s' -> contents rqs s -> due ts s -> due ts s'.
Proof.
  intros [Hst|Hst] Hc Hd.
  - destruct Hst as [s f l1 l2 Hf Hstg Ht|s f d buf l1 l2 Hf Hstg Ht|s f d name l1 l2 Hf Hstg _|s f d l1 l2 Hf Hstg _|s f d name t l1 l2 Hf Hstg _
      |s f d name l1 l2 Hf Hstg _|s f d t id result st l1 l2 Hf Hstg _ _|s f d t id l1 l2 Hf Hstg _ _|s f d l1 l2 Hf Hstg
      |s f d result snapshot l1 l2 Hf Hstg].
    9: destruct Hstg as [Hstg|[name Hstg]].
    3-11: apply (due_same ts s); [done|done|]; intros f'; rewrite Hf; simpl; rewrite !elem_of_app, ?elem_of_cons; intros [?|[->|?]] ?; [tauto|congruence|tauto].
    + intros t e Hin He Hne. simpl in He. destruct (Hd t e Hin He Hne) as (f' & Hf' & Htab & Hstg'). exists f'. split; [|done].
      rewrite Hf in Hf'. apply elem_of_app in Hf' as [Hf'|[->|Hf']%elem_of_cons]; [by apply elem_of_app; left| |by apply elem_of_app; right].
      exfalso. destruct (co_buffer _ _ Hc t e He) as [Hcar _]. pose proof (carries_nonempty _ _ _ _ Hcar Hne) as Hbs.
      unfold take_staged in Ht. rewrite Htab, He in Ht. by destruct (ts_batches e).
    + intros t e Hin He Hne. simpl in He. unfold take_staged in Ht. destruct (buffer s !! flush_table f) as [e0|] eqn:He0; [|done].
      destruct (ts_batches e0); [done|]. injection Ht as _ <-. apply lookup_insert_Some in He as [[_ <-]|[Hne' He]]; [done|].
      destruct (Hd t e Hin He Hne) as (f' & Hf' & Htab & Hstg'). exists f'. split; [|done].
      rewrite Hf in Hf'. apply elem_of_app in Hf' as [Hf'|[->|Hf']%elem_of_cons]; [by apply elem_of_app; left|done|].
      apply elem_of_app. right. by apply elem_of_cons; right.
  - destruct Hst as [s table jobs rest Hf _|s u n txn l1 l2 Hu _ _ _|s u n txn snap man now l1 l2 Hu _ _ _
      |s u txn snap man now snapshot db l1 l2 Hu _ _ _ _|s u l1 l2 Hu]; apply (due_same ts s); try done.
    + intros f. rewrite Hf, elem_of_app. intros [(j & -> & _)%list_elem_of_fmap|Hin] Hstg; done.
    + intros f Hin _. apply elem_of_app. by left.
Qed.
End Progress.

(** * Reachable states *)

Section Reachable.
  Context `{ArrayMemory} `{Codec} `{Database} `{ArrowText} `{Chrono} `{UuidLaws} {St} `{ObjectStoreLaws St}.
  Context (cfg : StagingConfig) (format : TelemetryFormat) (coordinated : bool) (Hcodec : codec_faithful).
  Context (db0 : Db).

Record system_inv (s : System St) : Prop := {
  si_ok : Forall (fun r => Forall batch_ok (rq_batches r)) (requests_of (callers s));
  si_accounted : accounted s;
  si_contents : contents (requests_of (callers s)) s;
  si_durable : durable format (requests_of (callers s)) s;
  si_serial : serial db0 s;
  si_log : log_sum s;
  si_timely : timely s }.

Definition reachable (st : St) (t : Z) : System St -> Prop := rtc (system_step cfg format coordinated) (initial db0 st t).

Lemma step_durable s s' : system_step cfg format coordinated s s' -> system_inv s -> durable format (requests_of (callers s')) s'.
Proof.
  intros Hst [Hok _ Hc Hd _ _ _]. destruct (system_grows cfg format coordinated s s' Hst) as (new & -> & _). apply durable_grow.
  destruct Hst as [Hst|[Hst|[Hst|[Hst|Hst]]]]; [by eapply caller_durable|by eapply timer_durable|by eapply flush_durable|by eapply commit_durable|].
  destruct Hst. by destruct Hd.
Qed.

Lemma step_serial s s' : system_step cfg format coordinated s s' -> system_inv s -> serial db0 s'.
Proof.
  intros Hst [_ _ Hc Hd Hse _ _]. destruct Hst as [Hst|[Hst|[Hst|[Hst|Hst]]]].
  - apply (rest_serial cfg format db0 s); [by left|done].
  - apply (rest_serial cfg format db0 s); [by right; left|done].
  - apply (rest_serial cfg format db0 s); [by right; right|done].
  - eapply commit_serial; [done| |done|done]. eapply Forall_impl; [exact (du_units _ _ _ Hd)|]. intros u Hu.
    eapply Forall_impl; [exact Hu|]. intros j [Hh _]. apply Hh.
  - by eapply other_serial.
Qed.

Lemma step_inv s s' : system_step cfg format coordinated s s' -> system_inv s -> system_inv s'.
Proof.
  intros Hst Hi. pose proof Hi as [Hok Ha Hc Hd Hse Hl Ht]. split.
  - destruct (system_grows cfg format coordinated s s' Hst) as (new & -> & Hnew). by apply Forall_app.
  - by eapply system_accounted.
  - by eapply system_contents.
  - by eapply step_durable.
  - by eapply step_serial.
  - by eapply system_log_sum.
  - by eapply system_timely.
Qed.

Lemma initial_inv st t : os_inv st -> system_inv (initial db0 st t).
Proof.
  intros Hst. split; simpl; [constructor|apply initial_accounted| | | |done|]; split; simpl; try done; try constructor; try (by intros ? ?%lookup_empty_Some);
    try (intros i o Hin; by apply not_elem_of_nil in Hin).
Qed.

Lemma reachable_inv st t s : os_inv st -> reachable st t s -> system_inv s.
Proof.
  intros Hst Hr. assert (forall s1, rtc (system_step cfg format coordinated) s1 s -> system_inv s1 -> system_inv s) as Hall.
  { clear Hr. induction 1 as [|s1 s2 s3 Hstep _ IH]; [done|]. intros Hi. by eapply IH, step_inv. }
  by apply (Hall (initial db0 st t)), initial_inv.
Qed.

Lemma in_buffer i b : i ∈ buffer_waiters b -> exists t e, b !! t = Some e /\ i ∈ ts_waiters e.
Proof.
  unfold buffer_waiters. intros (l & Hl & Hi)%list_elem_of_In%in_concat. apply list_elem_of_In in Hl, Hi.
  apply list_elem_of_fmap in Hl as (e & -> & He). apply list_elem_of_fmap in He as ([t e'] & -> & Hin). exists t, e'.
  split; [by apply elem_of_map_to_list|done].
Qed.

(** Where a waiting caller is. *)
Lemma awaiting_somewhere s i r since : system_inv s -> callers s !! i = Some (Awaiting r since) ->
  i ∈ (answers s).*1 \/ i ∈ in_flushes (flushes s) \/ i ∈ in_units (units s) \/
  exists t e, buffer s !! t = Some e /\ i ∈ ts_waiters e.
Proof.
  intros [_ [_ Hp _ Hsum] _ _ _ _ _] Hi. specialize (Hp i _ Hi). simpl in Hp. apply occ_elem in Hp. rewrite Hsum in Hp.
  rewrite !occ_elem. destruct (decide (0 < occ i (buffer_waiters (buffer s)))%nat) as [Hb|Hb]; [|lia].
  right; right; right. by apply in_buffer, occ_elem.
Qed.

(** ** A tick *)

Definition ticked (ts : list Uuid) (s : System St) : System St := with_flushes (flushes s ++ (call_flush None <$> ts)) s.

(** What work leaves in the buffer was there before. *)
Definition left_over (s0 s : System St) : Prop :=
  time s = time s0 /\ (forall i r since, callers s !! i = Some (Awaiting r since) -> callers s0 !! i = Some (Awaiting r since)) /\
  forall t e i, buffer s !! t = Some e -> i ∈ ts_waiters e -> exists e0, buffer s0 !! t = Some e0 /\ i ∈ ts_waiters e0.

Lemma work_left_over s0 s s' : work_step format coordinated s s' -> left_over s0 s -> left_over s0 s'.
Proof.
  intros Hst (Ht & Hc & Hb). assert (forall t e i, buffer s' !! t = Some e -> i ∈ ts_waiters e -> exists e0, buffer s !! t = Some e0 /\ i ∈ ts_waiters e0) as Hb'.
  { destruct Hst as [Hst|Hst]; [|destruct Hst; simpl; eauto].
    destruct Hst as [| s f d buf l1 l2 Hf Hstg Htake| | | | | | | |]; simpl; eauto.
    intros t e i He Hi. unfold take_staged in Htake. destruct (buffer s !! flush_table f) as [e0|] eqn:He0; [|done].
    destruct (ts_batches e0); [done|]. injection Htake as _ <-. apply lookup_insert_Some in He as [[_ <-]|[_ He]]; [|eauto].
    by apply not_elem_of_nil in Hi. }
  split_and!.
  - rewrite <-Ht. by destruct Hst as [[]|[]].
  - intros i r since Hi. apply Hc. revert Hi. clear -Hst. destruct Hst as [[]|[]]; simpl; intros Hi; try done; first [by eapply awaiting_resume|by eapply awaiting_resumes].
  - intros t e i He Hi. destruct (Hb' t e i He Hi) as (e0 & He0 & Hi0). by eapply Hb.
Qed.

(** Once the timer has ticked and the flushes have run, every request of the
    given age is answered. *)
Lemma tick_answers s ts : system_inv s -> ts ≡ₚ expired cfg (time s) (buffer s) ->
  eventually (work_step format coordinated) (fun s' => flushes s' = [] /\ units s' = [] /\
    forall i r since, callers s' !! i = Some (Awaiting r since) -> since + flush_max_age cfg <= time s -> i ∈ (answers s').*1) (ticked ts s).
Proof.
  intros Hinv Hts. assert (system_inv (ticked ts s)) as Hinv1.
  { eapply step_inv; [|exact Hinv]. right. left. by apply step_tick. }
  set (I s' := system_inv s' /\ due ts s' /\ left_over s s').
  assert (I (ticked ts s)) as HI.
  { split_and!; [done| |].
    - intros t e Hin He _. exists (call_flush None t). split; [|done]. apply elem_of_app. right. by apply list_elem_of_fmap_2.
    - split; [done|]. split; [done|]. intros t e i He Hi. by exists e. }
  assert (forall s1 s2, work_step format coordinated s1 s2 -> I s1 -> I s2) as Hpres.
  { intros s1 s2 Hst (Hi & Hd & Hl). split_and!.
    - eapply step_inv; [|exact Hi]. right; right. destruct Hst as [Hst|Hst]; [by left|by right; left].
    - eapply work_due; [exact Hst|apply Hi|done].
    - by eapply work_left_over. }
  apply (eventually_weaken (fun s' => flushes s' = [] /\ units s' = []) _ I); [done| |done|].
  - intros s' (Hi & Hd & Htime & Hcal & Hbuf) [Hf Hu]. split_and!; [done..|]. intros i r since Haw Hage.
    destruct (awaiting_somewhere s' i r since Hi Haw) as [Hans|[Hin|[Hin|(t & e & He & Hin)]]]; [done| | |].
    + rewrite Hf in Hin. by apply not_elem_of_nil in Hin.
    + rewrite Hu in Hin. by apply not_elem_of_nil in Hin.
    + exfalso. destruct (Hbuf t e i He Hin) as (e0 & He0 & Hi0). pose proof (Hcal _ _ _ Haw) as Haw0.
      pose proof (aged_expired cfg _ s t e0 i r since (si_contents _ Hinv) (si_timely _ Hinv) He0 Hi0 Haw0 Hage) as Hexp. rewrite <-Hts in Hexp.
      destruct (Hd t e Hexp He) as (f & Hff & _); [intros Hn; rewrite Hn in Hin; by apply not_elem_of_nil in Hin|].
      rewrite Hf in Hff. by apply not_elem_of_nil in Hff.
  - apply (eventually_measure _ I work); [| | |done].
    + intros s' _. destruct (flushes s'), (units s'); [by left|right; by intros [? ?]..].
    + intros s' _ Hn. apply work_progress. destruct (flushes s'), (units s'); [by destruct Hn|by right|by left|by left].
    + intros s1 s2 Hi _ Hst. split; [by eapply Hpres|by eapply work_decreases].
Qed.
End Reachable.
