(* ===== verification/CatalogSample.v ===== *)
(** * A sample catalog

    Concrete functions for the libraries' parameters, worlds, a table with two
    extents, and two compaction workers that race: the inputs of the witnesses. *)

From stdpp Require Import base gmap strings list relations.
From Stdlib Require Import NArith ZArith Lia Ascii SpecFloat.
From S2P Require Import Prelude Bytes Arrow BlockStats ColumnStats Pushdown CatalogPrune TlmExtent SqlTable CatalogSchema.
From S2P Require Import SnapshotDb CatalogOps SnapshotSpec CommitCoordinator Compaction CompactionSpec.

Local Open Scope Z_scope.
Local Open Scope string_scope.
Local Open Scope list_scope.

(** ** The libraries *)

#[export] Instance database_fn : Database := {
  db_message column := "constraint failed: " +:+ column;
  uuid_text := show_N }.
#[export] Instance arrow_text_fn : ArrowText := { debug_type ty := match ty with OtherType n => n | _ => "Type" end }.
#[export] Instance try_new_text_fn : TryNewText := { try_new_error := "invalid argument" }.
#[export] Instance clock_fn : Chrono := {
  from_timestamp s n := Some (s * 10 ^ 9 + n); timestamp_nanos_opt t := Some t; parse_from_rfc3339 _ := None; utc_now := 0 }.

#[export] Instance f32_eq_dec : EqDecision spec_float.
Proof. solve_decision. Defined.
#[export] Instance Array_eq_dec : EqDecision Array.
Proof. solve_decision. Defined.
#[export] Instance RecordBatch_eq_dec : EqDecision RecordBatch.
Proof. solve_decision. Defined.
#[export] Instance ColStat_eq_dec : EqDecision ColStat.
Proof. solve_decision. Defined.
#[export] Instance BlockStats_eq_dec : EqDecision BlockStats.
Proof. solve_decision. Defined.

(** Codecs that know finitely many inputs, and name one by a byte. *)
Definition table_encode {A} `{EqDecision A} (known : list A) (x : A) : option bytes :=
  (fun ix => [ascii_of_nat ix.1]) <$> list_find (fun y => y = x) (take 200 known).
Definition table_decode {A} (known : list A) (data : bytes) : option A :=
  match data with [b] => take 200 known !! nat_of_ascii b | _ => None end.

Lemma table_roundtrip {A} `{EqDecision A} (known : list A) x data :
  table_encode known x = Some data -> table_decode known data = Some x /\ length data = 1%nat.
Proof.
  unfold table_encode, table_decode. destruct (list_find _ _) as [[i y]|] eqn:Hf; [|done]. intros [= <-].
  apply list_find_Some in Hf as (Hi & -> & _). split; [|done]. simpl.
  assert (i < 200)%nat as Hlt by (apply lookup_lt_Some in Hi; rewrite length_take in Hi; lia).
  by rewrite nat_ascii_embedding by lia.
Qed.

(** ** Extents with one column of numbers *)

Definition numbers : Schema := [{| f_name := "v"; f_type := Int64; f_nullable := true |}].
Definition numbers_batch (l : list (option Z)) : RecordBatch :=
  {| b_schema := numbers; b_columns := [Int64Array l]; b_num_rows := length l |}.
Definition batch_a : RecordBatch := numbers_batch [Some 1; None].
Definition batch_b : RecordBatch := numbers_batch [Some 7].

Definition stats_of (b : RecordBatch) : list BlockStats := match stats_for_batch b with Ret s => [s] | _ => [] end.

#[export] Instance table_codec : Codec := {
  ipc_accepts _ := true;
  ipc_file _ := table_encode [[batch_a]; [batch_b]; [batch_a; batch_b]];
  ipc_read := table_decode [[batch_a]; [batch_b]; [batch_a; batch_b]];
  stats_to_json := table_encode [stats_of batch_a; stats_of batch_b; stats_of batch_a ++ stats_of batch_b];
  stats_from_json := table_decode [stats_of batch_a; stats_of batch_b; stats_of batch_a ++ stats_of batch_b] }.

Lemma table_codec_roundtrip s bs stats : codec_roundtrip s bs stats.
Proof.
  split; intros data Hd.
  - by apply table_roundtrip in Hd as [? _].
  - apply table_roundtrip in Hd as [? ->]. split; [done|lia].
Qed.

(** ** Worlds *)

Definition fresh (l : list Uuid) : Uuid := (foldr N.max 0 l + 1)%N.
Lemma fresh_spec l : fresh l ∉ l.
Proof.
  assert (forall x, x ∈ l -> (x <= foldr N.max 0 l)%N) as Hmax.
  { induction l as [|y l IH]; intros x Hx; [by apply not_elem_of_nil in Hx|]. simpl.
    apply elem_of_cons in Hx as [->|Hx]; [lia|]. specialize (IH x Hx). lia. }
  intros Hin%Hmax. unfold fresh in Hin. lia.
Qed.

Definition world (env : nat -> Db -> Db) : World :=
  {| wd_env := env; wd_fault _ := None; wd_snapshot _ db := fresh (sn_id <$> snapshots db);
     wd_manifest _ db := fresh (mf_id <$> manifests db); wd_clock _ := 0 |}.
(** Nobody else acts. *)
Definition quiet : World := world (fun _ db => db).

Lemma world_lawful env : (forall k db, exists ds, db_run ds db (env k db)) -> lawful (world env).
Proof. intros He. split; [done|intros k db; apply fresh_spec..]. Qed.
Lemma quiet_lawful : lawful quiet.
Proof. apply world_lawful. intros k db. exists []. constructor. Qed.

(** ** A table with two extents *)

Definition format_ : TelemetryFormat := {| path_prefix := "pensieve"; tenant_segment := "" |}.

(** Write the batches as an extent of the table. *)
Definition write (id : N) (bs : list RecordBatch) (st : gmap string bytes) : ExtentManifest * gmap string bytes :=
  match w ← for_each append bs (start_extent format_ id numbers); finish_extent show_N w st with
  | Ret (result, st) => (table_result_to_manifest 5 6 result, st)
  | _ => (table_result_to_manifest 5 6 {| wr_extent_id := 0; wr_object_path := ""; wr_byte_size := 0; wr_row_count := 0;
            wr_block_count := 0; wr_min_timestamp_nanos := None; wr_max_timestamp_nanos := None; wr_present_paths := [];
            wr_column_stats := JNull |}, st)
  end.
Definition wrote_a : ExtentManifest * gmap string bytes := Eval vm_compute in write 11 [batch_a] ∅.
Definition wrote_b : ExtentManifest * gmap string bytes := Eval vm_compute in write 12 [batch_b] wrote_a.2.
Definition m_a : ExtentManifest := wrote_a.1.
Definition m_b : ExtentManifest := wrote_b.1.
Definition store0 : gmap string bytes := wrote_b.2.

Definition with_database : Db := (create_database_in_tenant 4 DEFAULT_TENANT "main" empty_db).2.
Definition with_table : Db := Eval vm_compute in
  (create_table_in_tenant 5 6 7 DEFAULT_TENANT 4 "events" numbers with_database).2.

Definition ingest_jobs : list CommitJob :=
  [{| table_id := 5; manifest := m_a; job_rows := 2; job_bytes := 10; table_label := "events"; responder := 0 |};
   {| table_id := 5; manifest := m_b; job_rows := 1; job_bytes := 10; table_label := "events"; responder := 1 |}].
Definition ingested : list Answer * nat * Db := Eval vm_compute in commit_one_table_group quiet 5 ingest_jobs 0 with_table.
Definition db0 : Db := ingested.2.

Definition events : TableRef :=
  {| tr_id := 5; tr_database := 4; tr_name := "events"; tr_current_snapshot := 8; tr_schema_snapshot := 6; tr_schema := numbers |}.

(** ** Two workers on one task list *)

(** The first worker merges, up to its commit. *)
Definition merge_result (extent_id : N) (st : gmap string bytes) : ExtentManifest * gmap string bytes :=
  match merge_extents numbers [m_a; m_b] (start_extent format_ extent_id numbers) 0 0 st with
  | (Ret (w, _, _), st) =>
      match finish_extent show_N w st with
      | Ret (result, st) => (new_manifest_from_write events result (next_compaction_level [m_a; m_b]), st)
      | _ => (m_a, st)
      end
  | (_, st) => (m_a, st)
  end.
Definition merged_first : ExtentManifest * gmap string bytes := Eval vm_compute in merge_result 21 store0.

(** Its commit falls between the merge of the second worker and that one's commit. *)
Definition first_commits (k : nat) (db : Db) : Db :=
  match k with
  | O => (commit_with_retry quiet 5 merged_first.1 [11%N; 12%N] 3 20 MAX 0 db).2
  | _ => db
  end.
Definition racing : World := world first_commits.
Definition merged_twice : outcome CompactionError unit * nat * Db * gmap string bytes := Eval vm_compute in
  merge_and_commit racing format_ show_N 22 events [m_a; m_b] 0 db0 merged_first.2.

(** The second worker alone. *)
Definition merged_once : outcome CompactionError unit * nat * Db * gmap string bytes := Eval vm_compute in
  merge_and_commit quiet format_ show_N 22 events [m_a; m_b] 0 db0 store0.

(** ** Runs of the sample *)

Lemma quiet_others db db' : others quiet db db' -> db' = db.
Proof. by induction 1 as [|db1 db2 db3 [k ->] _ IH]. Qed.

Lemma db0_run : db_run [DCommit DEFAULT_TENANT [m_a; m_b] []] empty_db db0.
Proof.
  assert (db_run ([] ++ []) empty_db with_table) as H1.
  { eapply run_step; [apply db_run_once, (do_database 4 DEFAULT_TENANT "main")|].
    apply (do_table 5 6 7 DEFAULT_TENANT 4 "events" numbers with_database); vm_compute; apply not_elem_of_nil. }
  destruct (commit_attempts_outcome quiet 5 ingest_jobs MAX_ATTEMPTS 0 with_table quiet_lawful) as [(s & db1 & Ho & Hst & _)|[_ Ha]].
  - by repeat constructor.
  - apply quiet_others in Ho as ->. exact (run_step _ _ _ _ _ H1 Hst).
  - exfalso. apply Forall_cons in Ha as [[e He] _]. vm_compute in He. done.
Qed.

Lemma db0_wf : db_wf db0.
Proof. eapply db_run_wf; [apply db0_run|apply empty_db_wf]. Qed.

(** A commit keeps the snapshots and the identity of the tables. *)
Lemma commit_keeps txn summary snap man now db :
  (forall s, s ∈ snapshots db -> s ∈ snapshots (commit txn summary snap man now db).2) /\
  (forall t, t ∈ tables db -> exists t', t' ∈ tables (commit txn summary snap man now db).2 /\ tb_id t' = tb_id t /\ tb_tenant t' = tb_tenant t).
Proof.
  destruct (commit txn summary snap man now db) as [[e|s] db'] eqn:Hc; simpl.
  - rewrite (commit_error _ _ _ _ _ _ _ _ Hc). split; [done|]. intros t Ht. by exists t.
  - apply commit_ok in Hc as [_ [(p & _ & _ & _ & sm & Hsn) _ [Htab _] _]]. split.
    + intros x Hx. rewrite Hsn. set_solver.
    + intros t Ht. rewrite Htab. eexists. split; [apply elem_of_update_rows; by exists t|]. by case_match.
Qed.

(** A rival that commits to the table before every second call. *)
Definition rival_summary : SnapshotSummary :=
  {| rows_added := 0; rows_removed := 0; bytes_added := 0; bytes_removed := 0; operation := "ingest" |}.
Definition rival_commit (db : Db) : Db :=
  match begin_snapshot_in_tenant DEFAULT_TENANT 5 db with
  | inr txn => (commit txn rival_summary (fresh (sn_id <$> snapshots db)) (fresh (mf_id <$> manifests db)) 0 db).2
  | inl _ => db
  end.
Definition rival : World := world (fun k db => if Nat.odd k then rival_commit db else db).

Lemma rival_lawful : lawful rival.
Proof.
  apply world_lawful. intros k db. destruct (Nat.odd k); [|exists []; constructor]. unfold rival_commit.
  destruct (begin_snapshot_in_tenant _ _ db) as [e|txn] eqn:Hb; [exists []; constructor|].
  destruct (begin_ok _ _ _ _ Hb) as (t & schema & _ & _ & _ & _ & Htxn).
  destruct (commit txn _ _ _ _ db) as [r db'] eqn:Hc. eexists. apply db_run_once.
  eapply do_commit; [|apply fresh_spec|apply fresh_spec|exact Hc]. rewrite Htxn. constructor.
Qed.

Lemma rival_no_drop : no_drop rival.
Proof.
  assert (forall db, (forall s, s ∈ snapshots db -> s ∈ snapshots (rival_commit db)) /\
    forall t, t ∈ tables db -> exists t', t' ∈ tables (rival_commit db) /\ tb_id t' = tb_id t /\ tb_tenant t' = tb_tenant t) as Hk.
  { intros db. unfold rival_commit. destruct (begin_snapshot_in_tenant _ _ db) as [e|txn]; [|apply commit_keeps].
    split; [done|]. intros t Ht. by exists t. }
  split; intros k db; simpl; destruct (Nat.odd k); try apply Hk; [done|]. intros t Ht. by exists t.
Qed.

Lemma racing_lawful : lawful racing.
Proof.
  apply world_lawful. intros k db. destruct k as [|k]; [|exists []; constructor]. unfold first_commits.
  pose proof (commit_with_retry_outcome quiet 5 merged_first.1 [11%N; 12%N] 3 20 MAX 0 db quiet_lawful eq_refl) as Ho.
  destruct (commit_with_retry _ _ _ _ _ _ _ _ db) as [[r k'] db']. simpl.
  destruct r as [u| | |]; [destruct Ho as (db1 & ->%quiet_others & Hst); eexists; by apply db_run_once|..];
    apply quiet_others in Ho as ->; exists []; constructor.
Qed.
