(* ===== verification/CatalogProperties.v ===== *)
(** * What the catalog guarantees

    Histories of snapshots, the serial meaning of concurrent transactions, the
    grouping commit, staged extents, compaction and physical deletion. *)

From stdpp Require Import base gmap strings list relations sorting.
From Stdlib Require Import NArith ZArith Lia.
From S2P Require Import Prelude Bytes Arrow BlockStats Pushdown CatalogPrune TlmExtent SqlTable CatalogSchema SnapshotDb.
From S2P Require Import CatalogOps SnapshotSpec CommitCoordinator Committer Compaction CompactionSpec Retention.
From S2P Require Import CatalogSample.

Local Open Scope Z_scope.
Local Open Scope string_scope.
Local Open Scope list_scope.

(** ** Snapshots *)

(** C10: Histories do not fork and have no gap.  Whatever operations any number
    of clients run on the catalog, following the parents from the current
    snapshot of a table yields exactly the snapshots of that table, numbered
    from the latest down to 0: every snapshot that was ever committed is in
    the history of the current one. *)
Theorem snapshot_history `{Database} `{ArrowText} ds db t : db_run ds empty_db db -> t ∈ tables db ->
  exists s h n, tb_current_snapshot t = Some s /\ h = history (length (snapshots db)) s db /\
    sn_sequence <$> h = countdown n /\ (forall x, x ∈ h <-> x ∈ snapshots db /\ sn_table x = tb_id t).
Proof. intros Hrun. apply table_history. eapply db_run_wf; [exact Hrun|apply empty_db_wf]. Qed.

Definition events_row : TableRow := Eval vm_compute in
  nth 0 (tables db0) {| tb_id := 0; tb_tenant := 0; tb_database := 0; tb_name := ""; tb_current_snapshot := None; tb_schema_snapshot := None |}.

Lemma snapshot_history_witness : exists s h n, tb_current_snapshot events_row = Some s /\ h = history (length (snapshots db0)) s db0 /\
    sn_sequence <$> h = countdown n /\ (forall x, x ∈ h <-> x ∈ snapshots db0 /\ sn_table x = tb_id events_row).
Proof. refine (snapshot_history _ db0 events_row db0_run _). left. Defined.

(** C1: Concurrent transactions are serializable.  The live extents of all
    tables are those that the committed transactions leave when they are run
    alone, one after the other in the order of their commits, from an empty
    catalog: adding a transaction's extents, then dropping those it removes.
    Aborted transactions, staging, schema changes and both collectors leave no
    trace in them. *)
Theorem live_is_replay `{Database} `{ArrowText} ds db : db_run ds empty_db db -> live db = replay ds.
Proof. apply db_run_live. Qed.

Lemma live_is_replay_witness : live db0 = replay [DCommit DEFAULT_TENANT [m_a; m_b] []].
Proof. exact (live_is_replay _ db0 db0_run). Defined.

(** C32: The commit is a compare-and-set.  In any reachable catalog a
    transaction that branched from a snapshot of its table succeeds exactly
    when this snapshot is still the current one and none of its extents is
    already recorded; a table that moved on is a conflict.  On success the
    live extents are exchanged as the transaction says, on any error nothing
    changes. *)
Theorem commit_compare_and_set `{Database} `{ArrowText} ds db txn summary snap manifest now t p : db_run ds empty_db db ->
  t ∈ tables db -> tb_id t = txn_table_id txn -> tb_tenant t = txn_tenant txn ->
  p ∈ snapshots db -> sn_id p = parent_snapshot_id txn -> sn_table p = txn_table_id txn ->
  let r := commit txn summary snap manifest now db in
  r.1 = (if decide (tb_current_snapshot t = Some (parent_snapshot_id txn))
         then match insert_extents (txn_tenant txn) manifest (added txn) (extents db) with inl e => inl e | inr _ => inr snap end
         else inl Conflict) /\
  match r.1 with
  | inl _ => r.2 = db
  | inr s => live r.2 = replay_delta (live db) (DCommit (txn_tenant txn) (added txn) (removed txn))
  end.
Proof.
  intros Hrun Ht Htid Htt Hp Hpid Hpt r. split.
  - apply (commit_decides txn summary snap manifest now db t p); try done. eapply db_run_wf; [exact Hrun|apply empty_db_wf].
  - subst r. destruct (commit txn summary snap manifest now db) as [[e|s] db'] eqn:Hc; simpl.
    + exact (commit_error _ _ _ _ _ _ _ _ Hc).
    + apply commit_ok in Hc as [_ Hc]. by apply committed_live in Hc.
Qed.

(** A transaction that branched from the bootstrap snapshot is too late. *)
Definition late_txn : SnapshotTxn :=
  {| txn_tenant := DEFAULT_TENANT; txn_table_id := 5; parent_snapshot_id := 7; txn_schema_snapshot_id := 6; added := []; removed := [11%N] |}.
Definition first_snapshot : SnapshotRow := Eval vm_compute in
  nth 0 (snapshots db0) {| sn_id := 0; sn_tenant := 0; sn_table := 0; sn_parent := None; sn_sequence := 0; sn_schema := 0; sn_summary := bootstrap_summary |}.

Lemma commit_compare_and_set_witness :
  let r := commit late_txn rival_summary 9 9 0 db0 in
  r.1 = (if decide (tb_current_snapshot events_row = Some (parent_snapshot_id late_txn))
         then match insert_extents (txn_tenant late_txn) 9 (added late_txn) (extents db0) with inl e => inl e | inr _ => inr 9%N end
         else inl Conflict) /\
  match r.1 with
  | inl _ => r.2 = db0
  | inr s => live r.2 = replay_delta (live db0) (DCommit (txn_tenant late_txn) (added late_txn) (removed late_txn))
  end.
Proof.
  refine (commit_compare_and_set _ db0 late_txn rival_summary 9 9 0 events_row first_snapshot db0_run _ _ _ _ _ _);
    first [left|vm_compute; reflexivity].
Defined.

(** ** The commit coordinator *)

(** C34: Every submit is answered, once.  However the jobs on the channel fall
    into batches, in whatever order the tables of a batch come, whatever the
    other users of the catalog do and whichever calls fail, the coordinator
    drains its channel and sends exactly one answer to each responder. *)
Theorem every_submit_answered `{Database} `{ArrowText} W order cap arrived channel db :
  (forall groups, order groups ≡ₚ groups) ->
  exists answers k' db', run_coordinator W order cap arrived (length channel) 0 0 channel db = Some (answers, k', db') /\
    answers.*1 ≡ₚ responder <$> channel.
Proof. intros Hord. by apply run_coordinator_answers. Qed.

Lemma every_submit_answered_witness :
  exists answers k' db', run_coordinator rival (fun g => rev g) 128 (fun _ => 1%nat) 2 0 0 ingest_jobs with_table = Some (answers, k', db') /\
    answers.*1 ≡ₚ [0%nat; 1%nat].
Proof. refine (every_submit_answered rival (fun g => rev g) 128 (fun _ => 1%nat) ingest_jobs with_table _). intros groups. symmetry. apply Permutation_rev. Defined.

(** C25: A group commits as a whole or not at all.  Either all jobs of the group
    get the same snapshot, which was committed as one transaction with exactly
    their extents, lists them as live and is the head of the table at that
    moment; or all get an error and the coordinator has changed nothing. *)
Theorem group_all_or_nothing `{Database} `{ArrowText} W table jobs k db : lawful W ->
  Forall (fun j => m_table_id (manifest j) = table) jobs ->
  group_outcome W table jobs db (commit_one_table_group W table jobs k db).1.1 (commit_one_table_group W table jobs k db).2.
Proof. intros HW Hj. unfold commit_one_table_group. by apply commit_attempts_outcome. Qed.

Lemma group_all_or_nothing_witness : group_outcome rival 5 ingest_jobs with_table
  (commit_one_table_group rival 5 ingest_jobs 0 with_table).1.1 (commit_one_table_group rival 5 ingest_jobs 0 with_table).2.
Proof. refine (group_all_or_nothing rival 5 ingest_jobs 0 with_table rival_lawful _). repeat constructor. Defined.

(** Giving up means that others got through.  When the coordinator gives
    up on a group because of conflicts, with no call failing and no table
    dropped meanwhile, then during its 20 attempts the others have advanced
    the table by at least 20 snapshots. *)
Theorem conflicts_are_progress `{Database} `{ArrowText} W table jobs k ds db m : lawful W -> no_drop W ->
  (forall k, wd_fault W k = None) -> jobs <> [] -> db_run ds empty_db db -> version table db m ->
  (commit_one_table_group W table jobs k db).1.1 = fail_all jobs (ECatalog Conflict) ->
  exists m', version table (commit_one_table_group W table jobs k db).2 m' /\ m + 20 <= m'.
Proof.
  intros HW Hnd Hnf Hj Hrun. unfold commit_one_table_group. apply (commit_attempts_progress W table jobs MAX_ATTEMPTS); try done.
  eapply db_run_wf; [exact Hrun|apply empty_db_wf].
Qed.

Definition more_jobs : list CommitJob :=
  [{| table_id := 5; manifest := merged_first.1; job_rows := 2; job_bytes := 10; table_label := "events"; responder := 0 |}].

Lemma conflicts_are_progress_witness : exists m', version 5 (commit_one_table_group rival 5 more_jobs 0 db0).2 m' /\ 1 + 20 <= m'.
Proof.
  refine (conflicts_are_progress rival 5 more_jobs 0 _ db0 1 rival_lawful rival_no_drop (fun _ => eq_refl) _ db0_run _ _).
  - discriminate.
  - exists events_row. eexists. split_and!; [left|reflexivity|right; left|reflexivity|reflexivity].
  - vm_compute. reflexivity.
Defined.

(** ** The committer *)

(** C12: Staged extents are committed exactly once.  Start with nothing staged;
    then, whatever committers with stale listings, ingests and other
    transactions do, each extent that was ever staged either still waits and is
    not in the table, or is in the table and no longer waits. *)
Theorem staged_exactly_once `{Database} `{ArrowText} tenant db s : staged db = [] ->
  rtc (staging_step tenant) {| stg_db := db; seen := [] |} s -> exactly_once s.
Proof.
  intros Hdb Hs. assert (exactly_once {| stg_db := db; seen := [] |}) as H1.
  { split; simpl; rewrite ?Hdb; try apply NoDup_nil_2; set_solver. }
  revert H1. induction Hs as [|s1 s2 s3 H12 _ IH]; [done|]. intros H1. by apply IH, (staging_step_once tenant s1).
Qed.

(** Stage an extent, then commit it twice from the same listing. *)
Definition staged_row : StagedRow :=
  {| st_id := 30; st_tenant := DEFAULT_TENANT; st_table := 5; st_batch := 31; st_manifest := m_a; st_created_at := 0 |}.
Definition staging1 : Staging :=
  {| stg_db := (stage_extent 30 DEFAULT_TENANT 31 0 m_a with_table).2; seen := [staged_row] |}.
Definition commit_row (s : Staging) (snap : Uuid) : Staging :=
  {| stg_db := (commit_staged_group DEFAULT_TENANT 5 (st_id <$> [staged_row]) (st_manifest <$> [staged_row]) snap snap (stg_db s)).2;
     seen := seen s |}.

Lemma staged_exactly_once_witness : exactly_once (commit_row (commit_row staging1 32) 33).
Proof.
  refine (staged_exactly_once DEFAULT_TENANT with_table _ _ _); [reflexivity|].
  eapply rtc_l; [apply (sg_stage DEFAULT_TENANT 30 31 0 m_a {| stg_db := with_table; seen := [] |}); [apply not_elem_of_nil..|reflexivity]|].
  eapply rtc_l; [apply (sg_commit DEFAULT_TENANT 5 [staged_row] 32 32 staging1); [intros r Hr; exact Hr|by repeat constructor]|].
  eapply rtc_l; [|apply rtc_refl]. apply (sg_commit DEFAULT_TENANT 5 [staged_row] 33 33 (commit_row staging1 32)); [intros r Hr; exact Hr|by repeat constructor].
Defined.

(** ** Compaction *)

(** C13: Compaction loses no row and invents none.  Take a successful merge of
    readable extents of a table, with a fresh identifier and object for the
    merged extent and a codec that reads back what it wrote.  Then the rows of
    the table after the commit are those it had just before, with the rows of
    the sources that were still live exchanged for the rows of all sources;
    when all sources were still live, the table has exactly the rows it had. *)
Theorem compaction_conserves_rows `{Codec} `{Chrono} `{TryNewText} `{Database} `{ArrowText} {St} `{ObjectStoreLaws St}
    W format uuid extent_id table sources k db (st : St) k' db' st' :
  lawful W -> os_inv st -> Forall (readable (tr_schema table) st) sources -> NoDup (f_name <$> tr_schema table) ->
  (forall bs w, written (tr_schema table) bs w -> codec_roundtrip (tr_schema table) bs (w_block_stats w)) ->
  extent_id ∉ m_id <$> sources ->
  (forall db1 m, others W db db1 -> m ∈ table_live (tr_id table) db1 -> m_object_path m <> extent_path format uuid extent_id) ->
  merge_and_commit W format uuid extent_id table sources k db st = (Ret tt, k', db', st') ->
  exists db1, others W db db1 /\
    table_rows (tr_schema table) (tr_id table) st' db' ++
      concat (extent_rows (tr_schema table) st <$> still_live (tr_id table) (m_id <$> sources) db1) ≡ₚ
    table_rows (tr_schema table) (tr_id table) st db1 ++ concat (extent_rows (tr_schema table) st <$> sources) /\
    (still_live (tr_id table) (m_id <$> sources) db1 ≡ₚ sources ->
     table_rows (tr_schema table) (tr_id table) st' db' ≡ₚ table_rows (tr_schema table) (tr_id table) st db1).
Proof.
  intros HW Hi Hr Hnd Hc Hid Hp Hm.
  destruct (merge_conserves W format uuid extent_id table sources k db st k' db' st' HW Hi Hr Hnd Hc Hid Hp Hm) as (db1 & Ho & Hrows).
  exists db1. split_and!; [done|done|]. intros Hall. revert Hrows.
  rewrite (concat_Permutation _ _ (fmap_Permutation (extent_rows (tr_schema table) st) _ _ Hall)). apply Permutation_app_inv_r.
Qed.

Lemma sample_readable : Forall (readable numbers store0) [m_a; m_b].
Proof.
  assert (forall o, (forall z, o = Some z -> is_i64 z) -> forall l, Forall (fun o => forall z, o = Some z -> is_i64 z) l ->
    batch_ok (numbers_batch (o :: l))) as Hok.
  { intros o Ho l Hl. split; [repeat constructor|]. apply Forall_singleton. split; [reflexivity|by constructor]. }
  assert (forall m bs, Forall batch_ok bs ->
    match (open_extent numbers (m_object_path m) (m_byte_size m) store0).1 with Ret r => batches r = bs | _ => True end ->
    readable numbers store0 m) as Hr by (intros m bs Hbs Hm reader Heq; rewrite Heq in Hm; by rewrite Hm).
  constructor; [|constructor; [|done]]; [apply (Hr m_a [batch_a])|apply (Hr m_b [batch_b])].
  2,4: vm_compute; reflexivity.
  all: apply Forall_singleton, Hok; [|first [by apply Forall_nil|apply Forall_singleton]]; intros z Hz;
    first [discriminate|injection Hz as <-; by vm_compute].
Qed.

Lemma compaction_conserves_rows_witness : exists db1, others quiet db0 db1 /\
    table_rows numbers 5 merged_once.2 merged_once.1.2 ++
      concat (extent_rows numbers store0 <$> still_live 5 (m_id <$> [m_a; m_b]) db1) ≡ₚ
    table_rows numbers 5 store0 db1 ++ concat (extent_rows numbers store0 <$> [m_a; m_b]) /\
    (still_live 5 (m_id <$> [m_a; m_b]) db1 ≡ₚ [m_a; m_b] ->
     table_rows numbers 5 merged_once.2 merged_once.1.2 ≡ₚ table_rows numbers 5 store0 db1).
Proof.
  refine (compaction_conserves_rows quiet format_ show_N 22 events [m_a; m_b] 0 db0 store0 2 merged_once.1.2 merged_once.2 quiet_lawful _ _ _ _ _ _ _).
  - done.
  - exact sample_readable.
  - repeat constructor; set_solver.
  - intros bs w _. apply table_codec_roundtrip.
  - vm_compute. set_solver.
  - intros db1 m ->%quiet_others. revert m. apply Forall_forall. vm_compute. repeat constructor; discriminate.
  - vm_compute. reflexivity.
Defined.

(** Two merges of the same extents duplicate their rows.  Two workers
    merge the same two live extents, as happens when the scheduler submits a
    group again before its first task is done.  The first one commits; the
    commit of the second one finds the table moved on, begins again and
    succeeds, since nothing asks whether its sources are still live: removing
    them again changes nothing, and both merged extents stay.  Afterwards the
    table has each of its rows twice. *)
Theorem stale_compaction_duplicates :
  lawful racing /\
  merge_and_commit racing format_ show_N 22 events [m_a; m_b] 0 db0 merged_first.2 = (Ret tt, merged_twice.1.1.2, merged_twice.1.2, merged_twice.2) /\
  table_rows numbers 5 store0 db0 <> [] /\
  table_rows numbers 5 merged_twice.2 merged_twice.1.2 = table_rows numbers 5 store0 db0 ++ table_rows numbers 5 store0 db0.
Proof.
  split_and!; [apply racing_lawful|vm_compute; reflexivity| |vm_compute; reflexivity].
  intros Hnil%(f_equal length). vm_compute in Hnil. discriminate.
Qed.

(** ** Physical deletion *)


#[export] Instance memory_delete : DeletingStore (gmap string bytes) := { os_delete p st := (true, delete p st) }.
#[export, refine] Instance memory_delete_laws : DeletingStoreLaws (gmap string bytes) := {}.
Proof. intros path st Hi. split; [done|]. intros p Hp. simpl. by rewrite lookup_delete_ne. Defined.

Definition late : World :=
  {| wd_env _ db := db; wd_fault _ := None; wd_snapshot _ db := fresh (sn_id <$> snapshots db);
     wd_manifest _ db := fresh (mf_id <$> manifests db); wd_clock _ := days 2 |}.



(** ** Tables *)

(** A new table reads back.  In any reachable catalog, a table created in a
    database of its tenant is found by its name, with the schema that was given
    up to what the stored form forgets (LargeUtf8, time zones, LargeBinary),
    exactly when all its types have a name.  Otherwise it was created all the
    same, and from then on its lookup and the listing of its whole database
    are errors. *)
Theorem created_table_reads_back `{Database} `{ArrowText} ds id schema_snap snap tenant d name schema db db' :
  db_run ds empty_db db -> d ∈ databases db -> db_tenant d = tenant -> schema_snap ∉ ss_id <$> schema_snapshots db ->
  Forall (fun f => dim_ok (f_type f)) schema ->
  create_table_in_tenant id schema_snap snap tenant (db_id d) name schema db = (inr id, db') ->
  match lookup_table_in_tenant tenant (db_name d) name db' with
  | inr t => Forall (fun f => has_name (f_type f) = true) schema /\
      t = {| tr_id := id; tr_database := db_id d; tr_name := name; tr_current_snapshot := snap;
             tr_schema_snapshot := schema_snap; tr_schema := normal_field <$> schema |}
  | inl e => Exists (fun f => has_name (f_type f) = false) schema /\ (exists m, e = Sql m) /\
      exists e', list_tables_in_database_in_tenant tenant (db_name d) db' = inl e'
  end.
Proof.
  intros Hrun Hd Ht Hss Hdim Hc. assert (NoDup (db_named <$> databases db)) as Hnd by (apply (db_run_named _ _ _ Hrun), NoDup_nil_2).
  rewrite (created_lookup id schema_snap snap tenant d name schema db db' Hnd Hd Ht Hss Hc).
  pose proof (created_listed id schema_snap snap tenant d name schema db db' Hss Hc) as Hl.
  pose proof (schema_read_back schema Hdim) as Hb. destruct (json_to_schema _) as [e|s]; [|by destruct Hb as [? ->]].
  destruct Hb as [Hx Hm]. split_and!; [done|done|]. eapply listing_fails; [|by eapply new_row_in|exact Hl].
  destruct (created_rows _ _ _ _ _ _ _ _ _ Hc) as (_ & -> & _). set_solver.
Qed.

Definition main_database : DatabaseRow := {| db_id := 4; db_tenant := DEFAULT_TENANT; db_name := "main" |}.
Definition halves : Schema := [{| f_name := "x"; f_type := OtherType "Float16"; f_nullable := true |}].
Definition with_halves : Db := (create_table_in_tenant 50 51 52 DEFAULT_TENANT 4 "halves" halves db0).2.

Lemma created_table_reads_back_witness :
  match lookup_table_in_tenant DEFAULT_TENANT "main" "halves" with_halves with
  | inr t => Forall (fun f => has_name (f_type f) = true) halves /\
      t = {| tr_id := 50; tr_database := 4; tr_name := "halves"; tr_current_snapshot := 52;
             tr_schema_snapshot := 51; tr_schema := normal_field <$> halves |}
  | inl e => Exists (fun f => has_name (f_type f) = false) halves /\ (exists m, e = Sql m) /\
      exists e', list_tables_in_database_in_tenant DEFAULT_TENANT "main" with_halves = inl e'
  end.
Proof.
  refine (created_table_reads_back _ 50 51 52 DEFAULT_TENANT main_database "halves" halves db0 with_halves db0_run _ eq_refl _ _ _).
  - left.
  - vm_compute. set_solver.
  - by repeat constructor.
  - vm_compute. reflexivity.
Defined.

(** One table with a half-precision column hides the others. *)
Example listing_before : exists l, list_tables_in_database_in_tenant DEFAULT_TENANT "main" db0 = inr l /\ tr_name <$> l = ["events"].
Proof. eexists. split; [vm_compute; reflexivity|reflexivity]. Qed.
Example listing_after : exists e, list_tables_in_database_in_tenant DEFAULT_TENANT "main" with_halves = inl e.
Proof. eexists. vm_compute. reflexivity. Qed.

(** A table of another tenant ends the pass of the sweeper, which begins every
    snapshot as the default tenant. *)
Definition foreign : Db :=
  (create_table_in_tenant 60 61 62 9 63 "logs" numbers (create_database_in_tenant 63 9 "main" db0).2).2.
Example sweeper_stops : (sweep_tables late [(60%N, [11%N]); (5%N, [11%N])] 0 foreign).1.1 <> inr tt /\
  (sweep_tables late [(5%N, [11%N])] 0 foreign).1.1 = inr tt.
Proof. split; vm_compute; [discriminate|reflexivity]. Qed.
