(* ===== verification/IngestProperties.v ===== *)
(** * What ingestion guarantees

    One request on the direct path, its repetitions, and the staging buffer
    under concurrency. *)

From stdpp Require Import base gmap strings list relations pretty.
From Stdlib Require Import NArith ZArith Lia.
From S2P Require Import Prelude Bytes Arrow BlockStats ColumnStats Pushdown CatalogPrune TlmExtent SqlTable CatalogSchema.
From S2P Require Import SnapshotDb CatalogOps SnapshotSpec CommitCoordinator Compaction CompactionSpec IngestPath.
From S2P Require Import StagingBuffer CatalogSample.

Local Open Scope Z_scope.
Local Open Scope string_scope.
Local Open Scope list_scope.

(** ** A sample run

    One request that fills the buffer, its flush, commit and answer. *)

#[export] Instance sample_uuid : UuidParse := { parse_uuid _ := None; hyphenated := show_N }.
#[export] Instance sample_uuid_laws : UuidLaws := { hyphenated_inj := _ }.
#[export] Instance sample_memory : ArrayMemory := { array_memory_size a := (8 * N.of_nat (array_len a))%N }.

Definition sample_cfg : StagingConfig := {| flush_max_rows := 2; flush_max_bytes := 1000; flush_max_age := millis 50; request_timeout := millis 30000 |}.
Definition sample_table : TableRef :=
  {| tr_id := 5; tr_database := 4; tr_name := "events"; tr_current_snapshot := 7; tr_schema_snapshot := 6; tr_schema := numbers |}.
Definition sample_request : Request := {| rq_table := sample_table; rq_batches := [batch_a] |}.

Lemma batch_a_ok : Forall batch_ok [batch_a].
Proof.
  constructor; [|done]. split; constructor; try done. split; [done|]. simpl.
  constructor; [|constructor; [|done]]; intros z [= <-]; split; vm_compute; congruence.
Qed.

Definition store_of (x : outcome FormatError (ExtentWriteResult * gmap string bytes)) : gmap string bytes :=
  match x with Ret (_, st) => st | _ => ∅ end.
Definition result_of (x : outcome FormatError (ExtentWriteResult * gmap string bytes)) : ExtentWriteResult :=
  match x with
  | Ret (w, _) => w
  | _ => {| wr_extent_id := 0; wr_object_path := ""; wr_byte_size := 0; wr_row_count := 0; wr_block_count := 0;
            wr_min_timestamp_nanos := None; wr_max_timestamp_nanos := None; wr_present_paths := []; wr_column_stats := JNull |}
  end.
Definition sample_write : outcome FormatError (ExtentWriteResult * gmap string bytes) := Eval vm_compute in
  write_batches format_ 31 numbers [batch_a] ∅.

Definition run0 : System (gmap string bytes) := initial with_table ∅ 0.
Definition run1 := Eval vm_compute in with_callers (callers run0 ++ [Entered sample_request]) run0.
Definition run2 := Eval vm_compute in with_callers (<[0%nat := Enqueueing sample_request]> (callers run1)) run1.
Definition pushed := Eval vm_compute in push_request sample_cfg 5 "events" numbers [batch_a] 0 0 (buffer run2).
Definition run3 := Eval vm_compute in with_flushes [call_flush None 5] (with_callers (<[0%nat := Awaiting sample_request 0]> (callers run2))
  (with_entered [0%nat] (with_buffer pushed.2 run2))).
Definition drained0 : DrainedStaging := Eval vm_compute in
  default {| ds_schema := []; ds_table_name := ""; ds_batches := []; ds_waiters := []; ds_rows := 0; ds_bytes := 0 |} (take_staged 5 0 (buffer run3)).1.
Definition flush_at (st : Stage) : Flush := {| flush_table := 5; flush_owner := None; flush_stage := st |}.
Definition run4 := Eval vm_compute in with_buffer (take_staged 5 0 (buffer run3)).2 (with_flushes [flush_at (Taken drained0)] run3).
Definition run5 := Eval vm_compute in with_flushes [flush_at (Named drained0 "main")] run4.
Definition run6 := Eval vm_compute in with_flushes [flush_at (Found drained0 sample_table)] run5.
Definition run7 := with_flushes [flush_at (Written drained0 sample_table (result_of sample_write))]
  (with_written (store_of sample_write) [31%N] run6).
Definition sample_pending : PendingExtent := {| pe_owner := None; pe_drained := drained0; pe_table := sample_table; pe_result := result_of sample_write |}.
Definition sample_unit (txn : option SnapshotTxn) : Unit := {| u_table := 5; u_jobs := [sample_pending]; u_left := 20; u_txn := txn |}.
Definition run8 := with_flushes [] (with_units [sample_unit None] run7).
Definition sample_txn : SnapshotTxn := Eval vm_compute in
  {| txn_tenant := DEFAULT_TENANT; txn_table_id := 5; parent_snapshot_id := 7; txn_schema_snapshot_id := 6; added := [pe_manifest sample_pending]; removed := [] |}.
Definition run9 := with_units [sample_unit (Some sample_txn)] run8.
Definition sample_committed : (CatalogError + Uuid) * Db := Eval vm_compute in
  commit sample_txn (staging_summary sample_pending) 100 101 0 (sys_db run9).
Definition run10 := with_units [] (with_flushes [committed_flush 5 100 sample_pending]
  (with_log [committed_extent 100 sample_pending]
    (with_delta sample_committed.2 [(true, [DCommit DEFAULT_TENANT [pe_manifest sample_pending] []])] run9))).
Definition sample_outcome : FlushOutcome := Eval vm_compute in outcome_of (result_of sample_write) 100.
Definition run11 := with_answers [(0%nat, Some sample_outcome)] (with_flushes [] run10).
Definition run12 := with_callers [Returned sample_request (inr sample_outcome)] run11.

Ltac by_rule c := lazymatch goal with |- ?R ?x ?y => refine (eq_ind _ (R x) c y _); vm_compute; reflexivity end.
Ltac computed := vm_compute; reflexivity.

Abbreviation sample_reachable := (reachable sample_cfg format_ false with_table (∅ : gmap string bytes) 0).

Lemma sample_push : push_request sample_cfg 5 "events" numbers [batch_a] 0 0 (buffer run2) = (true, pushed.2).
Proof. computed. Qed.
Lemma sample_take : take_staged 5 0 (buffer run3) = (Some drained0, (take_staged 5 0 (buffer run3)).2).
Proof. computed. Qed.
Lemma sample_listed : listed_by_id 5 "main" with_table = inr (Some sample_table).
Proof. computed. Qed.
Lemma sample_written : write_batches format_ 31 numbers [batch_a] ∅ = Ret (result_of sample_write, store_of sample_write).
Proof. computed. Qed.
Lemma sample_begun : begin_snapshot_in_tenant DEFAULT_TENANT 5 with_table =
  inr {| txn_tenant := DEFAULT_TENANT; txn_table_id := 5; parent_snapshot_id := 7; txn_schema_snapshot_id := 6; added := []; removed := [] |}.
Proof. computed. Qed.
Lemma sample_commit : commit sample_txn (unit_summary false (sample_unit (Some sample_txn))) 100 101 0 with_table = (inr 100%N, sample_committed.2).
Proof. computed. Qed.
Lemma sample_fresh : 100%N ∉ sn_id <$> snapshots with_table /\ 101%N ∉ mf_id <$> manifests with_table.
Proof. split; apply (bool_decide_unpack _); computed. Qed.

Lemma run3_reachable : sample_reachable run3.
Proof.
  apply (rtc_l _ _ run1); [left; by_rule (step_enter sample_cfg run0 sample_request batch_a_ok)|].
  apply (rtc_l _ _ run2); [left; by_rule (step_same_schema sample_cfg run1 0 sample_request eq_refl ltac:(done) eq_refl)|].
  apply (rtc_l _ _ run3); [left; by_rule (step_enqueue sample_cfg run2 0 sample_request true pushed.2 eq_refl sample_push)|].
  apply rtc_refl.
Qed.

Lemma run8_reachable : sample_reachable run8.
Proof.
  eapply rtc_trans; [exact run3_reachable|].
  apply (rtc_l _ _ run4); [right; right; left; by_rule (step_take format_ run3 (flush_at Called) drained0 _ [] [] eq_refl eq_refl sample_take)|].
  apply (rtc_l _ _ run5); [right; right; left; by_rule (step_named format_ run4 (flush_at (Taken drained0)) drained0 "main" [] [] eq_refl eq_refl eq_refl)|].
  apply (rtc_l _ _ run6); [right; right; left;
    by_rule (step_found format_ run5 (flush_at (Named drained0 "main")) drained0 "main" sample_table [] [] eq_refl eq_refl sample_listed)|].
  apply (rtc_l _ _ run7); [right; right; left; exact (step_write format_ run6 (flush_at (Found drained0 sample_table)) drained0 sample_table 31
    (result_of sample_write) (store_of sample_write) [] [] eq_refl eq_refl (not_elem_of_nil _) sample_written)|].
  apply (rtc_l _ _ run8); [right; right; right; left; exact (step_start false run7 5 [sample_pending] [] (Permutation_refl _) eq_refl)|].
  apply rtc_refl.
Qed.

Lemma run12_reachable : sample_reachable run12.
Proof.
  eapply rtc_trans; [exact run8_reachable|].
  apply (rtc_l _ _ run9); [right; right; right; left;
    exact (step_begin false run8 (sample_unit None) 19 _ [] [] eq_refl eq_refl eq_refl sample_begun)|].
  apply (rtc_l _ _ run10); [right; right; right; left; exact (step_commit false run9 (sample_unit (Some sample_txn)) sample_txn 100 101 0 100
    sample_committed.2 [] [] eq_refl eq_refl (proj1 sample_fresh) (proj2 sample_fresh) sample_commit)|].
  apply (rtc_l _ _ run11); [right; right; left;
    exact (step_wake format_ run10 (committed_flush 5 100 sample_pending) drained0 (result_of sample_write) 100 [] [] eq_refl eq_refl)|].
  apply (rtc_l _ _ run12); [left; exact (step_answered sample_cfg run11 0 sample_request 0 (Some sample_outcome) eq_refl (list_elem_of_here _ _))|].
  apply rtc_refl.
Qed.

(** ** The staging buffer *)

(** C5: An acknowledged request is durable.  In every reachable state of
    callers, flushes and commits, the outcome that [submit] returns for a
    request with rows is that of an extent committed by a flush: its commit is
    one step of the database after which its snapshot was the head of the table
    and the extent live, and the extent reads back as the rows of all requests
    of that flush in the order in which they entered, the caller's among them. *)
Theorem staging_acknowledged `{ArrayMemory} `{Codec} `{Database} `{ArrowText} `{Chrono} `{UuidLaws} {St} `{ObjectStoreLaws St}
    cfg format coordinated db0 (st : St) t s i r o :
  codec_faithful -> os_inv st -> reachable cfg format coordinated db0 st t s ->
  callers s !! i = Some (Returned r (inr o)) -> rq_batches r <> [] ->
  exists ce rs, ce ∈ log s /\ i ∈ ce_waiters ce /\ o = extent_outcome ce /\ committed_at db0 s ce /\
    Forall2 (fun j r => request_of <$> callers s !! j = Some r) (ce_waiters ce) rs /\
    Forall (fun r => tr_id (rq_table r) = m_table_id (ce_manifest ce)) rs /\
    extent_rows (ce_schema ce) (sys_store s) (ce_manifest ce) =
      concat (batch_rows (ce_schema ce) <$> concat (rq_batches <$> rs)).
Proof.
  intros Hcodec Hst Hr Hi Hne. destruct (reachable_inv _ _ _ Hcodec _ _ _ _ Hst Hr) as [_ _ _ Hd Hse _ _].
  pose proof (du_returned _ _ _ Hd i r o Hi Hne) as Hans. destruct (du_answers _ _ _ Hd i o Hans) as (ce & Hce & Hw & Ho).
  pose proof (du_log _ _ _ Hd) as Hl. rewrite Forall_forall in Hl. destruct (Hl ce Hce) as (bs & (rs & Hrs & Hok & ->) & Hh & _).
  pose proof (se_log _ _ Hse) as Hc. rewrite Forall_forall in Hc. exists ce, rs. split_and!; try done; [by apply Hc| | |apply Hh].
  - eapply Forall2_impl; [exact Hrs|]. intros j r'. unfold requests_of. by rewrite list_lookup_fmap.
  - eapply Forall_impl; [exact Hok|]. by intros r' [? _].
Qed.

Lemma staging_acknowledged_witness : exists ce rs, ce ∈ log run12 /\ 0%nat ∈ ce_waiters ce /\ sample_outcome = extent_outcome ce /\
    committed_at with_table run12 ce /\
    Forall2 (fun j r => request_of <$> callers run12 !! j = Some r) (ce_waiters ce) rs /\
    Forall (fun r => tr_id (rq_table r) = m_table_id (ce_manifest ce)) rs /\
    extent_rows (ce_schema ce) (sys_store run12) (ce_manifest ce) = concat (batch_rows (ce_schema ce) <$> concat (rq_batches <$> rs)).
Proof.
  apply (staging_acknowledged sample_cfg format_ false with_table (∅ : gmap string bytes) 0 run12 0 sample_request sample_outcome);
    [exact table_codec_roundtrip|done|exact run12_reachable|reflexivity|done].
Defined.

(** C19: No request is lost or written twice.  In every reachable state each
    request that entered the buffer is in exactly one place: answered, in a
    flush, in a commit, or in the buffer; no request is in two committed
    extents; and the extents that flushes have committed are those of their
    steps of the database, in order. *)
Theorem staging_conserves `{ArrayMemory} `{Codec} `{Database} `{ArrowText} `{Chrono} `{UuidLaws} {St} `{ObjectStoreLaws St}
    cfg format coordinated db0 (st : St) t s :
  codec_faithful -> os_inv st -> reachable cfg format coordinated db0 st t s ->
  NoDup (entered s) /\
  entered s ≡ₚ (answers s).*1 ++ in_flushes (flushes s) ++ in_units (units s) ++ buffer_waiters (buffer s) /\
  NoDup (concat (ce_waiters <$> log s)) /\
  ce_manifest <$> log s = concat (own_extents <$> deltas s) /\ db_run (concat (deltas s).*2) db0 (sys_db s).
Proof.
  intros Hcodec Hst Hr. destruct (reachable_inv _ _ _ Hcodec _ _ _ _ Hst Hr) as [_ Ha _ _ Hse Hl _]. split_and!; try apply Hse; [apply Ha| |by apply log_once].
  apply occ_Permutation. intros i. rewrite !occ_app, (ac_sum _ Ha). lia.
Qed.

Lemma staging_conserves_witness : NoDup (entered run8) /\
  entered run8 ≡ₚ (answers run8).*1 ++ in_flushes (flushes run8) ++ in_units (units run8) ++ buffer_waiters (buffer run8) /\
  NoDup (concat (ce_waiters <$> log run8)) /\
  ce_manifest <$> log run8 = concat (own_extents <$> deltas run8) /\ db_run (concat (deltas run8).*2) with_table (sys_db run8).
Proof.
  apply (staging_conserves sample_cfg format_ false with_table (∅ : gmap string bytes) 0 run8); [exact table_codec_roundtrip|done|exact run8_reachable].
Defined.

(** No request waits for ever.  Whatever the state, when the timer ticks and
    the flushes and commits run on by themselves, they come to an end, in every
    order and with any failures, and then every caller whose request is older
    than [flush_max_age] at the tick has an answer. *)
Theorem staging_tick_answers `{ArrayMemory} `{Codec} `{Database} `{ArrowText} `{Chrono} `{UuidLaws} {St} `{ObjectStoreLaws St}
    cfg format coordinated db0 (st : St) t s ts :
  codec_faithful -> os_inv st -> reachable cfg format coordinated db0 st t s -> ts ≡ₚ expired cfg (time s) (buffer s) ->
  eventually (work_step format coordinated) (fun s' => flushes s' = [] /\ units s' = [] /\
    forall i r since, callers s' !! i = Some (Awaiting r since) -> since + flush_max_age cfg <= time s -> i ∈ (answers s').*1)
    (with_flushes (flushes s ++ (call_flush None <$> ts)) s).
Proof. intros Hcodec Hst Hr Hts. by eapply (tick_answers _ _ _ Hcodec db0), Hts; eapply reachable_inv. Qed.

Definition run3_late : System (gmap string bytes) := with_time (millis 50) run3.
Lemma run3_late_reachable : sample_reachable run3_late.
Proof.
  eapply rtc_trans; [exact run3_reachable|]. apply rtc_once. right; left. apply step_clock. by vm_compute.
Qed.

Lemma staging_tick_answers_witness : eventually (work_step format_ false) (fun s' => flushes s' = [] /\ units s' = [] /\
    forall i r since, callers s' !! i = Some (Awaiting r since) -> since + flush_max_age sample_cfg <= time run3_late -> i ∈ (answers s').*1)
    (with_flushes (flushes run3_late ++ (call_flush None <$> [5%N])) run3_late).
Proof.
  apply (staging_tick_answers sample_cfg format_ false with_table (∅ : gmap string bytes) 0 run3_late [5%N]);
    [exact table_codec_roundtrip|done|exact run3_late_reachable|reflexivity].
Defined.

(** Two requests with different schemas can meet in one flush.  The buffer
    is empty when either looks for a pending schema; both then enter; the later
    one replaces the schema, and the flush of both cannot be written, whatever
    the store. *)
Theorem schema_race `{ArrayMemory} `{Codec} `{Chrono} `{UuidParse} {St} `{ObjectStore St} cfg table name s1 s2 bs1 bs2 now1 now2 now3 :
  s1 <> s2 -> bs1 <> [] -> Forall (fun b => b_schema b = s1) bs1 ->
  needs_schema_flush table s1 ∅ = false /\ needs_schema_flush table s2 ∅ = false /\
  let buf := (push_request cfg table name s2 bs2 1 now2 (push_request cfg table name s1 bs1 0 now1 ∅).2).2 in
  exists d, (take_staged table now3 buf).1 = Some d /\ ds_waiters d = [0%nat; 1%nat] /\
    forall format id (st : St) x, write_batches format id (ds_schema d) (ds_batches d) st <> Ret x.
Proof.
  intros Hne Hbs Hall. split_and!; [done..|]. unfold push_request. destruct (sum_batches bs1) as [r1 y1], (sum_batches bs2) as [r2 y2]. simpl.
  unfold take_staged. rewrite !lookup_insert_eq. simpl. rewrite ?lookup_insert_eq, ?lookup_empty. simpl.
  destruct bs1 as [|b bs1]; [done|]. eexists. split_and!; [done..|].
  intros format id st x. apply Forall_cons in Hall as [Hb _]. 
  assert (append b (start_extent format id s2) = Fail (TypeMismatch s2 (b_schema b))) as Happ.
  { unfold append. rewrite decide_True; [done|]. simpl. congruence. }
  unfold write_batches. simpl. by rewrite Happ.
Qed.

Definition wider : Schema := numbers ++ [{| f_name := "w"; f_type := Utf8; f_nullable := true |}].
Lemma schema_race_witness : numbers <> wider /\
  needs_schema_flush 5 numbers ∅ = false /\ needs_schema_flush 5 wider ∅ = false /\
  let buf := (push_request sample_cfg 5 "events" wider [] 1 0 (push_request sample_cfg 5 "events" numbers [batch_a] 0 0 ∅).2).2 in
  exists d, (take_staged 5 0 buf).1 = Some d /\ ds_waiters d = [0%nat; 1%nat] /\
    forall format id (st : gmap string bytes) x, write_batches format id (ds_schema d) (ds_batches d) st <> Ret x.
Proof.
  split; [done|]. apply (schema_race sample_cfg 5 "events" numbers wider [batch_a] [] 0 0 0); [done|done|by constructor].
Defined.

(** ** A request on the direct path *)

Definition sample_world : IngestWorld :=
  {| iw_catalog := quiet; iw_ledger _ l := l; iw_ledger_fault _ := None; iw_extent_id k := N.of_nat (31 + k);
     iw_batch_id k := N.of_nat k; iw_row_id k := N.of_nat k |}.
Definition direct_path : WritePath (gmap string bytes) := {| wp_format := format_; wp_staging := None; wp_events := true; wp_staged := false |}.
Definition node0 : Node (gmap string bytes) := {| calls := 0; node_db := with_table; node_ledger := []; node_store := ∅; published := [] |}.

(** C33: How a request ends.  In any world, on the path without staging, exactly
    one of these: the ledger's answer is replayed and nothing is done; there was
    nothing to write; its rows are in one extent that reads back as them,
    committed once and live, published once, and recorded under the key; it
    failed and has committed and published nothing; or the commit succeeded and
    only the ledger failed. *)
Theorem ingest_ends `{Codec} `{Database} `{ArrowText} `{Chrono} `{UuidParse} {St} `{ObjectStoreLaws St} (W : IngestWorld)
    (p : WritePath St) database table federated bs key n :
  lawful (iw_catalog W) -> codec_faithful -> wp_staging p = None -> wp_staged p = false -> Forall batch_ok bs -> os_inv (node_store n) ->
  let '(r, n') := ingest_with_idempotency W p database table federated bs key n in
  os_inv (node_store n') /\ ingest_result W p database table federated bs key n r n'.
Proof.
  intros HW Hcodec H1' H2' Hok Hi. pose proof (ingest_with_idempotency_spec W p database table federated bs key n HW Hcodec H1' H2' Hok Hi) as Hs.
  unfold wp in Hs. by destruct (ingest_with_idempotency _ _ _ _ _ _ _ _).
Qed.

Lemma ingest_ends_witness :
  let '(r, n') := ingest_with_idempotency sample_world direct_path "main" sample_table false [batch_a] (Some "k") node0 in
  os_inv (node_store n') /\ ingest_result sample_world direct_path "main" sample_table false [batch_a] (Some "k") node0 r n'.
Proof.
  apply (ingest_ends sample_world direct_path "main" sample_table false [batch_a] (Some "k") node0);
    [exact quiet_lawful|exact table_codec_roundtrip|done|done|exact batch_a_ok|done].
Defined.



(** A key protects for a day and never again.  Once its row has expired, the
    ledger neither finds it nor records the key anew: on SQLite, where nothing
    deletes the row, every later repetition is written again. *)
Theorem expired_key_unprotected key now now' l entry ttl r : r ∈ l -> same_key DEFAULT_TENANT key r = true ->
  Forall (fun r => same_key DEFAULT_TENANT key r = true -> unexpired now r = false) l -> now <= now' ->
  lookup_idempotency_in_tenant DEFAULT_TENANT key now' l = None /\
  record_idempotency_in_tenant DEFAULT_TENANT key entry ttl l = (None, l).
Proof.
  intros Hr Hkey Hexp Hle. split.
  - unfold lookup_idempotency_in_tenant. destruct (find_row _ l) as [r'|] eqn:Hf; [|done].
    apply find_row_Some in Hf as [Hin [Hk Hu]%andb_true_iff]. rewrite Forall_forall in Hexp. specialize (Hexp r' Hin Hk).
    unfold unexpired in *. destruct (lr_expires_at r'); [|done]. apply bool_decide_eq_true in Hu. apply bool_decide_eq_false in Hexp. lia.
  - unfold record_idempotency_in_tenant. destruct (existsb _ l) eqn:Hex; [done|]. exfalso.
    apply not_true_iff_false in Hex. apply Hex, existsb_exists. exists r. by rewrite list_elem_of_In in Hr.
Qed.

Definition old_row : LedgerRow :=
  {| lr_tenant := DEFAULT_TENANT; lr_key := "k"; lr_table_id := 5; lr_snapshot_id := 8; lr_rows_ingested := 2; lr_bytes_written := 100;
     lr_applied_at := 0; lr_expires_at := Some hours_24 |}.
Lemma expired_key_unprotected_witness : same_key DEFAULT_TENANT "k" old_row = true /\
  lookup_idempotency_in_tenant DEFAULT_TENANT "k" (hours_24 + 1) [old_row] = None /\
  record_idempotency_in_tenant DEFAULT_TENANT "k" (row_to_ledger old_row) hours_24 [old_row] = (None, [old_row]).
Proof.
  split; [reflexivity|]. apply (expired_key_unprotected "k" hours_24 (hours_24 + 1) [old_row] (row_to_ledger old_row) hours_24 old_row);
    [left|reflexivity|by repeat constructor|lia].
Defined.
