(* ===== verification/MemoryRows.v ===== *)
(** * Memories as rows

    [pensieve-memory/src/types.rs], [rows.rs], [schema.rs] and the pure part of
    [writer.rs]: the kinds of a memory, the rows of the tables [memory_nodes]
    and [memory_edges], the redaction of private spans and the choice of the
    newest version of a node.

    A row is the JSON object the code builds and edits ([row["status"] = ..] is
    an insertion); a column that is missing reads as null, as in the tables,
    whose columns but two are nullable.  The conversion between JSON and Arrow
    at the table's edge belongs to the ingest library and keeps the values. *)

From stdpp Require Import base gmap strings list.
From Stdlib Require Import NArith Lia Ascii SpecFloat.
From S2P Require Import Prelude Bytes Arrow CatalogSchema VectorMath.

Local Open Scope string_scope.
Local Open Scope list_scope.

(** [s.trim().to_ascii_lowercase()] *)
Definition loose (s : string) : string := lowercase (trim s).

(** ** Kinds ([types.rs]) *)

Module MemoryType.
Inductive t := Fact | Decision | Preference | Learning | Summary | Procedure | Entity.

Definition as_str (m : t) : string :=
  match m with
  | Fact => "fact" | Decision => "decision" | Preference => "preference" | Learning => "learning"
  | Summary => "summary" | Procedure => "procedure" | Entity => "entity"
  end.

Definition parse (s : string) : t :=
  let s := loose s in
  if decide (s = "decision") then Decision
  else if decide (s = "preference") then Preference
  else if decide (s = "learning") then Learning
  else if decide (s = "summary") then Summary
  else if decide (s = "procedure") then Procedure
  else if decide (s = "entity") then Entity
  else Fact.

Lemma type_parse_as_str m : parse (as_str m) = m.
Proof. by destruct m; vm_compute. Qed.
End MemoryType.

Module MemoryStatus.
Inductive t := Active | Background | Archived.

Definition as_str (m : t) : string :=
  match m with Active => "active" | Background => "background" | Archived => "archived" end.

Definition parse (s : string) : option t :=
  let s := loose s in
  if decide (s = "active") then Some Active
  else if decide (s = "background") then Some Background
  else if decide (s = "archived") then Some Archived
  else None.

Lemma status_parse_as_str m : parse (as_str m) = Some m.
Proof. by destruct m; vm_compute. Qed.
End MemoryStatus.

Module MemoryClass.
Inductive t := Episodic | Semantic | Procedural.

Definition as_str (m : t) : string :=
  match m with Episodic => "episodic" | Semantic => "semantic" | Procedural => "procedural" end.

Definition parse (s : string) : option t :=
  let s := loose s in
  if decide (s = "episodic") then Some Episodic
  else if decide (s = "semantic") then Some Semantic
  else if decide (s = "procedural") then Some Procedural
  else None.

Definition default_for (m : MemoryType.t) : t :=
  match m with
  | MemoryType.Procedure => Procedural
  | MemoryType.Summary => Episodic
  | _ => Semantic
  end.

Lemma class_parse_as_str m : parse (as_str m) = Some m.
Proof. by destruct m; vm_compute. Qed.
End MemoryClass.

(** [CreateMemory]; identifiers are their texts. *)
Record CreateMemory := {
  cm_content : string;
  cm_title : option string;
  cm_memory_type : MemoryType.t;
  cm_tags : list string;
  cm_realm : string;
  cm_importance : b32;
  cm_references : list string;
  cm_source_session_id : option string;
  cm_source_run_id : option string;
  cm_valid_at : option string;
  cm_provenance : option Json;
  cm_topic_key : option string;
  cm_memory_class : option MemoryClass.t;
  cm_space : option string;
  cm_writer_agent_id : option string }.

Definition DEFAULT_REALM : string := "default".

(** [0.5f32] *)
Definition f32_half : b32 := f32_div f32_one (f32_of_N 2).

Definition new_memory (content : string) : CreateMemory :=
  {| cm_content := content; cm_title := None; cm_memory_type := MemoryType.Fact; cm_tags := [];
     cm_realm := DEFAULT_REALM; cm_importance := f32_half; cm_references := [];
     cm_source_session_id := None; cm_source_run_id := None; cm_valid_at := None; cm_provenance := None;
     cm_topic_key := None; cm_memory_class := None; cm_space := None; cm_writer_agent_id := None |}.

(** ** Rows ([rows.rs], [schema.rs]) *)

Abbreviation Row := (gmap string Json).

(** [row.get(key).and_then(Value::as_str)] *)
Definition get_str (row : Row) (key : string) : option string := row !! key ≫= as_str.

(** A column of a stored row. *)
Definition col (row : Row) (key : string) : Json := default JNull (row !! key).

(** [json!] of a string, an optional string and an [f32]: a number that is not
    finite becomes null. *)
Definition json_opt (o : option string) : Json := match o with Some s => JString s | None => JNull end.
Definition json_f32 (x : b32) : Json :=
  match from_bits x with
  | S754_nan | S754_infinity _ => JNull
  | f => JNumber (NFloat (f64_of_f32 f))
  end.

Definition NODE_TABLE : string := "memory_nodes".
Definition EDGE_TABLE : string := "memory_edges".
Definition EDGE_REFERENCES : string := "REFERENCES".
Definition EDGE_INVALIDATES : string := "INVALIDATES".
Definition EDGE_MERGED_INTO : string := "MERGED_INTO".
Definition EDGE_DERIVED_FROM : string := "DERIVED_FROM".

(** The names of [memory_nodes_schema] and [memory_edges_schema]. *)
Definition NODE_COLUMNS : list string :=
  ["id"; "labels"; "realm"; "memory_type"; "title"; "content"; "content_preview"; "tags"; "importance"; "status";
   "source_session_id"; "source_run_id"; "embedding"; "created_at"; "updated_at"; "valid_at"; "invalid_at";
   "superseded_by"; "provenance"; "topic_key"; "memory_class"; "space"; "writer_agent_id"].
Definition EDGE_COLUMNS : list string :=
  ["id"; "src"; "dst"; "type"; "realm"; "target_namespace"; "props"; "created_at"].

Definition BITEMPORAL_COLUMNS : list string := ["valid_at"; "invalid_at"; "superseded_by"; "provenance"; "topic_key"].
Definition MEMORY_CLASS_COLUMNS : list string := ["memory_class"; "space"; "writer_agent_id"].

Definition PREVIEW_CHARS : nat := 280.

Definition node_id (id : string) : string := "memory:" +:+ id.
Definition edge_id (src dst rel_type : string) : string := fmt [src; "->"; dst; ":"; rel_type].

(** The character […]. *)
Definition ellipsis : string := of_chars [8230%N].

Definition preview (content : string) : string :=
  let trimmed := trim content in
  if decide (length (chars trimmed) <= PREVIEW_CHARS) then trimmed
  else of_chars (take PREVIEW_CHARS (chars trimmed)) +:+ ellipsis.

Section Rows.
  (** [serde_json]'s compact text of a value. *)
  Context (json_text : Json -> string).

Definition node_row (id : string) (m : CreateMemory) (embedding : list b32) (now : string) : Row :=
  list_to_map [
    ("id", JString (node_id id));
    ("labels", JString "Memory");
    ("realm", JString (cm_realm m));
    ("memory_type", JString (MemoryType.as_str (cm_memory_type m)));
    ("title", json_opt (cm_title m));
    ("content", JString (cm_content m));
    ("content_preview", JString (preview (cm_content m)));
    ("tags", JString (join "," (cm_tags m)));
    ("importance", json_f32 (cm_importance m));
    ("status", JString "active");
    ("source_session_id", json_opt (cm_source_session_id m));
    ("source_run_id", json_opt (cm_source_run_id m));
    ("embedding", JArray (json_f32 <$> embedding));
    ("created_at", JString now);
    ("updated_at", JString now);
    ("valid_at", JString (default now (cm_valid_at m)));
    ("invalid_at", JNull);
    ("superseded_by", JNull);
    ("provenance", json_opt (json_text <$> cm_provenance m));
    ("topic_key", json_opt (cm_topic_key m));
    ("memory_class", JString (MemoryClass.as_str (default (MemoryClass.default_for (cm_memory_type m)) (cm_memory_class m))));
    ("space", json_opt (cm_space m));
    ("writer_agent_id", json_opt (cm_writer_agent_id m))].

Definition edge_row (src dst rel_type realm : string) (target_namespace : option string) (props : option Json)
    (now : string) : Row :=
  list_to_map [
    ("id", JString (edge_id src dst rel_type));
    ("src", JString src);
    ("dst", JString dst);
    ("type", JString rel_type);
    ("realm", JString realm);
    ("target_namespace", json_opt target_namespace);
    ("props", json_opt (json_text <$> props));
    ("created_at", JString now)].

(** The builders fill the columns of the tables, no others. *)
Lemma node_row_columns id m e now : dom (node_row id m e now) =@{gset string} list_to_set NODE_COLUMNS.
Proof. unfold node_row. rewrite dom_list_to_map_L. reflexivity. Qed.
Lemma edge_row_columns src dst rel realm ns props now :
  dom (edge_row src dst rel realm ns props now) =@{gset string} list_to_set EDGE_COLUMNS.
Proof. unfold edge_row. rewrite dom_list_to_map_L. reflexivity. Qed.
End Rows.

(** ** Redaction ([writer.rs]) *)

(** [str::find] of a pattern, in bytes. *)
Fixpoint find (pat l : bytes) : option nat :=
  if decide (pat `prefix_of` l) then Some O
  else match l with [] => None | _ :: l => S <$> find pat l end.

Definition OPEN : bytes := as_bytes "<private>".
Definition CLOSE : bytes := as_bytes "</private>".
Definition REDACTED : bytes := as_bytes "[redacted]".

(** [u8::to_ascii_lowercase] on every byte. *)
Definition lower (l : bytes) : bytes := (fun a => ascii_of_N (to_ascii_lowercase (ch a))) <$> l.

(** The loop of [redact_private] on the text from byte [i] on; [lower] of a
    suffix is the suffix of [lower].  The fuel is the length of the text. *)
Fixpoint redact_from (fuel : nat) (s : bytes) : infallible bytes :=
  match s with
  | [] => Ret []
  | _ =>
      match fuel with
      | O => OutOfFuel
      | S fuel =>
          match find OPEN (lower s) with
          | Some rel =>
              let after := drop (rel + length OPEN) s in
              match find CLOSE (lower after) with
              | Some crel =>
                  rest ← redact_from fuel (drop (crel + length CLOSE) after);
                  Ret (take rel s ++ REDACTED ++ rest)
              | None => Ret (take rel s ++ REDACTED)
              end
          | None => Ret s
          end
      end
  end.

Definition redact_private (s : string) : infallible string :=
  of_bytes <$> redact_from (length (as_bytes s)) (as_bytes s).

Definition redact_create (m : CreateMemory) : infallible CreateMemory :=
  content ← redact_private (cm_content m);
  title ← match cm_title m with None => Ret None | Some t => Some <$> redact_private t end;
  Ret {| cm_content := content; cm_title := title; cm_memory_type := cm_memory_type m; cm_tags := cm_tags m;
         cm_realm := cm_realm m; cm_importance := cm_importance m; cm_references := cm_references m;
         cm_source_session_id := cm_source_session_id m; cm_source_run_id := cm_source_run_id m;
         cm_valid_at := cm_valid_at m; cm_provenance := cm_provenance m; cm_topic_key := cm_topic_key m;
         cm_memory_class := cm_memory_class m; cm_space := cm_space m; cm_writer_agent_id := cm_writer_agent_id m |}.

(** *** Occurrences *)

Definition occurs_at (pat l : bytes) (j : nat) : Prop := pat `prefix_of` drop j l.

Lemma occurs_lookup pat l j : occurs_at pat l j <-> forall k, k < length pat -> l !! (j + k) = pat !! k.
Proof.
  unfold occurs_at. split.
  - intros [r Hr] k Hk. rewrite <-lookup_drop, Hr. by apply lookup_app_l.
  - intros H. exists (drop (length pat) (drop j l)).
    rewrite <-(take_drop (length pat) (drop j l)) at 1. f_equal. apply list_eq. intros k.
    destruct (decide (k < length pat)) as [Hk|Hk].
    + rewrite lookup_take, decide_True by done. rewrite lookup_drop. by apply H.
    + rewrite lookup_take, decide_False by done. symmetry. apply lookup_ge_None. lia.
Qed.

Lemma find_Some pat l i :
  find pat l = Some i <-> occurs_at pat l i /\ forall j, j < i -> ~ occurs_at pat l j.
Proof.
  unfold occurs_at. revert i; induction l as [|a l IH]; intros i; cbn [find]; destruct (decide _) as [Hp|Hp].
  - split; [intros [= <-]; split; [done|lia]|]. intros [_ Hj]. destruct i as [|i]; [done|].
    exfalso. apply (Hj O); [lia|done].
  - split; [done|]. intros [H _]. by rewrite drop_nil in H.
  - split; [intros [= <-]; split; [done|lia]|]. intros [_ Hj]. destruct i as [|i]; [done|].
    exfalso. apply (Hj O); [lia|done].
  - rewrite fmap_Some. split.
    + intros (i' & [H1 H2]%IH & ->). split; [done|]. intros [|j] Hj; [done|]. apply H2. lia.
    + destruct i as [|i]; intros [H1 H2]; [done|]. exists i. split; [|done]. apply IH. split; [done|].
      intros j Hj. apply (H2 (S j)). lia.
Qed.

Lemma find_None pat l : pat <> [] -> find pat l = None <-> forall j, ~ occurs_at pat l j.
Proof.
  intros Hne. unfold occurs_at. induction l as [|a l IH]; cbn [find]; destruct (decide _) as [Hp|Hp].
  - by apply prefix_nil_inv in Hp.
  - split; [|done]. intros _ j. by rewrite drop_nil.
  - split; [done|]. intros H. by destruct (H O).
  - rewrite fmap_None, IH. split; intros H [|j]; [done|apply H|apply (H 1)|apply (H (S (S j)))].
Qed.

Lemma find_bound pat l i : find pat l = Some i -> i + length pat <= length l \/ pat = [].
Proof.
  intros [H _]%find_Some. destruct pat as [|a pat]; [by right|]. left. apply prefix_length in H.
  rewrite length_drop in H. simpl in *. lia.
Qed.

Lemma occurs_app pat l1 l2 j : j + length pat <= length l1 -> occurs_at pat (l1 ++ l2) j <-> occurs_at pat l1 j.
Proof.
  intros Hj. rewrite !occurs_lookup.
  split; intros H k Hk; [rewrite <-(H k Hk)|rewrite <-(H k Hk)]; [symmetry|]; apply lookup_app_l; lia.
Qed.

Lemma find_app pat l1 l2 i : i + length pat = length l1 -> find pat (l1 ++ l2) = Some i <-> find pat l1 = Some i.
Proof.
  intros Hi. rewrite !find_Some. rewrite occurs_app by lia.
  split; intros [H1 H2]; (split; [done|]); intros j Hj; specialize (H2 j Hj); rewrite occurs_app in * by lia; done.
Qed.

Lemma length_lower l : length (lower l) = length l.
Proof. apply length_fmap. Qed.
Lemma lower_app l1 l2 : lower (l1 ++ l2) = lower l1 ++ lower l2.
Proof. apply fmap_app. Qed.
Lemma lower_take n l : lower (take n l) = take n (lower l).
Proof. apply fmap_take. Qed.
#[export] Hint Rewrite length_lower lower_app : pensieve.

(** *** What redaction does

    A text is cut at its private spans: an opening tag is the first one after
    the last span, a closing tag the first after the opening one, and an
    unclosed span runs to the end.  The rules do not look inside a span. *)
Inductive Redacted : bytes -> bytes -> Prop :=
  | redacted_none s : find OPEN (lower s) = None -> Redacted s s
  | redacted_span o t p c s r :
      length t = length OPEN -> find OPEN (lower (o ++ t)) = Some (length o) ->
      length c = length CLOSE -> find CLOSE (lower (p ++ c)) = Some (length p) ->
      Redacted s r -> Redacted (o ++ t ++ p ++ c ++ s) (o ++ REDACTED ++ r)
  | redacted_unclosed o t p :
      length t = length OPEN -> find OPEN (lower (o ++ t)) = Some (length o) ->
      find CLOSE (lower p) = None -> Redacted (o ++ t ++ p) (o ++ REDACTED).

(** Cutting a text at a tag that was found. *)
Lemma cut_at pat s i : pat <> [] -> find pat (lower s) = Some i -> exists o t, s = o ++ t ++ drop (i + length pat) s /\
  length o = i /\ o = take i s /\ length t = length pat /\ find pat (lower (o ++ t)) = Some (length o).
Proof.
  intros Hne Hf. destruct (find_bound _ _ _ Hf) as [Hb|]; [|done]. rewrite length_lower in Hb.
  exists (take i s), (take (length pat) (drop i s)).
  assert (Hs : s = take i s ++ take (length pat) (drop i s) ++ drop (i + length pat) s).
  { rewrite <-drop_drop, take_drop. by rewrite take_drop. }
  assert (Ho : length (take i s) = i) by (rewrite length_take; lia).
  assert (Ht : length (take (length pat) (drop i s)) = length pat) by (rewrite length_take, length_drop; lia).
  repeat split; [done..|]. rewrite Hs in Hf. rewrite Ho.
  rewrite (assoc_L (++)), lower_app in Hf. apply find_app in Hf; [done|].
  rewrite length_lower, length_app. lia.
Qed.

Lemma find_tag pat o t l : length t = length pat -> find pat (lower (o ++ t)) = Some (length o) ->
  find pat (lower (o ++ t ++ l)) = Some (length o).
Proof.
  intros Ht Hf. rewrite (assoc_L (++)), lower_app. apply find_app; [|done].
  rewrite length_lower, length_app. lia.
Qed.

Lemma redact_from_correct fuel s : length s <= fuel -> exists r, redact_from fuel s = Ret r /\ Redacted s r.
Proof.
  revert s; induction fuel as [|fuel IH]; intros s Hs.
  - destruct s; [|simpl in Hs; lia]. exists []. split; [done|]. by apply redacted_none.
  - destruct s as [|a s0] eqn:Es; [exists []; split; [done|by apply redacted_none]|].
    rewrite <-Es in *.
    replace (redact_from (S fuel) s) with
      (match find OPEN (lower s) with
       | Some rel =>
           let after := drop (rel + length OPEN) s in
           match find CLOSE (lower after) with
           | Some crel => rest ← redact_from fuel (drop (crel + length CLOSE) after); Ret (take rel s ++ REDACTED ++ rest)
           | None => Ret (take rel s ++ REDACTED)
           end
       | None => Ret s
       end : infallible bytes) by (by rewrite Es).
    destruct (find OPEN (lower s)) as [i|] eqn:Hf; [|exists s; split; [done|by apply redacted_none]].
    destruct (cut_at OPEN s i) as (o & t & Hso & Ho & Hot & Ht & Hfo); [done..|]. cbv zeta.
    set (after := drop (i + length OPEN) s) in *.
    destruct (find CLOSE (lower after)) as [j|] eqn:Hc.
    + destruct (cut_at CLOSE after j) as (p & c & Hap & Hp & _ & Hcl & Hfc); [done..|].
      destruct (IH (drop (j + length CLOSE) after)) as (r & -> & Hr).
      { assert (length s = length o + length t + length after) by (rewrite Hso at 1; rewrite !length_app; lia).
        rewrite length_drop. simpl in *. lia. }
      simpl. rewrite <-Hot. eexists; split; [done|]. rewrite Hso, Hap. by apply redacted_span.
    + rewrite <-Hot. eexists; split; [done|]. rewrite Hso. by apply redacted_unclosed.
Qed.

Lemma Redacted_fun s r1 r2 : Redacted s r1 -> Redacted s r2 -> r1 = r2.
Proof.
  intros H1. revert r2. induction H1 as [s Hn|o t p c s r Ht Ho Hc Hp Hs IH|o t p Ht Ho Hp]; intros r2 H2.
  - inversion H2; subst; [done|..]; exfalso.
    + erewrite find_tag in Hn by done. done.
    + erewrite find_tag in Hn by done. done.
  - pose proof (find_tag _ _ _ (p ++ c ++ s) Ht Ho) as Hf.
    inversion H2 as [s' Hn Es|o' t' p' c' s' r' Ht' Ho' Hc' Hp' Hs' Es|o' t' p' Ht' Ho' Hp' Es]; subst.
    + congruence.
    + rewrite <-Es in Hf. erewrite find_tag in Hf by done. injection Hf as Hlen.
      apply app_inj_1 in Es as [-> Es]; [|done]. apply app_inj_1 in Es as [-> Es]; [|congruence].
      pose proof (find_tag _ _ _ s Hc Hp) as Hg. rewrite <-Es in Hg. erewrite find_tag in Hg by done.
      injection Hg as Hg. apply app_inj_1 in Es as [-> Es]; [|done]. apply app_inj_1 in Es as [-> ->]; [|congruence].
      by rewrite (IH _ Hs').
    + rewrite <-Es in Hf. erewrite find_tag in Hf by done. injection Hf as Hlen.
      apply app_inj_1 in Es as [-> Es]; [|done]. apply app_inj_1 in Es as [-> ->]; [|congruence].
      pose proof (find_tag _ _ _ s Hc Hp). congruence.
  - pose proof (find_tag _ _ _ p Ht Ho) as Hf.
    inversion H2 as [s' Hn Es|o' t' p' c' s' r' Ht' Ho' Hc' Hp' Hs' Es|o' t' p' Ht' Ho' Hp' Es]; subst.
    + congruence.
    + rewrite <-Es in Hf. erewrite find_tag in Hf by done. injection Hf as Hlen.
      apply app_inj_1 in Es as [-> Es]; [|done]. apply app_inj_1 in Es as [-> <-]; [|congruence].
      pose proof (find_tag _ _ _ s' Hc' Hp'). congruence.
    + rewrite <-Es in Hf. erewrite find_tag in Hf by done. injection Hf as Hlen.
      by apply app_inj_1 in Es as [-> _].
Qed.

(** No opening tag is left: none before the span, none in the marker, none
    across either of its ends. *)
Lemma marker_no_tag o t r : length t = length OPEN -> find OPEN (lower (o ++ t)) = Some (length o) ->
  find OPEN (lower r) = None -> find OPEN (lower (o ++ REDACTED ++ r)) = None.
Proof.
  intros Ht Ho Hr. apply find_None; [done|]. rewrite find_None in Hr by done.
  apply find_Some in Ho as [_ Ho]. intros j Hj.
  assert (Hlo : length (lower o) = length o) by apply length_lower.
  assert (HR : lower REDACTED = REDACTED) by reflexivity.
  rewrite !lower_app, HR in Hj.
  destruct (decide (j + length OPEN <= length o)) as [Hle|Hgt].
  - apply (Ho j); [simpl in Hle; lia|]. rewrite lower_app. apply occurs_app; [by rewrite Hlo|].
    apply occurs_app in Hj; [done|by rewrite Hlo].
  - rewrite occurs_lookup in Hj. destruct (decide (j < length o + length REDACTED)) as [Hin|Hin].
    + (* a byte of the marker is a byte of the tag *)
      destruct (decide (j < length o)) as [Hlt|Hlt].
      * assert (Hk : (lower o ++ REDACTED ++ lower r) !! (j + (length o - j)) = OPEN !! (length o - j))
          by (apply Hj; lia).
        replace (j + (length o - j)) with (length (lower o) + 0) in Hk by lia.
        rewrite lookup_app_r in Hk by lia. rewrite Nat.add_comm, Nat.add_sub in Hk.
        rewrite lookup_app_l in Hk by (simpl; lia).
        assert (Hd : length o - j < length OPEN) by lia. revert Hd Hk. generalize (length o - j). intros d Hd.
        do 9 (destruct d as [|d]; [vm_compute; congruence|]). simpl in Hd. lia.
      * assert (Hk := Hj O ltac:(simpl; lia)). rewrite Nat.add_0_r, lookup_app_r in Hk by lia.
        rewrite lookup_app_l in Hk by lia. assert (Hd : j - length (lower o) < length REDACTED) by lia.
        revert Hd Hk. generalize (j - length (lower o)). intros d Hd.
        do 10 (destruct d as [|d]; [vm_compute; congruence|]). simpl in Hd. lia.
    + apply (Hr (j - length o - length REDACTED)). apply occurs_lookup. intros k Hk. rewrite <-(Hj k Hk).
      rewrite lookup_app_r by lia. rewrite lookup_app_r by lia. f_equal. lia.
Qed.

Lemma Redacted_no_tag s r : Redacted s r -> find OPEN (lower r) = None.
Proof.
  induction 1 as [s Hn|o t p c s r Ht Ho Hc Hp Hs IH|o t p Ht Ho Hp]; [done|by eapply marker_no_tag|].
  rewrite <-(app_nil_r REDACTED). by eapply marker_no_tag.
Qed.

Lemma redact_private_total s : exists r, redact_private s = Ret r /\ Redacted (as_bytes s) (as_bytes r).
Proof.
  destruct (redact_from_correct (length (as_bytes s)) (as_bytes s)) as (r & Hr & HR); [done|].
  exists (of_bytes r). unfold redact_private. rewrite Hr. split; [done|]. by rewrite as_of_bytes.
Qed.

(** Redaction changes the content and the title, nothing else. *)
Lemma redact_create_total m : exists m', redact_create m = Ret m' /\ cm_references m' = cm_references m.
Proof.
  unfold redact_create. destruct (redact_private_total (cm_content m)) as (c & -> & _). cbn.
  destruct (cm_title m) as [t|]; cbn; [|eauto].
  destruct (redact_private_total t) as (t' & -> & _). cbn. eauto.
Qed.

Lemma node_row_id f id m e now : get_str (node_row f id m e now) "id" = Some (node_id id).
Proof. reflexivity. Qed.
Lemma node_row_updated f id m e now : get_str (node_row f id m e now) "updated_at" = Some now.
Proof. reflexivity. Qed.

(** ** The ingest queue's batches ([ingest.rs]) *)

Module Ingest.
Inductive MemoryOp :=
  | Create (id : string) (mem : CreateMemory) (now : string)
  | SaveAs (id : string) (mem : CreateMemory) (now : string)
  | AppendNode (row : Row)
  | AddEdge (row : Row).

(** The two tables and the idempotency keys the write path remembers. *)
Record Store := { st_nodes : list Row; st_edges : list Row; st_keys : list string }.

(** What one flush meets: whether the tables can be provisioned, the embedding
    backend's answer, and whether an append lands. *)
Record Flush := {
  fl_provisioned : bool; fl_embed : list string -> option (list (list b32)); fl_nodes_land : bool; fl_edges_land : bool }.

Section Batch.
  (** [serde_json]'s printer and the default hasher. *)
  Context (json_text : Json -> string) (hash : list string -> nat * nat -> string).

Definition texts (ops : list MemoryOp) : list string :=
  omap (fun op => match op with Create _ mem _ | SaveAs _ mem _ => Some (cm_content mem) | _ => None end) ops.

(** [embed_batch] *)
Definition embed_batch (embed : list string -> option (list (list b32))) (l : list string) : outcome string (list (list b32)) :=
  if is_empty l then Ret []
  else
    match embed l with
    | None => Fail "embed"
    | Some out => if decide (length out = length l) then Ret out
                  else Fail (fmt ["backend returned "; show_nat (length out); " vectors for "; show_nat (length l); " texts"])
    end.

(** Phase 2: the rows in submit order; [vi] is the next vector. *)
Fixpoint build_rows (vectors : list (list b32)) (vi : nat) (ops : list MemoryOp) : outcome string (list Row * list Row) :=
  match ops with
  | [] => Ret ([], [])
  | op :: ops =>
      match op with
      | Create id mem now =>
          v ← or_panic (vectors !! vi);
          rest ← build_rows vectors (S vi) ops;
          let src := node_id id in
          Ret (node_row json_text id mem v now :: rest.1,
               ((fun r => edge_row json_text src r EDGE_REFERENCES (cm_realm mem) None None now) <$> cm_references mem)
                 ++ rest.2)
      | SaveAs id mem now =>
          v ← or_panic (vectors !! vi);
          rest ← build_rows vectors (S vi) ops;
          Ret (node_row json_text id mem v now :: rest.1, rest.2)
      | AppendNode row => rest ← build_rows vectors vi ops; Ret (row :: rest.1, rest.2)
      | AddEdge row => rest ← build_rows vectors vi ops; Ret (rest.1, row :: rest.2)
      end
  end.

(** What the key hashes of a row. *)
Definition row_key (r : Row) : list string :=
  omap (fun c => get_str r c) ["id"; "updated_at"; "created_at"].
Definition batch_key (node_rows edge_rows : list Row) : string :=
  hash (concat (row_key <$> (node_rows ++ edge_rows))) (length node_rows, length edge_rows).

Definition append_nodes (lands : bool) (rows : list Row) (key : string) (s : Store) : outcome string unit * Store :=
  if is_empty rows then (Ret tt, s)
  else if decide (key ∈ st_keys s) then (Ret tt, s)
  else if lands then (Ret tt, {| st_nodes := st_nodes s ++ rows; st_edges := st_edges s; st_keys := key :: st_keys s |})
  else (Fail "write", s).
Definition append_edges (lands : bool) (rows : list Row) (key : string) (s : Store) : outcome string unit * Store :=
  if is_empty rows then (Ret tt, s)
  else if decide (key ∈ st_keys s) then (Ret tt, s)
  else if lands then (Ret tt, {| st_nodes := st_nodes s; st_edges := st_edges s ++ rows; st_keys := key :: st_keys s |})
  else (Fail "write", s).

(** [BatchIngestor::handle]; a payload that does not parse is dropped. *)
Definition handle (f : Flush) (jobs : list (option MemoryOp)) (s : Store) : outcome string unit * Store :=
  let ops := omap id jobs in
  if is_empty ops then (Ret tt, s)
  else if negb (fl_provisioned f) then (Fail "provision", s)
  else
    match (vectors ← embed_batch (fl_embed f) (texts ops); build_rows vectors 0 ops) with
    | Ret (node_rows, edge_rows) =>
        let key := batch_key node_rows edge_rows in
        match append_nodes (fl_nodes_land f) node_rows ("memops:nodes:" +:+ key) s with
        | (Ret _, s) => append_edges (fl_edges_land f) edge_rows ("memops:edges:" +:+ key) s
        | (Fail e, s) => (Fail e, s)
        | (Panic, s) => (Panic, s)
        | (OutOfFuel, s) => (OutOfFuel, s)
        end
    | Fail e => (Fail e, s)
    | Panic => (Panic, s)
    | OutOfFuel => (OutOfFuel, s)
    end.

(** The rows of the operations one at a time, with a vector each. *)
Definition op_nodes (v : list b32) (op : MemoryOp) : list Row :=
  match op with
  | Create id mem now | SaveAs id mem now => [node_row json_text id mem v now]
  | AppendNode row => [row]
  | AddEdge _ => []
  end.
Definition op_edges (op : MemoryOp) : list Row :=
  match op with
  | Create id mem now =>
      (fun r => edge_row json_text (node_id id) r EDGE_REFERENCES (cm_realm mem) None None now) <$> cm_references mem
  | AddEdge row => [row]
  | _ => []
  end.
Definition needs_vector (op : MemoryOp) : bool := match op with Create _ _ _ | SaveAs _ _ _ => true | _ => false end.

Lemma texts_cons op ops : length (texts (op :: ops)) = (if needs_vector op then 1 else 0) + length (texts ops).
Proof. by destruct op. Qed.

(** Building never runs out of vectors, and yields the rows of each operation
    in order; the edges and the key do not depend on the vectors. *)
Lemma build_rows_ok ops : forall vectors vi, length vectors = vi + length (texts ops) ->
  exists node_rows, build_rows vectors vi ops = Ret (node_rows, concat (op_edges <$> ops))
    /\ row_key <$> node_rows = row_key <$> concat (op_nodes [] <$> ops)
    /\ exists vs, length vs = length ops /\ node_rows = concat (zip_with op_nodes vs ops).
Proof.
  induction ops as [|op ops IH]; intros vectors vi Hl; [exists []; repeat split; by exists []|].
  rewrite texts_cons in Hl. cbn [build_rows]. destruct (needs_vector op) eqn:Hv.
  - destruct (lookup_lt_is_Some_2 vectors vi ltac:(lia)) as [x Hx].
    destruct (IH vectors (S vi) ltac:(lia)) as (rows & Hb & Hk & vs & Hvs & Hrows).
    exists (op_nodes x op ++ rows). repeat split.
    + destruct op; try discriminate Hv; rewrite Hx; cbn; by rewrite Hb.
    + rewrite fmap_cons. cbn [concat]. rewrite !fmap_app, Hk. f_equal. by destruct op; try discriminate Hv.
    + exists (x :: vs). split; [by cbn; rewrite Hvs|]. cbn. by rewrite Hrows.
  - destruct (IH vectors vi ltac:(lia)) as (rows & Hb & Hk & vs & Hvs & Hrows).
    exists (op_nodes [] op ++ rows). repeat split.
    + destruct op; try discriminate Hv; rewrite Hb; reflexivity.
    + rewrite fmap_cons. cbn [concat]. by rewrite !fmap_app, Hk.
    + exists ([] :: vs). split; [by cbn; rewrite Hvs|]. cbn. by rewrite Hrows.
Qed.

Definition key_of (ops : list MemoryOp) : string :=
  batch_key (concat (op_nodes [] <$> ops)) (concat (op_edges <$> ops)).

Lemma batch_key_nodes n1 n2 e : row_key <$> n1 = row_key <$> n2 -> batch_key n1 e = batch_key n2 e.
Proof.
  intros H. unfold batch_key. rewrite !fmap_app, H. f_equal. f_equal.
  by rewrite <-(length_fmap row_key n1), H, length_fmap.
Qed.

(** A backend that answers gives one vector per text. *)
Definition embeds (f : Flush) (ops : list MemoryOp) : Prop :=
  exists out, embed_batch (fl_embed f) (texts ops) = Ret out.

Lemma embed_batch_length embed l out : embed_batch embed l = Ret out -> length out = length l.
Proof.
  unfold embed_batch. destruct l; cbn; [by intros [= <-]|]. destruct (embed _); [|done].
  case_decide; [|done]. by intros [= <-].
Qed.

(** A flush with its rows built, under a key of the batch alone. *)
Lemma handle_built f jobs s : let ops := omap id jobs in ops <> [] -> fl_provisioned f = true -> embeds f ops ->
  exists node_rows vs, length vs = length ops /\ node_rows = concat (zip_with op_nodes vs ops)
    /\ handle f jobs s =
        match append_nodes (fl_nodes_land f) node_rows ("memops:nodes:" +:+ key_of ops) s with
        | (Ret _, s) => append_edges (fl_edges_land f) (concat (op_edges <$> ops)) ("memops:edges:" +:+ key_of ops) s
        | (Fail e, s) => (Fail e, s)
        | (Panic, s) => (Panic, s)
        | (OutOfFuel, s) => (OutOfFuel, s)
        end.
Proof.
  intros ops Hne Hp [out Hout]. destruct (build_rows_ok ops out 0) as (rows & Hb & Hk & vs & Hvs & Hrows).
  { by rewrite (embed_batch_length _ _ _ Hout). }
  exists rows, vs. split; [done|]. split; [done|]. unfold handle. fold ops. destruct ops as [|op l] eqn:He; [done|].
  cbn [is_empty]. rewrite Hp. cbn [negb]. rewrite Hout. cbn [mbind outcome_bind]. rewrite Hb.
  by rewrite (batch_key_nodes _ _ _ Hk).
Qed.

(** What an append under a key leaves: nothing, or its rows and its key. *)
Lemma append_nodes_cases lands rows k s : k ∉ st_keys s ->
  let r := append_nodes lands rows k s in
  (r.2 = s /\ (rows = [] /\ r.1 = Ret tt \/ r.1 = Fail "write")) \/
  (rows <> [] /\ r = (Ret tt, {| st_nodes := st_nodes s ++ rows; st_edges := st_edges s; st_keys := k :: st_keys s |})).
Proof.
  intros Hk. unfold append_nodes. destruct rows as [|row rows]; cbn [is_empty]; [by left; auto|].
  rewrite decide_False by done. destruct lands; [by right|by left; auto].
Qed.
Lemma append_edges_cases lands rows k s : k ∉ st_keys s ->
  let r := append_edges lands rows k s in
  (r.2 = s /\ (rows = [] /\ r.1 = Ret tt \/ r.1 = Fail "write")) \/
  (rows <> [] /\ r = (Ret tt, {| st_nodes := st_nodes s; st_edges := st_edges s ++ rows; st_keys := k :: st_keys s |})).
Proof.
  intros Hk. unfold append_edges. destruct rows as [|row rows]; cbn [is_empty]; [by left; auto|].
  rewrite decide_False by done. destruct lands; [by right|by left; auto].
Qed.
Lemma append_nodes_again lands rows k s : k ∈ st_keys s -> append_nodes lands rows k s = (Ret tt, s).
Proof. intros Hk. unfold append_nodes. destruct (is_empty rows); [done|]. by rewrite decide_True. Qed.
Lemma append_edges_again lands rows k s : k ∈ st_keys s -> append_edges lands rows k s = (Ret tt, s).
Proof. intros Hk. unfold append_edges. destruct (is_empty rows); [done|]. by rewrite decide_True. Qed.

(** How far a batch has come: each table has all of its rows, and then its
    key is remembered, or none. *)
Record progress (ops : list MemoryOp) (kn ke : string) (s s1 : Store) : Prop := {
  pr_nodes : st_nodes s1 = st_nodes s /\ kn ∉ st_keys s1 \/
    exists vs, length vs = length ops /\ st_nodes s1 = st_nodes s ++ concat (zip_with op_nodes vs ops) /\ kn ∈ st_keys s1;
  pr_edges : st_edges s1 = st_edges s /\ ke ∉ st_keys s1 \/
    st_edges s1 = st_edges s ++ concat (op_edges <$> ops) /\ ke ∈ st_keys s1 }.

(** An attempt under fresh keys makes progress, however it ends. *)
Lemma attempt_progress ops vs kn ke ln le s : kn <> ke -> length vs = length ops ->
  kn ∉ st_keys s -> ke ∉ st_keys s ->
  progress ops kn ke s
    match append_nodes ln (concat (zip_with op_nodes vs ops)) kn s with
    | (Ret _, s) => (append_edges le (concat (op_edges <$> ops)) ke s).2
    | (_, s) => s
    end.
Proof.
  intros Hne Hvs Hkn Hke.
  pose proof (append_nodes_cases ln (concat (zip_with op_nodes vs ops)) kn s Hkn) as Hn. cbv zeta in Hn.
  destruct (append_nodes _ _ _ _) as [r1 s1]. cbn [fst snd] in Hn. destruct Hn as [[-> Hr]|[Hrows [= -> ->]]].
  - destruct Hr as [[_ ->]| ->]; [|split; left; done].
    pose proof (append_edges_cases le (concat (op_edges <$> ops)) ke s Hke) as He. cbv zeta in He.
    destruct (append_edges _ _ _ _) as [r2 s2]. cbn [fst snd] in *. destruct He as [[-> _]|[_ [= _ ->]]]; [by split; left|].
    split; [left|right]; (split; [done|]); cbn; [by intros [?|?]%elem_of_cons|by left].
  - set (s1 := {| st_keys := kn :: st_keys s |}).
    assert (Hke1 : ke ∉ st_keys s1) by (cbn; intros [?|?]%elem_of_cons; congruence).
    pose proof (append_edges_cases le (concat (op_edges <$> ops)) ke s1 Hke1) as He. cbv zeta in He.
    destruct (append_edges _ _ _ _) as [r2 s2]. cbn [fst snd] in *. destruct He as [[-> _]|[_ [= _ ->]]].
    + split; [right; exists vs; split; [done|]; split; [done|by left]|by left].
    + split; [right; exists vs; split; [done|]; split; [done|right; by left]|right; split; [done|by left]].
Qed.

(** An attempt that lands everything completes the batch. *)
Lemma complete_progress ops vs kn ke s s1 : kn <> ke -> length vs = length ops -> progress ops kn ke s s1 ->
  exists s2 vs', match append_nodes true (concat (zip_with op_nodes vs ops)) kn s1 with
                 | (Ret _, s) => append_edges true (concat (op_edges <$> ops)) ke s
                 | (Fail e, s) => (Fail e, s)
                 | (Panic, s) => (Panic, s)
                 | (OutOfFuel, s) => (OutOfFuel, s)
                 end = (Ret tt, s2)
    /\ length vs' = length ops /\ st_nodes s2 = st_nodes s ++ concat (zip_with op_nodes vs' ops)
    /\ st_edges s2 = st_edges s ++ concat (op_edges <$> ops).
Proof.
  intros Hne Hvs [Hn He].
  assert (H1 : exists s' vs', append_nodes true (concat (zip_with op_nodes vs ops)) kn s1 = (Ret tt, s') /\ length vs' = length ops
     /\ st_nodes s' = st_nodes s ++ concat (zip_with op_nodes vs' ops) /\ st_edges s' = st_edges s1
     /\ (ke ∈ st_keys s' <-> ke ∈ st_keys s1)).
  { destruct Hn as [[Hn Hk]|(vs' & Hl & Hn & Hk)].
    - unfold append_nodes. destruct (is_empty (concat (zip_with op_nodes vs ops))) eqn:Hemp.
      + exists s1, vs. destruct (concat (zip_with op_nodes vs ops)); [|done]. by rewrite app_nil_r.
      + rewrite decide_False by done. eexists _, vs. split; [done|]. cbn. rewrite Hn, elem_of_cons.
        repeat split; [done|naive_solver|by right].
    - exists s1, vs'. rewrite append_nodes_again by done. done. }
  destruct H1 as (s' & vs' & -> & Hl & Hnod & Hed & Hkey). destruct He as [[He Hk]|[He Hk]].
  - unfold append_edges. destruct (is_empty (concat (op_edges <$> ops))) eqn:Hemp.
    + exists s', vs'. destruct (concat (op_edges <$> ops)); [|done]. rewrite app_nil_r. repeat split; congruence.
    + rewrite decide_False by naive_solver. eexists _, vs'. split; [done|]. cbn. repeat split; congruence.
  - rewrite append_edges_again by naive_solver. exists s', vs'. repeat split; congruence.
Qed.
End Batch.
End Ingest.
