(* ===== verification/MemoryGate.v ===== *)
(** * The gate before a memory changes

    [pensieve-server/src/agent/memory_policy.rs], [memory_queue_store.rs] and
    [memory_gate.rs], with the writer of [pensieve-memory/src/writer.rs]: a
    mutation is classified by the operator's policy and then applied, applied
    and recorded for review, or queued until someone approves it; what was
    applied can be undone.

    The code is a state and error monad over the two tables and the approval
    queue.  Before every call others may act, and the call may fail. *)

From stdpp Require Import base gmap strings list.
From Stdlib Require Import NArith ZArith Lia Ascii SpecFloat.
From S2P Require Import Prelude Bytes Arrow CatalogSchema VectorMath MemoryRows.

Local Open Scope string_scope.
Local Open Scope list_scope.

(** ** Policy ([memory_policy.rs]) *)

Module Op.
Inductive t :=
  Add | Update | Invalidate | Merge | Archive | LinkEntityCrossRealm | RelationshipWrite | PromoteFileCandidate | InduceSchema.

#[export] Instance t_eq_dec : EqDecision t.
Proof. solve_decision. Defined.

Definition ALL : list t :=
  [Add; Update; Invalidate; Merge; Archive; LinkEntityCrossRealm; RelationshipWrite; PromoteFileCandidate; InduceSchema].

Definition as_str (o : t) : string :=
  match o with
  | Add => "add" | Update => "update" | Invalidate => "invalidate" | Merge => "merge" | Archive => "archive"
  | LinkEntityCrossRealm => "link_entity_cross_realm" | RelationshipWrite => "relationship_write"
  | PromoteFileCandidate => "promote_file_candidate" | InduceSchema => "induce_schema"
  end.

Definition parse (s : string) : option t := snd <$> list_find (fun o => as_str o = s) ALL.

Lemma op_parse_as_str o : parse (as_str o) = Some o.
Proof. by destruct o. Qed.
End Op.
Export (hints) Op.

Module OpMode.
Inductive t := Auto | PostHoc | Gate.
End OpMode.

Inductive Disposition := Apply | PostHoc | Gate.

(** The map from classes to modes as its lookup. *)
Record HitlPolicy := {
  enabled : bool;
  ops : Op.t -> option OpMode.t;
  confidence_threshold : b32;
  realm_scope : list string;
  type_scope : list string }.

(** [0.6f32] *)
Definition f32_0_6 : b32 := f32_div (f32_of_N 3) (f32_of_N 5).

Definition default_policy : HitlPolicy :=
  {| enabled := false;
     ops o := Some match o with
       | Op.Add => OpMode.Auto
       | Op.Update => OpMode.PostHoc
       | Op.Invalidate => OpMode.Gate
       | Op.Merge => OpMode.Gate
       | Op.Archive => OpMode.Gate
       | Op.LinkEntityCrossRealm => OpMode.Gate
       | Op.RelationshipWrite => OpMode.PostHoc
       | Op.PromoteFileCandidate => OpMode.Auto
       | Op.InduceSchema => OpMode.Gate
       end;
     confidence_threshold := f32_0_6; realm_scope := []; type_scope := [] |}.

Definition bump (m : OpMode.t) : OpMode.t :=
  match m with OpMode.Auto => OpMode.PostHoc | OpMode.PostHoc => OpMode.Gate | OpMode.Gate => OpMode.Gate end.

Definition contains (l : list string) (s : string) : bool := existsb (fun x => bool_decide (x = s)) l.

Definition classify (op : Op.t) (confidence : option b32) (realm : string) (mem_type : option string) (p : HitlPolicy) :
    Disposition :=
  if negb (enabled p) then Apply
  else if negb (is_empty (realm_scope p)) && negb (contains (realm_scope p) realm) then Apply
  else if negb (is_empty (type_scope p))
            && match mem_type with Some t => negb (contains (type_scope p) t) | None => true end then Apply
  else
    let base := default OpMode.Auto (ops p op) in
    let eff := match confidence with
               | Some c => if f32_lt c (confidence_threshold p) then bump base else base
               | None => base
               end in
    match eff with OpMode.Auto => Apply | OpMode.PostHoc => PostHoc | OpMode.Gate => Gate end.

(** ** Payloads and inverses ([memory_gate.rs]) *)

Record AddSpec := {
  as_content : string; as_title : option string; as_memory_type : string; as_realm : string; as_importance : b32;
  as_references : list string; as_valid_at : option string; as_provenance : Json }.

Module Payload.
Inductive t :=
  | Add (spec : AddSpec)
  | Update (target_id new_content : string)
  | Invalidate (target_id : string) (replacement : AddSpec)
  | Supersede (target_id by_id : string)
  | Merge (into_id : string) (from_ids : list string)
  | Archive (memory_id : string)
  | Link (src dst rel realm : string) (target_namespace : option string).
End Payload.

Record EdgeRef := { er_src : string; er_dst : string; er_rel : string; er_realm : string; er_target_namespace : option string }.

Record AppliedRef := { created_node_id : option string; prior_rows : list Row; edges : list EdgeRef }.
Definition nothing_applied : AppliedRef := {| created_node_id := None; prior_rows := []; edges := [] |}.

Inductive Inverse :=
  | ArchiveNode (node_id : string)
  | RestoreRows (rows : list Row)
  | RemoveEdges (edges : list EdgeRef)
  | Multi (steps : list Inverse).

Definition inverse_of (op : Op.t) (_payload : Payload.t) (applied : AppliedRef) : option Inverse :=
  match op with
  | Op.Add | Op.PromoteFileCandidate | Op.InduceSchema => ArchiveNode <$> created_node_id applied
  | Op.Update | Op.Archive =>
      if is_empty (prior_rows applied) then None else Some (RestoreRows (prior_rows applied))
  | Op.Invalidate =>
      Some (Multi ([RestoreRows (prior_rows applied)]
        ++ match created_node_id applied with Some node_id => [ArchiveNode node_id] | None => [] end
        ++ if is_empty (edges applied) then [] else [RemoveEdges (edges applied)]))
  | Op.Merge => Some (Multi [RestoreRows (prior_rows applied); RemoveEdges (edges applied)])
  | Op.LinkEntityCrossRealm | Op.RelationshipWrite =>
      if is_empty (edges applied) then None else Some (RemoveEdges (edges applied))
  end.

(** ** The approval queue ([memory_queue_store.rs]) *)

(** [payload] and [inverse] are stored as JSON; what [serde] derives for them
    reads back what it wrote. *)
Record QueueRow := {
  qr_id : string;
  qr_realm : string;
  qr_operation : Op.t;
  qr_mode : string;
  qr_status : string;
  qr_confidence : option b32;
  qr_reason : option string;
  qr_source : string;
  qr_source_run_id : option string;
  qr_payload : Payload.t;
  qr_inverse : option Inverse;
  qr_created_at : string;
  qr_resolved_at : option string;
  qr_resolved_by : option string;
  qr_resolution_comment : option string }.

Record QueueFilter := {
  qf_status : option string; qf_source : option string; qf_realm : option string; qf_operation : option Op.t;
  qf_source_run_id : option string; qf_limit : nat }.

Definition DEFAULT_LIMIT : nat := 200.

(** The file of the local backend. *)
Inductive QueueFile := Absent | Unparsable | Stored (rows : list QueueRow).

(** [read_local]: a file that cannot be read or parsed counts as empty. *)
Definition read_local (f : QueueFile) : list QueueRow :=
  match f with Stored rows => rows | _ => [] end.

Definition all_or {A} `{EqDecision A} (o : option A) (x : A) : bool :=
  match o with None => true | Some y => bool_decide (x = y) end.

Definition matches_filter (r : QueueRow) (f : QueueFilter) : bool :=
  all_or (qf_status f) (qr_status r) && all_or (qf_source f) (qr_source r) && all_or (qf_realm f) (qr_realm r)
  && all_or (qf_operation f) (qr_operation r)
  && match qf_source_run_id f with None => true | Some id => bool_decide (qr_source_run_id r = Some id) end.

(** [rows.sort_by(|a, b| b.created_at.cmp(&a.created_at))] *)
Definition newest_first (l : list QueueRow) : list QueueRow :=
  sort_by (fun a b => str_compare (qr_created_at b) (qr_created_at a)) l.

Definition list_limit (f : QueueFilter) : nat := if decide (qf_limit f = 0) then DEFAULT_LIMIT else qf_limit f.

Definition list_local (f : QueueFilter) (rows : list QueueRow) : list QueueRow :=
  take (list_limit f) (newest_first (filter (fun r => Is_true (matches_filter r f)) rows)).

Definition get_local (id : string) (rows : list QueueRow) : option QueueRow :=
  List.find (fun r => bool_decide (qr_id r = id)) rows.

Record QueueCounts := { n_pending : nat; n_post_hoc : nat }.
Definition counts_local (rows : list QueueRow) : QueueCounts :=
  {| n_pending := length (filter (fun r => qr_status r = "pending") rows);
     n_post_hoc := length (filter (fun r => qr_status r = "auto_applied") rows) |}.

Definition stamp (status now : string) (by_ comment : option string) (r : QueueRow) : QueueRow :=
  {| qr_id := qr_id r; qr_realm := qr_realm r; qr_operation := qr_operation r; qr_mode := qr_mode r; qr_status := status;
     qr_confidence := qr_confidence r; qr_reason := qr_reason r; qr_source := qr_source r;
     qr_source_run_id := qr_source_run_id r; qr_payload := qr_payload r; qr_inverse := qr_inverse r;
     qr_created_at := qr_created_at r; qr_resolved_at := Some now; qr_resolved_by := by_;
     qr_resolution_comment := comment |}.

(** The first row of that id is stamped. *)
Fixpoint update_local (id status now : string) (by_ comment : option string) (rows : list QueueRow) :
    option QueueRow * list QueueRow :=
  match rows with
  | [] => (None, [])
  | r :: rows =>
      if decide (qr_id r = id) then let r := stamp status now by_ comment r in (Some r, r :: rows)
      else let '(u, rows) := update_local id status now by_ comment rows in (u, r :: rows)
  end.

(** ** The world *)

(** What a call sees: the calls made so far, the versions of the nodes and the
    edges in the order of their commits, the queue's table (with tenants) and
    the queue's file. *)
Record World := {
  calls : nat; nodes : list Row; mem_edges : list Row; pg_queue : list (string * QueueRow); file_queue : QueueFile }.

(** What surrounds the code: what others do before a call, the calls that
    fail, the clock's text, fresh identifiers, the embedding backend,
    [serde_json]'s printer, the microseconds a [timestamptz] keeps, and the
    choice [row_number() OVER (PARTITION BY id ORDER BY updated_at DESC) = 1]
    makes among the versions of a node. *)
Record Env := {
  others : nat -> World -> World;
  fault : nat -> option string;
  now_rfc3339 : nat -> string;
  new_uuid : nat -> string;
  embed : string -> list b32;
  json_text : Json -> string;
  pg_time : string -> string;
  newest : list Row -> option Row }.

Definition M (A : Type) : Type := World -> outcome string A * World.
#[export] Instance M_ret : MRet M := fun A a w => (Ret a, w).
#[export] Instance M_bind : MBind M := fun A B k m w =>
  match m w with
  | (Ret a, w) => k a w
  | (Fail e, w) => (Fail e, w)
  | (Panic, w) => (Panic, w)
  | (OutOfFuel, w) => (OutOfFuel, w)
  end.
Definition fail {A} (e : string) : M A := fun w => (Fail e, w).
(** Code that touches nothing. *)
Definition pure_code {A} (o : outcome string A) : M A := fun w => (o, w).
Definition or_error {A} (e : string) (o : option A) : M A := match o with Some a => mret a | None => fail e end.

(** [result.ok()] *)
Definition ok {A} (m : M A) : M (option A) := fun w =>
  match m w with
  | (Ret a, w) => (Ret (Some a), w)
  | (Fail _, w) => (Ret None, w)
  | (Panic, w) => (Panic, w)
  | (OutOfFuel, w) => (OutOfFuel, w)
  end.

(** A [for] loop with [?] in its body. *)
Fixpoint for_all {A} (f : A -> M unit) (l : list A) : M unit :=
  match l with [] => mret tt | x :: l => f x ≫= fun _ => for_all f l end.
Fixpoint fold_all {A S} (f : A -> S -> M S) (l : list A) (s : S) : M S :=
  match l with [] => mret s | x :: l => f x s ≫= fold_all f l end.

Definition with_nodes (f : list Row -> list Row) (w : World) : World :=
  {| calls := calls w; nodes := f (nodes w); mem_edges := mem_edges w; pg_queue := pg_queue w; file_queue := file_queue w |}.
Definition with_edges (f : list Row -> list Row) (w : World) : World :=
  {| calls := calls w; nodes := nodes w; mem_edges := f (mem_edges w); pg_queue := pg_queue w; file_queue := file_queue w |}.
Definition with_table (f : list (string * QueueRow) -> list (string * QueueRow)) (w : World) : World :=
  {| calls := calls w; nodes := nodes w; mem_edges := mem_edges w; pg_queue := f (pg_queue w); file_queue := file_queue w |}.
Definition with_file (f : QueueFile -> QueueFile) (w : World) : World :=
  {| calls := calls w; nodes := nodes w; mem_edges := mem_edges w; pg_queue := pg_queue w; file_queue := f (file_queue w) |}.
Definition step (w : World) : World :=
  {| calls := S (calls w); nodes := nodes w; mem_edges := mem_edges w; pg_queue := pg_queue w; file_queue := file_queue w |}.

Section Code.
  Context (E : Env).

(** A call: others have acted, then it fails or does its work. *)
Definition call {A} (f : World -> outcome string (A * World)) : M A := fun w =>
  let n := calls w in
  let w := step (others E n w) in
  match fault E n with
  | Some e => (Fail e, w)
  | None => match f w with
            | Ret (a, w) => (Ret a, w)
            | Fail e => (Fail e, w)
            | Panic => (Panic, w)
            | OutOfFuel => (OutOfFuel, w)
            end
  end.

(** [now_rfc3339] and [Uuid::new_v4]; each reading takes a turn. *)
Definition clock : M string := fun w => (Ret (now_rfc3339 E (calls w)), step w).
Definition uuid : M string := fun w => (Ret (new_uuid E (calls w)), step w).

(** *** The writer ([writer.rs]) *)

(** [ensure_provisioned]: the tables of the model exist. *)
Definition ensure_provisioned : M unit := call (fun w => Ret (tt, w)).

Definition append_rows (table : (list Row -> list Row) -> World -> World) (rows : list Row) : M unit :=
  match rows with
  | [] => mret tt
  | _ => call (fun w => Ret (tt, table (fun l => l ++ rows) w))
  end.

Definition append_node_rows (rows : list Row) : M unit := ensure_provisioned ≫= fun _ => append_rows with_nodes rows.
Definition append_edge_rows (rows : list Row) : M unit := ensure_provisioned ≫= fun _ => append_rows with_edges rows.

Definition embed_one (text : string) : M (list b32) := call (fun w => Ret (embed E text, w)).

(** [MemoryWriter::save] *)
Definition save (m : CreateMemory) : M string :=
  _ ← ensure_provisioned;
  m ← pure_code (lift (redact_create m));
  emb ← embed_one (cm_content m);
  id ← uuid;
  now ← clock;
  _ ← append_rows with_nodes [node_row (json_text E) id m emb now];
  if is_empty (cm_references m) then mret id
  else
    let src := node_id id in
    let edges := (fun r => edge_row (json_text E) src r EDGE_REFERENCES (cm_realm m) None None now) <$> cm_references m in
    _ ← append_rows with_edges edges;
    mret id.

(** [MemoryWriter::link] *)
Definition link (src dst rel_type realm : string) (target_namespace : option string) : M unit :=
  _ ← ensure_provisioned;
  now ← clock;
  append_rows with_edges [edge_row (json_text E) src dst rel_type realm target_namespace None now].

(** *** Reading the newest version ([sql.rs], [memory_tools.rs]) *)

Definition versions (id : string) (l : list Row) : list Row :=
  filter (fun r => get_str r "id" = Some id) l.

(** The columns [latest_node_sql] selects. *)
Definition LATEST_COLUMNS : list string :=
  ["id"; "labels"; "realm"; "memory_type"; "title"; "content"; "content_preview"; "tags"; "importance"; "status";
   "source_session_id"; "source_run_id"; "embedding"; "created_at"; "updated_at";
   "valid_at"; "invalid_at"; "superseded_by"; "provenance"; "topic_key"].

Definition project (cols : list string) (r : Row) : Row := filter (fun kv => kv.1 ∈ cols) r.

Definition latest_node (id : string) (l : list Row) : option Row :=
  project LATEST_COLUMNS <$> newest E (versions id l).

(** [fetch_latest_node]: waiting for the queued writes is a moment when others
    act; it cannot fail. *)
Definition memory_barrier : M unit := fun w => (Ret tt, step (others E (calls w) w)).
Definition fetch_latest_node (id : string) : M Row :=
  _ ← memory_barrier;
  o ← call (fun w => Ret (latest_node id (nodes w), w));
  or_error "memory not found" o.

(** *** Titles ([cc_curate.rs]) *)

Definition TITLE_MAX_LEN : nat := 72.

Definition trim_chars (l : list char) : list char := rev (drop_spaces (rev (drop_spaces l))).

(** The characters before the first newline, without a final carriage return. *)
Fixpoint until_newline (l : list char) : list char :=
  match l with
  | [] => []
  | c :: l => if N.eqb c 10 then [] else c :: until_newline l
  end.
Definition first_line (l : list char) : list char :=
  match l with
  | [] => []
  | _ =>
      let line := until_newline l in
      match rev line with
      | c :: r => if N.eqb c 13 && negb (bool_decide (length line = length l)) then rev r else line
      | [] => line
      end
  end.

(** The characters before the first sentence mark, if there is one, with
    their length in bytes. *)
Fixpoint sentence (l : list char) : option (list char * nat) :=
  match l with
  | [] => None
  | c :: l =>
      if (N.eqb c (ch ".") || N.eqb c (ch "!") || N.eqb c (ch "?"))%N then Some ([], O)
      else '(s, n) ← sentence l; Some (c :: s, (len_utf8 c + n)%nat)
  end.

(** [split_whitespace] *)
Fixpoint split_whitespace (word : list char) (l : list char) : list (list char) :=
  match l with
  | [] => if is_empty word then [] else [word]
  | c :: l =>
      if is_whitespace c then (if is_empty word then [] else [word]) ++ split_whitespace [] l
      else split_whitespace (word ++ [c]) l
  end.

(** The loop that fills the title with whole words. *)
Fixpoint fill_title (words : list (list char)) (out : list char) : list char :=
  match words with
  | [] => out
  | word :: words =>
      let would_be := (length out + (if is_empty out then 0 else 1) + length word)%nat in
      if decide (TITLE_MAX_LEN - 1 < would_be) then out
      else fill_title words ((if is_empty out then [] else out ++ [ch " "]) ++ word)
  end.

Definition clip (l : list char) (max : nat) : list char :=
  if decide (length l <= max) then l else take (max - 1) l ++ [8230%N].

Definition synthesize_title (content : string) : string :=
  let trimmed := trim_chars (chars content) in
  let first := trim_chars (first_line trimmed) in
  let candidate := match sentence first with
                   | Some (s, n) => if decide (8 <= n) then trim_chars s else first
                   | None => first
                   end in
  if is_empty candidate then "Untitled memory"
  else if decide (length candidate <= TITLE_MAX_LEN) then of_chars candidate
  else
    let out := fill_title (split_whitespace [] candidate) [] in
    if is_empty out then of_chars (clip candidate TITLE_MAX_LEN) else of_chars (out ++ [8230%N]).

(** *** Applying an operation ([memory_gate.rs]) *)

(** [importance.clamp(0.0, 1.0)] *)
Definition clamp01 (x : b32) : b32 := if f32_lt x f32_zero then f32_zero else if f32_lt f32_one x then f32_one else x.

Definition spec_memory (spec : AddSpec) : CreateMemory :=
  {| cm_content := as_content spec;
     cm_title := Some (match as_title spec with
                       | Some t => if decide (trim t = "") then synthesize_title (as_content spec) else t
                       | None => synthesize_title (as_content spec)
                       end);
     cm_memory_type := MemoryType.parse (as_memory_type spec);
     cm_tags := ["source:extraction"];
     cm_realm := as_realm spec;
     cm_importance := clamp01 (as_importance spec);
     cm_references := as_references spec;
     cm_source_session_id := None; cm_source_run_id := None;
     cm_valid_at := as_valid_at spec;
     cm_provenance := match as_provenance spec with JNull => None | p => Some p end;
     cm_topic_key := None; cm_memory_class := None; cm_space := None; cm_writer_agent_id := None |}.

Definition add_spec (spec : AddSpec) : M string := id ← save (spec_memory spec); mret (node_id id).

(** [prior.get("realm").and_then(Value::as_str).unwrap_or("default")] *)
Definition realm_of (prior : Row) : string := default "default" (get_str prior "realm").

Definition edge (src dst rel realm : string) : EdgeRef :=
  {| er_src := src; er_dst := dst; er_rel := rel; er_realm := realm; er_target_namespace := None |}.

(** One turn of the loop of [Merge]. *)
Definition merge_one (into_id now from : string) (acc : list Row * list EdgeRef) : M (list Row * list EdgeRef) :=
  if decide (from = into_id) then mret acc
  else
    o ← ok (fetch_latest_node from);
    match o with
    | None => mret acc
    | Some prior =>
        let realm := realm_of prior in
        let row := <["updated_at" := JString now]> (<["status" := JString "archived"]> prior) in
        _ ← append_node_rows [row];
        _ ← append_edge_rows [edge_row (json_text E) from into_id EDGE_MERGED_INTO realm None None now];
        mret (acc.1 ++ [prior], acc.2 ++ [edge from into_id EDGE_MERGED_INTO realm])
    end.

(** Building the writer loads the embedding backend. *)
Definition build_writer : M unit := call (fun w => Ret (tt, w)).

Definition apply_op (payload : Payload.t) : M AppliedRef :=
  _ ← build_writer;
  match payload with
  | Payload.Add spec =>
      id ← add_spec spec;
      mret {| created_node_id := Some id; prior_rows := []; edges := [] |}
  | Payload.Update target_id new_content =>
      prior ← fetch_latest_node target_id;
      emb ← embed_one new_content;
      now ← clock;
      let row := <["valid_at" := JString now]> (<["updated_at" := JString now]> (
                 <["embedding" := JArray (json_f32 <$> emb)]> (<["content_preview" := JString (preview new_content)]> (
                 <["content" := JString new_content]> prior)))) in
      _ ← append_node_rows [row];
      mret {| created_node_id := None; prior_rows := [prior]; edges := [] |}
  | Payload.Archive memory_id =>
      prior ← fetch_latest_node memory_id;
      now ← clock;
      let row := <["updated_at" := JString now]> (<["status" := JString "archived"]> prior) in
      _ ← append_node_rows [row];
      mret {| created_node_id := None; prior_rows := [prior]; edges := [] |}
  | Payload.Invalidate target_id replacement =>
      new_id ← add_spec replacement;
      prior ← fetch_latest_node target_id;
      now ← clock;
      let row := <["updated_at" := JString now]> (<["superseded_by" := JString new_id]> (
                 <["invalid_at" := JString now]> prior)) in
      _ ← append_node_rows [row];
      _ ← ok (link new_id target_id EDGE_INVALIDATES (as_realm replacement) None);
      mret {| created_node_id := Some new_id; prior_rows := [prior];
              edges := [edge new_id target_id EDGE_INVALIDATES (as_realm replacement)] |}
  | Payload.Supersede target_id by_id =>
      prior ← fetch_latest_node target_id;
      let realm := realm_of prior in
      now ← clock;
      let row := <["updated_at" := JString now]> (<["superseded_by" := JString by_id]> (
                 <["invalid_at" := JString now]> prior)) in
      _ ← append_node_rows [row];
      _ ← ok (link by_id target_id EDGE_INVALIDATES realm None);
      mret {| created_node_id := None; prior_rows := [prior]; edges := [edge by_id target_id EDGE_INVALIDATES realm] |}
  | Payload.Merge into_id from_ids =>
      now ← clock;
      acc ← fold_all (merge_one into_id now) from_ids ([], []);
      mret {| created_node_id := None; prior_rows := acc.1; edges := acc.2 |}
  | Payload.Link src dst rel realm target_namespace =>
      _ ← link src dst rel realm target_namespace;
      mret {| created_node_id := None; prior_rows := [];
              edges := [{| er_src := src; er_dst := dst; er_rel := rel; er_realm := realm;
                           er_target_namespace := target_namespace |}] |}
  end.

(** *** Undoing ([apply_inverse_inner]) *)

Definition restore_row (now : string) (r : Row) : M unit := append_node_rows [<["updated_at" := JString now]> r].
Definition tombstone (now : string) (e : EdgeRef) : M unit :=
  let props := JObject [("deleted", JBool true); ("deleted_at", JString now)] in
  append_edge_rows [edge_row (json_text E) (er_src e) (er_dst e) (er_rel e) (er_realm e) (er_target_namespace e)
                      (Some props) now].

Fixpoint apply_inverse_inner (inv : Inverse) : M unit :=
  match inv with
  | ArchiveNode node_id =>
      o ← ok (fetch_latest_node node_id);
      match o with
      | Some row =>
          now ← clock;
          append_node_rows [<["updated_at" := JString now]> (<["status" := JString "archived"]> row)]
      | None => mret tt
      end
  | RestoreRows rows => now ← clock; for_all (restore_row now) rows
  | RemoveEdges edges => now ← clock; for_all (tombstone now) edges
  | Multi steps =>
      (fix go (l : list Inverse) : M unit :=
         match l with [] => mret tt | s :: l => apply_inverse_inner s ≫= fun _ => go l end) steps
  end.

Definition apply_inverse (inv : Inverse) : M unit := build_writer ≫= fun _ => apply_inverse_inner inv.

(** *** The store of queue rows *)

Inductive QueueStore := Pg (tenant : string) | Local.

(** The rows a store shows. *)
Definition queue_rows (store : QueueStore) (w : World) : list QueueRow :=
  match store with
  | Pg tenant => snd <$> filter (fun e => e.1 = tenant) (pg_queue w)
  | Local => read_local (file_queue w)
  end.

(** The row a table keeps of a new one. *)
Definition pg_new_row (r : QueueRow) : QueueRow :=
  {| qr_id := qr_id r; qr_realm := qr_realm r; qr_operation := qr_operation r; qr_mode := qr_mode r;
     qr_status := qr_status r; qr_confidence := qr_confidence r; qr_reason := qr_reason r; qr_source := qr_source r;
     qr_source_run_id := qr_source_run_id r; qr_payload := qr_payload r; qr_inverse := qr_inverse r;
     qr_created_at := pg_time E (qr_created_at r); qr_resolved_at := None; qr_resolved_by := None;
     qr_resolution_comment := None |}.

Definition insert_row (store : QueueStore) (row : QueueRow) : M unit :=
  match store with
  | Pg tenant => call (fun w =>
      if existsb (fun e => bool_decide (qr_id e.2 = qr_id row)) (pg_queue w) then Fail "duplicate key value"
      else Ret (tt, with_table (fun l => l ++ [(tenant, pg_new_row row)]) w))
  | Local => call (fun w => Ret (tt, with_file (fun f => Stored (read_local f ++ [row])) w))
  end.

Definition get_row (store : QueueStore) (id : string) : M (option QueueRow) :=
  call (fun w => Ret (get_local id (queue_rows store w), w)).

Definition list_rows (store : QueueStore) (f : QueueFilter) : M (list QueueRow) :=
  call (fun w => Ret (list_local f (queue_rows store w), w)).

Definition count_rows (store : QueueStore) : M QueueCounts :=
  call (fun w => Ret (counts_local (queue_rows store w), w)).

(** [UPDATE .. WHERE id = $1 AND tenant_id = $2]; an identifier is a primary key. *)
Fixpoint update_table (tenant id status now : string) (by_ comment : option string) (rows : list (string * QueueRow)) :
    option QueueRow * list (string * QueueRow) :=
  match rows with
  | [] => (None, [])
  | (t, r) :: rows =>
      if decide (qr_id r = id /\ t = tenant) then let r := stamp status now by_ comment r in (Some r, (t, r) :: rows)
      else let '(u, rows) := update_table tenant id status now by_ comment rows in (u, (t, r) :: rows)
  end.

Definition update_status (store : QueueStore) (id status : string) (by_ comment : option string) : M (option QueueRow) :=
  now ← clock;
  match store with
  | Pg tenant => call (fun w =>
      let '(u, rows) := update_table tenant id status (pg_time E now) by_ comment (pg_queue w) in
      Ret (u, with_table (fun _ => rows) w))
  | Local => call (fun w =>
      let '(u, rows) := update_local id status now by_ comment (read_local (file_queue w)) in
      Ret (u, match u with Some _ => with_file (fun _ => Stored rows) w | None => w end))
  end.

(** *** Routing ([dispatch], [resolve]) *)

Record HitlGate := {
  g_policy : HitlPolicy; g_store : QueueStore; g_resolver : option string; g_source : string;
  g_source_run_id : option string }.

Record GateCtx := {
  gc_op : Op.t; gc_realm : string; gc_mem_type : option string; gc_confidence : option b32; gc_reason : option string }.

Record GateOutcome := { go_applied : bool; go_queued_id : option string; go_created_node_id : option string }.

(** [QueueRow::new] *)
Definition new_row (operation : Op.t) (realm mode status : string) (confidence : option b32) (reason : option string)
    (source : string) (source_run_id : option string) (payload : Payload.t) (inverse : option Inverse) : M QueueRow :=
  id ← uuid;
  now ← clock;
  mret {| qr_id := id; qr_realm := realm; qr_operation := operation; qr_mode := mode; qr_status := status;
          qr_confidence := confidence; qr_reason := reason; qr_source := source; qr_source_run_id := source_run_id;
          qr_payload := payload; qr_inverse := inverse; qr_created_at := now; qr_resolved_at := None;
          qr_resolved_by := None; qr_resolution_comment := None |}.

Definition dispatch (gate : HitlGate) (ctx : GateCtx) (payload : Payload.t) (apply : M AppliedRef) : M GateOutcome :=
  match classify (gc_op ctx) (gc_confidence ctx) (gc_realm ctx) (gc_mem_type ctx) (g_policy gate) with
  | Apply =>
      applied ← apply;
      mret {| go_applied := true; go_queued_id := None; go_created_node_id := created_node_id applied |}
  | PostHoc =>
      applied ← apply;
      let inverse := inverse_of (gc_op ctx) payload applied in
      row ← new_row (gc_op ctx) (gc_realm ctx) "post_hoc" "auto_applied" (gc_confidence ctx) (gc_reason ctx)
              (g_source gate) (g_source_run_id gate) payload inverse;
      _ ← insert_row (g_store gate) row;
      mret {| go_applied := true; go_queued_id := Some (qr_id row); go_created_node_id := created_node_id applied |}
  | Gate =>
      row ← new_row (gc_op ctx) (gc_realm ctx) "gate" "pending" (gc_confidence ctx) (gc_reason ctx)
              (g_source gate) (g_source_run_id gate) payload None;
      _ ← insert_row (g_store gate) row;
      mret {| go_applied := false; go_queued_id := Some (qr_id row); go_created_node_id := None |}
  end.

Definition gate_or_apply (gate : option HitlGate) (ctx : GateCtx) (payload : Payload.t) (apply : M AppliedRef) :
    M GateOutcome :=
  match gate with
  | Some g => dispatch g ctx payload apply
  | None =>
      applied ← apply;
      mret {| go_applied := true; go_queued_id := None; go_created_node_id := created_node_id applied |}
  end.

Inductive ResolveAction := Approve | Reject | Undo.

Definition parse_action (s : string) : option ResolveAction :=
  if decide (s = "approve") then Some Approve
  else if decide (s = "reject") then Some Reject
  else if decide (s = "undo") then Some Undo
  else None.

Definition resolve (gate : HitlGate) (id : string) (action : ResolveAction) (edited_payload : option Payload.t)
    (comment : option string) : M QueueRow :=
  o ← get_row (g_store gate) id;
  row ← or_error "queue row not found" o;
  let by_ := g_resolver gate in
  match action with
  | Approve =>
      if negb (bool_decide (qr_status row = "pending")) then
        fail (fmt ["only pending rows can be approved (status: "; qr_status row; ")"])
      else
        let payload := default (qr_payload row) edited_payload in
        _ ← apply_op payload;
        o ← update_status (g_store gate) id "approved" by_ comment;
        or_error "row vanished during approve" o
  | Reject =>
      if negb (bool_decide (qr_status row = "pending")) then
        fail (fmt ["only pending rows can be rejected (status: "; qr_status row; ")"])
      else
        o ← update_status (g_store gate) id "rejected" by_ comment;
        or_error "row vanished during reject" o
  | Undo =>
      if negb (bool_decide (qr_status row = "auto_applied")) then
        fail (fmt ["only auto-applied (post-hoc) rows can be undone (status: "; qr_status row; ")"])
      else
        inv ← or_error "row has no inverse to undo" (qr_inverse row);
        _ ← apply_inverse inv;
        o ← update_status (g_store gate) id "rolled_back" by_ comment;
        or_error "row vanished during undo" o
  end.

(** [gate_tool_op]: what the tool answers; without a gate the caller applies the
    operation itself. *)
Definition gate_tool_op (hitl : option HitlGate) (op : Op.t) (realm : string) (reason : option string)
    (payload : Payload.t) : M (option Json) :=
  match hitl with
  | None => mret None
  | Some gate => fun w =>
      let ctx := {| gc_op := op; gc_realm := realm; gc_mem_type := None; gc_confidence := None; gc_reason := reason |} in
      match dispatch gate ctx payload (apply_op payload) w with
      | (Ret o, w) =>
          (Ret (Some (JObject
             (if go_applied o then
                [("ok", JBool true); ("applied", JBool true);
                 ("queued_for_review", JBool (bool_decide (is_Some (go_queued_id o))));
                 ("queue_id", json_opt (go_queued_id o))]
              else
                [("ok", JBool true); ("applied", JBool false); ("queued_for_review", JBool true);
                 ("queue_id", json_opt (go_queued_id o));
                 ("note", JString "deferred to the memory approval queue (HITL policy)")]))), w)
      | (Fail e, w) => (Ret (Some (JObject [("error", JString (fmt ["gate: "; e]))])), w)
      | (Panic, w) => (Panic, w)
      | (OutOfFuel, w) => (OutOfFuel, w)
      end
  end.

(** *** Consolidation ([memory_conflict.rs]) *)

Inductive ConflictOp := CAdd | CUpdate | CNoop | CInvalidate.

Definition parse_conflict (s : string) : ConflictOp :=
  let s := uppercase (trim s) in
  if decide (s = "UPDATE") then CUpdate
  else if decide (s = "NOOP") then CNoop
  else if decide (s = "INVALIDATE") then CInvalidate
  else CAdd.

Record ConflictDecision := {
  cd_op : ConflictOp; cd_target_id : option string; cd_merged_content : option string; cd_reason : option string }.

Record ExtractedMemory := {
  em_content : string; em_title : option string; em_kind : string; em_importance : b32; em_valid_at : option string;
  em_confidence : option b32 }.

Record ConflictTally := { t_added : Z; t_updated : Z; t_noop : Z; t_invalidated : Z; t_gated : Z; t_rejected_trivial : Z }.
Definition tally (added updated noop invalidated gated : Z) : ConflictTally :=
  {| t_added := added; t_updated := updated; t_noop := noop; t_invalidated := invalidated; t_gated := gated;
     t_rejected_trivial := 0 |}.

Definition written (t : ConflictTally) : Z := (t_added t + t_updated t)%Z.
Definition merge_tally (a b : ConflictTally) : ConflictTally :=
  {| t_added := (t_added a + t_added b)%Z; t_updated := (t_updated a + t_updated b)%Z; t_noop := (t_noop a + t_noop b)%Z;
     t_invalidated := (t_invalidated a + t_invalidated b)%Z; t_gated := (t_gated a + t_gated b)%Z;
     t_rejected_trivial := (t_rejected_trivial a + t_rejected_trivial b)%Z |}.

(** The decision as a gateable operation; [None] is NOOP. *)
Definition decision_op (d : ConflictDecision) (content : string) (spec : AddSpec) : option (Op.t * Payload.t) :=
  match cd_op d with
  | CNoop => None
  | CAdd => Some (Op.Add, Payload.Add spec)
  | CUpdate =>
      match cd_target_id d with
      | Some target => Some (Op.Update, Payload.Update target (default content (cd_merged_content d)))
      | None => Some (Op.Add, Payload.Add spec)
      end
  | CInvalidate =>
      match cd_target_id d with
      | Some target => Some (Op.Invalidate, Payload.Invalidate target spec)
      | None => Some (Op.Add, Payload.Add spec)
      end
  end.

Definition ACTIVITIES_NAMESPACE : string := "activities/activities".

(** [consolidate_memory]; [decided] is what the model answered about the nearest
    memories, [None] when it failed. *)
Definition consolidate_memory (realm : string) (m : ExtractedMemory) (references : list string) (provenance : Json)
    (gate : option HitlGate) (activity_id : option string) (decided : option ConflictDecision) : M ConflictTally :=
  let content := trim (em_content m) in
  if decide (content = "") then mret (tally 0 0 0 0 0)
  else
    let decision := default {| cd_op := CAdd; cd_target_id := None; cd_merged_content := None;
                               cd_reason := Some "decision error" |} decided in
    let spec := {| as_content := content; as_title := em_title m; as_memory_type := em_kind m; as_realm := realm;
                   as_importance := clamp01 (em_importance m); as_references := references;
                   as_valid_at := em_valid_at m; as_provenance := provenance |} in
    match decision_op decision content spec with
    | None => mret (tally 0 0 1 0 0)
    | Some (op, payload) =>
        let ctx := {| gc_op := op; gc_realm := realm; gc_mem_type := Some (em_kind m); gc_confidence := em_confidence m;
                      gc_reason := cd_reason decision |} in
        o ← ok (gate_or_apply gate ctx payload (apply_op payload));
        match o with
        | None => mret (tally 0 0 0 0 0)
        | Some o =>
            if go_applied o then
              let t := match op with
                       | Op.Add => tally 1 0 0 0 0
                       | Op.Update => tally 0 1 0 0 0
                       | Op.Invalidate => tally 1 0 0 1 0
                       | _ => tally 0 0 0 0 0
                       end in
              match activity_id, go_created_node_id o with
              | Some activity, Some new_id =>
                  _ ← ok (link new_id activity EDGE_DERIVED_FROM realm (Some ACTIVITIES_NAMESPACE));
                  mret t
              | _, _ => mret t
              end
            else mret (tally 0 0 0 0 1)
        end
    end.
End Code.

(** ** Running alone

    Nobody else acts and no call fails: every step of the code then has one
    result, and grows the table of nodes by the rows it appends. *)

Lemma bind_runs_as {A B} (m : M A) (k : A -> M B) w a w' : m w = (Ret a, w') -> (m ≫= k) w = k a w'.
Proof. unfold mbind, M_bind. by intros ->. Qed.

Definition quiet (E : Env) : Prop := (forall n w, others E n w = w) /\ forall n, fault E n = None.

(** [w'] is [w] with these versions appended; the queue is untouched. *)
Record grows (rows : list Row) (w w' : World) : Prop := {
  g_nodes : nodes w' = nodes w ++ rows;
  g_calls : calls w <= calls w';
  g_pg : pg_queue w' = pg_queue w;
  g_file : file_queue w' = file_queue w }.

Lemma grows_refl w : grows [] w w.
Proof. split; [by rewrite app_nil_r|lia|done..]. Qed.
Lemma grows_step w : grows [] w (step w).
Proof. split; cbn; [by rewrite app_nil_r|lia|done..]. Qed.
Lemma grows_trans r1 r2 w1 w2 w3 : grows r1 w1 w2 -> grows r2 w2 w3 -> grows (r1 ++ r2) w1 w3.
Proof.
  intros [H1 H2 H3 H4] [K1 K2 K3 K4]. split; [|lia|congruence..]. by rewrite K1, H1, (assoc_L (++)).
Qed.
Lemma grows_nil_l r w1 w2 w3 : grows [] w1 w2 -> grows r w2 w3 -> grows r w1 w3.
Proof. apply (grows_trans []). Qed.
Lemma grows_nil_r r w1 w2 w3 : grows r w1 w2 -> grows [] w2 w3 -> grows r w1 w3.
Proof. intros H1 H2. rewrite <-(app_nil_r r). by eapply grows_trans. Qed.
#[export] Hint Resolve grows_refl grows_step : pensieve.

(** A run that returns [a] and grows the table by [rows]. *)
Definition runs {A} (m : M A) (w : World) (a : A) (rows : list Row) : Prop :=
  exists w', m w = (Ret a, w') /\ grows rows w w'.

Section Alone.
  Context (E : Env) (Hq : quiet E).

Lemma call_quiet {A} (f : World -> outcome string (A * World)) w a w' :
  f (step w) = Ret (a, w') -> call E f w = (Ret a, w').
Proof. unfold call. destruct Hq as [-> ->]. by intros ->. Qed.

Lemma ensure_provisioned_runs w : runs (ensure_provisioned E) w tt [].
Proof. eexists. split; [by apply call_quiet|auto with pensieve]. Qed.
Lemma build_writer_runs w : runs (build_writer E) w tt [].
Proof. eexists. split; [by apply call_quiet|auto with pensieve]. Qed.
Lemma embed_one_runs t w : runs (embed_one E t) w (embed E t) [].
Proof. eexists. split; [by apply call_quiet|auto with pensieve]. Qed.

Lemma append_rows_nodes rows w : runs (append_rows E with_nodes rows) w tt rows.
Proof.
  destruct rows as [|r rows]; [eexists; split; [done|auto with pensieve]|].
  eexists. split; [by apply call_quiet|]. split; cbn; [done|lia|done..].
Qed.
Lemma append_rows_edges rows w : runs (append_rows E with_edges rows) w tt [].
Proof.
  destruct rows as [|r rows]; [eexists; split; [done|auto with pensieve]|].
  eexists. split; [by apply call_quiet|]. split; cbn; [by rewrite app_nil_r|lia|done..].
Qed.

Lemma runs_bind {A B} (m : M A) (k : A -> M B) w a b r1 r2 :
  runs m w a r1 -> (forall w', grows r1 w w' -> runs (k a) w' b r2) -> runs (m ≫= k) w b (r1 ++ r2).
Proof.
  intros (w1 & Hm & G1) Hk. destruct (Hk w1 G1) as (w2 & Hw & G2). exists w2. split; [|by eapply grows_trans].
  by rewrite (bind_runs_as _ _ _ _ _ Hm).
Qed.
(** The same where the first part appends nothing. *)
Lemma runs_then {A B} (m : M A) (k : A -> M B) w a b r :
  runs m w a [] -> (forall w', grows [] w w' -> runs (k a) w' b r) -> runs (m ≫= k) w b r.
Proof. apply (runs_bind m k w a b []). Qed.
Lemma runs_ret {A} (a : A) w : runs (mret a) w a [].
Proof. exists w. split; [done|apply grows_refl]. Qed.

Lemma append_node_rows_runs rows w : runs (append_node_rows E rows) w tt rows.
Proof. eapply runs_then; [apply ensure_provisioned_runs|]. intros w' _. apply append_rows_nodes. Qed.
Lemma append_edge_rows_runs rows w : runs (append_edge_rows E rows) w tt [].
Proof. eapply runs_then; [apply ensure_provisioned_runs|]. intros w' _. apply append_rows_edges. Qed.

Lemma clock_runs w : runs (clock E) w (now_rfc3339 E (calls w)) [].
Proof. eexists. split; [done|apply grows_step]. Qed.
Lemma uuid_runs w : runs (uuid E) w (new_uuid E (calls w)) [].
Proof. eexists. split; [done|apply grows_step]. Qed.

Lemma link_runs src dst rel realm ns w : runs (link E src dst rel realm ns) w tt [].
Proof.
  eapply runs_then; [apply ensure_provisioned_runs|]. intros w1 _.
  eapply runs_then; [apply clock_runs|]. intros w2 _. apply append_rows_edges.
Qed.

Lemma ok_runs {A} (m : M A) w a r : runs m w a r -> runs (ok m) w (Some a) r.
Proof. intros (w' & Hm & G). exists w'. split; [|done]. unfold ok. by rewrite Hm. Qed.

Lemma fetch_latest_node_runs id w r : latest_node E id (nodes w) = Some r -> runs (fetch_latest_node E id) w r [].
Proof.
  intros Hl. eapply (runs_then (memory_barrier E)).
  { exists (step w). split; [unfold memory_barrier; by destruct Hq as [-> _]|apply grows_step]. }
  intros w1 G1. assert (Hn : nodes w1 = nodes w) by (rewrite (g_nodes _ _ _ G1); apply app_nil_r).
  eapply (runs_then _ _ _ (Some r)); [|intros; apply runs_ret].
  exists (step w1). split; [|apply grows_step]. apply call_quiet. cbn. by rewrite Hn, Hl.
Qed.
Lemma fetch_latest_node_fails id w : latest_node E id (nodes w) = None -> runs (ok (fetch_latest_node E id)) w None [].
Proof.
  intros Hl. exists (step (step w)). split; [|eapply grows_trans with (r1 := []); apply grows_step].
  unfold ok, fetch_latest_node. rewrite (bind_runs_as _ _ _ tt (step w)).
  2: { unfold memory_barrier. by destruct Hq as [-> _]. }
  rewrite (bind_runs_as _ _ _ None (step (step w))); [done|]. apply call_quiet. cbn. by rewrite Hl.
Qed.
End Alone.

(** ** Versions *)

Definition updated_at (r : Row) : option string := get_str r "updated_at".

(** [a] does not come before [b] in [ORDER BY updated_at DESC], nulls first. *)
Definition not_newer (a b : option string) : bool :=
  match b, a with
  | None, _ => true
  | Some _, None => false
  | Some t, Some s => str_le s t
  end.

(** What SQL says of [row_number() = 1]. *)
Record picks_newest (E : Env) : Prop := {
  newest_max l r : newest E l = Some r -> r ∈ l /\ forall r', r' ∈ l -> not_newer (updated_at r') (updated_at r) = true;
  newest_none l : newest E l = None -> l = [] }.

(** The clock's texts increase, as RFC3339 texts of one zone do. *)
Definition ticks (E : Env) : Prop := forall i j, i < j -> str_lt (now_rfc3339 E i) (now_rfc3339 E j) = true.

(** Every version was written before now. *)
Definition settled (E : Env) (w : World) : Prop :=
  forall r, r ∈ nodes w -> exists t, updated_at r = Some t /\ forall n, calls w <= n -> str_lt t (now_rfc3339 E n) = true.

Definition view (E : Env) (w : World) (id : string) : option Row := newest E (versions id (nodes w)).

(** Rows that replace the versions of their nodes. *)
Definition overlay (rows : list Row) (v : string -> option Row) (id : string) : option Row :=
  match List.find (fun r => bool_decide (get_str r "id" = Some id)) rows with Some r => Some r | None => v id end.

(** Rows of different nodes stamped with the [n]-th reading of the clock. *)
Record batch (E : Env) (n : nat) (rows : list Row) : Prop := {
  b_stamp r : r ∈ rows -> updated_at r = Some (now_rfc3339 E n);
  b_ids : NoDup ((fun r => get_str r "id") <$> rows) }.

Lemma str_lt_not_le s t : str_lt s t = true -> str_le t s = false.
Proof.
  unfold str_lt, str_le, str_compare. rewrite (String.compare_antisym t s). by destruct (String.compare s t).
Qed.
Lemma str_lt_trans s t u : str_lt s t = true -> str_lt t u = true -> str_lt s u = true.
Proof.
  intros H1 H2. destruct (str_lt s u) eqn:H; [done|]. apply str_not_lt_le in H.
  pose proof (str_lt_not_le _ _ H1) as H3. rewrite (str_le_trans t u s) in H3; [done| |done]. by apply str_lt_le.
Qed.

Lemma versions_app id l1 l2 : versions id (l1 ++ l2) = versions id l1 ++ versions id l2.
Proof. apply filter_app. Qed.

Lemma versions_none id rows :
  List.find (fun r => bool_decide (get_str r "id" = Some id)) rows = None -> versions id rows = [].
Proof.
  induction rows as [|r rows IH]; [done|]. cbn [List.find]. unfold versions. rewrite filter_cons.
  case_bool_decide; [done|]. intros H2. rewrite decide_False by done. by apply IH.
Qed.

Lemma versions_one id rows r : NoDup ((fun r => get_str r "id") <$> rows) ->
  List.find (fun r => bool_decide (get_str r "id" = Some id)) rows = Some r -> versions id rows = [r].
Proof.
  induction rows as [|x rows IH]; [done|]. rewrite fmap_cons, NoDup_cons. intros [Hx Hnd]. cbn [List.find].
  unfold versions. rewrite filter_cons. case_bool_decide as Hid.
  - intros [= ->]. rewrite decide_True by done. f_equal. apply versions_none.
    destruct (List.find _ rows) as [y|] eqn:Hf; [|done]. apply List.find_some in Hf as [Hy Hyid].
    apply bool_decide_eq_true in Hyid. destruct Hx. apply list_elem_of_fmap. exists y.
    split; [congruence|by apply list_elem_of_In].
  - intros Hf. rewrite decide_False by done. by apply IH.
Qed.

Section Versions.
  Context (E : Env) (Hn : picks_newest E).

Lemma newest_single r : newest E [r] = Some r.
Proof.
  destruct (newest E [r]) as [x|] eqn:Hx; [|by apply (newest_none E Hn) in Hx].
  apply (newest_max E Hn) in Hx as [Hx _]. by apply list_elem_of_singleton in Hx as ->.
Qed.

(** A version that is strictly later than the others is the newest. *)
Lemma newest_app l r t : updated_at r = Some t ->
  (forall r', r' ∈ l -> exists s, updated_at r' = Some s /\ str_lt s t = true) -> newest E (l ++ [r]) = Some r.
Proof.
  intros Hr Hl. destruct (newest E (l ++ [r])) as [x|] eqn:Hx.
  2: { apply (newest_none E Hn) in Hx. by destruct l. }
  apply (newest_max E Hn) in Hx as [Hin Hmax]. apply elem_of_app in Hin as [Hin|Hin].
  - destruct (Hl x Hin) as (s & Hs & Hlt).
    assert (Hle := Hmax r ltac:(apply elem_of_app; right; apply list_elem_of_singleton; done)).
    rewrite Hr, Hs in Hle. cbn in Hle. rewrite (str_lt_not_le _ _ Hlt) in Hle. done.
  - by apply list_elem_of_singleton in Hin as ->.
Qed.

(** What is seen after a batch is what the batch wrote over what was seen. *)
Lemma view_batch n rows w w' : settled E w -> calls w <= n -> batch E n rows -> nodes w' = nodes w ++ rows ->
  forall id, view E w' id = overlay rows (view E w) id.
Proof.
  intros Hs Hc [Hst Hnd] Hw id. unfold view, overlay. rewrite Hw, versions_app.
  destruct (List.find _ rows) as [r|] eqn:Hf.
  - rewrite (versions_one _ _ _ Hnd Hf). apply List.find_some in Hf as [Hin _].
    apply newest_app with (t := now_rfc3339 E n); [apply Hst; by apply list_elem_of_In|].
    intros r' Hr'. apply list_elem_of_filter in Hr' as [_ Hr'].
    destruct (Hs r' Hr') as (t & Ht & Hlt). eauto.
  - by rewrite (versions_none _ _ Hf), app_nil_r.
Qed.

Lemma settled_batch n rows w w' : ticks E -> settled E w -> n < calls w' -> batch E n rows -> grows rows w w' ->
  settled E w'.
Proof.
  intros Ht Hs Hc [Hst _] [G1 G2 _ _] r. rewrite G1. intros [Hr|Hr]%elem_of_app.
  - destruct (Hs r Hr) as (t & Ht' & Hlt). exists t. split; [done|]. intros m Hm. apply Hlt. lia.
  - exists (now_rfc3339 E n). split; [by apply Hst|]. intros m Hm. apply Ht. lia.
Qed.

Lemma settled_grows w w' : settled E w -> grows [] w w' -> settled E w'.
Proof.
  intros Hs [G1 G2 _ _] r. rewrite G1, app_nil_r. intros Hr. destruct (Hs r Hr) as (t & Ht & Hlt).
  exists t. split; [done|]. intros m Hm. apply Hlt. lia.
Qed.

Lemma view_grows w w' id : grows [] w w' -> view E w' id = view E w id.
Proof. intros [G1 _ _ _]. unfold view. by rewrite G1, app_nil_r. Qed.

Lemma view_versions w id r : view E w id = Some r -> r ∈ nodes w /\ get_str r "id" = Some id.
Proof.
  unfold view. intros [Hin _]%(newest_max E Hn). by apply list_elem_of_filter in Hin as [? ?].
Qed.

Lemma latest_view w id : latest_node E id (nodes w) = project LATEST_COLUMNS <$> view E w id.
Proof. done. Qed.
End Versions.

(** ** Applying and undoing *)

Lemma get_str_insert_ne r k k' v : k <> k' -> get_str (<[k := v]> r) k' = get_str r k'.
Proof. intros H. unfold get_str. by rewrite lookup_insert_ne. Qed.
Lemma get_str_insert r k s : get_str (<[k := JString s]> r) k = Some s.
Proof. unfold get_str. by rewrite lookup_insert_eq. Qed.
Lemma get_str_project cols r k : k ∈ cols -> get_str (project cols r) k = get_str r k.
Proof.
  intros Hk. unfold get_str, project. f_equal. destruct (r !! k) as [v|] eqn:Hr.
  - by apply map_lookup_filter_Some.
  - apply map_lookup_filter_None. by left.
Qed.
Lemma col_project cols r k : k ∈ cols -> col (project cols r) k = col r k.
Proof.
  intros Hk. unfold col, project. f_equal. destruct (r !! k) as [v|] eqn:Hr.
  - by apply map_lookup_filter_Some.
  - apply map_lookup_filter_None. by left.
Qed.
Lemma get_str_col r k : get_str r k = as_str (col r k).
Proof. unfold get_str, col. by destruct (r !! k). Qed.
#[export] Hint Rewrite get_str_insert : pensieve.

Ltac in_columns := apply (bool_decide_unpack _); vm_compute; exact I.

Definition row_ids (l : list Row) : list (option string) := (fun r => get_str r "id") <$> l.

Lemma batch_one E n r : updated_at r = Some (now_rfc3339 E n) -> batch E n [r].
Proof.
  intros Hr. split; [|apply NoDup_singleton]. by intros r' ->%list_elem_of_singleton.
Qed.

(** A version of the row that was read. *)
Definition edited (prior row : Row) : Prop := get_str row "id" = get_str prior "id".

Section Apply.
  Context (E : Env) (Hq : quiet E) (Hn : picks_newest E) (Ht : ticks E).

(** What running a piece of code does to what is seen. *)
Record moves (w w' : World) (v : string -> option Row) : Prop := {
  mv_view : forall id, view E w' id = v id;
  mv_settled : settled E w';
  mv_calls : calls w <= calls w';
  mv_pg : pg_queue w' = pg_queue w;
  mv_file : file_queue w' = file_queue w }.

Lemma moves_grows w w' : settled E w -> grows [] w w' -> moves w w' (view E w).
Proof.
  intros Hs G. split; [intros; by apply view_grows|by eapply settled_grows|apply G..].
Qed.
Lemma moves_trans w1 w2 w3 v2 v3 : moves w1 w2 v2 -> moves w2 w3 v3 -> moves w1 w3 v3.
Proof. intros [? ? ? ? ?] [? ? ? ? ?]. split; [done|done|lia|congruence..]. Qed.
Lemma moves_ext w w' v v' : moves w w' v -> (forall id, v id = v' id) -> moves w w' v'.
Proof. intros [H1 H2 H3 H4 H5] Hv. split; [|done..]. intros id. by rewrite H1. Qed.

Lemma moves_batch n rows w w' : settled E w -> calls w <= n < calls w' -> batch E n rows -> grows rows w w' ->
  moves w w' (overlay rows (view E w)).
Proof.
  intros Hs Hc Hb G. pose proof (g_calls _ _ _ G). split; [|by apply (settled_batch E n rows w); [..|lia| |]|apply G..].
  apply (view_batch E Hn n); [done|lia|done|apply G].
Qed.

(** Appending one version of a node, stamped with a clock read since [w]. *)
Lemma append_one n row w w1 : settled E w -> grows [] w w1 -> calls w <= n < calls w1 ->
  updated_at row = Some (now_rfc3339 E n) ->
  exists w', append_node_rows E [row] w1 = (Ret tt, w') /\ moves w w' (overlay [row] (view E w)).
Proof.
  intros Hs G Hc Hu. destruct (append_node_rows_runs E Hq [row] w1) as (w' & Hw & G').
  exists w'. split; [done|]. pose proof (g_calls _ _ _ G').
  apply (moves_batch n); [done|lia|by apply batch_one|by eapply grows_nil_l].
Qed.

Lemma clock_run w : clock E w = (Ret (now_rfc3339 E (calls w)), step w).
Proof. done. Qed.

(** New nodes get names no node has. *)
Definition fresh_nodes (w : World) : Prop := forall n, calls w <= n -> view E w (node_id (new_uuid E n)) = None.

Lemma save_moves m w : settled E w ->
  exists n w' row, calls w <= n /\ save E m w = (Ret (new_uuid E n), w')
    /\ get_str row "id" = Some (node_id (new_uuid E n)) /\ get_str row "status" = Some "active"
    /\ moves w w' (overlay [row] (view E w)).
Proof.
  intros Hs. unfold save.
  destruct (ensure_provisioned_runs E Hq w) as (w1 & H1 & G1). rewrite (bind_runs_as _ _ _ _ _ H1).
  destruct (redact_create_total m) as (m' & Hm & _).
  rewrite (bind_runs_as _ _ w1 m' w1) by (unfold pure_code; by rewrite Hm).
  destruct (embed_one_runs E Hq (cm_content m') w1) as (w2 & H2 & G2). rewrite (bind_runs_as _ _ _ _ _ H2).
  rewrite (bind_runs_as _ _ w2 (new_uuid E (calls w2)) (step w2)) by done.
  rewrite (bind_runs_as _ _ _ _ _ (clock_run (step w2))). cbn [calls step].
  set (row := node_row _ _ _ _ _).
  assert (G : grows [] w (step (step w2))).
  { eapply grows_nil_l; [exact G1|]. eapply grows_nil_l; [exact G2|]. eapply grows_nil_l; apply grows_step. }
  destruct (append_rows_nodes E Hq [row] (step (step w2))) as (w3 & H3 & G3). rewrite (bind_runs_as _ _ _ _ _ H3).
  assert (Hmv : moves w w3 (overlay [row] (view E w))).
  { pose proof (g_calls _ _ _ G1). pose proof (g_calls _ _ _ G2). pose proof (g_calls _ _ _ G3). cbn in *.
    apply (moves_batch (S (calls w2))); [done|lia|by apply batch_one|by eapply grows_nil_l]. }
  pose proof (g_calls _ _ _ G1). pose proof (g_calls _ _ _ G2).
  destruct (is_empty (cm_references m')).
  - exists (calls w2), w3, row. repeat split; [lia|apply Hmv..].
  - destruct (append_rows_edges E Hq ((fun r => edge_row (json_text E) (node_id (new_uuid E (calls w2))) r EDGE_REFERENCES
       (cm_realm m') None None (now_rfc3339 E (S (calls w2)))) <$> cm_references m') w3) as (w4 & H4 & G4).
    exists (calls w2), w4, row. repeat split; [lia|by rewrite (bind_runs_as _ _ _ _ _ H4)|..].
    all: eapply moves_ext; [eapply moves_trans; [exact Hmv|apply moves_grows; [apply Hmv|exact G4]]|].
    all: intros id; apply Hmv.
Qed.

(** What [apply_op] reports of what it did: the rows it replaced, as they were
    seen, and the node it made; nothing else is seen differently. *)
Record applied (v v' : string -> option Row) (a : AppliedRef) : Prop := {
  a_prior p : p ∈ prior_rows a -> exists id r, get_str p "id" = Some id /\ v id = Some r /\ p = project LATEST_COLUMNS r;
  a_distinct : NoDup (row_ids (prior_rows a));
  a_created c : created_node_id a = Some c -> v c = None /\ is_Some (v' c);
  a_rest id : Some id ∉ row_ids (prior_rows a) -> created_node_id a <> Some id -> v' id = v id }.

Lemma applied_one v id r row es : v id = Some r -> get_str r "id" = Some id -> get_str row "id" = Some id ->
  applied v (overlay [row] v) {| created_node_id := None; prior_rows := [project LATEST_COLUMNS r]; edges := es |}.
Proof.
  intros Hv Hid Hrow. assert (Hp : get_str (project LATEST_COLUMNS r) "id" = Some id).
  { rewrite get_str_project; [done|in_columns]. }
  split; cbn.
  - intros p ->%list_elem_of_singleton. eauto.
  - apply NoDup_singleton.
  - done.
  - intros id' Hne _. unfold overlay. cbn. rewrite bool_decide_eq_false_2; [done|].
    rewrite Hrow. intros [= ->]. apply Hne. rewrite Hp. by apply list_elem_of_singleton.
Qed.

Lemma overlay_one row v id : get_str row "id" = Some id -> overlay [row] v id = Some row.
Proof. intros H. unfold overlay. cbn. by rewrite bool_decide_eq_true_2. Qed.
Lemma overlay_ne row v id : get_str row "id" <> Some id -> overlay [row] v id = v id.
Proof. intros H. unfold overlay. cbn. by rewrite bool_decide_eq_false_2. Qed.

Lemma fetch_view w id r : view E w id = Some r ->
  runs (fetch_latest_node E id) w (project LATEST_COLUMNS r) [] /\ get_str r "id" = Some id.
Proof.
  intros Hv. split; [|by apply (view_versions E Hn w)]. apply fetch_latest_node_runs; [done|].
  rewrite latest_view. by rewrite Hv.
Qed.

(** Reading a node, editing its row at a time of the clock and appending it. *)
Lemma edit_moves w w1 id r n row : settled E w -> grows [] w w1 -> calls w <= n < calls w1 -> view E w id = Some r ->
  get_str row "id" = get_str (project LATEST_COLUMNS r) "id" -> updated_at row = Some (now_rfc3339 E n) ->
  exists w', append_node_rows E [row] w1 = (Ret tt, w') /\ moves w w' (overlay [row] (view E w))
    /\ get_str row "id" = Some id.
Proof.
  intros Hs G Hc Hv Hid Hu. destruct (append_one n row w w1 Hs G Hc Hu) as (w' & Hw & Hm).
  exists w'. split; [done|]. split; [done|]. rewrite Hid, get_str_project; [|in_columns]. by apply (view_versions E Hn w).
Qed.
End Apply.

(** The bookkeeping of a run: each hypothesis [runs m w a []] is a step. *)
Ltac take_step H w G :=
  let K := fresh "K" in destruct H as (w & K & G); rewrite (bind_runs_as _ _ _ _ _ K).

Section ApplyOp.
  Context (E : Env) (Hq : quiet E) (Hn : picks_newest E) (Ht : ticks E).

(** The nodes an operation changes exist, and are named once. *)
Definition targets_exist (v : string -> option Row) (p : Payload.t) : Prop :=
  match p with
  | Payload.Add _ | Payload.Link _ _ _ _ _ => True
  | Payload.Update id _ | Payload.Archive id | Payload.Invalidate id _ | Payload.Supersede id _ => is_Some (v id)
  | Payload.Merge _ from_ids => NoDup from_ids
  end.

Definition apply_correct (p : Payload.t) : Prop := forall w, settled E w -> fresh_nodes E w -> targets_exist (view E w) p ->
  exists a w' v', apply_op E p w = (Ret a, w') /\ moves E w w' v' /\ applied (view E w) v' a.

Lemma apply_update id content : apply_correct (Payload.Update id content).
Proof.
  intros w Hs _ [r Hv]. unfold apply_op.
  take_step (build_writer_runs E Hq w) w1 G1.
  assert (Hv1 : view E w1 id = Some r) by (by rewrite (view_grows E _ _ _ G1)).
  destruct (fetch_view E Hq Hn w1 id r Hv1) as [Hf Hid]. take_step Hf w2 G2.
  take_step (embed_one_runs E Hq content w2) w3 G3.
  rewrite (bind_runs_as _ _ _ _ _ (clock_run E w3)). cbv zeta.
  assert (G : grows [] w (step w3)).
  { eapply grows_nil_l; [exact G1|]. eapply grows_nil_l; [exact G2|]. eapply grows_nil_l; [exact G3|apply grows_step]. }
  pose proof (g_calls _ _ _ G1). pose proof (g_calls _ _ _ G2). pose proof (g_calls _ _ _ G3).
  match goal with |- context [append_node_rows E [?row]] =>
    destruct (edit_moves E Hq Hn Ht w (step w3) id r (calls w3) row) as (w' & Hw & Hm & Hr) end; [done..|cbn; lia|done| | |].
  { unfold updated_at. rewrite !get_str_insert_ne by done. done. }
  { unfold updated_at. rewrite get_str_insert_ne by done. apply get_str_insert. }
  rewrite (bind_runs_as _ _ _ _ _ Hw). do 3 eexists. split; [done|]. split; [exact Hm|]. by eapply applied_one.
Qed.

Lemma apply_archive id : apply_correct (Payload.Archive id).
Proof.
  intros w Hs _ [r Hv]. unfold apply_op.
  take_step (build_writer_runs E Hq w) w1 G1.
  assert (Hv1 : view E w1 id = Some r) by (by rewrite (view_grows E _ _ _ G1)).
  destruct (fetch_view E Hq Hn w1 id r Hv1) as [Hf Hid]. take_step Hf w2 G2.
  rewrite (bind_runs_as _ _ _ _ _ (clock_run E w2)). cbv zeta.
  assert (G : grows [] w (step w2)).
  { eapply grows_nil_l; [exact G1|]. eapply grows_nil_l; [exact G2|apply grows_step]. }
  pose proof (g_calls _ _ _ G1). pose proof (g_calls _ _ _ G2).
  match goal with |- context [append_node_rows E [?row]] =>
    destruct (edit_moves E Hq Hn Ht w (step w2) id r (calls w2) row) as (w' & Hw & Hm & Hr) end; [done..|cbn; lia|done| | |].
  { by rewrite !get_str_insert_ne by done. }
  { apply get_str_insert. }
  rewrite (bind_runs_as _ _ _ _ _ Hw). do 3 eexists. split; [done|]. split; [exact Hm|]. by eapply applied_one.
Qed.

(** An edge changes nothing that is seen, whether it is written or not. *)
Lemma ok_link_moves w src dst rel realm ns : settled E w ->
  exists o w', ok (link E src dst rel realm ns) w = (Ret o, w') /\ moves E w w' (view E w).
Proof.
  intros Hs. destruct (ok_runs _ _ _ _ (link_runs E Hq src dst rel realm ns w)) as (w' & Hw & G).
  exists (Some tt), w'. split; [done|by apply moves_grows].
Qed.

Lemma apply_supersede id by_id : apply_correct (Payload.Supersede id by_id).
Proof.
  intros w Hs _ [r Hv]. unfold apply_op.
  take_step (build_writer_runs E Hq w) w1 G1.
  assert (Hv1 : view E w1 id = Some r) by (by rewrite (view_grows E _ _ _ G1)).
  destruct (fetch_view E Hq Hn w1 id r Hv1) as [Hf Hid]. take_step Hf w2 G2.
  rewrite (bind_runs_as _ _ _ _ _ (clock_run E w2)). cbv zeta.
  assert (G : grows [] w (step w2)).
  { eapply grows_nil_l; [exact G1|]. eapply grows_nil_l; [exact G2|apply grows_step]. }
  pose proof (g_calls _ _ _ G1). pose proof (g_calls _ _ _ G2).
  match goal with |- context [append_node_rows E [?row]] =>
    destruct (edit_moves E Hq Hn Ht w (step w2) id r (calls w2) row) as (w3 & Hw & Hm & Hr) end; [done..|cbn; lia|done| | |].
  { by rewrite !get_str_insert_ne by done. }
  { apply get_str_insert. }
  rewrite (bind_runs_as _ _ _ _ _ Hw).
  edestruct (ok_link_moves w3) as (o & w4 & Hl & Hm'); [apply Hm|]. rewrite (bind_runs_as _ _ _ _ _ Hl).
  do 3 eexists. split; [done|]. split; [eapply moves_ext; [eapply moves_trans; [exact Hm|exact Hm']|]|].
  { intros x. apply Hm. }
  by eapply applied_one.
Qed.

Lemma apply_link src dst rel realm ns : apply_correct (Payload.Link src dst rel realm ns).
Proof.
  intros w Hs _ _. unfold apply_op.
  take_step (build_writer_runs E Hq w) w1 G1. take_step (link_runs E Hq src dst rel realm ns w1) w2 G2.
  do 3 eexists. split; [done|]. split; [apply moves_grows; [done|by eapply grows_nil_l]|].
  split; cbn; [by intros p ?%not_elem_of_nil|constructor|done|done].
Qed.

Lemma add_spec_moves spec w : settled E w ->
  exists n w' row, calls w <= n /\ add_spec E spec w = (Ret (node_id (new_uuid E n)), w')
    /\ get_str row "id" = Some (node_id (new_uuid E n)) /\ moves E w w' (overlay [row] (view E w)).
Proof.
  intros Hs. destruct (save_moves E Hq Hn Ht (spec_memory spec) w Hs) as (n & w' & row & Hc & Hsv & Hid & _ & Hm).
  exists n, w', row. split; [done|]. split; [|done]. unfold add_spec. by rewrite (bind_runs_as _ _ _ _ _ Hsv).
Qed.

Lemma apply_add spec : apply_correct (Payload.Add spec).
Proof.
  intros w Hs Hfr _. unfold apply_op.
  take_step (build_writer_runs E Hq w) w1 G1.
  destruct (add_spec_moves spec w1) as (n & w2 & row & Hc & Hsv & Hid & Hm); [by eapply settled_grows|].
  rewrite (bind_runs_as _ _ _ _ _ Hsv).
  assert (Hm' : moves E w w2 (overlay [row] (view E w))).
  { eapply moves_ext; [eapply moves_trans; [by apply (moves_grows E w w1)|exact Hm]|].
    intros id. unfold overlay. destruct (List.find _ _); [done|]. by apply view_grows. }
  do 3 eexists. split; [done|]. split; [exact Hm'|]. pose proof (g_calls _ _ _ G1).
  split; cbn; [by intros p ?%not_elem_of_nil|constructor| |].
  - intros c [= <-]. split; [apply Hfr; lia|]. rewrite overlay_one by done. eauto.
  - intros id _ Hne. apply overlay_ne. rewrite Hid. congruence.
Qed.

Lemma apply_invalidate id spec : apply_correct (Payload.Invalidate id spec).
Proof.
  intros w Hs Hfr [r Hv]. unfold apply_op.
  take_step (build_writer_runs E Hq w) w1 G1. pose proof (g_calls _ _ _ G1).
  destruct (add_spec_moves spec w1) as (n & w2 & row & Hc & Hsv & Hid & Hm); [by eapply settled_grows|].
  rewrite (bind_runs_as _ _ _ _ _ Hsv).
  assert (Hv1 : view E w1 id = Some r) by (by rewrite (view_grows E _ _ _ G1)).
  assert (Hfresh : view E w (node_id (new_uuid E n)) = None) by (apply Hfr; lia).
  assert (Hne : id <> node_id (new_uuid E n)) by congruence.
  assert (Hv2 : view E w2 id = Some r).
  { rewrite (mv_view _ _ _ _ Hm), overlay_ne; [done|]. rewrite Hid. congruence. }
  destruct (fetch_view E Hq Hn w2 id r Hv2) as [Hf Hrid]. take_step Hf w3 G3.
  rewrite (bind_runs_as _ _ _ _ _ (clock_run E w3)). cbv zeta. pose proof (g_calls _ _ _ G3).
  assert (G : grows [] w2 (step w3)) by (eapply grows_nil_l; [exact G3|apply grows_step]).
  match goal with |- context [append_node_rows E [?row]] =>
    destruct (edit_moves E Hq Hn Ht w2 (step w3) id r (calls w3) row) as (w4 & Hw & Hm4 & Hr); [apply Hm|..] end;
    [done|cbn; lia|done| | |].
  { by rewrite !get_str_insert_ne by done. }
  { apply get_str_insert. }
  rewrite (bind_runs_as _ _ _ _ _ Hw).
  edestruct (ok_link_moves w4) as (o & w5 & Hl & Hm5); [apply Hm4|]. rewrite (bind_runs_as _ _ _ _ _ Hl).
  do 3 eexists. split; [done|]. split.
  { eapply moves_ext; [eapply moves_trans; [by apply (moves_grows E w w1)|];
      eapply moves_trans; [exact Hm|]; eapply moves_trans; [exact Hm4|exact Hm5]|].
    intros x. rewrite (mv_view _ _ _ _ Hm4). unfold overlay at 1. cbn [List.find].
    rewrite (mv_view _ _ _ _ Hm). reflexivity. }
  split; cbn [prior_rows created_node_id].
  - intros p ->%list_elem_of_singleton. exists id, r. repeat split; [|done].
    rewrite get_str_project; [done|in_columns].
  - apply NoDup_singleton.
  - intros c [= <-]. split; [done|]. cbn. case_bool_decide; [eauto|]. rewrite overlay_one by done. eauto.
  - intros x Hx Hx'. cbn. rewrite bool_decide_eq_false_2.
    + rewrite overlay_ne; [|rewrite Hid; congruence]. by apply view_grows.
    + rewrite Hr. intros [= ->]. apply Hx. apply list_elem_of_singleton. by rewrite get_str_project by in_columns.
Qed.

Definition archived_at (now : string) (prior : Row) : Row :=
  <["updated_at" := JString now]> (<["status" := JString "archived"]> prior).

Lemma archived_id now p : get_str (archived_at now p) "id" = get_str p "id".
Proof. unfold archived_at. by rewrite !get_str_insert_ne by done. Qed.
Lemma row_ids_archived now l : row_ids (archived_at now <$> l) = row_ids l.
Proof. unfold row_ids. rewrite <-list_fmap_compose. apply list_fmap_ext. intros. apply archived_id. Qed.

Lemma overlay_not_in rows v id : Some id ∉ row_ids rows -> overlay rows v id = v id.
Proof.
  intros Hx. unfold overlay. destruct (List.find _ rows) as [y|] eqn:Hf; [|done].
  apply List.find_some in Hf as [Hy Hid%bool_decide_eq_true]. destruct Hx. rewrite <-Hid.
  apply (list_elem_of_fmap_2 (fun r => get_str r "id")). by apply list_elem_of_In.
Qed.

(** The state of the loop of [Merge] over a world [w0], at time [n]: the rows
    read so far are those seen at the start, and have been archived. *)
Record merging (w0 : World) (n : nat) (seen : list string) (acc : list Row * list EdgeRef) (w : World) : Prop := {
  mg_grows : grows (archived_at (now_rfc3339 E n) <$> acc.1) w0 w;
  mg_prior p : p ∈ acc.1 -> exists id r, id ∈ seen /\ get_str p "id" = Some id /\ view E w0 id = Some r
                                         /\ p = project LATEST_COLUMNS r;
  mg_distinct : NoDup (row_ids acc.1);
  mg_calls : n < calls w }.

Lemma merging_batch w0 n seen acc w : merging w0 n seen acc w ->
  batch E n (archived_at (now_rfc3339 E n) <$> acc.1).
Proof.
  intros [_ _ Hd _]. split.
  - intros r (p & -> & _)%list_elem_of_fmap. unfold updated_at, archived_at. apply get_str_insert.
  - fold (row_ids (archived_at (now_rfc3339 E n) <$> acc.1)). by rewrite row_ids_archived.
Qed.

Lemma merging_view w0 n seen acc w id : settled E w0 -> calls w0 <= n -> merging w0 n seen acc w -> id ∉ seen ->
  view E w id = view E w0 id.
Proof.
  intros Hs Hc Hm Hid. rewrite (view_batch E Hn n _ w0 w Hs Hc (merging_batch _ _ _ _ _ Hm) (g_nodes _ _ _ (mg_grows _ _ _ _ _ Hm))).
  apply overlay_not_in. rewrite row_ids_archived. intros (p & Hp & Hin)%list_elem_of_fmap.
  destruct (mg_prior _ _ _ _ _ Hm p Hin) as (id' & r & Hs' & Hid' & _). congruence.
Qed.

Lemma merging_step w0 n into from seen acc w : settled E w0 -> calls w0 <= n -> from ∉ seen ->
  merging w0 n seen acc w ->
  exists acc' w', merge_one E into (now_rfc3339 E n) from acc w = (Ret acc', w') /\ merging w0 n (from :: seen) acc' w'.
Proof.
  intros Hs Hc Hfrom Hm. pose proof (merging_view _ _ _ _ _ from Hs Hc Hm Hfrom) as Hview.
  destruct Hm as [G Hp Hd Hlt]. unfold merge_one.
  assert (Hweak : forall w', grows [] w w' -> merging w0 n (from :: seen) acc w').
  { intros w' G'. pose proof (g_calls _ _ _ G'). split; [by eapply grows_nil_r| |done|lia].
    intros p (id & r & ? & ?)%Hp. exists id, r. split; [by right|done]. }
  case_decide; [exists acc, w; split; [done|apply Hweak, grows_refl]|].
  destruct (view E w0 from) as [r|] eqn:Hv.
  - destruct (fetch_view E Hq Hn w from r Hview) as [Hf Hid].
    take_step (ok_runs _ _ _ _ Hf) w1 G1. cbv zeta.
    take_step (append_node_rows_runs E Hq [archived_at (now_rfc3339 E n) (project LATEST_COLUMNS r)] w1) w2 G2.
    match goal with |- context [append_edge_rows E [?row]] => take_step (append_edge_rows_runs E Hq [row] w2) w3 G3 end.
    assert (Hpid : get_str (project LATEST_COLUMNS r) "id" = Some from) by (rewrite get_str_project by in_columns; done).
    pose proof (g_calls _ _ _ G1). pose proof (g_calls _ _ _ G2). pose proof (g_calls _ _ _ G3).
    do 2 eexists. split; [done|]. split; cbn [fst]; [| | |lia].
    + rewrite fmap_app. eapply grows_trans; [exact G|]. eapply grows_nil_r; [by eapply grows_nil_l|exact G3].
    + intros p [Hin|Hin]%elem_of_app.
      * destruct (Hp p Hin) as (id & r' & ? & ?). exists id, r'. split; [by right|done].
      * apply list_elem_of_singleton in Hin as ->. exists from, r. split; [by left|done].
    + unfold row_ids. rewrite fmap_app. apply NoDup_app. split; [exact Hd|]. split; [|apply NoDup_singleton].
      intros x (p & -> & Hin)%list_elem_of_fmap Hx%list_elem_of_singleton.
      destruct (Hp p Hin) as (id & r' & Hseen & Hid' & _). congruence.
  - take_step (fetch_latest_node_fails E Hq from w ltac:(rewrite latest_view, Hview; done)) w1 G1.
    do 2 eexists. split; [done|]. by apply Hweak.
Qed.

Lemma merging_all w0 n into froms : forall seen acc w, settled E w0 -> calls w0 <= n ->
  NoDup froms -> (forall x, x ∈ froms -> x ∉ seen) -> merging w0 n seen acc w ->
  exists acc' w' seen', fold_all (merge_one E into (now_rfc3339 E n)) froms acc w = (Ret acc', w')
    /\ merging w0 n seen' acc' w'.
Proof.
  induction froms as [|x froms IH]; intros seen acc w Hs Hc Hnd Hnew Hm; [eauto|].
  apply NoDup_cons in Hnd as [Hx Hnd].
  destruct (merging_step w0 n into x seen acc w Hs Hc) as (acc1 & w1 & H1 & Hm1); [apply Hnew; by left|done|].
  cbn [fold_all]. rewrite (bind_runs_as _ _ _ _ _ H1). apply (IH (x :: seen)); [done..| |done].
  intros y Hy [->|Hys]%elem_of_cons; [done|]. apply (Hnew y); [by right|done].
Qed.

Lemma apply_merge into froms : apply_correct (Payload.Merge into froms).
Proof.
  intros w Hs _ Hnd. unfold apply_op. take_step (build_writer_runs E Hq w) w1 G1.
  rewrite (bind_runs_as _ _ _ _ _ (clock_run E w1)). pose proof (g_calls _ _ _ G1).
  assert (G : grows [] w (step w1)) by (eapply grows_nil_l; [exact G1|apply grows_step]).
  destruct (merging_all w (calls w1) into froms [] ([], []) (step w1)) as (acc & w2 & seen & Hf & Hm);
    [done|done|done|intros x _; apply not_elem_of_nil| |].
  { split; cbn; [done|by intros p ?%not_elem_of_nil|constructor|lia]. }
  rewrite (bind_runs_as _ _ _ _ _ Hf).
  do 3 eexists. split; [done|]. split.
  { apply (moves_batch E Hn Ht (calls w1)); [done|pose proof (mg_calls _ _ _ _ _ Hm); lia|by eapply merging_batch|apply Hm]. }
  split; cbn [prior_rows created_node_id].
  - intros p (id & r & _ & ? & ? & ?)%(mg_prior _ _ _ _ _ Hm). eauto.
  - apply Hm.
  - done.
  - intros id Hid _. apply overlay_not_in. by rewrite row_ids_archived.
Qed.

Lemma apply_op_correct p : apply_correct p.
Proof.
  destruct p; auto using apply_add, apply_update, apply_invalidate, apply_supersede, apply_merge, apply_archive, apply_link.
Qed.
End ApplyOp.

(** Which payloads the callers send under which class. *)
Definition matches (op : Op.t) (p : Payload.t) : bool :=
  match op, p with
  | (Op.Add | Op.PromoteFileCandidate | Op.InduceSchema), Payload.Add _
  | Op.Update, Payload.Update _ _
  | Op.Archive, Payload.Archive _
  | Op.Invalidate, (Payload.Invalidate _ _ | Payload.Supersede _ _)
  | Op.Merge, Payload.Merge _ _
  | (Op.LinkEntityCrossRealm | Op.RelationshipWrite), Payload.Link _ _ _ _ _ => true
  | _, _ => false
  end.

Lemma bind_Ret_inv {A B} (m : M A) (k : A -> M B) w b w' : (m ≫= k) w = (Ret b, w') ->
  exists a w1, m w = (Ret a, w1) /\ k a w1 = (Ret b, w').
Proof. unfold mbind, M_bind. destruct (m w) as [[] w1]; intros H; inversion H; eauto. Qed.

Ltac invert_run H :=
  repeat (apply bind_Ret_inv in H as (? & ? & ? & H); cbv zeta in H); injection H as <- <-.

(** What the inverse of an operation relies on. *)
Definition covered (a : AppliedRef) (inv : Inverse) : Prop :=
  match inv with
  | ArchiveNode c => prior_rows a = [] /\ created_node_id a = Some c
  | RestoreRows ps => created_node_id a = None /\ prior_rows a = ps
  | RemoveEdges es => prior_rows a = [] /\ created_node_id a = None
  | Multi _ => True
  end.

Lemma inverse_covers E op p w a w' : matches op p = true -> apply_op E p w = (Ret a, w') ->
  exists inv, inverse_of op p a = Some inv /\ covered a inv.
Proof.
  intros Hm H. unfold apply_op in H. apply bind_Ret_inv in H as (? & ? & _ & H).
  destruct p, op; try discriminate Hm; invert_run H; (eexists; split; [reflexivity|done]).
Qed.

Section Undo.
  Context (E : Env) (Hq : quiet E) (Hn : picks_newest E) (Ht : ticks E).

Definition restamped (now : string) (r : Row) : Row := <["updated_at" := JString now]> r.
Lemma restamped_id now p : get_str (restamped now p) "id" = get_str p "id".
Proof. unfold restamped. by rewrite get_str_insert_ne. Qed.

Lemma for_all_restore now ps w : runs (for_all (restore_row E now) ps) w tt (restamped now <$> ps).
Proof.
  revert w; induction ps as [|p ps IH]; intros w; cbn; [apply runs_ret|].
  apply (runs_bind _ _ w tt tt [_]); [by apply append_node_rows_runs|auto].
Qed.
Lemma for_all_tombstone now es w : runs (for_all (tombstone E now) es) w tt [].
Proof.
  revert w; induction es as [|e es IH]; intros w; cbn; [apply runs_ret|].
  eapply runs_then; [by apply append_edge_rows_runs|auto].
Qed.

Lemma restore_moves ps w : settled E w -> NoDup (row_ids ps) ->
  exists w', apply_inverse_inner E (RestoreRows ps) w = (Ret tt, w')
    /\ moves E w w' (overlay (restamped (now_rfc3339 E (calls w)) <$> ps) (view E w)).
Proof.
  intros Hs Hd. cbn [apply_inverse_inner]. rewrite (bind_runs_as _ _ _ _ _ (clock_run E w)).
  destruct (for_all_restore (now_rfc3339 E (calls w)) ps (step w)) as (w' & Hw & G).
  exists w'. split; [done|]. pose proof (g_calls _ _ _ G). cbn in *.
  apply (moves_batch E Hn Ht (calls w)); [done|lia| |eapply grows_nil_l; [apply grows_step|done]].
  split.
  - intros r (p & -> & _)%list_elem_of_fmap. apply get_str_insert.
  - rewrite <-list_fmap_compose. erewrite list_fmap_ext; [exact Hd|]. intros. apply restamped_id.
Qed.

Lemma archive_moves c r w : settled E w -> view E w c = Some r ->
  exists w' row, apply_inverse_inner E (ArchiveNode c) w = (Ret tt, w')
    /\ moves E w w' (overlay [row] (view E w)) /\ get_str row "id" = Some c /\ get_str row "status" = Some "archived".
Proof.
  intros Hs Hv. cbn [apply_inverse_inner]. destruct (fetch_view E Hq Hn w c r Hv) as [Hf Hid].
  take_step (ok_runs _ _ _ _ Hf) w1 G1. rewrite (bind_runs_as _ _ _ _ _ (clock_run E w1)).
  pose proof (g_calls _ _ _ G1).
  match goal with |- context [append_node_rows E [?row]] =>
    destruct (edit_moves E Hq Hn Ht w (step w1) c r (calls w1) row) as (w' & Hw & Hm & Hr) end.
  - done.
  - eapply grows_nil_l; [exact G1|apply grows_step].
  - cbn; lia.
  - done.
  - by rewrite !get_str_insert_ne.
  - apply get_str_insert.
  - do 2 eexists. split; [exact Hw|]. split; [exact Hm|]. split; [done|].
    rewrite get_str_insert_ne by done. apply get_str_insert.
Qed.

Lemma remove_edges_moves es w : settled E w ->
  exists w', apply_inverse_inner E (RemoveEdges es) w = (Ret tt, w') /\ moves E w w' (view E w).
Proof.
  intros Hs. cbn [apply_inverse_inner]. rewrite (bind_runs_as _ _ _ _ _ (clock_run E w)).
  destruct (for_all_tombstone (now_rfc3339 E (calls w)) es (step w)) as (w' & Hw & G).
  exists w'. split; [done|]. apply moves_grows; [done|]. eapply grows_nil_l; [apply grows_step|done].
Qed.

Lemma multi_cons s l w w' : apply_inverse_inner E s w = (Ret tt, w') ->
  apply_inverse_inner E (Multi (s :: l)) w = apply_inverse_inner E (Multi l) w'.
Proof. intros H. cbn [apply_inverse_inner]. by rewrite (bind_runs_as _ _ _ _ _ H). Qed.
End Undo.

(** *** Recall before and after

    What a default recall can return of a node: the newest version, unless it
    is archived or no longer valid. *)
Definition visible (r : Row) : bool :=
  match get_str r "status" with Some s => negb (bool_decide (s = "archived")) | None => false end
  && match col r "invalid_at" with JNull => true | _ => false end.
Definition recall (o : option Row) : option Row := o ≫= fun r => if visible r then Some r else None.

(** The same memory: every column the code reads back agrees but the time of
    the version. *)
Definition same_memory (r r' : Row) : Prop :=
  forall c, c ∈ LATEST_COLUMNS -> c <> "updated_at" -> col r c = col r' c.
Definition same_recall (o o' : option Row) : Prop := option_Forall2 same_memory o o'.

Lemma same_recall_refl o : same_recall o o.
Proof. destruct o; constructor. by intros c. Qed.

Lemma restamped_same now r : same_memory r (restamped now (project LATEST_COLUMNS r)).
Proof.
  intros c Hc Hne. unfold restamped, col at 2. rewrite lookup_insert_ne by done. symmetry. by apply col_project.
Qed.

Lemma same_memory_recall r r' : same_memory r r' -> same_recall (recall (Some r)) (recall (Some r')).
Proof.
  intros H. cbn. assert (visible r = visible r') as ->.
  { unfold visible. rewrite !get_str_col.
    rewrite (H "status"), (H "invalid_at"); [done|in_columns|done|in_columns|done]. }
  destruct (visible r'); by constructor.
Qed.

Lemma restored_at v0 v1 a now id : applied v0 v1 a -> created_node_id a <> Some id ->
  same_recall (recall (v0 id)) (recall (overlay (restamped now <$> prior_rows a) v1 id)).
Proof.
  intros Ha Hc. destruct (decide (Some id ∈ row_ids (prior_rows a))) as [Hin|Hout].
  - unfold overlay. destruct (List.find _ _) as [y|] eqn:Hf.
    + apply List.find_some in Hf as [Hy Hid%bool_decide_eq_true].
      apply list_elem_of_In, list_elem_of_fmap in Hy as (p & -> & Hp). rewrite restamped_id in Hid.
      destruct (a_prior _ _ _ Ha p Hp) as (id' & r & Hid' & Hv & ->).
      assert (id' = id) as -> by congruence. rewrite Hv. apply same_memory_recall, restamped_same.
    + exfalso. apply list_elem_of_fmap in Hin as (p & Hid & Hp).
      assert (Hb : bool_decide (get_str (restamped now p) "id" = Some id) = false).
      { apply (List.find_none _ _ Hf (restamped now p)). apply list_elem_of_In. by apply list_elem_of_fmap_2. }
      rewrite restamped_id, <-Hid in Hb. by rewrite bool_decide_eq_true_2 in Hb.
  - rewrite overlay_not_in.
    + rewrite (a_rest _ _ _ Ha); [apply same_recall_refl|done..].
    + unfold row_ids. rewrite <-list_fmap_compose. erewrite list_fmap_ext; [exact Hout|]. intros. apply restamped_id.
Qed.

Lemma created_kept v0 v1 a now c : applied v0 v1 a -> created_node_id a = Some c ->
  overlay (restamped now <$> prior_rows a) v1 c = v1 c.
Proof.
  intros Ha Hc. destruct (a_created _ _ _ Ha c Hc) as [Hv0 _]. apply overlay_not_in.
  unfold row_ids. rewrite <-list_fmap_compose. intros (p & Hid & Hp)%list_elem_of_fmap. cbn in Hid.
  rewrite restamped_id in Hid. destruct (a_prior _ _ _ Ha p Hp) as (id' & r & Hid' & Hv & _). congruence.
Qed.

(** Hiding the created node hides it from recall, as before it was made. *)
Lemma hidden_at v0 v a row c id : applied v0 v a -> created_node_id a = Some c -> get_str row "id" = Some c ->
  get_str row "status" = Some "archived" ->
  forall v2, (id <> c -> same_recall (recall (v0 id)) (recall (v2 id))) ->
  same_recall (recall (v0 id)) (recall (overlay [row] v2 id)).
Proof.
  intros Ha Hc Hid Hst v2 Hrest. destruct (decide (id = c)) as [->|Hne].
  - destruct (a_created _ _ _ Ha c Hc) as [-> _]. rewrite overlay_one by done. cbn. unfold visible. rewrite Hst.
    constructor.
  - rewrite overlay_ne by (rewrite Hid; congruence). auto.
Qed.

Section UndoOp.
  Context (E : Env) (Hq : quiet E) (Hn : picks_newest E) (Ht : ticks E).

(** Recall is the same as before. *)
Definition back_to (v0 : string -> option Row) (w' : World) : Prop :=
  forall id, same_recall (recall (v0 id)) (recall (view E w' id)).

Record undoes (v0 : string -> option Row) (w w' : World) : Prop := {
  u_back : back_to v0 w'; u_settled : settled E w'; u_calls : calls w <= calls w';
  u_pg : pg_queue w' = pg_queue w; u_file : file_queue w' = file_queue w }.

Lemma moves_undoes v0 w w' v : moves E w w' v -> (forall id, same_recall (recall (v0 id)) (recall (v id))) -> undoes v0 w w'.
Proof. intros [H1 H2 H3 H4 H5] Hv. split; [|done..]. intros id. rewrite H1. apply Hv. Qed.

Lemma undoes_trans v0 w w1 w2 : undoes v0 w w1 -> moves E w1 w2 (view E w1) -> undoes v0 w w2.
Proof.
  intros [U1 U2 U3 U4 U5] [M1 M2 M3 M4 M5]. split; [|done|lia|congruence..]. intros id. rewrite M1. apply U1.
Qed.

(** The tombstones at the end of an inverse. *)
Lemma then_edges v0 w w1 es : undoes v0 w w1 ->
  exists w', apply_inverse_inner E (Multi (if is_empty es then [] else [RemoveEdges es])) w1 = (Ret tt, w')
    /\ undoes v0 w w'.
Proof.
  intros Hu. destruct (is_empty es); [exists w1; split; [done|exact Hu]|].
  destruct (remove_edges_moves E Hq es w1) as (w' & Hw & Hm); [apply Hu|].
  exists w'. split; [by rewrite (multi_cons E _ _ _ _ Hw)|by eapply undoes_trans].
Qed.

Lemma undo_restore v0 w a : settled E w -> applied v0 (view E w) a -> created_node_id a = None ->
  exists w', apply_inverse_inner E (RestoreRows (prior_rows a)) w = (Ret tt, w') /\ undoes v0 w w'.
Proof.
  intros Hs Ha Hc. destruct (restore_moves E Hq Hn Ht (prior_rows a) w Hs) as (w' & Hw & Hm); [apply Ha|].
  exists w'. split; [done|]. eapply moves_undoes; [exact Hm|]. intros id. eapply restored_at; [done|congruence].
Qed.

Lemma undo_nothing v0 w a : settled E w -> applied v0 (view E w) a -> created_node_id a = None -> prior_rows a = [] ->
  undoes v0 w w.
Proof.
  intros Hs Ha Hc Hp. eapply moves_undoes; [apply (moves_grows E w w Hs), grows_refl|]. intros id.
  rewrite (a_rest _ _ _ Ha); [apply same_recall_refl|rewrite Hp; apply not_elem_of_nil|congruence].
Qed.

Lemma undo_create v0 w a c : settled E w -> applied v0 (view E w) a -> created_node_id a = Some c -> prior_rows a = [] ->
  exists w', apply_inverse_inner E (ArchiveNode c) w = (Ret tt, w') /\ undoes v0 w w'.
Proof.
  intros Hs Ha Hc Hp. destruct (a_created _ _ _ Ha c Hc) as [_ [r Hr]].
  destruct (archive_moves E Hq Hn Ht c r w Hs Hr) as (w' & row & Hw & Hm & Hid & Hst).
  exists w'. split; [done|]. eapply moves_undoes; [exact Hm|]. intros id. eapply hidden_at; [done..|]. intros Hne.
  rewrite (a_rest _ _ _ Ha); [apply same_recall_refl|rewrite Hp; apply not_elem_of_nil|congruence].
Qed.

Lemma undo_replace v0 w a c : settled E w -> applied v0 (view E w) a -> created_node_id a = Some c ->
  exists w1 w2, apply_inverse_inner E (RestoreRows (prior_rows a)) w = (Ret tt, w1)
    /\ apply_inverse_inner E (ArchiveNode c) w1 = (Ret tt, w2) /\ undoes v0 w w2.
Proof.
  intros Hs Ha Hc. destruct (restore_moves E Hq Hn Ht (prior_rows a) w Hs) as (w1 & Hw1 & Hm1); [apply Ha|].
  destruct (a_created _ _ _ Ha c Hc) as [_ [r Hr]].
  assert (Hv1 : view E w1 c = Some r) by (rewrite (mv_view _ _ _ _ Hm1); by erewrite created_kept).
  destruct (archive_moves E Hq Hn Ht c r w1) as (w2 & row & Hw2 & Hm2 & Hid & Hst); [apply Hm1|done|].
  exists w1, w2. do 2 (split; [done|]). eapply moves_undoes; [eapply moves_trans; [exact Hm1|exact Hm2]|]. intros id.
  eapply hidden_at; [done..|]. intros Hne. rewrite (mv_view _ _ _ _ Hm1). eapply restored_at; [done|congruence].
Qed.

(** Undoing what an operation did, from any later moment at which the same is seen. *)
Lemma inverse_undoes op p w0 a w1 w inv v0 : matches op p = true -> apply_op E p w0 = (Ret a, w1) ->
  inverse_of op p a = Some inv -> settled E w -> applied v0 (view E w) a ->
  exists w', apply_inverse_inner E inv w = (Ret tt, w') /\ undoes v0 w w'.
Proof.
  intros Hmt Hrun Hinv Hs Ha. destruct (inverse_covers E op p w0 a w1 Hmt Hrun) as (inv' & Hinv' & Hcov).
  rewrite Hinv in Hinv'. injection Hinv' as <-. destruct inv as [c|ps|es|steps]; cbn in Hcov.
  - destruct Hcov. by eapply undo_create.
  - destruct Hcov as [Hc <-]. by eapply undo_restore.
  - destruct Hcov. destruct (remove_edges_moves E Hq es w Hs) as (w2 & Hw2 & Hm2). exists w2. split; [done|].
    eapply undoes_trans; [by eapply undo_nothing|exact Hm2].
  - destruct op; cbn in Hinv; try (destruct (created_node_id a); discriminate Hinv);
      try (destruct (is_empty _); discriminate Hinv); injection Hinv as <-.
    + destruct (created_node_id a) as [c|] eqn:Hc.
      * destruct (undo_replace v0 w a c Hs Ha Hc) as (w2 & w3 & Hw2 & Hw3 & Hu).
        rewrite (multi_cons E _ _ _ _ Hw2). cbn [app]. rewrite (multi_cons E _ _ _ _ Hw3). by apply then_edges.
      * destruct (undo_restore v0 w a Hs Ha Hc) as (w2 & Hw2 & Hu).
        rewrite (multi_cons E _ _ _ _ Hw2). by apply then_edges.
    + assert (Hc : created_node_id a = None).
      { clear -Hmt Hrun. unfold apply_op in Hrun. apply bind_Ret_inv in Hrun as (? & ? & _ & H).
        destruct p; try discriminate Hmt. by invert_run H. }
      destruct (undo_restore v0 w a Hs Ha Hc) as (w2 & Hw2 & Hu). rewrite (multi_cons E _ _ _ _ Hw2).
      destruct (remove_edges_moves E Hq (edges a) w2) as (w3 & Hw3 & Hm3); [apply Hu|].
      exists w3. split; [by rewrite (multi_cons E _ _ _ _ Hw3)|by eapply undoes_trans].
Qed.
End UndoOp.

(** ** The queue *)

Definition same_queue (w w' : World) : Prop := pg_queue w' = pg_queue w /\ file_queue w' = file_queue w.
Definition same_tables (w w' : World) : Prop := nodes w' = nodes w /\ mem_edges w' = mem_edges w.

(** Code that never touches the queue, and that returns or fails. *)
Definition returns {A} (o : outcome string A) : Prop := match o with Ret _ | Fail _ => True | _ => False end.
Definition keeps_queue {A} (m : M A) : Prop := forall w, same_queue w (m w).2 /\ returns (m w).1.

Section Keeps.
  Context (E : Env) (Hq : quiet E).

Lemma keeps_bind {A B} (m : M A) (k : A -> M B) : keeps_queue m -> (forall a, keeps_queue (k a)) -> keeps_queue (m ≫= k).
Proof.
  intros Hm Hk w. pose proof (Hm w) as [[H1 H2] H3]. unfold mbind, M_bind. destruct (m w) as [[a|e| |] w1]; try done.
  destruct (Hk a w1) as [[K1 K2] K3]. cbn in *. split; [split; congruence|done].
Qed.
Lemma keeps_ret {A} (a : A) : keeps_queue (mret a).
Proof. done. Qed.
Lemma keeps_or_error {A} e (o : option A) : keeps_queue (or_error e o).
Proof. by destruct o. Qed.
Lemma keeps_redact m : keeps_queue (pure_code (lift (redact_create m))).
Proof. intros w. unfold pure_code. by destruct (redact_create_total m) as (m' & -> & _). Qed.
Lemma keeps_ok {A} (m : M A) : keeps_queue m -> keeps_queue (ok m).
Proof. intros H w. specialize (H w). unfold ok. by destruct (m w) as [[] ]. Qed.
Lemma keeps_call {A} (f : World -> outcome string (A * World)) :
  (forall w, exists a w', f w = Ret (a, w') /\ same_queue w w') -> keeps_queue (call E f).
Proof.
  intros H w. unfold call. destruct Hq as [-> ->]. destruct (H (step w)) as (a & w' & -> & Hs). by split.
Qed.
Lemma keeps_clock : keeps_queue (clock E).
Proof. done. Qed.
Lemma keeps_uuid : keeps_queue (uuid E).
Proof. done. Qed.
Lemma keeps_barrier : keeps_queue (memory_barrier E).
Proof. intros w. unfold memory_barrier. by destruct Hq as [-> _]. Qed.
Lemma keeps_append_nodes rows : keeps_queue (append_rows E with_nodes rows).
Proof. destruct rows; [done|]. apply keeps_call. intros w. by do 2 eexists. Qed.
Lemma keeps_append_edges rows : keeps_queue (append_rows E with_edges rows).
Proof. destruct rows; [done|]. apply keeps_call. intros w. by do 2 eexists. Qed.
Lemma keeps_read {A} (f : World -> A) : keeps_queue (call E (fun w => Ret (f w, w))).
Proof. apply keeps_call. intros w. by do 2 eexists. Qed.
Lemma keeps_fold {A S} (f : A -> S -> M S) l : (forall a s, keeps_queue (f a s)) -> forall s, keeps_queue (fold_all f l s).
Proof.
  intros Hf. induction l as [|x l IH]; intros s; [done|]. cbn [fold_all]. apply keeps_bind; [apply Hf|exact IH].
Qed.
End Keeps.

#[export] Hint Resolve keeps_bind keeps_ret keeps_or_error keeps_redact keeps_ok keeps_clock keeps_uuid keeps_barrier
  keeps_append_nodes keeps_append_edges keeps_read keeps_fold : memory_gate.

Ltac keeps :=
  repeat first
    [ apply keeps_bind; [|intros ?]
    | apply keeps_ok
    | progress cbv zeta
    | solve [auto with memory_gate]
    | case_decide
    | match goal with
      | |- keeps_queue (match ?x with _ => _ end) => destruct x
      | |- keeps_queue (if ?x then _ else _) => destruct x
      end ].

Lemma apply_op_keeps E p : quiet E -> keeps_queue (apply_op E p).
Proof.
  intros Hq. unfold apply_op, build_writer, add_spec, save, link, append_node_rows, append_edge_rows, ensure_provisioned,
    embed_one, fetch_latest_node.
  keeps. apply keeps_fold. intros from acc. unfold merge_one, append_node_rows, append_edge_rows, ensure_provisioned,
    fetch_latest_node. keeps.
Qed.

(** No row of the queue has this name; names still to be drawn are unused. *)
Definition unused (store : QueueStore) (id : string) (w : World) : Prop :=
  match store with
  | Pg _ => Forall (fun e => qr_id e.2 <> id) (pg_queue w)
  | Local => Forall (fun r => qr_id r <> id) (read_local (file_queue w))
  end.
Definition fresh_queue (E : Env) (store : QueueStore) (w : World) : Prop :=
  forall n, calls w <= n -> unused store (new_uuid E n) w.

Lemma unused_same store id w w' : same_queue w w' -> unused store id w -> unused store id w'.
Proof. intros [H1 H2]. unfold unused. by rewrite H1, H2. Qed.

(** The row a store keeps of a new one. *)
Definition stored (E : Env) (store : QueueStore) (r : QueueRow) : QueueRow :=
  match store with Pg _ => pg_new_row E r | Local => r end.
(** What [now()] is in a store. *)
Definition store_time (E : Env) (store : QueueStore) (t : string) : string :=
  match store with Pg _ => pg_time E t | Local => t end.

Lemma get_local_app id l r : Forall (fun x => qr_id x <> id) l -> qr_id r = id -> get_local id (l ++ [r]) = Some r.
Proof.
  intros Hl Hr. induction Hl as [|x l Hx Hl IH]; cbn.
  - by rewrite bool_decide_eq_true_2.
  - rewrite bool_decide_eq_false_2 by done. exact IH.
Qed.

Section Store.
  Context (E : Env) (Hq : quiet E) (store : QueueStore).

Lemma queue_rows_same w w' : same_queue w w' -> queue_rows store w' = queue_rows store w.
Proof. intros [H1 H2]. unfold queue_rows. destruct store; congruence. Qed.

(** A new row is there to be fetched. *)
Lemma insert_get w row : unused store (qr_id row) w ->
  exists w', insert_row E store row w = (Ret tt, w') /\ same_tables w w' /\ calls w' = S (calls w)
    /\ get_local (qr_id row) (queue_rows store w') = Some (stored E store row).
Proof.
  intros Hf. unfold insert_row. destruct store as [tenant|]; cbn in *.
  - assert (Hdup : existsb (fun e => bool_decide (qr_id e.2 = qr_id row)) (pg_queue w) = false).
    { induction Hf as [|e l He Hl IH]; [done|]. cbn. by rewrite bool_decide_eq_false_2. }
    eexists. split; [apply call_quiet; [done|]; cbn; by rewrite Hdup|]. do 2 (split; [done|]).
    cbn. rewrite filter_app, fmap_app, filter_cons, decide_True by done. cbn. apply get_local_app; [|done].
    apply Forall_fmap, Forall_forall. intros e [_ He]%list_elem_of_filter.
    by apply (proj1 (Forall_forall _ _) Hf).
  - eexists. split; [by apply call_quiet|]. do 2 (split; [done|]). cbn. by apply get_local_app.
Qed.

Lemma update_local_get id status now b c l r : get_local id l = Some r ->
  exists l', update_local id status now b c l = (Some (stamp status now b c r), l')
    /\ get_local id l' = Some (stamp status now b c r).
Proof.
  induction l as [|x l IH]; [done|]. cbn. case_bool_decide as Hx.
  - intros [= ->]. rewrite decide_True by done. eexists. split; [done|]. cbn. by rewrite bool_decide_eq_true_2.
  - intros (l' & -> & Hl')%IH. rewrite decide_False by done. eexists. split; [done|]. cbn.
    by rewrite bool_decide_eq_false_2.
Qed.

Lemma update_table_get tenant id status now b c l r :
  get_local id (snd <$> filter (fun e : string * QueueRow => e.1 = tenant) l) = Some r ->
  exists l', update_table tenant id status now b c l = (Some (stamp status now b c r), l')
    /\ get_local id (snd <$> filter (fun e => e.1 = tenant) l') = Some (stamp status now b c r).
Proof.
  induction l as [|[t x] l IH]; [done|]. rewrite filter_cons. cbn [update_table]. case_decide as Ht; cbn in Ht.
  - subst t. cbn. case_bool_decide as Hx.
    + intros [= ->]. rewrite decide_True by done. eexists. split; [done|]. rewrite filter_cons, decide_True by done.
      cbn. by rewrite bool_decide_eq_true_2.
    + intros (l' & -> & Hl')%IH. rewrite decide_False by naive_solver. eexists. split; [done|].
      rewrite filter_cons, decide_True by done. cbn. by rewrite bool_decide_eq_false_2.
  - intros (l' & -> & Hl')%IH. rewrite decide_False by naive_solver. eexists. split; [done|].
    rewrite filter_cons, decide_False by done. exact Hl'.
Qed.

Lemma update_get w id status b c r : get_local id (queue_rows store w) = Some r ->
  exists w' t, update_status E store id status b c w = (Ret (Some (stamp status t b c r)), w') /\ same_tables w w'
    /\ calls w <= calls w' /\ get_local id (queue_rows store w') = Some (stamp status t b c r).
Proof.
  intros Hg. unfold update_status. rewrite (bind_runs_as _ _ _ _ _ (clock_run E w)).
  destruct store as [tenant|]; cbn in *.
  - destruct (update_table_get tenant id status (pg_time E (now_rfc3339 E (calls w))) b c _ _ Hg) as (l' & Hu & Hl').
    do 2 eexists. split; [apply call_quiet; [done|]; cbn; by rewrite Hu|]. split; [done|]. split; [cbn; lia|]. exact Hl'.
  - destruct (update_local_get id status (now_rfc3339 E (calls w)) b c _ _ Hg) as (l' & Hu & Hl').
    do 2 eexists. split; [apply call_quiet; [done|]; cbn; by rewrite Hu|]. split; [done|]. split; [cbn; lia|]. exact Hl'.
Qed.

Lemma get_row_run w id : get_row E store id w = (Ret (get_local id (queue_rows store w)), step w).
Proof. by apply call_quiet. Qed.
End Store.

(** A row that is neither pending nor applied for review is settled: resolving
    it again fails and touches nothing. *)
Lemma resolve_settled E gate id action edited c w r : quiet E ->
  get_local id (queue_rows (g_store gate) w) = Some r -> qr_status r <> "pending" -> qr_status r <> "auto_applied" ->
  exists e, resolve E gate id action edited c w = (Fail e, step w).
Proof.
  intros Hq Hg H1 H2. unfold resolve. rewrite (bind_runs_as _ _ _ _ _ (get_row_run E Hq _ w id)), Hg.
  rewrite (bind_runs_as _ _ (step w) r (step w)) by done. cbv zeta.
  destruct action; rewrite bool_decide_eq_false_2 by done; eexists; reflexivity.
Qed.

Lemma applied_ext v0 v v' a : (forall id, v id = v' id) -> applied v0 v a -> applied v0 v' a.
Proof.
  intros Hv [H1 H2 H3 H4]. split; [done|done| |].
  - intros c Hc. rewrite <-Hv. by apply H3.
  - intros id. rewrite <-Hv. apply H4.
Qed.

(** Undoing a row: its inverse runs at a later moment, then the row is stamped. *)
Lemma resolve_undo E gate id r inv comment w w' : quiet E ->
  get_local id (queue_rows (g_store gate) w) = Some r -> qr_status r = "auto_applied" -> qr_inverse r = Some inv ->
  apply_inverse_inner E inv (step (step w)) = (Ret tt, w') -> same_queue (step (step w)) w' ->
  exists row w2, resolve E gate id Undo None comment w = (Ret row, w2) /\ qr_status row = "rolled_back"
    /\ same_tables w' w2.
Proof.
  intros Hq Hg Hst Hinv Hrun Hsq. unfold resolve. rewrite (bind_runs_as _ _ _ _ _ (get_row_run E Hq _ w id)), Hg.
  rewrite (bind_runs_as _ _ (step w) r (step w)) by done. cbv zeta.
  rewrite bool_decide_eq_true_2 by done. cbn [negb]. rewrite Hinv.
  rewrite (bind_runs_as _ _ (step w) inv (step w)) by done. unfold apply_inverse.
  rewrite (bind_runs_as _ _ (step w) tt w').
  2: { rewrite (bind_runs_as _ _ _ tt (step (step w))); [done|]. by apply call_quiet. }
  destruct (update_get E Hq (g_store gate) w' id "rolled_back" (g_resolver gate) comment r) as (w2 & t & Hu & Htab & _).
  { by rewrite (queue_rows_same (g_store gate) (step (step w)) w' Hsq). }
  rewrite (bind_runs_as _ _ _ _ _ Hu). do 2 eexists. split; [done|]. by split.
Qed.

(** Approving a pending row: its operation runs, then the row is stamped. *)
Lemma resolve_approve E gate id r comment w a w' : quiet E ->
  get_local id (queue_rows (g_store gate) w) = Some r -> qr_status r = "pending" ->
  apply_op E (qr_payload r) (step w) = (Ret a, w') ->
  exists row w2, resolve E gate id Approve None comment w = (Ret row, w2) /\ qr_status row = "approved"
    /\ same_tables w' w2 /\ get_local id (queue_rows (g_store gate) w2) = Some row.
Proof.
  intros Hq Hg Hst Hrun. unfold resolve. rewrite (bind_runs_as _ _ _ _ _ (get_row_run E Hq _ w id)), Hg.
  rewrite (bind_runs_as _ _ (step w) r (step w)) by done. cbv zeta.
  rewrite bool_decide_eq_true_2 by done. cbn [negb default]. rewrite (bind_runs_as _ _ _ _ _ Hrun).
  pose proof (apply_op_keeps E (qr_payload r) Hq (step w)) as [Hk _]. rewrite Hrun in Hk.
  destruct (update_get E Hq (g_store gate) w' id "approved" (g_resolver gate) comment r) as (w2 & t & Hu & Htab & _ & Hg2).
  { by rewrite (queue_rows_same (g_store gate) (step w) w' Hk). }
  rewrite (bind_runs_as _ _ _ _ _ Hu). do 2 eexists. split; [done|]. split; [done|]. by split.
Qed.

Lemma resolve_approve_fails E gate id r comment w e w' : quiet E ->
  get_local id (queue_rows (g_store gate) w) = Some r -> qr_status r = "pending" ->
  apply_op E (qr_payload r) (step w) = (Fail e, w') ->
  resolve E gate id Approve None comment w = (Fail e, w') /\ get_local id (queue_rows (g_store gate) w') = Some r.
Proof.
  intros Hq Hg Hst Hrun. unfold resolve. rewrite (bind_runs_as _ _ _ _ _ (get_row_run E Hq _ w id)), Hg.
  rewrite (bind_runs_as _ _ (step w) r (step w)) by done. cbv zeta.
  rewrite bool_decide_eq_true_2 by done. cbn [negb default]. split; [unfold mbind, M_bind; by rewrite Hrun|].
  pose proof (apply_op_keeps E (qr_payload r) Hq (step w)) as [Hk _]. rewrite Hrun in Hk.
  by rewrite (queue_rows_same (g_store gate) (step w) w' Hk).
Qed.

Lemma resolve_reject E gate id r comment w : quiet E ->
  get_local id (queue_rows (g_store gate) w) = Some r -> qr_status r = "pending" ->
  exists row w2, resolve E gate id Reject None comment w = (Ret row, w2) /\ qr_status row = "rejected"
    /\ same_tables w w2 /\ get_local id (queue_rows (g_store gate) w2) = Some row.
Proof.
  intros Hq Hg Hst. unfold resolve. rewrite (bind_runs_as _ _ _ _ _ (get_row_run E Hq _ w id)), Hg.
  rewrite (bind_runs_as _ _ (step w) r (step w)) by done. cbv zeta.
  rewrite bool_decide_eq_true_2 by done. cbn [negb].
  destruct (update_get E Hq (g_store gate) (step w) id "rejected" (g_resolver gate) comment r) as (w2 & t & Hu & Htab & _ & Hg2);
    [done|].
  rewrite (bind_runs_as _ _ _ _ _ Hu). do 2 eexists. split; [done|]. split; [done|]. by split.
Qed.
