(* ===== verification/MemoryRecall.v ===== *)
(** * Recall

    [pensieve-memory/src/sql.rs], [pensieve-server/src/agent/memory_retrieve.rs]
    and the realm scopes of [pensieve-server/src/auth/scope.rs]: the SQL of a
    recall, what its conditions mean, and the pipeline from a request to the
    memories returned: candidates by vectors and by keywords, fusion, expansion
    along the edges, ranking.

    The query engine, the embedding model and the indexes are not code of these
    files: the pipeline is written against them, and the theorems assume of the
    engine only that a row it returns satisfies the query's conditions. *)

From stdpp Require Import base gmap strings list sorting.
From Stdlib Require Import NArith ZArith Lia Ascii SpecFloat.
From S2P Require Import Prelude Bytes Arrow KqlParser SqlScan CatalogSchema VectorMath MemoryRows MemoryGate.

Local Open Scope string_scope.
Local Open Scope list_scope.

(** ** Realm scopes ([scope.rs]) *)

(** [RealmScope]: the realms a token may touch; [None] is every realm. *)
Definition RealmScope : Type := option (list string).
Definition is_restricted (s : RealmScope) : bool := match s with Some _ => true | None => false end.
Definition allows (s : RealmScope) (realm : string) : bool :=
  match s with None => true | Some l => contains l realm end.

Inductive EffectiveRealms := Unrestricted (realms : list string) | Scoped (realms : list string) | Empty.

Definition intersect_realms (scope : RealmScope) (requested : list string) : EffectiveRealms :=
  match scope with
  | None => Unrestricted requested
  | Some allowed =>
      let eff := if is_empty requested then allowed else List.filter (contains allowed) requested in
      if is_empty eff then Empty else Scoped eff
  end.

Lemma contains_In l s : contains l s = true <-> s ∈ l.
Proof.
  unfold contains. rewrite existsb_exists, list_elem_of_In. split.
  - intros (x & Hx & <-%bool_decide_eq_true). done.
  - intros H. exists s. split; [done|]. by apply bool_decide_eq_true.
Qed.

(** A scoped list is not empty and stays within the allowed one. *)
Lemma scoped_realms scope requested eff : intersect_realms scope requested = Scoped eff ->
  eff <> [] /\ exists allowed, scope = Some allowed /\ forall r, r ∈ eff -> r ∈ allowed.
Proof.
  unfold intersect_realms. destruct scope as [allowed|]; [|done].
  set (l := if is_empty requested then _ else _). destruct (is_empty l) eqn:He; [done|]. intros [= <-].
  split; [by intros Hl; rewrite Hl in He|]. exists allowed. split; [done|]. subst l. intros r.
  destruct (is_empty requested); [done|]. rewrite list_elem_of_In, List.filter_In. intros [_ H]. by apply contains_In.
Qed.

(** ** The texts of the queries ([sql.rs]) *)

Definition sql_str (s : string) : string := sql_quote s.

Record RecallFilter := {
  rf_realms : list string; rf_memory_type : option MemoryType.t; rf_statuses : list MemoryStatus.t;
  rf_tags : list string; rf_importance_min : option b32; rf_since : option string; rf_until : option string;
  rf_as_of : option string; rf_include_invalidated : bool; rf_space_agent : option string }.

Definition default_filter : RecallFilter :=
  {| rf_realms := []; rf_memory_type := None; rf_statuses := []; rf_tags := []; rf_importance_min := None;
     rf_since := None; rf_until := None; rf_as_of := None; rf_include_invalidated := false; rf_space_agent := None |}.

(** A condition of a [WHERE] clause. *)
Inductive Cond :=
  | NotArchived
  | StatusIn (l : list string)
  | RealmIn (l : list string)
  | TypeIs (t : string)
  | ImportanceMin (x : b32)
  | Since (t : string)
  | Until (t : string)
  | TagsLike (needle : string)
  | InvalidAfter (t : string)
  | ValidBefore (t : string)
  | StillValid
  | SharedOr (agent : string)
  | IdIn (l : list string)
  | Never
  | Always.

(** [tag.replace('%', "").replace('_', "")] between wildcards *)
Definition like_needle (s : string) : string := fmt ["%"; replace "_" "" (replace "%" "" s); "%"].

Definition when {A} (b : bool) (l : list A) : list A := if b then l else [].
Definition on_some {A B} (o : option A) (f : A -> B) : list B := match o with Some a => [f a] | None => [] end.

(** [filter_conditions] *)
Definition filter_conditions (f : RecallFilter) (default_non_archived : bool) : list Cond :=
  (if is_empty (rf_statuses f) then when default_non_archived [NotArchived]
   else [StatusIn (MemoryStatus.as_str <$> rf_statuses f)])
  ++ when (negb (is_empty (rf_realms f))) [RealmIn (rf_realms f)]
  ++ on_some (rf_memory_type f) (fun t => TypeIs (MemoryType.as_str t))
  ++ on_some (rf_importance_min f) ImportanceMin
  ++ on_some (rf_since f) Since
  ++ on_some (rf_until f) Until
  ++ ((fun tag => TagsLike (like_needle tag)) <$> rf_tags f)
  ++ when (negb (rf_include_invalidated f))
       match rf_as_of f with Some t => [InvalidAfter t; ValidBefore t] | None => [StillValid] end.

(** [space_condition] *)
Definition space_condition (f : RecallFilter) : list Cond := on_some (rf_space_agent f) SharedOr.

(** The restriction to candidate ids. *)
Definition id_condition (ids : list string) : Cond := if is_empty ids then Never else IdIn ids.

Definition or_always (l : list Cond) : list Cond := if is_empty l then [Always] else l.

Section Text.
  (** The text of an [f32] and of an [f32] widened to [f64]. *)
  Context (show_f32 show_f64 : b32 -> string).

Definition sql_list (l : list string) : string := join ", " (sql_str <$> l).

Definition cond_text (c : Cond) : string :=
  match c with
  | NotArchived => "status <> 'archived'"
  | StatusIn l => fmt ["status IN ("; sql_list l; ")"]
  | RealmIn l => fmt ["realm IN ("; sql_list l; ")"]
  | TypeIs t => fmt ["memory_type = "; sql_str t]
  | ImportanceMin x => fmt ["importance >= "; show_f64 x]
  | Since t => fmt ["created_at >= "; sql_str t]
  | Until t => fmt ["created_at <= "; sql_str t]
  | TagsLike n => fmt ["tags LIKE "; sql_str n]
  | InvalidAfter t => fmt ["(invalid_at IS NULL OR invalid_at > "; sql_str t; ")"]
  | ValidBefore t => fmt ["(valid_at IS NULL OR valid_at <= "; sql_str t; ")"]
  | StillValid => "invalid_at IS NULL"
  | SharedOr a => fmt ["(space IS NULL OR space = 'public' OR space = "; sql_str ("private:" +:+ a); ")"]
  | IdIn l => fmt ["id IN ("; sql_list l; ")"]
  | Never => "1 = 0"
  | Always => "1 = 1"
  end.

Definition where_clause (l : list Cond) : string := join " AND " (cond_text <$> l).

(** A line break. *)
Definition nl : string := String "010"%char EmptyString.

(** [make_array(..)] *)
Definition make_array (embedding : list b32) : string := fmt ["make_array("; join ", " (show_f32 <$> embedding); ")"].

Definition latest_cte (nt : string) : string :=
  fmt ["WITH latest AS ("; nl; "  SELECT *, row_number() OVER (PARTITION BY id ORDER BY updated_at DESC) AS __rn FROM ";
       nt; nl; ")"].

Definition SCORED_COLUMNS : string :=
  "id, memory_type, title, content, content_preview, tags, importance, status, realm, created_at, valid_at, invalid_at".

(** The common shape of the two recalls by distance. *)
Definition scored_by_distance (nt arr ann where_ : string) (limit : nat) : string :=
  fmt [latest_cte nt; ", scored AS ("; nl; "  SELECT "; SCORED_COLUMNS; ", space, cosine_distance(embedding, "; arr;
       ") AS distance"; nl; "  FROM latest WHERE __rn = 1"; ann; nl; ") SELECT "; SCORED_COLUMNS;
       ", distance, (0.7 * (1 - distance) + 0.3 * importance) AS score FROM scored WHERE "; where_;
       " ORDER BY score DESC LIMIT "; show_nat limit].

(** [recall_sql]; the threshold is the text of a positive number. *)
Definition recall_sql (nt : string) (embedding : list b32) (f : RecallFilter) (limit : nat) (ann_threshold : option string) :
    string :=
  let arr := make_array embedding in
  let ann := match ann_threshold with
             | Some t => fmt [" AND cosine_distance(embedding, "; arr; ") < "; t]
             | None => ""
             end in
  scored_by_distance nt arr ann (where_clause (or_always (filter_conditions f true ++ space_condition f))) limit.

Definition recall_sql_for_ids (nt : string) (embedding : list b32) (f : RecallFilter) (limit : nat) (ids : list string) :
    string :=
  scored_by_distance nt (make_array embedding) ""
    (where_clause (filter_conditions f true ++ [id_condition ids] ++ space_condition f)) limit.

Definition list_sql (nt : string) (f : RecallFilter) (limit offset : nat) : string :=
  fmt [latest_cte nt; " SELECT id, memory_type, title, content_preview, tags, importance, status, realm, created_at ";
       "FROM latest WHERE __rn = 1 AND "; where_clause (or_always (filter_conditions f true));
       " ORDER BY created_at DESC LIMIT "; show_nat limit; " OFFSET "; show_nat offset].

Definition latest_node_sql (nt id : string) : string :=
  fmt [latest_cte nt; " SELECT id, labels, realm, memory_type, title, content, content_preview, tags, importance, status, ";
       "source_session_id, source_run_id, embedding, created_at, updated_at, ";
       "valid_at, invalid_at, superseded_by, provenance, topic_key ";
       "FROM latest WHERE __rn = 1 AND id = "; sql_str id].

(** One term of the keyword score. *)
Definition token_score (t : string) : string :=
  let n := sql_str (like_needle t) in
  fmt ["(CASE WHEN lower(content) LIKE "; n; " OR lower(title) LIKE "; n; " OR lower(tags) LIKE "; n;
       " THEN 1 ELSE 0 END)"].
Definition score_expr (tokens : list string) : string :=
  if is_empty tokens then "0" else join " + " (token_score <$> tokens).

Definition scored_by_keywords (nt : string) (tokens : list string) (where_ : string) (limit : nat) : string :=
  fmt [latest_cte nt; ", scored AS ("; nl; "  SELECT "; SCORED_COLUMNS; ", space, ("; score_expr tokens;
       ") AS kw_score"; nl; "  FROM latest WHERE __rn = 1"; nl; ") SELECT "; SCORED_COLUMNS;
       ", kw_score FROM scored WHERE "; where_; " ORDER BY kw_score DESC, importance DESC LIMIT "; show_nat limit].

Definition keyword_recall_sql (nt : string) (tokens : list string) (f : RecallFilter) (limit : nat) : string :=
  scored_by_keywords nt tokens
    (where_clause (or_always (filter_conditions f true ++ space_condition f)) +:+ " AND kw_score > 0") limit.

Definition keyword_recall_sql_for_ids (nt : string) (tokens : list string) (f : RecallFilter) (limit : nat)
    (ids : list string) : string :=
  scored_by_keywords nt tokens
    (where_clause (filter_conditions f true ++ [id_condition ids] ++ space_condition f)) limit.

Definition neighbors_sql (et : string) (seed_ids realms : list string) (limit : nat) : string :=
  let ids := sql_list seed_ids in
  let where_parts := [fmt ["(src IN ("; ids; ") OR dst IN ("; ids; "))"]]
                     ++ when (negb (is_empty realms)) [fmt ["realm IN ("; sql_list realms; ")"]] in
  fmt ["SELECT src, dst, type, realm, target_namespace FROM "; et; " WHERE "; join " AND " where_parts; " LIMIT ";
       show_nat limit].

Definition nodes_by_id_sql (nt : string) (ids : list string) : string :=
  fmt [latest_cte nt; " SELECT id, memory_type, title, content_preview, tags, importance, status, realm, created_at, ";
       "valid_at, invalid_at FROM latest WHERE __rn = 1 AND id IN ("; sql_list ids; ") AND invalid_at IS NULL"].

Definition embeddings_by_id_sql (nt : string) (ids : list string) : string :=
  fmt [latest_cte nt; " SELECT id, embedding FROM latest WHERE __rn = 1 AND id IN ("; sql_list ids; ")"].

Definition nearest_activity_sql (nt : string) (embedding : list b32) (realms : list string) (max_distance : string)
    (limit : nat) : string :=
  let arr := make_array embedding in
  let conds := [fmt ["cosine_distance(embedding, "; arr; ") < "; max_distance]]
               ++ when (negb (is_empty realms)) [fmt ["realm IN ("; sql_list realms; ")"]] in
  fmt ["SELECT id, content_preview, created_at, cosine_distance(embedding, "; arr; ") AS distance FROM "; nt;
       " WHERE "; join " AND " conds; " ORDER BY distance ASC LIMIT "; show_nat limit].

Definition edges_into_sql (et dst_id rel_type : string) (limit : nat) : string :=
  fmt ["SELECT src FROM "; et; " WHERE dst = "; sql_str dst_id; " AND type = "; sql_str rel_type; " LIMIT ";
       show_nat limit].

Definition source_summary_sql (nt : string) : string :=
  fmt [latest_cte nt; " SELECT provenance, realm, count(*) AS n FROM latest ";
       "WHERE __rn = 1 AND status <> 'archived' GROUP BY provenance, realm"].
End Text.

(** [tokenize_query]: runs of alphanumeric characters, in ASCII lower case,
    without repetition; which characters are alphanumeric is Unicode's. *)
Section Tokens.
  Context (is_alphanumeric : char -> bool).

Fixpoint split_words (word : list char) (l : list char) : list (list char) :=
  match l with
  | [] => [word]
  | c :: l => if is_alphanumeric c then split_words (word ++ [c]) l else word :: split_words [] l
  end.

Definition add_token (out : list string) (tok : list char) : list string :=
  if decide (2 <= length tok) then
    let t := lowercase (of_chars tok) in
    if decide (t ∈ out) then out else out ++ [t]
  else out.

Definition tokenize_query (q : string) : list string := foldl add_token [] (split_words [] (chars q)).
End Tokens.

(** ** What the caller writes stays inside its literals

    Every text is closed: scanning it as SQL leaves the scanner where it was,
    with no comment and no second statement begun. *)
Section Closed.
  Context (show_f32 show_f64 : b32 -> string).
  Context (Hf32 : forall x, closed_expr (show_f32 x)) (Hf64 : forall x, closed_expr (show_f64 x)).

Lemma closed_sql_list l : closed (sql_list l).
Proof.
  apply closed_join; [done|]. apply Forall_fmap, Forall_forall. intros s _. apply closed_expr_closed, closed_sql_quote.
Qed.

Lemma closed_cond c : closed (cond_text show_f64 c).
Proof.
  unfold closed. intros d. destruct c; cbn [cond_text];
    try (pose proof (closed_sql_list l)); try (pose proof (closed_sql_quote t)); try (pose proof (closed_sql_quote needle));
    try (pose proof (closed_sql_quote ("private:" +:+ agent))); try (pose proof (Hf64 x)); unfold sql_str; scan_template.
Qed.

Lemma closed_where l : closed (where_clause show_f64 l).
Proof. apply closed_join; [done|]. apply Forall_fmap, Forall_forall. intros c _. apply closed_cond. Qed.

Lemma closed_array e : closed (make_array show_f32 e).
Proof.
  assert (H : closed (join ", " (show_f32 <$> e))).
  { apply closed_join; [done|]. apply Forall_fmap, Forall_forall. intros x _. apply closed_expr_closed, Hf32. }
  intros d. unfold make_array. scan_template.
Qed.

Lemma closed_latest nt : closed nt -> closed (latest_cte nt).
Proof. intros H d. unfold latest_cte, nl. scan_template. Qed.

Lemma closed_scored nt arr ann w limit : closed nt -> closed arr -> closed ann -> closed w ->
  closed (scored_by_distance nt arr ann w limit).
Proof.
  intros Hnt Harr Hann Hw d. unfold scored_by_distance, SCORED_COLUMNS, nl.
  pose proof (closed_latest nt Hnt). pose proof (closed_show_nat limit). scan_template.
Qed.

Lemma closed_token t : closed (token_score t).
Proof. intros d. unfold token_score. pose proof (closed_sql_quote (like_needle t)). unfold sql_str. scan_template. Qed.

Lemma closed_score l : closed (score_expr l).
Proof.
  unfold score_expr. destruct (is_empty l); [done|]. apply closed_join; [done|].
  apply Forall_fmap, Forall_forall. intros t _. apply closed_token.
Qed.

Lemma closed_keywords nt l w limit : closed nt -> closed w -> closed (scored_by_keywords nt l w limit).
Proof.
  intros Hnt Hw d. unfold scored_by_keywords, SCORED_COLUMNS, nl.
  pose proof (closed_latest nt Hnt). pose proof (closed_show_nat limit). pose proof (closed_score l). scan_template.
Qed.

Lemma closed_realms (realms : list string) pre : closed pre ->
  closed (join " AND " ([pre] ++ when (negb (is_empty realms)) [fmt ["realm IN ("; sql_list realms; ")"]])).
Proof.
  intros Hpre. apply closed_join; [done|]. apply Forall_app. split; [by constructor|].
  destruct (is_empty realms); constructor; [|constructor]. intros d. pose proof (closed_sql_list realms). scan_template.
Qed.

Lemma closed_neighbors et seeds realms limit : closed et -> closed (neighbors_sql et seeds realms limit).
Proof.
  intros Het d. unfold neighbors_sql. pose proof (closed_show_nat limit). pose proof (closed_sql_list seeds).
  assert (Hs : closed (fmt ["(src IN ("; sql_list seeds; ") OR dst IN ("; sql_list seeds; "))"])) by (intros d'; scan_template).
  pose proof (closed_realms realms _ Hs). scan_template.
Qed.

Lemma closed_nodes_by_id nt ids : closed nt -> closed (nodes_by_id_sql nt ids).
Proof.
  intros Hnt d. unfold nodes_by_id_sql. pose proof (closed_latest nt Hnt). pose proof (closed_sql_list ids). scan_template.
Qed.

Lemma closed_latest_node nt id : closed nt -> closed (latest_node_sql nt id).
Proof.
  intros Hnt d. unfold latest_node_sql, sql_str. pose proof (closed_latest nt Hnt). pose proof (closed_sql_quote id).
  scan_template.
Qed.

Lemma closed_list nt f limit offset : closed nt -> closed (list_sql show_f64 nt f limit offset).
Proof.
  intros Hnt d. unfold list_sql. pose proof (closed_latest nt Hnt). pose proof (closed_show_nat limit).
  pose proof (closed_show_nat offset). pose proof (closed_where (or_always (filter_conditions f true))). scan_template.
Qed.

Lemma closed_activity nt e realms dist limit : closed nt -> closed dist ->
  closed (nearest_activity_sql show_f32 nt e realms dist limit).
Proof.
  intros Hnt Hd d. unfold nearest_activity_sql. pose proof (closed_show_nat limit). pose proof (closed_array e).
  assert (Hc : closed (fmt ["cosine_distance(embedding, "; make_array show_f32 e; ") < "; dist])) by (intros d'; scan_template).
  pose proof (closed_realms realms _ Hc). scan_template.
Qed.

Lemma closed_edges_into et dst rel limit : closed et -> closed (edges_into_sql et dst rel limit).
Proof.
  intros Het d. unfold edges_into_sql, sql_str. pose proof (closed_show_nat limit). pose proof (closed_sql_quote dst).
  pose proof (closed_sql_quote rel). scan_template.
Qed.
End Closed.

(** ** What the conditions mean

    Whether a condition is true of a row; a comparison with null is not. *)
Section Meaning.
  (** [text LIKE pattern]. *)
  Context (like : string -> string -> bool).

Definition str_test (row : Row) (c : string) (f : string -> bool) : bool :=
  match get_str row c with Some s => f s | None => false end.
Definition is_null (row : Row) (c : string) : bool := match col row c with JNull => true | _ => false end.

Definition cond_holds (c : Cond) (row : Row) : bool :=
  match c with
  | NotArchived => str_test row "status" (fun s => negb (bool_decide (s = "archived")))
  | StatusIn l => str_test row "status" (contains l)
  | RealmIn l => str_test row "realm" (contains l)
  | TypeIs t => str_test row "memory_type" (fun s => bool_decide (s = t))
  | ImportanceMin x => match as_f64 (col row "importance") with
                       | Some v => f64_le (f64_of_f32 (from_bits x)) v
                       | None => false
                       end
  | Since t => str_test row "created_at" (str_le t)
  | Until t => str_test row "created_at" (fun s => str_le s t)
  | TagsLike n => str_test row "tags" (fun s => like s n)
  | InvalidAfter t => is_null row "invalid_at" || str_test row "invalid_at" (str_lt t)
  | ValidBefore t => is_null row "valid_at" || str_test row "valid_at" (fun s => str_le s t)
  | StillValid => is_null row "invalid_at"
  | SharedOr a => is_null row "space" || str_test row "space" (fun s => bool_decide (s = "public"))
                  || str_test row "space" (fun s => bool_decide (s = "private:" +:+ a))
  | IdIn l => str_test row "id" (contains l)
  | Never => false
  | Always => true
  end.

Definition all_hold (l : list Cond) (row : Row) : bool := forallb (fun c => cond_holds c row) l.
End Meaning.

(** ** The pipeline ([memory_retrieve.rs]) *)

Definition CAND_K : nat := 50.
Definition SEED_N : nat := 10.
Definition EXPAND_CAP : nat := 200.
Definition MAX_HOPS : nat := 2.
Definition RERANK_CANDIDATES : nat := 50.

Record RetrieveRequest := {
  rq_query : string; rq_realms : list string; rq_memory_type : option string; rq_tags : list string;
  rq_importance_min : option b32; rq_as_of : option string; rq_include_invalidated : bool; rq_limit : option nat;
  rq_expand_hops : option nat; rq_space_agent : option string }.

(** The provenance of a memory reached along an edge. *)
Record Via := { via_seed : string; via_type : string; via_depth : nat }.

Record Cand := {
  c_id : string; c_memory_type : string; c_title : option string; c_content_preview : string; c_importance : f64;
  c_realm : string; c_created_at : option string; c_valid_at : option string; c_invalid_at : option string;
  c_distance : option f64; c_kw_score : option f64; c_vec_rank : option nat; c_kw_rank : option nat;
  c_graph_proximity : f64; c_via : option Via }.

Record RetrievedMemory := {
  rm_id : string; rm_memory_type : string; rm_title : option string; rm_content_preview : string; rm_score : f64;
  rm_distance : option f64; rm_kw_score : option f64; rm_graph_proximity : f64; rm_importance : f64; rm_realm : string;
  rm_valid_at : option string; rm_invalid_at : option string; rm_via : option Via }.

Record LinkedResource := { lk_node_id : string; lk_target_namespace : option string; lk_edge_type : string; lk_depth : nat }.

Record PrecedentBlock := {
  pb_activity_id : string; pb_activity_preview : string; pb_activity_created_at : option string; pb_similarity : f64;
  pb_memory_ids : list string }.

Record RetrieveResult := {
  memories : list RetrievedMemory; linked : list LinkedResource; precedent : option PrecedentBlock }.

(** [row.get(key).and_then(Value::as_f64)] *)
Definition get_f64 (row : Row) (key : string) : option f64 := row !! key ≫= as_f64.

(** [Cand::from_row] *)
Definition from_row (row : Row) : option Cand :=
  id ← get_str row "id";
  Some {| c_id := id; c_memory_type := default "" (get_str row "memory_type"); c_title := get_str row "title";
          c_content_preview := default "" (get_str row "content_preview");
          c_importance := default f64_zero (get_f64 row "importance");
          c_realm := default "" (get_str row "realm"); c_created_at := get_str row "created_at";
          c_valid_at := get_str row "valid_at"; c_invalid_at := get_str row "invalid_at";
          c_distance := get_f64 row "distance"; c_kw_score := get_f64 row "kw_score";
          c_vec_rank := None; c_kw_rank := None; c_graph_proximity := f64_zero; c_via := None |}.

Definition empty_cand (id : string) : Cand :=
  {| c_id := id; c_memory_type := ""; c_title := None; c_content_preview := ""; c_importance := f64_zero; c_realm := "";
     c_created_at := None; c_valid_at := None; c_invalid_at := None; c_distance := None; c_kw_score := None;
     c_vec_rank := None; c_kw_rank := None; c_graph_proximity := f64_zero; c_via := None |}.

Definition graph_cand (id seed etype : string) (depth : nat) : Cand :=
  {| c_id := id; c_memory_type := ""; c_title := None; c_content_preview := ""; c_importance := f64_zero; c_realm := "";
     c_created_at := None; c_valid_at := None; c_invalid_at := None; c_distance := None; c_kw_score := None;
     c_vec_rank := None; c_kw_rank := None;
     c_graph_proximity := f64_div (f64_of_Z 1) (f64_add (f64_of_Z 1) (f64_of_Z (Z.of_nat depth)));
     c_via := Some {| via_seed := seed; via_type := etype; via_depth := depth |} |}.

Definition hydrate (c : Cand) (row : Row) : Cand :=
  {| c_id := c_id c; c_memory_type := default "" (get_str row "memory_type"); c_title := get_str row "title";
     c_content_preview := default "" (get_str row "content_preview");
     c_importance := default f64_zero (get_f64 row "importance");
     c_realm := default "" (get_str row "realm"); c_created_at := get_str row "created_at";
     c_valid_at := get_str row "valid_at"; c_invalid_at := get_str row "invalid_at";
     c_distance := c_distance c; c_kw_score := c_kw_score c; c_vec_rank := c_vec_rank c; c_kw_rank := c_kw_rank c;
     c_graph_proximity := c_graph_proximity c; c_via := c_via c |}.

Definition with_ranks (c : Cand) (v k : option nat) (score : option f64) : Cand :=
  {| c_id := c_id c; c_memory_type := c_memory_type c; c_title := c_title c; c_content_preview := c_content_preview c;
     c_importance := c_importance c; c_realm := c_realm c; c_created_at := c_created_at c; c_valid_at := c_valid_at c;
     c_invalid_at := c_invalid_at c; c_distance := c_distance c; c_kw_score := score; c_vec_rank := v; c_kw_rank := k;
     c_graph_proximity := c_graph_proximity c; c_via := c_via c |}.
Definition with_proximity (c : Cand) (p : f64) : Cand :=
  {| c_id := c_id c; c_memory_type := c_memory_type c; c_title := c_title c; c_content_preview := c_content_preview c;
     c_importance := c_importance c; c_realm := c_realm c; c_created_at := c_created_at c; c_valid_at := c_valid_at c;
     c_invalid_at := c_invalid_at c; c_distance := c_distance c; c_kw_score := c_kw_score c; c_vec_rank := c_vec_rank c;
     c_kw_rank := c_kw_rank c; c_graph_proximity := p; c_via := c_via c |}.

(** [best_rank]; no rank at all is [usize::MAX]. *)
Definition best_rank (c : Cand) : option nat :=
  match c_vec_rank c, c_kw_rank c with
  | Some a, Some b => Some (Nat.min a b)
  | Some a, None => Some a
  | None, o => o
  end.
Definition rank_compare (a b : option nat) : comparison :=
  match a, b with
  | Some a, Some b => Nat.compare a b
  | Some _, None => Lt
  | None, Some _ => Gt
  | None, None => Eq
  end.

Abbreviation Cands := (gmap string Cand).

(** The two loops that merge the ranked lists. *)
Definition merge_vec (cands : Cands) (rr : nat * Row) : Cands :=
  match from_row rr.2 with
  | Some c => match cands !! c_id c with
              | Some _ => cands
              | None => <[c_id c := with_ranks c (Some rr.1) (c_kw_rank c) (c_kw_score c)]> cands
              end
  | None => cands
  end.
Definition merge_kw (cands : Cands) (rr : nat * Row) : Cands :=
  match get_str rr.2 "id" with
  | Some id =>
      let entry := match cands !! id with Some c => c | None => default (empty_cand id) (from_row rr.2) end in
      <[id := with_ranks entry (c_vec_rank entry) (Some rr.1)
                (match c_kw_score entry with None => get_f64 rr.2 "kw_score" | o => o end)]> cands
  | None => cands
  end.
Definition enumerate {A} (l : list A) : list (nat * A) := zip (seq 0 (length l)) l.

(** A query of the pipeline and its text. *)
Inductive Query :=
  | VectorRecall (qvec : list b32) (f : RecallFilter) (limit : nat) (ann_threshold : option string)
  | VectorRecallIds (qvec : list b32) (f : RecallFilter) (limit : nat) (ids : list string)
  | KeywordRecall (tokens : list string) (f : RecallFilter) (limit : nat)
  | KeywordRecallIds (tokens : list string) (f : RecallFilter) (limit : nat) (ids : list string)
  | Neighbors (seeds realms : list string) (limit : nat)
  | NodesById (ids : list string)
  | NearestActivity (qvec : list b32) (realms : list string) (max_distance : string) (limit : nat)
  | EdgesInto (dst rel : string) (limit : nat).

Definition query_text (show_f32 show_f64 : b32 -> string) (q : Query) : string :=
  match q with
  | VectorRecall qvec f limit ann => recall_sql show_f32 show_f64 NODE_TABLE qvec f limit ann
  | VectorRecallIds qvec f limit ids => recall_sql_for_ids show_f32 show_f64 NODE_TABLE qvec f limit ids
  | KeywordRecall tokens f limit => keyword_recall_sql show_f64 NODE_TABLE tokens f limit
  | KeywordRecallIds tokens f limit ids => keyword_recall_sql_for_ids show_f64 NODE_TABLE tokens f limit ids
  | Neighbors seeds realms limit => neighbors_sql EDGE_TABLE seeds realms limit
  | NodesById ids => nodes_by_id_sql NODE_TABLE ids
  | NearestActivity qvec realms dist limit => nearest_activity_sql show_f32 NODE_TABLE qvec realms dist limit
  | EdgesInto dst rel limit => edges_into_sql EDGE_TABLE dst rel limit
  end.

(** What surrounds the pipeline: the rows the engine returns ([rows_of] of
    [execute_sql]; none when the query fails), the order a hash map is
    iterated in, the embedding of the request when the backend has one, the ids
    the indexes propose, the recency of a memory at the moment of the request,
    PageRank when it is enabled, the reranker when there is one. *)
Record RecallEnv := {
  execute : Query -> list Row;
  hash_order : Cands -> list Cand;
  query_vector : option (list b32);
  ann_candidate_ids : option (list string);
  bm25_candidate_ids : option (list string);
  recency : Cand -> f64;
  ppr_proximity : option (list (string * string * string) -> list string -> gmap string f64);
  reranker : option (string -> list string -> option (list b32));
  is_alphanumeric : char -> bool }.

(** [MemorySettings], with reinforcement and diversity re-ranking off. *)
Record MemorySettings := {
  default_limit : nat; default_expand_hops : nat; ann_threshold : option string;
  precedent_enabled : bool; precedent_max_distance : string; precedent_memory_limit : nat;
  rrf_k : f64; w_rrf : f64; w_semantic : f64; w_keyword : f64; w_graph : f64; w_importance : f64; w_recency : f64;
  w_reinforcement : f64 }.

(** [f64::clamp(0.0, 1.0)] *)
Definition f64_clamp01 (x : f64) : f64 :=
  if f64_lt x f64_zero then f64_zero else if f64_lt (f64_of_Z 1) x then f64_of_Z 1 else x.

(** [sort_by(|a, b| b.partial_cmp(&a).unwrap_or(Equal))] *)
Definition descending {A} (key : A -> f64) (l : list A) : list A :=
  sort_by (fun a b => default Eq (SFcompare (key b) (key a))) l.
Definition descending32 {A} (key : A -> b32) (l : list A) : list A :=
  sort_by (fun a b => default Eq (f32_partial_cmp (key b) (key a))) l.

(** [dedup_by(|a, b| a.node_id == b.node_id)]: of neighbours in the list. *)
Fixpoint dedup_linked (l : list LinkedResource) : list LinkedResource :=
  match l with
  | a :: l =>
      match dedup_linked l with
      | b :: r => if decide (lk_node_id a = lk_node_id b) then a :: r else a :: b :: r
      | [] => [a]
      end
  | [] => []
  end.

Section Pipeline.
  Context (R : RecallEnv).

(** The strongest candidates by their best rank. *)
Definition top_seeds (cands : Cands) : list string :=
  c_id <$> take SEED_N (sort_by (fun a b => rank_compare (best_rank a) (best_rank b)) (hash_order R cands)).

(** One edge of a hop: candidates, linked resources, the next frontier, the
    seeds seen and the ids to materialize. *)
Record Hop := {
  h_cands : Cands; h_linked : list LinkedResource; h_next : list string; h_seen : gset string; h_new : list string }.

Definition follow_edge (restricted : bool) (frontier : list string) (depth : nat) (edge : Row) (h : Hop) : Hop :=
  let src := default "" (get_str edge "src") in
  let dst := default "" (get_str edge "dst") in
  let etype := default "" (get_str edge "type") in
  let tns := get_str edge "target_namespace" in
  match (if decide (src ∈ frontier) then Some (src, dst) else if decide (dst ∈ frontier) then Some (dst, src) else None) with
  | None => h
  | Some (seed, far) =>
      if decide (far = "") then h
      else if String.prefix "memory:" far then
        match h_cands h !! far with
        | Some _ => h
        | None =>
            if decide (far ∈ h_seen h) then h
            else {| h_cands := <[far := graph_cand far seed etype depth]> (h_cands h); h_linked := h_linked h;
                    h_next := h_next h ++ [far]; h_seen := {[far]} ∪ h_seen h; h_new := h_new h ++ [far] |}
        end
      else if restricted then h
      else {| h_cands := h_cands h;
              h_linked := h_linked h ++ [{| lk_node_id := far; lk_target_namespace := tns; lk_edge_type := etype;
                                            lk_depth := depth |}];
              h_next := h_next h; h_seen := h_seen h; h_new := h_new h |}
  end.

(** Filling the display fields of a neighbour, or dropping it. *)
Definition materialize (restricted : bool) (realms : list string) (cands : Cands) (row : Row) : Cands :=
  match get_str row "id" with
  | Some id =>
      if restricted && negb (contains realms (default "" (get_str row "realm"))) then delete id cands
      else match cands !! id with Some c => <[id := hydrate c row]> cands | None => cands end
  | None => cands
  end.

(** The neighbours no row came back for. *)
Definition drop_missing (rows : list Row) (new_ids : list string) (cands : Cands) : Cands :=
  foldl (fun cands id => if existsb (fun r => bool_decide (get_str r "id" = Some id)) rows then cands else delete id cands)
        cands new_ids.

Definition materialize_all (restricted : bool) (realms : list string) (h : Hop) : Cands :=
  match h_new h with
  | [] => h_cands h
  | new_ids =>
      let rows := execute R (NodesById new_ids) in
      let cands := foldl (materialize restricted realms) (h_cands h) rows in
      if restricted then drop_missing rows new_ids cands else cands
  end.

(** The loop over the depths. *)
Fixpoint expand (restricted : bool) (realms : list string) (limit : nat) (depths : list nat) (frontier : list string)
    (seen : gset string) (cands : Cands) (linked : list LinkedResource) : Cands * list LinkedResource :=
  match depths with
  | [] => (cands, linked)
  | depth :: depths =>
      if is_empty frontier then (cands, linked)
      else
        let rows := execute R (Neighbors frontier realms EXPAND_CAP) in
        let h := foldl (fun h edge => follow_edge restricted frontier depth edge h)
                   {| h_cands := cands; h_linked := linked; h_next := []; h_seen := seen; h_new := [] |} rows in
        let cands := materialize_all restricted realms h in
        if bool_decide (CAND_K * 4 < size cands) || bool_decide (limit * 20 < length (h_linked h)) then (cands, h_linked h)
        else expand restricted realms limit depths (h_next h) (h_seen h) cands (h_linked h)
  end.

Definition graph_expand (scope : RealmScope) (realms : list string) (hops limit : nat) (cands : Cands) :
    Cands * list LinkedResource :=
  let frontier := top_seeds cands in
  expand (is_restricted scope) realms limit (seq 1 hops) frontier (list_to_set frontier) cands [].

Definition ppr_rescore (realms : list string) (cands : Cands) : Cands :=
  match ppr_proximity R with
  | None => cands
  | Some proximity =>
      if decide (size cands < 2) then cands
      else
        let ids := c_id <$> hash_order R cands in
        let rows := execute R (Neighbors ids realms (EXPAND_CAP * 4)) in
        let edges := omap (fun row =>
            let src := default "" (get_str row "src") in
            let dst := default "" (get_str row "dst") in
            if decide (src ∈ ids /\ dst ∈ ids) then Some (src, dst, default "" (get_str row "type")) else None) rows in
        if is_empty edges then cands
        else
          let prox := proximity edges (top_seeds cands) in
          (fun c => match prox !! c_id c with Some m => with_proximity c m | None => c end) <$> cands
  end.

(** [finalize] *)
Definition rrf_term (s : MemorySettings) (rank : option nat) : f64 :=
  match rank with
  | Some r => f64_div (f64_of_Z 1) (f64_add (rrf_k s) (f64_of_Z (Z.of_nat r)))
  | None => f64_zero
  end.
Definition finalize (s : MemorySettings) (kw_denom : f64) (c : Cand) : RetrievedMemory :=
  let rrf := f64_add (rrf_term s (c_vec_rank c)) (rrf_term s (c_kw_rank c)) in
  let semantic := match c_distance c with Some d => f64_clamp01 (f64_sub (f64_of_Z 1) d) | None => f64_zero end in
  let keyword := match c_kw_score c with Some k => f64_clamp01 (f64_div k kw_denom) | None => f64_zero end in
  let reinforcement := f64_of_Z 1 in
  let score := foldl f64_add (f64_mul (w_rrf s) rrf)
    [f64_mul (w_semantic s) semantic; f64_mul (w_keyword s) keyword; f64_mul (w_graph s) (c_graph_proximity c);
     f64_mul (w_importance s) (c_importance c); f64_mul (w_recency s) (recency R c);
     f64_mul (w_reinforcement s) reinforcement] in
  {| rm_id := c_id c; rm_memory_type := c_memory_type c; rm_title := c_title c; rm_content_preview := c_content_preview c;
     rm_score := score; rm_distance := c_distance c; rm_kw_score := c_kw_score c;
     rm_graph_proximity := c_graph_proximity c; rm_importance := c_importance c; rm_realm := c_realm c;
     rm_valid_at := c_valid_at c; rm_invalid_at := c_invalid_at c; rm_via := c_via c |}.

Definition rerank_memories (query : string) (scored : list RetrievedMemory) : list RetrievedMemory :=
  match reranker R with
  | None => scored
  | Some rerank =>
      let head := take RERANK_CANDIDATES scored in
      let tail := drop RERANK_CANDIDATES scored in
      if is_empty head then scored
      else
        let docs := (fun m => trim (fmt [default "" (rm_title m); " "; rm_content_preview m])) <$> head in
        match rerank query docs with
        | Some scores =>
            if decide (length scores = length head) then (snd <$> descending32 fst (zip scores head)) ++ tail
            else head ++ tail
        | None => head ++ tail
        end
  end.

Definition find_precedent (s : MemorySettings) (qvec : list b32) (realms : list string) : option PrecedentBlock :=
  row ← head (execute R (NearestActivity qvec realms (precedent_max_distance s) 1));
  activity_id ← get_str row "id";
  let ids := omap (fun r => get_str r "src") (execute R (EdgesInto activity_id EDGE_DERIVED_FROM (precedent_memory_limit s))) in
  if is_empty ids then None
  else Some {| pb_activity_id := activity_id; pb_activity_preview := default "" (get_str row "content_preview");
               pb_activity_created_at := get_str row "created_at";
               pb_similarity := match get_f64 row "distance" with
                                | Some d => f64_clamp01 (f64_sub (f64_of_Z 1) d)
                                | None => f64_zero
                                end;
               pb_memory_ids := ids |}.

(** [a.clamp(1, 100)] *)
Definition clamp_limit (n : nat) : nat := Nat.min 100 (Nat.max 1 n).

Definition no_result : RetrieveResult := {| memories := []; linked := []; precedent := None |}.

Definition request_filter (req : RetrieveRequest) (realms : list string) : RecallFilter :=
  {| rf_realms := realms; rf_memory_type := MemoryType.parse <$> rq_memory_type req; rf_statuses := [];
     rf_tags := rq_tags req; rf_importance_min := rq_importance_min req; rf_since := None; rf_until := None;
     rf_as_of := rq_as_of req; rf_include_invalidated := rq_include_invalidated req;
     rf_space_agent := rq_space_agent req |}.

(** The candidates of the two modalities. *)
Definition candidates (s : MemorySettings) (req : RetrieveRequest) (qvec : list b32) (filter : RecallFilter) : Cands :=
  let tokens := tokenize_query (is_alphanumeric R) (rq_query req) in
  let vec_query := match ann_candidate_ids R with
                   | Some ids => VectorRecallIds qvec filter CAND_K ids
                   | None => VectorRecall qvec filter CAND_K (ann_threshold s)
                   end in
  let kw_rows := if is_empty tokens then []
                 else execute R match bm25_candidate_ids R with
                                | Some ids => KeywordRecallIds tokens filter CAND_K ids
                                | None => KeywordRecall tokens filter CAND_K
                                end in
  foldl merge_kw (foldl merge_vec ∅ (enumerate (execute R vec_query))) (enumerate kw_rows).

Definition retrieve (s : MemorySettings) (scope : RealmScope) (req : RetrieveRequest) : RetrieveResult :=
  let limit := clamp_limit (default (default_limit s) (rq_limit req)) in
  let hops := Nat.min (default (default_expand_hops s) (rq_expand_hops req)) MAX_HOPS in
  match query_vector R with
  | None => no_result
  | Some qvec =>
      match intersect_realms scope (rq_realms req) with
      | Empty => no_result
      | Unrestricted realms | Scoped realms =>
          let filter := request_filter req realms in
          let tokens := tokenize_query (is_alphanumeric R) (rq_query req) in
          let precedent := if precedent_enabled s then find_precedent s qvec realms else None in
          let cands := candidates s req qvec filter in
          let '(cands, linked) :=
            if bool_decide (1 <= hops) && negb (bool_decide (cands = ∅)) then graph_expand scope realms hops limit cands
            else (cands, []) in
          let cands := ppr_rescore realms cands in
          let kw_norm_denom := f64_of_Z (Z.of_nat (Nat.max 1 (length tokens))) in
          let scored := descending rm_score (finalize s kw_norm_denom <$> hash_order R cands) in
          let scored := take limit (rerank_memories (rq_query req) scored) in
          let linked := take 50 (dedup_linked (sort_by (fun a b => Nat.compare (lk_depth a) (lk_depth b)) linked)) in
          {| memories := scored; linked := linked; precedent := precedent |}
      end
  end.
End Pipeline.

(** ** What is assumed of the engine *)

(** The conditions and the columns of a query over the newest versions. *)
Definition query_conds (q : Query) : option (list Cond) :=
  match q with
  | VectorRecall _ f _ _ => Some (or_always (filter_conditions f true ++ space_condition f))
  | VectorRecallIds _ f _ ids => Some (filter_conditions f true ++ [id_condition ids] ++ space_condition f)
  | KeywordRecall _ f _ => Some (or_always (filter_conditions f true ++ space_condition f))
  | KeywordRecallIds _ f _ ids => Some (filter_conditions f true ++ [id_condition ids] ++ space_condition f)
  | NodesById ids => Some [IdIn ids; StillValid]
  | _ => None
  end.
Definition NODE_DISPLAY : list string :=
  ["id"; "memory_type"; "title"; "content_preview"; "tags"; "importance"; "status"; "realm"; "created_at"; "valid_at";
   "invalid_at"].

(** Rows that satisfy a query's conditions; nothing is said of which of them
    come, nor in which order. *)
Definition answers (like : string -> string -> bool) (v : string -> option Row) (execute : Query -> list Row) : Prop :=
  forall q conds r, query_conds q = Some conds -> r ∈ execute q ->
    exists id x, get_str r "id" = Some id /\ v id = Some x /\ get_str x "id" = Some id
      /\ all_hold like conds x = true /\ forall c, c ∈ NODE_DISPLAY -> col r c = col x c.

Section Sound.
  Context (R : RecallEnv) (like : string -> string -> bool) (v : string -> option Row).
  Context (Hans : answers like v (execute R)) (Hord : forall m, hash_order R m ≡ₚ (map_to_list m).*2).

Lemma hash_order_In m c : c ∈ hash_order R m <-> exists k, m !! k = Some c.
Proof.
  rewrite Hord, list_elem_of_fmap. split.
  - intros ([k c'] & -> & H). exists k. by apply elem_of_map_to_list.
  - intros [k H]. exists (k, c). split; [done|]. by apply elem_of_map_to_list.
Qed.

(** A property of the candidates, by key, that ranking does not change. *)
Definition rank_free (P : string -> Cand -> Prop) : Prop :=
  (forall k c a b s, P k c -> P k (with_ranks c a b s)) /\ (forall k c p, P k c -> P k (with_proximity c p)).
Definition each (P : string -> Cand -> Prop) (m : Cands) : Prop := forall k c, m !! k = Some c -> P k c.

Lemma each_insert P m k c : each P m -> P k c -> each P (<[k := c]> m).
Proof. intros Hm Hc k' c' [[<- <-]|[_ H]]%lookup_insert_Some; [done|by apply Hm]. Qed.
Lemma each_delete P m k : each P m -> each P (delete k m).
Proof. intros Hm k' c' [_ H]%lookup_delete_Some. by apply Hm. Qed.

Lemma each_foldl {A} P (f : Cands -> A -> Cands) l m :
  (forall m x, x ∈ l -> each P m -> each P (f m x)) -> each P m -> each P (foldl f m l).
Proof.
  revert m; induction l as [|x l IH]; intros m Hf Hm; [done|]. cbn. apply IH.
  - intros m' y Hy. apply Hf. by right.
  - apply Hf; [by left|done].
Qed.

Lemma enumerate_In {A} (l : list A) x : x ∈ enumerate l -> x.2 ∈ l.
Proof. destruct x as [i y]. unfold enumerate. cbn. intros H. by apply elem_of_zip_r in H. Qed.

Lemma merge_vec_each P m rr : rank_free P -> (forall c, from_row rr.2 = Some c -> P (c_id c) c) ->
  each P m -> each P (merge_vec m rr).
Proof.
  intros [HP _] Hr Hm. unfold merge_vec. destruct (from_row rr.2) as [c|]; [|done].
  destruct (m !! c_id c); [done|]. apply each_insert; [done|]. apply HP. by apply Hr.
Qed.
Lemma merge_kw_each P m rr : rank_free P -> (forall c, from_row rr.2 = Some c -> P (c_id c) c) ->
  each P m -> each P (merge_kw m rr).
Proof.
  intros [HP _] Hr Hm. unfold merge_kw. destruct (get_str rr.2 "id") as [id|] eqn:Hid; [|done].
  apply each_insert; [done|]. apply HP. destruct (m !! id) as [c|] eqn:Hl; [by apply Hm|].
  unfold from_row in *. rewrite Hid in *. cbn in *. by apply (Hr _ eq_refl).
Qed.

(** The candidates come from rows of the recalls over the filter. *)
Lemma candidates_each P s req qvec f : rank_free P ->
  (forall q conds r c, query_conds q = Some conds -> incl (filter_conditions f true ++ space_condition f) conds ->
     r ∈ execute R q -> from_row r = Some c -> P (c_id c) c) ->
  each P (candidates R s req qvec f).
Proof.
  intros HP Hr. unfold candidates.
  set (vq := match ann_candidate_ids R with Some _ => _ | None => _ end).
  set (kq := match bm25_candidate_ids R with Some _ => _ | None => _ end).
  assert (Hal : incl (filter_conditions f true ++ space_condition f) (or_always (filter_conditions f true ++ space_condition f))).
  { unfold or_always. destruct (is_empty _) eqn:He; [|apply incl_refl].
    destruct (filter_conditions f true ++ space_condition f); [apply incl_nil_l|done]. }
  assert (Hids : forall ids, incl (filter_conditions f true ++ space_condition f)
                               (filter_conditions f true ++ [id_condition ids] ++ space_condition f)).
  { intros ids. apply incl_app; [by apply incl_appl, incl_refl|by apply incl_appr, incl_appr, incl_refl]. }
  apply each_foldl.
  - intros m x Hx Hm. apply merge_kw_each; [done| |done]. intros c Hc. apply enumerate_In in Hx.
    destruct (is_empty _); [by apply not_elem_of_nil in Hx|].
    subst kq. destruct (bm25_candidate_ids R) as [ids|]; eapply Hr; try exact Hx; try exact Hc; try reflexivity; auto.
  - apply each_foldl; [|by intros k c; rewrite lookup_empty].
    intros m x Hx Hm. apply merge_vec_each; [done| |done]. intros c Hc. apply enumerate_In in Hx.
    subst vq. destruct (ann_candidate_ids R) as [ids|]; eapply Hr; try exact Hx; try exact Hc; try reflexivity; auto.
Qed.

Lemma ppr_each P realms m : rank_free P -> each P m -> each P (ppr_rescore R realms m).
Proof.
  intros [_ HP] Hm. unfold ppr_rescore. destruct (ppr_proximity R) as [prox|]; [|done]. case_decide; [done|].
  cbv zeta. destruct (is_empty _); [done|]. intros k c (c' & Hc & Hk)%lookup_fmap_Some.
  rewrite <-Hc. case_match; [apply HP|]; by apply Hm.
Qed.

(** A memory that is returned was a candidate. *)
Lemma descending_In {A} (key : A -> f64) l x : x ∈ descending key l -> x ∈ l.
Proof. unfold descending. by rewrite sort_by_Permutation. Qed.

Lemma rerank_In query l m : m ∈ rerank_memories R query l -> m ∈ l.
Proof.
  unfold rerank_memories. destruct (reranker R) as [rerank|]; [|done]. cbv zeta.
  destruct (is_empty _); [done|].
  assert (Htd : forall x, x ∈ take RERANK_CANDIDATES l ++ drop RERANK_CANDIDATES l -> x ∈ l) by (intros x; by rewrite take_drop).
  destruct (rerank _ _) as [scores|]; [|apply Htd]. case_decide; [|apply Htd].
  intros [Hin|Hin]%elem_of_app.
  - apply list_elem_of_fmap in Hin as ([sc x] & -> & Hin). unfold descending32 in Hin.
    rewrite sort_by_Permutation in Hin. apply elem_of_zip_r in Hin. apply Htd, elem_of_app. by left.
  - apply Htd, elem_of_app. by right.
Qed.

Lemma take_In {A} n (l : list A) x : x ∈ take n l -> x ∈ l.
Proof. intros H. rewrite <-(take_drop n l). apply elem_of_app. by left. Qed.

Lemma finalized_In s denom query limit cands m :
  m ∈ take limit (rerank_memories R query (descending rm_score (finalize R s denom <$> hash_order R cands))) ->
  exists k c, cands !! k = Some c /\ m = finalize R s denom c.
Proof.
  intros (c & -> & [k Hc]%hash_order_In)%take_In%rerank_In%descending_In%list_elem_of_fmap. eauto.
Qed.

(** *** A restricted token *)

(** A candidate is shown with the realm of its node, which is allowed. *)
Definition in_scope (allowed : list string) (k : string) (c : Cand) : Prop :=
  c_id c = k /\ exists x, v k = Some x /\ default "" (get_str x "realm") = c_realm c /\ c_realm c ∈ allowed.

Lemma in_scope_rank_free allowed : rank_free (in_scope allowed).
Proof. split; intros; assumption. Qed.

Lemma display_str r x c : (forall c, c ∈ NODE_DISPLAY -> col r c = col x c) -> c ∈ NODE_DISPLAY ->
  get_str r c = get_str x c.
Proof. intros H Hc. by rewrite !get_str_col, H. Qed.

Lemma from_row_id r c id : from_row r = Some c -> get_str r "id" = Some id -> c_id c = id.
Proof. unfold from_row. intros H Hid. rewrite Hid in H. cbn in H. by injection H as <-. Qed.
Lemma from_row_realm r c : from_row r = Some c -> c_realm c = default "" (get_str r "realm").
Proof. unfold from_row. destruct (get_str r "id"); [|done]. cbn. by intros [= <-]. Qed.
Lemma from_row_via r c : from_row r = Some c -> c_via c = None.
Proof. unfold from_row. destruct (get_str r "id"); [|done]. cbn. by intros [= <-]. Qed.

Lemma all_hold_In l x c : all_hold like l x = true -> In c l -> cond_holds like c x = true.
Proof. unfold all_hold. rewrite forallb_forall. auto. Qed.

Lemma realm_condition f realms : rf_realms f = realms -> realms <> [] ->
  In (RealmIn realms) (filter_conditions f true ++ space_condition f).
Proof.
  intros <- Hne. apply in_or_app. left. unfold filter_conditions. apply in_or_app. right. apply in_or_app. left.
  destruct (rf_realms f); [done|]. by left.
Qed.

Lemma candidate_in_scope f allowed realms : rf_realms f = realms -> realms <> [] -> (forall r, r ∈ realms -> r ∈ allowed) ->
  forall q conds r c, query_conds q = Some conds -> incl (filter_conditions f true ++ space_condition f) conds ->
    r ∈ execute R q -> from_row r = Some c -> in_scope allowed (c_id c) c.
Proof.
  intros Hf Hne Hsub q conds r c Hq Hincl Hr Hc. destruct (Hans q conds r Hq Hr) as (id & x & Hid & Hv & _ & Hall & Hcol).
  rewrite (from_row_id _ _ _ Hc Hid). split; [by eapply from_row_id|]. exists x. split; [done|].
  rewrite (from_row_realm _ _ Hc), (display_str r x "realm" Hcol) by in_columns. split; [done|].
  pose proof (all_hold_In _ _ _ Hall (Hincl _ (realm_condition f realms Hf Hne))) as Hre.
  cbn in Hre. unfold str_test in Hre. destruct (get_str x "realm"); [|done]. by apply Hsub, contains_In.
Qed.

(** During a hop: every candidate is in scope, but for the placeholders. *)
Definition in_hop (allowed new_ids : list string) (k : string) (c : Cand) : Prop :=
  in_scope allowed k c \/ (k ∈ new_ids /\ c_id c = k).

Lemma in_hop_weaken allowed l1 l2 k c : (forall x, x ∈ l1 -> x ∈ l2) -> in_hop allowed l1 k c -> in_hop allowed l2 k c.
Proof. intros H [?|[? ?]]; [by left|right; auto]. Qed.

Lemma follow_edge_scope allowed frontier depth edge h : each (in_hop allowed (h_new h)) (h_cands h) ->
  let h' := follow_edge true frontier depth edge h in
  each (in_hop allowed (h_new h')) (h_cands h') /\ h_linked h' = h_linked h.
Proof.
  intros Hm. unfold follow_edge. cbv zeta. destruct (if decide _ then _ else _) as [[seed far]|]; [|done].
  case_decide; [done|]. destruct (String.prefix "memory:" far); [|done].
  destruct (h_cands h !! far); [done|]. case_decide; [done|]. cbn. split; [|done].
  apply each_insert; [|right; split; [apply elem_of_app; right; by apply list_elem_of_singleton|done]].
  intros k c Hk. eapply in_hop_weaken; [|by apply Hm]. intros x Hx. apply elem_of_app. by left.
Qed.

(** A row that came back decides about its node. *)
Lemma materialize_scope allowed realms new_ids (rows : list Row) m r :
  (forall x, x ∈ realms -> x ∈ allowed) -> r ∈ execute R (NodesById new_ids) ->
  each (fun k c => in_scope allowed k c \/ (k ∈ new_ids /\ c_id c = k /\ forall y, y ∈ rows -> get_str y "id" <> Some k)) m ->
  each (fun k c => in_scope allowed k c \/ (k ∈ new_ids /\ c_id c = k /\ forall y, y ∈ rows ++ [r] -> get_str y "id" <> Some k))
    (materialize true realms m r).
Proof.
  intros Hsub Hr Hm. destruct (Hans (NodesById new_ids) _ r eq_refl Hr) as (id & x & Hid & Hv & _ & Hall & Hcol).
  unfold materialize. rewrite Hid. cbn [andb].
  assert (Hother : forall k c, m !! k = Some c -> k <> id -> in_scope allowed k c \/
      (k ∈ new_ids /\ c_id c = k /\ forall y, y ∈ rows ++ [r] -> get_str y "id" <> Some k)).
  { intros k c Hk Hne. destruct (Hm k c Hk) as [?|(? & ? & Hy)]; [by left|right]. split; [done|]. split; [done|].
    intros y [Hin| ->%list_elem_of_singleton]%elem_of_app; [by apply Hy|]. rewrite Hid. congruence. }
  destruct (contains realms _) eqn:Hc; cbn [negb].
  - destruct (m !! id) as [c|] eqn:Hl.
    + intros k c' [[<- <-]|[Hne Hk]]%lookup_insert_Some; [|by apply Hother]. left.
      split; [by destruct (Hm id c Hl) as [[? _]|(_ & ? & _)]|]. exists x. split; [done|].
      cbn. rewrite (display_str r x "realm" Hcol) by in_columns. split; [done|].
      rewrite (display_str r x "realm" Hcol) in Hc by in_columns. by apply Hsub, contains_In.
    + intros k c Hk. apply Hother; [done|congruence].
  - intros k c [Hne Hk]%lookup_delete_Some. by apply Hother.
Qed.

Lemma materialize_rows_scope allowed realms new_ids rest : forall pre m,
  (forall x, x ∈ realms -> x ∈ allowed) -> (forall r, r ∈ rest -> r ∈ execute R (NodesById new_ids)) ->
  each (fun k c => in_scope allowed k c \/ (k ∈ new_ids /\ c_id c = k /\ forall y, y ∈ pre -> get_str y "id" <> Some k)) m ->
  each (fun k c => in_scope allowed k c \/ (k ∈ new_ids /\ c_id c = k /\ forall y, y ∈ pre ++ rest -> get_str y "id" <> Some k))
    (foldl (materialize true realms) m rest).
Proof.
  induction rest as [|r rest IH]; intros pre m Hsub Hr Hm; cbn [foldl]; [by rewrite app_nil_r|].
  rewrite cons_middle, (assoc_L (++)). apply IH; [done| |].
  - intros y Hy. apply Hr. by right.
  - apply materialize_scope; [done|apply Hr; by left|done].
Qed.

Lemma drop_missing_scope allowed rows : forall new_ids m,
  each (fun k c => in_scope allowed k c \/ (k ∈ new_ids /\ forall y, y ∈ rows -> get_str y "id" <> Some k)) m ->
  each (in_scope allowed) (drop_missing rows new_ids m).
Proof.
  unfold drop_missing. induction new_ids as [|id new_ids IH]; intros m Hm; cbn [foldl].
  - intros k c [?|[Hk _]]%Hm; [done|]. by apply not_elem_of_nil in Hk.
  - apply IH. intros k c Hk. destruct (existsb _ rows) eqn:He.
    + destruct (Hm k c Hk) as [?|[[->|Hin]%elem_of_cons Hy]]; [by left| |right; auto].
      exfalso. apply existsb_exists in He as (y & Hyin & Hyid%bool_decide_eq_true).
      apply (Hy y); [by apply list_elem_of_In|done].
    + apply lookup_delete_Some in Hk as [Hne Hk].
      destruct (Hm k c Hk) as [?|[[->|Hin]%elem_of_cons Hy]]; [by left|done|right; auto].
Qed.

Lemma materialize_all_scope allowed realms h : (forall x, x ∈ realms -> x ∈ allowed) ->
  each (in_hop allowed (h_new h)) (h_cands h) -> each (in_scope allowed) (materialize_all R true realms h).
Proof.
  intros Hsub Hm. unfold materialize_all. destruct (h_new h) as [|id l] eqn:Hnew.
  - intros k c [?|[Hk _]]%Hm; [done|]. by apply not_elem_of_nil in Hk.
  - rewrite <-Hnew in *. apply drop_missing_scope.
    intros k c Hk. destruct (materialize_rows_scope allowed realms (h_new h) (execute R (NodesById (h_new h))) [] (h_cands h))
      with (k := k) (c := c) as [?|(? & ? & ?)]; [done|auto| |done|by left|right; auto].
    intros k' c' [?|[? ?]]%Hm; [by left|right]. split; [done|]. split; [done|]. by intros y ?%not_elem_of_nil.
Qed.

Lemma expand_scope allowed realms limit depths : (forall x, x ∈ realms -> x ∈ allowed) ->
  forall frontier seen m l, each (in_scope allowed) m ->
  each (in_scope allowed) (expand R true realms limit depths frontier seen m l).1
  /\ (expand R true realms limit depths frontier seen m l).2 = l.
Proof.
  intros Hsub. induction depths as [|d depths IH]; intros frontier seen m l Hm; [done|]. cbn [expand].
  destruct (is_empty frontier); [done|]. cbv zeta.
  set (rows := execute R _). set (h0 := {| h_cands := m |}).
  assert (Hh : each (in_hop allowed (h_new (foldl (fun h edge => follow_edge true frontier d edge h) h0 rows)))
                 (h_cands (foldl (fun h edge => follow_edge true frontier d edge h) h0 rows))
               /\ h_linked (foldl (fun h edge => follow_edge true frontier d edge h) h0 rows) = l).
  { assert (H0 : each (in_hop allowed (h_new h0)) (h_cands h0) /\ h_linked h0 = l)
      by (split; [intros k c Hk; left; by apply Hm|done]).
    revert H0. generalize h0. clear h0. induction rows as [|e rows IHr]; intros h [H1 H2]; [done|]. cbn [foldl]. apply IHr.
    destruct (follow_edge_scope allowed frontier d e h H1) as [K1 K2]. split; [exact K1|by rewrite K2]. }
  destruct Hh as [Hh Hl]. pose proof (materialize_all_scope allowed realms _ Hsub Hh) as Hmat.
  destruct (bool_decide _ || bool_decide _); [by split|]. rewrite Hl. by apply IH.
Qed.

(** *** A direct hit *)

(** A candidate that no edge brought satisfies the conditions of the request. *)
Definition direct (conds : list Cond) (k : string) (c : Cand) : Prop :=
  c_id c = k /\ (c_via c = None -> exists x, v k = Some x /\ all_hold like conds x = true).

Lemma direct_rank_free conds : rank_free (direct conds).
Proof. split; intros; assumption. Qed.

Lemma candidate_direct f : forall q conds r c, query_conds q = Some conds ->
  incl (filter_conditions f true ++ space_condition f) conds -> r ∈ execute R q -> from_row r = Some c ->
  direct (filter_conditions f true ++ space_condition f) (c_id c) c.
Proof.
  intros q conds r c Hq Hincl Hr Hc. destruct (Hans q conds r Hq Hr) as (id & x & Hid & Hv & _ & Hall & _).
  rewrite (from_row_id _ _ _ Hc Hid). split; [by eapply from_row_id|]. intros _. exists x. split; [done|].
  unfold all_hold in *. rewrite forallb_forall in *. auto.
Qed.

Lemma follow_edge_direct conds restricted frontier depth edge h : each (direct conds) (h_cands h) ->
  each (direct conds) (h_cands (follow_edge restricted frontier depth edge h)).
Proof.
  intros Hm. unfold follow_edge. cbv zeta. destruct (if decide _ then _ else _) as [[seed far]|]; [|done].
  case_decide; [done|]. destruct (String.prefix "memory:" far); [|by destruct restricted].
  destruct (h_cands h !! far); [done|]. case_decide; [done|]. cbn. apply each_insert; [done|by split].
Qed.

Lemma materialize_direct conds restricted realms m r : each (direct conds) m ->
  each (direct conds) (materialize restricted realms m r).
Proof.
  intros Hm. unfold materialize. destruct (get_str r "id") as [id|]; [|done].
  destruct (restricted && _); [by apply each_delete|]. destruct (m !! id) as [c|] eqn:Hl; [|done].
  apply each_insert; [done|]. exact (Hm id c Hl).
Qed.

Lemma materialize_all_direct conds restricted realms h : each (direct conds) (h_cands h) ->
  each (direct conds) (materialize_all R restricted realms h).
Proof.
  intros Hm. unfold materialize_all. destruct (h_new h) as [|id l]; [done|]. cbv zeta.
  assert (Hf : each (direct conds) (foldl (materialize restricted realms) (h_cands h) (execute R (NodesById (id :: l))))).
  { apply each_foldl; [|done]. intros m x _. apply materialize_direct. }
  destruct restricted; [|done]. apply (each_foldl _ _ (id :: l)); [|done]. intros m x _ Hx.
  destruct (existsb _ _); [done|by apply each_delete].
Qed.

Lemma expand_direct conds restricted realms limit depths : forall frontier seen m l, each (direct conds) m ->
  each (direct conds) (expand R restricted realms limit depths frontier seen m l).1.
Proof.
  induction depths as [|d depths IH]; intros frontier seen m l Hm; [done|]. cbn [expand].
  destruct (is_empty frontier); [done|]. cbv zeta.
  assert (Hh : forall rows h, each (direct conds) (h_cands h) ->
    each (direct conds) (h_cands (foldl (fun h edge => follow_edge restricted frontier d edge h) h rows))).
  { induction rows as [|e rows IHr]; intros h Hh; [done|]. apply IHr. by apply follow_edge_direct. }
  pose proof (materialize_all_direct conds restricted realms _
    (Hh (execute R (Neighbors frontier realms EXPAND_CAP)) {| h_cands := m; h_linked := l; h_next := []; h_seen := seen; h_new := [] |} Hm)) as Hmat.
  destruct (bool_decide _ || bool_decide _); [done|]. by apply IH.
Qed.
End Sound.
