(* ===== verification/MemoryProperties.v ===== *)
(** * Properties of agentic memory

    Undoing and deferring mutations, recall within realms and filters, redaction
    and the closedness of the query texts, each with a witness; and lemmas that
    show where the code falls short of what its comments promise. *)

From stdpp Require Import base gmap strings list sorting.
From Stdlib Require Import NArith ZArith Lia Ascii SpecFloat.
From S2P Require Import Prelude Bytes Arrow KqlParser SqlScan CatalogSchema VectorMath MemoryRows MemoryGate MemoryRecall.

Local Open Scope string_scope.
Local Open Scope list_scope.

(** ** A concrete surrounding *)

(** Texts that grow with their number. *)
Fixpoint nines (n : nat) : string := match n with O => "" | S n => String "9" (nines n) end.


(** The last of the newest versions. *)
Definition pick_newest (l : list Row) : option Row :=
  foldr (fun r acc => match acc with
                      | Some a => if not_newer (updated_at r) (updated_at a) then Some a else Some r
                      | None => Some r
                      end) None l.

Lemma not_newer_refl a : not_newer a a = true.
Proof. destruct a; cbn; auto with pensieve. Qed.
Lemma not_newer_trans a b c : not_newer a b = true -> not_newer b c = true -> not_newer a c = true.
Proof. destruct a, b, c; cbn; try done. apply str_le_trans. Qed.
Lemma not_newer_total a b : not_newer a b = false -> not_newer b a = true.
Proof.
  destruct a as [a|], b as [b|]; cbn; try done. unfold str_le, str_compare.
  pose proof (String.compare_antisym a b) as H. destruct (String.compare a b), (String.compare b a); done.
Qed.

Lemma pick_newest_max l r : pick_newest l = Some r ->
  r ∈ l /\ forall r', r' ∈ l -> not_newer (updated_at r') (updated_at r) = true.
Proof.
  revert r; induction l as [|x l IH]; intros r; cbn [pick_newest foldr]; [done|]. fold (pick_newest l).
  destruct (pick_newest l) as [a|] eqn:Ha.
  - destruct (IH a eq_refl) as [Hin Hmax]. destruct (not_newer _ _) eqn:Hn; intros [= <-].
    + split; [by right|]. intros r' [->|H]%elem_of_cons; auto.
    + split; [by left|]. intros r' [->|H]%elem_of_cons; [apply not_newer_refl|].
      eapply not_newer_trans; [by apply Hmax|]. by apply not_newer_total.
  - intros [= <-]. split; [by left|]. destruct l as [|y l].
    + intros r' [->|H%not_elem_of_nil]%elem_of_cons; [apply not_newer_refl|done].
    + cbn in Ha. destruct (foldr _ _ l); [destruct (not_newer _ _)|]; discriminate.
Qed.

Definition sample_env : Env := {|
  others _ w := w;
  fault _ := None;
  now_rfc3339 n := nines n;
  new_uuid n := "u" +:+ nines n;
  embed _ := [f32_one];
  json_text _ := "{}";
  pg_time t := t;
  newest := pick_newest |}.


Definition sample_row (id realm space : string) : Row :=
  list_to_map [("id", JString ("memory:" +:+ id)); ("realm", JString realm); ("status", JString "active");
    ("content", JString "old"); ("content_preview", JString "old"); ("updated_at", JString ""); ("space", JString space)].

Definition sample_world : World :=
  {| calls := 1; nodes := [sample_row "a" "r" "private:bob"; sample_row "b" "r" "public"]; mem_edges := [];
     pg_queue := []; file_queue := Absent |}.



(** ** Undoing *)

Section Gate.
  Context (E : Env) (Hq : quiet E).


End Gate.

(** ** Recall *)

Section Recall.
  Context (R : RecallEnv) (like : string -> string -> bool) (E : Env) (w : World).
  Context (Hans : answers like (view E w) (execute R)) (Hord : forall m, hash_order R m ≡ₚ (map_to_list m).*2).

(** C8: a token restricted to some realms recalls memories of those realms only:
    each memory returned is shown with the realm its newest version has, which
    is an allowed one, whatever realms were requested and however far the
    expansion went along the edges; and no resource of another graph comes with
    them. *)
Theorem restricted_recall_stays_in_scope s allowed req m :
  m ∈ memories (retrieve R s (Some allowed) req) ->
  (exists x, view E w (rm_id m) = Some x /\ default "" (get_str x "realm") = rm_realm m /\ rm_realm m ∈ allowed)
  /\ linked (retrieve R s (Some allowed) req) = [].
Proof.
  unfold retrieve. cbv zeta. destruct (query_vector R) as [qvec|]; [|by intros ?%not_elem_of_nil].
  destruct (intersect_realms (Some allowed) (rq_realms req)) as [realms|realms|] eqn:Hsc; [| |by intros ?%not_elem_of_nil].
  { unfold intersect_realms in Hsc. by destruct (is_empty (if is_empty _ then _ else _)). }
  destruct (scoped_realms _ _ _ Hsc) as (Hne & l & [= <-] & Hsub).
  pose proof (candidates_each R (in_scope (view E w) allowed) s req qvec (request_filter req realms) (in_scope_rank_free _ _)
    (candidate_in_scope R like (view E w) Hans (request_filter req realms) allowed realms eq_refl Hne Hsub)) as Hc.
  set (c0 := candidates R s req qvec (request_filter req realms)) in *.
  set (p := if bool_decide _ && _ then _ else _).
  assert (Hp : each (in_scope (view E w) allowed) p.1 /\ p.2 = []).
  { subst p. destruct (bool_decide _ && _); [|by split]. unfold graph_expand. cbn [is_restricted].
    eapply expand_scope; eauto. }
  destruct p as [cands lk]. cbn [fst snd memories linked] in *. destruct Hp as [Hp ->]. intros Hm. split; [|done].
  apply (finalized_In R Hord) in Hm as (k & c & Hk & ->).
  assert (Hin : in_scope (view E w) allowed k c).
  { eapply ppr_each; [apply in_scope_rank_free|exact Hp|exact Hk]. }
  destruct Hin as [<- Hx]. exact Hx.
Qed.

(** A memory that recall found by itself, not along an edge, satisfies in
    its newest version every condition of the request: not archived, within the
    realms, of the type, the importance and the tags asked for, valid at the
    moment asked for, and visible to the requesting agent. *)
Theorem direct_hits_satisfy_the_filter s scope req m :
  m ∈ memories (retrieve R s scope req) -> rm_via m = None ->
  exists realms x, (intersect_realms scope (rq_realms req) = Scoped realms
                    \/ intersect_realms scope (rq_realms req) = Unrestricted realms)
    /\ view E w (rm_id m) = Some x
    /\ all_hold like (filter_conditions (request_filter req realms) true
                        ++ space_condition (request_filter req realms)) x = true.
Proof.
  unfold retrieve. cbv zeta. destruct (query_vector R) as [qvec|]; [|by intros ?%not_elem_of_nil].
  assert (Hgen : forall realms, (intersect_realms scope (rq_realms req) = Scoped realms
      \/ intersect_realms scope (rq_realms req) = Unrestricted realms) ->
    forall hops limit denom, let p := if bool_decide (1 <= hops) && negb (bool_decide (candidates R s req qvec (request_filter req realms) = ∅))
               then graph_expand R scope realms hops limit (candidates R s req qvec (request_filter req realms))
               else (candidates R s req qvec (request_filter req realms), []) in
    m ∈ take limit (rerank_memories R (rq_query req) (descending rm_score (finalize R s denom <$> hash_order R (ppr_rescore R realms p.1)))) ->
    rm_via m = None ->
    exists x, view E w (rm_id m) = Some x
      /\ all_hold like (filter_conditions (request_filter req realms) true ++ space_condition (request_filter req realms)) x = true).
  { intros realms _ hops limit denom p Hm Hvia.
    pose proof (candidates_each R (direct like (view E w) _) s req qvec (request_filter req realms) (direct_rank_free _ _ _)
      (candidate_direct R like (view E w) Hans (request_filter req realms))) as Hc.
    apply (finalized_In R Hord) in Hm as (k & c & Hk & ->).
    assert (Hin : direct like (view E w) (filter_conditions (request_filter req realms) true
                    ++ space_condition (request_filter req realms)) k c).
    { eapply ppr_each; [apply direct_rank_free| |exact Hk]. subst p. destruct (bool_decide _ && _); [|exact Hc].
      by apply expand_direct. }
    destruct Hin as [<- Hx]. by apply Hx. }
  destruct (intersect_realms scope (rq_realms req)) as [realms|realms|] eqn:Hsc; [| |by intros ?%not_elem_of_nil].
  all: specialize (Hgen realms ltac:(auto) (Nat.min (default (default_expand_hops s) (rq_expand_hops req)) MAX_HOPS)
    (clamp_limit (default (default_limit s) (rq_limit req)))
    (f64_of_Z (Z.of_nat (Nat.max 1 (length (tokenize_query (is_alphanumeric R) (rq_query req))))))).
  all: cbv zeta in Hgen; destruct (if bool_decide _ && _ then _ else _) as [cands lk]; cbn [memories fst] in *;
    intros Hm Hvia; destruct (Hgen Hm Hvia) as (x & Hx & Hall); exists realms, x; auto.
Qed.
End Recall.

(** ** Redaction and texts *)

(** C18: redaction ends, and what it returns is the text with each private span
    replaced by the marker: a function of what lies outside the spans alone
    (the rules of [Redacted] never look inside one), with no opening tag left,
    so that redacting again changes nothing. *)
Theorem redaction_hides_private_spans s :
  exists r, redact_private s = Ret r /\ Redacted (as_bytes s) (as_bytes r)
    /\ (forall b, Redacted (as_bytes s) b -> b = as_bytes r)
    /\ find OPEN (lower (as_bytes r)) = None /\ redact_private r = Ret r.
Proof.
  destruct (redact_private_total s) as (r & Hr & HR). exists r. split; [done|]. split; [done|].
  split; [intros b Hb; by eapply Redacted_fun|]. pose proof (Redacted_no_tag _ _ HR) as Hno. split; [done|].
  destruct (redact_private_total r) as (r2 & Hr2 & HR2).
  rewrite Hr2. f_equal. rewrite <-(of_as_bytes r2), <-(of_as_bytes r). f_equal.
  by eapply Redacted_fun; [|apply redacted_none].
Qed.

(** C17: whatever texts a request carries (its query, its realms, tags, dates
    and agent), whatever ids the store holds, every query of a recall is one
    closed SQL statement: the texts stay inside their literals, and no comment
    and no second statement begins. *)
Theorem recall_texts_are_closed show_f32 show_f64 q :
  (forall x, closed_expr (show_f32 x)) -> (forall x, closed_expr (show_f64 x)) ->
  match q with
  | VectorRecall _ _ _ (Some t) => closed t
  | NearestActivity _ _ dist _ => closed dist
  | _ => True
  end ->
  closed (query_text show_f32 show_f64 q).
Proof.
  intros H32 H64 Hq. destruct q; cbn [query_text].
  - unfold recall_sql. apply closed_scored; [done|by apply closed_array| |by apply closed_where].
    destruct ann_threshold as [t|]; [|done]. intros d. pose proof (closed_array show_f32 H32 qvec). scan_template.
  - unfold recall_sql_for_ids. apply closed_scored; [done|by apply closed_array|done|by apply closed_where].
  - unfold keyword_recall_sql. apply closed_keywords; [done|]. intros d. rewrite scan_app, closed_where by done. done.
  - unfold keyword_recall_sql_for_ids. apply closed_keywords; [done|by apply closed_where].
  - by apply closed_neighbors.
  - by apply closed_nodes_by_id.
  - by apply closed_activity.
  - by apply closed_edges_into.
Qed.

(** ** Batches *)

Section Batches.
  Import Ingest.
  Context (json_text : Json -> string) (hash : list string -> nat * nat -> string).

End Batches.

(** ** Witnesses *)

Definition sample_policy : HitlPolicy :=
  {| enabled := true; ops := ops default_policy; confidence_threshold := f32_0_6; realm_scope := []; type_scope := [] |}.
Definition sample_gate (store : QueueStore) : HitlGate :=
  {| g_policy := sample_policy; g_store := store; g_resolver := Some "op"; g_source := "realtime"; g_source_run_id := None |}.
Definition sample_ctx (op : Op.t) : GateCtx :=
  {| gc_op := op; gc_realm := "r"; gc_mem_type := None; gc_confidence := None; gc_reason := None |}.





(** *** An engine

    The rows of a query, in the order of the tables; a pattern matches when
    what is between its wildcards occurs. *)
Definition plain_like (text pattern : string) : bool :=
  bool_decide (is_Some (find (as_bytes (replace "%" "" pattern)) (as_bytes text))).

Definition newest_rows (nodes : list Row) : list Row :=
  omap (fun id => pick_newest (versions id nodes)) (remove_dups (omap (fun r => get_str r "id") nodes)).

Definition in_realms (realms : list string) (r : Row) : bool :=
  is_empty realms || match get_str r "realm" with Some s => contains realms s | None => false end.

Definition run_query (nodes edges activities : list Row) (q : Query) : list Row :=
  match query_conds q with
  | Some conds => project NODE_DISPLAY <$> List.filter (all_hold plain_like conds) (newest_rows nodes)
  | None =>
      match q with
      | Neighbors seeds realms limit =>
          take limit (List.filter (fun r => (str_test r "src" (contains seeds) || str_test r "dst" (contains seeds))
                                            && in_realms realms r) edges)
      | NearestActivity _ realms _ limit => take limit (List.filter (in_realms realms) activities)
      | EdgesInto dst rel limit =>
          take limit (List.filter (fun r => str_test r "dst" (fun s => bool_decide (s = dst))
                                            && str_test r "type" (fun s => bool_decide (s = rel))) edges)
      | _ => []
      end
  end.

Lemma run_query_answers nodes edges activities :
  answers plain_like (fun id => pick_newest (versions id nodes)) (run_query nodes edges activities).
Proof.
  intros q conds r Hq Hr. unfold run_query in Hr. rewrite Hq in Hr.
  apply list_elem_of_fmap in Hr as (x & -> & Hx). apply list_elem_of_In, List.filter_In in Hx as [Hx Hall].
  apply list_elem_of_In, list_elem_of_omap in Hx as (id & _ & Hx).
  assert (Hid : get_str x "id" = Some id).
  { apply pick_newest_max in Hx as [Hx _]. by apply list_elem_of_filter in Hx as [? _]. }
  exists id, x. split; [by rewrite get_str_project by in_columns|]. do 2 (split; [done|]). split; [done|].
  intros c Hc. by apply col_project.
Qed.

(** Two memories of two realms and an edge from the first to the second. *)
Definition sample_edge : Row := edge_row (fun _ => "{}") "memory:a" "memory:b" "RELATES_TO" "r" None None "9".
Definition two_realms : World :=
  {| calls := 1; nodes := [sample_row "a" "r" "public"; sample_row "b" "other" "private:bob"]; mem_edges := [sample_edge];
     pg_queue := []; file_queue := Absent |}.

Definition sample_recall_env (w : World) (activities : list Row) : RecallEnv := {|
  execute := run_query (nodes w) (mem_edges w) activities;
  hash_order m := (map_to_list m).*2;
  query_vector := Some [f32_one];
  ann_candidate_ids := None;
  bm25_candidate_ids := None;
  recency _ := f64_of_Z 1;
  ppr_proximity := None;
  reranker := None;
  is_alphanumeric c := negb (is_whitespace c) |}.

Definition sample_settings (precedents : bool) : MemorySettings := {|
  default_limit := 8; default_expand_hops := 1; ann_threshold := None; precedent_enabled := precedents;
  precedent_max_distance := "0.15"; precedent_memory_limit := 5;
  rrf_k := f64_of_Z 60; w_rrf := f64_of_Z 1; w_semantic := f64_half; w_keyword := f64_half; w_graph := f64_half;
  w_importance := f64_half; w_recency := f64_half; w_reinforcement := f64_zero |}.

Definition sample_request (hops : nat) (space : option string) : RetrieveRequest := {|
  rq_query := "old"; rq_realms := []; rq_memory_type := None; rq_tags := []; rq_importance_min := None; rq_as_of := None;
  rq_include_invalidated := false; rq_limit := None; rq_expand_hops := Some hops; rq_space_agent := space |}.

Definition no_memory : RetrievedMemory := {|
  rm_id := ""; rm_memory_type := ""; rm_title := None; rm_content_preview := ""; rm_score := f64_zero; rm_distance := None;
  rm_kw_score := None; rm_graph_proximity := f64_zero; rm_importance := f64_zero; rm_realm := ""; rm_valid_at := None;
  rm_invalid_at := None; rm_via := None |}.

Definition first_memory (r : RetrieveResult) : RetrievedMemory := default no_memory (head (memories r)).
Lemma first_memory_In r : head (memories r) <> None -> first_memory r ∈ memories r.
Proof. unfold first_memory. destruct (memories r); [done|]. intros _. by left. Qed.

Definition sample_scoped : RetrieveResult :=
  retrieve (sample_recall_env two_realms []) (sample_settings false) (Some ["r"]) (sample_request 1 None).

Lemma restricted_recall_stays_in_scope_witness :
  rm_id <$> memories sample_scoped = ["memory:a"] /\
  (exists x, view sample_env two_realms (rm_id (first_memory sample_scoped)) = Some x
     /\ default "" (get_str x "realm") = rm_realm (first_memory sample_scoped)
     /\ rm_realm (first_memory sample_scoped) ∈ ["r"])
  /\ linked sample_scoped = [].
Proof.
  split; [vm_compute; reflexivity|].
  refine (restricted_recall_stays_in_scope (sample_recall_env two_realms []) plain_like sample_env two_realms
    (run_query_answers _ _ _) (fun m => Permutation_refl _) (sample_settings false) ["r"] (sample_request 1 None)
    (first_memory sample_scoped) (first_memory_In _ _)).
  vm_compute. discriminate.
Defined.

Definition sample_open : RetrieveResult :=
  retrieve (sample_recall_env two_realms []) (sample_settings false) None (sample_request 0 (Some "alice")).

Lemma direct_hits_satisfy_the_filter_witness :
  rm_id (first_memory sample_open) = "memory:a" /\
  exists realms x, (intersect_realms None [] = Scoped realms \/ intersect_realms None [] = Unrestricted realms)
    /\ view sample_env two_realms (rm_id (first_memory sample_open)) = Some x
    /\ all_hold plain_like (filter_conditions (request_filter (sample_request 0 (Some "alice")) realms) true
                              ++ space_condition (request_filter (sample_request 0 (Some "alice")) realms)) x = true.
Proof.
  split; [vm_compute; reflexivity|].
  refine (direct_hits_satisfy_the_filter (sample_recall_env two_realms []) plain_like sample_env two_realms
    (run_query_answers _ _ _) (fun m => Permutation_refl _) (sample_settings false) None (sample_request 0 (Some "alice"))
    (first_memory sample_open) (first_memory_In _ _) _); vm_compute; [discriminate|reflexivity].
Defined.

Lemma recall_texts_are_closed_witness :
  closed (query_text (fun _ => "0.5") (fun _ => "0.5") (Neighbors ["a'; DROP TABLE x --"] ["r"] 10)).
Proof.
  apply (recall_texts_are_closed (fun _ => "0.5") (fun _ => "0.5") (Neighbors ["a'; DROP TABLE x --"] ["r"] 10)).
  - intros _ d m Hm. destruct m; [reflexivity|reflexivity|contradiction].
  - intros _ d m Hm. destruct m; [reflexivity|reflexivity|contradiction].
  - exact I.
Defined.

(** ** Where the code falls short *)

(** A mutation reads the newest version with [latest_node_sql], which does not
    select [space], and writes back what it read: a private memory whose
    content is updated has no space any more, hence is shared. *)
Lemma update_makes_private_memories_public :
  let before := view sample_env sample_world "memory:a" in
  let after := view sample_env (apply_op sample_env (Payload.Update "memory:a" "new") sample_world).2 "memory:a" in
  cond_holds plain_like (SharedOr "alice") <$> before = Some false
  /\ cond_holds plain_like (SharedOr "alice") <$> after = Some true.
Proof. vm_compute. done. Qed.

(** Neighbours are not filtered by the agent: a memory private to another agent
    is returned when an edge leads to it. *)
Lemma neighbours_escape_the_space_filter :
  let r := retrieve (sample_recall_env two_realms []) (sample_settings false) None (sample_request 1 (Some "alice")) in
  In "memory:b" (rm_id <$> memories r)
  /\ cond_holds plain_like (SharedOr "alice") <$> view sample_env two_realms "memory:b" = Some false.
Proof. vm_compute. auto. Qed.

(** The memories of a precedent are not filtered by realm: a restricted token
    learns the name of a memory of a realm it may not touch. *)
Definition sample_activity : Row := list_to_map [("id", JString "activity:1"); ("realm", JString "r")].
Definition derived_edge : Row := edge_row (fun _ => "{}") "memory:b" "activity:1" EDGE_DERIVED_FROM "other" None None "9".
Definition with_precedent : World :=
  {| calls := 1; nodes := nodes two_realms; mem_edges := [sample_edge; derived_edge]; pg_queue := []; file_queue := Absent |}.
Lemma precedents_escape_the_realms :
  let r := retrieve (sample_recall_env with_precedent [sample_activity]) (sample_settings true) (Some ["r"])
             (sample_request 1 None) in
  pb_memory_ids <$> precedent r = Some ["memory:b"].
Proof. vm_compute. done. Qed.

(** A file of the queue that cannot be parsed counts as empty, and the next row
    overwrites it: what was pending is lost. *)
Lemma unparsable_queue_is_overwritten row w :
  file_queue w = Unparsable -> file_queue (insert_row sample_env Local row w).2 = Stored [row].
Proof. unfold insert_row, call. cbn. by intros ->. Qed.

(** [resolve] reads the row, applies its operation and only then stamps it: when
    another approval of the row runs in between, the operation is applied twice. *)
Definition pending_world : World :=
  (dispatch sample_env (sample_gate Local) (sample_ctx Op.Invalidate)
     (Payload.Supersede "memory:a" "memory:b") (mret nothing_applied) sample_world).2.
Definition racing_env : Env := {|
  others n w := if decide (n = S (calls pending_world)) then
                  (resolve sample_env (sample_gate Local) "u9" Approve None None w).2 else w;
  fault := fault sample_env; now_rfc3339 := now_rfc3339 sample_env; new_uuid := new_uuid sample_env;
  embed := embed sample_env; json_text := json_text sample_env; pg_time := pg_time sample_env;
  newest := newest sample_env |}.
Lemma concurrent_approvals_apply_twice :
  let w := (resolve racing_env (sample_gate Local) "u9" Approve None None pending_world).2 in
  length (nodes w) = length (nodes sample_world) + 2.
Proof. vm_compute. done. Qed.

(** The inverse of a creation ignores a failed read: the row is marked rolled
    back and the memory stays. *)
Definition failing_read : Env := {|
  others := others sample_env; fault _ := Some "unavailable"; now_rfc3339 := now_rfc3339 sample_env;
  new_uuid := new_uuid sample_env; embed := embed sample_env; json_text := json_text sample_env;
  pg_time := pg_time sample_env; newest := newest sample_env |}.
Lemma failed_read_counts_as_undone :
  (apply_inverse_inner failing_read (ArchiveNode "memory:a") sample_world).1 = Ret tt
  /\ (recall (view failing_read (apply_inverse_inner failing_read (ArchiveNode "memory:a") sample_world).2 "memory:a")
        ≫= fun r => get_str r "status") = Some "active".
Proof. vm_compute. split; reflexivity. Qed.

(** Spans do not nest: what follows the first closing tag is kept. *)
Lemma nested_spans_leak :
  redact_private "a <private>b <private>c</private> secret</private> d" = Ret "a [redacted] secret</private> d".
Proof. vm_compute. done. Qed.
